(* ===== verification/_CoqProject ===== *)
-Q . S2P
Prelude.v
StateM.v
DB.v
SafeMath.v
BitArray.v
Merkle.v
PartSet.v
Wire.v
Types.v
Crypto.v
QuorumSign.v
Proposal.v
PrivVal.v
PrivValThms.v
ValidatorSet.v
ValidatorUpdate.v
Recoverer.v
VoteSet.v
VoteSetInv.v
VoteSetSeal.v
VoteSetSafe.v
VoteSetLive.v
VoteSetThms.v
HeightVoteSet.v
HeightVoteSetThms.v
Evidence.v
Block.v
Params.v
Txs.v
SmState.v
SmStateThms.v
SmProto.v
Execution.v
ExecutionThms.v
ExecutionDemo.v
SelectProposer.v
StateStore.v
StateStoreThms.v
StateStoreDemo.v
BlockStore.v
BlockStoreThms.v
BlockStoreDemo.v
Rollback.v
RollbackDemo.v
Mempool.v
MempoolThms.v
MempoolDemo.v
MempoolIDs.v
EvPool.v
EvPoolThms.v
EvPoolDemo.v
VotesSound.v
ConsensusTypes.v
ConsensusData.v
ConsensusVote.v
ConsensusSteps.v
ConsensusInv.v
ConsensusSafe.v
ConsensusCommit.v
ConsensusRuns.v
Agreement.v
ConsensusDemo.v
