(* ===== verification/Prelude.v ===== *)
(** * A verification library for Tenderdash

    Tenderdash is a Byzantine-fault-tolerant replication engine written in Go.
    Validators agree on one block per height by voting in rounds; a quorum of votes
    yields a threshold signature, the commit of the block, and the block is handed to
    an application.  The library models the code under [src/] as Rocq functions and
    proves what makes them correct.

    ** How the program is read

    A Go function that may fail returns an [outcome]: [Ok], [Err] with a value for each
    error, or [Panic].  A method that changes its receiver returns the new receiver, or
    runs in the state monad of [StateM].  A pointer that may be nil is an [option].
    Integers are [Z] and wrap at their width where the code can overflow.  Objects that
    the code shares and mutates are in an explicit heap (the proof nodes of [Merkle], the
    votes whose verification is remembered in [QuorumSign]).  Where Go leaves an order
    open (ranges over maps) the order is a parameter.  Code outside [src/] (hash
    functions, the BLS bindings, the encoding of times, URL parsing, the application
    behind ABCI) is a class; the laws a theorem needs are among its hypotheses, and a
    witness shows an instance that satisfies them.

    ** Parts

    - Shared: [Prelude] (outcomes, machine integers, slices), [StateM] (the state monad,
      its triples and inversion tactics).
    - Arithmetic and data: [SafeMath] (libs/math), [BitArray] (libs/bits), [Merkle]
      (crypto/merkle), [Wire] (protobuf and binary encodings), [Crypto] (keys, digests,
      threshold recovery).
    - Messages of consensus: [Types] (block ids, votes, extensions, commits), [Proposal],
      [Evidence], [Block] (headers, blocks, their hashes), [PartSet] (block parts),
      [Params] (consensus parameters), [Txs] (transactions and the records an application
      returns).
    - Signing: [QuorumSign] (what is signed and how it is verified), [PrivVal] and
      [PrivValThms] (the file signer, with failing writes, restarts and crashes).
    - Validators: [ValidatorSet], [ValidatorUpdate] (what an update does),
      [SelectProposer] (whose turn it is).
    - Votes: [VoteSet] and its theories [VoteSetInv], [VoteSetSeal], [VoteSetSafe],
      [VoteSetLive], [VoteSetThms]; [Recoverer] (threshold signatures from votes);
      [HeightVoteSet], [HeightVoteSetThms] (all rounds of a height).
    - The chain: [SmState], [SmStateThms] (internal/state: the state, the changes of a
      round, block validation); [Execution], [ExecutionThms], [ExecutionDemo]
      (BlockExecutor: creating, processing, finalizing and applying blocks).
    - The stores: [DB] (libs/db: the in-memory database, batches, iterators and prefixed
      views, with operations that fail), [SmProto] (stored forms of validator sets and of
      the state, genesis), [StateStore], [StateStoreThms], [StateStoreDemo]
      (internal/state: the state store), [BlockStore], [BlockStoreThms], [BlockStoreDemo]
      (internal/store: the block store), [Rollback], [RollbackDemo] (taking back the last
      state and block, over both stores).
    - The mempool: [Mempool] (internal/mempool: the pool, its cache, and the sections of the
      calls that run concurrently as steps), [MempoolThms], [MempoolDemo], [MempoolIDs] (the
      short ids of peers).
    - The evidence pool: [EvPool] (internal/evidence: pending and committed evidence, checks of
      blocks, expiry, admission of messages), [EvPoolThms], [EvPoolDemo].
    - The state machine: [ConsensusTypes] (round state, configuration, the world of a
      node), [ConsensusData] (state_data.go, commit candidates, block executor calls),
      [ConsensusVote] (prevotes and proposals), [ConsensusSteps] (every action, message and
      timeout handler of internal/consensus); [ConsensusInv], [ConsensusSafe],
      [ConsensusCommit], [ConsensusRuns] (invariants of one node), [VotesSound], [Agreement]
      (many nodes), [ConsensusDemo] (a run of two nodes).

    ** How the parts interact

    [ConsensusSteps.handle] takes one message or timeout, as [receiveRoutine] does, and
    runs the actions of the state machine on a [Node]: its round state, its vote sets, its
    signer, the block store and the executor.  Votes enter through [HeightVoteSet], which
    verifies them with [QuorumSign] and tallies them in [VoteSet]; a majority of precommits
    becomes a commit, and [ApplyCommit] saves the block and calls the executor.  Consensus
    is modelled against the class [Executor]; [BlockExecutor_Executor] is the instance that
    [Execution] defines.  The executor calls the application, the mempool, the evidence
    pool and the stores through the classes [ABCI], [Mempool], [EvidencePool] and [Stores];
    the state store of [StateStore] is modelled on its own, over the database of [DB].

    ** What the theorems show

    - Agreement: nodes that follow the modelled code do not store different blocks at one
      height while the faulty voting power is below the bound of the quorum
      ([agreement_safe]); each node votes once per step and respects its lock
      ([one_vote_per_round], [voting_rules]) and stores only decided blocks
      ([saved_blocks_decided]).  Messages are arbitrary and arrive in any order, timeouts
      fire at any time; the clock, the permits of the verification budgets and the outcome
      of writes to the log come from an oracle.  The hypotheses on the executor (class
      [Assumptions] of [ConsensusSafe]) say that it returns a state of the next height that
      names the block it finalized; [be_FinalizeBlock_spec] shows this of the block executor
      for the changes that the application made, but the two are not composed.
    - Execution: accepted blocks are a run of a light client, which sees headers, hashes and
      the commits in the blocks, that certify the blocks before them
      ([apply_blocks_refines]), states stay well formed ([FinalizeBlock_type]), a block that
      is refused before it is executed leaves the stores and the mempool alone
      ([ApplyBlock_refused] says what remains after every error), own proposals pass
      validation ([proposal_valid]), and validation accepts exactly the blocks that may come
      next ([validation_exact]).
    - Votes: the invariant and memory bound of reachable vote sets, validity of the
      commits made from them, no missed majority, and accountability of double signing.
    - Signing: the file signer never signs two different blocks in one step, whatever writes
      fail, unless it is restarted after it released a signature that its file does not
      account for ([no_double_sign]); [failed_write_releases] shows how it comes to that, and
      [resigned_proposal] another defect of its error paths.
    - Encodings and hashes: injectivity of sign bytes, binding of block ids, soundness
      (for the index only when the total is the right one) and completeness of Merkle proofs,
      assembly of part sets.
    - Stores: the state store gives back what was saved for every height that was not
      pruned, although it keeps references ([store_refines]), except for changes of the
      quorum that are not marked ([silent_change_lost]), and pruning leaves exactly what is
      needed ([prune_exact]); the block store gives back the blocks of an interval of heights
      while only its last block is deleted ([block_store_refines], [save_block_next],
      [prune_blocks_exact]); rolling back restores the previous state but for its round and
      its hashes, and removes the block when asked to ([rollback_restores]); a prefixed database
      is a database of its own ([prefixdb_refines]) unless its prefix ends in 0xFF
      ([prefix_backward_misses]).
    - Mempool: whatever the interleaving of calls, the size and the indexes agree with the
      list and nothing panics ([pool_invariant]), the limits are exceeded by less than one
      transaction per call ([pool_limits]); a call alone is all or nothing
      ([CheckTx_all_or_nothing]), reaping takes the longest prefix by priority
      ([reap_longest_prefix]); a transaction that the cache forgot is inserted twice
      ([duplicate_stays]); ids of peers are unique and found in one turn of the counter
      ([peer_ids_unique]).
    - Evidence pool: whatever it is offered, and whatever fails in its database, it gossips and
      offers proven evidence only ([pool_sound]); the answer for a block and the records of a
      commit are exact ([check_exact], [commit_exact]), yet evidence can be committed twice
      ([recommitted]).

    ** Bounds and fuel

    Loops whose recursion is not structural take fuel; each has a theorem or lemma that its
    fuel suffices ([SetRound_total], [raise_index] of [ValidatorSet], [search_loop] of
    [Txs], [read_fuel] of [PartSet]).  [ConsensusSteps.run] handles a list of events, one at
    a time; the messages a node sends to itself are in its queue and are events of the run.
    The loop of [pruneRange] takes the number of stored items as fuel, of which it removes
    at least one per turn ([prune_loop_erases]), as does that of the block store
    ([bprune_loop_spec]).  The search for a
    free id takes as many turns as there are 16-bit numbers ([skip_active_ends]).

    ** Not modelled

    Start-up, replay of the write-ahead log and restarts of the consensus state machine;
    metrics, events to subscribers and logging; locks and goroutines (each handler runs to
    its end; methods that hold a mutex for their whole body are atomic); rate limiters,
    whose answers come from an oracle; gossip, peers and transports, which are covered by
    messages arriving in any order; RPC, indexers, command line and configuration files.
*)
From Stdlib Require Import ZArith Lia Init.Byte Strings.Byte Sorted.
From stdpp Require Import base numbers list gmap countable fin_maps strings.

(** ** Go functions that may fail

    A Go function returns [(T, error)] or panics.  [Ok] is a return with a nil
    error, [Err] a return with a non-nil error, [Panic] a run-time panic (an
    index out of range, a nil dereference, a division by zero or an explicit
    [panic]). *)

Inductive outcome (E A : Type) : Type :=
  | Ok (a : A)
  | Err (e : E)
  | Panic.
Arguments Ok {E A} a.
Arguments Err {E A} e.
Arguments Panic {E A}.

Global Instance outcome_ret {E} : MRet (outcome E) := λ A a, Ok a.
Global Instance outcome_bind {E} : MBind (outcome E) := λ A B f m,
  match m with Ok a => f a | Err e => Err e | Panic => Panic end.
Global Instance outcome_map {E} : FMap (outcome E) := λ A B f m,
  match m with Ok a => Ok (f a) | Err e => Err e | Panic => Panic end.

Global Instance outcome_eq_dec {E A} `{EqDecision E} `{EqDecision A} :
  EqDecision (outcome E A).
Proof. solve_decision. Defined.

(** [require b e] is the early return [if !b { return e }]. *)
Definition require {E} (b : bool) (e : E) : outcome E unit :=
  if b then Ok tt else Err e.

(** [deref p] dereferences a pointer; a nil pointer panics. *)
Definition deref {E A} (p : option A) : outcome E A :=
  match p with Some a => Ok a | None => Panic end.

(** [wrap_err f m] is [if err != nil { return fmt.Errorf("...: %w", err) }]. *)
Definition wrap_err {E F A} (f : E → F) (m : outcome E A) : outcome F A :=
  match m with Ok a => Ok a | Err e => Err (f e) | Panic => Panic end.

(** [is_ok m] is [err == nil]. *)
Definition is_ok {E A} (m : outcome E A) : bool :=
  match m with Ok _ => true | _ => false end.

Section outcome.
Context {E A B : Type}.
Implicit Types (m : outcome E A) (f : A → outcome E B).

Lemma bind_Ok m f b : m ≫= f = Ok b ↔ ∃ a, m = Ok a ∧ f a = Ok b.
Proof. destruct m; cbn; naive_solver. Qed.

Lemma bind_Err m f e :
  m ≫= f = Err e ↔ m = Err e ∨ ∃ a, m = Ok a ∧ f a = Err e.
Proof. destruct m; cbn; naive_solver. Qed.

Lemma bind_Panic m f :
  m ≫= f = Panic ↔ m = Panic ∨ ∃ a, m = Ok a ∧ f a = Panic.
Proof. destruct m; cbn; naive_solver. Qed.

Lemma require_Ok b (e : E) u : require b e = Ok u ↔ b = true.
Proof. destruct b, u; cbn; naive_solver. Qed.

Lemma require_Err b (e e' : E) : require b e = Err e' ↔ b = false ∧ e' = e.
Proof. destruct b; cbn; naive_solver. Qed.

Lemma deref_Ok (p : option A) a : deref (E:=E) p = Ok a ↔ p = Some a.
Proof. destruct p; cbn; naive_solver. Qed.

Lemma is_ok_spec m : is_ok m = true ↔ ∃ a, m = Ok a.
Proof. destruct m; cbn; naive_solver. Qed.

(** An early return with an error. *)
Lemma guard_Ok (b : bool) (e : E) m a : (if b then Err e else m) = Ok a ↔ b = false ∧ m = Ok a.
Proof. destruct b; naive_solver. Qed.

Lemma wrap_err_Ok {F} (f : E → F) m a : wrap_err f m = Ok a ↔ m = Ok a.
Proof. destruct m; cbn; naive_solver. Qed.
End outcome.

(** Inverts every hypothesis that says a computation returned. *)
Ltac outcome_inv :=
  repeat match goal with
  | H : (_ ≫= _) = Ok _ |- _ => apply bind_Ok in H as (? & ? & H)
  | H : require _ _ = Ok _ |- _ => apply require_Ok in H
  | H : deref _ = Ok _ |- _ => apply deref_Ok in H
  | H : wrap_err _ _ = Ok _ |- _ => apply wrap_err_Ok in H
  | H : Ok _ = Ok _ |- _ => injection H as H; try subst
  | H : mret _ = Ok _ |- _ => injection H as H; try subst
  | H : Err _ = Ok _ |- _ => discriminate H
  | H : Panic = Ok _ |- _ => discriminate H
  end.

(** The result of a step that returns nothing. *)
Ltac units := repeat match goal with u : unit |- _ => destruct u end.

(** The same through conditionals, keeping the branches that can return. *)
Ltac ok_inv :=
  repeat (outcome_inv;
    match goal with
    | H : (if ?b then _ else _) = Ok _ |- _ => destruct b eqn:?; try discriminate H
    end); outcome_inv.

(** Runs the monadic operations of a goal without unfolding anything else. *)
Ltac orun := cbn [mbind outcome_bind mret outcome_ret fmap outcome_map].

(** ** Machine integers

    A Go integer of [w] bits is a [Z] kept in range by wrapping. *)

Definition uwrap (w z : Z) : Z := z mod 2 ^ w.
Definition swrap (w z : Z) : Z := (z + 2 ^ (w - 1)) mod 2 ^ w - 2 ^ (w - 1).

Notation int8 := (swrap 8).
Notation int16 := (swrap 16).
Notation int32 := (swrap 32).
Notation int64 := (swrap 64).
Notation uint8 := (uwrap 8).
Notation uint16 := (uwrap 16).
Notation uint32 := (uwrap 32).
Notation uint64 := (uwrap 64).

Definition MaxInt8 : Z := 127.
Definition MinInt8 : Z := -128.
Definition MaxInt16 : Z := 32767.
Definition MinInt16 : Z := -32768.
Definition MaxInt32 : Z := 2147483647.
Definition MinInt32 : Z := -2147483648.
Definition MaxInt64 : Z := 9223372036854775807.
Definition MinInt64 : Z := -9223372036854775808.
Definition MaxUint8 : Z := 255.
Definition MaxUint16 : Z := 65535.
Definition MaxUint32 : Z := 4294967295.
Definition MaxUint64 : Z := 18446744073709551615.

Definition in_int64 (z : Z) : Prop := (MinInt64 ≤ z ≤ MaxInt64)%Z.
Definition in_int32 (z : Z) : Prop := (MinInt32 ≤ z ≤ MaxInt32)%Z.
Definition in_uint64 (z : Z) : Prop := (0 ≤ z ≤ MaxUint64)%Z.

Ltac unfold_ints :=
  unfold in_int64, in_int32, in_uint64, MaxInt8, MinInt8, MaxInt16, MinInt16,
    MaxInt32, MinInt32, MaxInt64, MinInt64, MaxUint8, MaxUint16, MaxUint32,
    MaxUint64 in *.

Section machine.
Local Open Scope Z_scope.

Lemma uwrap_id w z : 0 ≤ z < 2 ^ w → uwrap w z = z.
Proof. intros; by apply Z.mod_small. Qed.

Lemma swrap_id w z : 0 < w → - 2 ^ (w - 1) ≤ z < 2 ^ (w - 1) → swrap w z = z.
Proof.
  intros Hw Hz. unfold swrap.
  assert (2 ^ w = 2 * 2 ^ (w - 1)) as E
    by (rewrite <- Z.pow_succ_r by lia; f_equal; lia).
  rewrite Z.mod_small; lia.
Qed.

Lemma uwrap_range w z : 0 ≤ w → 0 ≤ uwrap w z < 2 ^ w.
Proof. intros. apply Z.mod_pos_bound. lia. Qed.

Lemma swrap_range w z : 0 < w → - 2 ^ (w - 1) ≤ swrap w z < 2 ^ (w - 1).
Proof.
  intros Hw. unfold swrap.
  assert (2 ^ w = 2 * 2 ^ (w - 1)) as E
    by (rewrite <- Z.pow_succ_r by lia; f_equal; lia).
  pose proof (Z.mod_pos_bound (z + 2 ^ (w - 1)) (2 ^ w)). lia.
Qed.

Lemma int64_id z : in_int64 z → swrap 64 z = z.
Proof. unfold_ints. intros. apply swrap_id; lia. Qed.

Lemma int32_id z : in_int32 z → swrap 32 z = z.
Proof. unfold_ints. intros. apply swrap_id; lia. Qed.

Lemma uint64_id z : in_uint64 z → uwrap 64 z = z.
Proof. unfold_ints. intros. apply uwrap_id; lia. Qed.

Lemma int64_range z : in_int64 (swrap 64 z).
Proof. unfold_ints. pose proof (swrap_range 64 z). lia. Qed.

Lemma int64_add_l a b : int64 (int64 a + b) = int64 (a + b).
Proof.
  unfold swrap. f_equal. replace ((a + 2 ^ (64 - 1)) mod 2 ^ 64 - 2 ^ (64 - 1) + b +
    2 ^ (64 - 1))%Z with ((a + 2 ^ (64 - 1)) mod 2 ^ 64 + b)%Z by lia.
  rewrite Zplus_mod_idemp_l. f_equal. lia.
Qed.

Lemma int32_range z : in_int32 (swrap 32 z).
Proof. unfold_ints. pose proof (swrap_range 32 z). lia. Qed.
End machine.

Create HintDb machine.
#[export] Hint Resolve int64_range int32_range : machine.

(** Removes every wrap-around that [lia] can show to be the identity. *)
Ltac unwrap_ints :=
  unfold_ints;
  repeat match goal with
  | |- context [swrap ?w ?z] => rewrite (swrap_id w z) by lia
  | |- context [uwrap ?w ?z] => rewrite (uwrap_id w z) by lia
  | H : context [swrap ?w ?z] |- _ => rewrite (swrap_id w z) in H by lia
  | H : context [uwrap ?w ?z] |- _ => rewrite (uwrap_id w z) in H by lia
  end.

(** [lia] for goals with division and remainder by constants. *)
Ltac div_lia := Z.to_euclidean_division_equations; lia.

(** Turns boolean comparisons in the context and the goal into propositions. *)
Ltac bools :=
  repeat match goal with
  | H : (_ && _)%bool = true |- _ => apply andb_true_iff in H as [? ?]
  | H : (_ && _)%bool = false |- _ => apply andb_false_iff in H as [H|H]
  | H : (_ || _)%bool = true |- _ => apply orb_true_iff in H as [H|H]
  | H : (_ || _)%bool = false |- _ => apply orb_false_iff in H as [? ?]
  | H : negb _ = true |- _ => apply negb_true_iff in H
  | H : negb _ = false |- _ => apply negb_false_iff in H
  | H : (_ <? _)%Z = true |- _ => apply Z.ltb_lt in H
  | H : (_ <? _)%Z = false |- _ => apply Z.ltb_ge in H
  | H : (_ <=? _)%Z = true |- _ => apply Z.leb_le in H
  | H : (_ <=? _)%Z = false |- _ => apply Z.leb_gt in H
  | H : (_ >? _)%Z = _ |- _ => rewrite Z.gtb_ltb in H
  | H : (_ >=? _)%Z = _ |- _ => rewrite Z.geb_leb in H
  | H : (_ =? _)%Z = true |- _ => apply Z.eqb_eq in H
  | H : (_ =? _)%Z = false |- _ => apply Z.eqb_neq in H
  | H : (_ =? _)%nat = true |- _ => apply Nat.eqb_eq in H
  | H : (_ =? _)%nat = false |- _ => apply Nat.eqb_neq in H
  | H : (_ <? _)%nat = true |- _ => apply Nat.ltb_lt in H
  | H : (_ <? _)%nat = false |- _ => apply Nat.ltb_ge in H
  | H : (_ <=? _)%nat = true |- _ => apply Nat.leb_le in H
  | H : (_ <=? _)%nat = false |- _ => apply Nat.leb_gt in H
  | H : bool_decide _ = true |- _ => apply bool_decide_eq_true in H
  | H : bool_decide _ = false |- _ => apply bool_decide_eq_false in H
  end.

(** Case analysis on the guard of a conditional of the goal. *)
Ltac split_if :=
  match goal with
  | |- context [match ?b with _ => _ end] =>
      match type of b with
      | bool => destruct b eqn:?
      | Decision _ => destruct b
      | {_} + {_} => destruct b
      end
  end.

(** ** Bytes

    A Go [[]byte] or [string] is a list of bytes; [nil] and the empty slice are
    the same list unless a component says otherwise. *)

Notation bytes := (list Byte.byte).

Global Instance byte_eq_dec : EqDecision Byte.byte := Byte.byte_eq_dec.
Global Program Instance byte_countable : Countable Byte.byte :=
  inj_countable Byte.to_N Byte.of_N _.
Next Obligation. apply Byte.of_to_N. Qed.

(** [bytes.Compare]. *)
Fixpoint bytes_compare (a b : bytes) : comparison :=
  match a, b with
  | [], [] => Eq
  | [], _ => Lt
  | _, [] => Gt
  | x :: a', y :: b' =>
      match N.compare (Byte.to_N x) (Byte.to_N y) with
      | Eq => bytes_compare a' b'
      | c => c
      end
  end.

Lemma to_N_inj x y : Byte.to_N x = Byte.to_N y → x = y.
Proof.
  intros H. pose proof (Byte.of_to_N x) as Hx. rewrite H, Byte.of_to_N in Hx.
  by injection Hx.
Qed.

Lemma bytes_compare_eq a b : bytes_compare a b = Eq ↔ a = b.
Proof.
  revert b. induction a as [|x a IH]; intros [|y b]; cbn; try done.
  destruct (N.compare_spec (Byte.to_N x) (Byte.to_N y)) as [E|E|E].
  - apply to_N_inj in E as ->. rewrite IH. naive_solver.
  - split; [done|]. intros [= -> _]. lia.
  - split; [done|]. intros [= -> _]. lia.
Qed.

Lemma bytes_compare_antisym a b : bytes_compare b a = CompOpp (bytes_compare a b).
Proof.
  revert b. induction a as [|x a IH]; intros [|y b]; cbn; try done.
  rewrite (N.compare_antisym (Byte.to_N x)), IH. by destruct (N.compare _ _).
Qed.

Lemma bytes_compare_lt_trans a b c :
  bytes_compare a b = Lt → bytes_compare b c = Lt → bytes_compare a c = Lt.
Proof.
  revert b c. induction a as [|x a IH]; intros [|y b] [|z c]; cbn; try done.
  destruct (N.compare_spec (Byte.to_N x) (Byte.to_N y)) as [Exy|?|?]; try done;
    destruct (N.compare_spec (Byte.to_N y) (Byte.to_N z)) as [Eyz|?|?]; try done;
    destruct (N.compare_spec (Byte.to_N x) (Byte.to_N z)) as [Exz|?|?]; try done;
    try lia. apply IH.
Qed.

(** The order of [bytes.Compare]. *)
Definition bytes_le (a b : bytes) : Prop := bytes_compare a b ≠ Gt.
Definition bytes_ltb (a b : bytes) : bool :=
  match bytes_compare a b with Lt => true | _ => false end.

Global Instance bytes_le_dec a b : Decision (bytes_le a b).
Proof. unfold bytes_le. apply _. Defined.

Global Instance bytes_le_total : Total bytes_le.
Proof.
  intros a b. unfold bytes_le. rewrite (bytes_compare_antisym a b).
  destruct (bytes_compare a b); cbn; auto.
Qed.

Global Instance bytes_le_trans : Transitive bytes_le.
Proof.
  intros a b c Hab Hbc. unfold bytes_le in *.
  destruct (bytes_compare a b) eqn:E1; [|clear Hab|done].
  { apply bytes_compare_eq in E1 as ->. done. }
  destruct (bytes_compare b c) eqn:E2; [| |done].
  { apply bytes_compare_eq in E2 as <-. by rewrite E1. }
  by rewrite (bytes_compare_lt_trans a b c).
Qed.

Global Instance bytes_le_antisym : AntiSymm (=) bytes_le.
Proof.
  intros a b. unfold bytes_le. rewrite (bytes_compare_antisym a b). intros H1 H2.
  apply bytes_compare_eq. by destruct (bytes_compare a b).
Qed.

Lemma bytes_ltb_le a b : bytes_ltb a b = false ↔ bytes_le b a.
Proof.
  unfold bytes_ltb, bytes_le. rewrite (bytes_compare_antisym a b).
  by destruct (bytes_compare a b).
Qed.

Lemma bytes_ltb_lt a b : bytes_ltb a b = true ↔ bytes_le a b ∧ a ≠ b.
Proof.
  unfold bytes_ltb, bytes_le. rewrite <- bytes_compare_eq. by destruct (bytes_compare a b); naive_solver.
Qed.

Lemma bytes_compare_app p a b : bytes_compare (p ++ a) (p ++ b) = bytes_compare a b.
Proof. induction p as [|x p IH]; [done|]. cbn. by rewrite N.compare_refl. Qed.

(** ** Filters *)

Lemma filter_in_iff {A} (P Q : A → Prop) `{!∀ x, Decision (P x), !∀ x, Decision (Q x)} (l : list A) :
  (∀ x, x ∈ l → P x ↔ Q x) → filter P l = filter Q l.
Proof.
  induction l as [|x l IH]; intros Hl; [done|]. rewrite !filter_cons.
  rewrite IH by (intros; apply Hl; by right). apply decide_ext, Hl. by left.
Qed.

Lemma filter_none {A} (P : A → Prop) `{!∀ x, Decision (P x)} (l : list A) :
  (∀ x, x ∈ l → ¬ P x) → filter P l = [].
Proof.
  induction l as [|x l IH]; intros Hl; [done|]. rewrite filter_cons_False by (apply Hl; by left).
  apply IH. intros y Hy. apply Hl. by right.
Qed.

Lemma filter_all {A} (P : A → Prop) `{!∀ x, Decision (P x)} (l : list A) :
  (∀ x, x ∈ l → P x) → filter P l = l.
Proof.
  induction l as [|x l IH]; intros Hl; [done|]. rewrite filter_cons_True by (apply Hl; by left).
  f_equal. apply IH. intros y Hy. apply Hl. by right.
Qed.

Lemma StronglySorted_filter {A} (R : relation A) (P : A → Prop) `{!∀ x, Decision (P x)} l :
  Sorted.StronglySorted R l → Sorted.StronglySorted R (filter P l).
Proof.
  induction 1 as [|x l Hs IH Hx]; [constructor|]. rewrite filter_cons.
  destruct (decide (P x)); [|done]. constructor; [done|].
  rewrite Forall_forall in *. intros y [_ Hy]%list_elem_of_filter. auto.
Qed.

(** ** Loops and slices *)

(** [for j := i; j < i+n; j++ { s = body(j, s) }], left early by an error. *)
Fixpoint for_range {E S} (n i : nat) (body : nat → S → outcome E S) (s : S) :
    outcome E S :=
  match n with
  | O => Ok s
  | Datatypes.S n' => s' ← body i s; for_range n' (Datatypes.S i) body s'
  end.

(** [make([]T, n)]: a negative length panics. *)
Definition make_slice {E A} (zero : A) (n : Z) : outcome E (list A) :=
  if (n <? 0)%Z then Panic else Ok (replicate (Z.to_nat n) zero).

(** [copy(dst, src)]. *)
Definition go_copy {A} (dst src : list A) : list A :=
  take (length dst) src ++ drop (length src) dst.

(** [s[i]] and [s[i] = x] for a Go [int] index. *)
Definition index {E A} (l : list A) (i : Z) : outcome E A :=
  if (i <? 0)%Z then Panic else deref (l !! Z.to_nat i).
Definition set_index {E A} (l : list A) (i : Z) (x : A) : outcome E (list A) :=
  if ((i <? 0) || (Z.of_nat (length l) <=? i))%Z then Panic
  else Ok (<[Z.to_nat i := x]> l).

Section loops.
Context {E S : Type}.

Lemma for_range_inv (I : nat → S → Prop) n i (body : nat → S → outcome E S) s :
  (∀ j s, i ≤ j < i + n → I j s → ∃ s', body j s = Ok s' ∧ I (Datatypes.S j) s') →
  I i s → ∃ s', for_range n i body s = Ok s' ∧ I (i + n) s'.
Proof.
  revert i s. induction n as [|n IH]; intros i s Hb Hi; cbn.
  { exists s. by rewrite Nat.add_0_r. }
  destruct (Hb i s) as (s1 & -> & H1); [lia|done|]. cbn.
  destruct (IH (Datatypes.S i) s1) as (s2 & -> & H2); [|done|].
  { intros j s' ? ?. apply Hb; [lia|done]. }
  exists s2. split; [done|]. by replace (i + Datatypes.S n) with (Datatypes.S i + n) by lia.
Qed.

(** The same, with a postcondition the final invariant implies. *)
Lemma for_range_post (I : nat → S → Prop) (Q : S → Prop) n i
    (body : nat → S → outcome E S) s :
  (∀ j s, i ≤ j < i + n → I j s → ∃ s', body j s = Ok s' ∧ I (Datatypes.S j) s') →
  I i s → (∀ s', I (i + n) s' → Q s') → ∃ s', for_range n i body s = Ok s' ∧ Q s'.
Proof.
  intros Hb Hi HQ. destruct (for_range_inv I n i body s Hb Hi) as (s' & -> & H). eauto.
Qed.
End loops.

Section slices.
Context {A : Type}.
Implicit Types (l dst src : list A).

Lemma length_go_copy dst src : length (go_copy dst src) = length dst.
Proof. unfold go_copy. rewrite length_app, length_take, length_drop. lia. Qed.

Lemma lookup_go_copy dst src i :
  go_copy dst src !! i =
    if decide (i < length dst ∧ i < length src) then src !! i else dst !! i.
Proof.
  unfold go_copy. destruct (decide (i < length dst ∧ i < length src)) as [[? ?]|H].
  - rewrite lookup_app_l by (rewrite length_take; lia). by rewrite lookup_take_lt.
  - destruct (decide (i < length dst)) as [Hd|Hd].
    + rewrite lookup_app_r by (rewrite length_take; lia).
      rewrite length_take, lookup_drop. f_equal. lia.
    + rewrite !lookup_ge_None_2; [done|lia|].
      change (length (go_copy dst src) ≤ i). rewrite length_go_copy. lia.
Qed.

Lemma go_copy_full dst src : length dst = length src → go_copy dst src = src.
Proof.
  intros H. unfold go_copy. rewrite H, take_ge, drop_ge by lia. by rewrite app_nil_r.
Qed.

Lemma index_Ok {E} l (i : nat) x : l !! i = Some x → index (E:=E) l (Z.of_nat i) = Ok x.
Proof.
  intros H. unfold index. destruct (Z.ltb_spec (Z.of_nat i) 0); [lia|].
  by rewrite Nat2Z.id, H.
Qed.

Lemma set_index_Ok {E} l (i : nat) x :
  i < length l → set_index (E:=E) l (Z.of_nat i) x = Ok (<[i:=x]> l).
Proof.
  intros H. unfold set_index.
  destruct (Z.ltb_spec (Z.of_nat i) 0), (Z.leb_spec (Z.of_nat (length l)) (Z.of_nat i)); try lia. cbn.
  by rewrite Nat2Z.id.
Qed.

Lemma set_index_Z_Ok {E} l (i : Z) x :
  (0 ≤ i < Z.of_nat (length l))%Z →
  set_index (E:=E) l i x = Ok (<[Z.to_nat i:=x]> l).
Proof.
  intros H. rewrite <- (Z2Nat.id i) at 1 by lia. apply set_index_Ok. lia.
Qed.
End slices.
