(* ===== verification/StateM.v ===== *)
(** * Stateful code that can fail

    Go methods with a pointer receiver change their receiver also when they return
    an error.  [M S E] runs such code: the state it leaves, and a value, an error
    or a panic.  [hoare] is partial correctness up to panics, which end the
    process: a postcondition for returns and one for errors. *)
From stdpp Require Import base list.
From S2P Require Import Prelude.

Module statem.

Definition M (S E A : Type) : Type := S → S * outcome E A.

Global Instance M_ret S E : MRet (M S E) := λ A a s, (s, Ok a).
Global Instance M_bind S E : MBind (M S E) := λ A B f m s,
  match m s with
  | (s, Ok a) => f a s
  | (s, Err e) => (s, Err e)
  | (s, Panic) => (s, Panic)
  end.

Section operations.
Context {S E : Type}.

Definition gets {A} (f : S → A) : M S E A := λ s, (s, Ok (f s)).
Definition modify (f : S → S) : M S E unit := λ s, (f s, Ok tt).
Definition fail {A} (e : E) : M S E A := λ s, (s, Err e).
Definition panic {A} : M S E A := λ s, (s, Panic).

(** A computation without access to the state. *)
Definition lift {A} (m : outcome E A) : M S E A := λ s, (s, m).

(** The same, with errors of another component, which the caller wraps. *)
Definition lift_err {F A} (f : F → E) (m : outcome F A) : M S E A := λ s, (s, wrap_err f m).

(** A computation whose errors the caller panics on. *)
Definition lift_panic {F A} (m : outcome F A) : M S E A :=
  λ s, (s, match m with Ok a => Ok a | _ => Panic end).

(** [v, err := m()]: the error as a value. *)
Definition try {A} (m : M S E A) : M S E (A + E) := λ s,
  match m s with
  | (s, Ok a) => (s, Ok (inl a))
  | (s, Err e) => (s, Ok (inr e))
  | (s, Panic) => (s, Panic)
  end.

(** [_ = m()]. *)
Definition ignore {A} (m : M S E A) : M S E unit := _ ← try m; mret tt.

(** [if err := m(); err != nil { panic(err) }]. *)
Definition must {A} (m : M S E A) : M S E A := λ s,
  match m s with
  | (s, Ok a) => (s, Ok a)
  | (s, _) => (s, Panic)
  end.

(** [defer d(); return m()]. *)
Definition finally {A} (m : M S E A) (d : M S E unit) : M S E A := λ s,
  match m s with
  | (s, Ok a) => (_ ← d; mret a) s
  | (s, Err e) => (_ ← d; fail e) s
  | (s, Panic) => (s, Panic)
  end.

Definition when (b : bool) (m : M S E unit) : M S E unit := if b then m else mret tt.
End operations.

(** ** Runs that return *)

Section run.
Context {S E : Type}.

Lemma run_bind {A B} (m : M S E A) (f : A → M S E B) s s' b :
  (m ≫= f) s = (s', Ok b) ↔ ∃ s1 a, m s = (s1, Ok a) ∧ f a s1 = (s', Ok b).
Proof. unfold mbind, M_bind. destruct (m s) as [s1 [a|e|]]; naive_solver. Qed.

(** A computation that returned goes on. *)
Lemma bind_step {A B} (m : M S E A) (f : A → M S E B) s s1 a : m s = (s1, Ok a) → (m ≫= f) s = f a s1.
Proof. intros E1. unfold mbind, M_bind. by rewrite E1. Qed.

(** A sequence fails in its first part or after it. *)
Lemma run_bind_Err {A B} (m : M S E A) (f : A → M S E B) s s' x :
  (m ≫= f) s = (s', Err x) ↔ m s = (s', Err x) ∨ ∃ s1 a, m s = (s1, Ok a) ∧ f a s1 = (s', Err x).
Proof. unfold mbind, M_bind. destruct (m s) as [s1 [a|e|]]; naive_solver. Qed.

Lemma run_ret {A} (a b : A) (s s' : S) : (mret a : M S E A) s = (s', Ok b) ↔ s' = s ∧ b = a.
Proof. cbv [mret M_ret]. naive_solver. Qed.

Lemma run_gets {A} (f : S → A) s s' a : gets (E:=E) f s = (s', Ok a) ↔ s' = s ∧ a = f s.
Proof. unfold gets. naive_solver. Qed.

Lemma run_modify (f : S → S) s s' u : modify (E:=E) f s = (s', Ok u) ↔ s' = f s.
Proof. unfold modify. destruct u. naive_solver. Qed.

Lemma run_lift {A} (m : outcome E A) (s s' : S) a : lift m s = (s', Ok a) ↔ s' = s ∧ m = Ok a.
Proof. unfold lift. naive_solver. Qed.

Lemma run_lift_err {F A} (f : F → E) (m : outcome F A) (s s' : S) a :
  lift_err f m s = (s', Ok a) ↔ s' = s ∧ m = Ok a.
Proof. unfold lift_err. destruct m; cbn; naive_solver. Qed.

Lemma run_lift_panic {F A} (m : outcome F A) (s s' : S) a :
  lift_panic (E:=E) m s = (s', Ok a) ↔ s' = s ∧ m = Ok a.
Proof. unfold lift_panic. destruct m; naive_solver. Qed.

Lemma run_guard {A} (b : bool) (e : E) (m : M S E A) s s' a :
  (if b then fail e else m) s = (s', Ok a) ↔ b = false ∧ m s = (s', Ok a).
Proof. destruct b; unfold fail; naive_solver. Qed.

Lemma run_must {A} (m : M S E A) s s' a : must m s = (s', Ok a) ↔ m s = (s', Ok a).
Proof. unfold must. destruct (m s) as [s1 [x|e|]]; naive_solver. Qed.

Lemma run_try {A} (m : M S E A) s s' r :
  try m s = (s', Ok r) ↔ ∃ o, m s = (s', o) ∧
    match r with inl a => o = Ok a | inr e => o = Err e end.
Proof. unfold try. destruct (m s) as [s1 [x|e|]], r; naive_solver. Qed.

End run.

(** Inverts every hypothesis that says a run returned. *)
Ltac run_inv :=
  repeat match goal with
  | H : (_ ≫= _) _ = (_, Ok _) |- _ => apply run_bind in H as (? & ? & ? & H)
  | H : (mret _ : M _ _ _) _ = (_, Ok _) |- _ => apply run_ret in H as [? H]; try subst
  | H : gets _ _ = (_, Ok _) |- _ => apply run_gets in H as [? H]; try subst
  | H : modify _ _ = (_, Ok _) |- _ => apply run_modify in H; try subst
  | H : lift _ _ = (_, Ok _) |- _ => apply run_lift in H as [? H]; try subst
  | H : lift_err _ _ _ = (_, Ok _) |- _ => apply run_lift_err in H as [? H]; try subst
  | H : lift_panic _ _ = (_, Ok _) |- _ => apply run_lift_panic in H as [? H]; try subst
  | H : (if _ then fail _ else _) _ = (_, Ok _) |- _ => apply run_guard in H as [? H]
  | p : _ * _ |- _ => destruct p
  end.

(** ** Reasoning *)

Section hoare.
Context {S E : Type}.
Implicit Types (P QE : S → Prop).

Definition hoare {A} (P : S → Prop) (m : M S E A) (Q : A → S → Prop) (QE : S → Prop) : Prop :=
  ∀ s, P s →
    match m s with
    | (s', Ok a) => Q a s'
    | (s', Err _) => QE s'
    | (_, Panic) => True
    end.

Lemma hoare_ret {A} (a : A) P (Q : A → S → Prop) QE :
  (∀ s, P s → Q a s) → hoare P (mret a) Q QE.
Proof. intros H s Hs. by apply H. Qed.

Lemma hoare_bind {A B} (m : M S E A) (f : A → M S E B) P (R : A → S → Prop) Q QE :
  hoare P m R QE → (∀ a, hoare (R a) (f a) Q QE) → hoare P (m ≫= f) Q QE.
Proof.
  intros Hm Hf s Hs. unfold mbind, M_bind. specialize (Hm s Hs).
  destruct (m s) as [s' [a|e|]]; [by apply Hf|done|done].
Qed.

Lemma hoare_weaken {A} (m : M S E A) P P' (Q Q' : A → S → Prop) QE QE' :
  hoare P' m Q' QE' → (∀ s, P s → P' s) → (∀ a s, Q' a s → Q a s) → (∀ s, QE' s → QE s) →
  hoare P m Q QE.
Proof.
  intros Hm HP HQ HE s Hs. specialize (Hm s (HP s Hs)).
  destruct (m s) as [s' [a|e|]]; [by apply HQ|by apply HE|done].
Qed.

Lemma hoare_pre {A} (m : M S E A) P P' (Q : A → S → Prop) QE :
  hoare P' m Q QE → (∀ s, P s → P' s) → hoare P m Q QE.
Proof. intros Hm HP s Hs. apply Hm. by apply HP. Qed.

Lemma hoare_post {A} (m : M S E A) P (Q Q' : A → S → Prop) QE QE' :
  hoare P m Q' QE' → (∀ a s, Q' a s → Q a s) → (∀ s, QE' s → QE s) → hoare P m Q QE.
Proof. intros Hm HQ HE. by eapply hoare_weaken. Qed.

(** A fact of the precondition that does not depend on the state. *)
Lemma hoare_fact {A} (φ : Prop) (m : M S E A) P (Q : A → S → Prop) QE :
  (φ → hoare P m Q QE) → hoare (λ s, φ ∧ P s) m Q QE.
Proof. intros H s [Hφ Hs]. by apply H. Qed.

Lemma hoare_exists {A B} (m : M S E A) (P : B → S → Prop) (Q : A → S → Prop) QE :
  (∀ b, hoare (P b) m Q QE) → hoare (λ s, ∃ b, P b s) m Q QE.
Proof. intros H s [b Hs]. by apply (H b). Qed.

Lemma hoare_or {A} (m : M S E A) P P' (Q : A → S → Prop) QE :
  hoare P m Q QE → hoare P' m Q QE → hoare (λ s, P s ∨ P' s) m Q QE.
Proof. intros H1 H2 s [Hs|Hs]; [by apply H1|by apply H2]. Qed.

Lemma hoare_gets {A} (f : S → A) P (Q : A → S → Prop) QE :
  (∀ s, P s → Q (f s) s) → hoare P (gets f) Q QE.
Proof. intros H s Hs. by apply H. Qed.

Lemma hoare_modify (f : S → S) P (Q : unit → S → Prop) QE :
  (∀ s, P s → Q tt (f s)) → hoare P (modify f) Q QE.
Proof. intros H s Hs. by apply H. Qed.

Lemma hoare_fail {A} (e : E) P (Q : A → S → Prop) QE :
  (∀ s, P s → QE s) → hoare P (fail e) Q QE.
Proof. intros H s Hs. by apply H. Qed.

Lemma hoare_panic {A} P (Q : A → S → Prop) QE : hoare P panic Q QE.
Proof. by intros s Hs. Qed.

Lemma hoare_lift {A} (m : outcome E A) P (Q : A → S → Prop) QE :
  (∀ s a, P s → m = Ok a → Q a s) → (∀ s, P s → QE s) → hoare P (lift m) Q QE.
Proof. intros H HE s Hs. unfold lift. destruct m; [by apply H|by apply HE|done]. Qed.

Lemma hoare_lift_err {F A} (f : F → E) (m : outcome F A) P (Q : A → S → Prop) QE :
  (∀ s a, P s → m = Ok a → Q a s) → (∀ s, P s → QE s) → hoare P (lift_err f m) Q QE.
Proof. intros H HE s Hs. unfold lift_err. destruct m; [by apply H|by apply HE|done]. Qed.

Lemma hoare_lift_panic {F A} (m : outcome F A) P (Q : A → S → Prop) QE :
  (∀ s a, P s → m = Ok a → Q a s) → hoare P (lift_panic m) Q QE.
Proof. intros H s Hs. unfold lift_panic. destruct m; [by apply H|done..]. Qed.

Lemma hoare_try {A} (m : M S E A) P (Q : A + E → S → Prop) QE :
  hoare P m (λ a, Q (inl a)) (λ s, ∀ e, Q (inr e) s) → hoare P (try m) Q QE.
Proof.
  intros H s Hs. unfold try. specialize (H s Hs).
  destruct (m s) as [s' [a|e|]]; [done|by apply H|done].
Qed.

Lemma hoare_ignore {A} (m : M S E A) P (Q : unit → S → Prop) QE :
  hoare P m (λ _, Q tt) (Q tt) → hoare P (ignore m) Q QE.
Proof.
  intros H. eapply hoare_bind; [apply (hoare_try _ _ (λ _, Q tt))|].
  - eapply hoare_weaken; [exact H|done..].
  - intros a. by apply hoare_ret.
Qed.

Lemma hoare_must {A} (m : M S E A) P (Q : A → S → Prop) QE QE' :
  hoare P m Q QE' → hoare P (must m) Q QE.
Proof.
  intros H s Hs. unfold must. specialize (H s Hs). by destruct (m s) as [s' [a|e|]].
Qed.

Lemma hoare_finally {A} (m : M S E A) (d : M S E unit) P (R : A → S → Prop) RE Q QE :
  hoare P m R RE →
  (∀ a, hoare (R a) d (λ _, Q a) QE) → hoare RE d (λ _, QE) QE → hoare P (finally m d) Q QE.
Proof.
  intros Hm Hd He s Hs. unfold finally. specialize (Hm s Hs).
  destruct (m s) as [s' [a|e|]]; [| |done].
  - specialize (Hd a s' Hm). unfold mbind, M_bind. by destruct (d s') as [s'' [[]|e|]].
  - specialize (He s' Hm). unfold mbind, M_bind. by destruct (d s') as [s'' [[]|e'|]].
Qed.

Lemma hoare_if {A} (b : bool) (m m' : M S E A) P Q QE :
  hoare (λ s, P s ∧ b = true) m Q QE → hoare (λ s, P s ∧ b = false) m' Q QE →
  hoare P (if b then m else m') Q QE.
Proof. intros H1 H2 s Hs. destruct b; [by apply H1|by apply H2]. Qed.

Lemma hoare_when (b : bool) (m : M S E unit) P (Q : unit → S → Prop) QE :
  hoare (λ s, P s ∧ b = true) m Q QE → (∀ s, P s → b = false → Q tt s) →
  hoare P (when b m) Q QE.
Proof. intros H1 H2 s Hs. destruct b; [by apply H1|by apply H2]. Qed.

(** Proving a triple state by state. *)
Lemma hoare_start {A} (m : M S E A) P Q QE :
  (∀ s, P s → hoare (λ s', s' = s) m Q QE) → hoare P m Q QE.
Proof. intros H s Hs. by apply (H s Hs). Qed.

Lemma hoare_false {A} (m : M S E A) P Q QE : (∀ s, ¬ P s) → hoare P m Q QE.
Proof. intros H s Hs. by destruct (H s). Qed.

(** An assertion that a computation keeps, whether it returns or fails. *)
Definition stable {A} (I : S → Prop) (m : M S E A) : Prop := hoare I m (λ _, I) I.

Section stable.
Context (I : S → Prop).

Lemma stable_pure {A} (r : S → outcome E A) : stable I (λ s, (s, r s)).
Proof. intros s Hs. by destruct (r s). Qed.

Lemma stable_bind {A B} (m : M S E A) (f : A → M S E B) :
  stable I m → (∀ a, stable I (f a)) → stable I (m ≫= f).
Proof. intros Hm Hf. by eapply hoare_bind. Qed.

Lemma stable_modify f : (∀ s, I s → I (f s)) → stable I (modify f).
Proof. intros Hf. by apply hoare_modify. Qed.

Lemma stable_try {A} (m : M S E A) : stable I m → stable I (try m).
Proof. intros H. apply hoare_try. by eapply hoare_post. Qed.

Lemma stable_ignore {A} (m : M S E A) : stable I m → stable I (ignore m).
Proof. intros Hm. by apply hoare_ignore. Qed.

Lemma stable_must {A} (m : M S E A) : stable I m → stable I (must m).
Proof. intros Hm. by eapply hoare_must. Qed.

Lemma stable_finally {A} (m : M S E A) d : stable I m → stable I d → stable I (finally m d).
Proof. intros Hm Hd. by eapply hoare_finally. Qed.

Lemma stable_when b m : stable I m → stable I (when b m).
Proof. intros Hm. destruct b; [done|]. by apply hoare_ret. Qed.
End stable.

(** Code that returns or panics, and never fails. *)
Definition noerr {A} (m : M S E A) : Prop := hoare (λ _, True) m (λ _ _, True) (λ _, False).

Lemma hoare_noerr {A} (m : M S E A) P (Q : A → S → Prop) QE QE' :
  noerr m → hoare P m Q QE' → hoare P m Q QE.
Proof.
  intros Hn Hm s Hs. specialize (Hn s I). specialize (Hm s Hs). by destruct (m s) as [s' [a|e|]].
Qed.

Lemma noerr_pure {A} (r : S → outcome E A) : (∀ s e, r s ≠ Err e) → noerr (λ s, (s, r s)).
Proof. intros Hr s _. specialize (Hr s). destruct (r s); [done|naive_solver|done]. Qed.

Lemma noerr_bind {A B} (m : M S E A) (f : A → M S E B) :
  noerr m → (∀ a, noerr (f a)) → noerr (m ≫= f).
Proof. intros Hm Hf. by eapply hoare_bind. Qed.

Lemma noerr_modify f : noerr (modify f).
Proof. by apply hoare_modify. Qed.

Lemma noerr_must {A} (m : M S E A) : noerr (must m).
Proof. intros s _. unfold must. by destruct (m s) as [s' [a|e|]]. Qed.

Lemma noerr_ignore {A} (m : M S E A) : noerr (ignore m).
Proof.
  intros s _. unfold ignore, try, mbind, M_bind. by destruct (m s) as [s' [a|e|]].
Qed.

Lemma noerr_when b m : noerr m → noerr (when b m).
Proof. intros Hm. destruct b; [done|]. by apply hoare_ret. Qed.

End hoare.

End statem.
