(* ===== verification/DB.v ===== *)
(** * libs/db: key-value databases

    Models [src/libs/db]: [MemDB] with its batches and iterators
    ([memdb.go], [memdb_batch.go], [memdb_iterator.go]) and [PrefixDB]
    ([prefixdb.go], [prefixdb_batch.go], [prefixdb_iterator.go], [util.go]).  The
    B-tree of [MemDB] is external: it is an ordered map from keys to values.  Another
    backend differs in that its operations may fail: [fault] tells which ones do, by
    their number; a failed write changes nothing, and a batch is written whole or not
    at all, as [NewBatch] promises.  [MemDB] is the instance without faults.  Locks are
    not modelled. *)
From Stdlib Require Import ZArith Lia Init.Byte Strings.Byte Sorted.
From stdpp Require Import base numbers list sets gmap fin_maps sorting.
From S2P Require Import Prelude.
From S2P Require Import StateM.

Import statem.

Class Faults := { fault : nat → bool }.

Module db.

Inductive db_error := errKeyEmpty | errValueNil | errBatchClosed | errBackend | errInvalidKey.

(** The content, and the number of operations so far. *)
Record DB := mkDB { db_data : gmap bytes bytes; db_ops : nat }.

Definition NewMemDB : DB := mkDB ∅ 0.

Inductive operation := opSet (key value : bytes) | opDelete (key : bytes).

(** A closed batch has no list of operations. *)
Definition Batch := option (list operation).

Definition apply_op (m : gmap bytes bytes) (o : operation) : gmap bytes bytes :=
  match o with opSet k v => <[k := v]> m | opDelete k => delete k m end.

Definition item : Type := bytes * bytes.

(** [item.Less], in the weak form. *)
Definition item_le (x y : item) : Prop := bytes_le x.1 y.1.

#[export] Instance item_le_dec x y : Decision (item_le x y).
Proof. unfold item_le. apply _. Defined.

#[export] Instance item_le_total : Total item_le.
Proof. intros x y. apply (total bytes_le). Qed.

#[export] Instance item_le_trans : Transitive item_le.
Proof. intros x y z. apply (transitivity (R:=bytes_le)). Qed.

(** The items of the B-tree in ascending order. *)
Definition ascend (m : gmap bytes bytes) : list item := merge_sort item_le (map_to_list m).

(** The visitor of [newMemDBIterator]. *)
Fixpoint visit (skipEqual abortLessThan : option bytes) (l : list item) : list item :=
  match l with
  | [] => []
  | (k, v) :: l =>
      if bool_decide (skipEqual = Some k) then visit None abortLessThan l
      else if match abortLessThan with Some a => bytes_ltb k a | None => false end then []
      else (k, v) :: visit skipEqual abortLessThan l
  end.

Definition ge_start (start : option bytes) (x : item) : bool :=
  match start with None => true | Some s => negb (bytes_ltb x.1 s) end.

(** What the goroutine of [newMemDBIteratorMtxChoice] sends. *)
Definition newMemDBIterator (m : gmap bytes bytes) (start stop : option bytes) (backward : bool) :
    list item :=
  match start, stop, backward with
  | None, None, false => visit None None (ascend m)
  | None, None, true => visit None None (reverse (ascend m))
  | _, None, false => visit None None (filter (λ x, ge_start start x) (ascend m))
  | _, Some e, false =>
      visit None None (filter (λ x, ge_start start x && bytes_ltb x.1 e) (ascend m))
  | _, None, true => visit None start (reverse (ascend m))
  | _, Some e, true =>
      visit (Some e) start (filter (λ x, negb (bytes_ltb e x.1)) (reverse (ascend m)))
  end.

Section operations.
Context `{Faults}.

Notation X := (M DB db_error).

(** One operation of the backend. *)
Definition op {A} (f : gmap bytes bytes → gmap bytes bytes * A) : X A := λ d,
  if fault (db_ops d) then (mkDB (db_data d) (S (db_ops d)), Err errBackend)
  else let '(m, a) := f (db_data d) in (mkDB m (S (db_ops d)), Ok a).

Definition Get (key : bytes) : X (option bytes) :=
  if bool_decide (key = []) then fail errKeyEmpty else op (λ m, (m, m !! key)).

Definition Has (key : bytes) : X bool :=
  if bool_decide (key = []) then fail errKeyEmpty
  else op (λ m, (m, bool_decide (is_Some (m !! key)))).

Definition Set_ (key : bytes) (value : option bytes) : X unit :=
  if bool_decide (key = []) then fail errKeyEmpty
  else match value with
       | None => fail errValueNil
       | Some v => op (λ m, (<[key := v]> m, tt))
       end.

Definition Delete (key : bytes) : X unit :=
  if bool_decide (key = []) then fail errKeyEmpty else op (λ m, (delete key m, tt)).

Definition NewBatch : Batch := Some [].

Definition batch_Set (b : Batch) (key : bytes) (value : option bytes) : outcome db_error Batch :=
  if bool_decide (key = []) then Err errKeyEmpty
  else match value with
       | None => Err errValueNil
       | Some v => match b with
                   | None => Err errBatchClosed
                   | Some ops => Ok (Some (ops ++ [opSet key v]))
                   end
       end.

Definition batch_Delete (b : Batch) (key : bytes) : outcome db_error Batch :=
  if bool_decide (key = []) then Err errKeyEmpty
  else match b with
       | None => Err errBatchClosed
       | Some ops => Ok (Some (ops ++ [opDelete key]))
       end.

(** [Write] and [WriteSync]; the batch is closed afterwards. *)
Definition batch_Write (b : Batch) : X unit :=
  match b with
  | None => fail errBatchClosed
  | Some ops => op (λ m, (foldl apply_op m ops, tt))
  end.

(** An endpoint of an iterator that is present must not be empty. *)
Definition empty_bound (k : option bytes) : bool := bool_decide (k = Some []).

Definition iterate (backward : bool) (start stop : option bytes) : X (list item) :=
  if empty_bound start || empty_bound stop then fail errKeyEmpty
  else op (λ m, (m, newMemDBIterator m start stop backward)).

Definition Iterator : option bytes → option bytes → X (list item) := iterate false.
Definition ReverseIterator : option bytes → option bytes → X (list item) := iterate true.

(** ** Prefixes *)

Definition byte_incr (b : byte) : byte := default x00 (Byte.of_N (Byte.to_N b + 1)).

(** The loop of [cpIncr], from the last byte on: the bytes in reverse order. *)
Fixpoint incr_loop (ret : bytes) : option bytes :=
  match ret with
  | [] => None
  | b :: ret => if bool_decide (b = xff) then cons x00 <$> incr_loop ret
                else Some (byte_incr b :: ret)
  end.

(** [cpIncr]: [None] is nil, for an overflow. *)
Definition cpIncr (bz : bytes) : outcome db_error (option bytes) :=
  if bool_decide (bz = []) then Panic else Ok (reverse <$> incr_loop (reverse bz)).

Definition has_prefix (key prefix : bytes) : bool := bool_decide (take (length prefix) key = prefix).

(** [prefixDBIterator]; [source] is what the iterator below has left. *)
Record prefixDBIterator := mkPrefixIter {
  pi_prefix : bytes;
  pi_source : list item;
  pi_valid : bool }.

Definition newPrefixIterator (prefix : bytes) (source : list item) : prefixDBIterator :=
  let source := match source with
                | (k, _) :: rest => if bool_decide (k = prefix) then rest else source
                | [] => source
                end in
  match source with
  | (k, _) :: _ => mkPrefixIter prefix source (has_prefix k prefix)
  | [] => mkPrefixIter prefix source false
  end.

(** [Valid] sets an error when the backend returns a key without the prefix. *)
Definition pi_Valid (it : prefixDBIterator) : bool :=
  pi_valid it &&
  match pi_source it with [] => false | (k, _) :: _ => has_prefix k (pi_prefix it) end.

Definition pi_error (it : prefixDBIterator) : bool :=
  pi_valid it &&
  match pi_source it with [] => false | (k, _) :: _ => negb (has_prefix k (pi_prefix it)) end.

(** [Next] on what the source has left; it calls itself on a key equal to the prefix. *)
Fixpoint next_source (prefix : bytes) (source : list item) : prefixDBIterator :=
  match source with
  | [] => mkPrefixIter prefix [] false
  | (k, v) :: rest =>
      if negb (has_prefix k prefix) then mkPrefixIter prefix source false
      else if bool_decide (k = prefix) then next_source prefix rest
      else mkPrefixIter prefix source true
  end.

Definition pi_Next (it : prefixDBIterator) : outcome db_error prefixDBIterator :=
  if negb (pi_Valid it) then Panic else Ok (next_source (pi_prefix it) (tail (pi_source it))).

(** [key[len(itr.prefix):]] and [Value]. *)
Definition pi_item (it : prefixDBIterator) : outcome db_error item :=
  if negb (pi_Valid it) then Panic
  else match pi_source it with
       | (k, v) :: _ => Ok (drop (length (pi_prefix it)) k, v)
       | [] => Panic
       end.

(** [for ; itr.Valid(); itr.Next() { append(itr.Key(), itr.Value()) }], and [Error]. *)
Fixpoint pi_collect (fuel : nat) (it : prefixDBIterator) : outcome db_error (list item) :=
  match fuel with
  | O => Ok []
  | S fuel =>
      if pi_Valid it then
        x ← pi_item it; it ← pi_Next it; l ← pi_collect fuel it; Ok (x :: l)
      else if pi_error it then Err errInvalidKey else Ok []
  end.

Definition prefixed (prefix key : bytes) : bytes := prefix ++ key.

Definition p_Get (prefix key : bytes) : X (option bytes) :=
  if bool_decide (key = []) then fail errKeyEmpty else Get (prefixed prefix key).

Definition p_Has (prefix key : bytes) : X bool :=
  if bool_decide (key = []) then fail errKeyEmpty else Has (prefixed prefix key).

Definition p_Set (prefix key : bytes) (value : option bytes) : X unit :=
  if bool_decide (key = []) then fail errKeyEmpty
  else match value with
       | None => fail errValueNil
       | Some v => Set_ (prefixed prefix key) value
       end.

Definition p_Delete (prefix key : bytes) : X unit :=
  if bool_decide (key = []) then fail errKeyEmpty else Delete (prefixed prefix key).

(** [Iterator] and [ReverseIterator] of [PrefixDB]. *)
Definition p_iterate (backward : bool) (prefix : bytes) (start stop : option bytes) :
    X prefixDBIterator :=
  if empty_bound start || empty_bound stop then fail errKeyEmpty
  else
    let pstart := prefix ++ default [] start in
    pend ← lift (match stop with
                 | None => cpIncr prefix
                 | Some e => Ok (Some (prefix ++ e))
                 end);
    source ← iterate backward (Some pstart) pend;
    mret (newPrefixIterator prefix source).

Definition p_batch_Set (prefix : bytes) (b : Batch) (key : bytes) (value : option bytes) :
    outcome db_error Batch :=
  if bool_decide (key = []) then Err errKeyEmpty
  else match value with
       | None => Err errValueNil
       | Some v => batch_Set b (prefix ++ key) value
       end.

Definition p_batch_Delete (prefix : bytes) (b : Batch) (key : bytes) : outcome db_error Batch :=
  if bool_decide (key = []) then Err errKeyEmpty else batch_Delete b (prefix ++ key).

(** [IteratePrefix]. *)
Definition IteratePrefix (prefix : bytes) : X (list item) :=
  if bool_decide (prefix = []) then Iterator None None
  else stop ← lift (cpIncr prefix); Iterator (Some prefix) stop.

End operations.

(** [IsKeyInDomain]. *)
Definition IsKeyInDomain (key : bytes) (start stop : option bytes) : bool :=
  negb (bytes_ltb key (default [] start)) &&
  match stop with None => true | Some e => bytes_ltb key e end.

(** ** Iteration over the domain, in order *)

Definition in_domain (start stop : option bytes) (x : item) : bool :=
  IsKeyInDomain x.1 start stop.

Lemma ascend_sorted m : StronglySorted item_le (ascend m).
Proof. apply StronglySorted_merge_sort; apply _. Qed.

Lemma ascend_perm m : ascend m ≡ₚ map_to_list m.
Proof. apply merge_sort_Permutation. Qed.

Lemma elem_of_ascend m k v : (k, v) ∈ ascend m ↔ m !! k = Some v.
Proof. by rewrite ascend_perm, elem_of_map_to_list. Qed.

Lemma ascend_NoDup m : NoDup (ascend m).*1.
Proof. rewrite ascend_perm. apply NoDup_fst_map_to_list. Qed.

Lemma bytes_le_nil k : bytes_le [] k.
Proof. unfold bytes_le. by destruct k. Qed.

Lemma ltb_nil k : bytes_ltb k [] = false.
Proof. by destruct k. Qed.

Lemma descend_sorted m : StronglySorted (flip item_le) (reverse (ascend m)).
Proof.
  induction (ascend_sorted m) as [|x l Hs IH Hx]; [constructor|].
  rewrite reverse_cons. apply StronglySorted_app. split_and!; [|done|repeat constructor].
  intros y z Hy ->%list_elem_of_singleton. rewrite Forall_forall in Hx. apply Hx.
  by apply elem_of_reverse.
Qed.

Lemma ltb_le_trans a b c : bytes_le a b → bytes_ltb b c = true → bytes_ltb a c = true.
Proof.
  intros Hab [Hbc Hne]%bytes_ltb_lt. apply bytes_ltb_lt. split; [by trans b|].
  intros ->. by apply Hne, (anti_symm bytes_le).
Qed.

Lemma visit_filter skip abort l :
  StronglySorted (flip item_le) l → NoDup l.*1 →
  visit skip abort l = filter (λ x, skip ≠ Some x.1 ∧ ge_start abort x) l.
Proof.
  intros Hs. revert skip. induction Hs as [|[k v] l Hs IH Hx]; intros skip Hn; [done|].
  apply NoDup_cons in Hn as [Hk Hn]. rewrite Forall_forall in Hx. cbn [visit].
  destruct (bool_decide_reflect (skip = Some k)) as [->|Hne].
  - rewrite filter_cons_False by naive_solver. rewrite (IH None Hn).
    apply filter_in_iff. intros [k' v'] Hin. cbn [fst]. split; [|naive_solver].
    intros [_ ?]. split; [|done]. intros [= ->]. apply Hk. by apply (list_elem_of_fmap_2 fst l (k', v')).
  - destruct abort as [a|]; [destruct (bytes_ltb k a) eqn:E|].
    + rewrite filter_cons_False by (cbn; rewrite E; naive_solver). symmetry. apply filter_none.
      intros y Hy [_ Hg]. specialize (Hx _ Hy). cbn in Hx, Hg.
      by rewrite (ltb_le_trans y.1 k a) in Hg.
    + rewrite filter_cons_True by (cbn; by rewrite E). by rewrite (IH skip Hn).
    + rewrite filter_cons_True by done. by rewrite (IH skip Hn).
Qed.

Lemma visit_id l : visit None None l = l.
Proof. induction l as [|[k v] l IH]; [done|]. cbn. by rewrite IH. Qed.

Lemma ge_start_default start (x : item) : ge_start start x = negb (bytes_ltb x.1 (default [] start)).
Proof. destruct start; [done|]. cbn. by rewrite ltb_nil. Qed.

Definition direct (backward : bool) (l : list item) : list item :=
  if backward then reverse l else l.

Lemma domain_start start stop x :
  in_domain start stop x ↔
    ge_start start x ∧ match stop with None => True | Some e => bytes_ltb x.1 e end.
Proof.
  unfold in_domain, IsKeyInDomain. rewrite ge_start_default, andb_True.
  destruct stop; naive_solver.
Qed.

Lemma ltb_total a b : bytes_ltb a b ↔ a ≠ b ∧ negb (bytes_ltb b a).
Proof.
  rewrite negb_True, !Is_true_true, bytes_ltb_lt, not_true_iff_false, bytes_ltb_le. naive_solver.
Qed.

(** The iterator of [MemDB] runs over the items of the domain, in order. *)
Lemma newMemDBIterator_spec m start stop backward :
  newMemDBIterator m start stop backward =
    direct backward (filter (λ x, in_domain start stop x) (ascend m)).
Proof.
  assert (NoDup (reverse (ascend m)).*1) as Hn.
  { rewrite reverse_Permutation. apply ascend_NoDup. }
  destruct backward; cbn [direct].
  - rewrite <- filter_reverse.
    destruct stop as [e|].
    + assert (newMemDBIterator m start (Some e) true =
        visit (Some e) start (filter (λ x, negb (bytes_ltb e x.1)) (reverse (ascend m)))) as ->
        by by destruct start.
      rewrite visit_filter; [|apply StronglySorted_filter, descend_sorted|
        eapply sublist_NoDup; [exact Hn|apply fmap_sublist, sublist_filter]].
      rewrite list_filter_filter. apply list_filter_iff. intros x.
      rewrite domain_start, (ltb_total x.1 e). naive_solver.
    + assert (newMemDBIterator m start None true = visit None start (reverse (ascend m))) as ->
        by by destruct start.
      rewrite visit_filter by (done || apply descend_sorted). apply list_filter_iff. intros x.
      rewrite domain_start. naive_solver.
  - unfold newMemDBIterator. destruct start as [a|], stop as [e|]; rewrite visit_id;
      [apply list_filter_iff..|symmetry; apply filter_all]; intros x; rewrite domain_start; cbn;
      rewrite ?andb_True; naive_solver.
Qed.

(** ** The keys with a prefix *)

(** An item of a [PrefixDB]: the key is what follows the prefix. *)
Definition strip (p : bytes) (x : item) : option item :=
  if has_prefix x.1 p && negb (bool_decide (x.1 = p)) then Some (drop (length p) x.1, x.2) else None.

(** The content of a [PrefixDB]. *)
Definition view (p : bytes) (m : gmap bytes bytes) : gmap bytes bytes :=
  list_to_map (omap (strip p) (map_to_list m)).

Lemma has_prefix_app p k : has_prefix (p ++ k) p = true.
Proof. apply bool_decide_eq_true. by rewrite take_app_length. Qed.

Lemma has_prefix_spec k p : has_prefix k p = true ↔ ∃ k', k = p ++ k'.
Proof.
  split; [|intros [k' ->]; apply has_prefix_app]. intros E%bool_decide_eq_true.
  exists (drop (length p) k). rewrite <- E at 1. by rewrite take_drop.
Qed.

Lemma strip_Some p x y : strip p x = Some y ↔ x = (p ++ y.1, y.2) ∧ y.1 ≠ [].
Proof.
  unfold strip. destruct x as [k v], y as [k' v']; cbn [fst snd]. split.
  - destruct (has_prefix k p) eqn:E; [|done]. apply has_prefix_spec in E as [k1 ->].
    cbn [andb]. destruct (bool_decide_reflect (p ++ k1 = p)) as [|Hne]; [done|].
    cbn [negb]. rewrite drop_app_length. intros [= -> ->]. split; [done|]. intros ->.
    by rewrite app_nil_r in Hne.
  - intros [[= -> ->] Hne]. rewrite has_prefix_app, drop_app_length, bool_decide_eq_false_2; [done|].
    intros E. apply Hne. apply (app_inv_head p). by rewrite app_nil_r.
Qed.

Lemma strip_NoDup p l : NoDup l.*1 → NoDup (omap (strip p) l).*1.
Proof.
  induction l as [|x l IH]; [constructor|]. rewrite fmap_cons. intros [Hx Hl]%NoDup_cons.
  cbn. destruct (strip p x) as [y|] eqn:E; [|auto]. apply strip_Some in E as [-> _].
  rewrite fmap_cons. apply NoDup_cons. split; [|auto].
  intros (z & Ez & (w & Hw & Es)%list_elem_of_omap)%list_elem_of_fmap.
  apply strip_Some in Es as [-> _]. apply Hx. cbn. rewrite Ez.
  by apply (list_elem_of_fmap_2 fst l (p ++ z.1, z.2)).
Qed.

Lemma lookup_view p m k : view p m !! k = if bool_decide (k = []) then None else m !! (p ++ k).
Proof.
  apply option_eq. intros v. unfold view. rewrite <- elem_of_list_to_map
    by apply strip_NoDup, NoDup_fst_map_to_list.
  rewrite list_elem_of_omap. setoid_rewrite strip_Some. cbn.
  setoid_rewrite elem_of_map_to_list'. case_bool_decide as E; [naive_solver|].
  split; [intros ([k1 v1] & Hm & [= -> ->] & _); exact Hm|]. intros Hm. by exists (p ++ k, v).
Qed.

Lemma view_insert p m k v : k ≠ [] → view p (<[p ++ k := v]> m) = <[k := v]> (view p m).
Proof.
  intros Hk. apply map_eq. intros k'. rewrite lookup_insert, !lookup_view, lookup_insert.
  destruct (decide (k = k')) as [<-|Hne].
  - by rewrite decide_True, bool_decide_eq_false_2.
  - rewrite decide_False; [done|]. by intros ?%(inj (app p)).
Qed.

Lemma view_delete p m k : k ≠ [] → view p (delete (p ++ k) m) = delete k (view p m).
Proof.
  intros Hk. apply map_eq. intros k'. rewrite lookup_delete, !lookup_view, lookup_delete.
  destruct (decide (k = k')) as [<-|Hne].
  - by rewrite decide_True, bool_decide_eq_false_2.
  - rewrite decide_False; [done|]. by intros ?%(inj (app p)).
Qed.

Lemma strip_sorted p l : StronglySorted item_le l → StronglySorted item_le (omap (strip p) l).
Proof.
  induction 1 as [|x l Hs IH Hx]; [constructor|]. cbn.
  destruct (strip p x) as [y|] eqn:E; [|done]. apply strip_Some in E as [-> _].
  constructor; [done|]. rewrite Forall_forall in *.
  intros z (w & Hw & Es)%list_elem_of_omap. apply strip_Some in Es as [-> _].
  specialize (Hx _ Hw). unfold item_le, bytes_le in *. cbn in Hx. by rewrite bytes_compare_app in Hx.
Qed.

Lemma ascend_view p m : ascend (view p m) = omap (strip p) (ascend m).
Proof.
  apply (StronglySorted_unique_strong item_le).
  - intros [k v] [k' v'] H1%elem_of_ascend (x & Hx & Es)%list_elem_of_omap L1 L2.
    assert (k = k') as <- by by apply (anti_symm bytes_le).
    apply strip_Some in Es as [-> _]. cbn in Hx. apply elem_of_ascend in Hx.
    rewrite lookup_view, Hx in H1. by case_bool_decide; [|congruence].
  - apply ascend_sorted.
  - apply strip_sorted, ascend_sorted.
  - apply NoDup_Permutation.
    + eapply NoDup_fmap_1, ascend_NoDup.
    + eapply NoDup_fmap_1, strip_NoDup, ascend_NoDup.
    + intros [k v]. rewrite elem_of_ascend, lookup_view, list_elem_of_omap.
      setoid_rewrite strip_Some. cbn. case_bool_decide; [naive_solver|].
      split; [intros Hm; exists (p ++ k, v); by rewrite elem_of_ascend|].
      intros ([k1 v1] & Hm & [= -> ->] & _). by apply elem_of_ascend.
Qed.


(** ** Iteration over a prefix *)

Lemma prefix_between p a b k :
  bytes_le (p ++ a) k → bytes_le k (p ++ b) → has_prefix k p = true.
Proof.
  intros H1 H2. apply has_prefix_spec. revert k H1 H2.
  induction p as [|x p IH]; intros k; [by exists k|]. unfold bytes_le in *. cbn [app].
  destruct k as [|y k]; cbn [bytes_compare]; [done|].
  destruct (N.compare_spec (Byte.to_N x) (Byte.to_N y)) as [E|E|E]; [|intros _|done].
  - apply to_N_inj in E as ->. rewrite N.compare_refl. intros H1 H2.
    destruct (IH k H1 H2) as [k' ->]. by exists k'.
  - destruct (N.compare_spec (Byte.to_N y) (Byte.to_N x)); [lia|lia|done].
Qed.

Lemma to_N_le b : (Byte.to_N b ≤ 255)%N.
Proof. apply Byte.to_N_bounded. Qed.

Lemma byte_incr_N b : b ≠ xff → Byte.to_N (byte_incr b) = (Byte.to_N b + 1)%N.
Proof. by destruct b. Qed.

(** The end of the range of a prefix whose last byte can be incremented. *)
Lemma cpIncr_snoc a b : b ≠ xff → cpIncr (a ++ [b]) = Ok (Some (a ++ [byte_incr b])).
Proof.
  intros Hb. unfold cpIncr. rewrite bool_decide_eq_false_2 by by destruct a.
  rewrite reverse_snoc. cbn [incr_loop]. rewrite bool_decide_eq_false_2 by done.
  cbn [fmap option_fmap option_map]. by rewrite reverse_cons, reverse_involutive.
Qed.

Lemma incr_range a b k :
  b ≠ xff →
  bytes_le (a ++ [b]) k ∧ bytes_ltb k (a ++ [byte_incr b]) = true ↔ has_prefix k (a ++ [b]) = true.
Proof.
  intros Hb. split.
  - intros [H1 [H2 Hne]%bytes_ltb_lt]. pose proof (prefix_between _ _ _ _ H1 H2) as Hp.
    apply has_prefix_spec in Hp as [k' ->]. unfold bytes_le in *. rewrite bytes_compare_app in *.
    destruct k' as [|y k']; cbn in *; [done|].
    destruct (N.compare_spec (Byte.to_N b) (Byte.to_N y)) as [E|E|E]; [|clear H1|done].
    + apply to_N_inj in E as ->. apply has_prefix_spec. exists k'. by rewrite <- app_assoc.
    + rewrite byte_incr_N in H2 by done.
      destruct (N.compare_spec (Byte.to_N y) (Byte.to_N b + 1)) as [E2|E2|E2]; [|lia|done].
      destruct k'; [|done]. destruct Hne. f_equal. f_equal. apply to_N_inj.
      by rewrite byte_incr_N.
  - intros [k' ->]%has_prefix_spec. rewrite <- app_assoc. unfold bytes_le, bytes_ltb.
    rewrite !bytes_compare_app. cbn. rewrite N.compare_refl, byte_incr_N by done.
    destruct (N.compare_spec (Byte.to_N b) (Byte.to_N b + 1)); try lia. by destruct k'.
Qed.

(** The bounds that [PrefixDB] passes on select the keys with the prefix whose rest is
    in the domain. *)
Lemma prefixed_domain p start stop pend k :
  (∃ a b, p = a ++ [b] ∧ b ≠ xff) →
  match stop with None => cpIncr p | Some e => Ok (Some (p ++ e)) end = Ok pend →
  IsKeyInDomain k (Some (p ++ default [] start)) pend = true ↔
    ∃ k', k = p ++ k' ∧ IsKeyInDomain k' start stop = true.
Proof.
  intros (a & b & -> & Hb) Hp. unfold IsKeyInDomain. cbn [from_option id].
  set (s := default [] start). destruct stop as [e|].
  - injection Hp as <-. rewrite andb_true_iff, negb_true_iff, bytes_ltb_le. split.
    + intros [H1 H2]. pose proof H2 as [H3 _]%bytes_ltb_lt.
      pose proof (prefix_between _ _ _ _ H1 H3) as [k' ->]%has_prefix_spec. exists k'.
      split; [done|]. apply andb_true_iff. rewrite negb_true_iff, bytes_ltb_le.
      unfold bytes_le, bytes_ltb in *. rewrite bytes_compare_app in H1, H2. done.
    + intros (k' & -> & [H1 H2]%andb_true_iff). apply negb_true_iff, bytes_ltb_le in H1.
      unfold bytes_le, bytes_ltb in *. by rewrite !bytes_compare_app.
  - rewrite cpIncr_snoc in Hp by done. injection Hp as <-.
    rewrite andb_true_iff, negb_true_iff, bytes_ltb_le. split.
    + intros [H1 H2].
      assert (has_prefix k (a ++ [b]) = true) as [k' ->]%has_prefix_spec.
      { apply incr_range; [done|]. split; [|done]. trans ((a ++ [b]) ++ s); [|done].
        unfold bytes_le. rewrite <- (app_nil_r (a ++ [b])) at 1. rewrite bytes_compare_app.
        by destruct s. }
      exists k'. split; [done|]. rewrite andb_true_r, negb_true_iff, bytes_ltb_le.
      unfold bytes_le in *. by rewrite bytes_compare_app in H1.
    + intros (k' & -> & H1). rewrite andb_true_r in H1. apply negb_true_iff, bytes_ltb_le in H1.
      split; [unfold bytes_le in *; by rewrite bytes_compare_app|].
      apply (incr_range a b); [done|]. apply has_prefix_app.
Qed.

Lemma strip_cons p k v (l : list item) :
  has_prefix k p = true →
  omap (strip p) ((k, v) :: l : list item) =
    if bool_decide (k = p) then omap (strip p) l else (drop (length p) k, v) :: omap (strip p) l.
Proof.
  intros Hk. cbn. unfold strip at 1. cbn [fst snd]. rewrite Hk. by destruct (bool_decide (k = p)).
Qed.

Lemma collect_next p l fuel :
  (∀ x, x ∈ l → has_prefix x.1 p = true) → length l < fuel →
  pi_collect fuel (next_source p l) = Ok (omap (strip p) l).
Proof.
  revert fuel. induction l as [|[k v] l IH]; intros fuel Hl Hf; (destruct fuel as [|fuel]; [cbn in *; lia|]).
  { done. }
  assert (has_prefix k p = true) as Hk by (apply (Hl (k, v)); by left).
  assert (∀ x, x ∈ l → has_prefix x.1 p = true) as Hl' by (intros x Hx; apply Hl; by right).
  cbn [next_source]. rewrite Hk. cbn [negb].
  rewrite strip_cons by done.
  destruct (bool_decide (k = p)); [apply IH; [done|cbn in Hf; lia]|].
  cbn [pi_collect]. unfold pi_Valid, pi_item, pi_Next, pi_Valid.
  cbn [pi_valid pi_source pi_prefix]. rewrite Hk. cbn [andb negb tail]. orun.
  rewrite IH; [done|done|cbn in Hf; lia].
Qed.

Lemma newPrefixIterator_next p l :
  NoDup l.*1 → (∀ x, x ∈ l → has_prefix x.1 p = true) → newPrefixIterator p l = next_source p l.
Proof.
  intros Hn Hl. unfold newPrefixIterator. destruct l as [|[k v] l]; [done|].
  assert (has_prefix k p = true) as Hk by (apply (Hl (k, v)); by left).
  cbn [next_source]. rewrite Hk. cbn [negb]. case_bool_decide as E; [|by rewrite Hk]. subst k.
  destruct l as [|[k v'] l]; [done|]. cbn [next_source].
  assert (has_prefix k p = true) as Hk' by (apply (Hl (k, v')); right; by left). rewrite Hk'. cbn [negb].
  rewrite bool_decide_eq_false_2; [done|]. intros ->.
  apply NoDup_cons in Hn as [Hn _]. apply Hn. by left.
Qed.


(** ** A prefix database is a database *)

(** A write of a batch: a key and the value set, or no value for a deletion. *)
Definition write : Type := bytes * option (option bytes).

Inductive request :=
  | RGet (key : bytes)
  | RHas (key : bytes)
  | RSet (key : bytes) (value : option bytes)
  | RDelete (key : bytes)
  | RIterate (backward : bool) (start stop : option bytes)
  | RBatch (writes : list write).

Inductive answer :=
  | AValue (v : option bytes)
  | ABool (b : bool)
  | ADone
  | AItems (l : list item).

Definition fill (set : Batch → bytes → option bytes → outcome db_error Batch)
    (del : Batch → bytes → outcome db_error Batch) : Batch → list write → outcome db_error Batch :=
  fix go b l {struct l} :=
    match l with
    | [] => Ok b
    | (k, Some v) :: l => b ← set b k v; go b l
    | (k, None) :: l => b ← del b k; go b l
    end.

Section simulation.
Context `{Faults}.
Notation X := (M DB db_error).

(** The operations of [MemDB], and those of [PrefixDB] over it. *)
Definition run_mem (r : request) : X answer :=
  match r with
  | RGet k => v ← Get k; mret (AValue v)
  | RHas k => b ← Has k; mret (ABool b)
  | RSet k v => _ ← Set_ k v; mret ADone
  | RDelete k => _ ← Delete k; mret ADone
  | RIterate backward start stop => l ← iterate backward start stop; mret (AItems l)
  | RBatch l => b ← lift (fill batch_Set batch_Delete NewBatch l); _ ← batch_Write b; mret ADone
  end.

Definition run_prefix (p : bytes) (r : request) : X answer :=
  match r with
  | RGet k => v ← p_Get p k; mret (AValue v)
  | RHas k => b ← p_Has p k; mret (ABool b)
  | RSet k v => _ ← p_Set p k v; mret ADone
  | RDelete k => _ ← p_Delete p k; mret ADone
  | RIterate backward start stop =>
      it ← p_iterate backward p start stop;
      l ← lift (pi_collect (S (length (pi_source it))) it); mret (AItems l)
  | RBatch l =>
      b ← lift (fill (p_batch_Set p) (p_batch_Delete p) NewBatch l); _ ← batch_Write b; mret ADone
  end.

(** The database below as a prefix database shows it. *)
Definition view_db (p : bytes) (d : DB) : DB := mkDB (view p (db_data d)) (db_ops d).

(** The keys outside a prefix are untouched. *)
Definition untouched (p : bytes) (m m' : gmap bytes bytes) : Prop :=
  ∀ k, has_prefix k p = false ∨ k = p → m' !! k = m !! k.

(** An operation whose effect and result show through the prefix. *)
Lemma op_view {A} (p : bytes) (f g : gmap bytes bytes → gmap bytes bytes * A) (d : DB) :
  (∀ m, g (view p m) = (view p (f m).1, (f m).2)) →
  (∀ m, untouched p m (f m).1) →
  ∃ d' a, op f d = (d', a) ∧ op g (view_db p d) = (view_db p d', a) ∧
    untouched p (db_data d) (db_data d').
Proof.
  intros Hg Hu. unfold op, view_db. cbn [db_data db_ops].
  destruct (fault (db_ops d)); [by eexists _, _|]. specialize (Hu (db_data d)).
  rewrite Hg. destruct (f (db_data d)) as [m a]. by eexists _, _.
Qed.

Lemma untouched_insert p m k v : k ≠ [] → untouched p m (<[p ++ k := v]> m).
Proof.
  intros Hk k' Hk'. apply lookup_insert_ne. intros <-. rewrite has_prefix_app in Hk'.
  destruct Hk' as [|E]; [done|]. apply Hk, (app_inv_head p). by rewrite app_nil_r.
Qed.

Lemma untouched_delete p m k : k ≠ [] → untouched p m (delete (p ++ k) m).
Proof.
  intros Hk k' Hk'. apply lookup_delete_ne. intros <-. rewrite has_prefix_app in Hk'.
  destruct Hk' as [|E]; [done|]. apply Hk, (app_inv_head p). by rewrite app_nil_r.
Qed.

(** The operations of a batch under a prefix. *)
Definition op_prefixed (p : bytes) (o : operation) : operation :=
  match o with opSet k v => opSet (p ++ k) v | opDelete k => opDelete (p ++ k) end.

Definition op_key (o : operation) : bytes := match o with opSet k _ | opDelete k => k end.

Lemma fill_prefixed p l ops :
  match fill batch_Set batch_Delete (Some ops) l with
  | Ok b => ∃ ops', b = Some (ops ++ ops') ∧ Forall (λ o, op_key o ≠ []) ops' ∧
      fill (p_batch_Set p) (p_batch_Delete p) (Some (map (op_prefixed p) ops)) l =
        Ok (Some (map (op_prefixed p) (ops ++ ops')))
  | r => fill (p_batch_Set p) (p_batch_Delete p) (Some (map (op_prefixed p) ops)) l = r
  end.
Proof.
  revert ops. induction l as [|[k [[v|]|]] l IH]; intros ops; cbn [fill].
  - exists []. by rewrite !app_nil_r.
  - unfold batch_Set, p_batch_Set. case_bool_decide as E; orun; [done|].
    unfold batch_Set. rewrite (bool_decide_eq_false_2 (p ++ k = [])) by (by intros [_ ?]%app_eq_nil).
    orun. specialize (IH (ops ++ [opSet k v])). rewrite map_app in IH. cbn [map op_prefixed] in IH.
    destruct (fill _ _ (Some (ops ++ [opSet k v])) l); [|done..].
    destruct IH as (ops' & -> & Ho & E'). exists (opSet k v :: ops'). rewrite <- app_assoc in *.
    split_and!; [done|by constructor|done].
  - unfold batch_Set, p_batch_Set. by case_bool_decide.
  - unfold batch_Delete, p_batch_Delete. case_bool_decide as E; orun; [done|].
    unfold batch_Delete. rewrite (bool_decide_eq_false_2 (p ++ k = [])) by (by intros [_ ?]%app_eq_nil).
    orun. specialize (IH (ops ++ [opDelete k])). rewrite map_app in IH. cbn [map op_prefixed] in IH.
    destruct (fill _ _ (Some (ops ++ [opDelete k])) l); [|done..].
    destruct IH as (ops' & -> & Ho & E'). exists (opDelete k :: ops'). rewrite <- app_assoc in *.
    split_and!; [done|by constructor|done].
Qed.

Lemma writes_view p ops m :
  Forall (λ o, op_key o ≠ []) ops →
  view p (foldl apply_op m (map (op_prefixed p) ops)) = foldl apply_op (view p m) ops ∧
  untouched p m (foldl apply_op m (map (op_prefixed p) ops)).
Proof.
  intros Ho. revert m. induction Ho as [|o ops Hk Ho IH]; intros m; [done|]. cbn [map foldl].
  destruct (IH (apply_op m (op_prefixed p o))) as [-> Hu].
  destruct o as [k v|k]; cbn [op_prefixed apply_op op_key] in *.
  - rewrite view_insert by done. split; [done|]. intros k' Hk'. rewrite Hu by done.
    by apply untouched_insert.
  - rewrite view_delete by done. split; [done|]. intros k' Hk'. rewrite Hu by done.
    by apply untouched_delete.
Qed.


Lemma next_source_source p l :
  (∀ x, x ∈ l → has_prefix x.1 p = true) →
  next_source p (pi_source (next_source p l)) = next_source p l ∧
  omap (strip p) (pi_source (next_source p l)) = omap (strip p) l ∧
  (∀ x, x ∈ pi_source (next_source p l) → x ∈ l).
Proof.
  induction l as [|[k v] l IH]; intros Hl; [done|].
  assert (has_prefix k p = true) as Hk by (apply (Hl (k, v)); by left).
  destruct IH as (E1 & E2 & E3); [intros x Hx; apply Hl; by right|].
  rewrite strip_cons by done. cbn [next_source]. rewrite Hk. cbn [negb].
  case_bool_decide as E.
  - split_and!; [done|done|]. intros x Hx. right. auto.
  - cbn [pi_source next_source]. rewrite Hk. cbn [negb]. rewrite bool_decide_eq_false_2 by done.
    rewrite strip_cons by done. by rewrite bool_decide_eq_false_2.
Qed.

Lemma collect_source p l :
  (∀ x, x ∈ l → has_prefix x.1 p = true) →
  pi_collect (S (length (pi_source (next_source p l)))) (next_source p l) = Ok (omap (strip p) l).
Proof.
  intros Hl. destruct (next_source_source p l Hl) as (E1 & E2 & E3).
  rewrite <- E1 at 2. rewrite <- E2. apply collect_next; [auto|lia].
Qed.

Lemma strip_direct p backward l :
  omap (strip p) (direct backward l) = direct backward (omap (strip p) l).
Proof.
  destruct backward; [|done]. cbn [direct]. induction l as [|x l IH]; [done|].
  rewrite reverse_cons, omap_app, IH. cbn [omap list_omap].
  destruct (strip p x); [by rewrite reverse_cons|by rewrite app_nil_r].
Qed.

Lemma strip_domain p start stop pend (l : list item) :
  (∃ a b, p = a ++ [b] ∧ b ≠ xff) →
  match stop with None => cpIncr p | Some e => Ok (Some (p ++ e)) end = Ok pend →
  omap (strip p) (filter (λ x, in_domain (Some (p ++ default [] start)) pend x) l) =
    filter (λ x, in_domain start stop x) (omap (strip p) l).
Proof.
  intros Hp Epend. induction l as [|x l IH]; [done|]. rewrite filter_cons.
  destruct (strip p x) as [y|] eqn:E.
  - assert (in_domain (Some (p ++ default [] start)) pend x ↔ in_domain start stop y) as Hd.
    { apply strip_Some in E as [-> _]. unfold in_domain. cbn [fst].
      rewrite !Is_true_true, prefixed_domain by done. split; [|by eexists].
      intros (k' & ->%(inj (app p)) & Hk). exact Hk. }
    cbn [omap list_omap]. rewrite E, filter_cons, <- IH.
    destruct (decide (in_domain start stop y)) as [D|D].
    + rewrite decide_True by by apply Hd. cbn [omap list_omap]. by rewrite E.
    + rewrite decide_False by by rewrite Hd. done.
  - cbn [omap list_omap]. rewrite E, <- IH. destruct (decide _); [|done].
    cbn [omap list_omap]. by rewrite E.
Qed.

Lemma iterate_view p backward start stop d :
  (∃ a b, p = a ++ [b] ∧ b ≠ xff) →
  ∃ d' a, run_prefix p (RIterate backward start stop) d = (d', a) ∧
    run_mem (RIterate backward start stop) (view_db p d) = (view_db p d', a) ∧
    db_data d' = db_data d.
Proof.
  intros Hp. unfold run_prefix, run_mem, p_iterate, iterate.
  destruct (empty_bound start || empty_bound stop); [by eexists _, _|].
  assert (∃ pend, match stop with None => cpIncr p | Some e => Ok (Some (p ++ e)) end = Ok pend ∧
    empty_bound pend = false ∧ empty_bound (Some (p ++ default [] start)) = false)
    as (pend & Epend & Ene1 & Ene2).
  { destruct Hp as (a & b & -> & Hb). destruct stop as [e|].
    - eexists. split_and!; [done| |]; apply bool_decide_eq_false; intros [= E]; by destruct a.
    - rewrite cpIncr_snoc by done. eexists. split_and!; [done| |]; apply bool_decide_eq_false;
        intros [= E]; by destruct a. }
  rewrite Epend. unfold mbind, M_bind, lift, op, view_db, mret, M_ret. cbn [db_data db_ops].
  rewrite Ene1, Ene2. cbn [orb]. destruct (fault (db_ops d)); [by eexists _, _|].
  rewrite !newMemDBIterator_spec, ascend_view.
  set (l := filter (λ x, in_domain (Some (p ++ default [] start)) pend x) (ascend (db_data d))).
  assert (∀ x, x ∈ direct backward l → has_prefix x.1 p = true) as Hl.
  { intros x Hx. assert (x ∈ l) as [Hd _]%list_elem_of_filter.
    { destruct backward; cbn [direct] in Hx; [by rewrite elem_of_reverse in Hx|done]. }
    apply Is_true_true, (prefixed_domain p start stop pend x.1 Hp Epend) in Hd as (k' & -> & _).
    apply has_prefix_app. }
  assert (NoDup (direct backward l).*1) as Hn.
  { assert (NoDup l.*1) as Hn.
    { eapply sublist_NoDup; [apply ascend_NoDup|apply fmap_sublist, sublist_filter]. }
    destruct backward; [|done]. cbn [direct]. by rewrite reverse_Permutation. }
  rewrite newPrefixIterator_next, collect_source by done. eexists _, _. split_and!; [done| |done].
  do 3 f_equal. rewrite strip_direct. unfold l. by rewrite (strip_domain p start stop pend _ Hp Epend).
Qed.

Lemma lift_op_view {A B : Type} (p : bytes) (f g : gmap bytes bytes → gmap bytes bytes * A) (h : A → B) (d : DB) :
  (∀ m, g (view p m) = (view p (f m).1, (f m).2)) →
  (∀ m, untouched p m (f m).1) →
  ∃ d' a, (x ← op f; mret (h x)) d = (d', a) ∧
    (x ← op g; mret (h x)) (view_db p d) = (view_db p d', a) ∧
    untouched p (db_data d) (db_data d').
Proof.
  intros Hg Hu. destruct (op_view p f g d Hg Hu) as (d' & a & E1 & E2 & Hd).
  unfold mbind, M_bind. rewrite E1, E2. destruct a; by eexists _, _.
Qed.

(** C16: a [PrefixDB] is a database of its own inside another one: every operation
    (lookups, writes, batches, iteration in both directions over any bounds, calls with
    empty keys or nil values, and operations that the backend fails) answers and acts as
    the same operation of a [MemDB] that holds the items with the prefix, and touches no
    other item.  The prefix is not empty and does not end in 0xFF. *)
Theorem prefixdb_refines (p : bytes) (r : request) (d : DB) :
  (∃ a b, p = a ++ [b] ∧ b ≠ xff) →
  ∃ d' a, run_prefix p r d = (d', a) ∧ run_mem r (view_db p d) = (view_db p d', a) ∧
    untouched p (db_data d) (db_data d').
Proof.
  intros Hp. assert (∀ k : bytes, k ≠ [] → p ++ k ≠ []) as Hne by (by intros k Hk [_ ?]%app_eq_nil).
  destruct r as [k|k|k v|k|backward start stop|l].
  - unfold run_prefix, run_mem, p_Get, Get, prefixed. case_bool_decide as E; [by eexists _, _|].
    rewrite bool_decide_eq_false_2 by auto. apply lift_op_view; [|done].
    intros m. cbn. by rewrite lookup_view, bool_decide_eq_false_2.
  - unfold run_prefix, run_mem, p_Has, Has, prefixed. case_bool_decide as E; [by eexists _, _|].
    rewrite bool_decide_eq_false_2 by auto. apply lift_op_view; [|done].
    intros m. cbn. by rewrite lookup_view, (bool_decide_eq_false_2 (k = [])).
  - unfold run_prefix, run_mem, p_Set, Set_, prefixed. case_bool_decide as E; [by eexists _, _|].
    destruct v as [v|]; [|by eexists _, _]. rewrite bool_decide_eq_false_2 by auto.
    apply lift_op_view; intros m; cbn; [by rewrite view_insert|by apply untouched_insert].
  - unfold run_prefix, run_mem, p_Delete, Delete, prefixed. case_bool_decide as E; [by eexists _, _|].
    rewrite bool_decide_eq_false_2 by auto.
    apply lift_op_view; intros m; cbn; [by rewrite view_delete|by apply untouched_delete].
  - destruct (iterate_view p backward start stop d Hp) as (d' & a & E1 & E2 & E3).
    exists d', a. split_and!; [done|done|]. by rewrite E3.
  - unfold run_prefix, run_mem, mbind, M_bind, lift, NewBatch. pose proof (fill_prefixed p l []) as Hf.
    cbn [map app] in Hf. destruct (fill batch_Set batch_Delete (Some []) l); [|by rewrite Hf; eexists _, _..].
    destruct Hf as (ops & -> & Ho & ->). unfold batch_Write. cbn [app].
    apply (lift_op_view p (λ m, (foldl apply_op m (map (op_prefixed p) ops), tt))
             (λ m, (foldl apply_op m ops, tt)) (λ _, ADone)); intros m; cbn;
      destruct (writes_view p ops m Ho) as [E Hu]; [by rewrite E|done].
Qed.


Lemma cpIncr_carry a b : b ≠ xff → cpIncr (a ++ [b; xff]) = Ok (Some (a ++ [byte_incr b; x00])).
Proof.
  intros Hb. unfold cpIncr. rewrite bool_decide_eq_false_2 by by destruct a.
  rewrite (reverse_app a [b; xff]). change (reverse [b; xff]) with [xff; b]. cbn [app incr_loop].
  rewrite (bool_decide_eq_true_2 (xff = xff)) by done. rewrite bool_decide_eq_false_2 by done.
  cbn [fmap option_fmap option_map]. rewrite !reverse_cons, reverse_involutive, <- app_assoc. done.
Qed.

(** Of the keys before [c 0], [c] is the last one. *)
Lemma before_zero a c k : bytes_ltb k (a ++ [c; x00]) = true ↔ bytes_le k (a ++ [c]).
Proof.
  revert k. induction a as [|x a IH]; intros k.
  - unfold bytes_ltb, bytes_le. destruct k as [|y [|z k]]; cbn; [done| |];
      destruct (N.compare _ _); try done.
    destruct (N.compare_spec (Byte.to_N z) 0); [by destruct k|lia|done].
  - unfold bytes_ltb, bytes_le in *. destruct k as [|y k]; cbn; [done|].
    destruct (N.compare _ _); [apply IH|done|done].
Qed.

Lemma prefix_neq a b : b ≠ xff → has_prefix (a ++ [byte_incr b]) (a ++ [b; xff]) = false.
Proof.
  intros Hb. apply not_true_iff_false. intros [k E]%has_prefix_spec.
  rewrite <- app_assoc in E. apply (inj (app a)) in E. discriminate E.
Qed.

(** The range of such a prefix, backward, starts with a key that does not have it. *)
Lemma backward_head a b v m :
  b ≠ xff → m !! (a ++ [byte_incr b]) = Some v →
  ∃ w l, newMemDBIterator m (Some (a ++ [b; xff])) (Some (a ++ [byte_incr b; x00])) true =
    (a ++ [byte_incr b], w) :: l.
Proof.
  intros Hb Hv. set (c := a ++ [byte_incr b]) in *. rewrite newMemDBIterator_spec. cbn [direct].
  set (l := filter _ (ascend m)).
  assert ((c, v) ∈ reverse l) as Hin.
  { rewrite elem_of_reverse. apply list_elem_of_filter. split; [|by apply elem_of_ascend].
    apply Is_true_true. unfold in_domain, IsKeyInDomain. cbn [from_option id fst].
    apply andb_true_iff. split; [|by apply before_zero; destruct (total bytes_le c c)].
    apply negb_true_iff, bytes_ltb_le. unfold c, bytes_le. rewrite bytes_compare_app. cbn.
    rewrite byte_incr_N by done.
    destruct (N.compare_spec (Byte.to_N b) (Byte.to_N b + 1)); [lia|done|lia]. }
  assert (StronglySorted (flip item_le) (reverse l)) as Hs.
  { unfold l. rewrite <- filter_reverse. apply StronglySorted_filter, descend_sorted. }
  destruct (reverse l) as [|[k w] l'] eqn:El; [by inversion Hin|].
  exists w, l'. do 2 f_equal. apply (anti_symm bytes_le).
  - assert (((k, w) : item) ∈ reverse l) as Hk by (rewrite El; by left).
    apply elem_of_reverse, list_elem_of_filter in Hk as [Hk _].
    apply Is_true_true, andb_true_iff in Hk as [_ Hk]. by apply before_zero.
  - apply elem_of_cons in Hin as [[= -> _]|Hin]; [by destruct (total bytes_le k k)|].
    apply StronglySorted_cons in Hs as [Hs _]. rewrite Forall_forall in Hs. by apply (Hs (c, v)).
Qed.

(** A backward iteration over a [PrefixDB] whose prefix ends in 0xFF returns no item
    at all when the database below holds the key that is the prefix without this byte,
    incremented: [cpIncr] keeps the length, so that the range of the prefix includes this
    key, it is met first, and the iterator ends at a key without the prefix. *)
Theorem prefix_backward_misses (a : bytes) (b : byte) (v : bytes) (d : DB) :
  b ≠ xff → fault (db_ops d) = false → db_data d !! (a ++ [byte_incr b]) = Some v →
  (run_prefix (a ++ [b; xff]) (RIterate true None None) d).2 = Ok (AItems []).
Proof.
  intros Hb Hf Hv. unfold run_prefix, p_iterate. change (empty_bound None) with false.
  cbn [orb from_option id]. rewrite cpIncr_carry by done. rewrite app_nil_r.
  unfold mbind, M_bind, lift, iterate, op.
  assert (∀ l, l ≠ [] → empty_bound (Some (a ++ l)) = false) as Hne.
  { intros l Hl. apply bool_decide_eq_false. intros [= E]. by apply app_eq_nil in E as [_ ?]. }
  rewrite !Hne by done. cbn [orb]. rewrite Hf. destruct (backward_head a b v _ Hb Hv) as (w & l & ->).
  unfold mret, M_ret, newPrefixIterator. rewrite bool_decide_eq_false_2, prefix_neq by
    (done || by intros ?%(inj (app a))). done.
Qed.


End simulation.

(** ** Witnesses *)

#[local] Instance no_faults : Faults := {| fault := λ _, false |}.

Definition demo_db : DB := mkDB {[ [x01; x61] := [x0a]; [x02] := [x0b] ]} 0.

Lemma prefixdb_refines_witness :
  ∃ d' a, run_prefix [x01] (RIterate true None (Some [x62])) demo_db = (d', a) ∧
    a = Ok (AItems [([x61], [x0a])]).
Proof.
  destruct (prefixdb_refines [x01] (RIterate true None (Some [x62])) demo_db) as (d' & a & E & Em & _).
  - by exists [], x01.
  - exists d', a. split; [exact E|]. apply (f_equal snd) in Em. cbn [snd] in Em. rewrite <- Em.
    vm_compute. reflexivity.
Defined.

Lemma prefix_backward_misses_witness :
  (run_prefix [x01; xff] (RIterate true None None)
    (mkDB {[ [x01; xff; x61] := [x0a]; [x02] := [x0b] ]} 0)).2 = Ok (AItems []).
Proof.
  refine (prefix_backward_misses [] x01 [x0b] (mkDB {[ [x01; xff; x61] := [x0a]; [x02] := [x0b] ]} 0)
    _ eq_refl _); [discriminate|vm_compute; reflexivity].
Defined.


End db.
