(* ===== verification/SafeMath.v ===== *)
(** * libs/math: checked integer arithmetic

    Models [src/libs/math/safemath.go] and the comparisons of
    [src/libs/math/math.go].  Integers are [Z]; every Go operation that can
    wrap does wrap here, so the guards are what makes the results right. *)
From Stdlib Require Import ZArith Lia.
From stdpp Require Import base numbers.
From S2P Require Import Prelude.

Local Open Scope Z_scope.

Inductive math_error := ErrOverflow.

Global Instance math_error_eq_dec : EqDecision math_error.
Proof. solve_decision. Defined.

(** ** Addition and subtraction *)

Definition SafeAddInt64 (a b : Z) : outcome math_error Z :=
  if (b >? 0) && (a >? int64 (MaxInt64 - b)) then Err ErrOverflow
  else if (b <? 0) && (a <? int64 (MinInt64 - b)) then Err ErrOverflow
  else Ok (int64 (a + b)).

Definition SafeAddClipInt64 (a b : Z) : Z :=
  match SafeAddInt64 a b with
  | Ok c => c
  | _ => if b <? 0 then MinInt64 else MaxInt64
  end.

Definition SafeAddInt32 (a b : Z) : outcome math_error Z :=
  if (b >? 0) && (a >? int32 (MaxInt32 - b)) then Err ErrOverflow
  else if (b <? 0) && (a <? int32 (MinInt32 - b)) then Err ErrOverflow
  else Ok (int32 (a + b)).

(** The second component is the overflow flag. *)
Definition SafeSubInt64 (a b : Z) : Z * bool :=
  if (b >? 0) && (a <? int64 (MinInt64 + b)) then (-1, true)
  else if (b <? 0) && (a >? int64 (MaxInt64 + b)) then (-1, true)
  else (int64 (a - b), false).

Definition SafeSubClipInt64 (a b : Z) : Z :=
  let (c, overflow) := SafeSubInt64 a b in
  if overflow then if b >? 0 then MinInt64 else MaxInt64 else c.

Definition SafeSubInt32 (a b : Z) : outcome math_error Z :=
  if (b >? 0) && (a <? int32 (MinInt32 + b)) then Err ErrOverflow
  else if (b <? 0) && (a >? int32 (MaxInt32 + b)) then Err ErrOverflow
  else Ok (int32 (a - b)).

Definition SafeMulInt64 (a b : Z) : Z * bool :=
  if (a =? 0) || (b =? 0) then (0, false)
  else
    let absOfB := if b <? 0 then int64 (- b) else b in
    let absOfA := if a <? 0 then int64 (- a) else a in
    if absOfA >? int64 (Z.quot MaxInt64 absOfB) then (0, true)
    else (int64 (a * b), false).

(** ** Conversions

    A type argument is its kind and whether it is a defined (named) type: a
    type switch on [any(T(0))] does not see the kind of a defined type. *)

Inductive kind :=
  | KInt | KInt8 | KInt16 | KInt32 | KInt64
  | KUint | KUint8 | KUint16 | KUint32 | KUint64.

Global Instance kind_eq_dec : EqDecision kind.
Proof. solve_decision. Defined.

Record Integer := mkInteger { ty_kind : kind; ty_named : bool }.

Definition width (k : kind) : Z :=
  match k with
  | KInt8 | KUint8 => 8
  | KInt16 | KUint16 => 16
  | KInt32 | KUint32 => 32
  | KInt | KInt64 | KUint | KUint64 => 64
  end.

Definition signed (k : kind) : bool :=
  match k with
  | KInt | KInt8 | KInt16 | KInt32 | KInt64 => true
  | _ => false
  end.

(** The Go conversion [T(z)]. *)
Definition convert (T : Integer) (z : Z) : Z :=
  if signed (ty_kind T) then swrap (width (ty_kind T)) z
  else uwrap (width (ty_kind T)) z.

Definition min_of (k : kind) : Z :=
  if signed k then - 2 ^ (width k - 1) else 0.
Definition max_of (k : kind) : Z :=
  if signed k then 2 ^ (width k - 1) - 1 else 2 ^ width k - 1.
Definition in_kind (k : kind) (z : Z) : Prop := min_of k ≤ z ≤ max_of k.

(** [switch any(x).(type)] on a value of type [T]: [None] is the default case. *)
Definition type_switch (T : Integer) : option kind :=
  if ty_named T then None else Some (ty_kind T).

Definition Max (T : Integer) : outcome math_error Z :=
  match type_switch T with
  | Some KInt => Ok (uint64 MaxInt64)
  | Some KInt8 => Ok (uint64 MaxInt8)
  | Some KInt16 => Ok (uint64 MaxInt16)
  | Some KInt32 => Ok (uint64 MaxInt32)
  | Some KInt64 => Ok (uint64 MaxInt64)
  | Some KUint => Ok (uint64 MaxUint64)
  | Some KUint8 => Ok (uint64 MaxUint8)
  | Some KUint16 => Ok (uint64 MaxUint16)
  | Some KUint32 => Ok (uint64 MaxUint32)
  | Some KUint64 => Ok (uint64 MaxUint64)
  | None => Panic
  end.

Definition Min (T : Integer) : outcome math_error Z :=
  match type_switch T with
  | Some KInt => Ok MinInt64
  | Some KInt8 => Ok MinInt8
  | Some KInt16 => Ok MinInt16
  | Some KInt32 => Ok MinInt32
  | Some KInt64 => Ok MinInt64
  | Some _ => Ok 0
  | None => Panic
  end.

(** The part of [SafeConvert] after the type switch. *)
Definition SafeConvert_tail (T : Integer) (from : Z) : outcome math_error Z :=
  over ← (if from >=? 0 then max ← Max T; Ok (uint64 from >? max) else Ok false);
  if (over : bool) then Err ErrOverflow else
  under ← (if from <=? 0 then min ← Min T; Ok (int64 from <? min) else Ok false);
  if (under : bool) then Err ErrOverflow else Ok (convert T from).

Definition SafeConvert64 (F : kind) (T : Integer) (from : Z) : outcome math_error Z :=
  match F with
  | KInt64 =>
      if bool_decide (type_switch T = Some KUint64) && (from <? 0)
      then Err ErrOverflow else SafeConvert_tail T from
  | KUint64 =>
      if bool_decide (type_switch T = Some KInt64) && (uint64 from >? MaxInt64)
      then Err ErrOverflow else SafeConvert_tail T from
  | _ => SafeConvert_tail T from
  end.

(** On a 64-bit platform [int] and [uint] fall back to [int64] and [uint64]. *)
Definition SafeConvert (F T : Integer) (from : Z) : outcome math_error Z :=
  match type_switch F with
  | Some KInt64 => SafeConvert64 KInt64 T from
  | Some KUint64 => SafeConvert64 KUint64 T from
  | Some KInt => SafeConvert64 KInt64 T (int64 from)
  | Some KUint => SafeConvert64 KUint64 T (uint64 from)
  | _ => SafeConvert_tail T from
  end.

Definition MustConvert (F T : Integer) (a : Z) : outcome math_error Z :=
  match SafeConvert F T a with Ok i => Ok i | _ => Panic end.

Definition MustConvertUint8 (F : Integer) (a : Z) : outcome math_error Z :=
  MustConvert F (mkInteger KUint8 false) a.

Definition SafeConvertInt32 (a : Z) : outcome math_error Z :=
  if int64 a >? MaxInt32 then Err ErrOverflow
  else if int64 a <? MinInt32 then Err ErrOverflow
  else Ok (int32 a).

Definition SafeConvertUint32 (a : Z) : outcome math_error Z :=
  if uint64 a >? MaxUint32 then Err ErrOverflow
  else if a <? 0 then Err ErrOverflow
  else Ok (uint32 a).

Definition SafeConvertUint8 (a : Z) : outcome math_error Z :=
  if a >? MaxUint8 then Err ErrOverflow
  else if a <? 0 then Err ErrOverflow
  else Ok (uint8 a).

Definition SafeConvertInt8 (a : Z) : outcome math_error Z :=
  if a >? MaxInt8 then Err ErrOverflow
  else if a <? MinInt8 then Err ErrOverflow
  else Ok (int8 a).

Definition MustConvertInt32 (a : Z) : outcome math_error Z :=
  match SafeConvertInt32 a with Ok i => Ok i | _ => Panic end.
Definition MustConvertUint32 (a : Z) : outcome math_error Z :=
  match SafeConvertUint32 a with Ok i => Ok i | _ => Panic end.

Definition MaxInt (a b : Z) : Z := if a >? b then a else b.
Definition MinInt (a b : Z) : Z := if a <? b then a else b.

(** ** Lemmas the other components use *)

Lemma SafeAddInt64_Ok a b :
  in_int64 a → in_int64 b → in_int64 (a + b) → SafeAddInt64 a b = Ok (a + b).
Proof.
  intros. unfold SafeAddInt64.
  repeat split_if; bools; unwrap_ints; try f_equal; lia.
Qed.

Lemma SafeAddInt64_Err a b :
  in_int64 a → in_int64 b → ¬ in_int64 (a + b) →
  SafeAddInt64 a b = Err ErrOverflow.
Proof.
  intros Ha Hb Hs. unfold SafeAddInt64.
  destruct (Z.lt_trichotomy b 0) as [|[->|]]; unfold in_int64 in *;
    repeat split_if; bools; unwrap_ints; try done; exfalso; apply Hs; lia.
Qed.

(** [clip z] is the closest 64-bit integer to [z]. *)
Definition clip (z : Z) : Z := Z.max MinInt64 (Z.min MaxInt64 z).

Lemma in_int64_dec z : in_int64 z ∨ ¬ in_int64 z.
Proof. unfold in_int64. lia. Qed.

Lemma SafeAddClipInt64_spec a b :
  in_int64 a → in_int64 b → SafeAddClipInt64 a b = clip (a + b).
Proof.
  intros Ha Hb. unfold SafeAddClipInt64, clip.
  destruct (in_int64_dec (a + b)) as [H|H].
  - rewrite SafeAddInt64_Ok by done. unfold_ints. lia.
  - rewrite SafeAddInt64_Err by done. split_if; bools; unfold_ints; lia.
Qed.

Lemma SafeSubInt64_spec a b :
  in_int64 a → in_int64 b →
  (in_int64 (a - b) ∧ SafeSubInt64 a b = (a - b, false)) ∨
  (¬ in_int64 (a - b) ∧ SafeSubInt64 a b = (-1, true)).
Proof.
  intros Ha Hb. unfold SafeSubInt64. unfold in_int64 in *.
  destruct (Z.lt_trichotomy b 0) as [|[->|]];
    repeat split_if; bools; unwrap_ints;
    first [ left; split; [lia|f_equal; lia]
          | right; split; [lia|done] | lia ].
Qed.

Lemma SafeSubClipInt64_spec a b :
  in_int64 a → in_int64 b → SafeSubClipInt64 a b = clip (a - b).
Proof.
  intros Ha Hb. unfold SafeSubClipInt64, clip.
  destruct (SafeSubInt64_spec a b) as [[H ->]|[H ->]]; try done;
    repeat split_if; bools; unfold_ints; lia.
Qed.

Lemma SafeAddInt32_spec a b :
  in_int32 a → in_int32 b →
  (in_int32 (a + b) ∧ SafeAddInt32 a b = Ok (a + b)) ∨
  (¬ in_int32 (a + b) ∧ SafeAddInt32 a b = Err ErrOverflow).
Proof.
  intros Ha Hb. unfold SafeAddInt32. unfold in_int32 in *.
  destruct (Z.lt_trichotomy b 0) as [|[->|]];
    repeat split_if; bools; unwrap_ints;
    first [ left; split; [lia|f_equal; lia]
          | right; split; [lia|done] | lia ].
Qed.

Lemma SafeSubInt32_spec a b :
  in_int32 a → in_int32 b →
  (in_int32 (a - b) ∧ SafeSubInt32 a b = Ok (a - b)) ∨
  (¬ in_int32 (a - b) ∧ SafeSubInt32 a b = Err ErrOverflow).
Proof.
  intros Ha Hb. unfold SafeSubInt32. unfold in_int32 in *.
  destruct (Z.lt_trichotomy b 0) as [|[->|]];
    repeat split_if; bools; unwrap_ints;
    first [ left; split; [lia|f_equal; lia]
          | right; split; [lia|done] | lia ].
Qed.

Lemma Max_builtin k : Max (mkInteger k false) = Ok (max_of k).
Proof. by destruct k. Qed.

Lemma Min_builtin k : Min (mkInteger k false) = Ok (min_of k).
Proof. by destruct k. Qed.

Lemma kind_bounds k : MinInt64 ≤ min_of k ≤ 0 ∧ 0 ≤ max_of k ≤ MaxUint64.
Proof. by destruct k. Qed.

Lemma convert_id k n z : in_kind k z → convert (mkInteger k n) z = z.
Proof.
  unfold in_kind, convert, min_of, max_of. cbn [ty_kind].
  destruct (signed k) eqn:Hs; intros H; [apply swrap_id|apply uwrap_id];
    try lia; by destruct k.
Qed.

Lemma SafeConvert_tail_spec k z :
  MinInt64 ≤ z ≤ MaxUint64 →
  (in_kind k z ∧ SafeConvert_tail (mkInteger k false) z = Ok z) ∨
  (¬ in_kind k z ∧ SafeConvert_tail (mkInteger k false) z = Err ErrOverflow).
Proof.
  intros Hz. pose proof (kind_bounds k) as Hk. unfold SafeConvert_tail.
  rewrite Max_builtin, Min_builtin.
  assert (in_kind k z ∨ ¬ in_kind k z) as [H|H] by (unfold in_kind; lia);
    [left|right]; (split; [done|]).
  - rewrite convert_id by done. unfold in_kind in H.
    destruct (z >=? 0) eqn:E1, (z <=? 0) eqn:E2; bools; try lia; cbn;
      repeat split_if; bools; unwrap_ints; done || lia.
  - unfold in_kind in H.
    destruct (z >=? 0) eqn:E1, (z <=? 0) eqn:E2; bools; try lia; cbn;
      repeat split_if; bools; unwrap_ints; done || lia.
Qed.

Lemma SafeConvert64_spec F k z :
  F = KInt64 ∧ in_kind KInt64 z ∨ F = KUint64 ∧ in_kind KUint64 z →
  (in_kind k z ∧ SafeConvert64 F (mkInteger k false) z = Ok z) ∨
  (¬ in_kind k z ∧ SafeConvert64 F (mkInteger k false) z = Err ErrOverflow).
Proof.
  intros HF. assert (MinInt64 ≤ z ≤ MaxUint64) as Hz.
  { destruct HF as [[_ H]|[_ H]]; revert H; unfold in_kind; cbn; unfold_ints; lia. }
  destruct HF as [[-> H]|[-> H]]; cbn [SafeConvert64]; split_if;
    try by apply SafeConvert_tail_spec.
  - bools. destruct k; try discriminate. right. split; [|done].
    unfold in_kind, min_of. cbn. lia.
  - bools. destruct k; try discriminate. right. split; [|done].
    revert H. unfold in_kind, max_of. cbn. unwrap_ints. unfold_ints. intros.
    rewrite uwrap_id in * by lia. lia.
Qed.

(** For all built-in integer types [F] and [T], [SafeConvert] of a value of
    [F] returns that very value exactly when [T] can represent it, and
    [ErrOverflow] otherwise; it never panics. *)
Theorem SafeConvert_exact F T from :
  in_kind F from →
  SafeConvert (mkInteger F false) (mkInteger T false) from =
    if bool_decide (in_kind T from) then Ok from else Err ErrOverflow.
Proof.
  intros HF.
  assert ((in_kind T from ∧
      SafeConvert (mkInteger F false) (mkInteger T false) from = Ok from) ∨
    (¬ in_kind T from ∧
      SafeConvert (mkInteger F false) (mkInteger T false) from = Err ErrOverflow))
    as [[H ->]|[H ->]].
  - pose proof (kind_bounds F).
    assert (MinInt64 ≤ from ≤ MaxUint64) by (unfold in_kind in HF; lia).
    unfold SafeConvert. destruct F; cbn [type_switch ty_named ty_kind];
      try (by apply SafeConvert_tail_spec); try (apply SafeConvert64_spec; auto).
    + rewrite int64_id by done. apply SafeConvert64_spec; auto.
    + rewrite uint64_id by done. apply SafeConvert64_spec; auto.
  - by rewrite bool_decide_eq_true_2.
  - by rewrite bool_decide_eq_false_2.
Qed.

Lemma SafeConvert_exact_witness :
  in_kind KUint64 300 ∧
  SafeConvert (mkInteger KUint64 false) (mkInteger KUint8 false) 300 = Err ErrOverflow.
Proof.
  split; [done|]. refine (SafeConvert_exact KUint64 KUint8 300 _). done.
Defined.

(** Conversion to a defined type panics: [Max] has no case for it. *)
Lemma SafeConvert_named_panics F k from :
  0 ≤ from ≤ MaxInt64 → type_switch F = None →
  SafeConvert F (mkInteger k true) from = Panic.
Proof.
  intros H E. unfold SafeConvert. rewrite E. unfold SafeConvert_tail.
  destruct (from >=? 0) eqn:?; bools; [done|lia].
Qed.

Lemma SafeMulInt64_range a b :
  in_int64 a → in_int64 b → a ≠ MinInt64 → b ≠ MinInt64 →
  SafeMulInt64 a b =
    if bool_decide (Z.abs (a * b) ≤ MaxInt64) then (a * b, false) else (0, true).
Proof.
  intros Ha Hb Na Nb. unfold SafeMulInt64.
  destruct (Z.eqb_spec a 0) as [->|Ha0]; [by cbn|].
  destruct (Z.eqb_spec b 0) as [->|Hb0];
    [by rewrite Z.mul_0_r|]. cbn [orb].
  assert ((if b <? 0 then int64 (- b) else b) = Z.abs b) as ->
    by (split_if; bools; unwrap_ints; lia).
  assert ((if a <? 0 then int64 (- a) else a) = Z.abs a) as ->
    by (split_if; bools; unwrap_ints; lia).
  rewrite Z.quot_div_nonneg by (unfold_ints; lia).
  pose proof (Z.div_mod MaxInt64 (Z.abs b) ltac:(lia)) as Hdm.
  pose proof (Z.mod_pos_bound MaxInt64 (Z.abs b) ltac:(lia)) as Hmb.
  rewrite int64_id by (unfold_ints; nia).
  rewrite Z.abs_mul. split_if; bools.
  - rewrite bool_decide_eq_false_2; [done|]. nia.
  - rewrite bool_decide_eq_true_2 by nia. rewrite int64_id; [done|].
    unfold_ints. nia.
Qed.

(** The guard of [SafeMulInt64] does not see [MinInt64]: its absolute value
    wraps to itself. *)
Lemma SafeMulInt64_MinInt64 : SafeMulInt64 MinInt64 2 = (0, false).
Proof. reflexivity. Qed.

(** A [uint64] just below [2^64] passes the guards of [SafeConvertInt32]. *)
Lemma SafeConvertInt32_uint64 : SafeConvertInt32 MaxUint64 = Ok (-1).
Proof. reflexivity. Qed.

Lemma SafeConvertInt32_int64 z :
  in_int64 z →
  SafeConvertInt32 z = if bool_decide (in_int32 z) then Ok z else Err ErrOverflow.
Proof.
  intros H. unfold SafeConvertInt32. rewrite int64_id by done.
  unfold in_int32. repeat split_if; bools; try done; try lia.
  by rewrite int32_id.
Qed.
