(* ===== verification/BitArray.v ===== *)
(** * libs/bits: bit arrays

    Models [src/libs/bits/bit_array.go].  A [*BitArray] is an
    [option BitArray], its elements 64-bit words; the mutex is not modelled
    (every method holds it for its whole body).  [wf] is the invariant of the
    arrays the package builds, [clean] the stronger one that the unused high
    bits of the last word are zero; [get] is the abstract view of an array as a
    function from indices to bits. *)
From Stdlib Require Import ZArith Lia Ascii.
From stdpp Require Import base numbers list strings.
From S2P Require Import Prelude.
From S2P Require Import SafeMath.

Local Open Scope Z_scope.

Module bits.

Record BitArray := mkBitArray { Bits : Z; Elems : list Z }.

Inductive bits_error :=
  | ErrNegativeBits
  | ErrTooManyBits
  | ErrInvalidNumElems (got exp : Z)
  | ErrBadJSON.

Notation res := (outcome bits_error).

Definition len {A} (l : list A) : Z := Z.of_nat (length l).

Definition numElems (bits : Z) : Z := Z.quot (int64 (bits + 63)) 64.

(** [uint64(1) << uint(s)]: the count is unsigned and shifts of 64 or more
    give 0. *)
Definition bit_at (s : Z) : Z :=
  let s := uint64 s in if s <? 64 then Z.shiftl 1 s else 0.

(** [^e] on a [uint64]. *)
Definition compl (e : Z) : Z := Z.lxor e MaxUint64.

Definition reset (bits : Z) : res BitArray :=
  if bits =? 0 then Ok (mkBitArray 0 [])
  else es ← make_slice 0 (numElems bits); Ok (mkBitArray bits es).

Definition NewBitArray (bits : Z) : res (option BitArray) :=
  if bits <=? 0 then Ok None else bA ← reset bits; Ok (Some bA).

Definition Size (bA : option BitArray) : Z :=
  match bA with None => 0 | Some bA => Bits bA end.

Definition getIndex (bA : BitArray) (i : Z) : res bool :=
  if i >=? Bits bA then Ok false
  else e ← index (Elems bA) (Z.quot i 64); Ok (Z.land e (bit_at (Z.rem i 64)) >? 0).

Definition GetIndex (bA : option BitArray) (i : Z) : res bool :=
  match bA with None => Ok false | Some bA => getIndex bA i end.

Definition setIndex (bA : BitArray) (i : Z) (v : bool) : res (BitArray * bool) :=
  if (i <? 0) || (i >=? Bits bA) then Ok (bA, false)
  else
    e ← index (Elems bA) (Z.quot i 64);
    es ← set_index (Elems bA) (Z.quot i 64)
      (if v then Z.lor e (bit_at (Z.rem i 64))
       else Z.land e (compl (bit_at (Z.rem i 64))));
    Ok (mkBitArray (Bits bA) es, true).

Definition SetIndex (bA : option BitArray) (i : Z) (v : bool) :
    res (option BitArray * bool) :=
  match bA with
  | None => Ok (None, false)
  | Some bA => '(bA', ok) ← setIndex bA i v; Ok (Some bA', ok)
  end.

Definition copy (bA : BitArray) : BitArray :=
  mkBitArray (Bits bA) (go_copy (replicate (length (Elems bA)) 0) (Elems bA)).

Definition copyBits (bA : BitArray) (bits : Z) : res BitArray :=
  c ← make_slice 0 (numElems bits); Ok (mkBitArray bits (go_copy c (Elems bA))).

(** [for i := 0; i < n; i++ { c.Elems[i] = f(c.Elems[i], o.Elems[i]) }]. *)
Definition combine (f : Z → Z → Z) (n : nat) (o : list Z) (c : list Z) : res (list Z) :=
  for_range n 0 (λ (i : nat) c,
    x ← index c (Z.of_nat i); y ← index o (Z.of_nat i);
    set_index c (Z.of_nat i) (f x y)) c.

Definition Or (bA o : option BitArray) : res (option BitArray) :=
  match bA, o with
  | None, None => Ok None
  | None, Some o => Ok (Some (copy o))
  | Some bA, None => Ok (Some (copy bA))
  | Some bA, Some o =>
      let o := copy o in
      c ← copyBits bA (MaxInt (Bits bA) (Bits o));
      let smaller := MinInt (len (Elems bA)) (len (Elems o)) in
      es ← combine Z.lor (Z.to_nat smaller) (Elems o) (Elems c);
      Ok (Some (mkBitArray (Bits c) es))
  end.

Definition and (bA o : BitArray) : res BitArray :=
  c ← copyBits bA (MinInt (Bits bA) (Bits o));
  es ← combine Z.land (length (Elems c)) (Elems o) (Elems c);
  Ok (mkBitArray (Bits c) es).

Definition And (bA o : option BitArray) : res (option BitArray) :=
  match bA, o with
  | Some bA, Some o => c ← and bA (copy o); Ok (Some c)
  | _, _ => Ok None
  end.

Definition not (bA : BitArray) : BitArray :=
  let c := copy bA in mkBitArray (Bits c) (map compl (Elems c)).

Definition Not (bA : option BitArray) : option BitArray :=
  match bA with None => None | Some bA => Some (not bA) end.

Definition Sub (bA o : option BitArray) : res (option BitArray) :=
  match bA, o with
  | Some bA, Some o =>
      let o := copy o in
      c ← copyBits bA (Bits bA);
      let smaller := MinInt (len (Elems bA)) (len (Elems o)) in
      es ← combine (λ x y, Z.land x (compl y)) (Z.to_nat smaller) (Elems o) (Elems c);
      Ok (Some (mkBitArray (Bits c) es))
  | _, _ => Ok None
  end.

Definition IsEmpty (bA : option BitArray) : bool :=
  match bA with
  | None => true
  | Some bA => negb (existsb (λ e, e >? 0) (Elems bA))
  end.

(** Slicing [bA.Elems[:len-1]] panics on an empty slice. *)
Definition IsFull (bA : option BitArray) : res bool :=
  match bA with
  | None => Ok true
  | Some bA =>
      lastElem ← index (Elems bA) (len (Elems bA) - 1);
      if existsb (λ e, negb (compl e =? 0)) (take (length (Elems bA) - 1) (Elems bA))
      then Ok false
      else
        let lastElemBits := Z.rem (int64 (Bits bA + 63)) 64 + 1 in
        Ok (Z.land (uint64 (lastElem + 1)) (uint64 (bit_at lastElemBits - 1)) =? 0)
  end.

(** The inner loop of [getTrueIndices]: bits [j], [j+1], ... of [elem], [n] of
    them; the running index is [curBit]. *)
Fixpoint true_bits (n : nat) (j curBit elem : Z) : list Z :=
  match n with
  | O => []
  | S n' =>
      (if Z.land elem (bit_at j) >? 0 then [curBit] else [])
        ++ true_bits n' (j + 1) (curBit + 1) elem
  end.

(** All words but the last; returns the indices and the final [curBit]. *)
Fixpoint true_elems (es : list Z) (curBit : Z) : list Z * Z :=
  match es with
  | [] => ([], curBit)
  | elem :: es' =>
      let '(rest, cur) := true_elems es' (curBit + 64) in
      ((if elem =? 0 then [] else true_bits 64 0 curBit elem) ++ rest, cur)
  end.

Definition getTrueIndices (bA : BitArray) : res (list Z) :=
  _ ← (make_slice 0 (Bits bA) : res (list Z));
  let '(trueIndices, curBit) := true_elems (take (length (Elems bA) - 1) (Elems bA)) 0 in
  lastElem ← index (Elems bA) (len (Elems bA) - 1);
  let numFinalBits := Bits bA - curBit in
  Ok (trueIndices ++ true_bits (Z.to_nat numFinalBits) 0 curBit lastElem).

(** [rnd] is [rand.Intn]. *)
Definition PickRandom (rnd : Z → Z) (bA : option BitArray) : res (Z * bool) :=
  match bA with
  | None => Ok (0, false)
  | Some bA =>
      trueIndices ← getTrueIndices bA;
      if len trueIndices =? 0 then Ok (0, false)
      else i ← index trueIndices (rnd (len trueIndices)); Ok (i, true)
  end.

Definition CountTrueBits (bA : BitArray) : res Z :=
  for_range (Z.to_nat (Bits bA)) 0 (λ (i : nat) bits,
    b ← getIndex bA (Z.of_nat i); Ok (if (b : bool) then bits + 1 else bits)) 0.

Definition Update (bA o : option BitArray) : option BitArray :=
  match bA, o with
  | Some bA, Some o => Some (mkBitArray (Bits bA) (go_copy (Elems bA) (Elems o)))
  | _, _ => bA
  end.

(** [binary.LittleEndian.PutUint64]. *)
Definition le_bytes (e : Z) : list Z :=
  map (λ k : nat, Z.land (Z.shiftr e (8 * Z.of_nat k)) 255) (seq 0 8).

Definition Bytes (bA : BitArray) : res (list Z) :=
  bytes ← make_slice 0 (Z.quot (int64 (Bits bA + 7)) 8);
  for_range (length (Elems bA)) 0 (λ (i : nat) bytes,
    e ← index (Elems bA) (Z.of_nat i);
    if (length bytes <? i * 8)%nat then Panic
    else Ok (take (i * 8) bytes ++ go_copy (drop (i * 8) bytes) (le_bytes e))) bytes.

(** ** JSON: a string of '_' and 'x' *)

Definition dquote : Ascii.ascii := Ascii.ascii_of_nat 34.
Definition json_null : list Ascii.ascii := ["n"; "u"; "l"; "l"]%char.

(** The bits of the loop [for i := 0; i < bA.Bits; i++] as characters. *)
Definition json_bits (bA : BitArray) : res (list Ascii.ascii) :=
  for_range (Z.to_nat (Bits bA)) 0 (λ (i : nat) acc,
    b ← getIndex bA (Z.of_nat i);
    Ok (acc ++ [if (b : bool) then "x"%char else "_"%char])) [].

Definition MarshalJSON (bA : option BitArray) : res (list Ascii.ascii) :=
  match bA with
  | None => Ok json_null
  | Some bA => bits ← json_bits bA; Ok ([dquote] ++ bits ++ [dquote])
  end.

(** The submatch of the regular expression: a quote, any number of '_' and 'x',
    a quote, and nothing else. *)
Definition json_match (b : list Ascii.ascii) : option (list Ascii.ascii) :=
  match b with
  | c :: rest =>
      let n := (length rest - 1)%nat in
      if decide (c = dquote) then
        match rest !! n with
        | Some c' =>
            if decide (c' = dquote ∧
                       Forall (λ a, a = "x"%char ∨ a = "_"%char) (take n rest))
            then Some (take n rest) else None
        | None => None
        end
      else None
  | [] => None
  end.

Definition UnmarshalJSON (bz : list Ascii.ascii) : res BitArray :=
  if decide (bz = json_null) then reset 0
  else
    match json_match bz with
    | None => Err ErrBadJSON
    | Some bits =>
        bA ← reset (len bits);
        for_range (length bits) 0 (λ (i : nat) bA,
          if decide (bits !! i = Some "x"%char)
          then '(bA', _) ← setIndex bA (Z.of_nat i) true; Ok bA'
          else Ok bA) bA
    end.

(** ** Protocol buffers: the message has the same two fields *)

Record ProtoBitArray := mkProto { pb_Bits : Z; pb_Elems : list Z }.

Definition ToProto (bA : option BitArray) : option ProtoBitArray :=
  match bA with
  | None => None
  | Some bA =>
      if (len (Elems bA) =? 0) && (Bits bA =? 0) then None
      else let bc := copy bA in Some (mkProto (Bits bc) (Elems bc))
  end.

Definition FromProto (bA : BitArray) (pb : option ProtoBitArray) : res BitArray :=
  match pb with
  | None => Ok bA
  | Some pb =>
      if pb_Bits pb <? 0 then Err ErrNegativeBits
      else if pb_Bits pb >? MaxInt32 then Err ErrTooManyBits
      else
        let got := len (pb_Elems pb) in
        let exp := numElems (pb_Bits pb) in
        if negb (got =? exp) then Err (ErrInvalidNumElems got exp)
        else Ok (mkBitArray (pb_Bits pb)
               (go_copy (replicate (length (pb_Elems pb)) 0) (pb_Elems pb)))
  end.

(** ** The abstract view *)

Definition word (bA : BitArray) (k : Z) : Z := default 0 (Elems bA !! Z.to_nat k).

(** Bit [i] of the words, whether or not [i] is below [Bits]. *)
Definition raw (bA : BitArray) (i : Z) : bool :=
  Z.testbit (word bA (i / 64)) (i mod 64).

Definition get (bA : BitArray) (i : Z) : bool :=
  (0 <=? i) && (i <? Bits bA) && raw bA i.

Record wf (bA : BitArray) : Prop := {
  wf_bits : 0 ≤ Bits bA ≤ MaxInt64 - 63;
  wf_len : len (Elems bA) = numElems (Bits bA);
  wf_words : Forall in_uint64 (Elems bA) }.

Definition clean (bA : BitArray) : Prop :=
  ∀ i, 0 ≤ i → raw bA i = true → i < Bits bA.

(** *** Words and bits *)

Lemma numElems_spec n : 0 ≤ n ≤ MaxInt64 - 63 → numElems n = (n + 63) / 64.
Proof.
  intros H. unfold numElems. rewrite int64_id by (unfold_ints; lia).
  apply Z.quot_div_nonneg; lia.
Qed.

Lemma numElems_bounds n :
  0 ≤ n ≤ MaxInt64 - 63 → n ≤ 64 * numElems n < n + 64.
Proof. intros H. rewrite numElems_spec by done. div_lia. Qed.

Lemma bit_at_pow s : 0 ≤ s < 64 → bit_at s = 2 ^ s.
Proof.
  intros H. unfold bit_at. rewrite uwrap_id by lia.
  destruct (Z.ltb_spec s 64); [|lia]. by rewrite Z.shiftl_1_l.
Qed.

Lemma land_pow2_testbit e s :
  0 ≤ s → (Z.land e (2 ^ s) >? 0) = Z.testbit e s.
Proof.
  intros Hs. rewrite Z.gtb_ltb. destruct (Z.testbit e s) eqn:Ht.
  - apply Z.ltb_lt.
    assert (0 ≤ Z.land e (2 ^ s)) by (apply Z.land_nonneg; right; lia).
    assert (Z.land e (2 ^ s) ≠ 0); [|lia]. intros E0.
    assert (Z.testbit (Z.land e (2 ^ s)) s = false) as Hf
      by (by rewrite E0, Z.bits_0).
    by rewrite Z.land_spec, Ht, Z.pow2_bits_true in Hf by lia.
  - apply Z.ltb_ge. replace (Z.land e (2 ^ s)) with 0; [lia|].
    apply Z.bits_inj'. intros n Hn.
    rewrite Z.bits_0, Z.land_spec, Z.pow2_bits_eqb by lia.
    destruct (Z.eqb_spec s n) as [<-|]; [by rewrite Ht|by rewrite andb_false_r].
Qed.

Lemma uint64_testbit e n : in_uint64 e → 64 ≤ n → Z.testbit e n = false.
Proof.
  intros He Hn. destruct (Z.eq_dec e 0) as [->|]; [apply Z.bits_0|].
  apply Z.bits_above_log2; [unfold_ints; lia|].
  assert (Z.log2 e < 64); [|lia]. apply Z.log2_lt_pow2; unfold_ints; lia.
Qed.

Lemma uint64_of_bits e :
  (∀ n, n < 0 ∨ 64 ≤ n → Z.testbit e n = false) → in_uint64 e.
Proof.
  intros H. assert (e = Z.land e (Z.ones 64)) as ->.
  { apply Z.bits_inj'. intros n Hn. rewrite Z.land_spec.
    destruct (decide (n < 64)).
    - by rewrite Z.ones_spec_low, andb_true_r by lia.
    - rewrite H by lia. done. }
  rewrite Z.land_ones by lia. unfold_ints.
  pose proof (Z.mod_pos_bound e (2 ^ 64)). lia.
Qed.

Lemma compl_testbit e n :
  0 ≤ n < 64 → Z.testbit (compl e) n = negb (Z.testbit e n).
Proof.
  intros H. unfold compl. change MaxUint64 with (Z.ones 64).
  rewrite Z.lxor_spec, Z.ones_spec_low by lia. by rewrite xorb_true_r.
Qed.

Lemma in_uint64_compl e : in_uint64 e → in_uint64 (compl e).
Proof.
  intros He. apply uint64_of_bits. intros n [Hn|Hn].
  - by rewrite Z.testbit_neg_r.
  - unfold compl. change MaxUint64 with (Z.ones 64).
    by rewrite Z.lxor_spec, (uint64_testbit _ _ He Hn), Z.ones_spec_high by lia.
Qed.

Lemma in_uint64_land a b : in_uint64 a → in_uint64 (Z.land a b).
Proof.
  intros Ha. apply uint64_of_bits. intros n [Hn|Hn].
  - by rewrite Z.testbit_neg_r.
  - by rewrite Z.land_spec, uint64_testbit.
Qed.

Lemma in_uint64_lor a b : in_uint64 a → in_uint64 b → in_uint64 (Z.lor a b).
Proof.
  intros Ha Hb. apply uint64_of_bits. intros n [Hn|Hn].
  - by rewrite Z.testbit_neg_r.
  - by rewrite Z.lor_spec, !uint64_testbit.
Qed.

(** *** Access by index *)

Lemma lookup_word bA k :
  wf bA → 0 ≤ k < numElems (Bits bA) → Elems bA !! Z.to_nat k = Some (word bA k).
Proof.
  intros Hwf Hk. unfold word.
  destruct (Elems bA !! Z.to_nat k) eqn:E; [done|].
  apply lookup_ge_None in E. pose proof (wf_len _ Hwf). unfold len in *. lia.
Qed.

Lemma word_range bA k : wf bA → in_uint64 (word bA k).
Proof.
  intros Hwf. unfold word. destruct (Elems bA !! Z.to_nat k) eqn:E; cbn.
  - by eapply Forall_lookup_1 in E; [|apply Hwf].
  - unfold_ints; lia.
Qed.

Lemma index_word bA k :
  wf bA → 0 ≤ k < numElems (Bits bA) →
  index (Elems bA) k = Ok (word bA k) :> res Z.
Proof.
  intros Hwf Hk. rewrite <- (Z2Nat.id k) at 1 by lia.
  apply index_Ok. by apply lookup_word.
Qed.

Lemma word_index_lt n i :
  0 ≤ n ≤ MaxInt64 - 63 → 0 ≤ i < n → 0 ≤ i / 64 < numElems n.
Proof. intros Hn Hi. rewrite numElems_spec by done. div_lia. Qed.

Lemma getIndex_get bA i : wf bA → 0 ≤ i → getIndex bA i = Ok (get bA i).
Proof.
  intros Hwf Hi. unfold getIndex, get, raw.
  destruct (Z.geb_spec i (Bits bA)) as [H|H].
  { destruct (Z.leb_spec 0 i), (Z.ltb_spec i (Bits bA)); done || lia. }
  rewrite Z.quot_div_nonneg, Z.rem_mod_nonneg by lia.
  rewrite index_word; [|done|apply word_index_lt; [apply Hwf|lia]]. cbn.
  rewrite bit_at_pow by (pose proof (Z.mod_pos_bound i 64); lia).
  rewrite land_pow2_testbit by (pose proof (Z.mod_pos_bound i 64); lia).
  by destruct (Z.leb_spec 0 i), (Z.ltb_spec i (Bits bA)); try lia.
Qed.

(** Two clean well-formed arrays with the same bits are the same array. *)
Lemma bits_ext a b :
  wf a → wf b → Bits a = Bits b → (∀ i, 0 ≤ i → raw a i = raw b i) → a = b.
Proof.
  intros Ha Hb HB Hr.
  assert (Elems a = Elems b) as HE; [|by destruct a, b; cbn in *; subst].
  pose proof (wf_len _ Ha) as La. pose proof (wf_len _ Hb) as Lb.
  unfold len in *. rewrite HB in La.
  apply list_eq_same_length with (n := length (Elems a)); [lia|done|].
  intros k x y Hk Hx Hy.
  assert (word a (Z.of_nat k) = x) as <- by (unfold word; by rewrite Nat2Z.id, Hx).
  assert (word b (Z.of_nat k) = y) as <- by (unfold word; by rewrite Nat2Z.id, Hy).
  apply Z.bits_inj'. intros n Hn. destruct (decide (n < 64)).
  - specialize (Hr (64 * Z.of_nat k + n)). unfold raw in Hr.
    replace ((64 * Z.of_nat k + n) / 64) with (Z.of_nat k) in Hr by div_lia.
    replace ((64 * Z.of_nat k + n) mod 64) with n in Hr by div_lia.
    apply Hr. lia.
  - rewrite !uint64_testbit; (lia || by apply word_range).
Qed.

Lemma clean_get bA i : clean bA → 0 ≤ i → raw bA i = get bA i.
Proof.
  intros Hc Hi. unfold get. destruct (raw bA i) eqn:E; [|by rewrite andb_false_r].
  specialize (Hc i Hi E). by destruct (Z.leb_spec 0 i), (Z.ltb_spec i (Bits bA)); try lia.
Qed.

Lemma get_range bA i : get bA i = true → 0 ≤ i < Bits bA.
Proof. unfold get. intros H. bools. lia. Qed.

(** *** The update loop *)

Lemma combine_spec f n o c :
  (n ≤ length c)%nat → (n ≤ length o)%nat →
  ∃ c', combine f n o c = Ok c' ∧ length c' = length c ∧
    ∀ k, c' !! k =
      if decide (k < n)%nat then (λ x, f x (default 0 (o !! k))) <$> c !! k
      else c !! k.
Proof.
  intros Hc Ho. unfold combine.
  apply (for_range_post (λ j s, length s = length c ∧ ∀ k, s !! k =
      if decide (k < j)%nat then (λ x, f x (default 0 (o !! k))) <$> c !! k
      else c !! k)); [| |done].
  - intros j s Hj [Hl Hs].
    destruct (lookup_lt_is_Some_2 c j) as [x Hx]; [lia|].
    destruct (lookup_lt_is_Some_2 o j) as [y Hy]; [lia|].
    rewrite (index_Ok s j x) by (rewrite Hs; destruct (decide (j < j)%nat); done || lia).
    rewrite (index_Ok o j y) by done. cbn.
    rewrite set_index_Ok by lia. eexists. split; [done|].
    split; [by rewrite length_insert|]. intros k.
    destruct (decide (k = j)) as [->|Hne].
    + rewrite list_lookup_insert_eq by lia.
      destruct (decide (j < S j)%nat); [|lia]. by rewrite Hx, Hy.
    + rewrite list_lookup_insert_ne by done. rewrite Hs.
      by destruct (decide (k < j)%nat), (decide (k < S j)%nat); try lia.
  - split; [done|]. intros k. by destruct (decide (k < 0)%nat); [lia|].
Qed.

Lemma make_slice_Ok {A} (z : A) n :
  0 ≤ n → make_slice z n = Ok (replicate (Z.to_nat n) z) :> res (list A).
Proof. intros H. unfold make_slice. destruct (Z.ltb_spec n 0); [lia|done]. Qed.

Lemma numElems_nonneg n : 0 ≤ n ≤ MaxInt64 - 63 → 0 ≤ numElems n.
Proof. intros H. rewrite numElems_spec by done. div_lia. Qed.

Lemma copyBits_spec bA n :
  wf bA → 0 ≤ n ≤ MaxInt64 - 63 →
  ∃ c, copyBits bA n = Ok c ∧ wf c ∧ Bits c = n ∧
    ∀ k, 0 ≤ k < numElems n → word c k = word bA k.
Proof.
  intros Hwf Hn. pose proof (numElems_nonneg n Hn).
  unfold copyBits. rewrite make_slice_Ok by done. cbn.
  eexists. split; [done|]. split; [|split; [done|]].
  - constructor; cbn; [done| |].
    + unfold len. rewrite length_go_copy, length_replicate. lia.
    + apply Forall_lookup_2. intros k x. rewrite lookup_go_copy.
      destruct (decide _); [by apply Forall_lookup_1, Hwf|].
      intros [-> _]%lookup_replicate. unfold_ints; lia.
  - intros k Hk. unfold word. cbn. rewrite lookup_go_copy, length_replicate.
    destruct (decide _) as [|Hlt]; [done|].
    rewrite (lookup_ge_None_2 (Elems bA)) by lia. cbn.
    by rewrite lookup_replicate_2 by lia.
Qed.

Lemma copy_id bA : copy bA = bA.
Proof.
  unfold copy. rewrite go_copy_full by (by rewrite length_replicate). by destruct bA.
Qed.

(** Bitwise reading of the loop, for a word operation [f] that acts as [g] on
    each of the 64 bits. *)
Lemma combine_raw f g n o c :
  (∀ x y j, 0 ≤ j < 64 → Z.testbit (f x y) j = g (Z.testbit x j) (Z.testbit y j)) →
  (∀ x y, in_uint64 x → in_uint64 y → in_uint64 (f x y)) →
  wf c → wf o → (n ≤ length (Elems c))%nat → (n ≤ length (Elems o))%nat →
  ∃ es, combine f n (Elems o) (Elems c) = Ok es ∧ wf (mkBitArray (Bits c) es) ∧
    ∀ i, 0 ≤ i → raw (mkBitArray (Bits c) es) i =
      if decide (i < 64 * Z.of_nat n) then g (raw c i) (raw o i) else raw c i.
Proof.
  intros Hf Hr Hc Ho Hn Hm.
  destruct (combine_spec f n (Elems o) (Elems c)) as (es & E & Hl & Hk); [done..|].
  exists es. split; [done|]. split.
  - constructor; cbn; [apply Hc|unfold len; rewrite Hl; apply Hc|].
    apply Forall_lookup_2. intros k x. rewrite Hk.
    destruct (decide (k < n)%nat); [|by apply Forall_lookup_1, Hc].
    intros (y & Hy & ->)%fmap_Some. apply Hr.
    + by eapply Forall_lookup_1 in Hy; [|apply Hc].
    + replace k with (Z.to_nat (Z.of_nat k)) by lia.
      change (in_uint64 (word o (Z.of_nat k))). by apply word_range.
  - intros i Hi. unfold raw, word at 1. cbn. rewrite Hk.
    destruct (decide (i < 64 * Z.of_nat n)), (decide (Z.to_nat (i / 64) < n)%nat);
      try (exfalso; div_lia); [|done].
    rewrite <- Hf by (pose proof (Z.mod_pos_bound i 64); lia).
    unfold word. by destruct (lookup_lt_is_Some_2 (Elems c) (Z.to_nat (i / 64)))
      as [x ->]; [lia|].
Qed.

Lemma MaxInt_max a b : MaxInt a b = Z.max a b.
Proof. unfold MaxInt. rewrite Z.gtb_ltb. destruct (Z.ltb_spec b a); lia. Qed.

Lemma MinInt_min a b : MinInt a b = Z.min a b.
Proof. unfold MinInt. destruct (Z.ltb_spec a b); lia. Qed.

Lemma raw_beyond bA i : wf bA → 64 * numElems (Bits bA) ≤ i → raw bA i = false.
Proof.
  intros Hwf Hi. unfold raw, word. rewrite lookup_ge_None_2; [apply Z.bits_0|].
  pose proof (wf_len _ Hwf). unfold len in *.
  pose proof (numElems_nonneg _ (wf_bits _ Hwf)). div_lia.
Qed.

Lemma raw_word_eq a b i : word a (i / 64) = word b (i / 64) → raw a i = raw b i.
Proof. unfold raw. by intros ->. Qed.

Lemma Sub_raw bA o :
  wf bA → wf o →
  ∃ c, Sub (Some bA) (Some o) = Ok (Some c) ∧ wf c ∧ Bits c = Bits bA ∧
    ∀ i, 0 ≤ i → raw c i = raw bA i && negb (raw o i).
Proof.
  intros Hb Ho. unfold Sub. rewrite copy_id.
  destruct (copyBits_spec bA (Bits bA)) as (c & -> & Hc & HB & Hw);
    [done|apply Hb|]. cbn.
  rewrite MinInt_min.
  pose proof (wf_len _ Hb) as Lb. pose proof (wf_len _ Ho) as Lo.
  pose proof (wf_len _ Hc) as Lc. unfold len in *. rewrite HB in Lc.
  destruct (combine_raw (λ x y, Z.land x (compl y)) (λ x y, x && negb y)
    (Z.to_nat (Z.min (len (Elems bA)) (len (Elems o)))) o c)
    as (es & E & Hes & Hraw); try done; unfold len in *; try lia.
  { intros x y j Hj. by rewrite Z.land_spec, compl_testbit. }
  { intros x y Hx Hy. by apply in_uint64_land. }
  rewrite E. cbn. eexists. split; [done|]. split; [done|]. split; [done|].
  intros i Hi. rewrite Hraw by done.
  assert (raw c i = raw bA i) as ->.
  { destruct (decide (i < 64 * numElems (Bits bA))).
    - apply raw_word_eq, Hw. div_lia.
    - by rewrite !raw_beyond by (rewrite ?HB; done || lia). }
  destruct (decide _) as [|Hge]; [done|].
  destruct (decide (i < 64 * numElems (Bits bA))).
  - rewrite (raw_beyond o) by (done || lia). by rewrite andb_true_r.
  - by rewrite (raw_beyond bA) by (done || lia).
Qed.

Lemma And_raw bA o :
  wf bA → wf o →
  ∃ c, And (Some bA) (Some o) = Ok (Some c) ∧ wf c ∧
    Bits c = Z.min (Bits bA) (Bits o) ∧
    ∀ i, 0 ≤ i < 64 * numElems (Bits c) → raw c i = raw bA i && raw o i.
Proof.
  intros Hb Ho. unfold And, and. rewrite copy_id, MinInt_min.
  pose proof (wf_bits _ Hb). pose proof (wf_bits _ Ho).
  destruct (copyBits_spec bA (Z.min (Bits bA) (Bits o))) as (c & -> & Hc & HB & Hw);
    [done|lia|]. cbn.
  pose proof (wf_len _ Ho) as Lo. pose proof (wf_len _ Hc) as Lc. unfold len in *.
  rewrite HB in Lc.
  assert (numElems (Z.min (Bits bA) (Bits o)) ≤ numElems (Bits o))
    by (rewrite !numElems_spec by lia; apply Z.div_le_mono; lia).
  destruct (combine_raw Z.land andb (length (Elems c)) o c)
    as (es & E & Hes & Hraw); try done; try lia.
  { intros x y j Hj. apply Z.land_spec. }
  { intros x y Hx Hy. by apply in_uint64_land. }
  rewrite E. cbn. eexists. split; [done|]. split; [done|]. split; [done|].
  cbn. intros i Hi. rewrite HB in Hi. rewrite Hraw by lia.
  destruct (decide _); [|lia]. f_equal. apply raw_word_eq, Hw. div_lia.
Qed.

Lemma Or_raw bA o :
  wf bA → wf o → numElems (Bits o) ≤ numElems (Bits bA) →
  ∃ c, Or (Some bA) (Some o) = Ok (Some c) ∧ wf c ∧
    Bits c = Z.max (Bits bA) (Bits o) ∧
    ∀ i, 0 ≤ i → raw c i = raw bA i || raw o i.
Proof.
  intros Hb Ho Hle. unfold Or. rewrite copy_id, MaxInt_max, MinInt_min.
  pose proof (wf_bits _ Hb). pose proof (wf_bits _ Ho).
  destruct (copyBits_spec bA (Z.max (Bits bA) (Bits o))) as (c & -> & Hc & HB & Hw);
    [done|lia|]. cbn.
  pose proof (wf_len _ Hb) as Lb. pose proof (wf_len _ Ho) as Lo.
  pose proof (wf_len _ Hc) as Lc. rewrite HB in Lc.
  assert (numElems (Z.max (Bits bA) (Bits o)) = numElems (Bits bA)) as Hn
    by (destruct (Z.max_spec (Bits bA) (Bits o)) as [[? ->]|[? ->]]; [|done];
        rewrite !numElems_spec in * by lia;
        pose proof (Z.div_le_mono (Bits bA + 63) (Bits o + 63) 64); lia).
  destruct (combine_raw Z.lor orb
    (Z.to_nat (Z.min (len (Elems bA)) (len (Elems o)))) o c)
    as (es & E & Hes & Hraw); try done; unfold len in *; try lia.
  { intros x y j Hj. apply Z.lor_spec. }
  { intros x y Hx Hy. by apply in_uint64_lor. }
  rewrite E. cbn. eexists. split; [done|]. split; [done|]. split; [done|].
  intros i Hi. rewrite Hraw by lia.
  assert (raw c i = raw bA i) as ->.
  { destruct (decide (i < 64 * numElems (Bits bA))).
    - apply raw_word_eq, Hw. div_lia.
    - by rewrite !raw_beyond by (rewrite ?HB; done || lia). }
  destruct (decide _); [done|].
  rewrite (raw_beyond o) by (done || lia). by rewrite orb_false_r.
Qed.

(** Words of [o] beyond the words of [bA] are dropped, although the result is
    as long as [o]. *)
Lemma Or_drops_longer :
  (c ← Or (Some (mkBitArray 1 [0])) (Some (mkBitArray 65 [0; 1]));
   GetIndex c 64) = Ok false.
Proof. reflexivity. Qed.

Lemma Not_raw bA :
  wf bA → ∃ c, Not (Some bA) = Some c ∧ wf c ∧ Bits c = Bits bA ∧
    ∀ i, 0 ≤ i < 64 * numElems (Bits bA) → raw c i = negb (raw bA i).
Proof.
  intros Hb. unfold Not, not. rewrite copy_id. eexists. split; [done|].
  pose proof (wf_len _ Hb) as Lb. split; [|split; [done|]].
  - constructor; cbn; [apply Hb|unfold len in *; by rewrite length_map|].
    apply Forall_map. eapply Forall_impl; [apply Hb|]. apply in_uint64_compl.
  - intros i Hi. unfold raw. rewrite <- compl_testbit
      by (pose proof (Z.mod_pos_bound i 64); lia).
    f_equal. unfold word. cbn. rewrite list_lookup_fmap.
    destruct (lookup_lt_is_Some_2 (Elems bA) (Z.to_nat (i / 64))) as [x ->]; [|done].
    unfold len in *. div_lia.
Qed.

(** The complement of a full three-bit array has no bit set and is not empty:
    the unused bits of the word are set. *)
Lemma Not_not_empty :
  let c := Not (Some (mkBitArray 3 [7])) in
  IsEmpty c = false ∧ ∀ i, 0 ≤ i < 3 → GetIndex c i = Ok false.
Proof.
  split; [done|]. intros i Hi.
  assert (i = 0 ∨ i = 1 ∨ i = 2) as [->|[->| ->]] by lia; reflexivity.
Qed.

Lemma get_raw bA i : 0 ≤ i < Bits bA → get bA i = raw bA i.
Proof.
  intros H. unfold get.
  by destruct (Z.leb_spec 0 i), (Z.ltb_spec i (Bits bA)); try lia.
Qed.

Lemma get_out bA i : ¬ 0 ≤ i < Bits bA → get bA i = false.
Proof.
  intros H. unfold get.
  destruct (Z.leb_spec 0 i), (Z.ltb_spec i (Bits bA)); try lia; done.
Qed.

(** On well-formed arrays [Sub] does not panic; its result is well formed,
    has the size of the receiver, and has bit [i] exactly when the receiver has
    it and the argument has not, whatever the two sizes; and it has no stray bit
    when the receiver has none. *)
Theorem Sub_spec bA o :
  wf bA → wf o → clean o →
  ∃ c, Sub (Some bA) (Some o) = Ok (Some c) ∧ wf c ∧ Bits c = Bits bA ∧
    (∀ i, get c i = get bA i && negb (get o i)) ∧ (clean bA → clean c).
Proof.
  intros Hb Ho Hco. destruct (Sub_raw bA o Hb Ho) as (c & E & Hc & HB & Hr).
  exists c. split; [done|]. split; [done|]. split; [done|]. split.
  - intros i. destruct (decide (0 ≤ i < Bits bA)).
    + rewrite !(get_raw c), (get_raw bA), Hr, (clean_get o) by (rewrite ?HB; done || lia).
      done.
    + by rewrite (get_out c), (get_out bA) by (rewrite ?HB; done).
  - intros Hcb i Hi H. rewrite HB. apply Hcb; [done|].
    rewrite Hr in H by done. by bools.
Qed.

Lemma Sub_spec_witness :
  ∃ c, Sub (Some (mkBitArray 70 [5; 3])) (Some (mkBitArray 3 [4])) = Ok (Some c) ∧
    get c 2 = false ∧ get c 0 = true.
Proof.
  assert (wf (mkBitArray 70 [5; 3])) as H1.
  { constructor; [cbn; unfold_ints; lia|reflexivity|].
    repeat constructor; unfold_ints; lia. }
  assert (wf (mkBitArray 3 [4])) as H2.
  { constructor; [cbn; unfold_ints; lia|reflexivity|].
    repeat constructor; unfold_ints; lia. }
  assert (clean (mkBitArray 3 [4])) as H3.
  { intros i Hi. unfold raw, word. cbn [Elems Bits]. intros H.
    destruct (Z.to_nat (i / 64)) as [|k] eqn:Ek; cbn in H; [|by rewrite Z.bits_0 in H].
    destruct (decide (i < 3)); [done|]. exfalso.
    rewrite Z.mod_small in H by div_lia.
    rewrite Z.bits_above_log2 in H by (cbn; lia). done. }
  destruct (Sub_spec _ _ H1 H2 H3) as (c & E & _ & _ & Hg & _).
  exists c. split; [exact E|]. by rewrite !Hg.
Defined.

(** *** Construction and assignment *)

Lemma raw_zero n i : raw (mkBitArray n (replicate (Z.to_nat (numElems n)) 0)) i = false.
Proof.
  unfold raw, word. cbn. destruct (_ !! _) as [x|] eqn:E; [|apply Z.bits_0].
  apply lookup_replicate in E as [-> _]. apply Z.bits_0.
Qed.

Lemma reset_spec n :
  0 ≤ n ≤ MaxInt64 - 63 →
  ∃ bA, reset n = Ok bA ∧ wf bA ∧ clean bA ∧ Bits bA = n ∧ ∀ i, raw bA i = false.
Proof.
  intros Hn. unfold reset. destruct (Z.eqb_spec n 0) as [->|].
  { eexists. split; [done|]. split; [|split; [|split; [done|apply (raw_zero 0)]]].
    - constructor; [cbn; unfold_ints; lia|done|constructor].
    - intros i Hi H. by rewrite (raw_zero 0) in H. }
  pose proof (numElems_nonneg n Hn). rewrite make_slice_Ok by done. cbn.
  eexists. split; [done|].
  split; [|split; [|split; [done|intros; apply raw_zero]]].
  - constructor; cbn; [done|unfold len; rewrite length_replicate; lia|].
    apply Forall_replicate. unfold_ints; lia.
  - intros i Hi Hr. by rewrite raw_zero in Hr.
Qed.

Lemma raw_set_word bA k e i :
  wf bA → 0 ≤ k < numElems (Bits bA) → 0 ≤ i →
  raw (mkBitArray (Bits bA) (<[Z.to_nat k := e]> (Elems bA))) i =
    if decide (i / 64 = k) then Z.testbit e (i mod 64) else raw bA i.
Proof.
  intros Hb Hk Hi. pose proof (wf_len _ Hb). unfold raw, word, len in *. cbn.
  destruct (decide (i / 64 = k)) as [->|Hne].
  - by rewrite list_lookup_insert_eq by lia.
  - by rewrite list_lookup_insert_ne by div_lia.
Qed.

Lemma setIndex_word v e j n :
  0 ≤ j < 64 → 0 ≤ n < 64 →
  Z.testbit (if v : bool then Z.lor e (2 ^ j) else Z.land e (compl (2 ^ j))) n =
    if decide (n = j) then v else Z.testbit e n.
Proof.
  intros Hj Hn. destruct v.
  - rewrite Z.lor_spec, Z.pow2_bits_eqb by lia.
    destruct (decide (n = j)), (Z.eqb_spec j n); try lia;
      by rewrite ?orb_true_r, ?orb_false_r.
  - rewrite Z.land_spec, compl_testbit, Z.pow2_bits_eqb by lia.
    destruct (decide (n = j)), (Z.eqb_spec j n); try lia; cbn;
      by rewrite ?andb_true_r, ?andb_false_r.
Qed.

Lemma in_uint64_pow2 j : 0 ≤ j < 64 → in_uint64 (2 ^ j).
Proof.
  intros H. unfold_ints.
  pose proof (Z.pow_lt_mono_r 2 j 64). pose proof (Z.pow_pos_nonneg 2 j). lia.
Qed.

Lemma setIndex_raw bA i v :
  wf bA → 0 ≤ i < Bits bA →
  ∃ bA', setIndex bA i v = Ok (bA', true) ∧ wf bA' ∧ Bits bA' = Bits bA ∧
    ∀ j, 0 ≤ j → raw bA' j = if decide (j = i) then v else raw bA j.
Proof.
  intros Hb Hi. unfold setIndex.
  destruct (Z.ltb_spec i 0), (Z.geb_spec i (Bits bA)); try lia. cbn [orb].
  rewrite Z.quot_div_nonneg, Z.rem_mod_nonneg by lia.
  pose proof (word_index_lt _ i (wf_bits _ Hb) Hi) as Hk.
  pose proof (Z.mod_pos_bound i 64 ltac:(lia)) as Hm.
  pose proof (wf_len _ Hb) as Lb. unfold len in Lb.
  rewrite index_word, bit_at_pow by done. orun.
  rewrite set_index_Z_Ok by lia. orun.
  eexists. split; [done|]. split; [|split; [done|]].
  - constructor; cbn; [apply Hb|unfold len; by rewrite length_insert|].
    apply Forall_insert; [apply Hb|].
    pose proof (word_range bA (i / 64) Hb). destruct v.
    + apply in_uint64_lor; [done|by apply in_uint64_pow2].
    + by apply in_uint64_land.
  - intros j Hj. rewrite raw_set_word by done.
    destruct (decide (j / 64 = i / 64)) as [E|].
    + rewrite setIndex_word by (done || (apply Z.mod_pos_bound; lia)).
      unfold raw. rewrite E.
      destruct (decide (j mod 64 = i mod 64)), (decide (j = i)); try done; div_lia.
    + destruct (decide (j = i)) as [->|]; done.
Qed.

Lemma setIndex_spec bA i v :
  wf bA → clean bA →
  ∃ bA', setIndex bA i v = Ok (bA', (0 <=? i) && (i <? Bits bA)) ∧
    wf bA' ∧ clean bA' ∧ Bits bA' = Bits bA ∧
    ∀ j, get bA' j = if decide (j = i ∧ 0 ≤ i < Bits bA) then v else get bA j.
Proof.
  intros Hb Hc. destruct (decide (0 ≤ i < Bits bA)) as [Hi|Hi].
  - destruct (setIndex_raw bA i v Hb Hi) as (bA' & E & Hw & HB & Hr).
    assert (clean bA') as Hc'.
    { intros j Hj Ht. rewrite HB. rewrite Hr in Ht by done.
      destruct (decide (j = i)); [lia|by apply Hc]. }
    exists bA'. split; [|split; [done|split; [done|split; [done|]]]].
    + rewrite E. repeat f_equal. destruct (Z.leb_spec 0 i), (Z.ltb_spec i (Bits bA)); lia || done.
    + intros j. destruct (decide (0 ≤ j)).
      * rewrite <- !clean_get, Hr by done.
        destruct (decide (j = i)), (decide (j = i ∧ 0 ≤ i < Bits bA)); tauto || done.
      * rewrite !get_out by lia. destruct (decide _); [lia|done].
  - exists bA. unfold setIndex. split; [|split; [done|split; [done|split; [done|]]]].
    + destruct (Z.ltb_spec i 0), (Z.leb_spec 0 i), (Z.geb_spec i (Bits bA)),
        (Z.ltb_spec i (Bits bA)); try lia; done.
    + intros j. destruct (decide _); [lia|done].
Qed.

(** *** Emptiness and fullness *)

Lemma IsEmpty_spec bA :
  wf bA → clean bA → IsEmpty (Some bA) = true ↔ ∀ i, get bA i = false.
Proof.
  intros Hb Hc. cbn. rewrite negb_true_iff, <- not_true_iff_false, existsb_exists.
  pose proof (wf_words _ Hb) as Hw. rewrite Forall_forall in Hw. split.
  - intros H i. destruct (decide (0 ≤ i)); [|by apply get_out; lia].
    rewrite <- clean_get by done. unfold raw, word.
    destruct (Elems bA !! _) as [e|] eqn:E; cbn; [|apply Z.bits_0].
    apply list_elem_of_lookup_2 in E as Hin.
    destruct (Z.eq_dec e 0) as [->|]; [apply Z.bits_0|]. exfalso. apply H.
    exists e. split; [by apply list_elem_of_In|].
    specialize (Hw e Hin). unfold_ints. rewrite Z.gtb_ltb. apply Z.ltb_lt. lia.
  - intros Hall (e & Hin%list_elem_of_In & He). bools.
    apply list_elem_of_lookup in Hin as [k Hk].
    pose proof (Hw e (list_elem_of_lookup_2 _ _ _ Hk)) as He'.
    assert (Z.log2 e < 64) by (apply Z.log2_lt_pow2; unfold_ints; lia).
    pose proof (Z.log2_nonneg e).
    specialize (Hall (64 * Z.of_nat k + Z.log2 e)).
    rewrite <- clean_get in Hall by (done || lia). unfold raw, word in Hall.
    replace ((64 * Z.of_nat k + Z.log2 e) / 64) with (Z.of_nat k) in Hall by div_lia.
    replace ((64 * Z.of_nat k + Z.log2 e) mod 64) with (Z.log2 e) in Hall by div_lia.
    rewrite Nat2Z.id, Hk in Hall. cbn in Hall. by rewrite Z.bit_log2 in Hall by lia.
Qed.

(** The last word test: adding one to [e] clears the low [n] bits exactly when
    they are all set. *)
Lemma succ_mask_zero e n :
  in_uint64 e → 0 < n ≤ 64 →
  Z.land (uint64 (e + 1)) (uint64 (bit_at n - 1)) = 0 ↔ e mod 2 ^ n = 2 ^ n - 1.
Proof.
  intros He Hn.
  assert (uint64 (bit_at n - 1) = Z.ones n) as ->.
  { destruct (decide (n = 64)) as [->|]; [reflexivity|].
    rewrite bit_at_pow by lia. rewrite Z.ones_equiv, uwrap_id; [lia|].
    pose proof (Z.pow_lt_mono_r 2 n 64). pose proof (Z.pow_pos_nonneg 2 n). lia. }
  rewrite Z.land_ones by lia. unfold uwrap.
  assert ((e + 1) mod 2 ^ 64 mod 2 ^ n = (e + 1) mod 2 ^ n) as ->.
  { replace 64 with (n + (64 - n)) by lia.
    rewrite Z.pow_add_r, Z.rem_mul_r by lia.
    rewrite (Z.mul_comm (2 ^ n)), Z.mod_add, Z.mod_mod by lia. done. }
  pose proof (Z.pow_pos_nonneg 2 n ltac:(lia) ltac:(lia)) as Hp.
  pose proof (Z.mod_pos_bound e (2 ^ n) Hp) as Hb.
  rewrite <- (Zplus_mod_idemp_l e 1).
  destruct (decide (e mod 2 ^ n = 2 ^ n - 1)) as [->|].
  - replace (2 ^ n - 1 + 1) with (2 ^ n) by lia. rewrite Z_mod_same_full. tauto.
  - rewrite Z.mod_small by lia. lia.
Qed.

Lemma ones_testbit e n :
  0 ≤ n → e mod 2 ^ n = 2 ^ n - 1 ↔ ∀ j, 0 ≤ j < n → Z.testbit e j = true.
Proof.
  intros Hn. replace (2 ^ n - 1) with (Z.ones n) by (rewrite Z.ones_equiv; lia).
  rewrite <- Z.land_ones by lia. split.
  - intros E j Hj. apply (f_equal (λ z, Z.testbit z j)) in E.
    by rewrite Z.land_spec, Z.ones_spec_low, andb_true_r in E by lia.
  - intros H. apply Z.bits_inj'. intros j Hj. rewrite Z.land_spec.
    destruct (decide (j < n)).
    + rewrite H, Z.ones_spec_low by lia. done.
    + rewrite Z.ones_spec_high by lia. apply andb_false_r.
Qed.

Lemma compl_zero e :
  in_uint64 e → compl e = 0 ↔ ∀ j, 0 ≤ j < 64 → Z.testbit e j = true.
Proof.
  intros He. unfold compl. change MaxUint64 with (Z.ones 64).
  rewrite Z.lxor_eq_0_iff, <- ones_testbit by lia.
  rewrite Z.ones_equiv, Z.mod_small by (unfold_ints; lia). lia.
Qed.

Lemma words_full l :
  Forall in_uint64 l →
  existsb (λ e, negb (compl e =? 0)) l = false ↔
  ∀ k e j, l !! k = Some e → 0 ≤ j < 64 → Z.testbit e j = true.
Proof.
  intros Hl. rewrite <- not_true_iff_false, existsb_exists. split.
  - intros H k e j Hk. apply compl_zero; [by eapply Forall_lookup_1|].
    destruct (Z.eqb_spec (compl e) 0) as [|Hne]; [done|]. exfalso. apply H.
    exists e. split; [by eapply list_elem_of_In, list_elem_of_lookup_2|].
    by apply Z.eqb_neq in Hne as ->.
  - intros H (e & Hin%list_elem_of_In & He). bools.
    apply list_elem_of_lookup in Hin as [k Hk]. apply He, compl_zero; [|by eauto].
    by eapply Forall_lookup_1.
Qed.

(** On a well-formed array with at least one bit, [IsFull] does not panic
    and is true exactly when every bit below [Bits] is set; bits of the last
    word above [Bits] do not matter. *)
Theorem IsFull_spec bA :
  wf bA → 0 < Bits bA →
  ∃ b, IsFull (Some bA) = Ok b ∧
    (b = true ↔ ∀ i, 0 ≤ i < Bits bA → get bA i = true).
Proof.
  intros Hb Hpos. pose proof (wf_bits _ Hb) as HB. pose proof (wf_len _ Hb) as HL.
  pose proof (numElems_bounds _ HB) as Hnb.
  unfold IsFull. rewrite HL, index_word by (done || lia). cbn.
  unfold len in HL. set (n := numElems (Bits bA)) in *.
  rewrite int64_id, Z.rem_mod_nonneg by (unfold_ints; lia).
  replace ((Bits bA + 63) mod 64 + 1) with (Bits bA - 64 * (n - 1)) by div_lia.
  destruct (existsb _ _) eqn:Ex; eexists; (split; [done|]).
  - split; [done|]. intros H. exfalso. apply not_false_iff_true in Ex. apply Ex.
    apply words_full; [by apply Forall_take, Hb|].
    intros k e j Hk Hj. apply lookup_take_Some in Hk as [Hk Hlt].
    specialize (H (64 * Z.of_nat k + j)).
    rewrite get_raw in H by lia. unfold raw, word in H.
    replace ((64 * Z.of_nat k + j) / 64) with (Z.of_nat k) in H by div_lia.
    replace ((64 * Z.of_nat k + j) mod 64) with j in H by div_lia.
    rewrite Nat2Z.id, Hk in H. apply H. lia.
  - rewrite words_full in Ex by (by apply Forall_take, Hb).
    rewrite Z.eqb_eq, succ_mask_zero, ones_testbit by (lia || by apply word_range).
    split.
    + intros H i Hi. rewrite get_raw by done. unfold raw.
      destruct (decide (i / 64 = n - 1)) as [Hq|]; [rewrite Hq; apply H; div_lia|].
      apply (Ex (Z.to_nat (i / 64))); [|apply Z.mod_pos_bound; lia].
      rewrite lookup_take_lt by div_lia. apply lookup_word; [done|]. div_lia.
    + intros H j Hj. specialize (H (64 * (n - 1) + j)).
      rewrite get_raw in H by lia. unfold raw in H.
      replace ((64 * (n - 1) + j) / 64) with (n - 1) in H by div_lia.
      replace ((64 * (n - 1) + j) mod 64) with j in H by div_lia. apply H. lia.
Qed.

Lemma IsFull_spec_witness :
  ∃ b, IsFull (Some (mkBitArray 66 [MaxUint64; 7])) = Ok b ∧
    (b = true ↔ ∀ i, 0 ≤ i < 66 → get (mkBitArray 66 [MaxUint64; 7]) i = true).
Proof.
  apply (IsFull_spec (mkBitArray 66 [MaxUint64; 7])); [|done].
  constructor; [cbn; unfold_ints; lia|reflexivity|].
  repeat constructor; unfold_ints; lia.
Defined.

(** *** The indices of the set bits *)

Lemma true_bits_filter (p : Z → bool) e n j cur :
  0 ≤ j → j + Z.of_nat n ≤ 64 →
  (∀ k, 0 ≤ k < Z.of_nat n → Z.testbit e (j + k) = p (cur + k)) →
  true_bits n j cur e = filter (λ i, p i = true) (seqZ cur (Z.of_nat n)).
Proof.
  revert j cur. induction n as [|n IH]; intros j cur Hj Hn Hp; [done|].
  cbn [true_bits]. rewrite seqZ_cons by lia.
  replace (Z.pred (Z.of_nat (S n))) with (Z.of_nat n) by lia.
  rewrite bit_at_pow, land_pow2_testbit by lia.
  rewrite (IH (j + 1) (cur + 1)); [|lia..|].
  - specialize (Hp 0). rewrite !Z.add_0_r in Hp. rewrite Hp by lia.
    rewrite filter_cons. by destruct (p cur); destruct (decide _).
  - intros k Hk. replace (j + 1 + k) with (j + (k + 1)) by lia.
    rewrite Hp by lia. f_equal. lia.
Qed.

Lemma true_elems_filter (p : Z → bool) es cur :
  (∀ k e j, es !! k = Some e → 0 ≤ j < 64 →
    Z.testbit e j = p (cur + 64 * Z.of_nat k + j)) →
  true_elems es cur =
    (filter (λ i, p i = true) (seqZ cur (64 * len es)), cur + 64 * len es).
Proof.
  revert cur. induction es as [|e es IH]; intros cur Hp.
  { cbn. by rewrite Z.add_0_r. }
  cbn [true_elems]. rewrite (IH (cur + 64)).
  - unfold len. cbn [length].
    replace (64 * Z.of_nat (S (length es))) with (64 + 64 * Z.of_nat (length es)) by lia.
    rewrite seqZ_app, filter_app by lia. f_equal; [|lia]. f_equal.
    assert (true_bits 64 0 cur e = filter (λ i, p i = true) (seqZ cur 64)) as <-.
    { apply (true_bits_filter p e 64); [lia..|]. intros k Hk.
      rewrite (Hp 0%nat e) by (done || lia). f_equal. lia. }
    destruct (Z.eqb_spec e 0) as [->|]; reflexivity.
  - intros k e' j Hk Hj. rewrite (Hp (S k) e' j) by done. f_equal. lia.
Qed.

Lemma getTrueIndices_spec bA :
  wf bA → 0 < Bits bA →
  getTrueIndices bA = Ok (filter (λ i, get bA i = true) (seqZ 0 (Bits bA))).
Proof.
  intros Hb Hpos. pose proof (wf_bits _ Hb) as HB. pose proof (wf_len _ Hb) as HL.
  pose proof (numElems_bounds _ HB) as Hnb. unfold getTrueIndices.
  rewrite make_slice_Ok by lia. orun.
  assert (len (take (length (Elems bA) - 1) (Elems bA)) = numElems (Bits bA) - 1) as Hlt
    by (unfold len in *; rewrite length_take; lia).
  rewrite (true_elems_filter (get bA)).
  - rewrite Hlt, Z.add_0_l. rewrite HL, index_word by (done || lia). orun.
    f_equal. set (n := numElems (Bits bA)) in *.
    rewrite (true_bits_filter (get bA)).
    + rewrite Z2Nat.id by lia. rewrite <- filter_app.
      rewrite <- (Z.add_0_l (64 * (n - 1))) at 3. rewrite <- seqZ_app by lia.
      do 2 f_equal. lia.
    + lia.
    + lia.
    + intros k Hk. rewrite get_raw by lia. unfold raw.
      replace ((64 * (n - 1) + k) / 64) with (n - 1) by div_lia.
      replace ((64 * (n - 1) + k) mod 64) with k by div_lia. done.
  - intros k e j Hk Hj. apply lookup_take_Some in Hk as [Hk Hlt'].
    unfold len in *. rewrite get_raw by lia. unfold raw, word.
    replace ((0 + 64 * Z.of_nat k + j) / 64) with (Z.of_nat k) by div_lia.
    replace ((0 + 64 * Z.of_nat k + j) mod 64) with j by div_lia.
    by rewrite Nat2Z.id, Hk.
Qed.

(** Given a random source that returns an index below its bound,
    [PickRandom] on a well-formed array of at least one bit returns the index of
    a set bit when there is one, and [(0, false)] when there is none. *)
Theorem PickRandom_spec rnd bA :
  (∀ n, 0 < n → 0 ≤ rnd n < n) → wf bA → 0 < Bits bA →
  ∃ i ok, PickRandom rnd (Some bA) = Ok (i, ok) ∧
    (ok = true → 0 ≤ i < Bits bA ∧ get bA i = true) ∧
    (ok = false → i = 0 ∧ ∀ j, get bA j = false).
Proof.
  intros Hr Hb Hpos. unfold PickRandom. rewrite getTrueIndices_spec by done. orun.
  set (l := filter _ _). destruct (Z.eqb_spec (len l) 0) as [H0|H0].
  - exists 0, false. split; [done|]. split; [done|]. intros _. split; [done|].
    intros j. destruct (get bA j) eqn:E; [|done]. exfalso.
    assert (j ∈ l) as Hin.
    { apply list_elem_of_filter. split; [done|]. apply elem_of_seqZ.
      apply get_range in E. lia. }
    destruct l; [by apply not_elem_of_nil in Hin|]. unfold len in H0. cbn in H0. lia.
  - assert (0 < len l) as Hl by (unfold len in *; lia).
    specialize (Hr _ Hl).
    destruct (lookup_lt_is_Some_2 l (Z.to_nat (rnd (len l)))) as [x Hx];
      [unfold len in *; lia|].
    exists x, true. rewrite <- (Z2Nat.id (rnd (len l))) by lia.
    rewrite (index_Ok l _ x) by done. split; [done|]. split; [|done]. intros _.
    apply list_elem_of_lookup_2, list_elem_of_filter in Hx as [Hg Hs].
    apply elem_of_seqZ in Hs. split; [lia|done].
Qed.

Lemma PickRandom_spec_witness :
  ∃ i ok, PickRandom (λ n, n - 1) (Some (mkBitArray 70 [0; 32])) = Ok (i, ok) ∧
    (ok = true → 0 ≤ i < 70 ∧ get (mkBitArray 70 [0; 32]) i = true) ∧
    (ok = false → i = 0 ∧ ∀ j, get (mkBitArray 70 [0; 32]) j = false).
Proof.
  apply (PickRandom_spec (λ n, n - 1) (mkBitArray 70 [0; 32])); [lia| |done].
  constructor; [cbn; unfold_ints; lia|reflexivity|].
  repeat constructor; unfold_ints; lia.
Defined.

(** *** Encodings *)

Definition json_char (b : bool) : Ascii.ascii := if b then "x"%char else "_"%char.

Lemma json_bits_spec bA :
  wf bA → json_bits bA = Ok (map (λ i, json_char (get bA i)) (seqZ 0 (Bits bA))).
Proof.
  intros Hb. pose proof (wf_bits _ Hb) as HB. unfold json_bits.
  edestruct (for_range_post (E:=bits_error) (λ j acc,
    acc = map (λ i, json_char (get bA i)) (seqZ 0 (Z.of_nat j)))
    (λ acc, acc = map (λ i, json_char (get bA i)) (seqZ 0 (Bits bA))))
    as (acc & E & ->); [| | |exact E].
  - intros j acc Hj ->. rewrite getIndex_get by (done || lia). orun.
    eexists. split; [done|].
    replace (Z.of_nat (S j)) with (Z.of_nat j + 1) by lia.
    rewrite seqZ_app, map_app by lia. by rewrite Z.add_0_l.
  - done.
  - intros acc ->. do 2 f_equal. lia.
Qed.

Lemma json_match_quoted bits :
  Forall (λ a, a = "x"%char ∨ a = "_"%char) bits →
  json_match ([dquote] ++ bits ++ [dquote]) = Some bits.
Proof.
  intros H. cbn [json_match app]. destruct (decide (dquote = dquote)); [|done].
  rewrite length_app. cbn [length].
  replace (length bits + 1 - 1)%nat with (length bits) by lia.
  rewrite lookup_app_r, Nat.sub_diag by lia. cbn.
  rewrite take_app_length. by destruct (decide _) as [|Hn]; [|tauto].
Qed.

(** Decoding the JSON form of a well-formed array without stray bits gives
    that array back, words included. *)
Theorem JSON_roundtrip bA :
  wf bA → clean bA → (MarshalJSON (Some bA) ≫= UnmarshalJSON) = Ok bA.
Proof.
  intros Hb Hc. pose proof (wf_bits _ Hb) as HB.
  unfold MarshalJSON. rewrite json_bits_spec by done. orun.
  set (bits := map _ _).
  assert (length bits = Z.to_nat (Bits bA)) as Hlen
    by (unfold bits; by rewrite length_map, length_seqZ).
  assert (∀ i : nat, (i < length bits)%nat →
    bits !! i = Some (json_char (get bA (Z.of_nat i)))) as Hlk.
  { intros i Hi. unfold bits. rewrite list_lookup_fmap, lookup_seqZ_lt by lia.
    by rewrite Z.add_0_l. }
  unfold UnmarshalJSON. destruct (decide _) as [Hnull|_].
  { by apply (f_equal head) in Hnull. }
  rewrite json_match_quoted by (unfold bits; apply Forall_map, Forall_true;
    intros i; destruct (get bA i); auto).
  destruct (reset_spec (len bits)) as (z & -> & Hz & Hcz & HBz & Hrz);
    [unfold len; lia|]. orun.
  edestruct (for_range_post (E:=bits_error) (λ j b, wf b ∧ clean b ∧ Bits b = Bits bA ∧
     ∀ i, 0 ≤ i → get b i = if decide (i < Z.of_nat j) then get bA i else false)
     (λ b, b = bA)) as (b & E & ->); [| | |exact E].
  - intros j b Hj (Hw & Hcl & HBb & Hg). rewrite Hlk by lia.
    destruct (setIndex_spec b (Z.of_nat j) true Hw Hcl)
      as (b' & Eb & Hw' & Hcl' & HBb' & Hg').
    destruct (get bA (Z.of_nat j)) eqn:Ej; destruct (decide _) as [Hx|Hx]; try done.
    + rewrite Eb. orun. eexists. split; [done|].
      split; [done|]. split; [done|]. split; [congruence|]. intros i Hi.
      rewrite Hg', Hg by done.
      destruct (decide (i = Z.of_nat j ∧ _)) as [[-> _]|Hne].
      * by destruct (decide _); [|lia].
      * apply get_range in Ej.
        destruct (decide (i < _)), (decide (i < _)); try lia; done.
    + eexists. split; [done|]. do 3 (split; [done|]). intros i Hi. rewrite Hg by done.
      destruct (decide (i < Z.of_nat j)), (decide (i < Z.of_nat (S j))); try lia; try done.
      by replace i with (Z.of_nat j) by lia.
  - split; [done|]. split; [done|]. split; [unfold len in *; lia|].
    intros i Hi. destruct (decide _); [lia|]. by rewrite <- clean_get, Hrz.
  - intros b (Hw & Hcl & HBb & Hg). apply bits_ext; [done..|].
    intros i Hi. rewrite !clean_get, Hg by done.
    destruct (decide _); [done|]. symmetry. apply get_out. lia.
Qed.

Lemma JSON_roundtrip_witness :
  (MarshalJSON (Some (mkBitArray 5 [9])) ≫= UnmarshalJSON) = Ok (mkBitArray 5 [9]).
Proof.
  assert (wf (mkBitArray 5 [9])) as Hw.
  { constructor; [cbn; unfold_ints; lia|reflexivity|].
    repeat constructor; unfold_ints; lia. }
  apply (JSON_roundtrip _ Hw). intros i Hi. unfold raw, word. cbn [Elems Bits].
  intros H. destruct (Z.to_nat (i / 64)) as [|k] eqn:Ek; cbn in H;
    [|by rewrite Z.bits_0 in H].
  destruct (decide (i < 5)); [done|]. exfalso. rewrite Z.mod_small in H by div_lia.
  by rewrite Z.bits_above_log2 in H by (cbn; lia).
Defined.

Lemma Proto_roundtrip bA b0 :
  wf bA → 0 < Bits bA ≤ MaxInt32 → FromProto b0 (ToProto (Some bA)) = Ok bA.
Proof.
  intros Hb Hpos. unfold ToProto. rewrite copy_id.
  destruct (Z.eqb_spec (Bits bA) 0); [lia|]. rewrite andb_false_r.
  cbn [FromProto pb_Bits pb_Elems].
  destruct (Z.ltb_spec (Bits bA) 0); [lia|].
  destruct (Z.gtb_spec (Bits bA) MaxInt32); [lia|].
  rewrite (wf_len _ Hb), Z.eqb_refl. cbn [negb].
  rewrite go_copy_full by (by rewrite length_replicate). by destruct bA.
Qed.

Lemma FromProto_wf b0 pb bA :
  Forall in_uint64 (pb_Elems pb) → FromProto b0 (Some pb) = Ok bA → wf bA.
Proof.
  intros Hw. unfold FromProto. repeat split_if; try done. bools. intros [= <-].
  rewrite go_copy_full by (by rewrite length_replicate).
  constructor; cbn; [unfold_ints; lia|done|done].
Qed.

End bits.
