(* ===== verification/Merkle.v ===== *)
(** * crypto/merkle: Merkle trees and inclusion proofs

    Models [src/crypto/merkle/tree.go], [hash.go] and [proof.go].  The hash
    function [crypto.Checksum] (SHA-256) is a parameter [sha256] of every
    definition; the theorems use that its digests have a fixed length and, for
    soundness, that it has no collision among the finitely many strings hashed by
    the tree and by the proof in question.

    The proof nodes of [trailsFromByteSlices] are shared and mutated after
    creation (a subtree root gets its parent and sibling later), so they live in
    an explicit heap: a pointer is an index into the list of allocated nodes.

    [is_root] is the RFC 6962 definition of the tree hash as a relation; the
    recursive and the iterative code, the proofs and their verification are all
    related to it. *)
From Stdlib Require Import ZArith Lia Init.Byte.
From stdpp Require Import base numbers list sets.
From S2P Require Import Prelude.
From S2P Require Import SafeMath.

Module merkle.

Inductive merkle_error :=
  | ErrNegativeTotal
  | ErrNegativeIndex
  | ErrInvalidLeafHash
  | ErrInvalidRootHash
  | ErrInvalidIndexOrTotal (index total : Z)
  | ErrUnexpectedInnerHashes
  | ErrExpectedInnerHash
  | ErrLeafHashSize
  | ErrTooManyAunts
  | ErrAuntSize (i : nat).

Notation res := (outcome merkle_error).

Definition HashSize : Z := 32.
Definition MaxAunts : Z := 100.

Record Proof := mkProof {
  Total : Z; Index : Z; LeafHash : bytes; Aunts : list bytes }.

(** ** Splitting *)

(** [bits.Len]: the number of bits needed to represent [x]. *)
Definition bits_Len (x : Z) : Z := if (x =? 0)%Z then 0%Z else (Z.log2 x + 1)%Z.

Definition getSplitPoint (length : Z) : res Z :=
  if (length <? 1)%Z then Panic
  else
    let uLength := uint64 length in
    let bitlen := bits_Len uLength in
    let k := int64 (Z.shiftl 1 (uint64 (bitlen - 1))) in
    Ok (if (k =? length)%Z then Z.shiftr k 1 else k).

Section hashing.
Context (sha256 : bytes → bytes).

Definition emptyHash : bytes := sha256 [].
Definition leafHash (leaf : bytes) : bytes := sha256 ([x00] ++ leaf).
Definition innerHash (left right : bytes) : bytes := sha256 ([x01] ++ left ++ right).

(** The variants that reuse a [hash.Hash] write the same bytes to it. *)
Definition leafHashOpt (leaf : bytes) : bytes := sha256 ([x00] ++ leaf).
Definition innerHashOpt (left right : bytes) : bytes := sha256 ([x01] ++ left ++ right).

(** ** The recursive tree hash; [fuel] bounds the depth of the recursion *)

Fixpoint hashFromByteSlices (fuel : nat) (items : list bytes) : res bytes :=
  match fuel with
  | O => Panic
  | S fuel =>
      match items with
      | [] => Ok emptyHash
      | [item] => Ok (leafHashOpt item)
      | _ =>
          k ← getSplitPoint (Z.of_nat (length items));
          left ← hashFromByteSlices fuel (take (Z.to_nat k) items);
          right ← hashFromByteSlices fuel (drop (Z.to_nat k) items);
          Ok (innerHashOpt left right)
      end
  end.

Definition HashFromByteSlices (items : list bytes) : res bytes :=
  hashFromByteSlices (S (length items)) items.

(** ** The iterative tree hash, in place *)

(** [for rp < size { ... }]: reads at [rp], writes at [wp]. *)
Fixpoint iter_level (fuel : nat) (size : nat) (items : list bytes) (rp wp : nat) :
    res (list bytes * nat) :=
  match fuel with
  | O => Panic
  | S fuel =>
      if rp <? size then
        if rp + 1 <? size then
          a ← deref (items !! rp);
          b ← deref (items !! (rp + 1));
          items ← set_index items (Z.of_nat wp) (innerHashOpt a b);
          iter_level fuel size items (rp + 2) (wp + 1)
        else
          a ← deref (items !! rp);
          items ← set_index items (Z.of_nat wp) a;
          iter_level fuel size items (rp + 1) (wp + 1)
      else Ok (items, wp)
  end.

Fixpoint iter_loop (fuel : nat) (size : nat) (items : list bytes) : res bytes :=
  match fuel with
  | O => Panic
  | S fuel =>
      match size with
      | 0 => Ok emptyHash
      | 1 => deref (items !! 0)
      | _ =>
          '(items, size) ← iter_level (S size) size items 0 0;
          iter_loop fuel size items
      end
  end.

Definition HashFromByteSlicesIterative (input : list bytes) : res bytes :=
  let items := map leafHash input in
  iter_loop (S (length items)) (length items) items.

(** ** Verifying a proof *)

Fixpoint computeHashFromAunts (fuel : nat) (index total : Z) (leafHash : bytes)
    (innerHashes : list bytes) : res bytes :=
  match fuel with
  | O => Panic
  | S fuel =>
      if ((index >=? total) || (index <? 0) || (total <=? 0))%Z
      then Err (ErrInvalidIndexOrTotal index total)
      else if (total =? 1)%Z then
        if decide (innerHashes = []) then Ok leafHash else Err ErrUnexpectedInnerHashes
      else
        match last innerHashes with
        | None => Err ErrExpectedInnerHash
        | Some aunt =>
            let init := take (length innerHashes - 1) innerHashes in
            numLeft ← getSplitPoint total;
            if (index <? numLeft)%Z then
              leftHash ← computeHashFromAunts fuel index numLeft leafHash init;
              Ok (innerHash leftHash aunt)
            else
              rightHash ← computeHashFromAunts fuel (int64 (index - numLeft))
                            (int64 (total - numLeft)) leafHash init;
              Ok (innerHash aunt rightHash)
        end
  end.

Definition ComputeRootHash (sp : Proof) : res bytes :=
  computeHashFromAunts (S (length (Aunts sp))) (Index sp) (Total sp) (LeafHash sp) (Aunts sp).

Definition Verify (sp : Proof) (rootHash leaf : bytes) : res unit :=
  if (Total sp <? 0)%Z then Err ErrNegativeTotal
  else if (Index sp <? 0)%Z then Err ErrNegativeIndex
  else if negb (bool_decide (LeafHash sp = leafHash leaf)) then Err ErrInvalidLeafHash
  else
    computedHash ← ComputeRootHash sp;
    if negb (bool_decide (computedHash = rootHash)) then Err ErrInvalidRootHash
    else Ok tt.

Fixpoint check_aunts (i : nat) (aunts : list bytes) : res unit :=
  match aunts with
  | [] => Ok tt
  | a :: aunts =>
      if (Z.of_nat (length a) =? HashSize)%Z then check_aunts (S i) aunts
      else Err (ErrAuntSize i)
  end.

Definition ValidateBasic (sp : Proof) : res unit :=
  if (Total sp <? 0)%Z then Err ErrNegativeTotal
  else if (Index sp <? 0)%Z then Err ErrNegativeIndex
  else if negb (Z.of_nat (length (LeafHash sp)) =? HashSize)%Z then Err ErrLeafHashSize
  else if (Z.of_nat (length (Aunts sp)) >? MaxAunts)%Z then Err ErrTooManyAunts
  else check_aunts 0 (Aunts sp).

(** ** Building proofs *)

Notation ptr := nat (only parsing).

Record ProofNode := mkNode {
  Hash : bytes; Parent : option ptr; Left : option ptr; Right : option ptr }.

Notation heap := (list ProofNode) (only parsing).

Definition alloc (σ : heap) (n : ProofNode) : heap * ptr := (σ ++ [n], length σ).

(** [p.Parent = q; p.Left = l] and [p.Parent = q; p.Right = r]. *)
Definition set_left (σ : heap) (p q l : ptr) : res heap :=
  n ← deref (σ !! p); Ok (<[p := mkNode (Hash n) (Some q) (Some l) (Right n)]> σ).
Definition set_right (σ : heap) (p q r : ptr) : res heap :=
  n ← deref (σ !! p); Ok (<[p := mkNode (Hash n) (Some q) (Left n) (Some r)]> σ).

Fixpoint trailsFromByteSlices (fuel : nat) (items : list bytes) (σ : heap) :
    res (heap * list ptr * ptr) :=
  match fuel with
  | O => Panic
  | S fuel =>
      match items with
      | [] =>
          let '(σ, root) := alloc σ (mkNode emptyHash None None None) in
          Ok (σ, [], root)
      | [item] =>
          let '(σ, trail) := alloc σ (mkNode (leafHash item) None None None) in
          Ok (σ, [trail], trail)
      | _ =>
          k ← getSplitPoint (Z.of_nat (length items));
          '(σ, lefts, leftRoot) ← trailsFromByteSlices fuel (take (Z.to_nat k) items) σ;
          '(σ, rights, rightRoot) ← trailsFromByteSlices fuel (drop (Z.to_nat k) items) σ;
          ln ← deref (σ !! leftRoot);
          rn ← deref (σ !! rightRoot);
          let '(σ, root) := alloc σ (mkNode (innerHash (Hash ln) (Hash rn)) None None None) in
          σ ← set_right σ leftRoot root rightRoot;
          σ ← set_left σ rightRoot root leftRoot;
          Ok (σ, lefts ++ rights, root)
      end
  end.

(** The loop of [FlattenAunts] from the node [spn] to the root. *)
Fixpoint flatten (fuel : nat) (σ : heap) (spn : option ptr) (innerHashes : list bytes) :
    res (list bytes) :=
  match fuel with
  | O => Panic
  | S fuel =>
      match spn with
      | None => Ok innerHashes
      | Some p =>
          n ← deref (σ !! p);
          innerHashes ←
            match Left n, Right n with
            | Some l, _ => ln ← deref (σ !! l); Ok (innerHashes ++ [Hash ln])
            | None, Some r => rn ← deref (σ !! r); Ok (innerHashes ++ [Hash rn])
            | None, None => Ok innerHashes
            end;
          flatten fuel σ (Parent n) innerHashes
      end
  end.

Definition FlattenAunts (σ : heap) (p : ptr) : res (list bytes) :=
  flatten (S (S (length σ))) σ (Some p) [].

(** [for i, trail := range trails]. *)
Fixpoint make_proofs (σ : heap) (total : Z) (i : nat) (trails : list ptr) :
    res (list Proof) :=
  match trails with
  | [] => Ok []
  | trail :: trails =>
      n ← deref (σ !! trail);
      aunts ← FlattenAunts σ trail;
      proofs ← make_proofs σ total (S i) trails;
      Ok (mkProof total (Z.of_nat i) (Hash n) aunts :: proofs)
  end.

Definition ProofsFromByteSlices (items : list bytes) : res (bytes * list Proof) :=
  '(σ, trails, rootSPN) ← trailsFromByteSlices (S (length items)) items [];
  root ← deref (σ !! rootSPN);
  proofs ← make_proofs σ (Z.of_nat (length items)) 0 trails;
  Ok (Hash root, proofs).

(** ** RFC 6962 *)

(** [is_root items h]: [h] is the Merkle tree hash of [items]. *)
Inductive is_root : list bytes → bytes → Prop :=
  | root_nil : is_root [] emptyHash
  | root_one x : is_root [x] (leafHash x)
  | root_node j xs ys hl hr :
      length xs = 2 ^ j → 1 ≤ length ys ≤ 2 ^ j →
      is_root xs hl → is_root ys hr → is_root (xs ++ ys) (innerHash hl hr).

Lemma getSplitPoint_spec (n : nat) :
  2 ≤ n → (Z.of_nat n ≤ MaxInt64)%Z →
  ∃ j, getSplitPoint (Z.of_nat n) = Ok (Z.of_nat (2 ^ j)) ∧ 2 ^ j < n ≤ 2 * 2 ^ j.
Proof.
  intros Hn Hmax. unfold getSplitPoint. destruct (Z.ltb_spec (Z.of_nat n) 1); [lia|].
  rewrite (uwrap_id 64 (Z.of_nat n)) by (unfold_ints; lia). unfold bits_Len.
  destruct (Z.eqb_spec (Z.of_nat n) 0); [lia|].
  pose proof (Z.log2_spec (Z.of_nat n) ltac:(lia)) as [Hlo Hhi].
  pose proof (Z.log2_nonneg (Z.of_nat n)) as Hnn.
  assert (Z.log2 (Z.of_nat n) < 63)%Z as Hlt
    by (apply Z.log2_lt_pow2; unfold_ints; lia).
  set (l := Z.log2 (Z.of_nat n)) in *.
  replace (l + 1 - 1)%Z with l by lia. rewrite uwrap_id, Z.shiftl_1_l by lia.
  rewrite swrap_id; [|lia|].
  2:{ pose proof (Z.pow_pos_nonneg 2 l). pose proof (Z.pow_lt_mono_r 2 l 63). lia. }
  assert (∀ j : nat, Z.of_nat (2 ^ j) = (2 ^ Z.of_nat j)%Z) as Hpow
    by (intros; apply (Nat2Z.inj_pow 2)).
  destruct (Z.eqb_spec (2 ^ l) (Z.of_nat n)) as [E|E].
  - assert (1 ≤ l)%Z as Hl1 by (destruct (decide (l = 0%Z)) as [E0|]; [|lia];
      rewrite E0 in E; cbn in E; lia).
    exists (Z.to_nat (l - 1)). rewrite Hpow, Z2Nat.id by lia. split.
    + f_equal. rewrite Z.shiftr_div_pow2, <- Z.pow_sub_r by lia. done.
    + assert (Z.of_nat (2 ^ Z.to_nat (l - 1)) = 2 ^ (l - 1))%Z as Hp
        by (rewrite Hpow, Z2Nat.id by lia; done).
      assert (2 ^ l = 2 * 2 ^ (l - 1))%Z
        by (rewrite <- Z.pow_succ_r by lia; f_equal; lia).
      pose proof (Z.pow_pos_nonneg 2 (l - 1)). lia.
  - exists (Z.to_nat l). rewrite Hpow, Z2Nat.id by lia. split; [done|].
    assert (Z.of_nat (2 ^ Z.to_nat l) = 2 ^ l)%Z as Hp
      by (rewrite Hpow, Z2Nat.id by lia; done).
    rewrite Z.pow_succ_r in Hhi by lia. lia.
Qed.

(** The split of a node is determined by the number of items. *)
Lemma pow2_split_unique n i j :
  2 ^ i < n ≤ 2 * 2 ^ i → 2 ^ j < n ≤ 2 * 2 ^ j → i = j.
Proof.
  intros Hi Hj. destruct (lt_eq_lt_dec i j) as [[H|H]|H]; [|done|]; exfalso.
  - pose proof (Nat.pow_le_mono_r 2 (S i) j ltac:(lia) H) as Hp. cbn in Hp. lia.
  - pose proof (Nat.pow_le_mono_r 2 (S j) i ltac:(lia) H) as Hp. cbn in Hp. lia.
Qed.

Lemma node_split {A} (xs ys : list A) j :
  length xs = 2 ^ j → 1 ≤ length ys ≤ 2 ^ j →
  (Z.of_nat (length (xs ++ ys)) ≤ MaxInt64)%Z →
  getSplitPoint (Z.of_nat (length (xs ++ ys))) = Ok (Z.of_nat (length xs)).
Proof.
  intros Hx Hy Hm. rewrite length_app in *.
  pose proof (Nat.pow_nonzero 2 j). 
  destruct (getSplitPoint_spec (length xs + length ys)) as (i & -> & Hi); [lia|done|].
  rewrite Hx. by rewrite (pow2_split_unique (2 ^ j + length ys) i j) by lia.
Qed.

(** Case analysis on a list of items as the code does it. *)
Lemma items_cases (items : list bytes) :
  (Z.of_nat (length items) ≤ MaxInt64)%Z →
  items = [] ∨ (∃ x, items = [x]) ∨
  ∃ j xs ys, items = xs ++ ys ∧ length xs = 2 ^ j ∧ 1 ≤ length ys ≤ 2 ^ j.
Proof.
  intros Hm. destruct items as [|x [|y items]]; [by left|by right; left; eauto|].
  right; right. set (l := x :: y :: items) in *.
  destruct (getSplitPoint_spec (length l)) as (j & _ & Hj); [cbn; lia|done|].
  exists j, (take (2 ^ j) l), (drop (2 ^ j) l).
  rewrite take_drop, length_take, length_drop. split; [done|]. lia.
Qed.

Lemma is_root_len h items :
  (∀ b, length (sha256 b) = 32) → is_root items h → length h = 32.
Proof. intros Hs H. destruct H; apply Hs. Qed.

Lemma is_root_nil_inv h : is_root [] h → h = emptyHash.
Proof.
  intros H. inversion H as [| |j xs ys hl hr Hx Hy Hl Hr E]; subst; [done|].
  apply app_eq_nil in E as [-> ->]. cbn in Hy. lia.
Qed.

Lemma is_root_one_inv x h : is_root [x] h → h = leafHash x.
Proof.
  intros H. inversion H as [| |j xs ys hl hr Hx Hy Hl Hr E]; subst; [done|].
  pose proof (Nat.pow_nonzero 2 j).
  destruct xs as [|? [|]]; cbn in *; [lia| |by destruct ys].
  injection E as _ ->. cbn in Hy. lia.
Qed.

Lemma is_root_node_inv j xs ys h :
  length xs = 2 ^ j → 1 ≤ length ys ≤ 2 ^ j → is_root (xs ++ ys) h →
  ∃ hl hr, is_root xs hl ∧ is_root ys hr ∧ h = innerHash hl hr.
Proof.
  intros Hx Hy H. pose proof (Nat.pow_nonzero 2 j) as Hp.
  inversion H as [E|x E|i xs' ys' hl hr Hx' Hy' Hl Hr E]; subst.
  - destruct xs; cbn in *; [lia|done].
  - destruct xs as [|? [|]]; cbn in *; [lia| |done]. injection E as _ E.
    destruct ys; cbn in *; [lia|done].
  - assert (length (xs' ++ ys') = length (xs ++ ys)) as Hlen by congruence.
    rewrite !length_app in Hlen. pose proof (Nat.pow_nonzero 2 i).
    assert (i = j) as -> by (apply (pow2_split_unique (length xs + length ys)); lia).
    apply app_inj_1 in E as [-> ->]; [|lia]. eauto.
Qed.

Lemma is_root_det items h h' : is_root items h → is_root items h' → h = h'.
Proof.
  intros H. revert h'. induction H as [|x|j xs ys hl hr Hx Hy _ IHl _ IHr]; intros h' H'.
  - by apply is_root_nil_inv in H'.
  - by apply is_root_one_inv in H'.
  - destruct (is_root_node_inv _ _ _ _ Hx Hy H') as (hl' & hr' & Hl & Hr & ->).
    by rewrite (IHl _ Hl), (IHr _ Hr).
Qed.

(** Unfolding of the recursive code at a node. *)
Lemma hashFromByteSlices_node fuel j xs ys :
  length xs = 2 ^ j → 1 ≤ length ys ≤ 2 ^ j →
  (Z.of_nat (length (xs ++ ys)) ≤ MaxInt64)%Z →
  hashFromByteSlices (S fuel) (xs ++ ys) =
    (left ← hashFromByteSlices fuel xs;
     right ← hashFromByteSlices fuel ys; Ok (innerHash left right)).
Proof.
  intros Hx Hy Hm. pose proof (Nat.pow_nonzero 2 j) as Hp.
  pose proof (node_split xs ys j Hx Hy Hm) as Hs. cbn [hashFromByteSlices].
  rewrite Hs. destruct xs as [|x xs]; cbn in Hx; [lia|].
  destruct ys as [|y ys]; cbn in Hy; [lia|].
  destruct (xs ++ y :: ys) as [|z l] eqn:E; [by destruct xs|].
  cbn [app]. rewrite E. rewrite <- E. cbn [mbind outcome_bind].
  rewrite Nat2Z.id. change (x :: xs ++ y :: ys) with ((x :: xs) ++ y :: ys).
  by rewrite take_app_length, drop_app_length.
Qed.

Lemma hashFromByteSlices_root fuel items :
  length items < fuel → (Z.of_nat (length items) ≤ MaxInt64)%Z →
  ∃ h, hashFromByteSlices fuel items = Ok h ∧ is_root items h.
Proof.
  revert items. induction fuel as [|fuel IH]; [lia|]. intros items Hf Hm.
  destruct (items_cases items Hm) as [->|[[x ->]|(j & xs & ys & -> & Hx & Hy)]].
  - eexists. split; [done|constructor].
  - eexists. split; [done|constructor].
  - rewrite (hashFromByteSlices_node fuel j) by done.
    rewrite length_app in *. pose proof (Nat.pow_nonzero 2 j).
    destruct (IH xs) as (hl & -> & Hl); [lia..|].
    destruct (IH ys) as (hr & -> & Hr); [lia..|].
    eexists. split; [done|]. by eapply root_node.
Qed.

Lemma HashFromByteSlices_root items h :
  (Z.of_nat (length items) ≤ MaxInt64)%Z →
  HashFromByteSlices items = Ok h ↔ is_root items h.
Proof.
  intros Hm. destruct (hashFromByteSlices_root (S (length items)) items)
    as (h' & E & Hr); [lia|done|].
  unfold HashFromByteSlices. rewrite E. split.
  - by intros [= ->].
  - intros H. by rewrite (is_root_det _ _ _ Hr H).
Qed.

(** ** The iterative hash *)

(** One level of the iterative hash as a function on lists. *)
Fixpoint pairs (l : list bytes) : list bytes :=
  match l with
  | a :: b :: l' => innerHash a b :: pairs l'
  | _ => l
  end.

(** Two-step induction along the recursion of [pairs]. *)
Lemma pairs_ind (P : list bytes → Prop) :
  P [] → (∀ a, P [a]) → (∀ a b l, P l → P (a :: b :: l)) → ∀ l, P l.
Proof.
  intros H0 H1 H2 l. assert (P l ∧ ∀ a, P (a :: l)) as [? _]; [|done].
  induction l as [|b l [IH IH']]; split; auto.
Qed.

Lemma length_pairs l : length (pairs l) = (length l + 1) / 2.
Proof.
  induction l as [| |a b l IH] using pairs_ind; [done..|].
  cbn [pairs length]. rewrite IH.
  replace (S (S (length l)) + 1) with (1 * 2 + (length l + 1)) by lia.
  rewrite Nat.div_add_l; lia.
Qed.

Lemma pairs_app xs ys : Nat.Even (length xs) → pairs (xs ++ ys) = pairs xs ++ pairs ys.
Proof.
  induction xs as [|a|a b xs IH] using pairs_ind; intros H; [done| |].
  - cbn in H. by apply Nat.even_spec in H.
  - cbn. rewrite IH; [done|]. apply Nat.even_spec in H. by apply Nat.even_spec.
Qed.

Lemma iter_level_spec fuel size items rp wp :
  size - rp < fuel → wp ≤ rp → size ≤ length items →
  let todo := drop rp (take size items) in
  ∃ items', iter_level fuel size items rp wp = Ok (items', wp + length (pairs todo)) ∧
    length items' = length items ∧
    take (wp + length (pairs todo)) items' = take wp items ++ pairs todo.
Proof.
  revert items rp wp. induction fuel as [|fuel IH]; [lia|].
  intros items rp wp Hf Hw Hs todo. cbn [iter_level].
  destruct (Nat.ltb_spec rp size) as [Hr|Hr].
  2:{ assert (todo = []) as -> by (apply drop_ge; rewrite length_take; lia).
      cbn. exists items. by rewrite Nat.add_0_r, app_nil_r. }
  destruct (lookup_lt_is_Some_2 items rp) as [a Ha]; [lia|]. rewrite Ha. orun.
  assert (todo = a :: drop (S rp) (take size items)) as Et.
  { apply drop_S. by rewrite lookup_take_lt. }
  destruct (Nat.ltb_spec (rp + 1) size) as [Hr1|Hr1].
  - destruct (lookup_lt_is_Some_2 items (rp + 1)) as [b Hb]; [lia|]. rewrite Hb. orun.
    cbn [deref]. orun. rewrite set_index_Ok by lia. orun.
    set (h := innerHashOpt a b).
    destruct (IH (<[wp:=h]> items) (rp + 2) (wp + 1)) as (items' & E & Hl & Ht);
      [lia|lia|by rewrite length_insert|].
    assert (drop (rp + 2) (take size (<[wp:=h]> items)) = drop (S (S rp)) (take size items))
      as Hd by (rewrite take_insert_lt, drop_insert_lt by lia; f_equal; lia).
    rewrite Hd in E, Ht.
    assert (todo = a :: b :: drop (S (S rp)) (take size items)) as ->.
    { rewrite Et. f_equal. apply drop_S. rewrite lookup_take_lt by lia.
      by replace (S rp) with (rp + 1) by lia. }
    cbn [pairs length].
    replace (wp + S (length (pairs (drop (S (S rp)) (take size items)))))
      with (wp + 1 + length (pairs (drop (S (S rp)) (take size items)))) by lia.
    exists items'. split; [done|]. split; [by rewrite Hl, length_insert|].
    rewrite Ht, Nat.add_1_r, (take_S_r _ _ h) by (rewrite list_lookup_insert_eq; lia || done).
    rewrite take_insert_ge by lia. by rewrite <- app_assoc.
  - cbn [deref]. orun. rewrite set_index_Ok by lia. orun.
    destruct (IH (<[wp:=a]> items) (rp + 1) (wp + 1)) as (items' & E & Hl & Ht);
      [lia|lia|by rewrite length_insert|].
    rewrite drop_ge in E, Ht by (rewrite length_take, ?length_insert; lia).
    cbn [pairs length] in E, Ht. rewrite Nat.add_0_r in E, Ht.
    rewrite drop_ge in Et by (rewrite length_take; lia). rewrite Et. cbn [pairs length].
    exists items'. split; [done|]. split; [by rewrite Hl, length_insert|].
    rewrite Ht, Nat.add_1_r, (take_S_r _ _ a) by (rewrite list_lookup_insert_eq; lia || done).
    by rewrite take_insert_ge, app_nil_r by lia.
Qed.

(** The tree hash over a list of hashes: like [is_root], with the leaves hashed
    already. *)
Inductive is_rootH : list bytes → bytes → Prop :=
  | rootH_one h : is_rootH [h] h
  | rootH_node j xs ys hl hr :
      length xs = 2 ^ j → 1 ≤ length ys ≤ 2 ^ j →
      is_rootH xs hl → is_rootH ys hr → is_rootH (xs ++ ys) (innerHash hl hr).

Lemma is_root_leaves items h :
  is_root items h → items ≠ [] → is_rootH (map leafHash items) h.
Proof.
  induction 1 as [|x|j xs ys hl hr Hx Hy _ IHl _ IHr]; intros Hne; [done|constructor|].
  rewrite map_app. pose proof (Nat.pow_nonzero 2 j).
  eapply rootH_node; rewrite ?length_map; [done|done|apply IHl|apply IHr].
  - intros ->. cbn in Hx. lia.
  - intros ->. cbn in Hy. lia.
Qed.

(** Pairing up neighbours does not change the root. *)
Lemma is_rootH_pairs hs h : is_rootH hs h → is_rootH (pairs hs) h.
Proof.
  induction 1 as [h|j xs ys hl hr Hx Hy Hl IHl Hr IHr]; [constructor|].
  destruct j as [|j].
  - destruct xs as [|x [|]]; cbn in Hx; try lia.
    destruct ys as [|y [|]]; cbn in Hy; try lia. cbn.
    inversion Hl as [|j' xs' ys' ? ? Hx' Hy' _ _ E]; subst.
    2:{ apply (f_equal length) in E. rewrite length_app in E. cbn in E.
        pose proof (Nat.pow_nonzero 2 j'). lia. }
    inversion Hr as [|j' xs' ys' ? ? Hx' Hy' _ _ E]; subst; [constructor|].
    apply (f_equal length) in E. rewrite length_app in E. cbn in E.
    pose proof (Nat.pow_nonzero 2 j'). lia.
  - rewrite pairs_app by (exists (2 ^ j); rewrite Hx; cbn; lia).
    eapply (rootH_node j); [| |done|done]; rewrite length_pairs.
    + rewrite Hx. replace (2 ^ S j + 1) with (2 ^ j * 2 + 1) by (cbn; lia).
      rewrite Nat.div_add_l by lia. cbn. lia.
    + assert (2 ^ S j = 2 * 2 ^ j) as Hp by (cbn; lia). rewrite Hp in Hy.
      pose proof (Nat.div_mod (length ys + 1) 2 ltac:(lia)).
      pose proof (Nat.mod_upper_bound (length ys + 1) 2 ltac:(lia)). lia.
Qed.

Lemma iter_loop_spec fuel size items h :
  size < fuel → size ≤ length items → is_rootH (take size items) h →
  iter_loop fuel size items = Ok h.
Proof.
  revert size items. induction fuel as [|fuel IH]; [lia|].
  intros size items Hf Hs Hr. cbn [iter_loop]. destruct size as [|[|size]].
  - cbn in Hr. inversion Hr as [|j xs ys ? ? ? Hy _ _ E]; subst.
    apply app_eq_nil in E as [_ ->]. cbn in Hy. lia.
  - destruct items as [|x items]; [cbn in Hs; lia|]. cbn in *. rewrite take_0 in Hr.
    inversion Hr as [|j xs ys ? ? Hx Hy _ _ E]; subst; [done|].
    apply (f_equal length) in E. rewrite length_app in E. cbn in E.
    pose proof (Nat.pow_nonzero 2 j). lia.
  - set (n := S (S size)) in *.
    destruct (iter_level_spec (S n) n items 0 0) as (items' & -> & Hl & Ht); [lia..|].
    rewrite drop_0 in *. rewrite Nat.add_0_l, take_0, app_nil_l in *. orun.
    pose proof (length_pairs (take n items)) as Hlp.
    rewrite length_take, Nat.min_l in Hlp by done.
    assert ((n + 1) / 2 < n).
    { pose proof (Nat.div_mod (n + 1) 2 ltac:(lia)). unfold n in *. lia. }
    apply IH; [lia|lia|]. rewrite Ht. by apply is_rootH_pairs.
Qed.

(** ** Verification returns *)

Lemma compute_no_panic fuel i n lh A :
  length A < fuel → computeHashFromAunts fuel i n lh A ≠ Panic.
Proof.
  revert i n A. induction fuel as [|fuel IH]; intros i n A Hf; [lia|].
  cbn [computeHashFromAunts]. repeat split_if; try done. bools.
  destruct (last A) as [a|] eqn:Ea; [|done].
  assert (length (take (length A - 1) A) < fuel) as Hlt.
  { destruct A; [done|]. rewrite length_take. cbn in *. lia. }
  unfold getSplitPoint. destruct (Z.ltb_spec n 1); [lia|]. orun.
  split_if; intros H'; apply bind_Panic in H' as [H'|(? & _ & H')]; try done;
    by eapply IH in H'.
Qed.

Lemma Verify_no_panic sp root leaf : Verify sp root leaf ≠ Panic.
Proof.
  unfold Verify. repeat split_if; try done. intros H.
  apply bind_Panic in H as [H|(h & _ & H)].
  - unfold ComputeRootHash in H. apply compute_no_panic in H; [done|lia].
  - revert H. by split_if.
Qed.

(** ** Completeness of proofs *)

(** [trail items i A]: [A] are the sibling hashes on the way from item [i] to
    the root, the sibling of the item first. *)
Inductive trail : list bytes → nat → list bytes → Prop :=
  | trail_one x : trail [x] 0 []
  | trail_left j xs ys i A hr :
      length xs = 2 ^ j → 1 ≤ length ys ≤ 2 ^ j →
      is_root ys hr → trail xs i A → trail (xs ++ ys) i (A ++ [hr])
  | trail_right j xs ys i A hl :
      length xs = 2 ^ j → 1 ≤ length ys ≤ 2 ^ j →
      is_root xs hl → trail ys i A → trail (xs ++ ys) (length xs + i) (A ++ [hl]).

Lemma trail_lt items i A : trail items i A → i < length items.
Proof. induction 1; rewrite ?length_app; cbn; lia. Qed.

(** One step of the verification at an inner node. *)
Lemma compute_node {E} (xs ys : list E) j fuel (i : nat) lh A a :
  length xs = 2 ^ j → 1 ≤ length ys ≤ 2 ^ j →
  (Z.of_nat (length (xs ++ ys)) ≤ MaxInt64)%Z → i < length (xs ++ ys) →
  computeHashFromAunts (S fuel) (Z.of_nat i) (Z.of_nat (length (xs ++ ys))) lh (A ++ [a]) =
    if decide (i < length xs)
    then h ← computeHashFromAunts fuel (Z.of_nat i) (Z.of_nat (length xs)) lh A;
         Ok (innerHash h a)
    else h ← computeHashFromAunts fuel (Z.of_nat (i - length xs))
               (Z.of_nat (length ys)) lh A;
         Ok (innerHash a h).
Proof.
  intros Hx Hy Hm Hi. pose proof (node_split xs ys j Hx Hy Hm) as Hs.
  pose proof (Nat.pow_nonzero 2 j).
  cbn [computeHashFromAunts]. rewrite Hs, last_snoc, (length_app A [a]).
  change (length [a]) with 1.
  replace (length A + 1 - 1) with (length A) by lia. rewrite take_app_length.
  rewrite length_app in *.
  destruct (Z.geb_spec (Z.of_nat i) (Z.of_nat (length xs + length ys))); [lia|].
  destruct (Z.ltb_spec (Z.of_nat i) 0); [lia|].
  destruct (Z.leb_spec (Z.of_nat (length xs + length ys)) 0); [lia|].
  destruct (Z.eqb_spec (Z.of_nat (length xs + length ys)) 1); [lia|].
  cbn [orb]. orun. destruct (Z.ltb_spec (Z.of_nat i) (Z.of_nat (length xs)));
    destruct (decide (i < length xs)); try lia; [done|].
  rewrite !int64_id by (unfold_ints; lia).
  by replace (Z.of_nat i - Z.of_nat (length xs))%Z with (Z.of_nat (i - length xs)) by lia;
    replace (Z.of_nat (length xs + length ys) - Z.of_nat (length xs))%Z
      with (Z.of_nat (length ys)) by lia.
Qed.

Lemma trail_compute items i A r x fuel :
  trail items i A → is_root items r → items !! i = Some x →
  (Z.of_nat (length items) ≤ MaxInt64)%Z → length A < fuel →
  computeHashFromAunts fuel (Z.of_nat i) (Z.of_nat (length items)) (leafHash x) A = Ok r.
Proof.
  intros Ht. revert r x fuel.
  induction Ht as [y|j xs ys i A hr Hx Hy Hr Ht IH|j xs ys i A hl Hx Hy Hl Ht IH];
    intros r x fuel Hroot Hi Hm Hf; (destruct fuel as [|fuel]; [lia|]).
  - injection Hi as ->. apply is_root_one_inv in Hroot as ->. done.
  - destruct (is_root_node_inv _ _ _ _ Hx Hy Hroot) as (hl & hr' & Hl & Hr' & ->).
    rewrite (is_root_det _ _ _ Hr' Hr). pose proof (trail_lt _ _ _ Ht) as Hlt.
    rewrite length_app in Hf, Hm. cbn in Hf.
    rewrite (compute_node xs ys j) by (rewrite ?length_app; done || lia).
    destruct (decide _); [|lia].
    rewrite (IH hl x) by (done || lia || by rewrite lookup_app_l in Hi). done.
  - destruct (is_root_node_inv _ _ _ _ Hx Hy Hroot) as (hl' & hr & Hl' & Hr & ->).
    rewrite (is_root_det _ _ _ Hl' Hl). pose proof (trail_lt _ _ _ Ht) as Hlt.
    rewrite length_app in Hf, Hm. cbn in Hf.
    rewrite (compute_node xs ys j) by (rewrite ?length_app; done || lia).
    destruct (decide _); [lia|]. rewrite lookup_app_r in Hi by lia.
    replace (length xs + i - length xs) with i in * by lia.
    rewrite (IH hr x) by (done || lia). done.
Qed.

(** *** The heap of proof nodes *)

(** [path b σ r p A]: walking up from [p] to [r], which is not passed on the
    way, meets the sibling hashes [A]; all nodes before [r] and all siblings were
    allocated at [b] or later. *)
Inductive path (b : nat) (σ : heap) (r : ptr) : ptr → list bytes → Prop :=
  | path_refl : path b σ r r []
  | path_left p n l ln q A :
      p ≠ r → b ≤ p → b ≤ l → σ !! p = Some n → Left n = Some l → σ !! l = Some ln →
      Parent n = Some q → path b σ r q A → path b σ r p (Hash ln :: A)
  | path_right p n s sn q A :
      p ≠ r → b ≤ p → b ≤ s → σ !! p = Some n → Left n = None → Right n = Some s →
      σ !! s = Some sn →
      Parent n = Some q → path b σ r q A → path b σ r p (Hash sn :: A).

(** From [b] on, [σ'] keeps every node of [σ] except that [r] may get a parent
    and siblings. *)
Definition extends (b : nat) (r : ptr) (σ σ' : heap) : Prop :=
  ∀ p n, b ≤ p → σ !! p = Some n →
    ∃ n', σ' !! p = Some n' ∧ Hash n' = Hash n ∧ (p ≠ r → n' = n).

Lemma path_extends b b' r σ σ' p A :
  extends b r σ σ' → b' ≤ b → path b σ r p A → path b' σ' r p A.
Proof.
  intros He Hb. induction 1 as [|p n l ln q A Hne Hbp Hbl Hn Hl Hln Hq _ IH
    |p n s sn q A Hne Hbp Hbs Hn Hl Hs Hsn Hq _ IH]; [constructor| |].
  - destruct (He _ _ Hbp Hn) as (n' & Hn' & _ & E). specialize (E Hne) as ->.
    destruct (He _ _ Hbl Hln) as (ln' & Hln' & <- & _).
    apply (path_left _ _ _ p n l ln' q); auto; lia.
  - destruct (He _ _ Hbp Hn) as (n' & Hn' & _ & E). specialize (E Hne) as ->.
    destruct (He _ _ Hbs Hsn) as (sn' & Hsn' & <- & _).
    apply (path_right _ _ _ p n s sn' q); auto; lia.
Qed.

Lemma path_from_root b σ p n A q :
  σ !! p = Some n → Parent n = None → path b σ q p A → p = q.
Proof. intros Hn Hp H. destruct H; [done|congruence..]. Qed.

Lemma path_trans b σ p A q B r n :
  σ !! r = Some n → Parent n = None → q ≠ r →
  path b σ q p A → path b σ r q B → path b σ r p (A ++ B).
Proof.
  intros Hn Hp Hqr H Hq.
  induction H as [|p m l ln p' A Hne Hbp Hbl Hm Hl Hln Hpar H IH
    |p m s sn p' A Hne Hbp Hbs Hm Hl Hs Hsn Hpar H IH]; [done| |]; cbn.
  - apply (path_left _ _ _ p m l ln p'); auto. congruence.
  - apply (path_right _ _ _ p m s sn p'); auto. congruence.
Qed.

Lemma path_flatten b σ p A r rn acc fuel :
  path b σ r p A → σ !! r = Some rn → Parent rn = None → Left rn = None →
  Right rn = None → length A + 1 < fuel → flatten fuel σ (Some p) acc = Ok (acc ++ A).
Proof.
  intros H Hr Hp Hl Hri. revert acc fuel.
  induction H as [|p n l ln q A Hne _ _ Hn Hnl Hln Hq _ IH
    |p n s sn q A Hne _ _ Hn Hnl Hs Hsn Hq _ IH]; intros acc fuel Hf;
    (destruct fuel as [|fuel]; [lia|]); cbn [flatten].
  - rewrite Hr. cbn [deref]. orun. rewrite Hl, Hri, Hp. orun.
    destruct fuel; [cbn in Hf; lia|]. cbn. by rewrite app_nil_r.
  - rewrite Hn. cbn [deref]. orun. rewrite Hnl. cbn beta iota.
    rewrite Hln. cbn [deref]. orun.
    rewrite Hq, IH by (done || cbn in Hf; lia). by rewrite <- app_assoc.
  - rewrite Hn. cbn [deref]. orun. rewrite Hnl, Hs. cbn beta iota.
    rewrite Hsn. cbn [deref]. orun.
    rewrite Hq, IH by (done || cbn in Hf; lia). by rewrite <- app_assoc.
Qed.

Lemma trail_length items i A : trail items i A → length A < length items.
Proof.
  induction 1 as [x|j xs ys i A hr Hx Hy _ _ IH|j xs ys i A hl Hx Hy _ _ IH];
    rewrite ?length_app; cbn; [lia| |]; pose proof (Nat.pow_nonzero 2 j); lia.
Qed.

(** What a call of [trailsFromByteSlices] on the heap [σ] leaves behind. *)
Record trails_post (items : list bytes) (σ σ' : heap) (ts : list ptr) (root : ptr) : Prop := {
  tp_grow : length σ + length items ≤ length σ';
  tp_keep : ∀ p, p < length σ → σ' !! p = σ !! p;
  tp_fresh : length σ ≤ root;
  tp_root : ∃ h, σ' !! root = Some (mkNode h None None None) ∧ is_root items h;
  tp_len : length ts = length items;
  tp_trail : ∀ i x, items !! i = Some x → ∃ t n A, ts !! i = Some t ∧
    σ' !! t = Some n ∧ Hash n = leafHash x ∧ path (length σ) σ' root t A ∧
    trail items i A }.

Lemma trails_node fuel j xs ys σ :
  length xs = 2 ^ j → 1 ≤ length ys ≤ 2 ^ j →
  (Z.of_nat (length (xs ++ ys)) ≤ MaxInt64)%Z →
  trailsFromByteSlices (S fuel) (xs ++ ys) σ =
    ('(σ, lefts, leftRoot) ← trailsFromByteSlices fuel xs σ;
     '(σ, rights, rightRoot) ← trailsFromByteSlices fuel ys σ;
     ln ← deref (σ !! leftRoot);
     rn ← deref (σ !! rightRoot);
     let '(σ, root) := alloc σ (mkNode (innerHash (Hash ln) (Hash rn)) None None None) in
     σ ← set_right σ leftRoot root rightRoot;
     σ ← set_left σ rightRoot root leftRoot;
     Ok (σ, lefts ++ rights, root)).
Proof.
  intros Hx Hy Hm. pose proof (Nat.pow_nonzero 2 j) as Hp.
  pose proof (node_split xs ys j Hx Hy Hm) as Hs. cbn [trailsFromByteSlices].
  rewrite Hs. destruct xs as [|x xs]; cbn in Hx; [lia|].
  destruct ys as [|y ys]; cbn in Hy; [lia|].
  destruct (xs ++ y :: ys) as [|z l] eqn:E; [by destruct xs|].
  cbn [app]. rewrite E. rewrite <- E. cbn [mbind outcome_bind].
  rewrite Nat2Z.id. change (x :: xs ++ y :: ys) with ((x :: xs) ++ y :: ys).
  by rewrite take_app_length, drop_app_length.
Qed.

(** The heap after the two subtrees rooted at [r1] and [r2] are joined. *)
Definition join (σ : heap) (r1 r2 : ptr) (hl hr : bytes) : heap :=
  <[r2 := mkNode hr (Some (length σ)) (Some r1) None]>
  (<[r1 := mkNode hl (Some (length σ)) None (Some r2)]>
   (σ ++ [mkNode (innerHash hl hr) None None None])).

Section join.
Context (σ : heap) (r1 r2 : ptr) (hl hr : bytes).
Hypotheses (H1 : r1 < length σ) (H2 : r2 < length σ) (H12 : r1 ≠ r2).

Lemma join_left :
  join σ r1 r2 hl hr !! r1 = Some (mkNode hl (Some (length σ)) None (Some r2)).
Proof.
  unfold join. rewrite list_lookup_insert_ne by done.
  apply list_lookup_insert_eq. rewrite length_app. cbn. lia.
Qed.

Lemma join_right :
  join σ r1 r2 hl hr !! r2 = Some (mkNode hr (Some (length σ)) (Some r1) None).
Proof.
  apply list_lookup_insert_eq. rewrite length_insert, length_app. cbn. lia.
Qed.

Lemma join_root :
  join σ r1 r2 hl hr !! length σ = Some (mkNode (innerHash hl hr) None None None).
Proof.
  unfold join. rewrite !list_lookup_insert_ne by lia. by apply list_lookup_middle.
Qed.

Lemma join_other p :
  p < length σ → p ≠ r1 → p ≠ r2 → join σ r1 r2 hl hr !! p = σ !! p.
Proof.
  intros Hp N1 N2. unfold join. rewrite !list_lookup_insert_ne by done.
  by apply lookup_app_l.
Qed.

Lemma length_join : length (join σ r1 r2 hl hr) = S (length σ).
Proof. clear H1 H2 H12. unfold join. rewrite !length_insert, length_app. cbn. lia. Qed.

Lemma join_path_left b p A :
  b ≤ r1 → b ≤ r2 → path b (join σ r1 r2 hl hr) r1 p A →
  path b (join σ r1 r2 hl hr) (length σ) p (A ++ [hr]).
Proof.
  intros Hb1 Hb2 HA. eapply path_trans; [apply join_root|done| |exact HA|]; [lia|].
  change hr with (Hash (mkNode hr (Some (length σ)) (Some r1) None)).
  eapply path_right; [lia|done| |apply join_left|done|done|apply join_right|done|];
    [done|constructor].
Qed.

Lemma join_path_right b p A :
  b ≤ r1 → b ≤ r2 → path b (join σ r1 r2 hl hr) r2 p A →
  path b (join σ r1 r2 hl hr) (length σ) p (A ++ [hl]).
Proof.
  intros Hb1 Hb2 HA. eapply path_trans; [apply join_root|done| |exact HA|]; [lia|].
  change hl with (Hash (mkNode hl (Some (length σ)) None (Some r2))).
  eapply path_left; [lia|done| |apply join_right|done|apply join_left|done|];
    [done|constructor].
Qed.
End join.

Lemma trails_join j xs ys σ σ1 σ2 ts1 ts2 r1 r2 hl hr :
  length xs = 2 ^ j → 1 ≤ length ys ≤ 2 ^ j →
  trails_post xs σ σ1 ts1 r1 → trails_post ys σ1 σ2 ts2 r2 →
  σ1 !! r1 = Some (mkNode hl None None None) → is_root xs hl →
  σ2 !! r2 = Some (mkNode hr None None None) → is_root ys hr →
  trails_post (xs ++ ys) σ (join σ2 r1 r2 hl hr) (ts1 ++ ts2) (length σ2).
Proof.
  intros Hx Hy P1 P2 E1 R1 E2 R2.
  pose proof (lookup_lt_Some _ _ _ E1) as L1. pose proof (lookup_lt_Some _ _ _ E2) as L2.
  destruct P1 as [G1 K1 F1 _ N1 T1], P2 as [G2 K2 F2 _ N2 T2].
  assert (r1 ≠ r2) as Hne by lia. assert (r1 < length σ2) as L1' by lia.
  constructor; rewrite ?length_app, ?length_join.
  - lia.
  - intros p Hp. rewrite join_other, K2, K1 by lia. done.
  - lia.
  - exists (innerHash hl hr). split; [by apply join_root|by eapply root_node].
  - lia.
  - intros i x Hi. destruct (decide (i < length xs)) as [Hlt|Hge].
    + rewrite lookup_app_l in Hi by done.
      destruct (T1 i x Hi) as (t & n & A & Ht & Hn & Hh & Hp & Htr).
      assert (extends (length σ) r1 σ1 (join σ2 r1 r2 hl hr)) as Hext.
      { intros p m _ Hm. pose proof (lookup_lt_Some _ _ _ Hm).
        destruct (decide (p = r1)) as [->|].
        - rewrite E1 in Hm. injection Hm as <-. eexists. by rewrite join_left.
        - exists m. rewrite join_other, K2 by lia. done. }
      pose proof (lookup_lt_Some _ _ _ Hn).
      destruct (decide (t < length σ)) as [Hlow|Hlow].
      { exfalso. destruct Hp; lia. }
      destruct (Hext t n) as (n' & Hn' & Hh' & _); [lia|done|].
      exists t, n', (A ++ [hr]). split; [by apply lookup_app_l_Some|].
      split; [done|]. split; [congruence|]. split.
      * apply join_path_left; [lia..|]. by eapply path_extends.
      * by eapply trail_left.
    + rewrite lookup_app_r in Hi by lia.
      destruct (T2 _ x Hi) as (t & n & A & Ht & Hn & Hh & Hp & Htr).
      assert (extends (length σ1) r2 σ2 (join σ2 r1 r2 hl hr)) as Hext.
      { intros p m Hlo Hm. pose proof (lookup_lt_Some _ _ _ Hm).
        destruct (decide (p = r2)) as [->|].
        - rewrite E2 in Hm. injection Hm as <-. eexists. by rewrite join_right.
        - exists m. by rewrite join_other by lia. }
      destruct (decide (t < length σ1)) as [Hlow|Hlow].
      { exfalso. destruct Hp; lia. }
      destruct (Hext t n) as (n' & Hn' & Hh' & _); [lia|done|].
      exists t, n', (A ++ [hl]). split; [by rewrite lookup_app_r, N1 by lia|].
      split; [done|]. split; [congruence|]. split.
      * apply join_path_right; [lia..|]. eapply path_extends; [done| |done]. lia.
      * replace i with (length xs + (i - length xs)) by lia. by eapply trail_right.
Qed.

Lemma trails_spec fuel items σ :
  length items < fuel → items ≠ [] → (Z.of_nat (length items) ≤ MaxInt64)%Z →
  ∃ σ' ts root, trailsFromByteSlices fuel items σ = Ok (σ', ts, root) ∧
    trails_post items σ σ' ts root.
Proof.
  revert items σ. induction fuel as [|fuel IH]; [lia|]. intros items σ Hf Hne Hm.
  destruct (items_cases items Hm) as [->|[[x ->]|(j & xs & ys & -> & Hx & Hy)]]; [done| |].
  - cbn. do 3 eexists. split; [done|]. constructor.
    + rewrite length_app. cbn. lia.
    + intros p Hp. by rewrite lookup_app_l.
    + done.
    + eexists. split; [by apply list_lookup_middle|constructor].
    + done.
    + intros [|i] y; [|done]. intros [= ->]. do 3 eexists. split; [done|].
      split; [by apply list_lookup_middle|]. split; [done|]. split; constructor.
  - rewrite (trails_node fuel j) by done. rewrite length_app in *.
    pose proof (Nat.pow_nonzero 2 j).
    destruct (IH xs σ) as (σ1 & ts1 & r1 & -> & P1); [lia| |lia|].
    { intros ->. cbn in Hx. lia. }
    orun. destruct (IH ys σ1) as (σ2 & ts2 & r2 & -> & P2); [lia| |lia|].
    { intros ->. cbn in Hy. lia. }
    destruct (tp_root _ _ _ _ _ P1) as (hl & E1 & R1).
    destruct (tp_root _ _ _ _ _ P2) as (hr & E2 & R2). orun.
    pose proof (lookup_lt_Some _ _ _ E1) as L1. pose proof (lookup_lt_Some _ _ _ E2) as L2.
    pose proof (tp_fresh _ _ _ _ _ P2). pose proof (tp_grow _ _ _ _ _ P2).
    rewrite (tp_keep _ _ _ _ _ P2 r1 L1), E1, E2. cbn [deref alloc]. orun.
    unfold set_right, set_left.
    rewrite lookup_app_l, (tp_keep _ _ _ _ _ P2 r1 L1), E1 by lia. cbn [deref]. orun.
    rewrite list_lookup_insert_ne, lookup_app_l, E2 by lia. cbn [deref]. orun.
    do 3 eexists. split; [done|].
    exact (trails_join j xs ys σ σ1 σ2 ts1 ts2 r1 r2 hl hr Hx Hy P1 P2 E1 R1 E2 R2).
Qed.

Lemma make_proofs_spec b σ total root rn items i ts :
  σ !! root = Some rn → Parent rn = None → Left rn = None → Right rn = None →
  (∀ k x, items !! k = Some x → ∃ t n A, ts !! k = Some t ∧ σ !! t = Some n ∧
    Hash n = leafHash x ∧ path b σ root t A ∧ length A < length σ) →
  length ts = length items →
  ∃ proofs, make_proofs σ total i ts = Ok proofs ∧ length proofs = length items ∧
    ∀ k x, items !! k = Some x → ∃ t A, ts !! k = Some t ∧ path b σ root t A ∧
      proofs !! k = Some (mkProof total (Z.of_nat (i + k)) (leafHash x) A).
Proof.
  intros Hr Hp Hl Hri. revert items i. induction ts as [|t ts IH]; intros items i Ht Hlen.
  { destruct items; [|done]. exists []. by split_and!. }
  destruct items as [|x items]; [done|]. injection Hlen as Hlen.
  destruct (Ht 0 x eq_refl) as (t' & n & A & [= <-] & Hn & Hh & HA & Hlt).
  destruct (IH items (S i)) as (proofs & E & Hlp & Hk).
  { intros k y Hy. exact (Ht (S k) y Hy). }
  { done. }
  cbn [make_proofs]. rewrite Hn. cbn [deref]. orun.
  unfold FlattenAunts. rewrite (path_flatten b σ t A root rn []) by (done || lia). orun.
  rewrite E. orun. eexists. split; [done|]. split; [by cbn; rewrite Hlp|].
  intros [|k] y Hy.
  - injection Hy as <-. exists t, A. cbn. by rewrite Nat.add_0_r, Hh.
  - destruct (Hk k y Hy) as (t' & A' & H1 & H2 & H3). exists t', A'.
    split; [done|]. split; [done|]. rewrite Nat.add_succ_r. exact H3.
Qed.

Lemma path_inj b σ r p A B : path b σ r p A → path b σ r p B → A = B.
Proof.
  intros H. revert B.
  induction H as [|p n l ln q A Hne _ _ Hn Hl Hln Hq _ IH
    |p n s sn q A Hne _ _ Hn Hl Hs Hsn Hq _ IH]; intros B HB.
  - by inversion HB.
  - inversion HB; subst; simplify_eq. f_equal. by apply IH.
  - inversion HB; subst; simplify_eq. f_equal. by apply IH.
Qed.

(** The proofs the code builds carry the trail of their item. *)
Lemma ProofsFromByteSlices_trails items :
  items ≠ [] → (Z.of_nat (length items) ≤ MaxInt64)%Z →
  ∃ root proofs, ProofsFromByteSlices items = Ok (root, proofs) ∧ is_root items root ∧
    length proofs = length items ∧
    ∀ i x, items !! i = Some x → ∃ A, trail items i A ∧
      proofs !! i = Some (mkProof (Z.of_nat (length items)) (Z.of_nat i) (leafHash x) A).
Proof.
  intros Hne Hm. unfold ProofsFromByteSlices.
  destruct (trails_spec (S (length items)) items []) as (σ & ts & root & -> & P);
    [lia|done|done|]. orun.
  destruct P as [G _ _ (h & Eroot & Hroot) Hlen Htr]. cbn [length] in *.
  rewrite Eroot. cbn [deref]. orun.
  destruct (make_proofs_spec 0 σ (Z.of_nat (length items)) root _ items 0 ts Eroot)
    as (proofs & -> & Hlp & Hk); [done..| |done|].
  { intros k x Hx. destruct (Htr k x Hx) as (t & n & A & ? & ? & ? & ? & Htl).
    exists t, n, A. split_and!; try done. apply trail_length in Htl. lia. }
  orun. exists h, proofs. split; [done|]. split; [done|]. split; [done|].
  intros i x Hx. destruct (Hk i x Hx) as (t & A & Ht & HA & Hpr).
  destruct (Htr i x Hx) as (t' & n & A' & Ht' & _ & _ & HA' & Htl).
  rewrite Ht in Ht'. injection Ht' as <-. rewrite (path_inj _ _ _ _ _ _ HA HA') in Hpr.
  eauto.
Qed.

(** ** Soundness of proofs *)

(** The strings hashed to compute the root of [items]. *)
Fixpoint tree_inputs (fuel : nat) (items : list bytes) : list bytes :=
  match fuel with
  | O => []
  | S fuel =>
      match items with
      | [] => [[]]
      | [item] => [[x00] ++ item]
      | _ =>
          match getSplitPoint (Z.of_nat (length items)) with
          | Ok k =>
              let xs := take (Z.to_nat k) items in
              let ys := drop (Z.to_nat k) items in
              tree_inputs fuel xs ++ tree_inputs fuel ys ++
              match hashFromByteSlices fuel xs, hashFromByteSlices fuel ys with
              | Ok l, Ok r => [[x01] ++ l ++ r]
              | _, _ => []
              end
          | _ => []
          end
      end
  end.

(** The strings hashed to compute a root from a leaf hash and its aunts. *)
Fixpoint aunt_inputs (fuel : nat) (index total : Z) (lh : bytes) (aunts : list bytes) :
    list bytes :=
  match fuel with
  | O => []
  | S fuel =>
      match last aunts, getSplitPoint total with
      | Some aunt, Ok k =>
          let init := take (length aunts - 1) aunts in
          let (i, t) := if (index <? k)%Z then (index, k)
                        else (int64 (index - k), int64 (total - k)) in
          aunt_inputs fuel i t lh init ++
          match computeHashFromAunts fuel i t lh init with
          | Ok h => [[x01] ++ (if (index <? k)%Z then h ++ aunt else aunt ++ h)]
          | _ => []
          end
      | _, _ => []
      end
  end.

Definition proof_inputs (sp : Proof) (leaf : bytes) : list bytes :=
  ([x00] ++ leaf) ::
  aunt_inputs (S (length (Aunts sp))) (Index sp) (Total sp) (LeafHash sp) (Aunts sp).

(** No two different strings of [l] have the same digest. *)
Definition no_collision (l : list bytes) : Prop :=
  ∀ x y, x ∈ l → y ∈ l → sha256 x = sha256 y → x = y.

Lemma tree_inputs_node fuel j xs ys :
  length xs = 2 ^ j → 1 ≤ length ys ≤ 2 ^ j →
  (Z.of_nat (length (xs ++ ys)) ≤ MaxInt64)%Z →
  tree_inputs (S fuel) (xs ++ ys) =
    tree_inputs fuel xs ++ tree_inputs fuel ys ++
    match hashFromByteSlices fuel xs, hashFromByteSlices fuel ys with
    | Ok l, Ok r => [[x01] ++ l ++ r]
    | _, _ => []
    end.
Proof.
  intros Hx Hy Hm. pose proof (Nat.pow_nonzero 2 j) as Hp.
  pose proof (node_split xs ys j Hx Hy Hm) as Hs. cbn [tree_inputs].
  rewrite Hs. destruct xs as [|x xs]; cbn in Hx; [lia|].
  destruct ys as [|y ys]; cbn in Hy; [lia|].
  destruct (xs ++ y :: ys) as [|z l] eqn:E; [by destruct xs|].
  cbn [app]. rewrite E. rewrite <- E.
  rewrite Nat2Z.id. change (x :: xs ++ y :: ys) with ((x :: xs) ++ y :: ys).
  by rewrite take_app_length, drop_app_length.
Qed.

Lemma no_collision_subset l l' : l ⊆ l' → no_collision l' → no_collision l.
Proof. intros Hs H x y Hx Hy. apply H; by apply Hs. Qed.

Lemma exists_last_or_nil {A} (l : list A) : l = [] ∨ ∃ l' x, l = l' ++ [x].
Proof. induction l as [|x l _] using rev_ind; eauto. Qed.

Section soundness.
Hypothesis sha_len : ∀ b, length (sha256 b) = 32.

Lemma compute_len fuel i n lh A h :
  length lh = 32 → computeHashFromAunts fuel i n lh A = Ok h → length h = 32.
Proof.
  intros Hl. destruct fuel as [|fuel]; cbn [computeHashFromAunts]; [done|].
  repeat split_if; try done; [by intros [= <-]|].
  destruct (last A) as [a|]; [|done]. intros H. outcome_inv.
  revert H. split_if; intros H; outcome_inv; apply sha_len.
Qed.

Lemma aunt_inputs_node {E} (xs ys : list E) j fuel (i : nat) lh A a :
  length xs = 2 ^ j → 1 ≤ length ys ≤ 2 ^ j →
  (Z.of_nat (length (xs ++ ys)) ≤ MaxInt64)%Z → i < length (xs ++ ys) →
  aunt_inputs (S fuel) (Z.of_nat i) (Z.of_nat (length (xs ++ ys))) lh (A ++ [a]) =
    if decide (i < length xs)
    then aunt_inputs fuel (Z.of_nat i) (Z.of_nat (length xs)) lh A ++
         match computeHashFromAunts fuel (Z.of_nat i) (Z.of_nat (length xs)) lh A with
         | Ok h => [[x01] ++ h ++ a]
         | _ => []
         end
    else aunt_inputs fuel (Z.of_nat (i - length xs)) (Z.of_nat (length ys)) lh A ++
         match computeHashFromAunts fuel (Z.of_nat (i - length xs))
                 (Z.of_nat (length ys)) lh A with
         | Ok h => [[x01] ++ a ++ h]
         | _ => []
         end.
Proof.
  intros Hx Hy Hm Hi. pose proof (node_split xs ys j Hx Hy Hm) as Hs.
  cbn [aunt_inputs]. rewrite Hs, last_snoc, (length_app A [a]).
  change (length [a]) with 1. replace (length A + 1 - 1) with (length A) by lia.
  rewrite take_app_length. rewrite length_app in *.
  destruct (Z.ltb_spec (Z.of_nat i) (Z.of_nat (length xs)));
    destruct (decide (i < length xs)); try lia; [done|].
  rewrite !int64_id by (unfold_ints; lia).
  by replace (Z.of_nat i - Z.of_nat (length xs))%Z with (Z.of_nat (i - length xs)) by lia;
    replace (Z.of_nat (length xs + length ys) - Z.of_nat (length xs))%Z
      with (Z.of_nat (length ys)) by lia.
Qed.

(** Equal inner nodes have equal children when one side of each is a digest. *)
Lemma inner_input_inj (l r l' r' : bytes) :
  length l = 32 → length r = 32 → length l' = 32 ∨ length r' = 32 →
  [x01] ++ l ++ r = [x01] ++ l' ++ r' → l = l' ∧ r = r'.
Proof.
  intros Hl Hr H [= E]. destruct H as [H|H].
  - by apply app_inj_1 in E; [|lia].
  - by apply app_inj_2 in E; [|lia].
Qed.

Lemma compute_sound items r fuel fuel' (i : nat) leaf A :
  is_root items r → length items < fuel → (Z.of_nat (length items) ≤ MaxInt64)%Z →
  i < length items →
  computeHashFromAunts fuel' (Z.of_nat i) (Z.of_nat (length items)) (leafHash leaf) A = Ok r →
  no_collision (([x00] ++ leaf) :: tree_inputs fuel items ++
    aunt_inputs fuel' (Z.of_nat i) (Z.of_nat (length items)) (leafHash leaf) A) →
  items !! i = Some leaf.
Proof.
  intros Hroot. revert fuel fuel' i A.
  induction Hroot as [|x|j xs ys hl hr Hx Hy Hl IHl Hr IHr];
    intros fuel fuel' i A Hf Hm Hi HA Hc; [cbn in Hi; lia| |];
    (destruct fuel as [|fuel]; [lia|]); (destruct fuel' as [|fuel']; [done|]).
  - assert (i = 0) as -> by (cbn in Hi; lia). cbn in HA.
    destruct (decide (A = [])); [|done]. injection HA as HA. cbn. f_equal.
    assert ([x00] ++ leaf = [x00] ++ x) as [= ->]; [|done].
    apply Hc; [by left|by right; left|done].
  - pose proof (Nat.pow_nonzero 2 j).
    destruct (exists_last_or_nil A) as [->|(A' & a & ->)].
    { cbn [computeHashFromAunts last] in HA. rewrite length_app in *. revert HA.
      repeat split_if; try done; bools; lia. }
    rewrite (compute_node xs ys j) in HA by done.
    rewrite (aunt_inputs_node xs ys j), (tree_inputs_node fuel j) in Hc by done.
    rewrite length_app in *.
    assert (hashFromByteSlices fuel xs = Ok hl) as Exl.
    { destruct (hashFromByteSlices_root fuel xs) as (h & -> & Hh); [lia..|].
      by rewrite (is_root_det _ _ _ Hh Hl). }
    assert (hashFromByteSlices fuel ys = Ok hr) as Exr.
    { destruct (hashFromByteSlices_root fuel ys) as (h & -> & Hh); [lia..|].
      by rewrite (is_root_det _ _ _ Hh Hr). }
    rewrite Exl, Exr in Hc.
    pose proof (is_root_len _ _ sha_len Hl) as Ll. pose proof (is_root_len _ _ sha_len Hr) as Lr.
    destruct (decide (i < length xs)) as [Hlt|Hge]; outcome_inv.
    + rewrite lookup_app_l by done.
      match goal with H : computeHashFromAunts _ _ _ _ _ = Ok _ |- _ => rename H into Hh end.
      rewrite Hh in Hc. pose proof (compute_len _ _ _ _ _ _ (sha_len _) Hh) as Lh.
      destruct (inner_input_inj hl hr x a Ll Lr (or_introl Lh)) as [-> ->].
      { apply Hc; [set_solver..|by symmetry]. }
      eapply IHl; [|lia|done|exact Hh|]; [instantiate (1 := fuel); lia|].
      eapply no_collision_subset; [|exact Hc]. set_solver.
    + rewrite lookup_app_r by lia.
      match goal with H : computeHashFromAunts _ _ _ _ _ = Ok _ |- _ => rename H into Hh end.
      rewrite Hh in Hc. pose proof (compute_len _ _ _ _ _ _ (sha_len _) Hh) as Lh.
      destruct (inner_input_inj hl hr a x Ll Lr (or_intror Lh)) as [-> ->].
      { apply Hc; [set_solver..|by symmetry]. }
      eapply IHr; [|lia|lia|exact Hh|]; [instantiate (1 := fuel); lia|].
      eapply no_collision_subset; [|exact Hc]. set_solver.
Qed.
(** The string hashed last for the root of [items]. *)
Lemma top_input fuel items r :
  is_root items r → length items < fuel → (Z.of_nat (length items) ≤ MaxInt64)%Z →
  ∃ t, t ∈ tree_inputs fuel items ∧ r = sha256 t ∧
    ((items = [] ∧ t = []) ∨ (∃ x, items = [x] ∧ t = [x00] ++ x) ∨
     (∃ j xs ys hl hr f, items = xs ++ ys ∧ fuel = S f ∧ length xs = 2 ^ j ∧ 1 ≤ length ys ≤ 2 ^ j ∧
        is_root xs hl ∧ is_root ys hr ∧ t = [x01] ++ hl ++ hr ∧
        tree_inputs f xs ⊆ tree_inputs fuel items ∧ tree_inputs f ys ⊆ tree_inputs fuel items)).
Proof.
  intros Hr Hf Hm. destruct fuel as [|fuel]; [lia|].
  destruct Hr as [|x|j xs ys hl hr Hx Hy Hl Hr].
  - exists []. split; [by left|]. split; [done|]. by left.
  - exists ([x00] ++ x). split; [by left|]. split; [done|]. right; left. eauto.
  - pose proof (Nat.pow_nonzero 2 j). rewrite (tree_inputs_node fuel j) by done.
    rewrite length_app in *.
    assert (hashFromByteSlices fuel xs = Ok hl) as ->.
    { destruct (hashFromByteSlices_root fuel xs) as (h & -> & Hh); [lia..|].
      by rewrite (is_root_det _ _ _ Hh Hl). }
    assert (hashFromByteSlices fuel ys = Ok hr) as ->.
    { destruct (hashFromByteSlices_root fuel ys) as (h & -> & Hh); [lia..|].
      by rewrite (is_root_det _ _ _ Hh Hr). }
    exists ([x01] ++ hl ++ hr). split; [set_solver|]. split; [done|]. right; right.
    exists j, xs, ys, hl, hr, fuel. split_and!; try done; try lia; set_solver.
Qed.

(** The string hashed last for what a leaf and its aunts give, whatever the index and the total. *)
Lemma compute_top fuel i n leaf A r :
  computeHashFromAunts fuel i n (leafHash leaf) A = Ok r →
  r = sha256 ([x00] ++ leaf) ∨
  ∃ f i' n' A' h hl hr, r = sha256 ([x01] ++ hl ++ hr) ∧ (h = hl ∨ h = hr) ∧
    computeHashFromAunts f i' n' (leafHash leaf) A' = Ok h ∧
    [x01] ++ hl ++ hr ∈ aunt_inputs fuel i n (leafHash leaf) A ∧
    aunt_inputs f i' n' (leafHash leaf) A' ⊆ aunt_inputs fuel i n (leafHash leaf) A.
Proof.
  destruct fuel as [|f]; cbn [computeHashFromAunts aunt_inputs]; [done|].
  repeat split_if; try done; [intros [= <-]; by left|].
  destruct (last A) as [a|]; [|done]. destruct (getSplitPoint n) as [k| |]; [|done..]. orun.
  split_if; intros E; outcome_inv; right;
    match goal with H : computeHashFromAunts f _ _ _ _ = Ok ?h |- _ => rename H into Hh end; rewrite Hh.
  - match type of Hh with _ = Ok ?h => exists f, i, k, (take (length A - 1) A), h, h, a end.
    split_and!; [done|by left|done|set_solver..].
  - match type of Hh with _ = Ok ?h =>
      exists f, (int64 (i - k)), (int64 (n - k)), (take (length A - 1) A), h, a, h end.
    split_and!; [done|by right|done|set_solver..].
Qed.

(** A leaf with aunts that lead to the root of [items] is one of them. *)
Lemma compute_member fuel fuel' items r i n leaf A :
  is_root items r → length items < fuel → (Z.of_nat (length items) ≤ MaxInt64)%Z →
  computeHashFromAunts fuel' i n (leafHash leaf) A = Ok r →
  no_collision (([x00] ++ leaf) :: tree_inputs fuel items ++ aunt_inputs fuel' i n (leafHash leaf) A) →
  leaf ∈ items.
Proof.
  revert fuel' items r i n A. induction fuel as [|fuel IH]; intros fuel' items r i n A Hr Hf Hm HA Hc; [lia|].
  destruct (top_input _ _ _ Hr Hf Hm) as (t & Ht & -> & Hcase).
  destruct (compute_top _ _ _ _ _ _ HA) as [E|(f & i' & n' & A' & h & hl' & hr' & E & Hh & HA' & Hin & Hsub)].
  - apply Hc in E; [|set_solver..]. subst t.
    destruct Hcase as [[_ ?]|[(x & -> & [= ->])|(?&?&?&?&?&?&_&_&_&_&_&_&?&_)]]; [done|by left|done].
  - pose proof (compute_len _ _ _ _ _ _ (sha_len _) HA') as Lh.
    apply Hc in E; [|set_solver..]. subst t.
    destruct Hcase as [[_ ?]|[(x & -> & ?)|(j & xs & ys & hl & hr & f' & -> & [= <-] & Hx & Hy & Hl & Hr1 & E & Sx & Sy)]];
      [done|done|]. symmetry in E.
    apply inner_input_inj in E as [-> ->]; [|by eapply is_root_len|by eapply is_root_len|by destruct Hh as [->| ->]; auto].
    rewrite length_app in *. pose proof (Nat.pow_nonzero 2 j). apply elem_of_app. destruct Hh as [->| ->]; [left|right].
    + eapply (IH f xs); try done; [lia|lia|]. eapply no_collision_subset; [|exact Hc]. set_solver.
    + eapply (IH f ys); try done; [lia|lia|]. eapply no_collision_subset; [|exact Hc]. set_solver.
Qed.

(** Different lists have different roots. *)
Lemma is_root_inj items items' r fuel fuel' :
  is_root items r → is_root items' r → length items < fuel → length items' < fuel' →
  (Z.of_nat (length items) ≤ MaxInt64)%Z → (Z.of_nat (length items') ≤ MaxInt64)%Z →
  no_collision (tree_inputs fuel items ++ tree_inputs fuel' items') → items = items'.
Proof.
  revert items items' r fuel'. induction fuel as [|fuel IH]; intros items items' r fuel'; [lia|].
  intros Hr Hr' Hf Hf' Hm Hm' Hc.
  destruct (top_input _ _ _ Hr Hf Hm) as (t & Ht & -> & Hcase).
  destruct (top_input _ _ _ Hr' Hf' Hm') as (t' & Ht' & E & Hcase').
  apply Hc in E; [|set_solver..]. subst t'.
  destruct Hcase as [[-> ->]|[(x & -> & ->)|(j & xs & ys & hl & hr & f & -> & [= <-] & Hx & Hy & Hl & Hr1 & -> & Sx & Sy)]];
    destruct Hcase' as [[-> E]|[(x' & -> & E)|(j' & xs' & ys' & hl' & hr' & f' & -> & -> & Hx' & Hy' & Hl' & Hr1' & E & Sx' & Sy')]];
    try done; [by injection E as ->|].
  apply inner_input_inj in E as [-> ->]; [|by eapply is_root_len|by eapply is_root_len|left; by eapply is_root_len].
  pose proof (Nat.pow_nonzero 2 j). pose proof (Nat.pow_nonzero 2 j'). rewrite !length_app in *.
  f_equal.
  - eapply (IH xs xs'); try done; try lia; [instantiate (1 := f'); lia|].
    eapply no_collision_subset; [|exact Hc]. set_solver.
  - eapply (IH ys ys'); try done; try lia; [instantiate (1 := f'); lia|].
    eapply no_collision_subset; [|exact Hc]. set_solver.
Qed.
End soundness.

Lemma trail_depth items i A k : trail items i A → length items ≤ 2 ^ k → length A ≤ k.
Proof.
  intros H. revert k.
  induction H as [x|j xs ys i A hr Hx Hy _ _ IH|j xs ys i A hl Hx Hy _ _ IH];
    intros k Hk; [cbn; lia| |]; rewrite length_app in *; cbn [length];
    (destruct k as [|k]; [pose proof (Nat.pow_nonzero 2 j); cbn in Hk; lia|]);
    assert (j ≤ k) as Hjk
      by (apply Nat.lt_succ_r, (Nat.pow_lt_mono_r_iff 2); lia);
    pose proof (Nat.pow_le_mono_r 2 j k ltac:(lia) Hjk);
    specialize (IH k); lia.
Qed.

Lemma trail_aunts_len items i A :
  (∀ b, length (sha256 b) = 32) → trail items i A → Forall (λ a, length a = 32) A.
Proof.
  intros Hs H. induction H as [x|j xs ys i A hr _ _ Hr _ IH|j xs ys i A hl _ _ Hl _ IH];
    [constructor|..]; apply Forall_app; split; try done; repeat constructor;
    by eapply is_root_len.
Qed.

Lemma check_aunts_Ok k A : Forall (λ a, length a = 32) A → check_aunts k A = Ok tt.
Proof.
  intros H. revert k. induction H as [|a A Ha _ IH]; intros k; [done|].
  cbn [check_aunts]. rewrite Ha. exact (IH (S k)).
Qed.

Lemma trail_verifies items i A root x :
  trail items i A → is_root items root → items !! i = Some x →
  (Z.of_nat (length items) ≤ MaxInt64)%Z →
  Verify (mkProof (Z.of_nat (length items)) (Z.of_nat i) (leafHash x) A) root x = Ok tt.
Proof.
  intros Ht Hr Hx Hm. unfold Verify, ComputeRootHash. cbn [Total Index LeafHash Aunts].
  destruct (Z.ltb_spec (Z.of_nat (length items)) 0); [lia|].
  destruct (Z.ltb_spec (Z.of_nat i) 0); [lia|].
  rewrite bool_decide_eq_true_2 by done. cbn [negb].
  rewrite (trail_compute items i A root x) by (done || lia). orun.
  by rewrite bool_decide_eq_true_2.
Qed.

Lemma trail_valid_basic items i A x :
  (∀ b, length (sha256 b) = 32) → trail items i A →
  (Z.of_nat (length items) ≤ MaxInt64)%Z →
  ValidateBasic (mkProof (Z.of_nat (length items)) (Z.of_nat i) (leafHash x) A) = Ok tt.
Proof.
  intros Hs Ht Hm. unfold ValidateBasic. cbn [Total Index LeafHash Aunts].
  destruct (Z.ltb_spec (Z.of_nat (length items)) 0); [lia|].
  destruct (Z.ltb_spec (Z.of_nat i) 0); [lia|].
  unfold leafHash. rewrite Hs. cbn [negb Z.of_nat]. 
  assert (length A ≤ 63).
  { apply (trail_depth items i); [done|]. apply Nat2Z.inj_le.
    rewrite (Nat2Z.inj_pow 2 63). unfold_ints. lia. }
  unfold MaxAunts. destruct (Z.gtb_spec (Z.of_nat (length A)) 100); [lia|].
  change (negb (Z.of_nat 32 =? HashSize)%Z) with false.
  by eapply check_aunts_Ok, trail_aunts_len.
Qed.

End hashing.

(** Soundness over the specification of the root; the theorem below is about the
    code that computes it. *)
Lemma verify_sound_aux sha256 items root sp leaf :
  (∀ b, length (sha256 b) = 32) → (Z.of_nat (length items) ≤ MaxInt64)%Z →
  is_root sha256 items root → Total sp = Z.of_nat (length items) →
  Verify sha256 sp root leaf = Ok tt →
  no_collision sha256
    (tree_inputs sha256 (S (length items)) items ++ proof_inputs sha256 sp leaf) →
  (0 ≤ Index sp)%Z ∧ items !! Z.to_nat (Index sp) = Some leaf.
Proof.
  intros Hs Hm Hroot HT HV Hc.
  unfold Verify in HV. revert HV. repeat split_if; try done. intros HV. outcome_inv.
  revert HV. split_if; [done|]. intros _. bools. split; [done|].
  match goal with H : ComputeRootHash _ _ = Ok _ |- _ => rename H into HC end.
  unfold ComputeRootHash, proof_inputs in *.
  rewrite HT in *. rewrite <- (Z2Nat.id (Index sp)) in HC, Hc by done.
  destruct (decide (Z.to_nat (Index sp) < length items)) as [Hi|Hi].
  - match goal with H : LeafHash _ = _ |- _ => rewrite H in HC, Hc end. subst.
    eapply (compute_sound sha256 Hs _ _ (S (length items))); [done|lia|done|done|exact HC|].
    eapply no_collision_subset; [|exact Hc]. set_solver.
  - exfalso. cbn [computeHashFromAunts] in HC. revert HC.
    destruct (Z.geb_spec (Z.of_nat (Z.to_nat (Index sp))) (Z.of_nat (length items)));
      [done|lia].
Qed.

Lemma verify_member sha256 items root sp leaf :
  (∀ b, length (sha256 b) = 32) → (Z.of_nat (length items) ≤ MaxInt64)%Z →
  is_root sha256 items root → Verify sha256 sp root leaf = Ok tt →
  no_collision sha256
    (tree_inputs sha256 (S (length items)) items ++ proof_inputs sha256 sp leaf) →
  leaf ∈ items.
Proof.
  intros Hs Hm Hroot HV Hc. unfold Verify in HV. revert HV. repeat split_if; try done. intros HV. outcome_inv.
  revert HV. split_if; [done|]. intros _. bools.
  match goal with H : ComputeRootHash _ _ = Ok _ |- _ => rename H into HC end.
  unfold ComputeRootHash, proof_inputs in *.
  match goal with H : LeafHash _ = _ |- _ => rewrite H in HC, Hc end. subst.
  eapply (compute_member sha256 Hs (S (length items))); [done|lia|done|exact HC|].
  eapply no_collision_subset; [|exact Hc]. set_solver.
Qed.

(** ** Theorems *)

(** For every hash function and every list of items, the iterative in-place
    tree hash and the recursive one return the same root, and both return. *)
Theorem iterative_hash_agrees sha256 items :
  (Z.of_nat (length items) ≤ MaxInt64)%Z →
  ∃ root, HashFromByteSlices sha256 items = Ok root ∧
    HashFromByteSlicesIterative sha256 items = Ok root.
Proof.
  intros Hm. destruct (hashFromByteSlices_root sha256 (S (length items)) items)
    as (h & E & Hr); [lia|done|].
  exists h. split; [done|]. unfold HashFromByteSlicesIterative.
  destruct items as [|x items].
  - apply is_root_nil_inv in Hr as ->. done.
  - apply iter_loop_spec; rewrite ?length_map; [lia|done|].
    rewrite take_ge by (by rewrite length_map). by apply is_root_leaves.
Qed.

(** For every non-empty list of items, [ProofsFromByteSlices] returns the
    tree hash and one proof per item; the proof of item [i] names index [i] and
    the number of items, passes [ValidateBasic] (so it has at most [MaxAunts]
    aunts), and verifies that item against the root. *)
Theorem proofs_verify sha256 items :
  (∀ b, length (sha256 b) = 32) → items ≠ [] →
  (Z.of_nat (length items) ≤ MaxInt64)%Z →
  ∃ root proofs, ProofsFromByteSlices sha256 items = Ok (root, proofs) ∧
    HashFromByteSlices sha256 items = Ok root ∧ length proofs = length items ∧
    ∀ i x, items !! i = Some x → ∃ sp, proofs !! i = Some sp ∧
      Index sp = Z.of_nat i ∧ Total sp = Z.of_nat (length items) ∧
      ValidateBasic sp = Ok tt ∧ Verify sha256 sp root x = Ok tt.
Proof.
  intros Hs Hne Hm.
  destruct (ProofsFromByteSlices_trails sha256 items Hne Hm)
    as (root & proofs & -> & Hr & Hl & Hp).
  exists root, proofs. split; [done|]. split; [by apply HashFromByteSlices_root|].
  split; [done|]. intros i x Hx. destruct (Hp i x Hx) as (A & HA & Hpr).
  eexists. split; [exact Hpr|]. split; [done|]. split; [done|]. split.
  - by eapply trail_valid_basic.
  - by apply trail_verifies.
Qed.

(** C38: a proof that verifies a leaf against the root of [items] proves that the
    leaf is one of the items, whatever its index and total; and when its total is
    the number of items, which the code leaves to its callers to check, the leaf
    is the item at the proof's index.  This holds unless two different strings
    among those hashed by the tree and by the proof have the same digest. *)
Theorem verify_sound sha256 items root sp leaf :
  (∀ b, length (sha256 b) = 32) → (Z.of_nat (length items) ≤ MaxInt64)%Z →
  HashFromByteSlices sha256 items = Ok root → Verify sha256 sp root leaf = Ok tt →
  no_collision sha256
    (tree_inputs sha256 (S (length items)) items ++ proof_inputs sha256 sp leaf) →
  leaf ∈ items ∧
  (Total sp = Z.of_nat (length items) →
     (0 ≤ Index sp)%Z ∧ items !! Z.to_nat (Index sp) = Some leaf).
Proof.
  intros Hs Hm Hroot%HashFromByteSlices_root HV Hc; [|done].
  split; [by eapply verify_member|]. intros HT. by eapply verify_sound_aux.
Qed.

(** *** A concrete hash function, for the witnesses: a polynomial checksum *)

Fixpoint low_bytes (k : nat) (n : N) : bytes :=
  match k with
  | O => []
  | S k => default x00 (Byte.of_N (N.land n 255)) :: low_bytes k (N.shiftr n 8)
  end.

Definition toy_mask : N := 0xffffffffffffffffffffffffffffffffffffffffffffffffffffffffffffffff%N.

Definition toy_hash (b : bytes) : bytes :=
  low_bytes 32 (fold_left (λ acc x, N.land (acc * 263 + Byte.to_N x + 1) toy_mask)%N b 7%N).

Lemma toy_hash_len b : length (toy_hash b) = 32.
Proof. reflexivity. Qed.

Lemma no_collision_decide sha256 l :
  (let ds := map (λ x, (x, sha256 x)) l in
   forallb (λ d, forallb (λ e, implb (bool_decide (d.2 = e.2))
     (bool_decide (d.1 = e.1))) ds) ds) = true → no_collision sha256 l.
Proof.
  intros H x y Hx%list_elem_of_In Hy%list_elem_of_In E. cbv zeta in H.
  rewrite forallb_forall in H. specialize (H (x, sha256 x) (List.in_map _ _ _ Hx)).
  rewrite forallb_forall in H. specialize (H (y, sha256 y) (List.in_map _ _ _ Hy)).
  cbn [fst snd] in H.
  rewrite bool_decide_eq_true_2 in H by done. cbn [implb] in H. by bools.
Qed.

Lemma iterative_hash_agrees_witness :
  ∃ root, HashFromByteSlices toy_hash [[x61]; [x62]; []; [x63; x64]; [x65]] = Ok root ∧
    HashFromByteSlicesIterative toy_hash [[x61]; [x62]; []; [x63; x64]; [x65]] = Ok root.
Proof. apply (iterative_hash_agrees toy_hash). cbn. unfold_ints. lia. Defined.

Lemma proofs_verify_witness :
  ∃ root proofs, ProofsFromByteSlices toy_hash [[x61]; [x62]; [x63]] = Ok (root, proofs) ∧
    ∃ sp, proofs !! 2 = Some sp ∧ Verify toy_hash sp root [x63] = Ok tt.
Proof.
  destruct (proofs_verify toy_hash [[x61]; [x62]; [x63]])
    as (root & proofs & E & _ & _ & H); [apply toy_hash_len|done|cbn; unfold_ints; lia|].
  destruct (H 2 [x63] eq_refl) as (sp & Hsp & _ & _ & _ & Hv).
  exists root, proofs. split; [exact E|]. exists sp. split; [exact Hsp|exact Hv].
Defined.

(** The proof with a total of 2 verifies the third item at index 1. *)
Lemma verify_sound_witness :
  ∃ root sp sp', HashFromByteSlices toy_hash [[x61]; [x62]; [x63]] = Ok root ∧
    Verify toy_hash sp root [x62] = Ok tt ∧ Index sp = 1%Z ∧
    [[x61]; [x62]; [x63]] !! Z.to_nat (Index sp) = Some [x62] ∧
    Verify toy_hash sp' root [x63] = Ok tt ∧ Index sp' = 1%Z ∧ [x63] ∈ [[x61]; [x62]; [x63]].
Proof.
  pose (h := leafHash toy_hash).
  pose (sp := mkProof 3 1 (h [x62]) [h [x61]; h [x63]]).
  pose (sp' := mkProof 2 1 (h [x63]) [innerHash toy_hash (h [x61]) (h [x62])]).
  pose (root := innerHash toy_hash (innerHash toy_hash (h [x61]) (h [x62])) (h [x63])).
  exists root, sp, sp'.
  assert (HashFromByteSlices toy_hash [[x61]; [x62]; [x63]] = Ok root) as H1
    by (vm_compute; reflexivity).
  assert (Verify toy_hash sp root [x62] = Ok tt) as H2 by (vm_compute; reflexivity).
  assert (Verify toy_hash sp' root [x63] = Ok tt) as H3 by (vm_compute; reflexivity).
  assert (Z.of_nat (length [[x61]; [x62]; [x63]]) ≤ MaxInt64)%Z as Hm by (cbn; unfold_ints; lia).
  split; [exact H1|]. split; [exact H2|]. split; [reflexivity|]. split.
  - refine (proj2 (proj2 (verify_sound toy_hash [[x61]; [x62]; [x63]] root sp [x62] toy_hash_len Hm H1 H2 _) eq_refl)).
    apply no_collision_decide. vm_compute. reflexivity.
  - split; [exact H3|]. split; [reflexivity|].
    refine (proj1 (verify_sound toy_hash [[x61]; [x62]; [x63]] root sp' [x63] toy_hash_len Hm H1 H3 _)).
    apply no_collision_decide. vm_compute. reflexivity.
Defined.

End merkle.
