(* ===== verification/PartSet.v ===== *)
(** * types: block parts

    Models [src/types/part_set.go]: splitting block bytes into parts, collecting
    parts received from peers against a header, and reading a complete set back.
    [uint32] fields wrap as in Go.  The mutex is not modelled (every method holds
    it for its whole body). *)
From Stdlib Require Import ZArith Lia Init.Byte.
From stdpp Require Import base numbers list sets.
From S2P Require Import Prelude.
From S2P Require Import SafeMath.
From S2P Require Import BitArray.
From S2P Require Import Merkle.

Module partset.

Inductive partset_error :=
  | ErrPartSetUnexpectedIndex
  | ErrPartSetInvalidProof
  | ErrPartSetIndexMismatch
  | ErrPartTooBig
  | ErrWrongProof (e : merkle.merkle_error)
  | ErrTooManyParts
  | ErrWrongHash.

Notation res := (outcome partset_error).

Definition BlockPartSizeBytes : Z := 65536.
Definition MaxBlockSizeBytes : Z := 104857600.
Definition MaxBlockPartsCount : Z := MaxBlockSizeBytes / BlockPartSizeBytes + 1.

Record Part := mkPart { Part_Index : Z; Part_Bytes : bytes; Part_Proof : merkle.Proof }.

Definition Part_ValidateBasic (part : Part) : res unit :=
  if (Z.of_nat (length (Part_Bytes part)) >? BlockPartSizeBytes)%Z then Err ErrPartTooBig
  else
    _ ← wrap_err ErrWrongProof (merkle.ValidateBasic (Part_Proof part));
    if negb (Part_Index part =? merkle.Index (Part_Proof part))%Z
    then Err ErrPartSetIndexMismatch else Ok tt.

Record PartSetHeader := mkPSH { PSH_Total : Z; PSH_Hash : bytes }.

Global Instance PartSetHeader_eq_dec : EqDecision PartSetHeader.
Proof. solve_decision. Defined.

Definition PSH_IsZero (psh : PartSetHeader) : bool :=
  (PSH_Total psh =? 0)%Z && bool_decide (PSH_Hash psh = []).

Definition PSH_Equals (psh other : PartSetHeader) : bool :=
  (PSH_Total psh =? PSH_Total other)%Z && bool_decide (PSH_Hash psh = PSH_Hash other).

(** [ValidateHash] of types/validation.go. *)
Definition ValidateHash (h : bytes) : bool :=
  (length h =? 0) || (length h =? 32).

Definition PSH_ValidateBasic (psh : PartSetHeader) : res unit :=
  if (PSH_Total psh >? MaxBlockPartsCount)%Z then Err ErrTooManyParts
  else if ValidateHash (PSH_Hash psh) then Ok tt else Err ErrWrongHash.

Record PartSet := mkPS {
  total : Z;
  hash : bytes;
  parts : list (option Part);
  partsBitArray : option bits.BitArray;
  count : Z;
  byteSize : Z }.

(** A panic inside a bit array operation is a panic here; the operations used
    return no error. *)
Definition from_bits {A} (m : outcome bits.bits_error A) : res A :=
  match m with Ok a => Ok a | _ => Panic end.
Definition from_merkle {A} (m : outcome merkle.merkle_error A) : res A :=
  match m with Ok a => Ok a | _ => Panic end.

(** [data[lo:hi]]. *)
Definition slice (data : bytes) (lo hi : Z) : res bytes :=
  if ((lo <? 0) || (hi <? lo) || (Z.of_nat (length data) <? hi))%Z then Panic
  else Ok (take (Z.to_nat (hi - lo)) (drop (Z.to_nat lo) data)).

(** The loop that cuts [data] into parts and fills the bit array. *)
Fixpoint cut_parts (n : nat) (i : Z) (data : bytes) (partSize : Z)
    (ba : option bits.BitArray) : res (list bytes * option bits.BitArray) :=
  match n with
  | O => Ok ([], ba)
  | S n =>
      b ← slice data (uint32 (i * partSize))
            (MinInt (Z.of_nat (length data)) (uint32 (uint32 (i + 1) * partSize)));
      '(ba, _) ← from_bits (bits.SetIndex ba i true);
      '(bs, ba) ← cut_parts n (uint32 (i + 1)) data partSize ba;
      Ok (b :: bs, ba)
  end.

Section sha.
Context (sha256 : bytes → bytes).

Definition NewPartSetFromData (data : bytes) (partSize : Z) : res PartSet :=
  if (partSize =? 0)%Z then Panic
  else
    let total := (uint32 (uint32 (uint32 (Z.of_nat (length data)) + partSize) - 1)
                  / partSize)%Z in
    ba ← from_bits (bits.NewBitArray total);
    '(partsBytes, ba) ← cut_parts (Z.to_nat total) 0 data partSize ba;
    '(root, proofs) ← from_merkle (merkle.ProofsFromByteSlices sha256 partsBytes);
    let parts := zip_with (λ (ib : Z * bytes) p, Some (mkPart ib.1 ib.2 p))
                   (zip (seqZ 0 total) partsBytes) proofs in
    Ok (mkPS total root parts ba total (Z.of_nat (length data))).

Definition NewPartSetFromHeader (header : PartSetHeader) : res PartSet :=
  ba ← from_bits (bits.NewBitArray (PSH_Total header));
  Ok (mkPS (PSH_Total header) (PSH_Hash header)
        (replicate (Z.to_nat (PSH_Total header)) None) ba 0 0).

Definition Header (ps : option PartSet) : PartSetHeader :=
  match ps with None => mkPSH 0 [] | Some ps => mkPSH (total ps) (hash ps) end.

Definition HasHeader (ps : option PartSet) (header : PartSetHeader) : bool :=
  match ps with None => false | Some _ => PSH_Equals (Header ps) header end.

Definition AddPart (ps : option PartSet) (part : Part) : res (option PartSet * bool) :=
  match ps with
  | None => Ok (None, false)
  | Some ps =>
      if (Part_Index part >=? total ps)%Z then Err ErrPartSetUnexpectedIndex
      else if negb (Part_Index part =? merkle.Index (Part_Proof part))%Z
      then Err ErrPartSetIndexMismatch
      else
        slot ← index (parts ps) (Part_Index part);
        match slot with
        | Some _ => Ok (Some ps, false)
        | None =>
            match merkle.Verify sha256 (Part_Proof part) (hash ps) (Part_Bytes part) with
            | Panic => Panic
            | Err _ => Err ErrPartSetInvalidProof
            | Ok _ =>
                parts' ← set_index (parts ps) (Part_Index part) (Some part);
                '(ba, _) ← from_bits (bits.SetIndex (partsBitArray ps) (Part_Index part) true);
                Ok (Some (mkPS (total ps) (hash ps) parts' ba
                            (uint32 (count ps + 1))
                            (int64 (byteSize ps + Z.of_nat (length (Part_Bytes part))))),
                    true)
            end
        end
  end.

Definition IsComplete (ps : PartSet) : bool := (count ps =? total ps)%Z.

(** ** Reading a complete set *)

(** The unread bytes of the [bytes.Reader] of the current part. *)
Record PartSetReader := mkPSR { psr_i : nat; psr_parts : list (option Part); psr_rest : bytes }.

Definition NewPartSetReader (parts : list (option Part)) : res PartSetReader :=
  p ← deref (parts !! 0); p ← deref p; Ok (mkPSR 0 parts (Part_Bytes p)).

Definition GetReader (ps : PartSet) : res PartSetReader :=
  if negb (IsComplete ps) then Panic else NewPartSetReader (parts ps).

(** [bytes.Reader.Read] into a buffer of [n] bytes: the data and whether it
    returned [io.EOF]. *)
Definition reader_Read (rest : bytes) (n : nat) : bytes * bool * bytes :=
  match rest with
  | [] => ([], true, [])
  | _ => (take n rest, false, drop n rest)
  end.

(** [Read] into a buffer of [n] bytes. *)
Fixpoint Read (fuel : nat) (psr : PartSetReader) (n : nat) : res (bytes * bool * PartSetReader) :=
  match fuel with
  | O => Panic
  | S fuel =>
      let readerLen := length (psr_rest psr) in
      if n <=? readerLen then
        let '(d, eof, rest) := reader_Read (psr_rest psr) n in
        Ok (d, eof, mkPSR (psr_i psr) (psr_parts psr) rest)
      else if 0 <? readerLen then
        '(d1, eof, psr) ← Read fuel psr readerLen;
        if (eof : bool) then Ok (d1, true, psr)
        else
          '(d2, eof, psr) ← Read fuel psr (n - readerLen);
          Ok (d1 ++ d2, eof, psr)
      else
        let i := S (psr_i psr) in
        if length (psr_parts psr) <=? i then Ok ([], true, mkPSR i (psr_parts psr) [])
        else
          p ← deref (psr_parts psr !! i); p ← deref p;
          Read fuel (mkPSR i (psr_parts psr) (Part_Bytes p)) n
  end.

(** Enough fuel for [Read]: two levels per part and one for the current bytes. *)
Definition read_fuel (psr : PartSetReader) : nat := 2 * length (psr_parts psr) + 3.

(** [io.ReadAll] with buffers of the sizes [ns]. *)
Fixpoint ReadAll (psr : PartSetReader) (ns : list nat) : res (bytes * bool) :=
  match ns with
  | [] => Ok ([], false)
  | n :: ns =>
      '(d, eof, psr) ← Read (read_fuel psr) psr n;
      if (eof : bool) then Ok (d, true)
      else '(d', eof) ← ReadAll psr ns; Ok (d ++ d', eof)
  end.

(** ** Reading *)

Definition part_bytes (o : option Part) : bytes :=
  match o with Some p => Part_Bytes p | None => [] end.

(** The bytes a reader has not delivered yet. *)
Definition pending (psr : PartSetReader) : bytes :=
  psr_rest psr ++ List.concat (map part_bytes (drop (S (psr_i psr)) (psr_parts psr))).

Definition all_present (l : list (option Part)) : Prop := Forall is_Some l.

Lemma pending_next psr p :
  psr_rest psr = [] → psr_parts psr !! S (psr_i psr) = Some (Some p) →
  pending (mkPSR (S (psr_i psr)) (psr_parts psr) (Part_Bytes p)) = pending psr.
Proof. intros Hr Hp. unfold pending. cbn. by rewrite Hr, (drop_S _ _ _ Hp). Qed.

Lemma Read_current fuel psr n :
  n ≤ length (psr_rest psr) → 0 < length (psr_rest psr) →
  Read (S fuel) psr n =
    Ok (take n (psr_rest psr), false,
        mkPSR (psr_i psr) (psr_parts psr) (drop n (psr_rest psr))).
Proof.
  intros Hn Hr. cbn [Read]. destruct (Nat.leb_spec n (length (psr_rest psr))); [|lia].
  by destruct (psr_rest psr); [cbn in Hr; lia|].
Qed.

(** A read that wants more than the current part has takes all of it first. *)
Lemma Read_split fuel psr n :
  0 < length (psr_rest psr) < n →
  Read (S (S fuel)) psr n =
    ('(d2, eof, psr') ← Read (S fuel)
       (mkPSR (psr_i psr) (psr_parts psr) (drop (length (psr_rest psr)) (psr_rest psr)))
       (n - length (psr_rest psr));
     Ok (take (length (psr_rest psr)) (psr_rest psr) ++ d2, eof, psr')).
Proof.
  intros H. remember (S fuel) as f eqn:Ef. cbn [Read].
  destruct (Nat.leb_spec n (length (psr_rest psr))); [lia|].
  destruct (Nat.ltb_spec 0 (length (psr_rest psr))); [|lia].
  subst f. by rewrite Read_current by lia.
Qed.

(** A read delivers the next bytes in order; it reports the end only when fewer
    bytes than asked for are left. *)
Definition reads (fuel : nat) (psr : PartSetReader) (n : nat) : Prop :=
  ∃ psr' eof, Read fuel psr n = Ok (take n (pending psr), eof, psr') ∧
    pending psr' = drop n (pending psr) ∧ psr_parts psr' = psr_parts psr ∧
    (eof = true ↔ length (pending psr) < n).

(** The current part is used up: the next part, or the end. *)
Lemma Read_next fuel psr n :
  all_present (psr_parts psr) → 0 < n → psr_rest psr = [] →
  (∀ p, psr_parts psr !! S (psr_i psr) = Some (Some p) →
    reads fuel (mkPSR (S (psr_i psr)) (psr_parts psr) (Part_Bytes p)) n) →
  reads (S fuel) psr n.
Proof.
  intros Hall Hn Hr Hnext. unfold reads. cbn [Read]. rewrite Hr. cbn [length].
  destruct (Nat.leb_spec n 0); [lia|]. cbn [Nat.ltb Nat.leb].
  destruct (Nat.leb_spec (length (psr_parts psr)) (S (psr_i psr))) as [Hl|Hl].
  - assert (pending psr = []) as Hp by (unfold pending; by rewrite Hr, drop_ge).
    do 2 eexists. rewrite Hp, take_nil, drop_nil.
    split; [done|]. split; [|split; [done|cbn; tauto]].
    unfold pending. cbn. by rewrite drop_ge by lia.
  - destruct (lookup_lt_is_Some_2 (psr_parts psr) (S (psr_i psr)) Hl) as [o Ho].
    destruct (Forall_lookup_1 _ _ _ _ Hall Ho) as [p ->].
    specialize (Hnext p Ho). unfold reads in Hnext. rewrite (pending_next psr p) in Hnext by done.
    by rewrite Ho.
Qed.

Lemma Read_spec fuel psr n :
  all_present (psr_parts psr) → 0 < n →
  2 * (length (psr_parts psr) - psr_i psr) + 2 ≤ fuel → reads fuel psr n.
Proof.
  remember (length (psr_parts psr) - psr_i psr) as k eqn:Hk.
  revert fuel psr n Hk. induction k as [k IH] using lt_wf_ind.
  intros fuel psr n Hk Hall Hn Hf.
  assert (∀ fuel psr m, k = length (psr_parts psr) - psr_i psr →
    all_present (psr_parts psr) → 0 < m → 2 * k + 1 ≤ fuel → psr_rest psr = [] →
    reads fuel psr m) as Hempty.
  { clear fuel psr n Hk Hall Hn Hf. intros [|fuel] psr m Hk Hall Hm Hf Hr; [lia|].
    apply Read_next; [done..|]. intros p Hp. apply lookup_lt_Some in Hp as Hl.
    apply (IH (length (psr_parts psr) - S (psr_i psr))); cbn; done || lia. }
  destruct (decide (psr_rest psr = [])) as [Hr|Hr]; [apply Hempty; (lia || done)|].
  assert (0 < length (psr_rest psr)) as Hpos by (destruct (psr_rest psr); [done|cbn; lia]).
  destruct fuel as [|fuel]; [lia|].
  destruct (decide (n ≤ length (psr_rest psr))) as [Hle|Hgt].
  - unfold reads. rewrite Read_current by done. do 2 eexists. unfold pending. cbn.
    rewrite take_app_le, drop_app_le, length_app by done.
    split_and!; try done. lia.
  - destruct fuel as [|fuel]; [lia|]. set (m := length (psr_rest psr)) in *.
    destruct (Hempty (S fuel) (mkPSR (psr_i psr) (psr_parts psr) (drop m (psr_rest psr)))
      (n - m)) as (psr' & eof & E & Hp & Hps & He); [done|done|lia|lia|by apply drop_ge|].
    unfold reads. rewrite Read_split by (fold m; lia). fold m. rewrite E. orun.
    assert (pending psr = psr_rest psr ++
      pending (mkPSR (psr_i psr) (psr_parts psr) (drop m (psr_rest psr)))) as Hpend
      by (unfold pending; cbn; by rewrite (drop_ge (psr_rest psr))).
    rewrite Hpend. do 2 eexists. split; [|split; [|split; [done|]]].
    + rewrite (take_ge (psr_rest psr)) by done. by rewrite take_app_ge by (fold m; lia).
    + by rewrite drop_app_ge by (fold m; lia).
    + rewrite He, length_app. fold m. lia.
Qed.

Lemma ReadAll_spec psr ns :
  all_present (psr_parts psr) → Forall (λ n, 0 < n) ns → length (pending psr) < length ns →
  ReadAll psr ns = Ok (pending psr, true).
Proof.
  intros Hall Hns. revert psr Hall. induction Hns as [|n ns Hn _ IH];
    intros psr Hall Hl; [cbn in Hl; lia|]. cbn [ReadAll length] in *.
  destruct (Read_spec (read_fuel psr) psr n Hall Hn) as (psr' & eof & -> & Hp & Hps & He);
    [unfold read_fuel; lia|]. orun. destruct eof.
  - by rewrite take_ge by (apply Nat.lt_le_incl; tauto).
  - rewrite (IH psr') by (rewrite ?Hps, ?Hp, ?length_drop; done || lia).
    orun. by rewrite Hp, take_drop.
Qed.

(** ** The invariant of a part set *)

Definition sizes (l : list (option Part)) : Z :=
  foldr Z.add 0%Z (map (λ o, Z.of_nat (length (part_bytes o))) l).

(** The bit array has one bit per slot, set where the slot is filled. *)
Definition bits_match {A} (ba : option bits.BitArray) (l : list (option A)) : Prop :=
  match ba with
  | None => l = []
  | Some b => bits.wf b ∧ bits.clean b ∧ bits.Bits b = Z.of_nat (length l) ∧ 0 < length l ∧
      ∀ i o, l !! i = Some o → bits.get b (Z.of_nat i) = bool_decide (is_Some o)
  end.

Record ps_inv (ps : PartSet) : Prop := {
  inv_total : (0 ≤ total ps ≤ MaxUint32)%Z;
  inv_len : Z.of_nat (length (parts ps)) = total ps;
  inv_count : count ps = Z.of_nat (length (filter is_Some (parts ps)));
  inv_bits : bits_match (partsBitArray ps) (parts ps);
  inv_size : byteSize ps = int64 (sizes (parts ps));
  inv_parts : ∀ i p, parts ps !! i = Some (Some p) →
    Part_Index p = Z.of_nat i ∧ merkle.Index (Part_Proof p) = Z.of_nat i ∧
    merkle.Verify sha256 (Part_Proof p) (hash ps) (Part_Bytes p) = Ok tt }.

Lemma filter_insert_Some {A} (l : list (option A)) i x :
  l !! i = Some None →
  length (filter is_Some (<[i:=Some x]> l)) = S (length (filter is_Some l)).
Proof.
  revert i. induction l as [|o l IH]; intros [|i] Hi; [done..| |].
  - injection Hi as ->. by rewrite !filter_cons.
  - cbn in Hi. cbn [insert list_insert]. rewrite !filter_cons.
    destruct (decide (is_Some o)); cbn [length]; by rewrite IH.
Qed.

Lemma sizes_cons o l : sizes (o :: l) = (Z.of_nat (length (part_bytes o)) + sizes l)%Z.
Proof. done. Qed.

Lemma sizes_insert l i p :
  l !! i = Some None →
  sizes (<[i:=Some p]> l) = (sizes l + Z.of_nat (length (Part_Bytes p)))%Z.
Proof.
  revert i. induction l as [|o l IH]; intros [|i] Hi; [done..| |].
  - injection Hi as ->. cbn [insert list_insert]. rewrite !sizes_cons. cbn [part_bytes length].
    lia.
  - cbn in Hi. cbn [insert list_insert]. rewrite !sizes_cons, IH by done. lia.
Qed.

Lemma bits_match_insert {A} ba (l : list (option A)) i p :
  bits_match ba l → (Z.of_nat (length l) ≤ MaxUint32)%Z → i < length l →
  ∃ ba', bits.SetIndex ba (Z.of_nat i) true = Ok (ba', true) ∧
    bits_match ba' (<[i:=Some p]> l).
Proof.
  intros Hm Hlen Hi. destruct ba as [b|]; cbn in Hm; [|subst; cbn in Hi; lia].
  destruct Hm as (Hw & Hc & HB & Hpos & Hg). cbn [bits.SetIndex].
  destruct (bits.setIndex_spec b (Z.of_nat i) true Hw Hc)
    as (b' & -> & Hw' & Hc' & HB' & Hg').
  destruct (Z.leb_spec 0 (Z.of_nat i)); [|lia].
  destruct (Z.ltb_spec (Z.of_nat i) (bits.Bits b)); [|lia]. orun.
  eexists. split; [done|]. cbn. rewrite length_insert.
  split_and!; [done|done|congruence|done|]. intros k o Hk. rewrite Hg'.
  destruct (decide (k = i)) as [->|Hne].
  - rewrite list_lookup_insert_eq in Hk by done. injection Hk as <-.
    by destruct (decide _); [|lia].
  - rewrite list_lookup_insert_ne in Hk by done.
    destruct (decide _); [lia|]. by apply Hg.
Qed.

(** The effect of adding [part] at the free slot [i]. *)
Lemma AddPart_inv ps part i ba :
  ps_inv ps → parts ps !! i = Some None → Part_Index part = Z.of_nat i →
  merkle.Index (Part_Proof part) = Z.of_nat i →
  merkle.Verify sha256 (Part_Proof part) (hash ps) (Part_Bytes part) = Ok tt →
  bits_match ba (<[i:=Some part]> (parts ps)) →
  ps_inv (mkPS (total ps) (hash ps) (<[i:=Some part]> (parts ps)) ba
    (uint32 (count ps + 1)) (int64 (byteSize ps + Z.of_nat (length (Part_Bytes part))))).
Proof.
  intros [It Il Ic Ib Is Ip] Hi Hpi Hpr Hv Hba.
  constructor; cbn [total hash parts partsBitArray count byteSize]; try done.
  - by rewrite length_insert.
  - rewrite filter_insert_Some by done. rewrite Ic, uwrap_id; [lia|].
    assert (length (filter is_Some (parts ps)) < length (parts ps)).
    { pose proof (length_filter is_Some (<[i:=Some part]> (parts ps))) as Hf.
      rewrite filter_insert_Some, length_insert in Hf by done. lia. }
    unfold_ints. lia.
  - rewrite sizes_insert, Is by done. apply int64_add_l.
  - intros k p Hk. destruct (decide (k = i)) as [->|Hne].
    + rewrite list_lookup_insert_eq in Hk by (by eapply lookup_lt_Some).
      by injection Hk as <-.
    + rewrite list_lookup_insert_ne in Hk by done. by apply Ip.
Qed.

(** ** Splitting block bytes *)

Definition chunk (data : bytes) (sz i : nat) : bytes := take sz (drop (i * sz) data).

Lemma chunks_concat data sz n k :
  length data ≤ k * sz + n * sz →
  List.concat (map (chunk data sz) (seq k n)) = drop (k * sz) data.
Proof.
  revert k. induction n as [|n IH]; intros k Hl; cbn [seq map].
  - rewrite drop_ge by lia. done.
  - rewrite List.concat_cons, (IH (S k)) by lia. unfold chunk.
    rewrite <- (take_drop sz (drop (k * sz) data)) at 2. rewrite drop_drop.
    do 2 f_equal. lia.
Qed.

Lemma cut_parts_spec n (k : nat) data sz ba ps :
  (0 < sz)%Z → (Z.of_nat (length data) + sz ≤ MaxUint32)%Z →
  (Z.of_nat n = 0 ∨ (Z.of_nat (k + n) - 1) * sz < Z.of_nat (length data))%Z →
  bits_match (A:=Part) ba ps → k + n = length ps → (Z.of_nat (length ps) ≤ MaxUint32)%Z →
  (∀ i, k ≤ i < k + n → ps !! i = Some None) →
  ∀ qs, length qs = n →
  ∃ ba', cut_parts n (Z.of_nat k) data sz ba =
      Ok (map (chunk data (Z.to_nat sz)) (seq k n), ba') ∧
    bits_match ba' (take k ps ++ map Some qs).
Proof.
  intros Hsz Hd. revert k ba ps. induction n as [|n IH];
    intros k ba ps Hk Hm Hlen Hmax Hfree qs Hqs.
  { destruct qs; [|done]. exists ba. cbn. rewrite app_nil_r, take_ge by lia. done. }
  destruct qs as [|q qs]; [done|]. injection Hqs as Hqs. cbn [cut_parts].
  assert (Z.of_nat k * sz < Z.of_nat (length data))%Z as Hlow by nia.
  rewrite (uwrap_id 32 (Z.of_nat k * sz)) by (unfold_ints; nia).
  rewrite (uwrap_id 32 (Z.of_nat k + 1)) by (unfold_ints; nia).
  rewrite (uwrap_id 32 ((Z.of_nat k + 1) * sz)) by (unfold_ints; nia).
  rewrite bits.MinInt_min. unfold slice.
  destruct (Z.ltb_spec (Z.of_nat k * sz) 0); [nia|].
  destruct (Z.ltb_spec (Z.min (Z.of_nat (length data)) ((Z.of_nat k + 1) * sz))
    (Z.of_nat k * sz)); [nia|].
  destruct (Z.ltb_spec (Z.of_nat (length data))
    (Z.min (Z.of_nat (length data)) ((Z.of_nat k + 1) * sz))); [lia|]. cbn [orb]. orun.
  destruct (bits_match_insert ba ps k q Hm Hmax ltac:(lia)) as (ba1 & -> & Hm1).
  cbn [from_bits]. orun.
  destruct (IH (S k) ba1 (<[k:=Some q]> ps)) with (qs := qs) as (ba2 & E & Hm2);
    rewrite ?length_insert; try done; try lia.
  { intros i Hi. rewrite list_lookup_insert_ne by lia. apply Hfree. lia. }
  replace (Z.of_nat k + 1)%Z with (Z.of_nat (S k)) by lia.
  rewrite E. orun. exists ba2. split.
  - cbn [seq map]. do 3 f_equal. unfold chunk.
    replace (Z.to_nat (Z.of_nat k * sz)) with (k * Z.to_nat sz) by nia.
    destruct (decide (Z.of_nat (S k) * sz ≤ Z.of_nat (length data))%Z).
    + f_equal. nia.
    + rewrite !take_ge; [done| |]; rewrite length_drop; nia.
  - rewrite (take_S_r _ _ (Some q)), <- app_assoc in Hm2
      by (apply list_lookup_insert_eq; lia).
    by rewrite take_insert_ge in Hm2 by lia.
Qed.

Lemma NewBitArray_match {A} n :
  n ≤ Z.to_nat MaxUint32 →
  ∃ ba, bits.NewBitArray (Z.of_nat n) = Ok ba ∧ bits_match (A:=A) ba (replicate n None).
Proof.
  intros Hn. unfold bits.NewBitArray. destruct (Z.leb_spec (Z.of_nat n) 0).
  { exists None. split; [done|]. by destruct n; [|lia]. }
  destruct (bits.reset_spec (Z.of_nat n)) as (b & -> & Hw & Hc & HB & Hr);
    [unfold_ints; lia|]. orun. eexists. split; [done|]. cbn.
  rewrite length_replicate. split_and!; [done|done|done|lia|].
  intros i o Ho. apply lookup_replicate in Ho as [-> Hi].
  rewrite bits.get_raw by lia. by rewrite Hr.
Qed.

(** The part the code builds for index [i]. *)
Definition the_parts (items : list bytes) (proofs : list merkle.Proof) (n : Z) :
    list (option Part) :=
  zip_with (λ (ib : Z * bytes) p, Some (mkPart ib.1 ib.2 p)) (zip (seqZ 0 n) items) proofs.

Lemma the_parts_lookup items proofs n i x sp :
  Z.of_nat (length items) = n → items !! i = Some x → proofs !! i = Some sp →
  the_parts items proofs n !! i = Some (Some (mkPart (Z.of_nat i) x sp)).
Proof.
  intros Hn Hx Hsp. unfold the_parts. rewrite lookup_zip_with, lookup_zip_with.
  rewrite lookup_seqZ_lt, Hx, Hsp by (apply lookup_lt_Some in Hx; lia). done.
Qed.

Lemma the_parts_length items proofs n :
  Z.of_nat (length items) = n → length proofs = length items →
  length (the_parts items proofs n) = length items.
Proof.
  intros Hn Hp. unfold the_parts.
  rewrite length_zip_with, length_zip_with, length_seqZ. lia.
Qed.

Lemma all_present_map l : all_present l → ∃ qs, l = map Some qs.
Proof.
  induction 1 as [|o l [p ->] _ [qs ->]]; [by exists []|]. by exists (p :: qs).
Qed.

Lemma filter_all_present l : all_present l → filter is_Some l = l.
Proof.
  induction 1 as [|o l Ho _ IH]; [done|]. rewrite filter_cons.
  destruct (decide (is_Some o)); [by rewrite IH|done].
Qed.

Lemma sizes_concat l : sizes l = Z.of_nat (length (List.concat (map part_bytes l))).
Proof.
  induction l as [|o l IH]; [done|].
  rewrite sizes_cons, IH. cbn. rewrite length_app. lia.
Qed.

(** What [NewPartSetFromData] makes: a complete set whose parts concatenate to
    the data and carry verifying proofs for the root of their bytes. *)
Record full_set (data : bytes) (ps : PartSet) : Prop := {
  fs_inv : ps_inv ps;
  fs_complete : count ps = total ps;
  fs_present : all_present (parts ps);
  fs_data : List.concat (map part_bytes (parts ps)) = data;
  fs_root : merkle.is_root sha256 (map part_bytes (parts ps)) (hash ps);
  fs_totals : ∀ i p, parts ps !! i = Some (Some p) →
    merkle.Total (Part_Proof p) = total ps }.

Lemma full_set_intro data items proofs root ba :
  items ≠ [] → (Z.of_nat (length items) ≤ MaxUint32)%Z → in_int64 (Z.of_nat (length data)) →
  List.concat items = data → merkle.is_root sha256 items root →
  length proofs = length items →
  (∀ i x, items !! i = Some x → ∃ A, merkle.trail sha256 items i A ∧
    proofs !! i = Some (merkle.mkProof (Z.of_nat (length items)) (Z.of_nat i)
      (merkle.leafHash sha256 x) A)) →
  bits_match ba (the_parts items proofs (Z.of_nat (length items))) →
  full_set data (mkPS (Z.of_nat (length items)) root
    (the_parts items proofs (Z.of_nat (length items))) ba (Z.of_nat (length items))
    (Z.of_nat (length data))).
Proof.
  intros Hne Hmax Hd Hcat Hroot Hlp Hpr Hba.
  set (n := Z.of_nat (length items)) in *. set (ps := the_parts items proofs n) in *.
  assert (length ps = length items) as Hlen by (by apply the_parts_length).
  assert (∀ i o, ps !! i = Some o → ∃ x A, items !! i = Some x ∧
    merkle.trail sha256 items i A ∧ o = Some (mkPart (Z.of_nat i) x
      (merkle.mkProof n (Z.of_nat i) (merkle.leafHash sha256 x) A))) as Hlk.
  { intros i o Ho. destruct (lookup_lt_is_Some_2 items i) as [x Hx].
    { apply lookup_lt_Some in Ho. lia. }
    destruct (Hpr i x Hx) as (A & HA & Hsp). exists x, A. split; [done|]. split; [done|].
    unfold ps in Ho. rewrite (the_parts_lookup items proofs n i x _ eq_refl Hx Hsp) in Ho.
    by injection Ho. }
  assert (all_present ps) as Hall.
  { apply Forall_lookup_2. intros i o Ho.
    destruct (Hlk i o Ho) as (x & A & _ & _ & ->). eauto. }
  assert (map part_bytes ps = items) as Hmap.
  { apply list_eq_same_length with (length items); [done|by rewrite length_map|].
    intros i b x Hi Hb Hx. rewrite list_lookup_fmap in Hb.
    destruct (ps !! i) as [o|] eqn:Ho; [|done].
    destruct (Hlk i o Ho) as (x' & A & Hx' & _ & ->). cbn in Hb. congruence. }
  constructor; cbn [total hash parts partsBitArray count byteSize];
    [constructor; cbn [total hash parts partsBitArray count byteSize]|..]; try done.
  - lia.
  - lia.
  - by rewrite filter_all_present, Hlen.
  - rewrite sizes_concat, Hmap, Hcat, int64_id; done.
  - intros i p Hi. destruct (Hlk i _ Hi) as (x & A & Hx & HA & [= ->]). cbn.
    split; [done|]. split; [done|].
    apply merkle.trail_verifies; [done..|]. fold n. unfold_ints. lia.
  - by rewrite Hmap.
  - by rewrite Hmap.
  - intros i p Hi. by destruct (Hlk i _ Hi) as (x & A & _ & _ & [= ->]).
Qed.

Lemma NewPartSetFromData_full data sz :
  data ≠ [] → (0 < sz)%Z → (Z.of_nat (length data) + sz ≤ MaxUint32)%Z →
  ∃ ps, NewPartSetFromData data sz = Ok ps ∧ full_set data ps.
Proof.
  intros Hne Hsz Hmax. unfold NewPartSetFromData.
  destruct (Z.eqb_spec sz 0) as [|_]; [lia|].
  assert (0 < length data) by (destruct data; [done|cbn; lia]).
  rewrite (uwrap_id 32 (Z.of_nat (length data))) by (unfold_ints; lia).
  rewrite (uwrap_id 32 (Z.of_nat (length data) + sz)) by (unfold_ints; lia).
  rewrite uwrap_id by (unfold_ints; lia).
  set (t := ((Z.of_nat (length data) + sz - 1) / sz)%Z).
  assert ((t - 1) * sz < Z.of_nat (length data) ≤ t * sz)%Z as Ht.
  { pose proof (Z.div_mod (Z.of_nat (length data) + sz - 1) sz ltac:(lia)) as Hdm.
    pose proof (Z.mod_pos_bound (Z.of_nat (length data) + sz - 1) sz Hsz).
    fold t in Hdm. nia. }
  assert (0 < t ≤ MaxUint32)%Z as Hpos by (unfold_ints; nia).
  assert (∃ n, t = Z.of_nat n) as [n Etn] by (exists (Z.to_nat t); lia).
  clearbody t. subst t.
  destruct (NewBitArray_match (A:=Part) n) as (ba & Eba & Hba); [unfold_ints; lia|].
  rewrite Eba, Nat2Z.id. cbn [from_bits]. orun.
  set (items := map (chunk data (Z.to_nat sz)) (seq 0 n)).
  assert (length items = n) as Hli by (unfold items; by rewrite length_map, length_seq).
  assert (items ≠ []) as Hine by (intros E; rewrite E in Hli; cbn in Hli; lia).
  destruct (merkle.ProofsFromByteSlices_trails sha256 items)
    as (root & proofs & Epr & Hroot & Hlp & Hpr); [done|unfold_ints; lia|].
  destruct (all_present_map (the_parts items proofs (Z.of_nat n))) as [qs Hqs].
  { apply Forall_lookup_2. intros i o. unfold the_parts. rewrite lookup_zip_with.
    intros (? & _ & Ho)%bind_Some. apply bind_Some in Ho as (? & _ & [= <-]). eauto. }
  assert (length qs = n) as Hlq.
  { rewrite <- (length_map Some), <- Hqs, the_parts_length; lia. }
  destruct (cut_parts_spec n 0 data sz ba (replicate n None)) with (qs := qs)
    as (ba' & Ecut & Hba'); rewrite ?length_replicate; try done; try lia.
  { intros i Hi. apply lookup_replicate_2. lia. }
  change (Z.of_nat 0) with 0%Z in Ecut. rewrite Ecut. orun. fold items. rewrite Epr.
  cbn [from_merkle]. orun. eexists. split; [done|].
  assert (List.concat items = data) as Hcat
    by (unfold items; rewrite chunks_concat by nia; by rewrite drop_0).
  pose proof (full_set_intro data items proofs root ba') as Hfs. rewrite Hli in Hfs.
  apply Hfs; try done; [lia|unfold_ints; lia|by rewrite Hlp|by rewrite <- Hli|].
  by rewrite Hqs.
Qed.

Lemma reader_pending ps :
  all_present (parts ps) → parts ps ≠ [] → count ps = total ps →
  ∃ psr, GetReader ps = Ok psr ∧ psr_parts psr = parts ps ∧
    pending psr = List.concat (map part_bytes (parts ps)).
Proof.
  intros Hall Hne Hc. unfold GetReader, IsComplete. rewrite Hc, Z.eqb_refl. cbn [negb].
  unfold NewPartSetReader. destruct (parts ps) as [|o l]; [done|].
  apply Forall_cons in Hall as [[p ->] _]. cbn. eauto.
Qed.

(** Verifying parts added one after the other; a rejected part is dropped. *)
Fixpoint add_parts (ps : PartSet) (l : list Part) : res PartSet :=
  match l with
  | [] => Ok ps
  | p :: l =>
      match AddPart (Some ps) p with
      | Ok (Some ps', _) => add_parts ps' l
      | Ok (None, _) | Panic => Panic
      | Err _ => add_parts ps l
      end
  end.

(** What [AddPart] does to [ps], on every branch. *)
Definition AddPart_post (ps : PartSet) (part : Part) : Prop :=
  match AddPart (Some ps) part with
  | Panic | Ok (None, _) => False
  | Err ErrPartSetUnexpectedIndex => (total ps ≤ Part_Index part)%Z
  | Err ErrPartSetIndexMismatch =>
      (Part_Index part < total ps)%Z ∧ Part_Index part ≠ merkle.Index (Part_Proof part)
  | Err ErrPartSetInvalidProof =>
      parts ps !! Z.to_nat (Part_Index part) = Some None ∧
      merkle.Verify sha256 (Part_Proof part) (hash ps) (Part_Bytes part) ≠ Ok tt
  | Err _ => False
  | Ok (Some ps', false) =>
      ps' = ps ∧ ∃ p, parts ps !! Z.to_nat (Part_Index part) = Some (Some p)
  | Ok (Some ps', true) =>
      ps_inv ps' ∧ total ps' = total ps ∧ hash ps' = hash ps ∧
      parts ps !! Z.to_nat (Part_Index part) = Some None ∧
      parts ps' = <[Z.to_nat (Part_Index part) := Some part]> (parts ps) ∧
      merkle.Index (Part_Proof part) = Part_Index part ∧
      merkle.Verify sha256 (Part_Proof part) (hash ps) (Part_Bytes part) = Ok tt
  end.

Lemma AddPart_cases ps part : ps_inv ps → (0 ≤ Part_Index part)%Z → AddPart_post ps part.
Proof.
  intros Hinv Hpos. unfold AddPart_post, AddPart.
  destruct (Z.geb_spec (Part_Index part) (total ps)) as [Hge|Hlt]; [lia|].
  destruct (Z.eqb_spec (Part_Index part) (merkle.Index (Part_Proof part)))
    as [Eidx|Nidx]; cbn [negb]; [|done].
  pose proof (inv_len _ Hinv) as Hlen. pose proof (inv_total _ Hinv) as Htot.
  assert (∃ i, Part_Index part = Z.of_nat i) as [i Ei]
    by (exists (Z.to_nat (Part_Index part)); lia).
  rewrite Ei, Nat2Z.id in *.
  destruct (lookup_lt_is_Some_2 (parts ps) i) as [o Ho]; [lia|].
  rewrite (index_Ok _ _ _ Ho). orun. destruct o as [p|]; [by eauto|].
  destruct (merkle.Verify sha256 (Part_Proof part) (hash ps) (Part_Bytes part))
    as [[]|e|] eqn:Ev.
  - rewrite set_index_Ok by lia. orun.
    destruct (bits_match_insert _ _ i part (inv_bits _ Hinv)) as (ba & -> & Hba); [lia..|].
    cbn [from_bits]. orun. cbn [total hash parts].
    split; [|done]. by apply AddPart_inv.
  - done.
  - by apply merkle.Verify_no_panic in Ev.
Qed.

Lemma NewPartSetFromHeader_inv header :
  (0 ≤ PSH_Total header ≤ MaxUint32)%Z →
  ∃ ps, NewPartSetFromHeader header = Ok ps ∧ ps_inv ps ∧
    total ps = PSH_Total header ∧ hash ps = PSH_Hash header ∧
    parts ps = replicate (Z.to_nat (PSH_Total header)) None.
Proof.
  intros Ht. unfold NewPartSetFromHeader.
  destruct (NewBitArray_match (A:=Part) (Z.to_nat (PSH_Total header))) as (ba & E & Hba); [lia|].
  rewrite Z2Nat.id in E by lia. rewrite E. cbn [from_bits]. orun. eexists. split; [done|].
  split; [|done]. constructor; cbn [total hash parts partsBitArray count byteSize];
    rewrite ?length_replicate; try done; try lia.
  - clear. induction (Z.to_nat (PSH_Total header)) as [|n IH]; [done|]. cbn [replicate].
    rewrite filter_cons. destruct (decide _) as [[? ?]|]; [done|]. exact IH.
  - clear. by induction (Z.to_nat (PSH_Total header)).
  - intros i p Hi. apply lookup_replicate in Hi as [? _]. done.
Qed.

(** The parts held after a run of [add_parts] are old or among the given ones. *)
Lemma add_parts_spec ps l :
  ps_inv ps → Forall (λ p, (0 ≤ Part_Index p)%Z) l →
  ∃ ps', add_parts ps l = Ok ps' ∧ ps_inv ps' ∧ total ps' = total ps ∧ hash ps' = hash ps ∧
    ∀ i p, parts ps' !! i = Some (Some p) → parts ps !! i = Some (Some p) ∨ p ∈ l.
Proof.
  intros Hinv Hl. revert ps Hinv. induction Hl as [|p l Hp _ IH]; intros ps Hinv.
  { exists ps. split_and!; auto. }
  cbn [add_parts]. pose proof (AddPart_cases ps p Hinv Hp) as Hpost.
  unfold AddPart_post in Hpost.
  destruct (AddPart (Some ps) p) as [[[ps1|] []]|e|]; try done.
  - destruct Hpost as (Hinv1 & Ht & Hh & Hfree & Hparts & _ & _).
    destruct (IH ps1 Hinv1) as (ps' & -> & Hinv' & Ht' & Hh' & Hp').
    exists ps'. split_and!; try done; [congruence..|]. intros i q Hq.
    destruct (Hp' i q Hq) as [Hold|Hin]; [|right; by right]. rewrite Hparts in Hold.
    destruct (decide (i = Z.to_nat (Part_Index p))) as [->|].
    + rewrite list_lookup_insert_eq in Hold by (by eapply lookup_lt_Some).
      injection Hold as <-. right. by left.
    + rewrite list_lookup_insert_ne in Hold by done. by left.
  - destruct Hpost as [-> _]. destruct (IH ps Hinv) as (ps' & -> & ? & ? & ? & Hp').
    exists ps'. split_and!; try done. intros i q Hq.
    destruct (Hp' i q Hq); [by left|right; by right].
  - destruct (IH ps Hinv) as (ps' & -> & ? & ? & ? & Hp').
    exists ps'. split_and!; try done. intros i q Hq.
    destruct (Hp' i q Hq); [by left|right; by right].
Qed.

Lemma complete_present ps : ps_inv ps → count ps = total ps → all_present (parts ps).
Proof.
  intros Hinv Hc. pose proof (inv_count _ Hinv) as Hct. pose proof (inv_len _ Hinv) as Hl.
  assert (length (filter is_Some (parts ps)) = length (parts ps)) as E by lia.
  clear -E. unfold all_present. induction (parts ps) as [|o l IH]; [constructor|].
  rewrite filter_cons in E. pose proof (length_filter is_Some l).
  destruct (decide (is_Some o)); cbn in E; [|lia]. constructor; [done|]. apply IH. lia.
Qed.

End sha.
(** ** Theorems *)

Lemma app_subset {A} (l l1 l2 : list A) : l1 ⊆ l2 → l ++ l1 ⊆ l ++ l2.
Proof. set_solver. Qed.

Lemma concat_subset {A} (l : list A) ls : l ∈ ls → l ⊆ List.concat ls.
Proof.
  intros H x Hx. apply list_elem_of_In, List.in_concat.
  exists l. by rewrite <- !list_elem_of_In.
Qed.

(** Splitting non-empty data into parts of any positive size (within the
    [uint32] range the code computes in) and reading the set back, with read
    buffers of any positive sizes, gives the data. *)
Theorem partset_roundtrip sha256 data sz ns :
  data ≠ [] → (0 < sz)%Z → (Z.of_nat (length data) + sz ≤ MaxUint32)%Z →
  Forall (λ n, 0 < n) ns → length data < length ns →
  (ps ← NewPartSetFromData sha256 data sz; psr ← GetReader ps; ReadAll psr ns)
    = Ok (data, true).
Proof.
  intros Hne Hsz Hmax Hns Hlen.
  destruct (NewPartSetFromData_full sha256 data sz Hne Hsz Hmax) as (ps & -> & Hfs). orun.
  destruct (reader_pending ps) as (psr & -> & Hp & Hpend).
  - apply Hfs.
  - intros E. pose proof (fs_data _ _ _ Hfs) as Hd. by rewrite E in Hd.
  - apply Hfs.
  - orun. rewrite (fs_data _ _ _ Hfs) in Hpend. rewrite <- Hpend.
    apply ReadAll_spec; [rewrite Hp; apply Hfs|done|by rewrite Hpend].
Qed.

Lemma partset_roundtrip_witness :
  (ps ← NewPartSetFromData merkle.toy_hash [x01; x02; x03; x04; x05] 2;
   psr ← GetReader ps; ReadAll psr [3; 1; 2; 7; 1; 1]) = Ok ([x01; x02; x03; x04; x05], true).
Proof.
  apply (partset_roundtrip merkle.toy_hash); [done|lia|cbn; unfold_ints; lia| |cbn; lia].
  repeat constructor; lia.
Defined.

(** [AddPart] on a part set that satisfies the invariant (bit array, count,
    byte size and slots agree; every part held verifies) never panics; it adds the
    part exactly when its index is in range and equal to its proof's index, its
    slot is free and its proof verifies, and then the invariant holds again;
    otherwise the set is unchanged and the error names the failed check. *)
Theorem AddPart_spec sha256 ps part :
  ps_inv sha256 ps → (0 ≤ Part_Index part)%Z → AddPart_post sha256 ps part.
Proof. apply AddPart_cases. Qed.

Lemma AddPart_spec_witness :
  AddPart_post merkle.toy_hash (mkPS 0 [] [] None 0 0)
    (mkPart 0 [] (merkle.mkProof 1 0 [] [])).
Proof.
  apply (AddPart_spec merkle.toy_hash); [|cbn; lia].
  constructor; cbn; unfold_ints; try lia; done.
Defined.

(** A part set made from the header of [data]'s part set, to which any
    sequence of parts whose proofs name the header's total is offered, can be read
    when it is complete, and yields [data]; unless two different strings among
    those hashed by the tree and by the offered proofs have the same digest. *)
Theorem parts_assemble sha256 data sz ps0 ps1 received ps :
  (∀ b, length (sha256 b) = 32) →
  data ≠ [] → (0 < sz)%Z → (Z.of_nat (length data) + sz ≤ MaxUint32)%Z →
  NewPartSetFromData sha256 data sz = Ok ps0 →
  NewPartSetFromHeader (Header (Some ps0)) = Ok ps1 →
  Forall (λ p, (0 ≤ Part_Index p)%Z ∧ merkle.Total (Part_Proof p) = total ps0) received →
  add_parts sha256 ps1 received = Ok ps → IsComplete ps = true →
  merkle.no_collision sha256
    (merkle.tree_inputs sha256 (S (length (parts ps0))) (map part_bytes (parts ps0)) ++
     List.concat (map (λ p, merkle.proof_inputs sha256 (Part_Proof p) (Part_Bytes p)) received)) →
  ∃ psr, GetReader ps = Ok psr ∧
    ∀ ns, Forall (λ n, 0 < n) ns → length data < length ns →
      ReadAll psr ns = Ok (data, true).
Proof.
  intros Hs Hne Hsz Hmax E0 E1 Hrec Eadd Hcomp Hcol.
  destruct (NewPartSetFromData_full sha256 data sz Hne Hsz Hmax) as (ps0' & E0' & Hfs).
  rewrite E0 in E0'. injection E0' as <-.
  pose proof (inv_total _ _ (fs_inv _ _ _ Hfs)) as Ht0.
  pose proof (inv_len _ _ (fs_inv _ _ _ Hfs)) as Hl0.
  destruct (NewPartSetFromHeader_inv sha256 (Header (Some ps0)) Ht0)
    as (ps1' & E1' & Hinv1 & Ht1 & Hh1 & Hp1).
  rewrite E1 in E1'. injection E1' as <-. cbn [Header PSH_Total PSH_Hash] in *.
  destruct (add_parts_spec sha256 ps1 received Hinv1) as (ps' & E' & Hinv & Ht & Hh & Hin).
  { eapply Forall_impl; [exact Hrec|]. by intros p [? _]. }
  rewrite Eadd in E'. injection E' as <-.
  apply Z.eqb_eq in Hcomp as Hct. pose proof (complete_present _ _ Hinv Hct) as Hall.
  pose proof (inv_len _ _ Hinv) as Hl. rewrite Ht, Ht1 in Hl.
  set (items := map part_bytes (parts ps0)) in *.
  assert (length items = length (parts ps0)) as Hli by (unfold items; by rewrite length_map).
  assert (map part_bytes (parts ps) = items) as Hmap.
  { apply list_eq_same_length with (length items); [done|rewrite length_map; lia|].
    intros i b x Hi Hb Hx. rewrite list_lookup_fmap in Hb.
    destruct (parts ps !! i) as [o|] eqn:Ho; [|done].
    destruct (Forall_lookup_1 _ _ _ _ Hall Ho) as [p ->]. injection Hb as <-.
    destruct (Hin i p Ho) as [Hold|Hp].
    { rewrite Hp1 in Hold. by apply lookup_replicate in Hold as [? _]. }
    destruct (inv_parts _ _ Hinv i p Ho) as (_ & Hpi & Hv). rewrite Hh, Hh1 in Hv.
    rewrite Forall_forall in Hrec. destruct (Hrec p Hp) as [_ Htp].
    destruct (merkle.verify_sound_aux sha256 items (hash ps0) (Part_Proof p) (Part_Bytes p) Hs)
      as [_ Hit]; [unfold_ints; lia|apply Hfs|lia|done| |].
    - eapply merkle.no_collision_subset; [|exact Hcol]. rewrite Hli.
      apply app_subset, concat_subset.
      by apply (list_elem_of_fmap_2 (λ p, merkle.proof_inputs sha256 (Part_Proof p) (Part_Bytes p))).
    - rewrite Hpi, Nat2Z.id in Hit. rewrite Hx in Hit. by injection Hit. }
  destruct (reader_pending ps) as (psr & -> & Hpp & Hpend); [done| |done|].
  { intros E. rewrite E in Hmap. rewrite <- (fs_data _ _ _ Hfs) in Hne. fold items in Hne.
    by rewrite <- Hmap in Hne. }
  exists psr. split; [done|]. intros ns Hns Hlen.
  rewrite Hmap in Hpend. unfold items in Hpend. rewrite (fs_data _ _ _ Hfs) in Hpend.
  rewrite <- Hpend. apply ReadAll_spec; [by rewrite Hpp|done|by rewrite Hpend].
Qed.

Definition wit_ps (data : bytes) : PartSet :=
  match NewPartSetFromData merkle.toy_hash data 1 with
  | Ok ps => ps
  | _ => mkPS 0 [] [] None 0 0
  end.

Definition wit_empty (data : bytes) : PartSet :=
  match NewPartSetFromHeader (Header (Some (wit_ps data))) with
  | Ok ps => ps
  | _ => mkPS 0 [] [] None 0 0
  end.

Definition wit_received (data : bytes) : list Part := omap id (reverse (parts (wit_ps data))).

Definition wit_full (data : bytes) : PartSet :=
  match add_parts merkle.toy_hash (wit_empty data) (wit_received data) with
  | Ok ps => ps
  | _ => mkPS 0 [] [] None 0 0
  end.

Lemma wit_received_ok :
  Forall (λ p, (0 ≤ Part_Index p)%Z ∧
    merkle.Total (Part_Proof p) = total (wit_ps [x07; x08; x09]))
    (wit_received [x07; x08; x09]).
Proof. apply (bool_decide_unpack _). vm_compute. exact I. Qed.

Lemma parts_assemble_witness :
  ∃ psr, add_parts merkle.toy_hash (wit_empty [x07; x08; x09]) (wit_received [x07; x08; x09])
      = Ok (wit_full [x07; x08; x09]) ∧
    GetReader (wit_full [x07; x08; x09]) = Ok psr ∧
    ReadAll psr [2; 2; 2; 2] = Ok ([x07; x08; x09], true).
Proof.
  assert (add_parts merkle.toy_hash (wit_empty [x07; x08; x09])
    (wit_received [x07; x08; x09]) = Ok (wit_full [x07; x08; x09])) as E
    by (vm_compute; reflexivity).
  destruct (parts_assemble merkle.toy_hash [x07; x08; x09] 1 (wit_ps [x07; x08; x09])
    (wit_empty [x07; x08; x09]) (wit_received [x07; x08; x09]) (wit_full [x07; x08; x09]))
    as (psr & Hr & Hall).
  - apply merkle.toy_hash_len.
  - done.
  - lia.
  - cbn. unfold_ints. lia.
  - vm_compute. reflexivity.
  - vm_compute. reflexivity.
  - apply wit_received_ok.
  - exact E.
  - vm_compute. reflexivity.
  - apply merkle.no_collision_decide. vm_compute. reflexivity.
  - exists psr. split; [exact E|]. split; [exact Hr|].
    apply Hall; [repeat constructor; lia|cbn; lia].
Defined.

Lemma three_parts_root sha256 d0 d1 d2 :
  merkle.HashFromByteSlices sha256 [d0; d1; d2] =
    Ok (merkle.innerHash sha256
      (merkle.innerHash sha256 (merkle.leafHash sha256 d0) (merkle.leafHash sha256 d1))
      (merkle.leafHash sha256 d2)).
Proof. reflexivity. Qed.

(** The check that the part's index is the proof's index does not stop a part
    from being put in a slot it does not belong to: for every three-part block, the
    last part with a proof that names index 1 and total 2 passes [ValidateBasic] and
    is accepted into slot 1, because nothing compares the proof's total with the
    total of the set. *)
Theorem AddPart_accepts_relabelled_part sha256 d0 d1 d2 root ps :
  (∀ b, length (sha256 b) = 32) → (Z.of_nat (length d2) ≤ BlockPartSizeBytes)%Z →
  merkle.HashFromByteSlices sha256 [d0; d1; d2] = Ok root →
  NewPartSetFromHeader (mkPSH 3 root) = Ok ps →
  ∃ part ps', Part_Index part = 1%Z ∧ Part_Bytes part = d2 ∧
    Part_ValidateBasic part = Ok tt ∧
    AddPart sha256 (Some ps) part = Ok (Some ps', true) ∧
    parts ps' !! 1 = Some (Some part).
Proof.
  intros Hs Hd Hroot Hps. rewrite three_parts_root in Hroot.
  apply (f_equal (from_option id root ∘ (λ m, match m with Ok r => Some r | _ => None end)))
    in Hroot. cbn in Hroot. subst root.
  set (h := merkle.leafHash sha256).
  set (aunt := merkle.innerHash sha256 (h d0) (h d1)).
  set (sp := merkle.mkProof 2 1 (h d2) [aunt]).
  exists (mkPart 1 d2 sp).
  assert (merkle.Verify sha256 sp (merkle.innerHash sha256 aunt (h d2)) d2 = Ok tt) as Hv.
  { unfold merkle.Verify. cbn [merkle.Total merkle.Index merkle.LeafHash sp].
    rewrite bool_decide_eq_true_2 by done.
    change (merkle.ComputeRootHash sha256 sp) with
      (Ok (merkle.innerHash sha256 aunt (h d2)) : outcome merkle.merkle_error bytes).
    cbn [negb Z.ltb Z.compare Pos.compare]. orun. by rewrite bool_decide_eq_true_2. }
  assert (AddPart_post sha256 ps (mkPart 1 d2 sp)) as Hpost.
  { apply AddPart_cases; [|cbn; lia].
    match type of Hps with NewPartSetFromHeader ?hd = _ =>
      destruct (NewPartSetFromHeader_inv sha256 hd) as (ps2 & E & Hinv & _);
        [cbn; unfold_ints; lia|] end.
    rewrite Hps in E. by injection E as ->. }
  vm_compute in Hps. injection Hps as <-. unfold AddPart_post in Hpost.
  destruct (AddPart sha256 _ (mkPart 1 d2 sp)) as [[[ps'|] []]|[]|];
    cbn [Part_Index Part_Proof Part_Bytes merkle.Index sp total parts hash] in Hpost;
    try done; try lia.
  - exists ps'. split; [done|]. split; [done|].
    split; [|split; [done|]].
    + unfold Part_ValidateBasic. cbn [Part_Bytes Part_Proof Part_Index].
      destruct (Z.gtb_spec (Z.of_nat (length d2)) BlockPartSizeBytes); [lia|].
      unfold merkle.ValidateBasic. cbn [merkle.Total merkle.Index merkle.LeafHash merkle.Aunts sp].
      unfold h, aunt, merkle.leafHash, merkle.innerHash. cbn. by rewrite !Hs.
    + destruct Hpost as (_ & _ & _ & _ & -> & _). done.
  - by destruct Hpost as (_ & p & ?).
  - tauto.
Qed.

Lemma AddPart_accepts_relabelled_part_witness :
  ∃ part ps', Part_Index part = 1%Z ∧ Part_Bytes part = [x09] ∧
    AddPart merkle.toy_hash (Some (wit_empty [x07; x08; x09])) part = Ok (Some ps', true) ∧
    parts ps' !! 1 = Some (Some part).
Proof.
  destruct (AddPart_accepts_relabelled_part merkle.toy_hash [x07] [x08] [x09]
    (hash (wit_ps [x07; x08; x09])) (wit_empty [x07; x08; x09]))
    as (part & ps' & H1 & H2 & _ & H3 & H4).
  - apply merkle.toy_hash_len.
  - vm_compute. discriminate.
  - vm_compute. reflexivity.
  - vm_compute. reflexivity.
  - exists part, ps'. split; [exact H1|]. split; [exact H2|]. split; [exact H3|exact H4].
Defined.

End partset.
