(* ===== verification/Wire.v ===== *)
(** * Byte encodings

    What the signing and keying code writes: little-endian words
    ([encoding/binary]), varints and the protobuf messages [PartSetHeader],
    [CanonicalPartSetHeader], [CanonicalBlockID] and [CanonicalVoteExtension]
    ([src/proto/tendermint/types/types.pb.go], [canonical.pb.go]), and the
    length-delimited form of [src/internal/libs/protoio/writer.go].  The lemmas
    give decoders, so that encodings that are concatenated can be taken apart
    again. *)
From Stdlib Require Import ZArith Zbitwise Lia Init.Byte Strings.Byte.
From stdpp Require Import base numbers list.
From S2P Require Import Prelude.

Module wire.

(** ** Bytes and numbers *)

Definition z2b (z : Z) : byte := default x00 (Byte.of_N (Z.to_N (z mod 256))).
Definition b2z (b : byte) : Z := Z.of_N (Byte.to_N b).

Lemma b2z_range b : (0 ≤ b2z b < 256)%Z.
Proof. unfold b2z. pose proof (Byte.to_N_bounded b). lia. Qed.

Lemma b2z_z2b z : b2z (z2b z) = (z mod 256)%Z.
Proof.
  unfold b2z, z2b. pose proof (Z.mod_pos_bound z 256 ltac:(lia)) as H.
  destruct (Byte.of_N (Z.to_N (z mod 256))) as [b|] eqn:E; cbn.
  - apply Byte.to_of_N in E. rewrite E. lia.
  - apply Byte.of_N_None_iff in E. lia.
Qed.

Lemma b2z_inj a b : b2z a = b2z b → a = b.
Proof. unfold b2z. intros H. apply to_N_inj. lia. Qed.

(** ** Little-endian words *)

(** [binary.LittleEndian.PutUint32] and [PutUint64]: [n] bytes of [v]. *)
Fixpoint le (n : nat) (v : Z) : bytes :=
  match n with
  | O => []
  | S n => z2b v :: le n (v / 256)
  end.

Definition le32 : Z → bytes := le 4.
Definition le64 : Z → bytes := le 8.

Lemma length_le n v : length (le n v) = n.
Proof. revert v. induction n; intros v; cbn; congruence. Qed.

Lemma le_inj n v w : le n v = le n w → (v mod 256 ^ Z.of_nat n = w mod 256 ^ Z.of_nat n)%Z.
Proof.
  revert v w. induction n as [|n IH]; intros v w H; [by rewrite !Z.mod_1_r|].
  injection H as Hh Ht. apply IH in Ht.
  assert (v mod 256 = w mod 256)%Z as Hm by (by rewrite <- !b2z_z2b, Hh).
  rewrite Nat2Z.inj_succ, Z.pow_succ_r by lia.
  rewrite !Z.rem_mul_r by lia. by rewrite Hm, Ht.
Qed.

Lemma le_app_inj n v w x y :
  le n v ++ x = le n w ++ y →
  (v mod 256 ^ Z.of_nat n = w mod 256 ^ Z.of_nat n)%Z ∧ x = y.
Proof.
  intros H. apply app_inj_1 in H as [H ->]; [|by rewrite !length_le].
  split; [by apply le_inj|done].
Qed.

(** Signed words: the two's complement bytes determine the value. *)
Lemma le64_app_inj v w x y :
  in_int64 v → in_int64 w → le64 v ++ x = le64 w ++ y → v = w ∧ x = y.
Proof.
  intros Hv Hw H. apply le_app_inj in H as [H ->]. split; [|done].
  unfold_ints. change (256 ^ Z.of_nat 8)%Z with (2 ^ 64)%Z in H.
  pose proof (Z.div_mod v (2 ^ 64) ltac:(lia)). pose proof (Z.div_mod w (2 ^ 64) ltac:(lia)).
  pose proof (Z.mod_pos_bound v (2 ^ 64) ltac:(lia)). lia.
Qed.

Lemma le32_app_inj v w x y :
  in_int32 v → in_int32 w → le32 v ++ x = le32 w ++ y → v = w ∧ x = y.
Proof.
  intros Hv Hw H. apply le_app_inj in H as [H ->]. split; [|done].
  unfold_ints. change (256 ^ Z.of_nat 4)%Z with (2 ^ 32)%Z in H.
  pose proof (Z.div_mod v (2 ^ 32) ltac:(lia)). pose proof (Z.div_mod w (2 ^ 32) ltac:(lia)).
  pose proof (Z.mod_pos_bound v (2 ^ 32) ltac:(lia)). lia.
Qed.

(** ** Varints *)

(** [encodeVarintTypes] and [binary.PutUvarint]; a 64-bit value needs at most
    ten bytes. *)
Fixpoint put_uvarint (fuel : nat) (v : Z) : bytes :=
  match fuel with
  | O => []
  | S fuel =>
      if (v <? 128)%Z then [z2b v]
      else z2b (Z.lor (Z.land v 127) 128) :: put_uvarint fuel (Z.shiftr v 7)
  end.

Definition uvarint (v : Z) : bytes := put_uvarint 10 v.

(** The decoder of [binary.Uvarint], on the bytes that follow too. *)
Fixpoint get_uvarint (fuel : nat) (b : bytes) : option (Z * bytes) :=
  match fuel, b with
  | S fuel, x :: b =>
      if (b2z x <? 128)%Z then Some (b2z x, b)
      else '(v, rest) ← get_uvarint fuel b; Some (Z.land (b2z x) 127 + 128 * v, rest)%Z
  | _, _ => None
  end.

Lemma lor_low_128 v : Z.lor (Z.land v 127) 128 = (v mod 128 + 128)%Z.
Proof.
  pose proof (Z.add_lor_land (Z.land v 127) 128) as H.
  rewrite <- (Z.land_assoc v 127 128), Z.land_0_r, Z.add_0_r in H. rewrite H.
  change 127%Z with (Z.ones 7). by rewrite Z.land_ones by lia.
Qed.

Lemma get_put_uvarint fuel v rest :
  0 < fuel → (0 ≤ v < 128 ^ Z.of_nat fuel)%Z →
  get_uvarint fuel (put_uvarint fuel v ++ rest) = Some (v, rest).
Proof.
  revert v. induction fuel as [|fuel IH]; intros v Hf Hv; [lia|].
  cbn [put_uvarint]. destruct (Z.ltb_spec v 128) as [Hlt|Hge].
  - cbn [get_uvarint app]. rewrite b2z_z2b, Z.mod_small by lia.
    destruct (Z.ltb_spec v 128); [done|lia].
  - cbn [get_uvarint app]. rewrite b2z_z2b, lor_low_128.
    pose proof (Z.mod_pos_bound v 128 ltac:(lia)) as Hm.
    rewrite (Z.mod_small (v mod 128 + 128)) by lia.
    destruct (Z.ltb_spec (v mod 128 + 128) 128); [lia|].
    rewrite Z.shiftr_div_pow2 by lia. change (2 ^ 7)%Z with 128%Z.
    rewrite IH.
    2:{ destruct fuel; [|lia]. cbn in Hv. lia. }
    2:{ rewrite Nat2Z.inj_succ, Z.pow_succ_r in Hv by lia.
        split; [apply Z.div_pos; lia|apply Z.div_lt_upper_bound; lia]. }
    cbn. do 2 f_equal. change 127%Z with (Z.ones 7). rewrite Z.land_ones by lia.
    change (2 ^ 7)%Z with 128%Z.
    rewrite <- (Z.mul_1_l 128) at 2. rewrite Z.mod_add, Z.mod_mod by lia.
    pose proof (Z.div_mod v 128 ltac:(lia)). lia.
Qed.

(** Varints are self-delimiting. *)
Lemma uvarint_app_inj v w x y :
  in_uint64 v → in_uint64 w → uvarint v ++ x = uvarint w ++ y → v = w ∧ x = y.
Proof.
  intros Hv Hw H. apply (f_equal (get_uvarint 10)) in H. unfold uvarint in H.
  rewrite !get_put_uvarint in H by (unfold_ints; cbn; lia). by injection H.
Qed.

(** ** Messages *)

(** A bytes field: tag, length and content, left out when empty. *)
Definition bytes_field (tag : byte) (b : bytes) : bytes :=
  match b with [] => [] | _ => tag :: uvarint (Z.of_nat (length b)) ++ b end.

(** A varint field, left out when zero. *)
Definition varint_field (tag : byte) (v : Z) : bytes :=
  if (v =? 0)%Z then [] else tag :: uvarint (uint64 v).

(** A fixed64 field, left out when zero. *)
Definition fixed64_field (tag : byte) (v : Z) : bytes :=
  if (v =? 0)%Z then [] else tag :: le64 v.

(** [PartSetHeader] and [CanonicalPartSetHeader] have the same encoding. *)
Definition marshal_PartSetHeader (total : Z) (hash : bytes) : bytes :=
  varint_field x08 total ++ bytes_field x12 hash.

Definition marshal_CanonicalBlockID (hash : bytes) (psh_total : Z) (psh_hash : bytes) : bytes :=
  let psh := marshal_PartSetHeader psh_total psh_hash in
  bytes_field x0a hash ++ x12 :: uvarint (Z.of_nat (length psh)) ++ psh.

Definition marshal_CanonicalVoteExtension
    (extension : bytes) (height round : Z) (chain_id : bytes) (type : Z) : bytes :=
  bytes_field x0a extension ++ fixed64_field x11 height ++ fixed64_field x19 round ++
  bytes_field x22 chain_id ++ varint_field x28 type.

(** [protoio.MarshalDelimited]. *)
Definition MarshalDelimited (msg : bytes) : bytes :=
  uvarint (Z.of_nat (length msg)) ++ msg.

Lemma MarshalDelimited_inj a b :
  (Z.of_nat (length a) ≤ MaxUint64)%Z → (Z.of_nat (length b) ≤ MaxUint64)%Z →
  MarshalDelimited a = MarshalDelimited b → a = b.
Proof.
  intros Ha Hb H. unfold MarshalDelimited in H.
  apply uvarint_app_inj in H as [_ H]; [done|unfold_ints; lia..].
Qed.

Lemma bytes_field_some tag b :
  b ≠ [] → bytes_field tag b = tag :: uvarint (Z.of_nat (length b)) ++ b.
Proof. by destruct b. Qed.

(** A present bytes field can be taken off the front. *)
Lemma bytes_field_app_inj tag a b x y :
  a ≠ [] → b ≠ [] → (Z.of_nat (length a) ≤ MaxUint64)%Z →
  (Z.of_nat (length b) ≤ MaxUint64)%Z →
  bytes_field tag a ++ x = bytes_field tag b ++ y → a = b ∧ x = y.
Proof.
  intros Na Nb Ha Hb H. rewrite !bytes_field_some in H by done.
  apply (f_equal (@List.tl byte)) in H. cbn [List.tl app] in H. rewrite <- !app_assoc in H.
  apply uvarint_app_inj in H as [Hl H]; [|unfold_ints; lia..].
  by apply app_inj_1 in H; [|lia].
Qed.

Lemma varint_field_app_inj tag a b x y :
  (0 < a ≤ MaxUint64)%Z → (0 < b ≤ MaxUint64)%Z →
  varint_field tag a ++ x = varint_field tag b ++ y → a = b ∧ x = y.
Proof.
  intros Ha Hb H. unfold varint_field in H.
  destruct (Z.eqb_spec a 0), (Z.eqb_spec b 0); try lia.
  apply (f_equal (@List.tl byte)) in H. cbn [List.tl app] in H.
  rewrite !uint64_id in H by (unfold_ints; lia).
  apply uvarint_app_inj in H; [done|unfold_ints; lia..].
Qed.

(** The header of a non-empty part set is determined by its encoding. *)
Lemma marshal_PartSetHeader_inj t h t' h' x y :
  (0 < t ≤ MaxUint32)%Z → (0 < t' ≤ MaxUint32)%Z → length h = 32 → length h' = 32 →
  marshal_PartSetHeader t h ++ x = marshal_PartSetHeader t' h' ++ y →
  t = t' ∧ h = h' ∧ x = y.
Proof.
  intros Ht Ht' Hh Hh' H. unfold marshal_PartSetHeader in H. rewrite <- !app_assoc in H.
  apply varint_field_app_inj in H as [-> H]; [|unfold_ints; lia..].
  apply bytes_field_app_inj in H as [-> ->]; [done| | |unfold_ints; lia..].
  - by intros ->.
  - by intros ->.
Qed.

Lemma length_put_uvarint fuel v : length (put_uvarint fuel v) ≤ fuel.
Proof.
  revert v. induction fuel as [|fuel IH]; intros v; cbn; [done|].
  destruct (v <? 128)%Z; cbn; [lia|]. specialize (IH (Z.shiftr v 7)). lia.
Qed.

Lemma length_marshal_PartSetHeader t h :
  length h = 32 → length (marshal_PartSetHeader t h) ≤ 60.
Proof.
  intros Hh. unfold marshal_PartSetHeader, varint_field, bytes_field, uvarint.
  pose proof (length_put_uvarint 10 (uint64 t)).
  pose proof (length_put_uvarint 10 (Z.of_nat (length h))).
  rewrite length_app. destruct h; [done|].
  destruct (t =? 0)%Z; cbn [length] in *; rewrite ?length_app; cbn [length] in *; lia.
Qed.

Lemma marshal_CanonicalBlockID_inj hash t h hash' t' h' :
  length hash = 32 → length hash' = 32 →
  (0 < t ≤ MaxUint32)%Z → (0 < t' ≤ MaxUint32)%Z → length h = 32 → length h' = 32 →
  marshal_CanonicalBlockID hash t h = marshal_CanonicalBlockID hash' t' h' →
  hash = hash' ∧ t = t' ∧ h = h'.
Proof.
  intros Hx Hx' Ht Ht' Hh Hh' H. unfold marshal_CanonicalBlockID in H.
  apply bytes_field_app_inj in H as [-> H]; [|by intros ->|by intros ->|unfold_ints; lia..].
  apply (f_equal (@List.tl byte)) in H. cbn [List.tl app] in H.
  pose proof (length_marshal_PartSetHeader t h Hh).
  pose proof (length_marshal_PartSetHeader t' h' Hh').
  apply uvarint_app_inj in H as [_ H]; [|unfold_ints; lia..].
  destruct (marshal_PartSetHeader_inj t h t' h' [] []) as (-> & -> & _); try done.
  by rewrite !app_nil_r.
Qed.

End wire.
