(* ===== verification/Types.v ===== *)
(** * types: block identifiers, votes, commits

    Models [BlockID] and [Commit] of [src/types/block.go], [Vote] of
    [src/types/vote.go], vote extensions of [src/types/vote_extension.go] and
    [src/proto/tendermint/types/dash.go], and the bytes a validator signs
    ([src/proto/tendermint/types/types.go], [src/libs/bytes/marshal.go]).
    Protobuf enums are open, so message and extension types are integers. *)
From Stdlib Require Import ZArith Lia Init.Byte.
From stdpp Require Import base numbers list countable sets.
From S2P Require Import Prelude.
From S2P Require Import SafeMath.
From S2P Require Import Wire.
From S2P Require Import Merkle.
From S2P Require Import PartSet.

Import partset.

Module types.

Definition HashSize : nat := 32.
Definition SignatureSize : nat := 96.

Definition PrevoteType : Z := 1.
Definition PrecommitType : Z := 2.
Definition ProposalType : Z := 32.

Definition IsVoteTypeValid (t : Z) : bool := (t =? PrevoteType)%Z || (t =? PrecommitType)%Z.

(** ** Block identifiers *)

Record BlockID := mkBlockID {
  BlockID_Hash : bytes; BlockID_PartSetHeader : PartSetHeader; BlockID_StateID : bytes }.

Global Instance BlockID_eq_dec : EqDecision BlockID.
Proof. solve_decision. Defined.

Definition nilBlockID : BlockID := mkBlockID [] (mkPSH 0 []) [].

Definition BlockID_Equals (a b : BlockID) : bool :=
  bool_decide (BlockID_Hash a = BlockID_Hash b) &&
  PSH_Equals (BlockID_PartSetHeader a) (BlockID_PartSetHeader b) &&
  bool_decide (BlockID_StateID a = BlockID_StateID b).

Definition Key (b : BlockID) : bytes :=
  BlockID_Hash b ++
  wire.marshal_PartSetHeader (PSH_Total (BlockID_PartSetHeader b))
    (PSH_Hash (BlockID_PartSetHeader b)) ++
  BlockID_StateID b.

Inductive blockid_error :=
  | ErrBlockIDHash
  | ErrBlockIDPartSetHeader (e : partset_error)
  | ErrBlockIDStateID.

Definition BlockID_ValidateBasic (b : BlockID) : outcome blockid_error unit :=
  if negb (ValidateHash (BlockID_Hash b)) then Err ErrBlockIDHash
  else
    _ ← wrap_err ErrBlockIDPartSetHeader (PSH_ValidateBasic (BlockID_PartSetHeader b));
    if negb (length (BlockID_Hash b) =? 0) &&
       negb (length (BlockID_StateID b) =? HashSize)
    then Err ErrBlockIDStateID else Ok tt.

Definition IsNil (b : BlockID) : bool :=
  (length (BlockID_Hash b) =? 0) && PSH_IsZero (BlockID_PartSetHeader b) &&
  (length (BlockID_StateID b) =? 0).

Definition IsComplete (b : BlockID) : bool :=
  (length (BlockID_Hash b) =? HashSize) &&
  (0 <? PSH_Total (BlockID_PartSetHeader b))%Z &&
  (length (PSH_Hash (BlockID_PartSetHeader b)) =? HashSize) &&
  (length (BlockID_StateID b) =? HashSize).

(** ** Vote extensions *)

Definition DEFAULT : Z := 0.
Definition THRESHOLD_RECOVER : Z := 1.
Definition THRESHOLD_RECOVER_RAW : Z := 2.

(** The protobuf message.  [None] is an unset sign request id or one with a nil
    slice, both of which have size 0; the decoder never leaves a nil slice. *)
Record VoteExtension := mkVE {
  VE_Type : Z; VE_Extension : bytes; VE_Signature : bytes; VE_SignRequestId : option bytes }.

Global Instance VoteExtension_eq_dec : EqDecision VoteExtension.
Proof. solve_decision. Defined.

(** The dynamic type behind [VoteExtensionIf]. *)
Inductive ve_class := Generic | Threshold | ThresholdRaw.

Record VoteExtensionIf := mkVEI { vei_class : ve_class; vei_pb : VoteExtension }.

Global Instance ve_class_eq_dec : EqDecision ve_class.
Proof. solve_decision. Defined.
Global Instance VoteExtensionIf_eq_dec : EqDecision VoteExtensionIf.
Proof. solve_decision. Defined.

Inductive ext_error :=
  | ErrUnknownVoteExtensionType (t : Z)
  | ErrNilVoteExtension (i : nat)
  | ErrNoCanonicalForm
  | ErrRawExtensionSize
  | ErrExtensionNotSupported
  | ErrExtensionSignEmpty
  | ErrExtensionSignTooBig
  | ErrSignRequestIDNotSupported
  | ErrSignRequestIDWrongPrefix
  | ErrInvalidExtensionType.

Definition VoteExtensionFromProto (ve : VoteExtension) : outcome ext_error VoteExtensionIf :=
  if (VE_Type ve =? DEFAULT)%Z then Ok (mkVEI Generic ve)
  else if (VE_Type ve =? THRESHOLD_RECOVER)%Z then Ok (mkVEI Threshold ve)
  else if (VE_Type ve =? THRESHOLD_RECOVER_RAW)%Z then Ok (mkVEI ThresholdRaw ve)
  else Err (ErrUnknownVoteExtensionType (VE_Type ve)).

(** An element of the argument may be a nil pointer. *)
Fixpoint VoteExtensionsFromProto_from (i : nat) (pve : list (option VoteExtension)) :
    outcome ext_error (list VoteExtensionIf) :=
  match pve with
  | [] => Ok []
  | None :: _ => Err (ErrNilVoteExtension i)
  | Some ext :: pve =>
      converted ← VoteExtensionFromProto ext;
      rest ← VoteExtensionsFromProto_from (S i) pve;
      Ok (converted :: rest)
  end.

Definition VoteExtensionsFromProto := VoteExtensionsFromProto_from 0.

Definition IsThresholdRecoverable (e : VoteExtensionIf) : bool :=
  match vei_class e with Generic => false | Threshold | ThresholdRaw => true end.

(** [VoteExtensions.Filter] with [IsThresholdRecoverable]. *)
Definition recoverable (es : list VoteExtensionIf) : list VoteExtensionIf :=
  filter (λ e, IsThresholdRecoverable e = true) es.

Definition GetSignatures (es : list VoteExtensionIf) : list bytes :=
  map (λ e, VE_Signature (vei_pb e)) es.

(** [VoteExtensions.ToProto]. *)
Definition VoteExtensions_ToProto (es : list VoteExtensionIf) : list (option VoteExtension) :=
  map (λ e, Some (vei_pb e)) es.

Definition plwdtx_prefix : bytes := [x06; x70; x6c; x77; x64; x74; x78].
Definition dpevote_prefix : bytes := [x64; x70; x65; x76; x6f; x74; x65].

(** [VoteExtension.Validate]. *)
Definition VE_Validate (v : VoteExtension) : outcome ext_error unit :=
  if (VE_Type v =? DEFAULT)%Z then Err ErrExtensionNotSupported
  else if (VE_Type v =? THRESHOLD_RECOVER_RAW)%Z && negb (length (VE_Extension v) =? HashSize)
  then Err ErrRawExtensionSize
  else if (0 <? length (VE_Extension v)) && (length (VE_Signature v) =? 0)
  then Err ErrExtensionSignEmpty
  else if SignatureSize <? length (VE_Signature v) then Err ErrExtensionSignTooBig
  else
    match VE_SignRequestId v with
    | None => Ok tt
    | Some requestID =>
        if negb (VE_Type v =? THRESHOLD_RECOVER_RAW)%Z then Err ErrSignRequestIDNotSupported
        else if bool_decide (plwdtx_prefix `prefix_of` requestID) ||
                bool_decide (dpevote_prefix `prefix_of` requestID)
        then Ok tt else Err ErrSignRequestIDWrongPrefix
    end.

(** [VoteExtensions.Validate]: an error when any extension is invalid. *)
Definition VoteExtensions_Validate (es : list VoteExtensionIf) : bool :=
  forallb (λ e, is_ok (VE_Validate (vei_pb e))) es.

(** ** Votes *)

Record Vote := mkVote {
  Vote_Type : Z;
  Vote_Height : Z;
  Vote_Round : Z;
  Vote_BlockID : BlockID;
  Vote_ValidatorProTxHash : bytes;
  Vote_ValidatorIndex : Z;
  Vote_BlockSignature : bytes;
  Vote_VoteExtensions : list VoteExtensionIf }.

Global Instance Vote_eq_dec : EqDecision Vote.
Proof. solve_decision. Defined.

Inductive vote_basic_error :=
  | ErrVoteType
  | ErrVoteNegativeHeight
  | ErrVoteNegativeRound
  | ErrVoteBlockID (e : blockid_error)
  | ErrVoteBlockIDIncomplete
  | ErrVoteProTxHashSize
  | ErrVoteNegativeIndex
  | ErrVoteSignatureMissing
  | ErrVoteSignatureTooBig
  | ErrVoteUnexpectedExtensions
  | ErrVoteExtensionInvalid.

Definition Vote_ValidateBasic (vote : Vote) : outcome vote_basic_error unit :=
  if negb (IsVoteTypeValid (Vote_Type vote)) then Err ErrVoteType
  else if (Vote_Height vote <? 0)%Z then Err ErrVoteNegativeHeight
  else if (Vote_Round vote <? 0)%Z then Err ErrVoteNegativeRound
  else
    _ ← wrap_err ErrVoteBlockID (BlockID_ValidateBasic (Vote_BlockID vote));
    if negb (IsNil (Vote_BlockID vote)) && negb (IsComplete (Vote_BlockID vote))
    then Err ErrVoteBlockIDIncomplete
    else if negb (length (Vote_ValidatorProTxHash vote) =? HashSize) then Err ErrVoteProTxHashSize
    else if (Vote_ValidatorIndex vote <? 0)%Z then Err ErrVoteNegativeIndex
    else if length (Vote_BlockSignature vote) =? 0 then Err ErrVoteSignatureMissing
    else if SignatureSize <? length (Vote_BlockSignature vote) then Err ErrVoteSignatureTooBig
    else if (negb (Vote_Type vote =? PrecommitType)%Z ||
             ((Vote_Type vote =? PrecommitType)%Z && IsNil (Vote_BlockID vote))) &&
            negb (length (Vote_VoteExtensions vote) =? 0)
    then Err ErrVoteUnexpectedExtensions
    else if (Vote_Type vote =? PrecommitType)%Z && negb (IsNil (Vote_BlockID vote)) &&
            negb (VoteExtensions_Validate (Vote_VoteExtensions vote))
    then Err ErrVoteExtensionInvalid
    else Ok tt.

(** The protobuf vote. *)
Record ProtoVote := mkPV {
  PV_Type : Z;
  PV_Height : Z;
  PV_Round : Z;
  PV_BlockID : BlockID;
  PV_ValidatorProTxHash : bytes;
  PV_ValidatorIndex : Z;
  PV_BlockSignature : bytes;
  PV_VoteExtensions : list (option VoteExtension) }.

Definition Vote_ToProto (vote : Vote) : ProtoVote :=
  mkPV (Vote_Type vote) (Vote_Height vote) (Vote_Round vote) (Vote_BlockID vote)
    (Vote_ValidatorProTxHash vote) (Vote_ValidatorIndex vote) (Vote_BlockSignature vote)
    (VoteExtensions_ToProto (Vote_VoteExtensions vote)).

Inductive vote_proto_error :=
  | ErrProtoVoteNil
  | ErrProtoBlockID (e : blockid_error)
  | ErrProtoExtension (e : ext_error).

(** [BlockIDFromProto] on the message embedded in a vote; the header is
    validated first and once more as part of the id. *)
Definition BlockIDFromProto (b : BlockID) : outcome blockid_error BlockID :=
  _ ← wrap_err ErrBlockIDPartSetHeader (PSH_ValidateBasic (BlockID_PartSetHeader b));
  _ ← BlockID_ValidateBasic b;
  Ok b.

Definition VoteFromProto (pv : option ProtoVote) : outcome vote_proto_error Vote :=
  match pv with
  | None => Err ErrProtoVoteNil
  | Some pv =>
      blockID ← wrap_err ErrProtoBlockID (BlockIDFromProto (PV_BlockID pv));
      extensions ← wrap_err ErrProtoExtension (VoteExtensionsFromProto (PV_VoteExtensions pv));
      Ok (mkVote (PV_Type pv) (PV_Height pv) (PV_Round pv) blockID (PV_ValidatorProTxHash pv)
            (PV_ValidatorIndex pv) (PV_BlockSignature pv) extensions)
  end.

(** ** Commits *)

Record Commit := mkCommit {
  Commit_Height : Z;
  Commit_Round : Z;
  Commit_BlockID : BlockID;
  Commit_QuorumHash : bytes;
  Commit_ThresholdBlockSignature : bytes;
  Commit_ThresholdVoteExtensions : list (option VoteExtension) }.

Inductive commit_error :=
  | ErrCommitNegativeHeight
  | ErrCommitNegativeRound
  | ErrCommitNilBlock
  | ErrCommitBlockID (e : blockid_error)
  | ErrCommitSignatureSize
  | ErrCommitExtension (e : ext_error).

Definition Commit_ValidateBasic (c : Commit) : outcome commit_error unit :=
  if (Commit_Height c <? 0)%Z then Err ErrCommitNegativeHeight
  else if (Commit_Round c <? 0)%Z then Err ErrCommitNegativeRound
  else
    _ ← (if (1 <=? Commit_Height c)%Z then
           if IsNil (Commit_BlockID c) then Err ErrCommitNilBlock
           else
             _ ← wrap_err ErrCommitBlockID (BlockID_ValidateBasic (Commit_BlockID c));
             if negb (length (Commit_ThresholdBlockSignature c) =? SignatureSize)
             then Err ErrCommitSignatureSize else Ok tt
         else Ok tt);
    _ ← wrap_err ErrCommitExtension (VoteExtensionsFromProto (Commit_ThresholdVoteExtensions c));
    Ok tt.

(** The precommit a commit stands for, without signer and signatures. *)
Definition GetCanonicalVote (c : Commit) : outcome ext_error Vote :=
  extensions ← VoteExtensionsFromProto (Commit_ThresholdVoteExtensions c);
  Ok (mkVote PrecommitType (Commit_Height c) (Commit_Round c) (Commit_BlockID c) [] 0 []
        extensions).

(** ** The bytes that are signed *)

Section sign_bytes.
Context (sha256 : bytes → bytes).

(** [tmproto.BlockID.IsZero], which looks at hashes only. *)
Definition pb_IsZero (b : BlockID) : bool :=
  (length (BlockID_Hash b) =? 0) &&
  (length (PSH_Hash (BlockID_PartSetHeader b)) =? 0) &&
  (length (BlockID_StateID b) =? 0).

(** [ToCanonicalPartSetHeader]. *)
Definition canonical_psh (p : PartSetHeader) : PartSetHeader :=
  if length (PSH_Hash p) =? 0 then mkPSH 0 [] else p.

(** [CanonicalBlockID.signBytes] of [ToCanonicalBlockID]. *)
Definition canonical_signBytes (b : BlockID) : bytes :=
  let p := canonical_psh (BlockID_PartSetHeader b) in
  wire.MarshalDelimited
    (wire.marshal_CanonicalBlockID (BlockID_Hash b) (PSH_Total p) (PSH_Hash p)).

(** [CanonicalBlockID.Checksum]. *)
Definition canonical_checksum (b : BlockID) : bytes := sha256 (canonical_signBytes b).

(** [Vote.SignBytes]: [MarshalFixedSize] of [ToCanonicalVote]. *)
Definition SignBytes (chainID : bytes) (m : ProtoVote) : bytes :=
  let '(blockIDBytes, stateIDBytes) :=
    if pb_IsZero (PV_BlockID m) then (sha256 [], sha256 [])
    else (canonical_checksum (PV_BlockID m), BlockID_StateID (PV_BlockID m)) in
  wire.le32 (PV_Type m) ++ wire.le64 (PV_Height m) ++ wire.le64 (PV_Round m) ++
  blockIDBytes ++ stateIDBytes ++ chainID.

End sign_bytes.

(** ** Properties *)

Lemma BlockID_Equals_spec a b : BlockID_Equals a b = true ↔ a = b.
Proof.
  unfold BlockID_Equals, PSH_Equals. split.
  - intros H. bools. destruct a as [? [? ?] ?], b as [? [? ?] ?]; cbn in *. by subst.
  - intros ->. rewrite !bool_decide_eq_true_2, Z.eqb_refl by done. done.
Qed.

(** Block ids the consensus code works with. *)
Definition wf_BlockID (b : BlockID) : Prop :=
  IsNil b = true ∨
  (IsComplete b = true ∧ (PSH_Total (BlockID_PartSetHeader b) ≤ MaxUint32)%Z).

Lemma IsNil_spec b : IsNil b = true ↔ b = nilBlockID.
Proof.
  unfold IsNil, PSH_IsZero. split.
  - intros H. bools. destruct b as [h [t ph] s]; cbn in *.
    destruct h, s; try done. by subst.
  - by intros ->.
Qed.

Lemma IsComplete_spec b :
  IsComplete b = true ↔
  length (BlockID_Hash b) = 32 ∧ (0 < PSH_Total (BlockID_PartSetHeader b))%Z ∧
  length (PSH_Hash (BlockID_PartSetHeader b)) = 32 ∧ length (BlockID_StateID b) = 32.
Proof.
  unfold IsComplete. rewrite !andb_true_iff, !Nat.eqb_eq, Z.ltb_lt. unfold HashSize. tauto.
Qed.

Lemma IsComplete_not_nil b : IsComplete b = true → IsNil b = false.
Proof.
  intros (H & _)%IsComplete_spec. destruct (IsNil b) eqn:E; [|done].
  apply IsNil_spec in E as ->. done.
Qed.

(** Keys of the ids that votes carry do not clash: the hash and state id have
    fixed sizes and a non-empty part set header is self-delimiting. *)
Lemma Key_inj_wf a b : wf_BlockID a → wf_BlockID b → Key a = Key b → a = b.
Proof.
  intros [Ha|[Ha Ta]] [Hb|[Hb Tb]] H;
    rewrite ?IsNil_spec, ?IsComplete_spec in *; destruct_and?; subst; try done.
  - apply (f_equal length) in H. change (length (Key nilBlockID)) with 0 in H.
    unfold Key in H. rewrite length_app in H. lia.
  - apply (f_equal length) in H. change (length (Key nilBlockID)) with 0 in H.
    unfold Key in H. rewrite length_app in H. lia.
  - destruct a as [h [t ph] s], b as [h' [t' ph'] s']; cbn in *.
    unfold Key in H; cbn in H. apply app_inj_1 in H as [-> H]; [|lia].
    apply wire.marshal_PartSetHeader_inj in H as (-> & -> & ->); [done|lia..].
Qed.

(** Go's field widths. *)
Definition vote_ints (v : Vote) : Prop :=
  in_int32 (Vote_Type v) ∧ in_int64 (Vote_Height v) ∧ in_int32 (Vote_Round v).

Lemma BlockID_ValidateBasic_total b :
  BlockID_ValidateBasic b = Ok tt →
  (PSH_Total (BlockID_PartSetHeader b) ≤ MaxBlockPartsCount)%Z.
Proof.
  unfold BlockID_ValidateBasic, PSH_ValidateBasic. intros H. ok_inv. bools; lia.
Qed.

(** Votes that pass [ValidateBasic] carry a well-formed block id. *)
Lemma Vote_ValidateBasic_wf v :
  Vote_ValidateBasic v = Ok tt → wf_BlockID (Vote_BlockID v).
Proof.
  unfold Vote_ValidateBasic. intros H.
  assert (∃ u, BlockID_ValidateBasic (Vote_BlockID v) = Ok u) as [[] E].
  { clear -H. ok_inv; eauto. }
  assert (negb (IsNil (Vote_BlockID v)) && negb (IsComplete (Vote_BlockID v)) = false) as E'.
  { clear -H. ok_inv; done. }
  apply BlockID_ValidateBasic_total in E. unfold wf_BlockID. bools; [by left|right].
  split; [done|]. etrans; [exact E|]. done.
Qed.

(** The dynamic type of an extension follows its message type, as every
    constructor in the code ensures. *)
Definition class_ok (e : VoteExtensionIf) : bool :=
  match vei_class e with
  | Generic => (VE_Type (vei_pb e) =? DEFAULT)%Z
  | Threshold => (VE_Type (vei_pb e) =? THRESHOLD_RECOVER)%Z
  | ThresholdRaw => (VE_Type (vei_pb e) =? THRESHOLD_RECOVER_RAW)%Z
  end.

Lemma VoteExtensionFromProto_class ve e : VoteExtensionFromProto ve = Ok e → class_ok e = true.
Proof. unfold VoteExtensionFromProto. intros H. ok_inv; cbn; done. Qed.

Lemma VoteExtensionFromProto_back e :
  class_ok e = true → VoteExtensionFromProto (vei_pb e) = Ok e.
Proof.
  unfold class_ok, VoteExtensionFromProto. destruct e as [[] p]; cbn;
    intros ->%Z.eqb_eq; done.
Qed.

Lemma VoteExtensionsFromProto_back es :
  forallb class_ok es = true →
  VoteExtensionsFromProto (VoteExtensions_ToProto es) = Ok es.
Proof.
  unfold VoteExtensionsFromProto. generalize 0.
  induction es as [|e es IH]; intros i H; cbn in *; [done|]. bools.
  rewrite VoteExtensionFromProto_back by done. orun. by rewrite IH.
Qed.

Lemma VoteExtensionsFromProto_class es l :
  VoteExtensionsFromProto es = Ok l → forallb class_ok l = true.
Proof.
  unfold VoteExtensionsFromProto. generalize 0. revert l.
  induction es as [|[e|] es IH]; intros l i H; cbn in *; ok_inv; [done|].
  cbn. erewrite VoteExtensionFromProto_class by done. by eapply IH.
Qed.

Section sign_bytes_inj.
Context (sha256 : bytes → bytes).
Hypothesis sha_len : ∀ b, length (sha256 b) = 32.

(** The block id part of the signed bytes: two digests-sized fields. *)
Definition signed_block (b : BlockID) : bytes * bytes :=
  if pb_IsZero b then (sha256 [], sha256 [])
  else (canonical_checksum sha256 b, BlockID_StateID b).

Lemma pb_IsZero_wf b : wf_BlockID b → pb_IsZero b = IsNil b.
Proof.
  intros [H|[H _]].
  - rewrite H. by apply IsNil_spec in H as ->.
  - rewrite (IsComplete_not_nil _ H). apply IsComplete_spec in H as (H & _).
    unfold pb_IsZero. by rewrite H.
Qed.

Lemma length_signed_block b :
  wf_BlockID b → length (signed_block b).1 = 32 ∧ length (signed_block b).2 = 32.
Proof.
  intros Hb. unfold signed_block. rewrite (pb_IsZero_wf b Hb).
  destruct Hb as [H|[H _]].
  - rewrite H. cbn. by rewrite sha_len.
  - rewrite (IsComplete_not_nil _ H). cbn. unfold canonical_checksum. rewrite sha_len.
    apply IsComplete_spec in H. tauto.
Qed.

Lemma length_canonical hash t h :
  length hash = 32 → length h = 32 →
  (Z.of_nat (length (wire.marshal_CanonicalBlockID hash t h)) ≤ MaxUint64)%Z.
Proof.
  intros H1 H2. unfold wire.marshal_CanonicalBlockID.
  rewrite wire.bytes_field_some by (by intros ->).
  pose proof (wire.length_marshal_PartSetHeader t h H2).
  pose proof (wire.length_put_uvarint 10 (Z.of_nat (length hash))).
  pose proof (wire.length_put_uvarint 10 (Z.of_nat (length (wire.marshal_PartSetHeader t h)))).
  unfold wire.uvarint. rewrite length_app. cbn [length]. rewrite !length_app. unfold_ints. lia.
Qed.

Lemma canonical_psh_complete b :
  IsComplete b = true → canonical_psh (BlockID_PartSetHeader b) = BlockID_PartSetHeader b.
Proof. intros (_ & _ & H & _)%IsComplete_spec. unfold canonical_psh. by rewrite H. Qed.

Lemma canonical_signBytes_nonempty b : canonical_signBytes b ≠ [].
Proof.
  unfold canonical_signBytes, wire.MarshalDelimited, wire.uvarint, wire.put_uvarint.
  by split_if.
Qed.

Lemma canonical_signBytes_inj a b :
  IsComplete a = true → IsComplete b = true → wf_BlockID a → wf_BlockID b →
  canonical_signBytes a = canonical_signBytes b →
  BlockID_Hash a = BlockID_Hash b ∧ BlockID_PartSetHeader a = BlockID_PartSetHeader b.
Proof.
  intros Ca Cb Wa Wb H. unfold canonical_signBytes in H.
  rewrite !canonical_psh_complete in H by done.
  destruct Wa as [Wa|[_ Wa]]; [by rewrite IsComplete_not_nil in Wa|].
  destruct Wb as [Wb|[_ Wb]]; [by rewrite IsComplete_not_nil in Wb|].
  apply IsComplete_spec in Ca as (? & ? & ? & _), Cb as (? & ? & ? & _).
  apply wire.MarshalDelimited_inj in H; [|by apply length_canonical..].
  apply wire.marshal_CanonicalBlockID_inj in H as (-> & Ht & Hh); try done.
  destruct (BlockID_PartSetHeader a), (BlockID_PartSetHeader b); cbn in *. by subst.
Qed.

Lemma signed_block_inj a b :
  wf_BlockID a → wf_BlockID b →
  merkle.no_collision sha256 [[]; canonical_signBytes a; canonical_signBytes b] →
  signed_block a = signed_block b → a = b.
Proof.
  intros Wa Wb Hc H. unfold signed_block in H. rewrite !pb_IsZero_wf in H by done.
  unfold canonical_checksum in H.
  destruct (IsNil a) eqn:Na, (IsNil b) eqn:Nb.
  - apply IsNil_spec in Na, Nb. by subst.
  - injection H as H _. apply Hc in H; [|set_solver..].
    by destruct (canonical_signBytes_nonempty b).
  - injection H as H _. apply Hc in H; [|set_solver..].
    by destruct (canonical_signBytes_nonempty a).
  - injection H as H Hs. apply Hc in H; [|set_solver..].
    assert (IsComplete a = true) as Ca by (destruct Wa as [?|[? _]]; congruence).
    assert (IsComplete b = true) as Cb by (destruct Wb as [?|[? _]]; congruence).
    apply canonical_signBytes_inj in H as [Hh Hp]; [|done..].
    destruct a, b; cbn in *. by subst.
Qed.

Lemma SignBytes_inj chain1 chain2 v1 v2 :
  vote_ints v1 → vote_ints v2 →
  Vote_ValidateBasic v1 = Ok tt → Vote_ValidateBasic v2 = Ok tt →
  merkle.no_collision sha256
    [[]; canonical_signBytes (Vote_BlockID v1); canonical_signBytes (Vote_BlockID v2)] →
  SignBytes sha256 chain1 (Vote_ToProto v1) = SignBytes sha256 chain2 (Vote_ToProto v2) →
  chain1 = chain2 ∧ Vote_Type v1 = Vote_Type v2 ∧ Vote_Height v1 = Vote_Height v2 ∧
  Vote_Round v1 = Vote_Round v2 ∧ Vote_BlockID v1 = Vote_BlockID v2.
Proof.
  intros (T1 & H1 & R1) (T2 & H2 & R2) V1%Vote_ValidateBasic_wf V2%Vote_ValidateBasic_wf Hc H.
  unfold SignBytes in H. cbn [Vote_ToProto PV_Type PV_Height PV_Round PV_BlockID] in H.
  fold (signed_block (Vote_BlockID v1)) in H.
  fold (signed_block (Vote_BlockID v2)) in H.
  destruct (length_signed_block _ V1), (length_signed_block _ V2).
  destruct (signed_block (Vote_BlockID v1)) as [b1 s1] eqn:E1.
  destruct (signed_block (Vote_BlockID v2)) as [b2 s2] eqn:E2. cbn in *.
  apply wire.le32_app_inj in H as [HT H]; [|done..].
  apply wire.le64_app_inj in H as [HH H]; [|done..].
  apply wire.le64_app_inj in H as [HR H]; [|unfold_ints; lia..].
  apply app_inj_1 in H as [-> H]; [|lia]. apply app_inj_1 in H as [-> ->]; [|lia].
  split_and!; try done. apply signed_block_inj; try done. congruence.
Qed.

(** C39: votes that pass [ValidateBasic] and have the same sign bytes agree on chain,
    type, height, round and block: one signature cannot be moved to a vote for
    another block, round or chain, unless SHA-256 collides on the encodings. *)
Theorem SignBytes_injective chain1 chain2 v1 v2 :
  vote_ints v1 → vote_ints v2 →
  Vote_ValidateBasic v1 = Ok tt → Vote_ValidateBasic v2 = Ok tt →
  merkle.no_collision sha256
    [[]; canonical_signBytes (Vote_BlockID v1); canonical_signBytes (Vote_BlockID v2)] →
  SignBytes sha256 chain1 (Vote_ToProto v1) = SignBytes sha256 chain2 (Vote_ToProto v2) →
  chain1 = chain2 ∧ Vote_Type v1 = Vote_Type v2 ∧ Vote_Height v1 = Vote_Height v2 ∧
  Vote_Round v1 = Vote_Round v2 ∧ Vote_BlockID v1 = Vote_BlockID v2.
Proof. apply SignBytes_inj. Qed.

End sign_bytes_inj.

(** ** Witnesses *)

Definition demo_hash (c : byte) : bytes := replicate 32 c.
Definition demo_block (c : byte) : BlockID :=
  mkBlockID (demo_hash c) (mkPSH 1 (demo_hash c)) (demo_hash c).
Definition demo_vote (t : Z) (signer : byte) (b : BlockID) : Vote :=
  mkVote t 5 0 b (demo_hash signer) 0 [signer] [].

Lemma SignBytes_injective_witness :
  ∃ sha256 : bytes → bytes, (∀ b, length (sha256 b) = 32) ∧
  let v := demo_vote 2 x08 (demo_block x01) in
  let w := demo_vote 2 x09 (demo_block x01) in
  SignBytes sha256 [x61] (Vote_ToProto v) = SignBytes sha256 [x61] (Vote_ToProto w) ∧
  Vote_BlockID v = Vote_BlockID w.
Proof.
  exists merkle.toy_hash. split; [exact merkle.toy_hash_len|]. cbn zeta.
  split; [vm_compute; reflexivity|].
  refine (proj2 (proj2 (proj2 (proj2 (SignBytes_injective merkle.toy_hash merkle.toy_hash_len
    [x61] [x61] (demo_vote 2 x08 (demo_block x01)) (demo_vote 2 x09 (demo_block x01)) _ _ _ _ _ _))))).
  - unfold vote_ints; unfold_ints; cbn; lia.
  - unfold vote_ints; unfold_ints; cbn; lia.
  - vm_compute; reflexivity.
  - vm_compute; reflexivity.
  - apply merkle.no_collision_decide. vm_compute. reflexivity.
  - reflexivity.
Defined.

(** The map key of a block id determines it for every id a valid vote can
    carry, so votes for different blocks are never tallied together. *)
Theorem Key_injective v1 v2 :
  Vote_ValidateBasic v1 = Ok tt → Vote_ValidateBasic v2 = Ok tt →
  Key (Vote_BlockID v1) = Key (Vote_BlockID v2) → Vote_BlockID v1 = Vote_BlockID v2.
Proof. intros ?%Vote_ValidateBasic_wf ?%Vote_ValidateBasic_wf. by apply Key_inj_wf. Qed.

Lemma Key_injective_witness :
  let v := demo_vote 1 x08 (demo_block x01) in let w := demo_vote 2 x09 (demo_block x01) in
  Key (Vote_BlockID v) = Key (Vote_BlockID w) ∧ Vote_BlockID v = Vote_BlockID w.
Proof.
  split; [reflexivity|].
  refine (Key_injective (demo_vote 1 x08 (demo_block x01)) (demo_vote 2 x09 (demo_block x01)) _ _ _);
    vm_compute; reflexivity.
Defined.

(** Without validation the concatenation is ambiguous. *)
Lemma Key_not_injective :
  ∃ a b, a ≠ b ∧ Key a = Key b.
Proof.
  exists (mkBlockID [x01] (mkPSH 0 []) []), (mkBlockID [] (mkPSH 0 []) [x01]).
  by split; [intros [=]|vm_compute].
Qed.

End types.
