(* ===== verification/Crypto.v ===== *)
(** * crypto: digests, keys and threshold recovery

    Models [src/crypto/crypto.go], the key and recovery functions of
    [src/crypto/bls12381/bls12381.go] and [Reverse] of [src/libs/bytes/bytes.go].
    The BLS bindings, SHA-256 and Ed25519 are external: [Crypto] is the interface
    the code calls; what a theorem relies on is among its hypotheses. *)
From Stdlib Require Import ZArith Lia Init.Byte.
From stdpp Require Import base numbers list sets.
From S2P Require Import Prelude.
From S2P Require Import Merkle.

(** The functions of [bls-signatures/go-bindings], [crypto/sha256] and
    [crypto/ed25519] that the code calls. *)
Class Crypto := {
  sha256 : bytes → bytes;
  G1Element : Type;
  G2Element : Type;
  G1ElementFromBytes : bytes → option G1Element;
  G2ElementFromBytes : bytes → option G2Element;
  G1_Serialize : G1Element → bytes;
  G2_Serialize : G2Element → bytes;
  schema_Verify : G1Element → bytes → G2Element → bool;
  ThresholdSignatureRecover : list G2Element → list bytes → option G2Element;
  ThresholdPublicKeyRecover : list G1Element → list bytes → option G1Element;
  BuildSignHash : Z → bytes → bytes → bytes → bytes;
  ed25519_Verify : bytes → bytes → bytes → bool }.

Module crypto.

Definition DefaultHashSize : nat := 32.
Definition PubKeySize : nat := 48.
Definition bls_SignatureSize : nat := 96.
Definition ed_SignatureSize : nat := 64.

(** [tmbytes.Reverse]: two indices walking towards each other. *)
Fixpoint reverse_loop {E} (fuel : nat) (bz s : bytes) (i j : Z) : outcome E bytes :=
  match fuel with
  | O => Ok s
  | S fuel =>
      if (i <=? j)%Z then
        bj ← index bz j; bi ← index bz i;
        s ← set_index s i bj; s ← set_index s j bi;
        reverse_loop fuel bz s (i + 1) (j - 1)
      else Ok s
  end.

Definition reverse_run {E} (bz : bytes) : outcome E bytes :=
  reverse_loop (S (length bz)) bz (replicate (length bz) x00) 0 (Z.of_nat (length bz) - 1).

Definition Reverse (bz : bytes) : bytes :=
  match reverse_run (E:=unit) bz with Ok s => s | _ => [] end.

(** ** Keys *)

Inductive KeyType := Ed25519 | BLS12381 | Secp256k1.

Global Instance KeyType_eq_dec : EqDecision KeyType.
Proof. solve_decision. Defined.

(** A [crypto.PubKey] is its dynamic type and its bytes. *)
Record PubKey := mkPubKey { pk_type : KeyType; pk_bytes : bytes }.

Global Instance PubKey_eq_dec : EqDecision PubKey.
Proof. solve_decision. Defined.

(** [PubKey.Equals]: same type, same bytes. *)
Definition PubKey_Equals (a b : PubKey) : bool :=
  bool_decide (pk_type a = pk_type b) && bool_decide (pk_bytes a = pk_bytes b).

Section keys.
Context `{Crypto}.

Definition Checksum (bz : bytes) : bytes := sha256 bz.

Definition bls_VerifySignatureDigest (pubKey hash sig : bytes) : bool :=
  if length sig =? 0 then false
  else if negb (length sig =? bls_SignatureSize) then false
  else
    match G1ElementFromBytes pubKey with
    | None => false
    | Some publicKey =>
        match G2ElementFromBytes sig with
        | None => false
        | Some blsSignature => schema_Verify publicKey hash blsSignature
        end
    end.

Definition ed_VerifySignatureDigest (pubKey hash sig : bytes) : bool :=
  if negb (length sig =? ed_SignatureSize) then false
  else ed25519_Verify pubKey hash sig.

Definition VerifySignatureDigest (pk : PubKey) (hash sig : bytes) : bool :=
  match pk_type pk with
  | BLS12381 => bls_VerifySignatureDigest (pk_bytes pk) hash sig
  | Ed25519 => ed_VerifySignatureDigest (pk_bytes pk) hash sig
  | Secp256k1 => false
  end.

(** ** Threshold recovery *)

Inductive recover_error :=
  | ErrShareCount
  | ErrShareBytes
  | ErrBlsIDSize
  | ErrRecover.

Definition bls_ids (blsIds : list bytes) : outcome recover_error (list bytes) :=
  if forallb (λ id, length id =? DefaultHashSize) blsIds
  then Ok (map Reverse blsIds) else Err ErrBlsIDSize.

Definition RecoverThresholdSignatureFromShares (sigSharesData blsIds : list bytes) :
    outcome recover_error bytes :=
  if negb (length sigSharesData =? length blsIds) then Err ErrShareCount
  else
    match sigSharesData with
    | [share] => Ok share
    | _ =>
        match mapM G2ElementFromBytes sigSharesData with
        | None => Err ErrShareBytes
        | Some sigShares =>
            hashes ← bls_ids blsIds;
            match ThresholdSignatureRecover sigShares hashes with
            | None => Err ErrRecover
            | Some thresholdSignature => Ok (G2_Serialize thresholdSignature)
            end
        end
    end.

(** [hashes[i] = hash] is out of range when there are more ids than keys; a nil
    key panics. *)
Definition RecoverThresholdPublicKeyFromPublicKeys
    (publicKeys : list (option PubKey)) (blsIds : list bytes) :
    outcome recover_error (option PubKey) :=
  match publicKeys with
  | [pk] => Ok pk
  | _ =>
      match mapM id publicKeys with
      | None => Panic
      | Some keys =>
          match mapM (λ pk, G1ElementFromBytes (pk_bytes pk)) keys with
          | None => Err ErrShareBytes
          | Some shares =>
              hashes ← bls_ids (take (length publicKeys) blsIds);
              if length publicKeys <? length blsIds then Panic
              else
                match ThresholdPublicKeyRecover shares
                        (hashes ++ replicate (length publicKeys - length blsIds)
                                             (replicate 32 x00)) with
                | None => Err ErrRecover
                | Some pk => Ok (Some (mkPubKey BLS12381 (G1_Serialize pk)))
                end
          end
      end
  end.

End keys.

(** ** [Reverse] reverses *)

Lemma reverse_loop_spec {E} fuel bz s i j :
  (j - i < Z.of_nat fuel)%Z → (0 ≤ i)%Z → (i + j = Z.of_nat (length bz) - 1)%Z →
  length s = length bz →
  (∀ k, k < length bz → (Z.of_nat k < i ∨ j < Z.of_nat k)%Z →
     s !! k = bz !! (length bz - 1 - k)) →
  ∃ s', reverse_loop (E:=E) fuel bz s i j = Ok s' ∧ length s' = length bz ∧
    ∀ k, k < length bz → s' !! k = bz !! (length bz - 1 - k).
Proof.
  revert s i j. induction fuel as [|fuel IH]; intros s i j Hf Hi Hij Hl Hd.
  - exists s. split_and!; [done..|]. intros k Hk. apply Hd; [done|lia].
  - cbn [reverse_loop]. destruct (Z.leb_spec i j) as [Hle|Hgt].
    2:{ exists s. split_and!; [done..|]. intros k Hk. apply Hd; [done|lia]. }
    destruct (lookup_lt_is_Some_2 bz (Z.to_nat j)) as [bj Hj]; [lia|].
    destruct (lookup_lt_is_Some_2 bz (Z.to_nat i)) as [bi Hbi]; [lia|].
    rewrite <- (Z2Nat.id j), <- (Z2Nat.id i) by lia.
    rewrite (index_Ok _ _ _ Hj), (index_Ok _ _ _ Hbi). orun.
    rewrite set_index_Ok by lia. orun. rewrite set_index_Ok by (rewrite length_insert; lia). orun.
    apply IH; rewrite ?length_insert; try lia. intros k Hk Hr.
    destruct (decide (k = Z.to_nat j)) as [->|Hkj].
    + rewrite list_lookup_insert_eq by (rewrite length_insert; lia).
      rewrite <- Hbi. f_equal. lia.
    + rewrite list_lookup_insert_ne by done.
      destruct (decide (k = Z.to_nat i)) as [->|Hki].
      * rewrite list_lookup_insert_eq by lia. rewrite <- Hj. f_equal. lia.
      * rewrite list_lookup_insert_ne by done. apply Hd; [done|lia].
Qed.

Lemma Reverse_rev bz : Reverse bz = rev bz.
Proof.
  unfold Reverse, reverse_run.
  destruct (reverse_loop_spec (E:=unit) (S (length bz)) bz (replicate (length bz) x00) 0
              (Z.of_nat (length bz) - 1)) as (s & -> & Hl & Hs);
    [lia|lia|lia|by rewrite length_replicate|lia|].
  apply list_eq_same_length with (n := length bz); [by rewrite length_rev|done|].
  intros k x y Hk Hx Hy. rewrite Hs in Hx by done.
  rewrite rev_alt in Hy. fold (reverse bz) in Hy. rewrite reverse_lookup in Hy by done.
  replace (length bz - S k) with (length bz - 1 - k) in Hy by lia. congruence.
Qed.

(** ** A concrete scheme

    Everybody signs a digest by repeating it three times; any share is the
    threshold signature.  It is worthless as cryptography and serves only to
    evaluate the definitions and to show that the hypotheses of the theorems can
    hold. *)

Definition toy_sign (h : bytes) : bytes := h ++ h ++ h.

Definition toy_crypto : Crypto := {|
  sha256 := merkle.toy_hash;
  G1Element := bytes;
  G2Element := bytes;
  G1ElementFromBytes := λ b, if length b =? PubKeySize then Some b else None;
  G2ElementFromBytes := λ b, if length b =? bls_SignatureSize then Some b else None;
  G1_Serialize := λ g, g;
  G2_Serialize := λ g, g;
  schema_Verify := λ _ h s, bool_decide (s = toy_sign h);
  ThresholdSignatureRecover := λ sigs _, head sigs;
  ThresholdPublicKeyRecover := λ pks _, head pks;
  BuildSignHash := λ t q i m, merkle.toy_hash (q ++ i ++ m);
  ed25519_Verify := λ _ _ _, false |}.

Definition toy_key : PubKey := mkPubKey BLS12381 (replicate 48 x01).

End crypto.
