(* ===== verification/QuorumSign.v ===== *)
(** * types: quorum signing data and its verification

    Models [src/types/quorum_sign_data.go], the signing side of
    [src/types/vote_extension.go] and [src/types/canonical.go],
    [src/types/quorum.go], the verification methods of [src/types/vote.go] and
    the evidence of [src/types/vote_verification.go].

    A verification budget is an oracle: it answers a request from the costs
    already granted in the same verification. *)
From Stdlib Require Import ZArith Lia Init.Byte.
From stdpp Require Import base numbers list sets.
From S2P Require Import Prelude.
From S2P Require Import SafeMath.
From S2P Require Import Wire.
From S2P Require Import Merkle.
From S2P Require Import PartSet.
From S2P Require Import Types.
From S2P Require Import Crypto.

Import types crypto.

Module quorum.

Inductive sign_error :=
  | ErrExtension (e : ext_error)
  | ErrTooManyVoteExtensions (n : nat)
  | ErrVoteInvalidBlockSignature
  | ErrVoteExtensionCountMismatch (extensions signatures : nat)
  | ErrVoteExtensionSignature (i : nat)
  | ErrVerificationBudgetExhausted
  | ErrVoteInvalidValidatorProTxHash
  | ErrVoteMissingValidatorPubKey
  | ErrVoteInvalidValidatorPubKeySize
  | ErrVoteInvalidExtension
  | ErrVoteNil
  | ErrVoteVerificationMismatch.

Notation res := (outcome sign_error).

Definition from_math {E A} (m : outcome math_error A) : outcome E A :=
  match m with Ok a => Ok a | _ => Panic end.

Definition MaxVoteExtensions : nat := 32.

(** [btcjson.LLMQType] is a named [int]. *)
Definition LLMQType : Integer := mkInteger KInt true.

Record SignItem := mkSignItem {
  SI_LlmqType : Z;
  SI_ID : bytes;
  SI_MsgHash : bytes;
  SI_QuorumHash : bytes;
  SI_SignHash : bytes;
  SI_Msg : bytes }.

Record QuorumSignData := mkQSD {
  QSD_Block : SignItem;
  QSD_VoteExtensionSignItems : list SignItem }.

Record QuorumSigns := mkQS {
  QS_BlockSign : bytes;
  QS_VoteExtensionSignatures : list bytes }.

Definition budget := list Z → Z → bool.

Section sign_data.
Context `{Crypto}.

(** [SignItem.Validate], as a test. *)
Definition SignItem_Validate (i : SignItem) : bool :=
  (length (SI_ID i) =? DefaultHashSize) &&
  (length (SI_MsgHash i) =? DefaultHashSize) &&
  (length (SI_QuorumHash i) =? DefaultHashSize) &&
  ((length (SI_Msg i) =? 0) || bool_decide (Checksum (SI_Msg i) = SI_MsgHash i)).

Definition blsHash (b : bytes) : bytes := go_copy (replicate 32 x00) b.

Definition UpdateSignHash {E} (i : SignItem) (reverse : bool) : outcome E SignItem :=
  if negb (SignItem_Validate i) then Panic
  else
    let rv := λ b, if reverse then Reverse b else b in
    llmqType ← from_math (MustConvertUint8 LLMQType (SI_LlmqType i));
    let blsSignHash := BuildSignHash llmqType (blsHash (rv (SI_QuorumHash i)))
                         (blsHash (rv (SI_ID i))) (blsHash (rv (SI_MsgHash i))) in
    Ok (mkSignItem (SI_LlmqType i) (SI_ID i) (SI_MsgHash i) (SI_QuorumHash i)
          (blsHash blsSignHash) (SI_Msg i)).

Definition NewSignItemFromHash {E} (quorumType : Z) (quorumHash reqID msgHash : bytes) :
    outcome E SignItem :=
  UpdateSignHash (mkSignItem quorumType reqID msgHash quorumHash [] []) true.

Definition NewSignItem {E} (quorumType : Z) (quorumHash reqID msg : bytes) :
    outcome E SignItem :=
  let msgHash := Checksum msg in
  item ← NewSignItemFromHash quorumType quorumHash reqID msgHash;
  Ok (mkSignItem (SI_LlmqType item) (SI_ID item) (SI_MsgHash item) (SI_QuorumHash item)
        (SI_SignHash item) msg).

Definition VerifySignature {E} (i : SignItem) (pubkey : option PubKey) (sig : bytes) :
    outcome E bool :=
  pk ← deref pubkey; Ok (VerifySignatureDigest pk (SI_SignHash i) sig).

Definition dpbvote : bytes := [x64; x70; x62; x76; x6f; x74; x65].
Definition dpevote : bytes := [x64; x70; x65; x76; x6f; x74; x65].

Definition heightRoundRequestID (prefix : bytes) (height round : Z) : bytes :=
  Checksum (prefix ++ wire.le64 (uint64 height) ++ wire.le32 (uint32 round)).

Definition BlockRequestID (height round : Z) : bytes :=
  heightRoundRequestID dpbvote height round.

Definition voteExtensionRequestID (height round : Z) : bytes :=
  heightRoundRequestID dpevote height round.

(** ** Sign items of votes and extensions *)

Definition CanonicalizeVoteExtension (chainID : bytes) (ext : VoteExtension)
    (height round : Z) : outcome ext_error bytes :=
  if (VE_Type ext =? DEFAULT)%Z || (VE_Type ext =? THRESHOLD_RECOVER)%Z
  then Ok (wire.marshal_CanonicalVoteExtension (VE_Extension ext) height round chainID
             (VE_Type ext))
  else Err ErrNoCanonicalForm.

Definition Generic_SignItem (e : VoteExtension) (chainID : bytes) (height round quorumType : Z)
    (quorumHash : bytes) : outcome ext_error SignItem :=
  let requestID := voteExtensionRequestID height round in
  canonical ← CanonicalizeVoteExtension chainID e height round;
  let signBytes := wire.MarshalDelimited canonical in
  NewSignItem quorumType quorumHash requestID signBytes.

Definition ThresholdRaw_SignItem (ext : VoteExtension) (height round quorumType : Z)
    (quorumHash : bytes) : outcome ext_error SignItem :=
  let signRequestID :=
    match VE_SignRequestId ext with
    | Some receivedReqID => Reverse (Checksum (Checksum receivedReqID))
    | None => voteExtensionRequestID height round
    end in
  if negb (length (VE_Extension ext) =? DefaultHashSize) then Err ErrRawExtensionSize
  else
    let msgHash := Reverse (VE_Extension ext) in
    NewSignItemFromHash quorumType quorumHash signRequestID msgHash.

(** Dynamic dispatch of [VoteExtensionIf.SignItem]. *)
Definition ext_SignItem (e : VoteExtensionIf) (chainID : bytes) (height round quorumType : Z)
    (quorumHash : bytes) : outcome ext_error SignItem :=
  match vei_class e with
  | Generic | Threshold => Generic_SignItem (vei_pb e) chainID height round quorumType quorumHash
  | ThresholdRaw => ThresholdRaw_SignItem (vei_pb e) height round quorumType quorumHash
  end.

Fixpoint SignItems (es : list VoteExtensionIf) (chainID : bytes) (quorumType : Z)
    (quorumHash : bytes) (height round : Z) : outcome ext_error (list SignItem) :=
  match es with
  | [] => Ok []
  | ext :: es =>
      item ← ext_SignItem ext chainID height round quorumType quorumHash;
      items ← SignItems es chainID quorumType quorumHash height round;
      Ok (item :: items)
  end.

Definition MakeBlockSignItem {E} (chainID : bytes) (vote : ProtoVote) (quorumType : Z)
    (quorumHash : bytes) : outcome E SignItem :=
  let reqID := BlockRequestID (PV_Height vote) (PV_Round vote) in
  let raw := SignBytes sha256 chainID vote in
  NewSignItem quorumType quorumHash reqID raw.

Definition MakeQuorumSigns (chainID : bytes) (quorumType : Z) (quorumHash : bytes)
    (protoVote : ProtoVote) : res QuorumSignData :=
  extensions ← wrap_err ErrExtension (VoteExtensionsFromProto (PV_VoteExtensions protoVote));
  block ← MakeBlockSignItem chainID protoVote quorumType quorumHash;
  items ← wrap_err ErrExtension
    (SignItems (recoverable extensions) chainID quorumType quorumHash
       (PV_Height protoVote) (PV_Round protoVote));
  Ok (mkQSD block items).

Definition makeVerifyQuorumSigns (chainID : bytes) (quorumType : Z) (quorumHash : bytes)
    (protoVote : ProtoVote) : res QuorumSignData :=
  let n := length (PV_VoteExtensions protoVote) in
  if MaxVoteExtensions <? n then Err (ErrTooManyVoteExtensions n)
  else MakeQuorumSigns chainID quorumType quorumHash protoVote.

(** ** Verification *)

Definition VerifyBlock (q : QuorumSignData) (pubKey : option PubKey) (signs : QuorumSigns) :
    res unit :=
  ok ← VerifySignature (QSD_Block q) pubKey (QS_BlockSign signs);
  if (ok : bool) then Ok tt else Err ErrVoteInvalidBlockSignature.

Definition validateVoteExtensionCount (q : QuorumSignData) (signs : QuorumSigns) : res unit :=
  let m := length (QSD_VoteExtensionSignItems q) in
  let n := length (QS_VoteExtensionSignatures signs) in
  if negb (m =? n) then Err (ErrVoteExtensionCountMismatch m n) else Ok tt.

(** The loop over the sign items; [signatures[i]] panics out of range. *)
Fixpoint verify_items (i : nat) (items : list SignItem) (pubKey : option PubKey)
    (sigs : list bytes) : res unit :=
  match items, sigs with
  | [], _ => Ok tt
  | signItem :: items, sig :: sigs =>
      ok ← VerifySignature signItem pubKey sig;
      if negb ok then Err (ErrVoteExtensionSignature i)
      else verify_items (S i) items pubKey sigs
  | _ :: _, [] => Panic
  end.

Definition VerifyVoteExtensions (q : QuorumSignData) (pubKey : option PubKey)
    (signs : QuorumSigns) : res unit :=
  _ ← validateVoteExtensionCount q signs;
  verify_items 0 (QSD_VoteExtensionSignItems q) pubKey (QS_VoteExtensionSignatures signs).

(** [QuorumSignData.verify]; [None] is a nil budget. *)
Definition qsd_verify (q : QuorumSignData) (pubKey : option PubKey) (signs : QuorumSigns)
    (b : option budget) : res unit :=
  let cost := Z.of_nat (length (QSD_VoteExtensionSignItems q)) in
  if match b with Some allow => negb (allow [] 1%Z) | None => false end
  then Err ErrVerificationBudgetExhausted
  else
    _ ← VerifyBlock q pubKey signs;
    _ ← validateVoteExtensionCount q signs;
    if match b with
       | Some allow => (0 <? cost)%Z && negb (allow [1%Z] cost)
       | None => false
       end
    then Err ErrVerificationBudgetExhausted
    else VerifyVoteExtensions q pubKey signs.

Definition vote_makeQuorumSigns (vote : Vote) : QuorumSigns :=
  mkQS (Vote_BlockSignature vote) (GetSignatures (recoverable (Vote_VoteExtensions vote))).

Definition verifyBasic (vote : Vote) (proTxHash : bytes) (pubKey : option PubKey) : res unit :=
  if negb (bool_decide (proTxHash = Vote_ValidatorProTxHash vote))
  then Err ErrVoteInvalidValidatorProTxHash
  else
    match pubKey with
    | None => Err ErrVoteMissingValidatorPubKey
    | Some pk =>
        if negb (length (pk_bytes pk) =? PubKeySize) then Err ErrVoteInvalidValidatorPubKeySize
        else if negb (Vote_Type vote =? PrecommitType)%Z &&
                (0 <? length (Vote_VoteExtensions vote))
        then Err ErrVoteInvalidExtension
        else Ok tt
    end.

Definition verifyReportingSigns (vote : Vote) (chainID : bytes) (quorumType : Z)
    (quorumHash : bytes) (pubKey : option PubKey) (proTxHash : bytes) (b : option budget) :
    res (QuorumSignData * QuorumSigns) :=
  quorumSignData ← makeVerifyQuorumSigns chainID quorumType quorumHash (Vote_ToProto vote);
  _ ← verifyBasic vote proTxHash pubKey;
  let signs := vote_makeQuorumSigns vote in
  _ ← qsd_verify quorumSignData pubKey signs b;
  Ok (quorumSignData, signs).

(** [Vote.Verify] with a nil budget, [Vote.VerifyWithBudget] otherwise. *)
Definition vote_verify (vote : Vote) (chainID : bytes) (quorumType : Z) (quorumHash : bytes)
    (pubKey : option PubKey) (proTxHash : bytes) (b : option budget) : res unit :=
  _ ← verifyReportingSigns vote chainID quorumType quorumHash pubKey proTxHash b; Ok tt.

Definition VerifyExtensionSign (vote : Vote) (chainID : bytes) (pubKey : option PubKey)
    (quorumType : Z) (quorumHash : bytes) : res unit :=
  if negb (Vote_Type vote =? PrecommitType)%Z || IsNil (Vote_BlockID vote) then Ok tt
  else
    quorumSignData ← makeVerifyQuorumSigns chainID quorumType quorumHash (Vote_ToProto vote);
    VerifyVoteExtensions quorumSignData pubKey (vote_makeQuorumSigns vote).

Definition verifyBlockAndExtensionSigns (vote : Vote) (chainID : bytes)
    (pubKey : option PubKey) (quorumType : Z) (quorumHash : bytes) (b : option budget) :
    res unit :=
  if negb (Vote_Type vote =? PrecommitType)%Z || IsNil (Vote_BlockID vote) then Ok tt
  else
    quorumSignData ← makeVerifyQuorumSigns chainID quorumType quorumHash (Vote_ToProto vote);
    qsd_verify quorumSignData pubKey (vote_makeQuorumSigns vote) b.

(** ** Evidence that a vote was verified *)

(** A vote in memory: its address and what the address holds now. *)
Record vote_ref := mkRef { ref_addr : nat; ref_vote : Vote }.

Record VoteVerification := mkVV {
  VV_vote : option nat;
  VV_chainID : bytes;
  VV_quorumType : Z;
  VV_quorumHash : bytes;
  VV_proTxHash : bytes;
  VV_pubKeyType : KeyType;
  VV_pubKeyBytes : bytes;
  VV_signHashes : list bytes;
  VV_signatures : list bytes }.

Definition signedContent (signData : QuorumSignData) (signs : QuorumSigns) :
    list bytes * list bytes :=
  (SI_SignHash (QSD_Block signData) :: map SI_SignHash (QSD_VoteExtensionSignItems signData),
   QS_BlockSign signs :: QS_VoteExtensionSignatures signs).

Definition VerifyVoteSignatures (vote : option vote_ref) (chainID : bytes) (quorumType : Z)
    (quorumHash : bytes) (pubKey : option PubKey) (proTxHash : bytes) (b : option budget) :
    res VoteVerification :=
  match vote with
  | None => Err ErrVoteNil
  | Some r =>
      '(signData, signs) ←
        verifyReportingSigns (ref_vote r) chainID quorumType quorumHash pubKey proTxHash b;
      pk ← deref pubKey;
      let '(signHashes, signatures) := signedContent signData signs in
      Ok (mkVV (Some (ref_addr r)) chainID quorumType quorumHash proTxHash (pk_type pk)
            (pk_bytes pk) signHashes signatures)
  end.

(** [checkMatches]: every failure is an [ErrVoteVerificationMismatch]. *)
Definition mismatch {A} (m : res A) : res A :=
  match m with Err _ => Err ErrVoteVerificationMismatch | _ => m end.

Definition checkMatches (v : VoteVerification) (r : vote_ref) (chainID : bytes)
    (quorumType : Z) (quorumHash : bytes) (pubKey : option PubKey) (proTxHash : bytes) :
    res unit :=
  let vote := ref_vote r in
  let fail := Err ErrVoteVerificationMismatch in
  if negb (bool_decide (VV_vote v = Some (ref_addr r))) then fail
  else if negb (bool_decide (VV_chainID v = chainID)) then fail
  else if negb (VV_quorumType v =? quorumType)%Z then fail
  else if negb (bool_decide (VV_quorumHash v = quorumHash)) then fail
  else if negb (match pubKey with
                | None => false
                | Some pk => bool_decide (pk_type pk = VV_pubKeyType v) &&
                             bool_decide (VV_pubKeyBytes v = pk_bytes pk)
                end) then fail
  else if negb (bool_decide (VV_proTxHash v = proTxHash)) then fail
  else
    _ ← mismatch (verifyBasic vote proTxHash pubKey);
    signData ← mismatch (makeVerifyQuorumSigns chainID quorumType quorumHash (Vote_ToProto vote));
    let '(signHashes, signatures) := signedContent signData (vote_makeQuorumSigns vote) in
    if negb (bool_decide (VV_signHashes v = signHashes)) then fail
    else if negb (bool_decide (VV_signatures v = signatures)) then fail
    else Ok tt.

(** ** Signatures of commits *)

(** [NewQuorumSignsFromCommit]; a nil extension panics. *)
Definition NewQuorumSignsFromCommit {E} (commit : Commit) : outcome E QuorumSigns :=
  match mapM id (Commit_ThresholdVoteExtensions commit) with
  | None => Panic
  | Some exts => Ok (mkQS (Commit_ThresholdBlockSignature commit) (map VE_Signature exts))
  end.

Definition set_signature (ve : VoteExtension) (sig : bytes) : VoteExtension :=
  mkVE (VE_Type ve) (VE_Extension ve) sig (VE_SignRequestId ve).

(** [CommitSigns.CopyToCommit]. *)
Definition CopyToCommit {E} (signs : QuorumSigns) (quorumHash : bytes) (commit : Commit) :
    outcome E Commit :=
  if negb (length (QS_VoteExtensionSignatures signs) =?
           length (Commit_ThresholdVoteExtensions commit)) then Panic
  else
    match mapM id (Commit_ThresholdVoteExtensions commit) with
    | None => Panic
    | Some exts =>
        Ok (mkCommit (Commit_Height commit) (Commit_Round commit) (Commit_BlockID commit)
              quorumHash (QS_BlockSign signs)
              (map Some (zip_with set_signature exts (QS_VoteExtensionSignatures signs))))
    end.

(** ** What a successful verification means *)

(** Each signature is valid for the digest at its position. *)
Definition all_valid (pk : PubKey) (hashes sigs : list bytes) : Prop :=
  Forall2 (λ h s, VerifySignatureDigest pk h s = true) hashes sigs.

Lemma verify_items_spec i items pk sigs :
  length items = length sigs →
  verify_items i items (Some pk) sigs = Ok tt ↔ all_valid pk (map SI_SignHash items) sigs.
Proof.
  unfold all_valid. revert i sigs.
  induction items as [|x items IH]; intros i [|s sigs] Hl; try done; cbn.
  injection Hl as Hl. rewrite Forall2_cons, <- (IH (S i)) by done.
  destruct (VerifySignatureDigest _ _ _); cbn; naive_solver.
Qed.

Lemma verify_items_no_panic i items pk sigs :
  length items = length sigs → verify_items i items (Some pk) sigs ≠ Panic.
Proof.
  revert i sigs. induction items as [|x items IH]; intros i [|s sigs] Hl; try done; cbn.
  split_if; [done|]. apply IH. by injection Hl.
Qed.

(** Without a budget, exactly the pairs of digest and signature decide. *)
Lemma qsd_verify_spec q pk signs :
  qsd_verify q (Some pk) signs None = Ok tt ↔
  all_valid pk (signedContent q signs).1 (signedContent q signs).2.
Proof.
  unfold qsd_verify, VerifyBlock, VerifySignature, all_valid. cbn [signedContent fst snd deref].
  orun. rewrite Forall2_cons.
  destruct (VerifySignatureDigest _ _ _) eqn:Hb; orun; [|split; [done|by intros []]].
  unfold VerifyVoteExtensions, validateVoteExtensionCount.
  destruct (_ =? _) eqn:Hc; cbn [negb]; orun.
  - apply Nat.eqb_eq in Hc. rewrite verify_items_spec by done. tauto.
  - apply Nat.eqb_neq in Hc. split; [done|]. intros [_ Hf].
    apply Forall2_length in Hf. rewrite length_map in Hf. done.
Qed.

(** A budget only ever rejects. *)
Lemma qsd_verify_budget q pk signs b :
  qsd_verify q pk signs b = Ok tt → qsd_verify q pk signs None = Ok tt.
Proof.
  unfold qsd_verify. destruct b as [allow|]; [|done]. intros Hv. ok_inv.
  units.
  repeat match goal with H : ?m = Ok tt |- context [?m] => rewrite H; orun end. done.
Qed.

Lemma qsd_verify_no_panic q pk signs b : qsd_verify q (Some pk) signs b ≠ Panic.
Proof.
  unfold qsd_verify, VerifyVoteExtensions, VerifyBlock, VerifySignature.
  cbn [deref]. orun. split_if; [done|].
  destruct (VerifySignatureDigest _ _ _); orun; [|done].
  unfold validateVoteExtensionCount. destruct (_ =? _) eqn:Hc; cbn [negb]; orun; [|done].
  split_if; [done|]. orun.
  apply verify_items_no_panic. by apply Nat.eqb_eq.
Qed.

(** ** Sign items never panic on a proper quorum *)

(** The parameters of a validator set that passed [ValidateBasic]. *)
Definition quorum_ok (quorumType : Z) (quorumHash : bytes) : Prop :=
  (0 ≤ quorumType ≤ MaxUint8)%Z ∧ length quorumHash = DefaultHashSize.

Section no_panic.
Hypothesis sha_len : ∀ b, length (sha256 b) = 32.

Lemma MustConvertUint8_ok t : (0 ≤ t ≤ MaxUint8)%Z → MustConvertUint8 LLMQType t = Ok t.
Proof.
  intros Ht. unfold MustConvertUint8, MustConvert, SafeConvert, LLMQType.
  cbn [type_switch ty_named ty_kind].
  destruct (SafeConvert_tail_spec KUint8 t) as [[_ ->]|[[] _]]; [unfold_ints; lia|done|].
  unfold in_kind; cbn. unfold_ints; lia.
Qed.

Lemma length_Reverse b : length (Reverse b) = length b.
Proof. by rewrite Reverse_rev, length_rev. Qed.

Lemma NewSignItemFromHash_ok {E} qt qh id mh :
  quorum_ok qt qh → length id = 32 → length mh = 32 →
  ∃ i, NewSignItemFromHash (E:=E) qt qh id mh = Ok i.
Proof.
  intros [Ht Hq] Hi Hm. unfold NewSignItemFromHash, UpdateSignHash, SignItem_Validate.
  cbn [SI_ID SI_MsgHash SI_QuorumHash SI_Msg SI_LlmqType]. rewrite Hq, Hi, Hm.
  rewrite MustConvertUint8_ok by done. cbn. eauto.
Qed.

Lemma NewSignItem_ok {E} qt qh id msg :
  quorum_ok qt qh → length id = 32 → ∃ i, NewSignItem (E:=E) qt qh id msg = Ok i.
Proof.
  intros Hq Hi. unfold NewSignItem, Checksum.
  destruct (NewSignItemFromHash_ok (E:=E) qt qh id (sha256 msg)) as [i ->]; eauto.
Qed.

Lemma ext_SignItem_no_panic e chain h r qt qh :
  quorum_ok qt qh → ext_SignItem e chain h r qt qh ≠ Panic.
Proof.
  intros Hq. unfold ext_SignItem.
  assert (Generic_SignItem (vei_pb e) chain h r qt qh ≠ Panic) as Hg.
  { unfold Generic_SignItem, CanonicalizeVoteExtension. split_if; orun; [|done].
    edestruct (NewSignItem_ok (E:=ext_error)) as [i ->]; [done|apply sha_len|done]. }
  destruct (vei_class e); [done|done|].
  unfold ThresholdRaw_SignItem. destruct (length (VE_Extension _) =? _) eqn:Hl; cbn [negb]; [|done].
  edestruct (NewSignItemFromHash_ok (E:=ext_error) qt qh) as [i ->]; [done| | |done].
  - destruct (VE_SignRequestId _); [rewrite length_Reverse|]; apply sha_len.
  - rewrite length_Reverse. by apply Nat.eqb_eq.
Qed.

Lemma SignItems_no_panic es chain qt qh h r :
  quorum_ok qt qh → SignItems es chain qt qh h r ≠ Panic.
Proof.
  intros Hq. induction es as [|e es IH]; cbn; [done|].
  destruct (ext_SignItem e chain h r qt qh) eqn:He; cbn; [|done|].
  - destruct (SignItems _ _ _ _ _ _); cbn; done.
  - by apply ext_SignItem_no_panic in He.
Qed.

Lemma VoteExtensionsFromProto_no_panic l : VoteExtensionsFromProto l ≠ Panic.
Proof.
  unfold VoteExtensionsFromProto. generalize 0.
  induction l as [|[e|] l IH]; intros i; cbn; [done| |done].
  unfold VoteExtensionFromProto.
  repeat (split_if; cbn; [specialize (IH (S i));
    destruct (VoteExtensionsFromProto_from _ _); cbn; done|]). done.
Qed.

Lemma makeVerifyQuorumSigns_no_panic chain qt qh v :
  quorum_ok qt qh → makeVerifyQuorumSigns chain qt qh v ≠ Panic.
Proof.
  intros Hq. unfold makeVerifyQuorumSigns, MakeQuorumSigns. split_if; [done|].
  pose proof (VoteExtensionsFromProto_no_panic (PV_VoteExtensions v)).
  destruct (VoteExtensionsFromProto _) as [es| |]; orun; cbn [wrap_err]; orun; try done.
  unfold MakeBlockSignItem.
  edestruct (NewSignItem_ok (E:=sign_error)) as [i ->]; [done|apply sha_len|]. orun.
  pose proof (SignItems_no_panic (recoverable es) chain qt qh (PV_Height v) (PV_Round v) Hq).
  destruct (SignItems _ _ _ _ _ _); orun; cbn [wrap_err]; orun; done.
Qed.

Lemma vote_verify_returns vote chainID quorumType quorumHash pubKey proTxHash b :
  quorum_ok quorumType quorumHash →
  vote_verify vote chainID quorumType quorumHash pubKey proTxHash b ≠ Panic.
Proof.
  intros Hq. unfold vote_verify, verifyReportingSigns.
  pose proof (makeVerifyQuorumSigns_no_panic chainID _ _ (Vote_ToProto vote) Hq).
  destruct (makeVerifyQuorumSigns _ _ _ _) as [q| |]; orun; try done.
  unfold verifyBasic. destruct (bool_decide _); cbn [negb]; orun; [|done].
  destruct pubKey as [pk|]; orun; [|done].
  repeat (split_if; orun; [done|]).
  pose proof (qsd_verify_no_panic q pk (vote_makeQuorumSigns vote) b).
  destruct (qsd_verify _ _ _ _); orun; done.
Qed.

Lemma checkMatches_returns v r chainID qt qh pubKey proTxHash :
  quorum_ok qt qh → checkMatches v r chainID qt qh pubKey proTxHash ≠ Panic.
Proof.
  intros Hq. unfold checkMatches. repeat (split_if; [done|]).
  pose proof (makeVerifyQuorumSigns_no_panic chainID _ _ (Vote_ToProto (ref_vote r)) Hq) as Hm.
  assert (verifyBasic (ref_vote r) proTxHash pubKey ≠ Panic) as Hb.
  { unfold verifyBasic. split_if; [done|]. destruct pubKey; [|done]. by repeat (split_if; [done|]). }
  destruct (verifyBasic _ _ _); cbn [mismatch]; orun; try done.
  destruct (makeVerifyQuorumSigns _ _ _ _); cbn [mismatch]; orun; try done.
  cbn [signedContent]. by repeat (split_if; [done|]).
Qed.

(** Verifying a vote never panics, whatever the vote holds: on the parameters
    of a validated validator set every malformed extension, key or signature is
    an error value. *)
Theorem vote_verify_no_panic vote chainID quorumType quorumHash pubKey proTxHash b :
  quorum_ok quorumType quorumHash →
  vote_verify vote chainID quorumType quorumHash pubKey proTxHash b ≠ Panic.
Proof. apply vote_verify_returns. Qed.

End no_panic.

(** The conditions under which [Vote.Verify] accepts. *)
Definition vote_valid (vote : Vote) (chainID : bytes) (quorumType : Z) (quorumHash : bytes)
    (pubKey : option PubKey) (proTxHash : bytes) : Prop :=
  ∃ pk q, pubKey = Some pk ∧ length (pk_bytes pk) = PubKeySize ∧
    proTxHash = Vote_ValidatorProTxHash vote ∧
    length (Vote_VoteExtensions vote) ≤ MaxVoteExtensions ∧
    (Vote_Type vote ≠ PrecommitType → Vote_VoteExtensions vote = []) ∧
    MakeQuorumSigns chainID quorumType quorumHash (Vote_ToProto vote) = Ok q ∧
    all_valid pk (SI_SignHash (QSD_Block q) :: map SI_SignHash (QSD_VoteExtensionSignItems q))
      (Vote_BlockSignature vote :: GetSignatures (recoverable (Vote_VoteExtensions vote))).

Lemma makeVerifyQuorumSigns_Ok chainID qt qh vote q :
  makeVerifyQuorumSigns chainID qt qh (Vote_ToProto vote) = Ok q ↔
  length (Vote_VoteExtensions vote) ≤ MaxVoteExtensions ∧
  MakeQuorumSigns chainID qt qh (Vote_ToProto vote) = Ok q.
Proof.
  unfold makeVerifyQuorumSigns. cbn [Vote_ToProto PV_VoteExtensions].
  unfold VoteExtensions_ToProto. rewrite length_map.
  destruct (Nat.ltb_spec MaxVoteExtensions (length (Vote_VoteExtensions vote))); [|naive_solver].
  split; [done|]. intros [? _]. lia.
Qed.

Lemma verifyBasic_Ok vote proTxHash pubKey :
  verifyBasic vote proTxHash pubKey = Ok tt ↔
  ∃ pk, pubKey = Some pk ∧ length (pk_bytes pk) = PubKeySize ∧
    proTxHash = Vote_ValidatorProTxHash vote ∧
    (Vote_Type vote ≠ PrecommitType → Vote_VoteExtensions vote = []).
Proof.
  unfold verifyBasic. split.
  - intros Hv. destruct pubKey as [pk|]; ok_inv. exists pk. bools; split_and!; try done.
    intros _. apply nil_length_inv. lia.
  - intros (pk & -> & Hl & -> & Hx). rewrite bool_decide_eq_true_2, Hl by done. cbn [negb].
    destruct (Z.eqb_spec (Vote_Type vote) PrecommitType); [done|]. by rewrite Hx.
Qed.

Lemma vote_verify_Ok vote chainID qt qh pubKey proTxHash :
  vote_verify vote chainID qt qh pubKey proTxHash None = Ok tt ↔
  vote_valid vote chainID qt qh pubKey proTxHash.
Proof.
  unfold vote_verify, verifyReportingSigns, vote_valid. split.
  - intros Hv. ok_inv.
    units.
    match goal with H : verifyBasic _ _ _ = _ |- _ =>
      apply verifyBasic_Ok in H as (pk & -> & ? & -> & ?) end.
    match goal with H : makeVerifyQuorumSigns _ _ _ _ = _ |- _ =>
      apply makeVerifyQuorumSigns_Ok in H as [? ?] end.
    match goal with H : qsd_verify _ _ _ _ = _ |- _ => apply qsd_verify_spec in H end.
    eauto 15.
  - intros (pk & q & -> & Hl & -> & Hn & Hx & Hq & Hv).
    destruct (makeVerifyQuorumSigns_Ok chainID qt qh vote q) as [_ ->]; [|done]. orun.
    destruct (verifyBasic_Ok vote (Vote_ValidatorProTxHash vote) (Some pk)) as [_ ->]; [|eauto].
    orun. destruct (qsd_verify_spec q pk (vote_makeQuorumSigns vote)) as [_ ->]; done.
Qed.

Lemma vote_verify_budget vote chainID qt qh pubKey proTxHash b :
  vote_verify vote chainID qt qh pubKey proTxHash b = Ok tt →
  vote_verify vote chainID qt qh pubKey proTxHash None = Ok tt.
Proof.
  unfold vote_verify, verifyReportingSigns. intros Hv. ok_inv.
  units.
  match goal with H : qsd_verify _ _ _ _ = _ |- _ => apply qsd_verify_budget in H end.
  repeat match goal with H : ?m = Ok _ |- context [?m] => rewrite H; orun end. done.
Qed.

(** What [Vote.Verify] accepts: the key and signer are the validator's, the
    vote carries at most 32 extensions, only on a precommit, and the block
    signature and the signature of every recoverable extension verify.
    Verification with a budget accepts no more than that. *)
Theorem vote_verify_spec vote chainID quorumType quorumHash pubKey proTxHash :
  (vote_verify vote chainID quorumType quorumHash pubKey proTxHash None = Ok tt ↔
   vote_valid vote chainID quorumType quorumHash pubKey proTxHash) ∧
  (∀ b, vote_verify vote chainID quorumType quorumHash pubKey proTxHash (Some b) = Ok tt →
   vote_valid vote chainID quorumType quorumHash pubKey proTxHash).
Proof.
  split; [apply vote_verify_Ok|]. intros b Hv%vote_verify_budget. by apply vote_verify_Ok.
Qed.

(** ** Evidence *)

Lemma evidence_accepts v r chainID qt qh pk proTxHash b :
  VerifyVoteSignatures (Some r) chainID qt qh (Some pk) proTxHash b = Ok v →
  ∃ q, makeVerifyQuorumSigns chainID qt qh (Vote_ToProto (ref_vote r)) = Ok q ∧
    verifyBasic (ref_vote r) proTxHash (Some pk) = Ok tt ∧
    all_valid pk (VV_signHashes v) (VV_signatures v) ∧
    v = mkVV (Some (ref_addr r)) chainID qt qh proTxHash (pk_type pk) (pk_bytes pk)
          (signedContent q (vote_makeQuorumSigns (ref_vote r))).1
          (signedContent q (vote_makeQuorumSigns (ref_vote r))).2.
Proof.
  cbn [VerifyVoteSignatures deref]. unfold verifyReportingSigns. orun. intros Hv. ok_inv.
  units.
  cbn [signedContent] in Hv. injection Hv as <-.
  eexists. split_and!; [eassumption|eassumption| |reflexivity].
  match goal with H : qsd_verify _ _ _ _ = _ |- _ =>
    apply qsd_verify_budget, qsd_verify_spec in H; exact H end.
Qed.

Lemma mismatch_Ok {A} (m : res A) a : mismatch m = Ok a → m = Ok a.
Proof. by destruct m. Qed.

Lemma checkMatches_Ok v r chainID qt qh pubKey proTxHash :
  checkMatches v r chainID qt qh pubKey proTxHash = Ok tt ↔
  VV_vote v = Some (ref_addr r) ∧ VV_chainID v = chainID ∧ VV_quorumType v = qt ∧
  VV_quorumHash v = qh ∧ pubKey = Some (mkPubKey (VV_pubKeyType v) (VV_pubKeyBytes v)) ∧
  VV_proTxHash v = proTxHash ∧ verifyBasic (ref_vote r) proTxHash pubKey = Ok tt ∧
  ∃ q, makeVerifyQuorumSigns chainID qt qh (Vote_ToProto (ref_vote r)) = Ok q ∧
    (VV_signHashes v, VV_signatures v) = signedContent q (vote_makeQuorumSigns (ref_vote r)).
Proof.
  unfold checkMatches. split.
  - intros Hc. destruct pubKey as [[t b]|]; [|by ok_inv; cbn in *].
    cbn [pk_type pk_bytes] in Hc. ok_inv. bools. subst.
    units. repeat match goal with H : mismatch _ = Ok _ |- _ => apply mismatch_Ok in H end.
    split_and!; try done. eexists. split; [eassumption|]. cbn [signedContent] in Hc. ok_inv.
    bools. unfold signedContent. congruence.
  - intros (E1 & <- & <- & <- & -> & <- & E2 & q & E3 & E4).
    rewrite E1, E2, E3, !bool_decide_eq_true_2, Z.eqb_refl by done.
    cbn [negb andb mismatch]. orun. destruct (signedContent _ _). injection E4 as -> ->.
    by rewrite !bool_decide_eq_true_2 by done.
Qed.

Lemma evidence_verifies v r chainID qt qh pubKey proTxHash b r' chainID' qt' qh' pubKey' proTxHash' :
  VerifyVoteSignatures (Some r) chainID qt qh pubKey proTxHash b = Ok v →
  checkMatches v r' chainID' qt' qh' pubKey' proTxHash' = Ok tt →
  vote_verify (ref_vote r') chainID' qt' qh' pubKey' proTxHash' None = Ok tt ∧
  ref_addr r' = ref_addr r ∧ chainID' = chainID ∧ qt' = qt ∧ qh' = qh ∧
  pubKey' = pubKey ∧ proTxHash' = proTxHash.
Proof.
  intros Hm (E1 & <- & <- & <- & -> & <- & E2 & q' & E3 & E4)%checkMatches_Ok.
  destruct pubKey as [[t k]|].
  2:{ exfalso. cbn [VerifyVoteSignatures deref] in Hm. unfold verifyReportingSigns in Hm. ok_inv. }
  destruct (evidence_accepts _ _ _ _ _ _ _ _ Hm) as (q & Hq & Hb & Hall & ->).
  cbn in E1. injection E1 as E1. split_and!; try done.
  unfold vote_verify, verifyReportingSigns. rewrite E2, E3. orun.
  cbn [VV_pubKeyType VV_pubKeyBytes VV_signHashes VV_signatures pk_type pk_bytes] in *.
  destruct (qsd_verify_spec q' (mkPubKey t k) (vote_makeQuorumSigns (ref_vote r')))
    as [_ ->]; [done|].
  rewrite <- E4. exact Hall.
Qed.

(** Evidence minted by [VerifyVoteSignatures] and accepted by [checkMatches]
    establishes what verifying the vote again would, even when the vote was
    written to after the evidence was minted; and it is accepted for the vote it
    was minted for. *)
Theorem evidence_sound v r chainID qt qh pubKey proTxHash b :
  VerifyVoteSignatures (Some r) chainID qt qh pubKey proTxHash b = Ok v →
  (∀ r' chainID' qt' qh' pubKey' proTxHash',
     checkMatches v r' chainID' qt' qh' pubKey' proTxHash' = Ok tt →
     vote_verify (ref_vote r') chainID' qt' qh' pubKey' proTxHash' None = Ok tt ∧
     ref_addr r' = ref_addr r ∧ chainID' = chainID ∧ qt' = qt ∧ qh' = qh ∧
     pubKey' = pubKey ∧ proTxHash' = proTxHash) ∧
  checkMatches v r chainID qt qh pubKey proTxHash = Ok tt.
Proof.
  intros Hm. split; [intros; by eapply evidence_verifies|]. destruct pubKey as [pk|].
  2:{ exfalso. cbn [VerifyVoteSignatures deref] in Hm. unfold verifyReportingSigns in Hm. ok_inv. }
  destruct (evidence_accepts _ _ _ _ _ _ _ _ Hm) as (q & Hq & Hb & Hall & ->).
  destruct pk as [t k]. apply checkMatches_Ok. cbn. split_and!; try done. exists q. by split.
Qed.

End sign_data.

(** ** Witnesses *)

Definition demo_quorumHash : bytes := replicate 32 x05.

(** A precommit with one threshold extension, both signed. *)
Definition demo_signed (block : byte) (index : Z) (signer : byte) : Vote :=
  let ext := mkVE THRESHOLD_RECOVER [x01; x02] [] None in
  let v := mkVote PrecommitType 5 0 (demo_block block) (demo_hash signer) index [x01]
             [mkVEI Threshold ext] in
  match @MakeQuorumSigns toy_crypto [x61] 100 demo_quorumHash (Vote_ToProto v) with
  | Ok q =>
      mkVote PrecommitType 5 0 (demo_block block) (demo_hash signer) index
        (toy_sign (SI_SignHash (QSD_Block q)))
        (map (λ i, mkVEI Threshold (set_signature ext (toy_sign (SI_SignHash i))))
           (QSD_VoteExtensionSignItems q))
  | _ => v
  end.

Definition demo_precommit : Z → byte → Vote := demo_signed x01.

Lemma vote_verify_no_panic_witness :
  @vote_verify toy_crypto (demo_precommit 0 x07) [x61] 100 demo_quorumHash (Some toy_key)
    (demo_hash x07) None ≠ Panic.
Proof.
  apply (@vote_verify_no_panic toy_crypto merkle.toy_hash_len (demo_precommit 0 x07) [x61] 100
    demo_quorumHash (Some toy_key) (demo_hash x07) None).
  split; [unfold_ints; lia|reflexivity].
Defined.

Lemma demo_evidence_minted :
  ∃ v, @VerifyVoteSignatures toy_crypto (Some (mkRef 1 (demo_precommit 0 x07))) [x61] 100
         demo_quorumHash (Some toy_key) (demo_hash x07) None = Ok v.
Proof. eexists. vm_compute. reflexivity. Qed.

Lemma evidence_sound_witness :
  ∃ v, @VerifyVoteSignatures toy_crypto (Some (mkRef 1 (demo_precommit 0 x07))) [x61] 100
         demo_quorumHash (Some toy_key) (demo_hash x07) None = Ok v ∧
    @checkMatches toy_crypto v (mkRef 1 (demo_precommit 0 x07)) [x61] 100 demo_quorumHash
      (Some toy_key) (demo_hash x07) = Ok tt.
Proof.
  destruct demo_evidence_minted as [v Hv]. exists v. split; [exact Hv|].
  exact (proj2 (@evidence_sound toy_crypto v (mkRef 1 (demo_precommit 0 x07)) [x61] 100
    demo_quorumHash (Some toy_key) (demo_hash x07) None Hv)).
Defined.

End quorum.
