(* ===== verification/Proposal.v ===== *)
(** * types: proposals

    Models [src/types/proposal.go], [CanonicalizeProposal] of
    [src/types/canonical.go], [checkTimely] of [src/types/validation.go],
    [src/types/core_chainlock.go] and the encoding of [CanonicalProposal]
    ([src/proto/tendermint/types/canonical.pb.go]).  A time is its number of
    nanoseconds since the epoch.  The encoding of times belongs to gogoproto:
    [StdTime] is the function called. *)
From Stdlib Require Import ZArith Lia Init.Byte.
From stdpp Require Import base numbers list.
From S2P Require Import Prelude.
From S2P Require Import Merkle.
From S2P Require Import Wire.
From S2P Require Import PartSet.
From S2P Require Import Types.
From S2P Require Import Crypto.
From S2P Require Import QuorumSign.

Import partset types crypto quorum.

(** [StdTimeMarshalTo] of gogoproto; it fails outside the years 1 to 9999. *)
Class StdTime := { StdTimeMarshal : Z → option bytes }.

Module proposal.

Definition ProposalType : Z := 32.
Definition Millisecond : Z := 1000000.

(** [tmtime.Canonical]: truncated to milliseconds. *)
Definition Canonical (t : Z) : Z := t - t mod Millisecond.

(** ** Chain locks *)

Inductive chainlock_error :=
  | ErrChainLockHeight
  | ErrChainLockHash
  | ErrChainLockSignature
  | ErrChainLockEmpty.

Record CoreChainLock := mkCL { CL_Height : Z; CL_Hash : bytes; CL_Signature : bytes }.

Global Instance CoreChainLock_eq_dec : EqDecision CoreChainLock.
Proof. solve_decision. Defined.

Definition CL_ValidateBasic (cl : CoreChainLock) : outcome chainlock_error unit :=
  if (CL_Height cl =? 0)%Z then Err ErrChainLockHeight
  else if length (CL_Hash cl) =? 0 then Err ErrChainLockHash
  else if (0 <? length (CL_Hash cl)) && negb (length (CL_Hash cl) =? DefaultHashSize)
  then Err ErrChainLockHash
  else if length (CL_Signature cl) =? 0 then Err ErrChainLockSignature
  else if (0 <? length (CL_Signature cl)) && negb (length (CL_Signature cl) =? bls_SignatureSize)
  then Err ErrChainLockSignature
  else Ok tt.

(** [PopulateFromProto]; the message has the fields of the type. *)
Definition CL_PopulateFromProto (clp : option CoreChainLock) : outcome chainlock_error CoreChainLock :=
  match clp with
  | None => Err ErrChainLockEmpty
  | Some cl => _ ← CL_ValidateBasic cl; Ok cl
  end.

(** ** Proposals *)

Record Proposal := mkProposal {
  Prop_Type : Z;
  Prop_Height : Z;
  Prop_Round : Z;
  Prop_POLRound : Z;
  Prop_BlockID : BlockID;
  Prop_Timestamp : Z;
  Prop_Signature : bytes;
  Prop_CoreChainLockedHeight : Z;
  Prop_CoreChainLockUpdate : option CoreChainLock }.

(** The protobuf message has the same fields. *)
Definition ProtoProposal := Proposal.

Inductive proposal_error :=
  | ErrProposalType
  | ErrProposalHeight
  | ErrProposalCoreHeight
  | ErrProposalRound
  | ErrProposalPOLRound
  | ErrProposalBlockID (e : blockid_error)
  | ErrProposalIncomplete
  | ErrProposalChainLock (e : chainlock_error)
  | ErrProposalNoSignature
  | ErrProposalSignatureSize
  | ErrProposalNil.

Definition NewProposal (height coreChainLockedHeight round polRound : Z) (blockID : BlockID) (ts : Z) :
    Proposal :=
  mkProposal ProposalType height round polRound blockID (Canonical ts) [] coreChainLockedHeight None.

Definition Prop_ValidateBasic (p : Proposal) : outcome proposal_error unit :=
  if negb (Prop_Type p =? ProposalType)%Z then Err ErrProposalType
  else if (Prop_Height p <? 0)%Z then Err ErrProposalHeight
  else if (Prop_CoreChainLockedHeight p =? MaxUint32)%Z then Err ErrProposalCoreHeight
  else if (Prop_Round p <? 0)%Z then Err ErrProposalRound
  else if (Prop_POLRound p <? -1)%Z then Err ErrProposalPOLRound
  else
    _ ← wrap_err ErrProposalBlockID (BlockID_ValidateBasic (Prop_BlockID p));
    if negb (IsComplete (Prop_BlockID p)) then Err ErrProposalIncomplete
    else
      _ ← match Prop_CoreChainLockUpdate p with
          | Some cl => wrap_err ErrProposalChainLock (CL_ValidateBasic cl)
          | None => Ok tt
          end;
      if length (Prop_Signature p) =? 0 then Err ErrProposalNoSignature
      else if SignatureSize <? length (Prop_Signature p) then Err ErrProposalSignatureSize
      else Ok tt.

Definition Prop_ToProto (p : Proposal) : ProtoProposal := p.

Definition ProposalFromProto (pp : option ProtoProposal) : outcome proposal_error Proposal :=
  match pp with
  | None => Err ErrProposalNil
  | Some pp =>
      blockID ← wrap_err ErrProposalBlockID (BlockIDFromProto (Prop_BlockID pp));
      let p := mkProposal (Prop_Type pp) (Prop_Height pp) (Prop_Round pp) (Prop_POLRound pp) blockID
                 (Prop_Timestamp pp) (Prop_Signature pp) (Prop_CoreChainLockedHeight pp) None in
      _ ← Prop_ValidateBasic p; Ok p
  end.

(** ** What is signed *)

(** The encoding of [CanonicalProposal]: the block id is a pointer. *)
Definition marshal_CanonicalProposal (type height round polRound : Z) (blockID : option bytes)
    (timestamp chainID : bytes) : bytes :=
  wire.varint_field x08 type ++ wire.fixed64_field x11 height ++ wire.fixed64_field x19 round ++
  wire.varint_field x20 polRound ++
  match blockID with
  | Some b => x2a :: wire.uvarint (Z.of_nat (length b)) ++ b
  | None => []
  end ++
  x32 :: wire.uvarint (Z.of_nat (length timestamp)) ++ timestamp ++ wire.bytes_field x3a chainID.

(** [ToCanonicalBlockID], encoded. *)
Definition marshal_block_id (b : BlockID) : option bytes :=
  if pb_IsZero b then None
  else let p := canonical_psh (BlockID_PartSetHeader b) in
       Some (wire.marshal_CanonicalBlockID (BlockID_Hash b) (PSH_Total p) (PSH_Hash p)).

Section sign.
Context `{Crypto} `{StdTime}.

(** [MarshalDelimited] of [CanonicalizeProposal]. *)
Definition ProposalBlockSignBytes {E} (chainID : bytes) (p : ProtoProposal) : outcome E bytes :=
  match StdTimeMarshal (Prop_Timestamp p) with
  | None => Panic
  | Some ts =>
      Ok (wire.MarshalDelimited
            (marshal_CanonicalProposal ProposalType (Prop_Height p) (Prop_Round p) (Prop_POLRound p)
               (marshal_block_id (Prop_BlockID p)) ts chainID))
  end.

Definition dpproposal : bytes := [x64; x70; x70; x72; x6f; x70; x6f; x73; x61; x6c].

Definition ProposalRequestIDProto (p : ProtoProposal) : bytes :=
  sha256 (dpproposal ++ wire.le64 (uint64 (Prop_Height p)) ++ wire.le32 (uint32 (Prop_Round p))).

Definition ProposalBlockSignID {E} (chainID : bytes) (p : ProtoProposal) (quorumType : Z)
    (quorumHash : bytes) : outcome E bytes :=
  signBytes ← ProposalBlockSignBytes chainID p;
  let proposalMessageHash := Checksum signBytes in
  let proposalRequestID := ProposalRequestIDProto p in
  item ← NewSignItemFromHash quorumType quorumHash proposalRequestID proposalMessageHash;
  Ok (SI_SignHash item).

End sign.

(** ** Timeliness *)

Record SynchronyParams := mkSP { Precision : Z; MessageDelay : Z }.

(** [bits.LeadingZeros64]. *)
Definition LeadingZeros64 (x : Z) : Z := if (x =? 0)%Z then 64 else 63 - Z.log2 x.

(** [1 << n] in 64 bits; a negative count panics. *)
Definition shl1 {E} (n : Z) : outcome E Z := if (n <? 0)%Z then Panic else Ok (int64 (2 ^ n)).

Definition checkTimely {E} (timestamp recvTime : Z) (sp : SynchronyParams) (round : Z) : outcome E Z :=
  let maxShift := (LeadingZeros64 (uint64 (MessageDelay sp)) - 1)%Z in
  let nShift := Z.quot round 10 in
  let nShift := if (maxShift <? nShift)%Z then maxShift else nShift in
  factor ← shl1 nShift;
  let msgDelay := int64 (MessageDelay sp * factor) in
  let lhs := (timestamp + int64 (- Precision sp))%Z in
  let rhs := (timestamp + msgDelay + Precision sp)%Z in
  if (recvTime <? lhs)%Z then Ok (-1)%Z
  else if (rhs <? recvTime)%Z then Ok 1%Z
  else Ok 0%Z.

Definition CheckTimely {E} (p : Proposal) (recvTime : Z) (sp : SynchronyParams) (round : Z) :
    outcome E Z :=
  checkTimely (Prop_Timestamp p) recvTime sp round.

(** ** Properties *)

(** An optional field is recognised by its tag. *)
Lemma opt_field_inj (tag : byte) (za zb : bool) (ea eb x y : bytes) :
  head x ≠ Some tag → head y ≠ Some tag →
  (if za then [] else tag :: ea) ++ x = (if zb then [] else tag :: eb) ++ y →
  za = zb ∧ (if za then x = y else ea ++ x = eb ++ y).
Proof.
  intros Hx Hy E. destruct za, zb; cbn in *; try done.
  - by subst x.
  - by subst y.
  - by injection E as E.
Qed.

Lemma fixed64_field_inj tag a b x y :
  in_int64 a → in_int64 b → head x ≠ Some tag → head y ≠ Some tag →
  wire.fixed64_field tag a ++ x = wire.fixed64_field tag b ++ y → a = b ∧ x = y.
Proof.
  intros Ha Hb Hx Hy E. unfold wire.fixed64_field in E. apply opt_field_inj in E as [E1 E2]; [|done..].
  destruct (Z.eqb_spec a 0), (Z.eqb_spec b 0); try done; [by subst|].
  by apply wire.le64_app_inj in E2.
Qed.

Lemma varint_field_inj tag a b x y :
  in_int64 a → in_int64 b → head x ≠ Some tag → head y ≠ Some tag →
  wire.varint_field tag a ++ x = wire.varint_field tag b ++ y → a = b ∧ x = y.
Proof.
  intros Ha Hb Hx Hy E. unfold wire.varint_field in E. apply opt_field_inj in E as [E1 E2]; [|done..].
  destruct (Z.eqb_spec a 0), (Z.eqb_spec b 0); try done; [by subst|].
  assert (∀ z, in_uint64 (uint64 z)) as Hr.
  { intros z. pose proof (Z.mod_pos_bound z (2 ^ 64) ltac:(lia)). unfold uwrap. unfold_ints. lia. }
  apply wire.uvarint_app_inj in E2 as [E2 ->]; [|apply Hr..]. split; [|done].
  unfold uwrap in E2. unfold_ints. Z.to_euclidean_division_equations. lia.
Qed.

Lemma head_opt (tag t : byte) (z : bool) (e x : bytes) :
  tag ≠ t → head x ≠ Some t → head ((if z then [] else tag :: e) ++ x) ≠ Some t.
Proof. intros Ht Hx. destruct z; cbn; [done|]. congruence. Qed.

Lemma delimited_inj a b x y :
  (Z.of_nat (length a) ≤ MaxUint64)%Z → (Z.of_nat (length b) ≤ MaxUint64)%Z →
  wire.uvarint (Z.of_nat (length a)) ++ a ++ x = wire.uvarint (Z.of_nat (length b)) ++ b ++ y →
  a = b ∧ x = y.
Proof.
  intros Ha Hb E. apply wire.uvarint_app_inj in E as [El E]; [|unfold_ints; lia..].
  by apply app_inj_1 in E; [|lia].
Qed.

Lemma marshal_block_id_some b :
  IsComplete b = true → marshal_block_id b =
    Some (wire.marshal_CanonicalBlockID (BlockID_Hash b) (PSH_Total (BlockID_PartSetHeader b))
            (PSH_Hash (BlockID_PartSetHeader b))).
Proof.
  intros Hc. unfold marshal_block_id. rewrite canonical_psh_complete by done.
  unfold pb_IsZero. apply IsComplete_spec in Hc as (-> & _). done.
Qed.

Lemma bytes_field_inj tag a b :
  (Z.of_nat (length a) ≤ MaxUint64)%Z → (Z.of_nat (length b) ≤ MaxUint64)%Z →
  wire.bytes_field tag a = wire.bytes_field tag b → a = b.
Proof.
  intros Ha Hb E. destruct a as [|x a], b as [|y b]; try done.
  unfold wire.bytes_field in E. apply (f_equal (@List.tl byte)) in E. cbn [List.tl] in E.
  destruct (delimited_inj (x :: a) (y :: b) [] []) as [? _]; [done..| |done]. by rewrite !app_nil_r.
Qed.

(** The tags of the later fields differ from the tag of an earlier one. *)
Ltac other_tag :=
  cbn [app head];
  repeat first
    [ discriminate
    | (apply head_opt; [discriminate|])
    | match goal with |- context [match ?o with Some _ => _ | None => _ end] => destruct o; cbn [app head] end ].

Lemma length_block_id hash t h :
  length hash = 32 → length h = 32 → length (wire.marshal_CanonicalBlockID hash t h) ≤ 200.
Proof.
  intros H1 H2. unfold wire.marshal_CanonicalBlockID.
  rewrite wire.bytes_field_some by (by intros ->).
  pose proof (wire.length_marshal_PartSetHeader t h H2).
  pose proof (wire.length_put_uvarint 10 (Z.of_nat (length hash))).
  pose proof (wire.length_put_uvarint 10 (Z.of_nat (length (wire.marshal_PartSetHeader t h)))).
  unfold wire.uvarint. rewrite length_app. cbn [length]. rewrite !length_app. cbn [length]. lia.
Qed.

(** The fields of a canonical proposal can be read back from its encoding. *)
Lemma marshal_CanonicalProposal_inj h1 r1 pr1 b1 t1 c1 h2 r2 pr2 b2 t2 c2 :
  in_int64 h1 → in_int64 h2 → in_int64 r1 → in_int64 r2 → in_int64 pr1 → in_int64 pr2 →
  (Z.of_nat (length b1) ≤ MaxUint64)%Z → (Z.of_nat (length b2) ≤ MaxUint64)%Z →
  (Z.of_nat (length t1) ≤ MaxUint64)%Z → (Z.of_nat (length t2) ≤ MaxUint64)%Z →
  (Z.of_nat (length c1) ≤ MaxUint64)%Z → (Z.of_nat (length c2) ≤ MaxUint64)%Z →
  marshal_CanonicalProposal ProposalType h1 r1 pr1 (Some b1) t1 c1 =
  marshal_CanonicalProposal ProposalType h2 r2 pr2 (Some b2) t2 c2 →
  h1 = h2 ∧ r1 = r2 ∧ pr1 = pr2 ∧ b1 = b2 ∧ t1 = t2 ∧ c1 = c2.
Proof.
  intros Hh1 Hh2 Hr1 Hr2 Hp1 Hp2 Lb1 Lb2 Lt1 Lt2 Lc1 Lc2 E. unfold marshal_CanonicalProposal in E.
  apply app_inv_head in E.
  apply fixed64_field_inj in E as [-> E]; [|done|done|other_tag..].
  apply fixed64_field_inj in E as [-> E]; [|done|done|other_tag..].
  apply varint_field_inj in E as [-> E]; [|done|done|other_tag..].
  cbn [app] in E. apply (f_equal (@List.tl byte)) in E. cbn [List.tl] in E. rewrite <- !app_assoc in E.
  apply delimited_inj in E as [-> E]; [|done..].
  apply (f_equal (@List.tl byte)) in E. cbn [List.tl] in E.
  apply delimited_inj in E as [-> E]; [|done..].
  apply bytes_field_inj in E as ->; done.
Qed.

Lemma length_bytes_field tag b : length (wire.bytes_field tag b) ≤ 11 + length b.
Proof.
  destruct b as [|x b]; cbn [wire.bytes_field length]; [lia|]. rewrite length_app. cbn [length].
  unfold wire.uvarint. pose proof (wire.length_put_uvarint 10 (Z.of_nat (S (length b)))). lia.
Qed.

Lemma length_int_fields tag v :
  length (wire.fixed64_field tag v) ≤ 9 ∧ length (wire.varint_field tag v) ≤ 11.
Proof.
  unfold wire.fixed64_field, wire.varint_field, wire.le64, wire.uvarint.
  pose proof (wire.length_put_uvarint 10 (uint64 v)).
  destruct (v =? 0)%Z; cbn [length]; rewrite ?wire.length_le; lia.
Qed.

Lemma length_marshal_CanonicalProposal ty h r pr b t c :
  length (marshal_CanonicalProposal ty h r pr (Some b) t c) ≤
  100 + length b + length t + length c.
Proof.
  unfold marshal_CanonicalProposal. rewrite !length_app. cbn [length]. rewrite !length_app.
  pose proof (length_int_fields x08 ty). pose proof (length_int_fields x11 h).
  pose proof (length_int_fields x19 r). pose proof (length_int_fields x20 pr).
  pose proof (length_bytes_field x3a c). unfold wire.uvarint.
  pose proof (wire.length_put_uvarint 10 (Z.of_nat (length b))).
  pose proof (wire.length_put_uvarint 10 (Z.of_nat (length t))). lia.
Qed.

(** The integers of a proposal are in the range of their types. *)
Definition proposal_ints (p : Proposal) : Prop :=
  in_int64 (Prop_Height p) ∧ in_int32 (Prop_Round p) ∧ in_int32 (Prop_POLRound p) ∧
  (PSH_Total (BlockID_PartSetHeader (Prop_BlockID p)) ≤ MaxUint32)%Z.

(** Gogoproto encodes a time by its seconds and nanoseconds, in at most 22 bytes. *)
Definition std_time_law `{StdTime} : Prop :=
  ∀ t t' b, StdTimeMarshal t = Some b → length b ≤ 22 ∧ (StdTimeMarshal t' = Some b → t = t').

Lemma Prop_ValidateBasic_Ok p :
  Prop_ValidateBasic p = Ok tt →
  Prop_Type p = ProposalType ∧ (0 ≤ Prop_Height p)%Z ∧ (0 ≤ Prop_Round p)%Z ∧
  (-1 ≤ Prop_POLRound p)%Z ∧ IsComplete (Prop_BlockID p) = true ∧
  Prop_Signature p ≠ [] ∧ length (Prop_Signature p) ≤ 96.
Proof.
  unfold Prop_ValidateBasic. intros Hv. ok_inv. bools. unfold SignatureSize in *.
  assert (Prop_Signature p ≠ []) by (intros E; rewrite E in *; done).
  split_and!; try done; try lia.
Qed.

(** C37: proposals with the same sign bytes agree on the chain, height, round, proof
    of lock round, block hash, part set header and timestamp: a proposer's
    signature cannot be moved to a proposal for other block parts. *)
Theorem ProposalSignBytes_injective `{StdTime} chain1 chain2 p1 p2 bz :
  std_time_law →
  proposal_ints p1 → proposal_ints p2 →
  Prop_ValidateBasic p1 = Ok tt → Prop_ValidateBasic p2 = Ok tt →
  (Z.of_nat (length chain1) ≤ MaxUint32)%Z → (Z.of_nat (length chain2) ≤ MaxUint32)%Z →
  ProposalBlockSignBytes (E:=unit) chain1 p1 = Ok bz →
  ProposalBlockSignBytes (E:=unit) chain2 p2 = Ok bz →
  chain1 = chain2 ∧ Prop_Height p1 = Prop_Height p2 ∧ Prop_Round p1 = Prop_Round p2 ∧
  Prop_POLRound p1 = Prop_POLRound p2 ∧ Prop_Timestamp p1 = Prop_Timestamp p2 ∧
  BlockID_Hash (Prop_BlockID p1) = BlockID_Hash (Prop_BlockID p2) ∧
  BlockID_PartSetHeader (Prop_BlockID p1) = BlockID_PartSetHeader (Prop_BlockID p2).
Proof.
  intros Hlaw (A1 & A2 & A3 & A4) (B1 & B2 & B3 & B4) V1%Prop_ValidateBasic_Ok V2%Prop_ValidateBasic_Ok
    L1 L2 S1 S2.
  destruct V1 as (_ & _ & _ & _ & C1 & _), V2 as (_ & _ & _ & _ & C2 & _).
  unfold ProposalBlockSignBytes in S1, S2.
  destruct (StdTimeMarshal (Prop_Timestamp p1)) as [t1|] eqn:T1; [|done].
  destruct (StdTimeMarshal (Prop_Timestamp p2)) as [t2|] eqn:T2; [|done].
  rewrite !marshal_block_id_some in S1, S2 by done. rewrite <- S2 in S1. injection S1 as E.
  pose proof C1 as (P1 & P2 & P3 & _)%IsComplete_spec. pose proof C2 as (Q1 & Q2 & Q3 & _)%IsComplete_spec.
  destruct (Hlaw _ (Prop_Timestamp p2) _ T1) as [K1 Heq], (Hlaw _ 0%Z _ T2) as [K2 _].
  set (b1 := wire.marshal_CanonicalBlockID _ _ (PSH_Hash (BlockID_PartSetHeader (Prop_BlockID p1)))) in *.
  set (b2 := wire.marshal_CanonicalBlockID _ _ (PSH_Hash (BlockID_PartSetHeader (Prop_BlockID p2)))) in *.
  assert (length b1 ≤ 200 ∧ length b2 ≤ 200) as [M1 M2] by (split; by apply length_block_id).
  apply wire.MarshalDelimited_inj in E.
  2,3: etrans; [apply inj_le, length_marshal_CanonicalProposal|]; unfold_ints; lia.
  apply marshal_CanonicalProposal_inj in E as (Eh & Er & Ep & Eb & Et & Ec); try (unfold_ints; lia).
  apply wire.marshal_CanonicalBlockID_inj in Eb as (Ex & Ey & Ez); try done.
  split_and!; try done; [apply Heq; by rewrite T2, Et|].
  destruct (BlockID_PartSetHeader (Prop_BlockID p1)), (BlockID_PartSetHeader (Prop_BlockID p2)).
  cbn in *. congruence.
Qed.

(** A valid proposal survives encoding and decoding, except for its chain lock
    update, which [ProposalFromProto] does not read. *)
Theorem proposal_roundtrip p :
  Prop_ValidateBasic p = Ok tt →
  ProposalFromProto (Some (Prop_ToProto p)) =
  Ok (mkProposal (Prop_Type p) (Prop_Height p) (Prop_Round p) (Prop_POLRound p) (Prop_BlockID p)
        (Prop_Timestamp p) (Prop_Signature p) (Prop_CoreChainLockedHeight p) None).
Proof.
  intros Hv. unfold ProposalFromProto, Prop_ToProto, BlockIDFromProto.
  assert (BlockID_ValidateBasic (Prop_BlockID p) = Ok tt) as Hb.
  { unfold Prop_ValidateBasic in Hv. ok_inv. by units. }
  assert (PSH_ValidateBasic (BlockID_PartSetHeader (Prop_BlockID p)) = Ok tt) as Hp.
  { unfold BlockID_ValidateBasic in Hb. ok_inv. by units. }
  rewrite Hp, Hb. cbn [wrap_err mbind outcome_bind]. unfold Prop_ValidateBasic in *.
  cbn [Prop_Type Prop_Height Prop_CoreChainLockedHeight Prop_Round Prop_POLRound Prop_BlockID
    Prop_CoreChainLockUpdate Prop_Signature].
  repeat (split_if; [done|]). rewrite Hb in *. cbn [wrap_err mbind outcome_bind] in *.
  split_if; [done|]. destruct (Prop_CoreChainLockUpdate p) as [cl|]; cbn [wrap_err mbind outcome_bind] in *.
  - destruct (CL_ValidateBasic cl); cbn [wrap_err mbind outcome_bind] in *; [|done..]. by rewrite Hv.
  - by rewrite Hv.
Qed.

(** The message delay after the doublings of a round. *)
Definition scaled_delay (delay round : Z) : Z :=
  delay * 2 ^ Z.min (round / 10) (62 - Z.log2 delay).

Lemma scaled_delay_bounds delay round :
  (0 < delay ≤ MaxInt64)%Z → (0 ≤ round)%Z →
  (0 ≤ Z.min (round / 10) (62 - Z.log2 delay) ≤ 62)%Z ∧
  (0 < scaled_delay delay round ≤ MaxInt64)%Z.
Proof.
  intros Hd Hr. pose proof (Z.log2_spec delay ltac:(lia)) as [Hl1 Hl2].
  assert (Z.log2 delay < 63)%Z as Hlog by (apply Z.log2_lt_pow2; unfold_ints; lia).
  pose proof (Z.log2_nonneg delay). pose proof (Z.div_pos round 10 Hr ltac:(lia)).
  split; [lia|]. unfold scaled_delay. set (n := Z.min _ _).
  assert (0 ≤ n ≤ 62 - Z.log2 delay)%Z as Hn by lia.
  pose proof (Z.pow_pos_nonneg 2 n ltac:(lia) ltac:(lia)).
  assert (2 ^ n ≤ 2 ^ (62 - Z.log2 delay))%Z by (apply Z.pow_le_mono_r; lia).
  assert (2 ^ Z.succ (Z.log2 delay) * 2 ^ (62 - Z.log2 delay) = 2 ^ 63)%Z as Hp.
  { rewrite <- Z.pow_add_r by lia. f_equal. lia. }
  unfold_ints. split; nia.
Qed.

(** A proposal is timely exactly when it is received between its time minus the
    precision and its time plus the message delay, doubled every ten rounds, plus
    the precision; the doubling stops before it overflows, and what is timely in a
    round is timely in later rounds. *)
Theorem checkTimely_spec {E} timestamp recv sp round :
  (0 < MessageDelay sp ≤ MaxInt64)%Z → (0 ≤ Precision sp ≤ MaxInt64)%Z → (0 ≤ round)%Z →
  let d := scaled_delay (MessageDelay sp) round in
  (0 < d ≤ MaxInt64)%Z ∧
  checkTimely (E:=E) timestamp recv sp round =
    Ok (if decide (recv < timestamp - Precision sp)%Z then -1
        else if decide (timestamp + d + Precision sp < recv)%Z then 1 else 0)%Z ∧
  ∀ round', (round ≤ round')%Z → checkTimely (E:=E) timestamp recv sp round = Ok 0%Z →
    checkTimely (E:=E) timestamp recv sp round' = Ok 0%Z.
Proof.
  intros Hm Hp Hr d.
  assert (∀ r, (0 ≤ r)%Z → checkTimely (E:=E) timestamp recv sp r =
    Ok (if decide (recv < timestamp - Precision sp)%Z then -1
        else if decide (timestamp + scaled_delay (MessageDelay sp) r + Precision sp < recv)%Z
        then 1 else 0)%Z) as Heq.
  { intros r Hr0. destruct (scaled_delay_bounds _ r Hm Hr0) as [Hn Hd].
    unfold checkTimely, LeadingZeros64. rewrite uint64_id by (unfold_ints; lia).
    destruct (Z.eqb_spec (MessageDelay sp) 0); [lia|]. rewrite Z.quot_div_nonneg by lia.
    replace (63 - Z.log2 (MessageDelay sp) - 1)%Z with (62 - Z.log2 (MessageDelay sp))%Z by lia.
    replace (if (62 - Z.log2 (MessageDelay sp) <? r / 10)%Z then (62 - Z.log2 (MessageDelay sp))%Z
      else (r / 10)%Z) with (Z.min (r / 10) (62 - Z.log2 (MessageDelay sp)))
      by (destruct (Z.ltb_spec (62 - Z.log2 (MessageDelay sp)) (r / 10)); lia).
    unfold shl1. destruct (Z.ltb_spec (Z.min (r / 10) (62 - Z.log2 (MessageDelay sp))) 0); [lia|].
    cbn [mbind outcome_bind].
    assert (1 ≤ 2 ^ Z.min (r / 10) (62 - Z.log2 (MessageDelay sp)) ≤ 2 ^ 62)%Z as Hpow.
    { split; [|apply Z.pow_le_mono_r; lia]. pose proof (Z.pow_pos_nonneg 2
        (Z.min (r / 10) (62 - Z.log2 (MessageDelay sp))) ltac:(lia) ltac:(lia)). lia. }
    rewrite (int64_id (2 ^ _)) by (unfold_ints; lia). fold (scaled_delay (MessageDelay sp) r).
    rewrite (int64_id (scaled_delay _ _)) by (unfold_ints; lia).
    rewrite int64_id by (unfold_ints; lia).
    repeat (split_if; bools); repeat case_decide; try done; lia. }
  split; [apply (scaled_delay_bounds _ round Hm Hr)|]. split; [by apply Heq|].
  intros round' Hle. rewrite !Heq by lia. intros [= Hz]. f_equal.
  assert (scaled_delay (MessageDelay sp) round ≤ scaled_delay (MessageDelay sp) round')%Z as Hmono.
  { unfold scaled_delay. apply Z.mul_le_mono_nonneg_l; [lia|]. apply Z.pow_le_mono_r; [lia|].
    apply Z.min_le_compat_r. apply Z.div_le_mono; lia. }
  repeat case_decide; try done; lia.
Qed.

(** ** Witnesses *)

(** Seconds and nanoseconds as varint fields, for the times of 64 bits. *)
Definition toy_time : StdTime := {|
  StdTimeMarshal := λ t, if decide (0 ≤ t ≤ MaxUint64)%Z then Some (wire.uvarint t) else None |}.

Lemma toy_time_law : @std_time_law toy_time.
Proof.
  intros t t' b. unfold StdTimeMarshal, toy_time.
  destruct (decide (0 ≤ t ≤ MaxUint64)%Z) as [Ht|]; [|done]. intros Eb. apply (inj Some) in Eb.
  split; [rewrite <- Eb; etrans; [apply wire.length_put_uvarint|lia]|].
  destruct (decide (0 ≤ t' ≤ MaxUint64)%Z) as [Ht'|]; [|done]. intros Eb'. apply (inj Some) in Eb'.
  destruct (wire.uvarint_app_inj t t' [] []) as [-> _]; [done|done| |done]. congruence.
Qed.

Definition demo_proposal (b : byte) : Proposal :=
  mkProposal ProposalType 5 1 (-1) (demo_block b) 1700000000 [x01] 7
    (Some (mkCL 7 (demo_hash b) (replicate 96 b))).

Lemma ProposalSignBytes_injective_witness :
  ∃ bz, @ProposalBlockSignBytes toy_time unit [x61] (demo_proposal x01) = Ok bz ∧
    Prop_Timestamp (demo_proposal x01) = 1700000000%Z.
Proof.
  destruct (@ProposalBlockSignBytes toy_time unit [x61] (demo_proposal x01)) as [bz| |] eqn:E;
    [|vm_compute in E; discriminate E..].
  exists bz. split; [reflexivity|].
  apply (@ProposalSignBytes_injective toy_time [x61] [x61] (demo_proposal x01) (demo_proposal x01) bz
    toy_time_law); try exact E; vm_compute; repeat split; discriminate.
Defined.

Lemma proposal_roundtrip_witness :
  ∃ p, ProposalFromProto (Some (demo_proposal x01)) = Ok p ∧ Prop_CoreChainLockUpdate p = None.
Proof.
  exists (mkProposal ProposalType 5 1 (-1) (demo_block x01) 1700000000 [x01] 7 None).
  split; [|reflexivity]. apply (proposal_roundtrip (demo_proposal x01)). vm_compute. reflexivity.
Defined.

Lemma checkTimely_spec_witness :
  checkTimely (E:=unit) 1000 1600 (mkSP 5 600) 20 = Ok 0%Z.
Proof.
  apply (checkTimely_spec (E:=unit) 1000 1600 (mkSP 5 600) 0); cbn; try (unfold_ints; lia).
  vm_compute. reflexivity.
Defined.

End proposal.
