(* ===== verification/PrivVal.v ===== *)
(** * privval: the file signer

    Models [src/privval/file.go]: the last sign state, its check and its file, and
    the signing of votes and proposals.  The world of a signer is its memory and
    its two files; methods run in a state monad over it.  A write of the state file
    is atomic ([tempfile.WriteFileAtomic]): it replaces the content or, when it
    fails, leaves it; whether it fails is an argument.  Quorum hashes and heights
    stand for the strings the maps are keyed by.  The lock is not modelled: the
    methods are run one after the other.  Signing with a private key is external. *)
From Stdlib Require Import ZArith Lia Init.Byte.
From stdpp Require Import base numbers list gmap.
From S2P Require Import Prelude.
From S2P Require Import Merkle.
From S2P Require Import Wire.
From S2P Require Import PartSet.
From S2P Require Import Types.
From S2P Require Import Crypto.
From S2P Require Import QuorumSign.
From S2P Require Import Proposal.

Import partset types crypto quorum proposal.

(** [crypto.PrivKey]. *)
Class Signer := {
  PrivKey : Type;
  PrivKey_PubKey : PrivKey → PubKey;
  SignDigest : PrivKey → bytes → option bytes }.

Module privval.

Definition stepNone : Z := 0.
Definition stepPropose : Z := 1.
Definition stepPrevote : Z := 2.
Definition stepPrecommit : Z := 3.

Inductive pv_error :=
  | ErrUnknownVoteType
  | ErrHeightRegression
  | ErrRoundRegression
  | ErrStepRegression
  | ErrNoSignBytes
  | ErrMakeSigns (e : sign_error)
  | ErrNoPrivateKey
  | ErrSigning
  | ErrUnexpectedExtension
  | ErrConflictingData
  | ErrSave
  | ErrNoPublicKey
  | ErrNoThresholdKey
  | ErrQuorumHeight
  | ErrProTxHash.

Notation pres := (outcome pv_error).

(** ** State *)

Record FilePVLastSignState := mkLSS {
  lss_Height : Z;
  lss_Round : Z;
  lss_Step : Z;
  lss_BlockSignature : option bytes;
  lss_BlockSignBytes : option bytes }.

Definition lss_reset : FilePVLastSignState := mkLSS 0 0 stepNone None None.

Section privval.
Context `{Crypto} `{StdTime} `{Signer}.

Record QuorumKeys := mkQK {
  qk_PrivKey : PrivKey;
  qk_PubKey : PubKey;
  qk_ThresholdPublicKey : option PubKey }.

Record FilePVKey := mkKey {
  PrivateKeys : gmap bytes QuorumKeys;
  UpdateHeights : gmap Z bytes;
  FirstHeightOfQuorums : gmap bytes Z;
  key_ProTxHash : bytes }.

(** The signer in memory, and the files. *)
Record FilePV := mkPV' {
  pv_Key : FilePVKey;
  pv_LastSignState : FilePVLastSignState;
  keyFile : FilePVKey;
  stateFile : FilePVLastSignState }.

Definition set_lss (pv : FilePV) (lss : FilePVLastSignState) : FilePV :=
  mkPV' (pv_Key pv) lss (keyFile pv) (stateFile pv).

(** ** The monad of the methods *)

Definition M (A : Type) : Type := FilePV → FilePV * pres A.

Global Instance M_ret : MRet M := λ A a pv, (pv, Ok a).
Global Instance M_bind : MBind M := λ A B f m pv,
  match m pv with
  | (pv, Ok a) => f a pv
  | (pv, Err e) => (pv, Err e)
  | (pv, Panic) => (pv, Panic)
  end.

Definition lift {A} (m : pres A) : M A := λ pv, (pv, m).
Definition get {A} (f : FilePV → A) : M A := λ pv, (pv, Ok (f pv)).
Definition modify (f : FilePV → FilePV) : M unit := λ pv, (f pv, Ok tt).

(** ** The last sign state *)

Definition voteToStep (vote : ProtoVote) : pres Z :=
  if (PV_Type vote =? PrevoteType)%Z then Ok stepPrevote
  else if (PV_Type vote =? PrecommitType)%Z then Ok stepPrecommit
  else Err ErrUnknownVoteType.

Definition checkHRS (lss : FilePVLastSignState) (height round step : Z) : pres bool :=
  if (height <? lss_Height lss)%Z then Err ErrHeightRegression
  else if (lss_Height lss =? height)%Z then
    if (round <? lss_Round lss)%Z then Err ErrRoundRegression
    else if (lss_Round lss =? round)%Z then
      if (step <? lss_Step lss)%Z then Err ErrStepRegression
      else if (lss_Step lss =? step)%Z then
        match lss_BlockSignBytes lss with
        | Some _ => match lss_BlockSignature lss with None => Panic | Some _ => Ok true end
        | None => Err ErrNoSignBytes
        end
      else Ok false
    else Ok false
  else Ok false.

(** Empty byte slices are left out of the file and read back as nil. *)
Definition omitempty (b : option bytes) : option bytes :=
  match b with Some [] => None | _ => b end.

(** The state file after a successful write of [lss]. *)
Definition lss_json (lss : FilePVLastSignState) : FilePVLastSignState :=
  mkLSS (lss_Height lss) (lss_Round lss) (lss_Step lss) (omitempty (lss_BlockSignature lss))
    (omitempty (lss_BlockSignBytes lss)).

(** [FilePVLastSignState.Save]; [written] tells whether the write succeeds. *)
Definition lss_Save (written : bool) : M unit := λ pv,
  if written
  then (mkPV' (pv_Key pv) (pv_LastSignState pv) (keyFile pv) (lss_json (pv_LastSignState pv)), Ok tt)
  else (pv, Err ErrSave).

Definition saveSigned (written : bool) (height round step : Z) (blockSignBytes blockSig : bytes) :
    M unit :=
  _ ← modify (λ pv, set_lss pv (mkLSS height round step (Some blockSig) (Some blockSignBytes)));
  lss_Save written.

(** ** Keys *)

(** The error message shows the first eight hexadecimal digits of every hash. *)
Definition getPrivateKey (quorumHash : bytes) : M PrivKey :=
  keys ← get (λ pv, PrivateKeys (pv_Key pv));
  match keys !! quorumHash with
  | Some k => mret (qk_PrivKey k)
  | None =>
      if existsb (λ kv, 2 * length kv.1 <? 8) (map_to_list keys) then lift Panic
      else lift (Err ErrNoPrivateKey)
  end.

Definition GetPubKey (quorumHash : bytes) : M PubKey :=
  keys ← get (λ pv, PrivateKeys (pv_Key pv));
  match keys !! quorumHash with
  | Some k => mret (qk_PubKey k)
  | None => lift (Err ErrNoPublicKey)
  end.

Definition GetThresholdPublicKey (quorumHash : bytes) : M (option PubKey) :=
  keys ← get (λ pv, PrivateKeys (pv_Key pv));
  match keys !! quorumHash with
  | Some k => mret (qk_ThresholdPublicKey k)
  | None => lift (Err ErrNoThresholdKey)
  end.

Definition GetHeight (quorumHash : bytes) : M Z :=
  heights ← get (λ pv, FirstHeightOfQuorums (pv_Key pv));
  match heights !! quorumHash with
  | Some h => mret h
  | None => lift (Err ErrQuorumHeight)
  end.

Definition GetProTxHash : M bytes :=
  h ← get (λ pv, key_ProTxHash (pv_Key pv));
  if negb (length h =? DefaultHashSize) then lift (Err ErrProTxHash) else mret h.

Definition UpdatePrivateKey (privateKey : PrivKey) (quorumHash : bytes)
    (thresholdPublicKey : option PubKey) (height : Z) : M unit :=
  modify (λ pv,
    let key := pv_Key pv in
    mkPV' (mkKey
      (<[quorumHash := mkQK privateKey (PrivKey_PubKey privateKey) thresholdPublicKey]>
         (PrivateKeys key))
      (<[height := quorumHash]> (UpdateHeights key))
      (match FirstHeightOfQuorums key !! quorumHash with
       | Some _ => FirstHeightOfQuorums key
       | None => <[quorumHash := height]> (FirstHeightOfQuorums key)
       end)
      (key_ProTxHash key)) (pv_LastSignState pv) (keyFile pv) (stateFile pv)).

(** [FilePV.Save]: the key file, then the state file. *)
Definition Save (key_written state_written : bool) : M unit :=
  _ ← (λ pv, if key_written
             then (mkPV' (pv_Key pv) (pv_LastSignState pv) (pv_Key pv) (stateFile pv), Ok tt)
             else (pv, Err ErrSave));
  lss_Save state_written.

Definition Reset (key_written state_written : bool) : M unit :=
  _ ← modify (λ pv, set_lss pv lss_reset); Save key_written state_written.

(** [NewFilePVOneKey], saved. *)
Definition NewFilePVOneKey (privKey : PrivKey) (proTxHash quorumHash : bytes)
    (thresholdPublicKey : option PubKey) : pres FilePV :=
  if negb (length proTxHash =? DefaultHashSize) then Panic
  else
    let pub := PrivKey_PubKey privKey in
    let key := mkKey {[quorumHash := mkQK privKey pub (Some (default pub thresholdPublicKey))]} ∅ ∅
                 proTxHash in
    let lss := mkLSS 0 0 stepNone None None in
    Ok (mkPV' key lss key (lss_json lss)).

(** [LoadFilePV]: both files are read.  A proTxHash of another size is refused. *)
Definition LoadFilePV (pv : FilePV) : pres FilePV :=
  let key := keyFile pv in
  if negb (length (key_ProTxHash key) =? 0) && negb (length (key_ProTxHash key) =? DefaultHashSize)
  then Err ErrProTxHash
  else Ok (mkPV' key (stateFile pv) key (stateFile pv)).

(** ** Signing *)

Definition sign_digest (k : PrivKey) (digest : bytes) : pres bytes :=
  match SignDigest k digest with Some sig => Ok sig | None => Err ErrSigning end.

Fixpoint sign_items (k : PrivKey) (items : list SignItem) : pres (list bytes) :=
  match items with
  | [] => Ok []
  | item :: items =>
      sig ← sign_digest k (SI_SignHash item);
      sigs ← sign_items k items;
      Ok (sig :: sigs)
  end.

(** [fillProtoVoteExtensionSigns]; [signs[i]] panics out of range. *)
Fixpoint fillProtoVoteExtensionSigns (extensions : list (option VoteExtension)) (signs : list bytes) :
    pres (list (option VoteExtension)) :=
  match extensions, signs with
  | [], _ => Ok []
  | Some ext :: extensions, sign :: signs =>
      rest ← fillProtoVoteExtensionSigns extensions signs;
      Ok (Some (mkVE (VE_Type ext) (VE_Extension ext) sign (VE_SignRequestId ext)) :: rest)
  | _ :: _, _ => Panic
  end.

Definition set_signs (vote : ProtoVote) (sig : bytes) (exts : list (option VoteExtension)) : ProtoVote :=
  mkPV (PV_Type vote) (PV_Height vote) (PV_Round vote) (PV_BlockID vote)
    (PV_ValidatorProTxHash vote) (PV_ValidatorIndex vote) sig exts.

(** [signVote], returning the vote with its signatures. *)
Definition signVote (written : bool) (chainID : bytes) (quorumType : Z) (quorumHash : bytes)
    (vote : ProtoVote) : M ProtoVote :=
  step ← lift (voteToStep vote);
  let height := PV_Height vote in
  let round := PV_Round vote in
  lss ← get pv_LastSignState;
  sameHRS ← lift (checkHRS lss height round step);
  quorumSigns ← lift (wrap_err ErrMakeSigns (MakeQuorumSigns chainID quorumType quorumHash vote));
  privKey ← getPrivateKey quorumHash;
  extSigns ← lift
    (if (PV_Type vote =? PrecommitType)%Z
     then sign_items privKey (QSD_VoteExtensionSignItems quorumSigns)
     else if 0 <? length (PV_VoteExtensions vote) then Err ErrUnexpectedExtension else Ok []);
  if (sameHRS : bool) then
    if bool_decide (SI_Msg (QSD_Block quorumSigns) = default [] (lss_BlockSignBytes lss)) then
      exts ← lift (fillProtoVoteExtensionSigns (PV_VoteExtensions vote) extSigns);
      mret (set_signs vote (default [] (lss_BlockSignature lss)) exts)
    else lift (Err ErrConflictingData)
  else
    sigBlock ← lift (sign_digest privKey (SI_SignHash (QSD_Block quorumSigns)));
    _ ← saveSigned written height round step (SI_Msg (QSD_Block quorumSigns)) sigBlock;
    exts ← lift (fillProtoVoteExtensionSigns (PV_VoteExtensions vote) extSigns);
    mret (set_signs vote sigBlock exts).

Definition set_signature (p : ProtoProposal) (sig : bytes) : ProtoProposal :=
  mkProposal (Prop_Type p) (Prop_Height p) (Prop_Round p) (Prop_POLRound p) (Prop_BlockID p)
    (Prop_Timestamp p) sig (Prop_CoreChainLockedHeight p) (Prop_CoreChainLockUpdate p).

(** [signProposal], returning the sign id and the proposal with its signature. *)
Definition signProposal (written : bool) (chainID : bytes) (quorumType : Z) (quorumHash : bytes)
    (proposal : ProtoProposal) : M (bytes * ProtoProposal) :=
  let height := Prop_Height proposal in
  let round := Prop_Round proposal in
  let step := stepPropose in
  lss ← get pv_LastSignState;
  sameHRS ← lift (checkHRS lss height round step);
  blockSignID ← lift (ProposalBlockSignID chainID proposal quorumType quorumHash);
  blockSignBytes ← lift (ProposalBlockSignBytes chainID proposal);
  if (sameHRS : bool) then
    if negb (bool_decide (blockSignBytes = default [] (lss_BlockSignBytes lss)))
    then lift (Err ErrConflictingData)
    else mret (blockSignID, set_signature proposal (default [] (lss_BlockSignBytes lss)))
  else
    privKey ← getPrivateKey quorumHash;
    blockSig ← lift (sign_digest privKey blockSignID);
    _ ← saveSigned written height round step blockSignBytes blockSig;
    mret (blockSignID, set_signature proposal blockSig).

End privval.

End privval.
