(* ===== verification/PrivValThms.v ===== *)
(** * privval: the file signer does not double sign

    Over every sequence of signing calls, whether or not the writes of the state file
    succeed, of key updates, saves, crashes and restarts, the signatures released for
    one height, round and step are for the same bytes, as long as the process is not
    restarted after it released a signature that is not in the file.  The code can
    come to that: the memory is updated before the file, so that after a write that
    failed the next call releases the signature. *)
From Stdlib Require Import ZArith Lia Init.Byte Sorting.Sorted.
From stdpp Require Import base numbers list gmap.
From S2P Require Import Prelude.
From S2P Require Import Merkle.
From S2P Require Import Wire.
From S2P Require Import PartSet.
From S2P Require Import Types.
From S2P Require Import Crypto.
From S2P Require Import QuorumSign.
From S2P Require Import Proposal.
From S2P Require Import PrivVal.

Import partset types crypto quorum proposal privval.

Module pvthms.

Section thms.
Context `{Crypto} `{StdTime} `{Signer}.

(** ** Height, round and step *)

Definition hrs : Type := Z * Z * Z.

Definition hrs_lt (a b : hrs) : Prop :=
  let '(h, r, s) := a in let '(h', r', s') := b in
  (h < h' ∨ h = h' ∧ (r < r' ∨ r = r' ∧ s < s'))%Z.

Lemma hrs_lt_trans a b c : hrs_lt a b → hrs_lt b c → hrs_lt a c.
Proof. destruct a as [[? ?] ?], b as [[? ?] ?], c as [[? ?] ?]. unfold hrs_lt. lia. Qed.

Lemma hrs_lt_irrefl a : ¬ hrs_lt a a.
Proof. destruct a as [[? ?] ?]. unfold hrs_lt. lia. Qed.

Definition lss_hrs (lss : FilePVLastSignState) : hrs := (lss_Height lss, lss_Round lss, lss_Step lss).

Lemma checkHRS_Ok lss h r s same :
  checkHRS lss h r s = Ok same →
  if same then (h, r, s) = lss_hrs lss ∧ is_Some (lss_BlockSignBytes lss)
  else hrs_lt (lss_hrs lss) (h, r, s).
Proof.
  unfold checkHRS, hrs_lt, lss_hrs. intros Hc.
  destruct (Z.ltb_spec h (lss_Height lss)); [done|].
  destruct (Z.eqb_spec (lss_Height lss) h); [|injection Hc as <-; lia].
  destruct (Z.ltb_spec r (lss_Round lss)); [done|].
  destruct (Z.eqb_spec (lss_Round lss) r); [|injection Hc as <-; lia].
  destruct (Z.ltb_spec s (lss_Step lss)); [done|].
  destruct (Z.eqb_spec (lss_Step lss) s); [|injection Hc as <-; lia].
  destruct (lss_BlockSignBytes lss), (lss_BlockSignature lss); try done.
  injection Hc as <-. split; [congruence|done].
Qed.

(** ** What is signed *)

Inductive signed :=
  | SignedVote (chainID : bytes) (vote : ProtoVote)
  | SignedProposal (chainID : bytes) (p : ProtoProposal).

Definition signed_hrs (e : signed) : hrs :=
  match e with
  | SignedVote _ v => (PV_Height v, PV_Round v, default 0%Z
      (match voteToStep v with Ok s => Some s | _ => None end))
  | SignedProposal _ p => (Prop_Height p, Prop_Round p, stepPropose)
  end.

Definition signed_bytes (e : signed) : pres bytes :=
  match e with
  | SignedVote chainID v => Ok (SignBytes sha256 chainID v)
  | SignedProposal chainID p => ProposalBlockSignBytes chainID p
  end.

Lemma signed_bytes_nonempty e b : signed_bytes e = Ok b → b ≠ [].
Proof.
  destruct e as [c v|c p]; cbn.
  - intros [= <-]. unfold SignBytes. by destruct (pb_IsZero _).
  - unfold ProposalBlockSignBytes. destruct (StdTimeMarshal _); [|done]. intros [= <-].
    unfold wire.MarshalDelimited, wire.uvarint, wire.put_uvarint. by split_if.
Qed.

Lemma MakeQuorumSigns_msg c qt qh v q :
  MakeQuorumSigns c qt qh v = Ok q → SI_Msg (QSD_Block q) = SignBytes sha256 c v.
Proof.
  unfold MakeQuorumSigns, MakeBlockSignItem, NewSignItem. intros Hm. by ok_inv.
Qed.

(** ** The effect of a signing call *)

(** Either nothing changes, and a signature is only given again for the bytes of
    the last sign state; or the call moves forward and records what it signs. *)
Definition sign_effect (written : bool) (pv : FilePV) (e : signed) (pv' : FilePV) (returned failed : bool) :
    Prop :=
  (pv' = pv ∧ (returned = true → ∃ b, signed_bytes e = Ok b ∧
     signed_hrs e = lss_hrs (pv_LastSignState pv) ∧
     lss_BlockSignBytes (pv_LastSignState pv) = Some b)) ∨
  (hrs_lt (lss_hrs (pv_LastSignState pv)) (signed_hrs e) ∧
   ∃ b sig, let '(h, r, s) := signed_hrs e in let lss := mkLSS h r s (Some sig) (Some b) in
     signed_bytes e = Ok b ∧ pv_LastSignState pv' = lss ∧
     stateFile pv' = (if written then lss_json lss else stateFile pv) ∧
     keyFile pv' = keyFile pv ∧ (written = false → returned = false ∧ failed = true)).

Definition is_err {A} (m : pres A) : bool := match m with Err _ => true | _ => false end.

Lemma lift_bind {A B} (m : pres A) (f : A → M B) pv :
  (lift m ≫= f) pv = match m with Ok a => f a pv | Err e => (pv, Err e) | Panic => (pv, Panic) end.
Proof. by destruct m. Qed.

Lemma get_bind {A B} (g : FilePV → A) (f : A → M B) pv : (get g ≫= f) pv = f (g pv) pv.
Proof. done. Qed.

Lemma getPrivateKey_run {B} qh (f : PrivKey → M B) pv pv' res :
  (getPrivateKey qh ≫= f) pv = (pv', res) →
  (∃ k, f k pv = (pv', res)) ∨ (pv' = pv ∧ is_ok res = false).
Proof.
  intros Hs. unfold getPrivateKey, mbind, M_bind, get in Hs. cbn beta iota in Hs.
  destruct (PrivateKeys (pv_Key pv) !! qh) as [k|]; [left; by exists (qk_PrivKey k)|].
  right. destruct (existsb _ _); cbn in *; by simplify_eq.
Qed.

Lemma saveSigned_run {B} written h r s b sig (f : unit → M B) pv :
  let lss := mkLSS h r s (Some sig) (Some b) in
  (saveSigned written h r s b sig ≫= f) pv =
  if written then f tt (mkPV' (pv_Key pv) lss (keyFile pv) (lss_json lss))
  else (set_lss pv lss, Err ErrSave).
Proof. by destruct written. Qed.

Lemma signVote_effect written c qt qh v pv pv' res :
  signVote written c qt qh v pv = (pv', res) →
  sign_effect written pv (SignedVote c v) pv' (is_ok res) (is_err res).
Proof.
  intros Hs. unfold signVote in Hs. rewrite lift_bind in Hs.
  destruct (voteToStep v) as [step| |] eqn:Est; [|injection Hs as <- <-; by left..].
  rewrite get_bind, lift_bind in Hs.
  destruct (checkHRS _ _ _ _) as [same| |] eqn:Ec; [|injection Hs as <- <-; by left..].
  apply checkHRS_Ok in Ec. rewrite lift_bind in Hs.
  destruct (MakeQuorumSigns c qt qh v) as [q| |] eqn:Eq; [|injection Hs as <- <-; by left..].
  apply MakeQuorumSigns_msg in Eq. cbn [wrap_err] in Hs.
  apply getPrivateKey_run in Hs as [[k Hs]|[-> Hr]].
  2: { left. split; [done|]. by rewrite Hr. }
  rewrite lift_bind in Hs.
  destruct (if (PV_Type v =? PrecommitType)%Z then _ else _) as [sigs| |]; [|injection Hs as <- <-; by left..].
  rewrite Eq in Hs. destruct same.
  - destruct Ec as [Ehrs [b Eb]]. rewrite Eb in Hs. cbn [default from_option] in Hs.
    case_bool_decide as Hb; [|injection Hs as <- <-; by left].
    rewrite lift_bind in Hs. left.
    destruct (fillProtoVoteExtensionSigns _ _); injection Hs as <- <-; (split; [done|]); try done.
    intros _. exists b. split_and!; [cbn; by rewrite Hb|cbn; by rewrite Est|done].
  - rewrite lift_bind in Hs.
    destruct (sign_digest k _) as [sig| |]; [|injection Hs as <- <-; by left..].
    rewrite saveSigned_run in Hs. right. cbn [signed_hrs]. rewrite Est. split; [done|].
    exists (SignBytes sha256 c v), sig.
    destruct written.
    + rewrite lift_bind in Hs. destruct (fillProtoVoteExtensionSigns _ _); injection Hs as <- <-; done.
    + injection Hs as <- <-. done.
Qed.

Lemma signProposal_effect written c qt qh p pv pv' res :
  signProposal written c qt qh p pv = (pv', res) →
  sign_effect written pv (SignedProposal c p) pv' (is_ok res) (is_err res).
Proof.
  intros Hs. unfold signProposal in Hs. rewrite get_bind, lift_bind in Hs.
  destruct (checkHRS _ _ _ _) as [same| |] eqn:Ec; [|injection Hs as <- <-; by left..].
  apply checkHRS_Ok in Ec. rewrite lift_bind in Hs.
  destruct (ProposalBlockSignID _ _ _ _) as [id| |]; [|injection Hs as <- <-; by left..].
  rewrite lift_bind in Hs.
  destruct (ProposalBlockSignBytes c p) as [b| |] eqn:Eb; [|injection Hs as <- <-; by left..].
  destruct same.
  - destruct Ec as [Ehrs [b' Eb']]. rewrite Eb' in Hs. cbn [default from_option] in Hs.
    case_bool_decide as Hb; cbn [negb] in Hs; injection Hs as <- <-; left; (split; [done|]); [|done].
    intros _. exists b. split_and!; [done|done|by rewrite Eb', Hb].
  - apply getPrivateKey_run in Hs as [[k Hs]|[-> Hr]].
    2: { left. split; [done|]. by rewrite Hr. }
    rewrite lift_bind in Hs.
    destruct (sign_digest k _) as [sig| |]; [|injection Hs as <- <-; by left..].
    rewrite saveSigned_run in Hs. right. split; [done|]. exists b, sig. cbn [signed_hrs].
    destruct written; injection Hs as <- <-; done.
Qed.

(** ** Traces *)

#[local] Instance lss_eq_dec : EqDecision FilePVLastSignState.
Proof. solve_decision. Defined.

(** The last sign state in memory is not the one in the file. *)
Definition unwritten (pv : FilePV) : bool := negb (bool_decide (stateFile pv = lss_json (pv_LastSignState pv))).

(** A signer at work, with what it has released so far, the latest first, and whether a
    signature was released that the state file does not account for.  The writes of a call may
    fail; what a call returns may be released, or may be lost when the process crashes. *)
Inductive pv_step : FilePV * list signed * bool → FilePV * list signed * bool → Prop :=
  | step_vote written c qt qh v v' pv pv' log a :
      signVote written c qt qh v pv = (pv', Ok v') →
      pv_step (pv, log, a) (pv', SignedVote c v' :: log, unwritten pv')
  | step_vote_lost written c qt qh v res pv pv' log a :
      signVote written c qt qh v pv = (pv', res) → pv_step (pv, log, a) (pv', log, a && unwritten pv')
  | step_proposal written c qt qh p id p' pv pv' log a :
      signProposal written c qt qh p pv = (pv', Ok (id, p')) →
      pv_step (pv, log, a) (pv', SignedProposal c p' :: log, unwritten pv')
  | step_proposal_lost written c qt qh p res pv pv' log a :
      signProposal written c qt qh p pv = (pv', res) → pv_step (pv, log, a) (pv', log, a && unwritten pv')
  | step_key k qh tpk h pv pv' res log a :
      UpdatePrivateKey k qh tpk h pv = (pv', res) → pv_step (pv, log, a) (pv', log, a)
  | step_save key_written state_written pv pv' res log a :
      Save key_written state_written pv = (pv', res) → pv_step (pv, log, a) (pv', log, a && unwritten pv')
  | step_restart pv pv' log :
      LoadFilePV pv = Ok pv' → pv_step (pv, log, false) (pv', log, false).

(** What the last sign state says of the released signatures. *)
Definition covered (lss : FilePVLastSignState) (e : signed) : Prop :=
  hrs_lt (signed_hrs e) (lss_hrs lss) ∨
  (signed_hrs e = lss_hrs lss ∧ ∃ b, signed_bytes e = Ok b ∧ lss_BlockSignBytes lss = Some b).

(** Later signatures are not for earlier steps, nor for other bytes of the same. *)
Definition consistent (e2 e1 : signed) : Prop :=
  hrs_lt (signed_hrs e1) (signed_hrs e2) ∨
  (signed_hrs e1 = signed_hrs e2 ∧ signed_bytes e1 = signed_bytes e2).

Record pv_inv (pv : FilePV) (log : list signed) (a : bool) : Prop := {
  pi_log : Forall (covered (pv_LastSignState pv)) log;
  pi_file : a = false → Forall (covered (stateFile pv)) log;
  pi_sorted : StronglySorted consistent log }.

Lemma covered_lt lss lss' e :
  hrs_lt (lss_hrs lss) (lss_hrs lss') → covered lss e → covered lss' e.
Proof.
  intros Hlt [He|[He _]]; left; [by eapply hrs_lt_trans|by rewrite He].
Qed.

Lemma covered_consistent lss e1 e2 b :
  covered lss e1 → signed_hrs e2 = lss_hrs lss → signed_bytes e2 = Ok b →
  lss_BlockSignBytes lss = Some b → consistent e2 e1.
Proof.
  intros [He|(He & b' & Eb & El)] E2 Eb2 El2; [left; by rewrite E2|right].
  split; [congruence|]. assert (b = b') as -> by congruence. congruence.
Qed.

(** What is covered in memory is covered in a file that was written. *)
Lemma covered_json lss e : covered lss e → covered (lss_json lss) e.
Proof.
  intros [He|(He & b & Eb & El)]; [by left|right]. split; [done|]. exists b. split; [done|].
  cbn. rewrite El. pose proof (signed_bytes_nonempty _ _ Eb). by destruct b.
Qed.

Lemma written_covers pv log :
  unwritten pv = false → Forall (covered (pv_LastSignState pv)) log → Forall (covered (stateFile pv)) log.
Proof.
  unfold unwritten. intros Hu Hl. case_bool_decide as E; [|done]. rewrite E.
  eapply Forall_impl; [exact Hl|]. apply covered_json.
Qed.

(** A call keeps what was released covered, in memory and in the file, and what it
    returns can be released. *)
Lemma effect_inv written pv e pv' returned failed log a :
  sign_effect written pv e pv' returned failed → pv_inv pv log a →
  pv_inv pv' log (a && unwritten pv') ∧ (returned = true → pv_inv pv' (e :: log) (unwritten pv')).
Proof.
  intros He [Hl Hf Hs].
  enough (Forall (covered (pv_LastSignState pv')) log ∧
    (Forall (covered (stateFile pv)) log → Forall (covered (stateFile pv')) log) ∧
    (returned = true → ∃ b, signed_hrs e = lss_hrs (pv_LastSignState pv') ∧ signed_bytes e = Ok b ∧
       lss_BlockSignBytes (pv_LastSignState pv') = Some b)) as (Hl' & Hf' & Hr).
  { split.
    - split; [done| |done]. intros [->|Hu]%andb_false_iff; [auto|by apply written_covers].
    - intros (b & Eh & Eb & El)%Hr.
      assert (Forall (covered (pv_LastSignState pv')) (e :: log)) as Hc by (constructor; [right; eauto|done]).
      split; [done|by intros; apply written_covers|]. constructor; [done|].
      eapply Forall_impl; [exact Hl'|]. intros e1 He1. by eapply covered_consistent. }
  destruct He as [[-> Hr]|(Hlt & b & sig & He)].
  { split_and!; [done|done|]. intros (b & Eb & Eh & El)%Hr. eauto. }
  destruct (signed_hrs e) as [[h r] s] eqn:Eh. destruct He as (Es & Em & Ef & _).
  assert (Forall (covered (mkLSS h r s (Some sig) (Some b))) log) as Hl'.
  { eapply Forall_impl; [exact Hl|]. intros e1. by apply covered_lt. }
  rewrite Em. split_and!; [done| |eauto]. rewrite Ef. destruct written; [intros _|done].
  eapply Forall_impl; [exact Hl'|]. apply covered_json.
Qed.

Lemma save_inv kw sw pv pv' res log a :
  Save kw sw pv = (pv', res) → pv_inv pv log a → pv_inv pv' log (a && unwritten pv').
Proof.
  intros Hs [Hl Hf Hso].
  assert (pv_LastSignState pv' = pv_LastSignState pv ∧
    (stateFile pv' = stateFile pv ∨ stateFile pv' = lss_json (pv_LastSignState pv))) as [E1 E2].
  { destruct kw, sw; injection Hs as <- _; auto. }
  split; [by rewrite E1| |done]. intros Ha. destruct (unwritten pv') eqn:Hu.
  - rewrite andb_true_r in Ha. destruct E2 as [->| ->]; [by apply Hf|].
    eapply Forall_impl; [exact Hl|]. apply covered_json.
  - apply written_covers; [done|by rewrite E1].
Qed.

Lemma set_signs_signed c v sig exts :
  signed_hrs (SignedVote c (set_signs v sig exts)) = signed_hrs (SignedVote c v) ∧
  signed_bytes (SignedVote c (set_signs v sig exts)) = signed_bytes (SignedVote c v).
Proof. done. Qed.

(** The vote returned differs from the one given in its signatures only. *)
Lemma signVote_result written c qt qh v pv pv' v' :
  signVote written c qt qh v pv = (pv', Ok v') → ∃ sig exts, v' = set_signs v sig exts.
Proof.
  intros Hs. unfold signVote in Hs. rewrite lift_bind in Hs. destruct (voteToStep v); [|done..].
  rewrite get_bind, lift_bind in Hs. destruct (checkHRS _ _ _ _) as [same| |]; [|done..].
  rewrite lift_bind in Hs. destruct (wrap_err _ _); [|done..].
  apply getPrivateKey_run in Hs as [[k Hs]|[_ ?]]; [|done]. rewrite lift_bind in Hs.
  destruct (if (PV_Type v =? PrecommitType)%Z then _ else _); [|done..]. destruct same.
  - case_bool_decide; [|done]. rewrite lift_bind in Hs.
    destruct (fillProtoVoteExtensionSigns _ _); [|done..]. injection Hs as _ <-. eauto.
  - rewrite lift_bind in Hs. destruct (sign_digest _ _); [|done..]. rewrite saveSigned_run in Hs.
    destruct written; [|done]. rewrite lift_bind in Hs.
    destruct (fillProtoVoteExtensionSigns _ _); [|done..]. injection Hs as _ <-. eauto.
Qed.

Lemma signProposal_result written c qt qh p pv pv' id p' :
  signProposal written c qt qh p pv = (pv', Ok (id, p')) → ∃ sig, p' = set_signature p sig.
Proof.
  intros Hs. unfold signProposal in Hs. rewrite get_bind, lift_bind in Hs.
  destruct (checkHRS _ _ _ _) as [same| |]; [|done..].
  rewrite lift_bind in Hs. destruct (ProposalBlockSignID _ _ _ _); [|done..].
  rewrite lift_bind in Hs. destruct (ProposalBlockSignBytes _ _); [|done..]. destruct same.
  - destruct (negb _); [done|]. injection Hs as _ _ <-. eauto.
  - apply getPrivateKey_run in Hs as [[k Hs]|[_ ?]]; [|done]. rewrite lift_bind in Hs.
    destruct (sign_digest _ _); [|done..]. rewrite saveSigned_run in Hs.
    destruct written; [|done]. injection Hs as _ _ <-. eauto.
Qed.

Lemma inv_replace pv e e' log a :
  signed_hrs e' = signed_hrs e → signed_bytes e' = signed_bytes e →
  pv_inv pv (e :: log) a → pv_inv pv (e' :: log) a.
Proof.
  intros E1 E2 [Hl Hf Hs]. inversion_clear Hl as [|? ? Hc Hl']. inversion_clear Hs as [|? ? Hs' Hfa].
  assert (∀ lss, covered lss e → covered lss e') as Hce by (intros lss; unfold covered; by rewrite E1, E2).
  split.
  - constructor; auto.
  - intros Ha. specialize (Hf Ha). inversion_clear Hf. constructor; auto.
  - constructor; [done|]. eapply Forall_impl; [exact Hfa|]. intros e1. unfold consistent. by rewrite E1, E2.
Qed.

Lemma pv_step_inv x y : pv_step x y → pv_inv x.1.1 x.1.2 x.2 → pv_inv y.1.1 y.1.2 y.2.
Proof.
  intros Hst HI. destruct Hst as
    [w c qt qh v v' pv pv' log a Hs|w c qt qh v res pv pv' log a Hs
    |w c qt qh p id p' pv pv' log a Hs|w c qt qh p res pv pv' log a Hs
    |k qh tpk h pv pv' res log a Hs|kw sw pv pv' res log a Hs|pv pv' log Hl]; cbn in *.
  - destruct (signVote_result _ _ _ _ _ _ _ _ Hs) as (sig & exts & ->).
    apply signVote_effect in Hs. destruct (effect_inv _ _ _ _ _ _ _ _ Hs HI) as [_ Hr].
    eapply inv_replace; [..|by apply Hr]; done.
  - apply signVote_effect in Hs. by destruct (effect_inv _ _ _ _ _ _ _ _ Hs HI).
  - destruct (signProposal_result _ _ _ _ _ _ _ _ _ Hs) as (sig & ->).
    apply signProposal_effect in Hs. destruct (effect_inv _ _ _ _ _ _ _ _ Hs HI) as [_ Hr].
    eapply inv_replace; [..|by apply Hr]; done.
  - apply signProposal_effect in Hs. by destruct (effect_inv _ _ _ _ _ _ _ _ Hs HI).
  - injection Hs as <- _. destruct HI. by split.
  - by eapply save_inv.
  - unfold LoadFilePV in Hl. ok_inv. destruct HI as [_ Hf Hs]. split; auto.
Qed.

(** ** No double signing *)

Lemma new_inv k proTxHash qh tpk pv0 : NewFilePVOneKey k proTxHash qh tpk = Ok pv0 → pv_inv pv0 [] false.
Proof. unfold NewFilePVOneKey. intros Hn. ok_inv. split; constructor. Qed.

Lemma pv_steps_inv x y : rtc pv_step x y → pv_inv x.1.1 x.1.2 x.2 → pv_inv y.1.1 y.1.2 y.2.
Proof. induction 1 as [|x y z Hst _ IH]; [done|]. intros HI. by apply IH, (pv_step_inv x). Qed.

Lemma sorted_total {A} (R : A → A → Prop) l x y :
  StronglySorted R l → x ∈ l → y ∈ l → x = y ∨ R x y ∨ R y x.
Proof.
  induction 1 as [|z l _ IH Hf]; intros Hx Hy; [by apply elem_of_nil in Hx|].
  rewrite Forall_forall in Hf.
  apply elem_of_cons in Hx as [->|Hx], Hy as [->|Hy]; auto.
Qed.

Lemma consistent_same e1 e2 log :
  StronglySorted consistent log → e1 ∈ log → e2 ∈ log → signed_hrs e1 = signed_hrs e2 →
  signed_bytes e1 = signed_bytes e2.
Proof.
  intros Hs H1' H2' Eh. destruct (sorted_total _ _ _ _ Hs H1' H2') as [->|[[Hlt|[_ ?]]|[Hlt|[_ ?]]]];
    try congruence; exfalso; rewrite Eh in Hlt; by eapply hrs_lt_irrefl.
Qed.

(** C31: a signer never equivocates while it is not restarted ahead of its file.  Take every
    sequence of signing calls, whose writes of the state file may fail and return to the running
    process, of key updates, saves, crashes and restarts, where a restart does not follow the
    release of a signature that the file does not account for (which a write that failed, and no
    later one that succeeded, makes possible).  Then the released signatures go forward in
    height, round and step; two for the same step are for the same bytes, and two votes for the
    same step are for the same block of the same chain. *)
Theorem no_double_sign k proTxHash qh tpk pv0 pv log a :
  NewFilePVOneKey k proTxHash qh tpk = Ok pv0 → rtc pv_step (pv0, [], false) (pv, log, a) →
  StronglySorted consistent log ∧
  (∀ e1 e2, e1 ∈ log → e2 ∈ log → signed_hrs e1 = signed_hrs e2 → signed_bytes e1 = signed_bytes e2) ∧
  (∀ c1 c2 v1 v2, SignedVote c1 (Vote_ToProto v1) ∈ log → SignedVote c2 (Vote_ToProto v2) ∈ log →
     (∀ b, length (sha256 b) = 32) → vote_ints v1 → vote_ints v2 →
     Vote_ValidateBasic v1 = Ok tt → Vote_ValidateBasic v2 = Ok tt →
     merkle.no_collision sha256
       [[]; canonical_signBytes (Vote_BlockID v1); canonical_signBytes (Vote_BlockID v2)] →
     Vote_Height v1 = Vote_Height v2 → Vote_Round v1 = Vote_Round v2 → Vote_Type v1 = Vote_Type v2 →
     c1 = c2 ∧ Vote_BlockID v1 = Vote_BlockID v2).
Proof.
  intros Hn Hst. apply pv_steps_inv in Hst; [|by eapply new_inv]. cbn in Hst.
  pose proof (pi_sorted _ _ _ Hst) as Hs. split_and!; [done|by intros; eapply consistent_same|].
  intros c1 c2 v1 v2 M1 M2 Hlen I1 I2 V1 V2 Hc Eh Er Et.
  pose proof (consistent_same _ _ _ Hs M1 M2) as Hb.
  assert (SignBytes sha256 c1 (Vote_ToProto v1) = SignBytes sha256 c2 (Vote_ToProto v2)) as Hbytes.
  { cut (Ok (E:=pv_error) (SignBytes sha256 c1 (Vote_ToProto v1)) =
         Ok (SignBytes sha256 c2 (Vote_ToProto v2))); [by intros [= ->]|].
    apply Hb. cbn. unfold voteToStep. cbn. by rewrite Eh, Er, Et. }
  by destruct (SignBytes_inj sha256 Hlen c1 c2 v1 v2 I1 I2 V1 V2 Hc Hbytes) as (? & _ & _ & _ & ?).
Qed.

(** ** After a failed write *)

Lemma checkHRS_again h r s sig b :
  checkHRS (mkLSS h r s (Some sig) (Some b)) h r s = Ok true.
Proof.
  unfold checkHRS. cbn [lss_Height lss_Round lss_Step lss_BlockSignBytes lss_BlockSignature].
  by rewrite !Z.ltb_irrefl, !Z.eqb_refl.
Qed.

(** When the write of the state file fails, the vote just refused is signed and
    released by the next call, though the file does not know of it: after a
    restart the signer is where it was before, free to sign another block. *)
Theorem failed_write_releases c qt qh v pv pv' v' :
  hrs_lt (lss_hrs (pv_LastSignState pv)) (signed_hrs (SignedVote c v)) →
  signVote true c qt qh v pv = (pv', Ok v') →
  ∃ pv1, signVote false c qt qh v pv = (pv1, Err ErrSave) ∧
    signVote true c qt qh v pv1 = (pv1, Ok v') ∧
    stateFile pv1 = stateFile pv ∧ keyFile pv1 = keyFile pv.
Proof.
  intros Hlt Hs. unfold signVote in *. rewrite lift_bind in *.
  destruct (voteToStep v) as [step| |] eqn:Est; [|done..].
  rewrite get_bind, lift_bind in *.
  destruct (checkHRS _ _ _ _) as [same| |] eqn:Ec; [|done..].
  apply checkHRS_Ok in Ec. destruct same.
  { exfalso. destruct Ec as [Ec _]. apply (hrs_lt_irrefl (lss_hrs (pv_LastSignState pv))).
    rewrite <- Ec at 2. cbn [signed_hrs] in Hlt. by rewrite Est in Hlt. }
  rewrite lift_bind in *.
  destruct (MakeQuorumSigns c qt qh v) as [q| |] eqn:Eq; [|done..]. cbn [wrap_err] in *.
  unfold getPrivateKey in *.
  destruct (PrivateKeys (pv_Key pv) !! qh) as [k|] eqn:Ek.
  2: { unfold mbind, M_bind, get in Hs. rewrite Ek in Hs. by destruct (existsb _ _). }
  assert (∀ {B} pv2 (f : PrivKey → M B), pv_Key pv2 = pv_Key pv →
    (getPrivateKey qh ≫= f) pv2 = f (qk_PrivKey k) pv2) as Hget.
  { intros B pv2 f E. unfold getPrivateKey, mbind, M_bind, get. by rewrite E, Ek. }
  fold (getPrivateKey qh) in *. rewrite Hget, lift_bind in * by done.
  destruct (if (PV_Type v =? PrecommitType)%Z then _ else _) as [sigs| |] eqn:Esig; [|done..].
  rewrite lift_bind in *.
  destruct (sign_digest _ _) as [sig| |] eqn:Ed; [|done..]. rewrite saveSigned_run in *.
  eexists. split; [done|]. split_and!; [|done..].
  rewrite lift_bind, get_bind, lift_bind. cbn [pv_LastSignState set_lss].
  rewrite checkHRS_again, lift_bind. cbn [wrap_err].
  rewrite Hget, lift_bind by done. rewrite ?Esig. cbn [default from_option lss_BlockSignBytes].
  rewrite bool_decide_eq_true_2 by done. rewrite lift_bind in *.
  destruct (fillProtoVoteExtensionSigns _ _); [|done..]. by injection Hs as _ <-.
Qed.

(** ** Signing a proposal again *)

(** Asked again for the signature of a proposal it has signed, the signer puts
    the signed bytes in the place of the signature. *)
Theorem resigned_proposal c qt qh p pv pv' id p' b :
  hrs_lt (lss_hrs (pv_LastSignState pv)) (signed_hrs (SignedProposal c p)) →
  signProposal true c qt qh p pv = (pv', Ok (id, p')) →
  ProposalBlockSignBytes (E:=pv_error) c p = Ok b →
  (∃ k, sign_digest k id = Ok (Prop_Signature p')) ∧
  signProposal true c qt qh p pv' = (pv', Ok (id, set_signature p b)).
Proof.
  intros Hlt Hs Hb. unfold signProposal in Hs. rewrite get_bind, lift_bind in Hs.
  destruct (checkHRS _ _ _ _) as [same| |] eqn:Ec; [|done..]. apply checkHRS_Ok in Ec. destruct same.
  { exfalso. destruct Ec as [Ec _]. cbn [signed_hrs] in Hlt. rewrite Ec in Hlt.
    by eapply hrs_lt_irrefl. }
  rewrite lift_bind in Hs.
  destruct (ProposalBlockSignID _ _ _ _) as [id'| |] eqn:Ei; [|done..].
  rewrite lift_bind, Hb in Hs. apply getPrivateKey_run in Hs as [[k Hs]|[_ ?]]; [|done].
  rewrite lift_bind in Hs. destruct (sign_digest k id') as [sig| |] eqn:Ed; [|done..].
  rewrite saveSigned_run in Hs. injection Hs as <- <- <-. split; [by exists k|].
  unfold signProposal. rewrite get_bind, lift_bind. cbn [pv_LastSignState].
  rewrite checkHRS_again, lift_bind, Ei, lift_bind, Hb. cbn [default from_option lss_BlockSignBytes].
  by rewrite bool_decide_eq_true_2.
Qed.

End thms.

(** ** Witnesses *)

Definition toy_signer : Signer := {|
  PrivKey := unit;
  PrivKey_PubKey := λ _, toy_key;
  SignDigest := λ _ d, Some (toy_sign d) |}.

#[local] Existing Instance toy_crypto.
#[local] Existing Instance toy_time.
#[local] Existing Instance toy_signer.

Definition demo_pv : FilePV :=
  let key := mkKey {[demo_hash x0b := mkQK tt toy_key (Some toy_key)]} ∅ ∅ (demo_hash x07) in
  mkPV' key lss_reset key lss_reset.

Definition demo_prevote (b : byte) : ProtoVote := Vote_ToProto (demo_vote 1 x07 (demo_block b)).

(** The signer after its first vote. *)
Definition demo_signs (b : byte) : option (FilePV * ProtoVote) :=
  match signVote true [x61] 100 (demo_hash x0b) (demo_prevote b) demo_pv with
  | (pv, Ok v) => Some (pv, v)
  | _ => None
  end.

Lemma demo_signs_some : ∃ pv v, demo_signs x01 = Some (pv, v).
Proof. vm_compute. do 2 eexists. reflexivity. Qed.

Lemma demo_first_vote :
  ∃ pv v, signVote true [x61] 100 (demo_hash x0b) (demo_prevote x01) demo_pv = (pv, Ok v).
Proof.
  destruct demo_signs_some as (pv & v & E). exists pv, v. revert E. unfold demo_signs.
  destruct (signVote _ _ _ _ _ _) as [pv1 [v1| |]]; [|done..]. by intros [= <- <-].
Qed.

(** A write fails, the vote is released by the next call, it is saved and released again, and
    then the signer is restarted. *)
Definition demo_fails (b : byte) : FilePV :=
  (signVote false [x61] 100 (demo_hash x0b) (demo_prevote b) demo_pv).1.

Definition demo_again (b : byte) : option (FilePV * ProtoVote * FilePV * FilePV) :=
  match signVote true [x61] 100 (demo_hash x0b) (demo_prevote b) (demo_fails b) with
  | (pv, Ok v) =>
      match Save true true pv with
      | (pv1, Ok _) => match LoadFilePV pv1 with Ok pv2 => Some (pv, v, pv1, pv2) | _ => None end
      | _ => None
      end
  | _ => None
  end.

Lemma demo_restarted :
  ∃ pv v, rtc pv_step (demo_pv, [], false) (pv, [SignedVote [x61] v], false) ∧
    lss_hrs (pv_LastSignState pv) = signed_hrs (SignedVote [x61] v).
Proof.
  assert (from_option (λ '(_, v, pv1, pv2), negb (unwritten pv1) &&
    bool_decide (lss_hrs (pv_LastSignState pv2) = signed_hrs (SignedVote [x61] v))) false (demo_again x01) = true)
    as Hd by (vm_compute; reflexivity).
  unfold demo_again in Hd. destruct (signVote true _ _ _ _ (demo_fails x01)) as [pv [v| |]] eqn:E1; [|done..].
  destruct (Save true true pv) as [pv1 [[]| |]] eqn:E2; [|done..].
  destruct (LoadFilePV pv1) as [pv2| |] eqn:E3; [|done..]. cbn in Hd.
  apply andb_prop in Hd as [Hu Hh%bool_decide_eq_true]. apply negb_true_iff in Hu.
  exists pv2, v. split; [|done].
  destruct (signVote false [x61] 100 (demo_hash x0b) (demo_prevote x01) demo_pv) as [pv0 r0] eqn:E0.
  eapply rtc_l; [eapply step_vote_lost, E0|]. replace pv0 with (demo_fails x01) by (unfold demo_fails; by rewrite E0).
  eapply rtc_l; [eapply step_vote, E1|]. eapply rtc_l; [eapply step_save, E2|]. rewrite Hu, andb_false_r.
  eapply rtc_l; [eapply step_restart, E3|]. apply rtc_refl.
Qed.

Lemma no_double_sign_witness : ∃ log, log ≠ [] ∧ StronglySorted consistent log.
Proof.
  destruct demo_restarted as (pv & v & Hs & _). exists [SignedVote [x61] v]. split; [discriminate|].
  apply (@no_double_sign toy_crypto toy_time toy_signer tt (demo_hash x07) (demo_hash x0b) None demo_pv pv [SignedVote [x61] v] false).
  - vm_compute. reflexivity.
  - exact Hs.
Defined.

Lemma failed_write_releases_witness :
  ∃ pv1 v', signVote true [x61] 100 (demo_hash x0b) (demo_prevote x01) pv1 = (pv1, Ok v') ∧
    stateFile pv1 = lss_reset.
Proof.
  destruct demo_first_vote as (pv & v & Hs).
  destruct (failed_write_releases [x61] 100 (demo_hash x0b) (demo_prevote x01) demo_pv pv v)
    as (pv1 & _ & Hagain & Hf & _).
  - cbn. left. lia.
  - exact Hs.
  - exists pv1, v. split; [exact Hagain|]. rewrite Hf. reflexivity.
Defined.

Definition demo_proposes : bool :=
  match signProposal true [x61] 100 (demo_hash x0b) (demo_proposal x01) demo_pv with
  | (_, Ok _) => true
  | _ => false
  end.

Lemma demo_proposes_true : demo_proposes = true.
Proof. vm_compute. reflexivity. Qed.

(** The sign bytes are too long to pass for a signature. *)
Lemma resigned_proposal_witness :
  ∃ pv id b, signProposal true [x61] 100 (demo_hash x0b) (demo_proposal x01) pv =
      (pv, Ok (id, set_signature (demo_proposal x01) b)) ∧
    Prop_ValidateBasic (set_signature (demo_proposal x01) b) = Err ErrProposalSignatureSize.
Proof.
  pose proof demo_proposes_true as Hp. unfold demo_proposes in Hp.
  destruct (signProposal true [x61] 100 (demo_hash x0b) (demo_proposal x01) demo_pv)
    as [pv [[id p]| |]] eqn:Hs; try discriminate Hp.
  destruct (ProposalBlockSignBytes (E:=pv_error) [x61] (demo_proposal x01)) as [b| |] eqn:Hb;
    [|vm_compute in Hb; discriminate Hb..].
  exists pv, id, b. split.
  - apply (resigned_proposal [x61] 100 (demo_hash x0b) (demo_proposal x01) demo_pv pv id p b);
      [cbn; left; lia|exact Hs|exact Hb].
  - vm_compute in Hb. injection Hb as <-. vm_compute. reflexivity.
Defined.

End pvthms.
