(* ===== verification/ValidatorSet.v ===== *)
(** * types: validators and validator sets

    Models [src/types/validator.go], [src/types/validator_set.go], the quorum
    parameters of [src/dash/llmq/llmq.go], the validation of
    [src/types/validator_address.go] and [src/types/node_id.go], and the commit
    evidence of [src/types/verified_commit.go].

    [btcjson.LLMQType] and the syntax of host names (package [net]) are external.
    A validator set is a value: the methods that mutate a Go validator set return
    the new one, and do so only after all checks have passed. *)
From Stdlib Require Import ZArith Lia Init.Byte.
From stdpp Require Import base numbers list sets sorting.
From S2P Require Import Prelude.
From S2P Require Import SafeMath.
From S2P Require Import Merkle.
From S2P Require Import PartSet.
From S2P Require Import Types.
From S2P Require Import Crypto.
From S2P Require Import QuorumSign.

Import types crypto quorum.

(** The constants of [btcjson] that [llmq.quorumParams] lists. *)
Inductive llmq_name :=
  | LLMQType_50_60 | LLMQType_400_60 | LLMQType_400_85 | LLMQType_100_67
  | LLMQType_60_75 | LLMQType_25_67 | LLMQType_DEVNET | LLMQType_TEST_V17
  | LLMQType_TEST_DIP0024 | LLMQType_TEST_INSTANTSEND | LLMQType_DEVNET_DIP0024
  | LLMQType_TEST_PLATFORM | LLMQType_DEVNET_PLATFORM.

(** [btcjson.LLMQType] and [net]: which listed constant a number is, its own
    validation, and whether a host name is acceptable. *)
Class Dashd := {
  LLMQType_name : Z → option llmq_name;
  LLMQType_Validate : Z → bool;
  hostname_ok : bytes → bool }.

Module valset.

Definition MaxTotalVotingPower : Z := MaxInt64 / 8.
Definition DefaultDashVotingPower : Z := 100.

Definition quorumParams (n : llmq_name) : Z * Z :=
  match n with
  | LLMQType_50_60 => (50, 30)
  | LLMQType_400_60 => (400, 240)
  | LLMQType_400_85 => (400, 340)
  | LLMQType_100_67 => (100, 67)
  | LLMQType_60_75 => (60, 45)
  | LLMQType_25_67 => (25, 17)
  | LLMQType_DEVNET => (12, 6)
  | LLMQType_TEST_V17 => (3, 2)
  | LLMQType_TEST_DIP0024 => (4, 2)
  | LLMQType_TEST_INSTANTSEND => (3, 2)
  | LLMQType_DEVNET_DIP0024 => (8, 4)
  | LLMQType_TEST_PLATFORM => (3, 2)
  | LLMQType_DEVNET_PLATFORM => (12, 8)
  end%Z.

Record ValidatorAddress := mkAddr { Addr_NodeID : bytes; Addr_Hostname : bytes; Addr_Port : Z }.

Record Validator := mkValidator {
  ProTxHash : bytes;
  Val_PubKey : option PubKey;
  VotingPower : Z;
  NodeAddress : ValidatorAddress }.

Record ValidatorSet := mkValidatorSet {
  Validators : list Validator;
  proposerIndex : Z;
  ThresholdPublicKey : option PubKey;
  QuorumHash : bytes;
  QuorumType : Z;
  HasPublicKeys : bool;
  VotingPowerThreshold : Z }.

Inductive valset_error :=
  | ErrValidatorSetNilOrEmpty
  | ErrProposerIndex
  | ErrValidatorSize
  | ErrValidatorProTxHash
  | ErrValidatorNegativePower
  | ErrValidatorAddress
  | ErrValidatorPubKeyMissing
  | ErrValidatorPubKeySize
  | ErrThresholdPublicKeyMissing
  | ErrThresholdPublicKeySize
  | ErrThresholdPublicKeyWrong
  | ErrThresholdRecover (e : recover_error)
  | ErrQuorumHash
  | ErrQuorumType
  | ErrNilProposer
  | ErrThresholdTooLarge
  | ErrInvalidQuorum
  | ErrThresholdExceedsTotal
  | ErrTooManyMembers
  | ErrThresholdNotCanonical
  | ErrBelowStrictFloor
  | ErrProposerNotFound
  | ErrDuplicateEntry
  | ErrNegativePower
  | ErrPowerTooHigh
  | ErrPowerNotAllowed
  | ErrTotalVotingPowerOverflow
  | ErrNilThresholdKey
  | ErrNilQuorumHash
  | ErrDeletesNotAllowed
  | ErrEmptySet
  | ErrRemoveUnknown.

Notation res := (outcome valset_error).

(** ** Validators *)

Definition hex_digit (c : byte) : bool :=
  let n := Byte.to_nat c in
  ((48 <=? n) && (n <=? 57)) || ((97 <=? n) && (n <=? 102)).

(** [NodeID.Validate]. *)
Definition NodeID_Validate (nid : bytes) : bool :=
  (length nid =? 40) && forallb hex_digit nid.

Section dashd.
Context `{Crypto} `{Dashd}.

Definition Addr_Zero (va : ValidatorAddress) : bool :=
  (length (Addr_NodeID va) =? 0) && (length (Addr_Hostname va) =? 0) && (Addr_Port va =? 0)%Z.

Definition Addr_Validate (va : ValidatorAddress) : bool :=
  negb (Addr_Zero va) && negb (length (Addr_Hostname va) =? 0) &&
  hostname_ok (Addr_Hostname va) && negb (Addr_Port va =? 0)%Z &&
  ((length (Addr_NodeID va) =? 0) || NodeID_Validate (Addr_NodeID va)).

Definition Validator_ValidateBasic (v : option Validator) : res unit :=
  match v with
  | None => Err ErrNilProposer
  | Some v =>
      if length (ProTxHash v) =? 0 then Err ErrValidatorProTxHash
      else if (VotingPower v <? 0)%Z then Err ErrValidatorNegativePower
      else if negb (length (ProTxHash v) =? DefaultHashSize) then Err ErrValidatorProTxHash
      else if negb (Addr_Zero (NodeAddress v)) && negb (Addr_Validate (NodeAddress v))
      then Err ErrValidatorAddress
      else Ok tt
  end.

Definition ValidatePubKey (v : Validator) : res unit :=
  match Val_PubKey v with
  | None => Err ErrValidatorPubKeyMissing
  | Some pk =>
      if negb (length (pk_bytes pk) =? PubKeySize) then Err ErrValidatorPubKeySize else Ok tt
  end.

(** ** Sizes, powers and thresholds *)

Definition QuorumParams (quorumType : Z) : option (Z * Z) :=
  quorumParams <$> LLMQType_name quorumType.

Definition Size (vals : ValidatorSet) : Z := Z.of_nat (length (Validators vals)).

Definition TotalVotingPower (vals : ValidatorSet) : Z :=
  int64 (Size vals * DefaultDashVotingPower).

Definition QuorumTypeMemberCount (vals : ValidatorSet) : Z :=
  match QuorumParams (QuorumType vals) with
  | None => Size vals
  | Some (size, _) => size
  end.

Definition QuorumTypeThresholdCount (vals : ValidatorSet) : Z :=
  match QuorumParams (QuorumType vals) with
  | None => Z.quot (Size vals * 2) 3 + 1
  | Some (_, threshold) => threshold
  end.

Definition QuorumVotingPower (vals : ValidatorSet) : Z :=
  int64 (QuorumTypeMemberCount vals * DefaultDashVotingPower).

Definition QuorumTypeThresholdVotingPower (vals : ValidatorSet) : Z :=
  int64 (QuorumTypeThresholdCount vals * DefaultDashVotingPower).

Definition QuorumVotingThresholdPower {E} (vals : ValidatorSet) : outcome E Z :=
  let thresholdPower := VotingPowerThreshold vals in
  if (thresholdPower >? 0)%Z then
    if (thresholdPower >? MaxInt64)%Z then Panic else Ok (int64 thresholdPower)
  else Ok (QuorumTypeThresholdVotingPower vals).

Definition StrictVotingPowerFloor (vals : ValidatorSet) : Z :=
  int64 (Z.quot (int64 (TotalVotingPower vals * 2)) 3 + 1).

Definition BelowStrictThreshold {E} (vals : ValidatorSet) : outcome E bool :=
  t ← QuorumVotingThresholdPower vals; Ok (t <? StrictVotingPowerFloor vals)%Z.

Definition validateStrictFloor (vals : ValidatorSet) (threshold totalPower strictFloor : Z) :
    res unit :=
  match length (Validators vals) with
  | 1 | 2 => if negb (totalPower =? threshold)%Z then Err ErrBelowStrictFloor else Ok tt
  | 3 => if (threshold <? Z.quot (int64 (totalPower * 2)) 3)%Z then Err ErrBelowStrictFloor else Ok tt
  | _ => if (threshold <? strictFloor)%Z then Err ErrBelowStrictFloor else Ok tt
  end.

Definition validateThreshold (vals : ValidatorSet) : res unit :=
  threshold ← QuorumVotingThresholdPower vals;
  let totalPower := TotalVotingPower vals in
  let strictFloor := StrictVotingPowerFloor vals in
  if (totalPower <=? 0)%Z || (threshold <=? 0)%Z then Err ErrInvalidQuorum
  else if (threshold >? totalPower)%Z then Err ErrThresholdExceedsTotal
  else if (VotingPowerThreshold vals >? 0)%Z then Ok tt
  else
    match QuorumParams (QuorumType vals) with
    | None => validateStrictFloor vals threshold totalPower strictFloor
    | Some (typeMembers, typeThreshold) =>
        if (Size vals >? typeMembers)%Z then Err ErrTooManyMembers
        else if negb (threshold =? int64 (typeThreshold * DefaultDashVotingPower))%Z
        then Err ErrThresholdNotCanonical
        else Ok tt
    end.

(** ** Lookups *)

Fixpoint find_from (i : Z) (l : list Validator) (proTxHash : bytes) : option (Z * Validator) :=
  match l with
  | [] => None
  | val :: l =>
      if bool_decide (ProTxHash val = proTxHash) then Some (i, val)
      else find_from (i + 1) l proTxHash
  end.

(** [GetByProTxHash]: [(-1, nil)] when absent; an index that does not fit an
    [int32] panics. *)
Definition GetByProTxHash {E} (vals : ValidatorSet) (proTxHash : bytes) :
    outcome E (Z * option Validator) :=
  match find_from 0 (Validators vals) proTxHash with
  | None => Ok (-1, None)%Z
  | Some (idx, val) => idx ← from_math (SafeConvertInt32 idx); Ok (idx, Some val)
  end.

Definition HasProTxHash (vals : ValidatorSet) (proTxHash : bytes) : bool :=
  negb (length proTxHash =? 0) &&
  existsb (λ val, bool_decide (ProTxHash val = proTxHash)) (Validators vals).

Definition GetByIndex (vals : ValidatorSet) (index : Z) : option Validator :=
  if (index <? 0)%Z || (Size vals <=? index)%Z then None
  else Validators vals !! Z.to_nat index.

Definition HasCompletePublicKeys (vals : ValidatorSet) : bool :=
  negb (length (Validators vals) =? 0) &&
  forallb (λ val, match Val_PubKey val with
                  | None => false
                  | Some pk => negb (length (pk_bytes pk) =? 0)
                  end) (Validators vals).

Definition HasAnyPublicKeys (vals : ValidatorSet) : bool :=
  existsb (λ val, match Val_PubKey val with
                  | None => false
                  | Some pk => negb (length (pk_bytes pk) =? 0)
                  end) (Validators vals).

Definition valset_Hash (vals : ValidatorSet) : outcome merkle.merkle_error bytes :=
  match ThresholdPublicKey vals with
  | None => Ok []
  | Some pk =>
      if length (QuorumHash vals) =? 0 then Ok []
      else merkle.HashFromByteSlices sha256 [pk_bytes pk; QuorumHash vals]
  end.

(** ** The proposer *)

Definition Proposer {E} (vals : ValidatorSet) : outcome E (option Validator) :=
  if length (Validators vals) =? 0 then Panic else Ok (GetByIndex vals (proposerIndex vals)).

Definition set_proposerIndex (vals : ValidatorSet) (i : Z) : ValidatorSet :=
  mkValidatorSet (Validators vals) i (ThresholdPublicKey vals) (QuorumHash vals)
    (QuorumType vals) (HasPublicKeys vals) (VotingPowerThreshold vals).

Definition SetProposer (vals : ValidatorSet) (newProposer : bytes) : res ValidatorSet :=
  '(idx, _) ← GetByProTxHash vals newProposer;
  if (idx <? 0)%Z then Err ErrProposerNotFound else Ok (set_proposerIndex vals idx).

(** [for newIndex < 0 { newIndex += nVals }]; [None] when the fuel runs out. *)
Fixpoint raise_index (fuel : nat) (newIndex nVals : Z) : option Z :=
  if (newIndex <? 0)%Z then
    match fuel with
    | O => None
    | S fuel => raise_index fuel (int64 (newIndex + nVals)) nVals
    end
  else Some newIndex.

(** [None]: the loop does not end. *)
Definition IncProposerIndex {E} (vals : ValidatorSet) (times : Z) :
    option (outcome E ValidatorSet) :=
  let newIndex := int64 (proposerIndex vals + times) in
  let nVals := Size vals in
  match raise_index (Z.to_nat (- newIndex)) newIndex nVals with
  | None => None
  | Some newIndex =>
      Some (if (nVals =? 0)%Z then Panic
            else
              idx ← from_math (SafeConvertInt32 (Z.rem newIndex nVals));
              Ok (set_proposerIndex vals idx))
  end.

(** ** Validation *)

Definition thresholdPublicKeyValid (vals : ValidatorSet) (hasPublicKeys : bool) : res unit :=
  match ThresholdPublicKey vals with
  | None => Err ErrThresholdPublicKeyMissing
  | Some tpk =>
      if negb (length (pk_bytes tpk) =? PubKeySize) then Err ErrThresholdPublicKeySize
      else if negb hasPublicKeys then Ok tt
      else
        match Validators vals with
        | [] => Ok tt
        | [val] =>
            match Val_PubKey val with
            | None => Err ErrValidatorPubKeyMissing
            | Some pk => if PubKey_Equals pk tpk then Ok tt else Err ErrThresholdPublicKeyWrong
            end
        | vs =>
            recovered ← wrap_err ErrThresholdRecover
              (RecoverThresholdPublicKeyFromPublicKeys (map Val_PubKey vs) (map ProTxHash vs));
            rpk ← deref recovered;
            if PubKey_Equals rpk tpk then Ok tt else Err ErrThresholdPublicKeyWrong
        end
  end.

Definition QuorumHashValid (vals : ValidatorSet) : res unit :=
  if negb (length (QuorumHash vals) =? DefaultHashSize) then Err ErrQuorumHash else Ok tt.

Fixpoint validate_all (hasPublicKeys : bool) (l : list Validator) : res unit :=
  match l with
  | [] => Ok tt
  | val :: l =>
      _ ← Validator_ValidateBasic (Some val);
      _ ← (if hasPublicKeys then ValidatePubKey val else Ok tt);
      validate_all hasPublicKeys l
  end.

Definition valset_ValidateBasic (vals : ValidatorSet) : res unit :=
  if length (Validators vals) =? 0 then Err ErrValidatorSetNilOrEmpty
  else
    nVals ← wrap_err (λ _, ErrValidatorSize) (SafeConvertInt32 (Size vals));
    if (nVals <=? proposerIndex vals)%Z then Err ErrProposerIndex
    else
      _ ← validate_all (HasPublicKeys vals) (Validators vals);
      _ ← thresholdPublicKeyValid vals (HasPublicKeys vals);
      _ ← QuorumHashValid vals;
      if negb (LLMQType_Validate (QuorumType vals)) then Err ErrQuorumType
      else
        p ← Proposer vals;
        _ ← Validator_ValidateBasic p;
        if (VotingPowerThreshold vals >? MaxInt64)%Z then Err ErrThresholdTooLarge
        else validateThreshold vals.

Fixpoint validate_keys (l : list Validator) : res unit :=
  match l with
  | [] => Ok tt
  | val :: l => _ ← ValidatePubKey val; validate_keys l
  end.

Definition ValidatePublicKeys (vals : ValidatorSet) : res unit :=
  if length (Validators vals) =? 0 then Err ErrValidatorSetNilOrEmpty
  else _ ← validate_keys (Validators vals); thresholdPublicKeyValid vals true.

(** ** Updates *)

Definition hash_le (a b : Validator) : Prop :=
  bytes_compare (ProTxHash a) (ProTxHash b) ≠ Gt.

#[local] Instance hash_le_dec a b : Decision (hash_le a b).
Proof. unfold hash_le. apply _. Defined.

(** [sort.Sort(ValidatorsByProTxHashes(l))]. *)
Definition sort_validators (l : list Validator) : list Validator := merge_sort hash_le l.

Fixpoint split_changes (prev : bytes) (changes : list Validator) :
    res (list Validator * list Validator) :=
  match changes with
  | [] => Ok ([], [])
  | u :: changes =>
      if bool_decide (ProTxHash u = prev) then Err ErrDuplicateEntry
      else if (VotingPower u <? 0)%Z then Err ErrNegativePower
      else if (VotingPower u >? MaxTotalVotingPower)%Z then Err ErrPowerTooHigh
      else
        '(updates, removals) ← split_changes (ProTxHash u) changes;
        if (VotingPower u =? 0)%Z then Ok (updates, u :: removals)
        else Ok (u :: updates, removals)
  end.

Definition processChanges (origChanges : list Validator) :
    res (list Validator * list Validator) :=
  split_changes [] (sort_validators origChanges).

Definition numNewValidators (updates : list Validator) (vals : ValidatorSet) : nat :=
  length (filter (λ u, HasProTxHash vals (ProTxHash u) = false) updates).

Fixpoint verifyRemovals_loop (deletes : list Validator) (vals : ValidatorSet) (acc : Z) :
    res Z :=
  match deletes with
  | [] => Ok acc
  | u :: deletes =>
      '(_, val) ← GetByProTxHash vals (ProTxHash u);
      match val with
      | None => Err ErrRemoveUnknown
      | Some val => verifyRemovals_loop deletes vals (int64 (acc + VotingPower val))
      end
  end.

Definition verifyRemovals (deletes : list Validator) (vals : ValidatorSet) : res Z :=
  removed ← verifyRemovals_loop deletes vals 0;
  if length (Validators vals) <? length deletes then Panic else Ok removed.

(** [delta] of [verifyUpdates]. *)
Definition update_delta (vals : ValidatorSet) (u : Validator) : Z :=
  match find_from 0 (Validators vals) (ProTxHash u) with
  | Some (_, val) => int64 (VotingPower u - VotingPower val)
  | None => VotingPower u
  end.

Definition delta_le (vals : ValidatorSet) (a b : Validator) : Prop :=
  (update_delta vals a ≤ update_delta vals b)%Z.

Fixpoint add_deltas (deltas : list Z) (acc : Z) : res Z :=
  match deltas with
  | [] => Ok acc
  | d :: deltas =>
      let acc := int64 (acc + d) in
      if (acc >? MaxTotalVotingPower)%Z then Err ErrTotalVotingPowerOverflow
      else add_deltas deltas acc
  end.

#[local] Instance delta_le_dec vals a b : Decision (delta_le vals a b).
Proof. unfold delta_le. apply _. Defined.

Definition verifyUpdates (updates : list Validator) (vals : ValidatorSet) (removedPower : Z) :
    res Z :=
  if existsb (λ val, negb (VotingPower val =? 0)%Z && negb (VotingPower val =? 100)%Z) updates
  then Err ErrPowerNotAllowed
  else
    let updatesCopy := merge_sort (delta_le vals) updates in
    tvp ← add_deltas (map (update_delta vals) updatesCopy)
            (int64 (TotalVotingPower vals - removedPower));
    Ok (int64 (tvp + removedPower)).

(** The merge loop of [applyUpdates]; both lists are sorted. *)
Fixpoint merge_updates (existing : list Validator) : list Validator → list Validator :=
  fix go (updates : list Validator) :=
    match existing, updates with
    | [], _ => updates
    | _, [] => existing
    | e :: es, u :: us =>
        match bytes_compare (ProTxHash e) (ProTxHash u) with
        | Lt => e :: merge_updates es updates
        | Eq => u :: merge_updates es us
        | Gt => u :: go us
        end
    end.

(** The loop of [applyRemovals]; running out of validators panics. *)
Fixpoint apply_removals (existing deletes : list Validator) : res (list Validator) :=
  match deletes with
  | [] => Ok existing
  | d :: ds =>
      match existing with
      | [] => Panic
      | e :: es =>
          if bool_decide (ProTxHash e = ProTxHash d) then apply_removals es ds
          else rest ← apply_removals es deletes; Ok (e :: rest)
      end
  end.

Definition updateWithChangeSet (vals : ValidatorSet) (changes : list Validator)
    (allowDeletes : bool) (newThresholdPublicKey : option PubKey)
    (newQuorumHash : option bytes) : res ValidatorSet :=
  if length changes =? 0 then Ok vals
  else
    match newThresholdPublicKey, newQuorumHash with
    | None, _ => Err ErrNilThresholdKey
    | _, None => Err ErrNilQuorumHash
    | Some tpk, Some qh =>
        '(updates, deletes) ← processChanges changes;
        if negb allowDeletes && negb (length deletes =? 0) then Err ErrDeletesNotAllowed
        else if (numNewValidators updates vals =? 0) &&
                (length (Validators vals) =? length deletes)
        then Err ErrEmptySet
        else
          removedVotingPower ← verifyRemovals deletes vals;
          _ ← verifyUpdates updates vals removedVotingPower;
          let merged := merge_updates (sort_validators (Validators vals)) updates in
          kept ← apply_removals merged deletes;
          Ok (mkValidatorSet (sort_validators kept) (proposerIndex vals) (Some tpk) qh
                (QuorumType vals) (HasPublicKeys vals) (VotingPowerThreshold vals))
    end.

Definition UpdateWithChangeSet (vals : ValidatorSet) (changes : list Validator)
    (newThresholdPublicKey : option PubKey) (newQuorumHash : option bytes) : res ValidatorSet :=
  updateWithChangeSet vals changes true newThresholdPublicKey newQuorumHash.

(** [NewValidatorSet]; [threshold] is [*validatorParams.VotingPowerThreshold]. *)
Definition NewValidatorSet (valz : list Validator) (newThresholdPublicKey : option PubKey)
    (quorumType : Z) (quorumHash : option bytes) (hasPublicKeys : bool)
    (threshold : option Z) : res ValidatorSet :=
  let vals := mkValidatorSet [] 0 None (default [] quorumHash) quorumType hasPublicKeys
                (default 0%Z threshold) in
  match updateWithChangeSet vals valz false newThresholdPublicKey quorumHash with
  | Ok vals => Ok vals
  | _ => Panic
  end.

(** ** Verification of commits *)

Inductive commit_verify_error :=
  | ErrInvalidCommitHeight
  | ErrInvalidCommitBlockID
  | ErrCommitExtensions (e : ext_error)
  | ErrCommitSignData (e : sign_error)
  | ErrInvalidCommitQuorumHash
  | ErrInvalidCommitSignature (e : sign_error)
  | ErrCommitUntyped (e : sign_error)
  | ErrNilValidatorSet
  | ErrNilCommit
  | ErrCommitProofMismatch.

Notation cres := (outcome commit_verify_error).

Definition commitSignData (vals : ValidatorSet) (chainID : bytes) (blockID : BlockID)
    (height : Z) (commit : Commit) : cres QuorumSignData :=
  if negb (height =? Commit_Height commit)%Z then Err ErrInvalidCommitHeight
  else if negb (BlockID_Equals blockID (Commit_BlockID commit)) then Err ErrInvalidCommitBlockID
  else
    canonVote ← wrap_err ErrCommitExtensions (GetCanonicalVote commit);
    quorumSigns ← wrap_err ErrCommitSignData
      (makeVerifyQuorumSigns chainID (QuorumType vals) (QuorumHash vals) (Vote_ToProto canonVote));
    if negb (bool_decide (QuorumHash vals = Commit_QuorumHash commit))
    then Err ErrInvalidCommitQuorumHash else Ok quorumSigns.

(** How a failed signature check is reported: only a forged signature carries
    the type that evicts the sender. *)
Definition commit_sign_error (e : sign_error) : commit_verify_error :=
  match e with
  | ErrVerificationBudgetExhausted | ErrVoteExtensionCountMismatch _ _ => ErrCommitUntyped e
  | _ => ErrInvalidCommitSignature e
  end.

Definition verifyCommitReportingSigns (vals : ValidatorSet) (chainID : bytes)
    (blockID : BlockID) (height : Z) (commit : Commit) (b : option budget) :
    cres (QuorumSignData * QuorumSigns) :=
  quorumSigns ← commitSignData vals chainID blockID height commit;
  signs ← NewQuorumSignsFromCommit commit;
  _ ← wrap_err commit_sign_error (qsd_verify quorumSigns (ThresholdPublicKey vals) signs b);
  Ok (quorumSigns, signs).

(** [VerifyCommit] without and [VerifyCommitWithBudget] with a budget. *)
Definition verifyCommit (vals : ValidatorSet) (chainID : bytes) (blockID : BlockID)
    (height : Z) (commit : Commit) (b : option budget) : cres unit :=
  _ ← verifyCommitReportingSigns vals chainID blockID height commit b; Ok tt.

Record commitProof := mkCommitProof {
  CP_chainID : bytes;
  CP_height : Z;
  CP_blockID : BlockID;
  CP_quorumType : Z;
  CP_quorumHash : bytes;
  CP_keyType : KeyType;
  CP_keyBytes : bytes;
  CP_signHashes : list bytes;
  CP_signatures : list bytes }.

(** The proof part of a [VerifiedCommit]; [None] for the zero value. *)
Definition VerifyCommitSignatures (vals : option ValidatorSet) (chainID : bytes)
    (blockID : BlockID) (height : Z) (commit : option Commit) (b : option budget) :
    cres commitProof :=
  match vals, commit with
  | None, _ => Err ErrNilValidatorSet
  | _, None => Err ErrNilCommit
  | Some vals, Some commit =>
      '(signData, signs) ← verifyCommitReportingSigns vals chainID blockID height commit b;
      pk ← deref (ThresholdPublicKey vals);
      let '(signHashes, signatures) := signedContent signData signs in
      Ok (mkCommitProof chainID height blockID (QuorumType vals) (QuorumHash vals) (pk_type pk)
            (pk_bytes pk) signHashes signatures)
  end.

(** [commitProof.checkMatches], as a test: its error is never reported. *)
Definition proof_matches (p : option commitProof) (chainID : bytes) (vals : option ValidatorSet)
    (blockID : BlockID) (height : Z) (commit : option Commit) : cres bool :=
  match p, vals, commit with
  | Some p, Some vals, Some commit =>
      if (length (CP_signHashes p) =? 0) ||
         negb (bool_decide (CP_chainID p = chainID)) ||
         negb (CP_height p =? height)%Z ||
         negb (BlockID_Equals (CP_blockID p) blockID) ||
         negb (CP_quorumType p =? QuorumType vals)%Z ||
         negb (bool_decide (CP_quorumHash p = QuorumHash vals)) ||
         negb (match ThresholdPublicKey vals with
               | None => false
               | Some pk => bool_decide (pk_type pk = CP_keyType p) &&
                            bool_decide (CP_keyBytes p = pk_bytes pk)
               end)
      then Ok false
      else
        match commitSignData vals chainID blockID height commit with
        | Panic => Panic
        | Err _ => Ok false
        | Ok signData =>
            signs ← NewQuorumSignsFromCommit commit;
            let '(signHashes, signatures) := signedContent signData signs in
            Ok (bool_decide (CP_signHashes p = signHashes) &&
                bool_decide (CP_signatures p = signatures))
        end
  | _, _, _ => Ok false
  end.

(** Returns whether the verification was skipped. *)
Definition VerifyCommitUnlessVerified (vals : ValidatorSet) (chainID : bytes)
    (blockID : BlockID) (height : Z) (commit : Commit) (p : option commitProof) : cres bool :=
  ok ← proof_matches p chainID (Some vals) blockID height (Some commit);
  if (ok : bool) then Ok true
  else _ ← verifyCommit vals chainID blockID height commit None; Ok false.

(** ** The proposer rotates *)

Lemma raise_index_spec fuel x n :
  (0 < n ≤ MaxInt32)%Z → in_int64 x → (- x ≤ Z.of_nat fuel)%Z →
  ∃ y, raise_index fuel x n = Some y ∧ (0 ≤ y)%Z ∧ (y mod n = x mod n)%Z ∧ in_int64 y.
Proof.
  intros Hn. revert x. induction fuel as [|fuel IH]; intros x Hx Hf; cbn [raise_index].
  - destruct (Z.ltb_spec x 0); [lia|eauto].
  - destruct (Z.ltb_spec x 0); [|eauto].
    assert (in_int64 (x + n)) by (unfold_ints; lia).
    rewrite int64_id by done. destruct (IH (x + n)%Z) as (y & -> & ? & E & ?); [done|lia|].
    exists y. split_and!; try done. rewrite E. rewrite <- (Z.mul_1_l n) at 1.
    by rewrite Z.mod_add by lia.
Qed.

Lemma IncProposerIndex_Ok {E} vals times :
  (0 < Size vals ≤ MaxInt32)%Z → in_int32 (proposerIndex vals) →
  in_int64 (proposerIndex vals + times) →
  IncProposerIndex (E:=E) vals times =
    Some (Ok (set_proposerIndex vals ((proposerIndex vals + times) mod Size vals))) ∧
  (0 ≤ (proposerIndex vals + times) mod Size vals < Size vals)%Z.
Proof.
  intros Hn Hp Ht. pose proof (Z.mod_pos_bound (proposerIndex vals + times) (Size vals)).
  unfold IncProposerIndex. rewrite int64_id by done.
  destruct (raise_index_spec (Z.to_nat (- (proposerIndex vals + times)))
              (proposerIndex vals + times) (Size vals)) as (y & -> & Hy & Em & _); [done|done|lia|].
  destruct (Z.eqb_spec (Size vals) 0); [lia|].
  rewrite Z.rem_mod_nonneg by lia. rewrite Em.
  rewrite SafeConvertInt32_int64 by (unfold_ints; lia).
  rewrite bool_decide_eq_true_2 by (unfold_ints; lia). split; [done|lia].
Qed.

(** [IncProposerIndex] ends, moves the proposer by [times] positions around the
    set in either direction, and the new index is in range. *)
Theorem IncProposerIndex_spec {E} vals times :
  (0 < Size vals ≤ MaxInt32)%Z → in_int32 (proposerIndex vals) →
  in_int64 (proposerIndex vals + times) →
  IncProposerIndex (E:=E) vals times =
    Some (Ok (set_proposerIndex vals ((proposerIndex vals + times) mod Size vals))) ∧
  (0 ≤ (proposerIndex vals + times) mod Size vals < Size vals)%Z.
Proof. apply IncProposerIndex_Ok. Qed.

(** ** Voting thresholds *)

Lemma TotalVotingPower_eq vals :
  (Size vals ≤ MaxInt32)%Z → TotalVotingPower vals = (100 * Size vals)%Z.
Proof.
  intros Hn. unfold TotalVotingPower, DefaultDashVotingPower. unfold Size in *.
  rewrite int64_id by (unfold_ints; lia). lia.
Qed.

Lemma valset_ValidateBasic_parts vals :
  in_int64 (Size vals) → valset_ValidateBasic vals = Ok tt →
  (0 < Size vals ≤ MaxInt32)%Z ∧ validateThreshold vals = Ok tt ∧
  LLMQType_Validate (QuorumType vals) = true ∧ length (QuorumHash vals) = DefaultHashSize ∧
  thresholdPublicKeyValid vals (HasPublicKeys vals) = Ok tt ∧
  validate_all (HasPublicKeys vals) (Validators vals) = Ok tt.
Proof.
  intros Hs Hv. unfold valset_ValidateBasic, QuorumHashValid in Hv. ok_inv. bools. units.
  match goal with H : SafeConvertInt32 _ = _ |- _ =>
    rewrite SafeConvertInt32_int64 in H by done; ok_inv end.
  bools. unfold Size in *. unfold_ints. split_and!; try done; lia.
Qed.

(** Every validator of a valid set is valid. *)
Lemma validate_all_In hk l v :
  validate_all hk l = Ok tt → v ∈ l → Validator_ValidateBasic (Some v) = Ok tt.
Proof.
  induction l as [|w l IH]; cbn [validate_all]; intros Hl Hv; [by apply elem_of_nil in Hv|].
  destruct (Validator_ValidateBasic (Some w)) as [[]| |] eqn:Ew; cbn [mbind outcome_bind] in Hl; [|done..].
  apply elem_of_cons in Hv as [->|?]; [done|]. apply IH; [|done].
  destruct (if hk then _ else _); by try done.
Qed.

(** The quorum types whose threshold exceeds two thirds of their size. *)
Definition strict_type (n : llmq_name) : bool :=
  match n with
  | LLMQType_400_85 | LLMQType_100_67 | LLMQType_60_75 | LLMQType_25_67 => true
  | _ => false
  end.

Definition strict_quorum (vals : ValidatorSet) : Prop :=
  VotingPowerThreshold vals = 0%Z ∧
  match LLMQType_name (QuorumType vals) with
  | Some n => strict_type n = true
  | None => (3 < Size vals)%Z
  end.

(** A validated set without a configured threshold, of a production quorum type
    or of an unlisted type with at least four members, needs more than two thirds
    of the total voting power, and never more than all of it. *)
Theorem strict_threshold vals :
  in_int64 (Size vals) → valset_ValidateBasic vals = Ok tt → strict_quorum vals →
  ∃ t, (∀ E, QuorumVotingThresholdPower (E:=E) vals = Ok t) ∧
    (2 * TotalVotingPower vals < 3 * t)%Z ∧ (t ≤ TotalVotingPower vals)%Z ∧
    (∀ E, BelowStrictThreshold (E:=E) vals = Ok false).
Proof.
  intros Hs (Hn & Hv & _)%valset_ValidateBasic_parts [Hz Hq]; [|done].
  pose proof (TotalVotingPower_eq vals ltac:(lia)) as HT.
  assert (StrictVotingPowerFloor vals = Z.quot (200 * Size vals) 3 + 1)%Z as HF.
  { unfold StrictVotingPowerFloor. rewrite HT. rewrite (int64_id (_ * 2)) by (unfold_ints; lia).
    replace (100 * Size vals * 2)%Z with (200 * Size vals)%Z by lia.
    rewrite Z.quot_div_nonneg by lia. apply int64_id. unfold_ints. div_lia. }
  set (t := QuorumTypeThresholdVotingPower vals).
  assert (∀ E, QuorumVotingThresholdPower (E:=E) vals = Ok t) as Ht.
  { intros E. unfold QuorumVotingThresholdPower. by rewrite Hz. }
  exists t. split; [done|].
  assert (2 * TotalVotingPower vals < 3 * t ∧ t ≤ TotalVotingPower vals)%Z as [H1 H2].
  { unfold validateThreshold in Hv. rewrite Ht, Hz in Hv. orun. cbn [mbind outcome_bind] in Hv.
    ok_inv. bools; try lia. rewrite HT in *. split; [|lia].
    unfold QuorumParams in Hv. destruct (LLMQType_name (QuorumType vals)) as [n|] eqn:En.
    - cbn [fmap option_fmap option_map] in Hv.
      unfold t, QuorumTypeThresholdVotingPower, QuorumTypeThresholdCount, QuorumParams.
      rewrite En. unfold DefaultDashVotingPower.
      destruct n; try done; cbn [quorumParams fmap option_fmap option_map] in *; ok_inv; bools;
        rewrite int64_id by (unfold_ints; lia); lia.
    - cbn [fmap option_fmap option_map] in Hv. unfold validateStrictFloor in Hv. unfold Size in *.
      destruct (length (Validators vals)) as [|[|[|[|m]]]]; try lia.
      rewrite HF in Hv. ok_inv. bools. rewrite Z.quot_div_nonneg in * by lia. div_lia. }
  split_and!; try done. intros E. unfold BelowStrictThreshold. rewrite Ht, HF. orun.
  f_equal. apply Z.ltb_ge. rewrite HT in *. rewrite Z.quot_div_nonneg by lia. div_lia.
Qed.

(** ** Commit verification *)

(** The canonical precommit of a commit with decoded extensions. *)
Definition canonical_vote (commit : Commit) (es : list VoteExtensionIf) : Vote :=
  mkVote PrecommitType (Commit_Height commit) (Commit_Round commit) (Commit_BlockID commit)
    [] 0 [] es.

Lemma VoteExtensionsFromProto_pbs pbs es :
  VoteExtensionsFromProto pbs = Ok es → pbs = map (λ e, Some (vei_pb e)) es.
Proof.
  unfold VoteExtensionsFromProto. generalize 0. revert es.
  induction pbs as [|[pb|] pbs IH]; intros es i Hd; cbn in Hd; ok_inv; [done|].
  cbn. f_equal; [|by eapply IH].
  match goal with H : VoteExtensionFromProto _ = Ok _ |- _ =>
    unfold VoteExtensionFromProto in H; ok_inv; done end.
Qed.

Lemma mapM_id_Some {A} (l : list A) : mapM id (map Some l) = Some l.
Proof. induction l as [|x l IH]; cbn; [done|]. by rewrite IH. Qed.

Lemma NewQuorumSignsFromCommit_ok {E} commit es :
  VoteExtensionsFromProto (Commit_ThresholdVoteExtensions commit) = Ok es →
  NewQuorumSignsFromCommit (E:=E) commit =
    Ok (mkQS (Commit_ThresholdBlockSignature commit) (GetSignatures es)).
Proof.
  intros Hd%VoteExtensionsFromProto_pbs. unfold NewQuorumSignsFromCommit. rewrite Hd.
  rewrite <- (map_map vei_pb Some), mapM_id_Some. unfold GetSignatures. by rewrite map_map.
Qed.

Lemma commitSignData_Ok vals chainID blockID height commit q :
  commitSignData vals chainID blockID height commit = Ok q ↔
  height = Commit_Height commit ∧ blockID = Commit_BlockID commit ∧
  QuorumHash vals = Commit_QuorumHash commit ∧
  ∃ es, VoteExtensionsFromProto (Commit_ThresholdVoteExtensions commit) = Ok es ∧
    length es ≤ MaxVoteExtensions ∧
    MakeQuorumSigns chainID (QuorumType vals) (QuorumHash vals)
      (Vote_ToProto (canonical_vote commit es)) = Ok q.
Proof.
  unfold commitSignData, GetCanonicalVote. split.
  - intros Hc. ok_inv. bools.
    match goal with H : BlockID_Equals _ _ = true |- _ => apply BlockID_Equals_spec in H end.
    match goal with H : makeVerifyQuorumSigns _ _ _ _ = _ |- _ =>
      apply makeVerifyQuorumSigns_Ok in H as [? ?] end.
    split_and!; try done. eauto.
  - intros (-> & -> & Eq & es & -> & Hl & Hq). rewrite Z.eqb_refl. cbn [negb].
    rewrite (proj2 (BlockID_Equals_spec _ _) eq_refl). cbn [negb wrap_err]. orun.
    cbn [wrap_err]. orun. fold (canonical_vote commit es).
    rewrite (proj2 (makeVerifyQuorumSigns_Ok _ _ _ (canonical_vote commit es) q)) by done.
    cbn [wrap_err]. orun. by rewrite bool_decide_eq_true_2 by done.
Qed.

(** What an accepted commit guarantees. *)
Definition commit_valid (vals : ValidatorSet) (chainID : bytes) (blockID : BlockID)
    (height : Z) (commit : Commit) : Prop :=
  height = Commit_Height commit ∧ blockID = Commit_BlockID commit ∧
  QuorumHash vals = Commit_QuorumHash commit ∧
  ∃ es q tpk, VoteExtensionsFromProto (Commit_ThresholdVoteExtensions commit) = Ok es ∧
    length es ≤ MaxVoteExtensions ∧ ThresholdPublicKey vals = Some tpk ∧
    MakeQuorumSigns chainID (QuorumType vals) (QuorumHash vals)
      (Vote_ToProto (canonical_vote commit es)) = Ok q ∧
    all_valid tpk
      (SI_SignHash (QSD_Block q) :: map SI_SignHash (QSD_VoteExtensionSignItems q))
      (Commit_ThresholdBlockSignature commit :: GetSignatures es).

Lemma qsd_verify_pk q pubKey signs b :
  qsd_verify q pubKey signs b = Ok tt → ∃ pk, pubKey = Some pk.
Proof.
  unfold qsd_verify, VerifyBlock, VerifySignature. intros Hv.
  destruct pubKey as [pk|]; [eauto|]. cbn in Hv. ok_inv.
Qed.

Lemma verifyCommit_Ok vals chainID blockID height commit :
  verifyCommit vals chainID blockID height commit None = Ok tt ↔
  commit_valid vals chainID blockID height commit.
Proof.
  unfold verifyCommit, verifyCommitReportingSigns, commit_valid. split.
  - intros Hv. ok_inv. units.
    match goal with H : commitSignData _ _ _ _ _ = _ |- _ =>
      apply commitSignData_Ok in H as (-> & -> & Eq & es & Hd & Hl & Hq) end.
    rewrite (NewQuorumSignsFromCommit_ok commit es Hd) in *. ok_inv.
    match goal with H : qsd_verify _ _ _ _ = _ |- _ =>
      destruct (qsd_verify_pk _ _ _ _ H) as [tpk Ek]; rewrite Ek in H;
      apply qsd_verify_spec in H end.
    split_and!; try done. exists es. eauto 10.
  - intros (E1 & E2 & E3 & es & q & tpk & Hd & Hl & Ek & Hq & Hall).
    rewrite (proj2 (commitSignData_Ok vals chainID blockID height commit q)) by eauto 10.
    orun. rewrite (NewQuorumSignsFromCommit_ok commit es Hd). orun. rewrite Ek.
    by rewrite (proj2 (qsd_verify_spec q tpk _)).
Qed.

(** What [VerifyCommit] accepts: height, block and quorum are the expected
    ones, and the block signature and one signature per extension verify against
    the threshold public key of the set. *)
Theorem verifyCommit_spec vals chainID blockID height commit :
  verifyCommit vals chainID blockID height commit None = Ok tt ↔
  commit_valid vals chainID blockID height commit.
Proof. apply verifyCommit_Ok. Qed.

Lemma minted_proof vals0 chainID0 blockID0 height0 commit0 b p :
  VerifyCommitSignatures (Some vals0) chainID0 blockID0 height0 (Some commit0) b = Ok p →
  all_valid (mkPubKey (CP_keyType p) (CP_keyBytes p)) (CP_signHashes p) (CP_signatures p).
Proof.
  cbn [VerifyCommitSignatures]. unfold verifyCommitReportingSigns. intros Hm. ok_inv. units.
  cbn [signedContent] in Hm. injection Hm as <-. cbn.
  match goal with H : ThresholdPublicKey _ = Some ?k |- _ => rewrite H in *; destruct k end.
  match goal with H : qsd_verify _ _ _ _ = _ |- _ =>
    apply qsd_verify_budget, qsd_verify_spec in H; exact H end.
Qed.

Lemma proof_matches_true p chainID vals blockID height commit :
  all_valid (mkPubKey (CP_keyType p) (CP_keyBytes p)) (CP_signHashes p) (CP_signatures p) →
  proof_matches (Some p) chainID (Some vals) blockID height (Some commit) = Ok true →
  verifyCommit vals chainID blockID height commit None = Ok tt.
Proof.
  intros Hall Hm. cbn [proof_matches] in Hm.
  destruct (ThresholdPublicKey vals) as [pk|] eqn:Ek; [|ok_inv; bools; done].
  ok_inv. bools.
  destruct (commitSignData vals chainID blockID height commit) as [q| |] eqn:Ec; ok_inv; try discriminate.
  unfold verifyCommit, verifyCommitReportingSigns. rewrite Ec. orun.
  match goal with H : NewQuorumSignsFromCommit _ = _ |- _ => rewrite H; orun; clear H end.
  rewrite Ek. destruct pk as [kt kb]; cbn [pk_type pk_bytes] in *. subst.
  match goal with H : (let '(_, _) := signedContent q ?s in _) = _ |- _ =>
    cbn [signedContent] in H; injection H as H; bools;
    rewrite (proj2 (qsd_verify_spec q _ s)); [done|] end.
  unfold signedContent. cbn [fst snd]. congruence.
Qed.

(** Skipping the verification of a commit on the strength of a proof is sound:
    whenever [VerifyCommitUnlessVerified] returns with a proof that
    [VerifyCommitSignatures] minted for any commit, or with none, a full
    verification of the commit at hand succeeds as well. *)
Theorem commit_skip_sound vals chainID blockID height commit op skipped :
  (∀ p, op = Some p → ∃ vals0 chainID0 blockID0 height0 commit0 b,
     VerifyCommitSignatures (Some vals0) chainID0 blockID0 height0 (Some commit0) b = Ok p) →
  VerifyCommitUnlessVerified vals chainID blockID height commit op = Ok skipped →
  verifyCommit vals chainID blockID height commit None = Ok tt.
Proof.
  intros Hp Hv. unfold VerifyCommitUnlessVerified in Hv. ok_inv; units; [|done].
  destruct op as [p|]; [|done].
  destruct (Hp p eq_refl) as (v0 & c0 & b0 & h0 & m0 & b & Hm).
  eapply proof_matches_true; [by eapply minted_proof|done].
Qed.

End dashd.

(** ** Witnesses *)

(** Type 4 is [LLMQType_100_67]; the other numbers are unlisted. *)
Definition toy_dashd : Dashd := {|
  LLMQType_name := λ t, if (t =? 4)%Z then Some LLMQType_100_67 else None;
  LLMQType_Validate := λ t, ((0 <=? t) && (t <=? 255))%Z;
  hostname_ok := λ _, true |}.

Definition demo_validator (c : byte) (power : Z) : Validator :=
  mkValidator (demo_hash c) (Some toy_key) power (mkAddr [] [] 0).

Definition demo_valset (cs : list byte) : ValidatorSet :=
  mkValidatorSet (map (λ c, demo_validator c 100) cs) 0 (Some toy_key) demo_quorumHash 100 true 0.

Lemma IncProposerIndex_spec_witness :
  IncProposerIndex (E:=unit) (demo_valset [x07; x08; x09]) (-4) =
    Some (Ok (set_proposerIndex (demo_valset [x07; x08; x09]) 2)).
Proof.
  refine (proj1 (IncProposerIndex_spec (demo_valset [x07; x08; x09]) (-4) _ _ _)).
  - vm_compute; split; [reflexivity|discriminate].
  - vm_compute; split; discriminate.
  - vm_compute; split; discriminate.
Defined.

Lemma strict_threshold_witness :
  ∃ t, (2 * 400 < 3 * t)%Z ∧ (t ≤ 400)%Z.
Proof.
  destruct (@strict_threshold toy_crypto toy_dashd (demo_valset [x07; x08; x09; x0a]))
    as (t & _ & H1 & H2 & _).
  - vm_compute; split; discriminate.
  - vm_compute; reflexivity.
  - vm_compute; split; reflexivity.
  - exists t. split; [exact H1|exact H2].
Defined.

(** A commit without extensions, signed. *)
Definition demo_commit : Commit :=
  let c := mkCommit 5 0 (demo_block x01) demo_quorumHash [] [] in
  match @MakeQuorumSigns toy_crypto [x61] 100 demo_quorumHash
          (Vote_ToProto (canonical_vote c [])) with
  | Ok q => mkCommit 5 0 (demo_block x01) demo_quorumHash (toy_sign (SI_SignHash (QSD_Block q))) []
  | _ => c
  end.

Lemma demo_commit_minted :
  ∃ p, @VerifyCommitSignatures toy_crypto (Some (demo_valset [x07; x08])) [x61]
         (demo_block x01) 5 (Some demo_commit) None = Ok p ∧
       @VerifyCommitUnlessVerified toy_crypto (demo_valset [x08; x09]) [x61] (demo_block x01) 5
         demo_commit (Some p) = Ok true.
Proof. eexists. split; vm_compute; reflexivity. Qed.

(** The proof is minted by one set and used one height on by another object
    holding the same quorum. *)
Lemma commit_skip_sound_witness :
  @verifyCommit toy_crypto (demo_valset [x08; x09]) [x61] (demo_block x01) 5 demo_commit None
    = Ok tt.
Proof.
  destruct demo_commit_minted as (p & H1 & H2).
  refine (@commit_skip_sound toy_crypto (demo_valset [x08; x09]) [x61] (demo_block x01) 5
    demo_commit (Some p) true _ H2).
  intros p' [= <-]. exists (demo_valset [x07; x08]), [x61], (demo_block x01), 5%Z, demo_commit, None.
  exact H1.
Defined.

End valset.
