(* ===== verification/ValidatorUpdate.v ===== *)
(** * types: what a validator set update does

    Theorems about [updateWithChangeSet] of [src/types/validator_set.go], modelled
    in [ValidatorSet]: on strictly sorted lists the merge and removal loops compute
    the expected set, and the checks made beforehand rule out every panic. *)
From Stdlib Require Import ZArith Lia Init.Byte.
From stdpp Require Import base numbers list sets sorting.
From S2P Require Import Prelude.
From S2P Require Import SafeMath.
From S2P Require Import Types.
From S2P Require Import Crypto.
From S2P Require Import QuorumSign.
From S2P Require Import ValidatorSet.

Import types crypto quorum valset.

Module valupdate.

(** Strictly ascending ProTxHashes. *)
Definition hash_lt (a b : Validator) : Prop :=
  bytes_compare (ProTxHash a) (ProTxHash b) = Lt.

Notation sorted := (StronglySorted hash_lt).

Definition hashes (l : list Validator) : list bytes := ProTxHash <$> l.

Lemma bytes_compare_refl a : bytes_compare a a = Eq.
Proof. by apply bytes_compare_eq. Qed.

#[local] Instance hash_lt_trans : Transitive hash_lt.
Proof. intros a b c. apply bytes_compare_lt_trans. Qed.

Lemma hash_lt_ne a b : hash_lt a b → ProTxHash a ≠ ProTxHash b.
Proof. unfold hash_lt. intros H E. rewrite E, bytes_compare_refl in H. done. Qed.

Lemma hash_le_cases a b : hash_le a b ↔ hash_lt a b ∨ ProTxHash a = ProTxHash b.
Proof.
  unfold hash_le, hash_lt. rewrite <- bytes_compare_eq.
  destruct (bytes_compare _ _); naive_solver.
Qed.

#[local] Instance hash_le_trans : Transitive hash_le.
Proof.
  intros a b c. rewrite !hash_le_cases. unfold hash_lt.
  intros [H1|H1] [H2|H2].
  - left. by eapply bytes_compare_lt_trans.
  - left. by rewrite <- H2.
  - left. by rewrite H1.
  - right. congruence.
Qed.

#[local] Instance hash_le_total : Total hash_le.
Proof.
  intros a b. unfold hash_le. rewrite (bytes_compare_antisym (ProTxHash a)).
  destruct (bytes_compare _ _); cbn; [left|left|right]; done.
Qed.

Lemma sort_sorted l : StronglySorted hash_le (sort_validators l).
Proof. apply StronglySorted_merge_sort; apply _. Qed.

Lemma sort_perm l : sort_validators l ≡ₚ l.
Proof. apply merge_sort_Permutation. Qed.

Lemma elem_of_sort v l : v ∈ sort_validators l ↔ v ∈ l.
Proof. by rewrite sort_perm. Qed.

(** Sorting without duplicate hashes is strict. *)
Lemma le_sorted_strict l :
  StronglySorted hash_le l → NoDup (hashes l) → sorted l.
Proof.
  induction 1 as [|a l Hs IH Hf]; intros Hn; [constructor|].
  apply NoDup_cons in Hn as [Hn1 Hn2]. constructor; [by apply IH|].
  rewrite Forall_forall in Hf |- *. intros b Hb.
  destruct (proj1 (hash_le_cases a b) (Hf b Hb)) as [|E]; [done|].
  destruct Hn1. rewrite E. by apply list_elem_of_fmap_2.
Qed.

Lemma sorted_NoDup l : sorted l → NoDup (hashes l).
Proof.
  induction 1 as [|a l Hs IH Hf]; [constructor|]. cbn. constructor; [|done].
  intros (b & E & Hb)%list_elem_of_fmap. rewrite Forall_forall in Hf.
  by apply (hash_lt_ne _ _ (Hf b Hb)).
Qed.

Lemma sort_strict l : NoDup (hashes l) → sorted (sort_validators l).
Proof.
  intros H. apply le_sorted_strict; [apply sort_sorted|].
  unfold hashes. by rewrite sort_perm.
Qed.

Lemma NoDup_hash_inj l a b :
  NoDup (hashes l) → a ∈ l → b ∈ l → ProTxHash a = ProTxHash b → a = b.
Proof.
  intros Hn (i & Hi)%list_elem_of_lookup (j & Hj)%list_elem_of_lookup E.
  assert (i = j) as ->; [|congruence].
  eapply NoDup_lookup; [exact Hn| |]; unfold hashes; rewrite list_lookup_fmap.
  - by rewrite Hi.
  - rewrite Hj. cbn. by f_equal.
Qed.

(** ** Splitting the changes *)

Lemma split_changes_spec prev l us ds :
  StronglySorted hash_le l → split_changes prev l = Ok (us, ds) →
  sorted l ∧ (∀ v, v ∈ l → (0 ≤ VotingPower v ≤ MaxTotalVotingPower)%Z) ∧
  us = filter (λ v, VotingPower v ≠ 0%Z) l ∧ ds = filter (λ v, VotingPower v = 0%Z) l ∧
  (∀ v, head l = Some v → ProTxHash v ≠ prev).
Proof.
  intros Hs. revert prev us ds.
  induction Hs as [|u l Hs IH Hf]; intros prev us ds E; cbn in E.
  { injection E as <- <-. split_and!; [constructor|set_solver|done..]. }
  ok_inv. match goal with x : _ * _ |- _ => destruct x as [us' ds'] end.
  match goal with H : split_changes _ l = _ |- _ => apply IH in H as (S & P & -> & -> & N) end.
  bools. split_and!.
  - constructor; [done|]. destruct l as [|w l]; [constructor|].
    specialize (N w eq_refl). apply Forall_cons in Hf as [Hw Hf].
    assert (hash_lt u w) as Huw by (apply hash_le_cases in Hw as [|]; [done|congruence]).
    constructor; [done|]. apply StronglySorted_inv in S as [_ S].
    eapply Forall_impl; [exact S|]. intros x Hx. by etrans.
  - intros v [->|Hv]%elem_of_cons; [lia|by apply P].
  - rewrite filter_cons. revert E. split_if; intros E; bools; ok_inv; case_decide; congruence.
  - rewrite filter_cons. revert E. split_if; intros E; bools; ok_inv; case_decide; congruence.
  - cbn. by intros v [= <-].
Qed.

Lemma sorted_filter (P : Validator → Prop) `{!∀ v, Decision (P v)} l :
  sorted l → sorted (filter P l).
Proof.
  induction 1 as [|a l Hs IH Hf]; [constructor|]. rewrite filter_cons. case_decide; [|done].
  constructor; [done|]. rewrite Forall_forall in Hf |- *. intros b [_ Hb]%list_elem_of_filter. auto.
Qed.

(** ** The merge loop *)

Lemma merge_updates_nil_l us : merge_updates [] us = us.
Proof. by destruct us. Qed.
Lemma merge_updates_nil_r es : merge_updates es [] = es.
Proof. by destruct es. Qed.

(** Induction over the two lists the loop walks. *)
Lemma merge_updates_ind (P : list Validator → list Validator → Prop) :
  (∀ us, P [] us) → (∀ es, P es []) →
  (∀ e es u us, hash_lt e u → P es (u :: us) → P (e :: es) (u :: us)) →
  (∀ e es u us, ProTxHash e = ProTxHash u → P es us → P (e :: es) (u :: us)) →
  (∀ e es u us, hash_lt u e → P (e :: es) us → P (e :: es) (u :: us)) →
  ∀ es us, P es us.
Proof.
  intros H1 H2 H3 H4 H5. induction es as [|e es IHe]; [done|].
  induction us as [|u us IHu]; [done|].
  destruct (bytes_compare (ProTxHash e) (ProTxHash u)) eqn:E.
  - apply H4; [by apply bytes_compare_eq|done].
  - apply H3; done.
  - apply H5; [|done]. unfold hash_lt. by rewrite (bytes_compare_antisym (ProTxHash e)), E.
Qed.

Lemma merge_updates_step e es u us :
  merge_updates (e :: es) (u :: us) =
  match bytes_compare (ProTxHash e) (ProTxHash u) with
  | Lt => e :: merge_updates es (u :: us)
  | Eq => u :: merge_updates es us
  | Gt => u :: merge_updates (e :: es) us
  end.
Proof. done. Qed.

Lemma elem_of_merge es us v :
  sorted es → sorted us →
  v ∈ merge_updates es us ↔ v ∈ us ∨ (v ∈ es ∧ ProTxHash v ∉ hashes us).
Proof.
  revert es us. refine (merge_updates_ind _ _ _ _ _ _).
  - intros us _ _. rewrite merge_updates_nil_l. set_solver.
  - intros es _ _. rewrite merge_updates_nil_r. set_solver.
  - intros e es u us Hlt IH He Hu. rewrite merge_updates_step.
    unfold hash_lt in Hlt. rewrite Hlt. apply StronglySorted_inv in He as [He Hf].
    rewrite !elem_of_cons, IH by done. rewrite elem_of_cons.
    assert (ProTxHash e ∉ hashes (u :: us)) as Hne.
    { intros (w & E & Hw)%list_elem_of_fmap.
      assert (hash_lt e w) as Hew.
      { apply elem_of_cons in Hw as [->|Hw]; [done|].
        apply StronglySorted_inv in Hu as [_ Hu]. rewrite Forall_forall in Hu.
        etrans; [exact Hlt|]. by apply Hu. }
      by apply (hash_lt_ne _ _ Hew). }
    naive_solver.
  - intros e es u us Heq IH He Hu. rewrite merge_updates_step.
    rewrite Heq, bytes_compare_refl. apply StronglySorted_inv in He as [He Hf].
    apply StronglySorted_inv in Hu as [Hu Hg].
    rewrite !elem_of_cons, IH by done. cbn [hashes fmap list_fmap].
    rewrite elem_of_cons. rewrite Forall_forall in Hf.
    split; [|naive_solver]. intros [->|[?|[Hv Hn]]]; [by left; left|by left; right|].
    right. split; [by right|]. intros [E|?]; [|done].
    apply (hash_lt_ne _ _ (Hf v Hv)). congruence.
  - intros e es u us Hlt IH He Hu. rewrite merge_updates_step.
    rewrite (bytes_compare_antisym (ProTxHash u)). rewrite Hlt. cbn [CompOpp].
    apply StronglySorted_inv in Hu as [Hu Hg].
    rewrite elem_of_cons, IH by done. cbn [hashes fmap list_fmap].
    rewrite !elem_of_cons. split; [|naive_solver].
    assert (∀ w, w ∈ e :: es → hash_lt u w) as Hw.
    { intros w [->|Hw]%elem_of_cons; [done|].
      apply StronglySorted_inv in He as [_ He]. rewrite Forall_forall in He.
      etrans; [exact Hlt|]. by apply He. }
    intros [->|[?|[Hv Hn]]]; [by left; left|by left; right|]. right. split; [done|].
    intros [E|?]; [|done]. apply (hash_lt_ne u v); [|done]. apply Hw. set_solver.
Qed.

Lemma merge_sorted es us : sorted es → sorted us → sorted (merge_updates es us).
Proof.
  revert es us. refine (merge_updates_ind _ _ _ _ _ _).
  - intros us _ ?. by rewrite merge_updates_nil_l.
  - intros es ? _. by rewrite merge_updates_nil_r.
  - intros e es u us Hlt IH He Hu. rewrite merge_updates_step.
    pose proof Hlt as Hlt'. unfold hash_lt in Hlt'. rewrite Hlt'.
    apply StronglySorted_inv in He as [He Hf]. constructor; [by apply IH|].
    apply Forall_forall. intros w. rewrite elem_of_merge by done.
    rewrite Forall_forall in Hf. intros [Hw|[Hw _]]; [|by apply Hf].
    apply elem_of_cons in Hw as [->|Hw]; [done|].
    apply StronglySorted_inv in Hu as [_ Hu]. rewrite Forall_forall in Hu.
    etrans; [exact Hlt|]. by apply Hu.
  - intros e es u us Heq IH He Hu. rewrite merge_updates_step.
    rewrite Heq, bytes_compare_refl. apply StronglySorted_inv in He as [He Hf].
    apply StronglySorted_inv in Hu as [Hu Hg]. constructor; [by apply IH|].
    apply Forall_forall. intros w. rewrite elem_of_merge by done.
    rewrite Forall_forall in Hf, Hg. intros [Hw|[Hw _]]; [by apply Hg|].
    unfold hash_lt. rewrite <- Heq. by apply Hf.
  - intros e es u us Hlt IH He Hu. rewrite merge_updates_step.
    rewrite (bytes_compare_antisym (ProTxHash u)). rewrite Hlt. cbn [CompOpp].
    apply StronglySorted_inv in Hu as [Hu Hg]. constructor; [by apply IH|].
    apply Forall_forall. intros w. rewrite elem_of_merge by done.
    rewrite Forall_forall in Hg. intros [Hw|[Hw _]]; [by apply Hg|].
    apply elem_of_cons in Hw as [->|Hw]; [done|].
    apply StronglySorted_inv in He as [_ He]. rewrite Forall_forall in He.
    etrans; [exact Hlt|]. by apply He.
Qed.

(** ** The removal loop *)

Lemma apply_removals_spec es ds :
  sorted es → sorted ds → hashes ds ⊆ hashes es →
  ∃ r, apply_removals es ds = Ok r ∧ sorted r ∧
    ∀ v, v ∈ r ↔ v ∈ es ∧ ProTxHash v ∉ hashes ds.
Proof.
  revert ds. induction es as [|e es IH]; intros ds He Hd Hsub.
  { destruct ds as [|d ds]; [|set_solver]. exists []. cbn. set_solver by constructor. }
  destruct ds as [|d ds]; [exists (e :: es); cbn; set_solver|].
  pose proof He as [He' Hf]%StronglySorted_inv. rewrite Forall_forall in Hf.
  pose proof Hd as [Hd' Hg]%StronglySorted_inv. rewrite Forall_forall in Hg.
  cbn [apply_removals]. case_bool_decide as Heq.
  - destruct (IH ds) as (r & -> & Hr & Hm); [done..| |].
    { intros h (d' & -> & Hin)%list_elem_of_fmap.
      assert (ProTxHash d' ∈ hashes (e :: es)) as [E|?]%elem_of_cons; [| |done].
      - apply Hsub. right. by apply list_elem_of_fmap_2.
      - destruct (hash_lt_ne _ _ (Hg d' Hin)). congruence. }
    exists r. split_and!; [done..|]. intros v. rewrite Hm. cbn [hashes fmap list_fmap].
    rewrite !elem_of_cons. split; [|naive_solver congruence].
    intros [Hv Hn]. split; [by right|]. intros [E|?]; [|done].
    destruct (hash_lt_ne _ _ (Hf v Hv)). congruence.
  - assert (∀ d', d' ∈ d :: ds → ProTxHash d' ≠ ProTxHash e ∧ ProTxHash d' ∈ hashes es) as Hin.
    { assert (ProTxHash d ∈ hashes es) as Hde.
      { assert (ProTxHash d ∈ hashes (e :: es)) as [E|?]%elem_of_cons; [|congruence|done].
        apply Hsub. left. }
      assert (∀ d', d' ∈ d :: ds → ProTxHash d' ≠ ProTxHash e) as Hne.
      { intros d' [->|Hd2]%elem_of_cons E; [done|].
        apply list_elem_of_fmap in Hde as (w & E2 & Hw).
        assert (hash_lt e d) as Hed by (unfold hash_lt; rewrite E2; by apply Hf).
        pose proof (Hg d' Hd2) as Hdd. unfold hash_lt in Hdd. rewrite E in Hdd.
        unfold hash_lt in Hed. rewrite bytes_compare_antisym, Hdd in Hed. done. }
      intros d' Hd2. split; [by apply Hne|].
      assert (ProTxHash d' ∈ hashes (e :: es)) as [E|?]%elem_of_cons; [| |done].
      - apply Hsub. by apply list_elem_of_fmap_2.
      - by destruct (Hne d' Hd2). }
    destruct (IH (d :: ds)) as (r & -> & Hr & Hm); [done..| |].
    { intros h (d' & -> & Hd2)%list_elem_of_fmap. by apply Hin. }
    exists (e :: r). orun. split; [done|]. split.
    + constructor; [done|]. apply Forall_forall. intros w [Hw _]%Hm. by apply Hf.
    + intros v. rewrite !elem_of_cons, Hm. split; [|naive_solver].
      intros [->|[? ?]]; [|by split; [right|]]. split; [by left|].
      intros (d' & E & Hd2)%list_elem_of_fmap. by destruct (Hin d' Hd2).
Qed.

(** ** Lookups *)

Lemma find_from_Some i l h j v :
  find_from i l h = Some (j, v) →
  v ∈ l ∧ ProTxHash v = h ∧ (i ≤ j < i + Z.of_nat (length l))%Z.
Proof.
  revert i. induction l as [|w l IH]; intros i; cbn [find_from length]; [done|].
  case_bool_decide as E.
  - intros [= <- <-]. split_and!; [left|done|lia..].
  - intros (? & ? & ?)%IH. split_and!; [by right|done|lia..].
Qed.

Lemma find_from_None i l h : find_from i l h = None ↔ h ∉ hashes l.
Proof.
  revert i. induction l as [|w l IH]; intros i; cbn [find_from]; [set_solver|].
  case_bool_decide as E; [set_solver|]. rewrite IH. set_solver.
Qed.

Section update.
Context `{Crypto} `{Dashd}.
Context (vals : ValidatorSet).
Hypothesis vals_unique : NoDup (hashes (Validators vals)).
Hypothesis vals_size : (Size vals ≤ MaxInt32)%Z.

Lemma GetByProTxHash_ok {E} h :
  ∃ i, GetByProTxHash (E:=E) vals h =
       Ok (i, snd <$> find_from 0 (Validators vals) h).
Proof.
  unfold GetByProTxHash. destruct (find_from _ _ _) as [[j v]|] eqn:Ef; [|cbn; eauto].
  apply find_from_Some in Ef as (_ & _ & Hj). unfold Size in vals_size.
  rewrite SafeConvertInt32_int64 by (unfold_ints; lia).
  rewrite bool_decide_eq_true_2 by (unfold_ints; lia). cbn. eauto.
Qed.

Lemma verifyRemovals_loop_spec ds acc :
  (hashes ds ⊆ hashes (Validators vals) ∧ ∃ p, verifyRemovals_loop ds vals acc = Ok p) ∨
  (¬ hashes ds ⊆ hashes (Validators vals) ∧
   verifyRemovals_loop ds vals acc = Err ErrRemoveUnknown).
Proof.
  revert acc. induction ds as [|d ds IH]; intros acc; cbn [verifyRemovals_loop].
  { left. split; [set_solver|eauto]. }
  destruct (GetByProTxHash_ok (E:=valset_error) (ProTxHash d)) as [i ->]. orun.
  destruct (find_from _ _ _) as [[j v]|] eqn:Ef; cbn [fmap option_fmap option_map snd].
  - apply find_from_Some in Ef as (Hv & Hh & _).
    assert (ProTxHash d ∈ hashes (Validators vals)) by (rewrite <- Hh; by apply list_elem_of_fmap_2).
    destruct (IH (int64 (acc + VotingPower v))) as [[Hs Hp]|[Hs ->]].
    + left. split; [set_solver|done].
    + right. split; [set_solver|done].
  - apply find_from_None in Ef. right. split; [set_solver|done].
Qed.

(** Distinct deletes that are all present are not more than the validators. *)
Lemma deletes_length ds :
  NoDup (hashes ds) → hashes ds ⊆ hashes (Validators vals) →
  length ds ≤ length (Validators vals).
Proof.
  intros Hn Hs. apply (NoDup_submseteq _ _ Hn), submseteq_length in Hs.
  unfold hashes in Hs. by rewrite !length_fmap in Hs.
Qed.

Lemma add_deltas_no_panic l acc : add_deltas l acc ≠ Panic.
Proof. revert acc. induction l as [|d l IH]; intros acc; cbn; [done|]. split_if; [done|apply IH]. Qed.

Lemma split_changes_no_panic prev l : split_changes prev l ≠ Panic.
Proof.
  revert prev. induction l as [|u l IH]; intros prev; cbn; [done|].
  repeat (split_if; [done|]). specialize (IH (ProTxHash u)).
  destruct (split_changes _ _) as [[us ds]| |]; orun; [|done|done]. by split_if.
Qed.

Lemma processChanges_spec changes us ds :
  processChanges changes = Ok (us, ds) →
  NoDup (hashes changes) ∧ sorted us ∧ sorted ds ∧
  (∀ v, v ∈ us ↔ v ∈ changes ∧ VotingPower v ≠ 0%Z) ∧
  (∀ v, v ∈ ds ↔ v ∈ changes ∧ VotingPower v = 0%Z).
Proof.
  unfold processChanges. intros Hp.
  apply split_changes_spec in Hp as (Hs & _ & -> & -> & _); [|apply sort_sorted].
  split_and!.
  - apply sorted_NoDup in Hs. unfold hashes in *. by rewrite sort_perm in Hs.
  - by apply sorted_filter.
  - by apply sorted_filter.
  - intros v. rewrite list_elem_of_filter, elem_of_sort. tauto.
  - intros v. rewrite list_elem_of_filter, elem_of_sort. tauto.
Qed.

(** The loops applied to the checked changes. *)
Lemma apply_changes changes us ds :
  processChanges changes = Ok (us, ds) → hashes ds ⊆ hashes (Validators vals) →
  ∃ r, apply_removals (merge_updates (sort_validators (Validators vals)) us) ds = Ok r ∧
    sorted r ∧
    ∀ v, v ∈ r ↔ (v ∈ changes ∧ VotingPower v ≠ 0%Z) ∨
                 (v ∈ Validators vals ∧ ProTxHash v ∉ hashes changes).
Proof.
  intros Hp Hsub. apply processChanges_spec in Hp as (Hn & Hus & Hds & Mus & Mds).
  pose proof (sort_strict _ vals_unique) as Hold.
  assert (∀ u d, u ∈ us → d ∈ ds → ProTxHash u ≠ ProTxHash d) as Hdis.
  { intros u d [Hu Pu]%Mus [Hd Pd]%Mds E. destruct Pu.
    by rewrite (NoDup_hash_inj changes u d Hn Hu Hd E). }
  destruct (apply_removals_spec (merge_updates (sort_validators (Validators vals)) us) ds)
    as (r & Hr & Hsr & Hm); [by apply merge_sorted|done| |].
  { intros h (d & -> & Hd)%list_elem_of_fmap.
    assert (ProTxHash d ∈ hashes (Validators vals)) as (v & E & Hv)%list_elem_of_fmap.
    { apply Hsub. by apply list_elem_of_fmap_2. }
    rewrite E. apply list_elem_of_fmap_2. apply elem_of_merge; [done..|]. right.
    rewrite elem_of_sort. split; [done|]. intros (u & E2 & Hu)%list_elem_of_fmap.
    apply (Hdis u d Hu Hd). congruence. }
  exists r. split_and!; [done..|]. intros v. rewrite Hm, elem_of_merge by done.
  rewrite elem_of_sort, Mus.
  assert (∀ w, ProTxHash w ∈ hashes changes ↔ ProTxHash w ∈ hashes us ∨ ProTxHash w ∈ hashes ds)
    as Hsplit.
  { intros w. unfold hashes. rewrite !list_elem_of_fmap. split.
    - intros (c & E & Hc). destruct (decide (VotingPower c = 0%Z)).
      + right. exists c. by rewrite Mds.
      + left. exists c. by rewrite Mus.
    - intros [(c & E & [? ?]%Mus)|(c & E & [? ?]%Mds)]; eauto. }
  rewrite Hsplit. split; [naive_solver|]. intros [[Hc Pc]|[Hv Hnv]]; [|naive_solver].
  split; [by left|]. intros (d & E & Hd)%list_elem_of_fmap.
  apply (Hdis v d); [by apply Mus|done|done].
Qed.

Lemma verifyRemovals_spec ds :
  NoDup (hashes ds) →
  (hashes ds ⊆ hashes (Validators vals) ∧ ∃ p, verifyRemovals ds vals = Ok p) ∨
  (¬ hashes ds ⊆ hashes (Validators vals) ∧ verifyRemovals ds vals = Err ErrRemoveUnknown).
Proof.
  intros Hn. unfold verifyRemovals.
  destruct (verifyRemovals_loop_spec ds 0) as [[Hs [p ->]]|[Hs ->]]; orun; [|by right].
  left. split; [done|]. pose proof (deletes_length ds Hn Hs).
  destruct (Nat.ltb_spec (length (Validators vals)) (length ds)); [lia|eauto].
Qed.

Lemma verifyUpdates_no_panic us p : verifyUpdates us vals p ≠ Panic.
Proof.
  unfold verifyUpdates. split_if; [done|].
  match goal with |- context [add_deltas ?l ?a] => pose proof (add_deltas_no_panic l a) end.
  by destruct (add_deltas _ _).
Qed.

Lemma verifyUpdates_powers us p t :
  verifyUpdates us vals p = Ok t →
  ∀ v, v ∈ us → VotingPower v = 0%Z ∨ VotingPower v = 100%Z.
Proof.
  unfold verifyUpdates. split_if; [done|]. intros _ v Hv%list_elem_of_In.
  apply not_true_iff_false in Heqb.
  destruct (Z.eq_dec (VotingPower v) 0%Z), (Z.eq_dec (VotingPower v) 100%Z); [tauto..|].
  destruct Heqb. apply existsb_exists. exists v. split; [done|].
  rewrite !(proj2 (Z.eqb_neq _ _)) by done. done.
Qed.

(** The resulting set is never empty. *)
Lemma update_nonempty changes us ds r :
  processChanges changes = Ok (us, ds) → hashes ds ⊆ hashes (Validators vals) →
  (numNewValidators us vals =? 0) && (length (Validators vals) =? length ds) = false →
  (∀ v, v ∈ r ↔ (v ∈ changes ∧ VotingPower v ≠ 0%Z) ∨
                (v ∈ Validators vals ∧ ProTxHash v ∉ hashes changes)) →
  r ≠ [].
Proof.
  intros Hp Hsub Hne Hm ->.
  apply processChanges_spec in Hp as (Hn & Hus & Hds & Mus & Mds).
  destruct us as [|u us].
  2:{ assert (u ∈ u :: us) as [Hu Pu]%Mus by left.
      apply (not_elem_of_nil u), Hm. by left. }
  cbn in Hne. apply Nat.eqb_neq in Hne. apply Hne.
  assert (hashes (Validators vals) ⊆ hashes ds) as Hsub2.
  { intros h (v & -> & Hv)%list_elem_of_fmap.
    destruct (decide (ProTxHash v ∈ hashes changes)) as [Hc|Hc].
    - apply list_elem_of_fmap in Hc as (c & E & Hc). rewrite E. apply list_elem_of_fmap_2, Mds.
      split; [done|]. destruct (Z.eq_dec (VotingPower c) 0%Z); [done|].
      destruct (not_elem_of_nil c). by apply Mus.
    - destruct (not_elem_of_nil v). apply Hm. by right. }
  apply (NoDup_submseteq _ _ vals_unique), submseteq_length in Hsub2.
  unfold hashes in Hsub2. rewrite !length_fmap in Hsub2.
  pose proof (deletes_length ds (sorted_NoDup _ Hds) Hsub). lia.
Qed.

(** C40: an update of a validator set never panics, and when it succeeds the new set
    is sorted, not empty, and holds exactly the changes with power and the old
    validators that were not changed; every changed validator has power 100, and
    an empty list of changes changes nothing. *)
Theorem update_correct changes allowDeletes tpk qh :
  updateWithChangeSet vals changes allowDeletes tpk qh ≠ Panic ∧
  ∀ vals', updateWithChangeSet vals changes allowDeletes tpk qh = Ok vals' →
    (changes = [] ∧ vals' = vals) ∨
    (changes ≠ [] ∧ sorted (Validators vals') ∧ Validators vals' ≠ [] ∧
     (∀ v, v ∈ Validators vals' ↔
        (v ∈ changes ∧ VotingPower v ≠ 0%Z) ∨
        (v ∈ Validators vals ∧ ProTxHash v ∉ hashes changes)) ∧
     (∀ v, v ∈ changes → VotingPower v = 100%Z ∨ (VotingPower v = 0%Z ∧ allowDeletes = true)) ∧
     NoDup (hashes changes) ∧
     ThresholdPublicKey vals' = tpk ∧ Some (QuorumHash vals') = qh ∧
     QuorumType vals' = QuorumType vals ∧ proposerIndex vals' = proposerIndex vals).
Proof.
  unfold updateWithChangeSet. destruct changes as [|c0 changes'] eqn:Hch.
  { cbn. split; [done|]. intros vals' [= <-]. by left. }
  rewrite <- Hch. replace (length changes =? 0) with false by (by subst).
  destruct tpk as [tpk|]; [|done]. destruct qh as [qh|]; [|done].
  destruct (processChanges changes) as [[us ds]| |] eqn:Hp; orun; [|done|].
  2:{ by apply split_changes_no_panic in Hp. }
  destruct (negb allowDeletes && _) eqn:Had; [done|].
  destruct ((numNewValidators us vals =? 0) && _) eqn:Hnn; [done|].
  pose proof (processChanges_spec _ _ _ Hp) as (Hn & Hus & Hds & Mus & Mds).
  destruct (verifyRemovals_spec ds (sorted_NoDup _ Hds)) as [[Hsub [p ->]]|[_ ->]]; orun; [|done].
  pose proof (verifyUpdates_no_panic us p) as Hnp.
  destruct (verifyUpdates us vals p) as [t| |] eqn:Hv; orun; [|done|done].
  destruct (apply_changes changes us ds Hp Hsub) as (r & -> & Hr & Hm). orun.
  split; [done|]. intros vals' [= <-]. right. cbn.
  assert (∀ v, v ∈ sort_validators r ↔ (v ∈ changes ∧ VotingPower v ≠ 0%Z) ∨
            (v ∈ Validators vals ∧ ProTxHash v ∉ hashes changes)) as Hm'.
  { intros v. by rewrite elem_of_sort. }
  split_and!; try done.
  - by subst.
  - apply sort_strict. by apply sorted_NoDup.
  - by eapply update_nonempty.
  - intros v Hvc. destruct (Z.eq_dec (VotingPower v) 0%Z) as [E|E].
    + right. split; [done|]. destruct allowDeletes; [done|]. cbn in Had.
      apply negb_false_iff, Nat.eqb_eq, nil_length_inv in Had.
      destruct (not_elem_of_nil v). rewrite <- Had. by apply Mds.
    + left. destruct (verifyUpdates_powers _ _ _ Hv v); [by apply Mus|done..].
Qed.

End update.

Lemma demo_valset_unique : NoDup (hashes (Validators (demo_valset [x07; x08; x09]))).
Proof. apply (bool_decide_eq_true_1 (NoDup _)). vm_compute. reflexivity. Qed.

Lemma update_correct_witness :
  let vals := demo_valset [x07; x08; x09] in
  let changes := [demo_validator x0a 100; demo_validator x08 0] in
  ∃ vals', updateWithChangeSet vals changes true (Some toy_key) (Some demo_quorumHash)
             = Ok vals' ∧ sorted (Validators vals').
Proof.
  eexists. split; [vm_compute; reflexivity|].
  destruct (update_correct (demo_valset [x07; x08; x09]) demo_valset_unique
    ltac:(vm_compute; discriminate)
    [demo_validator x0a 100; demo_validator x08 0] true (Some toy_key) (Some demo_quorumHash))
    as [_ Hc].
  edestruct Hc as [[? _]|(_ & Hs & _)]; [vm_compute; reflexivity|done|exact Hs].
Defined.

End valupdate.
