(* ===== verification/Recoverer.v ===== *)
(** * types: recovery of threshold signatures

    Models [src/types/signs_recoverer.go] and the threshold part of
    [src/types/vote_extension.go].  Go iterates over a map in any order: [range]
    is the order chosen, a permutation of the entries. *)
From Stdlib Require Import ZArith Lia Init.Byte.
From stdpp Require Import base numbers list sets gmap.
From S2P Require Import Prelude.
From S2P Require Import Types.
From S2P Require Import Crypto.
From S2P Require Import QuorumSign.

Import types crypto quorum.

(** The order in which Go visits the entries of a map. *)
Class MapOrder := {
  range : ∀ {A}, list A → list A;
  range_perm : ∀ {A} (l : list A), range l ≡ₚ l }.

Module recoverer.

Inductive recoverer_error :=
  | ErrProTxHashLength
  | ErrThresholdSignatureLength
  | ErrNoSignatures
  | ErrRecovering (e : recover_error)
  | ErrOnlyPrecommits
  | ErrExtensionLength
  | ErrSignatureCount.

Notation res := (outcome recoverer_error).

(** A [ThresholdVoteExtension] with the shares collected for it. *)
Record ThresholdExt := mkTE {
  te_ext : VoteExtensionIf;
  te_sigs : gmap bytes bytes }.

Record SignsRecoverer := mkSR {
  blockSigs : list bytes;
  validatorProTxHashes : list bytes;
  voteExtensions : list ThresholdExt }.

(** The options of [NewSignsRecoverer]. *)
Record recoverer_opts := mkOpts {
  opt_quorumReached : bool;
  opt_voters : option (gset bytes);
  opt_count : option nat }.

Section recoverer.
Context `{Crypto} `{MapOrder}.

Definition AddThresholdSignature (e : ThresholdExt) (validator sig : bytes) : res ThresholdExt :=
  if negb (length validator =? DefaultHashSize) then Err ErrProTxHashLength
  else if negb (length sig =? bls_SignatureSize) then Err ErrThresholdSignatureLength
  else Ok (mkTE (te_ext e) (<[validator := sig]> (te_sigs e))).

(** The collected signatures are 96-byte arrays, so their length check cannot
    fail. *)
Definition ThresholdRecover (e : ThresholdExt) : res bytes :=
  let entries := range (map_to_list (te_sigs e)) in
  let proTxHashes := map fst entries in
  let signatures := map snd entries in
  if 0 <? length signatures
  then wrap_err ErrRecovering (RecoverThresholdSignatureFromShares signatures proTxHashes)
  else Err ErrNoSignatures.

(** Appends the signatures of one vote to each extension. *)
Fixpoint add_sigs (exts : list ThresholdExt) (recs : list VoteExtensionIf) (proTxHash : bytes) :
    res (list ThresholdExt) :=
  match exts, recs with
  | e :: exts, r :: recs =>
      e ← AddThresholdSignature e proTxHash (VE_Signature (vei_pb r));
      rest ← add_sigs exts recs proTxHash;
      Ok (e :: rest)
  | _, _ => Ok exts
  end.

(** The votes whose extensions the options leave out. *)
Definition skip_vote (o : recoverer_opts) (vote : Vote) : bool :=
  match opt_voters o with
  | Some voters => bool_decide (Vote_ValidatorProTxHash vote ∉ voters)
  | None =>
      match opt_count o with
      | Some n => negb (length (Vote_VoteExtensions vote) =? n)
      | None => false
      end
  end.

Definition addVoteExtensionSigs (o : recoverer_opts) (v : SignsRecoverer) (vote : Vote) :
    res SignsRecoverer :=
  if skip_vote o vote then Ok v
  else if length (Vote_VoteExtensions vote) =? 0 then Ok v
  else if negb (Vote_Type vote =? PrecommitType)%Z || IsNil (Vote_BlockID vote)
  then Err ErrOnlyPrecommits
  else
    let recoverableExtensions := recoverable (Vote_VoteExtensions vote) in
    if length recoverableExtensions =? 0 then Ok v
    else
      let exts :=
        if length (voteExtensions v) =? 0
        then map (λ e, mkTE e ∅) recoverableExtensions else voteExtensions v in
      if negb (length recoverableExtensions =? length exts) then Err ErrExtensionLength
      else
        exts ← add_sigs exts recoverableExtensions (Vote_ValidatorProTxHash vote);
        Ok (mkSR (blockSigs v) (validatorProTxHashes v) exts).

Definition addVoteSigs (o : recoverer_opts) (v : SignsRecoverer) (vote : option Vote) :
    res SignsRecoverer :=
  match vote with
  | None => Ok v
  | Some vote =>
      addVoteExtensionSigs o
        (mkSR (blockSigs v ++ [Vote_BlockSignature vote])
              (validatorProTxHashes v ++ [Vote_ValidatorProTxHash vote])
              (voteExtensions v)) vote
  end.

Fixpoint add_votes (o : recoverer_opts) (v : SignsRecoverer) (votes : list (option Vote)) :
    res SignsRecoverer :=
  match votes with
  | [] => Ok v
  | vote :: votes => v ← addVoteSigs o v vote; add_votes o v votes
  end.

(** [NewSignsRecoverer] with [init]. *)
Definition NewSignsRecoverer (votes : list (option Vote)) (o : recoverer_opts) :
    res SignsRecoverer :=
  add_votes o (mkSR [] [] []) votes.

Definition recoverBlockSig (v : SignsRecoverer) : res bytes :=
  wrap_err ErrRecovering (RecoverThresholdSignatureFromShares (blockSigs v) (validatorProTxHashes v)).

Fixpoint recover_exts (exts : list ThresholdExt) : res (list bytes) :=
  match exts with
  | [] => Ok []
  | e :: exts => sig ← ThresholdRecover e; sigs ← recover_exts exts; Ok (sig :: sigs)
  end.

Definition recoverVoteExtensionSigs (o : recoverer_opts) (v : SignsRecoverer) : res (list bytes) :=
  if negb (opt_quorumReached o) then Ok [] else recover_exts (voteExtensions v).

Definition Recover (o : recoverer_opts) (v : SignsRecoverer) : res QuorumSigns :=
  blockSign ← recoverBlockSig v;
  sigs ← recoverVoteExtensionSigs o v;
  Ok (mkQS blockSign sigs).

(** Copies of the extensions with the recovered signatures. *)
Definition GetVoteExtensions (v : SignsRecoverer) (qs : QuorumSigns) :
    res (list VoteExtensionIf) :=
  if negb (length (QS_VoteExtensionSignatures qs) =? length (voteExtensions v)) then Panic
  else Ok (zip_with (λ e sig, mkVEI (vei_class (te_ext e))
                                (set_signature (vei_pb (te_ext e)) sig))
             (voteExtensions v) (QS_VoteExtensionSignatures qs)).

(** ** What is collected *)

Lemma add_sigs_ext exts recs h exts' :
  add_sigs exts recs h = Ok exts' → map te_ext exts' = map te_ext exts.
Proof.
  revert recs exts'. induction exts as [|e exts IH]; intros [|r recs] exts' Ha; cbn in Ha;
    ok_inv; try done.
  cbn. f_equal; [|by eapply IH].
  match goal with H : AddThresholdSignature _ _ _ = _ |- _ =>
    unfold AddThresholdSignature in H; ok_inv; done end.
Qed.

(** The extensions to recover come from one of the selected votes, and are
    missing only when no selected vote has any. *)
Definition collected (o : recoverer_opts) (votes : list (option Vote))
    (exts : list VoteExtensionIf) : Prop :=
  match exts with
  | [] => ∀ v, Some v ∈ votes → skip_vote o v = false → recoverable (Vote_VoteExtensions v) = []
  | _ => ∃ v, Some v ∈ votes ∧ skip_vote o v = false ∧ recoverable (Vote_VoteExtensions v) = exts
  end.

Lemma addVoteExtensionSigs_ext o s vote s' :
  addVoteExtensionSigs o s vote = Ok s' →
  blockSigs s' = blockSigs s ∧ validatorProTxHashes s' = validatorProTxHashes s ∧
  map te_ext (voteExtensions s') =
    match voteExtensions s with
    | [] => if skip_vote o vote then [] else recoverable (Vote_VoteExtensions vote)
    | _ => map te_ext (voteExtensions s)
    end.
Proof.
  unfold addVoteExtensionSigs. destruct (skip_vote o vote); intros Ha.
  { ok_inv. by destruct (voteExtensions s'). }
  destruct (Vote_VoteExtensions vote) as [|e l] eqn:El.
  { cbn in Ha. ok_inv. by destruct (voteExtensions s'). }
  rewrite <- El in *. destruct (length (Vote_VoteExtensions vote) =? 0) eqn:E0;
    [bools; by rewrite El in E0|].
  destruct (negb _ || _); [done|].
  destruct (recoverable (Vote_VoteExtensions vote)) as [|r rs] eqn:Er; cbn [length Nat.eqb] in Ha.
  { ok_inv. by destruct (voteExtensions s'). }
  ok_inv. cbn [blockSigs validatorProTxHashes voteExtensions]. split_and!; try done.
  match goal with H : add_sigs _ _ _ = _ |- _ => apply add_sigs_ext in H; rewrite H end.
  destruct (voteExtensions s); cbn [length Nat.eqb]; [|done].
  cbn. f_equal. rewrite map_map. apply map_id.
Qed.

Lemma add_votes_ext o s votes s' :
  add_votes o s votes = Ok s' →
  (voteExtensions s ≠ [] → map te_ext (voteExtensions s') = map te_ext (voteExtensions s)) ∧
  (voteExtensions s = [] → collected o votes (map te_ext (voteExtensions s'))).
Proof.
  revert s. induction votes as [|[v|] votes IH]; intros s Ha; cbn in Ha.
  - ok_inv. split; [done|]. intros ->. by intros v ?%elem_of_nil.
  - destruct (addVoteExtensionSigs _ _ _) as [a| |] eqn:E; [|done..].
    apply addVoteExtensionSigs_ext in E as (_ & _ & E). cbn [voteExtensions] in E.
    apply IH in Ha as [I1 I2]. split.
    + intros Hne. destruct (voteExtensions s) eqn:Es; [done|]. rewrite <- Es in *.
      rewrite I1, E; [by rewrite Es|]. intros E0. rewrite E0 in E. rewrite Es in E. done.
    + intros E0. rewrite E0 in E.
      destruct (voteExtensions a) as [|x l] eqn:Ea.
      * specialize (I2 eq_refl). unfold collected in *.
        destruct (map te_ext (voteExtensions s')).
        -- intros w [[= ->]|Hw]%elem_of_cons Hs; [|eauto]. rewrite Hs in E. by rewrite <- E.
        -- destruct I2 as (w & ? & ? & ?). exists w. split_and!; try done. by constructor 2.
      * rewrite I1 by done. unfold collected. cbn [map] in *.
        exists v. destruct (skip_vote o v) eqn:Esk; [done|]. split_and!; [by constructor|done..].
  - apply IH in Ha as [I1 I2]. split; [done|]. intros E0. specialize (I2 E0).
    unfold collected in *. destruct (map te_ext (voteExtensions s')).
    + intros w [[=]|Hw]%elem_of_cons Hs; eauto.
    + destruct I2 as (w & ? & ? & ?). exists w. split_and!; try done. by constructor 2.
Qed.

Lemma NewSignsRecoverer_ext o votes s :
  NewSignsRecoverer votes o = Ok s → collected o votes (map te_ext (voteExtensions s)).
Proof. intros Ha. by apply (add_votes_ext _ _ _ _ Ha). Qed.

Lemma recover_exts_length exts sigs : recover_exts exts = Ok sigs → length sigs = length exts.
Proof.
  revert sigs. induction exts as [|e exts IH]; intros sigs Hr; cbn in Hr; ok_inv; [done|].
  cbn. f_equal. by apply IH.
Qed.

Lemma Recover_length o s qs :
  Recover o s = Ok qs →
  length (QS_VoteExtensionSignatures qs) =
    if opt_quorumReached o then length (voteExtensions s) else 0.
Proof.
  unfold Recover, recoverVoteExtensionSigs. intros Hr.
  destruct (opt_quorumReached o); cbn [negb] in Hr; ok_inv; cbn; [|done].
  by apply recover_exts_length.
Qed.

(** ** No panics *)

Lemma RecoverThreshold_no_panic sigs ids :
  RecoverThresholdSignatureFromShares sigs ids ≠ Panic.
Proof.
  unfold RecoverThresholdSignatureFromShares, bls_ids. split_if; [done|].
  destruct sigs as [|s [|s' sigs]]; [|done|];
    destruct (mapM _ _); try done; split_if; orun; try done; by destruct (ThresholdSignatureRecover _ _).
Qed.

Lemma add_sigs_no_panic exts recs h : add_sigs exts recs h ≠ Panic.
Proof.
  revert recs. induction exts as [|e exts IH]; intros [|r recs]; cbn; try done.
  unfold AddThresholdSignature. repeat (split_if; orun; [done|]).
  specialize (IH recs). by destruct (add_sigs exts recs h).
Qed.

Lemma NewSignsRecoverer_no_panic votes o : NewSignsRecoverer votes o ≠ Panic.
Proof.
  unfold NewSignsRecoverer. generalize (mkSR [] [] []).
  induction votes as [|[v|] votes IH]; intros s; cbn [add_votes addVoteSigs]; orun; [done| |apply IH].
  destruct (addVoteExtensionSigs _ _ _) eqn:E; orun; try done; try apply IH.
  exfalso. revert E. unfold addVoteExtensionSigs. repeat (split_if; [done|]).
  match goal with |- context [add_sigs ?a ?b ?c] => pose proof (add_sigs_no_panic a b c) end.
  by destruct (add_sigs _ _ _).
Qed.

Lemma Recover_no_panic o s : Recover o s ≠ Panic.
Proof.
  unfold Recover, recoverBlockSig. pose proof (RecoverThreshold_no_panic (blockSigs s)
    (validatorProTxHashes s)).
  destruct (RecoverThresholdSignatureFromShares _ _); cbn [wrap_err]; orun; try done.
  assert (recoverVoteExtensionSigs o s ≠ Panic).
  { unfold recoverVoteExtensionSigs. split_if; [done|].
    induction (voteExtensions s) as [|e exts IH]; cbn; [done|]. unfold ThresholdRecover.
    split_if; orun; [|done].
    match goal with |- context [RecoverThresholdSignatureFromShares ?a ?b] =>
      pose proof (RecoverThreshold_no_panic a b) end.
    destruct (RecoverThresholdSignatureFromShares _ _); cbn [wrap_err]; orun; try done.
    by destruct (recover_exts exts). }
  by destruct (recoverVoteExtensionSigs o s).
Qed.

(** The copies differ from the collected extensions in their signatures only. *)
Lemma GetVoteExtensions_Ok s qs exts :
  GetVoteExtensions s qs = Ok exts →
  GetSignatures exts = QS_VoteExtensionSignatures qs ∧
  Forall2 (λ e e', vei_class e' = vei_class e ∧
             ∃ sig, vei_pb e' = set_signature (vei_pb e) sig)
    (map te_ext (voteExtensions s)) exts.
Proof.
  unfold GetVoteExtensions. intros Hg. ok_inv. bools.
  match goal with H : length _ = length _ |- _ => revert H end.
  generalize (QS_VoteExtensionSignatures qs). induction (voteExtensions s) as [|e l IH];
    intros [|sig sigs] Hl; try done.
  destruct (IH sigs) as [E1 E2]; [by injection Hl|]. split.
  - by rewrite <- E1 at 2.
  - constructor; [|done]. cbn. eauto.
Qed.

End recoverer.

End recoverer.
