(* ===== verification/VoteSet.v ===== *)
(** * types: vote sets

    Models [src/types/vote_set.go] and [NewCommit] of [src/types/block.go].  A
    vote set is a value threaded through its methods; the pointers to
    [blockVotes] and [voteExtensionGroup] kept in its maps are written back after
    every change.  An empty slice stands for [nil] as well.  The mutex (held by
    every method for its whole body) and the logger are not modelled. *)
From Stdlib Require Import ZArith Lia Init.Byte.
From stdpp Require Import base numbers list sets gmap.
From S2P Require Import Prelude.
From S2P Require Import SafeMath.
From S2P Require Import BitArray.
From S2P Require Import Wire.
From S2P Require Import PartSet.
From S2P Require Import Types.
From S2P Require Import Crypto.
From S2P Require Import QuorumSign.
From S2P Require Import ValidatorSet.
From S2P Require Import Recoverer.

Import types crypto quorum valset recoverer.

Module voteset.

Inductive voteset_error :=
  | ErrNilVote
  | ErrInvalidValidatorIndex
  | ErrInvalidValidatorProTxHash
  | ErrUnexpectedStep
  | ErrNonDeterministicSignature
  | ErrVerification (e : sign_error)
  | ErrInvalidVoteSignature (e : sign_error)
  | ErrExtensionIdentity
  | ErrPeerHeight
  | ErrPeerConflict
  | ErrOnlyOneVote
  | ErrNoThresholdGroup
  | ErrRecovererFailed (e : recoverer_error)
  | ErrCanonicalSignData (e : sign_error)
  | ErrThresholdVerify (e : sign_error).

Notation res := (outcome voteset_error).

Definition maxPeerMaj23s : nat := 4096.

Record voteExtensionGroup := mkGroup {
  group_power : Z;
  representative : Vote;
  voters : gset bytes }.

Record blockVotes := mkBlockVotes {
  peerMaj23 : bool;
  bv_bitArray : option bits.BitArray;
  bv_votes : list (option Vote);
  bv_sum : Z;
  voteExtensionGroups : gmap bytes voteExtensionGroup }.

Record maj23Info := mkMaj23Info { mi_BlockID : BlockID; mi_Height : Z; mi_Round : Z }.

Record VoteSet := mkVoteSet {
  chainID : bytes;
  height : Z;
  round : Z;
  signedMsgType : Z;
  valSet : ValidatorSet;
  votesBitArray : option bits.BitArray;
  votes : list (option Vote);
  sum : Z;
  maj23 : option BlockID;
  votesByBlock : gmap bytes blockVotes;
  peerMaj23s : gmap bytes maj23Info;
  thresholdBlockSig : bytes;
  thresholdVoteExtSigs : list VoteExtensionIf }.

Definition from_bits {E A} (m : outcome bits.bits_error A) : outcome E A :=
  match m with Ok a => Ok a | _ => Panic end.

(** Field updates. *)
Definition set_votes (vs : VoteSet) (ba : option bits.BitArray) (l : list (option Vote)) (s : Z) :
    VoteSet :=
  mkVoteSet (chainID vs) (height vs) (round vs) (signedMsgType vs) (valSet vs) ba l s (maj23 vs)
    (votesByBlock vs) (peerMaj23s vs) (thresholdBlockSig vs) (thresholdVoteExtSigs vs).

Definition set_votesByBlock (vs : VoteSet) (m : gmap bytes blockVotes) : VoteSet :=
  mkVoteSet (chainID vs) (height vs) (round vs) (signedMsgType vs) (valSet vs)
    (votesBitArray vs) (votes vs) (sum vs) (maj23 vs) m (peerMaj23s vs) (thresholdBlockSig vs)
    (thresholdVoteExtSigs vs).

Definition set_peerMaj23s (vs : VoteSet) (m : gmap bytes maj23Info) : VoteSet :=
  mkVoteSet (chainID vs) (height vs) (round vs) (signedMsgType vs) (valSet vs)
    (votesBitArray vs) (votes vs) (sum vs) (maj23 vs) (votesByBlock vs) m (thresholdBlockSig vs)
    (thresholdVoteExtSigs vs).

Definition set_maj23 (vs : VoteSet) (b : option BlockID) (sig : bytes)
    (exts : list VoteExtensionIf) : VoteSet :=
  mkVoteSet (chainID vs) (height vs) (round vs) (signedMsgType vs) (valSet vs)
    (votesBitArray vs) (votes vs) (sum vs) b (votesByBlock vs) (peerMaj23s vs) sig exts.

Section voteset.
Context `{Crypto} `{Dashd} `{MapOrder}.

Definition NewVoteSet (chainID : bytes) (height round signedMsgType : Z) (valSet : ValidatorSet) :
    res VoteSet :=
  if (height =? 0)%Z then Panic
  else if negb (HasPublicKeys valSet) then Panic
  else
    ba ← from_bits (bits.NewBitArray (Size valSet));
    Ok (mkVoteSet chainID height round signedMsgType valSet ba
          (replicate (length (Validators valSet)) None) 0 None ∅ ∅ [] []).

Definition newBlockVotes (peerMaj23 : bool) (numValidators : Z) : res blockVotes :=
  ba ← from_bits (bits.NewBitArray numValidators);
  Ok (mkBlockVotes peerMaj23 ba (replicate (Z.to_nat numValidators) None) 0 ∅).

(** [blockVotes.addVerifiedVote]. *)
Definition bv_addVerifiedVote (bv : blockVotes) (vote : Vote) (voteExtensionIdentity : bytes)
    (votingPower recoveryThreshold : Z) : res (blockVotes * bool) :=
  let valIndex := Vote_ValidatorIndex vote in
  existing ← index (bv_votes bv) valIndex;
  match existing with
  | Some _ => Ok (bv, false)
  | None =>
      '(ba, _) ← from_bits (bits.SetIndex (bv_bitArray bv) valIndex true);
      votes ← set_index (bv_votes bv) valIndex (Some vote);
      let group := default (mkGroup 0 vote ∅) (voteExtensionGroups bv !! voteExtensionIdentity) in
      let previousPower := group_power group in
      let power := int64 (previousPower + votingPower) in
      let group := mkGroup power (representative group)
                     ({[Vote_ValidatorProTxHash vote]} ∪ voters group) in
      Ok (mkBlockVotes (peerMaj23 bv) ba votes (int64 (bv_sum bv + votingPower))
            (<[voteExtensionIdentity := group]> (voteExtensionGroups bv)),
          (previousPower <? recoveryThreshold)%Z && (recoveryThreshold <=? power)%Z)
  end.

Definition getByIndex (bv : option blockVotes) (i : Z) : res (option Vote) :=
  match bv with None => Ok None | Some bv => index (bv_votes bv) i end.

Definition getVote (vs : VoteSet) (valIndex : Z) (blockKey : bytes) : res (option Vote) :=
  existing ← index (votes vs) valIndex;
  let other := getByIndex (votesByBlock vs !! blockKey) valIndex in
  match existing with
  | Some e => if bool_decide (Key (Vote_BlockID e) = blockKey) then Ok (Some e) else other
  | None => other
  end.

(** ** Threshold recovery *)

Definition IsQuorumReached (vs : VoteSet) : bool :=
  match maj23 vs with Some b => negb (length (BlockID_Hash b) =? 0) | None => false end.

(** One step of the loop of [canonicalVoteExtensionGroup]. *)
Definition better_group (threshold : Z) (best : option (bytes * voteExtensionGroup))
    (entry : bytes * voteExtensionGroup) : option (bytes * voteExtensionGroup) :=
  if (threshold <=? group_power entry.2)%Z &&
     match best with None => true | Some (identity, _) => bytes_ltb entry.1 identity end
  then Some entry else best.

Definition canonicalVoteExtensionGroup (vs : VoteSet) (bv : blockVotes) :
    option (Vote * gset bytes) :=
  let threshold := QuorumTypeThresholdVotingPower (valSet vs) in
  match fold_left (better_group threshold) (range (map_to_list (voteExtensionGroups bv))) None with
  | None => None
  | Some (_, g) => Some (representative g, voters g)
  end.

Definition be32 (v : Z) : bytes := rev (wire.le32 v).

Fixpoint identity_bytes (exts : list VoteExtensionIf) (items : list SignItem) : res bytes :=
  match items, exts with
  | [], _ => Ok []
  | item :: items, ext :: exts =>
      extensionType ← wrap_err (λ _, ErrExtensionIdentity)
        (SafeConvertUint32 (VE_Type (vei_pb ext)));
      rest ← identity_bytes exts items;
      Ok (be32 extensionType ++ SI_SignHash item ++ rest)
  | _ :: _, [] => Panic
  end.

Definition voteExtensionIdentity (vs : VoteSet) (vote : Vote) : res bytes :=
  let recoverableExtensions := recoverable (Vote_VoteExtensions vote) in
  items ← wrap_err (λ _, ErrExtensionIdentity)
    (SignItems recoverableExtensions (chainID vs) (QuorumType (valSet vs))
       (QuorumHash (valSet vs)) (Vote_Height vote) (Vote_Round vote));
  identity_bytes recoverableExtensions items.

Definition vs_makeQuorumSigns (vs : VoteSet) : QuorumSigns :=
  mkQS (thresholdBlockSig vs) (GetSignatures (thresholdVoteExtSigs vs)).

Definition recoverThresholdSigns (vs : VoteSet) (bv : blockVotes) : res (VoteSet * Vote) :=
  if length (bv_votes bv) <? 2 then Err ErrOnlyOneVote
  else match canonicalVoteExtensionGroup vs bv with
  | None => Err ErrNoThresholdGroup
  | Some (canonicalVote, canonicalVoters) =>
      let o := mkOpts (IsQuorumReached vs) (Some canonicalVoters) None in
      signsRecoverer ← wrap_err ErrRecovererFailed (NewSignsRecoverer (bv_votes bv) o);
      thresholdSigns ← wrap_err ErrRecovererFailed (Recover o signsRecoverer);
      exts ← wrap_err ErrRecovererFailed (GetVoteExtensions signsRecoverer thresholdSigns);
      Ok (set_maj23 vs (maj23 vs) (QS_BlockSign thresholdSigns) exts, canonicalVote)
  end.

Definition recoverThresholdSignsAndVerify (vs : VoteSet) (bv : blockVotes) : res VoteSet :=
  match bv_votes bv with
  | [] => Ok vs
  | [vote] =>
      vote ← deref vote;
      Ok (set_maj23 vs (maj23 vs) (Vote_BlockSignature vote)
            (recoverable (Vote_VoteExtensions vote)))
  | _ =>
      '(vs, canonicalVote) ← recoverThresholdSigns vs bv;
      canonicalSignData ← wrap_err ErrCanonicalSignData
        (MakeQuorumSigns (chainID vs) (QuorumType (valSet vs)) (QuorumHash (valSet vs))
           (Vote_ToProto canonicalVote));
      _ ← wrap_err ErrThresholdVerify
        (qsd_verify canonicalSignData (ThresholdPublicKey (valSet vs)) (vs_makeQuorumSigns vs)
           None);
      Ok vs
  end.

(** ** Adding votes *)

(** [for i, v := range votesByBlock.votes { if v != nil { votes[i] = v } }]. *)
Fixpoint copy_votes (from to : list (option Vote)) : list (option Vote) :=
  match from, to with
  | f :: from, t :: to => (match f with Some _ => f | None => t end) :: copy_votes from to
  | _, _ => to
  end.

(** The end of [addVerifiedVote], once the vote is counted for its block. *)
Definition finalize (vs : VoteSet) (bv : blockVotes) (vote : Vote) : res VoteSet :=
  let tentative := set_maj23 vs (Some (Vote_BlockID vote)) (thresholdBlockSig vs)
                     (thresholdVoteExtSigs vs) in
  let publish := λ vs, set_votes vs (votesBitArray vs) (copy_votes (bv_votes bv) (votes vs)) (sum vs) in
  if (signedMsgType vs =? PrecommitType)%Z then
    match recoverThresholdSignsAndVerify tentative bv with
    | Panic => Panic
    | Err _ => Ok (set_maj23 vs None [] [])
    | Ok vs => Ok (publish vs)
    end
  else Ok (publish tentative).

(** [votes[valIndex] = vote] with its bit. *)
Definition put_vote (vs : VoteSet) (vote : Vote) (sum : Z) : res VoteSet :=
  let valIndex := Vote_ValidatorIndex vote in
  l ← set_index (votes vs) valIndex (Some vote);
  '(ba, _) ← from_bits (bits.SetIndex (votesBitArray vs) valIndex true);
  Ok (set_votes vs ba l sum).

(** The first part of [addVerifiedVote]: the canonical list of votes. *)
Definition record_vote (vs : VoteSet) (vote : Vote) (blockKey : bytes) (votingPower : Z) :
    res (VoteSet * option Vote) :=
  existing ← index (votes vs) (Vote_ValidatorIndex vote);
  match existing with
  | Some e =>
      if BlockID_Equals (Vote_BlockID e) (Vote_BlockID vote) then Panic
      else if match maj23 vs with Some b => bool_decide (Key b = blockKey) | None => false end
      then vs ← put_vote vs vote (sum vs); Ok (vs, Some e)
      else Ok (vs, Some e)
  | None => vs ← put_vote vs vote (int64 (sum vs + votingPower)); Ok (vs, None)
  end.

(** The last part: the votes for the block, and the majority. *)
Definition count_vote (vs : VoteSet) (bv : blockVotes) (vote : Vote)
    (blockKey voteExtensionIdentity : bytes) (votingPower : Z) : res VoteSet :=
  quorum ← QuorumVotingThresholdPower (valSet vs);
  let previousPower := bv_sum bv in
  '(bv, groupReachedRecoveryThreshold) ←
    bv_addVerifiedVote bv vote voteExtensionIdentity votingPower
      (QuorumTypeThresholdVotingPower (valSet vs));
  let vs := set_votesByBlock vs (<[blockKey := bv]> (votesByBlock vs)) in
  let blockReachedQuorum := (previousPower <? quorum)%Z && (quorum <=? bv_sum bv)%Z in
  if bool_decide (maj23 vs = None) && (quorum <=? bv_sum bv)%Z &&
     (blockReachedQuorum || groupReachedRecoveryThreshold)
  then finalize vs bv vote else Ok vs.

(** [VoteSet.addVerifiedVote]: the new set, [added] and [conflicting]. *)
Definition addVerifiedVote (vs : VoteSet) (vote : Vote) (blockKey voteExtensionIdentity : bytes)
    (votingPower : Z) : res (VoteSet * bool * option Vote) :=
  '(vs, conflicting) ← record_vote vs vote blockKey votingPower;
  match votesByBlock vs !! blockKey with
  | Some bv =>
      if match conflicting with Some _ => negb (peerMaj23 bv) | None => false end
      then Ok (vs, false, conflicting)
      else
        vs ← count_vote vs bv vote blockKey voteExtensionIdentity votingPower;
        Ok (vs, true, conflicting)
  | None =>
      match conflicting with
      | Some _ => Ok (vs, false, conflicting)
      | None =>
          bv ← newBlockVotes false (Size (valSet vs));
          vs ← count_vote (set_votesByBlock vs (<[blockKey := bv]> (votesByBlock vs))) bv vote
                 blockKey voteExtensionIdentity votingPower;
          Ok (vs, true, conflicting)
      end
  end.

(** The signature check of [addVote]. *)
Definition check_vote (vs : VoteSet) (r : vote_ref) (val : Validator) (b : option budget)
    (verified : option VoteVerification) : res unit :=
  let qt := QuorumType (valSet vs) in
  let qh := QuorumHash (valSet vs) in
  match verified with
  | Some v =>
      wrap_err ErrVerification
        (checkMatches v r (chainID vs) qt qh (Val_PubKey val) (ProTxHash val))
  | None =>
      wrap_err (λ e, match e with
                     | ErrVerificationBudgetExhausted => ErrVerification e
                     | _ => ErrInvalidVoteSignature e
                     end)
        (vote_verify (ref_vote r) (chainID vs) qt qh (Val_PubKey val) (ProTxHash val) b)
  end.

(** [VoteSet.addVote].  An error value leaves the set as it was; [Ok (vs, added,
    Some c)] is the return of [added] with the error that the vote conflicts with
    [c]. *)
Definition addVote (vs : VoteSet) (vote : option vote_ref) (b : option budget)
    (verified : option VoteVerification) : res (VoteSet * bool * option Vote) :=
  match vote with
  | None => Err ErrNilVote
  | Some r =>
      let vote := ref_vote r in
      let valIndex := Vote_ValidatorIndex vote in
      let valProTxHash := Vote_ValidatorProTxHash vote in
      let blockKey := Key (Vote_BlockID vote) in
      if (valIndex <? 0)%Z then Err ErrInvalidValidatorIndex
      else if length valProTxHash =? 0 then Err ErrInvalidValidatorProTxHash
      else if negb (Vote_Height vote =? height vs)%Z || negb (Vote_Round vote =? round vs)%Z ||
              negb (Vote_Type vote =? signedMsgType vs)%Z then Err ErrUnexpectedStep
      else
        match GetByIndex (valSet vs) valIndex with
        | None => Err ErrInvalidValidatorIndex
        | Some val =>
            if negb (bool_decide (valProTxHash = ProTxHash val))
            then Err ErrInvalidValidatorProTxHash
            else
              existing ← getVote vs valIndex blockKey;
              match existing with
              | Some e =>
                  if bool_decide (Vote_BlockSignature e = Vote_BlockSignature vote)
                  then Ok (vs, false, None) else Err ErrNonDeterministicSignature
              | None =>
                  _ ← check_vote vs r val b verified;
                  identity ← (if (signedMsgType vs =? PrecommitType)%Z
                              then voteExtensionIdentity vs vote else Ok []);
                  '(vs, added, conflicting) ←
                    addVerifiedVote vs vote blockKey identity (VotingPower val);
                  match conflicting with
                  | Some _ => Ok (vs, added, conflicting)
                  | None => if (added : bool) then Ok (vs, true, None) else Panic
                  end
              end
        end
  end.

(** ** Claims of peers *)

Definition SetPeerMaj23 (vs : VoteSet) (peerID : bytes) (blockID : BlockID) (h r : Z) :
    res VoteSet :=
  if negb (height vs =? h)%Z then Err ErrPeerHeight
  else
    let blockKey := Key blockID in
    match peerMaj23s vs !! peerID with
    | Some existing =>
        if BlockID_Equals (mi_BlockID existing) blockID then Ok vs else Err ErrPeerConflict
    | None =>
        if maxPeerMaj23s <=? size (peerMaj23s vs) then Ok vs
        else
          let vs := set_peerMaj23s vs (<[peerID := mkMaj23Info blockID h r]> (peerMaj23s vs)) in
          match votesByBlock vs !! blockKey with
          | Some bv =>
              if peerMaj23 bv then Ok vs
              else Ok (set_votesByBlock vs
                     (<[blockKey := mkBlockVotes true (bv_bitArray bv) (bv_votes bv) (bv_sum bv)
                                      (voteExtensionGroups bv)]> (votesByBlock vs)))
          | None =>
              bv ← newBlockVotes true (Size (valSet vs));
              Ok (set_votesByBlock vs (<[blockKey := bv]> (votesByBlock vs)))
          end
    end.

(** ** Queries and the commit *)

Definition BitArrayByBlockID (vs : VoteSet) (blockID : BlockID) : option bits.BitArray :=
  bv ← votesByBlock vs !! Key blockID; bv_bitArray bv.

Definition vs_GetByIndex (vs : VoteSet) (valIndex : Z) : res (option Vote) :=
  if (Z.of_nat (length (votes vs)) <=? valIndex)%Z then Ok None else index (votes vs) valIndex.

Definition List (vs : VoteSet) : list Vote := omap id (votes vs).

Definition vs_GetByProTxHash (vs : VoteSet) (proTxHash : bytes) : res (option Vote) :=
  '(valIndex, val) ← GetByProTxHash (valSet vs) proTxHash;
  match val with None => Panic | Some _ => index (votes vs) valIndex end.

Definition HasTwoThirdsMajority (vs : VoteSet) : bool := bool_decide (is_Some (maj23 vs)).

Definition IsCommit (vs : VoteSet) : bool :=
  (signedMsgType vs =? PrecommitType)%Z && bool_decide (is_Some (maj23 vs)).

Definition HasTwoThirdsAny (vs : VoteSet) : res bool :=
  quorum ← QuorumVotingThresholdPower (valSet vs); Ok (quorum <=? sum vs)%Z.

Definition HasAll (vs : VoteSet) : bool := (sum vs =? TotalVotingPower (valSet vs))%Z.

Definition TwoThirdsMajority (vs : VoteSet) : BlockID * bool :=
  match maj23 vs with Some b => (b, true) | None => (nilBlockID, false) end.

(** [NewCommit] with the signatures given. *)
Definition NewCommit {E} (height round : Z) (blockID : BlockID)
    (voteExtensions : list VoteExtensionIf) (signs : QuorumSigns) (quorumHash : bytes) :
    outcome E Commit :=
  CopyToCommit signs quorumHash
    (mkCommit height round blockID [] [] (VoteExtensions_ToProto (recoverable voteExtensions))).

Definition MakeCommit (vs : VoteSet) : res Commit :=
  if negb (signedMsgType vs =? PrecommitType)%Z then Panic
  else
    match maj23 vs with
    | None => Panic
    | Some b =>
        if length (thresholdBlockSig vs) =? 0 then Panic
        else NewCommit (height vs) (round vs) b (thresholdVoteExtSigs vs) (vs_makeQuorumSigns vs)
               (QuorumHash (valSet vs))
    end.

End voteset.

End voteset.
