(* ===== verification/VoteSetInv.v ===== *)
(** * types: the invariant of vote sets

    Theorems about the vote sets modelled in [VoteSet]: every vote stored was
    verified for its validator and block, the sums, bit arrays and extension
    groups agree with the votes, and no operation panics. *)
From Stdlib Require Import ZArith Lia Init.Byte.
From stdpp Require Import base numbers list sets gmap.
From S2P Require Import Prelude.
From S2P Require Import SafeMath.
From S2P Require Import BitArray.
From S2P Require Import PartSet.
From S2P Require Import Types.
From S2P Require Import Crypto.
From S2P Require Import QuorumSign.
From S2P Require Import ValidatorSet.
From S2P Require Import ValidatorUpdate.
From S2P Require Import Recoverer.
From S2P Require Import VoteSet.

Import types crypto quorum valset recoverer voteset.

Module vsinv.

(** ** Counting filled slots *)

Definition count {A} (l : list (option A)) : nat := length (filter is_Some l).

Lemma count_insert {A} (l : list (option A)) i x :
  l !! i = Some None → count (<[i:=Some x]> l) = S (count l).
Proof. apply partset.filter_insert_Some. Qed.

Lemma count_replace {A} (l : list (option A)) i x y :
  l !! i = Some (Some y) → count (<[i:=Some x]> l) = count l.
Proof.
  unfold count. revert i. induction l as [|o l IH]; intros [|i] Hi; [done..| |].
  - injection Hi as ->. by rewrite !filter_cons.
  - cbn in Hi. cbn [insert list_insert]. rewrite !filter_cons.
    destruct (decide (is_Some o)); cbn [length]; by rewrite IH.
Qed.

Lemma count_le {A} (l : list (option A)) : count l ≤ length l.
Proof. apply length_filter. Qed.

Lemma count_replicate {A} n : count (A:=A) (replicate n None) = 0.
Proof. induction n as [|n IH]; [done|]. cbn. exact IH. Qed.

Lemma count_pos {A} (l : list (option A)) : 0 < count l → ∃ i x, l !! i = Some (Some x).
Proof.
  induction l as [|[x|] l IH]; cbn; [lia|by exists 0, x|].
  intros (i & x & Hx)%IH. by exists (S i), x.
Qed.

(** Copying over slots that are all filled already changes no count. *)
Lemma copy_votes_lookup from to i :
  length from = length to →
  copy_votes from to !! i =
    match from !! i with Some (Some v) => Some (Some v) | _ => to !! i end.
Proof.
  revert to i. induction from as [|f from IH]; intros [|t to] [|i] Hl; try done; cbn in *.
  - by destruct f.
  - apply IH. lia.
Qed.

Lemma length_copy_votes from to : length (copy_votes from to) = length to.
Proof. revert to. induction from as [|f from IH]; intros [|t to]; cbn; auto. Qed.

Lemma count_copy_votes from to :
  length from = length to →
  (∀ j v, from !! j = Some (Some v) → ∃ w, to !! j = Some (Some w)) →
  count (copy_votes from to) = count to.
Proof.
  unfold count. revert to. induction from as [|f from IH]; intros [|t to] Hl Hf; try done.
  cbn [copy_votes]. rewrite !filter_cons.
  assert (length (filter is_Some (copy_votes from to)) = length (filter is_Some to)) as E.
  { apply IH; [by injection Hl|]. intros j v Hj. apply (Hf (S j) v Hj). }
  destruct f as [v|].
  - destruct (Hf 0 v eq_refl) as [w [= ->]]. rewrite !decide_True by eauto.
    cbn [length]. by rewrite E.
  - destruct (decide (is_Some t)); cbn [length]; by rewrite E.
Qed.

(** A bit array matches every list filled at the same slots. *)
Lemma bits_match_same {A} ba (l l' : list (option A)) :
  partset.bits_match ba l → length l' = length l →
  (∀ i, (∃ x, l' !! i = Some (Some x)) ↔ (∃ x, l !! i = Some (Some x))) →
  partset.bits_match ba l'.
Proof.
  intros Hm Hl Hs. destruct ba as [b|]; cbn in *; [|subst; by apply nil_length_inv].
  destruct Hm as (Hw & Hc & HB & Hp & Hg). rewrite Hl. split_and!; try done.
  intros i o Ho. destruct (lookup_lt_is_Some_2 l i) as [o' Ho'].
  { apply lookup_lt_Some in Ho. lia. }
  rewrite (Hg i o' Ho'). specialize (Hs i). rewrite Ho, Ho' in Hs.
  apply bool_decide_ext. destruct o, o'; split; intros [x Hx]; try done; eauto;
    exfalso; destruct Hs as [Hs1 Hs2]; naive_solver.
Qed.

(** ** The invariant *)

Definition n_vals (vals : ValidatorSet) : nat := length (Validators vals).

(** The number of votes needed, as a value. *)
Definition quorum_power `{Dashd} (vals : ValidatorSet) : Z :=
  if (VotingPowerThreshold vals >? 0)%Z then VotingPowerThreshold vals
  else QuorumTypeThresholdVotingPower vals.

(** What [ValidateBasic] and the update rules establish of a validator set. *)
Record valset_ok `{Dashd} (vals : ValidatorSet) : Prop := {
  ok_power : ∀ v, v ∈ Validators vals → VotingPower v = 100%Z;
  ok_size : (0 < Size vals ≤ MaxInt32)%Z;
  ok_hashes : NoDup (ProTxHash <$> Validators vals);
  ok_hash_len : ∀ v, v ∈ Validators vals → length (ProTxHash v) = 32;
  ok_quorum : quorum_ok (QuorumType vals) (QuorumHash vals);
  ok_threshold : (0 ≤ VotingPowerThreshold vals ≤ MaxInt64)%Z;
  ok_quorum_pos : (0 < quorum_power vals)%Z;
  ok_key : is_Some (ThresholdPublicKey vals) }.

(** Votes as they arrive from the decoder, after [ValidateBasic]. *)
Definition wf_vote (v : Vote) : Prop :=
  Vote_ValidateBasic v = Ok tt ∧ forallb class_ok (Vote_VoteExtensions v) = true.

Section inv.
Context `{Crypto} `{Dashd} `{MapOrder}.

(** The vote is verified for validator [i] of the set. *)
Definition good_vote (vs : VoteSet) (i : nat) (v : Vote) : Prop :=
  wf_vote v ∧
  Vote_ValidatorIndex v = Z.of_nat i ∧ Vote_Height v = height vs ∧ Vote_Round v = round vs ∧
  Vote_Type v = signedMsgType vs ∧
  ∃ val, Validators (valSet vs) !! i = Some val ∧
    Vote_ValidatorProTxHash v = ProTxHash val ∧
    vote_verify v (chainID vs) (QuorumType (valSet vs)) (QuorumHash (valSet vs))
      (Val_PubKey val) (ProTxHash val) None = Ok tt.

(** The identity under which [addVote] groups the vote. *)
Definition vote_id (vs : VoteSet) (v : Vote) : res bytes :=
  if (signedMsgType vs =? PrecommitType)%Z then voteExtensionIdentity vs v else Ok [].

Record bv_inv (vs : VoteSet) (key : bytes) (bv : blockVotes) : Prop := {
  bi_len : length (bv_votes bv) = n_vals (valSet vs);
  bi_bits : partset.bits_match (bv_bitArray bv) (bv_votes bv);
  bi_sum : bv_sum bv = (100 * Z.of_nat (count (bv_votes bv)))%Z;
  bi_votes : ∀ i v, bv_votes bv !! i = Some (Some v) →
    good_vote vs i v ∧ Key (Vote_BlockID v) = key ∧ ∃ id g, vote_id vs v = Ok id ∧
      voteExtensionGroups bv !! id = Some g ∧ Vote_ValidatorProTxHash v ∈ voters g;
  bi_groups : ∀ id g, voteExtensionGroups bv !! id = Some g →
    group_power g = (100 * Z.of_nat (size (voters g)))%Z ∧
    (∀ h, h ∈ voters g → ∃ i v, bv_votes bv !! i = Some (Some v) ∧ vote_id vs v = Ok id ∧
       Vote_ValidatorProTxHash v = h) ∧
    ∃ i, bv_votes bv !! i = Some (Some (representative g)) ∧
      vote_id vs (representative g) = Ok id }.

(** The recovered signatures verify for the canonical precommit of the block. *)
Definition sealed (vs : VoteSet) (b : BlockID) : Prop :=
  let exts := thresholdVoteExtSigs vs in
  forallb class_ok exts = true ∧ recoverable exts = exts ∧ length exts ≤ MaxVoteExtensions ∧
  ∃ q tpk, ThresholdPublicKey (valSet vs) = Some tpk ∧
    MakeQuorumSigns (chainID vs) (QuorumType (valSet vs)) (QuorumHash (valSet vs))
      (Vote_ToProto (mkVote PrecommitType (height vs) (round vs) b [] 0 [] exts)) = Ok q ∧
    all_valid tpk (SI_SignHash (QSD_Block q) :: map SI_SignHash (QSD_VoteExtensionSignItems q))
      (thresholdBlockSig vs :: GetSignatures exts).

Record vs_inv (vs : VoteSet) : Prop := {
  vi_valset : valset_ok (valSet vs);
  vi_single : n_vals (valSet vs) = 1 → ∀ val, val ∈ Validators (valSet vs) →
    Val_PubKey val = ThresholdPublicKey (valSet vs);
  vi_len : length (votes vs) = n_vals (valSet vs);
  vi_bits : partset.bits_match (votesBitArray vs) (votes vs);
  vi_sum : sum vs = (100 * Z.of_nat (count (votes vs)))%Z;
  vi_votes : ∀ i v, votes vs !! i = Some (Some v) → good_vote vs i v;
  vi_bvs : ∀ key bv, votesByBlock vs !! key = Some bv → bv_inv vs key bv;
  vi_seen : ∀ key bv i v, votesByBlock vs !! key = Some bv → bv_votes bv !! i = Some (Some v) →
    ∃ w, votes vs !! i = Some (Some w);
  vi_none : maj23 vs = None → thresholdBlockSig vs = [] ∧ thresholdVoteExtSigs vs = [];
  vi_maj : ∀ b, maj23 vs = Some b → ∃ bv i v, votesByBlock vs !! Key b = Some bv ∧
    (quorum_power (valSet vs) ≤ bv_sum bv)%Z ∧ bv_votes bv !! i = Some (Some v) ∧
    Vote_BlockID v = b ∧ (signedMsgType vs = PrecommitType → sealed vs b) }.

Lemma quorum_power_eq {E} vals :
  (0 ≤ VotingPowerThreshold vals ≤ MaxInt64)%Z →
  QuorumVotingThresholdPower (E:=E) vals = Ok (quorum_power vals).
Proof.
  intros Ht. unfold QuorumVotingThresholdPower, quorum_power.
  split_if; bools; [|done]. split_if; bools; [lia|]. rewrite int64_id by (unfold_ints; lia). done.
Qed.

Lemma quorum_power_Ok {E} vals :
  valset_ok vals → QuorumVotingThresholdPower (E:=E) vals = Ok (quorum_power vals).
Proof. intros Hv. apply quorum_power_eq, (ok_threshold _ Hv). Qed.

(** ** New sets *)

Lemma newBlockVotes_inv vs key p :
  valset_ok (valSet vs) →
  ∃ bv, newBlockVotes p (Size (valSet vs)) = Ok bv ∧ bv_inv vs key bv ∧ peerMaj23 bv = p ∧
    bv_sum bv = 0%Z ∧ (∀ i v, bv_votes bv !! i ≠ Some (Some v)) ∧ voteExtensionGroups bv = ∅.
Proof.
  intros Hv. pose proof (ok_size _ Hv) as Hs. unfold newBlockVotes, Size in *.
  destruct (partset.NewBitArray_match (A:=Vote) (length (Validators (valSet vs)))) as (ba & -> & Hm).
  { unfold_ints. lia. }
  cbn [from_bits]. orun. rewrite Nat2Z.id. eexists. split; [done|].
  cbn [peerMaj23 bv_sum bv_votes voteExtensionGroups].
  assert (∀ i v, replicate (length (Validators (valSet vs))) (@None Vote) !! i ≠ Some (Some v)) as Hn.
  { intros i v [? _]%lookup_replicate. done. }
  split_and!; try done.
  constructor; cbn [peerMaj23 bv_sum bv_votes voteExtensionGroups bv_bitArray].
  - by rewrite length_replicate.
  - done.
  - by rewrite count_replicate.
  - intros i v Hi. by destruct (Hn i v).
  - intros id g. by rewrite lookup_empty.
Qed.

Lemma NewVoteSet_inv cid h r t vals :
  valset_ok vals → (n_vals vals = 1 → ∀ val, val ∈ Validators vals →
    Val_PubKey val = ThresholdPublicKey vals) →
  h ≠ 0%Z → HasPublicKeys vals = true →
  ∃ vs, NewVoteSet cid h r t vals = Ok vs ∧ vs_inv vs ∧ valSet vs = vals ∧ chainID vs = cid ∧
    height vs = h ∧ round vs = r ∧ signedMsgType vs = t.
Proof.
  intros Hv Hsg Hh Hk. pose proof (ok_size _ Hv) as Hs. unfold NewVoteSet, Size in *.
  destruct (Z.eqb_spec h 0); [done|]. rewrite Hk. cbn [negb].
  destruct (partset.NewBitArray_match (A:=Vote) (length (Validators vals))) as (ba & -> & Hm).
  { unfold_ints. lia. }
  cbn [from_bits]. orun. eexists. split; [done|]. split_and!; try done.
  constructor; cbn [valSet votes votesBitArray sum maj23 votesByBlock]; try done.
  - by rewrite length_replicate.
  - by rewrite count_replicate.
  - intros i v [? _]%lookup_replicate. done.
Qed.

(** ** Votes for one block *)

(** The invariant of a block's votes reads only the fixed part of the set. *)
Definition same_hdr (vs vs' : VoteSet) : Prop :=
  chainID vs = chainID vs' ∧ height vs = height vs' ∧ round vs = round vs' ∧
  signedMsgType vs = signedMsgType vs' ∧ valSet vs = valSet vs'.

Lemma good_vote_hdr vs vs' i v : same_hdr vs vs' → good_vote vs i v → good_vote vs' i v.
Proof. intros (E1 & E2 & E3 & E4 & E5). unfold good_vote. by rewrite E1, E2, E3, E4, E5. Qed.

Lemma vote_id_hdr vs vs' v : same_hdr vs vs' → vote_id vs v = vote_id vs' v.
Proof.
  intros (E1 & E2 & E3 & E4 & E5). unfold vote_id, voteExtensionIdentity. by rewrite E1, E4, E5.
Qed.

Lemma bv_inv_hdr vs vs' key bv : same_hdr vs vs' → bv_inv vs key bv → bv_inv vs' key bv.
Proof.
  intros Hh [Il Ib Is Iv Ig]. pose proof Hh as (_ & _ & _ & _ & EV). constructor; try done.
  - by rewrite <- EV.
  - intros i v Hi. rewrite <- (vote_id_hdr vs vs') by done.
    destruct (Iv i v Hi) as (Hg & ? & ?). eauto using good_vote_hdr.
  - intros id g Hg. setoid_rewrite <- (vote_id_hdr vs vs' _ Hh). eauto.
Qed.

Lemma good_vote_index vs i j v w :
  valset_ok (valSet vs) → good_vote vs i v → good_vote vs j w →
  Vote_ValidatorProTxHash v = Vote_ValidatorProTxHash w → i = j.
Proof.
  intros Hv (_ & _ & _ & _ & _ & a & Ha & -> & _) (_ & _ & _ & _ & _ & b & Hb & -> & _) E.
  eapply NoDup_lookup; [apply (ok_hashes _ Hv)| |];
    rewrite list_lookup_fmap; [by rewrite Ha|rewrite Hb; cbn; by f_equal].
Qed.

Lemma good_vote_lt vs i v : good_vote vs i v → i < n_vals (valSet vs).
Proof. intros (_ & _ & _ & _ & _ & a & Ha & _). by apply lookup_lt_Some in Ha. Qed.

Lemma voters_bound vs key bv id g :
  valset_ok (valSet vs) → bv_inv vs key bv → voteExtensionGroups bv !! id = Some g →
  size (voters g) ≤ n_vals (valSet vs).
Proof.
  intros Hv Hb Hg. unfold n_vals. rewrite <- (length_fmap ProTxHash).
  rewrite <- (size_list_to_set (C:=gset bytes)) by apply (ok_hashes _ Hv).
  apply subseteq_size. intros h Hh.
  destruct (bi_groups _ _ _ Hb id g Hg) as (_ & Hvs & _).
  destruct (Hvs h Hh) as (i & v & Hi & _ & <-).
  destruct (bi_votes _ _ _ Hb i v Hi) as ((_ & _ & _ & _ & _ & val & Hval & -> & _) & _).
  apply elem_of_list_to_set, list_elem_of_fmap_2, list_elem_of_lookup. eauto.
Qed.

(** The group a vote joins. *)
Definition join (bv : blockVotes) (id : bytes) (v : Vote) : voteExtensionGroup :=
  let g := default (mkGroup 0 v ∅) (voteExtensionGroups bv !! id) in
  mkGroup (group_power g + 100) (representative g) ({[Vote_ValidatorProTxHash v]} ∪ voters g).

Definition add_to_block (bv : blockVotes) (ba : option bits.BitArray) (i : nat) (v : Vote)
    (id : bytes) : blockVotes :=
  mkBlockVotes (peerMaj23 bv) ba (<[i := Some v]> (bv_votes bv)) (bv_sum bv + 100)
    (<[id := join bv id v]> (voteExtensionGroups bv)).

Section add_to_block.
Context (vs : VoteSet) (key : bytes) (bv : blockVotes) (i : nat) (v : Vote) (id : bytes).
Context (Hv : valset_ok (valSet vs)) (Hb : bv_inv vs key bv) (Hg : good_vote vs i v).
Context (Hid : vote_id vs v = Ok id) (Hfree : bv_votes bv !! i = Some None).

Lemma new_voter g : voteExtensionGroups bv !! id = Some g → Vote_ValidatorProTxHash v ∉ voters g.
Proof using Hv Hb Hg Hid Hfree.
  intros E Hin. destruct (bi_groups _ _ _ Hb id g E) as (_ & Hvs & _).
  destruct (Hvs _ Hin) as (j & w & Hj & _ & Ew).
  destruct (bi_votes _ _ _ Hb j w Hj) as (Hw & _).
  assert (j = i) as -> by (eapply good_vote_index; eauto). congruence.
Qed.

Lemma join_power :
  group_power (join bv id v) = (100 * Z.of_nat (size (voters (join bv id v))))%Z ∧
  (0 ≤ group_power (join bv id v) ≤ 100 * Size (valSet vs) + 100)%Z.
Proof using Hv Hb Hg Hid Hfree.
  unfold join. destruct (voteExtensionGroups bv !! id) as [g|] eqn:E; cbn [from_option Datatypes.id group_power voters].
  - destruct (bi_groups _ _ _ Hb id g E) as (-> & _). pose proof (voters_bound _ _ _ _ _ Hv Hb E).
    rewrite size_union, size_singleton by (pose proof (new_voter g E); set_solver).
    unfold Size, n_vals in *. lia.
  - rewrite size_union, size_singleton, size_empty by set_solver. unfold Size. lia.
Qed.

Lemma add_to_block_inv ba :
  Key (Vote_BlockID v) = key → partset.bits_match ba (<[i:=Some v]> (bv_votes bv)) →
  bv_inv vs key (add_to_block bv ba i v id).
Proof using Hv Hb Hg Hid Hfree.
  intros Hk Hba. pose proof (lookup_lt_Some _ _ _ Hfree) as Hi.
  constructor; cbn [add_to_block bv_votes bv_bitArray bv_sum voteExtensionGroups].
  - rewrite length_insert. apply (bi_len _ _ _ Hb).
  - done.
  - rewrite count_insert, (bi_sum _ _ _ Hb) by done. lia.
  - intros j w Hj. destruct (decide (j = i)) as [->|Hne].
    + rewrite list_lookup_insert_eq in Hj by done. injection Hj as <-. split_and!; try done.
      exists id, (join bv id v). rewrite lookup_insert_eq. split_and!; try done.
      unfold join; cbn; set_solver.
    + rewrite list_lookup_insert_ne in Hj by done.
      destruct (bi_votes _ _ _ Hb j w Hj) as (? & ? & id' & g & Hw & Hg' & Hin).
      split_and!; try done. exists id'. rewrite lookup_insert. destruct (decide (id = id')) as [<-|].
      * exists (join bv id v). split_and!; try done. unfold join. rewrite Hg'. cbn. set_solver.
      * eauto.
  - assert (∀ j w, bv_votes bv !! j = Some (Some w) →
      <[i:=Some v]> (bv_votes bv) !! j = Some (Some w)) as Hkeep.
    { intros j w Hj. rewrite list_lookup_insert_ne; [done|]. intros ->. congruence. }
    intros id' g. rewrite lookup_insert. destruct (decide (id = id')) as [<-|Hne].
    + intros [= <-]. split; [apply join_power|]. unfold join.
      destruct (voteExtensionGroups bv !! id) as [g|] eqn:E; cbn [from_option Datatypes.id voters representative].
      * destruct (bi_groups _ _ _ Hb id g E) as (_ & Hvs & k & Hrep & Hid').
        split; [|eauto]. intros h [->%elem_of_singleton|Hh]%elem_of_union.
        -- exists i, v. by rewrite list_lookup_insert_eq.
        -- destruct (Hvs h Hh) as (j & w & ? & ? & ?). eauto 6.
      * split; [|exists i; by rewrite list_lookup_insert_eq].
        intros h [->%elem_of_singleton|Hh]%elem_of_union; [|set_solver].
        exists i, v. by rewrite list_lookup_insert_eq.
    + intros E. destruct (bi_groups _ _ _ Hb id' g E) as (? & Hvs & k & Hrep & Hid').
      split; [done|]. split; [|eauto].
      intros h Hh. destruct (Hvs h Hh) as (j & w & ? & ? & ?). eauto 6.
Qed.

Lemma bv_add_spec rt :
  Key (Vote_BlockID v) = key →
  ∃ ba, bv_addVerifiedVote bv v id 100 rt =
      Ok (add_to_block bv ba i v id,
          (group_power (join bv id v) - 100 <? rt)%Z && (rt <=? group_power (join bv id v))%Z) ∧
    bv_inv vs key (add_to_block bv ba i v id).
Proof using Hv Hb Hg Hid Hfree.
  intros Hk. pose proof (lookup_lt_Some _ _ _ Hfree) as Hi. pose proof (bi_len _ _ _ Hb) as Hl.
  pose proof (ok_size _ Hv) as Hs. pose proof join_power as [_ Hp].
  destruct (partset.bits_match_insert (bv_bitArray bv) (bv_votes bv) i v) as (ba & Hba & Hm);
    [apply (bi_bits _ _ _ Hb)| |done|].
  { unfold Size, n_vals in *. unfold_ints. lia. }
  exists ba. split; [|by apply add_to_block_inv].
  unfold bv_addVerifiedVote.
  destruct Hg as (_ & EI & _). rewrite EI, (index_Ok _ _ _ Hfree). orun.
  rewrite Hba. cbn [from_bits]. orun. rewrite set_index_Ok by done. orun.
  pose proof (bi_sum _ _ _ Hb) as Hsum. pose proof (count_le (bv_votes bv)).
  unfold add_to_block, join in *. cbn [group_power] in *.
  rewrite (int64_id (group_power _ + 100)) by (unfold_ints; unfold Size, n_vals in *; lia).
  rewrite (int64_id (bv_sum bv + 100)) by (unfold_ints; unfold Size, n_vals in *; lia).
  do 2 f_equal. f_equal. f_equal. lia.
Qed.

End add_to_block.

End inv.

End vsinv.
