(* ===== verification/VoteSetSeal.v ===== *)
(** * types: recovery of the threshold signatures of a block

    Theorems about the recovery step of vote sets: which group of votes is
    canonical, and that the signatures it yields belong to the commit of the
    block.  Continues [VoteSetInv]. *)
From Stdlib Require Import ZArith Lia Init.Byte.
From stdpp Require Import base numbers list sets gmap.
From S2P Require Import Prelude.
From S2P Require Import SafeMath.
From S2P Require Import BitArray.
From S2P Require Import Wire.
From S2P Require Import PartSet.
From S2P Require Import Types.
From S2P Require Import Crypto.
From S2P Require Import QuorumSign.
From S2P Require Import ValidatorSet.
From S2P Require Import ValidatorUpdate.
From S2P Require Import Recoverer.
From S2P Require Import VoteSet.
From S2P Require Import VoteSetInv.

Import types crypto quorum valset recoverer voteset vsinv.

Module seal.

(** ** Sign items *)

Section sign_items.
Context `{Crypto}.

Lemma length_SignHash {E} i b i' : UpdateSignHash (E:=E) i b = Ok i' → length (SI_SignHash i') = 32.
Proof.
  unfold UpdateSignHash, blsHash. intros Hu. ok_inv. cbn [SI_SignHash].
  by rewrite length_go_copy.
Qed.

Lemma ext_SignItem_hash e c h r qt qh i :
  ext_SignItem e c h r qt qh = Ok i → length (SI_SignHash i) = 32.
Proof.
  unfold ext_SignItem, Generic_SignItem, ThresholdRaw_SignItem, NewSignItem, NewSignItemFromHash.
  destruct (vei_class e); intros Hi; ok_inv; cbn [SI_SignHash]; by eapply length_SignHash.
Qed.

Lemma SignItems_hashes es c qt qh h r items :
  SignItems es c qt qh h r = Ok items →
  length items = length es ∧ Forall (λ i, length (SI_SignHash i) = 32) items.
Proof.
  revert items. induction es as [|e es IH]; intros items Hs; cbn in Hs; ok_inv; [by split|].
  match goal with H : SignItems _ _ _ _ _ _ = _ |- _ => apply IH in H as [El Hf] end.
  cbn. rewrite El. split; [done|]. constructor; [|done]. by eapply ext_SignItem_hash.
Qed.

(** Signatures are not part of what is signed. *)
Definition resigned (e e' : VoteExtensionIf) : Prop :=
  vei_class e' = vei_class e ∧ ∃ sig, vei_pb e' = set_signature (vei_pb e) sig.

Lemma SignItems_resigned es es' c qt qh h r :
  Forall2 resigned es es' → SignItems es' c qt qh h r = SignItems es c qt qh h r.
Proof.
  induction 1 as [|e e' es es' [Ec [sig Es]] _ IH]; [done|]. cbn [SignItems].
  assert (ext_SignItem e' c h r qt qh = ext_SignItem e c h r qt qh) as ->.
  { unfold ext_SignItem. rewrite Ec. destruct (vei_class e); [..|]; rewrite Es; done. }
  by rewrite IH.
Qed.

Lemma resigned_class es es' :
  Forall2 resigned es es' → forallb class_ok es = true → forallb class_ok es' = true.
Proof.
  induction 1 as [|e e' es es' [Ec [sig Es]] _ IH]; [done|]. cbn [forallb]. intros Hc. bools.
  rewrite IH, andb_true_r by done. unfold class_ok in *. by rewrite Ec, Es.
Qed.

Lemma recoverable_all es :
  (∀ e, e ∈ es → IsThresholdRecoverable e = true) → recoverable es = es.
Proof.
  unfold recoverable. induction es as [|e es IH]; intros Ha; [done|].
  rewrite filter_cons, decide_True by (apply Ha; by constructor).
  f_equal. apply IH. intros e' He. apply Ha. by constructor.
Qed.

Lemma resigned_recoverable es es' :
  Forall2 resigned es es' → recoverable es = es → recoverable es' = es'.
Proof.
  intros Hf Hr. apply recoverable_all.
  rewrite <- Hr in Hf. unfold recoverable in Hf.
  intros e' (i & Hi)%list_elem_of_lookup.
  destruct (Forall2_lookup_r _ _ _ _ _ Hf Hi) as (e & He & [Ec _]).
  apply list_elem_of_lookup_2, list_elem_of_filter in He as [He _].
  unfold IsThresholdRecoverable in *. by rewrite Ec.
Qed.

Lemma recoverable_idemp es : recoverable (recoverable es) = recoverable es.
Proof. apply recoverable_all. by intros e [He _]%list_elem_of_filter. Qed.

Lemma recoverable_class es :
  forallb class_ok es = true → forallb class_ok (recoverable es) = true.
Proof.
  rewrite !forallb_forall. intros Hc e He. apply Hc.
  apply list_elem_of_In, list_elem_of_filter in He as [_ He]. by apply list_elem_of_In.
Qed.

(** What the votes for a block sign depends on the id, the type, the height and
    the round, and the recoverable extensions. *)
Lemma MakeQuorumSigns_Ok c qt qh v q :
  forallb class_ok (Vote_VoteExtensions v) = true →
  MakeQuorumSigns c qt qh (Vote_ToProto v) = Ok q ↔
  (∃ b, MakeBlockSignItem (E:=sign_error) c
     (Vote_ToProto (mkVote (Vote_Type v) (Vote_Height v) (Vote_Round v) (Vote_BlockID v) [] 0 [] []))
     qt qh = Ok b ∧ QSD_Block q = b) ∧
  SignItems (recoverable (Vote_VoteExtensions v)) c qt qh (Vote_Height v) (Vote_Round v) =
    Ok (QSD_VoteExtensionSignItems q).
Proof.
  intros Hc. unfold MakeQuorumSigns. cbn [Vote_ToProto PV_VoteExtensions PV_Height PV_Round].
  rewrite VoteExtensionsFromProto_back by done. cbn [wrap_err]. orun.
  change (MakeBlockSignItem c (Vote_ToProto v) qt qh) with
    (MakeBlockSignItem (E:=sign_error) c (Vote_ToProto (mkVote (Vote_Type v) (Vote_Height v)
       (Vote_Round v) (Vote_BlockID v) [] 0 [] [])) qt qh).
  destruct (MakeBlockSignItem _ _ _ _) as [b| |]; orun; [|naive_solver..].
  destruct (SignItems _ _ _ _ _ _) as [items| |]; cbn [wrap_err]; orun; [|naive_solver..].
  split.
  - intros [= <-]. eauto.
  - intros [(b' & [= <-] & <-) [= ->]]. by destruct q.
Qed.

Lemma MakeQuorumSigns_digests c qt qh v q :
  forallb class_ok (Vote_VoteExtensions v) = true →
  MakeQuorumSigns c qt qh (Vote_ToProto v) = Ok q →
  length (SI_SignHash (QSD_Block q)) = 32 ∧
  Forall (λ h, length h = 32) (map SI_SignHash (QSD_VoteExtensionSignItems q)).
Proof.
  intros Hc [(b & Hb & ->) Hs]%MakeQuorumSigns_Ok; [|done]. split.
  - unfold MakeBlockSignItem, NewSignItem, NewSignItemFromHash in Hb. ok_inv. cbn [SI_SignHash].
    by eapply length_SignHash.
  - apply SignItems_hashes in Hs as [_ Hs]. by apply Forall_fmap.
Qed.

End sign_items.

(** ** Identities determine the digests *)

Lemma length_be32 v : length (be32 v) = 4.
Proof. unfold be32. rewrite length_rev. apply wire.length_le. Qed.

Lemma be32_app_not_nil t x : be32 t ++ x ≠ [].
Proof. intros E%(f_equal length). rewrite length_app, length_be32 in E. done. Qed.

Lemma identity_bytes_nil exts : identity_bytes exts [] = Ok [].
Proof. by destruct exts. Qed.

Lemma identity_bytes_cons exts i items b :
  identity_bytes exts (i :: items) = Ok b →
  ∃ exts' t rest, identity_bytes exts' items = Ok rest ∧ b = be32 t ++ SI_SignHash i ++ rest.
Proof.
  destruct exts as [|e exts]; cbn; [done|]. intros Hb. ok_inv. eauto 10.
Qed.

Lemma identity_inj exts items exts' items' b :
  Forall (λ i, length (SI_SignHash i) = 32) items →
  Forall (λ i, length (SI_SignHash i) = 32) items' →
  identity_bytes exts items = Ok b → identity_bytes exts' items' = Ok b →
  map SI_SignHash items = map SI_SignHash items'.
Proof.
  intros Hi. revert exts exts' items' b.
  induction Hi as [|i items Hl Hi IH]; intros exts exts' items' b Hi' Hb Hb';
    destruct Hi' as [|i' items' Hl' Hi']; [done|..].
  - apply identity_bytes_cons in Hb' as (? & t & rest & _ & ->). rewrite identity_bytes_nil in Hb.
    pose proof (be32_app_not_nil t (SI_SignHash i' ++ rest)). congruence.
  - apply identity_bytes_cons in Hb as (? & t & rest & _ & ->). rewrite identity_bytes_nil in Hb'.
    pose proof (be32_app_not_nil t (SI_SignHash i ++ rest)). congruence.
  - apply identity_bytes_cons in Hb as (? & t & rest & Hr & ->).
    apply identity_bytes_cons in Hb' as (? & t' & rest' & Hr' & E).
    apply app_inj_1 in E as [_ E]; [|by rewrite !length_be32].
    apply app_inj_1 in E as [Eh <-]; [|by rewrite Hl, Hl'].
    cbn. f_equal; [done|]. eapply IH; eauto.
Qed.

(** ** The canonical group *)

Lemma bytes_ltb_false_trans a b c :
  bytes_ltb a b = false → bytes_ltb b c = false → bytes_ltb a c = false.
Proof.
  unfold bytes_ltb. rewrite (bytes_compare_antisym c b).
  destruct (bytes_compare c b) eqn:Ecb; cbn [CompOpp]; [| |by intros].
  - by apply bytes_compare_eq in Ecb as ->.
  - intros Hab _. destruct (bytes_compare a c) eqn:Eac; try done.
    by rewrite (bytes_compare_lt_trans _ _ _ Eac Ecb) in Hab.
Qed.

Lemma fold_better thr l best :
  match fold_left (better_group thr) l best with
  | None => best = None ∧ ∀ e, e ∈ l → (group_power e.2 < thr)%Z
  | Some x =>
      (best = Some x ∨ x ∈ l ∧ (thr ≤ group_power x.2)%Z) ∧
      (∀ e, e ∈ l → (thr ≤ group_power e.2)%Z → bytes_ltb e.1 x.1 = false) ∧
      (∀ y, best = Some y → bytes_ltb y.1 x.1 = false)
  end.
Proof.
  assert (∀ a, bytes_ltb a a = false) as Hirr.
  { intros a. unfold bytes_ltb. by rewrite (proj2 (bytes_compare_eq a a) eq_refl). }
  revert best. induction l as [|e l IH]; intros best; cbn [fold_left].
  - destruct best as [x|]; [|split; [done|by intros e ?%elem_of_nil]].
    split_and!; [by left|by intros e ?%elem_of_nil|intros y [= ->]; apply Hirr].
  - specialize (IH (better_group thr best e)).
    assert (better_group thr best e = best ∧
              (group_power e.2 < thr ∨ ∃ y, best = Some y ∧ bytes_ltb e.1 y.1 = false)%Z ∨
            better_group thr best e = Some e ∧ (thr ≤ group_power e.2)%Z ∧
              ∀ y, best = Some y → bytes_ltb e.1 y.1 = true) as [[Eb Hcase]|(Eb & Ht & Hlt)].
    { unfold better_group. destruct (Z.leb_spec thr (group_power e.2)); cbn [andb]; [|naive_solver].
      destruct best as [[y g]|]; [|naive_solver].
      destruct (bytes_ltb e.1 y) eqn:E; [right|left]; naive_solver. }
    + rewrite Eb in *. destruct (fold_left _ l best) as [x|] eqn:Ex.
      * destruct IH as (I1 & I2 & I3). split_and!; [|  |done].
        -- destruct I1 as [?|[? ?]]; [by left|right; split; [by constructor|done]].
        -- intros e' [->|He]%elem_of_cons Hp; [|by apply I2].
           destruct Hcase as [?|(y & Ey & Hy)]; [lia|].
           eapply bytes_ltb_false_trans; [done|]. by apply I3.
      * destruct IH as [-> IH]. split; [done|]. intros e' [->|He]%elem_of_cons; [|by apply IH].
        destruct Hcase as [?|(y & [=] & _)]; done.
    + rewrite Eb in *. destruct (fold_left _ l (Some e)) as [x|] eqn:Ex; [|by destruct IH].
      destruct IH as (I1 & I2 & I3). specialize (I3 e eq_refl). split_and!.
      * destruct I1 as [[= ->]|[? ?]]; right; split; by try constructor.
      * intros e' [->|He]%elem_of_cons Hp; [done|by apply I2].
      * intros y Hy. apply Hlt in Hy. eapply bytes_ltb_false_trans; [|done].
        unfold bytes_ltb in *. rewrite bytes_compare_antisym.
        by destruct (bytes_compare e.1 y.1).
Qed.

Section canonical.
Context `{Crypto} `{Dashd}.

(** The group chosen is the eligible one with the least identity. *)
Lemma canonical_spec `{MapOrder} vs bv :
  let thr := QuorumTypeThresholdVotingPower (valSet vs) in
  match canonicalVoteExtensionGroup vs bv with
  | None => ∀ id g, voteExtensionGroups bv !! id = Some g → (group_power g < thr)%Z
  | Some (rep, vt) =>
      ∃ id g, voteExtensionGroups bv !! id = Some g ∧ (thr ≤ group_power g)%Z ∧
        rep = representative g ∧ vt = voters g ∧
        ∀ id' g', voteExtensionGroups bv !! id' = Some g' → (thr ≤ group_power g')%Z →
          bytes_ltb id' id = false
  end.
Proof.
  intros thr. unfold canonicalVoteExtensionGroup. fold thr.
  pose proof (fold_better thr (range (map_to_list (voteExtensionGroups bv))) None) as Hf.
  assert (∀ id g, voteExtensionGroups bv !! id = Some g →
    (id, g) ∈ range (map_to_list (voteExtensionGroups bv))) as Hin.
  { intros id g Hg. rewrite range_perm. by apply elem_of_map_to_list. }
  destruct (fold_left _ _ _) as [[id g]|].
  - destruct Hf as ([[=]|[Hx Ht]] & Hmin & _). exists id, g.
    rewrite range_perm in Hx. apply elem_of_map_to_list in Hx.
    split_and!; try done. intros id' g' Hg' Ht'. apply (Hmin (id', g')); auto.
  - destruct Hf as [_ Hf]. intros id g Hg. by apply (Hf (id, g)); auto.
Qed.

(** The canonical extension group does not depend on the order in which Go
    iterates over the map of groups: every node that holds the same votes
    recovers the signatures of the same group. *)
Theorem canonical_group_deterministic (o1 o2 : MapOrder) vs bv :
  @canonicalVoteExtensionGroup _ o1 vs bv = @canonicalVoteExtensionGroup _ o2 vs bv.
Proof.
  pose proof (@canonical_spec o1 vs bv) as S1. pose proof (@canonical_spec o2 vs bv) as S2.
  destruct (@canonicalVoteExtensionGroup _ o1 vs bv) as [[r1 v1]|],
    (@canonicalVoteExtensionGroup _ o2 vs bv) as [[r2 v2]|]; cbn zeta in *; [| | |done].
  - destruct S1 as (i1 & g1 & G1 & T1 & -> & -> & M1), S2 as (i2 & g2 & G2 & T2 & -> & -> & M2).
    assert (i1 = i2) as ->; [|by simplify_eq].
    specialize (M1 i2 g2 G2 T2). specialize (M2 i1 g1 G1 T1). apply bytes_compare_eq.
    unfold bytes_ltb in *. rewrite (bytes_compare_antisym i1 i2) in M1.
    by destruct (bytes_compare i1 i2).
  - destruct S1 as (i1 & g1 & G1 & T1 & _). specialize (S2 i1 g1 G1). lia.
  - destruct S2 as (i1 & g1 & G1 & T1 & _). specialize (S1 i1 g1 G1). lia.
Qed.

End canonical.

(** ** The recovered signatures *)

Section sealing.
Context `{Crypto} `{Dashd} `{MapOrder}.
Context (vs : VoteSet) (b : BlockID) (bv : blockVotes).
Context (Hv : valset_ok (valSet vs)) (Hb : bv_inv vs (Key b) bv) (Hw : wf_BlockID b).
Context (Hmaj : maj23 vs = Some b) (Hty : signedMsgType vs = PrecommitType).

Lemma bv_vote_block i v : bv_votes bv !! i = Some (Some v) → Vote_BlockID v = b.
Proof using Hb Hw.
  intros Hi. destruct (bi_votes _ _ _ Hb i v Hi) as (((Hvb & _) & _) & Hk & _).
  apply Key_inj_wf; [by apply Vote_ValidateBasic_wf|done|done].
Qed.

(** Votes for nil carry no extensions. *)
Lemma nil_no_exts i v :
  IsQuorumReached vs = false → bv_votes bv !! i = Some (Some v) → Vote_VoteExtensions v = [].
Proof using Hb Hw Hmaj.
  intros Hq Hi. pose proof (bv_vote_block i v Hi) as Eb.
  destruct (bi_votes _ _ _ Hb i v Hi) as (((Hvb & _) & _) & _ & _).
  assert (IsNil b = true) as Hn.
  { unfold IsQuorumReached in Hq. rewrite Hmaj in Hq. bools.
    destruct Hw as [?|[(Hc & _)%IsComplete_spec _]]; [done|]. rewrite Hc in *. done. }
  unfold Vote_ValidateBasic in Hvb. rewrite Eb, Hn in Hvb. ok_inv; units; bools; try done.
  all: destruct (Vote_VoteExtensions v); try done; cbn in *; congruence.
Qed.

Lemma voter_vote id g i v :
  voteExtensionGroups bv !! id = Some g → bv_votes bv !! i = Some (Some v) →
  Vote_ValidatorProTxHash v ∈ voters g → vote_id vs v = Ok id.
Proof using Hv Hb.
  intros Hg Hi Hin. destruct (bi_groups _ _ _ Hb id g Hg) as (_ & Hvs & _).
  destruct (Hvs _ Hin) as (j & w & Hj & Hid & E).
  destruct (bi_votes _ _ _ Hb i v Hi) as (Gv & _). destruct (bi_votes _ _ _ Hb j w Hj) as (Gw & _).
  assert (j = i) as -> by (eapply good_vote_index; eauto). by simplify_eq.
Qed.

(** The extensions recovered are those of a vote of the canonical group, up to
    their signatures. *)
Lemma recovered_from vs' cv :
  recoverThresholdSigns vs bv = Ok (vs', cv) →
  ∃ i j v id, bv_votes bv !! i = Some (Some cv) ∧ bv_votes bv !! j = Some (Some v) ∧
    vote_id vs cv = Ok id ∧ vote_id vs v = Ok id ∧
    Forall2 resigned (recoverable (Vote_VoteExtensions v)) (thresholdVoteExtSigs vs') ∧
    vs' = set_maj23 vs (Some b) (thresholdBlockSig vs') (thresholdVoteExtSigs vs').
Proof using Hv Hb Hw Hmaj.
  unfold recoverThresholdSigns. intros Hr. destruct (_ <? 2); [done|].
  pose proof (canonical_spec vs bv) as Hc. cbn zeta in Hc.
  destruct (canonicalVoteExtensionGroup vs bv) as [[rep vt]|]; [|done].
  destruct Hc as (id & g & Hg & _ & -> & -> & _). ok_inv.
  destruct (bi_groups _ _ _ Hb id g Hg) as (_ & _ & i & Hi & Hid).
  match goal with H : NewSignsRecoverer _ _ = _ |- _ => apply NewSignsRecoverer_ext in H as Hcol end.
  match goal with H : GetVoteExtensions _ _ = _ |- _ =>
    apply GetVoteExtensions_Ok in H as [_ Hre] end.
  cbn [thresholdVoteExtSigs set_maj23 thresholdBlockSig]. rewrite Hmaj.
  assert (skip_vote (mkOpts (IsQuorumReached vs) (Some (voters g)) None) (representative g) = false)
    as Hskip.
  { cbn. apply bool_decide_eq_false_2. intros Hn. apply Hn.
    destruct (bi_votes _ _ _ Hb i _ Hi) as (_ & _ & id' & g' & Hid' & Hg' & ?).
    assert (id' = id) as -> by congruence. by assert (g' = g) as -> by congruence. }
  unfold collected in Hcol. destruct (map te_ext _) as [|e es] eqn:Ee.
  - exists i, i, (representative g), id. split_and!; try done.
    rewrite Hcol; [done| |done]. by apply list_elem_of_lookup_2 in Hi.
  - destruct Hcol as (v & (j & Hj)%list_elem_of_lookup & Hs & Er).
    exists i, j, v, id. rewrite Er. split_and!; try done.
    eapply voter_vote; eauto. cbn in Hs. apply bool_decide_eq_false_1, dec_stable in Hs. done.
Qed.

Lemma vote_id_Ok v id :
  vote_id vs v = Ok id →
  ∃ items, SignItems (recoverable (Vote_VoteExtensions v)) (chainID vs) (QuorumType (valSet vs))
      (QuorumHash (valSet vs)) (Vote_Height v) (Vote_Round v) = Ok items ∧
    identity_bytes (recoverable (Vote_VoteExtensions v)) items = Ok id.
Proof using Hty.
  unfold vote_id, voteExtensionIdentity. rewrite Hty. cbn [Z.eqb Pos.eqb PrecommitType].
  intros Hi. ok_inv. eauto.
Qed.

Lemma good_vote_parts i v :
  good_vote vs i v → ∃ val pk q, Validators (valSet vs) !! i = Some val ∧
    Val_PubKey val = Some pk ∧ length (Vote_VoteExtensions v) ≤ MaxVoteExtensions ∧
    MakeQuorumSigns (chainID vs) (QuorumType (valSet vs)) (QuorumHash (valSet vs))
      (Vote_ToProto v) = Ok q ∧
    all_valid pk (SI_SignHash (QSD_Block q) :: map SI_SignHash (QSD_VoteExtensionSignItems q))
      (Vote_BlockSignature v :: GetSignatures (recoverable (Vote_VoteExtensions v))).
Proof.
  intros (_ & _ & _ & _ & _ & val & Hval & _ & Hvv).
  apply vote_verify_Ok in Hvv as (pk & q & Hpk & _ & _ & Hl & _ & Hq & Ha).
  exists val, pk, q. done.
Qed.

Lemma length_recoverable es : length (recoverable es) ≤ length es.
Proof. apply length_filter. Qed.

(** The canonical precommit of the block signs what a vote of the canonical
    group signs. *)
Lemma canonical_sign_data i j cv v id q exts :
  bv_votes bv !! i = Some (Some cv) → bv_votes bv !! j = Some (Some v) →
  vote_id vs cv = Ok id → vote_id vs v = Ok id →
  Forall2 resigned (recoverable (Vote_VoteExtensions v)) exts →
  MakeQuorumSigns (chainID vs) (QuorumType (valSet vs)) (QuorumHash (valSet vs))
    (Vote_ToProto cv) = Ok q →
  ∃ q', MakeQuorumSigns (chainID vs) (QuorumType (valSet vs)) (QuorumHash (valSet vs))
      (Vote_ToProto (mkVote PrecommitType (height vs) (round vs) b [] 0 [] exts)) = Ok q' ∧
    QSD_Block q' = QSD_Block q ∧
    map SI_SignHash (QSD_VoteExtensionSignItems q') = map SI_SignHash (QSD_VoteExtensionSignItems q).
Proof using Hb Hw Hty.
  intros Hi Hj Hidc Hidv Hre Hq. pose proof (bv_vote_block i cv Hi) as Ebc.
  destruct (bi_votes _ _ _ Hb i cv Hi) as (((_ & Cc) & _ & Ehc & Erc & Etc & _) & _ & _).
  destruct (bi_votes _ _ _ Hb j v Hj) as (((_ & Cv) & _ & Ehv & Erv & Etv & _) & _ & _).
  apply vote_id_Ok in Hidc as (ic & Sc & Ic). apply vote_id_Ok in Hidv as (iv & Sv & Iv).
  apply (MakeQuorumSigns_Ok _ _ _ _ _ Cc) in Hq as [(blk & Hblk & <-) Sq].
  rewrite Ehc, Erc, Etc, Hty, Ebc in *. rewrite Ehv, Erv in *.
  assert (QSD_VoteExtensionSignItems q = ic) as Eic by congruence.
  exists (mkQSD (QSD_Block q) iv). split_and!; [|done|].
  - apply MakeQuorumSigns_Ok; cbn [Vote_VoteExtensions Vote_Type Vote_Height Vote_Round
      Vote_BlockID QSD_VoteExtensionSignItems QSD_Block].
    { eapply resigned_class; [done|]. by apply recoverable_class. }
    split; [eauto|]. rewrite (resigned_recoverable _ _ Hre (recoverable_idemp _)).
    by rewrite (SignItems_resigned _ _ _ _ _ _ _ Hre).
  - cbn [QSD_VoteExtensionSignItems]. rewrite Eic.
    eapply identity_inj; [by eapply SignItems_hashes..|exact Iv|exact Ic].
Qed.

Lemma sealed_many vs' :
  2 ≤ length (bv_votes bv) → recoverThresholdSignsAndVerify vs bv = Ok vs' →
  vs' = set_maj23 vs (Some b) (thresholdBlockSig vs') (thresholdVoteExtSigs vs') ∧ sealed vs' b.
Proof using Hv Hb Hw Hmaj Hty.
  intros Hn Hr. unfold recoverThresholdSignsAndVerify in Hr.
  destruct (bv_votes bv) as [|v1 [|v2 l]] eqn:El; cbn in Hn; [lia..|].
  destruct (recoverThresholdSigns vs bv) as [[vs1 cv]| |] eqn:Er; cbn [mbind outcome_bind] in Hr; [|done..]. ok_inv. units.
  destruct (recovered_from _ _ Er) as (i & j & v & id & Hi & Hj & Hic & Hiv & Hre & E).
  split; [done|]. revert E Hre. generalize (thresholdBlockSig vs') (thresholdVoteExtSigs vs').
  intros sig exts -> Hre. cbn [chainID valSet set_maj23] in *.
  match goal with H : qsd_verify _ _ _ _ = _ |- _ =>
    destruct (qsd_verify_pk _ _ _ _ H) as [tpk Ek]; rewrite Ek in H; apply qsd_verify_spec in H;
    rename H into Hall end.
  match goal with H : MakeQuorumSigns _ _ _ _ = Ok _ |- _ => rename H into Hq end.
  destruct (canonical_sign_data _ _ _ _ _ _ _ Hi Hj Hic Hiv Hre Hq) as (q' & Hq' & Eb & Ei).
  destruct (bi_votes _ _ _ Hb j v Hj) as (Gv & _ & _).
  unfold sealed. cbn [set_maj23 thresholdVoteExtSigs thresholdBlockSig chainID valSet height round].
  split_and!.
  - eapply resigned_class; [done|]. apply recoverable_class. by destruct Gv as [[_ ?] _].
  - eapply resigned_recoverable; [done|]. apply recoverable_idemp.
  - apply Forall2_length in Hre. rewrite <- Hre.
    pose proof (length_recoverable (Vote_VoteExtensions v)).
    destruct (good_vote_parts _ _ Gv) as (_ & _ & _ & _ & _ & ? & _). lia.
  - exists q', tpk. split_and!; [done|done|]. rewrite Eb, Ei. exact Hall.
Qed.

Lemma sealed_single vs' v :
  (∀ val, val ∈ Validators (valSet vs) → Val_PubKey val = ThresholdPublicKey (valSet vs)) →
  bv_votes bv = [Some v] → recoverThresholdSignsAndVerify vs bv = Ok vs' →
  vs' = set_maj23 vs (Some b) (thresholdBlockSig vs') (thresholdVoteExtSigs vs') ∧ sealed vs' b.
Proof using Hv Hb Hw Hmaj Hty.
  intros Hk El Hr. unfold recoverThresholdSignsAndVerify in Hr. rewrite El in Hr.
  cbn [deref mbind outcome_bind] in Hr. injection Hr as <-. cbn [set_maj23 thresholdBlockSig thresholdVoteExtSigs]. rewrite Hmaj.
  split; [done|]. assert (bv_votes bv !! 0 = Some (Some v)) as Hi by by rewrite El.
  pose proof (bv_vote_block 0 v Hi) as Eb.
  destruct (bi_votes _ _ _ Hb 0 v Hi) as (Gv & _ & _).
  destruct (good_vote_parts _ _ Gv) as (val & pk & q & Hval & Hpk & Hl & Hq & Ha).
  destruct Gv as ((_ & Cv) & _ & Eh & Er & Et & _).
  unfold sealed. cbn [set_maj23 thresholdVoteExtSigs thresholdBlockSig chainID valSet height round].
  split_and!.
  - by apply recoverable_class.
  - apply recoverable_idemp.
  - pose proof (length_recoverable (Vote_VoteExtensions v)). lia.
  - exists q, pk. split_and!; [|apply MakeQuorumSigns_Ok|done].
    + rewrite <- Hpk. symmetry. apply Hk. by apply list_elem_of_lookup_2 in Hval.
    + by apply recoverable_class.
    + apply (MakeQuorumSigns_Ok _ _ _ _ _ Cv) in Hq as [Hblk Hs].
      rewrite Eh, Er, Et, Hty, Eb in *. cbn [Vote_VoteExtensions Vote_Type Vote_Height Vote_Round
        Vote_BlockID]. by rewrite recoverable_idemp.
Qed.

Lemma GetVoteExtensions_no_panic o s qs :
  opt_quorumReached o = IsQuorumReached vs →
  NewSignsRecoverer (bv_votes bv) o = Ok s → Recover o s = Ok qs → GetVoteExtensions s qs ≠ Panic.
Proof using Hb Hw Hmaj.
  intros Ho Hn Hr. apply Recover_length in Hr. unfold GetVoteExtensions. rewrite Hr, Ho.
  destruct (IsQuorumReached vs) eqn:Eq; [by rewrite Nat.eqb_refl|].
  apply NewSignsRecoverer_ext in Hn.
  destruct (voteExtensions s) as [|e l]; [done|]. cbn in Hn.
  destruct Hn as (v & (i & Hi)%list_elem_of_lookup & _ & Er).
  by rewrite (nil_no_exts i v Eq Hi) in Er.
Qed.

Lemma recoverThresholdSigns_no_panic : recoverThresholdSigns vs bv ≠ Panic.
Proof using Hb Hw Hmaj.
  unfold recoverThresholdSigns. destruct (_ <? 2); [done|].
  destruct (canonicalVoteExtensionGroup vs bv) as [[cv vt]|]; [|done].
  set (o := mkOpts _ _ _). pose proof (NewSignsRecoverer_no_panic (bv_votes bv) o).
  destruct (NewSignsRecoverer _ _) as [s| |] eqn:En; cbn [wrap_err]; orun; try done.
  pose proof (Recover_no_panic o s).
  destruct (Recover o s) as [qs| |] eqn:Er; cbn [wrap_err]; orun; try done.
  pose proof (GetVoteExtensions_no_panic o s qs eq_refl En Er).
  by destruct (GetVoteExtensions s qs).
Qed.

Lemma recover_no_panic i v :
  bv_votes bv !! i = Some (Some v) → recoverThresholdSignsAndVerify vs bv ≠ Panic.
Proof using Hv Hb Hw Hmaj Hty.
  intros Hi. unfold recoverThresholdSignsAndVerify.
  destruct (bv_votes bv) as [|v1 [|v2 l]] eqn:El; [done| |].
  { destruct i; [|done]. injection Hi as ->. done. }
  pose proof recoverThresholdSigns_no_panic.
  destruct (recoverThresholdSigns vs bv) as [[vs' cv]| |] eqn:Er; orun; try done.
  destruct (recovered_from _ _ Er) as (k & _ & _ & _ & Hk & _ & _ & _ & _ & E).
  revert E. generalize (thresholdBlockSig vs') (thresholdVoteExtSigs vs'). intros sig exts ->.
  cbn [chainID valSet set_maj23].
  destruct (bi_votes _ _ _ Hb k cv Hk) as (Gv & _ & _).
  destruct (good_vote_parts _ _ Gv) as (_ & _ & q & _ & _ & _ & -> & _). cbn [wrap_err]. orun.
  destruct (ok_key _ Hv) as [tpk ->].
  match goal with |- context [qsd_verify ?q ?k ?s ?b] =>
    pose proof (qsd_verify_no_panic q tpk s b); by destruct (qsd_verify q k s b) end.
Qed.

End sealing.

Section identity.
Context `{Crypto} `{Dashd} (sha_len : ∀ x, length (sha256 x) = 32).

Lemma identity_bytes_no_panic exts items :
  length items = length exts → identity_bytes exts items ≠ Panic.
Proof.
  revert items. induction exts as [|e exts IH]; intros [|i items] Hl; try done.
  cbn [identity_bytes]. unfold SafeConvertUint32.
  repeat (split_if; cbn [wrap_err]; orun; [done|]). cbn [wrap_err]. orun.
  specialize (IH items). destruct (identity_bytes exts items); orun; try done.
  apply IH. by injection Hl.
Qed.

Lemma vote_id_no_panic vs v : valset_ok (valSet vs) → vote_id vs v ≠ Panic.
Proof using sha_len.
  intros Hv. unfold vote_id, voteExtensionIdentity. split_if; [|done].
  match goal with |- context [SignItems ?a ?b ?c ?d ?e ?f] =>
    pose proof (SignItems_no_panic sha_len a b c d e f (ok_quorum _ Hv));
    destruct (SignItems a b c d e f) as [items| |] eqn:Es end; cbn [wrap_err]; orun; try done.
  apply identity_bytes_no_panic. by apply SignItems_hashes in Es as [-> _].
Qed.

End identity.

End seal.
