(* ===== verification/VoteSetSafe.v ===== *)
(** * types: adding votes preserves the invariant

    Theorems about [VoteSet.addVote] and [VoteSet.SetPeerMaj23]: they keep the
    invariant of [VoteSetInv], never panic, and never take back a majority. *)
From Stdlib Require Import ZArith Lia Init.Byte.
From stdpp Require Import base numbers list sets gmap.
From S2P Require Import Prelude.
From S2P Require Import SafeMath.
From S2P Require Import BitArray.
From S2P Require Import PartSet.
From S2P Require Import Types.
From S2P Require Import Crypto.
From S2P Require Import QuorumSign.
From S2P Require Import ValidatorSet.
From S2P Require Import Recoverer.
From S2P Require Import VoteSet.
From S2P Require Import VoteSetInv.
From S2P Require Import VoteSetSeal.

Import types crypto quorum valset recoverer voteset vsinv seal.

Module vssafe.

(** ** What operations keep *)

(** Votes are only added, and the majority and its signatures are final. *)
Record extends (vs vs' : VoteSet) : Prop := {
  ex_hdr : same_hdr vs vs';
  ex_maj : ∀ b, maj23 vs = Some b → maj23 vs' = Some b ∧
    thresholdBlockSig vs' = thresholdBlockSig vs ∧
    thresholdVoteExtSigs vs' = thresholdVoteExtSigs vs;
  ex_votes : ∀ i v, votes vs !! i = Some (Some v) → ∃ w, votes vs' !! i = Some (Some w);
  ex_bvs : ∀ key bv, votesByBlock vs !! key = Some bv →
    ∃ bv', votesByBlock vs' !! key = Some bv' ∧
      ∀ i v, bv_votes bv !! i = Some (Some v) → bv_votes bv' !! i = Some (Some v) }.

Global Instance extends_preorder : PreOrder extends.
Proof.
  split.
  - intros vs. constructor; unfold same_hdr; eauto 10.
  - intros a b c [(A1 & A2 & A3 & A4 & A5) A6 A7 A8] [(B1 & B2 & B3 & B4 & B5) B6 B7 B8]. constructor.
    + unfold same_hdr. split_and!; congruence.
    + intros x (Hx & E1 & E2)%A6. apply B6 in Hx as (Hx & E3 & E4). split_and!; congruence.
    + intros i v (w & Hw)%A7. eauto.
    + intros key bv (bv' & Hk & Hi)%A8. apply B8 in Hk as (bv'' & ? & ?). eauto.
Qed.

Section safe.
Context `{Crypto} `{Dashd} `{MapOrder}.

Lemma valset_len vs : valset_ok (valSet vs) → (Z.of_nat (n_vals (valSet vs)) ≤ MaxInt32)%Z.
Proof. intros Hv. apply (ok_size _ Hv). Qed.

Lemma sealed_ext vs vs' b :
  same_hdr vs vs' → thresholdBlockSig vs' = thresholdBlockSig vs →
  thresholdVoteExtSigs vs' = thresholdVoteExtSigs vs → sealed vs b → sealed vs' b.
Proof.
  intros (E1 & E2 & E3 & _ & E5) E6 E7. unfold sealed. by rewrite E1, E2, E3, E5, E6, E7.
Qed.

(** ** The list of votes *)

Lemma set_votes_inv vs ba i v s :
  vs_inv vs → good_vote vs i v → partset.bits_match ba (<[i:=Some v]> (votes vs)) →
  s = (100 * Z.of_nat (count (<[i:=Some v]> (votes vs))))%Z →
  vs_inv (set_votes vs ba (<[i:=Some v]> (votes vs)) s) ∧
  extends vs (set_votes vs ba (<[i:=Some v]> (votes vs)) s).
Proof.
  intros [IV I1 IL IB IS IG IBV ISN IN IM] Hg Hba ->.
  assert (same_hdr vs (set_votes vs ba (<[i:=Some v]> (votes vs))
    (100 * Z.of_nat (count (<[i:=Some v]> (votes vs)))))) as Hh by done.
  assert (i < length (votes vs)) as Hi by (rewrite IL; by eapply good_vote_lt).
  assert (∀ j w, votes vs !! j = Some (Some w) →
    ∃ w', <[i:=Some v]> (votes vs) !! j = Some (Some w')) as Hkeep.
  { intros j w Hj. destruct (decide (j = i)) as [->|].
    - rewrite list_lookup_insert_eq by done. eauto.
    - rewrite list_lookup_insert_ne by done. eauto. }
  split.
  - constructor; cbn [set_votes valSet votes votesBitArray sum votesByBlock maj23 thresholdBlockSig
      thresholdVoteExtSigs signedMsgType]; try done.
    + by rewrite length_insert.
    + intros j w Hj. destruct (decide (j = i)) as [->|].
      * rewrite list_lookup_insert_eq in Hj by done. by injection Hj as <-.
      * rewrite list_lookup_insert_ne in Hj by done. by apply IG.
    + intros key bv Hk. eapply bv_inv_hdr; [exact Hh|by apply IBV].
    + intros key bv j w Hk Hj. destruct (ISN key bv j w Hk Hj) as [w' Hw']. eauto.
  - constructor; try done; eauto.
Qed.

Lemma put_vote_inv vs i v s :
  vs_inv vs → good_vote vs i v →
  s = (100 * Z.of_nat (count (<[i:=Some v]> (votes vs))))%Z →
  ∃ ba, put_vote vs v s = Ok (set_votes vs ba (<[i:=Some v]> (votes vs)) s) ∧
    vs_inv (set_votes vs ba (<[i:=Some v]> (votes vs)) s) ∧
    extends vs (set_votes vs ba (<[i:=Some v]> (votes vs)) s).
Proof.
  intros HI Hg Hs. pose proof (valset_len _ (vi_valset _ HI)) as Hn.
  pose proof (vi_len _ HI) as Hl. pose proof (good_vote_lt _ _ _ Hg) as Hi.
  destruct (partset.bits_match_insert (votesBitArray vs) (votes vs) i v) as (ba & Hba & Hm);
    [apply (vi_bits _ HI)|unfold_ints; lia|lia|].
  exists ba. split; [|by apply set_votes_inv].
  unfold put_vote. destruct Hg as (_ & -> & _). rewrite set_index_Ok by lia. orun.
  rewrite Hba. cbn [from_bits]. by orun.
Qed.

(** The slot a vote would take, when [getVote] does not find it. *)
Lemma getVote_None vs i key :
  i < length (votes vs) → getVote vs (Z.of_nat i) key = Ok None →
  (∀ e, votes vs !! i = Some (Some e) → Key (Vote_BlockID e) ≠ key) ∧
  (∀ bv o, votesByBlock vs !! key = Some bv → bv_votes bv !! i = Some o → o = None).
Proof.
  intros Hi Hg. unfold getVote in Hg. destruct (lookup_lt_is_Some_2 _ _ Hi) as [e He].
  rewrite (index_Ok _ _ _ He) in Hg. cbn [mbind outcome_bind] in Hg.
  assert (getByIndex (votesByBlock vs !! key) (Z.of_nat i) = Ok None) as Hb.
  { destruct e as [e|]; [|done]. by destruct (bool_decide _). }
  split.
  - intros e' He' Hk. rewrite He in He'. injection He' as ->. by rewrite bool_decide_eq_true_2 in Hg.
  - intros bv o Hbv Ho. rewrite Hbv in Hb. cbn [getByIndex] in Hb.
    rewrite (index_Ok _ _ _ Ho) in Hb. by injection Hb.
Qed.

Lemma record_vote_spec vs i v :
  vs_inv vs → good_vote vs i v →
  (∀ e, votes vs !! i = Some (Some e) → Key (Vote_BlockID e) ≠ Key (Vote_BlockID v)) →
  ∃ vs1 c, record_vote vs v (Key (Vote_BlockID v)) 100 = Ok (vs1, c) ∧ vs_inv vs1 ∧
    extends vs vs1 ∧ votesByBlock vs1 = votesByBlock vs ∧ maj23 vs1 = maj23 vs ∧
    peerMaj23s vs1 = peerMaj23s vs ∧ votes vs !! i = Some c ∧
    (∃ w, votes vs1 !! i = Some (Some w)) ∧
    sum vs1 = (sum vs + match c with Some _ => 0 | None => 100 end)%Z.
Proof.
  intros HI Hg He. pose proof (good_vote_lt _ _ _ Hg) as Hi. rewrite <- (vi_len _ HI) in Hi.
  destruct (lookup_lt_is_Some_2 _ _ Hi) as [c Hc].
  unfold record_vote. pose proof Hg as (_ & -> & _). rewrite (index_Ok _ _ _ Hc). orun.
  destruct c as [e|].
  - destruct (BlockID_Equals _ _) eqn:Ee.
    { apply BlockID_Equals_spec in Ee. specialize (He e Hc). congruence. }
    split_if.
    + destruct (put_vote_inv vs i v (sum vs)) as (ba & -> & HI' & Hx); [done|done| |].
      { rewrite (count_replace _ _ _ e) by done. apply (vi_sum _ HI). }
      orun. do 2 eexists. split; [done|]. cbn [set_votes votes].
      rewrite list_lookup_insert_eq by done. split_and!; try done; eauto; cbn; lia.
    + do 2 eexists. split; [done|]. split_and!; try done; eauto; lia.
  - assert (int64 (sum vs + 100) = sum vs + 100)%Z as ->.
    { rewrite (vi_sum _ HI). pose proof (count_le (votes vs)).
      pose proof (valset_len _ (vi_valset _ HI)). rewrite (vi_len _ HI) in *.
      rewrite int64_id; [lia|unfold_ints; lia]. }
    destruct (put_vote_inv vs i v (sum vs + 100)) as (ba & -> & HI' & Hx); [done|done| |].
    { rewrite count_insert, (vi_sum _ HI) by done. lia. }
    orun. do 2 eexists. split; [done|]. cbn [set_votes votes].
    rewrite list_lookup_insert_eq by done. split_and!; try done; eauto.
Qed.

(** ** The votes of a block *)

Lemma set_bv_inv vs key bv :
  vs_inv vs → bv_inv vs key bv →
  (∀ i v, bv_votes bv !! i = Some (Some v) → ∃ w, votes vs !! i = Some (Some w)) →
  (∀ old, votesByBlock vs !! key = Some old → (bv_sum old ≤ bv_sum bv)%Z ∧
     ∀ i v, bv_votes old !! i = Some (Some v) → bv_votes bv !! i = Some (Some v)) →
  vs_inv (set_votesByBlock vs (<[key:=bv]> (votesByBlock vs))) ∧
  extends vs (set_votesByBlock vs (<[key:=bv]> (votesByBlock vs))).
Proof.
  intros [IV I1 IL IB IS IG IBV ISN IN IM] Hb Hf Hold.
  assert (same_hdr vs (set_votesByBlock vs (<[key:=bv]> (votesByBlock vs)))) as Hh by done.
  split; constructor; cbn [set_votesByBlock valSet votes votesBitArray sum votesByBlock maj23
    thresholdBlockSig thresholdVoteExtSigs signedMsgType]; try done.
  - intros k bv'. rewrite lookup_insert. destruct (decide (key = k)) as [<-|].
    + intros [= <-]. by eapply bv_inv_hdr.
    + intros Hk. eapply bv_inv_hdr; [exact Hh|by apply IBV].
  - intros k bv' j w. rewrite lookup_insert. destruct (decide (key = k)) as [<-|].
    + intros [= <-]. apply Hf.
    + apply ISN.
  - intros b (bv' & i & v & Hk & Hq & Hi & Ev & Hs)%IM. rewrite lookup_insert.
    destruct (decide (key = Key b)) as [->|].
    + destruct (Hold _ Hk) as [Hle Hv]. exists bv, i, v. split_and!; auto. lia.
    + eauto 10.
  - eauto.
  - intros k bv' Hk. rewrite lookup_insert. destruct (decide (key = k)) as [<-|]; [|eauto].
    destruct (Hold _ Hk) as [_ Hv]. eauto.
Qed.

(** Publishing the majority: its votes replace those they conflict with. *)
Lemma publish_inv vs b bv i v sig exts :
  vs_inv vs → votesByBlock vs !! Key b = Some bv → maj23 vs = None →
  (quorum_power (valSet vs) ≤ bv_sum bv)%Z → bv_votes bv !! i = Some (Some v) →
  Vote_BlockID v = b →
  (signedMsgType vs = PrecommitType → sealed (set_maj23 vs (Some b) sig exts) b) →
  let vs' := set_votes (set_maj23 vs (Some b) sig exts) (votesBitArray vs)
               (copy_votes (bv_votes bv) (votes vs)) (sum vs) in
  vs_inv vs' ∧ extends vs vs'.
Proof.
  intros [IV I1 IL IB IS IG IBV ISN IN IM] Hk Hm Hq Hi Ev Hs vs'.
  pose proof (IBV _ _ Hk) as Hb. assert (same_hdr vs vs') as Hh by done.
  assert (length (bv_votes bv) = length (votes vs)) as Hl by (rewrite IL; apply (bi_len _ _ _ Hb)).
  assert (∀ j, (∃ x, copy_votes (bv_votes bv) (votes vs) !! j = Some (Some x)) ↔
               (∃ x, votes vs !! j = Some (Some x))) as Hsame.
  { intros j. rewrite copy_votes_lookup by done.
    destruct (bv_votes bv !! j) as [[x|]|] eqn:Ej; [|done..]. split; [|eauto].
    intros _. by eapply ISN. }
  split; constructor; cbn [vs' set_votes set_maj23 valSet votes votesBitArray sum votesByBlock maj23
    thresholdBlockSig thresholdVoteExtSigs signedMsgType]; try done.
  - by rewrite length_copy_votes.
  - eapply bits_match_same; [done|apply length_copy_votes|done].
  - rewrite count_copy_votes; eauto.
  - intros j w. rewrite copy_votes_lookup by done.
    destruct (bv_votes bv !! j) as [[x|]|] eqn:Ej; [|by apply IG..].
    intros [= <-]. by apply (bi_votes _ _ _ Hb j x).
  - intros k bv' Hk'. eapply bv_inv_hdr; [exact Hh|by apply IBV].
  - intros k bv' j w Hk' Hj. apply Hsame. by eapply ISN.
  - intros b' [= <-]. exists bv, i, v. split_and!; try done.
  - intros b'. by rewrite Hm.
  - intros j w Hj. apply Hsame. eauto.
  - eauto.
Qed.

Lemma finalize_spec vs bv i v :
  vs_inv vs → votesByBlock vs !! Key (Vote_BlockID v) = Some bv →
  bv_votes bv !! i = Some (Some v) → maj23 vs = None →
  (quorum_power (valSet vs) ≤ bv_sum bv)%Z →
  ∃ vs', finalize vs bv v = Ok vs' ∧ vs_inv vs' ∧ extends vs vs' ∧
    votesByBlock vs' = votesByBlock vs ∧ peerMaj23s vs' = peerMaj23s vs ∧ sum vs' = sum vs ∧
    (maj23 vs' = Some (Vote_BlockID v) ∨
     vs' = vs ∧ signedMsgType vs = PrecommitType ∧ ∃ e, recoverThresholdSignsAndVerify
       (set_maj23 vs (Some (Vote_BlockID v)) (thresholdBlockSig vs) (thresholdVoteExtSigs vs)) bv
       = Err e).
Proof.
  intros HI Hk Hi Hm Hq. pose proof (vi_bvs _ HI _ _ Hk) as Hb. unfold finalize.
  set (b := Vote_BlockID v) in *.
  set (vt := set_maj23 vs (Some b) (thresholdBlockSig vs) (thresholdVoteExtSigs vs)).
  assert (wf_BlockID b) as Hw.
  { destruct (bi_votes _ _ _ Hb i v Hi) as (((Hvb & _) & _) & _). by apply Vote_ValidateBasic_wf. }
  destruct (Z.eqb_spec (signedMsgType vs) PrecommitType) as [Ht|Ht].
  2:{ eexists. split; [done|]. destruct (publish_inv vs b bv i v (thresholdBlockSig vs)
        (thresholdVoteExtSigs vs) HI Hk Hm Hq Hi eq_refl) as [HI' Hx]; [done|].
      split_and!; try done. by left. }
  assert (bv_inv vt (Key b) bv) as Hb' by (by eapply bv_inv_hdr; [|exact Hb]).
  pose proof (recover_no_panic vt b bv (vi_valset _ HI) Hb' Hw eq_refl Ht i v Hi) as Hnp.
  destruct (recoverThresholdSignsAndVerify vt bv) as [vs1|e|] eqn:Er; [| |done].
  - assert (vs1 = set_maj23 vt (Some b) (thresholdBlockSig vs1) (thresholdVoteExtSigs vs1) ∧
            sealed vs1 b) as [E Hs].
    { pose proof (bi_len _ _ _ Hb) as Hl.
      destruct (bv_votes bv) as [|o [|o' l]] eqn:El; [done| |].
      - destruct i; [|done]. injection Hi as ->.
        apply (sealed_single vt b bv (vi_valset _ HI) Hb' Hw eq_refl Ht vs1 v); [|done|done].
        apply (vi_single _ HI). by rewrite <- Hl.
      - apply (sealed_many vt b bv (vi_valset _ HI) Hb' Hw eq_refl Ht vs1); [|done].
        rewrite El. cbn. lia. }
    revert E Hs. generalize (thresholdBlockSig vs1) (thresholdVoteExtSigs vs1). intros sig exts -> Hs.
    eexists. split; [done|].
    destruct (publish_inv vs b bv i v sig exts HI Hk Hm Hq Hi eq_refl) as [HI' Hx]; [done|].
    split_and!; try done. by left.
  - eexists. split; [done|]. destruct (vi_none _ HI Hm) as [E1 E2].
    assert (set_maj23 vs None [] [] = vs) as ->.
    { rewrite <- E1, <- E2, <- Hm. by destruct vs. }
    split_and!; try done. right. eauto.
Qed.

(** ** Counting a verified vote *)

(** The set while the recovery for block [b] runs. *)
Definition tentative (vs : VoteSet) (key : bytes) (bv : blockVotes) (b : BlockID) : VoteSet :=
  set_maj23 (set_votesByBlock vs (<[key := bv]> (votesByBlock vs))) (Some b)
    (thresholdBlockSig vs) (thresholdVoteExtSigs vs).

(** The vote brings the block to the quorum, or its group to the recovery
    threshold. *)
Definition triggers (vs : VoteSet) (bv bv' : blockVotes) (v : Vote) (id : bytes) : Prop :=
  let q := quorum_power (valSet vs) in
  let t := QuorumTypeThresholdVotingPower (valSet vs) in
  let p := group_power (join bv id v) in
  maj23 vs = None ∧ (q ≤ bv_sum bv')%Z ∧ ((bv_sum bv < q)%Z ∨ (p - 100 < t)%Z ∧ (t ≤ p)%Z).

Global Instance triggers_dec vs bv bv' v id : Decision (triggers vs bv bv' v id).
Proof. unfold triggers. apply _. Defined.

(** What counting a vote does to the majority. *)
Definition majority_step (vs : VoteSet) (bv bv' : blockVotes) (v : Vote) (id : bytes)
    (vs' : VoteSet) : Prop :=
  (triggers vs bv bv' v id → maj23 vs' = Some (Vote_BlockID v) ∨
    maj23 vs' = None ∧ signedMsgType vs = PrecommitType ∧
      ∃ e, recoverThresholdSignsAndVerify
        (tentative vs (Key (Vote_BlockID v)) bv' (Vote_BlockID v)) bv' = Err e) ∧
  (¬ triggers vs bv bv' v id → maj23 vs' = maj23 vs).

Lemma count_vote_spec vs bv i v id :
  vs_inv vs → votesByBlock vs !! Key (Vote_BlockID v) = Some bv → bv_votes bv !! i = Some None →
  good_vote vs i v → vote_id vs v = Ok id → (∃ w, votes vs !! i = Some (Some w)) →
  ∃ vs' ba, let bv' := add_to_block bv ba i v id in
    count_vote vs bv v (Key (Vote_BlockID v)) id 100 = Ok vs' ∧ vs_inv vs' ∧ extends vs vs' ∧
    peerMaj23s vs' = peerMaj23s vs ∧ sum vs' = sum vs ∧
    votesByBlock vs' = <[Key (Vote_BlockID v) := bv']> (votesByBlock vs) ∧
    majority_step vs bv bv' v id vs'.
Proof.
  intros HI Hk Hfree Hg Hid Hin. pose proof (vi_valset _ HI) as HV.
  pose proof (vi_bvs _ HI _ _ Hk) as Hb.
  destruct (bv_add_spec vs _ bv i v id HV Hb Hg Hid Hfree
    (QuorumTypeThresholdVotingPower (valSet vs)) eq_refl) as (ba & Ea & Hb').
  set (bv' := add_to_block bv ba i v id) in *.
  assert (∀ j w, bv_votes bv !! j = Some (Some w) → bv_votes bv' !! j = Some (Some w)) as Hmono.
  { intros j w Hj. cbn. rewrite list_lookup_insert_ne; [done|]. intros ->. congruence. }
  assert (bv_votes bv' !! i = Some (Some v)) as Hi'.
  { cbn. apply list_lookup_insert_eq. by apply lookup_lt_Some in Hfree. }
  destruct (set_bv_inv vs (Key (Vote_BlockID v)) bv' HI Hb') as [HI1 Hx1].
  { intros j w Hj. destruct (decide (j = i)) as [->|]; [done|]. cbn in Hj.
    rewrite list_lookup_insert_ne in Hj by done. by eapply (vi_seen _ HI). }
  { intros old Hold. assert (old = bv) as -> by congruence. split; [cbn; lia|done]. }
  unfold count_vote. rewrite quorum_power_Ok by done. orun. rewrite Ea. orun.
  set (vs1 := set_votesByBlock vs (<[Key (Vote_BlockID v) := bv']> (votesByBlock vs))) in *.
  unfold majority_step. destruct (decide (triggers vs bv bv' v id)) as [Hc|Hc].
  - pose proof Hc as (Hm & Hq & Hc').
    destruct (finalize_spec vs1 bv' i v HI1) as (vs' & Ef & HI' & Hx' & E1 & E2 & Es & E3);
      [cbn; apply lookup_insert_eq|done|done|done|].
    exists vs', ba. split_and!; try done; [|by etrans|].
    + rewrite bool_decide_eq_true_2 by done. rewrite (proj2 (Z.leb_le _ _) Hq). cbn [andb].
      rewrite andb_true_r. destruct Hc' as [Hlt|[Hl Hr]].
      * by rewrite (proj2 (Z.ltb_lt _ _) Hlt).
      * rewrite (proj2 (Z.ltb_lt _ _) Hl), (proj2 (Z.leb_le _ _) Hr). by rewrite orb_true_r.
    + intros _. destruct E3 as [?|(-> & ? & e & He)]; [by left|]. right. split_and!; try done.
      by exists e.
  - exists vs1, ba. split_and!; try done.
    destruct (bool_decide (maj23 vs1 = None)) eqn:Em; [|done]. apply bool_decide_eq_true_1 in Em.
    destruct (Z.leb_spec (quorum_power (valSet vs)) (bv_sum bv')) as [Hq|]; cbn [andb]; [|done].
    rewrite andb_true_r. destruct (_ || _) eqn:Ec; [|done]. exfalso. apply Hc.
    split_and!; [done|done|]. bools; [left|right]; lia.
Qed.

(** ** [addVerifiedVote] *)

(** The vote is stored for its block. *)
Definition stored (vs : VoteSet) (i : nat) (v : Vote) : Prop :=
  ∃ bv, votesByBlock vs !! Key (Vote_BlockID v) = Some bv ∧ bv_votes bv !! i = Some (Some v).

Lemma stored_add vs' bvs bv ba i v id :
  bv_votes bv !! i = Some None →
  votesByBlock vs' = <[Key (Vote_BlockID v) := add_to_block bv ba i v id]> bvs → stored vs' i v.
Proof.
  intros Hf E. exists (add_to_block bv ba i v id). rewrite E, lookup_insert_eq. split; [done|].
  cbn. apply list_lookup_insert_eq. by apply lookup_lt_Some in Hf.
Qed.

(** How an added vote was counted: from a set with the same block votes, or one
    more empty entry. *)
Definition counted (vs : VoteSet) (i : nat) (v : Vote) (id : bytes) (vs' : VoteSet) : Prop :=
  ∃ vs1 bv ba, let bv' := add_to_block bv ba i v id in
    vs_inv vs1 ∧ same_hdr vs vs1 ∧ maj23 vs1 = maj23 vs ∧
    votesByBlock vs1 !! Key (Vote_BlockID v) = Some bv ∧ bv_votes bv !! i = Some None ∧
    (∀ k bvk, votesByBlock vs1 !! k = Some bvk →
       votesByBlock vs !! k = Some bvk ∨ bv_sum bvk = 0%Z) ∧
    votesByBlock vs' = <[Key (Vote_BlockID v) := bv']> (votesByBlock vs1) ∧
    majority_step vs1 bv bv' v id vs'.

Lemma addVerifiedVote_spec vs i v id :
  vs_inv vs → good_vote vs i v → vote_id vs v = Ok id →
  (∀ e, votes vs !! i = Some (Some e) → Key (Vote_BlockID e) ≠ Key (Vote_BlockID v)) →
  (∀ bv o, votesByBlock vs !! Key (Vote_BlockID v) = Some bv → bv_votes bv !! i = Some o → o = None) →
  ∃ vs' added c, addVerifiedVote vs v (Key (Vote_BlockID v)) id 100 = Ok (vs', added, c) ∧
    vs_inv vs' ∧ extends vs vs' ∧ peerMaj23s vs' = peerMaj23s vs ∧ votes vs !! i = Some c ∧
    (added = true → stored vs' i v ∧ counted vs i v id vs') ∧
    (added = false → votesByBlock vs' = votesByBlock vs ∧ maj23 vs' = maj23 vs) ∧
    (c = None → added = true) ∧
    (100 * Z.of_nat (size (votesByBlock vs')) - sum vs' ≤
     100 * Z.of_nat (size (votesByBlock vs)) - sum vs)%Z.
Proof.
  intros HI Hg Hid He Hfree.
  destruct (record_vote_spec vs i v HI Hg He)
    as (vs1 & c & E1 & HI1 & Hx1 & Eb & Em & Ep & Hc & Hin & Es).
  unfold addVerifiedVote. rewrite E1. orun. rewrite Eb.
  assert (good_vote vs1 i v) as Hg1 by (eapply good_vote_hdr; [apply (ex_hdr _ _ Hx1)|done]).
  assert (vote_id vs1 v = Ok id) as Hid1 by (by rewrite <- (vote_id_hdr vs vs1) by apply Hx1).
  assert (i < n_vals (valSet vs1)) as Hi by by eapply good_vote_lt.
  destruct (votesByBlock vs !! Key (Vote_BlockID v)) as [bv|] eqn:Ek.
  - destruct (match c with Some _ => negb (peerMaj23 bv) | None => false end) eqn:Ec.
    { exists vs1, false, c. split_and!; try done; [by destruct c|]. rewrite Eb, Es.
      destruct c; lia. }
    assert (bv_votes bv !! i = Some None) as Hf.
    { destruct (lookup_lt_is_Some_2 (bv_votes bv) i) as [o Ho].
      - rewrite <- Eb in Ek. by rewrite (bi_len _ _ _ (vi_bvs _ HI1 _ _ Ek)).
      - by rewrite <- (Hfree bv o eq_refl Ho). }
    destruct (count_vote_spec vs1 bv i v id HI1) as (vs' & ba & -> & HI' & Hx' & Ep' & Es' & Eb' & Hmj);
      [by rewrite Eb|done..|].
    orun. exists vs', true, c. split_and!; try done; [by etrans|congruence| |].
    + intros _. split; [by eapply stored_add|]. exists vs1, bv, ba. split_and!; try done.
      * apply Hx1.
      * by rewrite Eb.
      * rewrite Eb. intros k bvk Hk. by left.
    + rewrite Eb', Es', Es, Eb, map_size_insert_Some by eauto. destruct c; lia.
  - destruct c as [c|].
    { exists vs1, false, (Some c). split_and!; try done. rewrite Eb, Es. lia. }
    destruct (newBlockVotes_inv vs1 (Key (Vote_BlockID v)) false (vi_valset _ HI1))
      as (bv & -> & Hb & _ & Hs & Hn & _). orun.
    destruct (set_bv_inv vs1 (Key (Vote_BlockID v)) bv HI1 Hb) as [HI2 Hx2].
    { intros j w Hj. by destruct (Hn j w). }
    { intros old. by rewrite Eb, Ek. }
    rewrite <- Eb. set (vs2 := set_votesByBlock vs1 _) in *.
    assert (bv_votes bv !! i = Some None) as Hf.
    { destruct (lookup_lt_is_Some_2 (bv_votes bv) i) as [[w|] Ho]; [|by destruct (Hn i w)|done].
      by rewrite (bi_len _ _ _ Hb). }
    destruct (count_vote_spec vs2 bv i v id HI2) as (vs' & ba & -> & HI' & Hx' & Ep' & Es' & Eb' & Hmj);
      [cbn; apply lookup_insert_eq|done..|].
    orun. exists vs', true, None. split_and!; try done; [by do 2 (etrans; [done|])|by rewrite Ep'| |].
    + intros _. split; [by eapply stored_add|]. exists vs2, bv, ba. split_and!; try done.
      * apply Hx1.
      * apply lookup_insert_eq.
      * cbn [vs2 set_votesByBlock votesByBlock]. rewrite Eb. intros k bvk. rewrite lookup_insert.
        destruct (decide _); [intros [= <-]; by right|by left].
    + rewrite Eb', Es', map_size_insert. cbn [vs2 set_votesByBlock votesByBlock sum].
      rewrite lookup_insert_eq, map_size_insert, Eb, Ek, Es. unfold Datatypes.id. lia.
Qed.

(** ** [addVote] *)

(** Evidence, when given, was minted by [VerifyVoteSignatures]. *)
Definition minted (verified : option VoteVerification) : Prop :=
  ∀ e, verified = Some e → ∃ r chainID qt qh pk proTxHash b,
    VerifyVoteSignatures (Some r) chainID qt qh pk proTxHash b = Ok e.

Lemma check_vote_Ok vs r val b verified :
  minted verified → check_vote vs r val b verified = Ok tt →
  vote_verify (ref_vote r) (chainID vs) (QuorumType (valSet vs)) (QuorumHash (valSet vs))
    (Val_PubKey val) (ProTxHash val) None = Ok tt.
Proof.
  intros Hm Hc. unfold check_vote in Hc. destruct verified as [e|].
  - destruct (Hm e eq_refl) as (r0 & c & qt & qh & pk & p & b0 & He). ok_inv. units.
    by eapply (evidence_verifies e r0).
  - ok_inv. units. by eapply vote_verify_budget.
Qed.

(** The identity of a verified vote exists. *)
Lemma vote_id_good vs i v : good_vote vs i v → ∃ id, vote_id vs v = Ok id.
Proof.
  intros Hg. pose proof Hg as ((_ & Hc) & _). unfold vote_id, voteExtensionIdentity.
  split_if; [|eauto]. destruct (good_vote_parts vs i v Hg) as (_ & _ & q & _ & _ & _ & Hq & _).
  apply (MakeQuorumSigns_Ok _ _ _ _ _ Hc) in Hq as [_ Hs]. rewrite Hs. cbn [wrap_err]. orun.
  apply SignItems_hashes in Hs as [Hl _]. apply recoverable_class in Hc.
  revert Hl Hc. generalize (QSD_VoteExtensionSignItems q) (recoverable (Vote_VoteExtensions v)).
  clear. intros items exts. revert items.
  induction exts as [|e exts IH]; intros [|i items] Hl Hc; try done; [cbn; eauto|].
  cbn [forallb] in Hc. bools. destruct (IH items) as [id Hid]; [by injection Hl|done|].
  cbn [identity_bytes]. assert (0 ≤ VE_Type (vei_pb e) ≤ 2)%Z as Ht.
  { unfold class_ok in *. destruct (vei_class e); bools; unfold DEFAULT, THRESHOLD_RECOVER,
      THRESHOLD_RECOVER_RAW in *; lia. }
  unfold SafeConvertUint32. rewrite uwrap_id by (unfold_ints; lia).
  destruct (Z.gtb_spec (VE_Type (vei_pb e)) MaxUint32); [unfold_ints; lia|].
  destruct (Z.ltb_spec (VE_Type (vei_pb e)) 0); [lia|]. cbn [wrap_err]. orun.
  rewrite Hid. orun. eauto.
Qed.

(** What [addVote] returns: the vote is stored, or was stored before, or
    conflicts with a verified vote of the same validator for another block. *)
Definition addVote_result (vs : VoteSet) (v : Vote) (vs' : VoteSet) (added : bool)
    (c : option Vote) : Prop :=
  ∃ i, Vote_ValidatorIndex v = Z.of_nat i ∧
    (added = true → good_vote vs i v ∧ stored vs' i v ∧
       ∃ id, vote_id vs v = Ok id ∧ counted vs i v id vs') ∧
    (added = false → votesByBlock vs' = votesByBlock vs ∧ maj23 vs' = maj23 vs) ∧
    match c with
    | Some e => votes vs !! i = Some (Some e) ∧ good_vote vs i e ∧ good_vote vs i v ∧
                Vote_BlockID e ≠ Vote_BlockID v
    | None => added = true ∨ vs' = vs ∧ ∃ e,
        getVote vs (Z.of_nat i) (Key (Vote_BlockID v)) = Ok (Some e) ∧
        Vote_BlockSignature e = Vote_BlockSignature v
    end.

Section add_vote.
Context (sha_len : ∀ x, length (sha256 x) = 32).

Lemma check_vote_no_panic vs r val b verified :
  valset_ok (valSet vs) → check_vote vs r val b verified ≠ Panic.
Proof using sha_len.
  intros Hv. unfold check_vote. destruct verified as [e|].
  - pose proof (checkMatches_returns sha_len e r (chainID vs) _ _ (Val_PubKey val) (ProTxHash val)
      (ok_quorum _ Hv)) as Hn. by destruct (checkMatches _ _ _ _ _ _ _).
  - pose proof (vote_verify_returns sha_len (ref_vote r) (chainID vs) _ _ (Val_PubKey val)
      (ProTxHash val) b (ok_quorum _ Hv)) as Hn. by destruct (vote_verify _ _ _ _ _ _ _).
Qed.

Lemma getVote_no_panic vs i key :
  vs_inv vs → i < n_vals (valSet vs) → getVote vs (Z.of_nat i) key ≠ Panic ∧
  ∀ e, getVote vs (Z.of_nat i) key ≠ Err e.
Proof.
  intros HI Hi. unfold getVote.
  destruct (lookup_lt_is_Some_2 (votes vs) i) as [o Ho]; [by rewrite (vi_len _ HI)|].
  rewrite (index_Ok _ _ _ Ho). orun.
  assert (∃ o, getByIndex (votesByBlock vs !! key) (Z.of_nat i) = Ok o) as [o' ->].
  { destruct (votesByBlock vs !! key) as [bv|] eqn:Ek; cbn [getByIndex]; [|eauto].
    destruct (lookup_lt_is_Some_2 (bv_votes bv) i) as [o' Ho'].
    { by rewrite (bi_len _ _ _ (vi_bvs _ HI _ _ Ek)). }
    rewrite (index_Ok _ _ _ Ho'). eauto. }
  destruct o; [split_if|]; done.
Qed.

Lemma addVote_spec vs r b verified :
  vs_inv vs → wf_vote (ref_vote r) → minted verified →
  match addVote vs (Some r) b verified with
  | Panic => False
  | Err _ => True
  | Ok (vs', added, c) =>
      vs_inv vs' ∧ extends vs vs' ∧ peerMaj23s vs' = peerMaj23s vs ∧
      addVote_result vs (ref_vote r) vs' added c ∧
      (100 * Z.of_nat (size (votesByBlock vs')) - sum vs' ≤
       100 * Z.of_nat (size (votesByBlock vs)) - sum vs)%Z
  end.
Proof using sha_len.
  intros HI Hwf Hm. set (v := ref_vote r) in *. pose proof (vi_valset _ HI) as HV. cbn [addVote].
  fold v. destruct (Z.ltb_spec (Vote_ValidatorIndex v) 0) as [|Hpos]; [done|].
  split_if; [done|]. split_if; [done|]. bools.
  unfold GetByIndex. destruct (Z.ltb_spec (Vote_ValidatorIndex v) 0); [lia|].
  destruct (Z.leb_spec (Size (valSet vs)) (Vote_ValidatorIndex v)) as [|Hlt]; [done|]. cbn [orb].
  destruct (Z_of_nat_complete _ Hpos) as [i Ei]. rewrite Ei, Nat2Z.id in *.
  destruct (Validators (valSet vs) !! i) as [val|] eqn:Eval; [|done].
  case_bool_decide as Hp; [|done]. cbn [negb].
  assert (i < n_vals (valSet vs)) as Hi by by apply lookup_lt_Some in Eval.
  destruct (getVote_no_panic vs i (Key (Vote_BlockID v)) HI Hi) as [Hn1 Hn2].
  destruct (getVote vs (Z.of_nat i) (Key (Vote_BlockID v))) as [[e|]|e|] eqn:Eg; orun;
    [|  |by destruct (Hn2 e)|done].
  { case_bool_decide; [|done]. split_and!; try done. exists i. split_and!; try done. right. eauto. }
  pose proof (check_vote_no_panic vs r val b verified HV) as Hn3.
  destruct (check_vote vs r val b verified) as [[]| |] eqn:Ec; orun; try done.
  apply check_vote_Ok in Ec; [|done].
  assert (good_vote vs i v) as Hg by (unfold good_vote; eauto 10).
  destruct (vote_id_good vs i v Hg) as [id Hid]. fold (vote_id vs v). rewrite Hid. orun.
  rewrite <- (vi_len _ HI) in Hi. destruct (getVote_None vs i _ Hi Eg) as [He Hf].
  destruct (addVerifiedVote_spec vs i v id HI Hg Hid He Hf)
    as (vs' & added & c & Ea & HI' & Hx & Ep & Hc & Hst & Hns & Hadd & Hsz).
  rewrite (ok_power _ HV val) by (by apply list_elem_of_lookup_2 in Eval). rewrite Ea. orun.
  destruct c as [c|].
  - split_and!; try done. exists i. split_and!; try done; [naive_solver|by apply (vi_votes _ HI)|].
    intros E. apply (He c Hc). by rewrite E.
  - rewrite Hadd by done. split_and!; try done. exists i. split_and!; try done; [|by left].
    intros _. destruct Hst as [? ?]; [by apply Hadd|]. eauto.
Qed.

(** ** [SetPeerMaj23] *)

Lemma set_peers_inv vs m :
  vs_inv vs → vs_inv (set_peerMaj23s vs m) ∧ extends vs (set_peerMaj23s vs m).
Proof.
  intros [IV I1 IL IB IS IG IBV ISN IN IM].
  assert (same_hdr vs (set_peerMaj23s vs m)) as Hh by done.
  split; constructor; try done.
  - intros key bv Hk. eapply bv_inv_hdr; [exact Hh|by apply IBV].
  - intros i v Hi. by exists v.
  - intros key bv Hk. by exists bv.
Qed.

Lemma SetPeerMaj23_spec vs peer blk h r :
  vs_inv vs → size (peerMaj23s vs) ≤ maxPeerMaj23s →
  match SetPeerMaj23 vs peer blk h r with
  | Panic => False
  | Err _ => True
  | Ok vs' => vs_inv vs' ∧ extends vs vs' ∧ votes vs' = votes vs ∧ maj23 vs' = maj23 vs ∧
      sum vs' = sum vs ∧ size (peerMaj23s vs') ≤ maxPeerMaj23s ∧
      size (votesByBlock vs') + size (peerMaj23s vs) ≤ size (votesByBlock vs) + size (peerMaj23s vs') ∧
      (∀ k bvk, votesByBlock vs' !! k = Some bvk → bv_sum bvk = 0%Z ∨
         ∃ bv, votesByBlock vs !! k = Some bv ∧ bv_sum bvk = bv_sum bv ∧
           voteExtensionGroups bvk = voteExtensionGroups bv)
  end.
Proof.
  intros HI Hp. unfold SetPeerMaj23. split_if; [done|].
  destruct (peerMaj23s vs !! peer) as [ex|] eqn:Epe; [split_if; [|done]; split_and!; eauto; done|].
  destruct (Nat.leb_spec maxPeerMaj23s (size (peerMaj23s vs))) as [|Hlt]; [split_and!; eauto; done|].
  set (vs1 := set_peerMaj23s vs _). destruct (set_peers_inv vs (<[peer:=mkMaj23Info blk h r]>
    (peerMaj23s vs)) HI) as [HI1 Hx1]. fold vs1 in HI1, Hx1.
  assert (size (peerMaj23s vs1) = S (size (peerMaj23s vs))) as Es.
  { cbn. by rewrite map_size_insert, Epe. }
  destruct (votesByBlock vs1 !! Key blk) as [bv|] eqn:Ek.
  - split_if.
    { split_and!; try done; cbn [vs1 set_peerMaj23s votesByBlock] in *; [lia|lia|eauto]. }
    set (bv' := mkBlockVotes true _ _ _ _).
    destruct (set_bv_inv vs1 (Key blk) bv' HI1) as [HI2 Hx2].
    + by destruct (vi_bvs _ HI1 _ _ Ek); constructor.
    + intros i v Hi. by eapply (vi_seen _ HI1).
    + intros old Hold. assert (old = bv) as -> by congruence. done.
    + split_and!; try done; [by etrans|cbn [set_votesByBlock peerMaj23s] in *; lia| |].
      * cbn [set_votesByBlock votesByBlock peerMaj23s] in *. rewrite map_size_insert_Some by eauto.
        cbn [vs1 set_peerMaj23s votesByBlock peerMaj23s] in *. lia.
      * intros k bvk. cbn. rewrite lookup_insert. destruct (decide _) as [<-|]; [|eauto].
        intros [= <-]. right. by exists bv.
  - destruct (newBlockVotes_inv vs1 (Key blk) true (vi_valset _ HI1))
      as (bv & -> & Hb & _ & Hs & Hn & _). orun.
    destruct (set_bv_inv vs1 (Key blk) bv HI1 Hb) as [HI2 Hx2].
    + intros j w Hj. by destruct (Hn j w).
    + intros old. by rewrite Ek.
    + split_and!; try done; [by etrans|cbn [set_votesByBlock peerMaj23s] in *; lia| |].
      * cbn [set_votesByBlock votesByBlock peerMaj23s] in *. rewrite map_size_insert_None by done.
        cbn [vs1 set_peerMaj23s votesByBlock peerMaj23s] in *. lia.
      * intros k bvk. cbn. rewrite lookup_insert. destruct (decide _) as [<-|]; [|eauto].
        intros [= <-]. by left.
Qed.

(** ** Reachable vote sets *)

Inductive step (vs : VoteSet) : VoteSet → Prop :=
  | step_vote r b verified vs' added c :
      wf_vote (ref_vote r) → minted verified →
      addVote vs (Some r) b verified = Ok (vs', added, c) → step vs vs'
  | step_peer peer blk h r vs' :
      SetPeerMaj23 vs peer blk h r = Ok vs' → step vs vs'.

(** The number of blocks tracked is bounded by the votes and the claims. *)
Definition bounded (vs : VoteSet) : Prop :=
  size (peerMaj23s vs) ≤ maxPeerMaj23s ∧
  size (votesByBlock vs) ≤ count (votes vs) + size (peerMaj23s vs).

Lemma step_inv vs vs' :
  vs_inv vs → bounded vs → step vs vs' → vs_inv vs' ∧ bounded vs' ∧ extends vs vs'.
Proof using sha_len.
  intros HI [Hp Hb] [r b ve vs1 added c Hwf Hm Ha|peer blk h r vs1 Ha].
  - pose proof (addVote_spec vs r b ve HI Hwf Hm) as Hs. rewrite Ha in Hs.
    destruct Hs as (HI' & Hx & Ep & _ & Hsz). split_and!; try done. split; rewrite Ep; [done|].
    rewrite (vi_sum _ HI), (vi_sum _ HI') in Hsz. lia.
  - pose proof (SetPeerMaj23_spec vs peer blk h r HI Hp) as Hs. rewrite Ha in Hs.
    destruct Hs as (HI' & Hx & Ev & _ & _ & Hp' & Hsz & _). split_and!; try done. split; [done|].
    rewrite Ev. lia.
Qed.

Lemma steps_inv vs vs' :
  vs_inv vs → bounded vs → rtc step vs vs' → vs_inv vs' ∧ bounded vs' ∧ extends vs vs'.
Proof using sha_len.
  intros HI Hb Hs. revert HI Hb. induction Hs as [vs|vs vs1 vs' Hs1 _ IH]; intros HI Hb.
  { split_and!; done. }
  destruct (step_inv _ _ HI Hb Hs1) as (HI1 & Hb1 & Hx1).
  destruct (IH HI1 Hb1) as (HI' & Hb' & Hx'). split_and!; try done. by etrans.
Qed.

End add_vote.

End safe.

End vssafe.
