(* ===== verification/VoteSetLive.v ===== *)
(** * types: blocks are finalised

    Under the law of the threshold scheme the recovery step succeeds as soon as
    a group of equal extensions reaches the threshold, so a vote set finds every
    majority that its votes contain. *)
From Stdlib Require Import ZArith Lia Init.Byte.
From stdpp Require Import base numbers list sets gmap.
From S2P Require Import Prelude.
From S2P Require Import SafeMath.
From S2P Require Import BitArray.
From S2P Require Import PartSet.
From S2P Require Import Types.
From S2P Require Import Crypto.
From S2P Require Import QuorumSign.
From S2P Require Import ValidatorSet.
From S2P Require Import Recoverer.
From S2P Require Import VoteSet.
From S2P Require Import VoteSetInv.
From S2P Require Import VoteSetSeal.
From S2P Require Import VoteSetSafe.

Import types crypto quorum valset recoverer voteset vsinv seal vssafe.

Module vslive.

(** ** Collecting the shares *)

Section collect.
Context `{Crypto} `{MapOrder}.
Context (o : recoverer_opts) (all : list (option Vote)) (L : nat).

(** The votes whose extension signatures are collected. *)
Definition selected (v : Vote) : Prop := Some v ∈ all ∧ skip_vote o v = false.

(** Selected votes can be collected: as many recoverable extensions each, with
    signatures of the right size. *)
Definition collectable (v : Vote) : Prop :=
  length (recoverable (Vote_VoteExtensions v)) = L ∧
  length (Vote_ValidatorProTxHash v) = DefaultHashSize ∧
  (∀ e, e ∈ recoverable (Vote_VoteExtensions v) →
     length (VE_Signature (vei_pb e)) = bls_SignatureSize) ∧
  (Vote_VoteExtensions v ≠ [] → Vote_Type v = PrecommitType ∧ IsNil (Vote_BlockID v) = false).

Context (Hcol : ∀ v, selected v → collectable v).

(** Share [k] of extension [k] comes from a selected vote. *)
Definition share_of (k : nat) (h sig : bytes) : Prop :=
  ∃ v e, selected v ∧ Vote_ValidatorProTxHash v = h ∧
    recoverable (Vote_VoteExtensions v) !! k = Some e ∧ VE_Signature (vei_pb e) = sig.

Definition shares_ok (seen : Vote → Prop) (exts : list ThresholdExt) : Prop :=
  ∀ k te, exts !! k = Some te →
    (∀ h sig, te_sigs te !! h = Some sig → share_of k h sig) ∧
    (∀ v, seen v → is_Some (te_sigs te !! Vote_ValidatorProTxHash v)).

Lemma add_sigs_ok exts recs h :
  length recs = length exts → length h = DefaultHashSize →
  (∀ e, e ∈ recs → length (VE_Signature (vei_pb e)) = bls_SignatureSize) →
  ∃ exts', add_sigs exts recs h = Ok exts' ∧ length exts' = length exts ∧
    ∀ k te, exts' !! k = Some te → ∃ te0 e, exts !! k = Some te0 ∧ recs !! k = Some e ∧
      te_sigs te = <[h := VE_Signature (vei_pb e)]> (te_sigs te0).
Proof.
  revert recs. induction exts as [|te exts IH]; intros [|e recs] Hl Hh Hs; try done.
  { exists []. by split_and!. }
  destruct (IH recs) as (exts' & E & El & Hk);
    [by injection Hl|done|intros e' He'; apply Hs; by constructor|].
  cbn [add_sigs]. unfold AddThresholdSignature. rewrite Hh, (Hs e) by constructor.
  rewrite !Nat.eqb_refl. cbn [negb]. orun. rewrite E. orun.
  eexists. split; [done|]. cbn [length]. split; [by rewrite El|].
  intros [|k] te' Hte; [|by apply Hk]. injection Hte as <-. by exists te, e.
Qed.

(** The extensions collected so far, when the votes [seen] were processed. *)
Definition collecting (seen : Vote → Prop) (s : SignsRecoverer) : Prop :=
  (voteExtensions s = [] ∧ (L = 0 ∨ ∀ v, ¬ seen v)) ∨
  length (voteExtensions s) = L ∧ L ≠ 0 ∧ shares_ok seen (voteExtensions s).

Lemma addVoteExtensionSigs_collects seen s v :
  selected v → collecting seen s →
  ∃ s', addVoteExtensionSigs o s v = Ok s' ∧ blockSigs s' = blockSigs s ∧
    validatorProTxHashes s' = validatorProTxHashes s ∧
    collecting (λ w, seen w ∨ w = v) s'.
Proof using Hcol.
  intros Hsel Hc. destruct (Hcol v Hsel) as (Hl & Hh & Hs & Hp). pose proof Hsel as [_ Hsk].
  unfold addVoteExtensionSigs. rewrite Hsk.
  assert (L = 0 → voteExtensions s = []) as HL0 by (intros ->; destruct Hc as [[? _]|(_ & ? & _)]; done).
  destruct (Nat.eqb_spec (length (Vote_VoteExtensions v)) 0) as [E0|E0].
  { apply nil_length_inv in E0. rewrite E0 in Hl. cbn in Hl. exists s. split_and!; try done.
    left. split; [by apply HL0|by left]. }
  destruct Hp as [-> ->]; [by intros E; rewrite E in E0|]. rewrite Z.eqb_refl. cbn [negb orb].
  rewrite Hl. destruct (Nat.eqb_spec L 0) as [EL|EL].
  { exists s. split_and!; try done. left. split; [by apply HL0|by left]. }
  set (exts := if _ =? 0 then _ else _).
  assert (length exts = L ∧ shares_ok seen exts) as [Hel Hok].
  { unfold exts. destruct Hc as [[-> Hn]|(Hlen & _ & Hok)].
    - cbn [length Nat.eqb]. rewrite length_map. split; [done|].
      intros k te Hk. rewrite list_lookup_fmap in Hk.
      destruct (recoverable (Vote_VoteExtensions v) !! k); [|done]. injection Hk as <-.
      split; [intros h sig; cbn; by rewrite lookup_empty|].
      destruct Hn as [?|Hn]; [done|]. intros w Hw. by destruct (Hn w).
    - destruct (Nat.eqb_spec (length (voteExtensions s)) 0); [lia|]. done. }
  rewrite Hel, Nat.eqb_refl. cbn [negb].
  destruct (add_sigs_ok exts (recoverable (Vote_VoteExtensions v)) (Vote_ValidatorProTxHash v))
    as (exts' & -> & El' & Hk'); [by rewrite Hl, Hel|done|done|].
  orun. eexists. split; [done|]. cbn [blockSigs validatorProTxHashes]. split_and!; try done.
  right. cbn [voteExtensions]. split_and!; [congruence|done|].
  intros k te Hte. destruct (Hk' k te Hte) as (te0 & e & Hte0 & He & ->).
  destruct (Hok k te0 Hte0) as [Ho1 Ho2]. split.
  - intros h sig. rewrite lookup_insert. destruct (decide _) as [<-|]; [|apply Ho1].
    intros [= <-]. by exists v, e.
  - intros w [Hw| ->].
    + rewrite lookup_insert. destruct (decide _); [done|by apply Ho2].
    + by rewrite lookup_insert_eq.
Qed.

Lemma collecting_weaken (seen seen' : Vote → Prop) s :
  (∀ v, seen' v → seen v) → collecting seen s → collecting seen' s.
Proof.
  intros Hw [[? Hn]|(? & ? & Hok)]; [left|right].
  - split; [done|]. destruct Hn as [?|Hn]; [by left|right]. intros v Hv. by apply (Hn v), Hw.
  - split_and!; try done. intros k te Hte. destruct (Hok k te Hte) as [Ho1 Ho2]. split; [done|].
    intros v Hv. by apply Ho2, Hw.
Qed.

Lemma add_votes_collects seen s votes :
  (∀ v, Some v ∈ votes → Some v ∈ all) → collecting seen s →
  ∃ s', add_votes o s votes = Ok s' ∧
    blockSigs s' = blockSigs s ++ map Vote_BlockSignature (omap id votes) ∧
    validatorProTxHashes s' = validatorProTxHashes s ++ map Vote_ValidatorProTxHash (omap id votes) ∧
    collecting (λ w, seen w ∨ Some w ∈ votes ∧ skip_vote o w = false) s'.
Proof using Hcol.
  revert seen s. induction votes as [|[v|] votes IH]; intros seen s Hin Hc; cbn [add_votes addVoteSigs].
  - exists s. rewrite !app_nil_r. split_and!; try done. eapply collecting_weaken; [|done].
    cbn. intros v [?|[?%elem_of_nil _]]; done.
  - set (s0 := mkSR _ _ _). assert (∀ w, Some w ∈ votes → Some w ∈ all) as Hin'.
    { intros w Hw. apply Hin. by constructor. }
    assert (∃ s1, addVoteExtensionSigs o s0 v = Ok s1 ∧ blockSigs s1 = blockSigs s0 ∧
      validatorProTxHashes s1 = validatorProTxHashes s0 ∧
      collecting (λ w, seen w ∨ w = v ∧ skip_vote o w = false) s1) as (s1 & -> & E1 & E2 & Hc1).
    { destruct (skip_vote o v) eqn:Esk.
      - exists s0. unfold addVoteExtensionSigs. rewrite Esk. split_and!; try done.
        eapply collecting_weaken; [|exact Hc]. cbn. intros w [?|[-> ?]]; [done|congruence].
      - destruct (addVoteExtensionSigs_collects seen s0 v) as (s1 & -> & E1 & E2 & Hc1);
          [split; [apply Hin; by constructor|done]|exact Hc|].
        exists s1. split_and!; try done. eapply collecting_weaken; [|exact Hc1]. cbn. tauto. }
    orun. destruct (IH _ s1 Hin' Hc1) as (s' & -> & E3 & E4 & Hc').
    exists s'. rewrite E3, E4, E1, E2. cbn [s0 blockSigs validatorProTxHashes omap list_omap id map].
    rewrite <- !app_assoc. split_and!; try done. eapply collecting_weaken; [|exact Hc'].
    cbn. intros w [?|[[[= ->]|?]%elem_of_cons ?]]; tauto.
  - orun. destruct (IH seen s) as (s' & -> & E1 & E2 & Hc'); [intros v Hv; apply Hin; by constructor|done|].
    exists s'. split_and!; try done. eapply collecting_weaken; [|exact Hc'].
    cbn. intros w [?|[[[=]|?]%elem_of_cons ?]]; tauto.
Qed.

End collect.

(** ** The law of the threshold scheme *)

Section live.
Context `{Crypto} `{Dashd} `{MapOrder}.

(** The share verifies for a validator of the set with this id. *)
Definition valid_share (vals : ValidatorSet) (digest id : bytes) (g : G2Element) : Prop :=
  ∃ v pk gp, v ∈ Validators vals ∧ ProTxHash v = id ∧ Val_PubKey v = Some pk ∧
    G1ElementFromBytes (pk_bytes pk) = Some gp ∧ schema_Verify gp digest g = true.

(** What a distributed key generation gives a quorum: any [threshold] valid
    shares of different members recover a signature under the threshold public
    key.  Valid signatures serialise to 96 bytes and back. *)
Record threshold_law (vals : ValidatorSet) (tpk : PubKey) : Prop := {
  tl_serialize : ∀ gp digest g, length digest = 32 → schema_Verify gp digest g = true →
    length (G2_Serialize g) = bls_SignatureSize ∧ G2ElementFromBytes (G2_Serialize g) = Some g;
  tl_keys : ∀ v pk, v ∈ Validators vals → Val_PubKey v = Some pk → pk_type pk = BLS12381;
  tl_tpk : ThresholdPublicKey vals = Some tpk ∧ pk_type tpk = BLS12381;
  tl_two : (100 < QuorumTypeThresholdVotingPower vals)%Z;
  tl_recover : ∀ digest ids gs, length digest = 32 → NoDup ids → Forall2 (valid_share vals digest) ids gs →
    (QuorumTypeThresholdVotingPower vals ≤ 100 * Z.of_nat (length ids))%Z →
    ∃ g gt, ThresholdSignatureRecover gs (map (@rev byte) ids) = Some g ∧
      G1ElementFromBytes (pk_bytes tpk) = Some gt ∧ schema_Verify gt digest g = true }.

(** The bytes verify for the validator with this id. *)
Definition valid_bytes (vals : ValidatorSet) (digest id sig : bytes) : Prop :=
  ∃ v pk, v ∈ Validators vals ∧ ProTxHash v = id ∧ Val_PubKey v = Some pk ∧
    VerifySignatureDigest pk digest sig = true.

Section with_law.
Context (vals : ValidatorSet) (tpk : PubKey) (law : threshold_law vals tpk).
Context (Hlen : ∀ v, v ∈ Validators vals → length (ProTxHash v) = 32).

Lemma valid_bytes_share digest id sig :
  valid_bytes vals digest id sig →
  length sig = bls_SignatureSize ∧ length id = 32 ∧
  ∃ g, G2ElementFromBytes sig = Some g ∧ valid_share vals digest id g.
Proof using law Hlen.
  intros (v & pk & Hv & <- & Hpk & Hs). unfold VerifySignatureDigest in Hs.
  rewrite (tl_keys _ _ law v pk Hv Hpk) in Hs. unfold bls_VerifySignatureDigest in Hs.
  destruct (length sig =? 0); [done|].
  destruct (Nat.eqb_spec (length sig) bls_SignatureSize) as [El|]; [|done]. cbn [negb] in Hs.
  destruct (G1ElementFromBytes (pk_bytes pk)) as [gp|] eqn:Eg; [|done].
  destruct (G2ElementFromBytes sig) as [g|]; [|done]. split_and!; [done|auto|].
  exists g. split; [done|]. by exists v, pk, gp.
Qed.

Lemma valid_bytes_shares digest ids sigs :
  Forall2 (valid_bytes vals digest) ids sigs →
  (∀ id, id ∈ ids → length id = 32) ∧
  ∃ gs, mapM G2ElementFromBytes sigs = Some gs ∧ Forall2 (valid_share vals digest) ids gs.
Proof using law Hlen.
  induction 1 as [|id sig ids sigs Hv _ (Hl & gs & Eg & Hf)].
  { split; [by intros id ?%elem_of_nil|]. by exists []. }
  destruct (valid_bytes_share _ _ _ Hv) as (_ & Hid & g & Es & Hg). split.
  - intros id' [->|?]%elem_of_cons; auto.
  - exists (g :: gs). cbn. rewrite Es. cbn. rewrite Eg. split; [done|by constructor].
Qed.

(** Enough valid shares recover a valid threshold signature. *)
Lemma recover_shares digest ids sigs :
  length digest = 32 → NoDup ids → Forall2 (valid_bytes vals digest) ids sigs →
  (QuorumTypeThresholdVotingPower vals ≤ 100 * Z.of_nat (length ids))%Z →
  ∃ sig, RecoverThresholdSignatureFromShares sigs ids = Ok sig ∧
    VerifySignatureDigest tpk digest sig = true.
Proof using law Hlen.
  intros Hd Hn Hf Ht. pose proof (Forall2_length _ _ _ Hf) as Hl. pose proof (tl_two _ _ law) as H2.
  destruct (valid_bytes_shares _ _ _ Hf) as (Hid & gs & Eg & Hg).
  destruct (tl_recover _ _ law digest ids gs Hd Hn Hg Ht) as (g & gt & Er & Et & Hv).
  destruct (tl_serialize _ _ law gt digest g Hd Hv) as [Sl Sg]. exists (G2_Serialize g).
  unfold RecoverThresholdSignatureFromShares. rewrite Hl, Nat.eqb_refl. cbn [negb].
  destruct sigs as [|s1 [|s2 sigs]]; cbn [length] in Hl; [lia|lia|]. rewrite Eg.
  unfold bls_ids. assert (forallb (λ id, length id =? DefaultHashSize) ids = true) as ->.
  { apply forallb_forall. intros id Hin. apply Nat.eqb_eq, Hid. by apply list_elem_of_In. }
  orun. rewrite (map_ext Reverse (@rev byte)) by apply Reverse_rev. rewrite Er. split; [done|].
  unfold VerifySignatureDigest, bls_VerifySignatureDigest.
  destruct (tl_tpk _ _ law) as [_ ->]. rewrite Sl, Et, Sg. done.
Qed.

End with_law.

(** ** Recovery succeeds *)

Lemma NoDup_filled (l : list (option Vote)) :
  (∀ i j v w, l !! i = Some (Some v) → l !! j = Some (Some w) →
     Vote_ValidatorProTxHash v = Vote_ValidatorProTxHash w → i = j) →
  NoDup (map Vote_ValidatorProTxHash (omap id l)).
Proof.
  induction l as [|[v|] l IH]; intros Hd; cbn.
  - constructor.
  - constructor.
    + intros (w & Ew & (o & Ho & Eo)%list_elem_of_omap)%list_elem_of_fmap. destruct o; [|done].
      injection Eo as ->. apply list_elem_of_lookup in Ho as [j Hj].
      by pose proof (Hd 0 (S j) v w eq_refl Hj Ew).
    + apply IH. intros i j v1 w1 Hi Hj E. by injection (Hd (S i) (S j) v1 w1 Hi Hj E).
  - apply IH. intros i j v1 w1 Hi Hj E. by injection (Hd (S i) (S j) v1 w1 Hi Hj E).
Qed.

Lemma length_filled {A} (l : list (option A)) : length (omap id l) = count l.
Proof. induction l as [|[x|] l IH]; cbn; [done| |]; rewrite ?IH; done. Qed.

Section recovers.
Context (vs : VoteSet) (b : BlockID) (bv : blockVotes) (tpk : PubKey).
Context (Hv : valset_ok (valSet vs)) (Hb : bv_inv vs (Key b) bv) (Hw : wf_BlockID b).
Context (Hmaj : maj23 vs = Some b) (Hty : signedMsgType vs = PrecommitType).
Context (law : threshold_law (valSet vs) tpk).

(** The signatures of a vote are valid for what the vote signs. *)
Lemma vote_shares i v q :
  bv_votes bv !! i = Some (Some v) →
  MakeQuorumSigns (chainID vs) (QuorumType (valSet vs)) (QuorumHash (valSet vs))
    (Vote_ToProto v) = Ok q →
  valid_bytes (valSet vs) (SI_SignHash (QSD_Block q)) (Vote_ValidatorProTxHash v)
    (Vote_BlockSignature v) ∧
  Forall2 (λ item e, valid_bytes (valSet vs) (SI_SignHash item) (Vote_ValidatorProTxHash v)
             (VE_Signature (vei_pb e)))
    (QSD_VoteExtensionSignItems q) (recoverable (Vote_VoteExtensions v)).
Proof using Hb.
  intros Hi Hq. destruct (bi_votes _ _ _ Hb i v Hi) as (Gv & _).
  destruct (good_vote_parts vs i v Gv) as (val & pk & q' & Hval & Hpk & _ & Hq' & Ha).
  assert (q' = q) as -> by congruence. destruct Gv as (_ & _ & _ & _ & _ & val' & Hval' & Eh & _).
  assert (val' = val) as -> by congruence. apply list_elem_of_lookup_2 in Hval.
  apply Forall2_cons in Ha as [Hblk Hext]. split; [by exists val, pk|].
  unfold GetSignatures in Hext. apply Forall2_fmap_1 in Hext. eapply Forall2_impl; [exact Hext|].
  intros item e He. by exists val, pk.
Qed.

(** All votes for a block sign the same digest. *)
Lemma same_block_digest i j v w q q' :
  bv_votes bv !! i = Some (Some v) → bv_votes bv !! j = Some (Some w) →
  MakeQuorumSigns (chainID vs) (QuorumType (valSet vs)) (QuorumHash (valSet vs))
    (Vote_ToProto v) = Ok q →
  MakeQuorumSigns (chainID vs) (QuorumType (valSet vs)) (QuorumHash (valSet vs))
    (Vote_ToProto w) = Ok q' → QSD_Block q' = QSD_Block q.
Proof using Hb Hw.
  intros Hi Hj Hq Hq'.
  pose proof (bv_vote_block vs b bv Hb Hw i v Hi) as Ev.
  pose proof (bv_vote_block vs b bv Hb Hw j w Hj) as Ew.
  destruct (bi_votes _ _ _ Hb i v Hi) as (((_ & Cv) & _ & Ev1 & Ev2 & Ev3 & _) & _).
  destruct (bi_votes _ _ _ Hb j w Hj) as (((_ & Cw) & _ & Ew1 & Ew2 & Ew3 & _) & _).
  apply (MakeQuorumSigns_Ok _ _ _ _ _ Cv) in Hq as [(bi & Hbi & <-) _].
  apply (MakeQuorumSigns_Ok _ _ _ _ _ Cw) in Hq' as [(bj & Hbj & <-) _].
  rewrite Ev, Ev1, Ev2, Ev3 in Hbi. rewrite Ew, Ew1, Ew2, Ew3 in Hbj. congruence.
Qed.

Lemma vote_q i v :
  bv_votes bv !! i = Some (Some v) → ∃ q,
    MakeQuorumSigns (chainID vs) (QuorumType (valSet vs)) (QuorumHash (valSet vs))
      (Vote_ToProto v) = Ok q.
Proof using Hb.
  intros Hi. destruct (bi_votes _ _ _ Hb i v Hi) as (Gv & _).
  destruct (good_vote_parts vs i v Gv) as (_ & _ & q & _ & _ & _ & Hq & _). eauto.
Qed.

(** Votes of one group sign the same digests. *)
Lemma same_ext_digests i j v w id q q' :
  bv_votes bv !! i = Some (Some v) → bv_votes bv !! j = Some (Some w) →
  vote_id vs v = Ok id → vote_id vs w = Ok id →
  MakeQuorumSigns (chainID vs) (QuorumType (valSet vs)) (QuorumHash (valSet vs))
    (Vote_ToProto v) = Ok q →
  MakeQuorumSigns (chainID vs) (QuorumType (valSet vs)) (QuorumHash (valSet vs))
    (Vote_ToProto w) = Ok q' →
  map SI_SignHash (QSD_VoteExtensionSignItems q') = map SI_SignHash (QSD_VoteExtensionSignItems q).
Proof using Hb Hty.
  intros Hi Hj Hidv Hidw Hq Hq'.
  destruct (bi_votes _ _ _ Hb i v Hi) as (((_ & Cv) & _) & _).
  destruct (bi_votes _ _ _ Hb j w Hj) as (((_ & Cw) & _) & _).
  apply (vote_id_Ok vs Hty) in Hidv as (iv & Sv & Iv).
  apply (vote_id_Ok vs Hty) in Hidw as (iw & Sw & Iw).
  apply (MakeQuorumSigns_Ok _ _ _ _ _ Cv) in Hq as [_ Sq].
  apply (MakeQuorumSigns_Ok _ _ _ _ _ Cw) in Hq' as [_ Sq'].
  assert (QSD_VoteExtensionSignItems q = iv) as -> by congruence.
  assert (QSD_VoteExtensionSignItems q' = iw) as -> by congruence.
  eapply identity_inj; [by eapply SignItems_hashes..|exact Iw|exact Iv].
Qed.

Lemma block_recovers q i v :
  bv_votes bv !! i = Some (Some v) →
  MakeQuorumSigns (chainID vs) (QuorumType (valSet vs)) (QuorumHash (valSet vs))
    (Vote_ToProto v) = Ok q →
  (QuorumTypeThresholdVotingPower (valSet vs) ≤ 100 * Z.of_nat (count (bv_votes bv)))%Z →
  ∃ sig, RecoverThresholdSignatureFromShares (map Vote_BlockSignature (omap id (bv_votes bv)))
      (map Vote_ValidatorProTxHash (omap id (bv_votes bv))) = Ok sig ∧
    VerifySignatureDigest tpk (SI_SignHash (QSD_Block q)) sig = true.
Proof using Hv Hb Hw law.
  intros Hi Hq Ht. eapply (recover_shares (valSet vs) tpk law (ok_hash_len _ Hv)).
  - destruct (bi_votes _ _ _ Hb i v Hi) as (((_ & Cv) & _) & _).
    by apply (MakeQuorumSigns_digests _ _ _ _ _ Cv Hq).
  - apply NoDup_filled. intros j k w w' Hj Hk E.
    destruct (bi_votes _ _ _ Hb j w Hj) as (Gw & _).
    destruct (bi_votes _ _ _ Hb k w' Hk) as (Gw' & _). by eapply good_vote_index.
  - apply Forall2_fmap_2, Forall_Forall2_diag, Forall_forall.
    intros w (o & (j & Hj)%list_elem_of_lookup & Eo)%list_elem_of_omap. destruct o; [|done].
    injection Eo as ->. destruct (vote_q j w Hj) as [qw Hqw].
    rewrite <- (same_block_digest i j v w q qw Hi Hj Hq Hqw).
    by apply (vote_shares j w qw).
  - by rewrite length_map, length_filled.
Qed.

(** The canonical group: its identity, its members and a member. *)
Section group.
Context (gid : bytes) (g : voteExtensionGroup) (i : nat) (cv : Vote) (q : QuorumSignData).
Context (Hg : voteExtensionGroups bv !! gid = Some g).
Context (Ht : (QuorumTypeThresholdVotingPower (valSet vs) ≤ group_power g)%Z).
Context (Hi : bv_votes bv !! i = Some (Some cv)) (Hid : vote_id vs cv = Ok gid).
Context (Hq : MakeQuorumSigns (chainID vs) (QuorumType (valSet vs)) (QuorumHash (valSet vs))
  (Vote_ToProto cv) = Ok q).

Definition group_opts : recoverer_opts := mkOpts (IsQuorumReached vs) (Some (voters g)) None.

Lemma selected_voter v :
  selected group_opts (bv_votes bv) v →
  ∃ j, bv_votes bv !! j = Some (Some v) ∧ vote_id vs v = Ok gid.
Proof using Hv Hb Hg.
  intros [(j & Hj)%list_elem_of_lookup Hs]. exists j. split; [done|].
  eapply voter_vote; eauto. cbn in Hs. by apply bool_decide_eq_false_1, dec_stable in Hs.
Qed.

(** Each share of extension [k] is valid for digest [k] of the group. *)
Lemma voter_shares v :
  selected group_opts (bv_votes bv) v →
  Forall2 (λ h e, valid_bytes (valSet vs) h (Vote_ValidatorProTxHash v) (VE_Signature (vei_pb e)))
    (map SI_SignHash (QSD_VoteExtensionSignItems q)) (recoverable (Vote_VoteExtensions v)).
Proof using Hv Hb Hty Hg Hi Hid Hq.
  intros (j & Hj & Hidv)%selected_voter. destruct (vote_q j v Hj) as [qv Hqv].
  destruct (vote_shares j v qv Hj Hqv) as [_ Hf].
  rewrite <- (same_ext_digests i j cv v gid q qv Hi Hj Hid Hidv Hq Hqv).
  by apply Forall2_fmap_l.
Qed.

Lemma voter_collectable v :
  selected group_opts (bv_votes bv) v →
  collectable (length (QSD_VoteExtensionSignItems q)) v.
Proof using Hv Hb Hty Hg Hi Hid Hq law.
  intros Hs. pose proof (voter_shares v Hs) as Hf.
  destruct (selected_voter v Hs) as (j & Hj & _).
  destruct (bi_votes _ _ _ Hb j v Hj) as (((Hvb & _) & _ & _ & _ & Et & val & Hval & Eh & _) & _).
  split_and!.
  - apply Forall2_length in Hf. by rewrite length_map in Hf.
  - rewrite Eh. apply (ok_hash_len _ Hv). by apply list_elem_of_lookup_2 in Hval.
  - intros e (k & Hk)%list_elem_of_lookup.
    destruct (Forall2_lookup_r _ _ _ _ _ Hf Hk) as (h & _ & Hvb').
    by apply (valid_bytes_share (valSet vs) tpk law (ok_hash_len _ Hv)) in Hvb' as [? _].
  - intros Hne. split; [congruence|]. unfold Vote_ValidateBasic in Hvb.
    rewrite Et, Hty in Hvb. destruct (IsNil (Vote_BlockID v)); [|done]. exfalso.
    destruct (Vote_VoteExtensions v); [done|]. cbn in Hvb. ok_inv.
Qed.

Lemma voters_enough te seen :
  (∀ v, Some v ∈ bv_votes bv → skip_vote group_opts v = false → seen v) →
  (∀ v, seen v → is_Some (te_sigs te !! Vote_ValidatorProTxHash v)) →
  (QuorumTypeThresholdVotingPower (valSet vs) ≤ 100 * Z.of_nat (size (te_sigs te)))%Z.
Proof using Hb Hg Ht.
  intros Hall Hseen. destruct (bi_groups _ _ _ Hb gid g Hg) as (Hp & Hvs & _).
  rewrite Hp in Ht. etrans; [exact Ht|]. rewrite <- size_dom.
  apply Z.mul_le_mono_nonneg_l; [lia|]. apply inj_le. apply subseteq_size.
  intros h Hh. destruct (Hvs h Hh) as (j & v & Hj & _ & <-). apply elem_of_dom, Hseen, Hall.
  - by apply list_elem_of_lookup_2 in Hj.
  - cbn. apply bool_decide_eq_false_2. by intros Hn.
Qed.

Lemma ext_recovers k te h :
  (∀ id sig, te_sigs te !! id = Some sig → share_of group_opts (bv_votes bv) k id sig) →
  (QuorumTypeThresholdVotingPower (valSet vs) ≤ 100 * Z.of_nat (size (te_sigs te)))%Z →
  map SI_SignHash (QSD_VoteExtensionSignItems q) !! k = Some h →
  ∃ sig, ThresholdRecover te = Ok sig ∧ VerifySignatureDigest tpk h sig = true.
Proof using Hv Hb Hty Hg Hi Hid Hq law.
  intros Hsh Hen Hk. unfold ThresholdRecover. rewrite length_map.
  assert (length (range (map_to_list (te_sigs te))) = size (te_sigs te)) as Hl.
  { by rewrite range_perm, length_map_to_list. }
  pose proof (tl_two _ _ law). rewrite Hl. destruct (Nat.ltb_spec 0 (size (te_sigs te))); [|lia].
  destruct (recover_shares (valSet vs) tpk law (ok_hash_len _ Hv) h
    (map fst (range (map_to_list (te_sigs te)))) (map snd (range (map_to_list (te_sigs te)))))
    as (sig & -> & Hs).
  - destruct (bi_votes _ _ _ Hb i cv Hi) as (((_ & Cv) & _) & _).
    destruct (MakeQuorumSigns_digests _ _ _ _ _ Cv Hq) as [_ Hd].
    by apply (Forall_lookup_1 _ _ _ _ Hd Hk).
  - change (map fst ?l) with (fst <$> l). rewrite range_perm. apply NoDup_fst_map_to_list.
  - apply Forall2_fmap_2, Forall_Forall2_diag, Forall_forall. intros [id s] Hin.
    rewrite range_perm in Hin. apply elem_of_map_to_list in Hin.
    destruct (Hsh id s Hin) as (v & e & Hsel & <- & He & <-). cbn.
    pose proof (voter_shares v Hsel) as Hf.
    destruct (Forall2_lookup_r _ _ _ _ _ Hf He) as (h' & Hh' & ?). by simplify_eq.
  - by rewrite length_map, Hl.
  - cbn [wrap_err]. by exists sig.
Qed.

Lemma recover_exts_ok exts hashes :
  length exts = length hashes →
  (∀ k te h, exts !! k = Some te → hashes !! k = Some h →
     ∃ sig, ThresholdRecover te = Ok sig ∧ VerifySignatureDigest tpk h sig = true) →
  ∃ sigs, recover_exts exts = Ok sigs ∧ all_valid tpk hashes sigs.
Proof.
  revert hashes. induction exts as [|te exts IH]; intros [|h hashes] Hl Hk; try done.
  { exists []. split; [done|constructor]. }
  destruct (Hk 0 te h) as (sig & Er & Hs); [done..|].
  destruct (IH hashes) as (sigs & Es & Ha); [by injection Hl|intros k; apply (Hk (S k))|].
  cbn [recover_exts]. rewrite Er. orun. rewrite Es. orun.
  eexists. split; [done|]. by constructor.
Qed.

(** The group has at most as many members as the block has votes. *)
Lemma voters_count : size (voters g) ≤ count (bv_votes bv).
Proof using Hv Hb Hg.
  rewrite <- length_filled, <- (length_map Vote_ValidatorProTxHash).
  rewrite <- (size_list_to_set (C:=gset bytes)).
  - apply subseteq_size. intros h Hh. destruct (bi_groups _ _ _ Hb gid g Hg) as (_ & Hvs & _).
    destruct (Hvs h Hh) as (j & v & Hj & _ & <-). apply elem_of_list_to_set, list_elem_of_fmap_2.
    apply list_elem_of_omap. exists (Some v). split; [by apply list_elem_of_lookup_2 in Hj|done].
  - apply NoDup_filled. intros j k w w' Hj Hk E.
    destruct (bi_votes _ _ _ Hb j w Hj) as (Gw & _).
    destruct (bi_votes _ _ _ Hb k w' Hk) as (Gw' & _). by eapply good_vote_index.
Qed.

Lemma group_exts_recover s :
  skip_vote group_opts cv = false →
  collecting group_opts (bv_votes bv) (length (QSD_VoteExtensionSignItems q))
    (λ w, False ∨ Some w ∈ bv_votes bv ∧ skip_vote group_opts w = false) s →
  ∃ sigs, recoverVoteExtensionSigs group_opts s = Ok sigs ∧
    length sigs = length (voteExtensions s) ∧
    all_valid tpk (map SI_SignHash (QSD_VoteExtensionSignItems q)) sigs.
Proof using Hv Hb Hw Hmaj Hty Hg Ht Hi Hid Hq law.
  intros Hsk Hc. assert (selected group_opts (bv_votes bv) cv) as Hsel.
  { split; [by apply list_elem_of_lookup_2 in Hi|done]. }
  pose proof (voter_collectable cv Hsel) as (Hl & _). unfold recoverVoteExtensionSigs.
  destruct Hc as [[Ee Hn]|(El & HL & Hok)].
  - assert (length (QSD_VoteExtensionSignItems q) = 0) as Hz.
    { destruct Hn as [?|Hn]; [done|]. destruct (Hn cv). right. split; [apply Hsel|done]. }
    apply nil_length_inv in Hz. rewrite Ee, Hz. exists [].
    split_and!; [by split_if|done|constructor].
  - assert (opt_quorumReached group_opts = true) as ->.
    { cbn. destruct (IsQuorumReached vs) eqn:Eq; [done|].
      rewrite (nil_no_exts vs b bv Hb Hw Hmaj i cv Eq Hi) in Hl. by destruct HL. }
    cbn [negb]. destruct (recover_exts_ok (voteExtensions s)
      (map SI_SignHash (QSD_VoteExtensionSignItems q))) as (sigs & Er & Ha).
    + by rewrite length_map.
    + intros k te h Hte Hh. destruct (Hok k te Hte) as [Ho1 Ho2]. eapply ext_recovers; eauto.
      eapply voters_enough; [|exact Ho2]. intros w ? ?. by right.
    + exists sigs. split_and!; [done|by apply recover_exts_length in Er|done].
Qed.

Lemma group_verifies :
  (∃ j, bv_votes bv !! j = Some (Some (representative g)) ∧ representative g = cv) →
  canonicalVoteExtensionGroup vs bv = Some (representative g, voters g) →
  2 ≤ length (bv_votes bv) → ∃ vs', recoverThresholdSignsAndVerify vs bv = Ok vs'.
Proof using Hv Hb Hw Hmaj Hty Hg Ht Hi Hid Hq law.
  intros (j & Hj & Ecv) Hcan Hn.
  assert (skip_vote group_opts cv = false) as Hsk.
  { cbn. apply bool_decide_eq_false_2. intros Hx. apply Hx.
    destruct (bi_votes _ _ _ Hb i cv Hi) as (_ & _ & id' & g' & Hid' & Hg' & ?).
    assert (id' = gid) as -> by congruence. by assert (g' = g) as -> by congruence. }
  destruct (add_votes_collects group_opts (bv_votes bv) (length (QSD_VoteExtensionSignItems q))
    voter_collectable (λ _, False) (mkSR [] [] []) (bv_votes bv)) as (s & Es & Eb & Eh & Hc).
  { done. } { left. split; [done|]. right. by intros v []. }
  cbn [blockSigs validatorProTxHashes app] in Eb, Eh.
  destruct (block_recovers q i cv Hi Hq) as (sig & Er & Hs).
  { destruct (bi_groups _ _ _ Hb gid g Hg) as (Hp & _). pose proof voters_count. lia. }
  destruct (group_exts_recover s Hsk Hc) as (sigs & Ee & El & Ha).
  destruct (GetVoteExtensions s (mkQS sig sigs)) as [exts|e|] eqn:Egv;
    [|by unfold GetVoteExtensions in Egv; destruct (negb _)|
      unfold GetVoteExtensions in Egv; cbn in Egv; by rewrite El, Nat.eqb_refl in Egv].
  apply GetVoteExtensions_Ok in Egv as Egs. destruct Egs as [Egs _]. cbn in Egs.
  unfold recoverThresholdSignsAndVerify.
  destruct (bv_votes bv) as [|o1 [|o2 l]] eqn:El'; [cbn in Hn; lia..|].
  unfold recoverThresholdSigns. rewrite El'. cbn [length Nat.ltb Nat.leb].
  rewrite Hcan. unfold NewSignsRecoverer. fold group_opts. rewrite Es. cbn [wrap_err]. orun. unfold Recover, recoverBlockSig. rewrite Eb, Eh, Er.
  cbn [wrap_err]. orun. rewrite Ee. orun. cbn [wrap_err]. orun. rewrite Egv. cbn [wrap_err]. orun.
  cbn [set_maj23 chainID valSet]. rewrite Ecv, Hq. cbn [wrap_err]. orun.
  destruct (tl_tpk _ _ law) as [-> _].
  rewrite (proj2 (qsd_verify_spec q tpk _)); [cbn [wrap_err]; orun; eauto|].
  unfold vs_makeQuorumSigns. cbn [set_maj23 thresholdBlockSig thresholdVoteExtSigs QS_BlockSign
    signedContent fst snd QS_VoteExtensionSignatures]. rewrite Egs. by constructor.
Qed.

End group.

(** A group at the threshold is enough. *)
Lemma recover_succeeds gid g :
  voteExtensionGroups bv !! gid = Some g →
  (QuorumTypeThresholdVotingPower (valSet vs) ≤ group_power g)%Z →
  2 ≤ length (bv_votes bv) → ∃ vs', recoverThresholdSignsAndVerify vs bv = Ok vs'.
Proof using Hv Hb Hw Hmaj Hty law.
  intros Hg Ht Hn. pose proof (canonical_spec vs bv) as Hc. cbn zeta in Hc.
  destruct (canonicalVoteExtensionGroup vs bv) as [[rep vt]|] eqn:Ec;
    [|specialize (Hc gid g Hg); lia].
  destruct Hc as (id & g' & Hg' & Ht' & -> & -> & _).
  destruct (bi_groups _ _ _ Hb id g' Hg') as (_ & _ & i & Hi & Hid).
  destruct (vote_q i _ Hi) as [q Hq]. eapply group_verifies; eauto.
Qed.

End recovers.

(** ** No majority is missed *)

(** Without a majority, the blocks at the quorum are precommits of which no group
    has reached the recovery threshold. *)
Definition vs_live (vs : VoteSet) : Prop :=
  maj23 vs = None → ∀ key bv, votesByBlock vs !! key = Some bv →
    (quorum_power (valSet vs) ≤ bv_sum bv)%Z →
    signedMsgType vs = PrecommitType ∧
    ∀ id g, voteExtensionGroups bv !! id = Some g →
      (group_power g < QuorumTypeThresholdVotingPower (valSet vs))%Z.

(** Sets of two or more validators have a threshold key. *)
Definition lawful (vals : ValidatorSet) : Prop :=
  2 ≤ n_vals vals → ∃ tpk, threshold_law vals tpk.

Lemma failed_recovery vs key bv b i v e :
  vs_inv vs → lawful (valSet vs) → bv_inv vs (Key b) bv → wf_BlockID b →
  signedMsgType vs = PrecommitType → bv_votes bv !! i = Some (Some v) →
  recoverThresholdSignsAndVerify (tentative vs key bv b) bv = Err e →
  ∀ id g, voteExtensionGroups bv !! id = Some g →
    (group_power g < QuorumTypeThresholdVotingPower (valSet vs))%Z.
Proof.
  intros HI Hlaw Hb Hw Ht Hi He id g Hg. pose proof (bi_len _ _ _ Hb) as Hl.
  destruct (Z.lt_ge_cases (group_power g) (QuorumTypeThresholdVotingPower (valSet vs)))
    as [?|Hge]; [done|]. exfalso. pose proof (lookup_lt_Some _ _ _ Hi) as Hn.
  destruct (decide (2 ≤ length (bv_votes bv))) as [Hn2|Hn1].
  - destruct Hlaw as [tpk law]; [lia|].
    destruct (recover_succeeds (tentative vs key bv b) b bv tpk) with (gid := id) (g := g)
      as [vs' Hr]; try done; [apply (vi_valset _ HI)|by eapply bv_inv_hdr; [|exact Hb]|congruence].
  - unfold recoverThresholdSignsAndVerify in He.
    destruct (bv_votes bv) as [|o [|o' l]]; cbn in Hn, Hn1; [lia| |lia].
    destruct i; [|done]. injection Hi as ->. done.
Qed.

Lemma join_fresh vs bv i v id :
  vs_inv vs → bv_inv vs (Key (Vote_BlockID v)) bv → good_vote vs i v → vote_id vs v = Ok id →
  bv_votes bv !! i = Some None → lawful (valSet vs) → (0 < bv_sum bv)%Z →
  voteExtensionGroups bv !! id = None →
  (group_power (join bv id v) - 100 < QuorumTypeThresholdVotingPower (valSet vs))%Z.
Proof.
  intros HI Hb Hg Hid Hf Hlaw Hs En. unfold join. rewrite En. cbn [from_option group_power].
  assert (2 ≤ n_vals (valSet vs)) as Hn.
  { rewrite (bi_sum _ _ _ Hb) in Hs. destruct (count_pos (bv_votes bv)) as (j & w & Hj); [lia|].
    rewrite <- (bi_len _ _ _ Hb). apply lookup_lt_Some in Hf as Hi. apply lookup_lt_Some in Hj as Hj'.
    assert (i ≠ j) by congruence. lia. }
  destruct (Hlaw Hn) as [tpk law]. pose proof (tl_two _ _ law). lia.
Qed.

Lemma counted_live vs i v id vs' :
  vs_inv vs' → lawful (valSet vs) → vs_live vs → good_vote vs i v → vote_id vs v = Ok id →
  same_hdr vs vs' → counted vs i v id vs' → vs_live vs'.
Proof.
  intros HI' Hlaw Hlive Hg Hid Hh' (vs1 & bv & ba & HI1 & Hh1 & Em & Ek & Hf & Hold & Eb & Hpos & Hneg).
  set (bv' := add_to_block bv ba i v id) in *.
  pose proof (good_vote_hdr _ _ _ _ Hh1 Hg) as Hg1. rewrite (vote_id_hdr vs vs1 _ Hh1) in Hid.
  pose proof (vi_bvs _ HI1 _ _ Ek) as Hb1. pose proof (ok_quorum_pos _ (vi_valset _ HI')) as Hqp.
  assert (same_hdr vs' vs1) as Hh''.
  { destruct Hh' as (? & ? & ? & ? & ?), Hh1 as (? & ? & ? & ? & ?). split_and!; congruence. }
  destruct Hh' as (_ & _ & _ & Et' & Ev'). destruct Hh1 as (_ & _ & _ & Et1 & Ev1).
  unfold vs_live. rewrite <- Et', <- Ev' in *. intros Hm' key bvk. rewrite Eb, lookup_insert.
  assert (∀ bv0, (quorum_power (valSet vs) ≤ bv_sum bv0)%Z → maj23 vs1 = None →
    votesByBlock vs1 !! key = Some bv0 → signedMsgType vs = PrecommitType ∧
      ∀ id g, voteExtensionGroups bv0 !! id = Some g →
        (group_power g < QuorumTypeThresholdVotingPower (valSet vs))%Z) as Hlive1.
  { intros bv0 Hq Hm1 Hk0. destruct (Hold _ _ Hk0) as [Hk|Hz]; [|lia].
    rewrite Em in Hm1. by eapply Hlive. }
  assert (maj23 vs1 = None) as Hm1.
  { destruct (decide (triggers vs1 bv bv' v id)) as [Htr|Htr]; [apply Htr|].
    by rewrite <- (Hneg Htr). }
  destruct (decide (Key (Vote_BlockID v) = key)) as [<-|]; [|by auto].
  intros [= <-] Hq. destruct (decide (triggers vs1 bv bv' v id)) as [Htr|Htr].
  - destruct (Hpos Htr) as [?|(_ & Hty & e & He)]; [congruence|]. split; [congruence|].
    rewrite Ev1. eapply (failed_recovery vs1 _ bv' (Vote_BlockID v) i v e); eauto.
    + by rewrite <- Ev1.
    + eapply bv_inv_hdr; [exact Hh''|]. apply (vi_bvs _ HI'). by rewrite Eb, lookup_insert_eq.
    + apply Vote_ValidateBasic_wf. by destruct Hg as [[? _] _].
    + cbn. apply list_lookup_insert_eq. by apply lookup_lt_Some in Hf.
  - destruct (Z.lt_ge_cases (bv_sum bv) (quorum_power (valSet vs))) as [Hlt|Hge].
    { exfalso. apply Htr. unfold triggers. rewrite <- Ev1. split_and!; auto. }
    destruct (Hlive1 bv) as [Hty Hgr]; [lia|done|done|]. split; [done|].
    intros id' g. cbn. rewrite lookup_insert. destruct (decide (id = id')) as [<-|]; [|by apply Hgr].
    intros [= <-]. assert (group_power (join bv id v) - 100 <
      QuorumTypeThresholdVotingPower (valSet vs))%Z as Hp.
    { destruct (voteExtensionGroups bv !! id) as [g|] eqn:Eg.
      - specialize (Hgr id g Eg). unfold join. rewrite Eg. cbn [from_option Datatypes.id group_power]. lia.
      - rewrite Ev1. eapply join_fresh; eauto; [by rewrite <- Ev1|lia]. }
    destruct (Z.lt_ge_cases (group_power (join bv id v)) (QuorumTypeThresholdVotingPower (valSet vs)))
      as [?|Hge']; [done|]. exfalso. apply Htr. unfold triggers. rewrite <- Ev1.
    split_and!; [done|done|right; lia].
Qed.

Lemma same_blocks_live vs vs' :
  same_hdr vs vs' → maj23 vs' = maj23 vs → (0 < quorum_power (valSet vs))%Z →
  (∀ k bvk, votesByBlock vs' !! k = Some bvk → bv_sum bvk = 0%Z ∨
     ∃ bv, votesByBlock vs !! k = Some bv ∧ bv_sum bvk = bv_sum bv ∧
       voteExtensionGroups bvk = voteExtensionGroups bv) →
  vs_live vs → vs_live vs'.
Proof.
  intros (_ & _ & _ & Et & Ev) Em Hqp Hb Hlive. unfold vs_live. rewrite <- Et, <- Ev, Em.
  intros Hm k bvk Hk Hq. destruct (Hb k bvk Hk) as [?|(bv & Hk' & Es & Eg)]; [lia|].
  rewrite Eg. eapply Hlive; eauto. by rewrite <- Es.
Qed.

Lemma step_live (sha_len : ∀ x, length (sha256 x) = 32) vs vs' :
  vs_inv vs → bounded vs → lawful (valSet vs) → vs_live vs → step vs vs' → vs_live vs'.
Proof.
  intros HI [Hp _] Hlaw Hlive Hs. pose proof (ok_quorum_pos _ (vi_valset _ HI)) as Hqp.
  destruct Hs as [r b ve vs1 added c Hwf Hm Ha|peer blk h r vs1 Ha].
  - pose proof (addVote_spec sha_len vs r b ve HI Hwf Hm) as Hs. rewrite Ha in Hs.
    destruct Hs as (HI' & [Hh _ _ _] & _ & (i & _ & Hadd & Hsame & _) & _). destruct added.
    + destruct Hadd as (Hg & _ & id & Hid & Hcnt); [done|]. by eapply counted_live.
    + destruct Hsame as [Eb Em]; [done|]. eapply same_blocks_live; eauto. rewrite Eb. eauto.
  - pose proof (SetPeerMaj23_spec vs peer blk h r HI Hp) as Hs. rewrite Ha in Hs.
    destruct Hs as (_ & [Hh _ _ _] & _ & Em & _ & _ & _ & Hb). by eapply same_blocks_live.
Qed.

Lemma steps_live (sha_len : ∀ x, length (sha256 x) = 32) vs vs' :
  vs_inv vs → bounded vs → lawful (valSet vs) → vs_live vs → rtc step vs vs' → vs_live vs'.
Proof.
  intros HI Hb Hlaw Hl Hs. revert HI Hb Hlaw Hl.
  induction Hs as [vs|vs vs1 vs' Hs1 _ IH]; intros HI Hb Hlaw Hl; [done|].
  pose proof (step_live sha_len vs vs1 HI Hb Hlaw Hl Hs1).
  destruct (step_inv sha_len vs vs1 HI Hb Hs1) as (HI1 & Hb1 & [(_ & _ & _ & _ & Ev) _ _ _]).
  apply IH; [done|done|by rewrite <- Ev|done].
Qed.

End live.

End vslive.
