(* ===== verification/VoteSetThms.v ===== *)
(** * types: correctness of vote sets

    The theorems about [VoteSet] that consensus relies on: what [addVote]
    returns, the invariant and the memory bound of every reachable set, the
    validity of the commits made, that no majority is missed, and that two
    conflicting majorities convict enough validators. *)
From Stdlib Require Import ZArith Lia Init.Byte.
From stdpp Require Import base numbers list sets gmap.
From S2P Require Import Prelude.
From S2P Require Import SafeMath.
From S2P Require Import BitArray.
From S2P Require Import Merkle.
From S2P Require Import PartSet.
From S2P Require Import Types.
From S2P Require Import Crypto.
From S2P Require Import QuorumSign.
From S2P Require Import ValidatorSet.
From S2P Require Import Recoverer.
From S2P Require Import VoteSet.
From S2P Require Import VoteSetInv.
From S2P Require Import VoteSetSeal.
From S2P Require Import VoteSetSafe.
From S2P Require Import VoteSetLive.

Import types crypto quorum valset recoverer voteset vsinv seal vssafe vslive.

Module vsthms.

(** The validator sets that votes are collected for: validated, with public
    keys, and with the powers and distinct members that updates produce. *)
Record validated `{Crypto} `{Dashd} (vals : ValidatorSet) : Prop := {
  va_size : in_int64 (Size vals);
  va_threshold : (0 ≤ VotingPowerThreshold vals)%Z;
  va_basic : valset_ValidateBasic vals = Ok tt;
  va_keys : HasPublicKeys vals = true;
  va_power : ∀ v, v ∈ Validators vals → VotingPower v = 100%Z;
  va_hashes : NoDup (ProTxHash <$> Validators vals) }.

(** Quorum types are bytes. *)
Definition byte_types `{Dashd} : Prop :=
  ∀ t, LLMQType_Validate t = true → (0 ≤ t ≤ MaxUint8)%Z.

Section thms.
Context `{Crypto} `{Dashd} `{MapOrder}.

Lemma validated_ok vals :
  byte_types → validated vals → valset_ok vals ∧
  (n_vals vals = 1 → ∀ val, val ∈ Validators vals → Val_PubKey val = ThresholdPublicKey vals).
Proof.
  intros Ht [Hs Hth Hb Hk Hp Hn].
  assert (VotingPowerThreshold vals ≤ MaxInt64)%Z as Hmax.
  { unfold valset_ValidateBasic in Hb. ok_inv. bools. lia. }
  destruct (valset_ValidateBasic_parts vals Hs Hb) as (Hsz & Hvt & Hq & Hqh & Htk & Hva).
  unfold thresholdPublicKeyValid in Htk. rewrite Hk in Htk.
  destruct (ThresholdPublicKey vals) as [tpk|] eqn:Etk; [|done]. split.
  - constructor; eauto.
    + intros v Hv. pose proof (validate_all_In _ _ v Hva Hv) as Hvb.
      unfold Validator_ValidateBasic in Hvb. ok_inv; bools; done.
    + split; [by apply Ht|done].
    + unfold validateThreshold in Hvt. rewrite quorum_power_eq in Hvt by lia.
      cbn [mbind outcome_bind] in Hvt. ok_inv; bools; lia.
  - unfold n_vals. destruct (Validators vals) as [|val [|val' l]]; [done| |done].
    intros _ v ->%list_elem_of_singleton. cbn [negb] in Htk.
    destruct (Val_PubKey val) as [pk|]; ok_inv. unfold PubKey_Equals in *. bools.
    f_equal. destruct pk, tpk. cbn in *. congruence.
Qed.

(** The sets reached by adding votes and claims to a new one. *)
Definition reachable (cid : bytes) (h r t : Z) (vals : ValidatorSet) (vs : VoteSet) : Prop :=
  ∃ vs0, NewVoteSet cid h r t vals = Ok vs0 ∧ rtc step vs0 vs.

Section reachable.
Context (sha_len : ∀ x, length (sha256 x) = 32) (bt : byte_types).
Context (vals : ValidatorSet) (Hvals : validated vals).

Lemma NewVoteSet_ok cid h r t vs0 :
  NewVoteSet cid h r t vals = Ok vs0 → vs_inv vs0 ∧ bounded vs0 ∧ vs_live vs0 ∧ valSet vs0 = vals ∧
    chainID vs0 = cid ∧ height vs0 = h ∧ round vs0 = r ∧ signedMsgType vs0 = t.
Proof using bt Hvals.
  intros Hn. destruct (validated_ok vals bt Hvals) as [Hok Hsg].
  assert (h ≠ 0%Z) as Hh by (intros ->; done).
  destruct (NewVoteSet_inv cid h r t vals Hok Hsg Hh (va_keys _ Hvals))
    as (vs & E & HI & E1 & E2 & E3 & E4 & E5).
  assert (vs = vs0) as -> by congruence.
  assert (votesByBlock vs0 = ∅ ∧ peerMaj23s vs0 = ∅) as [Eb Ep].
  { clear -Hn. unfold NewVoteSet in Hn. ok_inv. done. }
  split_and!; try done.
  - unfold bounded. rewrite Ep, Eb, !map_size_empty. lia.
  - intros _ key bv. by rewrite Eb, lookup_empty.
Qed.

Lemma reachable_ok cid h r t vs :
  reachable cid h r t vals vs → vs_inv vs ∧ bounded vs ∧ valSet vs = vals ∧
    chainID vs = cid ∧ height vs = h ∧ round vs = r ∧ signedMsgType vs = t.
Proof using sha_len bt Hvals.
  intros (vs0 & Hn & Hs). destruct (NewVoteSet_ok cid h r t vs0 Hn) as
    (HI & Hb & _ & E1 & E2 & E3 & E4 & E5).
  destruct (steps_inv sha_len vs0 vs HI Hb Hs) as (HI' & Hb' & [(X1 & X2 & X3 & X4 & X5) _ _ _]).
  split_and!; try done; congruence.
Qed.

(** C30: in every vote set reached by adding votes and claims of peers, the stored
    votes were verified for their slot, the sums, bit arrays and extension groups
    agree with them, a majority is backed by a quorum of stored votes and, for
    precommits, by threshold signatures that verify; the set tracks at most one
    block per validator and 4096 more; and no later step takes a vote or a
    majority back. *)
Theorem reachable_inv cid h r t vs :
  reachable cid h r t vals vs →
  vs_inv vs ∧ size (peerMaj23s vs) ≤ 4096 ∧
  size (votesByBlock vs) ≤ length (Validators vals) + 4096 ∧
  ∀ vs', rtc step vs vs' → extends vs vs'.
Proof using sha_len bt Hvals.
  intros (HI & Hb & Ev & _)%reachable_ok. split_and!; [done|apply Hb| |].
  - destruct Hb as [Hp Hs]. unfold maxPeerMaj23s in Hp. pose proof (count_le (votes vs)) as Hc.
    rewrite (vi_len _ HI), Ev in Hc. unfold n_vals in Hc. lia.
  - intros vs' Hs. by destruct (steps_inv sha_len vs vs' HI Hb Hs) as (_ & _ & ?).
Qed.

(** C29: [addVote] on a reachable set never panics.  A vote reported as added was
    verified for its validator and is stored under its block.  A vote reported as
    conflicting is a double sign: the validator's verified vote stored before is
    for another block.  Otherwise the vote was there already, with the same
    signature. *)
Theorem addVote_correct cid h rd t vs r b verified :
  reachable cid h rd t vals vs → wf_vote (ref_vote r) → minted verified →
  match addVote vs (Some r) b verified with
  | Panic => False
  | Err _ => True
  | Ok (vs', added, conflicting) =>
      ∃ i, Vote_ValidatorIndex (ref_vote r) = Z.of_nat i ∧
        (added = true → good_vote vs i (ref_vote r) ∧ stored vs' i (ref_vote r)) ∧
        match conflicting with
        | Some e => votes vs !! i = Some (Some e) ∧ good_vote vs i e ∧
                    good_vote vs i (ref_vote r) ∧ Vote_BlockID e ≠ Vote_BlockID (ref_vote r)
        | None => added = true ∨ vs' = vs ∧ ∃ e,
            getVote vs (Z.of_nat i) (Key (Vote_BlockID (ref_vote r))) = Ok (Some e) ∧
            Vote_BlockSignature e = Vote_BlockSignature (ref_vote r)
        end
  end.
Proof using sha_len bt Hvals.
  intros (HI & _)%reachable_ok Hwf Hm.
  pose proof (addVote_spec sha_len vs r b verified HI Hwf Hm) as Hs.
  destruct (addVote vs (Some r) b verified) as [[[vs' added] c]| |]; try done.
  destruct Hs as (_ & _ & _ & (i & Ei & Hadd & _ & Hc) & _). exists i. split_and!; try done.
  intros Ha. destruct (Hadd Ha) as (? & ? & _). done.
Qed.

(** C27: the commit made from a majority of precommits verifies against the
    validator set that collected them, and is for the block, height and round of
    the majority; making it does not panic. *)
Theorem commit_verifies cid h rd vs b :
  reachable cid h rd PrecommitType vals vs → maj23 vs = Some b →
  ∃ commit, MakeCommit vs = Ok commit ∧ verifyCommit vals cid b h commit None = Ok tt ∧
    Commit_Height commit = h ∧ Commit_Round commit = rd ∧ Commit_BlockID commit = b.
Proof using sha_len bt Hvals.
  intros (HI & _ & <- & <- & <- & <- & Ht)%reachable_ok Hm.
  destruct (vi_maj _ HI b Hm) as (_ & _ & _ & _ & _ & _ & _ & Hs).
  destruct (Hs Ht) as (Hc & Hr & Hl & q & tpk & Ek & Hq & Ha).
  unfold MakeCommit. rewrite Ht, Hm. cbn [Z.eqb Pos.eqb PrecommitType negb].
  assert (length (thresholdBlockSig vs) ≠ 0) as Hne.
  { intros E. apply nil_length_inv in E. apply Forall2_cons in Ha as [Ha _]. rewrite E in Ha.
    unfold VerifySignatureDigest in Ha. by destruct (pk_type tpk). }
  destruct (Nat.eqb_spec (length (thresholdBlockSig vs)) 0); [done|].
  unfold NewCommit, CopyToCommit. rewrite Hr. cbn [vs_makeQuorumSigns QS_VoteExtensionSignatures
    Commit_ThresholdVoteExtensions]. unfold GetSignatures, VoteExtensions_ToProto.
  rewrite !length_map, Nat.eqb_refl. cbn [negb].
  rewrite <- (map_map vei_pb Some), mapM_id_Some.
  assert (∀ l, zip_with set_signature (map vei_pb l) (map (λ e, VE_Signature (vei_pb e)) l)
    = map vei_pb l) as ->.
  { induction l as [|[c [t0 x s i]] l IHl]; cbn; [done|]. by rewrite IHl. }
  eexists. split; [done|]. split_and!; try done. apply verifyCommit_Ok.
  split_and!; try done. rewrite (map_map vei_pb Some).
  exists (thresholdVoteExtSigs vs), q, tpk. split_and!; try done.
  by apply VoteExtensionsFromProto_back.
Qed.

(** C28: no majority is missed.  With a threshold scheme that recovers from enough
    shares, a reachable set whose votes for one block reach the quorum has a
    majority, for prevotes at once, for precommits as soon as the votes with the
    same extensions reach the recovery threshold. *)
Theorem majority_found cid h r t vs key bv :
  lawful vals → reachable cid h r t vals vs →
  votesByBlock vs !! key = Some bv → (quorum_power vals ≤ bv_sum bv)%Z →
  t ≠ PrecommitType ∨ (∃ id g, voteExtensionGroups bv !! id = Some g ∧
    QuorumTypeThresholdVotingPower vals ≤ group_power g)%Z →
  ∃ b, maj23 vs = Some b.
Proof using sha_len bt Hvals.
  intros Hlaw Hr Hk Hq Hg. pose proof (reachable_ok _ _ _ _ _ Hr) as (HI & _ & Ev & _ & _ & _ & Et).
  destruct Hr as (vs0 & Hn & Hs).
  destruct (NewVoteSet_ok cid h r t vs0 Hn) as (HI0 & Hb0 & Hl0 & E1 & _).
  pose proof (steps_live sha_len vs0 vs HI0 Hb0 ltac:(by rewrite E1) Hl0 Hs) as Hl.
  destruct (maj23 vs) as [b|] eqn:Em; [eauto|]. exfalso. rewrite <- Ev in *.
  destruct (Hl Em key bv Hk Hq) as [Hty Hgr]. destruct Hg as [?|(id & g & Hg & Hge)]; [congruence|].
  specialize (Hgr id g Hg). lia.
Qed.

(** A verified vote of a validator who has not voted yet is always added. *)
Theorem addVote_accepts cid h rd t vs a i v :
  reachable cid h rd t vals vs → good_vote vs i v → votes vs !! i = Some None →
  ∃ vs', addVote vs (Some (mkRef a v)) None None = Ok (vs', true, None) ∧ stored vs' i v.
Proof using sha_len bt Hvals.
  intros (HI & _)%reachable_ok Hg Hf.
  pose proof Hg as ((Hvb & _) & Ei & Eh & Er & Et & val & Hval & Ep & Hvv).
  pose proof (good_vote_lt _ _ _ Hg) as Hlt. cbn [addVote ref_vote]. rewrite Ei, Eh, Er, Et.
  destruct (Z.ltb_spec (Z.of_nat i) 0); [lia|].
  assert (length (Vote_ValidatorProTxHash v) = 32) as Hl.
  { rewrite Ep. apply (ok_hash_len _ (vi_valset _ HI)). by apply list_elem_of_lookup_2 in Hval. }
  rewrite Hl, !Z.eqb_refl. cbn [Nat.eqb negb orb]. unfold GetByIndex.
  destruct (Z.ltb_spec (Z.of_nat i) 0); [lia|].
  destruct (Z.leb_spec (Size (valSet vs)) (Z.of_nat i)); [unfold Size, n_vals in *; lia|].
  cbn [orb]. rewrite Nat2Z.id, Hval, bool_decide_eq_true_2 by done. cbn [negb].
  assert (∀ bv o, votesByBlock vs !! Key (Vote_BlockID v) = Some bv → bv_votes bv !! i = Some o →
    o = None) as Hbf.
  { intros bv [w|] Hk Ho; [|done]. destruct (vi_seen _ HI _ _ _ _ Hk Ho). congruence. }
  assert (getVote vs (Z.of_nat i) (Key (Vote_BlockID v)) = Ok None) as ->.
  { unfold getVote. rewrite (index_Ok _ _ _ Hf). orun.
    destruct (votesByBlock vs !! Key (Vote_BlockID v)) as [bv|] eqn:Ek; cbn [getByIndex]; [|done].
    destruct (lookup_lt_is_Some_2 (bv_votes bv) i) as [o Ho].
    { by rewrite (bi_len _ _ _ (vi_bvs _ HI _ _ Ek)). }
    rewrite (index_Ok _ _ _ Ho). by rewrite (Hbf bv o eq_refl Ho). }
  orun. unfold check_vote. cbn [ref_vote]. rewrite Hvv. cbn [wrap_err]. orun.
  destruct (vote_id_good vs i v Hg) as [id Hid]. fold (vote_id vs v). rewrite Hid. orun.
  destruct (addVerifiedVote_spec vs i v id HI Hg Hid) as (vs' & added & c & Ea & HI' & _ & _ & Hc &
    Hst & _ & Hadd & _); [intros e He; congruence|done|].
  assert (c = None) as -> by congruence. rewrite (Hadd eq_refl) in *.
  rewrite (ok_power _ (vi_valset _ HI) val) by (by apply list_elem_of_lookup_2 in Hval).
  rewrite Ea. orun. exists vs'. split; [done|by apply Hst].
Qed.

(** ** Accountability *)

Definition filled {A} (l : list (option A)) (i : nat) : bool :=
  match l !! i with Some (Some _) => true | _ => false end.

Lemma filter_S (P : nat → bool) l :
  length (filter (λ i, P i = true) (S <$> l)) = length (filter (λ i, P (S i) = true) l).
Proof.
  induction l as [|i l IH]; [done|]. cbn [fmap list_fmap]. rewrite !filter_cons.
  destruct (decide (P (S i) = true)); cbn [length]; by rewrite IH.
Qed.

Lemma count_filled {A} (l : list (option A)) :
  count l = length (filter (λ i, filled l i = true) (seq 0 (length l))).
Proof.
  unfold count. induction l as [|o l IH]; [done|]. cbn [length seq]. rewrite <- fmap_S_seq.
  rewrite !filter_cons. pose proof (filter_S (filled (o :: l)) (seq 0 (length l))) as E.
  change (λ i, filled (o :: l) (S i) = true) with (λ i, filled l i = true) in E.
  destruct o as [x|].
  - rewrite !decide_True by eauto. cbn [length]. by rewrite E, IH.
  - rewrite decide_False by (by intros [? ?]). rewrite decide_False by done. by rewrite E, IH.
Qed.

Lemma filter_inter {A} (P Q : A → bool) (l : list A) :
  length (filter (λ x, P x = true) l) + length (filter (λ x, Q x = true) l) ≤
  length l + length (filter (λ x, P x && Q x = true) l).
Proof.
  induction l as [|x l IH]; [done|]. rewrite !filter_cons.
  destruct (P x) eqn:EP, (Q x) eqn:EQ; cbn [andb]; repeat case_decide; try done; cbn [length]; lia.
Qed.

Lemma maj_votes vs b :
  vs_inv vs → maj23 vs = Some b → ∃ bv, length (bv_votes bv) = n_vals (valSet vs) ∧
    (quorum_power (valSet vs) ≤ 100 * Z.of_nat (count (bv_votes bv)))%Z ∧
    ∀ i, filled (bv_votes bv) i = true → ∃ v, good_vote vs i v ∧ Vote_BlockID v = b.
Proof.
  intros HI Hm. destruct (vi_maj _ HI b Hm) as (bv & k & w & Hk & Hq & Hw & Eb & _).
  pose proof (vi_bvs _ HI _ _ Hk) as Hb. exists bv. rewrite <- (bi_sum _ _ _ Hb).
  split_and!; [apply (bi_len _ _ _ Hb)|done|]. intros i Hi. unfold filled in Hi.
  destruct (bv_votes bv !! i) as [[v|]|] eqn:Ei; [|done..].
  destruct (bi_votes _ _ _ Hb i v Ei) as (Hg & _ & _). exists v. split; [done|].
  eapply bv_vote_block; eauto. subst b.
  destruct (bi_votes _ _ _ Hb k w Hw) as (((Hvb & _) & _) & _). by apply Vote_ValidateBasic_wf.
Qed.

(** C26: conflicting majorities convict.  If two vote sets of the same height, round
    and type reach majorities for different blocks, then validators with power at
    least twice the quorum minus the total signed for both blocks, each with two
    verified votes; at a strict quorum that is more than a third of the power. *)
Theorem accountability cid h r t vs1 vs2 b1 b2 :
  reachable cid h r t vals vs1 → reachable cid h r t vals vs2 →
  maj23 vs1 = Some b1 → maj23 vs2 = Some b2 → b1 ≠ b2 →
  ∃ culprits : list nat, NoDup culprits ∧
    (∀ i, i ∈ culprits → ∃ v1 v2, good_vote vs1 i v1 ∧ good_vote vs1 i v2 ∧
       Vote_BlockID v1 = b1 ∧ Vote_BlockID v2 = b2 ∧ Vote_BlockID v1 ≠ Vote_BlockID v2) ∧
    (2 * quorum_power vals - TotalVotingPower vals ≤ 100 * Z.of_nat (length culprits))%Z ∧
    (BelowStrictThreshold (E:=unit) vals = Ok false →
     TotalVotingPower vals < 3 * (100 * Z.of_nat (length culprits)))%Z.
Proof using sha_len bt Hvals.
  intros (HI1 & _ & Ev1 & Ec1 & Eh1 & Er1 & Et1)%reachable_ok
    (HI2 & _ & Ev2 & Ec2 & Eh2 & Er2 & Et2)%reachable_ok Hm1 Hm2 Hne.
  destruct (maj_votes vs1 b1 HI1 Hm1) as (bv1 & L1 & Q1 & G1).
  destruct (maj_votes vs2 b2 HI2 Hm2) as (bv2 & L2 & Q2 & G2). rewrite Ev1, Ev2 in *.
  set (l := filter (λ i, filled (bv_votes bv1) i && filled (bv_votes bv2) i = true)
              (seq 0 (n_vals vals))).
  assert (2 * quorum_power vals - 100 * Size vals ≤ 100 * Z.of_nat (length l))%Z as Hcnt.
  { rewrite count_filled, L1 in Q1. rewrite count_filled, L2 in Q2.
    pose proof (filter_inter (filled (bv_votes bv1)) (filled (bv_votes bv2)) (seq 0 (n_vals vals)))
      as Hin. fold l in Hin. rewrite length_seq in *. unfold Size, n_vals in *. lia. }
  pose proof (ok_size _ (vi_valset _ HI1)) as Hsz. rewrite Ev1 in Hsz.
  pose proof (TotalVotingPower_eq vals ltac:(lia)) as HT.
  exists l. split_and!.
  - apply NoDup_filter, NoDup_seq.
  - intros i [Hi _]%list_elem_of_filter. bools.
    destruct (G1 i) as (v1 & Hg1 & E1); [done|]. destruct (G2 i) as (v2 & Hg2 & E2); [done|].
    exists v1, v2. split_and!; try done; [|congruence].
    eapply good_vote_hdr; [|done]. split_and!; congruence.
  - by rewrite HT.
  - unfold BelowStrictThreshold. pose proof (ok_threshold _ (vi_valset _ HI1)) as Hth.
    rewrite Ev1 in Hth. rewrite quorum_power_eq by done. cbn [mbind outcome_bind].
    intros [= Hb]. apply Z.ltb_ge in Hb. unfold StrictVotingPowerFloor in Hb. rewrite HT in *.
    rewrite (int64_id (_ * 2)) in Hb by (unfold_ints; lia).
    rewrite Z.quot_div_nonneg in Hb by lia. rewrite int64_id in Hb by (unfold_ints; div_lia).
    div_lia.
Qed.

End reachable.

End thms.

(** ** Witnesses *)

Definition toy_order : MapOrder := {| range := λ _ l, l; range_perm := λ _ l, reflexivity l |}.

Definition demo_vals : ValidatorSet := demo_valset [x07; x08; x09; x0a].

Section run.
Context `{Crypto} `{Dashd} `{MapOrder}.

(** Adds a list of votes, each of which must be accepted. *)
Fixpoint run (vs : VoteSet) (l : list Vote) : option VoteSet :=
  match l with
  | [] => Some vs
  | v :: l =>
      match addVote vs (Some (mkRef 0 v)) None None with
      | Ok (vs, true, None) => run vs l
      | _ => None
      end
  end.

Definition wf_voteb (v : Vote) : bool :=
  is_ok (Vote_ValidateBasic v) && forallb class_ok (Vote_VoteExtensions v).

Lemma run_steps vs l vs' : forallb wf_voteb l = true → run vs l = Some vs' → rtc step vs vs'.
Proof.
  revert vs. induction l as [|v l IH]; intros vs Hw Hr; cbn [forallb run] in *.
  { injection Hr as ->. apply rtc_refl. }
  bools. destruct (addVote vs _ None None) as [[[vs1 [|]] [|]]| |] eqn:Ea; try done.
  eapply rtc_l; [|by apply IH].
  apply (step_vote vs (mkRef 0 v) None None vs1 true None); [|by intros e [=]|done].
  unfold wf_voteb in *. bools. split; [|done].
  by destruct (Vote_ValidateBasic _) as [[]| |].
Qed.

Definition run_new (cid : bytes) (h r t : Z) (vals : ValidatorSet) (l : list Vote) :
    option VoteSet :=
  match NewVoteSet cid h r t vals with Ok vs => run vs l | _ => None end.

Lemma run_new_reachable cid h r t vals l vs :
  forallb wf_voteb l = true → run_new cid h r t vals l = Some vs → reachable cid h r t vals vs.
Proof.
  unfold run_new. intros Hw Hr. destruct (NewVoteSet _ _ _ _ _) as [vs0| |] eqn:En; try done.
  exists vs0. split; [done|]. by apply (run_steps _ l).
Qed.

End run.

(** Three of four precommits, one extension each, for block [b]. *)
Definition demo_votes (b : byte) : list Vote :=
  [demo_signed b 0 x07; demo_signed b 1 x08; demo_signed b 2 x09].

Definition demo_reaches (b : byte) : bool :=
  forallb wf_voteb (demo_votes b) &&
  match @run_new toy_crypto toy_dashd toy_order [x61] 5 0 PrecommitType demo_vals (demo_votes b) with
  | Some vs =>
      bool_decide (maj23 vs = Some (demo_block b)) &&
      bool_decide (votes vs !! 3 = Some None) &&
      match votesByBlock vs !! Key (demo_block b) with
      | Some bv => (bv_sum bv =? 300)%Z &&
          existsb (λ g, group_power g.2 =? 300)%Z (map_to_list (voteExtensionGroups bv))
      | None => false
      end
  | None => false
  end.

Lemma demo_reaches_x01 : demo_reaches x01 = true.
Proof. vm_compute. reflexivity. Qed.

Lemma demo_reaches_x02 : demo_reaches x02 = true.
Proof. vm_compute. reflexivity. Qed.

Lemma demo_run b :
  demo_reaches b = true →
  ∃ vs bv, @reachable toy_crypto toy_dashd toy_order [x61] 5 0 PrecommitType demo_vals vs ∧
    maj23 vs = Some (demo_block b) ∧ votes vs !! 3 = Some None ∧
    votesByBlock vs !! Key (demo_block b) = Some bv ∧ bv_sum bv = 300%Z ∧
    ∃ id g, voteExtensionGroups bv !! id = Some g ∧ group_power g = 300%Z.
Proof.
  unfold demo_reaches. intros Hb. apply andb_true_iff in Hb as [Hw Hb].
  destruct (run_new _ _ _ _ _ _) as [vs|] eqn:Er; [|done]. apply run_new_reachable in Er; [|done].
  destruct (votesByBlock vs !! Key (demo_block b)) as [bv|] eqn:Ek; bools; [|done].
  exists vs, bv. split_and!; try done.
  match goal with H : existsb _ _ = true |- _ => apply existsb_exists in H as ([id g] & Hin & Hg) end.
  exists id, g. apply list_elem_of_In, elem_of_map_to_list in Hin. split; [done|]. by apply Z.eqb_eq.
Qed.

(** Adding [v] after [l] replaces the canonical vote of validator [i] without an
    entry among the votes of its block. *)
Definition untracked (l : list Vote) (i : nat) (v : Vote) : bool :=
  match @run_new toy_crypto toy_dashd toy_order [x61] 5 0 PrecommitType demo_vals l with
  | Some vs =>
      match @addVote toy_crypto toy_dashd toy_order vs (Some (mkRef 0 v)) None None with
      | Ok (vs', false, Some _) =>
          bool_decide (votes vs' !! i = Some (Some v)) &&
          match votesByBlock vs' !! Key (Vote_BlockID v) with
          | Some bv => bool_decide (bv_votes bv !! i = Some None)
          | None => false
          end
      | _ => false
      end
  | None => false
  end.

(** The documentation of [VoteSet] says that all votes in [votes] have an entry in
    [votesByBlock].  Validator 3 votes for block 2, then for block 1, which has the
    majority: its canonical vote is for block 1 and has no entry there. *)
Lemma canonical_vote_untracked :
  untracked (demo_signed x02 3 x0a :: demo_votes x01) 3 (demo_signed x01 3 x0a) = true.
Proof. vm_compute. reflexivity. Qed.

Lemma demo_byte_types : @byte_types toy_dashd.
Proof. intros t Ht. cbn in Ht. bools. unfold_ints. lia. Qed.

Lemma demo_validated : @validated toy_crypto toy_dashd demo_vals.
Proof.
  constructor.
  - vm_compute; split; discriminate.
  - vm_compute; discriminate.
  - vm_compute; reflexivity.
  - reflexivity.
  - intros v Hv. apply list_elem_of_fmap in Hv as (c & -> & _). reflexivity.
  - apply (bool_decide_eq_true_1 (NoDup _)); vm_compute; reflexivity.
Qed.

(** The toy scheme recovers: every share is the threshold signature. *)
Lemma demo_lawful : @lawful toy_crypto toy_dashd demo_vals.
Proof.
  intros _. exists toy_key. constructor.
  - intros gp digest g Hd Hv. cbn in *. apply bool_decide_eq_true_1 in Hv as ->.
    assert (length (toy_sign digest) = 96) as E by (unfold toy_sign; rewrite !length_app; lia).
    by rewrite E.
  - intros v pk Hv Hk. apply list_elem_of_fmap in Hv as (c & -> & _). by injection Hk as <-.
  - by split.
  - vm_compute; reflexivity.
  - intros digest ids gs Hd Hn Hf Ht. cbn in *. destruct Hf as [|id g ids gs Hs _].
    { exfalso. revert Ht. vm_compute. by intros []. }
    destruct Hs as (v & pk & gp & _ & _ & _ & _ & Hv). exists g, (pk_bytes toy_key).
    split_and!; try done.
Qed.

Lemma demo_good vs :
  valSet vs = demo_vals → chainID vs = [x61] → height vs = 5%Z → round vs = 0%Z →
  signedMsgType vs = PrecommitType → @good_vote toy_crypto vs 3 (demo_signed x01 3 x0a).
Proof.
  intros E1 E2 E3 E4 E5. unfold good_vote. rewrite E1, E2, E3, E4, E5.
  split_and!; try (vm_compute; reflexivity); [split; vm_compute; reflexivity|].
  exists (demo_validator x0a 100). split_and!; vm_compute; reflexivity.
Qed.

Lemma reachable_inv_witness :
  ∃ vs, maj23 vs = Some (demo_block x01) ∧ @vs_inv toy_crypto toy_dashd vs.
Proof.
  destruct (demo_run x01 demo_reaches_x01) as (vs & bv & Hr & Hm & _). exists vs. split; [exact Hm|].
  apply (@reachable_inv toy_crypto toy_dashd toy_order merkle.toy_hash_len demo_byte_types demo_vals
    demo_validated _ _ _ _ vs Hr).
Defined.

(** A validator that voted for block 2 votes for block 1 as well. *)
Lemma demo_conflict :
  ∃ vs vs' e, @reachable toy_crypto toy_dashd toy_order [x61] 5 0 PrecommitType demo_vals vs ∧
    @addVote toy_crypto toy_dashd toy_order vs (Some (mkRef 0 (demo_signed x01 3 x0a))) None None = Ok (vs', false, Some e).
Proof.
  pose proof canonical_vote_untracked as Hu. unfold untracked in Hu.
  destruct (run_new _ _ _ _ _ _) as [vs|] eqn:Er; [|done].
  apply run_new_reachable in Er; [|vm_compute; reflexivity].
  destruct (addVote vs _ None None) as [[[vs' [|]] [e|]]| |] eqn:Ea; try done. by exists vs, vs', e.
Qed.

Lemma addVote_correct_witness :
  ∃ vs vs' e i, @addVote toy_crypto toy_dashd toy_order vs (Some (mkRef 0 (demo_signed x01 3 x0a))) None None =
      Ok (vs', false, Some e) ∧
    votes vs !! i = Some (Some e) ∧ @good_vote toy_crypto vs i e ∧
    @good_vote toy_crypto vs i (demo_signed x01 3 x0a) ∧ Vote_BlockID e ≠ demo_block x01.
Proof.
  destruct demo_conflict as (vs & vs' & e & Hr & Ha).
  pose proof (@addVote_correct toy_crypto toy_dashd toy_order merkle.toy_hash_len demo_byte_types
    demo_vals demo_validated _ _ _ _ vs (mkRef 0 (demo_signed x01 3 x0a)) None None Hr) as Hc.
  rewrite Ha in Hc. destruct Hc as (i & _ & _ & Hv & Hg & Hg' & Hne);
    [split; vm_compute; reflexivity|intros e' He; discriminate He|].
  exists vs, vs', e, i. split; [exact Ha|]. split; [exact Hv|]. split; [exact Hg|]. split; [exact Hg'|exact Hne].
Defined.

Lemma commit_verifies_witness :
  ∃ vs commit, @MakeCommit vs = Ok commit ∧
    @verifyCommit toy_crypto demo_vals [x61] (demo_block x01) 5 commit None = Ok tt.
Proof.
  destruct (demo_run x01 demo_reaches_x01) as (vs & bv & Hr & Hm & _).
  destruct (@commit_verifies toy_crypto toy_dashd toy_order merkle.toy_hash_len demo_byte_types
    demo_vals demo_validated _ _ _ vs _ Hr Hm) as (c & H1 & H2 & _).
  exists vs, c. split; [exact H1|exact H2].
Defined.

Lemma majority_found_witness :
  ∃ vs b, maj23 vs = Some b ∧
    @reachable toy_crypto toy_dashd toy_order [x61] 5 0 PrecommitType demo_vals vs.
Proof.
  destruct (demo_run x01 demo_reaches_x01) as (vs & bv & Hr & _ & _ & Hk & Hs & id & g & Hg & Hp).
  destruct (@majority_found toy_crypto toy_dashd toy_order merkle.toy_hash_len demo_byte_types
    demo_vals demo_validated _ _ _ _ vs _ bv demo_lawful Hr Hk) as (b & Hb).
  - rewrite Hs. vm_compute. discriminate.
  - right. exists id, g. split; [exact Hg|]. rewrite Hp. vm_compute. discriminate.
  - exists vs, b. split; [exact Hb|exact Hr].
Defined.

Lemma addVote_accepts_witness :
  ∃ vs vs', @addVote toy_crypto toy_dashd toy_order vs (Some (mkRef 0 (demo_signed x01 3 x0a)))
              None None = Ok (vs', true, None).
Proof.
  destruct (demo_run x01 demo_reaches_x01) as (vs & bv & Hr & _ & Hf & _).
  destruct (@reachable_ok toy_crypto toy_dashd toy_order merkle.toy_hash_len demo_byte_types
    demo_vals demo_validated _ _ _ _ vs Hr) as (_ & _ & E1 & E2 & E3 & E4 & E5).
  destruct (@addVote_accepts toy_crypto toy_dashd toy_order merkle.toy_hash_len demo_byte_types
    demo_vals demo_validated _ _ _ _ vs 0 3 _ Hr (demo_good vs E1 E2 E3 E4 E5) Hf) as (vs' & H1 & _).
  exists vs, vs'. exact H1.
Defined.

Lemma accountability_witness :
  ∃ culprits : list nat, NoDup culprits ∧ (400 < 3 * (100 * Z.of_nat (length culprits)))%Z.
Proof.
  destruct (demo_run x01 demo_reaches_x01) as (vs1 & bv1 & Hr1 & Hm1 & _).
  destruct (demo_run x02 demo_reaches_x02) as (vs2 & bv2 & Hr2 & Hm2 & _).
  destruct (@accountability toy_crypto toy_dashd toy_order merkle.toy_hash_len demo_byte_types
    demo_vals demo_validated _ _ _ _ vs1 vs2 _ _ Hr1 Hr2 Hm1 Hm2) as (l & H1 & _ & _ & H2).
  - intros E. discriminate E.
  - exists l. split; [exact H1|]. apply H2. vm_compute. reflexivity.
Defined.

End vsthms.
