(* ===== verification/HeightVoteSet.v ===== *)
(** * internal/consensus: the vote sets of a height

    Models [src/internal/consensus/types/height_vote_set.go].  The height vote set
    is a value threaded through its methods; the pointers to vote sets kept in
    [roundVoteSets] are written back after every change.  The catchup rounds are
    keyed by the bytes of the proTxHash, which [String] renders in hexadecimal.
    The mutex (held by every method that changes the set) and the logger are not
    modelled. *)
From Stdlib Require Import ZArith Lia Init.Byte.
From stdpp Require Import base numbers list sets gmap fin_maps.
From S2P Require Import Prelude.
From S2P Require Import SafeMath.
From S2P Require Import BitArray.
From S2P Require Import Merkle.
From S2P Require Import PartSet.
From S2P Require Import Types.
From S2P Require Import Crypto.
From S2P Require Import QuorumSign.
From S2P Require Import ValidatorSet.
From S2P Require Import Recoverer.
From S2P Require Import VoteSet.
From S2P Require Import VoteSetInv.
From S2P Require Import VoteSetSafe.
From S2P Require Import VoteSetThms.

Import types crypto quorum valset recoverer voteset vsinv vssafe vsthms.

Module heightvs.

(** The errors of the methods; [OutOfFuel] is not one of the code. *)
Inductive hvs_error :=
  | ErrVoteSet (e : voteset_error)
  | ErrVoteConflicting (existing : Vote)
  | ErrGotVoteFromUnwantedRound
  | ErrInvalidVoteType
  | OutOfFuel.

Notation hres := (outcome hvs_error).

Record RoundVoteSet := mkRVS {
  rvs_Prevotes : option VoteSet;
  rvs_Precommits : option VoteSet;
  rvs_Commit : option Commit }.

Record HeightVoteSet := mkHVS {
  hvs_chainID : bytes;
  hvs_height : Z;
  hvs_valSet : ValidatorSet;
  hvs_round : Z;
  roundVoteSets : gmap Z RoundVoteSet;
  peerCatchupRounds : gmap bytes (list Z) }.

(** Field updates. *)
Definition set_rounds (hvs : HeightVoteSet) (m : gmap Z RoundVoteSet) : HeightVoteSet :=
  mkHVS (hvs_chainID hvs) (hvs_height hvs) (hvs_valSet hvs) (hvs_round hvs) m
    (peerCatchupRounds hvs).

Definition set_round (hvs : HeightVoteSet) (round : Z) : HeightVoteSet :=
  mkHVS (hvs_chainID hvs) (hvs_height hvs) (hvs_valSet hvs) round (roundVoteSets hvs)
    (peerCatchupRounds hvs).

Definition set_catchup (hvs : HeightVoteSet) (m : gmap bytes (list Z)) : HeightVoteSet :=
  mkHVS (hvs_chainID hvs) (hvs_height hvs) (hvs_valSet hvs) (hvs_round hvs) (roundVoteSets hvs) m.

Section heightvs.
Context `{Crypto} `{Dashd} `{MapOrder}.

Definition addRound (hvs : HeightVoteSet) (round : Z) : hres HeightVoteSet :=
  match roundVoteSets hvs !! round with
  | Some _ => Panic
  | None =>
      rvs ← (if HasPublicKeys (hvs_valSet hvs) then
               prevotes ← wrap_err ErrVoteSet (NewVoteSet (hvs_chainID hvs) (hvs_height hvs) round
                            PrevoteType (hvs_valSet hvs));
               precommits ← wrap_err ErrVoteSet (NewVoteSet (hvs_chainID hvs) (hvs_height hvs)
                              round PrecommitType (hvs_valSet hvs));
               Ok (mkRVS (Some prevotes) (Some precommits) None)
             else Ok (mkRVS None None None));
      Ok (set_rounds hvs (<[round := rvs]> (roundVoteSets hvs)))
  end.

Definition Reset (hvs : HeightVoteSet) (height : Z) (valSet : ValidatorSet) : hres HeightVoteSet :=
  hvs ← addRound (mkHVS (hvs_chainID hvs) height valSet (hvs_round hvs) ∅ ∅) 0;
  Ok (set_round hvs 0).

Definition NewHeightVoteSet (chainID : bytes) (height : Z) (valSet : ValidatorSet) :
    hres HeightVoteSet :=
  Reset (mkHVS chainID 0 valSet 0 ∅ ∅) height valSet.

(** The loop of [SetRound]. *)
Fixpoint add_rounds (fuel : nat) (hvs : HeightVoteSet) (r round : Z) : hres HeightVoteSet :=
  match fuel with
  | O => Err OutOfFuel
  | S fuel =>
      if (r <=? round)%Z then
        match roundVoteSets hvs !! r with
        | Some _ => add_rounds fuel hvs (int32 (r + 1)) round
        | None => hvs ← addRound hvs r; add_rounds fuel hvs (int32 (r + 1)) round
        end
      else Ok hvs
  end.

Definition SetRound (fuel : nat) (hvs : HeightVoteSet) (round : Z) : hres HeightVoteSet :=
  match SafeSubInt32 (hvs_round hvs) 1 with
  | Ok newRound =>
      if negb (hvs_round hvs =? 0)%Z && (round <? newRound)%Z then Panic
      else hvs ← add_rounds fuel hvs newRound round; Ok (set_round hvs round)
  | _ => Panic
  end.

Definition getVoteSet (hvs : HeightVoteSet) (round voteType : Z) : hres (option VoteSet) :=
  match roundVoteSets hvs !! round with
  | None => Ok None
  | Some rvs =>
      if (voteType =? PrevoteType)%Z then Ok (rvs_Prevotes rvs)
      else if (voteType =? PrecommitType)%Z then Ok (rvs_Precommits rvs)
      else Panic
  end.

Definition Prevotes (hvs : HeightVoteSet) (round : Z) : hres (option VoteSet) :=
  getVoteSet hvs round PrevoteType.

Definition Precommits (hvs : HeightVoteSet) (round : Z) : hres (option VoteSet) :=
  getVoteSet hvs round PrecommitType.

Definition checkVoteClaim (hvs : HeightVoteSet) (vote : Vote) : outcome voteset_error unit :=
  if (Vote_ValidatorIndex vote <? 0)%Z then Err ErrInvalidValidatorIndex
  else if length (Vote_ValidatorProTxHash vote) =? 0 then Err ErrInvalidValidatorProTxHash
  else if negb (Vote_Height vote =? hvs_height hvs)%Z then Err ErrUnexpectedStep
  else
    match GetByIndex (hvs_valSet hvs) (Vote_ValidatorIndex vote) with
    | None => Err ErrInvalidValidatorIndex
    | Some val =>
        if negb (bool_decide (Vote_ValidatorProTxHash vote = ProTxHash val))
        then Err ErrInvalidValidatorProTxHash else Ok tt
    end.

(** Writes a vote set back through the pointer of its round and type. *)
Definition put_voteset (rvs : RoundVoteSet) (voteType : Z) (vs : VoteSet) : RoundVoteSet :=
  if (voteType =? PrevoteType)%Z
  then mkRVS (Some vs) (rvs_Precommits rvs) (rvs_Commit rvs)
  else mkRVS (rvs_Prevotes rvs) (Some vs) (rvs_Commit rvs).

Definition write_voteset (hvs : HeightVoteSet) (round voteType : Z) (vs : VoteSet) :
    HeightVoteSet :=
  set_rounds hvs (alter (λ rvs, put_voteset rvs voteType vs) round (roundVoteSets hvs)).

(** The switch of [addVote] over the three ways of adding to the vote set. *)
Definition add_to_voteset (hvs : HeightVoteSet) (voteSet : VoteSet) (r : vote_ref)
    (b : option budget) (verified : option VoteVerification) :
    hres (HeightVoteSet * bool * option hvs_error) :=
  match voteset.addVote voteSet (Some r) b verified with
  | Panic => Panic
  | Err e => Ok (hvs, false, Some (ErrVoteSet e))
  | Ok (vs, added, conflicting) =>
      Ok (write_voteset hvs (Vote_Round (ref_vote r)) (Vote_Type (ref_vote r)) vs, added,
          ErrVoteConflicting <$> conflicting)
  end.

(** [HeightVoteSet.addVote]: the new set, [added] and the error. *)
Definition hvs_addVote (hvs : HeightVoteSet) (r : vote_ref) (b : option budget)
    (verified : option VoteVerification) : hres (HeightVoteSet * bool * option hvs_error) :=
  let vote := ref_vote r in
  if negb (HasPublicKeys (hvs_valSet hvs)) then Ok (hvs, false, None)
  else if negb (IsVoteTypeValid (Vote_Type vote)) then Ok (hvs, false, None)
  else
    voteSet ← getVoteSet hvs (Vote_Round vote) (Vote_Type vote);
    match voteSet with
    | Some vs => add_to_voteset hvs vs r b verified
    | None =>
        match checkVoteClaim hvs vote with
        | Panic => Panic
        | Err e => Ok (hvs, false, Some (ErrVoteSet e))
        | Ok _ =>
            let proTxHash := Vote_ValidatorProTxHash vote in
            let seen := default [] (peerCatchupRounds hvs !! proTxHash) in
            if 2 <=? length seen then Ok (hvs, false, Some ErrGotVoteFromUnwantedRound)
            else
              hvs ← addRound hvs (Vote_Round vote);
              voteSet ← getVoteSet hvs (Vote_Round vote) (Vote_Type vote);
              vs ← deref voteSet;
              '(hvs, added, err) ← add_to_voteset hvs vs r b verified;
              if (added : bool)
              then Ok (set_catchup hvs (<[proTxHash := seen ++ [Vote_Round vote]]>
                         (peerCatchupRounds hvs)), added, err)
              else Ok (set_rounds hvs (delete (Vote_Round vote) (roundVoteSets hvs)), added, err)
        end
    end.

Definition hvs_SetPeerMaj23 (hvs : HeightVoteSet) (height round voteType : Z) (peerID : bytes)
    (blockID : BlockID) : hres HeightVoteSet :=
  if negb (IsVoteTypeValid voteType) then Err ErrInvalidVoteType
  else
    voteSet ← getVoteSet hvs round voteType;
    match voteSet with
    | None => Ok hvs
    | Some vs =>
        vs ← wrap_err ErrVoteSet (voteset.SetPeerMaj23 vs peerID blockID height round);
        Ok (write_voteset hvs round voteType vs)
    end.

(** [TwoThirdsMajority] of a vote set that may be nil. *)
Definition majority (vs : option VoteSet) : BlockID * bool :=
  match vs with Some vs => TwoThirdsMajority vs | None => (nilBlockID, false) end.

(** The loop of [POLInfo] over the rounds below [n]. *)
Fixpoint pol_below (hvs : HeightVoteSet) (n : nat) : hres (Z * BlockID) :=
  match n with
  | O => Ok (-1, nilBlockID)%Z
  | S n =>
      rvs ← getVoteSet hvs (Z.of_nat n) PrevoteType;
      match majority rvs with
      | (polBlockID, true) => Ok (Z.of_nat n, polBlockID)
      | _ => pol_below hvs n
      end
  end.

Definition POLInfo (hvs : HeightVoteSet) : hres (Z * BlockID) :=
  pol_below hvs (Z.to_nat (hvs_round hvs + 1)).

End heightvs.

End heightvs.
