(* ===== verification/HeightVoteSetThms.v ===== *)
(** * internal/consensus: correctness of the vote sets of a height

    The invariant of every height vote set that consensus can reach, with the
    bound on the rounds it tracks, and what its methods return. *)
From Stdlib Require Import ZArith Lia Init.Byte.
From stdpp Require Import base numbers list list_numbers sets gmap fin_maps.
From S2P Require Import Prelude.
From S2P Require Import SafeMath.
From S2P Require Import BitArray.
From S2P Require Import Merkle.
From S2P Require Import PartSet.
From S2P Require Import Types.
From S2P Require Import Crypto.
From S2P Require Import QuorumSign.
From S2P Require Import ValidatorSet.
From S2P Require Import Recoverer.
From S2P Require Import VoteSet.
From S2P Require Import VoteSetInv.
From S2P Require Import VoteSetSafe.
From S2P Require Import VoteSetThms.
From S2P Require Import HeightVoteSet.

Import types crypto quorum valset recoverer voteset vsinv vssafe vsthms heightvs.

Module hvsthms.

(** ** Generic facts on maps *)

Lemma map_size_le_length {A} `{Countable K} (m : gmap K A) (l : list K) :
  (∀ k, is_Some (m !! k) → k ∈ l) → size m ≤ length l.
Proof.
  intros Hm. rewrite <- size_dom.
  transitivity (size (list_to_set l : gset K)).
  - apply subseteq_size. intros k Hk%elem_of_dom. apply elem_of_list_to_set. auto.
  - clear Hm. induction l as [|k l IH]; cbn; [by rewrite size_empty|].
    rewrite size_union_alt. rewrite size_singleton.
    assert (size (list_to_set l ∖ {[k]} : gset K) ≤ size (list_to_set l : gset K)); [|lia].
    apply subseteq_size. set_solver.
Qed.

Lemma concat_length_le {A} n (l : list (list A)) :
  (∀ x, x ∈ l → length x ≤ n) → length (concat l) ≤ n * length l.
Proof.
  induction l as [|x l IH]; intros Hl; cbn; [lia|]. rewrite length_app.
  assert (length x ≤ n) by (apply Hl; left).
  assert (length (concat l) ≤ n * length l) by (apply IH; intros; apply Hl; by right). lia.
Qed.

Section thms.
Context `{Crypto} `{Dashd} `{MapOrder}.

(** A height vote set for [vals] at height [h] of chain [cid]. *)
Section height.
Context (sha_len : ∀ x, length (sha256 x) = 32) (bt : byte_types).
Context (cid : bytes) (h : Z) (vals : ValidatorSet).
Context (Hvals : validated vals) (Hh : h ≠ 0%Z).

Definition round_ok (r : Z) (rvs : RoundVoteSet) : Prop :=
  ∃ p c, rvs = mkRVS (Some p) (Some c) None ∧
    reachable cid h r PrevoteType vals p ∧ reachable cid h r PrecommitType vals c.

(** The set holds a verified vote of the validator for the round. *)
Definition voted (hvs : HeightVoteSet) (proTxHash : bytes) (r : Z) : Prop :=
  ∃ t vs i v, getVoteSet hvs r t = Ok (Some vs) ∧ stored vs i v ∧ good_vote vs i v ∧
    Vote_ValidatorProTxHash v = proTxHash.

Record hvs_inv (hvs : HeightVoteSet) : Prop := {
  hi_chain : hvs_chainID hvs = cid;
  hi_height : hvs_height hvs = h;
  hi_vals : hvs_valSet hvs = vals;
  hi_round : (0 ≤ hvs_round hvs < MaxInt32)%Z;
  hi_ok : ∀ r rvs, roundVoteSets hvs !! r = Some rvs → round_ok r rvs;
  hi_all : ∀ r, (0 ≤ r ≤ hvs_round hvs)%Z → is_Some (roundVoteSets hvs !! r);
  hi_few : ∀ r, is_Some (roundVoteSets hvs !! r) → (-1 ≤ r ≤ hvs_round hvs)%Z ∨
    ∃ p l, peerCatchupRounds hvs !! p = Some l ∧ r ∈ l;
  hi_peers : ∀ p l, peerCatchupRounds hvs !! p = Some l →
    length l ≤ 2 ∧ p ∈ ProTxHash <$> Validators vals ∧ ∀ r, r ∈ l → voted hvs p r }.

Lemma type_cases t : IsVoteTypeValid t = true → t = PrevoteType ∨ t = PrecommitType.
Proof. unfold IsVoteTypeValid. intros ?. bools; auto. Qed.

Lemma getVoteSet_ok hvs r t :
  hvs_inv hvs → IsVoteTypeValid t = true →
  match getVoteSet hvs r t with
  | Ok (Some vs) => is_Some (roundVoteSets hvs !! r) ∧ reachable cid h r t vals vs
  | Ok None => roundVoteSets hvs !! r = None
  | _ => False
  end.
Proof using.
  intros HI Ht. unfold getVoteSet. destruct (roundVoteSets hvs !! r) as [rvs|] eqn:Er; [|done].
  destruct (hi_ok _ HI _ _ Er) as (p & c & -> & Hp & Hc).
  destruct (type_cases t Ht) as [-> | ->]; cbn; split; eauto.
Qed.

Lemma reachable_step r t vs vs' :
  reachable cid h r t vals vs → step vs vs' → reachable cid h r t vals vs'.
Proof. intros (vs0 & Hn & Hs) Hst. exists vs0. split; [done|]. by eapply rtc_r. Qed.

Lemma reachable_extends r t vs vs' : reachable cid h r t vals vs → step vs vs' → extends vs vs'.
Proof using sha_len bt Hvals.
  intros Hr Hs. destruct (reachable_ok sha_len bt vals Hvals _ _ _ _ _ Hr) as (HI & Hb & _).
  by destruct (step_inv sha_len vs vs' HI Hb Hs) as (_ & _ & ?).
Qed.

Lemma stored_extends vs vs' i v : extends vs vs' → stored vs i v → stored vs' i v.
Proof.
  intros Hx (bv & Hk & Hi). destruct (ex_bvs _ _ Hx _ _ Hk) as (bv' & Hk' & Hi'). exists bv'. eauto.
Qed.

Lemma getVoteSet_put rvs t vs t' :
  IsVoteTypeValid t = true → IsVoteTypeValid t' = true →
  (if (t' =? PrevoteType)%Z then rvs_Prevotes (put_voteset rvs t vs)
   else rvs_Precommits (put_voteset rvs t vs)) =
  if decide (t = t') then Some vs
  else if (t' =? PrevoteType)%Z then rvs_Prevotes rvs else rvs_Precommits rvs.
Proof. intros [-> | ->]%type_cases [-> | ->]%type_cases; done. Qed.

Lemma getVoteSet_write hvs r t vs r' t' :
  is_Some (roundVoteSets hvs !! r) → IsVoteTypeValid t = true → IsVoteTypeValid t' = true →
  getVoteSet (write_voteset hvs r t vs) r' t' =
  if decide (r = r' ∧ t = t') then Ok (Some vs) else getVoteSet hvs r' t'.
Proof.
  intros [rvs Er] Ht Ht'. unfold getVoteSet, write_voteset. cbn [roundVoteSets set_rounds].
  destruct (decide (r = r')) as [<-|Hne].
  - rewrite lookup_alter_eq, Er. cbn [fmap option_fmap option_map].
    pose proof (getVoteSet_put rvs t vs t' Ht Ht') as E.
    destruct (type_cases t' Ht') as [-> | ->]; cbn in *; rewrite E;
      repeat case_decide; naive_solver.
  - rewrite lookup_alter_ne by done. rewrite decide_False by naive_solver. done.
Qed.

Lemma voted_type hvs p r : voted hvs p r → ∃ t, IsVoteTypeValid t = true ∧
  ∃ vs i v, getVoteSet hvs r t = Ok (Some vs) ∧ stored vs i v ∧ good_vote vs i v ∧
    Vote_ValidatorProTxHash v = p.
Proof.
  intros (t & vs & i & v & Hg & Hs). exists t. split; [|by exists vs, i, v].
  unfold getVoteSet in Hg. destruct (roundVoteSets hvs !! r); [|done].
  unfold IsVoteTypeValid. by destruct (t =? PrevoteType)%Z, (t =? PrecommitType)%Z.
Qed.

(** Writing back a later state of a vote set keeps the invariant. *)
Lemma write_inv hvs r t vs vs' :
  hvs_inv hvs → IsVoteTypeValid t = true → getVoteSet hvs r t = Ok (Some vs) → step vs vs' →
  hvs_inv (write_voteset hvs r t vs').
Proof using sha_len bt Hvals.
  intros HI Ht Hg Hs. pose proof (getVoteSet_ok hvs r t HI Ht) as Hr. rewrite Hg in Hr.
  destruct Hr as [Hr Hre]. pose proof (reachable_step _ _ _ _ Hre Hs) as Hre'.
  pose proof (reachable_extends _ _ _ _ Hre Hs) as Hx.
  assert (∀ r', is_Some (roundVoteSets (write_voteset hvs r t vs') !! r') ↔
    is_Some (roundVoteSets hvs !! r')) as Hdom.
  { intros r'. cbn. destruct (decide (r = r')) as [<-|]; [|by rewrite lookup_alter_ne].
    rewrite lookup_alter_eq. apply fmap_is_Some. }
  destruct HI as [E1 E2 E3 E4 Hok Hall Hfew Hpe]. constructor; try done.
  - intros r' rvs. cbn. destruct (decide (r = r')) as [<-|]; [|rewrite lookup_alter_ne by done; eauto].
    rewrite lookup_alter_eq. destruct Hr as [rvs0 Er]. rewrite Er. intros [= <-].
    destruct (Hok _ _ Er) as (p & c & -> & Hp & Hc). unfold put_voteset.
    destruct (type_cases t Ht) as [-> | ->]; cbn; [by exists vs', c|by exists p, vs'].
  - intros r' Hr'. apply Hdom. auto.
  - intros r' Hr'%Hdom. auto.
  - intros p l Hl. destruct (Hpe p l Hl) as (Hlen & Hp & Hv). split_and!; try done.
    intros r' (t' & Ht' & w & i & v & Hw & Hst & Hgd & Ep)%Hv%voted_type.
    exists t'. rewrite getVoteSet_write by done. case_decide as Hd; [|by exists w, i, v].
    destruct Hd as [<- <-]. assert (w = vs) as -> by congruence. exists vs', i, v.
    split_and!; try done; [by eapply stored_extends|].
    by eapply good_vote_hdr; [apply Hx|].
Qed.

(** ** Creating rounds *)

(** [b] is [a] with more rounds. *)
Definition more_rounds (a b : HeightVoteSet) : Prop :=
  b = set_rounds a (roundVoteSets b) ∧ roundVoteSets a ⊆ roundVoteSets b.

Lemma more_rounds_refl a : more_rounds a a.
Proof. split; [by destruct a|done]. Qed.

Lemma more_rounds_trans a b c : more_rounds a b → more_rounds b c → more_rounds a c.
Proof. intros [E1 H1'] [E2 H2']. split; [rewrite E2, E1; by destruct a|by etrans]. Qed.

Lemma addRound_spec hvs r :
  hvs_chainID hvs = cid → hvs_height hvs = h → hvs_valSet hvs = vals →
  roundVoteSets hvs !! r = None →
  ∃ p c, let rvs := mkRVS (Some p) (Some c) None in
    addRound hvs r = Ok (set_rounds hvs (<[r := rvs]> (roundVoteSets hvs))) ∧ round_ok r rvs ∧
    NewVoteSet cid h r PrevoteType vals = Ok p ∧ NewVoteSet cid h r PrecommitType vals = Ok c.
Proof using bt Hvals Hh.
  intros E1 E2 E3 Er. destruct (validated_ok vals bt Hvals) as [Hok Hsg].
  destruct (NewVoteSet_inv cid h r PrevoteType vals Hok Hsg Hh (va_keys _ Hvals)) as (p & Ep & _).
  destruct (NewVoteSet_inv cid h r PrecommitType vals Hok Hsg Hh (va_keys _ Hvals)) as (c & Ec & _).
  exists p, c. unfold addRound. rewrite Er, E1, E2, E3, (va_keys _ Hvals), Ep, Ec.
  cbn [wrap_err mbind outcome_bind]. split_and!; try done. exists p, c.
  split_and!; [done|exists p; by split; [|apply rtc_refl]|exists c; by split; [|apply rtc_refl]].
Qed.

Lemma addRound_more hvs r :
  hvs_chainID hvs = cid → hvs_height hvs = h → hvs_valSet hvs = vals →
  (∀ r' rvs, roundVoteSets hvs !! r' = Some rvs → round_ok r' rvs) →
  roundVoteSets hvs !! r = None →
  ∃ hvs', addRound hvs r = Ok hvs' ∧ more_rounds hvs hvs' ∧ is_Some (roundVoteSets hvs' !! r) ∧
    (∀ r' rvs, roundVoteSets hvs' !! r' = Some rvs → round_ok r' rvs) ∧
    ∀ r', is_Some (roundVoteSets hvs' !! r') → r' = r ∨ is_Some (roundVoteSets hvs !! r').
Proof using bt Hvals Hh.
  intros E1 E2 E3 Hok Er.
  destruct (addRound_spec hvs r E1 E2 E3 Er) as (p & c & Ea & Ho & _). eexists. split; [done|].
  split_and!; cbn.
  - split; [done|]. by apply insert_subseteq.
  - rewrite lookup_insert_eq. eauto.
  - intros r' rvs. destruct (decide (r = r')) as [<-|Hne].
    + by rewrite lookup_insert_eq; intros [= <-].
    + rewrite lookup_insert_ne by done. eauto.
  - intros r'. destruct (decide (r = r')) as [<-|Hne]; [by left|].
    rewrite lookup_insert_ne by done. by right.
Qed.

(** More rounds of the right kind, up to a higher round, keep the invariant. *)
Lemma more_inv hvs hvs' r :
  hvs_inv hvs → more_rounds hvs hvs' → (hvs_round hvs ≤ r < MaxInt32)%Z →
  (∀ r' rvs, roundVoteSets hvs' !! r' = Some rvs → round_ok r' rvs) →
  (∀ r', (0 ≤ r' ≤ r)%Z → is_Some (roundVoteSets hvs' !! r')) →
  (∀ r', is_Some (roundVoteSets hvs' !! r') → (-1 ≤ r' ≤ r)%Z ∨ is_Some (roundVoteSets hvs !! r')) →
  hvs_inv (set_round hvs' r).
Proof using.
  intros [E1 E2 E3 E4 Hok Hall Hfew Hpe] [E Hsub] Hr Hok' Hall' Hfew'.
  rewrite E. constructor; cbn; try done; [lia| |].
  - intros r' [?|[?|?]%Hfew]%Hfew'; [by left|left; lia|by right].
  - intros p l Hl. destruct (Hpe p l Hl) as (Hlen & Hp & Hv). split_and!; try done.
    intros r' (t & vs & i & v & Hg & Hs)%Hv. exists t, vs, i, v. split; [|done].
    unfold getVoteSet in *. cbn. destruct (roundVoteSets hvs !! r') as [rvs|] eqn:Er; [|done].
    by rewrite (lookup_weaken _ _ _ _ Er Hsub).
Qed.

Lemma add_rounds_spec fuel hvs0 hvs r round :
  hvs_inv hvs0 → more_rounds hvs0 hvs →
  (∀ r' rvs, roundVoteSets hvs !! r' = Some rvs → round_ok r' rvs) →
  (-1 ≤ r ≤ round + 1)%Z → (round < MaxInt32)%Z → (round - r + 1 < Z.of_nat fuel)%Z →
  ∃ hvs', add_rounds fuel hvs r round = Ok hvs' ∧ more_rounds hvs hvs' ∧
    (∀ r' rvs, roundVoteSets hvs' !! r' = Some rvs → round_ok r' rvs) ∧
    (∀ r', (r ≤ r' ≤ round)%Z → is_Some (roundVoteSets hvs' !! r')) ∧
    (∀ r', is_Some (roundVoteSets hvs' !! r') →
       (r ≤ r' ≤ round)%Z ∨ is_Some (roundVoteSets hvs !! r')).
Proof using bt Hvals Hh.
  intros HI. revert hvs r. induction fuel as [|fuel IH]; intros hvs r Hm Hok Hr Hmax Hf; [lia|].
  cbn [add_rounds]. destruct (Z.leb_spec r round) as [Hle|Hgt].
  2: { exists hvs. split_and!; try done; [apply more_rounds_refl|intros; lia|by right]. }
  assert (int32 (r + 1) = r + 1)%Z as -> by (apply int32_id; unfold_ints; lia).
  assert (∃ hvs1, more_rounds hvs hvs1 ∧ is_Some (roundVoteSets hvs1 !! r) ∧
    (∀ r' rvs, roundVoteSets hvs1 !! r' = Some rvs → round_ok r' rvs) ∧
    (∀ r', is_Some (roundVoteSets hvs1 !! r') → r' = r ∨ is_Some (roundVoteSets hvs !! r')) ∧
    match roundVoteSets hvs !! r with
    | Some _ => add_rounds fuel hvs (r + 1) round
    | None => hvs ← addRound hvs r; add_rounds fuel hvs (r + 1) round
    end = add_rounds fuel hvs1 (r + 1) round) as (hvs1 & Hm1 & Hr1 & Hok1 & Hfew1 & ->).
  { destruct (roundVoteSets hvs !! r) as [rvs|] eqn:Er.
    - exists hvs. split_and!; eauto using more_rounds_refl.
    - destruct Hm as [Em Hsub]. destruct HI as [E1 E2 E3 _ _ _ _ _].
      destruct (addRound_more hvs r) as (hvs1 & -> & ?); [by rewrite Em..|done|done|].
      exists hvs1. split_and!; naive_solver. }
  destruct (IH hvs1 (r + 1)%Z) as (hvs' & Ha & Hm' & Hok' & Hall' & Hfew');
    [by eapply more_rounds_trans|done|lia..|].
  exists hvs'. split_and!; try done; [by eapply more_rounds_trans| |].
  - intros r' Hr'. destruct (decide (r' = r)) as [->|]; [|apply Hall'; lia].
    destruct Hr1 as [rvs Hrv]. exists rvs. eapply lookup_weaken; [done|apply Hm'].
  - intros r' [?|[->|?]%Hfew1]%Hfew'; [left; lia|left; lia|by right].
Qed.

(** Enough fuel for the loop of [SetRound]. *)
Definition round_fuel (hvs : HeightVoteSet) (round : Z) : nat :=
  Z.to_nat (round - hvs_round hvs + 3).

Lemma SetRound_ok fuel hvs round :
  hvs_inv hvs → (hvs_round hvs ≤ round < MaxInt32)%Z → round_fuel hvs round ≤ fuel →
  ∃ hvs', SetRound fuel hvs round = Ok (set_round hvs' round) ∧ more_rounds hvs hvs' ∧
    hvs_inv (set_round hvs' round).
Proof using bt Hvals Hh.
  intros HI Hr Hf. pose proof (hi_round _ HI) as Hrd. unfold SetRound, round_fuel in *.
  destruct (SafeSubInt32_spec (hvs_round hvs) 1) as [[_ ->]|[Hn _]]; [unfold_ints; lia..| |].
  2: { exfalso. apply Hn. unfold_ints; lia. }
  destruct (Z.ltb_spec round (hvs_round hvs - 1)); [lia|]. rewrite andb_false_r.
  destruct (add_rounds_spec fuel hvs hvs (hvs_round hvs - 1) round HI) as
    (hvs' & -> & Hm & Hok & Hall & Hfew);
    [apply more_rounds_refl|apply (hi_ok _ HI)|lia..|].
  exists hvs'. cbn [mbind outcome_bind]. split_and!; try done.
  eapply more_inv; try done.
  - intros r' Hr'. destruct (decide (r' < hvs_round hvs - 1)%Z); [|apply Hall; lia].
    destruct (hi_all _ HI r') as [rvs Hrv]; [lia|]. exists rvs.
    eapply lookup_weaken; [done|apply Hm].
  - intros r' [?|?]%Hfew; [left; lia|by right].
Qed.

(** ** Adding votes *)

Lemma checkVoteClaim_ok hvs v :
  hvs_inv hvs → match checkVoteClaim hvs v with
  | Ok _ => Vote_ValidatorProTxHash v ∈ ProTxHash <$> Validators vals
  | Err _ => True
  | Panic => False
  end.
Proof using.
  intros HI. unfold checkVoteClaim. rewrite (hi_vals _ HI). repeat (split_if; [done|]).
  unfold GetByIndex. split_if; [done|]. destruct (Validators vals !! _) as [val|] eqn:Ev; [|done].
  case_bool_decide as Hp; cbn [negb]; [|done]. rewrite Hp. apply list_elem_of_fmap_2.
  by apply list_elem_of_lookup_2 in Ev.
Qed.

Lemma new_round_inv hvs r rvs p :
  let seen := default [] (peerCatchupRounds hvs !! p) in
  let hvs' := set_catchup (set_rounds hvs (<[r := rvs]> (roundVoteSets hvs)))
                (<[p := seen ++ [r]]> (peerCatchupRounds hvs)) in
  hvs_inv hvs → roundVoteSets hvs !! r = None → round_ok r rvs → length seen < 2 →
  p ∈ ProTxHash <$> Validators vals → voted hvs' p r → hvs_inv hvs'.
Proof using.
  intros seen hvs' [E1 E2 E3 E4 Hok Hall Hfew Hpe] Er Ho Hlen Hp Hv.
  assert (∀ q r', voted hvs q r' → voted hvs' q r') as Hkeep.
  { intros q r' (t & vs & i & v & Hg & Hs). exists t, vs, i, v. split; [|done].
    unfold getVoteSet in *. cbn. destruct (decide (r = r')) as [<-|]; [by rewrite Er in Hg|].
    by rewrite lookup_insert_ne. }
  constructor; cbn; try done.
  - intros r' rvs'. destruct (decide (r = r')) as [<-|].
    + by rewrite lookup_insert_eq; intros [= <-].
    + rewrite lookup_insert_ne by done. eauto.
  - intros r' Hr'. destruct (decide (r = r')) as [<-|]; [rewrite lookup_insert_eq; eauto|].
    rewrite lookup_insert_ne by done. auto.
  - intros r' Hr'. destruct (decide (r = r')) as [<-|].
    { right. exists p, (seen ++ [r]). rewrite lookup_insert_eq. split; [done|].
      apply elem_of_app. right. by apply list_elem_of_singleton. }
    rewrite lookup_insert_ne in Hr' by done. destruct (Hfew r' Hr') as [?|(q & l & Hl & Hin)];
      [by left|]. right. destruct (decide (p = q)) as [<-|].
    + exists p, (seen ++ [r]). rewrite lookup_insert_eq. split; [done|]. unfold seen.
      rewrite Hl. cbn. apply elem_of_app. by left.
    + exists q, l. by rewrite lookup_insert_ne.
  - intros q l. destruct (decide (p = q)) as [<-|].
    + rewrite lookup_insert_eq. intros [= <-]. rewrite length_app. cbn. split_and!; [lia|done|].
      intros r' [Hin| ->%list_elem_of_singleton]%elem_of_app; [|done]. apply Hkeep.
      unfold seen in Hin. destruct (peerCatchupRounds hvs !! p) as [l|] eqn:El;
        [|by apply elem_of_nil in Hin]. by destruct (Hpe p l El) as (_ & _ & ?); auto.
    + rewrite lookup_insert_ne by done. intros Hl. destruct (Hpe q l Hl) as (? & ? & ?). eauto.
Qed.

Lemma fresh_conflict r t vs i e :
  NewVoteSet cid h r t vals = Ok vs → votes vs !! i = Some (Some e) → False.
Proof.
  unfold NewVoteSet. intros Hn He. ok_inv. cbn in He.
  apply lookup_replicate in He as [? _]. done.
Qed.

Lemma fresh_getVote r t vs i key e :
  NewVoteSet cid h r t vals = Ok vs → getVote vs i key = Ok (Some e) → False.
Proof.
  intros Hn Hg. unfold getVote in Hg. apply bind_Ok in Hg as (o & Ho & Hg).
  destruct o as [e'|].
  - unfold index in Ho. destruct (i <? 0)%Z; [done|]. apply deref_Ok in Ho.
    exact (fresh_conflict r t vs _ _ Hn Ho).
  - unfold NewVoteSet in Hn. ok_inv. done.
Qed.

(** A round created for a vote: kept if the vote is added, gone otherwise. *)
Lemma addVote_new hvs r b verified :
  hvs_inv hvs → wf_vote (ref_vote r) → minted verified →
  IsVoteTypeValid (Vote_Type (ref_vote r)) = true →
  getVoteSet hvs (Vote_Round (ref_vote r)) (Vote_Type (ref_vote r)) = Ok None →
  ∃ hvs' added err, hvs_addVote hvs r b verified = Ok (hvs', added, err) ∧ hvs_inv hvs' ∧
    let v := ref_vote r in let p := Vote_ValidatorProTxHash v in
    let seen := default [] (peerCatchupRounds hvs !! p) in
    (added = false ∧ hvs' = hvs ∧ ∃ e, err = Some e ∧ ∀ w, e ≠ ErrVoteConflicting w) ∨
    (added = true ∧ err = None ∧ length seen < 2 ∧ voted hvs' p (Vote_Round v) ∧
     peerCatchupRounds hvs' = <[p := seen ++ [Vote_Round v]]> (peerCatchupRounds hvs) ∧
     ∀ rd, rd ≠ Vote_Round v → roundVoteSets hvs' !! rd = roundVoteSets hvs !! rd).
Proof using sha_len bt Hvals Hh.
  intros HI Hwf Hm Ht Hg. set (v := ref_vote r) in *. unfold hvs_addVote. fold v.
  rewrite (hi_vals _ HI), (va_keys _ Hvals), Ht, Hg. cbn [negb mbind outcome_bind].
  pose proof (checkVoteClaim_ok hvs v HI) as Hc.
  destruct (checkVoteClaim hvs v) as [[]|e|]; [|do 3 eexists; split; [done|split; [done|left; eauto]]|done].
  destruct (Nat.leb_spec 2 (length (default [] (peerCatchupRounds hvs !! Vote_ValidatorProTxHash v))))
    as [|Hlen]; [do 3 eexists; split; [done|split; [done|left; eauto]]|].
  pose proof (getVoteSet_ok hvs (Vote_Round v) (Vote_Type v) HI Ht) as Hr. rewrite Hg in Hr.
  destruct (addRound_spec hvs (Vote_Round v) (hi_chain _ HI) (hi_height _ HI) (hi_vals _ HI) Hr)
    as (p & c & -> & Ho & Hnp & Hnc). cbn [mbind outcome_bind].
  set (rvs := mkRVS (Some p) (Some c) None) in *.
  set (hvs1 := set_rounds hvs (<[Vote_Round v:=rvs]> (roundVoteSets hvs))).
  assert (∃ vs, getVoteSet hvs1 (Vote_Round v) (Vote_Type v) = Ok (Some vs) ∧
    NewVoteSet cid h (Vote_Round v) (Vote_Type v) vals = Ok vs) as (vs & -> & Hn).
  { unfold getVoteSet, hvs1. cbn. rewrite lookup_insert_eq.
    destruct (type_cases _ Ht) as [-> | ->]; cbn; eauto. }
  cbn [deref mbind outcome_bind]. unfold add_to_voteset. fold v.
  assert (reachable cid h (Vote_Round v) (Vote_Type v) vals vs) as Hre by (exists vs; by split; [|apply rtc_refl]).
  pose proof (reachable_ok sha_len bt vals Hvals _ _ _ _ _ Hre) as (HIv & _).
  pose proof (addVote_spec sha_len vs r b verified HIv Hwf Hm) as Hs.
  destruct (voteset.addVote vs (Some r) b verified) as [[[vs' added] cf]|e|] eqn:Ea; [| |done].
  2: { do 3 eexists. split; [done|]. cbn. rewrite delete_insert_id by done.
       destruct hvs; split; [done|]. left. eauto. }
  destruct Hs as (_ & Hx & _ & (i & Ei & Hadd & _ & Hcf) & _). fold v in Ei, Hadd, Hcf.
  destruct cf as [e|]; [by destruct Hcf as (?%(fresh_conflict _ _ _ _ _ Hn) & _)|].
  destruct Hcf as [-> | (_ & e & Hge & _)]; [|by apply (fresh_getVote _ _ _ _ _ _ Hn) in Hge].
  destruct (Hadd eq_refl) as (Hgd & Hst & _). cbn [fmap option_fmap option_map mbind outcome_bind].
  assert (write_voteset hvs1 (Vote_Round v) (Vote_Type v) vs' =
    set_rounds hvs (<[Vote_Round v := put_voteset rvs (Vote_Type v) vs']> (roundVoteSets hvs))) as ->.
  { unfold write_voteset, hvs1. cbn. by rewrite alter_insert_eq. }
  assert (round_ok (Vote_Round v) (put_voteset rvs (Vote_Type v) vs')) as Ho'.
  { assert (step vs vs') as Hstep by (by eapply (step_vote vs r b verified)).
    pose proof (reachable_step _ _ _ _ Hre Hstep). destruct Ho as (p' & c' & [= <- <-] & Hp & Hc').
    destruct (type_cases _ Ht) as [E|E]; rewrite E in *; [by exists vs', c|by exists p, vs']. }
  do 3 eexists. split; [done|]. cbn.
  match goal with |- hvs_inv ?x ∧ _ => assert (voted x (Vote_ValidatorProTxHash v) (Vote_Round v)) as Hv end.
  { exists (Vote_Type v), vs', i, v. unfold getVoteSet. cbn. rewrite lookup_insert_eq.
    split_and!; try done; [|by eapply good_vote_hdr; [apply Hx|]].
    unfold put_voteset. destruct (type_cases _ Ht) as [E|E]; by rewrite E. }
  split; [by apply new_round_inv|]. right. split_and!; try done.
  intros rd Hne. by rewrite lookup_insert_ne.
Qed.

(** A validator's verified votes for two blocks at one round. *)
Definition double_signed (vs : VoteSet) (e v : Vote) : Prop :=
  ∃ i, good_vote vs i e ∧ good_vote vs i v ∧ Vote_BlockID e ≠ Vote_BlockID v.

Lemma addVote_known hvs r b verified vs :
  hvs_inv hvs → wf_vote (ref_vote r) → minted verified →
  IsVoteTypeValid (Vote_Type (ref_vote r)) = true →
  getVoteSet hvs (Vote_Round (ref_vote r)) (Vote_Type (ref_vote r)) = Ok (Some vs) →
  ∃ hvs' added err, hvs_addVote hvs r b verified = Ok (hvs', added, err) ∧ hvs_inv hvs' ∧
    let v := ref_vote r in
    peerCatchupRounds hvs' = peerCatchupRounds hvs ∧
    (∀ rd, rd ≠ Vote_Round v → roundVoteSets hvs' !! rd = roundVoteSets hvs !! rd) ∧
    (added = true → voted hvs' (Vote_ValidatorProTxHash v) (Vote_Round v)) ∧
    (∀ e, err = Some (ErrVoteConflicting e) → double_signed vs e v).
Proof using sha_len bt Hvals.
  intros HI Hwf Hm Ht Hg. set (v := ref_vote r) in *. unfold hvs_addVote. fold v.
  rewrite (hi_vals _ HI), (va_keys _ Hvals), Ht, Hg. cbn [negb mbind outcome_bind].
  pose proof (getVoteSet_ok hvs (Vote_Round v) (Vote_Type v) HI Ht) as Hr. rewrite Hg in Hr.
  destruct Hr as [Hsome Hre]. pose proof (reachable_ok sha_len bt vals Hvals _ _ _ _ _ Hre) as (HIv & _).
  pose proof (addVote_spec sha_len vs r b verified HIv Hwf Hm) as Hs. unfold add_to_voteset. fold v.
  destruct (voteset.addVote vs (Some r) b verified) as [[[vs' added] cf]|e|] eqn:Ea; [| |done].
  2: { exists hvs, false, (Some (ErrVoteSet e)). by split_and!. }
  destruct Hs as (_ & Hx & _ & (i & Ei & Hadd & _ & Hcf) & _). fold v in Ei, Hadd, Hcf.
  do 3 eexists. split; [done|].
  split; [by eapply write_inv; [..|eapply (step_vote vs r b verified)]|].
  split_and!; [done| | |].
  - intros rd Hne. cbn. by rewrite lookup_alter_ne.
  - intros ->. destruct (Hadd eq_refl) as (Hgd & Hst & _). exists (Vote_Type v), vs', i, v.
    rewrite getVoteSet_write, decide_True by done. split_and!; try done.
    by eapply good_vote_hdr; [apply Hx|].
  - intros e. destruct cf as [e'|]; [|done]. intros [= <-].
    destruct Hcf as (_ & ? & ? & ?). by exists i.
Qed.

Lemma wf_vote_type v : wf_vote v → IsVoteTypeValid (Vote_Type v) = true.
Proof. intros [Hv _]. unfold Vote_ValidateBasic in Hv. destruct (IsVoteTypeValid _); done. Qed.

Lemma SetPeerMaj23_ok hvs hh r t peer blk :
  hvs_inv hvs → match hvs_SetPeerMaj23 hvs hh r t peer blk with
  | Ok hvs' => hvs_inv hvs'
  | Err _ => True
  | Panic => False
  end.
Proof using sha_len bt Hvals.
  intros HI. unfold hvs_SetPeerMaj23. destruct (IsVoteTypeValid t) eqn:Ht; cbn [negb]; [|done].
  pose proof (getVoteSet_ok hvs r t HI Ht) as Hr.
  destruct (getVoteSet hvs r t) as [[vs|]| |] eqn:Hg; cbn [mbind outcome_bind]; try done.
  destruct Hr as [Hsome Hre].
  destruct (reachable_ok sha_len bt vals Hvals _ _ _ _ _ Hre) as (HIv & [Hb _] & _).
  pose proof (SetPeerMaj23_spec vs peer blk hh r HIv Hb) as Hs.
  destruct (voteset.SetPeerMaj23 vs peer blk hh r) as [vs'| |] eqn:Es; cbn [wrap_err mbind outcome_bind];
    try done.
  by eapply write_inv; [..|eapply (step_peer vs peer blk hh r)].
Qed.

(** ** Reachable height vote sets *)

(** The operations of consensus: rounds only move forward. *)
Inductive hstep (hvs : HeightVoteSet) : HeightVoteSet → Prop :=
  | hstep_round fuel r hvs' :
      (hvs_round hvs ≤ r < MaxInt32)%Z → SetRound fuel hvs r = Ok hvs' → hstep hvs hvs'
  | hstep_vote r b verified hvs' added err :
      wf_vote (ref_vote r) → minted verified →
      hvs_addVote hvs r b verified = Ok (hvs', added, err) → hstep hvs hvs'
  | hstep_peer hh r t peer blk hvs' :
      hvs_SetPeerMaj23 hvs hh r t peer blk = Ok hvs' → hstep hvs hvs'.

Definition hreachable (hvs : HeightVoteSet) : Prop :=
  ∃ hvs0, NewHeightVoteSet cid h vals = Ok hvs0 ∧ rtc hstep hvs0 hvs.

Lemma NewHeightVoteSet_ok : ∃ hvs0, NewHeightVoteSet cid h vals = Ok hvs0 ∧ hvs_inv hvs0.
Proof using bt Hvals Hh.
  unfold NewHeightVoteSet, Reset. cbn [hvs_chainID hvs_round].
  destruct (addRound_spec (mkHVS cid h vals 0 ∅ ∅) 0) as (p & c & -> & Ho & _); [done..|].
  eexists. split; [done|]. constructor; try done.
  - intros r rvs. cbn. intros [[<- <-]|[_ Hl]]%lookup_insert_Some; [done|]. by rewrite lookup_empty in Hl.
  - cbn. intros r Hr. assert (r = 0%Z) as -> by lia. rewrite lookup_insert_eq. eauto.
  - cbn. intros r [rvs [[<- _]|[_ Hl]]%lookup_insert_Some]; [left; lia|]. by rewrite lookup_empty in Hl.
Qed.

Lemma add_rounds_fuel fuel fuel' hvs r round hvs' :
  add_rounds fuel hvs r round = Ok hvs' → fuel ≤ fuel' → add_rounds fuel' hvs r round = Ok hvs'.
Proof.
  revert fuel' hvs r. induction fuel as [|fuel IH]; intros fuel' hvs r Ha Hf; [done|].
  destruct fuel' as [|fuel']; [lia|]. cbn [add_rounds] in *. split_if; [|done].
  destruct (roundVoteSets hvs !! r); [apply IH; [done|lia]|].
  apply bind_Ok in Ha as (hvs1 & -> & Ha). cbn [mbind outcome_bind]. apply IH; [done|lia].
Qed.

Lemma SetRound_fuel fuel fuel' hvs r hvs' :
  SetRound fuel hvs r = Ok hvs' → fuel ≤ fuel' → SetRound fuel' hvs r = Ok hvs'.
Proof.
  unfold SetRound. intros Hs Hf. destruct (SafeSubInt32 _ _); [|done..]. split_if; [done|].
  apply bind_Ok in Hs as (hvs1 & Ha & Hs). by rewrite (add_rounds_fuel fuel fuel' _ _ _ _ Ha Hf).
Qed.

Lemma hstep_inv hvs hvs' : hvs_inv hvs → hstep hvs hvs' → hvs_inv hvs'.
Proof using sha_len bt Hvals Hh.
  intros HI [fuel r hvs1 Hr Hs|r b ve hvs1 added err Hwf Hm Ha|hh r t peer blk hvs1 Hs].
  - destruct (SetRound_ok (fuel + round_fuel hvs r) hvs r HI Hr) as (hvs2 & Hs2 & _ & HI2); [lia|].
    apply (SetRound_fuel _ (fuel + round_fuel hvs r)) in Hs; [|lia].
    assert (hvs1 = set_round hvs2 r) as -> by congruence. done.
  - pose proof (wf_vote_type _ Hwf) as Ht. pose proof (getVoteSet_ok hvs (Vote_Round (ref_vote r)) _ HI Ht) as Hg.
    destruct (getVoteSet hvs _ _) as [[vs|]| |] eqn:Eg; [| |done..].
    + destruct (addVote_known hvs r b ve vs HI Hwf Hm Ht Eg) as (h1 & a1 & e1 & E & HI1 & _). congruence.
    + destruct (addVote_new hvs r b ve HI Hwf Hm Ht Eg) as (h1 & a1 & e1 & E & HI1 & _). congruence.
  - pose proof (SetPeerMaj23_ok hvs hh r t peer blk HI) as Hp. by rewrite Hs in Hp.
Qed.

Lemma hreachable_inv hvs : hreachable hvs → hvs_inv hvs.
Proof using sha_len bt Hvals Hh.
  intros (hvs0 & Hn & Hs). destruct NewHeightVoteSet_ok as (hvs0' & Hn' & HI).
  assert (hvs0' = hvs0) as -> by congruence. clear Hn Hn'.
  induction Hs as [|x y z Hxy _ IH]; [done|]. apply IH. by eapply hstep_inv.
Qed.

(** ** Theorems *)

Lemma rounds_bound hvs :
  hvs_inv hvs →
  (Z.of_nat (size (roundVoteSets hvs)) ≤ hvs_round hvs + 2 + 2 * Size vals)%Z.
Proof using.
  intros HI. pose proof (hi_round _ HI) as Hr.
  set (catchup := concat (snd <$> map_to_list (peerCatchupRounds hvs))).
  assert (size (roundVoteSets hvs) ≤ length (seqZ (-1) (hvs_round hvs + 2) ++ catchup)) as Hs.
  { apply map_size_le_length. intros r Hrs. apply elem_of_app.
    destruct (hi_few _ HI r Hrs) as [?|(p & l & Hl & Hin)]; [left; apply elem_of_seqZ; lia|].
    right. unfold catchup. apply list_elem_of_In, in_concat. exists l.
    split; apply list_elem_of_In; [|done].
    apply list_elem_of_fmap. exists (p, l). split; [done|by apply elem_of_map_to_list]. }
  assert (length catchup ≤ 2 * length (snd <$> map_to_list (peerCatchupRounds hvs))) as Hc.
  { apply concat_length_le. intros l ([p l'] & -> & Hl%elem_of_map_to_list)%list_elem_of_fmap.
    by destruct (hi_peers _ HI p l' Hl). }
  assert (size (peerCatchupRounds hvs) ≤ length (ProTxHash <$> Validators vals)) as Hp.
  { apply map_size_le_length. intros p [l Hl]. by destruct (hi_peers _ HI p l Hl) as (_ & ? & _). }
  rewrite length_fmap, length_map_to_list in Hc. rewrite length_fmap in Hp.
  rewrite length_app, length_seqZ in Hs. unfold Size. lia.
Qed.

(** C32: in every height vote set that consensus reaches, all rounds up to the
    current one are tracked; every tracked vote set is one reached by adding votes
    and claims to a new set of its round and type, so the theorems on vote sets
    hold of it; a later round is tracked only with a verified vote of a validator
    for it; and at most two later rounds per validator are tracked. *)
Theorem hvs_reachable_inv hvs :
  hreachable hvs →
  (∀ r, (0 ≤ r ≤ hvs_round hvs)%Z → is_Some (roundVoteSets hvs !! r)) ∧
  (∀ r t vs, getVoteSet hvs r t = Ok (Some vs) → reachable cid h r t vals vs) ∧
  (∀ r, is_Some (roundVoteSets hvs !! r) → (-1 ≤ r ≤ hvs_round hvs)%Z ∨
     ∃ p, p ∈ ProTxHash <$> Validators vals ∧ voted hvs p r) ∧
  (Z.of_nat (size (roundVoteSets hvs)) ≤ hvs_round hvs + 2 + 2 * Size vals)%Z.
Proof using sha_len bt Hvals Hh.
  intros HI%hreachable_inv. split_and!.
  - apply (hi_all _ HI).
  - intros r t vs Hg. destruct (IsVoteTypeValid t) eqn:Ht.
    + pose proof (getVoteSet_ok hvs r t HI Ht) as Hr. rewrite Hg in Hr. apply Hr.
    + exfalso. unfold getVoteSet in Hg. destruct (roundVoteSets hvs !! r); [|done].
      unfold IsVoteTypeValid in Ht. by destruct (t =? PrevoteType)%Z, (t =? PrecommitType)%Z.
  - intros r [?|(p & l & Hl & Hin)]%(hi_few _ HI); [by left|right]. exists p.
    destruct (hi_peers _ HI p l Hl) as (_ & ? & Hv). auto.
  - by apply rounds_bound.
Qed.

(** Adding a vote never panics and touches only the vote's round.  A vote
    reported as added is stored, verified.  A vote reported as conflicting is a
    double sign.  A vote for an untracked round either is rejected and leaves the
    height vote set exactly as it was, or is added as one of at most two such
    rounds of its validator. *)
Theorem hvs_addVote_correct hvs r b verified :
  hreachable hvs → wf_vote (ref_vote r) → minted verified →
  ∃ hvs' added err, hvs_addVote hvs r b verified = Ok (hvs', added, err) ∧
    let v := ref_vote r in let p := Vote_ValidatorProTxHash v in
    let seen := default [] (peerCatchupRounds hvs !! p) in
    (added = true → voted hvs' p (Vote_Round v)) ∧
    (∀ e, err = Some (ErrVoteConflicting e) → ∃ vs,
       getVoteSet hvs (Vote_Round v) (Vote_Type v) = Ok (Some vs) ∧ double_signed vs e v) ∧
    (∀ rd, rd ≠ Vote_Round v → roundVoteSets hvs' !! rd = roundVoteSets hvs !! rd) ∧
    (roundVoteSets hvs !! Vote_Round v = None →
     (added = false ∧ hvs' = hvs ∧ is_Some err) ∨
     (added = true ∧ length seen < 2 ∧
      peerCatchupRounds hvs' = <[p := seen ++ [Vote_Round v]]> (peerCatchupRounds hvs))).
Proof using sha_len bt Hvals Hh.
  intros HI%hreachable_inv Hwf Hm. pose proof (wf_vote_type _ Hwf) as Ht.
  pose proof (getVoteSet_ok hvs (Vote_Round (ref_vote r)) _ HI Ht) as Hg.
  destruct (getVoteSet hvs _ _) as [[vs|]| |] eqn:Eg; [| |done..].
  - destruct (addVote_known hvs r b verified vs HI Hwf Hm Ht Eg) as
      (h1 & a1 & e1 & E & HI1 & Ec & Ho & Hv & He).
    exists h1, a1, e1. split; [done|]. cbn zeta in *. split_and!; [done|eauto|done|].
    intros Hn. destruct Hg as [[rvs Hg] _]. congruence.
  - destruct (addVote_new hvs r b verified HI Hwf Hm Ht Eg) as (h1 & a1 & e1 & E & HI1 & Hc).
    exists h1, a1, e1. split; [done|]. cbn zeta in *. split_and!.
    + by destruct Hc as [(-> & _)|(_ & _ & _ & ? & _)].
    + intros e ->. by destruct Hc as [(_ & _ & e' & [= <-] & He)|(_ & ? & _)]; [destruct (He e)|].
    + destruct Hc as [(_ & -> & _)|(_ & _ & _ & _ & _ & ?)]; done.
    + intros _. destruct Hc as [(? & ? & e & -> & _)|(? & _ & ? & _ & ? & _)]; eauto.
Qed.

(** [SetRound] to a round not below the current one terminates within the
    given fuel, does not panic, tracks every round up to the new one and keeps the
    vote sets it had. *)
Theorem SetRound_total fuel hvs round :
  hreachable hvs → (hvs_round hvs ≤ round < MaxInt32)%Z → round_fuel hvs round ≤ fuel →
  ∃ hvs', SetRound fuel hvs round = Ok hvs' ∧ hvs_round hvs' = round ∧
    (∀ r, (0 ≤ r ≤ round)%Z → is_Some (roundVoteSets hvs' !! r)) ∧
    roundVoteSets hvs ⊆ roundVoteSets hvs' ∧ peerCatchupRounds hvs' = peerCatchupRounds hvs.
Proof using sha_len bt Hvals Hh.
  intros HI%hreachable_inv Hr Hf.
  destruct (SetRound_ok fuel hvs round HI Hr Hf) as (hvs' & Es & [E Hsub] & HI').
  eexists. split; [done|]. split_and!; [done|apply (hi_all _ HI')|done|]. by rewrite E.
Qed.

Definition has_majority (hvs : HeightVoteSet) (r : Z) (b : BlockID) : Prop :=
  ∃ vs, Prevotes hvs r = Ok (Some vs) ∧ maj23 vs = Some b.

Lemma pol_below_spec hvs n :
  ∃ r b, pol_below hvs n = Ok (r, b) ∧
    ((0 ≤ r < Z.of_nat n)%Z ∧ has_majority hvs r b ∧
       (∀ r' b', (r < r' < Z.of_nat n)%Z → ¬ has_majority hvs r' b') ∨
     r = (-1)%Z ∧ ∀ r' b', (0 ≤ r' < Z.of_nat n)%Z → ¬ has_majority hvs r' b').
Proof.
  induction n as [|n (r & b & E & IH)]; cbn [pol_below].
  { do 2 eexists. split; [done|]. right. split; [done|]. lia. }
  assert (∃ o, getVoteSet hvs (Z.of_nat n) PrevoteType = Ok o) as [o Eo].
  { unfold getVoteSet. destruct (roundVoteSets hvs !! _); cbn; eauto. }
  rewrite Eo. cbn [mbind outcome_bind]. unfold has_majority, Prevotes in *.
  destruct (majority o) as [b' []] eqn:Em.
  - exists (Z.of_nat n), b'. split; [done|]. left. split_and!; [lia|lia| |lia].
    destruct o as [vs|]; [|done]. exists vs. split; [done|].
    cbn in Em. unfold TwoThirdsMajority in Em. destruct (maj23 vs); congruence.
  - exists r, b. split; [done|].
    assert (∀ b1, ¬ ∃ vs, getVoteSet hvs (Z.of_nat n) PrevoteType = Ok (Some vs) ∧ maj23 vs = Some b1)
      as Hno.
    { intros b1 (vs & Hv & Hm). assert (o = Some vs) as -> by congruence.
      cbn in Em. unfold TwoThirdsMajority in Em. by rewrite Hm in Em. }
    destruct IH as [(Hr & Hm & IH)|(-> & IH)]; [left|right]; split_and!; try done; try lia;
      intros r' b1 Hr'; (destruct (decide (r' = Z.of_nat n)) as [->|]; [apply Hno|apply IH; lia]).
Qed.

(** [POLInfo] returns the last round up to the current one whose prevotes have
    a majority, with the block of the majority, and -1 if there is none. *)
Theorem POLInfo_spec hvs :
  hreachable hvs →
  ∃ r b, POLInfo hvs = Ok (r, b) ∧
    ((0 ≤ r ≤ hvs_round hvs)%Z ∧ has_majority hvs r b ∧
       (∀ r' b', (r < r' ≤ hvs_round hvs)%Z → ¬ has_majority hvs r' b') ∨
     r = (-1)%Z ∧ ∀ r' b', (0 ≤ r' ≤ hvs_round hvs)%Z → ¬ has_majority hvs r' b').
Proof using sha_len bt Hvals Hh.
  intros HI%hreachable_inv. pose proof (hi_round _ HI).
  destruct (pol_below_spec hvs (Z.to_nat (hvs_round hvs + 1))) as (r & b & E & Hs).
  exists r, b. split; [done|]. destruct Hs as [(Hr & Hm & Hs)|(-> & Hs)]; [left|right]; split_and!;
    try done; try lia; intros r' b' Hr'; apply Hs; lia.
Qed.

End height.

End thms.

(** ** Witnesses *)

Lemma demo_height :
  ∃ hvs, @hreachable toy_crypto toy_dashd toy_order [x61] 5 demo_vals hvs ∧
    (0 ≤ hvs_round hvs < MaxInt32)%Z.
Proof.
  destruct (@NewHeightVoteSet_ok toy_crypto toy_dashd toy_order demo_byte_types [x61] 5 demo_vals
    demo_validated) as (hvs & Hn & HI); [discriminate|].
  exists hvs. split; [by exists hvs; split; [|apply rtc_refl]|]. apply (hi_round _ _ _ _ HI).
Qed.

(** Round -1 is tracked once the first round is entered. *)
Definition tracks_minus_one (cid : bytes) (h : Z) (vals : ValidatorSet) : bool :=
  match NewHeightVoteSet cid h vals with
  | Ok hvs =>
      match SetRound 5 hvs 1 with
      | Ok hvs => bool_decide (is_Some (roundVoteSets hvs !! (-1)%Z))
      | _ => false
      end
  | _ => false
  end.

Lemma demo_minus_one : tracks_minus_one [x61] 5 demo_vals = true.
Proof. vm_compute. reflexivity. Qed.

(** A precommit of a later round, signed, in the first round. *)
Definition later_vote (round : Z) : Vote :=
  let v := mkVote PrecommitType 5 round (demo_block x01) (demo_hash x07) 0 [x01] [] in
  match @MakeQuorumSigns toy_crypto [x61] 100 demo_quorumHash (Vote_ToProto v) with
  | Ok q => mkVote PrecommitType 5 round (demo_block x01) (demo_hash x07) 0 (toy_sign (SI_SignHash (QSD_Block q))) []
  | _ => v
  end.

Definition later_tracked : bool :=
  match NewHeightVoteSet [x61] 5 demo_vals with
  | Ok hvs =>
      match @hvs_addVote toy_crypto toy_dashd toy_order hvs (mkRef 0 (later_vote 3)) None None with
      | Ok (hvs, true, _) => bool_decide (is_Some (roundVoteSets hvs !! 3%Z)) && (hvs_round hvs =? 0)%Z
      | _ => false
      end
  | _ => false
  end.

Lemma later_tracked_true : later_tracked = true.
Proof. vm_compute. reflexivity. Qed.

Lemma demo_later :
  ∃ hvs, @hreachable toy_crypto toy_dashd toy_order [x61] 5 demo_vals hvs ∧
    is_Some (roundVoteSets hvs !! 3%Z) ∧ hvs_round hvs = 0%Z.
Proof.
  pose proof later_tracked_true as Ht. unfold later_tracked in Ht.
  destruct (NewHeightVoteSet _ _ _) as [hvs0| |] eqn:En; [|done..].
  destruct (hvs_addVote hvs0 _ _ _) as [[[hvs [|]] err]| |] eqn:Ea; [|done..].
  apply andb_prop in Ht as [Hs%bool_decide_eq_true Hz%Z.eqb_eq].
  exists hvs. split_and!; [|done|done]. exists hvs0. split; [done|].
  eapply rtc_l; [|apply rtc_refl]. eapply hstep_vote; [| |exact Ea]; [split; vm_compute; reflexivity|done].
Qed.

(** The later round is tracked for a validator that voted in it. *)
Lemma hvs_reachable_inv_witness :
  ∃ hvs p, (Z.of_nat (size (roundVoteSets hvs)) ≤ hvs_round hvs + 2 + 2 * Size demo_vals)%Z ∧
    hvs_round hvs = 0%Z ∧ p ∈ ProTxHash <$> Validators demo_vals ∧ @voted toy_crypto hvs p 3.
Proof.
  destruct demo_later as (hvs & Hr & Hs & Hz). exists hvs.
  destruct (@hvs_reachable_inv toy_crypto toy_dashd toy_order merkle.toy_hash_len demo_byte_types
    [x61] 5 demo_vals demo_validated ltac:(discriminate) hvs Hr) as (_ & _ & Hl & Hb).
  destruct (Hl 3%Z Hs) as [Hc|(p & Hp & Hv)].
  - exfalso. rewrite Hz in Hc. destruct Hc as [_ Hc]. apply Hc. reflexivity.
  - exists p. split; [exact Hb|]. split; [exact Hz|]. split; [exact Hp|exact Hv].
Defined.

Lemma hvs_addVote_correct_witness :
  ∃ hvs hvs' added err, @hvs_addVote toy_crypto toy_dashd toy_order hvs
    (mkRef 0 (demo_signed x02 0 x07)) None None = Ok (hvs', added, err).
Proof.
  destruct demo_height as (hvs & Hr & _). exists hvs.
  destruct (@hvs_addVote_correct toy_crypto toy_dashd toy_order merkle.toy_hash_len demo_byte_types
    [x61] 5 demo_vals demo_validated ltac:(discriminate) hvs (mkRef 0 (demo_signed x02 0 x07))
    None None Hr) as (hvs' & added & err & Ha & _).
  - split; vm_compute; reflexivity.
  - intros e He. discriminate He.
  - exists hvs', added, err. exact Ha.
Defined.

Lemma SetRound_total_witness :
  ∃ hvs fuel hvs', SetRound fuel hvs (hvs_round hvs) = Ok hvs'.
Proof.
  destruct demo_height as (hvs & Hr & Hb). exists hvs, (round_fuel hvs (hvs_round hvs)).
  destruct (@SetRound_total toy_crypto toy_dashd toy_order merkle.toy_hash_len demo_byte_types
    [x61] 5 demo_vals demo_validated ltac:(discriminate) (round_fuel hvs (hvs_round hvs)) hvs
    (hvs_round hvs) Hr ltac:(lia) ltac:(lia)) as (hvs' & Hs & _).
  exists hvs'. exact Hs.
Defined.

Lemma POLInfo_spec_witness : ∃ hvs r b, POLInfo hvs = Ok (r, b).
Proof.
  destruct demo_height as (hvs & Hr & _). exists hvs.
  destruct (@POLInfo_spec toy_crypto toy_dashd toy_order merkle.toy_hash_len demo_byte_types
    [x61] 5 demo_vals demo_validated ltac:(discriminate) hvs Hr) as (r & b & Hp & _).
  exists r, b. exact Hp.
Defined.

End hvsthms.
