(* ===== verification/Evidence.v ===== *)
(** * Evidence of equivocation

    Models [DuplicateVoteEvidence] and [EvidenceList] of
    [src/types/evidence.go], the encodings they are hashed from
    ([src/proto/tendermint/types/evidence.pb.go], [types.pb.go], [dash.pb.go]) and
    [VerifyDuplicateVote] of [src/internal/evidence/verify.go].  The only
    implementation of the [Evidence] interface is [DuplicateVoteEvidence]. *)
From Stdlib Require Import ZArith Lia Init.Byte.
From stdpp Require Import base numbers list.
From S2P Require Import Prelude.
From S2P Require Import Merkle.
From S2P Require Import Wire.
From S2P Require Import PartSet.
From S2P Require Import Types.
From S2P Require Import Crypto.
From S2P Require Import QuorumSign.
From S2P Require Import Proposal.
From S2P Require Import SafeMath.
From S2P Require Import ValidatorSet.
From S2P Require Import ValidatorUpdate.

Import partset types crypto quorum valset.
Import valupdate.

Module evidence.

(** ** Encodings *)

(** A message field that is always written. *)
Definition message_field (tag : byte) (m : bytes) : bytes :=
  tag :: wire.uvarint (Z.of_nat (length m)) ++ m.

Definition marshal_BlockID (b : BlockID) : bytes :=
  wire.bytes_field x0a (BlockID_Hash b) ++
  message_field x12 (wire.marshal_PartSetHeader (PSH_Total (BlockID_PartSetHeader b))
                       (PSH_Hash (BlockID_PartSetHeader b))) ++
  wire.bytes_field x1a (BlockID_StateID b).

Definition marshal_VoteExtension (e : VoteExtension) : bytes :=
  wire.varint_field x08 (VE_Type e) ++ wire.bytes_field x12 (VE_Extension e) ++
  wire.bytes_field x1a (VE_Signature e) ++
  match VE_SignRequestId e with
  | Some id => message_field x22 id
  | None => []
  end.

(** A nil extension is written as an empty message. *)
Definition marshal_Vote (v : ProtoVote) : bytes :=
  wire.varint_field x08 (PV_Type v) ++ wire.varint_field x10 (PV_Height v) ++
  wire.varint_field x18 (PV_Round v) ++ message_field x22 (marshal_BlockID (PV_BlockID v)) ++
  wire.bytes_field x2a (PV_ValidatorProTxHash v) ++ wire.varint_field x30 (PV_ValidatorIndex v) ++
  wire.bytes_field x3a (PV_BlockSignature v) ++
  concat (map (λ e, message_field x42 (from_option marshal_VoteExtension [] e)) (PV_VoteExtensions v)).

(** ** Duplicate votes *)

Record DuplicateVoteEvidence := mkDVE {
  VoteA : option Vote;
  VoteB : option Vote;
  DVE_TotalVotingPower : Z;
  DVE_ValidatorPower : Z;
  DVE_Timestamp : Z }.

Record ProtoDVE := mkPDVE {
  PDVE_VoteA : option ProtoVote;
  PDVE_VoteB : option ProtoVote;
  PDVE_TotalVotingPower : Z;
  PDVE_ValidatorPower : Z;
  PDVE_Timestamp : Z }.

(** [abci.Misbehavior]: who, with which power, when, of how much power. *)
Record Misbehavior := mkMisbehavior {
  MB_ProTxHash : bytes; MB_Power : Z; MB_Height : Z; MB_Time : Z; MB_TotalVotingPower : Z }.

Inductive evidence_error :=
  | ErrMissingVote
  | ErrMissingValidatorSet
  | ErrNotInValidatorSet
  | ErrEmptyVotes
  | ErrInvalidVoteA (e : vote_basic_error)
  | ErrInvalidVoteB (e : vote_basic_error)
  | ErrVoteOrder
  | ErrEvidenceTime
  | ErrEvidencePower
  | ErrEvidenceTotalPower
  | ErrEvidenceNil
  | ErrEvidenceVoteProto (e : vote_proto_error)
  | ErrEvidenceVoteBasic (e : vote_basic_error)
  | ErrEvidenceNotRecognized
  | ErrNotValidator
  | ErrStepMismatch
  | ErrProTxHashMismatch
  | ErrSameBlock
  | ErrSignatureA
  | ErrSignatureB
  | ErrNoPublicKey.

Notation res := (outcome evidence_error).

(** [strings.Compare(a.BlockID.Key(), b.BlockID.Key())]. *)
Definition compare_ids (a b : Vote) : comparison :=
  bytes_compare (Key (Vote_BlockID a)) (Key (Vote_BlockID b)).

(** [*vote]. *)
Definition the_vote (v : option Vote) : res Vote := deref v.

Section evidence.
Context `{Crypto} `{StdTime} `{Dashd}.

Definition NewDuplicateVoteEvidence (vote1 vote2 : option Vote) (blockTime : Z)
    (valSet : option ValidatorSet) : res DuplicateVoteEvidence :=
  match vote1, vote2 with
  | Some v1, Some v2 =>
      match valSet with
      | None => Err ErrMissingValidatorSet
      | Some valSet =>
          '(idx, val) ← GetByProTxHash valSet (Vote_ValidatorProTxHash v1);
          if (idx =? -1)%Z then Err ErrNotInValidatorSet
          else
            let '(voteA, voteB) :=
              match compare_ids v1 v2 with Lt => (v1, v2) | _ => (v2, v1) end in
            val ← deref val;
            Ok (mkDVE (Some voteA) (Some voteB) (TotalVotingPower valSet) (VotingPower val) blockTime)
      end
  | _, _ => Err ErrMissingVote
  end.

Definition DVE_ABCI (dve : DuplicateVoteEvidence) : res (list Misbehavior) :=
  a ← the_vote (VoteA dve);
  Ok [mkMisbehavior (Vote_ValidatorProTxHash a) (DVE_ValidatorPower dve) (Vote_Height a)
        (DVE_Timestamp dve) (DVE_TotalVotingPower dve)].

Definition DVE_ToProto (dve : DuplicateVoteEvidence) : ProtoDVE :=
  mkPDVE (Vote_ToProto <$> VoteA dve) (Vote_ToProto <$> VoteB dve) (DVE_TotalVotingPower dve)
    (DVE_ValidatorPower dve) (DVE_Timestamp dve).

Definition marshal_DVE (pbe : ProtoDVE) : option bytes :=
  ts ← StdTimeMarshal (PDVE_Timestamp pbe);
  Some (from_option (λ v, message_field x0a (marshal_Vote v)) [] (PDVE_VoteA pbe) ++
        from_option (λ v, message_field x12 (marshal_Vote v)) [] (PDVE_VoteB pbe) ++
        wire.varint_field x18 (PDVE_TotalVotingPower pbe) ++
        wire.varint_field x20 (PDVE_ValidatorPower pbe) ++ message_field x2a ts).

(** A time that cannot be encoded panics. *)
Definition DVE_Bytes {E} (dve : DuplicateVoteEvidence) : outcome E bytes :=
  deref (marshal_DVE (DVE_ToProto dve)).

Definition DVE_Hash {E} (dve : DuplicateVoteEvidence) : outcome E bytes :=
  bz ← DVE_Bytes dve; Ok (Checksum bz).

Definition DVE_Height (dve : DuplicateVoteEvidence) : res Z :=
  a ← the_vote (VoteA dve); Ok (Vote_Height a).

Definition DVE_ValidateBasic (dve : option DuplicateVoteEvidence) : res unit :=
  match dve with
  | None => Err ErrEvidenceNil
  | Some dve =>
      match VoteA dve, VoteB dve with
      | Some a, Some b =>
          _ ← wrap_err ErrInvalidVoteA (Vote_ValidateBasic a);
          _ ← wrap_err ErrInvalidVoteB (Vote_ValidateBasic b);
          match compare_ids a b with Lt => Ok tt | _ => Err ErrVoteOrder end
      | _, _ => Err ErrEmptyVotes
      end
  end.

(** Times are compared with [!=] on [time.Time] values; both come from headers
    and are compared as instants here. *)
Definition ValidateABCI (dve : DuplicateVoteEvidence) (val : option Validator)
    (valSet : ValidatorSet) (evidenceTime : Z) : res unit :=
  if negb (DVE_Timestamp dve =? evidenceTime)%Z then Err ErrEvidenceTime
  else
    val ← deref val;
    if negb (VotingPower val =? DVE_ValidatorPower dve)%Z then Err ErrEvidencePower
    else if negb (TotalVotingPower valSet =? DVE_TotalVotingPower dve)%Z
    then Err ErrEvidenceTotalPower
    else Ok tt.

Definition GenerateABCI (dve : DuplicateVoteEvidence) (val : option Validator)
    (valSet : ValidatorSet) (evidenceTime : Z) : res DuplicateVoteEvidence :=
  val ← deref val;
  Ok (mkDVE (VoteA dve) (VoteB dve) (TotalVotingPower valSet) (VotingPower val) evidenceTime).

(** A vote of the message: nil stays nil. *)
Definition evidence_vote (pv : option ProtoVote) : res (option Vote) :=
  match pv with
  | None => Ok None
  | Some _ =>
      v ← wrap_err ErrEvidenceVoteProto (VoteFromProto pv);
      _ ← wrap_err ErrEvidenceVoteBasic (Vote_ValidateBasic v);
      Ok (Some v)
  end.

Definition DuplicateVoteEvidenceFromProto (pb : option ProtoDVE) : res DuplicateVoteEvidence :=
  match pb with
  | None => Err ErrEvidenceNil
  | Some pb =>
      vA ← evidence_vote (PDVE_VoteA pb);
      vB ← evidence_vote (PDVE_VoteB pb);
      let dve := mkDVE vA vB (PDVE_TotalVotingPower pb) (PDVE_ValidatorPower pb)
                   (PDVE_Timestamp pb) in
      _ ← DVE_ValidateBasic (Some dve); Ok dve
  end.

(** ** Lists *)

(** The [Sum] of the message is unset or a duplicate vote. *)
Definition ProtoEvidence := option ProtoDVE.

Definition EvidenceToProto (ev : DuplicateVoteEvidence) : ProtoEvidence := Some (DVE_ToProto ev).

Definition EvidenceFromProto (ev : ProtoEvidence) : res DuplicateVoteEvidence :=
  match ev with
  | None => Err ErrEvidenceNotRecognized
  | Some pb => DuplicateVoteEvidenceFromProto (Some pb)
  end.

Fixpoint EvidenceList_Bytes {E} (evl : list DuplicateVoteEvidence) : outcome E (list bytes) :=
  match evl with
  | [] => Ok []
  | ev :: evl => bz ← DVE_Bytes ev; rest ← EvidenceList_Bytes evl; Ok (bz :: rest)
  end.

Definition EvidenceList_Hash (evl : list DuplicateVoteEvidence) : outcome merkle.merkle_error bytes :=
  bzs ← EvidenceList_Bytes evl; merkle.HashFromByteSlices sha256 bzs.

Definition EvidenceList_ToProto (evl : list DuplicateVoteEvidence) : list ProtoEvidence :=
  map EvidenceToProto evl.

Fixpoint EvidenceList_FromProto (eviList : list ProtoEvidence) : res (list DuplicateVoteEvidence) :=
  match eviList with
  | [] => Ok []
  | ev :: evl => evi ← EvidenceFromProto ev; rest ← EvidenceList_FromProto evl; Ok (evi :: rest)
  end.

(** The hash of the argument is computed again for every element. *)
Fixpoint EvidenceList_Has {E} (evl : list DuplicateVoteEvidence) (e : DuplicateVoteEvidence) :
    outcome E bool :=
  match evl with
  | [] => Ok false
  | ev :: evl =>
      h ← DVE_Hash e; h' ← DVE_Hash ev;
      if bool_decide (h = h') then Ok true else EvidenceList_Has evl e
  end.

Fixpoint EvidenceList_ToABCI (evl : list DuplicateVoteEvidence) : res (list Misbehavior) :=
  match evl with
  | [] => Ok []
  | ev :: evl => m ← DVE_ABCI ev; rest ← EvidenceList_ToABCI evl; Ok (m ++ rest)
  end.

(** ** Verification *)

Definition signaturesCheckable (val : option Validator) : bool :=
  match val with
  | Some v => match Val_PubKey v with Some _ => true | None => false end
  | None => false
  end.

Definition VoteBlockSignID {E} (chainID : bytes) (vote : ProtoVote) (quorumType : Z)
    (quorumHash : bytes) : outcome E bytes :=
  signID ← MakeBlockSignItem chainID vote quorumType quorumHash; Ok (SI_SignHash signID).

Definition VerifyDuplicateVote (e : DuplicateVoteEvidence) (chainID : bytes)
    (valSet : ValidatorSet) : res unit :=
  a ← the_vote (VoteA e);
  '(_, val) ← GetByProTxHash valSet (Vote_ValidatorProTxHash a);
  match val with
  | None => Err ErrNotValidator
  | Some val =>
      b ← the_vote (VoteB e);
      if negb (Vote_Height a =? Vote_Height b)%Z || negb (Vote_Round a =? Vote_Round b)%Z ||
         negb (Vote_Type a =? Vote_Type b)%Z then Err ErrStepMismatch
      else if negb (bool_decide (Vote_ValidatorProTxHash a = Vote_ValidatorProTxHash b))
      then Err ErrProTxHashMismatch
      else if BlockID_Equals (Vote_BlockID a) (Vote_BlockID b) then Err ErrSameBlock
      else if negb (bool_decide (Vote_ValidatorProTxHash a = ProTxHash val))
      then Err ErrProTxHashMismatch
      else
        match Val_PubKey val with
        | Some pubKey =>
            ha ← VoteBlockSignID chainID (Vote_ToProto a) (QuorumType valSet) (QuorumHash valSet);
            if negb (VerifySignatureDigest pubKey ha (Vote_BlockSignature a)) then Err ErrSignatureA
            else
              hb ← VoteBlockSignID chainID (Vote_ToProto b) (QuorumType valSet) (QuorumHash valSet);
              if negb (VerifySignatureDigest pubKey hb (Vote_BlockSignature b))
              then Err ErrSignatureB
              else Ok tt
        | None => if HasPublicKeys valSet then Err ErrNoPublicKey else Ok tt
        end
  end.

(** ** Properties *)

Lemma find_from_lookup k l i v :
  NoDup (map ProTxHash l) → l !! i = Some v →
  find_from k l (ProTxHash v) = Some (k + Z.of_nat i, v)%Z.
Proof.
  revert k i. induction l as [|w l IH]; intros k i; [done|]. cbn [map find_from].
  rewrite NoDup_cons. intros [Hw Hn] Hi. destruct i as [|i]; cbn in Hi.
  - injection Hi as ->. rewrite bool_decide_eq_true_2 by done. do 2 f_equal. lia.
  - rewrite bool_decide_eq_false_2.
    + rewrite (IH (k + 1)%Z i) by done. do 2 f_equal. lia.
    + intros E. apply Hw. rewrite E. apply list_elem_of_fmap. exists v. split; [done|].
      by eapply list_elem_of_lookup_2.
Qed.

Lemma GetByProTxHash_lookup {E} vals i v :
  NoDup (map ProTxHash (Validators vals)) → (Size vals ≤ MaxInt32)%Z →
  Validators vals !! i = Some v →
  GetByProTxHash (E:=E) vals (ProTxHash v) = Ok (Z.of_nat i, Some v).
Proof.
  intros Hn Hs Hi. unfold GetByProTxHash. rewrite (find_from_lookup _ _ i) by done.
  apply lookup_lt_Some in Hi. unfold Size in Hs. rewrite SafeConvertInt32_int64 by (unfold_ints; lia).
  rewrite bool_decide_eq_true_2 by (unfold_ints; lia). done.
Qed.

Lemma GetByProTxHash_inv {E} vals h i v :
  GetByProTxHash (E:=E) vals h = Ok (i, Some v) → v ∈ Validators vals ∧ ProTxHash v = h.
Proof.
  unfold GetByProTxHash. destruct (find_from _ _ _) as [[j w]|] eqn:Ef; [|by intros [= ]].
  intros Hg. outcome_inv. simplify_eq. by apply find_from_Some in Ef as (? & ? & _).
Qed.

(** The sign item does not depend on the errors of the caller. *)
Lemma MakeBlockSignItem_any {E F} chainID pv qt qh i :
  MakeBlockSignItem (E:=E) chainID pv qt qh = Ok i → MakeBlockSignItem (E:=F) chainID pv qt qh = Ok i.
Proof.
  unfold MakeBlockSignItem, NewSignItem, NewSignItemFromHash, UpdateSignHash.
  destruct (SignItem_Validate _); [|done]. cbn [negb].
  destruct (MustConvertUint8 _ _); [|done..]. by intros [= <-].
Qed.

(** A vote that [Vote.Verify] accepts carries a valid block signature. *)
Lemma vote_verify_block_sign {E} v chainID qt qh pubKey h :
  vote_verify v chainID qt qh pubKey h None = Ok tt →
  ∃ pk hash, pubKey = Some pk ∧ Vote_ValidatorProTxHash v = h ∧
    VoteBlockSignID (E:=E) chainID (Vote_ToProto v) qt qh = Ok hash ∧
    VerifySignatureDigest pk hash (Vote_BlockSignature v) = true.
Proof.
  intros (pk & q & -> & _ & -> & _ & _ & Hq & Hall)%vote_verify_Ok.
  exists pk, (SI_SignHash (QSD_Block q)). split; [done|]. split; [done|].
  split; [|by inversion Hall].
  unfold MakeQuorumSigns in Hq. outcome_inv. unfold VoteBlockSignID.
  match goal with Hb : MakeBlockSignItem _ _ _ _ = Ok _ |- _ =>
    rewrite (MakeBlockSignItem_any _ _ _ _ _ Hb) end. done.
Qed.

Lemma compare_ids_flip a b : compare_ids b a = CompOpp (compare_ids a b).
Proof. apply bytes_compare_antisym. Qed.

Lemma compare_ids_ne a b :
  Vote_ValidateBasic a = Ok tt → Vote_ValidateBasic b = Ok tt →
  Vote_BlockID a ≠ Vote_BlockID b → compare_ids a b ≠ Eq.
Proof.
  intros Ha%Vote_ValidateBasic_wf Hb%Vote_ValidateBasic_wf Hne Hc%bytes_compare_eq.
  apply Hne. by apply Key_inj_wf.
Qed.

(** A valid vote is read back from its message. *)
Lemma evidence_vote_back v :
  Vote_ValidateBasic v = Ok tt → forallb class_ok (Vote_VoteExtensions v) = true →
  evidence_vote (Some (Vote_ToProto v)) = Ok (Some v).
Proof.
  intros Hv Hc. unfold evidence_vote, VoteFromProto, BlockIDFromProto. cbn [Vote_ToProto PV_BlockID
    PV_VoteExtensions PV_Type PV_Height PV_Round PV_ValidatorProTxHash PV_ValidatorIndex PV_BlockSignature].
  assert (BlockID_ValidateBasic (Vote_BlockID v) = Ok tt) as Hb.
  { unfold Vote_ValidateBasic in Hv. ok_inv; by units. }
  assert (PSH_ValidateBasic (BlockID_PartSetHeader (Vote_BlockID v)) = Ok tt) as Hp.
  { unfold BlockID_ValidateBasic in Hb. ok_inv; by units. }
  rewrite Hp, Hb. cbn [wrap_err mbind outcome_bind].
  rewrite VoteExtensionsFromProto_back by done. cbn [wrap_err mbind outcome_bind].
  replace (mkVote _ _ _ _ _ _ _ _) with v by (by destruct v). by rewrite Hv.
Qed.

(** [a] and [b] are two votes of the validator for different blocks in one step. *)
Definition equivocation (vals : ValidatorSet) (val : Validator) (a b : Vote) : Prop :=
  val ∈ Validators vals ∧ Vote_ValidatorProTxHash a = ProTxHash val ∧
  Vote_ValidatorProTxHash b = ProTxHash val ∧ Vote_Height a = Vote_Height b ∧
  Vote_Round a = Vote_Round b ∧ Vote_Type a = Vote_Type b ∧ Vote_BlockID a ≠ Vote_BlockID b.

(** The block signature of the vote is the validator's. *)
Definition block_signed (chainID : bytes) (vals : ValidatorSet) (pk : PubKey) (v : Vote) : Prop :=
  ∃ hash, VoteBlockSignID (E:=evidence_error) chainID (Vote_ToProto v) (QuorumType vals)
            (QuorumHash vals) = Ok hash ∧
    VerifySignatureDigest pk hash (Vote_BlockSignature v) = true.

(** What [VerifyDuplicateVote] checks of the votes of a listed validator. *)
Lemma VerifyDuplicateVote_pair e chainID vals a b val i :
  VoteA e = Some a → VoteB e = Some b →
  GetByProTxHash (E:=evidence_error) vals (Vote_ValidatorProTxHash a) = Ok (i, Some val) →
  equivocation vals val a b →
  (∃ pk, Val_PubKey val = Some pk ∧ block_signed chainID vals pk a ∧ block_signed chainID vals pk b) →
  VerifyDuplicateVote e chainID vals = Ok tt.
Proof.
  intros Ea Eb Hg (_ & Ha & Hb & Eh & Er & Et & Hne) (pk & Hpk & (ha & Sa & Va) & (hb & Sb & Vb)).
  unfold VerifyDuplicateVote, the_vote. rewrite Ea, Eb. orun. cbn [deref]. orun.
  rewrite Hg. orun. rewrite Eh, Er, Et, !Z.eqb_refl. cbn [negb orb].
  rewrite bool_decide_eq_true_2 by congruence. cbn [negb].
  destruct (BlockID_Equals (Vote_BlockID a) (Vote_BlockID b)) eqn:Eq.
  { by apply BlockID_Equals_spec in Eq. }
  rewrite bool_decide_eq_true_2 by done. cbn [negb]. rewrite Hpk, Sa. orun. rewrite Va.
  cbn [negb]. rewrite Sb. orun. by rewrite Vb.
Qed.

(** The evidence with the votes in order of their block keys. *)
Lemma ordered_evidence chainID vals i val a b t :
  NoDup (map ProTxHash (Validators vals)) → (Size vals ≤ MaxInt32)%Z →
  Validators vals !! i = Some val →
  Vote_ValidateBasic a = Ok tt → Vote_ValidateBasic b = Ok tt →
  forallb class_ok (Vote_VoteExtensions a) = true → forallb class_ok (Vote_VoteExtensions b) = true →
  equivocation vals val a b → compare_ids a b = Lt →
  (∃ pk, Val_PubKey val = Some pk ∧ block_signed chainID vals pk a ∧ block_signed chainID vals pk b) →
  let e := mkDVE (Some a) (Some b) (TotalVotingPower vals) (VotingPower val) t in
  NewDuplicateVoteEvidence (Some a) (Some b) t (Some vals) = Ok e ∧
  NewDuplicateVoteEvidence (Some b) (Some a) t (Some vals) = Ok e ∧
  DVE_ValidateBasic (Some e) = Ok tt ∧ VerifyDuplicateVote e chainID vals = Ok tt ∧
  ValidateABCI e (Some val) vals t = Ok tt ∧ EvidenceFromProto (EvidenceToProto e) = Ok e.
Proof.
  intros Hn Hs Hi Va Vb Ca Cb Heq Hlt Hsig e. pose proof Heq as (_ & Ha & Hb & _).
  pose proof (GetByProTxHash_lookup (E:=evidence_error) _ _ _ Hn Hs Hi) as Hg.
  assert ((Z.of_nat i =? -1)%Z = false) as Hi1 by (apply Z.eqb_neq; lia).
  assert (DVE_ValidateBasic (Some e) = Ok tt) as Hbasic.
  { unfold DVE_ValidateBasic, e. cbn [VoteA VoteB]. rewrite Va, Vb. cbn [wrap_err mbind outcome_bind].
    by rewrite Hlt. }
  split_and!.
  - unfold NewDuplicateVoteEvidence. rewrite Ha, Hg. orun. by rewrite Hi1, Hlt.
  - unfold NewDuplicateVoteEvidence. rewrite Hb, Hg. orun. by rewrite Hi1, compare_ids_flip, Hlt.
  - done.
  - eapply VerifyDuplicateVote_pair; [done..| |done|done]. by rewrite Ha.
  - unfold ValidateABCI, e. cbn. by rewrite !Z.eqb_refl.
  - unfold EvidenceFromProto, EvidenceToProto, DuplicateVoteEvidenceFromProto, DVE_ToProto, e.
    cbn [VoteA VoteB PDVE_VoteA PDVE_VoteB PDVE_TotalVotingPower PDVE_ValidatorPower PDVE_Timestamp
      DVE_TotalVotingPower DVE_ValidatorPower DVE_Timestamp fmap option_fmap option_map].
    rewrite !evidence_vote_back by done. orun. fold e. by rewrite Hbasic.
Qed.

(** The same for votes in any order. *)
Lemma conflicting_evidence chainID vals i val a b t :
  NoDup (map ProTxHash (Validators vals)) → (Size vals ≤ MaxInt32)%Z →
  Validators vals !! i = Some val →
  Vote_ValidateBasic a = Ok tt → Vote_ValidateBasic b = Ok tt →
  forallb class_ok (Vote_VoteExtensions a) = true → forallb class_ok (Vote_VoteExtensions b) = true →
  equivocation vals val a b →
  (∃ pk, Val_PubKey val = Some pk ∧ block_signed chainID vals pk a ∧ block_signed chainID vals pk b) →
  ∃ e, NewDuplicateVoteEvidence (Some a) (Some b) t (Some vals) = Ok e ∧
    NewDuplicateVoteEvidence (Some b) (Some a) t (Some vals) = Ok e ∧
    ((VoteA e = Some a ∧ VoteB e = Some b) ∨ (VoteA e = Some b ∧ VoteB e = Some a)) ∧
    DVE_ValidateBasic (Some e) = Ok tt ∧
    VerifyDuplicateVote e chainID vals = Ok tt ∧
    ValidateABCI e (Some val) vals t = Ok tt ∧
    EvidenceFromProto (EvidenceToProto e) = Ok e.
Proof.
  intros Hn Hs Hi Va Vb Ca Cb Hab (pk & Hpk & Ka & Kb).
  destruct (compare_ids a b) eqn:Hc; [apply compare_ids_ne in Hc; [done..|apply Hab]| |].
  - destruct (ordered_evidence chainID vals i val a b t) as (? & ? & ? & ? & ? & ?); try done; [by exists pk|].
    eexists. split_and!; try done. by left.
  - destruct (ordered_evidence chainID vals i val b a t) as (? & ? & ? & ? & ? & ?); try done.
    { unfold equivocation in *. naive_solver. }
    { by rewrite compare_ids_flip, Hc. }
    { by exists pk. }
    eexists. split_and!; try done. by right.
Qed.

(** C35: conflicting votes convict their signer.  Two verified votes of one validator
    for different blocks at the same height, round and type can be turned, in
    either order and into the same evidence, which is well formed, verifies
    against the validator set, carries the powers and time [ValidateABCI] expects
    and survives its encoding. *)
Theorem conflict_makes_evidence chainID vals i val a b t :
  NoDup (map ProTxHash (Validators vals)) → (Size vals ≤ MaxInt32)%Z →
  Validators vals !! i = Some val →
  Vote_ValidateBasic a = Ok tt → Vote_ValidateBasic b = Ok tt →
  forallb class_ok (Vote_VoteExtensions a) = true → forallb class_ok (Vote_VoteExtensions b) = true →
  Vote_Height a = Vote_Height b → Vote_Round a = Vote_Round b → Vote_Type a = Vote_Type b →
  Vote_BlockID a ≠ Vote_BlockID b →
  vote_verify a chainID (QuorumType vals) (QuorumHash vals) (Val_PubKey val) (ProTxHash val) None =
    Ok tt →
  vote_verify b chainID (QuorumType vals) (QuorumHash vals) (Val_PubKey val) (ProTxHash val) None =
    Ok tt →
  ∃ e, NewDuplicateVoteEvidence (Some a) (Some b) t (Some vals) = Ok e ∧
    NewDuplicateVoteEvidence (Some b) (Some a) t (Some vals) = Ok e ∧
    ((VoteA e = Some a ∧ VoteB e = Some b) ∨ (VoteA e = Some b ∧ VoteB e = Some a)) ∧
    DVE_ValidateBasic (Some e) = Ok tt ∧
    VerifyDuplicateVote e chainID vals = Ok tt ∧
    ValidateABCI e (Some val) vals t = Ok tt ∧
    EvidenceFromProto (EvidenceToProto e) = Ok e.
Proof.
  intros Hn Hs Hi Va Vb Ca Cb Eh Er Et Hne Sa Sb.
  destruct (vote_verify_block_sign (E:=evidence_error) _ _ _ _ _ _ Sa) as (pk & ha & Hpk & Ha & Ka).
  destruct (vote_verify_block_sign (E:=evidence_error) _ _ _ _ _ _ Sb) as (pk' & hb & Hpk' & Hb & Kb).
  assert (pk' = pk) as -> by congruence.
  assert (equivocation vals val a b) as Hab.
  { repeat split; try done. by eapply list_elem_of_lookup_2. }
  apply (conflicting_evidence chainID vals i val); try done.
  exists pk. split_and!; [done|by exists ha|by exists hb].
Qed.

(** C36: evidence that verifies against a validator set whose accused member has a
    key proves that the member signed for two different blocks in one step; when
    the node knows the keys of the set, evidence against a member without a key is
    refused. *)
Theorem evidence_convicts e chainID vals :
  VerifyDuplicateVote e chainID vals = Ok tt →
  ∃ a b val, VoteA e = Some a ∧ VoteB e = Some b ∧ equivocation vals val a b ∧
    match Val_PubKey val with
    | Some pk => block_signed chainID vals pk a ∧ block_signed chainID vals pk b
    | None => HasPublicKeys vals = false
    end.
Proof.
  unfold VerifyDuplicateVote, the_vote. intros Hv.
  destruct (VoteA e) as [a|]; [|done]. cbn [deref mbind outcome_bind] in Hv.
  destruct (GetByProTxHash _ _) as [[i [val|]]| |] eqn:Hg; try done. cbn [mbind outcome_bind] in Hv.
  destruct (VoteB e) as [b|]; [|done]. cbn [deref mbind outcome_bind] in Hv.
  apply GetByProTxHash_inv in Hg as [Hin Hh].
  exists a, b, val. split; [done|]. split; [done|].
  destruct (negb _ || _ || _) eqn:Hst; [done|]. destruct (negb _) eqn:Hp in Hv; [done|].
  destruct (BlockID_Equals _ _) eqn:Hid; [done|]. destruct (negb _) eqn:Hp' in Hv; [done|]. bools.
  split.
  { unfold equivocation. split_and!; try congruence; try done.
    intros E. apply BlockID_Equals_spec in E. congruence. }
  destruct (Val_PubKey val) as [pk|]; [|by destruct (HasPublicKeys vals)].
  apply bind_Ok in Hv as (ha & Sa & Hv). destruct (negb _) eqn:Ea in Hv; [done|].
  apply bind_Ok in Hv as (hb & Sb & Hv). destruct (negb _) eqn:Eb in Hv; [done|]. bools.
  split; [by exists ha|by exists hb].
Qed.

End evidence.

(** ** Witnesses *)

Definition demo_evidence : DuplicateVoteEvidence :=
  mkDVE (Some (demo_signed x01 0 x07)) (Some (demo_signed x02 0 x07)) 300 100 77.

Lemma conflict_makes_evidence_witness :
  ∃ e, NewDuplicateVoteEvidence (Some (demo_signed x01 0 x07))
         (Some (demo_signed x02 0 x07)) 77 (Some (demo_valset [x07; x08; x09])) = Ok e.
Proof.
  destruct (@conflict_makes_evidence toy_crypto [x61] (demo_valset [x07; x08; x09]) 0
    (demo_validator x07 100) (demo_signed x01 0 x07) (demo_signed x02 0 x07) 77) as (e & He & _).
  all: try (vm_compute; reflexivity).
  - apply (bool_decide_unpack _). vm_compute. exact I.
  - vm_compute. discriminate.
  - vm_compute. discriminate.
  - exists e. exact He.
Defined.

Lemma evidence_convicts_witness :
  ∃ a b, VoteA demo_evidence = Some a ∧ VoteB demo_evidence = Some b ∧ Vote_BlockID a ≠ Vote_BlockID b.
Proof.
  destruct (@evidence_convicts toy_crypto demo_evidence [x61] (demo_valset [x07; x08; x09]))
    as (a & b & val & Ha & Hb & (_ & _ & _ & _ & _ & _ & Hne) & _).
  - vm_compute. reflexivity.
  - exists a, b. split; [exact Ha|]. split; [exact Hb|exact Hne].
Defined.

End evidence.
