(* ===== verification/Block.v ===== *)
(** * types: headers and blocks

    Models [Header], [Block], [Data], [Commit.Hash] and their conversions of
    [src/types/block.go], [cdcEncode] of [src/types/encoding_helper.go],
    [Txs.Hash] of [src/types/tx.go] and [StateID] of
    [src/proto/tendermint/types/types.go].  The three hashes of a header that
    [fillHeader] completes distinguish a nil slice, [None], from an empty one.
    The memoised digests of [Commit] and [Data] are recomputed: only the methods
    that compute them set them, and [SetTxs] replaces the whole [Data]. *)
From Stdlib Require Import ZArith Lia Init.Byte.
From stdpp Require Import base numbers list sets.
From S2P Require Import Prelude.
From S2P Require Import Merkle.
From S2P Require Import Wire.
From S2P Require Import PartSet.
From S2P Require Import Types.
From S2P Require Import Crypto.
From S2P Require Import QuorumSign.
From S2P Require Import Proposal.
From S2P Require Import ValidatorSet.
From S2P Require Import Evidence.

Import partset types crypto quorum proposal evidence.

Module block.

Definition BlockProtocol : Z := 14.
Definition MaxChainIDLen : nat := 50.
Definition MaxHeaderBytes : Z := 726.
Definition MaxCoreChainLockSize : Z := 132.
Definition MaxOverheadForBlock : Z := 11.
Definition MaxCommitOverheadBytes : Z := (110 + 2) + (8 + 2) + (4 + 2) + (32 + 2) + (96 + 2) + 0.
Definition DefaultAppHashSize : nat := 32.

(** [time.Time{}]: the first of January of year 1. *)
Definition zero_time : Z := -62135596800 * 1000000000.

(** ** Headers *)

Record Consensus := mkVersion { Ver_Block : Z; Ver_App : Z }.

Record Header := mkHeader {
  H_Version : Consensus;
  H_ChainID : bytes;
  H_Height : Z;
  H_CoreChainLockedHeight : Z;
  H_Time : Z;
  H_LastBlockID : BlockID;
  H_LastCommitHash : option bytes;
  H_DataHash : option bytes;
  H_ValidatorsHash : bytes;
  H_NextValidatorsHash : bytes;
  H_ConsensusHash : bytes;
  H_NextConsensusHash : bytes;
  H_AppHash : bytes;
  H_ResultsHash : bytes;
  H_EvidenceHash : option bytes;
  H_ProposerProTxHash : bytes;
  H_ProposedAppVersion : Z }.

Inductive header_error :=
  | ErrHeaderProtocol
  | ErrHeaderChainID
  | ErrHeaderNegativeHeight
  | ErrHeaderZeroHeight
  | ErrHeaderLastBlockID (e : blockid_error)
  | ErrHeaderLastCommitHash
  | ErrHeaderDataHash
  | ErrHeaderEvidenceHash
  | ErrHeaderProposer
  | ErrHeaderValidatorsHash
  | ErrHeaderNextValidatorsHash
  | ErrHeaderConsensusHash
  | ErrHeaderNextConsensusHash
  | ErrHeaderResultsHash
  | ErrHeaderNil.

(** A slice that may be nil, as its bytes. *)
Definition slice (b : option bytes) : bytes := default [] b.

Definition Header_ValidateBasic (h : Header) : outcome header_error unit :=
  if negb (Ver_Block (H_Version h) =? BlockProtocol)%Z then Err ErrHeaderProtocol
  else if MaxChainIDLen <? length (H_ChainID h) then Err ErrHeaderChainID
  else if (H_Height h <? 0)%Z then Err ErrHeaderNegativeHeight
  else if (H_Height h =? 0)%Z then Err ErrHeaderZeroHeight
  else
    _ ← wrap_err ErrHeaderLastBlockID (BlockID_ValidateBasic (H_LastBlockID h));
    if negb (ValidateHash (slice (H_LastCommitHash h))) then Err ErrHeaderLastCommitHash
    else if negb (ValidateHash (slice (H_DataHash h))) then Err ErrHeaderDataHash
    else if negb (ValidateHash (slice (H_EvidenceHash h))) then Err ErrHeaderEvidenceHash
    else if negb (length (H_ProposerProTxHash h) =? DefaultHashSize) then Err ErrHeaderProposer
    else if negb (ValidateHash (H_ValidatorsHash h)) then Err ErrHeaderValidatorsHash
    else if negb (ValidateHash (H_NextValidatorsHash h)) then Err ErrHeaderNextValidatorsHash
    else if negb (ValidateHash (H_ConsensusHash h)) then Err ErrHeaderConsensusHash
    else if negb (ValidateHash (H_NextConsensusHash h)) then Err ErrHeaderNextConsensusHash
    else if negb (ValidateHash (H_ResultsHash h)) then Err ErrHeaderResultsHash
    else Ok tt.

Definition Populate (h : Header) (version : Consensus) (chainID : bytes) (timestamp : Z)
    (lastBlockID : BlockID) (valHash nextValHash consensusHash nextConsensusHash appHash
    resultsHash proposerProTxHash : bytes) (proposedAppVersion : Z) : Header :=
  mkHeader version chainID (H_Height h) (H_CoreChainLockedHeight h) timestamp lastBlockID
    (H_LastCommitHash h) (H_DataHash h) valHash nextValHash consensusHash nextConsensusHash
    appHash resultsHash (H_EvidenceHash h) proposerProTxHash proposedAppVersion.

(** *** Hashing *)

(** What [cdcEncode] is given: the dynamic types it switches on, and others. *)
Inductive cdc_item :=
  | CdcString (s : bytes)
  | CdcInt64 (z : Z)
  | CdcUint64 (z : Z)
  | CdcHexBytes (b : bytes)
  | CdcUint32 (z : Z).

(** A wrapper message has its value as field 1. *)
Definition cdcEncode (item : cdc_item) : bytes :=
  match item with
  | CdcString s => wire.bytes_field x0a s
  | CdcInt64 z => wire.varint_field x08 z
  | CdcUint64 z => wire.varint_field x08 z
  | CdcHexBytes b => wire.bytes_field x0a b
  | CdcUint32 _ => []
  end.

Definition marshal_Consensus (v : Consensus) : bytes :=
  wire.varint_field x08 (Ver_Block v) ++ wire.varint_field x10 (Ver_App v).

(** A fixed32 field, left out when zero. *)
Definition fixed32_field (tag : byte) (v : Z) : bytes :=
  if (v =? 0)%Z then [] else tag :: wire.le32 v.

Record StateID := mkStateID {
  SID_AppVersion : Z;
  SID_Height : Z;
  SID_AppHash : bytes;
  SID_CoreChainLockedHeight : Z;
  SID_Time : Z }.

Definition marshal_StateID (s : StateID) : bytes :=
  wire.fixed64_field x09 (SID_AppVersion s) ++ wire.fixed64_field x11 (SID_Height s) ++
  wire.bytes_field x1a (SID_AppHash s) ++ fixed32_field x25 (SID_CoreChainLockedHeight s) ++
  wire.fixed64_field x29 (SID_Time s).

(** [UnixMilli]. *)
Definition UnixMilli (t : Z) : Z := int64 (t / Millisecond).

Definition Header_StateID (h : Header) : StateID :=
  let appHash := if negb (length (H_AppHash h) =? 0) then H_AppHash h
                 else replicate DefaultAppHashSize x00 in
  mkStateID (Ver_App (H_Version h)) (uint64 (H_Height h)) appHash (H_CoreChainLockedHeight h)
    (uint64 (UnixMilli (H_Time h))).

Definition StateID_ValidateBasic (s : StateID) : bool :=
  negb (SID_Time s =? 0)%Z && (length (SID_AppHash s) =? DefaultAppHashSize).

Definition StateID_IsZero (s : option StateID) : bool :=
  match s with
  | None => true
  | Some s =>
      ((length (SID_AppHash s) =? 0) ||
       bool_decide (SID_AppHash s = replicate DefaultAppHashSize x00)) &&
      (SID_AppVersion s =? 0)%Z && (SID_CoreChainLockedHeight s =? 0)%Z &&
      (SID_Height s =? 0)%Z && (SID_Time s =? 0)%Z
  end.

Record Data := mkData { Txs : list bytes }.

Record Block := mkBlock {
  B_Header : Header;
  B_Data : Data;
  B_CoreChainLock : option CoreChainLock;
  B_Evidence : list DuplicateVoteEvidence;
  B_LastCommit : option Commit }.

Inductive block_error :=
  | ErrBlockNil
  | ErrBlockHeader (e : header_error)
  | ErrBlockChainLock (e : chainlock_error)
  | ErrBlockNilLastCommit
  | ErrBlockLastCommit (e : commit_error)
  | ErrBlockLastCommitHash
  | ErrBlockDataHash
  | ErrBlockEvidence (e : evidence_error)
  | ErrBlockEvidenceHash
  | ErrBlockMerkle (e : merkle.merkle_error)
  | ErrBlockMarshal
  | ErrBlockPartSet (e : partset_error)
  | ErrBlockLastBlockID (e : blockid_error)
  | ErrBlockCommitBlockID (e : blockid_error)
  | ErrBlockMaxBytes (missing : Z).

Definition set_hashes (h : Header) (lastCommitHash dataHash evidenceHash : option bytes) : Header :=
  mkHeader (H_Version h) (H_ChainID h) (H_Height h) (H_CoreChainLockedHeight h) (H_Time h)
    (H_LastBlockID h) lastCommitHash dataHash (H_ValidatorsHash h) (H_NextValidatorsHash h)
    (H_ConsensusHash h) (H_NextConsensusHash h) (H_AppHash h) (H_ResultsHash h) evidenceHash
    (H_ProposerProTxHash h) (H_ProposedAppVersion h).

Definition set_core_height (h : Header) (height : Z) : Header :=
  mkHeader (H_Version h) (H_ChainID h) (H_Height h) height (H_Time h)
    (H_LastBlockID h) (H_LastCommitHash h) (H_DataHash h) (H_ValidatorsHash h)
    (H_NextValidatorsHash h) (H_ConsensusHash h) (H_NextConsensusHash h) (H_AppHash h)
    (H_ResultsHash h) (H_EvidenceHash h) (H_ProposerProTxHash h) (H_ProposedAppVersion h).

Section hashing.
Context `{Crypto} `{StdTime}.

Definition StateID_Hash (s : StateID) : bytes :=
  Checksum (wire.MarshalDelimited (marshal_StateID s)).

(** The items whose Merkle root is the hash, [None] for a time that has no
    encoding. *)
Definition header_items (h : Header) : option (list bytes) :=
  blockTime ← StdTimeMarshal (H_Time h);
  Some [
    marshal_Consensus (H_Version h);
    cdcEncode (CdcString (H_ChainID h));
    cdcEncode (CdcInt64 (H_Height h));
    cdcEncode (CdcUint32 (H_CoreChainLockedHeight h));
    blockTime;
    marshal_BlockID (H_LastBlockID h);
    cdcEncode (CdcHexBytes (slice (H_LastCommitHash h)));
    cdcEncode (CdcHexBytes (slice (H_DataHash h)));
    cdcEncode (CdcHexBytes (H_ValidatorsHash h));
    cdcEncode (CdcHexBytes (H_NextValidatorsHash h));
    cdcEncode (CdcHexBytes (H_ConsensusHash h));
    cdcEncode (CdcHexBytes (H_NextConsensusHash h));
    cdcEncode (CdcHexBytes (H_AppHash h));
    cdcEncode (CdcHexBytes (H_ResultsHash h));
    cdcEncode (CdcHexBytes (slice (H_EvidenceHash h)));
    cdcEncode (CdcHexBytes (H_ProposerProTxHash h));
    cdcEncode (CdcUint64 (H_ProposedAppVersion h))].

(** The nil hash is the empty list. *)
Definition Header_Hash (h : option Header) : outcome merkle.merkle_error bytes :=
  match h with
  | None => Ok []
  | Some h =>
      if length (H_ValidatorsHash h) =? 0 then Ok []
      else match header_items h with
           | None => Ok []
           | Some items => merkle.HashFromByteSlices sha256 items
           end
  end.

(** ** Data and commits *)

Definition Tx_Hash (tx : bytes) : bytes := Checksum tx.

Definition Txs_Hash (txs : list bytes) : outcome merkle.merkle_error bytes :=
  merkle.HashFromByteSlices sha256 (map Tx_Hash txs).

Definition Data_Hash (data : option Data) : outcome merkle.merkle_error bytes :=
  match data with
  | None => Txs_Hash []
  | Some data => Txs_Hash (Txs data)
  end.

(** A nil commit has the nil hash. *)
Definition Commit_Hash (commit : option Commit) : option bytes :=
  match commit with
  | None => None
  | Some c => Some (Checksum (Commit_ThresholdBlockSignature c))
  end.

(** ** Blocks *)

(** [if p == nil { p = f() }]. *)
Definition fill {E} (p : option bytes) (f : outcome E (option bytes)) : outcome E (option bytes) :=
  match p with Some b => Ok (Some b) | None => f end.

Definition fillHeader (b : Block) : outcome merkle.merkle_error Block :=
  let h := B_Header b in
  lastCommitHash ← fill (H_LastCommitHash h) (Ok (Commit_Hash (B_LastCommit b)));
  dataHash ← fill (H_DataHash h) (Some <$> Data_Hash (Some (B_Data b)));
  evidenceHash ← fill (H_EvidenceHash h) (Some <$> EvidenceList_Hash (B_Evidence b));
  Ok (mkBlock (set_hashes h lastCommitHash dataHash evidenceHash) (B_Data b) (B_CoreChainLock b)
        (B_Evidence b) (B_LastCommit b)).

(** [Block.Hash] completes the header of the block it is called on. *)
Definition Block_Hash (b : option Block) : outcome merkle.merkle_error (option Block * bytes) :=
  match b with
  | None => Ok (None, [])
  | Some b =>
      match B_LastCommit b with
      | None => Ok (Some b, [])
      | Some _ =>
          b ← fillHeader b;
          hash ← Header_Hash (Some (B_Header b));
          Ok (Some b, hash)
      end
  end.

Definition HashesTo (b : option Block) (hash : bytes) : outcome merkle.merkle_error bool :=
  if length hash =? 0 then Ok false
  else match b with
       | None => Ok false
       | Some _ => '(_, h) ← Block_Hash b; Ok (bool_decide (h = hash))
       end.

Definition SetTxs (b : Block) (txs : list bytes) : outcome merkle.merkle_error Block :=
  fillHeader (mkBlock (set_hashes (B_Header b) (H_LastCommitHash (B_Header b)) None
                         (H_EvidenceHash (B_Header b)))
                (mkData txs) (B_CoreChainLock b) (B_Evidence b) (B_LastCommit b)).

Definition SetCoreChainLock (b : Block) (chainlock : option CoreChainLock) : Block :=
  match chainlock with
  | None => b
  | Some cl =>
      if (H_CoreChainLockedHeight (B_Header b) <? CL_Height cl)%Z
      then mkBlock (set_core_height (B_Header b) (CL_Height cl)) (B_Data b) (Some cl)
             (B_Evidence b) (B_LastCommit b)
      else b
  end.

Definition MakeBlock (height : Z) (txs : list bytes) (lastCommit : option Commit)
    (evidence : list DuplicateVoteEvidence) : outcome merkle.merkle_error Block :=
  fillHeader (mkBlock (mkHeader (mkVersion BlockProtocol 0) [] height 0 zero_time nilBlockID None None
                         [] [] [] [] [] [] None [] 0)
                (mkData txs) None evidence lastCommit).

Fixpoint validate_evidence (evl : list DuplicateVoteEvidence) : outcome evidence_error unit :=
  match evl with
  | [] => Ok tt
  | ev :: evl => _ ← DVE_ValidateBasic (Some ev); validate_evidence evl
  end.

Definition Block_ValidateBasic (b : option Block) : outcome block_error unit :=
  match b with
  | None => Err ErrBlockNil
  | Some b =>
      _ ← wrap_err ErrBlockHeader (Header_ValidateBasic (B_Header b));
      _ ← match B_CoreChainLock b with
          | Some cl => wrap_err ErrBlockChainLock (CL_ValidateBasic cl)
          | None => Ok tt
          end;
      match B_LastCommit b with
      | None => Err ErrBlockNilLastCommit
      | Some lastCommit =>
          _ ← wrap_err ErrBlockLastCommit (Commit_ValidateBasic lastCommit);
          if negb (bool_decide (slice (Commit_Hash (Some lastCommit)) =
                                slice (H_LastCommitHash (B_Header b))))
          then Err ErrBlockLastCommitHash
          else
            w ← wrap_err ErrBlockMerkle (Data_Hash (Some (B_Data b)));
            if negb (bool_decide (w = slice (H_DataHash (B_Header b)))) then Err ErrBlockDataHash
            else
              _ ← wrap_err ErrBlockEvidence (validate_evidence (B_Evidence b));
              w ← wrap_err ErrBlockMerkle (EvidenceList_Hash (B_Evidence b));
              if negb (bool_decide (w = slice (H_EvidenceHash (B_Header b))))
              then Err ErrBlockEvidenceHash
              else Ok tt
      end
  end.

(** ** The wire form *)

Definition marshal_Header (h : Header) : option bytes :=
  ts ← StdTimeMarshal (H_Time h);
  Some (message_field x0a (marshal_Consensus (H_Version h)) ++
        wire.bytes_field x12 (H_ChainID h) ++ wire.varint_field x18 (H_Height h) ++
        message_field x22 ts ++ message_field x2a (marshal_BlockID (H_LastBlockID h)) ++
        wire.bytes_field x32 (slice (H_LastCommitHash h)) ++
        wire.bytes_field x3a (slice (H_DataHash h)) ++
        wire.bytes_field x42 (H_ValidatorsHash h) ++ wire.bytes_field x4a (H_NextValidatorsHash h) ++
        wire.bytes_field x52 (H_ConsensusHash h) ++ wire.bytes_field x5a (H_NextConsensusHash h) ++
        wire.bytes_field x62 (H_AppHash h) ++ wire.bytes_field x6a (H_ResultsHash h) ++
        wire.bytes_field x72 (slice (H_EvidenceHash h)) ++
        wire.varint_field x78 (H_ProposedAppVersion h) ++
        match H_ProposerProTxHash h with
        | [] => []
        | p => x82 :: x01 :: wire.uvarint (Z.of_nat (length p)) ++ p
        end ++
        (if (H_CoreChainLockedHeight h =? 0)%Z then []
         else x88 :: x01 :: wire.uvarint (H_CoreChainLockedHeight h))).

Definition marshal_Commit (c : Commit) : bytes :=
  wire.varint_field x08 (Commit_Height c) ++ wire.varint_field x10 (Commit_Round c) ++
  message_field x1a (marshal_BlockID (Commit_BlockID c)) ++
  wire.bytes_field x22 (Commit_QuorumHash c) ++
  wire.bytes_field x2a (Commit_ThresholdBlockSignature c) ++
  concat (map (λ e, message_field x32 (from_option marshal_VoteExtension [] e))
            (Commit_ThresholdVoteExtensions c)).

Definition marshal_CoreChainLock (cl : CoreChainLock) : bytes :=
  wire.varint_field x08 (CL_Height cl) ++ wire.bytes_field x12 (CL_Hash cl) ++
  wire.bytes_field x1a (CL_Signature cl).

Definition marshal_Data (d : Data) : bytes := concat (map (message_field x0a) (Txs d)).

(** Each entry of the list is an [Evidence] message whose only field is the
    duplicate vote. *)
Definition marshal_EvidenceList (evl : list DuplicateVoteEvidence) : option bytes :=
  ms ← mapM (λ e, marshal_DVE (DVE_ToProto e)) evl;
  Some (concat (map (λ m, message_field x0a (message_field x0a m)) ms)).

(** [proto.Marshal] of [Block.ToProto]. *)
Definition marshal_Block (b : Block) : option bytes :=
  header ← marshal_Header (B_Header b);
  evidence ← marshal_EvidenceList (B_Evidence b);
  Some (message_field x0a header ++ message_field x12 (marshal_Data (B_Data b)) ++
        message_field x1a evidence ++
        from_option (λ c, message_field x22 (marshal_Commit c)) [] (B_LastCommit b) ++
        from_option (λ cl, message_field x2a (marshal_CoreChainLock cl)) [] (B_CoreChainLock b)).

Definition MakePartSet (b : option Block) (partSize : Z) : outcome block_error PartSet :=
  match b with
  | None => Err ErrBlockNil
  | Some b =>
      match marshal_Block b with
      | None => Err ErrBlockMarshal
      | Some bz => wrap_err ErrBlockPartSet (NewPartSetFromData sha256 bz partSize)
      end
  end.

(** Errors of [MakePartSet] panic. *)
Definition Block_BlockID (b : option Block) (partSet : option PartSet) :
    outcome block_error BlockID :=
  '(b, blockHash) ← wrap_err ErrBlockMerkle (Block_Hash b);
  match b with
  | None => Ok nilBlockID
  | Some blk =>
      if length blockHash =? 0 then Ok nilBlockID
      else
        partSet ← match partSet with
                  | Some ps => Ok ps
                  | None =>
                      match MakePartSet b BlockPartSizeBytes with
                      | Ok ps => Ok ps
                      | _ => Panic
                      end
                  end;
        Ok (mkBlockID blockHash (partset.Header (Some partSet)) (StateID_Hash (Header_StateID (B_Header blk))))
  end.

(** ** Conversions: the messages have the fields of the types *)

Definition HeaderFromProto (ph : option Header) : outcome header_error Header :=
  match ph with
  | None => Err ErrHeaderNil
  | Some ph =>
      _ ← wrap_err ErrHeaderLastBlockID (BlockIDFromProto (H_LastBlockID ph));
      _ ← Header_ValidateBasic ph; Ok ph
  end.

Definition CommitFromProto (cp : option Commit) : outcome block_error Commit :=
  match cp with
  | None => Err ErrBlockNilLastCommit
  | Some cp =>
      _ ← wrap_err ErrBlockCommitBlockID (BlockIDFromProto (Commit_BlockID cp));
      _ ← wrap_err ErrBlockLastCommit (Commit_ValidateBasic cp); Ok cp
  end.

Record ProtoBlock := mkPBlock {
  PB_Header : Header;
  PB_Data : list bytes;
  PB_CoreChainLock : option CoreChainLock;
  PB_Evidence : list ProtoEvidence;
  PB_LastCommit : option Commit }.

Definition Block_ToProto (b : Block) : ProtoBlock :=
  mkPBlock (B_Header b) (Txs (B_Data b)) (B_CoreChainLock b) (EvidenceList_ToProto (B_Evidence b))
    (B_LastCommit b).

Definition BlockFromProto (bp : option ProtoBlock) : outcome block_error Block :=
  match bp with
  | None => Err ErrBlockNil
  | Some bp =>
      h ← wrap_err ErrBlockHeader (HeaderFromProto (Some (PB_Header bp)));
      evidence ← wrap_err ErrBlockEvidence (EvidenceList_FromProto (PB_Evidence bp));
      coreChainLock ←
        match PB_CoreChainLock bp with
        | None => Ok None
        | Some cl => _ ← wrap_err ErrBlockChainLock (CL_ValidateBasic cl); Ok (Some cl)
        end;
      lastCommit ←
        match PB_LastCommit bp with
        | None => Ok None
        | Some c => lc ← CommitFromProto (Some c); Ok (Some lc)
        end;
      let b := mkBlock h (mkData (PB_Data bp)) coreChainLock evidence lastCommit in
      _ ← Block_ValidateBasic (Some b); Ok b
  end.

(** ** Sizes *)

Definition MaxDataBytes (maxBytes : Z) (commit : option Commit) (evidenceBytes : Z) :
    outcome block_error Z :=
  let lastCommitSize :=
    match commit with
    | None => MaxCommitOverheadBytes
    | Some c => Z.of_nat (length (marshal_Commit c))
    end in
  let maxDataBytes := int64 (maxBytes - MaxOverheadForBlock - MaxHeaderBytes -
                             MaxCoreChainLockSize - lastCommitSize - evidenceBytes) in
  if (maxDataBytes <? 0)%Z then Err (ErrBlockMaxBytes (int64 (- maxDataBytes)))
  else Ok maxDataBytes.

End hashing.

(** ** Encodings determine what they encode *)

Lemma bytes_field_opt_inj tag a b x y :
  head x ≠ Some tag → head y ≠ Some tag →
  (Z.of_nat (length a) ≤ MaxUint64)%Z → (Z.of_nat (length b) ≤ MaxUint64)%Z →
  wire.bytes_field tag a ++ x = wire.bytes_field tag b ++ y → a = b ∧ x = y.
Proof.
  intros Hx Hy Ha Hb E. destruct a as [|p a], b as [|q b].
  - done.
  - cbn [wire.bytes_field app] in E. by rewrite E in Hx.
  - cbn [wire.bytes_field app] in E. by rewrite <- E in Hy.
  - apply wire.bytes_field_app_inj in E; done.
Qed.

Lemma head_bytes_field tag t b x :
  tag ≠ t → head x ≠ Some t → head (wire.bytes_field tag b ++ x) ≠ Some t.
Proof. intros Ht Hx. destruct b; cbn; [done|]. congruence. Qed.

Lemma uvarint_field_inj tag a b x y :
  in_uint64 a → in_uint64 b → head x ≠ Some tag → head y ≠ Some tag →
  wire.varint_field tag a ++ x = wire.varint_field tag b ++ y → a = b ∧ x = y.
Proof.
  intros Ha Hb Hx Hy E. unfold wire.varint_field in E. apply opt_field_inj in E as [E1 E2]; [|done..].
  destruct (Z.eqb_spec a 0), (Z.eqb_spec b 0); try done; [by subst|].
  rewrite !uint64_id in E2 by done. by apply wire.uvarint_app_inj in E2.
Qed.

Lemma ufixed64_field_inj tag a b x y :
  in_uint64 a → in_uint64 b → head x ≠ Some tag → head y ≠ Some tag →
  wire.fixed64_field tag a ++ x = wire.fixed64_field tag b ++ y → a = b ∧ x = y.
Proof.
  intros Ha Hb Hx Hy E. unfold wire.fixed64_field in E. apply opt_field_inj in E as [E1 E2]; [|done..].
  destruct (Z.eqb_spec a 0), (Z.eqb_spec b 0); try done; [by subst|].
  apply wire.le_app_inj in E2 as [E2 ->]. split; [|done].
  rewrite !Z.mod_small in E2 by (unfold_ints; cbn; lia). done.
Qed.

Lemma ufixed32_field_inj tag a b x y :
  (0 ≤ a ≤ MaxUint32)%Z → (0 ≤ b ≤ MaxUint32)%Z → head x ≠ Some tag → head y ≠ Some tag →
  fixed32_field tag a ++ x = fixed32_field tag b ++ y → a = b ∧ x = y.
Proof.
  intros Ha Hb Hx Hy E. unfold fixed32_field in E. apply opt_field_inj in E as [E1 E2]; [|done..].
  destruct (Z.eqb_spec a 0), (Z.eqb_spec b 0); try done; [by subst|].
  apply wire.le_app_inj in E2 as [E2 ->]. split; [|done].
  rewrite !Z.mod_small in E2 by (unfold_ints; cbn; lia). done.
Qed.

Ltac later_tag :=
  cbn [app head message_field];
  repeat first
    [ discriminate
    | (apply head_opt; [discriminate|])
    | (apply head_bytes_field; [discriminate|]) ].

Lemma marshal_Consensus_inj v w :
  in_uint64 (Ver_Block v) → in_uint64 (Ver_App v) → in_uint64 (Ver_Block w) → in_uint64 (Ver_App w) →
  marshal_Consensus v = marshal_Consensus w → v = w.
Proof.
  intros V1 V2 W1 W2 E. unfold marshal_Consensus in E.
  rewrite <- (app_nil_r (wire.varint_field x10 (Ver_App v))),
    <- (app_nil_r (wire.varint_field x10 (Ver_App w))) in E.
  apply uvarint_field_inj in E as [E1 E]; [|done|done|later_tag..].
  apply uvarint_field_inj in E as [E2 _]; [|done|done|later_tag..].
  destruct v, w; cbn in *; congruence.
Qed.

(** Slices are shorter than a quarter of the address space, so that messages made
    of a few of them have a 64-bit length. *)
Definition short (b : bytes) : Prop := (Z.of_nat (length b) ≤ MaxInt32)%Z.

Definition blockid_ints (b : BlockID) : Prop :=
  short (BlockID_Hash b) ∧ short (BlockID_StateID b) ∧ short (PSH_Hash (BlockID_PartSetHeader b)) ∧
  (0 ≤ PSH_Total (BlockID_PartSetHeader b) ≤ MaxUint32)%Z.

Lemma marshal_BlockID_inj a b :
  blockid_ints a → blockid_ints b → marshal_BlockID a = marshal_BlockID b → a = b.
Proof.
  intros (A1 & A2 & A3 & A4) (B1 & B2 & B3 & B4) E. unfold marshal_BlockID, short in *.
  rewrite <- (app_nil_r (wire.bytes_field x1a (BlockID_StateID a))),
    <- (app_nil_r (wire.bytes_field x1a (BlockID_StateID b))) in E.
  apply bytes_field_opt_inj in E as [E1 E]; [|later_tag|later_tag|unfold_ints; lia..].
  cbn [message_field app] in E. apply (f_equal (@List.tl byte)) in E. cbn [List.tl] in E.
  rewrite <- !app_assoc in E.
  assert (∀ t h, (Z.of_nat (length h) ≤ MaxInt32)%Z →
    (Z.of_nat (length (wire.marshal_PartSetHeader t h)) ≤ MaxUint64)%Z) as Hl.
  { intros t h Hh. unfold wire.marshal_PartSetHeader. rewrite length_app.
    pose proof (length_bytes_field x12 h). pose proof (proj2 (length_int_fields x08 t)).
    unfold_ints. lia. }
  apply delimited_inj in E as [Ep E]; [|by apply Hl..].
  apply bytes_field_opt_inj in E as [E2 _]; [|later_tag|later_tag|unfold_ints; lia..].
  unfold wire.marshal_PartSetHeader in Ep.
  rewrite <- (app_nil_r (wire.bytes_field x12 (PSH_Hash (BlockID_PartSetHeader a)))),
    <- (app_nil_r (wire.bytes_field x12 (PSH_Hash (BlockID_PartSetHeader b)))) in Ep.
  apply uvarint_field_inj in Ep as [E3 Ep]; [|unfold_ints; lia..|later_tag|later_tag].
  apply bytes_field_opt_inj in Ep as [E4 _]; [|later_tag|later_tag|unfold_ints; lia..].
  destruct a as [? [? ?] ?], b as [? [? ?] ?]; cbn in *; congruence.
Qed.

Definition stateid_ints (s : StateID) : Prop :=
  in_uint64 (SID_AppVersion s) ∧ in_uint64 (SID_Height s) ∧ short (SID_AppHash s) ∧
  (0 ≤ SID_CoreChainLockedHeight s ≤ MaxUint32)%Z ∧ in_uint64 (SID_Time s).

Lemma marshal_StateID_inj a b :
  stateid_ints a → stateid_ints b → marshal_StateID a = marshal_StateID b → a = b.
Proof.
  intros (A1 & A2 & A3 & A4 & A5) (B1 & B2 & B3 & B4 & B5) E. unfold marshal_StateID, short in *.
  rewrite <- (app_nil_r (wire.fixed64_field x29 (SID_Time a))),
    <- (app_nil_r (wire.fixed64_field x29 (SID_Time b))) in E.
  apply ufixed64_field_inj in E as [E1 E]; [|done|done|later_tag..].
  apply ufixed64_field_inj in E as [E2 E]; [|done|done|later_tag..].
  apply bytes_field_opt_inj in E as [E3 E]; [|later_tag|later_tag|unfold_ints; lia..].
  apply ufixed32_field_inj in E as [E4 E]; [|done|done|later_tag..].
  apply ufixed64_field_inj in E as [E5 _]; [|done|done|later_tag..].
  destruct a, b; cbn in *; congruence.
Qed.

(** ** What a hash commits to *)

(** Go's field widths, and slices of a sane length. *)
Definition header_ints (h : Header) : Prop :=
  in_uint64 (Ver_Block (H_Version h)) ∧ in_uint64 (Ver_App (H_Version h)) ∧
  in_int64 (H_Height h) ∧ (0 ≤ H_CoreChainLockedHeight h ≤ MaxUint32)%Z ∧
  in_uint64 (H_ProposedAppVersion h) ∧ blockid_ints (H_LastBlockID h) ∧
  Forall short [H_ChainID h; slice (H_LastCommitHash h); slice (H_DataHash h); H_ValidatorsHash h;
    H_NextValidatorsHash h; H_ConsensusHash h; H_NextConsensusHash h; H_AppHash h; H_ResultsHash h;
    slice (H_EvidenceHash h); H_ProposerProTxHash h].

(** The header without the field that is not hashed; nil and empty hashes are
    the same. *)
Definition hashed_part (h : Header) : Header :=
  set_hashes (set_core_height h 0) (Some (slice (H_LastCommitHash h)))
    (Some (slice (H_DataHash h))) (Some (slice (H_EvidenceHash h))).

Lemma cdc_bytes_inj a b :
  short a → short b → wire.bytes_field x0a a = wire.bytes_field x0a b → a = b.
Proof. unfold short. intros Ha Hb. apply bytes_field_inj; unfold_ints; lia. Qed.

Lemma map_sha_inj `{Crypto} (l l' : list bytes) :
  merkle.no_collision sha256 (l ++ l') → map Tx_Hash l = map Tx_Hash l' → l = l'.
Proof.
  revert l'. induction l as [|x l IH]; intros [|y l'] Hc E; cbn in E; try done.
  injection E as E1 E2. f_equal.
  - apply Hc; [set_solver..|done].
  - apply IH; [|done]. eapply merkle.no_collision_subset; [|exact Hc]. set_solver.
Qed.

Section binding.
Context `{Crypto} `{StdTime}.
Hypothesis sha_len : ∀ b, length (sha256 b) = 32.
Hypothesis time_law : std_time_law.

Lemma header_items_inj h1 h2 items :
  header_ints h1 → header_ints h2 →
  header_items h1 = Some items → header_items h2 = Some items → hashed_part h1 = hashed_part h2.
Proof using time_law.
  intros (A1 & A2 & A3 & _ & A4 & A5 & A6) (B1 & B2 & B3 & _ & B4 & B5 & B6) E1 E2.
  unfold header_items in E1, E2.
  destruct (StdTimeMarshal (H_Time h1)) as [t1|] eqn:T1; [|done].
  destruct (StdTimeMarshal (H_Time h2)) as [t2|] eqn:T2; [|done].
  cbn [mbind option_bind] in E1, E2. rewrite <- E1 in E2. clear E1. apply (inj Some) in E2.
  repeat (apply Forall_cons in A6 as [? A6]). repeat (apply Forall_cons in B6 as [? B6]).
  cbn [cdcEncode] in E2.
  injection E2 as F1 F2 F3 F4 F5 F6 F7 F8 F9 F10 F11 F12 F13 F14 F15 F16.
  apply marshal_Consensus_inj in F1; [|done..].
  apply cdc_bytes_inj in F2, F6, F7, F8, F9, F10, F11, F12, F13, F14, F15; [|done..].
  apply (f_equal (λ l, l ++ [])) in F3, F16. cbn beta in F3, F16.
  apply varint_field_inj in F3 as [F3 _]; [|done|done|later_tag..].
  apply uvarint_field_inj in F16 as [F16 _]; [|done|done|later_tag..].
  apply marshal_BlockID_inj in F5; [|done..].
  assert (H_Time h1 = H_Time h2) as F4'.
  { destruct (time_law _ (H_Time h2) _ T1) as [_ Ht]. apply Ht. by rewrite T2, F4. }
  destruct h1, h2; unfold hashed_part, set_hashes, set_core_height; cbn in *. congruence.
Qed.

(** The strings hashed for the root of the header. *)
Definition header_inputs (h : Header) : list bytes :=
  match header_items h with
  | Some items => merkle.tree_inputs sha256 (S (length items)) items
  | None => []
  end.

Lemma Header_Hash_inv h hash :
  Header_Hash (Some h) = Ok hash → hash ≠ [] →
  ∃ items, header_items h = Some items ∧ merkle.is_root sha256 items hash ∧ length items = 17.
Proof.
  unfold Header_Hash. destruct (_ =? 0); [by intros [= <-]|].
  destruct (header_items h) as [items|] eqn:E; [|by intros [= <-]].
  intros Hr Hne. exists items. split; [done|].
  assert (length items = 17) as Hl.
  { unfold header_items in E. destruct (StdTimeMarshal _); [|done]. apply (inj Some) in E as <-. done. }
  split; [|done]. apply merkle.HashFromByteSlices_root in Hr; [done|]. rewrite Hl. done.
Qed.

(** The hash of a header commits to every field but the core chain locked
    height, for which [cdcEncode] has no encoding. *)
Lemma header_hash_inj h1 h2 hash :
  header_ints h1 → header_ints h2 → hash ≠ [] →
  Header_Hash (Some h1) = Ok hash → Header_Hash (Some h2) = Ok hash →
  merkle.no_collision sha256 (header_inputs h1 ++ header_inputs h2) →
  hashed_part h1 = hashed_part h2.
Proof using sha_len time_law.
  intros I1 I2 Hne E1 E2 Hc.
  destruct (Header_Hash_inv _ _ E1 Hne) as (l1 & L1 & R1 & N1).
  destruct (Header_Hash_inv _ _ E2 Hne) as (l2 & L2 & R2 & N2).
  unfold header_inputs in Hc. rewrite L1, L2 in Hc.
  assert (l1 = l2) as <-.
  { eapply (merkle.is_root_inj sha256 sha_len); [exact R1|exact R2| | | | |exact Hc]; try lia;
      rewrite ?N1, ?N2; done. }
  by eapply header_items_inj.
Qed.

(** ** Blocks *)

(** What [ValidateBasic] establishes. *)
Lemma Block_ValidateBasic_Ok b :
  Block_ValidateBasic (Some b) = Ok tt →
  ∃ c ev, B_LastCommit b = Some c ∧ Header_ValidateBasic (B_Header b) = Ok tt ∧
    Commit_ValidateBasic c = Ok tt ∧
    slice (H_LastCommitHash (B_Header b)) = Checksum (Commit_ThresholdBlockSignature c) ∧
    Txs_Hash (Txs (B_Data b)) = Ok (slice (H_DataHash (B_Header b))) ∧
    EvidenceList_Bytes (B_Evidence b) = Ok (E:=merkle.merkle_error) ev ∧
    merkle.HashFromByteSlices sha256 ev = Ok (slice (H_EvidenceHash (B_Header b))) ∧
    validate_evidence (B_Evidence b) = Ok tt ∧
    match B_CoreChainLock b with Some cl => CL_ValidateBasic cl = Ok tt | None => True end.
Proof.
  unfold Block_ValidateBasic. intros Hv.
  apply bind_Ok in Hv as ([] & Hh%wrap_err_Ok & Hv). apply bind_Ok in Hv as ([] & Hcl & Hv).
  destruct (B_LastCommit b) as [c|]; [|done].
  apply bind_Ok in Hv as ([] & Hc%wrap_err_Ok & Hv). destruct (negb _) eqn:E1 in Hv; [done|].
  apply bind_Ok in Hv as (w & Hw%wrap_err_Ok & Hv). destruct (negb _) eqn:E2 in Hv; [done|].
  apply bind_Ok in Hv as ([] & He%wrap_err_Ok & Hv).
  apply bind_Ok in Hv as (w' & Hw'%wrap_err_Ok & Hv). destruct (negb _) eqn:E3 in Hv; [done|].
  unfold EvidenceList_Hash in Hw'. apply bind_Ok in Hw' as (ev & Hev & Hr). bools. subst w w'.
  exists c, ev. split_and!; try done.
  destruct (B_CoreChainLock b); [|done]. by apply wrap_err_Ok in Hcl.
Qed.

Lemma root_32 items h :
  (Z.of_nat (length items) ≤ MaxInt64)%Z → merkle.HashFromByteSlices sha256 items = Ok h → length h = 32.
Proof using sha_len.
  intros Hm Hr%merkle.HashFromByteSlices_root; [|done]. by eapply merkle.is_root_len.
Qed.

Lemma slice_some p : length (slice p) = 32 → p = Some (slice p).
Proof. by destruct p. Qed.

(** Lists have a 64-bit length. *)
Definition block_lens (b : Block) : Prop :=
  (Z.of_nat (length (Txs (B_Data b))) ≤ MaxInt64)%Z ∧ (Z.of_nat (length (B_Evidence b)) ≤ MaxInt64)%Z.

Lemma length_EvidenceList_Bytes {E} evl bzs :
  EvidenceList_Bytes (E:=E) evl = Ok bzs → length bzs = length evl.
Proof.
  revert bzs. induction evl as [|e evl IH]; intros bzs Hb; cbn [EvidenceList_Bytes] in Hb;
    outcome_inv; [done|]. cbn. f_equal. by apply IH.
Qed.

(** A valid block has nothing to fill in. *)
Lemma valid_filled b :
  block_lens b → Block_ValidateBasic (Some b) = Ok tt → fillHeader b = Ok b.
Proof using sha_len.
  intros [L1 L2] (c & ev & Hc & _ & _ & E1 & E2 & Hev & E3 & _)%Block_ValidateBasic_Ok.
  apply root_32 in E2; [|by rewrite length_map].
  apply root_32 in E3; [|by rewrite (length_EvidenceList_Bytes _ _ Hev)].
  pose proof (f_equal length E1) as E1'. unfold Checksum in E1'. rewrite sha_len in E1'.
  apply slice_some in E1', E2, E3. unfold fillHeader.
  rewrite E1', E2, E3. cbn [fill mbind outcome_bind]. f_equal.
  destruct b as [[] ? ? ? ?]; cbn in *. unfold set_hashes. cbn. by rewrite <- E1', <- E2, <- E3.
Qed.

Lemma valid_block_hash b :
  block_lens b → Block_ValidateBasic (Some b) = Ok tt →
  Block_Hash (Some b) = (λ h, (Some b, h)) <$> Header_Hash (Some (B_Header b)).
Proof using sha_len.
  intros Hl Hv. pose proof (valid_filled b Hl Hv) as Hf.
  apply Block_ValidateBasic_Ok in Hv as (c & _ & Hc & _). unfold Block_Hash. rewrite Hc, Hf. orun.
  by destruct (Header_Hash _).
Qed.

(** The strings hashed for the id of a valid block. *)
Definition block_inputs (b : Block) : list bytes :=
  header_inputs (B_Header b) ++
  merkle.tree_inputs sha256 (S (length (Txs (B_Data b)))) (map Tx_Hash (Txs (B_Data b))) ++
  Txs (B_Data b) ++
  match EvidenceList_Bytes (E:=unit) (B_Evidence b) with
  | Ok ev => merkle.tree_inputs sha256 (S (length ev)) ev
  | _ => []
  end ++
  [slice (Commit_ThresholdBlockSignature <$> B_LastCommit b)] ++
  [wire.MarshalDelimited (marshal_StateID (Header_StateID (B_Header b)))].

Lemma EvidenceList_Bytes_any {E F} evl bzs :
  EvidenceList_Bytes (E:=E) evl = Ok bzs → EvidenceList_Bytes (E:=F) evl = Ok bzs.
Proof.
  revert bzs. induction evl as [|e evl IH]; intros bzs Hb; cbn [EvidenceList_Bytes] in *; [by simplify_eq|].
  apply bind_Ok in Hb as (x & Hx & Hb). apply bind_Ok in Hb as (y & Hy & [= <-]).
  unfold DVE_Bytes in *. apply deref_Ok in Hx. rewrite Hx. cbn [deref mbind outcome_bind].
  rewrite (IH _ Hy). done.
Qed.

Lemma header_stateid_ints h : header_ints h → stateid_ints (Header_StateID h).
Proof.
  intros (_ & Ha & _ & Hc & _ & _ & Hs). repeat (apply Forall_cons in Hs as [? Hs]).
  unfold stateid_ints, Header_StateID. cbn.
  assert (∀ z, in_uint64 (uint64 z)) as Hu.
  { intros z. pose proof (uwrap_range 64 z). unfold_ints. lia. }
  split_and!; try done; try lia; try apply Hu.
  by destruct (negb _).
Qed.

Lemma length_marshal_StateID s : short (SID_AppHash s) → (Z.of_nat (length (marshal_StateID s)) ≤ MaxUint64)%Z.
Proof.
  unfold short. intros Hs. unfold marshal_StateID, fixed32_field. rewrite !length_app.
  pose proof (proj1 (length_int_fields x09 (SID_AppVersion s))).
  pose proof (proj1 (length_int_fields x11 (SID_Height s))).
  pose proof (proj1 (length_int_fields x29 (SID_Time s))).
  pose proof (length_bytes_field x1a (SID_AppHash s)).
  destruct (_ =? 0)%Z; cbn [length]; unfold wire.le32; rewrite ?wire.length_le; unfold_ints; lia.
Qed.

Lemma Block_BlockID_inv b ps id :
  block_lens b → Block_ValidateBasic (Some b) = Ok tt → Block_BlockID (Some b) ps = Ok id →
  id ≠ nilBlockID →
  Header_Hash (Some (B_Header b)) = Ok (BlockID_Hash id) ∧ BlockID_Hash id ≠ [] ∧
  BlockID_StateID id = StateID_Hash (Header_StateID (B_Header b)).
Proof using sha_len.
  intros Hl Hv Hid Hne. unfold Block_BlockID in Hid. rewrite valid_block_hash in Hid by done.
  destruct (Header_Hash _) as [h| |]; try done. cbn [fmap outcome_map wrap_err mbind outcome_bind] in Hid.
  destruct (Nat.eqb_spec (length h) 0) as [E|E]; [by simplify_eq|].
  apply bind_Ok in Hid as (ps' & _ & [= <-]). cbn. split; [done|]. split; [by intros ->|done].
Qed.

(** The hashes of a valid header are set. *)
Lemma valid_hashes_set b :
  block_lens b → Block_ValidateBasic (Some b) = Ok tt →
  let h := B_Header b in
  H_LastCommitHash h = Some (slice (H_LastCommitHash h)) ∧
  H_DataHash h = Some (slice (H_DataHash h)) ∧ H_EvidenceHash h = Some (slice (H_EvidenceHash h)).
Proof using sha_len.
  intros [L1 L2] (c & ev & Hc & _ & _ & E1 & E2 & Hev & E3 & _)%Block_ValidateBasic_Ok h.
  apply root_32 in E2; [|by rewrite length_map].
  apply root_32 in E3; [|by rewrite (length_EvidenceList_Bytes _ _ Hev)].
  pose proof (f_equal length E1) as E1'. unfold Checksum in E1'. rewrite sha_len in E1'.
  split_and!; by apply slice_some.
Qed.

Lemma hashed_part_full h1 h2 :
  hashed_part h1 = hashed_part h2 → H_CoreChainLockedHeight h1 = H_CoreChainLockedHeight h2 →
  (∀ h, h = h1 ∨ h = h2 → H_LastCommitHash h = Some (slice (H_LastCommitHash h)) ∧
     H_DataHash h = Some (slice (H_DataHash h)) ∧ H_EvidenceHash h = Some (slice (H_EvidenceHash h))) →
  h1 = h2.
Proof.
  intros Hp Hc Hs. destruct (Hs h1) as (A1 & A2 & A3); [by left|].
  destruct (Hs h2) as (B1 & B2 & B3); [by right|].
  unfold hashed_part, set_hashes in Hp. cbn in Hp. rewrite <- A1, <- A2, <- A3, <- B1, <- B2, <- B3 in Hp.
  clear -Hp Hc. destruct h1, h2; cbn in *. injection Hp. intros. by subst.
Qed.

(** The contents behind the hashes of a valid header. *)
Lemma contents_inj b1 b2 :
  block_lens b1 → block_lens b2 →
  Block_ValidateBasic (Some b1) = Ok tt → Block_ValidateBasic (Some b2) = Ok tt →
  B_Header b1 = B_Header b2 →
  merkle.no_collision sha256 (block_inputs b1 ++ block_inputs b2) →
  B_Data b1 = B_Data b2 ∧
  EvidenceList_Bytes (E:=unit) (B_Evidence b1) = EvidenceList_Bytes (B_Evidence b2) ∧
  Commit_ThresholdBlockSignature <$> B_LastCommit b1 =
    Commit_ThresholdBlockSignature <$> B_LastCommit b2.
Proof using sha_len.
  intros [L1 L2] [L1' L2'] (c & ev & Hc & _ & _ & E1 & E2 & Hev & E3 & _)%Block_ValidateBasic_Ok
    (c' & ev' & Hc' & _ & _ & E1' & E2' & Hev' & E3' & _)%Block_ValidateBasic_Ok Heq Hcol.
  rewrite <- Heq in E1', E2', E3'. unfold block_inputs in Hcol.
  pose proof (length_EvidenceList_Bytes _ _ Hev) as Ll. pose proof (length_EvidenceList_Bytes _ _ Hev') as Ll'.
  apply (EvidenceList_Bytes_any (F:=unit)) in Hev. apply (EvidenceList_Bytes_any (F:=unit)) in Hev'. rewrite Hev, Hev', Hc, Hc' in *.
  unfold Txs_Hash in *. apply merkle.HashFromByteSlices_root in E2, E2', E3, E3';
    rewrite ?length_map, ?Ll, ?Ll'; [|done..].
  split_and!.
  - assert (map Tx_Hash (Txs (B_Data b1)) = map Tx_Hash (Txs (B_Data b2))) as Et.
    { eapply (merkle.is_root_inj sha256 sha_len); [exact E2|exact E2'| | | | |];
        rewrite ?length_map; [apply Nat.lt_succ_diag_r..|done|done|].
      eapply merkle.no_collision_subset; [|exact Hcol]. intros z. rewrite !elem_of_app. tauto. }
    apply map_sha_inj in Et; [by destruct (B_Data b1), (B_Data b2); cbn in *; subst|].
    eapply merkle.no_collision_subset; [|exact Hcol]. intros z. rewrite !elem_of_app. tauto.
  - f_equal. eapply (merkle.is_root_inj sha256 sha_len); [exact E3|exact E3'| | | | |];
      [apply Nat.lt_succ_diag_r..|by rewrite Ll|by rewrite Ll'|].
    eapply merkle.no_collision_subset; [|exact Hcol]. intros z. rewrite !elem_of_app. tauto.
  - cbn. f_equal. apply Hcol; [| |unfold Checksum in *; congruence];
      rewrite !elem_of_app, !list_elem_of_singleton; cbn; tauto.
Qed.

(** C33: the id of a block commits to the block.  Two valid blocks with the same
    id, other than the nil one, have the same transactions, the same evidence, the
    same signature of the last commit and the same header, unless two different
    strings that are hashed for them have the same digest; the core chain locked
    height, which the hash leaves out, is fixed by the state id. *)
Theorem block_id_binds b1 b2 ps1 ps2 id :
  block_lens b1 → block_lens b2 → header_ints (B_Header b1) → header_ints (B_Header b2) →
  Block_ValidateBasic (Some b1) = Ok tt → Block_ValidateBasic (Some b2) = Ok tt →
  Block_BlockID (Some b1) ps1 = Ok id → Block_BlockID (Some b2) ps2 = Ok id → id ≠ nilBlockID →
  merkle.no_collision sha256 (block_inputs b1 ++ block_inputs b2) →
  B_Header b1 = B_Header b2 ∧ B_Data b1 = B_Data b2 ∧
  EvidenceList_Bytes (E:=unit) (B_Evidence b1) = EvidenceList_Bytes (B_Evidence b2) ∧
  Commit_ThresholdBlockSignature <$> B_LastCommit b1 =
    Commit_ThresholdBlockSignature <$> B_LastCommit b2.
Proof using sha_len time_law.
  intros L1 L2 I1 I2 V1 V2 B1 B2 Hne Hcol.
  destruct (Block_BlockID_inv _ _ _ L1 V1 B1 Hne) as (H1 & Hh & S1).
  destruct (Block_BlockID_inv _ _ _ L2 V2 B2 Hne) as (H2 & _ & S2).
  assert (hashed_part (B_Header b1) = hashed_part (B_Header b2)) as Hp.
  { eapply header_hash_inj; [done|done|exact Hh|exact H1|exact H2|].
    eapply merkle.no_collision_subset; [|exact Hcol]. unfold block_inputs. intros z.
    rewrite !elem_of_app. tauto. }
  assert (Header_StateID (B_Header b1) = Header_StateID (B_Header b2)) as Hs.
  { pose proof (header_stateid_ints _ I1) as J1. pose proof (header_stateid_ints _ I2) as J2.
    apply marshal_StateID_inj; [done..|].
    apply wire.MarshalDelimited_inj; [apply length_marshal_StateID, J1|apply length_marshal_StateID, J2|].
    apply Hcol; [| |unfold StateID_Hash, Checksum in *; congruence];
      unfold block_inputs; rewrite !elem_of_app, !list_elem_of_singleton; tauto. }
  assert (B_Header b1 = B_Header b2) as Heq.
  { apply hashed_part_full; [done|by injection Hs|].
    intros h [->| ->]; [by apply valid_hashes_set|by apply valid_hashes_set]. }
  split; [done|]. by apply contents_inj.
Qed.

End binding.

(** ** Round trips *)

Lemma BlockIDFromProto_valid b : BlockID_ValidateBasic b = Ok tt → BlockIDFromProto b = Ok b.
Proof.
  intros Hb. unfold BlockIDFromProto.
  assert (PSH_ValidateBasic (BlockID_PartSetHeader b) = Ok tt) as Hp.
  { unfold BlockID_ValidateBasic in Hb. ok_inv; by units. }
  by rewrite Hp, Hb.
Qed.

Lemma DVE_back e :
  DVE_ValidateBasic (Some e) = Ok tt →
  (∀ v, VoteA e = Some v ∨ VoteB e = Some v → forallb class_ok (Vote_VoteExtensions v) = true) →
  EvidenceFromProto (EvidenceToProto e) = Ok e.
Proof.
  intros Hv Hc. pose proof Hv as Hv'. unfold DVE_ValidateBasic in Hv'.
  destruct (VoteA e) as [a|] eqn:Ea; [|done]. destruct (VoteB e) as [b|] eqn:Eb; [|done].
  apply bind_Ok in Hv' as ([] & Va%wrap_err_Ok & Hv'). apply bind_Ok in Hv' as ([] & Vb%wrap_err_Ok & _).
  unfold EvidenceFromProto, EvidenceToProto, DuplicateVoteEvidenceFromProto, DVE_ToProto.
  cbn [PDVE_VoteA PDVE_VoteB PDVE_TotalVotingPower PDVE_ValidatorPower PDVE_Timestamp].
  rewrite Ea, Eb. cbn [fmap option_fmap option_map].
  rewrite (evidence_vote_back a) by (try done; apply Hc; by left). orun.
  rewrite (evidence_vote_back b) by (try done; apply Hc; by right). orun.
  replace (mkDVE _ _ _ _ _) with e by (destruct e; cbn in *; by subst). by rewrite Hv.
Qed.

Lemma EvidenceList_FromProto_back evl :
  validate_evidence evl = Ok tt →
  (∀ e v, e ∈ evl → VoteA e = Some v ∨ VoteB e = Some v →
     forallb class_ok (Vote_VoteExtensions v) = true) →
  EvidenceList_FromProto (EvidenceList_ToProto evl) = Ok evl.
Proof.
  induction evl as [|e evl IH]; intros Hv Hc; [done|]. cbn [validate_evidence] in Hv.
  apply bind_Ok in Hv as ([] & He & Hv). cbn [EvidenceList_ToProto map EvidenceList_FromProto].
  rewrite DVE_back; [|done|intros v; apply Hc; by left]. orun.
  change (map EvidenceToProto evl) with (EvidenceList_ToProto evl). rewrite IH; [done|done|].
  intros e' v He'. apply Hc. by right.
Qed.

(** A valid block survives the conversion to its message and back, provided the
    dynamic types of its vote extensions follow their message types and the last
    commit, which may be the empty commit of the first block, has a valid block id. *)
Theorem block_roundtrip `{Crypto} `{StdTime} b :
  Block_ValidateBasic (Some b) = Ok tt →
  (∀ e v, e ∈ B_Evidence b → VoteA e = Some v ∨ VoteB e = Some v →
     forallb class_ok (Vote_VoteExtensions v) = true) →
  (∀ c, B_LastCommit b = Some c → BlockID_ValidateBasic (Commit_BlockID c) = Ok tt) →
  BlockFromProto (Some (Block_ToProto b)) = Ok b.
Proof.
  intros Hv Hc Hid.
  pose proof Hv as (c & ev & Ec & Hh & Hcv & _ & _ & _ & _ & He & Hcl)%Block_ValidateBasic_Ok.
  unfold BlockFromProto, Block_ToProto. cbn [PB_Header PB_Data PB_CoreChainLock PB_Evidence PB_LastCommit].
  unfold HeaderFromProto, CommitFromProto.
  assert (BlockID_ValidateBasic (H_LastBlockID (B_Header b)) = Ok tt) as Hb.
  { unfold Header_ValidateBasic in Hh. ok_inv; by units. }
  rewrite (BlockIDFromProto_valid _ Hb), Hh. cbn [wrap_err mbind outcome_bind].
  rewrite EvidenceList_FromProto_back by done. cbn [wrap_err mbind outcome_bind].
  assert ((match B_CoreChainLock b with
    | Some cl => wrap_err ErrBlockChainLock (CL_ValidateBasic cl) ≫= λ _, Ok (Some cl)
    | None => Ok None end) = Ok (E:=block_error) (B_CoreChainLock b)) as ->.
  { destruct (B_CoreChainLock b); [|done]. by rewrite Hcl. }
  orun. rewrite Ec, (BlockIDFromProto_valid _ (Hid _ Ec)), Hcv. cbn [wrap_err mbind outcome_bind].
  replace (mkBlock _ _ _ _ _) with b by (destruct b as [? [] ? ? ?]; cbn in *; by subst).
  by rewrite Hv.
Qed.

(** ** Witnesses *)

#[local] Existing Instance toy_crypto.
#[local] Existing Instance toy_time.

(** A header for the demo commit, without its hashes. *)
Definition demo_header : Header :=
  mkHeader (mkVersion BlockProtocol 1) [x61] 6 3 77 (demo_block x01) None None (demo_hash x02)
    (demo_hash x03) (demo_hash x04) (demo_hash x05) (demo_hash x06) (demo_hash x07) None
    (demo_hash x08) 1.

Definition demo_filled (cl : option CoreChainLock) (ev : list DuplicateVoteEvidence) : Block :=
  let b := mkBlock demo_header (mkData [[x01]; [x02; x03]]) cl ev (Some valset.demo_commit) in
  match fillHeader b with Ok b => b | _ => b end.

Definition demo_chainlock : CoreChainLock := mkCL 3 (demo_hash x09) (replicate 96 x01).

Lemma block_roundtrip_witness :
  BlockFromProto (Some (Block_ToProto (demo_filled None [demo_evidence]))) =
    Ok (demo_filled None [demo_evidence]).
Proof.
  apply (block_roundtrip (demo_filled None [demo_evidence])).
  - vm_compute. reflexivity.
  - intros e v He Hv. assert (e = demo_evidence) as -> by (revert He; vm_compute; set_solver).
    destruct Hv as [[= <-]|[= <-]]; vm_compute; reflexivity.
  - intros c Hc. assert (c = valset.demo_commit) as -> by (revert Hc; vm_compute; congruence).
    vm_compute. reflexivity.
Defined.

Definition demo_parts : option PartSet :=
  match MakePartSet (Some (demo_filled None [])) BlockPartSizeBytes with
  | Ok ps => Some ps
  | _ => None
  end.

Definition demo_block_id : BlockID :=
  match Block_BlockID (Some (demo_filled None [])) demo_parts with Ok id => id | _ => nilBlockID end.

Lemma block_id_binds_witness :
  Block_BlockID (Some (demo_filled None [])) demo_parts = Ok demo_block_id ∧
  Block_BlockID (Some (demo_filled (Some demo_chainlock) [])) demo_parts = Ok demo_block_id ∧
  B_Data (demo_filled None []) = B_Data (demo_filled (Some demo_chainlock) []).
Proof.
  assert (Block_BlockID (Some (demo_filled None [])) demo_parts = Ok demo_block_id) as E1
    by (vm_compute; reflexivity).
  assert (Block_BlockID (Some (demo_filled (Some demo_chainlock) [])) demo_parts = Ok demo_block_id) as E2
    by (vm_compute; reflexivity).
  split; [exact E1|]. split; [exact E2|].
  refine (proj1 (proj2 (block_id_binds merkle.toy_hash_len toy_time_law (demo_filled None [])
    (demo_filled (Some demo_chainlock) []) demo_parts demo_parts demo_block_id _ _ _ _ _ _ E1 E2 _ _))).
  1,2: vm_compute; split; discriminate.
  1,2: unfold header_ints, blockid_ints, short; repeat (apply Forall_cons || split || apply Forall_nil);
    vm_compute; try (intros ?; discriminate); reflexivity.
  1,2: vm_compute; reflexivity.
  - vm_compute. discriminate.
  - apply merkle.no_collision_decide. vm_compute. reflexivity.
Defined.

End block.
