(* ===== verification/Params.v ===== *)
(** * types: consensus parameters

    Models [src/types/params.go]: the parameters of a chain, their defaults and
    validation, the updates an application asks for, their protobuf form and the
    hash that a header carries.  Strings are their bytes, durations are
    nanoseconds. *)
From Stdlib Require Import ZArith Lia Init.Byte Strings.String.
From stdpp Require Import base numbers list sets.
From S2P Require Import Prelude.
From S2P Require Import Wire.
From S2P Require Import Merkle.
From S2P Require Import Crypto.
From S2P Require Import Proposal.

Import crypto proposal.

Module params.

Definition MaxBlockSizeBytes : Z := 104857600.

Definition millisecond : Z := 1000000.

(** [KeyType] of the key packages. *)
Definition key_name (t : KeyType) : bytes :=
  list_byte_of_string
    match t with Ed25519 => "ed25519" | BLS12381 => "bls12381" | Secp256k1 => "secp256k1" end.

(** The keys of [ABCIPubKeyTypesToNames]. *)
Definition ABCIPubKeyTypes : list bytes := map key_name [Ed25519; Secp256k1; BLS12381].

(** ** Parameters *)

Record BlockParams := mkBP { BP_MaxBytes : Z; BP_MaxGas : Z }.

Record EvidenceParams := mkEP { MaxAgeNumBlocks : Z; MaxAgeDuration : Z; EP_MaxBytes : Z }.

Record ValidatorParams := mkVP {
  PubKeyTypes : list bytes;
  Params_VotingPowerThreshold : option Z }.

Record VersionParams := mkVersionParams { AppVersion : Z; ConsensusVersion : Z }.

Record TimeoutParams := mkTP { Propose : Z; ProposeDelta : Z; TP_Vote : Z; VoteDelta : Z }.

Record ABCIParams := mkABCI { RecheckTx : bool }.

Record ConsensusParams := mkParams {
  Params_Block : BlockParams;
  Params_Evidence : EvidenceParams;
  Params_Validator : ValidatorParams;
  Params_Version : VersionParams;
  Synchrony : SynchronyParams;
  Timeout : TimeoutParams;
  Params_ABCI : ABCIParams }.

Definition Params_MaxBytes (p : ConsensusParams) : Z := BP_MaxBytes (Params_Block p).
Definition Params_ConsensusVersion (p : ConsensusParams) : Z := ConsensusVersion (Params_Version p).

Global Instance BlockParams_eq_dec : EqDecision BlockParams.
Proof. solve_decision. Defined.
Global Instance EvidenceParams_eq_dec : EqDecision EvidenceParams.
Proof. solve_decision. Defined.
Global Instance VersionParams_eq_dec : EqDecision VersionParams.
Proof. solve_decision. Defined.
Global Instance SynchronyParams_eq_dec : EqDecision SynchronyParams.
Proof. solve_decision. Defined.
Global Instance TimeoutParams_eq_dec : EqDecision TimeoutParams.
Proof. solve_decision. Defined.
Global Instance ABCIParams_eq_dec : EqDecision ABCIParams.
Proof. solve_decision. Defined.

(** ** Defaults *)

Definition DefaultBlockParams : BlockParams := mkBP 22020096 (-1).
Definition DefaultEvidenceParams : EvidenceParams :=
  mkEP 100000 (48 * 3600 * 1000 * millisecond) 1048576.
Definition DefaultValidatorParams : ValidatorParams := mkVP [key_name BLS12381] None.
Definition DefaultVersionParams : VersionParams := mkVersionParams 0 0.
Definition DefaultSynchronyParams : SynchronyParams :=
  mkSP (505 * millisecond) (12000 * millisecond).
Definition DefaultTimeoutParams : TimeoutParams :=
  mkTP (3000 * millisecond) (500 * millisecond) (1000 * millisecond) (500 * millisecond).
Definition DefaultABCIParams : ABCIParams := mkABCI true.

Definition DefaultConsensusParams : ConsensusParams :=
  mkParams DefaultBlockParams DefaultEvidenceParams DefaultValidatorParams DefaultVersionParams
    DefaultSynchronyParams DefaultTimeoutParams DefaultABCIParams.

Definition or_default (v d : Z) : Z := if (v =? 0)%Z then d else v.

Definition SynchronyParamsOrDefaults (s : SynchronyParams) : SynchronyParams :=
  let d := DefaultSynchronyParams in
  mkSP (or_default (Precision s) (Precision d)) (or_default (MessageDelay s) (MessageDelay d)).

Definition TimeoutParamsOrDefaults (t : TimeoutParams) : TimeoutParams :=
  let d := DefaultTimeoutParams in
  mkTP (or_default (Propose t) (Propose d)) (or_default (ProposeDelta t) (ProposeDelta d))
    (or_default (TP_Vote t) (TP_Vote d)) (or_default (VoteDelta t) (VoteDelta d)).

Definition ProposeTimeout (t : TimeoutParams) (round : Z) : Z :=
  int64 (Propose t + int64 (ProposeDelta t * round)).

Definition VoteTimeout (t : TimeoutParams) (round : Z) : Z :=
  int64 (TP_Vote t + int64 (VoteDelta t * round)).

(** Synchrony and timeouts that are all zero get the defaults. *)
Definition Complete (p : ConsensusParams) : ConsensusParams :=
  mkParams (Params_Block p) (Params_Evidence p) (Params_Validator p) (Params_Version p)
    (if bool_decide (Synchrony p = mkSP 0 0) then DefaultSynchronyParams else Synchrony p)
    (if bool_decide (Timeout p = mkTP 0 0 0 0) then DefaultTimeoutParams else Timeout p)
    (Params_ABCI p).

Definition IsValidPubkeyType (vp : ValidatorParams) (pubkeyType : bytes) : bool :=
  existsb (λ t, bool_decide (t = pubkeyType)) (PubKeyTypes vp).

(** [Equals] does not compare the voting power threshold. *)
Definition Params_Equals (p q : ConsensusParams) : bool :=
  bool_decide (Params_Block p = Params_Block q) &&
  bool_decide (Params_Evidence p = Params_Evidence q) &&
  bool_decide (Params_Version p = Params_Version q) &&
  bool_decide (Synchrony p = Synchrony q) && bool_decide (Timeout p = Timeout q) &&
  bool_decide (Params_ABCI p = Params_ABCI q) &&
  bool_decide (PubKeyTypes (Params_Validator p) = PubKeyTypes (Params_Validator q)).

Definition zeroParams : ConsensusParams :=
  mkParams (mkBP 0 0) (mkEP 0 0 0) (mkVP [] None) (mkVersionParams 0 0) (mkSP 0 0) (mkTP 0 0 0 0)
    (mkABCI false).

Definition Params_IsZero (p : ConsensusParams) : bool := Params_Equals p zeroParams.

(** ** Validation *)

Inductive params_error :=
  | ErrBlockMaxBytesZero
  | ErrBlockMaxBytesBig
  | ErrBlockMaxGas
  | ErrMaxAgeNumBlocks
  | ErrMaxAgeDuration
  | ErrEvidenceMaxBytesBig
  | ErrEvidenceMaxBytesNegative
  | ErrMessageDelay
  | ErrPrecision
  | ErrPropose
  | ErrProposeDelta
  | ErrVoteTimeout
  | ErrVoteDelta
  | ErrNoPubKeyTypes
  | ErrUnknownPubKeyType.

Definition ValidateConsensusParams (p : ConsensusParams) : outcome params_error unit :=
  let b := Params_Block p in
  let e := Params_Evidence p in
  let t := Timeout p in
  if (BP_MaxBytes b <=? 0)%Z then Err ErrBlockMaxBytesZero
  else if (MaxBlockSizeBytes <? BP_MaxBytes b)%Z then Err ErrBlockMaxBytesBig
  else if (BP_MaxGas b <? -1)%Z then Err ErrBlockMaxGas
  else if (MaxAgeNumBlocks e <=? 0)%Z then Err ErrMaxAgeNumBlocks
  else if (MaxAgeDuration e <=? 0)%Z then Err ErrMaxAgeDuration
  else if (BP_MaxBytes b <? EP_MaxBytes e)%Z then Err ErrEvidenceMaxBytesBig
  else if (EP_MaxBytes e <? 0)%Z then Err ErrEvidenceMaxBytesNegative
  else if (MessageDelay (Synchrony p) <=? 0)%Z then Err ErrMessageDelay
  else if (Precision (Synchrony p) <=? 0)%Z then Err ErrPrecision
  else if (Propose t <=? 0)%Z then Err ErrPropose
  else if (ProposeDelta t <=? 0)%Z then Err ErrProposeDelta
  else if (TP_Vote t <=? 0)%Z then Err ErrVoteTimeout
  else if (VoteDelta t <=? 0)%Z then Err ErrVoteDelta
  else if length (PubKeyTypes (Params_Validator p)) =? 0 then Err ErrNoPubKeyTypes
  else if forallb (λ t, bool_decide (t ∈ ABCIPubKeyTypes)) (PubKeyTypes (Params_Validator p))
  then Ok tt else Err ErrUnknownPubKeyType.

(** ** The protobuf form *)

Record ProtoSynchrony := mkPSync { PS_MessageDelay : option Z; PS_Precision : option Z }.

Record ProtoTimeout := mkPTimeout {
  PT_Propose : option Z; PT_ProposeDelta : option Z; PT_Vote : option Z; PT_VoteDelta : option Z }.

(** Every message of [tmproto.ConsensusParams] may be missing.  Those of blocks,
    evidence, versions and the application have the fields of the parameters. *)
Record ProtoParams := mkPParams {
  PP_Block : option BlockParams;
  PP_Evidence : option EvidenceParams;
  PP_Validator : option ValidatorParams;
  PP_Version : option VersionParams;
  PP_Synchrony : option ProtoSynchrony;
  PP_Timeout : option ProtoTimeout;
  PP_Abci : option ABCIParams }.

Definition emptyProto : ProtoParams := mkPParams None None None None None None None.

(** [updates.Equal(&tmtypes.ConsensusParams{})]. *)
Definition ProtoParams_empty (u : ProtoParams) : bool :=
  match u with mkPParams None None None None None None None => true | _ => false end.

Definition ValidatorParamsFromProto (vp : option ValidatorParams) : ValidatorParams :=
  match vp with
  | None => mkVP [] None
  | Some vp => mkVP (PubKeyTypes vp) (Params_VotingPowerThreshold vp)
  end.

Definition set_version (v : VersionParams) : VersionParams :=
  mkVersionParams (AppVersion v) (int32 (ConsensusVersion v)).

Definition set_synchrony (old : SynchronyParams) (u : ProtoSynchrony) : SynchronyParams :=
  mkSP (default (Precision old) (PS_Precision u)) (default (MessageDelay old) (PS_MessageDelay u)).

Definition set_timeout (old : TimeoutParams) (u : ProtoTimeout) : TimeoutParams :=
  mkTP (default (Propose old) (PT_Propose u)) (default (ProposeDelta old) (PT_ProposeDelta u))
    (default (TP_Vote old) (PT_Vote u)) (default (VoteDelta old) (PT_VoteDelta u)).

Definition UpdateConsensusParams (p : ConsensusParams) (u : option ProtoParams) : ConsensusParams :=
  match u with
  | None => p
  | Some u =>
      mkParams (default (Params_Block p) (PP_Block u)) (default (Params_Evidence p) (PP_Evidence u))
        (match PP_Validator u with
         | Some _ => ValidatorParamsFromProto (PP_Validator u)
         | None => Params_Validator p
         end)
        (from_option set_version (Params_Version p) (PP_Version u))
        (from_option (set_synchrony (Synchrony p)) (Synchrony p) (PP_Synchrony u))
        (from_option (set_timeout (Timeout p)) (Timeout p) (PP_Timeout u))
        (default (Params_ABCI p) (PP_Abci u))
  end.

Definition Params_ToProto (p : ConsensusParams) : ProtoParams :=
  let s := Synchrony p in
  let t := Timeout p in
  mkPParams (Some (Params_Block p)) (Some (Params_Evidence p)) (Some (Params_Validator p))
    (Some (Params_Version p)) (Some (mkPSync (Some (MessageDelay s)) (Some (Precision s))))
    (Some (mkPTimeout (Some (Propose t)) (Some (ProposeDelta t)) (Some (TP_Vote t))
             (Some (VoteDelta t))))
    (Some (Params_ABCI p)).

Definition ConsensusParamsFromProto (pb : ProtoParams) : ConsensusParams :=
  mkParams (default (mkBP 0 0) (PP_Block pb)) (default (mkEP 0 0 0) (PP_Evidence pb))
    (default (mkVP [] None) (PP_Validator pb))
    (from_option set_version (mkVersionParams 0 0) (PP_Version pb))
    (from_option (set_synchrony (mkSP 0 0)) (mkSP 0 0) (PP_Synchrony pb))
    (from_option (set_timeout (mkTP 0 0 0 0)) (mkTP 0 0 0 0) (PP_Timeout pb))
    (default (mkABCI false) (PP_Abci pb)).

(** ** The hash of a header *)

Definition marshal_HashedParams (p : ConsensusParams) : bytes :=
  wire.varint_field x08 (Params_MaxBytes p) ++ wire.varint_field x10 (BP_MaxGas (Params_Block p)) ++
  wire.varint_field x18 (Params_ConsensusVersion p).

Definition HashConsensusParams `{Crypto} (p : ConsensusParams) : bytes :=
  sha256 (marshal_HashedParams p).

(** ** Properties *)

(** What validation accepts. *)
Record params_ok (p : ConsensusParams) : Prop := {
  ok_max_bytes : (0 < Params_MaxBytes p ≤ MaxBlockSizeBytes)%Z;
  ok_max_gas : (-1 ≤ BP_MaxGas (Params_Block p))%Z;
  ok_max_age : (0 < MaxAgeNumBlocks (Params_Evidence p))%Z ∧
               (0 < MaxAgeDuration (Params_Evidence p))%Z;
  ok_evidence : (0 ≤ EP_MaxBytes (Params_Evidence p) ≤ Params_MaxBytes p)%Z;
  ok_synchrony : (0 < MessageDelay (Synchrony p))%Z ∧ (0 < Precision (Synchrony p))%Z;
  ok_timeout : (0 < Propose (Timeout p))%Z ∧ (0 < ProposeDelta (Timeout p))%Z ∧
               (0 < TP_Vote (Timeout p))%Z ∧ (0 < VoteDelta (Timeout p))%Z;
  ok_key_types : PubKeyTypes (Params_Validator p) ≠ [] ∧
                 PubKeyTypes (Params_Validator p) ⊆ ABCIPubKeyTypes }.

Lemma ValidateConsensusParams_Ok p : ValidateConsensusParams p = Ok tt ↔ params_ok p.
Proof.
  unfold ValidateConsensusParams. split.
  - intros H. ok_inv. rewrite forallb_forall in *. bools. split; unfold Params_MaxBytes; try lia.
    split; [by intros E; rewrite E in *|]. intros t Ht.
    match goal with H : ∀ x, In x _ → _ |- _ =>
      specialize (H t); rewrite bool_decide_eq_true in H; by apply H, list_elem_of_In end.
  - intros [[H1 H2] H3 [H4 H5] [H6 H7] [H8 H9] (H10 & H11 & H12 & H13) [H14 H15]].
    unfold Params_MaxBytes in *.
    repeat match goal with
    | |- context [(?a <=? ?b)%Z] => rewrite (proj2 (Z.leb_gt a b)) by lia
    | |- context [(?a <? ?b)%Z] => rewrite (proj2 (Z.ltb_ge a b)) by lia
    end.
    destruct (PubKeyTypes (Params_Validator p)) as [|t l] eqn:E; [done|]. cbn [length Nat.eqb].
    rewrite (proj2 (forallb_forall _ _)); [done|]. intros x Hx%list_elem_of_In.
    apply bool_decide_eq_true. by apply H15.
Qed.

(** Decoding the encoded parameters gives them back. *)
Lemma params_roundtrip p :
  in_int32 (Params_ConsensusVersion p) → ConsensusParamsFromProto (Params_ToProto p) = p.
Proof.
  intros Hv. destruct p as [b e v [av cv] s t a], v, s, t. unfold Params_ConsensusVersion in Hv.
  cbn in *. unfold ConsensusParamsFromProto, set_version. cbn. by rewrite int32_id by done.
Qed.

(** An update with all fields replaces all parameters; one without any, none. *)
Lemma update_all p q :
  in_int32 (Params_ConsensusVersion q) → UpdateConsensusParams p (Some (Params_ToProto q)) = q.
Proof.
  intros Hv. destruct q as [b e v [av cv] s t a], v, s, t. unfold Params_ConsensusVersion in Hv.
  cbn in *. unfold UpdateConsensusParams, set_version. cbn. by rewrite int32_id by done.
Qed.

Lemma update_empty p u : ProtoParams_empty u = true → UpdateConsensusParams p (Some u) = p.
Proof. destruct u as [[] [] [] [] [] [] []]; try done. by destruct p. Qed.

Lemma update_idempotent p u :
  UpdateConsensusParams (UpdateConsensusParams p u) u = UpdateConsensusParams p u.
Proof.
  destruct u as [[ub ue uv uver us ut ua]|]; [|done]. unfold UpdateConsensusParams; cbn.
  f_equal; try (by destruct ub, ue, uv, uver, ua).
  - destruct us as [[[] []]|]; done.
  - destruct ut as [[[] [] [] []]|]; done.
Qed.

(** The hash of a header binds the parameters it covers. *)
Lemma params_hash_binds `{Crypto} p q :
  in_int64 (Params_MaxBytes p) → in_int64 (Params_MaxBytes q) →
  in_int64 (BP_MaxGas (Params_Block p)) → in_int64 (BP_MaxGas (Params_Block q)) →
  in_int64 (Params_ConsensusVersion p) → in_int64 (Params_ConsensusVersion q) →
  merkle.no_collision sha256 [marshal_HashedParams p; marshal_HashedParams q] →
  HashConsensusParams p = HashConsensusParams q →
  Params_Block p = Params_Block q ∧ Params_ConsensusVersion p = Params_ConsensusVersion q.
Proof.
  intros P1 Q1 P2 Q2 P3 Q3 Hc E. apply Hc in E; [|set_solver..]. unfold marshal_HashedParams in E.
  rewrite <- (app_nil_r (wire.varint_field x18 (Params_ConsensusVersion p))),
    <- (app_nil_r (wire.varint_field x18 (Params_ConsensusVersion q))) in E.
  apply varint_field_inj in E as [E1 E]; [|done|done|other_tag..].
  apply varint_field_inj in E as [E2 E]; [|done|done|other_tag..].
  apply varint_field_inj in E as [E3 _]; [|done|done|other_tag..].
  split; [|done]. unfold Params_MaxBytes in E1. destruct (Params_Block p), (Params_Block q).
  cbn in *. by subst.
Qed.

End params.
