(* ===== verification/Txs.v ===== *)
(** * types: transactions of a proposal

    Models [src/types/tx.go]: looking up transactions and proving that a block
    holds one, and [TxRecordSet], which checks what an application answers to
    [PrepareProposal] by sorting and binary search. *)
From Stdlib Require Import ZArith Lia Init.Byte Sorted.
From stdpp Require Import base numbers list sets sorting.
From S2P Require Import Prelude.
From S2P Require Import Merkle.
From S2P Require Import Crypto.
From S2P Require Import Block.

Import crypto block.

Module txs.

(** ** Looking up a transaction *)

Section lookup.
Context `{Crypto}.

Fixpoint index_from (i : Z) (p : bytes → bool) (l : list bytes) : Z :=
  match l with
  | [] => -1
  | tx :: l => if p tx then i else index_from (i + 1) p l
  end.

Definition Txs_Index (l : list bytes) (tx : bytes) : Z :=
  index_from 0 (λ x, bool_decide (x = tx)) l.

Definition Txs_IndexByHash (l : list bytes) (hash : bytes) : Z :=
  index_from 0 (λ x, bool_decide (Tx_Hash x = hash)) l.

Record TxProof := mkTxProof { TP_RootHash : bytes; TP_Data : bytes; TP_Proof : merkle.Proof }.

Definition Txs_Proof (l : list bytes) (i : Z) : outcome merkle.merkle_error TxProof :=
  '(root, proofs) ← merkle.ProofsFromByteSlices sha256 (map Tx_Hash l);
  tx ← index l i; p ← index proofs i;
  Ok (mkTxProof root tx p).

Inductive txproof_error := ErrTxDataHash | ErrTxIndex | ErrTxTotal | ErrTxProof.

Definition TxProof_Validate (tp : TxProof) (dataHash : bytes) : outcome txproof_error unit :=
  if negb (bool_decide (dataHash = TP_RootHash tp)) then Err ErrTxDataHash
  else if (merkle.Index (TP_Proof tp) <? 0)%Z then Err ErrTxIndex
  else if (merkle.Total (TP_Proof tp) <=? 0)%Z then Err ErrTxTotal
  else match merkle.Verify sha256 (TP_Proof tp) (TP_RootHash tp) (Tx_Hash (TP_Data tp)) with
       | Ok _ => Ok tt
       | Err _ => Err ErrTxProof
       | Panic => Panic
       end.

End lookup.

(** ** Sorted lists of transactions *)

Notation tx_le := bytes_le.

(** [sort.Sort] of a copy. *)
Definition sortedCopy (l : list bytes) : list bytes := merge_sort tx_le l.

(** [sort.Search]: the loop halves [j - i]. *)
Fixpoint search_loop (fuel : nat) (f : nat → bool) (i j : nat) : nat :=
  match fuel with
  | O => i
  | S fuel =>
      if i <? j then
        let h := (i + j) / 2 in
        if f h then search_loop fuel f i h else search_loop fuel f (h + 1) j
      else i
  end.

Definition sort_Search (n : nat) (f : nat → bool) : nat := search_loop (S n) f 0 n.

Definition contains (set : list bytes) (elem : bytes) : bool :=
  let n := sort_Search (length set)
             (λ i, match set !! i with Some x => bool_decide (tx_le elem x) | None => true end) in
  match set !! n with Some x => bool_decide (elem = x) | None => false end.

Definition containsAny (a b : list bytes) : bool := existsb (contains a) b.
Definition containsAll (super sub : list bytes) : bool := forallb (contains super) sub.

(** ** Records *)

Definition TxRecord_UNKNOWN : Z := 0.
Definition TxRecord_UNMODIFIED : Z := 1.
Definition TxRecord_ADDED : Z := 2.
Definition TxRecord_REMOVED : Z := 3.
Definition TxRecord_DELAYED : Z := 4.

Record TxRecord := mkTxRecord { TR_Action : Z; TR_Tx : bytes }.

Record TxRecordSet := mkTxRecordSet {
  TRS_all : list bytes;
  TRS_included : list bytes;
  TRS_added : list bytes;
  TRS_unmodified : list bytes;
  TRS_removed : list bytes;
  TRS_delayed : list bytes;
  TRS_unknown : list bytes }.

(** The transactions with one of the actions, in the order of the records. *)
Definition with_action (actions : list Z) (trs : list TxRecord) : list bytes :=
  map TR_Tx (filter (λ tr, TR_Action tr ∈ actions) trs).

(** One pass over the records in the code; each index is a filter. *)
Definition NewTxRecordSet (trs : list TxRecord) : TxRecordSet :=
  mkTxRecordSet (map TR_Tx trs) (with_action [TxRecord_UNMODIFIED; TxRecord_ADDED] trs)
    (with_action [TxRecord_ADDED] trs) (with_action [TxRecord_UNMODIFIED] trs)
    (with_action [TxRecord_REMOVED] trs) (with_action [TxRecord_DELAYED] trs)
    (with_action [TxRecord_UNKNOWN] trs).

Inductive txrecord_error :=
  | ErrTxUnknown
  | ErrTxDuplicate
  | ErrTxSize
  | ErrTxUnmodified
  | ErrTxRemoved
  | ErrTxDelayed
  | ErrTxAdded.

Fixpoint adjacent_duplicate (l : list bytes) : bool :=
  match l with
  | a :: (b :: _) as l => bool_decide (a = b) || adjacent_duplicate l
  | _ => false
  end.

(** The sum stops at the first excess. *)
Fixpoint size_exceeds (size maxSizeBytes : Z) (l : list bytes) : bool :=
  match l with
  | [] => false
  | cur :: l =>
      let size := int64 (size + Z.of_nat (length cur)) in
      (maxSizeBytes <? size)%Z || size_exceeds size maxSizeBytes l
  end.

Definition TxRecordSet_Validate (t : TxRecordSet) (maxSizeBytes : Z) (otxs : list bytes) :
    outcome txrecord_error unit :=
  if negb (length (TRS_unknown t) =? 0) then Err ErrTxUnknown
  else if adjacent_duplicate (sortedCopy (TRS_all t)) then Err ErrTxDuplicate
  else
    let addedCopy := sortedCopy (TRS_added t) in
    let removedCopy := sortedCopy (TRS_removed t) in
    let delayedCopy := sortedCopy (TRS_delayed t) in
    let unmodifiedCopy := sortedCopy (TRS_unmodified t) in
    if size_exceeds 0 maxSizeBytes (unmodifiedCopy ++ addedCopy) then Err ErrTxSize
    else
      let otxsCopy := sortedCopy otxs in
      if negb (containsAll otxsCopy unmodifiedCopy) then Err ErrTxUnmodified
      else if negb (containsAll otxsCopy removedCopy) then Err ErrTxRemoved
      else if negb (containsAll otxsCopy delayedCopy) then Err ErrTxDelayed
      else if containsAny otxsCopy addedCopy then Err ErrTxAdded
      else Ok tt.

(** ** Sorting *)

Lemma tx_le_antisym a b : tx_le a b → tx_le b a → a = b.
Proof. apply (anti_symm bytes_le). Qed.

Lemma sortedCopy_sorted l : StronglySorted tx_le (sortedCopy l).
Proof. apply StronglySorted_merge_sort; apply _. Qed.

Lemma sortedCopy_perm l : sortedCopy l ≡ₚ l.
Proof. apply merge_sort_Permutation. Qed.

Lemma elem_of_sortedCopy x l : x ∈ sortedCopy l ↔ x ∈ l.
Proof. by rewrite sortedCopy_perm. Qed.

Lemma adjacent_duplicate_NoDup l :
  StronglySorted tx_le l → adjacent_duplicate l = false ↔ NoDup l.
Proof.
  induction 1 as [|a l Hs IH Ha]; [split; [constructor|done]|].
  destruct l as [|b l]; [split; [intros _; apply NoDup_singleton|done]|].
  cbn [adjacent_duplicate]. rewrite orb_false_iff, IH, bool_decide_eq_false, (NoDup_cons a).
  split; [|intros [Hn Hd]; split; [by intros ->; apply Hn; left|done]].
  intros [Hab Hn]. split; [|done]. intros [->|Hin]%elem_of_cons; [done|].
  apply Hab, tx_le_antisym.
  - by rewrite Forall_forall in Ha; apply Ha; left.
  - apply StronglySorted_inv in Hs as [_ Hb]. rewrite Forall_forall in Hb. by apply Hb.
Qed.

(** ** Binary search *)

Lemma sorted_lookup_lt l i j x y :
  StronglySorted tx_le l → i < j → l !! i = Some x → l !! j = Some y → tx_le x y.
Proof.
  intros Hs. revert i j. induction Hs as [|a l Hs IH Ha]; intros i j Hij Hi Hj; [done|].
  destruct j as [|j]; [lia|]. destruct i as [|i]; cbn in *.
  - injection Hi as <-. rewrite Forall_forall in Ha. apply Ha. by eapply list_elem_of_lookup_2.
  - by apply (IH i j); [lia|..].
Qed.

Lemma search_loop_spec fuel (f : nat → bool) n i j :
  (∀ a b, a ≤ b < n → f a = true → f b = true) → i ≤ j ≤ n → j - i < fuel →
  (∀ k, k < i → f k = false) → (∀ k, j ≤ k < n → f k = true) →
  let r := search_loop fuel f i j in
  i ≤ r ≤ j ∧ (∀ k, k < r → f k = false) ∧ (∀ k, r ≤ k < n → f k = true).
Proof.
  intros Hm. revert i j. induction fuel as [|fuel IH]; intros i j Hij Hf Hlo Hhi; [lia|]. cbn [search_loop].
  destruct (Nat.ltb_spec i j).
  - pose proof (Nat.div_mod_eq (i + j) 2). pose proof (Nat.mod_upper_bound (i + j) 2 ltac:(lia)).
    set (h := (i + j) / 2) in *. destruct (f h) eqn:E.
    + destruct (IH i h) as (? & ? & ?); [lia|lia|done| |split; [lia|done]].
      intros k Hk. apply (Hm h); [lia|done].
    + destruct (IH (h + 1) j) as (? & ? & ?); [lia|lia| |done|split; [lia|done]].
      intros k Hk. destruct (f k) eqn:Ek; [|done].
      rewrite (Hm k h) in E; [done|lia|done].
  - split; [lia|]. split; [done|]. intros k Hk. apply Hhi. lia.
Qed.

Lemma contains_elem set elem :
  StronglySorted tx_le set → contains set elem = true ↔ elem ∈ set.
Proof.
  intros Hs. unfold contains. set (f := λ i, match set !! i with
    | Some x => bool_decide (tx_le elem x) | None => true end).
  destruct (search_loop_spec (S (length set)) f (length set) 0 (length set)) as (_ & Hlo & Hhi);
    [|lia|lia|intros; lia|intros; lia|].
  { intros a b Hab. unfold f.
    destruct (lookup_lt_is_Some_2 set a) as [x Ex]; [lia|].
    destruct (lookup_lt_is_Some_2 set b) as [y Ey]; [lia|]. rewrite Ex, Ey, !bool_decide_eq_true.
    intros Hx. destruct (decide (a = b)) as [->|Hne]; [congruence|].
    trans x; [done|]. by apply (sorted_lookup_lt set a b); [|lia|..]. }
  fold (sort_Search (length set) f) in *. split.
  - destruct (set !! _) eqn:E; [|done]. intros ->%bool_decide_eq_true. by eapply list_elem_of_lookup_2.
  - intros [k Ek]%list_elem_of_lookup.
    assert (f k = true) as Hk by (unfold f; rewrite Ek; apply bool_decide_eq_true; by destruct (total tx_le elem elem)).
    destruct (decide (k < sort_Search (length set) f)) as [Hlt|Hge]; [by rewrite Hlo in Hk|].
    pose proof (lookup_lt_Some _ _ _ Ek).
    destruct (lookup_lt_is_Some_2 set (sort_Search (length set) f)) as [x Ex]; [lia|].
    rewrite Ex. apply bool_decide_eq_true, tx_le_antisym.
    + pose proof (Hhi (sort_Search (length set) f) ltac:(lia)) as Hf. unfold f at 1 in Hf. rewrite Ex in Hf.
      by apply bool_decide_eq_true in Hf.
    + destruct (decide (k = sort_Search (length set) f)) as [Heq|Hne].
      * rewrite <- Heq in Ex. rewrite Ek in Ex. injection Ex as ->. by destruct (total tx_le x x).
      * by apply (sorted_lookup_lt set (sort_Search (length set) f) k); [|lia|..].
Qed.

Lemma containsAll_subset super sub :
  containsAll (sortedCopy super) (sortedCopy sub) = true ↔ sub ⊆ super.
Proof.
  unfold containsAll. rewrite forallb_forall. split.
  - intros Ha x Hx. apply elem_of_sortedCopy, (contains_elem _ x (sortedCopy_sorted super)), Ha.
    by apply list_elem_of_In, elem_of_sortedCopy.
  - intros Hs x Hx%list_elem_of_In. rewrite elem_of_sortedCopy in Hx.
    apply contains_elem; [apply sortedCopy_sorted|].
    apply elem_of_sortedCopy. exact (Hs x Hx).
Qed.

Lemma containsAny_disjoint a b :
  containsAny (sortedCopy a) (sortedCopy b) = false ↔ ∀ x, x ∈ b → x ∉ a.
Proof.
  unfold containsAny. split.
  - intros Ha x Hx Hxa. apply not_true_iff_false in Ha. apply Ha, existsb_exists. exists x.
    split; [by apply list_elem_of_In, elem_of_sortedCopy|].
    apply contains_elem; [apply sortedCopy_sorted|]. by apply elem_of_sortedCopy.
  - intros Hd. apply not_true_iff_false. intros (x & Hx & Hc)%existsb_exists.
    apply contains_elem in Hc; [|apply sortedCopy_sorted].
    apply list_elem_of_In in Hx. rewrite elem_of_sortedCopy in Hx, Hc. by apply (Hd x).
Qed.

(** ** What a valid record set is *)

Definition total_size (l : list bytes) : Z := Z.of_nat (length (concat l)).

Lemma total_size_perm l l' : l ≡ₚ l' → total_size l = total_size l'.
Proof. unfold total_size. intros Hp. f_equal. by rewrite Hp. Qed.

Lemma size_exceeds_spec l size max :
  (0 ≤ size)%Z → (size + total_size l ≤ MaxInt64)%Z → (size ≤ max)%Z →
  size_exceeds size max l = false ↔ (size + total_size l ≤ max)%Z.
Proof.
  unfold total_size. revert size. induction l as [|x l IH]; intros size H0 Hm Hs; cbn in *; [lia|].
  rewrite length_app in *. rewrite int64_id by (unfold_ints; lia).
  rewrite orb_false_iff, Z.ltb_ge. destruct (Z.le_gt_cases (size + Z.of_nat (length x)) max).
  - rewrite IH by lia. lia.
  - lia.
Qed.

(** The answer of the application, against the transactions it was sent. *)
Record records_ok (trs : list TxRecord) (maxSizeBytes : Z) (otxs : list bytes) : Prop := {
  rec_known : ∀ tr, tr ∈ trs → TR_Action tr ≠ TxRecord_UNKNOWN;
  rec_distinct : NoDup (map TR_Tx trs);
  rec_size : (total_size (with_action [TxRecord_UNMODIFIED; TxRecord_ADDED] trs) ≤ maxSizeBytes)%Z;
  rec_old : with_action [TxRecord_UNMODIFIED; TxRecord_REMOVED; TxRecord_DELAYED] trs ⊆ otxs;
  rec_new : ∀ tx, tx ∈ with_action [TxRecord_ADDED] trs → tx ∉ otxs }.

Lemma elem_of_with_action tx actions trs :
  tx ∈ with_action actions trs ↔ ∃ tr, tr ∈ trs ∧ TR_Action tr ∈ actions ∧ TR_Tx tr = tx.
Proof.
  unfold with_action. rewrite list_elem_of_fmap. setoid_rewrite list_elem_of_filter. naive_solver.
Qed.

Lemma with_action_two a b trs :
  a ≠ b → with_action [a; b] trs ≡ₚ with_action [a] trs ++ with_action [b] trs.
Proof.
  intros Hab. unfold with_action. rewrite <- fmap_app. apply fmap_Permutation.
  induction trs as [|tr trs IH]; [done|].
  destruct (decide (TR_Action tr = a)) as [Ea|Ea]; [|destruct (decide (TR_Action tr = b)) as [Eb|Eb]].
  - rewrite !filter_cons_True, filter_cons_False by (rewrite ?list_elem_of_singleton; set_solver).
    cbn. by rewrite IH.
  - rewrite filter_cons_True, filter_cons_False, filter_cons_True
      by (rewrite ?list_elem_of_singleton; set_solver). rewrite IH. apply Permutation_middle.
  - by rewrite !filter_cons_False by (rewrite ?list_elem_of_singleton; set_solver).
Qed.

(** The included transactions are the unmodified and the added ones. *)
Lemma included_size trs :
  total_size (sortedCopy (with_action [TxRecord_UNMODIFIED] trs) ++
              sortedCopy (with_action [TxRecord_ADDED] trs)) =
  total_size (with_action [TxRecord_UNMODIFIED; TxRecord_ADDED] trs).
Proof.
  apply total_size_perm. rewrite !sortedCopy_perm. symmetry. by apply with_action_two.
Qed.

Lemma with_action_size actions trs :
  (total_size (with_action actions trs) ≤ total_size (map TR_Tx trs))%Z.
Proof.
  unfold total_size, with_action. induction trs as [|tr trs IH]; [done|]. rewrite filter_cons.
  destruct (decide _); cbn in *; rewrite ?length_app; lia.
Qed.

(** The check of the application's answer, which sorts and searches, accepts
    exactly the answers that the rules allow: no record of unknown action, no
    transaction twice, included transactions within the size limit, unmodified,
    removed and delayed ones among those sent, and added ones not among them. *)
Theorem Validate_spec trs maxSizeBytes otxs :
  (0 ≤ maxSizeBytes)%Z → (total_size (map TR_Tx trs) ≤ MaxInt64)%Z →
  TxRecordSet_Validate (NewTxRecordSet trs) maxSizeBytes otxs = Ok tt ↔
    records_ok trs maxSizeBytes otxs.
Proof.
  intros H0 Hm. unfold TxRecordSet_Validate, NewTxRecordSet.
  cbn [TRS_all TRS_added TRS_unmodified TRS_removed TRS_delayed TRS_unknown].
  assert (Hsz : size_exceeds 0 maxSizeBytes (sortedCopy (with_action [TxRecord_UNMODIFIED] trs) ++
      sortedCopy (with_action [TxRecord_ADDED] trs)) = false ↔
    (total_size (with_action [TxRecord_UNMODIFIED; TxRecord_ADDED] trs) ≤ maxSizeBytes)%Z).
  { pose proof (with_action_size [TxRecord_UNMODIFIED; TxRecord_ADDED] trs).
    rewrite size_exceeds_spec, included_size by (rewrite ?included_size; lia). done. }
  rewrite !guard_Ok, !negb_false_iff, !containsAll_subset, containsAny_disjoint, Hsz,
    adjacent_duplicate_NoDup, sortedCopy_perm, Nat.eqb_eq, length_zero_iff_nil
    by apply sortedCopy_sorted.
  assert (with_action [TxRecord_UNKNOWN] trs = [] ↔ ∀ tr, tr ∈ trs → TR_Action tr ≠ TxRecord_UNKNOWN)
    as ->.
  { split.
    - intros E tr Htr Ha. apply (not_elem_of_nil (TR_Tx tr)). rewrite <- E.
      apply elem_of_with_action. exists tr. set_solver.
    - intros Hn. apply elem_of_nil_inv. intros x (tr & Htr & Ha & _)%elem_of_with_action.
      apply (Hn tr); set_solver. }
  assert (with_action [TxRecord_UNMODIFIED; TxRecord_REMOVED; TxRecord_DELAYED] trs ⊆ otxs ↔
    with_action [TxRecord_UNMODIFIED] trs ⊆ otxs ∧ with_action [TxRecord_REMOVED] trs ⊆ otxs ∧
    with_action [TxRecord_DELAYED] trs ⊆ otxs) as Hold.
  { split.
    - intros Ho. split_and!; intros x (tr & Htr & Ha & <-)%elem_of_with_action;
        apply Ho, elem_of_with_action; exists tr; set_solver.
    - intros (Hu & Hr & Hd) x (tr & Htr & Ha & <-)%elem_of_with_action. set_unfold in Ha.
      destruct Ha as [Ha|[Ha|Ha]]; [apply Hu|apply Hr|apply Hd]; apply elem_of_with_action; exists tr;
        set_solver. }
  split; [intros (? & ? & ? & ? & ? & ? & ? & _); split; tauto|]. intros []. tauto.
Qed.

Definition demo_records : list TxRecord :=
  [mkTxRecord TxRecord_UNMODIFIED [x03]; mkTxRecord TxRecord_ADDED [x09]; mkTxRecord TxRecord_REMOVED [x01]].

Lemma Validate_spec_witness : records_ok demo_records 2 [[x01]; [x02]; [x03]].
Proof.
  apply (proj1 (Validate_spec demo_records 2 [[x01]; [x02]; [x03]] ltac:(lia)
    ltac:(vm_compute; discriminate))).
  vm_compute. reflexivity.
Defined.

(** A transaction of a list has a proof that validates against the list's hash. *)
Lemma Txs_Proof_validates `{Crypto} l i tx :
  (∀ b, length (sha256 b) = 32) → (Z.of_nat (length l) ≤ MaxInt64)%Z → l !! i = Some tx →
  ∃ tp dataHash, Txs_Proof l (Z.of_nat i) = Ok tp ∧ Txs_Hash l = Ok dataHash ∧ TP_Data tp = tx ∧
    TxProof_Validate tp dataHash = Ok tt.
Proof.
  intros Hs Hm Hi.
  destruct (merkle.ProofsFromByteSlices_trails sha256 (map Tx_Hash l)) as (root & ps & E & Hr & Hl & Hp);
    [by intros ->%map_eq_nil|by rewrite length_map|].
  destruct (Hp i (Tx_Hash tx)) as (A & HA & Hpi); [by rewrite list_lookup_fmap, Hi|].
  rewrite length_map in *. pose proof (lookup_lt_Some _ _ _ Hi).
  eexists (mkTxProof root tx _), root. unfold Txs_Proof. rewrite E. cbn.
  unfold index. destruct (Z.ltb_spec (Z.of_nat i) 0); [lia|]. rewrite Nat2Z.id, Hi, Hpi. cbn.
  split; [reflexivity|].
  split; [by apply merkle.HashFromByteSlices_root; rewrite ?length_map|]. split; [done|].
  unfold TxProof_Validate. cbn. rewrite bool_decide_eq_true_2 by done. cbn.
  destruct (Z.ltb_spec (Z.of_nat i) 0); [lia|]. destruct (Z.leb_spec (Z.of_nat (length l)) 0); [lia|].
  pose proof (merkle.trail_verifies sha256 (map Tx_Hash l) i A root (Tx_Hash tx)) as Hv.
  rewrite length_map in Hv. rewrite Hv; [done|done|done| |done]. by rewrite list_lookup_fmap, Hi.
Qed.

End txs.
