(* ===== verification/SmState.v ===== *)
(** * internal/state: the state of a chain

    Models [src/internal/state/state.go], [current_round_state.go] and
    [validation.go], with the conversions of validator updates of
    [src/types/protobuf.go] and [src/crypto/encoding/codec.go].  [State] is what
    consensus knows after a block; [CurrentRoundState] is what the next state will be
    if a proposed block is committed, as the application says; [validateBlock] is
    what a block must satisfy to follow a state. *)
From Stdlib Require Import ZArith Lia Init.Byte.
From stdpp Require Import base numbers list.
From S2P Require Import Prelude.
From S2P Require Import Wire.
From S2P Require Import Merkle.
From S2P Require Import Types.
From S2P Require Import Crypto.
From S2P Require Import QuorumSign.
From S2P Require Import Proposal.
From S2P Require Import ValidatorSet.
From S2P Require Import Evidence.
From S2P Require Import Block.
From S2P Require Import Params.

Import types crypto quorum proposal valset evidence block params.

(** What [net/url] makes of a string: [url_User] is the name of the user, if there is
    one; the methods [Hostname] and [Port] are fields.  [ToLower] is that of [strings],
    which follows the tables of Unicode. *)
Record URL := mkURL {
  url_Scheme : bytes; url_Opaque : bytes; url_User : option bytes;
  url_Hostname : bytes; url_Port : bytes }.

Class NetURL := { url_Parse : bytes → option URL; ToLower : bytes → bytes }.

Module sm.

(** ** State *)

Record Version := mkStateVersion { State_Consensus : Consensus; Software : bytes }.

Record State := mkState {
  State_Version : Version;
  ChainID : bytes;
  InitialHeight : Z;
  LastBlockHeight : Z;
  LastBlockRound : Z;
  LastBlockID : BlockID;
  LastBlockTime : Z;
  LastCoreChainLockedBlockHeight : Z;
  State_Validators : option ValidatorSet;
  State_LastValidators : option ValidatorSet;
  LastHeightValidatorsChanged : Z;
  State_Params : ConsensusParams;
  LastHeightConsensusParamsChanged : Z;
  LastResultsHash : bytes;
  LastAppHash : bytes }.

Definition State_IsEmpty (s : State) : bool := bool_decide (State_Validators s = None).

Definition ValidatorsAtHeight (s : State) (height : Z) : option ValidatorSet :=
  if (LastBlockHeight s =? height)%Z then State_LastValidators s else State_Validators s.

Definition IsInitialHeight (s : State) : bool := (LastBlockHeight s <? InitialHeight s)%Z.

(** ** What the application answers *)

Record ExecTxResult := mkTxResult {
  Res_Code : Z; Res_Data : bytes; Res_Log : bytes; Res_Info : bytes; Res_GasUsed : Z;
  Res_Codespace : bytes }.

Record ProtoKey := mkProtoKey { proto_type : KeyType; proto_bytes : bytes }.

(** A key message whose [Sum] is missing is [None]. *)
Definition PublicKeyMsg := option ProtoKey.

(** [PubKey] is a pointer to a message; [ProTxHash] may be nil. *)
Record ValidatorUpdate := mkVU {
  VU_PubKey : option PublicKeyMsg;
  VU_Power : Z;
  VU_ProTxHash : option bytes;
  VU_NodeAddress : bytes }.

Record ValidatorSetUpdate := mkVSU {
  VSU_Updates : list ValidatorUpdate;
  VSU_ThresholdPublicKey : PublicKeyMsg;
  VSU_QuorumHash : bytes }.

(** Which call of the application a [CurrentRoundState] is the result of; the
    empty string of a zero value is [NoSource]. *)
Inductive Source := NoSource | InitChainSource | PrepareProposalSource | ProcessProposalSource.

(** The application's hash may be nil. *)
Record RoundParams := mkRP {
  RP_AppHash : option bytes;
  RP_TxResults : list ExecTxResult;
  RP_ParamUpdates : option ProtoParams;
  RP_ValidatorSetUpdate : option ValidatorSetUpdate;
  RP_CoreChainLock : option CoreChainLock;
  RP_Source : Source;
  RP_Round : Z }.

Record CurrentRoundState := mkCRS {
  CRS_Base : State;
  CRS_Round : Z;
  CRS_ProTxHash : bytes;
  CRS_AppHash : option bytes;
  CRS_TxResults : list ExecTxResult;
  CRS_ResultsHash : option bytes;
  CRS_CoreChainLock : option CoreChainLock;
  CRS_NextParams : ConsensusParams;
  CRS_LastHeightParamsChanged : Z;
  CRS_NextValidators : option ValidatorSet;
  CRS_LastHeightValidatorsChanged : Z;
  CRS_Params : RoundParams }.

Definition CRS_Source (c : CurrentRoundState) : Source := RP_Source (CRS_Params c).

Definition zeroState : State :=
  mkState (mkStateVersion (mkVersion 0 0) []) [] 0 0 0 nilBlockID zero_time 0 None None 0 zeroParams 0
    [] [].

Definition zeroCRS : CurrentRoundState :=
  mkCRS zeroState 0 [] None [] None None zeroParams 0 None 0 (mkRP None [] None None None NoSource 0).

Definition CRS_GetHeight (c : CurrentRoundState) : Z :=
  if (LastBlockHeight (CRS_Base c) =? 0)%Z then InitialHeight (CRS_Base c)
  else int64 (LastBlockHeight (CRS_Base c) + 1).

Definition MatchesBlock (c : CurrentRoundState) (h : Header) (round : Z) : bool :=
  (CRS_GetHeight c =? H_Height h)%Z && (CRS_Round c =? round)%Z &&
  bool_decide (slice (CRS_AppHash c) = H_AppHash h) &&
  bool_decide (slice (CRS_ResultsHash c) = H_ResultsHash h).

(** ** Errors *)

Inductive sm_error :=
  | ErrKeyFromProto
  | ErrUpdateThresholdKey
  | ErrUpdateNegativePower
  | ErrUpdateKeyType
  | ErrUpdateKey
  | ErrUpdateProTxHash
  | ErrUpdateAddress
  | ErrUpdateQuorumHash
  | ErrUpdateValidator (e : valset_error)
  | ErrNextParams (e : params_error)
  | ErrNextValidators (e : valset_error)
  | ErrRoundChainLock (e : chainlock_error)
  | ErrUpdateBlockSource
  | ErrMerkle (e : merkle.merkle_error)
  | ErrBlockBasic (e : block_error)
  | ErrBlockCoreChainLock (e : chainlock_error)
  | ErrBlockVersion
  | ErrBlockChainID
  | ErrBlockHeight
  | ErrBlockLastID
  | ErrBlockConsensusHash
  | ErrBlockValidatorsHash
  | ErrBlockInitialCommit
  | ErrBlockCommit (e : commit_verify_error)
  | ErrBlockProposer
  | ErrBlockTime
  | ErrBlockEvidenceSize
  | ErrBlockAppHash
  | ErrBlockResultsHash
  | ErrBlockNextValidatorsHash
  | ErrBlockNextConsensusHash
  | ErrBlockChainLockHeight.

Notation res := (outcome sm_error).

Section state.
Context `{Crypto} `{Dashd} `{StdTime} `{NetURL}.

(** [ValidatorSet.Hash] of a pointer. *)
Definition vals_Hash (vals : option ValidatorSet) : res bytes :=
  match vals with None => Ok [] | Some vals => wrap_err ErrMerkle (valset_Hash vals) end.

(** ** Validator updates *)

Definition key_size (t : KeyType) : nat :=
  match t with Ed25519 => 32 | Secp256k1 => 33 | BLS12381 => PubKeySize end.

Definition PubKeyFromProto (k : PublicKeyMsg) : res PubKey :=
  match k with
  | None => Err ErrKeyFromProto
  | Some k => if negb (length (proto_bytes k) =? key_size (proto_type k)) then Err ErrKeyFromProto
              else Ok (mkPubKey (proto_type k) (proto_bytes k))
  end.

(** Only BLS keys have a [Validate]. *)
Definition validatePubKey (pk : PubKey) : res unit :=
  match pk_type pk with
  | BLS12381 =>
      if negb (length (pk_bytes pk) =? PubKeySize) then Err ErrUpdateKey
      else if bool_decide (pk_bytes pk = replicate PubKeySize x00) then Err ErrUpdateKey
      else Ok tt
  | _ => Ok tt
  end.

(** ** Addresses *)

Definition is_digit (c : byte) : bool :=
  let n := Byte.to_nat c in (48 <=? n) && (n <=? 57).

(** [strings.Contains(str, "://")]. *)
Fixpoint stringHasScheme (str : bytes) : bool :=
  match str with
  | x3a :: x2f :: x2f :: _ => true
  | _ :: str => stringHasScheme str
  | [] => false
  end.

(** The bytes before the first one that is not [f]. *)
Fixpoint span (f : byte → bool) (s : bytes) : bytes * bytes :=
  match s with
  | [] => ([], [])
  | c :: s' => if f c then let '(a, b) := span f s' in (c :: a, b) else ([], s)
  end.

(** Matches [^[^/:]+:\d+(/|$)]. *)
Definition reSchemeIsHost (s : bytes) : bool :=
  let '(host, rest) := span (λ c, negb (Byte.eqb c x2f || Byte.eqb c x3a)) s in
  match rest with
  | x3a :: rest =>
      let '(port, rest) := span is_digit rest in
      negb (length host =? 0) && negb (length port =? 0) &&
      match rest with [] | x2f :: _ => true | _ => false end
  | _ => false
  end.

(** [strconv.ParseUint(s, 10, 16)]. *)
Definition ParseUint16 (s : bytes) : option Z :=
  if length s =? 0 then None
  else if negb (forallb is_digit s) then None
  else
    let v := foldl (λ a c, a * 10 + (Z.of_nat (Byte.to_nat c) - 48))%Z 0%Z s in
    if (65535 <? v)%Z then None else Some v.

(** [tcp://]. *)
Definition tcp_scheme : bytes := [x74; x63; x70; x3a; x2f; x2f].

(** The second parse is the method of [*url.URL], which for a reference with a
    scheme is the function. *)
Definition parseValidatorAddressString (urlString : bytes) : option ValidatorAddress :=
  if length urlString =? 0 then Some (mkAddr [] [] 0)
  else
    let url := url_Parse urlString in
    let noScheme := match url with None => true | Some u => length (url_Scheme u) =? 0 end in
    u ← (if noScheme && (negb (stringHasScheme urlString) || reSchemeIsHost urlString)
         then url_Parse (tcp_scheme ++ urlString) else url);
    if negb (length (url_Opaque u) =? 0) then Some (mkAddr (url_Opaque u) [] 0)
    else
      port ← (if length (url_Port u) =? 0 then Some 0%Z else ParseUint16 (url_Port u));
      Some (mkAddr (from_option ToLower [] (url_User u)) (ToLower (url_Hostname u)) port).

Definition ParseValidatorAddress (address : bytes) : option ValidatorAddress :=
  addr ← parseValidatorAddressString address;
  if Addr_Validate addr then Some addr else None.

(** ** Validation of updates *)

Definition validateUpdateKey (params : ValidatorParams) (k : option PublicKeyMsg) : res unit :=
  match k with
  | None => Ok tt
  | Some k =>
      pk ← PubKeyFromProto k;
      if negb (IsValidPubkeyType params (key_name (pk_type pk))) then Err ErrUpdateKeyType
      else validatePubKey pk
  end.

Fixpoint validateValidatorUpdates (updates : list ValidatorUpdate) (params : ValidatorParams) :
    res unit :=
  match updates with
  | [] => Ok tt
  | u :: updates =>
      if (VU_Power u <? 0)%Z then Err ErrUpdateNegativePower
      else if (VU_Power u =? 0)%Z then validateValidatorUpdates updates params
      else
        _ ← validateUpdateKey params (VU_PubKey u);
        match VU_ProTxHash u with
        | None => Err ErrUpdateProTxHash
        | Some proTxHash =>
            if negb (length proTxHash =? DefaultHashSize) then Err ErrUpdateProTxHash
            else if negb (length (VU_NodeAddress u) =? 0) &&
                    bool_decide (ParseValidatorAddress (VU_NodeAddress u) = None)
            then Err ErrUpdateAddress
            else validateValidatorUpdates updates params
        end
  end.

Definition validateValidatorSetUpdate (vu : option ValidatorSetUpdate) (params : ValidatorParams) :
    res unit :=
  match vu with
  | None => Ok tt
  | Some vu =>
      if negb (length (VSU_Updates vu) =? 0) && bool_decide (VSU_ThresholdPublicKey vu = None)
      then Err ErrUpdateThresholdKey
      else validateValidatorUpdates (VSU_Updates vu) params
  end.

(** An address that does not parse panics. *)
Definition NewValidator (pubKey : option PubKey) (votingPower : Z) (proTxHash address : bytes) :
    res Validator :=
  addr ← (if length address =? 0 then Ok (mkAddr [] [] 0)
          else deref (ParseValidatorAddress address));
  Ok (mkValidator proTxHash pubKey votingPower addr).

Definition validatorFromUpdate (u : ValidatorUpdate) : res Validator :=
  pub ← match VU_PubKey u with
        | None => Ok None
        | Some k => pk ← PubKeyFromProto k; Ok (Some pk)
        end;
  v ← NewValidator pub (VU_Power u) (slice (VU_ProTxHash u)) (VU_NodeAddress u);
  _ ← wrap_err ErrUpdateValidator (Validator_ValidateBasic (Some v));
  Ok v.

Fixpoint validatorsFromUpdates (updates : list ValidatorUpdate) : res (list Validator) :=
  match updates with
  | [] => Ok []
  | u :: updates => v ← validatorFromUpdate u; vs ← validatorsFromUpdates updates; Ok (v :: vs)
  end.

(** The validators, the threshold key and the quorum hash. *)
Definition ValidatorUpdatesFromValidatorSet (vu : option ValidatorSetUpdate) :
    res (list Validator * option PubKey * option bytes) :=
  match vu with
  | None => Ok ([], None, None)
  | Some vu =>
      vals ← validatorsFromUpdates (VSU_Updates vu);
      match VSU_ThresholdPublicKey vu with
      | None => Ok ([], None, None)
      | Some k =>
          pub ← PubKeyFromProto (Some k);
          if negb (length (VSU_QuorumHash vu) =? DefaultHashSize) then Err ErrUpdateQuorumHash
          else Ok (vals, Some pub, Some (VSU_QuorumHash vu))
      end
  end.

Definition NewValidatorSetCheckPublicKeys (valz : list Validator) (tpk : option PubKey)
    (quorumType : Z) (quorumHash : option bytes) (params : ValidatorParams) :
    outcome valset_error ValidatorSet :=
  let hasPublicKeys := forallb (λ val, match Val_PubKey val with
                                       | None => false
                                       | Some pk => negb (length (pk_bytes pk) =? 0)
                                       end) valz in
  NewValidatorSet valz tpk quorumType quorumHash hasPublicKeys (Params_VotingPowerThreshold params).

(** [*params.VotingPowerThreshold], if it is set, becomes the threshold. *)
Definition set_threshold (vals : option ValidatorSet) (threshold : option Z) :
    res (option ValidatorSet) :=
  match threshold with
  | None => Ok vals
  | Some t =>
      v ← deref vals;
      Ok (Some (mkValidatorSet (Validators v) (proposerIndex v) (ThresholdPublicKey v)
                  (QuorumHash v) (QuorumType v) (HasPublicKeys v) t))
  end.

Definition set_quorumHash (vals : option ValidatorSet) (quorumHash : option bytes) :
    res (option ValidatorSet) :=
  if length (slice quorumHash) =? 0 then Ok vals
  else
    v ← deref vals;
    Ok (Some (mkValidatorSet (Validators v) (proposerIndex v) (ThresholdPublicKey v)
                (slice quorumHash) (QuorumType v) (HasPublicKeys v) (VotingPowerThreshold v))).

Definition set_thresholdKey (vals : option ValidatorSet) (tpk : option PubKey) :
    res (option ValidatorSet) :=
  match tpk with
  | None => Ok vals
  | Some _ =>
      v ← deref vals;
      Ok (Some (mkValidatorSet (Validators v) (proposerIndex v) tpk (QuorumHash v)
                  (QuorumType v) (HasPublicKeys v) (VotingPowerThreshold v)))
  end.

(** [nValSet.ValidateBasic()] of a pointer. *)
Definition vals_ValidateBasic (vals : option ValidatorSet) : outcome valset_error ValidatorSet :=
  match vals with
  | None => Err ErrValidatorSetNilOrEmpty
  | Some vals => _ ← valset_ValidateBasic vals; Ok vals
  end.

Definition valsetUpdate (vu : option ValidatorSetUpdate) (currentVals : option ValidatorSet)
    (params : ValidatorParams) : res ValidatorSet :=
  _ ← validateValidatorSetUpdate vu params;
  '(validatorUpdates, thresholdPubKey, quorumHash) ← ValidatorUpdatesFromValidatorSet vu;
  let threshold := Params_VotingPowerThreshold params in
  nValSet ←
    (if negb (length validatorUpdates =? 0) then
       current ← deref currentVals;
       if bool_decide (QuorumHash current = slice quorumHash) then
         vals ← wrap_err ErrNextValidators
                  (UpdateWithChangeSet current validatorUpdates thresholdPubKey quorumHash);
         set_threshold (Some vals) threshold
       else
         vals ← wrap_err ErrNextValidators
           (NewValidatorSetCheckPublicKeys validatorUpdates thresholdPubKey (QuorumType current)
              quorumHash params);
         Ok (Some vals)
     else
       vals ← set_quorumHash currentVals quorumHash;
       vals ← set_thresholdKey vals thresholdPubKey;
       set_threshold vals threshold);
  wrap_err ErrNextValidators (vals_ValidateBasic nValSet).

(** ** The changes a block makes *)

(** What the hash of the results covers: code, data and gas. *)
Definition marshal_deterministic (r : ExecTxResult) : bytes :=
  wire.varint_field x08 (Res_Code r) ++ wire.bytes_field x12 (Res_Data r) ++
  wire.varint_field x30 (Res_GasUsed r).

Definition TxResultsHash (txResults : list ExecTxResult) : res bytes :=
  wrap_err ErrMerkle (merkle.HashFromByteSlices sha256 (map marshal_deterministic txResults)).

Definition set_results (c : CurrentRoundState) (hash : bytes) : CurrentRoundState :=
  mkCRS (CRS_Base c) (CRS_Round c) (CRS_ProTxHash c) (CRS_AppHash c) (RP_TxResults (CRS_Params c))
    (Some hash) (CRS_CoreChainLock c) (CRS_NextParams c) (CRS_LastHeightParamsChanged c)
    (CRS_NextValidators c) (CRS_LastHeightValidatorsChanged c) (CRS_Params c).

Definition set_nextParams (c : CurrentRoundState) (p : ConsensusParams) (changed : Z) :
    CurrentRoundState :=
  mkCRS (CRS_Base c) (CRS_Round c) (CRS_ProTxHash c) (CRS_AppHash c) (CRS_TxResults c)
    (CRS_ResultsHash c) (CRS_CoreChainLock c) p changed (CRS_NextValidators c)
    (CRS_LastHeightValidatorsChanged c) (CRS_Params c).

Definition set_nextValidators (c : CurrentRoundState) (vals : ValidatorSet) (changed : Z) :
    CurrentRoundState :=
  mkCRS (CRS_Base c) (CRS_Round c) (CRS_ProTxHash c) (CRS_AppHash c) (CRS_TxResults c)
    (CRS_ResultsHash c) (CRS_CoreChainLock c) (CRS_NextParams c) (CRS_LastHeightParamsChanged c)
    (Some vals) changed (CRS_Params c).

Definition set_chainLock (c : CurrentRoundState) (cl : option CoreChainLock) : CurrentRoundState :=
  mkCRS (CRS_Base c) (CRS_Round c) (CRS_ProTxHash c) (CRS_AppHash c) (CRS_TxResults c)
    (CRS_ResultsHash c) cl (CRS_NextParams c) (CRS_LastHeightParamsChanged c)
    (CRS_NextValidators c) (CRS_LastHeightValidatorsChanged c) (CRS_Params c).

Definition populateTxResults (c : CurrentRoundState) : res CurrentRoundState :=
  hash ← TxResultsHash (RP_TxResults (CRS_Params c)); Ok (set_results c hash).

Definition populateConsensusParams (c : CurrentRoundState) : res CurrentRoundState :=
  let base := CRS_Base c in
  match RP_ParamUpdates (CRS_Params c) with
  | None => Ok (set_nextParams c (State_Params base) (LastHeightConsensusParamsChanged base))
  | Some u =>
      if ProtoParams_empty u
      then Ok (set_nextParams c (State_Params base) (LastHeightConsensusParamsChanged base))
      else
        let current := if Params_IsZero (CRS_NextParams c) then State_Params base
                       else CRS_NextParams c in
        let nextParams := UpdateConsensusParams current (Some u) in
        _ ← wrap_err ErrNextParams (ValidateConsensusParams nextParams);
        Ok (set_nextParams c nextParams (int64 (CRS_GetHeight c + 1)))
  end.

Definition populateValsetUpdates (c : CurrentRoundState) : res CurrentRoundState :=
  let update := RP_ValidatorSetUpdate (CRS_Params c) in
  let base := CRS_Base c in
  vals ← valsetUpdate update (State_Validators base) (Params_Validator (CRS_NextParams c));
  let changed := match RP_Source (CRS_Params c), update with
                 | InitChainSource, _ | _, None => false
                 | _, Some u => 0 <? length (VSU_Updates u)
                 end in
  Ok (set_nextValidators c vals (if changed then int64 (CRS_GetHeight c + 1)
                                 else LastHeightValidatorsChanged base)).

Definition populateChainlock (c : CurrentRoundState) : res CurrentRoundState :=
  Ok (set_chainLock c
        match RP_CoreChainLock (CRS_Params c) with
        | None => None
        | Some cl => if (CL_Height cl <=? LastCoreChainLockedBlockHeight (CRS_Base c))%Z then None
                     else Some cl
        end).

Definition populate (c : CurrentRoundState) : res CurrentRoundState :=
  c ← populateTxResults c;
  c ← populateConsensusParams c;
  c ← populateValsetUpdates c;
  populateChainlock c.

Definition NewCurrentRoundState (proTxHash : bytes) (rp : RoundParams) (baseState : State) :
    res CurrentRoundState :=
  populate (mkCRS baseState (RP_Round rp) proTxHash (RP_AppHash rp) [] None None zeroParams 0 None 0
              rp).

(** ** Blocks and states *)

(** The field [Version.App] of a header, and the fields [UpdateBlock] assigns. *)
Definition set_header (b : Block) (h : Header) : Block :=
  mkBlock h (B_Data b) (B_CoreChainLock b) (B_Evidence b) (B_LastCommit b).

Definition UpdateBlock (c : CurrentRoundState) (target : Block) : res Block :=
  match RP_Source (CRS_Params c) with
  | PrepareProposalSource =>
      nextValidatorsHash ← vals_Hash (CRS_NextValidators c);
      let h := B_Header target in
      let coreHeight := match CRS_CoreChainLock c with
                        | Some cl => CL_Height cl
                        | None => LastCoreChainLockedBlockHeight (CRS_Base c)
                        end in
      Ok (mkBlock
            (mkHeader (H_Version h) (H_ChainID h) (H_Height h) coreHeight (H_Time h)
               (H_LastBlockID h) (H_LastCommitHash h) (H_DataHash h) (H_ValidatorsHash h)
               nextValidatorsHash (H_ConsensusHash h) (HashConsensusParams (CRS_NextParams c))
               (slice (CRS_AppHash c)) (slice (CRS_ResultsHash c)) (H_EvidenceHash h)
               (H_ProposerProTxHash h) (H_ProposedAppVersion h))
            (B_Data target) (CRS_CoreChainLock c) (B_Evidence target) (B_LastCommit target))
  | _ => Err ErrUpdateBlockSource
  end.

Definition UpdateState (c : CurrentRoundState) (s : State) : State :=
  let v := State_Version s in
  mkState
    (mkStateVersion
       (mkVersion (Ver_Block (State_Consensus v)) (AppVersion (Params_Version (CRS_NextParams c))))
       (Software v))
    (ChainID s) (InitialHeight s) (LastBlockHeight s) (CRS_Round c) (LastBlockID s) (LastBlockTime s)
    (match CRS_CoreChainLock c with
     | Some cl => CL_Height cl
     | None => LastCoreChainLockedBlockHeight s
     end)
    (CRS_NextValidators c) (State_LastValidators s) (CRS_LastHeightValidatorsChanged c)
    (CRS_NextParams c) (CRS_LastHeightParamsChanged c) (slice (CRS_ResultsHash c))
    (slice (CRS_AppHash c)).

Definition State_Update (s : State) (blockID : BlockID) (header : Header) (c : CurrentRoundState) :
    State :=
  UpdateState c
    (mkState (State_Version s) (ChainID s) (InitialHeight s) (H_Height header) 0 blockID
       (H_Time header) (LastCoreChainLockedBlockHeight s) (State_Validators s) (State_Validators s)
       (LastHeightValidatorsChanged s) (State_Params s) (LastHeightConsensusParamsChanged s) [] []).

(** [now] is the reading of the clock. *)
Definition makeBlockTime (s : State) (height now : Z) : Z :=
  if (height =? InitialHeight s)%Z then LastBlockTime s else Canonical now.

Definition State_MakeBlock (s : State) (height : Z) (txs : list bytes) (lastCommit : option Commit)
    (evidence : list DuplicateVoteEvidence) (proposerProTxHash : bytes) (proposedAppVersion now : Z) :
    res Block :=
  b ← wrap_err ErrMerkle (MakeBlock height txs lastCommit evidence);
  validatorsHash ← vals_Hash (State_Validators s);
  let consensusHash := HashConsensusParams (State_Params s) in
  Ok (set_header b
        (Populate (B_Header b) (State_Consensus (State_Version s)) (ChainID s)
           (makeBlockTime s height now) (LastBlockID s) validatorsHash validatorsHash consensusHash
           consensusHash (LastAppHash s) (LastResultsHash s) proposerProTxHash proposedAppVersion)).

(** ** Validation of blocks *)

(** Without validators, the checks before their quorum is read still fail with an
    error. *)
Definition verifyLastCommit (s : State) (b : Block) (lastCommit : option commitProof) : res unit :=
  commit ← deref (B_LastCommit b);
  let height := int64 (H_Height (B_Header b) - 1) in
  match State_LastValidators s with
  | Some vals =>
      _ ← wrap_err ErrBlockCommit
            (VerifyCommitUnlessVerified vals (ChainID s) (LastBlockID s) height commit lastCommit);
      Ok tt
  | None =>
      if negb (height =? Commit_Height commit)%Z then Err (ErrBlockCommit ErrInvalidCommitHeight)
      else if negb (BlockID_Equals (LastBlockID s) (Commit_BlockID commit))
      then Err (ErrBlockCommit ErrInvalidCommitBlockID)
      else _ ← wrap_err (ErrBlockCommit ∘ ErrCommitExtensions) (GetCanonicalVote commit); Panic
  end.

(** [EvidenceList.ByteSize]; evidence whose time has no encoding already panics in its
    hash. *)
Definition EvidenceList_ByteSize (evl : list DuplicateVoteEvidence) : res Z :=
  if length evl =? 0 then Ok 0%Z
  else m ← deref (marshal_EvidenceList evl); Ok (Z.of_nat (length m)).

Definition HasValidator (vals : option ValidatorSet) (proTxHash : bytes) : bool :=
  match vals with None => false | Some vals => HasProTxHash vals proTxHash end.

Definition checkBlockTime (s : State) (h : Header) : res unit :=
  if (InitialHeight s <? H_Height h)%Z then
    if (LastBlockTime s <? H_Time h)%Z then Ok tt else Err ErrBlockTime
  else if (H_Height h =? InitialHeight s)%Z then
    if (H_Time h <? LastBlockTime s)%Z then Err ErrBlockTime else Ok tt
  else Err ErrBlockHeight.

Definition validateBlock (s : State) (block : option Block) (lastCommit : option commitProof) :
    res unit :=
  _ ← wrap_err ErrBlockBasic (Block_ValidateBasic block);
  b ← deref block;
  let h := B_Header b in
  _ ← match B_CoreChainLock b with
      | Some cl => wrap_err ErrBlockCoreChainLock (CL_ValidateBasic cl)
      | None => Ok tt
      end;
  if negb (Ver_Block (H_Version h) =? Ver_Block (State_Consensus (State_Version s)))%Z
  then Err ErrBlockVersion
  else if negb (bool_decide (H_ChainID h = ChainID s)) then Err ErrBlockChainID
  else if (LastBlockHeight s =? 0)%Z && negb (H_Height h =? InitialHeight s)%Z
  then Err ErrBlockHeight
  else if (0 <? LastBlockHeight s)%Z && negb (H_Height h =? int64 (LastBlockHeight s + 1))%Z
  then Err ErrBlockHeight
  else if negb (BlockID_Equals (H_LastBlockID h) (LastBlockID s)) then Err ErrBlockLastID
  else if negb (bool_decide (H_ConsensusHash h = HashConsensusParams (State_Params s)))
  then Err ErrBlockConsensusHash
  else
    validatorsHash ← vals_Hash (State_Validators s);
    if negb (bool_decide (H_ValidatorsHash h = validatorsHash)) then Err ErrBlockValidatorsHash
    else
      _ ← (if (H_Height h =? InitialHeight s)%Z then
             commit ← deref (B_LastCommit b);
             if negb (length (Commit_ThresholdBlockSignature commit) =? 0)
             then Err ErrBlockInitialCommit else Ok tt
           else verifyLastCommit s b lastCommit);
      if negb (length (H_ProposerProTxHash h) =? DefaultHashSize) then Err ErrBlockProposer
      else if negb (HasValidator (State_Validators s) (H_ProposerProTxHash h))
      then Err ErrBlockProposer
      else
        _ ← checkBlockTime s h;
        size ← EvidenceList_ByteSize (B_Evidence b);
        if (EP_MaxBytes (Params_Evidence (State_Params s)) <? size)%Z
        then Err ErrBlockEvidenceSize else Ok tt.

Definition validateCoreChainLock (b : Block) (s : State) : res unit :=
  let height := H_CoreChainLockedHeight (B_Header b) in
  match B_CoreChainLock b with
  | None => if negb (height =? LastCoreChainLockedBlockHeight s)%Z then Err ErrBlockChainLockHeight
            else Ok tt
  | Some cl =>
      if negb (height =? CL_Height cl)%Z then Err ErrBlockChainLockHeight
      else if (height <=? LastCoreChainLockedBlockHeight s)%Z then Err ErrBlockChainLockHeight
      else Ok tt
  end.

(** Whether [ValidateBlockChainLock] returns no error. *)
Definition ValidateBlockChainLock (s : State) (b : Block) : bool :=
  let h := H_CoreChainLockedHeight (B_Header b) in
  match B_CoreChainLock b with
  | Some cl => (h =? CL_Height cl)%Z && (LastCoreChainLockedBlockHeight s <? h)%Z
  | None => (h =? LastCoreChainLockedBlockHeight s)%Z
  end.

(** The checks of [ValidateBlockWithRoundState] that follow [ValidateBlock]. *)
Definition checkRoundState (s : State) (c : CurrentRoundState) (b : Block)
    (lastCommit : option commitProof) : res unit :=
  let h := B_Header b in
  if bool_decide (CRS_AppHash c ≠ None) && negb (bool_decide (H_AppHash h = slice (CRS_AppHash c)))
  then Err ErrBlockAppHash
  else if bool_decide (CRS_ResultsHash c ≠ None) &&
          negb (bool_decide (H_ResultsHash h = slice (CRS_ResultsHash c)))
  then Err ErrBlockResultsHash
  else
    _ ← (if (InitialHeight s <? H_Height h)%Z then verifyLastCommit s b lastCommit else Ok tt);
    nextHash ← vals_Hash (CRS_NextValidators c);
    if negb (bool_decide (H_NextValidatorsHash h = nextHash)) then Err ErrBlockNextValidatorsHash
    else if negb (bool_decide (H_NextConsensusHash h = HashConsensusParams (CRS_NextParams c)))
    then Err ErrBlockNextConsensusHash
    else validateCoreChainLock b s.

End state.

End sm.
