(* ===== verification/SmStateThms.v ===== *)
(** * internal/state: what the state of a chain satisfies

    What [validateBlock] accepts ([block_follows_iff]), what the changes of a round
    are ([changes_of]), and the invariant of states ([state_ok]), which
    [State_Update] keeps. *)
From Stdlib Require Import ZArith Lia Init.Byte.
From stdpp Require Import base numbers list sets.
From S2P Require Import Prelude.
From S2P Require Import Wire.
From S2P Require Import Merkle.
From S2P Require Import Types.
From S2P Require Import Crypto.
From S2P Require Import QuorumSign.
From S2P Require Import Proposal.
From S2P Require Import ValidatorSet.
From S2P Require Import Evidence.
From S2P Require Import Block.
From S2P Require Import Params.
From S2P Require Import SmState.

Import types crypto quorum proposal valset evidence block params sm.

Module smthms.

Section thms.
Context `{Crypto} `{Dashd} `{StdTime} `{NetURL}.

(** ** The changes of a round *)

Lemma valsetUpdate_valid vu cur p v :
  valsetUpdate vu cur p = Ok v → valset_ValidateBasic v = Ok tt.
Proof.
  unfold valsetUpdate. intros E. apply bind_Ok in E as (_ & _ & E).
  apply bind_Ok in E as ([[us tpk] qh] & _ & E). apply bind_Ok in E as (n & _ & E).
  apply wrap_err_Ok in E. unfold vals_ValidateBasic in E. destruct n; [|done].
  apply bind_Ok in E as ([] & Hv & E). by injection E as ->.
Qed.

(** What [NewCurrentRoundState] makes of the answer of the application. *)
Record changes_of (rp : RoundParams) (s : State) (c : CurrentRoundState) : Prop := {
  ch_base : CRS_Base c = s;
  ch_round : CRS_Round c = RP_Round rp;
  ch_rp : CRS_Params c = rp;
  ch_app : CRS_AppHash c = RP_AppHash rp;
  ch_txs : CRS_TxResults c = RP_TxResults rp;
  ch_results : ∃ h, TxResultsHash (RP_TxResults rp) = Ok h ∧ CRS_ResultsHash c = Some h;
  ch_params : CRS_NextParams c = UpdateConsensusParams (State_Params s) (RP_ParamUpdates rp);
  ch_params_ok : CRS_NextParams c = State_Params s ∨ params_ok (CRS_NextParams c);
  ch_params_height : CRS_LastHeightParamsChanged c ∈
    [LastHeightConsensusParamsChanged s; int64 (CRS_GetHeight c + 1)];
  ch_vals : ∃ v, CRS_NextValidators c = Some v ∧
    valsetUpdate (RP_ValidatorSetUpdate rp) (State_Validators s)
      (Params_Validator (CRS_NextParams c)) = Ok v;
  ch_vals_height : CRS_LastHeightValidatorsChanged c ∈
    [LastHeightValidatorsChanged s; int64 (CRS_GetHeight c + 1)];
  ch_lock : CRS_CoreChainLock c =
    match RP_CoreChainLock rp with
    | Some cl => if (CL_Height cl <=? LastCoreChainLockedBlockHeight s)%Z then None else Some cl
    | None => None
    end }.

Lemma populateConsensusParams_spec c c' :
  CRS_NextParams c = zeroParams → populateConsensusParams c = Ok c' →
  ∃ p ch, c' = set_nextParams c p ch ∧
    p = UpdateConsensusParams (State_Params (CRS_Base c)) (RP_ParamUpdates (CRS_Params c)) ∧
    (p = State_Params (CRS_Base c) ∨ params_ok p) ∧
    ch ∈ [LastHeightConsensusParamsChanged (CRS_Base c); int64 (CRS_GetHeight c + 1)].
Proof.
  intros Hz. unfold populateConsensusParams. rewrite Hz.
  destruct (RP_ParamUpdates (CRS_Params c)) as [u|].
  - destruct (ProtoParams_empty u) eqn:Eu; intros E.
    + injection E as <-. eexists _, _. split; [done|]. rewrite update_empty by done. set_solver.
    + change (Params_IsZero zeroParams) with true in E. cbv iota zeta in E.
      apply bind_Ok in E as ([] & Hv%wrap_err_Ok & E). injection E as <-.
      apply ValidateConsensusParams_Ok in Hv. eexists _, _. split; [done|]. set_solver.
  - intros E. injection E as <-. eexists _, _. split; [done|]. cbn. set_solver.
Qed.

Lemma NewCurrentRoundState_spec proTxHash rp s c :
  NewCurrentRoundState proTxHash rp s = Ok c → changes_of rp s c.
Proof.
  unfold NewCurrentRoundState, populate. intros E.
  apply bind_Ok in E as (c1 & E1 & E). apply bind_Ok in E1 as (hash & Hh & E1). injection E1 as <-.
  apply bind_Ok in E as (c2 & E2 & E). apply populateConsensusParams_spec in E2; [|done].
  destruct E2 as (p & ch & -> & -> & Hp & Hch). cbn in Hh, Hp, Hch.
  apply bind_Ok in E as (c3 & E3 & E). unfold populateValsetUpdates in E3.
  apply bind_Ok in E3 as (v & Hv & E3). injection E3 as <-. injection E as <-.
  split; cbn in *; try done.
  - by exists hash.
  - by exists v.
  - set_unfold. split_if; auto.
Qed.

(** ** What [validateBlock] accepts *)

Record header_follows (s : State) (h : Header) : Prop := {
  hf_version : Ver_Block (H_Version h) = Ver_Block (State_Consensus (State_Version s));
  hf_chain : H_ChainID h = ChainID s;
  hf_first : LastBlockHeight s = 0%Z → H_Height h = InitialHeight s;
  hf_next : (0 < LastBlockHeight s)%Z → H_Height h = int64 (LastBlockHeight s + 1);
  hf_last : H_LastBlockID h = LastBlockID s;
  hf_consensus : H_ConsensusHash h = HashConsensusParams (State_Params s);
  hf_validators : vals_Hash (State_Validators s) = Ok (H_ValidatorsHash h);
  hf_proposer : HasValidator (State_Validators s) (H_ProposerProTxHash h) = true;
  hf_proposer_size : length (H_ProposerProTxHash h) = DefaultHashSize;
  hf_time : (InitialHeight s < H_Height h ∧ LastBlockTime s < H_Time h)%Z ∨
            (H_Height h = InitialHeight s ∧ LastBlockTime s ≤ H_Time h)%Z }.

(** The last commit of a block: none at the initial height, else one of the last
    validators for the last block. *)
Definition commit_follows (s : State) (b : Block) (lastCommit : option commitProof) : Prop :=
  if (H_Height (B_Header b) =? InitialHeight s)%Z
  then ∃ c, B_LastCommit b = Some c ∧ Commit_ThresholdBlockSignature c = []
  else verifyLastCommit s b lastCommit = Ok tt.

Record block_follows (s : State) (b : Block) (lastCommit : option commitProof) : Prop := {
  bf_basic : Block_ValidateBasic (Some b) = Ok tt;
  bf_header : header_follows s (B_Header b);
  bf_commit : commit_follows s b lastCommit;
  bf_evidence : ∃ size, EvidenceList_ByteSize (B_Evidence b) = Ok size ∧
    (size ≤ EP_MaxBytes (Params_Evidence (State_Params s)))%Z }.

Lemma checkBlockTime_Ok s h :
  checkBlockTime s h = Ok tt ↔
  (InitialHeight s < H_Height h ∧ LastBlockTime s < H_Time h)%Z ∨
  (H_Height h = InitialHeight s ∧ LastBlockTime s ≤ H_Time h)%Z.
Proof.
  unfold checkBlockTime. repeat case_match; bools; split; try done; try lia; intros; lia.
Qed.

Lemma chainlock_rechecked b :
  Block_ValidateBasic (Some b) = Ok tt →
  match B_CoreChainLock b with
  | Some cl => wrap_err ErrBlockCoreChainLock (CL_ValidateBasic cl)
  | None => Ok tt
  end = Ok tt.
Proof.
  intros (c & ev & _ & _ & _ & _ & _ & _ & _ & _ & Hcl)%Block_ValidateBasic_Ok.
  destruct (B_CoreChainLock b); [|done]. by rewrite Hcl.
Qed.

Lemma initial_commit_Ok b :
  (commit ← deref (B_LastCommit b);
   if negb (length (Commit_ThresholdBlockSignature commit) =? 0)
   then Err ErrBlockInitialCommit else Ok tt) = Ok tt ↔
  ∃ c, B_LastCommit b = Some c ∧ Commit_ThresholdBlockSignature c = [].
Proof.
  rewrite bind_Ok. setoid_rewrite deref_Ok. setoid_rewrite guard_Ok.
  setoid_rewrite negb_false_iff. setoid_rewrite Nat.eqb_eq. setoid_rewrite length_zero_iff_nil.
  naive_solver.
Qed.

(** The checks of [validateBlock], one by one. *)
Lemma block_follows_iff s b lastCommit :
  validateBlock s (Some b) lastCommit = Ok tt ↔ block_follows s b lastCommit.
Proof.
  unfold validateBlock. split.
  - intros E. apply bind_Ok in E as ([] & Hb%wrap_err_Ok & E).
    apply bind_Ok in E as (b' & [= <-]%deref_Ok & E). apply bind_Ok in E as (_ & _ & E).
    do 6 (apply guard_Ok in E as [? E]).
    apply bind_Ok in E as (vh & Hvh & E). apply guard_Ok in E as [? E].
    apply bind_Ok in E as ([] & Hc & E). do 2 (apply guard_Ok in E as [? E]).
    apply bind_Ok in E as ([] & Ht%checkBlockTime_Ok & E).
    apply bind_Ok in E as (size & Hs & E). apply guard_Ok in E as [? _].
    split; [done| | |exists size; split; [done|by bools]].
    + bools; split; try done; try lia; try (by apply BlockID_Equals_spec); congruence.
    + unfold commit_follows. destruct (_ =? _)%Z in Hc |- *; [by apply initial_commit_Ok|done].
  - intros [Hb [Hv Hch Hf Hn Hl Hcp Hvh Hp Hps Ht] Hc (size & Hs & Hle)].
    apply bind_Ok. exists tt. split; [by rewrite Hb|]. apply bind_Ok. exists b. split; [done|].
    apply bind_Ok. exists tt. split; [by apply chainlock_rechecked|].
    rewrite Hv, Hch, Hl, Hcp, Hvh, Hp, Hps, (proj2 (checkBlockTime_Ok s _) Ht), Hs, Z.eqb_refl.
    rewrite (proj2 (BlockID_Equals_spec _ _) eq_refl), !bool_decide_eq_true_2 by done.
    cbn [negb]. apply guard_Ok; split; [|apply guard_Ok; split].
    + destruct (Z.eqb_spec (LastBlockHeight s) 0); [|done]. by rewrite Hf, Z.eqb_refl.
    + destruct (Z.ltb_spec 0 (LastBlockHeight s)); [|done]. by rewrite Hn, Z.eqb_refl.
    + orun. rewrite bool_decide_eq_true_2 by done. cbn [negb]. apply bind_Ok. exists tt. split; [|by rewrite Nat.eqb_refl; orun; rewrite (proj2 (Z.ltb_ge _ _))].
      unfold commit_follows in Hc. destruct (_ =? _)%Z; [by apply initial_commit_Ok|done].
Qed.

(** ** The invariant of states *)

(** The height of the block that follows. *)
Definition next_height (s : State) : Z :=
  if (LastBlockHeight s =? 0)%Z then InitialHeight s else (LastBlockHeight s + 1)%Z.

Definition valid_vals (vals : option ValidatorSet) : Prop :=
  ∃ v, vals = Some v ∧ valset_ValidateBasic v = Ok tt.

Record state_ok (s : State) : Prop := {
  so_initial : (0 < InitialHeight s)%Z;
  so_height : LastBlockHeight s = 0%Z ∨ (InitialHeight s ≤ LastBlockHeight s < MaxInt64)%Z;
  so_params : params_ok (State_Params s);
  so_vals : valid_vals (State_Validators s);
  so_last_vals : (0 < LastBlockHeight s)%Z → valid_vals (State_LastValidators s);
  so_vals_changed : (LastHeightValidatorsChanged s ≤ next_height s)%Z;
  so_params_changed : (LastHeightConsensusParamsChanged s ≤ next_height s)%Z }.

Lemma header_next_height s h :
  state_ok s → header_follows s h → H_Height h = next_height s ∧ (0 < H_Height h)%Z.
Proof.
  intros [] []. unfold next_height. destruct (Z.eqb_spec (LastBlockHeight s) 0) as [E|E].
  - rewrite hf_first0 by done. lia.
  - rewrite hf_next0, int64_id by (unfold_ints; lia). lia.
Qed.

(** A block that follows a valid state, with the changes the application made to it,
    leads to a valid state one height up. *)
Lemma Update_ok s id h rp c :
  state_ok s → changes_of rp s c → header_follows s h → (H_Height h < MaxInt64)%Z →
  state_ok (State_Update s id h c) ∧ next_height (State_Update s id h c) = (next_height s + 1)%Z.
Proof.
  intros Hs Hc Hh Hm. destruct (header_next_height s h Hs Hh) as [Hn Hp].
  assert (next_height (State_Update s id h c) = (next_height s + 1)%Z) as Hn'.
  { unfold next_height at 1. cbn. destruct (Z.eqb_spec (H_Height h) 0); lia. }
  split; [|done].
  assert (CRS_GetHeight c = next_height s) as Hg.
  { unfold CRS_GetHeight. rewrite (ch_base _ _ _ Hc). unfold next_height in *.
    destruct (Z.eqb_spec (LastBlockHeight s) 0); [done|]. rewrite int64_id; [done|].
    destruct (so_height _ Hs); unfold_ints; lia. }
  assert (int64 (CRS_GetHeight c + 1) = next_height s + 1)%Z as Hi.
  { rewrite Hg, int64_id; [done|]. unfold_ints. lia. }
  destruct Hs, Hc. rewrite Hi in *. split; cbn; try done.
  - right. unfold next_height in *. destruct (Z.eqb_spec (LastBlockHeight s) 0); lia.
  - destruct ch_params_ok0 as [E|]; [|done]. by rewrite E.
  - destruct ch_vals0 as (v & -> & Hv). exists v. split; [done|]. by eapply valsetUpdate_valid.
  - change (LastHeightValidatorsChanged _) with (CRS_LastHeightValidatorsChanged c).
    rewrite Hn'. set_unfold. lia.
  - change (LastHeightConsensusParamsChanged _) with (CRS_LastHeightParamsChanged c).
    rewrite Hn'. set_unfold. lia.
Qed.

End thms.

End smthms.
