(* ===== verification/SmProto.v ===== *)
(** * internal/state: the stored form of the state and the genesis state

    Models the conversions to and from protobuf messages of validators
    ([src/types/validator.go]), validator sets ([src/types/validator_set.go]), keys
    ([src/crypto/encoding/codec.go]) and the state ([src/internal/state/state.go]), and
    the state before the first block: [GenesisDoc.ValidateAndComplete] of
    [src/types/genesis.go] and [MakeGenesisState] of [src/internal/state/state.go].
    Reading a genesis document from JSON is not modelled. *)
From Stdlib Require Import ZArith Lia Init.Byte Strings.String.
From stdpp Require Import base numbers list pretty.
From S2P Require Import Prelude.
From S2P Require Import SafeMath.
From S2P Require Import Merkle.
From S2P Require Import Types.
From S2P Require Import Crypto.
From S2P Require Import QuorumSign.
From S2P Require Import Proposal.
From S2P Require Import ValidatorSet.
From S2P Require Import Evidence.
From S2P Require Import Block.
From S2P Require Import Params.
From S2P Require Import SmState.
From S2P Require Import SmStateThms.

Import types crypto quorum proposal valset evidence block params sm smthms.

Module smproto.

(** ** Messages *)

(** [PubKey] is a pointer to a message. *)
Record ProtoValidator := mkProtoValidator {
  PVal_PubKey : option PublicKeyMsg;
  PVal_VotingPower : Z;
  PVal_ProTxHash : bytes;
  PVal_NodeAddress : bytes }.

Record ProtoValidatorSet := mkProtoValidatorSet {
  PVS_Validators : list (option ProtoValidator);
  PVS_Proposer : option ProtoValidator;
  PVS_TotalVotingPower : Z;
  PVS_VotingPowerThreshold : Z;
  PVS_ThresholdPublicKey : PublicKeyMsg;
  PVS_QuorumType : Z;
  PVS_QuorumHash : bytes;
  PVS_HasPublicKeys : bool }.

Definition emptyProtoSet : ProtoValidatorSet := mkProtoValidatorSet [] None 0 0 None 0 [] false.

Record ProtoState := mkProtoState {
  PSt_Version : Version;
  PSt_ChainID : bytes;
  PSt_InitialHeight : Z;
  PSt_LastBlockHeight : Z;
  PSt_LastBlockRound : Z;
  PSt_LastBlockID : BlockID;
  PSt_LastBlockTime : Z;
  PSt_LastCoreChainLockedBlockHeight : Z;
  PSt_Validators : option ProtoValidatorSet;
  PSt_LastValidators : option ProtoValidatorSet;
  PSt_LastHeightValidatorsChanged : Z;
  PSt_ConsensusParams : ProtoParams;
  PSt_LastHeightConsensusParamsChanged : Z;
  PSt_LastResultsHash : bytes;
  PSt_AppHash : bytes }.

Inductive proto_error :=
  | ErrNilValidator
  | ErrNoProTxHash
  | ErrNoThresholdKey
  | ErrProtoQuorumHash
  | ErrProtoQuorumType (e : math_error)
  | ErrProtoKey (e : sm_error)
  | ErrProtoAddress
  | ErrProtoSet (e : valset_error)
  | ErrProtoBlockID (e : blockid_error).

Notation res := (outcome proto_error).

(** ** Keys and addresses *)

(** The dynamic type of a key is one of the three the switch knows. *)
Definition PubKeyToProto (k : PubKey) : PublicKeyMsg := Some (mkProtoKey (pk_type k) (pk_bytes k)).

(** [strconv.Itoa]. *)
Definition Itoa (n : Z) : bytes := list_byte_of_string (pretty n).

(** [net.JoinHostPort]: a host with a colon is put in brackets. *)
Definition JoinHostPort (host port : bytes) : bytes :=
  if existsb (Byte.eqb x3a) host then [x5b] ++ host ++ [x5d; x3a] ++ port else host ++ [x3a] ++ port.

Definition Addr_String (va : ValidatorAddress) : bytes :=
  if Addr_Zero va then []
  else tcp_scheme ++ (if length (Addr_NodeID va) =? 0 then [] else Addr_NodeID va ++ [x40]) ++
       JoinHostPort (Addr_Hostname va) (Itoa (Addr_Port va)).

Section conversions.
Context `{Crypto} `{Dashd} `{StdTime} `{NetURL}.

(** ** Validators *)

Definition Validator_ToProto (v : option Validator) : res ProtoValidator :=
  match v with
  | None => Err ErrNilValidator
  | Some v =>
      if length (ProTxHash v) =? 0 then Err ErrNoProTxHash
      else
        let key := match Val_PubKey v with
                   | Some pk => if 0 <? length (pk_bytes pk) then Some (PubKeyToProto pk) else None
                   | None => None
                   end in
        Ok (mkProtoValidator key (VotingPower v) (ProTxHash v) (Addr_String (NodeAddress v)))
  end.

Definition ValidatorFromProto (vp : option ProtoValidator) : res Validator :=
  match vp with
  | None => Err ErrNilValidator
  | Some vp =>
      key ← match PVal_PubKey vp with
            | Some (Some k) => pk ← wrap_err ErrProtoKey (PubKeyFromProto (Some k)); Ok (Some pk)
            | _ => Ok None
            end;
      addr ← (if length (PVal_NodeAddress vp) =? 0 then Ok (mkAddr [] [] 0)
              else match ParseValidatorAddress (PVal_NodeAddress vp) with
                   | Some a => Ok a
                   | None => Err ErrProtoAddress
                   end);
      Ok (mkValidator (PVal_ProTxHash vp) key (PVal_VotingPower vp) addr)
  end.

Fixpoint validators_ToProto (l : list Validator) : res (list (option ProtoValidator)) :=
  match l with
  | [] => Ok []
  | v :: l => p ← Validator_ToProto (Some v); ps ← validators_ToProto l; Ok (Some p :: ps)
  end.

Fixpoint validatorsFromProto (l : list (option ProtoValidator)) : res (list Validator) :=
  match l with
  | [] => Ok []
  | p :: l => v ← ValidatorFromProto p; vs ← validatorsFromProto l; Ok (v :: vs)
  end.

(** ** Validator sets *)

Definition vals_ToProto (vals : option ValidatorSet) : res ProtoValidatorSet :=
  match vals with
  | None => Ok emptyProtoSet
  | Some vals =>
      if length (Validators vals) =? 0 then Ok emptyProtoSet
      else
        valsProto ← validators_ToProto (Validators vals);
        proposer ← Proposer vals;
        valProposer ← Validator_ToProto proposer;
        match ThresholdPublicKey vals with
        | None => Err ErrNoThresholdKey
        | Some tpk =>
            if negb (length (QuorumHash vals) =? DefaultHashSize) then Err ErrProtoQuorumHash
            else
              quorumType ← wrap_err ErrProtoQuorumType (SafeConvertInt32 (QuorumType vals));
              Ok (mkProtoValidatorSet valsProto (Some valProposer) 0 (VotingPowerThreshold vals)
                    (PubKeyToProto tpk) quorumType (QuorumHash vals) (HasPublicKeys vals))
        end
  end.

(** [ValidatorSetFromProto] up to the final [ValidateBasic], whose error is returned
    together with the set.  [btcjson.LLMQType] is an int. *)
Definition decodeValidatorSet (vp : ProtoValidatorSet) : res ValidatorSet :=
  validators ← validatorsFromProto (PVS_Validators vp);
  let vals := mkValidatorSet validators 0 None [] (PVS_QuorumType vp) false 0 in
  vals ← match PVS_Proposer vp with
         | None => Ok vals
         | Some p => wrap_err ErrProtoSet (SetProposer vals (PVal_ProTxHash p))
         end;
  key ← match PVS_ThresholdPublicKey vp with
        | None => Ok None
        | Some k => pk ← wrap_err ErrProtoKey (PubKeyFromProto (Some k)); Ok (Some pk)
        end;
  Ok (mkValidatorSet (Validators vals) (proposerIndex vals) key (PVS_QuorumHash vp)
        (QuorumType vals) (PVS_HasPublicKeys vp) (PVS_VotingPowerThreshold vp)).

Definition ValidatorSetFromProto (vp : option ProtoValidatorSet) : res ValidatorSet :=
  match vp with
  | None => Err (ErrProtoSet ErrValidatorSetNilOrEmpty)
  | Some vp => vals ← decodeValidatorSet vp;
               _ ← wrap_err ErrProtoSet (valset_ValidateBasic vals); Ok vals
  end.

(** [NewEmptyValidatorSet]: no change is applied. *)
Definition NewEmptyValidatorSet : ValidatorSet := mkValidatorSet [] 0 None [] 0 false 0.

(** ** The state *)

Definition State_ToProto (s : State) : res ProtoState :=
  vals ← vals_ToProto (State_Validators s);
  lastVals ← (if (1 <=? LastBlockHeight s)%Z
              then lv ← vals_ToProto (State_LastValidators s); Ok (Some lv) else Ok None);
  Ok (mkProtoState (State_Version s) (ChainID s) (InitialHeight s) (LastBlockHeight s)
        (LastBlockRound s) (LastBlockID s) (LastBlockTime s) (LastCoreChainLockedBlockHeight s)
        (Some vals) lastVals (LastHeightValidatorsChanged s) (Params_ToProto (State_Params s))
        (LastHeightConsensusParamsChanged s) (LastResultsHash s) (LastAppHash s)).

Definition StateFromProto (pb : ProtoState) : res State :=
  let initial := (PSt_LastBlockHeight pb <? PSt_InitialHeight pb)%Z in
  id ← wrap_err ErrProtoBlockID (BlockIDFromProto (PSt_LastBlockID pb));
  vals ← match PSt_Validators pb with
         | None => if initial then Ok None else Err (ErrProtoSet ErrValidatorSetNilOrEmpty)
         | Some vp =>
             v ← decodeValidatorSet vp;
             match valset_ValidateBasic v with
             | Ok _ => Ok (Some v)
             | Err ErrValidatorSetNilOrEmpty =>
                 if initial then Ok (Some v) else Err (ErrProtoSet ErrValidatorSetNilOrEmpty)
             | Err e => Err (ErrProtoSet e)
             | Panic => Panic
             end
         end;
  lastVals ← (if initial then Ok NewEmptyValidatorSet
              else ValidatorSetFromProto (PSt_LastValidators pb));
  Ok (mkState (PSt_Version pb) (PSt_ChainID pb) (PSt_InitialHeight pb) (PSt_LastBlockHeight pb)
        (PSt_LastBlockRound pb) id (PSt_LastBlockTime pb) (PSt_LastCoreChainLockedBlockHeight pb)
        vals (Some lastVals) (PSt_LastHeightValidatorsChanged pb)
        (ConsensusParamsFromProto (PSt_ConsensusParams pb))
        (PSt_LastHeightConsensusParamsChanged pb) (PSt_LastResultsHash pb) (PSt_AppHash pb)).

(** ** Genesis *)

Record GenesisValidator := mkGenesisValidator {
  GV_PubKey : option PubKey; GV_Power : Z; GV_Name : bytes; GV_ProTxHash : bytes }.

Record GenesisDoc := mkGenesisDoc {
  GenesisTime : Z;
  Gen_ChainID : bytes;
  Gen_InitialHeight : Z;
  Gen_ConsensusParams : option ConsensusParams;
  Gen_Validators : list GenesisValidator;
  Gen_AppHash : bytes;
  InitialCoreChainLockedHeight : Z;
  InitialProposalCoreChainLock : option CoreChainLock;
  Gen_ThresholdPublicKey : option PubKey;
  Gen_QuorumType : Z;
  Gen_QuorumHash : bytes }.

Inductive genesis_error :=
  | ErrGenChainID | ErrGenHeight | ErrGenQuorumType | ErrGenChainLock
  | ErrGenParams (e : params_error) | ErrGenPower | ErrGenProTxHash | ErrGenThresholdKey
  | ErrGenQuorumHash.

Fixpoint checkGenesisValidators (l : list GenesisValidator) : outcome genesis_error unit :=
  match l with
  | [] => Ok tt
  | v :: l =>
      if (GV_Power v =? 0)%Z then Err ErrGenPower
      else if negb (length (GV_ProTxHash v) =? DefaultHashSize) then Err ErrGenProTxHash
      else checkGenesisValidators l
  end.

(** [now] is the clock, for a document without a time. *)
Definition ValidateAndComplete (now : Z) (g : GenesisDoc) : outcome genesis_error GenesisDoc :=
  if (length (Gen_ChainID g) =? 0) || negb (length (Gen_ChainID g) <=? MaxChainIDLen)
  then Err ErrGenChainID
  else if (Gen_InitialHeight g <? 0)%Z then Err ErrGenHeight
  else if negb (LLMQType_Validate (Gen_QuorumType g)) then Err ErrGenQuorumType
  else if match InitialProposalCoreChainLock g with
          | Some cl => (CL_Height cl <=? InitialCoreChainLockedHeight g)%Z
          | None => false
          end then Err ErrGenChainLock
  else
    let params := Complete (default DefaultConsensusParams (Gen_ConsensusParams g)) in
    _ ← wrap_err ErrGenParams (ValidateConsensusParams params);
    _ ← checkGenesisValidators (Gen_Validators g);
    _ ← (if length (Gen_Validators g) =? 0 then Ok tt
         else match Gen_ThresholdPublicKey g with
              | None => Err ErrGenThresholdKey
              | Some k =>
                  if negb (length (pk_bytes k) =? PubKeySize) then Err ErrGenThresholdKey
                  else if negb (length (Gen_QuorumHash g) =? DefaultHashSize)
                  then Err ErrGenQuorumHash else Ok tt
              end);
    Ok (mkGenesisDoc (if (GenesisTime g =? zero_time)%Z then now else GenesisTime g)
          (Gen_ChainID g) (if (Gen_InitialHeight g =? 0)%Z then 1%Z else Gen_InitialHeight g)
          (Some params) (Gen_Validators g) (Gen_AppHash g) (InitialCoreChainLockedHeight g)
          (InitialProposalCoreChainLock g) (Gen_ThresholdPublicKey g) (Gen_QuorumType g)
          (Gen_QuorumHash g)).

(** [TMVersionDefault], 1.8.2. *)
Definition TMCoreSemVer : bytes := [x31; x2e; x38; x2e; x32].

Definition InitStateVersion : Version := mkStateVersion (mkVersion BlockProtocol 0) TMCoreSemVer.

Definition genesis_validator (v : GenesisValidator) : Validator :=
  mkValidator (GV_ProTxHash v) (GV_PubKey v) DefaultDashVotingPower (mkAddr [] [] 0).

Definition MakeGenesisState (now : Z) (g : GenesisDoc) : outcome genesis_error State :=
  g ← ValidateAndComplete now g;
  params ← deref (Gen_ConsensusParams g);
  let threshold := Params_VotingPowerThreshold (Params_Validator params) in
  vals ← (if length (Gen_Validators g) =? 0
          then match NewValidatorSet [] None (Gen_QuorumType g) None false threshold with
               | Ok v => Ok v
               | _ => Panic
               end
          else
            match NewValidatorSet (map genesis_validator (Gen_Validators g))
                    (Gen_ThresholdPublicKey g) (Gen_QuorumType g) (Some (Gen_QuorumHash g))
                    (forallb (λ v, bool_decide (is_Some (GV_PubKey v))) (Gen_Validators g))
                    threshold with
            | Ok v => Ok v
            | _ => Panic
            end);
  Ok (mkState InitStateVersion (Gen_ChainID g) (Gen_InitialHeight g) 0 0 nilBlockID (GenesisTime g)
        (InitialCoreChainLockedHeight g) (Some vals) (Some NewEmptyValidatorSet)
        (Gen_InitialHeight g) params (Gen_InitialHeight g) [] (Gen_AppHash g)).

(** ** What survives the conversion *)

(** An address is printed and parsed by packages [net] and [net/url]. *)
Definition addr_storable (a : ValidatorAddress) : Prop :=
  a = mkAddr [] [] 0 ∨ (Addr_Zero a = false ∧ ParseValidatorAddress (Addr_String a) = Some a).

Definition key_storable (k : PubKey) : Prop := length (pk_bytes k) = key_size (pk_type k).

Record val_storable (v : Validator) : Prop := {
  vst_hash : length (ProTxHash v) ≠ 0;
  vst_key : ∀ k, Val_PubKey v = Some k → key_storable k;
  vst_addr : addr_storable (NodeAddress v) }.

Record set_storable (vals : ValidatorSet) : Prop := {
  sst_vals : Forall val_storable (Validators vals);
  sst_nodup : NoDup (map ProTxHash (Validators vals));
  sst_index : (0 ≤ proposerIndex vals < Size vals)%Z ∧ (Size vals ≤ MaxInt32)%Z;
  sst_key : ∃ k, ThresholdPublicKey vals = Some k ∧ key_storable k;
  sst_type : in_int32 (QuorumType vals);
  sst_valid : valset_ValidateBasic vals = Ok tt }.

Lemma key_size_pos t : 0 < key_size t.
Proof. unfold key_size, PubKeySize. destruct t; lia. Qed.

Lemma key_roundtrip k : key_storable k → PubKeyFromProto (PubKeyToProto k) = Ok k.
Proof.
  intros Hk. unfold PubKeyFromProto, PubKeyToProto. cbn. rewrite Hk, Nat.eqb_refl. by destruct k.
Qed.

Lemma val_roundtrip v :
  val_storable v → ∃ p, Validator_ToProto (Some v) = Ok p ∧ ValidatorFromProto (Some p) = Ok v ∧
    PVal_ProTxHash p = ProTxHash v.
Proof.
  intros [Hh Hk Ha]. unfold Validator_ToProto. destruct (Nat.eqb_spec (length (ProTxHash v)) 0); [done|].
  eexists. split; [done|]. split; [|done]. unfold ValidatorFromProto.
  cbn [PVal_PubKey PVal_NodeAddress PVal_ProTxHash PVal_VotingPower].
  assert ((if length (Addr_String (NodeAddress v)) =? 0 then Ok (mkAddr [] [] 0)
           else match ParseValidatorAddress (Addr_String (NodeAddress v)) with
                | Some a => Ok a | None => Err ErrProtoAddress end) =
          (Ok (NodeAddress v) : res ValidatorAddress)) as Ea.
  { destruct Ha as [->|[Hz ->]]; [done|]. unfold Addr_String. by rewrite Hz. }
  rewrite Ea. destruct v as [h [k|] pw a]; cbn [Val_PubKey] in *; [|done].
  specialize (Hk k eq_refl). pose proof (key_size_pos (pk_type k)).
  destruct (Nat.ltb_spec 0 (length (pk_bytes k))); [|unfold key_storable in Hk; lia].
  pose proof (key_roundtrip k Hk) as E. unfold PubKeyToProto in *. rewrite E. done.
Qed.

Lemma vals_list_roundtrip l :
  Forall val_storable l →
  ∃ ps, validators_ToProto l = Ok ps ∧ validatorsFromProto ps = Ok l.
Proof.
  induction 1 as [|v l Hv Hl (ps & E1 & E2)]; [by exists []|].
  destruct (val_roundtrip v Hv) as (p & Ep & Ef & _). exists (Some p :: ps).
  cbn [validators_ToProto validatorsFromProto]. rewrite Ep, E1, Ef. orun. by rewrite E2.
Qed.

(** Decoding the stored form of a validator set gives it back, with its proposer. *)
Lemma set_roundtrip vals :
  set_storable vals →
  ∃ p, vals_ToProto (Some vals) = Ok p ∧ decodeValidatorSet p = Ok vals ∧
    ValidatorSetFromProto (Some p) = Ok vals.
Proof.
  intros [Hv Hn [[Hi0 Hi] Hsz] (k & Hk & Hks) Ht Hvalid].
  destruct (vals_list_roundtrip _ Hv) as (ps & E1 & E2). unfold Size in Hi, Hsz.
  assert (∃ v, Validators vals !! Z.to_nat (proposerIndex vals) = Some v) as [v Hl].
  { apply lookup_lt_is_Some. lia. }
  pose proof (proj1 (Forall_lookup _ _) Hv _ _ Hl) as Hvs.
  destruct (val_roundtrip v Hvs) as (pv & Epv & _ & Eh).
  destruct (valset_ValidateBasic_parts vals) as (_ & _ & _ & Hq & _); [unfold Size; unfold_ints; lia|done|].
  assert (length (Validators vals) =? 0 = false) as Hl0 by (apply Nat.eqb_neq; lia).
  assert (Proposer (E:=proto_error) vals = Ok (Some v)) as Hp.
  { unfold Proposer, GetByIndex, Size. rewrite Hl0.
    destruct (Z.ltb_spec (proposerIndex vals) 0); [lia|].
    destruct (Z.leb_spec (Z.of_nat (length (Validators vals))) (proposerIndex vals)); [lia|].
    cbn [orb]. by rewrite Hl. }
  set (p := mkProtoValidatorSet ps (Some pv) 0 (VotingPowerThreshold vals) (PubKeyToProto k)
              (QuorumType vals) (QuorumHash vals) (HasPublicKeys vals)).
  assert (decodeValidatorSet p = Ok vals) as Hd.
  { unfold decodeValidatorSet, p. cbn [PVS_Validators PVS_Proposer PVS_ThresholdPublicKey PVS_QuorumHash
      PVS_QuorumType PVS_HasPublicKeys PVS_VotingPowerThreshold]. rewrite E2. orun. rewrite Eh.
    unfold SetProposer. rewrite (GetByProTxHash_lookup _ (Z.to_nat (proposerIndex vals))) by
      (cbn; unfold Size; cbn; done || lia).
    orun. rewrite Z2Nat.id by done. destruct (Z.ltb_spec (proposerIndex vals) 0); [lia|].
    cbn [wrap_err]. orun. pose proof (key_roundtrip k Hks) as Ek. unfold PubKeyToProto in *.
    rewrite Ek. cbn. destruct vals; cbn in *. by rewrite Hk. }
  exists p. split_and!; [|exact Hd|unfold ValidatorSetFromProto; rewrite Hd; orun; by rewrite Hvalid].
  unfold vals_ToProto. rewrite Hl0, E1. orun. rewrite Hp. orun. rewrite Epv. orun.
  rewrite Hk, Hq, Nat.eqb_refl. cbn [negb]. rewrite SafeConvertInt32_int64 by (unfold_ints; lia).
  by rewrite bool_decide_eq_true_2.
Qed.

(** A state that can be stored: before the first block it has no last validators. *)
Record state_storable (s : State) : Prop := {
  ss_id : BlockID_ValidateBasic (LastBlockID s) = Ok tt;
  ss_vals : ∃ v, State_Validators s = Some v ∧ set_storable v;
  ss_initial : LastBlockHeight s = 0%Z ∧ (0 < InitialHeight s)%Z ∧
      State_LastValidators s = Some NewEmptyValidatorSet ∨
    (0 < InitialHeight s ≤ LastBlockHeight s)%Z ∧
      ∃ v, State_LastValidators s = Some v ∧ set_storable v;
  ss_params : in_int32 (Params_ConsensusVersion (State_Params s)) }.

(** A state survives being stored: the message made of a state whose validator sets are
    valid, with parsable addresses and distinct members, is decoded to the same state, before
    the first block and after it. *)
Lemma state_roundtrip s :
  state_storable s → ∃ pb, State_ToProto s = Ok pb ∧ StateFromProto pb = Ok s.
Proof.
  intros [Hid (v & Ev & Hv) Hi Hp]. destruct (set_roundtrip v Hv) as (p & E1 & E2 & _).
  pose proof (sst_valid _ Hv) as Hvalid. unfold State_ToProto. rewrite Ev, E1. orun.
  destruct Hi as [(Hh & Hpos & Hlast)|(Hh & lv & Elv & Hlv)].
  - rewrite Hh. cbn [Z.leb Z.compare]. orun. eexists. split; [done|]. unfold StateFromProto.
    cbn [PSt_LastBlockHeight PSt_InitialHeight PSt_LastBlockID PSt_Validators PSt_ConsensusParams].
    rewrite (BlockIDFromProto_valid _ Hid). cbn [wrap_err]. orun. rewrite E2. orun. rewrite Hvalid.
    destruct (Z.ltb_spec 0 (InitialHeight s)); [|lia]. orun. rewrite params_roundtrip by done.
    cbn. destruct s; cbn in *. by rewrite Ev, Hlast, Hh.
  - destruct (Z.leb_spec 1 (LastBlockHeight s)); [|lia]. rewrite Elv.
    destruct (set_roundtrip lv Hlv) as (lp & L1 & _ & L3). rewrite L1. orun. eexists. split; [done|].
    unfold StateFromProto.
    cbn [PSt_LastBlockHeight PSt_InitialHeight PSt_LastBlockID PSt_Validators PSt_LastValidators
         PSt_ConsensusParams].
    rewrite (BlockIDFromProto_valid _ Hid). cbn [wrap_err]. orun. rewrite E2. orun. rewrite Hvalid.
    destruct (Z.ltb_spec (LastBlockHeight s) (InitialHeight s)); [lia|]. orun. rewrite L3. orun.
    rewrite params_roundtrip by done. cbn. destruct s; cbn in *. by rewrite Ev, Elv.
Qed.



Lemma ValidateAndComplete_Ok now g g' :
  ValidateAndComplete now g = Ok g' →
  (0 < Gen_InitialHeight g')%Z ∧
  Gen_InitialHeight g' = (if (Gen_InitialHeight g =? 0)%Z then 1%Z else Gen_InitialHeight g) ∧
  ∃ p, Gen_ConsensusParams g' = Some p ∧ params_ok p.
Proof.
  unfold ValidateAndComplete. intros E. ok_inv; units; cbn [Gen_InitialHeight Gen_ConsensusParams];
    (split_and!; [destruct (Z.eqb_spec (Gen_InitialHeight g) 0); bools; lia|done|]);
    eexists; (split; [done|by apply ValidateConsensusParams_Ok]).
Qed.

(** The state of a genesis document: at height 0, with accepted parameters, well formed as
    soon as its validator set is, which is not checked here. *)
Lemma MakeGenesisState_ok now g s :
  MakeGenesisState now g = Ok s →
  LastBlockHeight s = 0%Z ∧ (0 < InitialHeight s)%Z ∧
  InitialHeight s = (if (Gen_InitialHeight g =? 0)%Z then 1%Z else Gen_InitialHeight g) ∧
  LastHeightValidatorsChanged s = InitialHeight s ∧
  LastHeightConsensusParamsChanged s = InitialHeight s ∧
  (valid_vals (State_Validators s) → state_ok s).
Proof.
  unfold MakeGenesisState. intros E. outcome_inv.
  match goal with H : ValidateAndComplete _ _ = Ok _ |- _ =>
    apply ValidateAndComplete_Ok in H as (Hi & Ei & p & Ep & Hp) end.
  match goal with H : Gen_ConsensusParams _ = Some _ |- _ => rewrite H in Ep; injection Ep as -> end.
  split_and!; try done. intros Hv. split; cbn in *; [done|by left|done|done|lia|unfold next_height; cbn; lia..].
Qed.


End conversions.

End smproto.
