(* ===== verification/Execution.v ===== *)
(** * internal/state: executing blocks

    Models [BlockExecutor] of [src/internal/state/execution.go], with the checks of
    [src/abci/types/types.go] on what the application answers and the filters of
    [tx_filter.go].  The components it calls through Go interfaces are type classes:
    the application ([ABCI]), the mempool, the evidence pool and the two stores.
    [Executor] is the interface consensus sees; [BlockExecutor_Executor] is the
    instance.

    A call that returns only an error is a bool: whether there was none.  Locks,
    metrics, events and logging are left out.  The hashes of
    [deterministicPrepareProposalHashes] only reach the log. *)
From Stdlib Require Import ZArith Lia Init.Byte.
From stdpp Require Import base numbers list.
From S2P Require Import Prelude.
From S2P Require Import StateM.
From S2P Require Import Merkle.
From S2P Require Import Types.
From S2P Require Import Crypto.
From S2P Require Import QuorumSign.
From S2P Require Import Proposal.
From S2P Require Import ValidatorSet.
From S2P Require Import Evidence.
From S2P Require Import Block.
From S2P Require Import Params.
From S2P Require Import Txs.
From S2P Require Import SmState.

Import statem types crypto quorum proposal valset evidence block params txs sm.

Module abci.

(** ** Requests and responses *)

Record CommitInfo := mkCommitInfo {
  CI_Round : Z; CI_QuorumHash : bytes; CI_BlockSignature : bytes;
  CI_ThresholdVoteExtensions : list (option VoteExtension) }.

Record RequestPrepareProposal := mkReqPP {
  RPP_MaxTxBytes : Z;
  RPP_Txs : list bytes;
  RPP_LocalLastCommit : CommitInfo;
  RPP_Misbehavior : list Misbehavior;
  RPP_Height : Z;
  RPP_Round : Z;
  RPP_Time : Z;
  RPP_NextValidatorsHash : bytes;
  RPP_CoreChainLockedHeight : Z;
  RPP_ProposerProTxHash : bytes;
  RPP_ProposedAppVersion : Z;
  RPP_Version : Consensus;
  RPP_QuorumHash : bytes }.

Record ResponsePrepareProposal := mkRespPP {
  Prep_TxRecords : list TxRecord;
  Prep_AppHash : option bytes;
  Prep_TxResults : list ExecTxResult;
  Prep_ParamUpdates : option ProtoParams;
  Prep_CoreChainLockUpdate : option CoreChainLock;
  Prep_ValidatorSetUpdate : option ValidatorSetUpdate;
  Prep_AppVersion : Z }.

Record RequestProcessProposal := mkReqProc {
  RProc_Hash : bytes;
  RProc_Height : Z;
  RProc_Round : Z;
  RProc_Time : Z;
  RProc_Txs : list bytes;
  RProc_ProposedLastCommit : CommitInfo;
  RProc_Misbehavior : list Misbehavior;
  RProc_NextValidatorsHash : bytes;
  RProc_ProposerProTxHash : bytes;
  RProc_CoreChainLockedHeight : Z;
  RProc_CoreChainLockUpdate : option CoreChainLock;
  RProc_ProposedAppVersion : Z;
  RProc_Version : Consensus;
  RProc_QuorumHash : bytes }.

Definition ResponseProcessProposal_UNKNOWN : Z := 0.
Definition ResponseProcessProposal_ACCEPT : Z := 1.
Definition ResponseProcessProposal_REJECT : Z := 2.

Record ResponseProcessProposal := mkRespProc {
  Proc_Status : Z;
  Proc_AppHash : option bytes;
  Proc_TxResults : list ExecTxResult;
  Proc_ParamUpdates : option ProtoParams;
  Proc_ValidatorSetUpdate : option ValidatorSetUpdate }.

Record RequestFinalizeBlock := mkReqFB {
  RFB_Commit : CommitInfo;
  RFB_Misbehavior : list Misbehavior;
  RFB_Hash : bytes;
  RFB_Height : Z;
  RFB_Round : Z;
  RFB_Block : ProtoBlock;
  RFB_BlockID : BlockID }.

Record ResponseFinalizeBlock := mkRespFB {
  RetainHeight : Z; FB_ProposeNextBlockImmediately : bool }.

Record ExtendVoteExtension := mkEVE {
  EVE_Type : Z; EVE_Extension : bytes; EVE_SignRequestId : option bytes }.

Record RequestExtendVote := mkReqEV { REV_Hash : bytes; REV_Height : Z; REV_Round : Z }.

Record RequestVerifyVoteExtension := mkReqVVE {
  RVVE_Hash : bytes; RVVE_Height : Z; RVVE_Round : Z; RVVE_ValidatorProTxHash : bytes;
  RVVE_VoteExtensions : list ExtendVoteExtension }.

Definition ResponseVerifyVoteExtension_ACCEPT : Z := 1.

(** Errors of a client; consensus tells [ErrClientStopped] apart. *)
Inductive client_error := ErrClientStopped | ErrClientOther.

(** ** Checks *)

Definition isValidApphash (apphash : option bytes) : bool :=
  length (slice apphash) =? DefaultAppHashSize.

Definition PrepareProposal_Validate (m : ResponsePrepareProposal) : bool :=
  isValidApphash (Prep_AppHash m) && negb (Prep_AppVersion m =? 0)%Z.

Definition ProcessProposal_Validate (r : ResponseProcessProposal) : bool :=
  isValidApphash (Proc_AppHash r).

Definition ToVoteExtension (m : ExtendVoteExtension) : VoteExtension :=
  mkVE (EVE_Type m) (EVE_Extension m) [] (EVE_SignRequestId m).

Fixpoint NewVoteExtensionsFromABCIExtended (exts : list ExtendVoteExtension) :
    outcome ext_error (list VoteExtensionIf) :=
  match exts with
  | [] => Ok []
  | ext :: exts =>
      let ve := ToVoteExtension ext in
      if (VE_Type ve =? DEFAULT)%Z then Err ErrExtensionNotSupported
      else
        added ← VoteExtensionFromProto ve;
        rest ← NewVoteExtensionsFromABCIExtended exts;
        Ok (added :: rest)
  end.

(** An empty request identifier is dropped. *)
Definition ToExtendProto (es : list VoteExtensionIf) : list ExtendVoteExtension :=
  map (λ e, let pb := vei_pb e in
            mkEVE (VE_Type pb) (VE_Extension pb)
              (if 0 <? length (slice (VE_SignRequestId pb)) then VE_SignRequestId pb else None)) es.

(** [RoundParams.ToProcessProposal]. *)
Definition ToProcessProposal (rp : RoundParams) : ResponseProcessProposal :=
  mkRespProc ResponseProcessProposal_ACCEPT (RP_AppHash rp) (RP_TxResults rp) (RP_ParamUpdates rp)
    (RP_ValidatorSetUpdate rp).

Definition CoreChainLockFromProto (clp : option CoreChainLock) :
    outcome chainlock_error (option CoreChainLock) :=
  match clp with None => Ok None | Some cl => _ ← CL_ValidateBasic cl; Ok (Some cl) end.

Definition RoundParamsFromPrepareProposal (resp : ResponsePrepareProposal) (round : Z) :
    outcome sm_error RoundParams :=
  ccl ← wrap_err ErrRoundChainLock (CoreChainLockFromProto (Prep_CoreChainLockUpdate resp));
  Ok (mkRP (Prep_AppHash resp) (Prep_TxResults resp) (Prep_ParamUpdates resp)
        (Prep_ValidatorSetUpdate resp) ccl PrepareProposalSource round).

Definition RoundParamsFromProcessProposal (resp : ResponseProcessProposal)
    (coreChainLock : option CoreChainLock) (round : Z) : RoundParams :=
  mkRP (Proc_AppHash resp) (Proc_TxResults resp) (Proc_ParamUpdates resp)
    (Proc_ValidatorSetUpdate resp) coreChainLock ProcessProposalSource round.

(** [buildLastCommitInfo]; [Commit.ToCommitInfo] has the same fields. *)
Definition ToCommitInfo (commit : Commit) : CommitInfo :=
  mkCommitInfo (Commit_Round commit) (Commit_QuorumHash commit)
    (Commit_ThresholdBlockSignature commit) (Commit_ThresholdVoteExtensions commit).

Definition buildLastCommitInfo {E} (b : Block) (initialHeight : Z) : outcome E CommitInfo :=
  if (H_Height (B_Header b) =? initialHeight)%Z then Ok (mkCommitInfo 0 [] [] [])
  else commit ← deref (B_LastCommit b); Ok (ToCommitInfo commit).

Definition validateExecTxResults (txResults : list ExecTxResult) (acceptedTxs : list bytes) : bool :=
  length txResults =? length acceptedTxs.

(** ** Filters of the mempool *)

Section filters.
Context `{StdTime}.

Definition ComputeProtoSizeForTxs (txs : list bytes) : Z :=
  Z.of_nat (length (marshal_Data (mkData txs))).

Definition PreCheckMaxBytes (maxBytes : Z) (tx : bytes) : bool :=
  negb (maxBytes <? ComputeProtoSizeForTxs [tx])%Z.

Definition PostCheckMaxGas (maxGas gasWanted : Z) : bool :=
  (maxGas =? -1)%Z || (negb (gasWanted <? 0)%Z && negb (maxGas <? gasWanted)%Z).

Definition TxPreCheckForState (s : State) (tx : bytes) : bool :=
  match MaxDataBytes (Params_MaxBytes (State_Params s)) None 0 with
  | Ok maxDataBytes => PreCheckMaxBytes maxDataBytes tx
  | _ => false
  end.

Definition TxPostCheckForState (s : State) (gasWanted : Z) : bool :=
  PostCheckMaxGas (BP_MaxGas (Params_Block (State_Params s))) gasWanted.

End filters.

End abci.

Import abci.

(** ** Interfaces *)

(** The errors of [sm.Executor].  [ErrInvalidBlock] wraps another error, and so do
    those that carry one. *)
Inductive exec_error :=
  | ErrBlockRejected
  | ErrInvalidBlock (e : exec_error)
  | ErrClient (e : client_error)
  | ErrState (e : sm_error)
  | ErrMaxData (e : block_error)
  | ErrTxRecords (e : txs.txrecord_error)
  | ErrTxResults
  | ErrBadResponse
  | ErrStatusUnknown
  | ErrAppHashSize
  | ErrEvidencePool
  | ErrMempool
  | ErrStateStore
  | ErrExtensionsInvalid (e : ext_error)
  | ErrExtensionsRejected
  | ErrVoteExtensionRejected.

(** [abciclient.Client]: an application that answers or fails. *)
Class ABCI := {
  AbciApp : Type;
  abci_PrepareProposal : AbciApp → RequestPrepareProposal →
    AbciApp * (ResponsePrepareProposal + client_error);
  abci_ProcessProposal : AbciApp → RequestProcessProposal →
    AbciApp * (ResponseProcessProposal + client_error);
  abci_FinalizeBlock : AbciApp → RequestFinalizeBlock →
    AbciApp * (ResponseFinalizeBlock + client_error);
  abci_ExtendVote : AbciApp → RequestExtendVote →
    AbciApp * (list ExtendVoteExtension + client_error);
  abci_VerifyVoteExtension : AbciApp → RequestVerifyVoteExtension →
    AbciApp * (Z + client_error) }.

(** [mempool.Mempool], what the executor calls of it. *)
Class Mempool := {
  Pool : Type;
  ReapMaxBytesMaxGas : Pool → Z → Z → list bytes;
  RemoveTxByKey : Pool → bytes → Pool;
  FlushAppConn : Pool → Pool * bool;
  Mempool_Update : Pool → Z → list bytes → list ExecTxResult → (bytes → bool) → (Z → bool) →
    bool → Pool * bool }.

Class EvidencePool := {
  EvPool : Type;
  PendingEvidence : EvPool → Z → EvPool * (list DuplicateVoteEvidence * Z);
  CheckEvidence : EvPool → list DuplicateVoteEvidence → EvPool * bool;
  EvPool_Update : EvPool → State → list DuplicateVoteEvidence → EvPool }.

(** [Store] and [BlockStore], what the executor calls of them. *)
Class Stores := {
  StateDB : Type;
  Store_Save : StateDB → State → StateDB * bool;
  SaveABCIResponses : StateDB → Z → ResponseProcessProposal → StateDB * bool;
  PruneStates : StateDB → Z → StateDB * bool;
  BlockDB : Type;
  BlockStore_Base : BlockDB → Z;
  PruneBlocks : BlockDB → Z → BlockDB * bool }.

(** [sm.Executor] as consensus calls it, without a proof of the last commit: the
    application may change with every call. *)
Class Executor := {
  App : Type;
  CreateProposalBlock : App → Z → Z → State → Commit → bytes → Z →
    App * outcome exec_error (option Block * CurrentRoundState);
  ProcessProposal : App → Block → Z → State → App * outcome exec_error CurrentRoundState;
  ValidateBlockWithRoundState : App → State → CurrentRoundState → option Block →
    App * outcome exec_error unit;
  FinalizeBlock : App → State → CurrentRoundState → BlockID → Block → Commit →
    App * outcome exec_error (State * bool);
  ExtendVote : App → Vote → App * outcome exec_error (list VoteExtensionIf);
  VerifyVoteExtension : App → Vote → App * outcome exec_error unit }.

Module execution.

Section executor.
Context `{Crypto} `{Dashd} `{StdTime} `{NetURL}.
Context `{ABCI} `{Mempool} `{EvidencePool} `{Stores}.

(** [be_proTxHash] is the hash the context carries.  [be_clock] are the readings of
    the clock still to come. *)
Record BlockExecutor := mkBE {
  be_store : StateDB;
  be_blockStore : BlockDB;
  be_app : AbciApp;
  be_mempool : Pool;
  be_evpool : EvPool;
  appHashSize : nat;
  be_cache : list bytes;
  be_proTxHash : bytes;
  be_clock : nat → Z;
  be_ticks : nat }.

Definition set_be_store (x : StateDB) (b : BlockExecutor) : BlockExecutor :=
  mkBE x (be_blockStore b) (be_app b) (be_mempool b) (be_evpool b) (appHashSize b) (be_cache b)
    (be_proTxHash b) (be_clock b) (be_ticks b).
Definition set_be_blockStore (x : BlockDB) (b : BlockExecutor) : BlockExecutor :=
  mkBE (be_store b) x (be_app b) (be_mempool b) (be_evpool b) (appHashSize b) (be_cache b)
    (be_proTxHash b) (be_clock b) (be_ticks b).
Definition set_be_app (x : AbciApp) (b : BlockExecutor) : BlockExecutor :=
  mkBE (be_store b) (be_blockStore b) x (be_mempool b) (be_evpool b) (appHashSize b) (be_cache b)
    (be_proTxHash b) (be_clock b) (be_ticks b).
Definition set_be_mempool (x : Pool) (b : BlockExecutor) : BlockExecutor :=
  mkBE (be_store b) (be_blockStore b) (be_app b) x (be_evpool b) (appHashSize b) (be_cache b)
    (be_proTxHash b) (be_clock b) (be_ticks b).
Definition set_be_evpool (x : EvPool) (b : BlockExecutor) : BlockExecutor :=
  mkBE (be_store b) (be_blockStore b) (be_app b) (be_mempool b) x (appHashSize b) (be_cache b)
    (be_proTxHash b) (be_clock b) (be_ticks b).
Definition set_be_cache (x : list bytes) (b : BlockExecutor) : BlockExecutor :=
  mkBE (be_store b) (be_blockStore b) (be_app b) (be_mempool b) (be_evpool b) (appHashSize b) x
    (be_proTxHash b) (be_clock b) (be_ticks b).
Definition set_be_ticks (x : nat) (b : BlockExecutor) : BlockExecutor :=
  mkBE (be_store b) (be_blockStore b) (be_app b) (be_mempool b) (be_evpool b) (appHashSize b)
    (be_cache b) (be_proTxHash b) (be_clock b) x.

Definition NewBlockExecutor (store : StateDB) (app : AbciApp) (pool : Pool) (evpool : EvPool)
    (blockStore : BlockDB) (proTxHash : bytes) (clock : nat → Z) : BlockExecutor :=
  mkBE store blockStore app pool evpool DefaultAppHashSize [] proTxHash clock 0.

Notation X := (M BlockExecutor exec_error).

Definition read_clock : X Z :=
  t ← gets (λ b, be_clock b (be_ticks b)); _ ← modify (λ b, set_be_ticks (S (be_ticks b)) b); mret t.

(** A call of the application. *)
Definition call {Req Resp} (f : AbciApp → Req → AbciApp * (Resp + client_error)) (req : Req) :
    X Resp := λ b,
  match f (be_app b) req with
  | (app, inl resp) => (set_be_app app b, Ok resp)
  | (app, inr e) => (set_be_app app b, Err (ErrClient e))
  end.

Definition with_store (f : StateDB → StateDB * bool) : X unit := λ b,
  let '(st, ok) := f (be_store b) in
  (set_be_store st b, if ok then Ok tt else Err ErrStateStore).

Definition with_mempool (f : Pool → Pool * bool) : X unit := λ b,
  let '(p, ok) := f (be_mempool b) in
  (set_be_mempool p b, if ok then Ok tt else Err ErrMempool).

Definition be_PendingEvidence (maxBytes : Z) : X (list DuplicateVoteEvidence * Z) := λ b,
  let '(p, ev) := PendingEvidence (be_evpool b) maxBytes in (set_be_evpool p b, Ok ev).

Definition be_CheckEvidence (evl : list DuplicateVoteEvidence) : X unit := λ b,
  let '(p, ok) := CheckEvidence (be_evpool b) evl in
  (set_be_evpool p b, if ok then Ok tt else Err ErrEvidencePool).

Definition quorum_hash (s : State) : X bytes :=
  vals ← lift (deref (State_Validators s)); mret (QuorumHash vals).

(** ** Proposing *)

(** [block.Version.App = ver]. *)
Definition set_appVersion (b : Block) (ver : Z) : Block :=
  let h := B_Header b in
  set_header b
    (mkHeader (mkVersion (Ver_Block (H_Version h)) ver) (H_ChainID h) (H_Height h)
       (H_CoreChainLockedHeight h) (H_Time h) (H_LastBlockID h) (H_LastCommitHash h) (H_DataHash h)
       (H_ValidatorsHash h) (H_NextValidatorsHash h) (H_ConsensusHash h) (H_NextConsensusHash h)
       (H_AppHash h) (H_ResultsHash h) (H_EvidenceHash h) (H_ProposerProTxHash h)
       (H_ProposedAppVersion h)).

Definition NewStateChangeset (s : State) (rp : RoundParams) : X CurrentRoundState :=
  proTxHash ← gets be_proTxHash; lift_err ErrState (NewCurrentRoundState proTxHash rp s).

Definition prepareRequest (s : State) (block : Block) (round maxDataBytes : Z) :
    X RequestPrepareProposal :=
  let h := B_Header block in
  info ← lift (buildLastCommitInfo block (InitialHeight s));
  misbehavior ← lift_panic (EvidenceList_ToABCI (B_Evidence block));
  quorumHash ← quorum_hash s;
  mret (mkReqPP maxDataBytes (Txs (B_Data block)) info misbehavior (H_Height h) round (H_Time h)
          (H_NextValidatorsHash h) (LastCoreChainLockedBlockHeight s) (H_ProposerProTxHash h)
          (H_ProposedAppVersion h) (H_Version h) quorumHash).

Definition remove_txs (txs : list bytes) : X unit :=
  modify (λ b, set_be_mempool (foldl (λ p tx, RemoveTxByKey p (Tx_Hash tx)) (be_mempool b) txs) b).

Definition be_CreateProposalBlock (height round : Z) (s : State) (commit : Commit)
    (proposerProTxHash : bytes) (proposedAppVersion : Z) : X (Block * CurrentRoundState) :=
  '(evidence, evSize) ← be_PendingEvidence (EP_MaxBytes (Params_Evidence (State_Params s)));
  maxDataBytes ← lift_err ErrMaxData
                   (MaxDataBytes (Params_MaxBytes (State_Params s)) (Some commit) evSize);
  txs ← gets (λ b, ReapMaxBytesMaxGas (be_mempool b) maxDataBytes
                     (BP_MaxGas (Params_Block (State_Params s))));
  now ← read_clock;
  block ← lift_panic (State_MakeBlock s height txs (Some commit) evidence proposerProTxHash
                        proposedAppVersion now);
  request ← prepareRequest s block round maxDataBytes;
  response ← call abci_PrepareProposal request;
  if negb (PrepareProposal_Validate response) then fail ErrBadResponse
  else
    let txrSet := NewTxRecordSet (Prep_TxRecords response) in
    _ ← lift_err ErrTxRecords (TxRecordSet_Validate txrSet maxDataBytes (Txs (B_Data block)));
    _ ← remove_txs (TRS_removed txrSet);
    let itxs := TRS_included txrSet in
    if negb (validateExecTxResults (Prep_TxResults response) itxs) then fail ErrTxResults
    else
      block ← lift_panic (SetTxs block itxs);
      let block := if (0 <? Prep_AppVersion response)%Z
                   then set_appVersion block (Prep_AppVersion response) else block in
      rp ← lift_err ErrState (RoundParamsFromPrepareProposal response round);
      changes ← NewStateChangeset s rp;
      block ← lift_err ErrState (UpdateBlock changes block);
      mret (block, changes).

(** ** Validating *)

(** [block.Hash()] completes the header of the block, which the caller sees: the
    block it leaves is returned. *)
Definition be_ValidateBlock (s : State) (block : option Block) (lastCommit : option commitProof) :
    X (option Block) :=
  '(block, hash) ← lift_panic (Block_Hash block);
  cache ← gets be_cache;
  if bool_decide (hash ∈ cache) then mret block
  else
    _ ← lift_err ErrState (validateBlock s block lastCommit);
    b ← lift (deref block);
    _ ← be_CheckEvidence (B_Evidence b);
    _ ← modify (λ e, set_be_cache (hash :: be_cache e) e);
    mret block.

Definition be_VerifyCommit (s : State) (blockID : BlockID) (height : Z) (commit : option Commit) :
    outcome commit_verify_error commitProof :=
  VerifyCommitSignatures (State_Validators s) (ChainID s) blockID height commit None.

Definition be_ValidateBlockWithRoundState (s : State) (uncommitted : CurrentRoundState)
    (block : option Block) (lastCommit : option commitProof) : X Block :=
  block ← be_ValidateBlock s block lastCommit;
  b ← lift (deref block);
  _ ← lift_err ErrState (checkRoundState s uncommitted b lastCommit);
  mret b.

(** ** Processing *)

Definition processRequest (s : State) (block : Block) (round : Z) : X RequestProcessProposal :=
  let h := B_Header block in
  hash ← lift_panic (Header_Hash (Some h));
  info ← lift (buildLastCommitInfo block (InitialHeight s));
  misbehavior ← lift_panic (EvidenceList_ToABCI (B_Evidence block));
  quorumHash ← quorum_hash s;
  mret (mkReqProc hash (H_Height h) round (H_Time h) (Txs (B_Data block)) info misbehavior
          (H_NextValidatorsHash h) (H_ProposerProTxHash h) (H_CoreChainLockedHeight h)
          (B_CoreChainLock block) (H_ProposedAppVersion h) (H_Version h) quorumHash).

(** [return stateChanges, ErrInvalidBlock{err}]. *)
Definition as_invalid {A} (m : X A) : X A := λ b,
  match m b with
  | (b, Err e) => (b, Err (ErrInvalidBlock e))
  | r => r
  end.

Definition be_ProcessProposal (block : Block) (round : Z) (s : State) (verify : bool)
    (lastCommit : option commitProof) : X CurrentRoundState :=
  request ← processRequest s block round;
  resp ← call abci_ProcessProposal request;
  if (Proc_Status resp =? ResponseProcessProposal_UNKNOWN)%Z then fail ErrStatusUnknown
  else if negb (Proc_Status resp =? ResponseProcessProposal_ACCEPT)%Z then fail ErrBlockRejected
  else if negb (ProcessProposal_Validate resp) then fail ErrBadResponse
  else if negb (validateExecTxResults (Proc_TxResults resp) (Txs (B_Data block)))
  then fail ErrTxResults
  else
    changes ← NewStateChangeset s
                (RoundParamsFromProcessProposal resp (B_CoreChainLock block) round);
    size ← gets appHashSize;
    if bool_decide (Proc_AppHash resp ≠ None) && negb (length (slice (Proc_AppHash resp)) =? size)
    then fail ErrAppHashSize
    else
      _ ← when verify (_ ← as_invalid (be_ValidateBlockWithRoundState s changes (Some block)
                                          lastCommit); mret tt);
      mret changes.

(** ** Finalizing *)

(** [block.BlockID(nil)] cuts the block into parts for their header. *)
Definition execBlock (block : Block) (commit : Commit) : X ResponseFinalizeBlock :=
  '(filled, hash) ← lift_panic (Block_Hash (Some block));
  block ← lift (deref filled);
  misbehavior ← lift_panic (EvidenceList_ToABCI (B_Evidence block));
  id ← lift_panic (Block_BlockID (Some block) None);
  call abci_FinalizeBlock
    (mkReqFB (ToCommitInfo commit) misbehavior hash (H_Height (B_Header block)) (Commit_Round commit)
       (Block_ToProto block) id).

Definition flushMempool (s : State) (block : Block) (txResults : list ExecTxResult) : X unit :=
  _ ← with_mempool FlushAppConn;
  with_mempool (λ p, Mempool_Update p (H_Height (B_Header block)) (Txs (B_Data block)) txResults
    (TxPreCheckForState s) (TxPostCheckForState s) (RecheckTx (Params_ABCI (State_Params s)))).

(** Failures are only logged. *)
Definition pruneBlocks (retainHeight : Z) : X unit := λ b,
  if (retainHeight <=? 0)%Z then (b, Ok tt)
  else if (retainHeight <=? BlockStore_Base (be_blockStore b))%Z then (b, Ok tt)
  else
    let '(bs, ok) := PruneBlocks (be_blockStore b) retainHeight in
    let b := set_be_blockStore bs b in
    if (ok : bool) then (set_be_store (PruneStates (be_store b) retainHeight).1 b, Ok tt)
    else (b, Ok tt).

Definition be_FinalizeBlock (s : State) (uncommitted : CurrentRoundState) (blockID : BlockID)
    (block : Block) (commit : Commit) (lastCommit : option commitProof) :
    X (State * ResponseFinalizeBlock) :=
  block ← as_invalid (be_ValidateBlockWithRoundState s uncommitted (Some block) lastCommit);
  let h := B_Header block in
  _ ← with_store (λ st, SaveABCIResponses st (H_Height h) (ToProcessProposal (CRS_Params uncommitted)));
  fbResp ← as_invalid (execBlock block commit);
  let s := State_Update s blockID h uncommitted in
  _ ← flushMempool s block (CRS_TxResults uncommitted);
  _ ← modify (λ b, set_be_evpool (EvPool_Update (be_evpool b) s (B_Evidence block)) b);
  _ ← with_store (λ st, Store_Save st s);
  _ ← pruneBlocks (RetainHeight fbResp);
  _ ← modify (set_be_cache []);
  mret (s, fbResp).

(** ** Vote extensions *)

Definition be_ExtendVote (vote : Vote) : X (list VoteExtensionIf) :=
  resp ← must (call abci_ExtendVote
                 (mkReqEV (BlockID_Hash (Vote_BlockID vote)) (Vote_Height vote) (Vote_Round vote)));
  lift_panic (NewVoteExtensionsFromABCIExtended resp).

Definition be_VerifyVoteExtension (vote : Vote) : X unit :=
  status ← must (call abci_VerifyVoteExtension
                   (mkReqVVE (BlockID_Hash (Vote_BlockID vote)) (Vote_Height vote) (Vote_Round vote)
                      (Vote_ValidatorProTxHash vote) (ToExtendProto (Vote_VoteExtensions vote))));
  if (status =? ResponseVerifyVoteExtension_ACCEPT)%Z then mret tt else fail ErrVoteExtensionRejected.

Definition VerifyCommitExtensions (commit : Commit) : X unit :=
  vote ← lift_err ErrExtensionsInvalid (GetCanonicalVote commit);
  r ← try (be_VerifyVoteExtension vote);
  match r with inl _ => mret tt | inr _ => fail ErrExtensionsRejected end.

Definition ApplyBlock (s : State) (blockID : BlockID) (block : Block) (commit : Commit)
    (lastCommit : option commitProof) : X State :=
  uncommitted ← be_ProcessProposal block (Commit_Round commit) s false lastCommit;
  _ ← VerifyCommitExtensions commit;
  '(s, _) ← be_FinalizeBlock s uncommitted blockID block commit lastCommit;
  mret s.

(** ** The interface of consensus *)

#[export] Instance BlockExecutor_Executor : Executor := {|
  App := BlockExecutor;
  CreateProposalBlock := λ b height round s commit proTxHash version,
    ('(block, crs) ← be_CreateProposalBlock height round s commit proTxHash version;
     mret (Some block, crs)) b;
  ProcessProposal := λ b block round s, be_ProcessProposal block round s true None b;
  ValidateBlockWithRoundState := λ b s crs block,
    (_ ← be_ValidateBlockWithRoundState s crs block None; mret tt) b;
  FinalizeBlock := λ b s crs id block commit,
    ('(s, resp) ← be_FinalizeBlock s crs id block commit None;
     mret (s, FB_ProposeNextBlockImmediately resp)) b;
  ExtendVote := λ b vote, be_ExtendVote vote b;
  VerifyVoteExtension := λ b vote, be_VerifyVoteExtension vote b |}.

End executor.

End execution.
