(* ===== verification/ExecutionThms.v ===== *)
(** * internal/state: what executing blocks guarantees

    The abstract chain is what a light client sees: [View] is the part of a state
    that headers determine, [light_step] the step from a header to the next, which the
    commit in the next block certifies.  A block the executor applies is a step of it
    ([ApplyBlock_step]), and the states stay valid.  The cache of validated blocks is keyed by the hash of the header;
    [cache_ok] says what a hit means. *)
From Stdlib Require Import ZArith Lia Init.Byte.
From stdpp Require Import base numbers list sets.
From S2P Require Import Prelude.
From S2P Require Import StateM.
From S2P Require Import Merkle.
From S2P Require Import PartSet.
From S2P Require Import Types.
From S2P Require Import Crypto.
From S2P Require Import QuorumSign.
From S2P Require Import Proposal.
From S2P Require Import ValidatorSet.
From S2P Require Import Evidence.
From S2P Require Import Block.
From S2P Require Import Params.
From S2P Require Import Txs.
From S2P Require Import SmState.
From S2P Require Import SmStateThms.
From S2P Require Import Execution.

Import statem types crypto quorum proposal valset evidence block params txs sm smthms abci execution.

Module execthms.

Section thms.
Context `{Crypto} `{Dashd} `{StdTime} `{NetURL}.
Context `{ABCI} `{Mempool} `{EvidencePool} `{Stores}.

(** ** The chain of certified headers *)

(** What a light client knows of a chain; [v_last] are the validators of the last header. *)
Record View := mkView {
  v_chain : bytes;
  v_initial : Z;
  v_height : Z;
  v_id : BlockID;
  v_time : Z;
  v_last : option ValidatorSet;
  v_validators : bytes;
  v_params : bytes;
  v_core : Z;
  v_app : bytes;
  v_results : bytes }.

(** The client goes on to a header with a set of validators that the hash in the header names,
    and with a commit in which the validators of the last header sign the id of that header. *)
Record light_step (v : View) (vals : ValidatorSet) (id : BlockID) (h : Header) (lastCommit : option Commit)
    (v' : View) : Prop := {
  ls_chain : H_ChainID h = v_chain v;
  ls_height : H_Height h = (if v_height v =? 0 then v_initial v else v_height v + 1)%Z;
  ls_last : H_LastBlockID h = v_id v;
  ls_announced : H_ValidatorsHash h = v_validators v;
  ls_set : vals_Hash (Some vals) = Ok (H_ValidatorsHash h);
  ls_params : H_ConsensusHash h = v_params v;
  ls_time : (if v_height v =? 0 then v_time v ≤ H_Time h else v_time v < H_Time h)%Z;
  ls_core : (v_core v ≤ H_CoreChainLockedHeight h)%Z;
  ls_certified : v_height v ≠ 0%Z → ∃ last commit, v_last v = Some last ∧ lastCommit = Some commit ∧
    commit_valid last (v_chain v) (v_id v) (v_height v) commit;
  ls_next : v' = mkView (v_chain v) (v_initial v) (H_Height h) id (H_Time h) (Some vals)
    (H_NextValidatorsHash h) (H_NextConsensusHash h) (H_CoreChainLockedHeight h) (H_AppHash h) (H_ResultsHash h) }.

Definition view_of (s : State) : View :=
  mkView (ChainID s) (InitialHeight s) (LastBlockHeight s) (LastBlockID s) (LastBlockTime s)
    (State_LastValidators s) (match vals_Hash (State_Validators s) with Ok h => h | _ => [] end)
    (HashConsensusParams (State_Params s)) (LastCoreChainLockedBlockHeight s) (LastAppHash s)
    (LastResultsHash s).

(** A proof of a verification is made by a verification that succeeded, of any commit. *)
Definition minted (p : option commitProof) : Prop :=
  ∀ pr, p = Some pr → ∃ vals chainID blockID height commit b,
    VerifyCommitSignatures (Some vals) chainID blockID height (Some commit) b = Ok pr.

(** With or without such a proof, the last commit is one of the last validators. *)
Lemma last_commit_iff s b commit vals lc :
  B_LastCommit b = Some commit → State_LastValidators s = Some vals → minted lc →
  verifyLastCommit s b lc = Ok tt ↔
  commit_valid vals (ChainID s) (LastBlockID s) (int64 (H_Height (B_Header b) - 1)) commit.
Proof.
  intros Hc Hv Hm. unfold verifyLastCommit. rewrite Hc, Hv. cbn [deref mbind outcome_bind].
  rewrite <- verifyCommit_Ok. split.
  - intros E. apply bind_Ok in E as (skipped & E%wrap_err_Ok & _). by eapply commit_skip_sound.
  - intros E. assert (∃ skipped, VerifyCommitUnlessVerified vals (ChainID s) (LastBlockID s)
      (int64 (H_Height (B_Header b) - 1)) commit lc = Ok skipped) as [skipped ->]; [|done].
    unfold VerifyCommitUnlessVerified. destruct lc as [p|]; cbn [proof_matches mbind outcome_bind]; [|by rewrite E; eexists].
    destruct (_ || _); cbn [mbind outcome_bind]; [by rewrite E; eexists|].
    pose proof E as E'. unfold verifyCommit, verifyCommitReportingSigns in E'.
    apply bind_Ok in E' as (r & E' & _). apply bind_Ok in E' as (q & -> & E'). apply bind_Ok in E' as (signs & -> & _).
    cbn [mbind outcome_bind]. destruct (signedContent q signs) as [hs sigs]. cbn.
    destruct (_ && _); [by eexists|]. rewrite E. by eexists.
Qed.

(** ** The cache *)

Context (U : bytes → Prop).

(** A header of a block that was sent: its fields have Go's widths, its time has an
    encoding, and what is hashed for it is among the strings [U]. *)
Definition go_header (h : Header) : Prop :=
  header_ints h ∧ (∃ t, StdTimeMarshal (H_Time h) = Some t) ∧ Forall U (header_inputs h).

(** A complete block: [Hash] has nothing to fill in. *)
Definition go_block (b : Block) : Prop := fillHeader b = Ok b ∧ go_header (B_Header b).

Definition cached (s : State) (hash : bytes) : Prop :=
  hash ≠ [] ∧ ∃ h, go_header h ∧ Header_Hash (Some h) = Ok hash ∧ header_follows s h.

Definition cache_ok (s : State) (e : BlockExecutor) : Prop :=
  ∀ hash, hash ∈ be_cache e → cached s hash.

(** Everything but the cache and the evidence pool. *)
Definition same_rest (e e' : BlockExecutor) : Prop :=
  be_store e' = be_store e ∧ be_blockStore e' = be_blockStore e ∧ be_app e' = be_app e ∧
  be_mempool e' = be_mempool e.

Lemma header_follows_hashed s h1 h2 :
  hashed_part h1 = hashed_part h2 → header_follows s h1 → header_follows s h2.
Proof.
  intros E []. destruct h1, h2. unfold hashed_part, set_hashes, set_core_height in E. cbn in *.
  injection E as. subst. by split.
Qed.

Lemma validateBlock_follows s b lc :
  validateBlock s (Some b) lc = Ok tt → header_follows s (B_Header b) ∧ B_LastCommit b ≠ None.
Proof.
  rewrite block_follows_iff. intros [Hb Hf _ _]. split; [done|].
  apply Block_ValidateBasic_Ok in Hb as (c & ev & -> & _). done.
Qed.

Section hashes.
Hypothesis sha_len : ∀ b, length (sha256 b) = 32.
Hypothesis time_law : std_time_law.
Hypothesis U_inj : ∀ x y, U x → U y → sha256 x = sha256 y → x = y.

Lemma go_header_hash_inj h1 h2 hash :
  go_header h1 → go_header h2 → hash ≠ [] →
  Header_Hash (Some h1) = Ok hash → Header_Hash (Some h2) = Ok hash →
  hashed_part h1 = hashed_part h2.
Proof using sha_len time_law U_inj.
  intros (I1 & _ & F1) (I2 & _ & F2) Hne E1 E2.
  eapply (header_hash_inj sha_len time_law); [exact I1|exact I2|exact Hne|exact E1|exact E2|].
  rewrite Forall_forall in F1, F2. intros x y Hx Hy. rewrite elem_of_app in Hx, Hy.
  apply U_inj; naive_solver.
Qed.

Lemma valid_vals_hash vals h :
  valid_vals vals → vals_Hash vals = Ok h → length h = 32.
Proof using sha_len.
  intros (v & -> & Hv) E. unfold vals_Hash in E. apply wrap_err_Ok in E. unfold valset_Hash in E.
  unfold valset_ValidateBasic, QuorumHashValid, thresholdPublicKeyValid in Hv. ok_inv. bools.
  destruct (ThresholdPublicKey v) as [pk|]; [|done].
  match goal with H : length (QuorumHash v) = _ |- _ => rewrite H in E end.
  cbn [Nat.eqb DefaultHashSize] in E. eapply (root_32 sha_len); [|exact E]. cbn. unfold_ints. lia.
Qed.

Lemma follows_hash_ne s h hash :
  state_ok s → go_header h → header_follows s h → Header_Hash (Some h) = Ok hash → hash ≠ [].
Proof using sha_len.
  intros Hs (_ & (t & Ht) & _) Hf E ->.
  pose proof (valid_vals_hash _ _ (so_vals _ Hs) (hf_validators _ _ Hf)) as Hl.
  unfold Header_Hash in E. rewrite Hl in E. cbn [Nat.eqb] in E.
  unfold header_items in E. rewrite Ht in E. cbn [mbind option_bind] in E.
  apply (root_32 sha_len) in E; [done|]. cbn. unfold_ints. lia.
Qed.

Lemma go_block_hash b ob hash :
  go_block b → Block_Hash (Some b) = Ok (ob, hash) →
  ob = Some b ∧ (hash = [] ∨ Header_Hash (Some (B_Header b)) = Ok hash) ∧
  (B_LastCommit b ≠ None → Header_Hash (Some (B_Header b)) = Ok hash).
Proof.
  intros [Hf _] E. unfold Block_Hash in E. destruct (B_LastCommit b) as [c|]; [|naive_solver].
  rewrite Hf in E. cbn [mbind outcome_bind] in E. apply bind_Ok in E as (h & Hh & [= <- <-]).
  naive_solver.
Qed.

Lemma be_CheckEvidence_rest evl e e' u :
  be_CheckEvidence evl e = (e', Ok u) → same_rest e e' ∧ be_cache e' = be_cache e.
Proof.
  unfold be_CheckEvidence. destruct (CheckEvidence _ _) as [p ok]. destruct ok; [|done].
  intros [= <- _]. done.
Qed.

(** A block that [ValidateBlock] accepts, through the cache or not, has a header that
    follows the state. *)
Lemma be_ValidateBlock_spec s b lc e e' ob :
  state_ok s → go_block b → cache_ok s e →
  be_ValidateBlock s (Some b) lc e = (e', Ok ob) →
  ob = Some b ∧ header_follows s (B_Header b) ∧ cache_ok s e' ∧ same_rest e e'.
Proof using sha_len time_law U_inj.
  intros Hs Hg Hc E. unfold be_ValidateBlock in E. apply run_bind in E as (e1 & [ob1 hash] & E1 & E).
  apply run_lift_panic in E1 as [-> Eh]. destruct (go_block_hash _ _ _ Hg Eh) as (-> & Hh & Hh').
  apply run_bind in E as (e1 & cache & E1 & E). apply run_gets in E1 as [-> ->].
  destruct (bool_decide (hash ∈ be_cache e)) eqn:Ec; bools.
  - apply run_ret in E as [-> ->]. destruct (Hc _ Ec) as (Hne & h & Gh & Eh' & Hf).
    split; [done|]. split; [|split; [done|by repeat split]].
    destruct Hh as [->|Hh]; [done|]. eapply header_follows_hashed; [|exact Hf].
    eapply go_header_hash_inj; [exact Gh|apply Hg|exact Hne|exact Eh'|exact Hh].
  - apply run_bind in E as (e1 & [] & E1 & E). apply run_lift_err in E1 as [-> Hv].
    apply run_bind in E as (e1 & b' & E1 & E). apply run_lift in E1 as [-> [= <-]%deref_Ok].
    apply run_bind in E as (e2 & [] & [Hr Hca]%be_CheckEvidence_rest & E).
    apply run_bind in E as (e3 & [] & ->%run_modify & E). apply run_ret in E as [-> ->].
    apply validateBlock_follows in Hv as (Hf & Hne').
    split; [done|]. split; [done|]. split; [|by destruct Hr as (? & ? & ? & ?)].
    intros h. cbn. rewrite Hca. intros [->|Hin]%elem_of_cons; [|by apply Hc].
    specialize (Hh' Hne'). split; [by eapply follows_hash_ne; [| |exact Hf|]; [|apply Hg|]|].
    exists (B_Header b). split; [apply Hg|done].
Qed.

Lemma be_ValidateBlockWithRoundState_spec s c b lc e e' b' :
  state_ok s → go_block b → cache_ok s e →
  be_ValidateBlockWithRoundState s c (Some b) lc e = (e', Ok b') →
  b' = b ∧ header_follows s (B_Header b) ∧ checkRoundState s c b lc = Ok tt ∧ cache_ok s e' ∧
  same_rest e e'.
Proof using sha_len time_law U_inj.
  intros Hs Hg Hc E. unfold be_ValidateBlockWithRoundState in E.
  apply run_bind in E as (e1 & ob & E1 & E).
  destruct (be_ValidateBlock_spec _ _ _ _ _ _ Hs Hg Hc E1) as (-> & Hf & Hc' & Hr).
  run_inv. outcome_inv. simplify_eq. units. done.
Qed.

(** ** Finalizing *)

Lemma as_invalid_Ok {A} (m : M BlockExecutor exec_error A) e e' a :
  as_invalid m e = (e', Ok a) ↔ m e = (e', Ok a).
Proof. unfold as_invalid. destruct (m e) as [? [?|?|]]; naive_solver. Qed.

Lemma call_cache {Req Resp} (f : AbciApp → Req → AbciApp * (Resp + client_error)) req e e' r :
  call f req e = (e', Ok r) →
  be_cache e' = be_cache e ∧ be_store e' = be_store e ∧ be_blockStore e' = be_blockStore e ∧
  be_mempool e' = be_mempool e ∧ be_evpool e' = be_evpool e ∧ appHashSize e' = appHashSize e.
Proof. unfold call. destruct (f _ _) as [app [x|err]]; [|done]. intros [= <- _]. done. Qed.

(** What [FinalizeBlock] returns: the state the block leads to, with an empty cache. *)
Lemma be_FinalizeBlock_spec s c id b commit lc e e' s' resp :
  state_ok s → go_block b → cache_ok s e →
  be_FinalizeBlock s c id b commit lc e = (e', Ok (s', resp)) →
  s' = State_Update s id (B_Header b) c ∧ header_follows s (B_Header b) ∧
  checkRoundState s c b lc = Ok tt ∧ be_cache e' = [].
Proof using sha_len time_law U_inj.
  intros Hs Hg Hc E. unfold be_FinalizeBlock in E. apply run_bind in E as (e1 & b' & E1 & E).
  rewrite as_invalid_Ok in E1.
  destruct (be_ValidateBlockWithRoundState_spec _ _ _ _ _ _ _ Hs Hg Hc E1) as (-> & Hf & Hr & _).
  run_inv. simplify_eq. done.
Qed.

(** C8: the state that [FinalizeBlock] returns is well formed: from a state with
    positive heights, accepted parameters, validated validator sets and change heights
    that have been reached, and changes that the application made to it, finalizing a
    block leads to such a state one height up, whose last validators are the validators
    of the block. *)
Theorem FinalizeBlock_type s rp c id b commit lc e e' s' resp :
  state_ok s → changes_of rp s c → go_block b → cache_ok s e → (next_height s < MaxInt64)%Z →
  be_FinalizeBlock s c id b commit lc e = (e', Ok (s', resp)) →
  state_ok s' ∧ next_height s' = (next_height s + 1)%Z ∧ LastBlockHeight s' = next_height s ∧
  State_LastValidators s' = State_Validators s.
Proof using sha_len time_law U_inj.
  intros Hs Hch Hg Hc Hm E.
  destruct (be_FinalizeBlock_spec _ _ _ _ _ _ _ _ _ _ Hs Hg Hc E) as (-> & Hf & _).
  destruct (header_next_height _ _ Hs Hf) as [Hn _].
  destruct (Update_ok s id (B_Header b) rp c Hs Hch Hf ltac:(lia)) as [Hs' Hn']. done.
Qed.

(** ** Applying *)

Lemma be_ProcessProposal_changes b round s lc e e' c :
  be_ProcessProposal b round s false lc e = (e', Ok c) →
  ∃ rp, changes_of rp s c ∧ RP_CoreChainLock rp = B_CoreChainLock b ∧ RP_Round rp = round ∧
    length (slice (RP_AppHash rp)) = 32 ∧ be_cache e' = be_cache e.
Proof.
  intros E. unfold be_ProcessProposal, processRequest, quorum_hash, NewStateChangeset in E. run_inv.
  match goal with H : call _ _ _ = _ |- _ => apply call_cache in H as (Hca & _) end.
  match goal with H : NewCurrentRoundState _ _ _ = _ |- _ => apply NewCurrentRoundState_spec in H as Hch end.
  match goal with H : when false _ _ = _ |- _ => apply run_ret in H as [-> _] end.
  unfold ProcessProposal_Validate, isValidApphash in *. eexists. split; [exact Hch|]. cbn.
  bools; split_and!; done.
Qed.

Lemma be_VerifyVoteExtension_cache vote e e' u :
  be_VerifyVoteExtension vote e = (e', Ok u) → be_cache e' = be_cache e.
Proof.
  intros E. unfold be_VerifyVoteExtension in E. apply run_bind in E as (e1 & r & E1 & E).
  rewrite run_must in E1. apply call_cache in E1 as (<- & _). destruct (_ =? _)%Z; [|done].
  by apply run_ret in E as [-> _].
Qed.

Lemma VerifyCommitExtensions_cache commit e e' u :
  VerifyCommitExtensions commit e = (e', Ok u) → be_cache e' = be_cache e.
Proof.
  intros E. unfold VerifyCommitExtensions in E. run_inv.
  match goal with H : try _ _ = _ |- _ => apply run_try in H as (o & Ho & Hr) end.
  destruct x2; [|done]. apply run_ret in E as [-> _]. subst o.
  by eapply be_VerifyVoteExtension_cache.
Qed.

Lemma ApplyBlock_inv s id b commit lc e e' s' :
  state_ok s → go_block b → cache_ok s e → ApplyBlock s id b commit lc e = (e', Ok s') →
  ∃ rp c, changes_of rp s c ∧ RP_CoreChainLock rp = B_CoreChainLock b ∧
    length (slice (RP_AppHash rp)) = 32 ∧ s' = State_Update s id (B_Header b) c ∧
    header_follows s (B_Header b) ∧ checkRoundState s c b lc = Ok tt ∧ be_cache e' = [].
Proof using sha_len time_law U_inj.
  intros Hs Hg Hc E. unfold ApplyBlock in E. apply run_bind in E as (e1 & c & E1 & E).
  apply be_ProcessProposal_changes in E1 as (rp & Hch & Hcl & _ & Ha & C1).
  apply run_bind in E as (e2 & u & C2%VerifyCommitExtensions_cache & E).
  apply run_bind in E as (e3 & [s2 resp] & E3 & E). apply run_ret in E as [-> ->].
  assert (cache_ok s e2) as Hc2 by (intros h; rewrite C2, C1; apply Hc).
  destruct (be_FinalizeBlock_spec _ _ _ _ _ _ _ _ _ _ Hs Hg Hc2 E3) as (-> & Hf & Hr & C3).
  by exists rp, c.
Qed.

Lemma checkRoundState_Ok s c b lc :
  checkRoundState s c b lc = Ok tt →
  (CRS_AppHash c ≠ None → H_AppHash (B_Header b) = slice (CRS_AppHash c)) ∧
  (CRS_ResultsHash c ≠ None → H_ResultsHash (B_Header b) = slice (CRS_ResultsHash c)) ∧
  ((InitialHeight s < H_Height (B_Header b))%Z → verifyLastCommit s b lc = Ok tt) ∧
  vals_Hash (CRS_NextValidators c) = Ok (H_NextValidatorsHash (B_Header b)) ∧
  HashConsensusParams (CRS_NextParams c) = H_NextConsensusHash (B_Header b) ∧
  validateCoreChainLock b s = Ok tt.
Proof.
  unfold checkRoundState. intros E. apply guard_Ok in E as [Ga E]. apply guard_Ok in E as [Gr E].
  apply bind_Ok in E as ([] & Hc & E). apply bind_Ok in E as (nh & Hn & E).
  do 2 (apply guard_Ok in E as [? E]). apply andb_false_iff in Ga, Gr.
  rewrite bool_decide_eq_false, negb_false_iff, bool_decide_eq_true in Ga, Gr.
  bools. split_and!; try done; try tauto; try congruence.
  intros Hh. by rewrite (proj2 (Z.ltb_lt _ _) Hh) in Hc.
Qed.

(** The height a chain is locked at after a block is the one of its header. *)
Lemma core_height_next s rp c b :
  changes_of rp s c → RP_CoreChainLock rp = B_CoreChainLock b →
  validateCoreChainLock b s = Ok tt →
  LastCoreChainLockedBlockHeight (State_Update s (LastBlockID s) (B_Header b) c) =
    H_CoreChainLockedHeight (B_Header b) ∧
  (LastCoreChainLockedBlockHeight s ≤ H_CoreChainLockedHeight (B_Header b))%Z.
Proof.
  intros Hc Hl Hv. cbn. rewrite (ch_lock _ _ _ Hc), Hl. unfold validateCoreChainLock in Hv.
  destruct (B_CoreChainLock b) as [cl|]; ok_inv; bools; [|lia].
  destruct (Z.leb_spec (CL_Height cl) (LastCoreChainLockedBlockHeight s)); lia.
Qed.

(** The commit in a block that follows another one. *)
Lemma certified s b lc :
  state_ok s → minted lc → H_Height (B_Header b) = next_height s → LastBlockHeight s ≠ 0%Z →
  ((InitialHeight s < H_Height (B_Header b))%Z → verifyLastCommit s b lc = Ok tt) →
  ∃ last commit, State_LastValidators s = Some last ∧ B_LastCommit b = Some commit ∧
    commit_valid last (ChainID s) (LastBlockID s) (LastBlockHeight s) commit.
Proof.
  intros Hs Hm Hh Hz Hv. unfold next_height in Hh. rewrite (proj2 (Z.eqb_neq _ _) Hz) in Hh.
  destruct (so_height _ Hs) as [?|Hr]; [done|]. pose proof (so_initial _ Hs).
  destruct (so_last_vals _ Hs) as (last & El & _); [lia|]. specialize (Hv ltac:(lia)).
  destruct (B_LastCommit b) as [commit|] eqn:Ec; [|unfold verifyLastCommit in Hv; by rewrite Ec in Hv].
  exists last, commit. split_and!; [done|done|]. apply (last_commit_iff s b commit last lc Ec El Hm) in Hv.
  rewrite Hh, int64_id in Hv by (unfold_ints; lia). by replace (LastBlockHeight s + 1 - 1)%Z with (LastBlockHeight s) in Hv by lia.
Qed.

(** One block is one step of the chain of headers, and the state stays valid. *)
Lemma ApplyBlock_step s id b commit lc e e' s' :
  state_ok s → go_block b → cache_ok s e → minted lc → (next_height s < MaxInt64)%Z →
  ApplyBlock s id b commit lc e = (e', Ok s') →
  (∃ vals, light_step (view_of s) vals id (B_Header b) (B_LastCommit b) (view_of s')) ∧ state_ok s' ∧
  cache_ok s' e' ∧ next_height s' = (next_height s + 1)%Z.
Proof using sha_len time_law U_inj.
  intros Hs Hg Hc Hlc Hm E.
  destruct (ApplyBlock_inv _ _ _ _ _ _ _ _ Hs Hg Hc E) as (rp & c & Hch & Hl & Ha & -> & Hf & Hr & He).
  destruct (header_next_height _ _ Hs Hf) as [Hn Hp].
  destruct (Update_ok s id (B_Header b) rp c Hs Hch Hf ltac:(lia)) as [Hs' Hn'].
  split; [|split; [done|split; [|done]]]; [|intros h; rewrite He; set_solver].
  destruct (checkRoundState_Ok _ _ _ _ Hr) as (Ra & Rr & Rl & Rv & Rp & Rc).
  destruct (core_height_next _ _ _ _ Hch Hl Rc) as [Hcore Hle]. cbn in Hcore.
  destruct (ch_results _ _ _ Hch) as (rh & _ & Eres). specialize (Rr ltac:(by rewrite Eres)).
  specialize (Ra ltac:(rewrite (ch_app _ _ _ Hch); intros En; by rewrite En in Ha)).
  destruct (so_vals _ Hs) as (vals & Ev & _). exists vals.
  pose proof (certified s b lc Hs Hlc Hn) as Hcert.
  destruct Hf as [_ Hf1 _ _ Hf4 Hf5 Hf6 _ _ Hf9]. split; cbn; try done.
  - by rewrite Hf6.
  - rewrite Ev in Hf6. exact Hf6.
  - unfold next_height in Hn. pose proof (so_initial _ Hs). destruct (so_height _ Hs), (Z.eqb_spec (LastBlockHeight s) 0); lia.
  - intros Hz. by apply Hcert.
  - unfold view_of. cbn. by rewrite Rv, Rp, Hcore, Ra, Rr, Ev.
Qed.

(** ** Runs *)

(** Blocks applied one after the other, as block sync does. *)
Fixpoint apply_blocks (s : State) (l : list (BlockID * Block * Commit * option commitProof)) :
    M BlockExecutor exec_error State :=
  match l with
  | [] => mret s
  | (id, b, commit, lc) :: l => s ← ApplyBlock s id b commit lc; apply_blocks s l
  end.

(** The client is given the id, the header and the last commit of each block. *)
Inductive light_run : View → list (BlockID * Block * Commit * option commitProof) → View → Prop :=
  | lr_nil v : light_run v [] v
  | lr_cons v vals id b commit lc v1 l v2 :
      light_step v vals id (B_Header b) (B_LastCommit b) v1 → light_run v1 l v2 →
      light_run v ((id, b, commit, lc) :: l) v2.

(** C5: the block executor implements the chain of certified headers: from a valid state, every
    sequence of blocks that it applies is a run of a light client (consecutive heights, each
    header naming the block, the validators and the parameters that the one before it
    announced, later times, core heights that do not decrease, and in every block after the
    first one a commit whose threshold signatures, of the validators of the block before it,
    verify for the id under which that block was applied), and ends in a valid state with the
    view that the last header gives.  Neither proofs that spare a verification, when they come
    from a verification, nor hits of the cache of validated blocks, which is keyed by the hash
    of the header, change that, as long as there are no collisions among the strings that are
    hashed for headers. *)
Theorem apply_blocks_refines s l e e' s' :
  state_ok s → cache_ok s e → Forall (λ x, go_block x.1.1.2 ∧ minted x.2) l →
  (next_height s + Z.of_nat (length l) ≤ MaxInt64)%Z →
  apply_blocks s l e = (e', Ok s') →
  light_run (view_of s) l (view_of s') ∧ state_ok s' ∧
  next_height s' = (next_height s + Z.of_nat (length l))%Z.
Proof using sha_len time_law U_inj.
  revert s e. induction l as [|[[[id b] commit] lc] l IH]; intros s e Hs Hc Hg Hm E; cbn in *.
  - apply run_ret in E as [-> ->]. split_and!; [constructor|done|lia].
  - apply Forall_cons in Hg as [[Hb Hlc] Hg]. apply run_bind in E as (e1 & s1 & E1 & E).
    destruct (ApplyBlock_step s id b commit lc _ _ _ Hs Hb Hc Hlc ltac:(lia) E1) as ([vals Hl] & Hs1 & Hc1 & Hn).
    destruct (IH s1 e1) as (L & K & N); [done..|lia|done|].
    split_and!; [by econstructor|done|lia].
Qed.

(** ** Refused blocks *)

(** What a node keeps of its chain. *)
Definition kept (e : BlockExecutor) : StateDB * BlockDB * Pool * EvPool :=
  (be_store e, be_blockStore e, be_mempool e, be_evpool e).

Definition keeps {A} (m : M BlockExecutor exec_error A) : Prop :=
  ∀ e, kept (m e).1 = kept e.

Lemma frame_bind {A B} (m : M BlockExecutor exec_error A) (f : A → M BlockExecutor exec_error B) :
  keeps m → (∀ a, keeps (f a)) → keeps (m ≫= f).
Proof.
  intros Hm Hf e. specialize (Hm e). unfold mbind, M_bind.
  destruct (m e) as [e1 [a|x|]]; cbn in *; [by rewrite Hf|done..].
Qed.

Lemma frame_pure {A} (r : BlockExecutor → outcome exec_error A) : keeps (λ e, (e, r e)).
Proof. done. Qed.

Lemma frame_call {Req Resp} (f : AbciApp → Req → AbciApp * (Resp + client_error)) req :
  keeps (call f req).
Proof. intros e. unfold call. by destruct (f _ _) as [app [x|y]]. Qed.

Lemma frame_modify f : (∀ e, kept (f e) = kept e) → keeps (modify f).
Proof. done. Qed.

Lemma frame_as_invalid {A} (m : M BlockExecutor exec_error A) : keeps m → keeps (as_invalid m).
Proof. intros Hm e. specialize (Hm e). unfold as_invalid. by destruct (m e) as [? [?|?|]]. Qed.

Lemma frame_try {A} (m : M BlockExecutor exec_error A) : keeps m → keeps (try m).
Proof. intros Hm e. specialize (Hm e). unfold try. by destruct (m e) as [? [?|?|]]. Qed.

Lemma frame_must {A} (m : M BlockExecutor exec_error A) : keeps m → keeps (must m).
Proof. intros Hm e. specialize (Hm e). unfold must. by destruct (m e) as [? [?|?|]]. Qed.

Lemma frame_if {A} (b : bool) (m m' : M BlockExecutor exec_error A) :
  keeps m → keeps m' → keeps (if b then m else m').
Proof. by destruct b. Qed.

Ltac keeps :=
  repeat match goal with
  | |- keeps (_ ≫= _) => apply frame_bind; [|intros ?]
  | |- keeps (call _ _) => apply frame_call
  | |- keeps (as_invalid _) => apply frame_as_invalid
  | |- keeps (try _) => apply frame_try
  | |- keeps (must _) => apply frame_must
  | |- keeps (modify _) => by apply frame_modify
  | |- keeps (if _ then _ else _) => apply frame_if
  | |- keeps (when ?b _) => destruct b; unfold when
  | |- keeps (match ?p with _ => _ end) => destruct p
  | |- keeps _ => apply frame_pure
  end.

Lemma keeps_ProcessProposal b round s lc : keeps (be_ProcessProposal b round s false lc).
Proof. unfold be_ProcessProposal, processRequest, quorum_hash, NewStateChangeset. cbn [when]. keeps. Qed.

Lemma keeps_VerifyCommitExtensions commit : keeps (VerifyCommitExtensions commit).
Proof. unfold VerifyCommitExtensions, be_VerifyVoteExtension. keeps. Qed.

(** The evidence pool as it was, or after it checked the evidence of a block. *)
Definition pool_checked (evl : list DuplicateVoteEvidence) (p p' : EvPool) : Prop :=
  p' = p ∨ p' = (CheckEvidence p evl).1.

(** Nothing changed but that. *)
Definition untouched (evl : list DuplicateVoteEvidence) (e e' : BlockExecutor) : Prop :=
  be_store e' = be_store e ∧ be_blockStore e' = be_blockStore e ∧ be_mempool e' = be_mempool e ∧
  pool_checked evl (be_evpool e) (be_evpool e').

Lemma filled_block b b' hash :
  Block_Hash (Some b) = Ok (b', hash) →
  ∃ h, b' = Some (mkBlock h (B_Data b) (B_CoreChainLock b) (B_Evidence b) (B_LastCommit b)) ∧
    H_Height h = H_Height (B_Header b).
Proof.
  unfold Block_Hash. destruct (B_LastCommit b) as [c|] eqn:Ec.
  - intros E. apply bind_Ok in E as (b1 & E1 & E). apply bind_Ok in E as (h & _ & [= <- <-]).
    unfold fillHeader in E1. apply bind_Ok in E1 as (x & _ & E1). apply bind_Ok in E1 as (y & _ & E1).
    apply bind_Ok in E1 as (z & _ & [= <-]). rewrite Ec. by eexists.
  - intros [= <- _]. exists (B_Header b). split; [|done]. rewrite <- Ec. by destruct b.
Qed.

(** Validation changes the cache, and the evidence pool by checking the evidence. *)
Lemma validation_untouched s c b lc e e' r :
  be_ValidateBlockWithRoundState s c (Some b) lc e = (e', r) →
  match r with
  | Ok b' => untouched (B_Evidence b) e e' ∧ H_Height (B_Header b') = H_Height (B_Header b)
  | Err y => untouched (B_Evidence b) e e' ∧ ((∃ z, y = ErrState z) ∨ y = ErrEvidencePool)
  | Panic => True
  end.
Proof.
  unfold be_ValidateBlockWithRoundState, be_ValidateBlock. intros E.
  unfold mbind, M_bind, lift_panic, gets, lift_err, lift, modify, mret, M_ret in E.
  destruct (Block_Hash (Some b)) as [[ob hash]|x|] eqn:Eh; cbn in E; [|by injection E as <- <-..].
  destruct (filled_block b ob hash Eh) as (h & -> & Hh).
  destruct (bool_decide _); cbn in E.
  - assert (untouched (B_Evidence b) e e) as Hu by (by repeat split; left).
    destruct (checkRoundState _ _ _ _); cbn in E; injection E as <- <-; [done|naive_solver|done].
  - destruct (validateBlock _ _ _) as [[]|x|]; cbn in E; [| |by injection E as <- <-].
    2: { injection E as <- <-. split; [by repeat split; left|naive_solver]. }
    unfold be_CheckEvidence in E. destruct (CheckEvidence (be_evpool e) (B_Evidence b)) as [p ok] eqn:Ep.
    assert (untouched (B_Evidence b) e (set_be_evpool p e)) as Hu by (repeat split; right; cbn; by rewrite Ep).
    destruct ok; cbn in E; [|injection E as <- <-; split; [done|by right]].
    destruct (checkRoundState _ _ _ _); cbn in E; injection E as <- <-; [done|naive_solver|done].
Qed.

(** How far a block got, by the error that stopped it: the application's [FinalizeBlock] and
    the mempool fail after the responses were saved, the state store when it saves these or the
    new state, and all other errors come before anything is written. *)
Definition stopped (b : Block) (x : exec_error) (e e' : BlockExecutor) : Prop :=
  be_blockStore e' = be_blockStore e ∧
  match x with
  | ErrInvalidBlock (ErrClient _) =>
      ∃ resp, be_store e' = (SaveABCIResponses (be_store e) (H_Height (B_Header b)) resp).1 ∧
        be_mempool e' = be_mempool e ∧ pool_checked (B_Evidence b) (be_evpool e) (be_evpool e')
  | ErrMempool =>
      ∃ resp, be_store e' = (SaveABCIResponses (be_store e) (H_Height (B_Header b)) resp).1 ∧
        pool_checked (B_Evidence b) (be_evpool e) (be_evpool e')
  | ErrStateStore =>
      ∃ resp, let '(st, ok) := SaveABCIResponses (be_store e) (H_Height (B_Header b)) resp in
        (be_store e' = st ∧ ok = false ∧ be_mempool e' = be_mempool e ∧
         pool_checked (B_Evidence b) (be_evpool e) (be_evpool e')) ∨
        (ok = true ∧ ∃ s', Store_Save st s' = (be_store e', false))
  | _ => untouched (B_Evidence b) e e'
  end.

Lemma noerr_prune h : noerr (E:=exec_error) (pruneBlocks h).
Proof. intros e _. unfold pruneBlocks. repeat case_match; simplify_eq; done. Qed.

(** The application is asked, and nothing else happens. *)
Lemma execBlock_app b commit e e' r :
  execBlock b commit e = (e', r) → kept e' = kept e ∧ ∀ x, r = Err x → ∃ c, x = ErrClient c.
Proof.
  unfold execBlock, mbind, M_bind, lift_panic, lift. intros E.
  destruct (Block_Hash (Some b)) as [[[b'|] hash]|x|]; cbn in E; [|injection E as <- <-; by split..].
  destruct (EvidenceList_ToABCI _) as [m|x|]; cbn in E; [|injection E as <- <-; by split..].
  destruct (Block_BlockID _ _) as [id|x|]; cbn in E; [|injection E as <- <-; by split..].
  unfold call in E. destruct (abci_FinalizeBlock _ _) as [app [resp|c]]; injection E as <- <-; (split; [done|]); intros x [= <-]; by exists c.
Qed.

Lemma finalize_stopped s c id b commit lc e e' x :
  be_FinalizeBlock s c id b commit lc e = (e', Err x) → stopped b x e e'.
Proof.
  unfold be_FinalizeBlock. intros E. apply run_bind_Err in E as [E|(e1 & b1 & E1 & E)].
  { unfold as_invalid in E. destruct (be_ValidateBlockWithRoundState _ _ _ _ e) as [e1 r] eqn:E1.
    pose proof (validation_untouched _ _ _ _ _ _ _ E1) as Hr. destruct r as [b1|y|]; [done| |done].
    injection E as <- <-. destruct Hr as [Hu [[z ->]| ->]]; (split; [apply Hu|exact Hu]). }
  apply as_invalid_Ok, validation_untouched in E1 as [(Us & Ub & Um & Ue) Hh]. rewrite Hh in E.
  unfold stopped. set (resp := ToProcessProposal (CRS_Params c)) in *.
  destruct (SaveABCIResponses (be_store e) (H_Height (B_Header b)) resp) as [st ok] eqn:Esave.
  apply run_bind_Err in E as [E|(e2 & [] & E2 & E)].
  { unfold with_store in E. rewrite Us, Esave in E. destruct ok; [done|]. injection E as <- <-. split; [done|].
    exists resp. rewrite Esave. left. by rewrite <- Um. }
  unfold with_store in E2. rewrite Us, Esave in E2. destruct ok; [|done]. injection E2 as <-.
  apply run_bind_Err in E as [E|(e3 & fb & E3 & E)].
  { unfold as_invalid in E. destruct (execBlock b1 commit _) as [e3 [r|y|]] eqn:E3; [done| |done]. injection E as <- <-.
    apply execBlock_app in E3 as [K Hc]. injection K as Ks Kb Km Ke. destruct (Hc y eq_refl) as [cl ->].
    cbn in *. split; [congruence|]. exists resp. rewrite Esave, Ks, Km, Ke. done. }
  apply as_invalid_Ok, execBlock_app in E3 as [K _]. injection K as Ks Kb Km Ke. cbn in Ks, Kb, Km, Ke.
  apply run_bind_Err in E as [E|(e4 & [] & E4 & E)].
  { assert (x = ErrMempool ∧ be_store e' = be_store e3 ∧ be_blockStore e' = be_blockStore e3 ∧ be_evpool e' = be_evpool e3) as (-> & F1 & F2 & F3).
    { unfold flushMempool in E. apply run_bind_Err in E as [E|(e4 & [] & E4 & E)]; unfold with_mempool in *.
      - destruct (FlushAppConn _) as [q []]; [done|]. by injection E as <- <-.
      - destruct (FlushAppConn _) as [q []]; [|done]. injection E4 as <-. destruct (Mempool_Update _ _ _ _ _ _ _) as [q' []]; [done|]. by injection E as <- <-. }
    split; [congruence|]. exists resp. rewrite Esave, F1, F3, Ks, Ke. done. }
  assert (be_store e4 = be_store e3 ∧ be_blockStore e4 = be_blockStore e3) as [F1 F2].
  { unfold flushMempool in E4. apply run_bind in E4 as (e5 & [] & E5 & E4). unfold with_mempool in *.
    destruct (FlushAppConn _) as [q []]; [|done]. injection E5 as <-. destruct (Mempool_Update _ _ _ _ _ _ _) as [q' []]; [|done]. by injection E4 as <-. }
  apply run_bind_Err in E as [E|(e5 & [] & ->%run_modify & E)]; [done|].
  apply run_bind_Err in E as [E|(e6 & [] & E6 & E)].
  { unfold with_store in E. cbn in E. destruct (Store_Save _ _) as [st' []] eqn:Ess; [done|]. injection E as <- <-. cbn. split; [congruence|].
    exists resp. rewrite Esave. right. split; [done|]. exists (State_Update s id (B_Header b1) c). by rewrite <- Ess, F1, Ks. }
  exfalso. apply run_bind_Err in E as [E|(e7 & [] & E7 & E)]; [pose proof (noerr_prune (RetainHeight fb) e6 I) as Hn; by rewrite E in Hn|].
  apply run_bind_Err in E as [E|(e8 & [] & _ & E)]; done.
Qed.

(** Errors that come before anything is written. *)
Definition early (x : exec_error) : bool :=
  match x with ErrMempool | ErrStateStore | ErrInvalidBlock _ => false | _ => true end.

Definition only_early {A} (m : M BlockExecutor exec_error A) : Prop :=
  ∀ e e' x, m e = (e', Err x) → early x = true.

Lemma early_bind {A B} (m : M BlockExecutor exec_error A) (f : A → M BlockExecutor exec_error B) :
  only_early m → (∀ a, only_early (f a)) → only_early (m ≫= f).
Proof. intros Hm Hf e e' x [E|(e1 & a & _ & E)]%run_bind_Err; [by eapply Hm|by eapply Hf]. Qed.

Lemma early_pure {A} (r : BlockExecutor → outcome exec_error A) :
  (∀ e x, r e = Err x → early x = true) → only_early (λ e, (e, r e)).
Proof. intros Hr e e' x [= _ E]. by eapply Hr. Qed.

Lemma early_lift_err {F A} (g : F → exec_error) (m : outcome F A) : (∀ x, early (g x) = true) → only_early (lift_err g m).
Proof. intros Hg e e' x. unfold lift_err. destruct m; cbn; [done|intros [= _ <-]; apply Hg|done]. Qed.

Lemma early_lift_panic {F A} (m : outcome F A) : only_early (lift_panic m).
Proof. intros e e' x. unfold lift_panic. by destruct m. Qed.

Lemma early_deref {A} (p : option A) : only_early (lift (deref p)).
Proof. intros e e' x. unfold lift. by destruct p. Qed.

Lemma early_commit_info b h : only_early (lift (buildLastCommitInfo b h)).
Proof. intros e e' x. unfold lift, buildLastCommitInfo. destruct (_ =? _)%Z; [done|]. by destruct (B_LastCommit b). Qed.

Lemma early_call {Req Resp} (f : AbciApp → Req → AbciApp * (Resp + client_error)) req : only_early (call f req).
Proof. intros e e' x. unfold call. destruct (f _ _) as [app [r|c]]; [done|]. by intros [= _ <-]. Qed.

Lemma early_must {A} (m : M BlockExecutor exec_error A) : only_early (must m).
Proof. intros e e' x. unfold must. by destruct (m e) as [? [?|?|]]. Qed.

Lemma early_try {A} (m : M BlockExecutor exec_error A) : only_early (try m).
Proof. intros e e' x. unfold try. by destruct (m e) as [? [?|?|]]. Qed.

Ltac early :=
  repeat match goal with
  | |- only_early (_ ≫= _) => apply early_bind; [|intros ?]
  | |- only_early (call _ _) => apply early_call
  | |- only_early (lift_err _ _) => by apply early_lift_err
  | |- only_early (lift_panic _) => apply early_lift_panic
  | |- only_early (lift (deref _)) => apply early_deref
  | |- only_early (lift (buildLastCommitInfo _ _)) => apply early_commit_info
  | |- only_early (must _) => apply early_must
  | |- only_early (try _) => apply early_try
  | |- only_early (if ?b then _ else _) => destruct b
  | |- only_early (match ?p with _ => _ end) => destruct p
  | |- only_early _ => apply early_pure; by intros ? ? [= <-]
  end.

Lemma early_ProcessProposal b round s lc : only_early (be_ProcessProposal b round s false lc).
Proof. unfold be_ProcessProposal, processRequest, quorum_hash, NewStateChangeset. cbn [when]. early. Qed.

Lemma early_VerifyCommitExtensions commit : only_early (VerifyCommitExtensions commit).
Proof. unfold VerifyCommitExtensions, be_VerifyVoteExtension. early. Qed.

Lemma kept_stopped b x e e' : kept e' = kept e → early x = true → stopped b x e e'.
Proof.
  intros [= Ks Kb Km Ke] Hx. split; [done|]. assert (untouched (B_Evidence b) e e') by (repeat split; [done..|by left]).
  by destruct x.
Qed.

(** C9: a block that [ApplyBlock] refuses leaves the chain of the node as it was: whatever the
    error, the block store is the same, and no save of the state after the block succeeded.  When the
    block does not validate, is rejected by the application, or has rejected commit extensions,
    the state store and the mempool are the same too, and the evidence pool at most checked the
    evidence of the block.  Only when the application's [FinalizeBlock] fails, which is reported
    as an invalid block as well, or the mempool or the state store, the responses of the
    application have been saved. *)
Theorem ApplyBlock_refused s id b commit lc e e' x :
  ApplyBlock s id b commit lc e = (e', Err x) → stopped b x e e'.
Proof.
  unfold ApplyBlock. intros E. apply run_bind_Err in E as [E|(e1 & c & E1 & E)].
  { pose proof (keeps_ProcessProposal b (Commit_Round commit) s lc e) as K. rewrite E in K.
    apply (kept_stopped b x e e' K). by eapply early_ProcessProposal. }
  pose proof (keeps_ProcessProposal b (Commit_Round commit) s lc e) as K1. rewrite E1 in K1. cbn in K1.
  apply run_bind_Err in E as [E|(e2 & [] & E2 & E)].
  { pose proof (keeps_VerifyCommitExtensions commit e1) as K. rewrite E in K.
    apply (kept_stopped b x e e'); [cbn in K; congruence|]. by eapply early_VerifyCommitExtensions. }
  pose proof (keeps_VerifyCommitExtensions commit e1) as K2. rewrite E2 in K2. cbn in K2.
  apply run_bind_Err in E as [E%finalize_stopped|(e3 & [s3 r] & _ & E)]; [|done].
  rewrite K1 in K2. injection K2 as Ks Kb Km Ke. unfold stopped, untouched in *. by rewrite Ks, Kb, Km, Ke in E.
Qed.

(** ** Proposals *)

(** What the proposer relies on, besides the application: the state is valid, the
    node is one of its validators, the commit is one of the last validators for the
    last block, the evidence pool returns valid evidence within the limit, and the
    clock has moved on. *)
Record can_propose (s : State) (commit : Commit) (proTxHash : bytes) (e : BlockExecutor) : Prop := {
  cp_state : state_ok s;
  cp_version : Ver_Block (State_Consensus (State_Version s)) = BlockProtocol;
  cp_chain : length (ChainID s) ≤ MaxChainIDLen;
  cp_last : BlockID_ValidateBasic (LastBlockID s) = Ok tt;
  cp_proposer : HasValidator (State_Validators s) proTxHash = true;
  cp_proposer_size : length proTxHash = DefaultHashSize;
  cp_commit : Commit_ValidateBasic commit = Ok tt;
  cp_signed : if (LastBlockHeight s =? 0)%Z then Commit_ThresholdBlockSignature commit = []
    else ∃ vals, State_LastValidators s = Some vals ∧
           verifyCommit vals (ChainID s) (LastBlockID s) (LastBlockHeight s) commit None = Ok tt;
  cp_clock : ∀ n, (LastBlockTime s < Canonical (be_clock e n))%Z;
  cp_evidence : let max := EP_MaxBytes (Params_Evidence (State_Params s)) in
    let '(_, (evl, _)) := PendingEvidence (be_evpool e) max in
    validate_evidence evl = Ok tt ∧
    ∃ size, EvidenceList_ByteSize evl = Ok size ∧ (size ≤ max)%Z }.

(** The header of a proposal. *)
Lemma made_block s height txs commit ev proTxHash ver now b itxs b' :
  State_MakeBlock s height txs (Some commit) ev proTxHash ver now = Ok b → SetTxs b itxs = Ok b' →
  ∃ vh dh eh, vals_Hash (State_Validators s) = Ok vh ∧ Txs_Hash itxs = Ok dh ∧
    EvidenceList_Hash ev = Ok eh ∧
    b' = mkBlock
      (mkHeader (State_Consensus (State_Version s)) (ChainID s) height 0 (makeBlockTime s height now)
         (LastBlockID s) (Some (Checksum (Commit_ThresholdBlockSignature commit))) (Some dh) vh vh
         (HashConsensusParams (State_Params s)) (HashConsensusParams (State_Params s))
         (LastAppHash s) (LastResultsHash s) (Some eh) proTxHash ver)
      (mkData itxs) None ev (Some commit).
Proof.
  unfold State_MakeBlock, MakeBlock, SetTxs, fillHeader. intros E E'.
  apply bind_Ok in E as (b0 & E0%wrap_err_Ok & E). cbn [fill B_Header H_LastCommitHash H_DataHash H_EvidenceHash B_LastCommit B_Evidence B_Data Commit_Hash
    mbind outcome_bind set_header set_hashes Populate] in E0.
  apply bind_Ok in E0 as (dh0 & _ & E0). apply bind_Ok in E0 as (eh & He & [= <-]).
  destruct (EvidenceList_Hash ev) as [eh'| |]; [|discriminate He..]. injection He as <-.
  apply bind_Ok in E as (vh & Hv & [= <-]). cbn [fill B_Header H_LastCommitHash H_DataHash H_EvidenceHash B_LastCommit B_Evidence B_Data Commit_Hash
    mbind outcome_bind set_header set_hashes Populate] in E'.
  apply bind_Ok in E' as (dh & Hd & [= <-]).
  destruct (Data_Hash _) as [dh'| |] eqn:Ed; [|discriminate Hd..]. injection Hd as <-.
  exists vh, dh', eh'. done.
Qed.

Lemma UpdateBlock_Ok c b b' :
  UpdateBlock c b = Ok b' →
  ∃ nh, vals_Hash (CRS_NextValidators c) = Ok nh ∧ CRS_Source c = PrepareProposalSource ∧
    let h := B_Header b in
    b' = mkBlock
      (mkHeader (H_Version h) (H_ChainID h) (H_Height h)
         (match CRS_CoreChainLock c with
          | Some cl => CL_Height cl
          | None => LastCoreChainLockedBlockHeight (CRS_Base c)
          end) (H_Time h)
         (H_LastBlockID h) (H_LastCommitHash h) (H_DataHash h) (H_ValidatorsHash h)
         nh (H_ConsensusHash h) (HashConsensusParams (CRS_NextParams c))
         (slice (CRS_AppHash c)) (slice (CRS_ResultsHash c)) (H_EvidenceHash h)
         (H_ProposerProTxHash h) (H_ProposedAppVersion h))
      (B_Data b) (CRS_CoreChainLock c) (B_Evidence b) (B_LastCommit b).
Proof.
  unfold UpdateBlock, CRS_Source. intros E. destruct (RP_Source _); try done.
  apply bind_Ok in E as (nh & Hn & [= <-]). by exists nh.
Qed.

(** The block a proposer returns, and the changes it goes with. *)
Lemma be_CreateProposalBlock_inv height round s commit proTxHash ver e e' b c :
  be_CreateProposalBlock height round s commit proTxHash ver e = (e', Ok (b, c)) →
  ∃ max evl evSize txs itxs n b0 b1 version rp,
    (PendingEvidence (be_evpool e) max).2 = (evl, evSize) ∧
    max = EP_MaxBytes (Params_Evidence (State_Params s)) ∧
    State_MakeBlock s height txs (Some commit) evl proTxHash ver (be_clock e n) = Ok b0 ∧
    SetTxs b0 itxs = Ok b1 ∧ UpdateBlock c (set_appVersion b1 version) = Ok b ∧
    changes_of rp s c ∧ length (RP_TxResults rp) = length itxs ∧
    (∀ cl, RP_CoreChainLock rp = Some cl → CL_ValidateBasic cl = Ok tt).
Proof.
  intros E. unfold be_CreateProposalBlock, prepareRequest, quorum_hash, NewStateChangeset in E.
  apply run_bind in E as (e1 & [evl evSize] & E1 & E). unfold be_PendingEvidence in E1.
  destruct (PendingEvidence _ _) as [p ev] eqn:Ep. injection E1 as <- ->.
  unfold read_clock in E. run_inv. bools.
  match goal with H : NewCurrentRoundState _ _ _ = _ |- _ => apply NewCurrentRoundState_spec in H as Hch end.
  match goal with H : RoundParamsFromPrepareProposal _ _ = _ |- _ =>
    unfold RoundParamsFromPrepareProposal in H; apply bind_Ok in H as (ccl & Hccl%wrap_err_Ok & [= <-]) end.
  simplify_eq.
  match goal with
  | Hm : State_MakeBlock _ _ _ _ _ _ _ _ = Ok ?b0, Ht : SetTxs ?b0 ?itxs = Ok ?b1,
    Hu : UpdateBlock _ (if (0 <? ?v)%Z then _ else _) = _ |- _ =>
      eexists _, evl, evSize, _, itxs, (be_ticks e), b0, b1,
        (if (0 <? v)%Z then v else Ver_App (H_Version (B_Header b1))), _
  end.
  split; [by rewrite Ep|]. split; [done|]. split; [eassumption|]. split; [eassumption|].
  split; [|split; [exact Hch|split; [by apply Nat.eqb_eq|]]].
  - destruct (0 <? _)%Z; [done|]. by destruct x4 as [[[]] ? ? ? ?].
  - intros cl. cbn. intros ->. unfold CoreChainLockFromProto in Hccl.
    destruct (Prep_CoreChainLockUpdate _) as [cl'|]; [|done]. by outcome_inv; simplify_eq; units.
Qed.

Lemma signed_follows s commit b :
  state_ok s → B_LastCommit b = Some commit → H_Height (B_Header b) = next_height s →
  (if (LastBlockHeight s =? 0)%Z then Commit_ThresholdBlockSignature commit = []
   else ∃ vals, State_LastValidators s = Some vals ∧
     verifyCommit vals (ChainID s) (LastBlockID s) (LastBlockHeight s) commit None = Ok tt) →
  commit_follows s b None ∧
  ((InitialHeight s < H_Height (B_Header b))%Z → verifyLastCommit s b None = Ok tt).
Proof.
  intros Hs Hc Hh Hsig. unfold commit_follows, next_height in *. rewrite Hh.
  destruct (Z.eqb_spec (LastBlockHeight s) 0) as [E|E].
  - rewrite Z.eqb_refl. split; [by exists commit|lia].
  - destruct (so_height _ Hs) as [|Hz]; [done|]. pose proof (so_initial _ Hs).
    rewrite (proj2 (Z.eqb_neq (LastBlockHeight s + 1) (InitialHeight s))) by lia.
    destruct Hsig as (vals & Hl & Hv).
    assert (verifyLastCommit s b None = Ok tt) as Hok; [|done].
    unfold verifyLastCommit. rewrite Hc, Hl, Hh. cbn [deref mbind outcome_bind].
    rewrite (int64_id (_ - 1)) by (unfold_ints; lia).
    replace (LastBlockHeight s + 1 - 1)%Z with (LastBlockHeight s) by lia.
    unfold VerifyCommitUnlessVerified. cbn [proof_matches mbind outcome_bind]. by rewrite Hv.
Qed.

Lemma ValidateHash_32 h : length h = 32 → partset.ValidateHash h = true.
Proof. intros E. unfold partset.ValidateHash. by rewrite E. Qed.

Lemma root_len (f : outcome merkle.merkle_error bytes) items h :
  f = merkle.HashFromByteSlices sha256 items → (Z.of_nat (length items) ≤ MaxInt64)%Z →
  f = Ok h → length h = 32.
Proof using sha_len. intros -> Hl. by apply (root_32 sha_len). Qed.

Lemma evidence_hash_len evl h :
  (Z.of_nat (length evl) ≤ MaxInt64)%Z → EvidenceList_Hash evl = Ok h → length h = 32.
Proof using sha_len.
  intros Hl. unfold EvidenceList_Hash. intros (bzs & Hb & Hr)%bind_Ok.
  eapply root_32; [exact sha_len| |exact Hr]. by rewrite (length_EvidenceList_Bytes _ _ Hb).
Qed.

Lemma Header_ValidateBasic_intro h :
  Ver_Block (H_Version h) = BlockProtocol → length (H_ChainID h) ≤ MaxChainIDLen →
  (0 < H_Height h)%Z → BlockID_ValidateBasic (H_LastBlockID h) = Ok tt →
  length (H_ProposerProTxHash h) = DefaultHashSize →
  Forall (λ x, length x = 32) [slice (H_LastCommitHash h); slice (H_DataHash h);
    slice (H_EvidenceHash h); H_ValidatorsHash h; H_NextValidatorsHash h; H_ConsensusHash h;
    H_NextConsensusHash h; H_ResultsHash h] →
  Header_ValidateBasic h = Ok tt.
Proof.
  intros E1 E2 E3 E4 E5 F. unfold Header_ValidateBasic.
  rewrite E1, Z.eqb_refl, E4, E5, (proj2 (Z.ltb_ge _ _)), (proj2 (Z.eqb_neq _ _)),
    (proj2 (Nat.ltb_ge _ _) E2) by lia. cbn [negb wrap_err mbind outcome_bind Nat.eqb].
  repeat (apply Forall_cons in F as [Hx F]; apply ValidateHash_32 in Hx; rewrite Hx; clear Hx).
  by rewrite Nat.eqb_refl.
Qed.

Lemma Block_ValidateBasic_intro b c dh eh :
  Header_ValidateBasic (B_Header b) = Ok tt →
  (∀ cl, B_CoreChainLock b = Some cl → CL_ValidateBasic cl = Ok tt) →
  B_LastCommit b = Some c → Commit_ValidateBasic c = Ok tt →
  H_LastCommitHash (B_Header b) = Some (Checksum (Commit_ThresholdBlockSignature c)) →
  Txs_Hash (Txs (B_Data b)) = Ok dh → H_DataHash (B_Header b) = Some dh →
  validate_evidence (B_Evidence b) = Ok tt →
  EvidenceList_Hash (B_Evidence b) = Ok eh → H_EvidenceHash (B_Header b) = Some eh →
  Block_ValidateBasic (Some b) = Ok tt.
Proof.
  intros Hh Hl Hc Hcb E1 Hd E2 Hv He E3. unfold Block_ValidateBasic. rewrite Hh, Hc, Hcb, E1, E2, Hv, E3.
  change (Data_Hash (Some (B_Data b))) with (Txs_Hash (Txs (B_Data b))). rewrite Hd, He.
  cbn [wrap_err mbind outcome_bind slice default Commit_Hash].
  rewrite !bool_decide_eq_true_2 by done.
  destruct (B_CoreChainLock b) as [cl|]; [by rewrite (Hl cl eq_refl)|done].
Qed.

Lemma checkRoundState_intro s c b lc :
  (CRS_AppHash c ≠ None → H_AppHash (B_Header b) = slice (CRS_AppHash c)) →
  H_ResultsHash (B_Header b) = slice (CRS_ResultsHash c) →
  ((InitialHeight s < H_Height (B_Header b))%Z → verifyLastCommit s b lc = Ok tt) →
  vals_Hash (CRS_NextValidators c) = Ok (H_NextValidatorsHash (B_Header b)) →
  H_NextConsensusHash (B_Header b) = HashConsensusParams (CRS_NextParams c) →
  validateCoreChainLock b s = Ok tt → checkRoundState s c b lc = Ok tt.
Proof.
  intros E1 E2 Hl Hn Hp Hc. unfold checkRoundState. rewrite E2, Hn, Hp, Hc.
  apply guard_Ok. split.
  { destruct (bool_decide (CRS_AppHash c ≠ None)) eqn:Ea; [|done]. apply bool_decide_eq_true in Ea.
    by rewrite bool_decide_eq_true_2 by auto. }
  apply guard_Ok. split; [by rewrite (bool_decide_eq_true_2 (_ = _)), andb_false_r by done|].
  apply bind_Ok. exists tt. split; [case_match; bools; auto|]. cbn [mbind outcome_bind].
  by rewrite !(bool_decide_eq_true_2 (_ = _)) by done.
Qed.

Lemma proposal_time s now :
  state_ok s → (LastBlockTime s < Canonical now)%Z →
  (InitialHeight s < next_height s ∧ LastBlockTime s < makeBlockTime s (next_height s) now)%Z ∨
  (next_height s = InitialHeight s ∧ LastBlockTime s ≤ makeBlockTime s (next_height s) now)%Z.
Proof.
  intros Hs Hn. unfold makeBlockTime. destruct (Z.eqb_spec (next_height s) (InitialHeight s)); [lia|].
  left. unfold next_height in *. pose proof (so_initial _ Hs).
  destruct (so_height _ Hs), (Z.eqb_spec (LastBlockHeight s) 0); lia.
Qed.

Lemma next_height_pos s : state_ok s → (0 < next_height s)%Z.
Proof.
  intros Hs. unfold next_height. pose proof (so_initial _ Hs).
  destruct (so_height _ Hs), (Z.eqb_spec (LastBlockHeight s) 0); lia.
Qed.

(** C6: a proposer never proposes a block that its own validation refuses: when it is a
    validator with a commit for the last block, valid pending evidence and a clock
    that has moved on, every block that [CreateProposalBlock] returns, whatever the
    application answered, follows the state ([validateBlock] accepts it) and agrees
    with the changes it is returned with (the checks of
    [ValidateBlockWithRoundState]). *)
Theorem proposal_valid s round commit proTxHash ver e e' b c :
  can_propose s commit proTxHash e → block_lens b →
  be_CreateProposalBlock (next_height s) round s commit proTxHash ver e = (e', Ok (b, c)) →
  validateBlock s (Some b) None = Ok tt ∧ checkRoundState s c b None = Ok tt.
Proof using sha_len.
  intros [Hs Hver Hch Hlast Hp Hps Hcb Hsig Hclk Hev] [L1 L2] E.
  destruct (be_CreateProposalBlock_inv _ _ _ _ _ _ _ _ _ _ E)
    as (max & evl & evSize & txs & itxs & n & b0 & b1 & av & rp & Ep & -> & Em & Et & Eu & Hc & Hr & Hcl).
  destruct (made_block _ _ _ _ _ _ _ _ _ _ _ Em Et) as (vh & dh & eh & Hvh & Hdh & Heh & ->).
  destruct (UpdateBlock_Ok _ _ _ Eu) as (nh & Hnh & _ & Eb). cbn in Eb. clear Eu Et Em E.
  cbv zeta in Hev.
  destruct (PendingEvidence _ _) as [p [evl' sz]]. injection Ep as -> ->.
  destruct Hev as (Hve & size & Hsz & Hle).
  assert (B_LastCommit b = Some commit) as Hbc by (by rewrite Eb).
  assert (H_Height (B_Header b) = next_height s) as Hbh by (by rewrite Eb).
  destruct (signed_follows s commit b Hs Hbc Hbh Hsig) as [Hcf Hvl].
  destruct (ch_results _ _ _ Hc) as (rh & Hrh & Ers).
  assert (valid_vals (CRS_NextValidators c)) as Hnv.
  { destruct (ch_vals _ _ _ Hc) as (nv & -> & Hnv%valsetUpdate_valid). by exists nv. }
  pose proof (next_height_pos _ Hs) as Hpos.
  rewrite Eb in L1, L2. cbn in L1, L2. split.
  - apply block_follows_iff. split; [| |exact Hcf|exists size; by rewrite Eb].
    + eapply (Block_ValidateBasic_intro b commit dh eh); try (by rewrite ?Eb).
      * apply Header_ValidateBasic_intro; rewrite Eb; cbn; try done.
        repeat apply Forall_cons_2; [..|apply Forall_nil_2]; try apply sha_len.
        -- eapply root_len; [reflexivity| |exact Hdh]. by rewrite length_map.
        -- by eapply evidence_hash_len.
        -- by eapply valid_vals_hash; [apply Hs|].
        -- by eapply valid_vals_hash.
        -- rewrite Ers. cbn. unfold TxResultsHash in Hrh. apply wrap_err_Ok in Hrh.
           eapply root_len; [reflexivity| |exact Hrh]. rewrite length_map. lia.
      * rewrite Eb. cbn. intros cl Ecl. apply Hcl. rewrite (ch_lock _ _ _ Hc) in Ecl.
        destruct (RP_CoreChainLock rp) as [cl'|]; [|done]. by destruct (_ <=? _)%Z; simplify_eq.
    + rewrite Eb. split; cbn; try done.
      * intros E. unfold next_height. by rewrite E.
      * intros E. unfold next_height. destruct (Z.eqb_spec (LastBlockHeight s) 0); [lia|].
        rewrite int64_id; [done|]. destruct (so_height _ Hs); unfold_ints; lia.
      * by apply proposal_time.
  - apply checkRoundState_intro; try (by rewrite ?Eb); [done|].
    rewrite Eb. unfold validateCoreChainLock. cbn. rewrite (ch_base _ _ _ Hc), (ch_lock _ _ _ Hc).
    destruct (RP_CoreChainLock rp) as [cl|]; [|by rewrite Z.eqb_refl].
    destruct (CL_Height cl <=? _)%Z eqn:El; [by rewrite Z.eqb_refl|].
    by rewrite Z.eqb_refl, El.
Qed.

(** ** What validation accepts *)

(** A block that may come after a state, with the changes that the application made to it:
    the header says what the state and the changes say; the hashes in it are those of the
    content; the last commit is an unsigned one of height 0 in the first block and otherwise
    signed by the last validators for the last block, with a complete block signature; the core chain
    is locked at the height of a new lock, which is complete and higher, or as before. *)
Record block_valid (s : State) (c : CurrentRoundState) (b : Block) : Prop := {
  bv_version : Ver_Block (H_Version (B_Header b)) = BlockProtocol ∧
    Ver_Block (State_Consensus (State_Version s)) = BlockProtocol;
  bv_chain : H_ChainID (B_Header b) = ChainID s ∧ length (ChainID s) ≤ MaxChainIDLen;
  bv_height : H_Height (B_Header b) = next_height s;
  bv_last : H_LastBlockID (B_Header b) = LastBlockID s ∧ BlockID_ValidateBasic (LastBlockID s) = Ok tt;
  bv_time : (if LastBlockHeight s =? 0 then LastBlockTime s ≤ H_Time (B_Header b)
             else LastBlockTime s < H_Time (B_Header b))%Z;
  bv_params : H_ConsensusHash (B_Header b) = HashConsensusParams (State_Params s) ∧
    H_NextConsensusHash (B_Header b) = HashConsensusParams (CRS_NextParams c);
  bv_vals : vals_Hash (State_Validators s) = Ok (H_ValidatorsHash (B_Header b)) ∧
    vals_Hash (CRS_NextValidators c) = Ok (H_NextValidatorsHash (B_Header b));
  bv_proposer : ∃ vals v, State_Validators s = Some vals ∧ v ∈ Validators vals ∧
    ProTxHash v = H_ProposerProTxHash (B_Header b);
  bv_app : CRS_AppHash c ≠ None → H_AppHash (B_Header b) = slice (CRS_AppHash c);
  bv_results : H_ResultsHash (B_Header b) = slice (CRS_ResultsHash c);
  bv_txs : merkle.HashFromByteSlices sha256 (map sha256 (Txs (B_Data b))) = Ok (slice (H_DataHash (B_Header b)));
  bv_evidence : ∃ evs size, EvidenceList_Bytes (E:=merkle.merkle_error) (B_Evidence b) = Ok evs ∧
    merkle.HashFromByteSlices sha256 evs = Ok (slice (H_EvidenceHash (B_Header b))) ∧
    Forall (λ ev, DVE_ValidateBasic (Some ev) = Ok tt) (B_Evidence b) ∧
    EvidenceList_ByteSize (B_Evidence b) = Ok size ∧ (size ≤ EP_MaxBytes (Params_Evidence (State_Params s)))%Z;
  bv_lock : match B_CoreChainLock b with
            | None => H_CoreChainLockedHeight (B_Header b) = LastCoreChainLockedBlockHeight s
            | Some cl => H_CoreChainLockedHeight (B_Header b) = CL_Height cl ∧
                (LastCoreChainLockedBlockHeight s < CL_Height cl)%Z ∧ CL_Height cl ≠ 0%Z ∧
                length (CL_Hash cl) = DefaultHashSize ∧ length (CL_Signature cl) = bls_SignatureSize
            end;
  bv_commit : ∃ commit, B_LastCommit b = Some commit ∧
    slice (H_LastCommitHash (B_Header b)) = sha256 (Commit_ThresholdBlockSignature commit) ∧
    (0 ≤ Commit_Round commit)%Z ∧
    (∃ es, VoteExtensionsFromProto (Commit_ThresholdVoteExtensions commit) = Ok es) ∧
    if (LastBlockHeight s =? 0)%Z
    then Commit_Height commit = 0%Z ∧ Commit_ThresholdBlockSignature commit = []
    else ∃ vals, State_LastValidators s = Some vals ∧ IsNil (LastBlockID s) = false ∧
           length (Commit_ThresholdBlockSignature commit) = SignatureSize ∧
           commit_valid vals (ChainID s) (LastBlockID s) (LastBlockHeight s) commit }.

Lemma validate_evidence_Ok evl :
  validate_evidence evl = Ok tt ↔ Forall (λ ev, DVE_ValidateBasic (Some ev) = Ok tt) evl.
Proof.
  clear. induction evl as [|ev evl IH]; cbn [validate_evidence]; [by split; constructor|].
  rewrite Forall_cons, <- IH, bind_Ok. split; [by intros ([] & ? & ?)|]. intros [? ?]. by exists tt.
Qed.

Lemma CL_ValidateBasic_Ok cl :
  CL_ValidateBasic cl = Ok tt ↔
  CL_Height cl ≠ 0%Z ∧ length (CL_Hash cl) = DefaultHashSize ∧ length (CL_Signature cl) = bls_SignatureSize.
Proof.
  clear. unfold CL_ValidateBasic, DefaultHashSize, bls_SignatureSize.
  repeat case_match; bools; split; intros; try done; lia || (split_and!; lia).
Qed.

Lemma HasValidator_iff s h :
  valid_vals (State_Validators s) →
  (HasValidator (State_Validators s) h = true ↔
   ∃ vals v, State_Validators s = Some vals ∧ v ∈ Validators vals ∧ ProTxHash v = h) ∧
  (HasValidator (State_Validators s) h = true → length h = DefaultHashSize).
Proof.
  clear. intros (vals & E & Hv). rewrite E. cbn [HasValidator]. unfold HasProTxHash.
  assert (∀ v, v ∈ Validators vals → length (ProTxHash v) = DefaultHashSize) as Hl.
  { intros v Hin. unfold valset_ValidateBasic in Hv. destruct (length _ =? 0); [done|].
    apply bind_Ok in Hv as (n & _ & Hv). destruct (_ <=? _)%Z; [done|]. apply bind_Ok in Hv as ([] & Ha & _).
    pose proof (validate_all_In _ _ v Ha Hin) as Hb. unfold Validator_ValidateBasic in Hb. ok_inv. by bools. }
  rewrite andb_true_iff, existsb_exists, negb_true_iff, Nat.eqb_neq. split; [split|].
  - intros [_ (v & Hin & Hb)]. bools. exists vals, v. split_and!; [done|by apply list_elem_of_In|done].
  - intros (vals' & v & [= <-] & Hin & <-). rewrite (Hl v Hin). split; [done|]. exists v.
    split; [by apply list_elem_of_In|by apply bool_decide_eq_true].
  - intros [_ (v & Hin & Hb)]. bools. rewrite <- Hb. by apply Hl, list_elem_of_In.
Qed.

(** The commit in the first block, and in later ones. *)
Lemma first_commit_iff commit :
  Commit_ValidateBasic commit = Ok tt ∧ Commit_ThresholdBlockSignature commit = [] ↔
  (0 ≤ Commit_Round commit)%Z ∧ (∃ es, VoteExtensionsFromProto (Commit_ThresholdVoteExtensions commit) = Ok es) ∧
  Commit_Height commit = 0%Z ∧ Commit_ThresholdBlockSignature commit = [].
Proof.
  clear. unfold Commit_ValidateBasic. split.
  - intros [E Es]. rewrite Es in E. do 2 (apply guard_Ok in E as [? E]). bools.
    apply bind_Ok in E as ([] & E1 & E). apply bind_Ok in E as (es & E2%wrap_err_Ok & _).
    destruct (Z.leb_spec 1 (Commit_Height commit)) as [Hh|Hh].
    + exfalso. destruct (IsNil _); [done|]. apply bind_Ok in E1 as (? & _ & E1). done.
    + split_and!; [done|by exists es|lia|done].
  - intros (Hr & (es & He) & Hh & Es). rewrite Hh, He, (proj2 (Z.ltb_ge _ _) Hr). done.
Qed.

Lemma later_commit_iff commit :
  (0 < Commit_Height commit)%Z → BlockID_ValidateBasic (Commit_BlockID commit) = Ok tt →
  Commit_ValidateBasic commit = Ok tt ↔
  (0 ≤ Commit_Round commit)%Z ∧ (∃ es, VoteExtensionsFromProto (Commit_ThresholdVoteExtensions commit) = Ok es) ∧
  IsNil (Commit_BlockID commit) = false ∧ length (Commit_ThresholdBlockSignature commit) = SignatureSize.
Proof.
  clear. intros Hh Hid. unfold Commit_ValidateBasic. rewrite Hid, (proj2 (Z.ltb_ge (Commit_Height commit) 0)) by lia.
  rewrite (proj2 (Z.leb_le 1 (Commit_Height commit))) by lia. cbn [wrap_err mbind outcome_bind]. split.
  - intros E. apply guard_Ok in E as [? E]. bools. apply bind_Ok in E as ([] & E1 & E). apply bind_Ok in E as (es & E2%wrap_err_Ok & _).
    destruct (IsNil _) eqn:En; [done|]. destruct (negb _) eqn:El in E1; [done|]. bools. split_and!; [done|by exists es|done|done].
  - intros (Hr & (es & He) & En & El). by rewrite En, El, He, (proj2 (Z.ltb_ge _ _) Hr), Nat.eqb_refl.
Qed.

Lemma validateCoreChainLock_iff b s :
  (∀ cl, B_CoreChainLock b = Some cl → CL_ValidateBasic cl = Ok tt) ∧ validateCoreChainLock b s = Ok tt ↔
  match B_CoreChainLock b with
  | None => H_CoreChainLockedHeight (B_Header b) = LastCoreChainLockedBlockHeight s
  | Some cl => H_CoreChainLockedHeight (B_Header b) = CL_Height cl ∧
      (LastCoreChainLockedBlockHeight s < CL_Height cl)%Z ∧ CL_Height cl ≠ 0%Z ∧
      length (CL_Hash cl) = DefaultHashSize ∧ length (CL_Signature cl) = bls_SignatureSize
  end.
Proof.
  clear. unfold validateCoreChainLock. destruct (B_CoreChainLock b) as [cl|].
  - split.
    + intros [Hb E]. specialize (Hb cl eq_refl). apply CL_ValidateBasic_Ok in Hb.
      do 2 (apply guard_Ok in E as [? E]). bools. split_and!; try apply Hb; [done|lia].
    + intros (E & Hlt & Hb). split; [intros cl' [= <-]; by apply CL_ValidateBasic_Ok|].
      rewrite E, Z.eqb_refl. cbn [negb]. by rewrite (proj2 (Z.leb_gt _ _) Hlt).
  - split; [intros [_ E]; apply guard_Ok in E as [? _]; by bools|]. intros ->. split; [done|]. by rewrite Z.eqb_refl.
Qed.

Lemma height_cases s :
  state_ok s →
  (LastBlockHeight s = 0 ∧ next_height s = InitialHeight s)%Z ∨
  (0 < LastBlockHeight s < MaxInt64 ∧ InitialHeight s < next_height s ∧ next_height s = LastBlockHeight s + 1)%Z.
Proof.
  clear. intros Hs. pose proof (so_initial _ Hs). unfold next_height.
  destruct (so_height _ Hs), (Z.eqb_spec (LastBlockHeight s) 0); lia.
Qed.

(** The last commit, for the two kinds of blocks. *)
Lemma commit_part s b lc commit :
  state_ok s → minted lc → H_Height (B_Header b) = next_height s → B_LastCommit b = Some commit →
  BlockID_ValidateBasic (LastBlockID s) = Ok tt →
  Commit_ValidateBasic commit = Ok tt ∧ commit_follows s b lc ↔
  (0 ≤ Commit_Round commit)%Z ∧ (∃ es, VoteExtensionsFromProto (Commit_ThresholdVoteExtensions commit) = Ok es) ∧
  if (LastBlockHeight s =? 0)%Z
  then Commit_Height commit = 0%Z ∧ Commit_ThresholdBlockSignature commit = []
  else ∃ vals, State_LastValidators s = Some vals ∧ IsNil (LastBlockID s) = false ∧
         length (Commit_ThresholdBlockSignature commit) = SignatureSize ∧
         commit_valid vals (ChainID s) (LastBlockID s) (LastBlockHeight s) commit.
Proof.
  clear. intros Hs Hm Hh Hc Hid. unfold commit_follows. rewrite Hh.
  destruct (height_cases s Hs) as [[Hz En]|(Hz & Hn & En)].
  - rewrite Hz, En, Z.eqb_refl. cbn [Z.eqb]. rewrite Hc, <- first_commit_iff. naive_solver.
  - rewrite (proj2 (Z.eqb_neq (next_height s) (InitialHeight s))), (proj2 (Z.eqb_neq (LastBlockHeight s) 0)) by lia.
    destruct (so_last_vals _ Hs) as (vals & El & _); [lia|].
    assert (int64 (H_Height (B_Header b) - 1) = LastBlockHeight s) as Ei by (rewrite int64_id; unfold_ints; lia).
    rewrite (last_commit_iff s b commit vals lc Hc El Hm), Ei.
    assert (commit_valid vals (ChainID s) (LastBlockID s) (LastBlockHeight s) commit →
      Commit_ValidateBasic commit = Ok tt ↔ (0 ≤ Commit_Round commit)%Z ∧
      (∃ es, VoteExtensionsFromProto (Commit_ThresholdVoteExtensions commit) = Ok es) ∧ IsNil (LastBlockID s) = false ∧
      length (Commit_ThresholdBlockSignature commit) = SignatureSize) as Hb.
    { intros (E1 & E2 & _). rewrite E2. apply later_commit_iff; [lia|by rewrite <- E2]. }
    split; [intros [Hcb Hv]|intros (Hr & He & vals' & [= <-]%(eq_trans (eq_sym El)) & Hn' & Hs' & Hv)].
    + apply Hb in Hcb as (? & ? & ? & ?); [|done]. split_and!; [done|done|]. by exists vals.
    + split; [|done]. by apply Hb.
Qed.

Lemma valid_sound s rp c b lc :
  state_ok s → changes_of rp s c → minted lc →
  validateBlock s (Some b) lc = Ok tt → checkRoundState s c b lc = Ok tt → block_valid s c b.
Proof.
  clear. intros Hs Hch Hm Hv Hr. apply block_follows_iff in Hv as [Hb Hf Hc (size & Hsz & Hle)].
  destruct (header_next_height _ _ Hs Hf) as [Hn _]. destruct (checkRoundState_Ok _ _ _ _ Hr) as (Ra & Rr & _ & Rv & Rp & Rc).
  destruct (ch_results _ _ _ Hch) as (rh & _ & Eres).
  assert (∀ cl, B_CoreChainLock b = Some cl → CL_ValidateBasic cl = Ok tt) as Hcl.
  { apply Block_ValidateBasic_Ok in Hb as (? & ? & _ & _ & _ & _ & _ & _ & _ & _ & Hcl). intros cl E. by rewrite E in Hcl. }
  apply Block_ValidateBasic_Ok in Hb as (commit & ev & Ec & Hh & Hcb & Eh & Et & Eev & Eer & Eve & _).
  unfold Header_ValidateBasic in Hh. do 4 (apply guard_Ok in Hh as [? Hh]). apply bind_Ok in Hh as ([] & Hid%wrap_err_Ok & _). bools.
  destruct Hf as [F1 F2 _ _ F5 F6 F7 F8 _ F10]. rewrite F5 in Hid.
  split; try done.
  - rewrite <- F1. split; done.
  - split; [done|]. rewrite <- F2. lia.
  - destruct (height_cases s Hs) as [[Hz En]|(Hz & Hlt & En)].
    + rewrite Hz. cbn [Z.eqb]. lia.
    + rewrite (proj2 (Z.eqb_neq (LastBlockHeight s) 0)) by lia. lia.
  - by apply HasValidator_iff; [apply Hs|].
  - apply Rr. by rewrite Eres.
  - exists ev, size. split_and!; try done. by apply validate_evidence_Ok.
  - by apply validateCoreChainLock_iff.
  - exists commit. split_and!; [done|done|..]; by apply (commit_part s b lc commit Hs Hm Hn Ec Hid).
Qed.

Lemma valid_complete s rp c b lc :
  state_ok s → changes_of rp s c → minted lc → block_lens b → (Z.of_nat (length (RP_TxResults rp)) ≤ MaxInt64)%Z →
  block_valid s c b → validateBlock s (Some b) lc = Ok tt ∧ checkRoundState s c b lc = Ok tt.
Proof using sha_len.
  intros Hs Hch Hm [L1 L2] L3 [[V1 V2] [C1 C2] Hh [I1 I2] Ht [P1 P2] [S1 S2] Hp Ha Hr Htx (evs & size & E1 & E2 & E3 & E4 & E5) Hl
    (commit & Ec & Elc & Hcm)].
  pose proof (next_height_pos s Hs) as Hpos. apply validateCoreChainLock_iff in Hl as [Hcl Hl].
  destruct (HasValidator_iff s (H_ProposerProTxHash (B_Header b)) (so_vals _ Hs)) as [Hpi Hpl]. apply Hpi in Hp. specialize (Hpl Hp).
  destruct (proj2 (commit_part s b lc commit Hs Hm Hh Ec I2) Hcm) as [Hcb Hcf].
  assert (length (slice (H_LastCommitHash (B_Header b))) = 32) as L4 by (by rewrite Elc).
  assert (length (slice (H_DataHash (B_Header b))) = 32) as L5 by (eapply (root_32 sha_len); [|exact Htx]; by rewrite length_map).
  assert (length (slice (H_EvidenceHash (B_Header b))) = 32) as L6.
  { eapply (root_32 sha_len); [|exact E2]. by rewrite (length_EvidenceList_Bytes _ _ E1). }
  assert (length (H_ResultsHash (B_Header b)) = 32) as L7.
  { destruct (ch_results _ _ _ Hch) as (rh & Hrh%wrap_err_Ok & Ers). rewrite Hr, Ers.
    eapply (root_32 sha_len); [|exact Hrh]. by rewrite length_map. }
  assert (valid_vals (CRS_NextValidators c)) as Hnv.
  { destruct (ch_vals _ _ _ Hch) as (nv & -> & Hnv%valsetUpdate_valid). by exists nv. }
  assert (Header_ValidateBasic (B_Header b) = Ok tt) as Hhb.
  { apply Header_ValidateBasic_intro; try done; [by rewrite C1|lia|by rewrite I1|].
    repeat apply Forall_cons_2; [..|apply Forall_nil_2]; try done.
    - by eapply valid_vals_hash; [apply Hs|].
    - by eapply valid_vals_hash.
    - rewrite P1. apply sha_len.
    - rewrite P2. apply sha_len. }
  assert (Block_ValidateBasic (Some b) = Ok tt) as Hb.
  { eapply (Block_ValidateBasic_intro b commit); try done; [unfold Checksum; rewrite <- Elc; by apply slice_some|by apply slice_some|by apply validate_evidence_Ok| |by apply slice_some].
    unfold EvidenceList_Hash. by rewrite E1. }
  destruct (height_cases s Hs) as [Hz|(Hz & Hlt & En)].
  - destruct Hz as [Hz En]. split.
    + apply block_follows_iff. split; try done; [|by exists size]. split; try done; [congruence|intros _; congruence|lia|].
      right. rewrite Hz in Ht. cbn [Z.eqb] in Ht. split; [congruence|done].
    + apply checkRoundState_intro; try done. rewrite Hh, En. lia.
  - rewrite (proj2 (Z.eqb_neq (LastBlockHeight s) 0)) in Ht by lia. split.
    + apply block_follows_iff. split; try done; [|by exists size]. split; try done; [congruence|lia| |left; lia].
      intros _. rewrite Hh, En, int64_id; [done|unfold_ints; lia].
    + apply checkRoundState_intro; try done. intros _. unfold commit_follows in Hcf. rewrite Hh in Hcf.
      by rewrite (proj2 (Z.eqb_neq (next_height s) (InitialHeight s))) in Hcf by lia.
Qed.

(** C7: the checks of a block accept exactly the blocks that may come after a state with the
    changes that the application made: the one against the state ([validateBlock]) and the one
    against the changes ([checkRoundState]) both succeed if and only if the header continues the
    chain (version, chain, height, last block, a later time, the hashes of the parameters and
    the validators of this and of the next height, a proposer among the validators, the hashes
    of the application, if it gave one, and of its results), has the hashes of the transactions, of valid evidence
    within its limit and of the last commit, that commit is signed by the last validators for
    the last block, or unsigned and of height 0 in the first block, and the core chain is locked
    at the height of a new complete lock above the last one or as before.  A proof that spares
    the verification of the commit makes no difference when it comes from a verification. *)
Theorem validation_exact s rp c b lc :
  state_ok s → changes_of rp s c → minted lc → block_lens b → (Z.of_nat (length (RP_TxResults rp)) ≤ MaxInt64)%Z →
  (validateBlock s (Some b) lc = Ok tt ∧ checkRoundState s c b lc = Ok tt) ↔ block_valid s c b.
Proof using sha_len.
  intros Hs Hch Hm Hl Hr. split; [intros [Hv Hc]; by eapply valid_sound|by eapply valid_complete].
Qed.

End hashes.
End thms.

End execthms.
