(* ===== verification/ExecutionDemo.v ===== *)
(** * internal/state: a chain that is executed

    Toy instances of the interfaces of the block executor and a chain with one
    validator, on which it proposes two blocks and applies them. *)
From Stdlib Require Import ZArith Lia Init.Byte.
From stdpp Require Import base numbers list sets.
From S2P Require Import Prelude.
From S2P Require Import StateM.
From S2P Require Import Merkle.
From S2P Require Import PartSet.
From S2P Require Import Types.
From S2P Require Import Crypto.
From S2P Require Import QuorumSign.
From S2P Require Import Proposal.
From S2P Require Import ValidatorSet.
From S2P Require Import Evidence.
From S2P Require Import Block.
From S2P Require Import Params.
From S2P Require Import Txs.
From S2P Require Import SmState.
From S2P Require Import SmStateThms.
From S2P Require Import Execution.
From S2P Require Import ExecutionThms.

Import statem types crypto quorum proposal valset evidence block params txs sm smthms abci execution.
Import execthms.

Module execdemo.

#[local] Existing Instance toy_crypto.
#[local] Existing Instance toy_dashd.
#[local] Existing Instance toy_time.

Definition toy_url : NetURL := {| url_Parse := λ _, None; ToLower := λ s, s |}.

(** Accepts all transactions and has always the same hash. *)
Definition toy_abci : ABCI := {|
  AbciApp := unit;
  abci_PrepareProposal := λ app req,
    (app, inl (mkRespPP (map (mkTxRecord TxRecord_UNMODIFIED) (RPP_Txs req)) (Some (demo_hash x06))
                 (map (λ _, mkTxResult 0 [] [] [] 1 []) (RPP_Txs req)) None None None 1));
  abci_ProcessProposal := λ app req,
    (app, inl (mkRespProc ResponseProcessProposal_ACCEPT (Some (demo_hash x06))
                 (map (λ _, mkTxResult 0 [] [] [] 1 []) (RProc_Txs req)) None None));
  abci_FinalizeBlock := λ app _, (app, inl (mkRespFB 0 false));
  abci_ExtendVote := λ app _, (app, inl []);
  abci_VerifyVoteExtension := λ app _, (app, inl ResponseVerifyVoteExtension_ACCEPT) |}.

Definition toy_mempool : Mempool := {|
  Pool := list bytes;
  ReapMaxBytesMaxGas := λ p _ _, p;
  RemoveTxByKey := λ p _, p;
  FlushAppConn := λ p, (p, true);
  Mempool_Update := λ _ _ _ _ _ _ _, ([], true) |}.

Definition toy_evpool : EvidencePool := {|
  EvPool := unit;
  PendingEvidence := λ p _, (p, ([], 0%Z));
  CheckEvidence := λ p _, (p, true);
  EvPool_Update := λ p _ _, p |}.

Definition toy_stores : Stores := {|
  StateDB := list State;
  Store_Save := λ l s, (l ++ [s], true);
  SaveABCIResponses := λ l _ _, (l, true);
  PruneStates := λ l _, (l, true);
  BlockDB := unit;
  BlockStore_Base := λ _, 1%Z;
  PruneBlocks := λ b _, (b, true) |}.

#[local] Existing Instance toy_url.
#[local] Existing Instance toy_abci.
#[local] Existing Instance toy_mempool.
#[local] Existing Instance toy_evpool.
#[local] Existing Instance toy_stores.

Definition solo : ValidatorSet := demo_valset [x07].

Definition genesis : State :=
  mkState (mkStateVersion (mkVersion BlockProtocol 1) []) [x61] 1 0 0 nilBlockID (77 * millisecond) 3
    (Some solo) None 1 DefaultConsensusParams 1 [] [].

Definition executor0 : BlockExecutor :=
  NewBlockExecutor ([] : @StateDB toy_stores) (tt : @AbciApp toy_abci)
    ([[x01]; [x02; x03]] : @Pool toy_mempool) (tt : @EvPool toy_evpool) (tt : @BlockDB toy_stores)
    (demo_hash x07) (λ n, (100 + Z.of_nat n) * millisecond)%Z.

(** The block proposed on a state, with its id and a commit for it. *)
Definition propose (s : State) (commit : Commit) (e : BlockExecutor) :
    option (Block * CurrentRoundState) :=
  match be_CreateProposalBlock (next_height s) 0 s commit (demo_hash x07) 1 e with
  | (_, Ok r) => Some r
  | _ => None
  end.

Definition id_of (b : Block) : BlockID :=
  match Block_BlockID (Some b) None with Ok id => id | _ => nilBlockID end.

Definition commit_of (s : State) (b : Block) : Commit :=
  let c := mkCommit (H_Height (B_Header b)) 0 (id_of b) (QuorumHash solo) [] [] in
  match commitSignData solo (ChainID s) (id_of b) (H_Height (B_Header b)) c with
  | Ok q => mkCommit (H_Height (B_Header b)) 0 (id_of b) (QuorumHash solo)
              (toy_sign (SI_SignHash (QSD_Block q))) []
  | _ => c
  end.

Definition block0 : Block := mkBlock demo_header (mkData []) None [] None.
Definition empty_commit : Commit := mkCommit 0 0 nilBlockID [] [] [].

Definition block1 : Block := Eval vm_compute in
  from_option fst block0 (propose genesis empty_commit executor0).
Definition commit1 : Commit := Eval vm_compute in commit_of genesis block1.

Definition applied (s : State) (b : Block) (c : Commit) : State :=
  match ApplyBlock s (id_of b) b c None executor0 with (_, Ok s) => s | _ => s end.

Definition state1 : State := Eval vm_compute in applied genesis block1 commit1.
Definition block2 : Block := Eval vm_compute in from_option fst block0 (propose state1 commit1 executor0).
Definition commit2 : Commit := Eval vm_compute in commit_of state1 block2.
Definition state2 : State := Eval vm_compute in applied state1 block2 commit2.

Definition id1 : BlockID := Eval vm_compute in id_of block1.
Definition id2 : BlockID := Eval vm_compute in id_of block2.

Definition chain12 : list (BlockID * Block * Commit * option commitProof) :=
  [(id1, block1, commit1, None); (id2, block2, commit2, None)].

Lemma chain12_applied :
  (apply_blocks genesis chain12 executor0).2 = Ok state2 ∧ LastBlockHeight state2 = 2%Z.
Proof. split; vm_compute; reflexivity. Qed.

(** ** The hypotheses of the theorems hold *)

Lemma toy_sha_len b : length (sha256 b) = 32.
Proof. apply merkle.toy_hash_len. Qed.

Lemma solo_valid : valset_ValidateBasic solo = Ok tt.
Proof. vm_compute. reflexivity. Qed.

Lemma genesis_ok : state_ok genesis.
Proof.
  split; try done; try (by exists solo; split; [|apply solo_valid]); try (by left).
  apply ValidateConsensusParams_Ok. vm_compute. reflexivity.
Qed.

(** The strings hashed for the two headers. *)
Definition inputs1 : list bytes := Eval vm_compute in header_inputs (B_Header block1).
Definition inputs2 : list bytes := Eval vm_compute in header_inputs (B_Header block2).
Definition inputs : list bytes := inputs1 ++ inputs2.

Lemma inputs_inj x y : x ∈ inputs → y ∈ inputs → sha256 x = sha256 y → x = y.
Proof.
  assert (merkle.no_collision merkle.toy_hash inputs) as Hn; [|apply Hn].
  apply merkle.no_collision_decide. vm_compute. reflexivity.
Qed.

Lemma header_ints_demo b : b = block1 ∨ b = block2 → header_ints (B_Header b).
Proof.
  intros [->| ->]; unfold header_ints, blockid_ints, short;
    repeat (apply Forall_cons || split || apply Forall_nil);
    vm_compute; try (intros ?; discriminate); reflexivity.
Qed.

Lemma no_proof : minted None.
Proof. intros pr [=]. Qed.

Lemma blocks_go : Forall (λ x, go_block (λ z, z ∈ inputs) x.1.1.2 ∧ minted x.2) chain12.
Proof.
  assert (header_inputs (B_Header block1) = inputs1) as E1 by (vm_compute; reflexivity).
  assert (header_inputs (B_Header block2) = inputs2) as E2 by (vm_compute; reflexivity).
  apply Forall_cons_2; [|apply Forall_cons_2; [|apply Forall_nil_2]]; cbn [fst snd].
  - split; [|exact no_proof]. split; [vm_compute; reflexivity|]. split; [apply header_ints_demo; by left|].
    split; [eexists; vm_compute; reflexivity|]. rewrite E1. apply Forall_forall. intros z Hz.
    apply elem_of_app. by left.
  - split; [|exact no_proof]. split; [vm_compute; reflexivity|]. split; [apply header_ints_demo; by right|].
    split; [eexists; vm_compute; reflexivity|]. rewrite E2. apply Forall_forall. intros z Hz.
    apply elem_of_app. by right.
Qed.

Lemma cache_empty : cache_ok (λ z, z ∈ inputs) genesis executor0.
Proof. intros h Hh. change (be_cache executor0) with (@nil bytes) in Hh. inversion Hh. Qed.

Lemma apply_blocks_refines_witness :
  light_run (view_of genesis) chain12 (view_of state2) ∧ next_height state2 = 3%Z.
Proof.
  destruct (apply_blocks genesis chain12 executor0) as [e' r] eqn:E.
  pose proof (f_equal snd E) as E2. rewrite (proj1 chain12_applied) in E2. cbn in E2. subst r.
  destruct (apply_blocks_refines (λ z, z ∈ inputs) toy_sha_len toy_time_law inputs_inj genesis
    chain12 executor0 e' state2 genesis_ok) as (Hr & _ & Hn).
  - exact cache_empty.
  - exact blocks_go.
  - vm_compute. discriminate.
  - exact E.
  - split; [exact Hr|exact Hn].
Defined.

(** The changes of the first block, as the application processes it. *)
Lemma processed1 : ∃ e1 c e2 resp,
  be_ProcessProposal block1 0 genesis false None executor0 = (e1, Ok c) ∧ be_cache e1 = [] ∧
  be_FinalizeBlock genesis c id1 block1 commit1 None e1 = (e2, Ok (state1, resp)).
Proof.
  assert (match be_ProcessProposal block1 0 genesis false None executor0 with
    | (e1, Ok c) => match be_FinalizeBlock genesis c id1 block1 commit1 None e1 with
                    | (_, Ok (s, _)) => Some (be_cache e1, s)
                    | _ => None
                    end
    | _ => None
    end = Some ([], state1)) as E by (vm_compute; reflexivity).
  destruct (be_ProcessProposal _ _ _ _ _ _) as [e1 [c|x|]]; [|discriminate E..].
  destruct (be_FinalizeBlock _ _ _ _ _ _ _) as [e2 [[s resp]|x|]] eqn:E2; [|discriminate E..].
  injection E as Ec ->. exists e1, c, e2, resp. split; [reflexivity|]. split; [exact Ec|exact E2].
Qed.

Lemma FinalizeBlock_type_witness :
  state_ok state1 ∧ State_LastValidators state1 = Some solo.
Proof.
  destruct processed1 as (e1 & c & e2 & resp & E1 & Ec & E2).
  destruct (be_ProcessProposal_changes _ _ _ _ _ _ _ E1) as (rp & Hch & _).
  pose proof (proj1 (Forall_inv blocks_go)) as Hg.
  destruct (FinalizeBlock_type (λ z, z ∈ inputs) toy_sha_len toy_time_law inputs_inj genesis rp c id1
    block1 commit1 None e1 e2 state1 resp genesis_ok Hch Hg) as (Hs & _ & _ & Hl).
  - intros h Hh. rewrite Ec in Hh. inversion Hh.
  - vm_compute. reflexivity.
  - exact E2.
  - split; [exact Hs|exact Hl].
Defined.

(** A block of a later height is refused. *)
Lemma ApplyBlock_refused_witness :
  ∃ e' x, ApplyBlock genesis id2 block2 commit2 None executor0 = (e', Err x) ∧
    untouched (B_Evidence block2) executor0 e'.
Proof.
  destruct (ApplyBlock genesis id2 block2 commit2 None executor0) as [e' r] eqn:E.
  assert (r = Err (ErrInvalidBlock (ErrState ErrBlockHeight))) as Er.
  { transitivity (ApplyBlock genesis id2 block2 commit2 None executor0).2; [by rewrite E|].
    vm_compute. reflexivity. }
  exists e', (ErrInvalidBlock (ErrState ErrBlockHeight)). rewrite Er in *. split; [reflexivity|].
  exact (proj2 (ApplyBlock_refused genesis id2 block2 commit2 None executor0 e' _ E)).
Defined.

Lemma state1_ok : state_ok state1.
Proof.
  split; try done; try (by exists solo; split; [|apply solo_valid]).
  - right. vm_compute. split; [discriminate|reflexivity].
  - apply ValidateConsensusParams_Ok. vm_compute. reflexivity.
Qed.

Lemma state1_proposes : can_propose state1 commit1 (demo_hash x07) executor0.
Proof.
  constructor.
  - exact state1_ok.
  - reflexivity.
  - vm_compute. repeat constructor.
  - vm_compute. reflexivity.
  - vm_compute. reflexivity.
  - reflexivity.
  - vm_compute. reflexivity.
  - exists solo. split; vm_compute; reflexivity.
  - intros n. change (77 * millisecond < Canonical ((100 + Z.of_nat n) * millisecond))%Z.
    unfold Canonical, millisecond, Millisecond. rewrite Z.mod_mul by lia. lia.
  - split; [reflexivity|]. exists 0%Z. split; [reflexivity|]. vm_compute. discriminate.
Qed.

Lemma proposed : ∃ e' c,
  be_CreateProposalBlock (next_height state1) 0 state1 commit1 (demo_hash x07) 1 executor0 =
    (e', Ok (block2, c)).
Proof.
  assert (fst <$> (be_CreateProposalBlock (next_height state1) 0 state1 commit1 (demo_hash x07) 1
    executor0).2 = Ok block2) as E by (vm_compute; reflexivity).
  destruct (be_CreateProposalBlock _ _ _ _ _ _ _) as [e' [[b c]|x|]]; [|discriminate E..].
  injection E as ->. by exists e', c.
Qed.

Lemma proposal_valid_witness :
  validateBlock state1 (Some block2) None = Ok tt ∧ ∃ c, checkRoundState state1 c block2 None = Ok tt.
Proof.
  destruct proposed as (e' & c & E).
  destruct (proposal_valid toy_sha_len state1 0 commit1 (demo_hash x07) 1 executor0 e' block2 c
    state1_proposes) as [Hv Hc]; [split; vm_compute; discriminate|exact E|].
  split; [exact Hv|exists c; exact Hc].
Defined.

(** The changes of the second block, against which it is checked. *)
Lemma processed2 : ∃ e1 c,
  be_ProcessProposal block2 0 state1 false None executor0 = (e1, Ok c) ∧ length (CRS_TxResults c) ≤ 10 ∧
  validateBlock state1 (Some block2) None = Ok tt ∧ checkRoundState state1 c block2 None = Ok tt.
Proof.
  assert (match be_ProcessProposal block2 0 state1 false None executor0 with
    | (e1, Ok c) => (length (CRS_TxResults c) <=? 10) &&
                    match checkRoundState state1 c block2 None with Ok _ => true | _ => false end
    | _ => false
    end = true) as E by (vm_compute; reflexivity).
  assert (validateBlock state1 (Some block2) None = Ok tt) as Ev by (vm_compute; reflexivity).
  destruct (be_ProcessProposal _ _ _ _ _ _) as [e1 [c|x|]]; [|discriminate E..].
  apply andb_true_iff in E as [El Ec]. exists e1, c. split; [reflexivity|]. split; [exact (proj1 (Nat.leb_le _ _) El)|].
  split; [exact Ev|]. destruct (checkRoundState _ _ _ _) as [[]|x|]; [reflexivity|discriminate Ec..].
Qed.

Lemma validation_exact_witness : ∃ c, block_valid state1 c block2.
Proof.
  destruct processed2 as (e1 & c & E & Hl & Hv & Hr).
  destruct (be_ProcessProposal_changes _ _ _ _ _ _ _ E) as (rp & Hch & _).
  assert (Z.of_nat (length (RP_TxResults rp)) ≤ MaxInt64)%Z as Hn by (rewrite <- (ch_txs _ _ _ Hch); unfold MaxInt64; lia).
  assert (block_lens block2) as Hb by (split; vm_compute; discriminate).
  exists c. exact (proj1 (validation_exact toy_sha_len state1 rp c block2 None state1_ok Hch no_proof Hb Hn) (conj Hv Hr)).
Defined.

End execdemo.
