(* ===== verification/SelectProposer.v ===== *)
(** * internal/consensus/versioned/selectproposer: who proposes

    Models [src/internal/consensus/versioned/selectproposer]: the selector that
    advances the proposer by one every height and the one that advances it every
    height and round, both built from the block store and moved incrementally, and
    [BlockMeta] of [src/types/block_meta.go].  The block store is an interface of
    the package and a record of its two methods here.  The mutex is held for the
    whole body of every method and is not modelled. *)
From Stdlib Require Import ZArith Lia Init.Byte.
From stdpp Require Import base numbers list sets.
From S2P Require Import Prelude.
From S2P Require Import Merkle.
From S2P Require Import Types.
From S2P Require Import Crypto.
From S2P Require Import QuorumSign.
From S2P Require Import ValidatorSet.
From S2P Require Import Evidence.
From S2P Require Import Block.

Import types crypto quorum valset evidence block.

Module selectproposer.

Record BlockMeta := mkBlockMeta {
  Meta_BlockID : BlockID;
  Meta_BlockSize : Z;
  Meta_Header : Header;
  Meta_NumTxs : Z;
  Meta_Round : Z;
  Meta_HasCoreChainLock : bool }.

(** The interface [BlockStore]. *)
Record BlockStore := mkBlockStore {
  Base : Z;
  LoadBlockMeta : Z → option BlockMeta }.

(** Both selectors; only the second one has a round. *)
Inductive ProposerSelector :=
  | heightProposerSelector (valSet : ValidatorSet) (height : Z) (bs : option BlockStore)
  | heightRoundProposerSelector (valSet : ValidatorSet) (height round : Z) (bs : option BlockStore).

Inductive select_error :=
  | ErrSelectEmptySet
  | ErrSelectNilStore
  | ErrSelectHashMismatch
  | ErrSelectNoPrevious
  | ErrSelectSetProposer (e : valset_error)
  | ErrSelectBack
  | ErrSelectJump
  | ErrSelectVersion.

Notation res := (outcome select_error).

Definition sel_valSet (s : ProposerSelector) : ValidatorSet :=
  match s with heightProposerSelector v _ _ | heightRoundProposerSelector v _ _ _ => v end.

Definition sel_height (s : ProposerSelector) : Z :=
  match s with heightProposerSelector _ h _ | heightRoundProposerSelector _ h _ _ => h end.

(** The round the proposer index stands for: the first selector keeps none. *)
Definition sel_round (s : ProposerSelector) : Z :=
  match s with heightProposerSelector _ _ _ => 0 | heightRoundProposerSelector _ _ r _ => r end.

Definition sel_bs (s : ProposerSelector) : option BlockStore :=
  match s with heightProposerSelector _ _ bs | heightRoundProposerSelector _ _ _ bs => bs end.

(** [IncProposerIndex] on a set that is not empty; its loop would not end on an
    empty set with a negative index, which the constructors refuse. *)
Definition inc (vals : ValidatorSet) (times : Z) : res ValidatorSet :=
  match IncProposerIndex vals times with Some o => o | None => Panic end.

Definition set_proposer (vals : ValidatorSet) (proposer : bytes) : res ValidatorSet :=
  wrap_err ErrSelectSetProposer (SetProposer vals proposer).

(** The last lines of both [proposerFromStore]. *)
Definition set_and_inc (vals : ValidatorSet) (proposer : bytes) (indexIncrement : Z) :
    res ValidatorSet :=
  vals ← set_proposer vals proposer;
  if negb (indexIncrement =? 0)%Z then inc vals indexIncrement else Ok vals.

Section selector.
Context `{Crypto}.

(** A Merkle root that cannot be computed panics. *)
Definition vals_hash (vals : ValidatorSet) : res bytes :=
  match valset_Hash vals with Ok h => Ok h | _ => Panic end.

(** [heightProposerSelector.proposerFromStore]: the validator set it leaves. *)
Definition height_proposerFromStore (bs : option BlockStore) (vals : ValidatorSet) (height : Z) :
    res ValidatorSet :=
  match bs with
  | None => Err ErrSelectNilStore
  | Some bs =>
      if ((height =? 0) || (height =? 1))%Z then
        v ← index (Validators vals) 0;
        set_proposer vals (ProTxHash v)
      else
        match LoadBlockMeta bs height with
        | Some meta =>
            hash ← vals_hash vals;
            if negb (bool_decide (H_ValidatorsHash (Meta_Header meta) = hash))
            then Err ErrSelectHashMismatch
            else set_and_inc vals (H_ProposerProTxHash (Meta_Header meta)) (int32 (- Meta_Round meta))
        | None =>
            match LoadBlockMeta bs (int64 (height - 1)) with
            | None => Err ErrSelectNoPrevious
            | Some meta =>
                hash ← vals_hash vals;
                if bool_decide (H_ValidatorsHash (Meta_Header meta) = hash)
                then set_and_inc vals (H_ProposerProTxHash (Meta_Header meta))
                       (int64 (1 - Meta_Round meta))
                else v ← deref (GetByIndex vals 1); set_and_inc vals (ProTxHash v) 0
            end
        end
  end.

(** [heightRoundProposerSelector.proposerFromStore]. *)
Definition round_proposerFromStore (bs : option BlockStore) (vals : ValidatorSet)
    (height round : Z) : res ValidatorSet :=
  match bs with
  | None => Err ErrSelectNilStore
  | Some bs =>
      if ((height =? 0) || (height =? 1))%Z then
        v ← index (Validators vals) 0;
        set_proposer vals (ProTxHash v)
      else
        match LoadBlockMeta bs height with
        | Some meta =>
            hash ← vals_hash vals;
            if negb (bool_decide (H_ValidatorsHash (Meta_Header meta) = hash))
            then Err ErrSelectHashMismatch
            else set_and_inc vals (H_ProposerProTxHash (Meta_Header meta))
                   (int32 (round - Meta_Round meta))
        | None =>
            match LoadBlockMeta bs (int64 (height - 1)) with
            | None => Err ErrSelectNoPrevious
            | Some meta =>
                hash ← vals_hash vals;
                if bool_decide (H_ValidatorsHash (Meta_Header meta) = hash)
                then set_and_inc vals (H_ProposerProTxHash (Meta_Header meta)) (int32 (1 + round))
                else v ← deref (GetByIndex vals 0); set_and_inc vals (ProTxHash v) round
            end
        end
  end.

(** [bs != nil && bs.Base() > 0 && currentHeight >= bs.Base()]. *)
Definition use_store (bs : option BlockStore) (height : Z) : bool :=
  match bs with
  | None => false
  | Some b => ((0 <? Base b) && (Base b <=? height))%Z
  end.

Definition NewHeightProposerSelector (vset : option ValidatorSet) (currentHeight : Z)
    (bs : option BlockStore) : res ProposerSelector :=
  match vset with
  | None => Err ErrSelectEmptySet
  | Some vset =>
      if length (Validators vset) =? 0 then Err ErrSelectEmptySet
      else
        vset ← if use_store bs currentHeight
               then height_proposerFromStore bs vset currentHeight else Ok vset;
        Ok (heightProposerSelector vset currentHeight bs)
  end.

Definition NewHeightRoundProposerSelector (vset : option ValidatorSet)
    (currentHeight currentRound : Z) (bs : option BlockStore) : res ProposerSelector :=
  match vset with
  | None => Err ErrSelectEmptySet
  | Some vset =>
      if length (Validators vset) =? 0 then Err ErrSelectEmptySet
      else
        vset ← if use_store bs currentHeight
               then round_proposerFromStore bs vset currentHeight currentRound else Ok vset;
        Ok (heightRoundProposerSelector vset currentHeight currentRound bs)
  end.

(** The consensus version of the parameters picks the algorithm. *)
Definition NewProposerSelector (consensusVersion : Z) (valSet : option ValidatorSet)
    (valsetHeight valsetRound : Z) (bs : option BlockStore) : res ProposerSelector :=
  if (consensusVersion =? 0)%Z then NewHeightProposerSelector valSet valsetHeight bs
  else if (consensusVersion =? 1)%Z
  then NewHeightRoundProposerSelector valSet valsetHeight valsetRound bs
  else Err ErrSelectVersion.

(** [s.bs == nil || s.bs.Base() > s.height]. *)
Definition no_history (bs : option BlockStore) (height : Z) : bool :=
  match bs with None => true | Some b => (height <? Base b)%Z end.

Definition height_updateScores (valSet : ValidatorSet) (height : Z) (bs : option BlockStore)
    (newHeight : Z) : res ProposerSelector :=
  let heightDiff := int64 (newHeight - height) in
  if (heightDiff =? 0)%Z then Ok (heightProposerSelector valSet height bs)
  else if (heightDiff <? 0)%Z then Err ErrSelectBack
  else if (1 <? heightDiff)%Z then
    if no_history bs height then Err ErrSelectJump
    else
      valSet ← height_proposerFromStore bs valSet newHeight;
      Ok (heightProposerSelector valSet newHeight bs)
  else valSet ← inc valSet 1; Ok (heightProposerSelector valSet newHeight bs).

Definition round_updateScores (valSet : ValidatorSet) (height round : Z) (bs : option BlockStore)
    (newHeight newRound : Z) : res ProposerSelector :=
  let heightDiff := int64 (newHeight - height) in
  let roundDiff := int32 (newRound - round) in
  if ((heightDiff =? 0) && (roundDiff =? 0))%Z
  then Ok (heightRoundProposerSelector valSet height round bs)
  else if ((heightDiff =? 0) && negb (roundDiff =? 0))%Z then
    valSet ← inc valSet roundDiff; Ok (heightRoundProposerSelector valSet height newRound bs)
  else if (heightDiff <? 0)%Z then Err ErrSelectBack
  else if (1 <? heightDiff)%Z then
    if no_history bs height then Err ErrSelectJump
    else
      valSet ← round_proposerFromStore bs valSet newHeight newRound;
      Ok (heightRoundProposerSelector valSet newHeight newRound bs)
  else
    valSet ← inc valSet (int64 (heightDiff + newRound));
    Ok (heightRoundProposerSelector valSet newHeight newRound bs).

Definition UpdateHeightRound (s : ProposerSelector) (newHeight newRound : Z) :
    res ProposerSelector :=
  match s with
  | heightProposerSelector vals h bs => height_updateScores vals h bs newHeight
  | heightRoundProposerSelector vals h r bs => round_updateScores vals h r bs newHeight newRound
  end.

(** [GetProposer], which moves the selector. *)
Definition GetProposer (s : ProposerSelector) (height round : Z) :
    res (ProposerSelector * option Validator) :=
  s ← UpdateHeightRound s height round;
  match s with
  | heightProposerSelector vals _ _ =>
      if (round =? 0)%Z then v ← Proposer vals; Ok (s, v)
      else vs ← inc vals round; v ← Proposer vs; Ok (s, v)
  | heightRoundProposerSelector vals _ _ _ => v ← Proposer vals; Ok (s, v)
  end.

(** ** The order of proposers *)

(** The turns taken by [n] heights from [h0] on: one each, and the rounds that
    failed at a height when they count. *)
Fixpoint turns (carry : Z → Z) (h0 : Z) (n : nat) : Z :=
  match n with
  | O => 0
  | S n => turns carry h0 n + carry (h0 + Z.of_nat n) + 1
  end%Z.

Lemma turns_succ carry h0 h :
  (h0 ≤ h)%Z →
  turns carry h0 (Z.to_nat (h + 1 - h0)) =
    (turns carry h0 (Z.to_nat (h - h0)) + carry h + 1)%Z.
Proof.
  intros Hh. replace (Z.to_nat (h + 1 - h0)) with (S (Z.to_nat (h - h0))) by lia.
  cbn [turns]. rewrite Z2Nat.id by lia. by replace (h0 + (h - h0))%Z with h by lia.
Qed.

Section chain.
Variables (version : Z) (vals : ValidatorSet) (bs : BlockStore) (h0 hi first : Z).

Definition committed_round (h : Z) : Z :=
  match LoadBlockMeta bs h with Some m => Meta_Round m | None => 0 end.

(** The rounds a height uses up. *)
Definition carry (h : Z) : Z := if (version =? 1)%Z then committed_round h else 0.

(** The index whose turn it is at a height and round. *)
Definition turn (h r : Z) : Z :=
  ((first + turns carry h0 (Z.to_nat (h - h0)) + r) mod Size vals)%Z.

Definition proposer_at (h r : Z) : option Validator := Validators vals !! Z.to_nat (turn h r).

(** The store of a node: the validator set is in charge from height [h0] on, the
    blocks up to [hi] are stored and were proposed by the validator whose turn it
    was, the set took over at the genesis or from another set. *)
Record chain : Prop := {
  chain_version : version = 0%Z ∨ version = 1%Z;
  chain_size : (0 < Size vals ≤ MaxInt32)%Z;
  chain_nodup : NoDup (map ProTxHash (Validators vals));
  chain_first : (h0 = 1 ∧ first = 0)%Z ∨
    ((2 ≤ h0)%Z ∧ first = (1 - version)%Z ∧ (first < Size vals)%Z ∧
     ∃ m, LoadBlockMeta bs (h0 - 1) = Some m ∧
          vals_hash vals ≠ Ok (H_ValidatorsHash (Meta_Header m)));
  chain_range : (h0 - 1 ≤ hi < MaxInt64)%Z;
  chain_hash : ∃ hash, vals_hash vals = Ok hash;
  chain_stored h : (h0 ≤ h ≤ hi)%Z → ∃ m, LoadBlockMeta bs h = Some m ∧
    vals_hash vals = Ok (H_ValidatorsHash (Meta_Header m)) ∧
    (0 ≤ Meta_Round m < MaxInt32)%Z ∧
    Some (H_ProposerProTxHash (Meta_Header m)) = ProTxHash <$> proposer_at h (Meta_Round m);
  chain_tip h : (hi < h)%Z → LoadBlockMeta bs h = None }.

Hypothesis Hchain : chain.

Local Notation at_index i := (set_proposerIndex vals i).

Lemma turn_range h r : (0 ≤ turn h r < Size vals)%Z.
Proof using Hchain. apply Z.mod_pos_bound. destruct Hchain. lia. Qed.

Lemma turn_add h r d : ((turn h r + d) mod Size vals)%Z = turn h (r + d).
Proof using Hchain. unfold turn. rewrite Zplus_mod_idemp_l. f_equal. lia. Qed.

Lemma turn_next h r : (h0 ≤ h)%Z → turn (h + 1) r = turn h (carry h + 1 + r).
Proof using. intros Hh. unfold turn. rewrite turns_succ by done. f_equal. lia. Qed.

Lemma turn_h0 r : turn h0 r = ((first + r) mod Size vals)%Z.
Proof using. unfold turn. rewrite Z.sub_diag. cbn [Z.to_nat turns]. by rewrite Z.add_0_r. Qed.

Lemma lookup_index i : (0 ≤ i < Size vals)%Z → is_Some (Validators vals !! Z.to_nat i).
Proof using. intros Hi. apply lookup_lt_is_Some. unfold Size in Hi. lia. Qed.

Lemma inc_Ok i d :
  in_int32 i → in_int64 (i + d) → inc (at_index i) d = Ok (at_index ((i + d) mod Size vals)).
Proof using Hchain.
  intros Hi Hd. unfold inc. destruct Hchain.
  by destruct (IncProposerIndex_Ok (E:=select_error) (at_index i) d) as [-> _].
Qed.

Lemma inc_turn h r d :
  in_int32 d → inc (at_index (turn h r)) d = Ok (at_index (turn h (r + d))).
Proof using Hchain.
  intros Hd. pose proof (turn_range h r). destruct Hchain. rewrite <- turn_add.
  apply inc_Ok; unfold_ints; lia.
Qed.

Lemma set_proposer_Ok i k v :
  (0 ≤ i)%Z → Validators vals !! Z.to_nat i = Some v →
  set_proposer (at_index k) (ProTxHash v) = Ok (at_index i).
Proof using Hchain.
  intros Hi Hv. unfold set_proposer, SetProposer. destruct Hchain.
  rewrite (GetByProTxHash_lookup _ (Z.to_nat i)); [|cbn; done|cbn; unfold Size in *; cbn in *; lia|done].
  orun. rewrite Z2Nat.id by done. by destruct (Z.ltb_spec i 0); [lia|].
Qed.

(** Setting the proposer of a height and round and rotating. *)
Lemma set_and_inc_turn h r d k hash :
  in_int32 d → Some hash = ProTxHash <$> proposer_at h r →
  set_and_inc (at_index k) hash d = Ok (at_index (turn h (r + d))).
Proof using Hchain.
  intros Hd Hp. unfold proposer_at in Hp. destruct (Validators vals !! _) as [v|] eqn:Hv; [|done].
  injection Hp as ->. pose proof (turn_range h r). unfold set_and_inc.
  rewrite (set_proposer_Ok (turn h r)) by (done || lia). orun.
  destruct (Z.eqb_spec d 0) as [->|]; cbn [negb]; [by rewrite Z.add_0_r|by apply inc_turn].
Qed.

Lemma first_turn k v :
  h0 = 1%Z → first = 0%Z → Validators vals !! 0 = Some v →
  set_proposer (at_index k) (ProTxHash v) = Ok (at_index (turn 1 0)).
Proof using Hchain.
  intros E1 E0 Hv. rewrite (set_proposer_Ok 0) by done. f_equal. f_equal.
  rewrite <- E1, turn_h0, E0. by rewrite Z.mod_0_l by (destruct Hchain; lia).
Qed.

Lemma genesis_store k :
  h0 = 1%Z → first = 0%Z →
  (v ← index (Validators (at_index k)) 0; set_proposer (at_index k) (ProTxHash v)) =
    Ok (at_index (turn 1 0)).
Proof using Hchain.
  intros E1 E0. destruct (lookup_index 0) as [v Hv]; [destruct Hchain; lia|].
  unfold index. cbn [Z.ltb Z.compare Validators set_proposerIndex]. rewrite Hv. cbn [deref].
  orun. by apply first_turn.
Qed.

(** What the store knows at a height: the block, the block before it, or the
    block of the set before this one. *)
Lemma store_cases h :
  (2 ≤ h)%Z → (h0 ≤ h ≤ hi + 1)%Z →
  (∃ m, LoadBlockMeta bs h = Some m ∧ vals_hash vals = Ok (H_ValidatorsHash (Meta_Header m)) ∧
        (0 ≤ Meta_Round m < MaxInt32)%Z ∧
        Some (H_ProposerProTxHash (Meta_Header m)) = ProTxHash <$> proposer_at h (Meta_Round m)) ∨
  (LoadBlockMeta bs h = None ∧ (h0 ≤ h - 1)%Z ∧
   ∃ m, LoadBlockMeta bs (h - 1) = Some m ∧
        vals_hash vals = Ok (H_ValidatorsHash (Meta_Header m)) ∧
        (0 ≤ Meta_Round m < MaxInt32)%Z ∧ committed_round (h - 1) = Meta_Round m ∧
        Some (H_ProposerProTxHash (Meta_Header m)) =
          ProTxHash <$> proposer_at (h - 1) (Meta_Round m)) ∨
  (LoadBlockMeta bs h = None ∧ h = h0 ∧ first = (1 - version)%Z ∧ (first < Size vals)%Z ∧
   ∃ m hash, LoadBlockMeta bs (h - 1) = Some m ∧ vals_hash vals = Ok hash ∧
        H_ValidatorsHash (Meta_Header m) ≠ hash).
Proof using Hchain.
  intros H2 Hh. destruct Hchain as [_ _ _ Hf _ [hash Hhash] Hst Htip].
  destruct (decide (h ≤ hi)%Z) as [Hle|Hle]; [left; apply Hst; lia|]. right.
  rewrite Htip by lia. destruct (decide (h = h0)) as [->|Hne].
  - right. destruct Hf as [[? ?]|(_ & E & Hlt & m & Hm & Hd)]; [lia|].
    split_and!; try done. exists m, hash. split_and!; try done. intros <-. by apply Hd.
  - left. split_and!; [done|lia|]. destruct (Hst (h - 1)%Z) as (m & Hm & ? & ? & ?); [lia|].
    exists m. unfold committed_round. by rewrite Hm.
Qed.

Lemma height_store h k :
  version = 0%Z → (h0 ≤ h ≤ hi + 1)%Z → (1 ≤ h)%Z →
  height_proposerFromStore (Some bs) (at_index k) h = Ok (at_index (turn h 0)).
Proof using Hchain.
  intros Ev Hh H1. unfold height_proposerFromStore.
  destruct (decide (h = 1%Z)) as [->|Hn1].
  { cbn [Z.eqb orb]. apply genesis_store; destruct Hchain as [_ _ _ [|] _ _ _ _]; lia. }
  destruct (Z.eqb_spec h 0), (Z.eqb_spec h 1); try lia. cbn [orb].
  change (vals_hash (at_index k)) with (vals_hash vals).
  destruct Hchain as [_ Hs _ _ Hr _ _ _]. rewrite (int64_id (h - 1)) by (unfold_ints; lia).
  destruct (store_cases h) as
    [(m & Hm & Hv & Hmr & Hp)|[(Hn & Hge & m & Hm & Hv & Hmr & _ & Hp)|
     (Hn & E0 & Ef & Hlt & m & hash & Hm & Hv & Hd)]]; try lia; rewrite ?Hn, Hm, Hv; orun.
  - rewrite bool_decide_eq_true_2 by done. cbn [negb]. rewrite int32_id by (unfold_ints; lia).
    rewrite (set_and_inc_turn h (Meta_Round m)); [|unfold_ints; lia|done].
    do 3 f_equal. lia.
  - rewrite bool_decide_eq_true_2 by done. rewrite int64_id by (unfold_ints; lia).
    rewrite (set_and_inc_turn (h - 1) (Meta_Round m)); [|unfold_ints; lia|done].
    do 2 f_equal. replace (turn h 0) with (turn ((h - 1) + 1) 0) by (f_equal; lia).
    rewrite turn_next by lia. unfold carry. rewrite Ev. cbn [Z.eqb]. f_equal. lia.
  - rewrite bool_decide_eq_false_2 by done.
    destruct (lookup_index 1) as [v Hl]; [lia|].
    unfold GetByIndex. change (Size (at_index k)) with (Size vals).
    destruct (Z.leb_spec (Size vals) 1); [lia|].
    cbn [Z.ltb Z.compare orb Validators set_proposerIndex]. rewrite Hl. cbn [deref]. orun.
    unfold set_and_inc. rewrite (set_proposer_Ok 1) by done. orun. cbn [Z.eqb negb].
    do 2 f_equal. rewrite E0, turn_h0, Ef, Ev. by rewrite Z.mod_small by lia.
Qed.

Lemma round_store h r k :
  version = 1%Z → (h0 ≤ h ≤ hi + 1)%Z → (1 ≤ h)%Z → (0 ≤ r < MaxInt32)%Z → (h = 1 → r = 0)%Z →
  round_proposerFromStore (Some bs) (at_index k) h r = Ok (at_index (turn h r)).
Proof using Hchain.
  intros Ev Hh H1 Hr0 Hr1. unfold round_proposerFromStore.
  destruct (decide (h = 1%Z)) as [->|Hn1].
  { rewrite Hr1 by done. cbn [Z.eqb orb].
    apply genesis_store; destruct Hchain as [_ _ _ [|] _ _ _ _]; lia. }
  destruct (Z.eqb_spec h 0), (Z.eqb_spec h 1); try lia. cbn [orb].
  change (vals_hash (at_index k)) with (vals_hash vals).
  destruct Hchain as [_ Hs _ _ Hr _ _ _]. rewrite (int64_id (h - 1)) by (unfold_ints; lia).
  destruct (store_cases h) as
    [(m & Hm & Hv & Hmr & Hp)|[(Hn & Hge & m & Hm & Hv & Hmr & Hc & Hp)|
     (Hn & E0 & Ef & Hlt & m & hash & Hm & Hv & Hd)]]; try lia; rewrite ?Hn, Hm, Hv; orun.
  - rewrite bool_decide_eq_true_2 by done. cbn [negb]. rewrite int32_id by (unfold_ints; lia).
    rewrite (set_and_inc_turn h (Meta_Round m)); [|unfold_ints; lia|done].
    do 3 f_equal. lia.
  - rewrite bool_decide_eq_true_2 by done. rewrite int32_id by (unfold_ints; lia).
    rewrite (set_and_inc_turn (h - 1) (Meta_Round m)); [|unfold_ints; lia|done].
    do 2 f_equal. replace (turn h r) with (turn ((h - 1) + 1) r) by (f_equal; lia).
    rewrite turn_next by lia. unfold carry. rewrite Ev, Hc. cbn [Z.eqb Pos.eqb]. f_equal. lia.
  - rewrite bool_decide_eq_false_2 by done.
    destruct (lookup_index 0) as [v Hl]; [lia|].
    unfold GetByIndex. change (Size (at_index k)) with (Size vals).
    destruct (Z.leb_spec (Size vals) 0); [lia|].
    cbn [Z.ltb Z.compare orb Validators set_proposerIndex]. rewrite Hl. cbn [deref]. orun.
    rewrite (set_and_inc_turn h 0 r k); [by rewrite Z.add_0_l|unfold_ints; lia|].
    unfold proposer_at. rewrite E0, turn_h0, Ef, Ev. change (1 - 1 + 0)%Z with 0%Z.
    rewrite Z.mod_0_l by lia. by rewrite Hl.
Qed.

(** Where a selector may be sent: forward, by more than one height only over
    blocks of the store, and, when rounds count, from the round that was
    committed. *)
Definition can_move (s : ProposerSelector) (h r : Z) : Prop :=
  (sel_height s ≤ h ≤ hi + 1)%Z ∧ (0 ≤ r < MaxInt32)%Z ∧
  (version = 1 → h = sel_height s + 1 → sel_round s = committed_round (sel_height s))%Z ∧
  (sel_height s + 1 < h → Base bs ≤ sel_height s)%Z.

(** Selectors built from the store and moved by their methods. *)
Inductive selected : ProposerSelector → Prop :=
  | selected_new k h r s :
      (h0 ≤ h ≤ hi + 1)%Z → (0 ≤ r < MaxInt32)%Z → (version = 1 → h = 1 → r = 0)%Z →
      (0 < Base bs ≤ h)%Z →
      NewProposerSelector version (Some (at_index k)) h r (Some bs) = Ok s → selected s
  | selected_update s h r s' :
      selected s → can_move s h r → UpdateHeightRound s h r = Ok s' → selected s'
  | selected_get s h r s' v :
      selected s → can_move s h r → GetProposer s h r = Ok (s', v) → selected s'.

(** The selector for the version whose index is the turn of its height and round. *)
Definition synced (h r : Z) : ProposerSelector :=
  if (version =? 1)%Z then heightRoundProposerSelector (at_index (turn h r)) h r (Some bs)
  else heightProposerSelector (at_index (turn h 0)) h (Some bs).

Lemma h0_pos : (1 ≤ h0)%Z.
Proof using Hchain. destruct Hchain as [_ _ _ [|] _ _ _ _]; lia. Qed.

Lemma new_synced k h r :
  (h0 ≤ h ≤ hi + 1)%Z → (0 ≤ r < MaxInt32)%Z → (version = 1 → h = 1 → r = 0)%Z →
  (0 < Base bs ≤ h)%Z →
  NewProposerSelector version (Some (at_index k)) h r (Some bs) = Ok (synced h r).
Proof using Hchain.
  intros Hh Hr H1 Hb. pose proof h0_pos. unfold NewProposerSelector, synced.
  destruct (lookup_index 0) as [v Hv]; [destruct Hchain; lia|].
  assert (length (Validators (at_index k)) =? 0 = false) as Hl.
  { apply Nat.eqb_neq. apply lookup_lt_Some in Hv. cbn in *. lia. }
  assert (use_store (Some bs) h = true) as Hu by (cbn; lia).
  destruct (chain_version Hchain) as [E|E]; rewrite E; cbn [Z.eqb Pos.eqb];
    unfold NewHeightProposerSelector, NewHeightRoundProposerSelector; rewrite Hl, Hu.
  - by rewrite height_store by (done || lia).
  - rewrite round_store by (done || lia || auto). done.
Qed.

Lemma update_synced h r h' r' :
  (h0 ≤ h)%Z → (0 ≤ r < MaxInt32)%Z → can_move (synced h r) h' r' →
  UpdateHeightRound (synced h r) h' r' = Ok (synced h' r').
Proof using Hchain.
  intros Hh Hr (Hle & Hr' & Hone & Hjump). pose proof h0_pos.
  pose proof (chain_range Hchain) as Hrange. unfold synced, UpdateHeightRound in *.
  destruct (chain_version Hchain) as [E|E]; rewrite E in *; cbn [Z.eqb Pos.eqb] in *;
    cbn [sel_height sel_round] in *.
  - unfold height_updateScores. rewrite int64_id by (unfold_ints; lia).
    destruct (Z.eqb_spec (h' - h) 0); [by replace h' with h by lia|].
    destruct (Z.ltb_spec (h' - h) 0); [lia|]. destruct (Z.ltb_spec 1 (h' - h)).
    + unfold no_history. destruct (Z.ltb_spec h (Base bs)); [lia|].
      by rewrite height_store by (done || lia).
    + rewrite inc_turn by (unfold_ints; lia). orun. replace h' with (h + 1)%Z by lia.
      rewrite turn_next by lia. unfold carry. rewrite E. done.
  - unfold round_updateScores. rewrite int64_id, int32_id by (unfold_ints; lia).
    destruct (Z.eqb_spec (h' - h) 0) as [E'|]; cbn [andb].
    + assert (h' = h) as -> by lia.
      destruct (Z.eqb_spec (r' - r) 0); cbn [negb]; [by replace r' with r by lia|].
      rewrite inc_turn by (unfold_ints; lia). orun. by replace (r + (r' - r))%Z with r' by lia.
    + destruct (Z.ltb_spec (h' - h) 0); [lia|]. destruct (Z.ltb_spec 1 (h' - h)).
      * unfold no_history. destruct (Z.ltb_spec h (Base bs)); [lia|].
        rewrite round_store by (done || lia). done.
      * assert (h' = h + 1)%Z as -> by lia. rewrite int64_id by (unfold_ints; lia).
        rewrite inc_turn by (unfold_ints; lia). orun. rewrite turn_next by lia.
        unfold carry. rewrite E, <- Hone by done. cbn [Z.eqb Pos.eqb].
        by replace (r + (h + 1 - h + r'))%Z with (r + 1 + r')%Z by lia.
Qed.

Lemma proposer_turn {E} h r : Proposer (E:=E) (at_index (turn h r)) = Ok (proposer_at h r).
Proof using Hchain.
  pose proof (turn_range h r) as Ht. destruct (lookup_index _ Ht) as [v Hv].
  unfold Proposer, GetByIndex. change (Size (at_index ?i)) with (Size vals).
  cbn [Validators proposerIndex set_proposerIndex].
  destruct (Nat.eqb_spec (length (Validators vals)) 0); [apply lookup_lt_Some in Hv; lia|].
  by destruct (Z.ltb_spec (turn h r) 0), (Z.leb_spec (Size vals) (turn h r)); [lia..|].
Qed.

Lemma get_synced h r h' r' :
  (h0 ≤ h)%Z → (0 ≤ r < MaxInt32)%Z → can_move (synced h r) h' r' →
  GetProposer (synced h r) h' r' = Ok (synced h' r', proposer_at h' r').
Proof using Hchain.
  intros Hh Hr Hm. unfold GetProposer. rewrite update_synced by done. orun.
  destruct Hm as (_ & Hr' & _). unfold synced.
  destruct (chain_version Hchain) as [E|E]; rewrite E; cbn [Z.eqb Pos.eqb].
  - destruct (Z.eqb_spec r' 0) as [->|]; [by rewrite proposer_turn|].
    rewrite inc_turn by (unfold_ints; lia). orun. by rewrite proposer_turn.
  - by rewrite proposer_turn.
Qed.

Lemma selected_synced s : selected s → ∃ h r, (h0 ≤ h)%Z ∧ (0 ≤ r < MaxInt32)%Z ∧ s = synced h r.
Proof using Hchain.
  assert (∀ h r, sel_height (synced h r) = h) as Hsh by (intros; unfold synced; by destruct (_ =? _)%Z).
  induction 1 as [k h r s Hh Hr H1 Hb E|s h r s' _ IH Hm E|s h r s' v _ IH Hm E].
  - rewrite new_synced in E by done. injection E as <-. exists h, r. split_and!; (done || lia).
  - destruct IH as (h1 & r1 & ? & ? & ->). rewrite update_synced in E by done. injection E as <-.
    destruct Hm as (? & ? & _). rewrite Hsh in *. exists h, r. split_and!; (done || lia).
  - destruct IH as (h1 & r1 & ? & ? & ->). rewrite get_synced in E by done. injection E as <- <-.
    destruct Hm as (? & ? & _). rewrite Hsh in *. exists h, r. split_and!; (done || lia).
Qed.
End chain.

(** C34: take a chain of stored blocks of one validator set that were proposed in turn.  A
    selector can be built at any height of the chain that the store has and the one after it, in
    any round, but at height 1 only in round 0 for the second selector, which forgets the round
    there.  However it was built and then moved, in turn or asked for proposers, it names the
    validator whose turn it is: the first selector counts heights and adds the round, the second
    one counts every round up to the committed one of each height.  The moves are to any round
    of the same height or a later one, by more than one height only from a height of the store,
    and for the second selector by one height only from the committed round, which the code
    assumes. *)
Theorem proposer_in_turn version vals bs h0 hi first :
  chain version vals bs h0 hi first →
  (∀ k h r, (h0 ≤ h ≤ hi + 1)%Z → (0 ≤ r < MaxInt32)%Z → (version = 1 → h = 1 → r = 0)%Z →
     (0 < Base bs ≤ h)%Z →
     ∃ s, NewProposerSelector version (Some (set_proposerIndex vals k)) h r (Some bs) = Ok s ∧
          sel_height s = h) ∧
  (∀ s h r, selected version vals bs h0 hi s → can_move version bs hi s h r →
     ∃ s' v, GetProposer s h r = Ok (s', Some v) ∧ UpdateHeightRound s h r = Ok s' ∧
       proposer_at version vals bs h0 first h r = Some v ∧ sel_height s' = h).
Proof.
  intros Hc. assert (∀ h r, sel_height (synced version vals bs h0 first h r) = h) as Hsh
    by (intros; unfold synced; by destruct (_ =? _)%Z).
  split.
  - intros k h r ? ? ? ?. eexists. split; [by eapply new_synced|]. apply Hsh.
  - intros s h r Hs Hm. destruct (selected_synced _ _ _ _ _ _ Hc s Hs) as (h1 & r1 & ? & ? & ->).
    pose proof (turn_range _ _ _ _ _ _ Hc h r) as Ht.
    destruct (lookup_index _ _ Ht) as [v Hv]. exists (synced version vals bs h0 first h r), v.
    split_and!; [|by eapply update_synced|done|apply Hsh].
    erewrite get_synced by done. unfold proposer_at. by rewrite Hv.
Qed.

(** On a one-validator set the first selector panics when the set took over from
    another one and its first block is not stored yet: it asks for the second
    validator. *)
Lemma rotation_to_one_validator bs vals v h m :
  Validators vals = [v] → (1 < h < MaxInt64)%Z → LoadBlockMeta bs h = None →
  LoadBlockMeta bs (h - 1) = Some m → (∃ hash, vals_hash vals = Ok hash) →
  vals_hash vals ≠ Ok (H_ValidatorsHash (Meta_Header m)) →
  height_proposerFromStore (Some bs) vals h = Panic.
Proof.
  intros Hv Hh Hn Hm [hash Hhash] Hne. unfold height_proposerFromStore.
  destruct (Z.eqb_spec h 0), (Z.eqb_spec h 1); try lia. cbn [orb]. rewrite Hn.
  rewrite int64_id by (unfold_ints; lia). rewrite Hm, Hhash. orun.
  rewrite bool_decide_eq_false_2 by (intros <-; by apply Hne).
  unfold GetByIndex, Size. rewrite Hv. done.
Qed.
End selector.

(** ** Witnesses *)

#[local] Existing Instance toy_crypto.

Definition demo_set : ValidatorSet := demo_valset [x07; x08; x09].

Definition demo_meta (valsHash proposer : bytes) (round : Z) : BlockMeta :=
  mkBlockMeta nilBlockID 0
    (mkHeader (mkVersion BlockProtocol 1) [x61] 1 0 0 nilBlockID None None valsHash [] [] [] [] []
       None proposer 0) 0 round false.

(** Block 1 of another set, blocks 2 and 3 of the demo set, the first of them
    committed in round 1. *)
Definition demo_store : BlockStore :=
  let hash := match vals_hash demo_set with Ok h => h | _ => [] end in
  mkBlockStore 1 (λ h,
    if (h =? 1)%Z then Some (demo_meta [] [] 0)
    else if (h =? 2)%Z then Some (demo_meta hash (demo_hash x08) 1)
    else if (h =? 3)%Z then Some (demo_meta hash (demo_hash x09) 0)
    else None).

Lemma demo_chain : chain 1 demo_set demo_store 2 3 0.
Proof.
  assert (∃ hash, vals_hash demo_set = Ok hash) as Hhash.
  { destruct (vals_hash demo_set) as [hash| |] eqn:E; [by eexists|vm_compute in E; discriminate..]. }
  split.
  - by right.
  - vm_compute. split; [reflexivity|discriminate].
  - apply (bool_decide_unpack _). vm_compute. exact I.
  - right. split; [lia|]. split; [lia|]. split; [vm_compute; reflexivity|].
    exists (demo_meta [] [] 0). split; [reflexivity|]. vm_compute. discriminate.
  - vm_compute. split; [discriminate|reflexivity].
  - exact Hhash.
  - intros h Hh. assert (h = 2 ∨ h = 3)%Z as [->| ->] by lia;
      (eexists; split; [reflexivity|]; split; [vm_compute; reflexivity|];
       split; [vm_compute; split; [discriminate|reflexivity]|vm_compute; reflexivity]).
  - intros h Hh. unfold demo_store. cbn [LoadBlockMeta].
    destruct (Z.eqb_spec h 1), (Z.eqb_spec h 2), (Z.eqb_spec h 3); (reflexivity || lia).
Qed.

(** Sent from height 3 to round 5 of height 4, the selector picks the third
    validator. *)
Lemma proposer_in_turn_witness :
  ∃ s s' v, NewProposerSelector 1 (Some demo_set) 3 0 (Some demo_store) = Ok s ∧
    GetProposer s 4 5 = Ok (s', Some v) ∧ ProTxHash v = demo_hash x09.
Proof.
  destruct (proposer_in_turn 1 demo_set demo_store 2 3 0 demo_chain) as [Hnew Hget].
  destruct (Hnew 0%Z 3%Z 0%Z) as (s & Hs & Hh); [lia|unfold_ints; lia|lia|cbn; lia|].
  assert (selected 1 demo_set demo_store 2 3 s) as Hsel.
  { eapply (selected_new _ _ _ _ _ 0 3 0); [lia|unfold_ints; lia|lia|cbn; lia|exact Hs]. }
  assert (sel_round s = 0%Z) as Hr by (vm_compute in Hs; injection Hs as <-; reflexivity).
  destruct (Hget s 4%Z 5%Z) as (s' & v & Hg & _ & Hv & _); [exact Hsel| |].
  { unfold can_move. rewrite Hh, Hr. split; [lia|]. split; [vm_compute; split; [discriminate|reflexivity]|].
    split; [intros _ _; vm_compute; reflexivity|lia]. }
  exists s, s', v. split; [exact Hs|]. split; [exact Hg|].
  vm_compute in Hv. injection Hv as <-. reflexivity.
Defined.
End selectproposer.
