(* ===== verification/StateStore.v ===== *)
(** * internal/state: the state store

    Models [src/internal/state/store.go]: [dbStore] keeps the last state, the validator set
    and the parameters of every height, most of them as a reference to the height where they
    last changed, and the responses of the application, and prunes old heights.  It runs over
    the database of [DB], whose operations may fail.  Keys are made by [orderedcode], which is
    external, as are the bytes of the stored messages, which generated code makes: both are
    classes, with the laws that the theorems name.  [Write] and [WriteSync] are not
    distinguished; logging is left out. *)
From Stdlib Require Import ZArith Lia Init.Byte.
From stdpp Require Import base numbers list sets gmap fin_maps.
From S2P Require Import Prelude.
From S2P Require Import StateM.
From S2P Require Import DB.
From S2P Require Import Merkle.
From S2P Require Import Types.
From S2P Require Import Crypto.
From S2P Require Import QuorumSign.
From S2P Require Import Proposal.
From S2P Require Import ValidatorSet.
From S2P Require Import Evidence.
From S2P Require Import Block.
From S2P Require Import Params.
From S2P Require Import SmState.
From S2P Require Import SmProto.
From S2P Require Import Execution.
From S2P Require Import SelectProposer.

Import statem db types crypto quorum proposal valset evidence block params sm smproto abci.
Import selectproposer.

(** [orderedcode.Append(nil, items...)]. *)
Class OrderedCode := { orderedcode : list Z → bytes }.

(** [tmstate.ValidatorsInfo] and [tmstate.ConsensusParamsInfo]. *)
Record ValidatorsInfo := mkValidatorsInfo {
  VI_ValidatorSet : option ProtoValidatorSet; VI_LastHeightChanged : Z }.

Record ConsensusParamsInfo := mkParamsInfo {
  CPI_ConsensusParams : ProtoParams; CPI_LastHeightChanged : Z }.

(** The encodings of the messages. *)
Class StoreCodec := {
  ValidatorsInfo_Marshal : ValidatorsInfo → bytes;
  ValidatorsInfo_Unmarshal : bytes → option ValidatorsInfo;
  ParamsInfo_Marshal : ConsensusParamsInfo → bytes;
  ParamsInfo_Unmarshal : bytes → option ConsensusParamsInfo;
  State_Marshal : ProtoState → bytes;
  State_Unmarshal : bytes → option ProtoState;
  Responses_Marshal : ResponseProcessProposal → bytes;
  Responses_Unmarshal : bytes → option ResponseProcessProposal }.

Module statestore.

Definition valSetCheckpointInterval : Z := 100000.
Definition prefixValidators : Z := 5.
Definition prefixConsensusParams : Z := 6.
Definition prefixABCIResponses : Z := 7.
Definition prefixState : Z := 8.
Definition prefixFinalizeBlockResponses : Z := 14.

Inductive store_error :=
  | ErrDB (e : db_error)
  | ErrEmptyValue
  | ErrStoreProto (e : proto_error)
  | ErrLastHeightChanged
  | ErrNoABCIResponsesForHeight
  | ErrNoValSetForHeight
  | ErrNoParamsForHeight
  | ErrRetainHeight
  | ErrStoreProposer (e : valset_error)
  | ErrStoreSelector (e : select_error)
  | ErrNoBlockMeta.

Section store.
Context `{Crypto} `{Dashd} `{StdTime} `{NetURL} `{Faults} `{OrderedCode} `{StoreCodec}.

Notation X := (M DB store_error).

(** An operation of the database. *)
Definition dbop {A} (m : M DB db_error A) : X A := λ d,
  let '(d, r) := m d in (d, wrap_err ErrDB r).

Definition encodeKey (prefix height : Z) : bytes := orderedcode [prefix; height].
Definition validatorsKey (height : Z) : bytes := encodeKey prefixValidators height.
Definition consensusParamsKey (height : Z) : bytes := encodeKey prefixConsensusParams height.
Definition abciResponsesKey (height : Z) : bytes := encodeKey prefixABCIResponses height.
Definition finalizeBlockResponsesKey (height : Z) : bytes :=
  encodeKey prefixFinalizeBlockResponses height.
Definition stateKey : bytes := orderedcode [prefixState].

(** ** Loading *)

(** The bytes of a key; an empty value is as good as none. *)
Definition load_bytes (key : bytes) : X (option bytes) :=
  buf ← dbop (Get key);
  mret (match buf with Some [] => None | _ => buf end).

(** [Unmarshal] of stored bytes, which panics when they are corrupted. *)
Definition decode {A} (unmarshal : bytes → option A) (buf : bytes) : X A :=
  match unmarshal buf with Some a => mret a | None => panic end.

Definition Load : X State :=
  buf ← load_bytes stateKey;
  match buf with
  | None => mret zeroState
  | Some b => pb ← decode State_Unmarshal b; lift_err ErrStoreProto (StateFromProto pb)
  end.

Definition loadValidatorsInfo (height : Z) : X ValidatorsInfo :=
  buf ← load_bytes (validatorsKey height);
  match buf with None => fail ErrEmptyValue | Some b => decode ValidatorsInfo_Unmarshal b end.

Definition loadConsensusParamsInfo (height : Z) : X ConsensusParamsInfo :=
  buf ← load_bytes (consensusParamsKey height);
  match buf with None => fail ErrEmptyValue | Some b => decode ParamsInfo_Unmarshal b end.

Definition lastStoredHeightFor (height lastHeightChanged : Z) : Z :=
  Z.max (height - Z.rem height valSetCheckpointInterval) lastHeightChanged.

(** An error of [m] becomes [e]. *)
Definition or_err {A} (e : store_error) (m : X A) : X A :=
  r ← try m; match r with inl a => mret a | inr _ => fail e end.

Definition loadValidators (height : Z) : X ValidatorsInfo :=
  valInfo ← or_err ErrNoValSetForHeight (loadValidatorsInfo height);
  match VI_ValidatorSet valInfo with
  | Some _ => mret valInfo
  | None =>
      let lastStoredHeight := lastStoredHeightFor height (VI_LastHeightChanged valInfo) in
      valInfo ← or_err ErrNoValSetForHeight (loadValidatorsInfo lastStoredHeight);
      match VI_ValidatorSet valInfo with
      | Some _ => mret valInfo
      | None => fail ErrNoValSetForHeight
      end
  end.

Definition LoadConsensusParams (height : Z) : X ConsensusParams :=
  info ← or_err ErrNoParamsForHeight (loadConsensusParamsInfo height);
  if ProtoParams_empty (CPI_ConsensusParams info) then
    info ← or_err ErrNoParamsForHeight (loadConsensusParamsInfo (CPI_LastHeightChanged info));
    if ProtoParams_empty (CPI_ConsensusParams info) then fail ErrNoParamsForHeight
    else mret (ConsensusParamsFromProto (CPI_ConsensusParams info))
  else mret (ConsensusParamsFromProto (CPI_ConsensusParams info)).

(** [valSet.SetProposer(valSet.GetByIndex(0).ProTxHash)]. *)
Definition set_first (e : valset_error → store_error) (vals : ValidatorSet) : X ValidatorSet :=
  first ← lift (deref (GetByIndex vals 0));
  lift_err e (SetProposer vals (ProTxHash first)).

(** [NewProposerSelector] at a height and round, moved to round 0 of another height. *)
Definition select_from (cp : ConsensusParams) (vals : ValidatorSet) (meta : BlockMeta)
    (bs : BlockStore) (height : Z) : X ValidatorSet :=
  vals ← lift_err ErrStoreProposer (SetProposer vals (H_ProposerProTxHash (Meta_Header meta)));
  strategy ← lift_err ErrStoreSelector
    (NewProposerSelector (Params_ConsensusVersion cp) (Some vals) (H_Height (Meta_Header meta))
       (Meta_Round meta) (Some bs));
  strategy ← lift_err ErrStoreSelector (UpdateHeightRound strategy height 0);
  mret (sel_valSet strategy).

Definition LoadValidators (height : Z) (bs : BlockStore) : X ValidatorSet :=
  valInfo ← or_err ErrNoValSetForHeight (loadValidators height);
  valSet ← lift_err ErrStoreProto (ValidatorSetFromProto (VI_ValidatorSet valInfo));
  if (height =? 1)%Z then set_first ErrStoreProposer valSet
  else
    r ← try (LoadConsensusParams height);
    let cp := match r with inl cp => cp | inr _ => DefaultConsensusParams end in
    match LoadBlockMeta bs height with
    | Some meta => select_from cp valSet meta bs (H_Height (Meta_Header meta))
    | None =>
        match LoadBlockMeta bs (int64 (height - 1)) with
        | None => fail ErrNoBlockMeta
        | Some prevMeta =>
            let h := Meta_Header prevMeta in
            if negb (bool_decide (H_ValidatorsHash h = H_NextValidatorsHash h)) then
              valSetHash ← lift_panic (valset_Hash valSet);
              if negb (bool_decide (H_NextValidatorsHash h = valSetHash))
              then fail ErrNoValSetForHeight
              else set_first (λ _, ErrNoValSetForHeight) valSet
            else select_from cp valSet prevMeta bs height
        end
    end.

(** ** Saving *)

Definition saveValidatorsInfo (height lastHeightChanged : Z) (vals : option ValidatorSet)
    (batch : Batch) : outcome store_error Batch :=
  if (height <? lastHeightChanged)%Z then Err ErrLastHeightChanged
  else
    set ← (if (height =? lastHeightChanged)%Z || (Z.rem height valSetCheckpointInterval =? 0)%Z
           then pv ← wrap_err ErrStoreProto (vals_ToProto vals); Ok (Some pv)
           else Ok None);
    wrap_err ErrDB (batch_Set batch (validatorsKey height)
      (Some (ValidatorsInfo_Marshal (mkValidatorsInfo set lastHeightChanged)))).

Definition saveConsensusParamsInfo (height changeHeight : Z) (params : ConsensusParams)
    (batch : Batch) : outcome store_error Batch :=
  wrap_err ErrDB (batch_Set batch (consensusParamsKey height)
    (Some (ParamsInfo_Marshal
       (mkParamsInfo (if (changeHeight =? height)%Z then Params_ToProto params else emptyProto)
          changeHeight)))).

Definition state_Bytes (s : State) : outcome store_error bytes :=
  pb ← wrap_err ErrStoreProto (State_ToProto s); Ok (State_Marshal pb).

Definition Save (s : State) : X unit :=
  let next := int64 (LastBlockHeight s + 1) in
  let first := (next =? 1)%Z in
  let nextBlockHeight := if first then InitialHeight s else next in
  let lastHeightValidatorsChanged :=
    if first then InitialHeight s else LastHeightValidatorsChanged s in
  batch ← lift (saveValidatorsInfo nextBlockHeight lastHeightValidatorsChanged
                  (State_Validators s) NewBatch);
  batch ← lift (saveConsensusParamsInfo nextBlockHeight (LastHeightConsensusParamsChanged s)
                  (State_Params s) batch);
  stateBz ← lift (state_Bytes s);
  batch ← lift_err ErrDB (batch_Set batch stateKey (Some stateBz));
  dbop (batch_Write batch).

Definition vals_NilOrEmpty (vals : option ValidatorSet) : bool :=
  match vals with None => true | Some v => length (Validators v) =? 0 end.

Definition Bootstrap (s : State) : X unit :=
  let next := int64 (LastBlockHeight s + 1) in
  let height := if (next =? 1)%Z then InitialHeight s else next in
  batch ← lift (if (1 <? height)%Z && negb (vals_NilOrEmpty (State_LastValidators s))
                then saveValidatorsInfo (int64 (height - 1)) (int64 (height - 1))
                       (State_LastValidators s) NewBatch
                else Ok NewBatch);
  batch ← lift (saveValidatorsInfo height height (State_Validators s) batch);
  batch ← lift (saveConsensusParamsInfo height (LastHeightConsensusParamsChanged s)
                  (State_Params s) batch);
  stateBz ← lift (state_Bytes s);
  batch ← lift_err ErrDB (batch_Set batch stateKey (Some stateBz));
  dbop (batch_Write batch).

(** The loop of [SaveValidatorSets], [n] heights from [height] on. *)
Fixpoint save_sets (n : nat) (height lowerHeight : Z) (vals : option ValidatorSet) (batch : Batch) :
    outcome store_error Batch :=
  match n with
  | O => Ok batch
  | S n => batch ← saveValidatorsInfo height lowerHeight vals batch;
           save_sets n (height + 1) lowerHeight vals batch
  end.

Definition SaveValidatorSets (lowerHeight upperHeight : Z) (vals : option ValidatorSet) : X unit :=
  batch ← lift (save_sets (Z.to_nat (upperHeight + 1 - lowerHeight)) lowerHeight lowerHeight vals
                  NewBatch);
  dbop (batch_Write batch).

Definition store_SaveABCIResponses (height : Z) (responses : ResponseProcessProposal) : X unit :=
  dbop (Set_ (abciResponsesKey height) (Some (Responses_Marshal responses))).

Definition store_LoadABCIResponses (height : Z) : X ResponseProcessProposal :=
  buf ← load_bytes (abciResponsesKey height);
  match buf with
  | None => fail ErrNoABCIResponsesForHeight
  | Some b => decode Responses_Unmarshal b
  end.

(** ** Pruning *)

Definition batch_size : nat := 1000.

Definition add_delete (batch : outcome store_error Batch) (key : bytes) : outcome store_error Batch :=
  batch ← batch; wrap_err ErrDB (batch_Delete batch key).

(** The keys of the iterator, up to [batch_size] of them, are deleted; the end of what is
    left. *)
Definition reverseBatchDelete (batch : Batch) (start stop : bytes) : X (Batch * bytes) :=
  iter ← dbop (ReverseIterator (Some start) (Some stop));
  let keys := take batch_size (map fst iter) in
  batch ← lift (foldl add_delete (Ok batch) keys);
  _ ← dbop (op (λ m, (m, tt)));
  mret (batch, match keys !! (batch_size - 1) with Some k => k | None => start end).

(** The loop of [pruneRange]. *)
Fixpoint prune_loop (fuel : nat) (start : bytes) (batch : Batch) (stop : bytes) : X unit :=
  match fuel with
  | O => panic
  | S fuel =>
      _ ← dbop (batch_Write batch);
      if bool_decide (start = stop) then mret tt
      else '(batch, stop) ← reverseBatchDelete NewBatch start stop;
           prune_loop fuel start batch stop
  end.

Definition pruneRange (start stop : bytes) : X unit :=
  fuel ← gets (λ d, S (size (db_data d)));
  '(batch, stop) ← reverseBatchDelete NewBatch start stop;
  prune_loop fuel start batch stop.

Definition pruneConsensusParams (retainHeight : Z) : X unit :=
  info ← or_err ErrNoParamsForHeight (loadConsensusParamsInfo retainHeight);
  let lastChanged := CPI_LastHeightChanged info in
  _ ← (if ProtoParams_empty (CPI_ConsensusParams info) then
         last ← or_err ErrNoParamsForHeight (loadConsensusParamsInfo lastChanged);
         if ProtoParams_empty (CPI_ConsensusParams last) then fail ErrNoParamsForHeight
         else pruneRange (consensusParamsKey (int64 (lastChanged + 1)))
                (consensusParamsKey retainHeight)
       else mret tt);
  pruneRange (consensusParamsKey 1) (consensusParamsKey lastChanged).

Definition pruneValidatorSets (retainHeight : Z) : X unit :=
  valInfo ← or_err ErrNoValSetForHeight (loadValidatorsInfo retainHeight);
  let lastRecorded := lastStoredHeightFor retainHeight (VI_LastHeightChanged valInfo) in
  last ← or_err ErrNoValSetForHeight (loadValidatorsInfo lastRecorded);
  if bool_decide (VI_ValidatorSet last = None) then fail ErrNoValSetForHeight
  else
    _ ← (if (lastRecorded <? retainHeight)%Z
         then pruneRange (validatorsKey (int64 (lastRecorded + 1))) (validatorsKey retainHeight)
         else mret tt);
    pruneRange (validatorsKey 1) (validatorsKey lastRecorded).

Definition pruneFinalizeBlockResponses (height : Z) : X unit :=
  _ ← pruneRange (finalizeBlockResponsesKey 1) (finalizeBlockResponsesKey height);
  pruneRange (abciResponsesKey 1) (abciResponsesKey height).

Definition PruneStates (retainHeight : Z) : X unit :=
  if (retainHeight <=? 0)%Z then fail ErrRetainHeight
  else
    _ ← pruneConsensusParams retainHeight;
    _ ← pruneValidatorSets retainHeight;
    pruneFinalizeBlockResponses retainHeight.

End store.

End statestore.
