(* ===== verification/StateStoreThms.v ===== *)
(** * internal/state: what the state store gives back

    The store of [StateStore] refines a map from heights to states: every height from the
    last pruned one on gives back the validators and the parameters of the state that was
    saved for it, although most of them are stored as a reference to an earlier height.
    Failed writes, and pruning that fails at any point, keep this. *)
From Stdlib Require Import ZArith Lia Init.Byte Sorted.
From stdpp Require Import base numbers list sets gmap fin_maps.
From S2P Require Import Prelude.
From S2P Require Import StateM.
From S2P Require Import DB.
From S2P Require Import Merkle.
From S2P Require Import Types.
From S2P Require Import Crypto.
From S2P Require Import QuorumSign.
From S2P Require Import Proposal.
From S2P Require Import ValidatorSet.
From S2P Require Import Evidence.
From S2P Require Import Block.
From S2P Require Import Params.
From S2P Require Import SmState.
From S2P Require Import SmStateThms.
From S2P Require Import SmProto.
From S2P Require Import Execution.
From S2P Require Import SelectProposer.
From S2P Require Import StateStore.

Import statem db types crypto quorum proposal valset evidence block params sm smthms smproto abci.
Import selectproposer statestore.

Module storethms.

(** ** Laws of the external code *)

(** The lexicographic order of [orderedcode]. *)
Fixpoint lex (a b : list Z) : comparison :=
  match a, b with
  | [], [] => Eq
  | [], _ => Lt
  | _, [] => Gt
  | x :: a, y :: b => match (x ?= y)%Z with Eq => lex a b | c => c end
  end.

(** Encoded keys are ordered as the items are. *)
Definition orderedcode_law `{OrderedCode} : Prop :=
  ∀ a b, Forall in_int64 a → Forall in_int64 b →
    bytes_compare (orderedcode a) (orderedcode b) = lex a b.

(** Messages are decoded to what was encoded; a message with a field that is set is not
    empty. *)
Record codec_law `{StoreCodec} : Prop := {
  cl_vals i : ValidatorsInfo_Unmarshal (ValidatorsInfo_Marshal i) = Some i;
  cl_vals_set i : VI_LastHeightChanged i ≠ 0%Z → ValidatorsInfo_Marshal i ≠ [];
  cl_params i : ParamsInfo_Unmarshal (ParamsInfo_Marshal i) = Some i;
  cl_params_set i : ParamsInfo_Marshal i ≠ [];
  cl_state p : State_Unmarshal (State_Marshal p) = Some p;
  cl_state_set p : State_Marshal p ≠ [] }.

(** Lists of integers that are in range. *)
Ltac ints := repeat first [apply Forall_nil_2 | apply Forall_cons_2]; done.

Section thms.
Context `{Crypto} `{Dashd} `{StdTime} `{NetURL} `{Faults} `{OrderedCode} `{StoreCodec}.
Hypothesis oc_law : orderedcode_law.
Hypothesis codec : codec_law.

Notation X := (M DB store_error).

(** ** Keys *)

Lemma oc_nonempty x l : in_int64 x → Forall in_int64 l → orderedcode (x :: l) ≠ [].
Proof using oc_law.
  intros Hx Hl E. pose proof (oc_law [] (x :: l) ltac:(constructor) ltac:(by constructor)) as Ho.
  rewrite E in Ho. cbn in Ho. by destruct (orderedcode []).
Qed.

Lemma key_compare p h h' :
  in_int64 p → in_int64 h → in_int64 h' →
  bytes_compare (encodeKey p h) (encodeKey p h') = (h ?= h')%Z.
Proof using oc_law.
  intros. unfold encodeKey. rewrite oc_law by ints. cbn.
  rewrite Z.compare_refl. by destruct (h ?= h')%Z.
Qed.

Lemma prefix_compare p p' h h' :
  in_int64 p → in_int64 p' → in_int64 h → in_int64 h' → p ≠ p' →
  bytes_compare (encodeKey p h) (encodeKey p' h') = (p ?= p')%Z.
Proof using oc_law.
  intros ? ? ? ? Hne. unfold encodeKey. rewrite oc_law by ints. cbn.
  destruct (Z.compare_spec p p'); done.
Qed.

Lemma key_inj p h h' :
  in_int64 p → in_int64 h → in_int64 h' → encodeKey p h = encodeKey p h' → h = h'.
Proof using oc_law.
  intros Hp Hh Hh' E%bytes_compare_eq. rewrite key_compare in E by done. by apply Z.compare_eq.
Qed.

(** A key in the range of two heights of a prefix is not one of another prefix, nor of a
    height outside. *)
Lemma key_range p q a b h :
  in_int64 p → in_int64 q → in_int64 a → in_int64 b → in_int64 h →
  bytes_le (encodeKey p a) (encodeKey q h) → bytes_ltb (encodeKey q h) (encodeKey p b) = true →
  q = p ∧ (a ≤ h < b)%Z.
Proof using oc_law.
  intros Hp Hq Ha Hb Hh L1 L2. unfold bytes_le, bytes_ltb in *. destruct (decide (q = p)) as [->|Hne].
  - split; [done|]. rewrite key_compare in L1, L2 by done.
    destruct (Z.compare_spec a h), (Z.compare_spec h b); try done; lia.
  - rewrite prefix_compare in L1, L2 by done.
    destruct (Z.compare_spec p q), (Z.compare_spec q p); done || lia.
Qed.

Lemma stateKey_range p a b :
  in_int64 p → in_int64 a → in_int64 b → p ≠ prefixState →
  bytes_le (encodeKey p a) stateKey → bytes_ltb stateKey (encodeKey p b) = true → False.
Proof using oc_law.
  intros Hp Ha Hb Hne. unfold bytes_le, bytes_ltb, encodeKey, stateKey.
  assert (in_int64 prefixState) as Hs by done.
  rewrite !oc_law by ints. cbn [lex].
  rewrite (Z.compare_antisym p prefixState).
  by destruct (Z.compare_spec p prefixState).
Qed.

Lemma stateKey_ne p h : in_int64 p → in_int64 h → stateKey ≠ encodeKey p h.
Proof using oc_law.
  intros Hp Hh E%bytes_compare_eq. unfold stateKey, encodeKey in E.
  rewrite oc_law in E by ints. cbn [lex] in E. by destruct (_ ?= _)%Z.
Qed.

Lemma key_nonempty p h : in_int64 p → in_int64 h → encodeKey p h ≠ [].
Proof using oc_law. intros. apply oc_nonempty; ints. Qed.

(** ** Deleting ranges *)

(** No operation fails from now on. *)
Definition quiet (d : DB) : Prop := ∀ n, db_ops d ≤ n → fault n = false.

(** Some of the keys of a range are gone, all others are as before. *)
Definition erased (start stop : bytes) (m m' : gmap bytes bytes) : Prop :=
  ∀ k, m' !! k = m !! k ∨ (m' !! k = None ∧ bytes_le start k ∧ bytes_ltb k stop = true).

(** None of them is left. *)
Definition swept (start stop : bytes) (m : gmap bytes bytes) : Prop :=
  ∀ k, bytes_le start k → bytes_ltb k stop = true → m !! k = None.

Lemma erased_refl start stop m : erased start stop m m.
Proof. by left. Qed.

Lemma erased_trans start stop stop' m m1 m2 :
  bytes_le stop' stop → erased start stop m m1 → erased start stop' m1 m2 → erased start stop m m2.
Proof.
  intros Hs E1 E2 k. destruct (E2 k) as [->|(-> & Ha & Hb)]; [apply E1|]. right.
  split_and!; [done|done|]. destruct (bytes_ltb k stop) eqn:E; [done|].
  apply bytes_ltb_le in E. apply bytes_ltb_lt in Hb as [Hb Hne]. destruct Hne.
  apply (anti_symm bytes_le); [done|]. by trans stop.
Qed.

Lemma deletes_lookup (ks : list bytes) (m : gmap bytes bytes) (k : bytes) :
  foldl apply_op m (map opDelete ks) !! k = if bool_decide (k ∈ ks) then None else m !! k.
Proof.
  revert m. induction ks as [|x ks IH]; intros m; [done|]. cbn [map foldl apply_op]. rewrite IH.
  destruct (decide (k ∈ ks)).
  - by rewrite !bool_decide_eq_true_2 by (done || by right).
  - rewrite (bool_decide_eq_false_2 (k ∈ ks)) by done. rewrite lookup_delete.
    destruct (decide (x = k)) as [->|]; [by rewrite bool_decide_eq_true_2 by left|].
    by rewrite bool_decide_eq_false_2 by (intros [->|?]%elem_of_cons; done).
Qed.

Lemma deletes_size (ks : list bytes) (m : gmap bytes bytes) :
  size (foldl apply_op m (map opDelete ks)) ≤ size m ∧
  (∀ k, k ∈ ks → is_Some (m !! k) → size (foldl apply_op m (map opDelete ks)) < size m).
Proof.
  revert m. induction ks as [|x ks IH]; intros m; [split; [done|inversion 1]|].
  cbn [map foldl apply_op]. destruct (IH (delete x m)) as [Hle Hlt].
  assert (size (delete x m) ≤ size m) as Hd.
  { destruct (m !! x) as [v|] eqn:E; [|by rewrite delete_id].
    rewrite map_size_delete_Some by done. lia. }
  split; [lia|]. intros k Hk [v Hv]. apply elem_of_cons in Hk as [->|Hk].
  - rewrite map_size_delete_Some in Hle by done.
    assert (size m ≠ 0); [|lia]. intros E%map_size_empty_inv. by rewrite E in Hv.
  - destruct (decide (k = x)) as [->|Hne].
    + rewrite map_size_delete_Some in Hle by done.
      assert (size m ≠ 0); [|lia]. intros E%map_size_empty_inv. by rewrite E in Hv.
    + apply Nat.lt_le_trans with (size (delete x m)); [|done]. apply (Hlt k Hk).
      by rewrite lookup_delete_ne.
Qed.

Lemma op_data {A : Type} (f : gmap bytes bytes → gmap bytes bytes * A) (d : DB) :
  (∃ e, op f d = (mkDB (db_data d) (S (db_ops d)), Err e)) ∨
  op f d = (mkDB (f (db_data d)).1 (S (db_ops d)), Ok (f (db_data d)).2).
Proof using.
  clear. unfold op. destruct (fault (db_ops d)); [left; by eexists|]. right.
  by destruct (f (db_data d)).
Qed.

Lemma deletes_fold (ops : list operation) (ks : list bytes) :
  foldl add_delete (Ok (Some ops : Batch)) ks = Ok (Some (ops ++ map opDelete ks)) ∨
  ∃ e, foldl add_delete (Ok (Some ops : Batch)) ks = Err (ErrDB e).
Proof using.
  clear. revert ops.
  induction ks as [|k ks IH]; intros ops; [left; by rewrite app_nil_r|].
  assert (add_delete (Ok (Some ops : Batch)) k = if bool_decide (k = []) then Err (ErrDB errKeyEmpty)
    else Ok (Some (ops ++ [opDelete k]) : Batch)) as E.
  { unfold add_delete, batch_Delete. orun. by case_bool_decide. }
  cbn [foldl]. rewrite E. case_bool_decide.
  - right. exists errKeyEmpty. clear. by induction ks.
  - destruct (IH (ops ++ [opDelete k])) as [->|[e ->]]; [left|right; by exists e].
    by rewrite <- app_assoc.
Qed.

(** What [reverseBatchDelete] collects. *)
Lemma reverseBatchDelete_spec start stop d d' r :
  start ≠ [] → stop ≠ [] →
  reverseBatchDelete NewBatch start stop d = (d', r) →
  db_data d' = db_data d ∧
  ((∃ e, r = Err e) ∨
   ∃ keys, r = Ok (Some (map opDelete keys),
                   match keys !! (batch_size - 1) with Some k => k | None => start end) ∧
     keys = take batch_size (map fst (newMemDBIterator (db_data d) (Some start) (Some stop) true))).
Proof using.
  clear. intros Hs He. unfold reverseBatchDelete, mbind, M_bind, dbop, ReverseIterator, iterate.
  assert (∀ k : bytes, k ≠ [] → empty_bound (Some k) = false) as Hb.
  { intros k Hk. apply bool_decide_eq_false. congruence. }
  rewrite !Hb by done. cbn [orb].
  destruct (op_data (λ m, (m, newMemDBIterator m (Some start) (Some stop) true)) d) as [[e ->]| ->].
  { intros [= <- <-]. split; [done|]. left. by eexists. }
  cbn [fst snd wrap_err]. set (d1 := mkDB _ _).
  set (keys := take batch_size _). unfold lift, NewBatch.
  destruct (deletes_fold [] keys) as [Ek|[e Ek]]; rewrite Ek; [|intros [= <- <-]; split; [done|left; by eexists]].
  destruct (op_data (λ m, (m, tt)) d1) as [[e ->]| ->]; cbn [wrap_err fst snd].
  { intros [= <- <-]. split; [done|]. left. by eexists. }
  intros [= <- <-]. split; [done|]. right. by exists keys.
Qed.


Lemma iter_keys m start stop k :
  k ∈ map fst (newMemDBIterator m (Some start) (Some stop) true) ↔
    is_Some (m !! k) ∧ bytes_le start k ∧ bytes_ltb k stop = true.
Proof using.
  clear. rewrite newMemDBIterator_spec. cbn [direct]. rewrite list_elem_of_fmap. split.
  - intros ([k' v] & -> & Hx). apply elem_of_reverse, list_elem_of_filter in Hx as [Hd Hx].
    apply elem_of_ascend in Hx. apply Is_true_true, andb_true_iff in Hd as [Ha Hb].
    apply negb_true_iff, bytes_ltb_le in Ha. cbn in *. by rewrite Hx.
  - intros ([v Hv] & Ha & Hb). exists (k, v). split; [done|]. apply elem_of_reverse, list_elem_of_filter.
    split; [|by apply elem_of_ascend]. apply Is_true_true, andb_true_iff.
    split; [by apply negb_true_iff, bytes_ltb_le|done].
Qed.

Lemma sorted_lookup {A : Type} (R : A → A → Prop) (l : list A) i j x y :
  StronglySorted R l → i < j → l !! i = Some x → l !! j = Some y → R x y.
Proof using.
  clear. intros Hs. revert i j. induction Hs as [|a l _ IH Ha]; [done|]. intros i j Hij Hi Hj.
  destruct j as [|j]; [lia|]. destruct i as [|i]; cbn in *; [|by apply (IH i j); [lia|..]].
  simplify_eq. by apply (Forall_lookup_1 _ _ _ _ Ha Hj).
Qed.

Lemma iter_sorted m start stop :
  StronglySorted (flip bytes_le) (map fst (newMemDBIterator m (Some start) (Some stop) true)) ∧
  NoDup (map fst (newMemDBIterator m (Some start) (Some stop) true)).
Proof using.
  clear. rewrite newMemDBIterator_spec. cbn [direct]. set (P := in_domain _ _).
  rewrite <- filter_reverse. split.
  - pose proof (StronglySorted_filter (flip item_le) (λ x, P x) _ (descend_sorted m)) as Hs.
    induction Hs as [|x l _ IH Hx]; cbn; constructor; [done|]. by apply Forall_map.
  - eapply (sublist_NoDup); [|apply fmap_sublist, sublist_filter].
    rewrite reverse_Permutation. apply ascend_NoDup.
Qed.

(** What a batch of a prune holds: keys of the range, the end among them or the start; the
    other keys of the range are before the end. *)
Record chunk (m : gmap bytes bytes) (start stop0 : bytes) (keys : list bytes) (stop : bytes) : Prop := {
  ck_keys k : k ∈ keys → is_Some (m !! k) ∧ bytes_le start k ∧ bytes_ltb k stop0 = true;
  ck_stop : stop = start ∨ stop ∈ keys;
  ck_rest k : is_Some (m !! k) → bytes_le start k → bytes_ltb k stop0 = true →
    k ∈ keys ∨ bytes_ltb k stop = true }.

Lemma chunk_take m start stop :
  let keys := take batch_size (map fst (newMemDBIterator m (Some start) (Some stop) true)) in
  chunk m start stop keys match keys !! (batch_size - 1) with Some k => k | None => start end.
Proof using.
  clear. intros keys. split.
  - intros k (i & Hi & _)%elem_of_take. apply iter_keys. by eapply list_elem_of_lookup_2.
  - destruct (keys !! (batch_size - 1)) eqn:E; [right|by left]. by eapply list_elem_of_lookup_2.
  - intros k Hk Ha Hb. destruct (iter_sorted m start stop) as [Hs Hn]. unfold keys.
    set (l := map fst _) in *. assert (k ∈ l) as Hin by by apply iter_keys.
    destruct (decide (k ∈ take batch_size l)) as [|Hnot]; [by left|right].
    apply list_elem_of_lookup in Hin as [j Hj].
    assert (batch_size ≤ j) as Hle.
    { destruct (decide (j < batch_size)) as [Hlt|]; [|lia]. destruct Hnot.
      apply list_elem_of_lookup. exists j. by rewrite lookup_take_lt. }
    destruct (lookup_lt_is_Some_2 l (batch_size - 1)) as [e Ee].
    { apply lookup_lt_Some in Hj. lia. }
    rewrite lookup_take_lt, Ee by (unfold batch_size; lia). apply bytes_ltb_lt. split.
    + apply (sorted_lookup _ l (batch_size - 1) j e k Hs); [unfold batch_size in *; lia|done..].
    + intros ->. enough (j = batch_size - 1) by (unfold batch_size in *; lia).
      by eapply NoDup_lookup.
Qed.


Lemma prune_loop_erases fuel start stop0 keys stop d d' r :
  start ≠ [] → size (db_data d) < fuel → chunk (db_data d) start stop0 keys stop →
  prune_loop fuel start (Some (map opDelete keys)) stop d = (d', r) →
  r ≠ Panic ∧ erased start stop0 (db_data d) (db_data d') ∧
  (r = Ok tt → swept start stop0 (db_data d')).
Proof using.
  clear. intros Hs. revert keys stop stop0 d. induction fuel as [|fuel IH]; [lia|].
  intros keys stop stop0 d Hf [Hk Hst Hrest]. cbn [prune_loop]. unfold mbind, M_bind, dbop, batch_Write.
  destruct (op_data (λ m, (foldl apply_op m (map opDelete keys), tt)) d) as [[e ->]| ->].
  { intros [= <- <-]. split_and!; [done|apply erased_refl|done]. }
  cbn [fst snd wrap_err]. set (m := foldl apply_op (db_data d) (map opDelete keys)).
  assert (erased start stop0 (db_data d) m) as He.
  { intros k. unfold m. rewrite deletes_lookup. case_bool_decide as Hin; [|by left].
    destruct (Hk k Hin) as (_ & ? & ?). by right. }
  assert (∀ k, bytes_le start k → bytes_ltb k stop0 = true →
                m !! k = None ∨ bytes_ltb k stop = true) as Hleft.
  { intros k Ha Hb. unfold m. rewrite deletes_lookup. case_bool_decide as Hin; [by left|].
    destruct (db_data d !! k) eqn:Ek; [|by left]. destruct (Hrest k); [by rewrite Ek|done..|by right]. }
  case_bool_decide as E.
  { intros [= <- <-]. split_and!; [done|done|]. intros _ k Ha Hb.
    destruct (Hleft k Ha Hb) as [|Hlt]; [done|]. subst stop. by apply bytes_ltb_le in Ha; rewrite Ha in Hlt. }
  destruct Hst as [->|Hin]; [done|]. destruct (Hk stop Hin) as (Hsome & Hle & Hlt).
  assert (size m < size (db_data d)) as Hsz by by apply (deletes_size keys (db_data d)) with stop.
  destruct (reverseBatchDelete NewBatch start stop _) as [d1 r1] eqn:Er.
  assert (stop ≠ []) as Hne.
  { intros ->. apply E. apply (anti_symm bytes_le); [done|apply bytes_le_nil]. }
  apply reverseBatchDelete_spec in Er as [Hd1 [[e ->]|(keys' & -> & Ek)]]; [| |done|done].
  { intros [= <- <-]. split_and!; [done|by rewrite Hd1|done]. }
  intros Hl. cbn [db_data] in Hd1, Ek. subst keys'.
  destruct (IH _ _ stop d1 ltac:(rewrite Hd1; lia) ltac:(rewrite Hd1; apply chunk_take) Hl)
    as (Hr & He' & Hsw). rewrite Hd1 in He'. split_and!; [done| |].
  - eapply erased_trans; [|exact He|exact He']. apply bytes_ltb_lt in Hlt as [? _]. done.
  - intros Er k Ha Hb. destruct (Hleft k Ha Hb) as [Hn|]; [|by apply Hsw].
    by destruct (He' k) as [->|[? _]].
Qed.

(** [pruneRange] ends, and deletes keys of its range only, also when it fails, and all of
    them when it does not. *)
Lemma pruneRange_erases start stop d d' r :
  start ≠ [] → stop ≠ [] → pruneRange start stop d = (d', r) →
  r ≠ Panic ∧ erased start stop (db_data d) (db_data d') ∧
  (r = Ok tt → swept start stop (db_data d')).
Proof using.
  clear. intros Hs He. unfold pruneRange, mbind, M_bind, gets.
  destruct (reverseBatchDelete NewBatch start stop d) as [d1 r1] eqn:Er.
  apply reverseBatchDelete_spec in Er as [Hd1 [[e ->]|(keys & -> & Ek)]]; [| |done|done].
  { intros [= <- <-]. split_and!; [done|rewrite Hd1; apply erased_refl|done]. }
  intros Hl. subst keys. rewrite <- Hd1. eapply prune_loop_erases; [done| | |exact Hl]; rewrite Hd1; [lia|].
  apply chunk_take.
Qed.


Lemma op_quiet {A : Type} (f : gmap bytes bytes → gmap bytes bytes * A) (d : DB) :
  quiet d → ∃ d', op f d = (d', Ok (f (db_data d)).2) ∧ quiet d'.
Proof using.
  clear. intros Hq. destruct (op_data f d) as [[e E]|E].
  - unfold op in E. rewrite Hq in E by done. by destruct (f (db_data d)).
  - eexists. split; [exact E|]. intros n Hn. apply Hq. cbn in Hn. lia.
Qed.

Lemma deletes_fold_ok (ops : list operation) (ks : list bytes) :
  (∀ k, k ∈ ks → k ≠ []) →
  foldl add_delete (Ok (Some ops : Batch)) ks = Ok (Some (ops ++ map opDelete ks)).
Proof using.
  clear. revert ops. induction ks as [|k ks IH]; intros ops Hk; [by rewrite app_nil_r|].
  cbn [foldl]. unfold add_delete at 2, batch_Delete. orun.
  rewrite bool_decide_eq_false_2 by (apply Hk; left). cbn [wrap_err]. rewrite IH.
  - by rewrite <- app_assoc.
  - intros k' Hk'. apply Hk. by right.
Qed.

Lemma reverseBatchDelete_quiet start stop d :
  start ≠ [] → stop ≠ [] → quiet d →
  ∃ d' ops stop', reverseBatchDelete NewBatch start stop d = (d', Ok (Some ops, stop')) ∧ quiet d' ∧
    stop' ≠ [].
Proof using.
  clear. intros Hs He Hq. unfold reverseBatchDelete, mbind, M_bind, dbop, ReverseIterator, iterate.
  assert (∀ k : bytes, k ≠ [] → empty_bound (Some k) = false) as Hb.
  { intros k Hk. apply bool_decide_eq_false. congruence. }
  rewrite !Hb by done. cbn [orb].
  destruct (op_quiet (λ m, (m, newMemDBIterator m (Some start) (Some stop) true)) d Hq) as (d1 & -> & Hq1).
  cbn [snd wrap_err]. set (keys := take batch_size _).
  assert (∀ k, k ∈ keys → k ≠ []) as Hk.
  { intros k (i & Hi & _)%elem_of_take. apply list_elem_of_lookup_2, iter_keys in Hi as (_ & Hle & _).
    intros ->. apply Hs. apply (anti_symm bytes_le); [done|apply bytes_le_nil]. }
  unfold lift, NewBatch. rewrite (deletes_fold_ok [] keys Hk).
  destruct (op_quiet (λ m, (m, tt)) d1 Hq1) as (d2 & -> & Hq2). cbn [wrap_err].
  eexists _, _, _. split_and!; [done|done|]. destruct (keys !! _) eqn:E; [|done].
  eapply Hk, list_elem_of_lookup_2, E.
Qed.

Lemma prune_loop_quiet fuel start (ops : list operation) stop d d' r :
  start ≠ [] → stop ≠ [] → quiet d → prune_loop fuel start (Some ops) stop d = (d', r) → r ≠ Panic →
  quiet d' ∧ r = Ok tt.
Proof using.
  clear. intros Hs. revert ops stop d. induction fuel as [|fuel IH]; intros ops stop d He Hq.
  { cbn. by intros [= _ <-]. }
  cbn [prune_loop]. unfold mbind, M_bind, dbop, batch_Write.
  destruct (op_quiet (λ m, (foldl apply_op m ops, tt)) d Hq) as (d1 & -> & Hq1). cbn [wrap_err].
  case_bool_decide; [intros [= <- <-] _; by split|].
  destruct (reverseBatchDelete_quiet start stop d1 Hs He Hq1) as (d2 & ops' & stop' & -> & Hq2 & Hne).
  by apply IH.
Qed.

Lemma pruneRange_quiet start stop d d' r :
  start ≠ [] → stop ≠ [] → quiet d → pruneRange start stop d = (d', r) → quiet d' ∧ r = Ok tt.
Proof using.
  clear. intros Hs He Hq E. pose proof (pruneRange_erases _ _ _ _ _ Hs He E) as [Hr _].
  unfold pruneRange, mbind, M_bind, gets in E.
  destruct (reverseBatchDelete_quiet start stop d Hs He Hq) as (d2 & ops & stop' & Er & Hq2 & Hne).
  rewrite Er in E. exact (prune_loop_quiet _ _ _ _ _ _ _ Hs Hne Hq2 E Hr).
Qed.

(** ** Loading *)

Definition bytes_at (m : gmap bytes bytes) (key : bytes) : option bytes :=
  match m !! key with Some [] => None | b => b end.

(** What is stored for a height. *)
Definition info_at (m : gmap bytes bytes) (h : Z) : option ValidatorsInfo :=
  bytes_at m (validatorsKey h) ≫= ValidatorsInfo_Unmarshal.

Definition pinfo_at (m : gmap bytes bytes) (h : Z) : option ConsensusParamsInfo :=
  bytes_at m (consensusParamsKey h) ≫= ParamsInfo_Unmarshal.

(** A computation that leaves the content alone; its results are [a], or it fails, and it
    does not fail while the database does not. *)
Definition gives {A} (m : X A) (d : DB) (a : A) : Prop :=
  ∃ d' r, m d = (d', r) ∧ db_data d' = db_data d ∧ (quiet d → quiet d' ∧ r = Ok a) ∧
    (r = Ok a ∨ ∃ e, r = Err e).

Lemma gives_bind {A B} (m : X A) (f : A → X B) d a b :
  gives m d a → (∀ d', db_data d' = db_data d → gives (f a) d' b) → gives (m ≫= f) d b.
Proof using.
  clear. intros (d1 & r1 & E1 & Hd1 & Hq1 & Hr1) Hf. unfold gives, mbind, M_bind. rewrite E1.
  destruct Hr1 as [->|[e ->]].
  - destruct (Hf d1 Hd1) as (d2 & r2 & E2 & Hd2 & Hq2 & Hr2). rewrite E2. exists d2, r2.
    split_and!; [done|by rewrite Hd2|naive_solver|done].
  - exists d1, (Err e). split_and!; [done|done|naive_solver|right; by exists e].
Qed.

Lemma gives_ret {A} (a : A) d : gives (mret a) d a.
Proof using. exists d, (Ok a). split_and!; [done|done|done|by left]. Qed.

Lemma gives_lift {A} (o : outcome store_error A) d a : o = Ok a → gives (lift o) d a.
Proof using. intros ->. apply gives_ret. Qed.

Lemma gives_lift_err {E A} f (o : outcome E A) d a : o = Ok a → gives (lift_err f o) d a.
Proof using. intros ->. apply gives_ret. Qed.

Lemma gives_or_err {A} e (m : X A) d a : gives m d a → gives (or_err e m) d a.
Proof using.
  clear. intros (d1 & r1 & E1 & Hd1 & Hq1 & Hr1). unfold gives, or_err, mbind, M_bind, try. rewrite E1.
  destruct Hr1 as [->|[e' ->]]; [exists d1, (Ok a)|exists d1, (Err e)];
    (split_and!; [done|done|naive_solver|]); [by left|right; by exists e].
Qed.

Lemma gives_load key d : key ≠ [] → gives (load_bytes key) d (bytes_at (db_data d) key).
Proof using.
  clear. intros Hk. unfold gives, load_bytes, mbind, M_bind, dbop, Get.
  rewrite bool_decide_eq_false_2 by done. unfold op. destruct (fault (db_ops d)) eqn:Ef.
  - eexists _, _. split_and!; [done|done| |right; by eexists].
    intros Hq. by rewrite Hq in Ef.
  - exists (mkDB (db_data d) (S (db_ops d))), (Ok (bytes_at (db_data d) key)). split_and!; [|done| |by left].
    { cbn. unfold mret, M_ret, bytes_at. by destruct (db_data d !! key) as [[|]|]. }
    intros Hq. split; [|done]. intros n Hn. apply Hq. cbn in Hn. lia.
Qed.

Lemma gives_info d h i :
  in_int64 h → info_at (db_data d) h = Some i → gives (loadValidatorsInfo h) d i.
Proof using oc_law.
  intros Hh Hi. unfold loadValidatorsInfo. eapply gives_bind; [by apply gives_load, key_nonempty|].
  intros d' Hd. unfold info_at in Hi. destruct (bytes_at _ _) as [b|]; [|done]. cbn in Hi.
  unfold decode. rewrite Hi. apply gives_ret.
Qed.

Lemma gives_pinfo d h i :
  in_int64 h → pinfo_at (db_data d) h = Some i → gives (loadConsensusParamsInfo h) d i.
Proof using oc_law.
  intros Hh Hi. unfold loadConsensusParamsInfo. eapply gives_bind; [by apply gives_load, key_nonempty|].
  intros d' Hd. unfold pinfo_at in Hi. destruct (bytes_at _ _) as [b|]; [|done]. cbn in Hi.
  unfold decode. rewrite Hi. apply gives_ret.
Qed.


(** ** The history of states *)

(** The height a state is for, and those its validators are recorded as changed at. *)
Definition is_first (s : State) : bool := (int64 (LastBlockHeight s + 1) =? 1)%Z.

Definition save_height (s : State) : Z :=
  if is_first s then InitialHeight s else int64 (LastBlockHeight s + 1).

Definition changed_at (s : State) : Z :=
  if is_first s then InitialHeight s else LastHeightValidatorsChanged s.

(** The same validators and quorum; another validator may propose. *)
Definition same_set (v v' : ValidatorSet) : Prop := ∃ k, v' = set_proposerIndex v k.

#[local] Instance same_set_equiv : Equivalence same_set.
Proof using.
  clear. split.
  - intros v. exists (proposerIndex v). by destruct v.
  - intros v v' [k ->]. exists (proposerIndex v). by destruct v.
  - intros v1 v2 v3 [k ->] [k' ->]. by exists k'.
Qed.

Definition same_vals (s s' : State) : Prop :=
  ∃ v v', State_Validators s = Some v ∧ State_Validators s' = Some v' ∧ same_set v v'.

(** A state that can be saved for a height. *)
Record savable (s : State) (h : Z) : Prop := {
  sv_height : save_height s = h;
  sv_int : (1 ≤ h < MaxInt64)%Z;
  sv_storable : state_storable s;
  sv_changed : (1 ≤ changed_at s ≤ h)%Z;
  sv_params : (1 ≤ LastHeightConsensusParamsChanged s ≤ h)%Z }.

(** What changed from a state to the next one is marked as changed. *)
Record evolves (s s' : State) : Prop := {
  ev_vals : changed_at s' = save_height s' ∨ (changed_at s' = changed_at s ∧ same_vals s s');
  ev_params : LastHeightConsensusParamsChanged s' = save_height s' ∨
    (LastHeightConsensusParamsChanged s' = LastHeightConsensusParamsChanged s ∧
     State_Params s' = State_Params s) }.

(** A stored set is the set [v]. *)
Definition is_set (v : ValidatorSet) (p : ProtoValidatorSet) : Prop :=
  ∃ v', ValidatorSetFromProto (Some p) = Ok v' ∧ same_set v v'.

(** The set is recorded at a height. *)
Definition holds_set (m : gmap bytes bytes) (h : Z) (v : ValidatorSet) : Prop :=
  ∃ p c, info_at m h = Some (mkValidatorsInfo (Some p) c) ∧ is_set v p.

Definition holds_params (m : gmap bytes bytes) (h : Z) (cp : ConsensusParams) : Prop :=
  ∃ c, pinfo_at m h = Some (mkParamsInfo (Params_ToProto cp) c).

(** What is stored of the parameters for a height. *)
Definition saved_params (s : State) (h : Z) : ProtoParams :=
  if (LastHeightConsensusParamsChanged s =? h)%Z then Params_ToProto (State_Params s) else emptyProto.

(** The records of a height of the state [s]. *)
Record recorded (m : gmap bytes bytes) (h : Z) (s : State) : Prop := {
  rc_vals : ∃ v set, State_Validators s = Some v ∧
    info_at m h = Some (mkValidatorsInfo set (changed_at s)) ∧
    (∀ p, set = Some p → is_set v p) ∧
    holds_set m (lastStoredHeightFor h (changed_at s)) v;
  rc_params :
    pinfo_at m h = Some (mkParamsInfo (saved_params s h) (LastHeightConsensusParamsChanged s)) ∧
    holds_params m (LastHeightConsensusParamsChanged s) (State_Params s) }.

(** The store holds the states of the heights from [base] to [top]. *)
Record stored (base top : Z) (hist : Z → State) (m : gmap bytes bytes) : Prop := {
  sd_range : (1 ≤ base ≤ top)%Z;
  sd_hist h : (base ≤ h ≤ top)%Z → savable (hist h) h;
  sd_steps h : (base ≤ h < top)%Z → evolves (hist h) (hist (h + 1)%Z);
  sd_records h : (base ≤ h ≤ top)%Z → recorded m h (hist h);
  sd_state : ∃ pb, State_ToProto (hist top) = Ok pb ∧ bytes_at m stateKey = Some (State_Marshal pb) }.


(** ** Saving *)

(** Whether the set itself is stored for a height. *)
Definition stores_set (s : State) (h : Z) : bool :=
  (h =? changed_at s)%Z || (Z.rem h valSetCheckpointInterval =? 0)%Z.

Definition saved (m : gmap bytes bytes) (h : Z) (set : option ProtoValidatorSet) (pb : ProtoState)
    (s : State) : gmap bytes bytes :=
  <[stateKey := State_Marshal pb]>
    (<[consensusParamsKey h := ParamsInfo_Marshal
         (mkParamsInfo (saved_params s h) (LastHeightConsensusParamsChanged s))]>
      (<[validatorsKey h := ValidatorsInfo_Marshal (mkValidatorsInfo set (changed_at s))]> m)).

Lemma batch_Set_ok (ops : list operation) (key v : bytes) :
  key ≠ [] →
  wrap_err ErrDB (batch_Set (Some ops : Batch) key (Some v)) = Ok (Some (ops ++ [opSet key v]) : Batch).
Proof using. clear. intros Hk. unfold batch_Set. by rewrite bool_decide_eq_false_2. Qed.

Lemma savable_int s h : savable s h → in_int64 h.
Proof using. clear. intros []. unfold_ints. lia. Qed.

Lemma Write_spec (ops : list operation) d :
  ∃ d' r, dbop (batch_Write (Some ops)) d = (d', r) ∧ (quiet d → quiet d' ∧ r = Ok tt) ∧
    (r = Ok tt ∧ db_data d' = foldl apply_op (db_data d) ops ∨
     (∃ e, r = Err e) ∧ db_data d' = db_data d).
Proof using.
  clear. unfold dbop, batch_Write, op. destruct (fault (db_ops d)) eqn:Ef.
  - eexists _, _. split_and!; [done|intros Hq; by rewrite Hq in Ef|]. right. by split; [eexists|].
  - eexists (mkDB _ _), (Ok tt). split_and!; [done| |by left].
    intros Hq. split; [|done]. intros n Hn. apply Hq. cbn in Hn. lia.
Qed.

(** A state is saved in one batch, or not at all. *)
Lemma Save_spec s h d :
  savable s h →
  ∃ v p pb set, State_Validators s = Some v ∧ vals_ToProto (Some v) = Ok p ∧
    ValidatorSetFromProto (Some p) = Ok v ∧ State_ToProto s = Ok pb ∧
    set = (if stores_set s h then Some p else None) ∧
  ∃ d' r, Save s d = (d', r) ∧ (quiet d → quiet d' ∧ r = Ok tt) ∧
    (r = Ok tt ∧ db_data d' = saved (db_data d) h set pb s ∨
     (∃ e, r = Err e) ∧ db_data d' = db_data d).
Proof using oc_law.
  intros Hsv. pose proof (savable_int _ _ Hsv) as Hint. destruct Hsv as [Hh Hi Hst Hc _].
  destruct (ss_vals _ Hst) as (v & Ev & Hv). destruct (set_roundtrip v Hv) as (p & E1 & _ & E2).
  destruct (state_roundtrip s Hst) as (pb & E3 & _).
  exists v, p, pb, (if stores_set s h then Some p else None). split_and!; [done..|].
  unfold Save. fold (is_first s). fold (save_height s). fold (changed_at s). rewrite Hh.
  unfold saveValidatorsInfo. destruct (Z.ltb_spec h (changed_at s)); [lia|].
  fold (stores_set s h). rewrite Ev, E1. cbn [wrap_err].
  assert ((if stores_set s h then pv ← Ok p; Ok (Some pv) else Ok None : outcome store_error _) =
          Ok (if stores_set s h then Some p else None)) as -> by by destruct (stores_set s h).
  unfold mbind, M_bind, lift, outcome_bind, NewBatch, saveConsensusParamsInfo.
  rewrite !batch_Set_ok by (by apply key_nonempty).
  unfold state_Bytes. rewrite E3. cbn [wrap_err mbind outcome_bind lift_err].
  rewrite batch_Set_ok by (apply oc_nonempty; ints). cbn [app].
  eapply Write_spec.
Qed.


Lemma bytes_at_insert m (k k' v : bytes) :
  v ≠ [] → bytes_at (<[k := v]> m) k' = if bool_decide (k' = k) then Some v else bytes_at m k'.
Proof using.
  clear. intros Hv. unfold bytes_at. rewrite lookup_insert. case_bool_decide as E.
  - subst. rewrite decide_True by done. by destruct v.
  - by rewrite decide_False.
Qed.

Lemma saved_info m h h' set pb s :
  in_int64 h → in_int64 h' → (1 ≤ changed_at s)%Z →
  info_at (saved m h set pb s) h' =
    if (h' =? h)%Z then Some (mkValidatorsInfo set (changed_at s)) else info_at m h'.
Proof using oc_law codec.
  intros Hh Hh' Hc. destruct codec. unfold info_at, saved.
  rewrite bytes_at_insert, bool_decide_eq_false_2 by (done || by apply not_eq_sym, stateKey_ne).
  rewrite bytes_at_insert, bool_decide_eq_false_2; [|intros E%bytes_compare_eq|done].
  2:{ unfold validatorsKey, consensusParamsKey in E. by rewrite prefix_compare in E. }
  rewrite bytes_at_insert by (apply cl_vals_set0; cbn; lia).
  destruct (Z.eqb_spec h' h) as [->|Hne].
  - rewrite bool_decide_eq_true_2 by done. by cbn.
  - rewrite bool_decide_eq_false_2; [done|]. by intros E%key_inj.
Qed.

Lemma saved_pinfo m h h' set pb s :
  in_int64 h → in_int64 h' → (1 ≤ changed_at s)%Z →
  pinfo_at (saved m h set pb s) h' =
    if (h' =? h)%Z then Some (mkParamsInfo (saved_params s h) (LastHeightConsensusParamsChanged s))
    else pinfo_at m h'.
Proof using oc_law codec.
  intros Hh Hh' Hc. destruct codec. unfold pinfo_at, saved.
  rewrite bytes_at_insert, bool_decide_eq_false_2 by (done || by apply not_eq_sym, stateKey_ne).
  rewrite bytes_at_insert by done.
  destruct (Z.eqb_spec h' h) as [->|Hne].
  - rewrite bool_decide_eq_true_2 by done. by cbn.
  - rewrite bool_decide_eq_false_2 by (by intros E%key_inj).
    rewrite bytes_at_insert, bool_decide_eq_false_2; [done| |apply cl_vals_set0; cbn; lia].
    intros E%bytes_compare_eq. unfold validatorsKey, consensusParamsKey in E.
    by rewrite prefix_compare in E.
Qed.

Lemma saved_state m h set pb s : bytes_at (saved m h set pb s) stateKey = Some (State_Marshal pb).
Proof using codec.
  unfold saved. rewrite bytes_at_insert by apply codec. by rewrite bool_decide_eq_true_2.
Qed.

(** The heights where the sets of a height are stored. *)
Lemma lastStored_range h c : (1 ≤ c ≤ h)%Z → (1 ≤ lastStoredHeightFor h c ≤ h)%Z.
Proof using.
  clear. intros Hc. unfold lastStoredHeightFor.
  pose proof (Z.rem_bound_pos h valSetCheckpointInterval ltac:(lia) ltac:(done)). lia.
Qed.

Lemma lastStored_own s h :
  (1 ≤ changed_at s ≤ h)%Z → stores_set s h = true → lastStoredHeightFor h (changed_at s) = h.
Proof using.
  clear. intros Hc Hs. unfold stores_set in Hs. unfold lastStoredHeightFor.
  pose proof (Z.rem_bound_pos h valSetCheckpointInterval ltac:(lia) ltac:(done)).
  apply orb_true_iff in Hs as [Hs|Hs]; apply Z.eqb_eq in Hs; lia.
Qed.

(** The last checkpoint of a height that is not one is that of the height before. *)
Lemma lastStored_pred h c :
  (1 ≤ h)%Z → Z.rem (h + 1) valSetCheckpointInterval ≠ 0%Z →
  lastStoredHeightFor (h + 1) c = lastStoredHeightFor h c.
Proof using.
  clear. intros Hh Hr. unfold lastStoredHeightFor, valSetCheckpointInterval in *.
  rewrite !Z.rem_mod_nonneg in * by lia. f_equal.
  pose proof (Z.div_mod h 100000 ltac:(lia)). pose proof (Z.mod_pos_bound h 100000 ltac:(lia)).
  pose proof (Z.div_mod (h + 1) 100000 ltac:(lia)).
  pose proof (Z.mod_pos_bound (h + 1) 100000 ltac:(lia)). nia.
Qed.

Lemma recorded_frame m m' h s :
  savable s h → recorded m h s →
  (∀ h', (h' = h ∨ h' = lastStoredHeightFor h (changed_at s)) → info_at m' h' = info_at m h') →
  (∀ h', (h' = h ∨ h' = LastHeightConsensusParamsChanged s) → pinfo_at m' h' = pinfo_at m h') →
  recorded m' h s.
Proof using.
  clear. intros Hs [(v & set & R1 & R2 & R3 & p & c & R4 & R5) (R6 & c' & R8)] Hi Hp. split.
  - exists v, set. split_and!; [done|by rewrite Hi by (by left)|done|]. exists p, c.
    by rewrite Hi by (by right).
  - split; [by rewrite Hp by (by left)|]. exists c'. unfold holds_params.
    by rewrite Hp by (by right).
Qed.


(** [hist] with the state of the height [h]. *)
Definition push (hist : Z → State) (h : Z) (s : State) : Z → State :=
  λ h', if (h' =? h)%Z then s else hist h'.

Lemma push_same hist h s : push hist h s h = s.
Proof using. clear. unfold push. by rewrite Z.eqb_refl. Qed.

Lemma push_other hist h s h' : h' ≠ h → push hist h s h' = hist h'.
Proof using. clear. intros. unfold push. by destruct (Z.eqb_spec h' h). Qed.

(** A state that stores its own records. *)
Lemma saved_own_set m s h v p pb :
  savable s h → stores_set s h = true → ValidatorSetFromProto (Some p) = Ok v →
  holds_set (saved m h (Some p) pb s) (lastStoredHeightFor h (changed_at s)) v.
Proof using oc_law codec.
  intros Hs Ho Hp. pose proof (savable_int _ _ Hs). destruct Hs as [_ _ _ Hc _].
  rewrite lastStored_own by done. exists p, (changed_at s).
  rewrite saved_info, Z.eqb_refl by (done || lia). split; [done|]. by exists v.
Qed.

Lemma saved_own_params m s h set pb :
  savable s h → LastHeightConsensusParamsChanged s = h →
  holds_params (saved m h set pb s) (LastHeightConsensusParamsChanged s) (State_Params s).
Proof using oc_law codec.
  intros Hs Ho. pose proof (savable_int _ _ Hs). destruct Hs as [_ _ _ Hc _].
  exists h. unfold saved_params. rewrite Ho, saved_pinfo, Z.eqb_refl by (done || lia).
  unfold saved_params. by rewrite Ho, Z.eqb_refl.
Qed.

(** The records of the state that was saved, once its references are there. *)
Lemma saved_recorded m s h v p pb set :
  savable s h → State_Validators s = Some v → ValidatorSetFromProto (Some p) = Ok v →
  set = (if stores_set s h then Some p else None) →
  holds_set (saved m h set pb s) (lastStoredHeightFor h (changed_at s)) v →
  holds_params (saved m h set pb s) (LastHeightConsensusParamsChanged s) (State_Params s) →
  recorded (saved m h set pb s) h s.
Proof using oc_law codec.
  intros Hs Ev Ep Eset Hh Hp. pose proof (savable_int _ _ Hs). destruct Hs as [_ _ _ Hc _]. split.
  - exists v, set. rewrite saved_info, Z.eqb_refl by (done || lia). split_and!; try done.
    intros p' E. exists v. rewrite E in Eset. destruct (stores_set s h); [|done].
    injection Eset as ->. split; [done|reflexivity].
  - by rewrite saved_pinfo, Z.eqb_refl by (done || lia).
Qed.

(** The first save of a chain. *)
Lemma Save_first m s h v p pb :
  savable s h → changed_at s = h → LastHeightConsensusParamsChanged s = h →
  State_Validators s = Some v → ValidatorSetFromProto (Some p) = Ok v → State_ToProto s = Ok pb →
  stored h h (λ _, s) (saved m h (if stores_set s h then Some p else None) pb s).
Proof using oc_law codec.
  intros Hs Hc Hp Ev Ep Epb.
  assert (stores_set s h = true) as Ho by (unfold stores_set; by rewrite Hc, Z.eqb_refl).
  split.
  - destruct Hs as [_ Hi _ _ _]. lia.
  - intros h' Hh'. by replace h' with h by lia.
  - lia.
  - intros h' Hh'. replace h' with h by lia. eapply saved_recorded; [done..| |by apply saved_own_params].
    rewrite Ho. by apply saved_own_set.
  - exists pb. split; [done|]. apply saved_state.
Qed.

(** Every save after it extends the history, or what is left of it below an earlier height. *)
Lemma Save_over m base top hist s v p pb set :
  (1 ≤ base ≤ top)%Z → (∀ h, (base ≤ h ≤ top)%Z → savable (hist h) h) →
  (∀ h, (base ≤ h < top)%Z → evolves (hist h) (hist (h + 1)%Z)) →
  (∀ h, (base ≤ h ≤ top)%Z → recorded m h (hist h)) → savable s (top + 1) → evolves (hist top) s →
  State_Validators s = Some v → ValidatorSetFromProto (Some p) = Ok v → State_ToProto s = Ok pb →
  set = (if stores_set s (top + 1) then Some p else None) →
  stored base (top + 1) (push hist (top + 1) s) (saved m (top + 1) set pb s).
Proof using oc_law codec.
  intros Hr Hh Hst Hrec Hs [Hev Hep] Ev Ep Epb Eset.
  pose proof (savable_int _ _ Hs) as Hint. pose proof (sv_changed _ _ Hs) as Hc.
  pose proof (sv_height _ _ Hs) as Hn. set (m' := saved _ _ _ _ _).
  assert (∀ h', (1 ≤ h' ≤ top)%Z → info_at m' h' = info_at m h' ∧ pinfo_at m' h' = pinfo_at m h') as Hfr.
  { intros h' Hh'. assert (in_int64 h') by (unfold_ints; lia). unfold m'.
    rewrite saved_info, saved_pinfo by (done || lia). by destruct (Z.eqb_spec h' (top + 1)); [lia|]. }
  split.
  - lia.
  - intros h' Hh'. destruct (decide (h' = top + 1)%Z) as [->|Hne]; [by rewrite push_same|].
    rewrite push_other by done. apply Hh. lia.
  - intros h' Hh'. rewrite push_other by lia. destruct (decide (h' = top)) as [->|Hne].
    + by rewrite push_same.
    + rewrite push_other by lia. apply Hst. lia.
  - intros h' Hh'. destruct (decide (h' = top + 1)%Z) as [->|Hne]; [rewrite push_same|].
    + destruct (Hrec top ltac:(lia)) as [(w & wset & W1 & _ & _ & wp & wc & W2 & W3) (_ & c & W4)].
      pose proof (Hh top ltac:(lia)) as Htop. eapply saved_recorded; [done..| |].
      * destruct (stores_set s (top + 1)) eqn:Ho; [subst set; by apply saved_own_set|].
        apply orb_false_iff in Ho as [Ho1%Z.eqb_neq Ho2%Z.eqb_neq].
        destruct Hev as [Hev|[Hev (w' & v' & S1 & S2 & S3)]]; [congruence|].
        rewrite lastStored_pred, Hev by (done || lia).
        pose proof (lastStored_range top _ (sv_changed _ _ Htop)) as Hls.
        exists wp, wc. fold m'. rewrite (proj1 (Hfr _ Hls)). split; [done|].
        destruct W3 as (u & U1 & U2). exists u. split; [done|]. simplify_eq.
        etransitivity; [|exact U2]. by symmetry.
      * destruct Hep as [Hep|[Hep Hpar]]; [apply saved_own_params; congruence|].
        exists c. fold m'. rewrite Hep, (proj2 (Hfr _ (sv_params _ _ Htop))). by rewrite Hpar.
    + rewrite push_other by done. pose proof (Hh h' ltac:(lia)) as Hsv.
      pose proof (sv_params _ _ Hsv). pose proof (lastStored_range h' _ (sv_changed _ _ Hsv)).
      eapply recorded_frame; [done|apply Hrec; lia| |]; intros h1 [->| ->]; apply Hfr; lia.
  - exists pb. rewrite push_same. split; [done|]. apply saved_state.
Qed.

Lemma Save_next m base top hist s h v p pb set :
  stored base top hist m → (base < h ≤ top + 1)%Z → savable s h → evolves (hist (h - 1)%Z) s →
  State_Validators s = Some v → ValidatorSetFromProto (Some p) = Ok v → State_ToProto s = Ok pb →
  set = (if stores_set s h then Some p else None) →
  stored base h (push hist h s) (saved m h set pb s).
Proof using oc_law codec.
  intros [Hr Hh Hst Hrec _] Hb. assert (∃ t, h = (t + 1)%Z) as [t ->] by (exists (h - 1)%Z; lia).
  replace (t + 1 - 1)%Z with t by lia. intros. eapply Save_over; try done; [lia|..]; intros h' Hh'.
  - apply Hh. lia.
  - apply Hst. lia.
  - apply Hrec. lia.
Qed.


(** ** Pruning *)

(** The kinds of records that are pruned. *)
Definition pruned_kind (p : Z) : bool :=
  bool_decide (p ∈ [prefixValidators; prefixConsensusParams; prefixABCIResponses; prefixFinalizeBlockResponses]).

(** The records that stay when the heights below [r] are pruned. *)
Definition needed (r vref pref p h : Z) : Prop :=
  pruned_kind p = false ∨ ¬ (1 ≤ h < r)%Z ∨ (p = prefixValidators ∧ h = vref) ∨ (p = prefixConsensusParams ∧ h = pref).

(** The records from the height [r] on, and those at the two heights they refer to, are as
    before; nothing new appears. *)
Record kept (r vref pref : Z) (m m' : gmap bytes bytes) : Prop := {
  kp_info h : in_int64 h → (r ≤ h)%Z ∨ h = vref → info_at m' h = info_at m h;
  kp_pinfo h : in_int64 h → (r ≤ h)%Z ∨ h = pref → pinfo_at m' h = pinfo_at m h;
  kp_state : bytes_at m' stateKey = bytes_at m stateKey;
  kp_shrink k : m !! k = None → m' !! k = None;
  kp_records p h : in_int64 p → in_int64 h → needed r vref pref p h → m' !! encodeKey p h = m !! encodeKey p h }.

Lemma kept_refl r vref pref m : kept r vref pref m m.
Proof using. clear. by split. Qed.

Lemma kept_trans r vref pref m1 m2 m3 :
  kept r vref pref m1 m2 → kept r vref pref m2 m3 → kept r vref pref m1 m3.
Proof using.
  clear. intros [A1 A2 A3 A4 A5] [B1 B2 B3 B4 B5]. split; intros.
  - rewrite B1 by done. by apply A1.
  - rewrite B2 by done. by apply A2.
  - by rewrite B3.
  - auto.
  - rewrite B5 by done. by apply A5.
Qed.

(** The ranges that may go. *)
Definition prunable (r vref pref p a b : Z) : Prop :=
  (1 ≤ a ∧ b ≤ r)%Z ∧ pruned_kind p = true ∧
  (p = prefixValidators → ¬ (a ≤ vref < b)%Z) ∧
  (p = prefixConsensusParams → ¬ (a ≤ pref < b)%Z).

Lemma erased_at p a b m m' q h :
  in_int64 p → in_int64 q → in_int64 a → in_int64 b → in_int64 h →
  erased (encodeKey p a) (encodeKey p b) m m' → ¬ (q = p ∧ (a ≤ h < b)%Z) →
  bytes_at m' (encodeKey q h) = bytes_at m (encodeKey q h).
Proof using oc_law.
  intros ? ? ? ? ? He Hn. unfold bytes_at.
  destruct (He (encodeKey q h)) as [->|(_ & Ha & Hb)]; [done|]. destruct Hn. by apply key_range.
Qed.

Lemma kept_erased r vref pref p a b m m' :
  in_int64 p → in_int64 a → in_int64 b → prunable r vref pref p a b →
  erased (encodeKey p a) (encodeKey p b) m m' → kept r vref pref m m'.
Proof using oc_law.
  intros Hp Ha Hb (Hbr & Hne & Hv & Hc) He.
  assert (p ≠ prefixState) as Hns by (intros ->; discriminate Hne). split.
  - intros h Hh Hor. unfold info_at, validatorsKey.
    rewrite (erased_at p a b m m'); [done|done..|]. intros [<- Hr]. specialize (Hv eq_refl).
    destruct Hor as [| ->]; [lia|done].
  - intros h Hh Hor. unfold pinfo_at, consensusParamsKey.
    rewrite (erased_at p a b m m'); [done|done..|]. intros [<- Hr]. specialize (Hc eq_refl).
    destruct Hor as [| ->]; [lia|done].
  - unfold bytes_at. destruct (He stateKey) as [->|(_ & L1 & L2)]; [done|].
    by destruct (stateKey_range p a b Hp Ha Hb Hns L1 L2).
  - intros k Hk. by destruct (He k) as [->|[? _]].
  - intros q h Hq Hh Hn. destruct (He (encodeKey q h)) as [->|(_ & L1 & L2)]; [done|]. exfalso.
    destruct (key_range p q a b h Hp Hq Ha Hb Hh L1 L2) as [-> Hr].
    destruct Hn as [Hn|[Hn|[[-> ->]|[-> ->]]]]; [congruence|lia|by apply Hv|by apply Hc].
Qed.

(** A part of a prune: what it keeps, however it ends, and what holds when it succeeds. *)
Definition prunes (r vref pref : Z) (m : X unit) (d : DB) (Q : gmap bytes bytes → Prop) : Prop :=
  ∃ d' o, m d = (d', o) ∧ o ≠ Panic ∧ kept r vref pref (db_data d) (db_data d') ∧
    (o = Ok tt → Q (db_data d')) ∧ (quiet d → quiet d' ∧ o = Ok tt).

Lemma prunes_bind (r vref pref : Z) (m : X unit) (f : unit → X unit) (d : DB)
    (Q1 Q : gmap bytes bytes → Prop) :
  prunes r vref pref m d Q1 →
  (∀ d', kept r vref pref (db_data d) (db_data d') → Q1 (db_data d') →
     prunes r vref pref (f tt) d' Q) →
  prunes r vref pref (m ≫= f) d Q.
Proof using.
  clear. intros (d1 & o1 & E1 & N1 & K1 & P1 & L1) Hf. unfold prunes, mbind, M_bind. rewrite E1.
  destruct o1 as [[]|e|]; [|exists d1, (Err e); split_and!; [done..|naive_solver]|done].
  destruct (Hf d1 K1 (P1 eq_refl)) as (d2 & o2 & E2 & N2 & K2 & P2 & L2). rewrite E2. exists d2, o2.
  split_and!; [done|done|by eapply kept_trans|done|naive_solver].
Qed.

Lemma prunes_gives {A} r vref pref (m : X A) (f : A → X unit) d a Q :
  gives m d a → (∀ d', db_data d' = db_data d → prunes r vref pref (f a) d' Q) →
  prunes r vref pref (m ≫= f) d Q.
Proof using.
  clear. intros (d1 & r1 & E1 & Hd1 & Hq1 & Hr1) Hf. unfold prunes, mbind, M_bind. rewrite E1.
  destruct Hr1 as [->|[e ->]].
  - destruct (Hf d1 Hd1) as (d2 & o2 & E2 & N2 & K2 & P2 & L2). rewrite E2. exists d2, o2.
    rewrite <- Hd1. split_and!; [done..|naive_solver].
  - exists d1, (Err e). rewrite Hd1. split_and!; [done|done|apply kept_refl|done|naive_solver].
Qed.

Lemma prunes_ret (r vref pref : Z) (d : DB) (Q : gmap bytes bytes → Prop) :
  Q (db_data d) → prunes r vref pref (mret tt) d Q.
Proof using. intros HQ. exists d, (Ok tt). split_and!; [done|done|apply kept_refl|done|done]. Qed.

Lemma prunes_range r vref pref p a b d :
  in_int64 p → in_int64 a → in_int64 b → prunable r vref pref p a b →
  prunes r vref pref (pruneRange (encodeKey p a) (encodeKey p b)) d
    (λ m, ∀ h, (a ≤ h < b)%Z → m !! encodeKey p h = None).
Proof using oc_law.
  intros Hp Ha Hb Hpr. destruct (pruneRange (encodeKey p a) (encodeKey p b) d) as [d' o] eqn:E.
  exists d', o. destruct (pruneRange_erases _ _ _ _ _ (key_nonempty p a Hp Ha) (key_nonempty p b Hp Hb) E)
    as (Hn & He & Hs). split_and!; [done|done|exact (kept_erased _ _ _ p a b _ _ Hp Ha Hb Hpr He)| |].
  2:{ intros Hq. exact (pruneRange_quiet _ _ _ _ _ (key_nonempty p a Hp Ha) (key_nonempty p b Hp Hb) Hq E). }
  intros Eo h Hh. subst o.
  assert (in_int64 h) by (unfold_ints; lia).
  apply (Hs eq_refl); unfold bytes_le, bytes_ltb; rewrite key_compare by done.
  - by destruct (Z.compare_spec a h); [..|lia].
  - by destruct (Z.compare_spec h b); [lia|..|lia].
Qed.


(** The heights the records of a state refer to. *)
Definition vals_ref (s : State) (h : Z) : Z := lastStoredHeightFor h (changed_at s).
Definition params_ref (s : State) : Z := LastHeightConsensusParamsChanged s.

Definition pruned (p r ref : Z) (m : gmap bytes bytes) : Prop :=
  ∀ h, (1 ≤ h < r)%Z → h ≠ ref → m !! encodeKey p h = None.

Notation prunes_for s r := (prunes r (vals_ref s r) (params_ref s)).
Notation kept_for s r := (kept r (vals_ref s r) (params_ref s)).

Lemma kept_recorded s r m m' :
  savable s r → recorded m r s → kept_for s r m m' → recorded m' r s.
Proof using.
  intros Hs Hr [K1 K2 _ _ _]. pose proof (savable_int _ _ Hs) as Hi.
  pose proof (lastStored_range r _ (sv_changed _ _ Hs)). pose proof (sv_params _ _ Hs).
  eapply recorded_frame; [done..| |]; intros h' [->| ->]; [apply K1|apply K1|apply K2|apply K2];
    first [done | by left; lia | by right | unfold_ints; lia].
Qed.

Lemma pruneConsensusParams_spec s r d :
  savable s r → recorded (db_data d) r s →
  prunes_for s r (pruneConsensusParams r) d (pruned prefixConsensusParams r (params_ref s)).
Proof using oc_law.
  intros Hs [_ [Hp (c & Hh)]]. pose proof (savable_int _ _ Hs) as Hi.
  destruct Hs as [_ Hr _ _ Hc]. set (p := LastHeightConsensusParamsChanged s) in *.
  assert (in_int64 p ∧ in_int64 1 ∧ in_int64 prefixConsensusParams) as (Hip & Hi1 & Hpre).
  { split_and!; [unfold_ints; lia|done|done]. }
  unfold pruneConsensusParams. eapply prunes_gives; [by apply gives_or_err, gives_pinfo|].
  intros d1 Ed1. cbn [CPI_ConsensusParams CPI_LastHeightChanged]. unfold saved_params. fold p.
  eapply (prunes_bind _ _ _ _ _ _ (λ m, ∀ h, (p + 1 ≤ h < r)%Z → m !! consensusParamsKey h = None)).
  - destruct (Z.eqb_spec p r) as [Epr|Epr]; cbn [ProtoParams_empty emptyProto Params_ToProto].
    + apply prunes_ret. intros h ?. lia.
    + eapply prunes_gives; [apply gives_or_err, gives_pinfo; [done|by rewrite Ed1]|].
      intros d2 Ed2. cbn [CPI_ConsensusParams ProtoParams_empty Params_ToProto].
      rewrite int64_id by (unfold_ints; lia). apply prunes_range; [done| |done|].
      { unfold_ints. lia. }
      split_and!; [lia|lia|done|done|]. unfold params_ref. fold p. lia.
  - intros d2 K2 Q2. unfold prunes.
    destruct (prunes_range r (vals_ref s r) (params_ref s) prefixConsensusParams 1 p d2)
      as (d3 & o & E & N & K & Q & L); [done..| |].
    { split_and!; [lia|lia|done|done|]. unfold params_ref. fold p. lia. }
    exists d3, o. split_and!; [exact E|done|done| |done]. intros Eo h Hh' Hne. unfold params_ref in Hne. fold p in Hne.
    destruct (decide (h < p)%Z); [apply Q; [done|lia]|]. apply K. apply Q2. lia.
Qed.

Lemma pruneValidatorSets_spec s r d :
  savable s r → recorded (db_data d) r s →
  prunes_for s r (pruneValidatorSets r) d (pruned prefixValidators r (vals_ref s r)).
Proof using oc_law.
  intros Hs [(v & set & _ & Hinfo & _ & ps & c & Hh & _) _]. pose proof (savable_int _ _ Hs) as Hi.
  pose proof (lastStored_range r _ (sv_changed _ _ Hs)) as Hlr.
  destruct Hs as [_ Hr _ Hc _]. set (p := vals_ref s r). unfold pruneValidatorSets.
  eapply prunes_gives; [by apply gives_or_err, gives_info|].
  intros d1 Ed1. cbn [VI_LastHeightChanged]. fold (vals_ref s r) in Hh, Hlr |- *. fold p in Hh, Hlr |- *.
  assert (in_int64 p ∧ in_int64 1 ∧ in_int64 prefixValidators) as (Hip & Hi1 & Hpre).
  { split_and!; [unfold_ints; lia|done|done]. }
  eapply prunes_gives; [apply gives_or_err, gives_info; [done|by rewrite Ed1]|].
  intros d2 Ed2. cbn [VI_ValidatorSet]. rewrite bool_decide_eq_false_2 by done.
  eapply (prunes_bind _ _ _ _ _ _ (λ m, ∀ h, (p + 1 ≤ h < r)%Z → m !! validatorsKey h = None)).
  - destruct (Z.ltb_spec p r); [|apply prunes_ret; intros h ?; lia].
    rewrite int64_id by (unfold_ints; lia). apply prunes_range; [done| |done|].
    { unfold_ints. lia. }
    split_and!; [lia|lia|done|lia|done].
  - intros d3 K3 Q3.
    destruct (prunes_range r p (params_ref s) prefixValidators 1 p d3)
      as (d4 & o & E & N & K & Q & L); [done..| |].
    { split_and!; [lia|lia|done|lia|done]. }
    exists d4, o. split_and!; [exact E|done|done| |done]. intros Eo h Hh' Hne.
    destruct (decide (h < p)%Z); [apply Q; [done|lia]|]. apply K. apply Q3. lia.
Qed.

(** Pruning keeps what is needed from its height on, however it ends; what it leaves of the
    earlier heights when it succeeds are the records that are referred to. *)
Lemma PruneStates_spec s r d :
  savable s r → recorded (db_data d) r s →
  prunes_for s r (PruneStates r) d (λ m, ∀ p h, pruned_kind p = true → (1 ≤ h < r)%Z →
    ¬ needed r (vals_ref s r) (params_ref s) p h → m !! encodeKey p h = None).
Proof using oc_law.
  intros Hs Hr. pose proof (savable_int _ _ Hs) as Hi. pose proof (sv_int _ _ Hs). unfold PruneStates.
  destruct (Z.leb_spec r 0); [lia|].
  eapply prunes_bind; [by apply pruneConsensusParams_spec|]. intros d1 K1 Q1.
  eapply prunes_bind; [apply pruneValidatorSets_spec; [done|by eapply kept_recorded]|].
  intros d2 K2 Q2. unfold pruneFinalizeBlockResponses.
  eapply prunes_bind; [apply (prunes_range _ _ _ prefixFinalizeBlockResponses 1 r); [done..|split_and!; (lia || done)]|].
  intros d3 K3 Q3. edestruct (prunes_range r (vals_ref s r) (params_ref s) prefixABCIResponses 1 r d3)
    as (d4 & o & E & N & K & Q & L); [done..|split_and!; (lia || done)|].
  exists d4, o. split_and!; [exact E|done|done| |done]. intros Eo p h Hp Hh Hn.
  apply bool_decide_eq_true in Hp. unfold needed in Hn.
  apply elem_of_cons in Hp as [->|Hp]; [apply K, K3, Q2; [done|intros ->; apply Hn; auto]|].
  apply elem_of_cons in Hp as [->|Hp]; [apply K, K3, K2, Q1; [done|intros ->; apply Hn; auto]|].
  apply elem_of_cons in Hp as [->|Hp]; [by apply Q|].
  apply elem_of_cons in Hp as [->|Hp]; [by apply K, Q3|by apply elem_of_nil in Hp].
Qed.


(** What a later height refers to is kept, or not before the height pruned to. *)
Lemma unchanged_since (f : State → Z) hist r h :
  (∀ i, (r ≤ i < h)%Z → f (hist (i + 1)%Z) = (i + 1)%Z ∨ f (hist (i + 1)%Z) = f (hist i)) →
  (r ≤ h)%Z → (f (hist h) < r)%Z → f (hist h) = f (hist r).
Proof using.
  clear. intros Hs Hr. replace h with (r + Z.of_nat (Z.to_nat (h - r)))%Z in Hs |- * by lia.
  induction (Z.to_nat (h - r)) as [|n IH]; [by rewrite Z.add_0_r|].
  rewrite Nat2Z.inj_succ in *. replace (r + Z.succ (Z.of_nat n))%Z with (r + Z.of_nat n + 1)%Z in * by lia.
  intros Hlt. destruct (Hs (r + Z.of_nat n)%Z ltac:(lia)) as [E|E]; [lia|]. rewrite E in *.
  apply IH; [|done]. intros i Hi. apply Hs. lia.
Qed.

Lemma evolves_heights base top hist m h :
  stored base top hist m → (base ≤ h < top)%Z →
  (changed_at (hist (h + 1)) = h + 1 ∨ changed_at (hist (h + 1)) = changed_at (hist h))%Z ∧
  (params_ref (hist (h + 1)) = h + 1 ∨ params_ref (hist (h + 1)) = params_ref (hist h))%Z.
Proof using.
  clear. intros Hst Hh. destruct (sd_steps _ _ _ _ Hst h Hh) as [Hv Hp].
  pose proof (sv_height _ _ (sd_hist _ _ _ _ Hst (h + 1)%Z ltac:(lia))) as En. rewrite En in *.
  unfold params_ref. naive_solver.
Qed.

Lemma vals_ref_kept base top hist m r h :
  stored base top hist m → (base ≤ r ≤ h)%Z → (h ≤ top)%Z →
  (r ≤ vals_ref (hist h) h)%Z ∨ vals_ref (hist h) h = vals_ref (hist r) r.
Proof using.
  clear. intros Hst Hr Hh. destruct (decide (vals_ref (hist h) h < r)%Z) as [Hlt|]; [right|left; lia].
  pose proof (sd_range _ _ _ _ Hst). unfold vals_ref, lastStoredHeightFor in *.
  rewrite (unchanged_since changed_at hist r h); [|intros i Hi|lia|lia].
  - f_equal. unfold valSetCheckpointInterval in *. rewrite !Z.rem_mod_nonneg in * by lia.
    pose proof (Z.div_mod h 100000 ltac:(lia)). pose proof (Z.mod_pos_bound h 100000 ltac:(lia)).
    pose proof (Z.div_mod r 100000 ltac:(lia)). pose proof (Z.mod_pos_bound r 100000 ltac:(lia)). nia.
  - apply (evolves_heights base top hist m); [done|lia].
Qed.

Lemma params_ref_kept base top hist m r h :
  stored base top hist m → (base ≤ r ≤ h)%Z → (h ≤ top)%Z →
  (r ≤ params_ref (hist h))%Z ∨ params_ref (hist h) = params_ref (hist r).
Proof using.
  clear. intros Hst Hr Hh. destruct (decide (params_ref (hist h) < r)%Z) as [Hlt|]; [right|left; lia].
  apply unchanged_since; [|lia|done]. intros i Hi.
  apply (evolves_heights base top hist m); [done|lia].
Qed.

Lemma kept_stored base top hist m m' r :
  stored base top hist m → (base ≤ r ≤ top)%Z →
  (∀ h, in_int64 h → (r ≤ h)%Z ∨ h = vals_ref (hist r) r → info_at m' h = info_at m h) →
  (∀ h, in_int64 h → (r ≤ h)%Z ∨ h = params_ref (hist r) → pinfo_at m' h = pinfo_at m h) →
  bytes_at m' stateKey = bytes_at m stateKey →
  stored r top hist m'.
Proof using.
  clear. intros Hst Hr K1 K2 K3. destruct Hst as [Hb Hh Hs Hrec Hsb] eqn:E. clear E. split.
  - lia.
  - intros h ?. apply Hh. lia.
  - intros h ?. apply Hs. lia.
  - intros h Hhr. pose proof (Hh h ltac:(lia)) as Hsv. pose proof (savable_int _ _ Hsv).
    pose proof (lastStored_range h _ (sv_changed _ _ Hsv)). pose proof (sv_params _ _ Hsv).
    eapply recorded_frame; [done|apply Hrec; lia| |]; intros h' Hh'.
    + apply K1; [destruct Hh'; subst; unfold_ints; lia|]. destruct Hh' as [->| ->]; [left; lia|].
      eapply (vals_ref_kept base top hist m); [done|lia|lia].
    + apply K2; [destruct Hh'; subst; unfold_ints; lia|]. destruct Hh' as [->| ->]; [left; lia|].
      eapply (params_ref_kept base top hist m); [done|lia|lia].
  - by rewrite K3.
Qed.

(** ** What is loaded *)

Lemma gives_holds h set c v d :
  in_int64 h → in_int64 (lastStoredHeightFor h c) →
  info_at (db_data d) h = Some (mkValidatorsInfo set c) → (∀ p, set = Some p → is_set v p) →
  holds_set (db_data d) (lastStoredHeightFor h c) v →
  ∃ i v', gives (loadValidators h) d i ∧
    ValidatorSetFromProto (VI_ValidatorSet i) = Ok v' ∧ same_set v v'.
Proof using oc_law.
  intros Hh Hl Hi Hset (p & c' & Hp & v' & E1 & E2). unfold loadValidators. destruct set as [q|].
  - destruct (Hset q eq_refl) as (w & W1 & W2). exists (mkValidatorsInfo (Some q) c), w.
    split_and!; [|exact W1|done].
    eapply gives_bind; [by apply gives_or_err, gives_info|]. intros d1 _. cbn. apply gives_ret.
  - exists (mkValidatorsInfo (Some p) c'), v'. split_and!; [|done|done].
    eapply gives_bind; [by apply gives_or_err, gives_info|]. intros d1 Ed1. cbn.
    eapply gives_bind; [apply gives_or_err, gives_info; [done|by rewrite Ed1]|].
    intros d2 _. cbn. apply gives_ret.
Qed.

Lemma gives_set h s d :
  savable s h → recorded (db_data d) h s →
  ∃ v i v', State_Validators s = Some v ∧ gives (loadValidators h) d i ∧
    ValidatorSetFromProto (VI_ValidatorSet i) = Ok v' ∧ same_set v v'.
Proof using oc_law.
  intros Hs [(v & set & Ev & Hi & Hset & Hh) _].
  pose proof (savable_int _ _ Hs) as Hint. pose proof (lastStored_range h _ (sv_changed _ _ Hs)).
  destruct (gives_holds h set (changed_at s) v d) as (i & v' & G); [done| |done..|by exists v, i, v'].
  pose proof (sv_int _ _ Hs). unfold_ints. lia.
Qed.

Lemma gives_params h s d :
  savable s h → recorded (db_data d) h s → gives (LoadConsensusParams h) d (State_Params s).
Proof using oc_law.
  intros Hs [_ [Hp (c & Hr)]]. pose proof (savable_int _ _ Hs) as Hint. pose proof (sv_params _ _ Hs).
  pose proof (ss_params _ (sv_storable _ _ Hs)) as Hv. pose proof (sv_int _ _ Hs). unfold LoadConsensusParams.
  eapply gives_bind; [by apply gives_or_err, gives_pinfo|]. intros d1 Ed1. cbn [CPI_ConsensusParams].
  unfold saved_params. destruct (_ =? h)%Z; cbn [ProtoParams_empty Params_ToProto emptyProto].
  - rewrite params_roundtrip by done. apply gives_ret.
  - cbn [CPI_LastHeightChanged].
    eapply gives_bind; [apply gives_or_err, gives_pinfo; [unfold_ints; lia|by rewrite Ed1]|].
    intros d2 _. cbn [CPI_ConsensusParams ProtoParams_empty Params_ToProto].
    change (mkPParams _ _ _ _ _ _ _) with (Params_ToProto (State_Params s)).
    rewrite params_roundtrip by done. apply gives_ret.
Qed.

Lemma gives_state base top hist d :
  stored base top hist (db_data d) → gives Load d (hist top).
Proof using oc_law codec.
  intros [Hr Hh _ _ (pb & E1 & E2)]. pose proof (sv_storable _ _ (Hh top ltac:(lia))) as Hs.
  destruct (state_roundtrip _ Hs) as (pb' & E3 & E4). rewrite E1 in E3. injection E3 as <-.
  unfold Load.
  eapply gives_bind; [apply gives_load, oc_nonempty; ints|]. intros d1 _. rewrite E2.
  eapply gives_bind; [unfold decode; rewrite (cl_state codec); apply gives_ret|]. intros d2 _.
  apply gives_lift_err. done.
Qed.


(** A computation that returns while the database works. *)
Definition answers {A} (m : X A) (d : DB) (a : A) : Prop :=
  quiet d → ∃ d', m d = (d', Ok a) ∧ db_data d' = db_data d ∧ quiet d'.

Lemma gives_answers {A} (m : X A) d a : gives m d a → answers m d a.
Proof using.
  clear. intros (d' & r & E & Hd & Hq & _) Hquiet. destruct (Hq Hquiet) as [Hq' ->]. by exists d'.
Qed.

Lemma answers_bind {A B} (m : X A) (f : A → X B) d a b :
  answers m d a → (∀ d', db_data d' = db_data d → answers (f a) d' b) → answers (m ≫= f) d b.
Proof using.
  clear. intros Hm Hf Hq. destruct (Hm Hq) as (d1 & E1 & Hd1 & Hq1).
  destruct (Hf d1 Hd1 Hq1) as (d2 & E2 & Hd2 & Hq2). exists d2. unfold mbind, M_bind.
  rewrite E1, E2. by rewrite Hd2.
Qed.

Lemma answers_ret {A} (a : A) d : answers (mret a) d a.
Proof using. intros Hq. by exists d. Qed.

Lemma answers_try {A} (m : X A) d a : answers m d a → answers (try m) d (inl a).
Proof using.
  clear. intros Hm Hq. destruct (Hm Hq) as (d1 & E1 & Hd1 & Hq1). exists d1. unfold try. by rewrite E1.
Qed.

Lemma answers_lift_err {E A} f (o : outcome E A) d a : o = Ok a → answers (lift_err f o) d a.
Proof using. intros ->. apply answers_ret. Qed.

(** What the store of the blocks knows at the end of the chain: the headers are of their
    heights and announce the validators of the next one. *)
Record metas_ok (bs : BlockStore) (v : ValidatorSet) (h : Z) : Prop := {
  mo_base : (0 < Base bs < h)%Z;
  mo_height i m : LoadBlockMeta bs i = Some m → H_Height (Meta_Header m) = i;
  mo_next m : LoadBlockMeta bs (h - 1) = Some m →
    vals_hash v = Ok (H_NextValidatorsHash (Meta_Header m)) }.

Lemma vals_hash_index v k : vals_hash (set_proposerIndex v k) = vals_hash v.
Proof using. done. Qed.

Section proposer.
Variables (cp : ConsensusParams) (v : ValidatorSet) (bs : BlockStore) (h0 hi first : Z).
Notation version := (Params_ConsensusVersion cp).
Hypothesis Hchain : chain version v bs h0 hi first.

Lemma SetProposer_turn h r k hash :
  Some hash = ProTxHash <$> proposer_at version v bs h0 first h r →
  SetProposer (set_proposerIndex v k) hash =
    Ok (set_proposerIndex v (turn version v bs h0 first h r)).
Proof using Hchain.
  intros Hp. unfold proposer_at in Hp. destruct (Validators v !! _) as [w|] eqn:Hw; [|done].
  injection Hp as ->. pose proof (turn_range _ _ _ _ _ _ Hchain h r) as Ht.
  pose proof (set_proposer_Ok _ _ _ _ _ _ Hchain _ k w (proj1 Ht) Hw) as E. unfold set_proposer in E.
  destruct (SetProposer _ _); cbn in E; by simplify_eq.
Qed.

(** The selector moved from a stored block. *)
Lemma select_from_turn m h h' k d :
  (h0 ≤ h ≤ hi)%Z → (2 ≤ h')%Z → (h' = h ∨ h' = h + 1)%Z → (0 < Base bs ≤ h)%Z →
  (h = 1 → version = 1 → Meta_Round m = 0)%Z →
  LoadBlockMeta bs h = Some m → H_Height (Meta_Header m) = h → (0 ≤ Meta_Round m < MaxInt32)%Z →
  Some (H_ProposerProTxHash (Meta_Header m)) =
    ProTxHash <$> proposer_at version v bs h0 first h (Meta_Round m) →
  answers (select_from cp (set_proposerIndex v k) m bs h') d
    (set_proposerIndex v (turn version v bs h0 first h' 0)).
Proof using Hchain.
  intros Hh Hh2 Hh' Hb Hone Hm Hmh Hr Hp. unfold select_from. rewrite Hmh.
  eapply answers_bind; [by apply answers_lift_err, SetProposer_turn|]. intros d1 _.
  eapply answers_bind.
  { apply answers_lift_err, (new_synced _ _ _ _ _ _ Hchain); [lia|done|auto|done]. }
  intros d2 _. eapply answers_bind.
  - apply answers_lift_err, (update_synced _ _ _ _ _ _ Hchain); [lia|done|].
    assert (∀ r, sel_height (synced version v bs h0 first h r) = h) as Hsh.
    { intros. unfold synced. by destruct (_ =? _)%Z. }
    unfold can_move. rewrite Hsh. split_and!; [lia..|done| |lia].
    intros Ev _. unfold synced, committed_round. rewrite Ev, Hm. done.
  - intros d3 _. unfold synced. destruct (_ =? _)%Z; apply answers_ret.
Qed.

End proposer.


(** The first validator proposes. *)
Lemma set_first_ok e v k d w :
  Validators v !! 0 = Some w → NoDup (map ProTxHash (Validators v)) → (Size v ≤ MaxInt32)%Z →
  answers (set_first e (set_proposerIndex v k)) d (set_proposerIndex v 0).
Proof using.
  clear. intros Hw Hn Hs. unfold set_first. eapply answers_bind.
  - apply gives_answers, gives_lift. unfold GetByIndex. cbn [Validators set_proposerIndex].
    unfold Size. apply lookup_lt_Some in Hw as Hl. cbn [Validators set_proposerIndex].
    destruct (Z.leb_spec (Z.of_nat (length (Validators v))) 0); [lia|]. cbn [orb Z.ltb Z.compare]. change (Z.to_nat 0) with 0. by rewrite Hw.
  - intros d1 _. apply answers_lift_err. unfold SetProposer.
    rewrite (GetByProTxHash_lookup _ 0); [|done|cbn; unfold Size in *; cbn in *; lia|done]. by orun.
Qed.

(** The validators of a height, with the proposer of its first round. *)
Lemma LoadValidators_turn s h v bs h0 hi first d :
  savable s h → recorded (db_data d) h s → State_Validators s = Some v →
  chain (Params_ConsensusVersion (State_Params s)) v bs h0 hi first →
  (2 ≤ h)%Z → (h0 ≤ h ≤ hi + 1)%Z → metas_ok bs v h →
  (h = 2 → Params_ConsensusVersion (State_Params s) = 1 → committed_round bs 1 = 0)%Z →
  (h = h0 → (h ≤ hi)%Z ∨ Params_ConsensusVersion (State_Params s) = 1%Z) →
  answers (LoadValidators h bs) d
    (set_proposerIndex v (turn (Params_ConsensusVersion (State_Params s)) v bs h0 first h 0)).
Proof using oc_law.
  intros Hs Hr Ev Hch H2h Hh [Hb Hmh Hnx] Htwo Hfirst. pose proof (sv_int _ _ Hs) as Hint.
  destruct (gives_set h s d Hs Hr) as (v1 & i & v' & E1 & G & E2 & k & ->). simplify_eq.
  unfold LoadValidators. eapply answers_bind; [by apply gives_answers, gives_or_err|]. intros d1 Ed1.
  eapply answers_bind; [by apply answers_lift_err|]. intros d2 Ed2.
  destruct (Z.eqb_spec h 1); [lia|].
  eapply answers_bind; [apply answers_try, gives_answers, gives_params; [done|by rewrite Ed2, Ed1]|].
  intros d3 Ed3. rewrite int64_id by (unfold_ints; lia).
  pose proof (chain_range _ _ _ _ _ _ Hch) as Hrange.
  destruct (decide (h ≤ hi)%Z) as [Hle|Hgt].
  - destruct (chain_stored _ _ _ _ _ _ Hch h ltac:(lia)) as (m & Hm & _ & Hmr & Hp). rewrite Hm.
    rewrite (Hmh _ _ Hm). eapply select_from_turn; try done; try lia. by apply Hmh.
  - rewrite (chain_tip _ _ _ _ _ _ Hch) by lia.
    destruct (decide (h = h0)) as [->|Hne].
    + destruct Hfirst as [|Hver]; [done|lia|].
      destruct (chain_first _ _ _ _ _ _ Hch) as [[? ?]|(_ & Hf & _ & m & Hm & Hd)]; [lia|].
      rewrite Hm. pose proof (Hnx _ Hm) as Hn. rewrite bool_decide_eq_false_2; cbn [negb].
      2:{ intros E. apply Hd. by rewrite Hn, E. }
      eapply answers_bind; [eapply gives_answers; unfold lift_panic, vals_hash in *|].
      { cbn [valset_Hash set_proposerIndex] in *. change (valset_Hash (set_proposerIndex v k)) with (valset_Hash v).
        destruct (valset_Hash v); [|done..]. injection Hn as ->. apply gives_ret. }
      intros d4 _. rewrite bool_decide_eq_true_2 by done. cbn [negb].
      rewrite turn_h0, Hf, Hver. destruct (lookup_index v 0) as [w Hw];
        [destruct Hch; lia|]. rewrite Z.mod_small by (destruct Hch; lia).
      eapply set_first_ok; [exact Hw|apply Hch|apply Hch].
    + destruct (chain_stored _ _ _ _ _ _ Hch (h - 1)%Z ltac:(lia)) as (m & Hm & Hvh & Hmr & Hp).
      rewrite Hm. pose proof (Hnx _ Hm) as Hn. rewrite Hvh in Hn. injection Hn as Hn.
      rewrite bool_decide_eq_true_2 by done. cbn [negb].
      eapply (select_from_turn _ _ _ _ _ _ Hch m (h - 1)%Z h); try done; try lia; try (by apply Hmh).
      intros ? Hv1. assert (h = 2)%Z as -> by lia. specialize (Htwo eq_refl Hv1).
      unfold committed_round in Htwo. by change (2 - 1)%Z with 1%Z in Hm; rewrite Hm in Htwo.
Qed.


(** The state a node starts from: what it records is its own. *)
Definition starts (s : State) (h : Z) : Prop :=
  savable s h ∧ changed_at s = h ∧ LastHeightConsensusParamsChanged s = h.

Lemma Bootstrap_spec s h d :
  starts s h →
  ∃ v p pb m0, State_Validators s = Some v ∧ ValidatorSetFromProto (Some p) = Ok v ∧
    State_ToProto s = Ok pb ∧
  ∃ d' r, Bootstrap s d = (d', r) ∧ (quiet d → quiet d' ∧ r = Ok tt) ∧
    (r = Ok tt ∧ db_data d' = saved m0 h (Some p) pb s ∨ (∃ e, r = Err e) ∧ db_data d' = db_data d).
Proof using oc_law.
  intros (Hsv & Hc & Hp). pose proof (savable_int _ _ Hsv) as Hint. destruct Hsv as [Hh Hi Hst _ _].
  destruct (ss_vals _ Hst) as (v & Ev & Hv). destruct (set_roundtrip v Hv) as (p & E1 & _ & E2).
  destruct (state_roundtrip s Hst) as (pb & E3 & _).
  assert (∃ ops, (if (1 <? h)%Z && negb (vals_NilOrEmpty (State_LastValidators s))
                then saveValidatorsInfo (int64 (h - 1)) (int64 (h - 1))
                       (State_LastValidators s) NewBatch
                else Ok NewBatch) = Ok (Some ops : Batch)) as [ops Eops].
  { destruct (_ && _) eqn:Eb; [|by eexists]. apply andb_true_iff in Eb as [Eb1%Z.ltb_lt Eb2].
    destruct (ss_initial _ Hst) as [(_ & _ & El)|(_ & lv & El & Hlv)]; [by rewrite El in Eb2|].
    destruct (set_roundtrip lv Hlv) as (lp & L1 & _). unfold saveValidatorsInfo.
    rewrite int64_id by (unfold_ints; lia). rewrite Z.ltb_irrefl, Z.eqb_refl, El, L1. cbn [orb wrap_err].
    orun. unfold NewBatch. rewrite batch_Set_ok by (apply key_nonempty; [done|unfold_ints; lia]). by eexists. }
  exists v, p, pb, (foldl apply_op (db_data d) ops). split_and!; [done..|].
  unfold Bootstrap. fold (is_first s). fold (save_height s). rewrite Hh, Eops.
  unfold saveValidatorsInfo, mbind, M_bind, lift, outcome_bind.
  rewrite Z.ltb_irrefl, Z.eqb_refl, Ev, E1. cbn [orb wrap_err].
  unfold saveConsensusParamsInfo.
  rewrite !batch_Set_ok by (by apply key_nonempty). unfold state_Bytes. rewrite E3.
  cbn [wrap_err mbind outcome_bind lift_err]. unfold mbind, outcome_bind.
  rewrite batch_Set_ok by (apply oc_nonempty; ints).
  edestruct Write_spec as (d' & r & W1 & W2 & W3). exists d', r. split; [exact W1|]. split; [done|].
  destruct W3 as [[-> W3]|W3]; [left|by right]. split; [done|]. rewrite W3, <- !app_assoc, foldl_app.
  unfold saved, saved_params. rewrite Hc, Hp, Z.eqb_refl. done.
Qed.

(** ** Runs of the store *)

(** The operations of a node on its store, each with any outcome.  What the store promises is
    the history: from genesis or a bootstrapped state, extended by each save that succeeds,
    which also cuts it back when an earlier state is saved again, and cut at each height that
    was pruned to. *)
Inductive runs : Z → Z → (Z → State) → DB → Prop :=
  | runs_genesis s h d d' :
      starts s h → Save s d = (d', Ok tt) → runs h h (λ _, s) d'
  | runs_bootstrap s h d d' :
      starts s h → Bootstrap s d = (d', Ok tt) → runs h h (λ _, s) d'
  | runs_save base top hist d s h d' r :
      runs base top hist d → (base < h ≤ top + 1)%Z → savable s h → evolves (hist (h - 1)%Z) s → Save s d = (d', r) →
      runs base (match r with Ok _ => h | _ => top end)
        (match r with Ok _ => push hist h s | _ => hist end) d'
  | runs_prune base top hist d h d' r :
      runs base top hist d → (base ≤ h ≤ top)%Z → PruneStates h d = (d', r) → runs h top hist d'
  | runs_responses base top hist d h resp d' r :
      runs base top hist d → in_int64 h → store_SaveABCIResponses h resp d = (d', r) →
      runs base top hist d'
  | runs_read base top hist d d' :
      runs base top hist d → db_data d' = db_data d → runs base top hist d'.

Lemma responses_kept h resp d d' r :
  in_int64 h → store_SaveABCIResponses h resp d = (d', r) →
  (∀ h', in_int64 h' → info_at (db_data d') h' = info_at (db_data d) h') ∧
  (∀ h', in_int64 h' → pinfo_at (db_data d') h' = pinfo_at (db_data d) h') ∧
  bytes_at (db_data d') stateKey = bytes_at (db_data d) stateKey.
Proof using oc_law.
  intros Hh. unfold store_SaveABCIResponses, dbop, Set_.
  assert (abciResponsesKey h ≠ []) as Hk by by apply key_nonempty.
  rewrite bool_decide_eq_false_2 by done.
  destruct (op_data (λ m, (<[abciResponsesKey h := Responses_Marshal resp]> m, tt)) d) as [[e ->]| ->];
    intros [= <- <-]; [done|]. cbn [db_data fst].
  assert (∀ k, k ≠ abciResponsesKey h → ∀ m,
    bytes_at (<[abciResponsesKey h := Responses_Marshal resp]> m) k = bytes_at m k) as Hne.
  { intros k Hk' m. unfold bytes_at. by rewrite lookup_insert_ne. }
  unfold info_at, pinfo_at. split_and!; intros; rewrite Hne; try done.
  - intros E%bytes_compare_eq. unfold validatorsKey, abciResponsesKey in E. by rewrite prefix_compare in E.
  - intros E%bytes_compare_eq. unfold consensusParamsKey, abciResponsesKey in E.
    by rewrite prefix_compare in E.
  - by apply stateKey_ne.
Qed.

Lemma runs_stored base top hist d : runs base top hist d → stored base top hist (db_data d).
Proof using oc_law codec.
  induction 1 as [s h d d' (Hs & Hc & Hp) E|s h d d' Hs E|base top hist d s h d' r _ IH Hb Hs Hev E
    |base top hist d h d' r _ IH Hh E|base top hist d h resp d' r _ IH Hh E|base top hist d d' _ IH E].
  - destruct (Save_spec s h d Hs) as (v & p & pb & set & Ev & Ep & Ep' & Epb & -> & d1 & r & E1 & _ & W).
    rewrite E1 in E. injection E as -> ->. destruct W as [[_ ->]|[[e ?] _]]; [|done].
    by eapply Save_first.
  - destruct (Bootstrap_spec s h d Hs) as (v & p & pb & m0 & Ev & Ep' & Epb & d1 & r & E1 & _ & W).
    rewrite E1 in E. injection E as -> ->. destruct W as [[_ ->]|[[e ?] _]]; [|done].
    destruct Hs as (Hs & Hc & Hp). pose proof (Save_first m0 s h v p pb) as HS.
    unfold stores_set in HS. rewrite Hc, Z.eqb_refl in HS. by apply HS.
  - destruct (Save_spec s _ d Hs) as (v & p & pb & set & Ev & Ep & Ep' & Epb & Es & d1 & r1 & E1 & _ & W).
    rewrite E1 in E. injection E as -> ->. destruct W as [[-> ->]|[[e ->] ->]].
    + by eapply Save_next.
    + done.
  - destruct (PruneStates_spec (hist h) h d) as (d1 & o & E1 & _ & K & _ & _);
      [by apply IH|by apply IH|]. rewrite E1 in E. injection E as -> ->. destruct K. by eapply kept_stored.
  - destruct (responses_kept _ _ _ _ _ Hh E) as (K1 & K2 & K3).
    pose proof (sd_range _ _ _ _ IH). apply (kept_stored base top hist (db_data d) (db_data d') base IH); [lia|auto..].
  - by rewrite E.
Qed.


(** ** The states of a chain *)

(** Whether the application's answer is marked as a change of the validators. *)
Definition marked (rp : RoundParams) : bool :=
  match RP_Source rp, RP_ValidatorSetUpdate rp with
  | InitChainSource, _ | _, None => false
  | _, Some u => 0 <? length (VSU_Updates u)
  end.

Lemma changes_marked proTxHash rp s c :
  NewCurrentRoundState proTxHash rp s = Ok c →
  (CRS_LastHeightParamsChanged c = int64 (CRS_GetHeight c + 1) ∨
   CRS_LastHeightParamsChanged c = LastHeightConsensusParamsChanged s ∧
   CRS_NextParams c = State_Params s) ∧
  CRS_LastHeightValidatorsChanged c =
    (if marked rp then int64 (CRS_GetHeight c + 1) else LastHeightValidatorsChanged s).
Proof using.
  unfold NewCurrentRoundState, populate. intros E.
  apply bind_Ok in E as (c1 & E1 & E). apply bind_Ok in E1 as (hash & _ & E1). injection E1 as <-.
  apply bind_Ok in E as (c2 & E2 & E). apply bind_Ok in E as (c3 & E3 & E). injection E as <-.
  unfold populateValsetUpdates in E3. apply bind_Ok in E3 as (v & _ & E3). injection E3 as <-.
  unfold populateConsensusParams in E2. cbn [CRS_Params set_results CRS_Base CRS_NextParams] in E2.
  destruct (RP_ParamUpdates rp) as [u|]; [destruct (ProtoParams_empty u)|].
  - injection E2 as <-. cbn. split; [by right|done].
  - apply bind_Ok in E2 as ([] & _ & E2). injection E2 as <-. cbn. split; [by left|done].
  - injection E2 as <-. cbn. split; [by right|done].
Qed.

Lemma follows_height s h : state_ok s → header_follows s h → H_Height h = save_height s.
Proof using.
  intros Hok Hh. unfold save_height, is_first. destruct (so_height _ Hok) as [Hz|Hlt].
  - rewrite Hz. by apply Hh.
  - assert (0 < LastBlockHeight s)%Z by (pose proof (so_initial _ Hok); lia).
    rewrite (hf_next _ _ Hh) by done. rewrite int64_id by (unfold_ints; lia).
    by destruct (Z.eqb_spec (LastBlockHeight s + 1) 1); [lia|].
Qed.

(** The state after a block. *)
Lemma Update_heights s id h rp proTxHash c :
  NewCurrentRoundState proTxHash rp s = Ok c → state_ok s → header_follows s h →
  (H_Height h < MaxInt64 - 1)%Z →
  let s' := State_Update s id h c in
  save_height s = H_Height h ∧ save_height s' = (H_Height h + 1)%Z ∧
  int64 (CRS_GetHeight c + 1) = (H_Height h + 1)%Z ∧
  changed_at s' = (if marked rp then (H_Height h + 1)%Z else LastHeightValidatorsChanged s).
Proof using.
  intros E Hs Hh Hm s'. destruct (header_next_height s h Hs Hh) as [Hn Hp].
  pose proof (NewCurrentRoundState_spec _ _ _ _ E) as Hc. pose proof (so_height _ Hs) as Hso.
  destruct (changes_marked _ _ _ _ E) as [_ Hv].
  assert (CRS_GetHeight c = H_Height h ∧ save_height s = H_Height h) as [Hg Hsh].
  { unfold CRS_GetHeight, save_height, is_first. rewrite (ch_base _ _ _ Hc), Hn. unfold smthms.next_height in *.
    destruct (Z.eqb_spec (LastBlockHeight s) 0) as [E0|E0]; [by rewrite E0|].
    rewrite !int64_id by (unfold_ints; lia). by destruct (Z.eqb_spec (LastBlockHeight s + 1) 1); [lia|]. }
  assert (int64 (H_Height h + 1) = H_Height h + 1)%Z as Hi by (apply int64_id; unfold_ints; lia).
  assert (is_first s' = false) as Hf.
  { unfold is_first, s'. cbn. rewrite Hi. apply Z.eqb_neq. lia. }
  unfold changed_at. rewrite Hf, Hg, Hi. split_and!; [done| |done|].
  - unfold save_height. rewrite Hf. unfold s'. cbn. by rewrite Hi.
  - unfold s'. cbn. by rewrite Hv, Hg, Hi.
Qed.


(** A block whose changes of the validators are marked leads to a state that can be saved
    next. *)
Lemma block_evolves s id h rp proTxHash c :
  NewCurrentRoundState proTxHash rp s = Ok c → state_ok s → header_follows s h →
  (H_Height h < MaxInt64 - 1)%Z → (is_first s = true → LastHeightValidatorsChanged s = InitialHeight s) →
  RP_ValidatorSetUpdate rp = None ∨ marked rp = true →
  (∀ v t, State_Validators s = Some v →
     Params_VotingPowerThreshold (Params_Validator (CRS_NextParams c)) = Some t →
     VotingPowerThreshold v = t) →
  evolves s (State_Update s id h c).
Proof using.
  intros E Hs Hh Hm Hfirst Hu Ht.
  destruct (Update_heights s id h rp proTxHash c E Hs Hh Hm) as (Hsh & Hn & Hi & Hc).
  destruct (changes_marked _ _ _ _ E) as [Hp _].
  pose proof (NewCurrentRoundState_spec _ _ _ _ E) as Hch. split.
  - rewrite Hc, Hn. destruct (marked rp) eqn:Em; [by left|]. destruct Hu as [Hu|]; [right|done].
    split; [unfold changed_at; destruct (is_first s); auto|].
    destruct (ch_vals _ _ _ Hch) as (v' & Ev' & Hv'). rewrite Hu in Hv'.
    unfold valsetUpdate in Hv'. cbn [validateValidatorSetUpdate ValidatorUpdatesFromValidatorSet] in Hv'.
    apply bind_Ok in Hv' as (_ & _ & Hv'). apply bind_Ok in Hv' as ([[us tpk] qh] & Eu & Hv').
    injection Eu as <- <- <-. cbn [length Nat.eqb negb] in Hv'.
    apply bind_Ok in Hv' as (n & En & Hv'). apply wrap_err_Ok in Hv'.
    destruct (State_Validators s) as [v|] eqn:Ev.
    + exists v, v'. split_and!; [done|exact Ev'|]. enough (n = Some v) as ->.
      { cbn in Hv'. apply bind_Ok in Hv' as ([] & _ & Hv'). injection Hv' as <-. reflexivity. }
      cbn in En. unfold set_threshold in En.
      destruct (Params_VotingPowerThreshold _) as [t|] eqn:Et; cbn in En; injection En as <-; [|done].
      rewrite <- (Ht v t) by done. by destruct v.
    + exfalso. destruct (so_vals _ Hs) as (v & Ev2 & _). congruence.
  - rewrite Hn. change (LastHeightConsensusParamsChanged (State_Update s id h c)) with (CRS_LastHeightParamsChanged c).
    change (State_Params (State_Update s id h c)) with (CRS_NextParams c). rewrite Hi in Hp. done.
Qed.


(** ** The properties of the store *)

(** C10: the state store refines the history of the states that were saved.  Take any run of
    saves of states in order, of responses that are saved, of pruning to a stored height and of
    reads, on a database whose operations fail at any time, where each state that changes the
    validators or the parameters has its own height as the height of their last change (what
    changes unmarked is lost).  Once the database works again, the last state is loaded as it
    was saved, and for every height that was not pruned the parameters are loaded, and the
    validators are, up to their proposer, though most heights store only a reference to an
    earlier one.  For a height from 2 on, above the base of a block store with the blocks of the
    set, each proposed by the one whose turn it was, the validators come with the proposer whose
    turn it is in the first round of the height, but for two cases: height 2 under version 1
    when block 1 was committed in a later round, and the first height of a set under version 0
    while its block is not stored. *)
Theorem store_refines base top hist d :
  runs base top hist d → quiet d →
  (∃ d', Load d = (d', Ok (hist top))) ∧
  ∀ h, (base ≤ h ≤ top)%Z →
    (∃ d', LoadConsensusParams h d = (d', Ok (State_Params (hist h)))) ∧
    (∃ v v' i d', State_Validators (hist h) = Some v ∧ loadValidators h d = (d', Ok i) ∧
       ValidatorSetFromProto (VI_ValidatorSet i) = Ok v' ∧ same_set v v') ∧
    ∀ v bs h0 hi first,
      let version := Params_ConsensusVersion (State_Params (hist h)) in
      State_Validators (hist h) = Some v → chain version v bs h0 hi first →
      (2 ≤ h)%Z → (h0 ≤ h ≤ hi + 1)%Z → metas_ok bs v h →
      (h = 2 → version = 1 → committed_round bs 1 = 0)%Z →
      (h = h0 → (h ≤ hi)%Z ∨ version = 1%Z) →
      ∃ d', LoadValidators h bs d =
              (d', Ok (set_proposerIndex v (turn version v bs h0 first h 0))).
Proof using oc_law codec.
  intros Hr Hq. pose proof (runs_stored _ _ _ _ Hr) as Hst. split.
  { destruct (gives_answers _ _ _ (gives_state _ _ _ _ Hst) Hq) as (d' & E & _). by exists d'. }
  intros h Hh. pose proof (sd_hist _ _ _ _ Hst h Hh) as Hs. pose proof (sd_records _ _ _ _ Hst h Hh) as Hrec.
  split_and!.
  - destruct (gives_answers _ _ _ (gives_params _ _ _ Hs Hrec) Hq) as (d' & E & _). by exists d'.
  - destruct (gives_set _ _ _ Hs Hrec) as (v & i & v' & Ev & G & E1 & E2).
    destruct (gives_answers _ _ _ G Hq) as (d' & E & _). by exists v, v', i, d'.
  - intros v bs h0 hi first version Ev Hch H2h Hhi Hm Ht Hf.
    destruct (LoadValidators_turn _ h v bs h0 hi first d Hs Hrec Ev Hch H2h Hhi Hm Ht Hf Hq)
      as (d' & E & _). by exists d'.
Qed.

(** C11: pruning to a height that is stored ends, without a panic, whatever fails, and succeeds
    when nothing fails.  However it ends, the last state is the same and so is every record but
    those of the validators, the parameters and the responses of earlier heights; of these the
    record of the validators and the one of the parameters that the height refers to are kept,
    and when it succeeds no other one is left. *)
Theorem prune_exact base top hist d r :
  runs base top hist d → (base ≤ r ≤ top)%Z →
  let keep := needed r (vals_ref (hist r) r) (params_ref (hist r)) in
  ∃ d' o, PruneStates r d = (d', o) ∧ o ≠ Panic ∧ (quiet d → o = Ok tt) ∧
    bytes_at (db_data d') stateKey = bytes_at (db_data d) stateKey ∧
    (∀ p h, in_int64 p → in_int64 h → keep p h → db_data d' !! encodeKey p h = db_data d !! encodeKey p h) ∧
    (o = Ok tt → ∀ p h, in_int64 p → in_int64 h → ¬ keep p h → db_data d' !! encodeKey p h = None).
Proof using oc_law codec.
  intros Hr Hh keep. pose proof (runs_stored _ _ _ _ Hr) as Hst.
  destruct (PruneStates_spec (hist r) r d) as (d' & o & E & N & K & Q & L);
    [by apply Hst|by apply Hst|]. exists d', o. split_and!; [done|done|naive_solver|apply K|apply K|].
  intros Eo p h _ _ Hn. unfold keep, needed in Hn. apply Q; [done| | |done].
  - destruct (pruned_kind p) eqn:Ep; [done|]. destruct Hn. by left.
  - destruct (decide (1 ≤ h < r)%Z); [done|]. destruct Hn. auto.
Qed.

(** C12: a change of the quorum that comes without validator updates is lost in the state store.
    The application may answer with a new quorum hash, a new threshold key or a new voting
    power threshold and no updates of the validators; the next state has them, but its height
    of the last change is the old one, so that the store keeps a reference only, but at a
    height where it checkpoints the whole set, and what is loaded for the height are the
    validators of the state before. *)
Theorem silent_change_lost base top hist d proTxHash rp c id h d' :
  runs base top hist d → NewCurrentRoundState proTxHash rp (hist top) = Ok c →
  state_ok (hist top) → header_follows (hist top) h → (top < MaxInt64 - 1)%Z →
  (is_first (hist top) = true → LastHeightValidatorsChanged (hist top) = InitialHeight (hist top)) →
  marked rp = false → Z.rem (top + 1) valSetCheckpointInterval ≠ 0%Z →
  let s := State_Update (hist top) id h c in
  state_storable s → Save s d = (d', Ok tt) → quiet d' →
  State_Validators s = CRS_NextValidators c ∧
  ∃ v v' i d'', State_Validators (hist top) = Some v ∧ loadValidators (top + 1) d' = (d'', Ok i) ∧
    ValidatorSetFromProto (VI_ValidatorSet i) = Ok v' ∧ same_set v v'.
Proof using oc_law codec.
  intros Hr Ec Hok Hh Hmax Hfirst Hm Hrem s Hstor Esave Hq. split; [done|].
  pose proof (runs_stored _ _ _ _ Hr) as Hst. destruct Hst as [Hb Hhist _ Hrec _].
  pose proof (Hhist top ltac:(lia)) as Hs. pose proof (sv_height _ _ Hs) as Esh.
  assert (H_Height h = top) as Eh by (by rewrite (follows_height _ _ Hok Hh)).
  destruct (Update_heights _ id h rp proTxHash c Ec Hok Hh ltac:(lia)) as (_ & Hn & Hi & Hc).
  rewrite Hm, Eh in *. fold s in Hn, Hc.
  assert (changed_at s = changed_at (hist top)) as Ec'.
  { rewrite Hc. unfold changed_at. destruct (is_first (hist top)); auto. }
  pose proof (sv_changed _ _ Hs). pose proof (sv_params _ _ Hs).
  assert (savable s (top + 1)) as Hsv.
  { split; [done|lia|done|lia|]. change (LastHeightConsensusParamsChanged s) with (CRS_LastHeightParamsChanged c).
    destruct (changes_marked _ _ _ _ Ec) as [[->|[-> _]] _]; [rewrite Hi|]; lia. }
  destruct (Save_spec s _ d Hsv) as (w & p & pb & set & _ & _ & _ & _ & Eset & d1 & r & E1 & _ & W).
  rewrite Esave in E1. injection E1 as <- <-. destruct W as [[_ W]|[[e ?] _]]; [|done].
  destruct (Hrec top ltac:(lia)) as [(v & _ & Ev & _ & _ & hp & hc & Hhold & Hset) _].
  exists v. destruct (gives_holds (top + 1) None (changed_at s) v d') as (i & v' & G & G2);
    [unfold_ints; lia| | |done| |].
  - pose proof (lastStored_range (top + 1) (changed_at s) ltac:(lia)). unfold_ints. lia.
  - rewrite W, saved_info, Z.eqb_refl by (unfold_ints; lia). f_equal. f_equal. rewrite Eset.
    unfold stores_set. rewrite Ec'. destruct (Z.eqb_spec (top + 1) (changed_at (hist top))); [lia|].
    by destruct (Z.eqb_spec (Z.rem (top + 1) valSetCheckpointInterval) 0).
  - exists hp, hc. rewrite lastStored_pred, Ec' by (done || lia).
    pose proof (lastStored_range top _ (sv_changed _ _ Hs)).
    rewrite W, saved_info by (unfold_ints; lia). by destruct (Z.eqb_spec (lastStoredHeightFor top (changed_at (hist top))) (top + 1)); [lia|].
  - destruct (gives_answers _ _ _ G Hq) as (d'' & E & _). by exists v', i, d''.
Qed.

End thms.

End storethms.
