(* ===== verification/StateStoreDemo.v ===== *)
(** * internal/state: a store that is run

    Encodings that satisfy the laws of the state store, and a run of the store in which a
    chain is saved, extended and pruned. *)
From Stdlib Require Import ZArith Lia Init.Byte.
From stdpp Require Import base numbers list sets gmap fin_maps countable.
From S2P Require Import Prelude.
From S2P Require Import StateM.
From S2P Require Import DB.
From S2P Require Import Merkle.
From S2P Require Import PartSet.
From S2P Require Import Wire.
From S2P Require Import Types.
From S2P Require Import Crypto.
From S2P Require Import QuorumSign.
From S2P Require Import Proposal.
From S2P Require Import ValidatorSet.
From S2P Require Import Evidence.
From S2P Require Import Block.
From S2P Require Import Params.
From S2P Require Import SmState.
From S2P Require Import SmStateThms.
From S2P Require Import SmProto.
From S2P Require Import Execution.
From S2P Require Import ExecutionDemo.
From S2P Require Import SelectProposer.
From S2P Require Import StateStore.
From S2P Require Import StateStoreThms.

Import statem db types crypto quorum proposal valset evidence block params sm smthms smproto abci.
Import partset execdemo selectproposer statestore storethms.

Module storedemo.

(** ** An encoding of keys *)

(** [n] bytes, the most significant one first. *)
Fixpoint big_endian (n : nat) (x : Z) : bytes :=
  match n with
  | O => []
  | S n => wire.z2b (x / 256 ^ Z.of_nat n) :: big_endian n (x mod 256 ^ Z.of_nat n)
  end.

Definition code_items (items : list Z) : bytes :=
  concat (map (λ x, big_endian 8 (x + 2 ^ 63)) items).

#[local] Instance toy_orderedcode : OrderedCode := {| orderedcode := code_items |}.

Lemma compare_head x y a b :
  (0 ≤ x < 256)%Z → (0 ≤ y < 256)%Z →
  bytes_compare (wire.z2b x :: a) (wire.z2b y :: b) =
    match (x ?= y)%Z with Eq => bytes_compare a b | c => c end.
Proof.
  intros Hx Hy. cbn. replace (Byte.to_N (wire.z2b x) ?= Byte.to_N (wire.z2b y))%N with (x ?= y)%Z; [done|].
  rewrite <- (Z.mod_small x 256), <- (Z.mod_small y 256) at 1 by done.
  rewrite <- !wire.b2z_z2b. unfold wire.b2z. by rewrite N2Z.inj_compare.
Qed.

(** Numbers are ordered as their bytes are, also with more bytes after them. *)
Lemma big_endian_compare n x y a b :
  (0 ≤ x < 256 ^ Z.of_nat n)%Z → (0 ≤ y < 256 ^ Z.of_nat n)%Z →
  bytes_compare (big_endian n x ++ a) (big_endian n y ++ b) =
    match (x ?= y)%Z with Eq => bytes_compare a b | c => c end.
Proof.
  revert x y. induction n as [|n IH]; intros x y Hx Hy.
  { cbn in Hx, Hy. assert (x = y) as -> by lia. by rewrite Z.compare_refl. }
  cbn [big_endian app]. set (w := (256 ^ Z.of_nat n)%Z) in *.
  assert (0 < w)%Z by (apply Z.pow_pos_nonneg; lia).
  assert (256 ^ Z.of_nat (S n) = 256 * w)%Z as Ew by (unfold w; rewrite Nat2Z.inj_succ, Z.pow_succ_r; lia).
  rewrite Ew in *. rewrite compare_head.
  2-3: split; [apply Z.div_pos; lia|apply Z.div_lt_upper_bound; lia].
  rewrite IH by (apply Z.mod_pos_bound; lia).
  pose proof (Z.div_mod x w ltac:(lia)). pose proof (Z.div_mod y w ltac:(lia)).
  pose proof (Z.mod_pos_bound x w ltac:(lia)). pose proof (Z.mod_pos_bound y w ltac:(lia)).
  destruct (Z.compare_spec (x / w) (y / w)), (Z.compare_spec x y), (Z.compare_spec (x mod w) (y mod w));
    done || nia.
Qed.

Lemma toy_orderedcode_law : orderedcode_law.
Proof.
  intros a b Ha. revert b. induction Ha as [|x a Hx _ IH]; intros b Hb.
  { destruct Hb; [done|]. done. }
  destruct Hb as [|y b Hy Hb]; [done|]. cbn [orderedcode toy_orderedcode] in *.
  unfold code_items in *. cbn [map concat lex]. unfold_ints.
  rewrite big_endian_compare by (change (256 ^ Z.of_nat 8)%Z with (2 ^ 64)%Z; lia).
  rewrite IH by done. destruct (Z.compare_spec x y), (Z.compare_spec (x + 2 ^ 63) (y + 2 ^ 63)); done || lia.
Qed.

(** ** An encoding of messages *)

Ltac records := intros []; reflexivity.

#[local] Instance Consensus_eq_dec : EqDecision Consensus. Proof. solve_decision. Defined.
#[local] Instance Version_eq_dec : EqDecision Version. Proof. solve_decision. Defined.
#[local] Instance ProtoKey_eq_dec : EqDecision ProtoKey. Proof. solve_decision. Defined.
#[local] Instance ProtoValidator_eq_dec : EqDecision ProtoValidator. Proof. solve_decision. Defined.
#[local] Instance ProtoValidatorSet_eq_dec : EqDecision ProtoValidatorSet.
Proof. solve_decision. Defined.
#[local] Instance ValidatorParams_eq_dec : EqDecision ValidatorParams. Proof. solve_decision. Defined.
#[local] Instance ProtoSynchrony_eq_dec : EqDecision ProtoSynchrony. Proof. solve_decision. Defined.
#[local] Instance ProtoTimeout_eq_dec : EqDecision ProtoTimeout. Proof. solve_decision. Defined.
#[local] Instance ProtoParams_eq_dec : EqDecision ProtoParams. Proof. solve_decision. Defined.
#[local] Instance ProtoState_eq_dec : EqDecision ProtoState. Proof. solve_decision. Defined.
#[local] Instance ValidatorsInfo_eq_dec : EqDecision ValidatorsInfo. Proof. solve_decision. Defined.
#[local] Instance ParamsInfo_eq_dec : EqDecision ConsensusParamsInfo. Proof. solve_decision. Defined.

#[local] Instance KeyType_countable : Countable KeyType.
Proof.
  apply (inj_countable' (λ t, match t with Ed25519 => 0 | BLS12381 => 1 | Secp256k1 => 2 end)
           (λ n, match n with 0 => Ed25519 | 1 => BLS12381 | _ => Secp256k1 end)). records.
Defined.
#[local] Instance ProtoKey_countable : Countable ProtoKey.
Proof.
  apply (inj_countable' (λ k, (proto_type k, proto_bytes k)) (λ '(a, b), mkProtoKey a b)). records.
Defined.
#[local] Instance ProtoValidator_countable : Countable ProtoValidator.
Proof.
  apply (inj_countable' (λ v, (PVal_PubKey v, PVal_VotingPower v, PVal_ProTxHash v, PVal_NodeAddress v))
           (λ '(a, b, c, d), mkProtoValidator a b c d)). records.
Defined.
#[local] Instance ProtoValidatorSet_countable : Countable ProtoValidatorSet.
Proof.
  apply (inj_countable' (λ v, (PVS_Validators v, PVS_Proposer v, PVS_TotalVotingPower v,
             PVS_VotingPowerThreshold v, PVS_ThresholdPublicKey v, PVS_QuorumType v, PVS_QuorumHash v,
             PVS_HasPublicKeys v))
           (λ '(a, b, c, d, e, f, g, h), mkProtoValidatorSet a b c d e f g h)). records.
Defined.
#[local] Instance PartSetHeader_countable : Countable PartSetHeader.
Proof.
  apply (inj_countable' (λ h, (PSH_Total h, PSH_Hash h)) (λ '(a, b), mkPSH a b)). records.
Defined.
#[local] Instance BlockID_countable : Countable BlockID.
Proof.
  apply (inj_countable' (λ i, (BlockID_Hash i, BlockID_PartSetHeader i, BlockID_StateID i))
           (λ '(a, b, c), mkBlockID a b c)). records.
Defined.
#[local] Instance Version_countable : Countable Version.
Proof.
  apply (inj_countable' (λ v, (Ver_Block (State_Consensus v), Ver_App (State_Consensus v), Software v))
           (λ '(a, b, c), mkStateVersion (mkVersion a b) c)). by intros [[] ?].
Defined.
#[local] Instance ProtoParams_countable : Countable ProtoParams.
Proof.
  set (to := λ p, ((λ b, (BP_MaxBytes b, BP_MaxGas b)) <$> PP_Block p,
    (λ e, (MaxAgeNumBlocks e, MaxAgeDuration e, EP_MaxBytes e)) <$> PP_Evidence p,
    (λ v, (PubKeyTypes v, Params_VotingPowerThreshold v)) <$> PP_Validator p,
    (λ v, (AppVersion v, ConsensusVersion v)) <$> PP_Version p,
    (λ s, (PS_MessageDelay s, PS_Precision s)) <$> PP_Synchrony p,
    (λ t, (PT_Propose t, PT_ProposeDelta t, PT_Vote t, PT_VoteDelta t)) <$> PP_Timeout p,
    RecheckTx <$> PP_Abci p)).
  apply (inj_countable' to (λ '(b, e, v, w, s, t, a), mkPParams ((λ '(x, y), mkBP x y) <$> b)
    ((λ '(x, y, z), mkEP x y z) <$> e) ((λ '(x, y), mkVP x y) <$> v)
    ((λ '(x, y), mkVersionParams x y) <$> w) ((λ '(x, y), mkPSync x y) <$> s)
    ((λ '(x, y, z, u), mkPTimeout x y z u) <$> t) (mkABCI <$> a))).
  by intros [[[]|] [[]|] [[]|] [[]|] [[]|] [[]|] [[]|]].
Defined.
#[local] Instance ProtoState_countable : Countable ProtoState.
Proof.
  apply (inj_countable' (λ s, (PSt_Version s, PSt_ChainID s, PSt_InitialHeight s, PSt_LastBlockHeight s,
             PSt_LastBlockRound s, PSt_LastBlockID s, PSt_LastBlockTime s,
             PSt_LastCoreChainLockedBlockHeight s, PSt_Validators s, PSt_LastValidators s,
             PSt_LastHeightValidatorsChanged s, PSt_ConsensusParams s,
             PSt_LastHeightConsensusParamsChanged s, PSt_LastResultsHash s, PSt_AppHash s))
           (λ '(a, b, c, d, e, f, g, h, i, j, k, l, m, n, o), mkProtoState a b c d e f g h i j k l m n o)).
  records.
Defined.
#[local] Instance ValidatorsInfo_countable : Countable ValidatorsInfo.
Proof.
  apply (inj_countable' (λ i, (VI_ValidatorSet i, VI_LastHeightChanged i))
           (λ '(a, b), mkValidatorsInfo a b)). records.
Defined.
#[local] Instance ParamsInfo_countable : Countable ConsensusParamsInfo.
Proof.
  apply (inj_countable' (λ i, (CPI_ConsensusParams i, CPI_LastHeightChanged i))
           (λ '(a, b), mkParamsInfo a b)). records.
Defined.

(** The bits of a number, after a byte that makes the message not empty. *)
Fixpoint pos_bits (p : positive) : bytes :=
  match p with xH => [] | xO p => x00 :: pos_bits p | xI p => x01 :: pos_bits p end.

Fixpoint bits_pos (b : bytes) : positive :=
  match b with [] => xH | x00 :: b => xO (bits_pos b) | _ :: b => xI (bits_pos b) end.

Lemma bits_roundtrip p : bits_pos (pos_bits p) = p.
Proof. induction p as [p IH|p IH|]; cbn; by rewrite ?IH. Qed.

Definition marshal {A} `{Countable A} (a : A) : bytes := x01 :: pos_bits (encode a).
Definition unmarshal {A} `{Countable A} (b : bytes) : option A := countable.decode (bits_pos (tail b)).

Lemma marshal_roundtrip {A} `{Countable A} (a : A) : unmarshal (marshal a) = Some a.
Proof. unfold unmarshal, marshal. cbn [tail]. by rewrite bits_roundtrip, decode_encode. Qed.

(** The responses of the application are not read back here. *)
#[local] Instance toy_codec : StoreCodec := {|
  ValidatorsInfo_Marshal := marshal; ValidatorsInfo_Unmarshal := unmarshal;
  ParamsInfo_Marshal := marshal; ParamsInfo_Unmarshal := unmarshal;
  State_Marshal := marshal; State_Unmarshal := unmarshal;
  Responses_Marshal := λ _, [x01]; Responses_Unmarshal := λ _, None |}.

Lemma toy_codec_law : codec_law.
Proof. split; intros; solve [apply marshal_roundtrip | done]. Qed.


(** ** A run *)

#[local] Existing Instance toy_crypto.
#[local] Existing Instance toy_dashd.
#[local] Existing Instance toy_time.
#[local] Existing Instance toy_url.

(** The first operations of the database fail, the later ones succeed. *)
#[local] Instance toy_faults : Faults := {| fault := λ n, n <? 3 |}.

Definition db0 : DB := mkDB ∅ 3.

Definition gen : State :=
  mkState (State_Version genesis) (ChainID genesis) 1 0 0 nilBlockID (LastBlockTime genesis) 3
    (Some solo) (Some NewEmptyValidatorSet) 1 DefaultConsensusParams 1 [] [].

Definition rp_of (update : option ValidatorSetUpdate) : RoundParams :=
  mkRP (Some (demo_hash x06)) [] None update None ProcessProposalSource 0.

Definition crs_of (update : option ValidatorSetUpdate) : CurrentRoundState :=
  match NewCurrentRoundState (demo_hash x07) (rp_of update) gen with
  | Ok c => c
  | _ => mkCRS gen 0 [] None [] None None zeroParams 0 None 0 (rp_of update)
  end.

Definition header1 : block.Header := B_Header block1.
Definition after (update : option ValidatorSetUpdate) : State :=
  State_Update gen id1 header1 (crs_of update).

(** A new quorum with the validators there are. *)
Definition new_quorum : ValidatorSetUpdate :=
  mkVSU [] (Some (mkProtoKey (pk_type toy_key) (pk_bytes toy_key))) (demo_hash x55).

Lemma crs_ok u :
  u = None ∨ u = Some new_quorum → NewCurrentRoundState (demo_hash x07) (rp_of u) gen = Ok (crs_of u).
Proof. intros [->| ->]; vm_compute; reflexivity. Qed.

Lemma solo_storable q :
  q = QuorumHash solo ∨ q = demo_hash x55 →
  set_storable (mkValidatorSet (Validators solo) 0 (Some toy_key) q 100 true 0).
Proof.
  intros Hq. split.
  - apply Forall_cons_2; [|apply Forall_nil_2]. split; [done|by intros k [= <-]|by left].
  - apply (bool_decide_unpack _). vm_compute. exact I.
  - vm_compute. split; [split; [discriminate|reflexivity]|discriminate].
  - exists toy_key. split; [done|]. vm_compute. reflexivity.
  - vm_compute. split; discriminate.
  - destruct Hq as [->| ->]; vm_compute; reflexivity.
Qed.

Lemma after_vals u :
  u = None ∨ u = Some new_quorum →
  State_Validators (after u) = Some (mkValidatorSet (Validators solo) 0 (Some toy_key)
    (match u with None => QuorumHash solo | _ => demo_hash x55 end) 100 true 0).
Proof. intros [->| ->]; vm_compute; reflexivity. Qed.

Lemma gen_starts : starts gen 1.
Proof.
  split; [|done]. split; [done|done| |done|done]. split; [done| |by left|done].
  exists solo. split; [done|]. apply (solo_storable (QuorumHash solo)). by left.
Qed.

Lemma after_savable u : u = None ∨ u = Some new_quorum → savable (after u) 2.
Proof.
  intros Hu. split; [by destruct Hu as [->| ->]|done| |by destruct Hu as [->| ->]|by destruct Hu as [->| ->]].
  split.
  - destruct Hu as [->| ->]; vm_compute; reflexivity.
  - eexists. split; [by apply after_vals|]. destruct Hu as [->| ->]; apply solo_storable; auto.
  - right. split; [by destruct Hu as [->| ->]|]. exists solo. split; [by destruct Hu as [->| ->]|].
    apply (solo_storable (QuorumHash solo)). by left.
  - by destruct Hu as [->| ->].
Qed.

Lemma gen_ok : state_ok gen.
Proof.
  split; try done; try (by exists solo; split; [|apply solo_valid]); try (by left).
  apply ValidateConsensusParams_Ok. vm_compute. reflexivity.
Qed.

Lemma gen_follows : header_follows gen header1.
Proof. split; try (by intros); try (vm_compute; reflexivity). right. vm_compute. done. Qed.


Lemma db0_quiet : quiet db0.
Proof. intros n Hn. apply Nat.ltb_ge. done. Qed.

Lemma save_quiet s h d : savable s h → quiet d → ∃ d', Save s d = (d', Ok tt) ∧ quiet d'.
Proof.
  intros Hs Hq. destruct (Save_spec toy_orderedcode_law s h d Hs)
    as (v & p & pb & set & _ & _ & _ & _ & _ & d' & r & E & L & _).
  destruct (L Hq) as [Hq' ->]. by exists d'.
Qed.

(** The genesis state was saved. *)
Lemma demo_genesis : ∃ d, runs 1 1 (λ _, gen) d ∧ quiet d.
Proof.
  destruct (save_quiet gen 1 db0) as (d & E & Hq); [by apply gen_starts|apply db0_quiet|].
  exists d. split; [|done]. by apply (runs_genesis gen 1 db0 d gen_starts).
Qed.

Definition hist2 : Z → State := push (λ _, gen) 2 (after None).

Lemma after_evolves : evolves gen (after None).
Proof.
  apply (block_evolves gen id1 header1 (rp_of None) (demo_hash x07)).
  - apply crs_ok. by left.
  - apply gen_ok.
  - apply gen_follows.
  - vm_compute. reflexivity.
  - done.
  - by left.
  - intros v t _ E. vm_compute in E. discriminate.
Qed.

(** Then the state of the next height. *)
Lemma demo_two : ∃ d, runs 1 2 hist2 d ∧ quiet d.
Proof.
  destruct demo_genesis as (d & Hr & Hq).
  destruct (save_quiet (after None) 2 d) as (d2 & E & Hq2); [apply after_savable; by left|done|].
  exists d2. split; [|done].
  apply (runs_save 1 1 (λ _, gen) d (after None) 2 d2 (Ok tt)); [done|done| |apply after_evolves|done].
  apply after_savable. by left.
Qed.

(** And the first one was pruned. *)
Lemma demo_pruned : ∃ d, runs 2 2 hist2 d ∧ quiet d.
Proof.
  destruct demo_two as (d & Hr & Hq).
  pose proof (runs_stored toy_orderedcode_law toy_codec_law _ _ _ _ Hr) as Hst.
  destruct (PruneStates_spec toy_orderedcode_law (hist2 2) 2 d) as (d' & o & E & _ & _ & _ & L);
    [by apply Hst|by apply Hst|]. exists d'. split; [|by apply L].
  by apply (runs_prune 1 2 hist2 d 2 d' o).
Qed.

Definition metas : BlockStore := mkBlockStore 1
  (λ h, if (h =? 1)%Z then Some (mkBlockMeta id1 100 header1 0 0 false) else None).

Lemma metas_chain :
  chain (Params_ConsensusVersion DefaultConsensusParams) solo metas 1 1 0 ∧ metas_ok metas solo 2.
Proof.
  assert (∀ i m, LoadBlockMeta metas i = Some m → i = 1%Z ∧ m = mkBlockMeta id1 100 header1 0 0 false) as Hm.
  { intros i m. cbn. destruct (Z.eqb_spec i 1); [|done]. by intros [= <-]. }
  split; split.
  - vm_compute. auto.
  - vm_compute. split; [reflexivity|discriminate].
  - apply (bool_decide_unpack _). vm_compute. exact I.
  - by left.
  - done.
  - eexists. vm_compute. reflexivity.
  - intros h Hh. assert (h = 1)%Z as -> by lia. eexists. split; [reflexivity|].
    vm_compute. split_and!; try reflexivity; discriminate.
  - intros h Hh. cbn. destruct (Z.eqb_spec h 1); [lia|done].
  - done.
  - intros i m E. destruct (Hm _ _ E) as [-> ->]. vm_compute. reflexivity.
  - intros m E. destruct (Hm _ _ E) as [_ ->]. vm_compute. reflexivity.
Qed.


Lemma store_refines_witness :
  ∃ d, (∃ d', Load d = (d', Ok (after None))) ∧
    (∃ d', LoadConsensusParams 2 d = (d', Ok DefaultConsensusParams)) ∧
    (∃ d', LoadValidators 2 metas d = (d', Ok (set_proposerIndex solo 0))).
Proof.
  destruct demo_pruned as (d & Hr & Hq). exists d.
  destruct (store_refines toy_orderedcode_law toy_codec_law 2 2 hist2 d Hr Hq) as [Hl Hh].
  destruct (Hh 2%Z) as (Hp & _ & Hv); [split; discriminate|].
  split; [exact Hl|]. split; [exact Hp|].
  destruct metas_chain as [Hc Hm].
  destruct (Hv solo metas 1%Z 1%Z 0%Z) as (d' & E).
  - reflexivity.
  - exact Hc.
  - discriminate.
  - split; discriminate.
  - exact Hm.
  - reflexivity.
  - discriminate.
  - exists d'. rewrite E. vm_compute. reflexivity.
Defined.

(** A third state, with the validators and the parameters of the first. *)
Definition three : State :=
  match NewCurrentRoundState (demo_hash x07) (rp_of None) (after None) with
  | Ok c => State_Update (after None) id2 (B_Header block2) c
  | _ => gen
  end.

Lemma three_vals :
  State_Validators three = State_Validators (after None) ∧
  State_LastValidators three = State_Validators (after None).
Proof. vm_compute. split; reflexivity. Qed.

Lemma three_savable : savable three 3.
Proof.
  pose proof (after_vals None (or_introl eq_refl)) as Ea. destruct three_vals as [Ev El]. rewrite Ea in Ev, El.
  split; [vm_compute; reflexivity|split; [discriminate|reflexivity]| |vm_compute; split; discriminate..].
  split; [vm_compute; reflexivity| | |vm_compute; split; discriminate].
  - eexists. split; [exact Ev|]. apply solo_storable. by left.
  - right. split; [vm_compute; split; [reflexivity|discriminate]|]. eexists. split; [exact El|]. apply solo_storable. by left.
Qed.

Lemma three_evolves : evolves (after None) three.
Proof.
  split; right; (split; [vm_compute; reflexivity|]); [|vm_compute; reflexivity].
  do 2 eexists. split; [apply after_vals; by left|]. split.
  - rewrite (proj1 three_vals). apply after_vals. by left.
  - by exists 0%Z.
Qed.

Definition hist3 : Z → State := push hist2 3 three.

Definition responded : ResponseProcessProposal := mkRespProc 1 None [] None None.

Lemma responses_saved h d :
  in_int64 h → quiet d → ∃ d', store_SaveABCIResponses h responded d = (d', Ok tt) ∧ quiet d' ∧
    db_data d' = <[abciResponsesKey h := [x01]]> (db_data d).
Proof.
  intros Hh Hq. unfold store_SaveABCIResponses, dbop, Set_.
  rewrite bool_decide_eq_false_2 by (apply (key_nonempty toy_orderedcode_law); done).
  destruct (op_data (λ m, (<[abciResponsesKey h := Responses_Marshal responded]> m, tt)) d) as [[e E]|E].
  - unfold op in E. rewrite Hq in E by reflexivity. discriminate.
  - rewrite E. eexists. split; [reflexivity|]. split; [|reflexivity].
    intros n Hn. apply Hq. cbn in Hn. lia.
Qed.

(** Three states and the responses of the second block. *)
Lemma demo_three :
  ∃ d, runs 1 3 hist3 d ∧ quiet d ∧
    Forall (λ p, db_data d !! encodeKey p 2 ≠ None) [prefixValidators; prefixConsensusParams; prefixABCIResponses].
Proof.
  assert (in_int64 2) as H2 by (vm_compute; split; discriminate).
  destruct demo_two as (d & Hr & Hq). destruct (save_quiet three 3 d three_savable Hq) as (d3 & E & Hq3).
  assert (runs 1 3 hist3 d3) as H3.
  { apply (runs_save 1 2 hist2 d three 3 d3 (Ok tt) Hr); [|exact three_savable|exact three_evolves|exact E].
    split; [reflexivity|discriminate]. }
  destruct (responses_saved 2 d3 H2 Hq3) as (d4 & E4 & Hq4 & Ed4).
  pose proof (runs_responses 1 3 hist3 d3 2 responded d4 (Ok tt) H3 H2 E4) as H4. clear E E4.
  exists d4. split; [exact H4|]. split; [exact Hq4|].
  pose proof (runs_stored toy_orderedcode_law toy_codec_law _ _ _ _ H4) as Hst. clear H3 H4.
  generalize dependent hist3. intros hist Hst.
  assert (recorded (db_data d4) 2 (hist 2%Z)) as [(v & set & _ & Ei & _) [Ep _]] by (apply Hst; lia).
  repeat apply Forall_cons_2; [| | |apply Forall_nil_2].
  - intros En. unfold info_at, bytes_at, validatorsKey in Ei. rewrite En in Ei. discriminate.
  - intros En. unfold pinfo_at, bytes_at, consensusParamsKey in Ep. rewrite En in Ep. discriminate.
  - rewrite Ed4. change (encodeKey prefixABCIResponses 2) with (abciResponsesKey 2).
    rewrite lookup_insert_eq. discriminate.
Qed.

Lemma demo_needed p :
  p ∈ [prefixValidators; prefixConsensusParams; prefixABCIResponses] →
  in_int64 p ∧ ¬ needed 3 1 1 p 2 ∧ (p ≠ prefixABCIResponses → needed 3 1 1 p 1).
Proof.
  intros Hp. split_and!.
  - repeat (apply elem_of_cons in Hp as [->|Hp]; [vm_compute; split; discriminate|]). by apply elem_of_nil in Hp.
  - intros [Hk|[Hk|[[_ Hk]|[_ Hk]]]]; [|lia..].
    repeat (apply elem_of_cons in Hp as [->|Hp]; [by vm_compute in Hk|]). by apply elem_of_nil in Hp.
  - intros Hn. right; right. apply elem_of_cons in Hp as [->|Hp]; [by left|].
    apply elem_of_cons in Hp as [->|Hp]; [by right|].
    apply elem_of_cons in Hp as [->|Hp]; [by destruct Hn|by apply elem_of_nil in Hp].
Qed.

(** The records of the second height were there and are not there any more; those of the first
    that the third refers to stay. *)
Lemma prune_exact_witness :
  ∃ d d', PruneStates 3 d = (d', Ok tt) ∧
    ∀ p, p ∈ [prefixValidators; prefixConsensusParams; prefixABCIResponses] →
      db_data d !! encodeKey p 2 ≠ None ∧ db_data d' !! encodeKey p 2 = None ∧
      (p ≠ prefixABCIResponses → db_data d' !! encodeKey p 1 = db_data d !! encodeKey p 1).
Proof.
  destruct demo_three as (d & Hr & Hq & Hf). exists d.
  destruct (prune_exact toy_orderedcode_law toy_codec_law 1 3 hist3 d 3 Hr)
    as (d' & o & E & _ & L & _ & K & Q); [split; discriminate|].
  exists d'. rewrite E, (L Hq). split; [reflexivity|]. intros p Hp.
  assert (vals_ref (hist3 3) 3 = 1%Z) as Ev by (vm_compute; reflexivity).
  assert (params_ref (hist3 3) = 1%Z) as Er by (vm_compute; reflexivity).
  rewrite Ev, Er in K, Q. destruct (demo_needed p Hp) as (Hi & Hn & Hk).
  split; [exact (proj1 (list.Forall_forall _ _) Hf p Hp)|]. split.
  - apply (Q (L Hq)); [exact Hi|vm_compute; split; discriminate|exact Hn].
  - intros Hne. apply K; [exact Hi|vm_compute; split; discriminate|exact (Hk Hne)].
Defined.

Lemma new_quorum_facts :
  marked (rp_of (Some new_quorum)) = false ∧ (Z.rem (1 + 1) valSetCheckpointInterval ≠ 0)%Z ∧
  (1 < MaxInt64 - 1)%Z ∧ state_storable (after (Some new_quorum)).
Proof.
  split_and!; [done|vm_compute; discriminate|done|]. eapply sv_storable, after_savable. by right.
Qed.

(** The new quorum hash is in the state, the old one in what is loaded. *)
Lemma silent_change_lost_witness :
  ∃ d d' d'' v v' i, Save (after (Some new_quorum)) d = (d', Ok tt) ∧
    State_Validators (after (Some new_quorum)) = Some v ∧ QuorumHash v = demo_hash x55 ∧
    loadValidators 2 d' = (d'', Ok i) ∧ ValidatorSetFromProto (VI_ValidatorSet i) = Ok v' ∧
    QuorumHash v' = QuorumHash solo ∧ QuorumHash solo ≠ demo_hash x55.
Proof.
  destruct demo_genesis as (d & Hr & Hq).
  destruct (save_quiet (after (Some new_quorum)) 2 d) as (d' & E & Hq');
    [apply after_savable; right; reflexivity|exact Hq|].
  destruct new_quorum_facts as (Hm & Hrem & Hmax & Hst).
  destruct (silent_change_lost toy_orderedcode_law toy_codec_law 1 1 (λ _, gen) d (demo_hash x07)
              (rp_of (Some new_quorum)) (crs_of (Some new_quorum)) id1 header1 d' Hr
              (crs_ok _ (or_intror eq_refl)) gen_ok gen_follows Hmax (λ _, eq_refl) Hm Hrem Hst E Hq')
    as (_ & v & v' & i & d'' & Ev & El & Ef & k & Ek).
  eexists d, d', d'', _, v', i. split; [exact E|]. split; [apply after_vals; right; reflexivity|].
  split; [reflexivity|]. split; [exact El|]. split; [exact Ef|]. injection Ev as <-. subst v'.
  split; [reflexivity|]. vm_compute. discriminate.
Defined.


End storedemo.
