(* ===== verification/BlockStore.v ===== *)
(** * internal/store: the block store

    Models [src/internal/store/store.go]: for every height the meta data of the block, its
    parts, the commit that the next block carries and the commit that was seen, and an index
    by hash; blocks are added at the top, pruned at the bottom and deleted one by one.  It
    runs over the database of [DB], whose operations may fail: most methods then panic.  Keys
    are made by [orderedcode], which is external, as are the bytes of the stored messages,
    which generated code makes: both are classes, with the laws that the theorems name.
    [Write] and [WriteSync] are not distinguished.  Also [src/types/block_meta.go]. *)
From Stdlib Require Import ZArith Lia Init.Byte DecimalString DecimalZ String.
From stdpp Require Import base numbers list sets gmap fin_maps.
From S2P Require Import Prelude.
From S2P Require Import StateM.
From S2P Require Import DB.
From S2P Require Import Merkle.
From S2P Require Import PartSet.
From S2P Require Import Types.
From S2P Require Import Crypto.
From S2P Require Import Proposal.
From S2P Require Import Block.
From S2P Require Import SelectProposer.
From S2P Require Import StateStore.

Import statem db partset types crypto proposal block selectproposer.

(** [orderedcode.Append(nil, prefix, string)], and [orderedcode.Parse] into two integers with
    the rest of the key. *)
Class BlockKeys := {
  orderedcode_str : Z → bytes → bytes;
  orderedcode_parse : bytes → option (Z * Z * bytes) }.

(** The encodings of the messages; [Marshal] may fail. *)
Class BlockStoreCodec := {
  Meta_Marshal : BlockMeta → option bytes;
  Meta_Unmarshal : bytes → option BlockMeta;
  Part_Marshal : Part → option bytes;
  Part_Unmarshal : bytes → option Part;
  Commit_Marshal : option Commit → option bytes;
  Commit_Unmarshal : bytes → option Commit;
  Block_Unmarshal : bytes → option ProtoBlock }.

Module blockstore.

Definition prefixBlockMeta : Z := 0.
Definition prefixBlockPart : Z := 1.
Definition prefixBlockCommit : Z := 2.
Definition prefixSeenCommit : Z := 3.
Definition prefixBlockHash : Z := 4.
Definition prefixSeenCommitAt : Z := 13.

Inductive bs_error :=
  | ErrBSDB (e : db_error)
  | ErrBSHeight
  | ErrBSTooHigh
  | ErrBSNoBlock
  | ErrBSNotContiguous
  | ErrBSIncomplete
  | ErrBSSeenHeight
  | ErrBSUnmarshal
  | ErrBSMeta
  | ErrBSSaved
  | ErrBSMarshal.

(** ** Decimal numbers *)

(** [fmt.Sprintf("%d", z)]. *)
Definition format_int (z : Z) : bytes := list_byte_of_string (NilZero.string_of_int (Z.to_int z)).

(** The digits of [strconv.ParseInt] with base 10, at least one. *)
Definition parse_digits (b : bytes) : option Z :=
  Z.of_int ∘ Decimal.Pos <$> NilZero.uint_of_string (string_of_list_byte b).

(** [strconv.ParseInt(s, 10, 64)]. *)
Definition ParseInt (b : bytes) : option Z :=
  z ← match b with
      | x2d :: b => Z.opp <$> parse_digits b
      | x2b :: b => parse_digits b
      | _ => parse_digits b
      end;
  if ((MinInt64 <=? z) && (z <=? MaxInt64))%Z then Some z else None.

Section store.
Context `{Crypto} `{StdTime} `{Faults} `{OrderedCode} `{BlockKeys} `{BlockStoreCodec}.

Notation X := (M DB bs_error).

(** ** types/block_meta.go *)

(** Errors of [BlockID] panic. *)
Definition NewBlockMeta (b : Block) (blockParts : PartSet) (round : Z) : X BlockMeta :=
  blockID ← lift (match Block_BlockID (Some b) (Some blockParts) with Ok id => Ok id | _ => Panic end);
  mret (mkBlockMeta blockID (byteSize blockParts) (B_Header b) (Z.of_nat (length (Txs (B_Data b)))) round
          (bool_decide (is_Some (B_CoreChainLock b)))).

Definition Meta_ValidateBasic (bm : BlockMeta) : outcome bs_error unit :=
  _ ← wrap_err (λ _, ErrBSMeta) (BlockID_ValidateBasic (Meta_BlockID bm));
  hash ← wrap_err (λ _, ErrBSMeta) (Header_Hash (Some (Meta_Header bm)));
  if bool_decide (BlockID_Hash (Meta_BlockID bm) = hash) then Ok tt else Err ErrBSMeta.

Definition BlockMetaFromProto (pb : BlockMeta) : outcome bs_error BlockMeta :=
  bi ← wrap_err (λ _, ErrBSMeta) (BlockIDFromProto (Meta_BlockID pb));
  h ← wrap_err (λ _, ErrBSMeta) (HeaderFromProto (Some (Meta_Header pb)));
  let bm := mkBlockMeta bi (Meta_BlockSize pb) h (Meta_NumTxs pb) (Meta_Round pb) (Meta_HasCoreChainLock pb) in
  _ ← Meta_ValidateBasic bm; Ok bm.

Definition PartFromProto (pb : Part) : outcome partset_error Part :=
  _ ← wrap_err ErrWrongProof (merkle.ValidateBasic (Part_Proof pb));
  _ ← Part_ValidateBasic pb; Ok pb.

(** ** Keys *)

Definition blockMetaKey (height : Z) : bytes := orderedcode [prefixBlockMeta; height].
Definition blockPartKey (height partIndex : Z) : bytes := orderedcode [prefixBlockPart; height; partIndex].
Definition blockCommitKey (height : Z) : bytes := orderedcode [prefixBlockCommit; height].
Definition seenCommitKey : bytes := orderedcode [prefixSeenCommit].
Definition seenCommitAtKey (height : Z) : bytes := orderedcode [prefixSeenCommitAt; height].
Definition blockHashKey (hash : bytes) : bytes := orderedcode_str prefixBlockHash hash.

Definition decodeBlockMetaKey (key : bytes) : option Z :=
  '(prefix, height, remaining) ← orderedcode_parse key;
  if negb (length remaining =? 0) then None
  else if negb (prefix =? prefixBlockMeta)%Z then None else Some height.

(** ** Loading *)

Definition dbop {A} (m : M DB db_error A) : X A := λ d,
  let '(d, r) := m d in (d, wrap_err ErrBSDB r).

(** The error of the iterator. *)
Definition iter_Error : M DB db_error unit := op (λ m, (m, tt)).

(** The height of the first key that the iterator gives, or 0. *)
Definition first_height (it : M DB db_error (list item)) : X Z :=
  iter ← must (dbop it);
  match head iter ≫= λ x, decodeBlockMetaKey x.1 with
  | Some height => mret height
  | None => _ ← must (dbop iter_Error); mret 0%Z
  end.

Definition bs_Base : X Z :=
  first_height (Iterator (Some (blockMetaKey 1)) (Some (blockMetaKey MaxInt64))).

Definition bs_Height : X Z :=
  first_height (ReverseIterator (Some (blockMetaKey 1)) (Some (blockMetaKey MaxInt64))).

Definition bs_Size : X Z :=
  height ← bs_Height;
  if (height =? 0)%Z then mret 0%Z else base ← bs_Base; mret (int64 (height + 1 - base)).

(** A value that is missing or empty is none; a failed read panics. *)
Definition must_Get (key : bytes) : X (option bytes) :=
  bz ← must (dbop (Get key));
  mret (match bz with Some [] => None | _ => bz end).

(** A message that does not decode, or decodes to something that is refused, panics. *)
Definition must_decode {A B E} (unmarshal : bytes → option A) (check : A → outcome E B) (bz : bytes) : X B :=
  match unmarshal bz with
  | None => panic
  | Some a => lift (match check a with Ok b => Ok b | _ => Panic end)
  end.

Definition must_load {A B E} (unmarshal : bytes → option A) (check : A → outcome E B) (key : bytes) :
    X (option B) :=
  bz ← must_Get key;
  match bz with None => mret None | Some bz => b ← must_decode unmarshal check bz; mret (Some b) end.

Definition bs_LoadBlockMeta (height : Z) : X (option BlockMeta) :=
  must_load Meta_Unmarshal BlockMetaFromProto (blockMetaKey height).

Definition LoadBlockPart (height index : Z) : X (option Part) :=
  must_load Part_Unmarshal PartFromProto (blockPartKey height index).

(** [mustDecodeCommit]. *)
Definition load_commit (key : bytes) : X (option Commit) :=
  must_load Commit_Unmarshal (CommitFromProto ∘ Some) key.

Definition LoadBlockCommit (height : Z) : X (option Commit) := load_commit (blockCommitKey height).
Definition LoadSeenCommitAt (height : Z) : X (option Commit) := load_commit (seenCommitAtKey height).
Definition LoadSeenCommit : X (option Commit) := load_commit seenCommitKey.

Definition LoadBaseMeta : X (option BlockMeta) :=
  r ← try (dbop (Iterator (Some (blockMetaKey 1)) (Some (blockMetaKey MaxInt64))));
  match r with
  | inl ((_, v) :: _) => m ← must_decode Meta_Unmarshal BlockMetaFromProto v; mret (Some m)
  | _ => mret None
  end.

(** The loop of [LoadBlock] over the parts from [i] on, [n] of them. *)
Fixpoint load_parts (n : nat) (height i : Z) (buf : bytes) : X (option bytes) :=
  match n with
  | O => mret (Some buf)
  | S n =>
      part ← LoadBlockPart height i;
      match part with
      | None => mret None
      | Some part => load_parts n height (i + 1) (buf ++ Part_Bytes part)
      end
  end.

Definition LoadBlock (height : Z) : X (option Block) :=
  blockMeta ← bs_LoadBlockMeta height;
  match blockMeta with
  | None => mret None
  | Some blockMeta =>
      buf ← load_parts (Z.to_nat (PSH_Total (BlockID_PartSetHeader (Meta_BlockID blockMeta)))) height 0 [];
      match buf with
      | None => mret None
      | Some buf => b ← must_decode Block_Unmarshal (BlockFromProto ∘ Some) buf; mret (Some b)
      end
  end.

Definition CoreChainLockedHeight : X Z :=
  height ← bs_Height;
  b ← LoadBlock height;
  mret (match b with Some b => H_CoreChainLockedHeight (B_Header b) | None => 0%Z end).

(** The height recorded for a hash. *)
Definition height_of_hash (hash : bytes) : X (option Z) :=
  bz ← must_Get (blockHashKey hash);
  match bz with
  | None => mret None
  | Some s => match ParseInt s with None => panic | Some height => mret (Some height) end
  end.

Definition LoadBlockByHash (hash : bytes) : X (option Block) :=
  height ← height_of_hash hash;
  match height with None => mret None | Some height => LoadBlock height end.

Definition LoadBlockMetaByHash (hash : bytes) : X (option BlockMeta) :=
  height ← height_of_hash hash;
  match height with None => mret None | Some height => bs_LoadBlockMeta height end.

(** ** Saving *)

(** [mustEncode] and [batch.Set]. *)
Definition must_encode (bz : option bytes) : X bytes :=
  match bz with Some bz => mret bz | None => panic end.

Definition set_in (batch : Batch) (key value : bytes) : X Batch :=
  lift_err ErrBSDB (batch_Set batch key (Some value)).

(** A nil part cannot be converted. *)
Definition saveBlockPart (height i : Z) (part : option Part) (batch : Batch) : X Batch :=
  part ← lift (deref part);
  partBytes ← must_encode (Part_Marshal part);
  must (set_in batch (blockPartKey height i) partBytes).

(** The loop over the parts from [i] on, [n] of them. *)
Fixpoint save_parts (n : nat) (height i : Z) (blockParts : PartSet) (batch : Batch) : X Batch :=
  match n with
  | O => mret batch
  | S n =>
      part ← lift (index (partset.parts blockParts) i);
      batch ← saveBlockPart height i part batch;
      save_parts n height (i + 1) blockParts batch
  end.

(** Pointers to a block, its parts and a commit; calling [Hash] completes the block. *)
Definition saveBlockToBatch (batch : Batch) (b : option Block) (blockParts : option PartSet)
    (seenCommit : option Commit) : X Batch :=
  match b with
  | None => panic
  | Some b =>
      '(b, hash) ← lift (match Block_Hash (Some b) with Ok (Some b, hash) => Ok (b, hash) | _ => Panic end);
      let height := H_Height (B_Header b) in
      top ← bs_Height;
      base ← bs_Base;
      if (0 <? base)%Z && negb (height =? int64 (top + 1))%Z then fail ErrBSNotContiguous
      else
        blockParts ← lift (deref blockParts);
        if negb (partset.IsComplete blockParts) then fail ErrBSIncomplete
        else
          seenCommit ← lift (deref seenCommit);
          if negb (height =? Commit_Height seenCommit)%Z then fail ErrBSSeenHeight
          else
            batch ← save_parts (Z.to_nat (partset.total blockParts)) height 0 blockParts batch;
            blockMeta ← NewBlockMeta b blockParts (Commit_Round seenCommit);
            metaBytes ← must_encode (Meta_Marshal blockMeta);
            batch ← set_in batch (blockMetaKey height) metaBytes;
            batch ← set_in batch (blockHashKey hash) (format_int height);
            blockCommitBytes ← must_encode (Commit_Marshal (B_LastCommit b));
            batch ← set_in batch (blockCommitKey (int64 (height - 1))) blockCommitBytes;
            seenCommitBytes ← must_encode (Commit_Marshal (Some seenCommit));
            batch ← set_in batch seenCommitKey seenCommitBytes;
            set_in batch (seenCommitAtKey height) seenCommitBytes
  end.

Definition bs_SaveBlock (b : option Block) (blockParts : option PartSet) (seenCommit : option Commit) :
    X unit :=
  match b with
  | None => panic
  | Some _ =>
      batch ← must (saveBlockToBatch NewBatch b blockParts seenCommit);
      must (dbop (batch_Write batch))
  end.

Definition SaveSeenCommit (seenCommit : option Commit) : X unit :=
  match Commit_Marshal seenCommit with
  | None => fail ErrBSMarshal
  | Some bz => dbop (Set_ seenCommitKey (Some bz))
  end.

Definition SaveSignedHeader (h : Header) (commit : option Commit) (blockID : BlockID) : X unit :=
  let height := H_Height h in
  bz ← dbop (Get (blockMetaKey height));
  match bz with
  | Some _ => fail ErrBSSaved
  | None =>
      metaBytes ← must_encode (Meta_Marshal (mkBlockMeta blockID (-1) h (-1) 0 false));
      batch ← set_in NewBatch (blockMetaKey height) metaBytes;
      blockCommitBytes ← must_encode (Commit_Marshal commit);
      batch ← set_in batch (blockCommitKey height) blockCommitBytes;
      dbop (batch_Write batch)
  end.

(** ** Deleting *)

Definition delete_in (batch : Batch) (key : bytes) : X Batch :=
  lift_err ErrBSDB (batch_Delete batch key).

(** The loop over the parts from [i] on, [n] of them. *)
Fixpoint delete_parts (n : nat) (height i : Z) (batch : Batch) : X Batch :=
  match n with
  | O => mret batch
  | S n => batch ← delete_in batch (blockPartKey height i); delete_parts n height (i + 1) batch
  end.

Definition DeleteBlock (height : Z) : X Z :=
  if (height <=? 0)%Z then fail ErrBSHeight
  else
    blockMeta ← bs_LoadBlockMeta height;
    match blockMeta with
    | None => fail ErrBSNoBlock
    | Some blockMeta =>
        let id := Meta_BlockID blockMeta in
        batch ← delete_in NewBatch (blockHashKey (BlockID_Hash id));
        batch ← delete_in batch (blockMetaKey height);
        batch ← delete_parts (Z.to_nat (PSH_Total (BlockID_PartSetHeader id))) height 0 batch;
        batch ← delete_in batch (blockCommitKey height);
        batch ← delete_in batch (seenCommitAtKey height);
        _ ← dbop (batch_Write batch);
        mret 1%Z
    end.

Definition batch_keys : nat := 1000.

(** What is done before an item is deleted. *)
Definition hook : Type := item → Batch → outcome bs_error Batch.

Fixpoint delete_items (h : hook) (l : list item) (batch : Batch) : outcome bs_error Batch :=
  match l with
  | [] => Ok batch
  | x :: l => batch ← h x batch; batch ← wrap_err ErrBSDB (batch_Delete batch x.1); delete_items h l batch
  end.

(** The first keys of the range, [batch_keys] of them; the count, and where to go on. *)
Definition batchDelete (batch : Batch) (start stop : bytes) (h : hook) : X (Z * bytes * Batch) :=
  iter ← dbop (Iterator (Some start) (Some stop));
  let items := take batch_keys iter in
  batch ← lift (delete_items h items batch);
  _ ← dbop iter_Error;
  mret (Z.of_nat (length items), from_option fst stop (items !! (batch_keys - 1)), batch).

(** The loop of [pruneRange]. *)
Fixpoint bprune_loop (fuel : nat) (start stop : bytes) (h : hook) (pruned totalPruned : Z) (batch : Batch) :
    X Z :=
  match fuel with
  | O => panic
  | S fuel =>
      _ ← dbop (batch_Write batch);
      let totalPruned := (totalPruned + pruned)%Z in
      if bool_decide (start = stop) then mret totalPruned
      else '(pruned, start, batch) ← batchDelete NewBatch start stop h;
           bprune_loop fuel start stop h pruned totalPruned batch
  end.

(** The count that comes with an error is left out. *)
Definition bs_pruneRange (start stop : bytes) (h : hook) : X Z :=
  fuel ← gets (λ d, S (size (db_data d)));
  '(pruned, start, batch) ← batchDelete NewBatch start stop h;
  bprune_loop fuel start stop h pruned 0 batch.

Definition no_hook : hook := λ _ batch, Ok batch.

Definition removeBlockHash : hook := λ x batch,
  match Meta_Unmarshal x.2 with
  | None => Err ErrBSUnmarshal
  | Some pb =>
      blockMeta ← BlockMetaFromProto pb;
      wrap_err ErrBSDB (batch_Delete batch (blockHashKey (BlockID_Hash (Meta_BlockID blockMeta))))
  end.

Definition bs_PruneBlocks (height : Z) : X Z :=
  if (height <=? 0)%Z then fail ErrBSHeight
  else
    top ← bs_Height;
    if (top <? height)%Z then _ ← bs_Height; fail ErrBSTooHigh
    else
      pruned ← bs_pruneRange (blockMetaKey 0) (blockMetaKey height) removeBlockHash;
      _ ← bs_pruneRange (blockPartKey 0 0) (blockPartKey height 0) no_hook;
      _ ← bs_pruneRange (blockCommitKey 0) (blockCommitKey height) no_hook;
      mret pruned.

End store.

End blockstore.
