(* ===== verification/BlockStoreThms.v ===== *)
(** * internal/store: what the block store keeps

    Over any run of saves, prunes and deletions on a database that may fail at any time, the
    block store of [BlockStore] gives back the blocks, meta data and commits of an interval of
    heights that only its own operations move. *)
From Stdlib Require Import ZArith Lia Init.Byte Sorted DecimalString DecimalZ String.
From stdpp Require Import base numbers list sets gmap fin_maps sorting.
From S2P Require Import Prelude.
From S2P Require Import StateM.
From S2P Require Import DB.
From S2P Require Import Merkle.
From S2P Require Import PartSet.
From S2P Require Import Types.
From S2P Require Import Crypto.
From S2P Require Import Proposal.
From S2P Require Import Block.
From S2P Require Import SelectProposer.
From S2P Require Import StateStore.
From S2P Require Import StateStoreThms.
From S2P Require Import BlockStore.

Import statem db partset types crypto proposal block selectproposer blockstore storethms.

Module bsthms.

(** Keys with a string are ordered by their first item, and differ with the string; a key of
    two integers is read back. *)
Record keys_law `{OrderedCode} `{BlockKeys} : Prop := {
  kl_order p q s l : in_int64 p → in_int64 q → Forall in_int64 l → p ≠ q →
    bytes_compare (orderedcode_str p s) (orderedcode (q :: l)) = (p ?= q)%Z;
  kl_inj p s s' : orderedcode_str p s = orderedcode_str p s' → s = s';
  kl_nonempty p s : orderedcode_str p s ≠ [];
  kl_parse p h : in_int64 p → in_int64 h → orderedcode_parse (orderedcode [p; h]) = Some (p, h, []) }.

(** Hashes that are present are not empty: nil and empty slices have one encoding. *)
Definition filled (h : Header) : Prop :=
  H_LastCommitHash h ≠ Some [] ∧ H_DataHash h ≠ Some [] ∧ H_EvidenceHash h ≠ Some [].

(** Messages are decoded to what was encoded, and are not empty since each has a message
    inside that is always present. *)
Record block_codec_law `{BlockStoreCodec} : Prop := {
  bcl_meta m bz : filled (Meta_Header m) → Meta_Marshal m = Some bz → bz ≠ [] ∧ Meta_Unmarshal bz = Some m;
  bcl_part p bz : Part_Marshal p = Some bz → bz ≠ [] ∧ Part_Unmarshal bz = Some p;
  bcl_commit c bz : CommitFromProto (Some c) = Ok c → Commit_Marshal (Some c) = Some bz →
    bz ≠ [] ∧ Commit_Unmarshal bz = Some c }.

(** ** Decimal numbers *)


Section thms.
Context `{Crypto} `{StdTime} `{Faults} `{OrderedCode} `{BlockKeys} `{BlockStoreCodec}.
Hypothesis oc_law : orderedcode_law.
Hypothesis str_law : keys_law.
Hypothesis codec : block_codec_law.

Notation X := (M DB bs_error).

(** ** Keys *)

Lemma lex_eq a b : lex a b = Eq → a = b.
Proof using.
  clear. revert b. induction a as [|x a IH]; intros [|y b]; try done. cbn.
  destruct (Z.compare_spec x y) as [->| |]; try done. intros E. by rewrite (IH b E).
Qed.

Lemma oc_inj a b : Forall in_int64 a → Forall in_int64 b → orderedcode a = orderedcode b → a = b.
Proof using oc_law. intros Ha Hb E. apply lex_eq. rewrite <- oc_law by done. rewrite E. by apply bytes_compare_eq. Qed.

(** A key in the range of two keys of a prefix. *)
Lemma oc_range p a b l :
  in_int64 p → Forall in_int64 a → Forall in_int64 b → Forall in_int64 l →
  bytes_le (orderedcode (p :: a)) (orderedcode l) → bytes_ltb (orderedcode l) (orderedcode (p :: b)) = true →
  ∃ l', l = p :: l' ∧ lex a l' ≠ Gt ∧ lex l' b = Lt.
Proof using oc_law.
  intros Hp Ha Hb Hl. unfold bytes_le, bytes_ltb. rewrite !oc_law by (done || by constructor).
  destruct l as [|q l]; [done|]. cbn [lex]. intros H1' H2'.
  destruct (Z.compare_spec p q) as [->|Hlt|Hgt]; [|destruct (Z.compare_spec q p); try done; lia|done].
  rewrite Z.compare_refl in H2'. exists l. split_and!; [done|done|]. by destruct (lex l b).
Qed.

Lemma str_range p q s a b :
  in_int64 p → in_int64 q → Forall in_int64 a → Forall in_int64 b → p ≠ q →
  bytes_le (orderedcode (q :: a)) (orderedcode_str p s) →
  bytes_ltb (orderedcode_str p s) (orderedcode (q :: b)) = true → False.
Proof using str_law.
  intros Hp Hq Ha Hb Hne H1' H2'. unfold bytes_ltb in H2'. rewrite (kl_order str_law) in H2' by done.
  apply bytes_ltb_le in H1'. unfold bytes_ltb in H1'. rewrite (kl_order str_law) in H1' by done.
  by destruct (p ?= q)%Z.
Qed.

Lemma str_ne p q s l : in_int64 p → in_int64 q → Forall in_int64 l → p ≠ q → orderedcode_str p s ≠ orderedcode (q :: l).
Proof using str_law.
  intros Hp Hq Hl Hne E. pose proof (kl_order str_law p q s l Hp Hq Hl Hne) as Hc. rewrite E in Hc.
  rewrite (proj2 (bytes_compare_eq _ _) eq_refl) in Hc. symmetry in Hc. by apply Z.compare_eq in Hc.
Qed.

(** ** Computations that read *)

(** The content stays, the answer can only be [a], and it is [a] while the database does not
    fail. *)
Definition reads {E A} (m : M DB E A) (d : DB) (a : A) : Prop :=
  ∃ d' r, m d = (d', r) ∧ db_data d' = db_data d ∧ (quiet d → quiet d' ∧ r = Ok a) ∧
    (∀ b, r = Ok b → b = a).

Lemma reads_ret {E A} (a : A) d : reads (mret a : M DB E A) d a.
Proof using. exists d, (Ok a). split_and!; [done|done|done|]. by intros b [= ->]. Qed.

Lemma reads_lift {E A} (o : outcome E A) d a : o = Ok a → reads (lift o) d a.
Proof using. intros ->. apply (reads_ret (E := E)). Qed.

Lemma reads_bind {E A B} (m : M DB E A) (f : A → M DB E B) d a b :
  reads m d a → (∀ d', db_data d' = db_data d → reads (f a) d' b) → reads (m ≫= f) d b.
Proof using.
  clear. intros (d1 & r1 & E1 & Hd1 & Hq1 & Hr1) Hf. unfold reads, mbind, M_bind. rewrite E1.
  destruct r1 as [a'|e|].
  - rewrite (Hr1 a' eq_refl) in *. destruct (Hf d1 Hd1) as (d2 & r2 & E2 & Hd2 & Hq2 & Hr2). rewrite E2.
    exists d2, r2. split_and!; [done|by rewrite Hd2|naive_solver|done].
  - exists d1, (Err e). split_and!; [done|done|naive_solver|done].
  - exists d1, Panic. split_and!; [done|done|naive_solver|done].
Qed.

Lemma reads_must {E A} (m : M DB E A) d a : reads m d a → reads (must m) d a.
Proof using.
  clear. intros (d1 & r1 & E1 & Hd1 & Hq1 & Hr1). unfold reads, must. rewrite E1.
  destruct r1 as [a'|e|]; [exists d1, (Ok a')|exists d1, Panic|exists d1, Panic];
    (split_and!; [done|done|naive_solver|naive_solver]).
Qed.

Lemma reads_op {E' A} (f : db_error → E') (g : gmap bytes bytes → A) d :
  reads (λ d, let '(d, r) := op (λ m, (m, g m)) d in (d, wrap_err f r)) d (g (db_data d)).
Proof using.
  clear. unfold reads, op. destruct (fault (db_ops d)) eqn:Ef.
  - eexists _, _. split_and!; [done|done| |done]. intros Hq. by rewrite Hq in Ef.
  - eexists _, _. split_and!; [done|done| |by intros b [= ->]]. intros Hq. split; [|done].
    intros n Hn. apply Hq. cbn in Hn. lia.
Qed.

Lemma reads_Get key d : key ≠ [] → reads (dbop (Get key)) d (db_data d !! key).
Proof using.
  clear. intros Hk. unfold dbop, Get. rewrite bool_decide_eq_false_2 by done.
  apply (reads_op ErrBSDB (λ m, m !! key)).
Qed.

Lemma reads_must_Get key d : key ≠ [] → reads (must_Get key) d (bytes_at (db_data d) key).
Proof using.
  clear. intros Hk. eapply reads_bind; [by apply reads_must, reads_Get|]. intros d' Hd.
  unfold bytes_at. destruct (db_data d !! key) as [[|]|]; apply reads_ret.
Qed.

Lemma reads_iter_Error d : reads (dbop iter_Error) d tt.
Proof using. clear. apply (reads_op ErrBSDB (λ _, tt)). Qed.

Lemma reads_iterate backward s e d :
  s ≠ [] → e ≠ [] →
  reads (dbop (iterate backward (Some s) (Some e))) d (newMemDBIterator (db_data d) (Some s) (Some e) backward).
Proof using.
  clear. intros Hs He. unfold dbop, iterate, empty_bound.
  rewrite !bool_decide_eq_false_2 by congruence. cbn [orb].
  apply (reads_op ErrBSDB (λ m, newMemDBIterator m (Some s) (Some e) backward)).
Qed.

Lemma reads_decode {A B E} (unmarshal : bytes → option A) (check : A → outcome E B) bz a b d :
  unmarshal bz = Some a → check a = Ok b → reads (must_decode unmarshal check bz) d b.
Proof using. clear. intros Ha Hb. unfold must_decode. rewrite Ha, Hb. apply reads_ret. Qed.

Lemma reads_load {A B E} (unmarshal : bytes → option A) (check : A → outcome E B) key bz a b d :
  key ≠ [] → db_data d !! key = Some bz → bz ≠ [] → unmarshal bz = Some a → check a = Ok b →
  reads (must_load unmarshal check key) d (Some b).
Proof using.
  clear. intros Hk Hbz Hne Ha Hb. eapply reads_bind; [by apply reads_must_Get|]. intros d' Hd.
  unfold bytes_at. rewrite Hbz. destruct bz; [done|].
  eapply reads_bind; [by eapply reads_decode|]. intros. apply reads_ret.
Qed.

Lemma reads_load_none {A B E} (unmarshal : bytes → option A) (check : A → outcome E B) key d :
  key ≠ [] → db_data d !! key = None → reads (must_load unmarshal check key) d None.
Proof using.
  clear. intros Hk Hn. eapply reads_bind; [by apply reads_must_Get|]. intros d' Hd.
  unfold bytes_at. rewrite Hn. apply reads_ret.
Qed.

(** ** What is stored for a height *)

(** A block with its parts and the commit seen for it, or a header that was verified without
    its block. *)
Inductive Entry :=
  | Full (b : Block) (ps : PartSet) (seen : Commit)
  | Light (h : Header) (commit : Commit) (id : BlockID).

Definition part_at (ps : PartSet) (i : nat) : option Part := partset.parts ps !! i ≫= λ p, p.

Definition entry_meta (e : Entry) : option BlockMeta :=
  match e with
  | Full b ps seen =>
      match Block_BlockID (Some b) (Some ps) with
      | Ok id => Some (mkBlockMeta id (byteSize ps) (B_Header b) (Z.of_nat (length (Txs (B_Data b))))
                         (Commit_Round seen) (bool_decide (is_Some (B_CoreChainLock b))))
      | _ => None
      end
  | Light h _ id => Some (mkBlockMeta id (-1) h (-1) 0 false)
  end.

Definition meta_bytes (e : Entry) : option bytes := entry_meta e ≫= Meta_Marshal.

Definition entry_hash (e : Entry) : bytes := from_option (λ m, BlockID_Hash (Meta_BlockID m)) [] (entry_meta e).

(** A commit that can be stored. *)
Definition commit_ok (c : Commit) : Prop := CommitFromProto (Some c) = Ok c ∧ is_Some (Commit_Marshal (Some c)).

(** A complete set of parts that were cut from an encoding of the block. *)
Record full_ok (h : Z) (b : Block) (ps : PartSet) (seen : Commit) : Prop := {
  fo_hash : Block_Hash (Some b) = Ok (Some b, entry_hash (Full b ps seen));
  fo_complete : partset.IsComplete ps = true;
  fo_total : (0 ≤ partset.total ps < MaxInt64)%Z ∧ entry_meta (Full b ps seen) ≠ None;
  fo_psh m : entry_meta (Full b ps seen) = Some m →
    PSH_Total (BlockID_PartSetHeader (Meta_BlockID m)) = partset.total ps;
  fo_parts i : (Z.of_nat i < partset.total ps)%Z →
    ∃ p, part_at ps i = Some p ∧ PartFromProto p = Ok p ∧ is_Some (Part_Marshal p);
  fo_block : Block_Unmarshal (List.concat (map (λ i, from_option Part_Bytes [] (part_at ps i))
      (seq 0 (Z.to_nat (partset.total ps))))) = Some (Block_ToProto b) ∧
    BlockFromProto (Some (Block_ToProto b)) = Ok b;
  fo_last : ∃ c, B_LastCommit b = Some c ∧ commit_ok c;
  fo_seen : commit_ok seen ∧ Commit_Height seen = h }.

(** An entry that can be stored under a height. *)
Record entry_ok (h : Z) (e : Entry) : Prop := {
  eo_meta : ∃ m, entry_meta e = Some m ∧ is_Some (Meta_Marshal m) ∧ filled (Meta_Header m) ∧
    BlockMetaFromProto m = Ok m ∧ H_Height (Meta_Header m) = h;
  eo_full b ps s : e = Full b ps s → full_ok h b ps s;
  eo_light hd c id : e = Light hd c id → commit_ok c }.

(** The database holds the entries of the heights from [base] to [top], and the commit seen
    last. *)
Record rep (base top : Z) (hist : Z → Entry) (seen : option Commit) (m : gmap bytes bytes) : Prop := {
  rp_range : (1 ≤ base ∧ base ≤ top + 1 ∧ top < MaxInt64)%Z;
  rp_ok h : (base ≤ h ≤ top)%Z → entry_ok h (hist h);
  rp_inj h h' : (base ≤ h ≤ top)%Z → (base ≤ h' ≤ top)%Z → entry_hash (hist h) = entry_hash (hist h') → h = h';
  rp_meta h : in_int64 h →
    m !! blockMetaKey h = if decide (base ≤ h ≤ top)%Z then meta_bytes (hist h) else None;
  rp_keys k : is_Some (m !! k) → bytes_le (blockMetaKey 0) k → bytes_ltb k (blockMetaKey MaxInt64) = true →
    ∃ h, in_int64 h ∧ k = blockMetaKey h;
  rp_part h i b ps s p : (base ≤ h ≤ top)%Z → hist h = Full b ps s → part_at ps i = Some p →
    (Z.of_nat i < partset.total ps)%Z → m !! blockPartKey h (Z.of_nat i) = Part_Marshal p;
  rp_commit h b ps s : (base ≤ h < top)%Z → hist (h + 1)%Z = Full b ps s →
    m !! blockCommitKey h = Commit_Marshal (B_LastCommit b);
  rp_light h hd c id hd' c' id' : (base ≤ h < top)%Z → hist h = Light hd c id →
    hist (h + 1)%Z = Light hd' c' id' → m !! blockCommitKey h = Commit_Marshal (Some c);
  rp_seenAt h b ps s : (base ≤ h ≤ top)%Z → hist h = Full b ps s →
    m !! seenCommitAtKey h = Commit_Marshal (Some s);
  rp_seen : m !! seenCommitKey = seen ≫= λ c, Commit_Marshal (Some c);
  rp_seen_ok c : seen = Some c → commit_ok c;
  rp_hash h b ps s : (base ≤ h ≤ top)%Z → hist h = Full b ps s →
    m !! blockHashKey (entry_hash (hist h)) = Some (format_int h);
  rp_hash_some hash : is_Some (m !! blockHashKey hash) →
    ∃ h b ps s, (base ≤ h ≤ top)%Z ∧ hist h = Full b ps s ∧ entry_hash (hist h) = hash }.

(** ** Reading it back *)

Lemma meta_key_nonempty h : in_int64 h → blockMetaKey h ≠ [].
Proof using oc_law. intros. apply (oc_nonempty oc_law); ints. Qed.

Definition in_range (s e k : bytes) : Prop := bytes_le s k ∧ bytes_ltb k e = true.

Lemma elem_of_iter m s e backward k v :
  (k, v) ∈ newMemDBIterator m (Some s) (Some e) backward ↔ m !! k = Some v ∧ in_range s e k.
Proof using.
  clear. rewrite newMemDBIterator_spec.
  assert ((k, v) ∈ direct backward (filter (λ x, in_domain (Some s) (Some e) x) (ascend m)) ↔
          (k, v) ∈ filter (λ x, in_domain (Some s) (Some e) x) (ascend m)) as ->.
  { destruct backward; [apply elem_of_reverse|done]. }
  rewrite list_elem_of_filter, elem_of_ascend, Is_true_true. unfold in_domain, IsKeyInDomain, in_range. cbn.
  rewrite andb_true_iff, negb_true_iff, bytes_ltb_le. tauto.
Qed.

Lemma iter_first m s e backward k v l k' :
  newMemDBIterator m (Some s) (Some e) backward = (k, v) :: l → is_Some (m !! k') → in_range s e k' →
  if backward then bytes_le k' k else bytes_le k k'.
Proof using.
  clear. intros E [v' Hv] Hr.
  assert ((k', v') ∈ (k, v) :: l) as Hin by (rewrite <- E; by apply elem_of_iter).
  assert (StronglySorted (if backward then flip item_le else item_le) ((k, v) :: l)) as Hs.
  { rewrite <- E, newMemDBIterator_spec. destruct backward; cbn [direct].
    - rewrite <- filter_reverse. apply StronglySorted_filter, descend_sorted.
    - apply StronglySorted_filter, ascend_sorted. }
  apply StronglySorted_inv in Hs as [_ Hf]. apply elem_of_cons in Hin as [[= -> ->]|Hin].
  - destruct backward; unfold bytes_le; by rewrite (proj2 (bytes_compare_eq _ _) eq_refl).
  - pose proof (proj1 (Forall_forall _ _) Hf _ Hin) as Hle. by destruct backward.
Qed.

Lemma meta_le h h' : in_int64 h → in_int64 h' → bytes_le (blockMetaKey h) (blockMetaKey h') ↔ (h ≤ h')%Z.
Proof using oc_law.
  intros. unfold bytes_le, blockMetaKey. rewrite oc_law by ints. cbn.
  destruct (Z.compare_spec h h'); split; (done || lia).
Qed.

Lemma meta_lt h h' : in_int64 h → in_int64 h' → bytes_ltb (blockMetaKey h) (blockMetaKey h') = true ↔ (h < h')%Z.
Proof using oc_law.
  intros. unfold bytes_ltb, blockMetaKey. rewrite oc_law by ints. cbn.
  destruct (Z.compare_spec h h'); split; (done || lia).
Qed.

Lemma meta_range a b h :
  in_int64 a → in_int64 b → in_int64 h → in_range (blockMetaKey a) (blockMetaKey b) (blockMetaKey h) ↔ (a ≤ h < b)%Z.
Proof using oc_law. intros. unfold in_range. by rewrite meta_le, meta_lt. Qed.

Lemma decode_meta_key h : in_int64 h → decodeBlockMetaKey (blockMetaKey h) = Some h.
Proof using str_law. intros. unfold decodeBlockMetaKey, blockMetaKey. by rewrite (kl_parse str_law). Qed.

Lemma meta_some base top hist seen m h :
  rep base top hist seen m → in_int64 h → is_Some (m !! blockMetaKey h) ↔ (base ≤ h ≤ top)%Z.
Proof using.
  intros Hr Hh. rewrite (rp_meta _ _ _ _ _ Hr h Hh). destruct (decide _) as [Hin|]; split; try done.
  intros _. destruct (eo_meta _ _ (rp_ok _ _ _ _ _ Hr h Hin)) as (mt & Em & Hs & _). unfold meta_bytes. by rewrite Em.
Qed.

Lemma rep_int base top hist seen m h : rep base top hist seen m → (base ≤ h ≤ top)%Z → in_int64 h.
Proof using. intros [? _ _ _ _ _ _ _ _ _ _ _ _] Hh. unfold in_int64. unfold_ints. lia. Qed.

(** The first key of the iterator over all heights. *)
Lemma first_meta base top hist seen m backward k v l :
  rep base top hist seen m →
  newMemDBIterator m (Some (blockMetaKey 1)) (Some (blockMetaKey MaxInt64)) backward = (k, v) :: l →
  (base ≤ top)%Z ∧ k = blockMetaKey (if backward then top else base) ∧ m !! k = Some v.
Proof using oc_law.
  intros Hr E. pose proof (rp_range _ _ _ _ _ Hr) as Hb.
  assert (in_int64 0 ∧ in_int64 1 ∧ in_int64 MaxInt64) as (I0 & I1 & I2) by done.
  assert (m !! k = Some v ∧ in_range (blockMetaKey 1) (blockMetaKey MaxInt64) k) as [Hk [L1 L2]].
  { apply (elem_of_iter _ _ _ backward). rewrite E. by left. }
  destruct (rp_keys _ _ _ _ _ Hr k) as (h & Hh & ->); [by exists v| |done|].
  { trans (blockMetaKey 1); [|done]. by apply meta_le. }
  assert (base ≤ h ≤ top)%Z as Hin by (apply (meta_some base top hist seen m); [done..|by exists v]).
  split; [lia|]. split; [|done]. f_equal.
  set (x := if backward then top else base). assert (base ≤ x ≤ top)%Z as Hx by (destruct backward; unfold x; lia).
  assert (in_int64 x) as Ix by by eapply rep_int.
  pose proof (iter_first _ _ _ _ _ _ _ (blockMetaKey x) E) as Hf.
  rewrite (meta_some base top hist seen m), meta_range in Hf by done. specialize (Hf Hx ltac:(lia)).
  destruct backward; rewrite meta_le in Hf by done; unfold x in *; lia.
Qed.

Lemma reads_first base top hist seen d backward :
  rep base top hist seen (db_data d) →
  reads (first_height (iterate backward (Some (blockMetaKey 1)) (Some (blockMetaKey MaxInt64)))) d
    (if decide (base ≤ top)%Z then if backward then top else base else 0%Z).
Proof using oc_law str_law.
  intros Hr. pose proof (rp_range _ _ _ _ _ Hr) as Hb.
  assert (in_int64 1 ∧ in_int64 MaxInt64) as [I1 I2] by done.
  unfold first_height. eapply reads_bind.
  { apply reads_must, reads_iterate; by apply meta_key_nonempty. }
  intros d' Hd. destruct (newMemDBIterator _ _ _ _) as [|[k v] l] eqn:E.
  - eapply reads_bind; [apply reads_must, reads_iter_Error|]. intros. destruct (decide _); [|apply reads_ret].
    assert (in_int64 base) as Ib by (eapply rep_int; [done|lia]).
    destruct (proj2 (meta_some _ _ _ _ _ base Hr Ib) ltac:(lia)) as [v Hv].
    assert ((blockMetaKey base, v) ∈ ([] : list item)) as Hin%elem_of_nil; [|done].
    rewrite <- E. apply elem_of_iter. split; [done|]. apply meta_range; [done..|lia].
  - destruct (first_meta _ _ _ _ _ _ _ _ _ Hr E) as (Hle & -> & _). cbn [head mbind option_bind fst].
    rewrite decode_meta_key by (eapply rep_int; [done|destruct backward; lia]).
    rewrite decide_True by done. apply reads_ret.
Qed.

Lemma reads_LoadBlockMeta base top hist seen d h :
  rep base top hist seen (db_data d) → in_int64 h →
  reads (bs_LoadBlockMeta h) d (if decide (base ≤ h ≤ top)%Z then entry_meta (hist h) else None).
Proof using oc_law codec.
  intros Hr Hh. pose proof (rp_meta _ _ _ _ _ Hr h Hh) as Hm. destruct (decide _) as [Hin|].
  - destruct (eo_meta _ _ (rp_ok _ _ _ _ _ Hr h Hin)) as (mt & Em & [bz Hbz] & Hf & Hp & _).
    unfold meta_bytes in Hm. rewrite Em in Hm |- *. cbn in Hm. rewrite Hbz in Hm.
    destruct (bcl_meta codec _ _ Hf Hbz) as [Hne Hu].
    eapply reads_load; [by apply meta_key_nonempty|exact Hm|done|exact Hu|done].
  - by apply reads_load_none; [apply meta_key_nonempty|].
Qed.

Lemma reads_commit key c d :
  key ≠ [] → commit_ok c → db_data d !! key = Commit_Marshal (Some c) → reads (load_commit key) d (Some c).
Proof using codec.
  intros Hk [Hc [bz Hbz]] Hm. rewrite Hbz in Hm. destruct (bcl_commit codec _ _ Hc Hbz) as [Hne Hu].
  eapply reads_load; [done|exact Hm|done|exact Hu|exact Hc].
Qed.


Lemma reads_LoadBlockCommit_light base top hist seen d h hd c id hd' c' id' :
  rep base top hist seen (db_data d) → (base ≤ h < top)%Z → hist h = Light hd c id →
  hist (h + 1)%Z = Light hd' c' id' → reads (LoadBlockCommit h) d (Some c).
Proof using oc_law codec.
  intros Hr Hh Hb Hb'. assert (in_int64 h) by (eapply rep_int; [done|lia]).
  apply reads_commit; [apply (oc_nonempty oc_law); ints| |by eapply rp_light].
  by apply (eo_light _ _ (rp_ok _ _ _ _ _ Hr h ltac:(lia)) _ _ _ Hb).
Qed.






Lemma hash_key_nonempty hash : blockHashKey hash ≠ [].
Proof using str_law. apply (kl_nonempty str_law). Qed.




(** ** Saving *)

(** The content becomes [new] when the computation succeeds, and stays when it does not. *)
Definition writes {E A} (m : M DB E A) (d : DB) (a : A) (new : gmap bytes bytes) : Prop :=
  ∃ d' r, m d = (d', r) ∧ (quiet d → quiet d' ∧ r = Ok a) ∧
    (r = Ok a ∧ db_data d' = new ∨ (∀ b, r ≠ Ok b) ∧ db_data d' = db_data d).

Lemma writes_bind {E A B} (m : M DB E A) (f : A → M DB E B) d a b new :
  reads m d a → (∀ d', db_data d' = db_data d → writes (f a) d' b new) → writes (m ≫= f) d b new.
Proof using.
  clear. intros (d1 & r1 & E1 & Hd1 & Hq1 & Hr1) Hf. unfold writes, mbind, M_bind. rewrite E1.
  destruct r1 as [a'|e|].
  - rewrite (Hr1 a' eq_refl) in *. destruct (Hf d1 Hd1) as (d2 & r2 & E2 & Hq2 & Hr2). rewrite E2.
    exists d2, r2. split_and!; [done|naive_solver|]. by rewrite <- Hd1.
  - exists d1, (Err e). split_and!; [done|naive_solver|]. by right.
  - exists d1, Panic. split_and!; [done|naive_solver|]. by right.
Qed.

Lemma writes_must {E A} (m : M DB E A) d a new : writes m d a new → writes (must m) d a new.
Proof using.
  clear. intros (d1 & r1 & E1 & Hq1 & Hr1). unfold writes, must. rewrite E1.
  destruct r1 as [a'|e|]; [exists d1, (Ok a')|exists d1, Panic|exists d1, Panic];
    (split_and!; [done|naive_solver|]); [done|right; naive_solver..].
Qed.

Lemma writes_op {E' : Type} (f : db_error → E') (g : gmap bytes bytes → gmap bytes bytes) d :
  writes (λ d, let '(d, r) := op (λ m, (g m, tt)) d in (d, wrap_err f r)) d tt (g (db_data d)).
Proof using.
  clear. unfold writes, op. destruct (fault (db_ops d)) eqn:Ef.
  - eexists _, _. split_and!; [done| |by right]. intros Hq. by rewrite Hq in Ef.
  - eexists _, _. split_and!; [done| |by left]. intros Hq. split; [|done]. intros n Hn. apply Hq. cbn in Hn. lia.
Qed.

Lemma writes_batch (ops : list operation) d :
  writes (dbop (batch_Write (Some ops))) d tt (foldl apply_op (db_data d) ops).
Proof using. clear. apply (writes_op ErrBSDB (λ m, foldl apply_op m ops)). Qed.

Definition sets (kvs : list (bytes * bytes)) : list operation := map (λ kv, opSet kv.1 kv.2) kvs.

Lemma sets_out (kvs : list (bytes * bytes)) (m : gmap bytes bytes) k :
  k ∉ kvs.*1 → foldl apply_op m (sets kvs) !! k = m !! k.
Proof using.
  clear. revert m. induction kvs as [|[k' v] kvs IH]; intros m Hk; [done|]. cbn. cbn in Hk.
  apply not_elem_of_cons in Hk as [Hne Hk]. unfold sets in IH. rewrite IH by done. by rewrite lookup_insert_ne.
Qed.

Lemma sets_in (kvs : list (bytes * bytes)) (m : gmap bytes bytes) k v :
  NoDup kvs.*1 → (k, v) ∈ kvs → foldl apply_op m (sets kvs) !! k = Some v.
Proof using.
  clear. revert m. induction kvs as [|[k' v'] kvs IH]; intros m Hn Hk; [by apply elem_of_nil in Hk|]. cbn in Hn.
  apply NoDup_cons in Hn as [Hk' Hn]. cbn. apply elem_of_cons in Hk as [[= -> ->]|Hk].
  - pose proof (sets_out kvs (<[k' := v']> m) k' Hk') as Hs. unfold sets in Hs. rewrite Hs. apply lookup_insert_eq.
  - by apply IH.
Qed.

Lemma reads_set_in (ops : list operation) key value d :
  key ≠ [] → reads (set_in (Some ops) key value) d (Some (ops ++ [opSet key value]) : Batch).
Proof using.
  clear. intros Hk. unfold set_in, lift_err, batch_Set. rewrite bool_decide_eq_false_2 by done. apply reads_ret.
Qed.

Lemma reads_encode o bz d : o = Some bz → reads (must_encode o : X bytes) d bz.
Proof using. clear. intros ->. apply reads_ret. Qed.

(** What is set for the parts of a block. *)
Definition part_kvs (h : Z) (ps : PartSet) (i n : nat) : list (bytes * bytes) :=
  map (λ j, (blockPartKey h (Z.of_nat j), default [] (part_at ps j ≫= Part_Marshal))) (seq i n).

Lemma reads_save_parts h b ps s n i (ops : list operation) d :
  full_ok h b ps s → in_int64 h → (Z.of_nat (i + n) ≤ partset.total ps)%Z →
  reads (save_parts n h (Z.of_nat i) ps (Some ops)) d (Some (ops ++ sets (part_kvs h ps i n)) : Batch).
Proof using oc_law.
  intros Hok Hh. revert d i ops. induction n as [|n IH]; intros d i ops Hn; [rewrite app_nil_r; apply reads_ret|].
  cbn [save_parts]. destruct (fo_parts _ _ _ _ Hok i ltac:(lia)) as (p & Ep & _ & [bz Hbz]).
  pose proof (fo_total _ _ _ _ Hok) as [Ht _].
  assert (in_int64 (Z.of_nat i)) by (unfold in_int64; unfold_ints; lia).
  assert (index (partset.parts ps) (Z.of_nat i) = (Ok (Some p) : outcome bs_error _)) as Ei.
  { unfold index. rewrite (proj2 (Z.ltb_ge _ _)), Nat2Z.id by lia. unfold part_at in Ep.
    destruct (partset.parts ps !! i) as [o|]; [|done]. cbn in Ep. by subst o. }
  eapply reads_bind; [by apply reads_lift|]. intros d' Hd. eapply reads_bind.
  { unfold saveBlockPart. eapply reads_bind; [by apply reads_lift|]. intros. cbn [deref].
    eapply reads_bind; [by apply reads_encode|]. intros. apply reads_must, reads_set_in. apply (oc_nonempty oc_law); ints. }
  intros d'' _. replace (Z.of_nat i + 1)%Z with (Z.of_nat (S i)) by lia.
  assert (ops ++ sets (part_kvs h ps i (S n)) =
          (ops ++ [opSet (blockPartKey h (Z.of_nat i)) bz]) ++ sets (part_kvs h ps (S i) n)) as ->.
  { rewrite <- app_assoc. unfold part_kvs. cbn [seq map sets]. rewrite Ep. cbn. by rewrite Hbz. }
  apply IH. lia.
Qed.

(** Everything that is set for a block. *)
Definition block_kvs (h : Z) (b : Block) (ps : PartSet) (s : Commit) : list (bytes * bytes) :=
  part_kvs h ps 0 (Z.to_nat (partset.total ps)) ++
  [(blockMetaKey h, default [] (meta_bytes (Full b ps s)));
   (blockHashKey (entry_hash (Full b ps s)), format_int h);
   (blockCommitKey (h - 1), default [] (Commit_Marshal (B_LastCommit b)));
   (seenCommitKey, default [] (Commit_Marshal (Some s)));
   (seenCommitAtKey h, default [] (Commit_Marshal (Some s)))].

Lemma reads_saveBlockToBatch base top hist seen d h b ps s :
  rep base top hist seen (db_data d) → entry_ok h (Full b ps s) → (1 ≤ h < MaxInt64)%Z →
  ((base ≤ top)%Z → h = (top + 1)%Z) →
  reads (saveBlockToBatch NewBatch (Some b) (Some ps) (Some s)) d (Some (sets (block_kvs h b ps s)) : Batch).
Proof using oc_law str_law.
  intros Hr He Hh Htop. pose proof (rp_range _ _ _ _ _ Hr) as Hb.
  destruct (eo_meta _ _ He) as (mt & Em & [mb Hmb] & _ & _ & Eh). pose proof (eo_full _ _ He _ _ _ eq_refl) as Hok.
  assert (H_Height (B_Header b) = h) as Ehb.
  { cbn in Em. destruct (Block_BlockID (Some b) (Some ps)); [|done|done]. by injection Em as <-. }
  assert (in_int64 h ∧ in_int64 (h - 1)%Z) as [Ih Ih'] by (unfold in_int64; unfold_ints; lia).
  unfold saveBlockToBatch. rewrite (fo_hash _ _ _ _ Hok).
  eapply reads_bind; [by apply reads_lift|]. intros d1 Hd1.
  cbv beta iota zeta. rewrite Ehb.
  eapply reads_bind; [apply (reads_first base top hist seen _ true); by rewrite Hd1|]. intros d2 Hd2.
  eapply reads_bind; [apply (reads_first base top hist seen _ false); by rewrite Hd2, Hd1|]. intros d3 Hd3.
  assert ((0 <? (if decide (base ≤ top)%Z then base else 0))%Z &&
    negb (h =? int64 ((if decide (base ≤ top)%Z then top else 0) + 1))%Z = false) as ->.
  { destruct (decide _) as [Hle|]; [|done]. rewrite (Htop Hle), int64_id, Z.eqb_refl; [apply andb_false_r|].
    unfold in_int64; unfold_ints; lia. }
  eapply reads_bind; [by apply reads_lift|]. intros d4 _. rewrite (fo_complete _ _ _ _ Hok). cbn [negb].
  eapply reads_bind; [by apply reads_lift|]. intros d5 _. cbn [deref].
  destruct (fo_seen _ _ _ _ Hok) as [[_ [sb Hsb]] Hsh]. rewrite Hsh, Z.eqb_refl. cbn [negb].
  pose proof (fo_total _ _ _ _ Hok) as [Ht _].
  eapply reads_bind; [apply (reads_save_parts h b ps s _ 0 []); [done|done|lia]|]. intros d6 _. cbn [app].
  eapply (reads_bind _ _ _ mt).
  { unfold NewBlockMeta. cbn in Em. destruct (Block_BlockID (Some b) (Some ps)) as [id| |]; [|done|done].
    eapply reads_bind; [by apply reads_lift|]. intros. injection Em as <-. apply reads_ret. }
  intros d7 _. eapply reads_bind; [by apply reads_encode|]. intros d8 _.
  eapply reads_bind; [by apply reads_set_in, meta_key_nonempty|]. intros d9 _.
  eapply reads_bind; [apply reads_set_in, hash_key_nonempty|]. intros d10 _.
  destruct (fo_last _ _ _ _ Hok) as (lc & Elc & _ & [cb Hcb]). rewrite Elc.
  eapply reads_bind; [by apply reads_encode|]. intros d11 _. rewrite (int64_id (h - 1)) by done.
  eapply reads_bind; [apply reads_set_in; apply (oc_nonempty oc_law); ints|]. intros d12 _.
  eapply reads_bind; [by apply reads_encode|]. intros d13 _.
  eapply reads_bind; [apply reads_set_in; apply (oc_nonempty oc_law); ints|]. intros d14 _.
  assert (sets (block_kvs h b ps s) = ((((sets (part_kvs h ps 0 (Z.to_nat (partset.total ps))) ++
    [opSet (blockMetaKey h) mb]) ++ [opSet (blockHashKey (entry_hash (Full b ps s))) (format_int h)]) ++
    [opSet (blockCommitKey (h - 1)) cb]) ++ [opSet seenCommitKey sb]) ++ [opSet (seenCommitAtKey h) sb]) as ->.
  { unfold block_kvs, sets. rewrite map_app. cbn [map]. unfold meta_bytes. rewrite Em. cbn [mbind option_bind].
    rewrite Hmb, Elc, Hcb, Hsb. cbn [default fst snd]. by rewrite <- !app_assoc. }
  apply reads_set_in. apply (oc_nonempty oc_law); ints.
Qed.

(** Two keys of integers are equal for equal integers only. *)
Ltac same_key E :=
  unfold blockMetaKey, blockPartKey, blockCommitKey, seenCommitKey, seenCommitAtKey in E;
  apply oc_inj in E; [|ints|ints]; first [discriminate E | injection E as E | idtac].

(** A key with a hash is none of integers. *)
Ltac hash_key E :=
  first [apply str_ne in E; [done|done|done|ints|done]
        |symmetry in E; apply str_ne in E; [done|done|done|ints|done]].

Lemma elem_of_block_keys h b ps s k :
  k ∈ (block_kvs h b ps s).*1 ↔
    (∃ i, (Z.of_nat i < partset.total ps)%Z ∧ k = blockPartKey h (Z.of_nat i)) ∨ k = blockMetaKey h ∨
    k = blockHashKey (entry_hash (Full b ps s)) ∨ k = blockCommitKey (h - 1) ∨ k = seenCommitKey ∨
    k = seenCommitAtKey h.
Proof using.
  unfold block_kvs. rewrite fmap_app, elem_of_app. cbn [fmap list_fmap fst]. rewrite !elem_of_cons, elem_of_nil.
  assert (k ∈ (part_kvs h ps 0 (Z.to_nat (partset.total ps))).*1 ↔
          ∃ i, (Z.of_nat i < partset.total ps)%Z ∧ k = blockPartKey h (Z.of_nat i)) as ->; [|tauto].
  unfold part_kvs. rewrite list_elem_of_fmap. split.
  - intros ([k' v] & -> & Hin). apply list_elem_of_fmap in Hin as (j & [= -> ->] & Hj%elem_of_seq). exists j. split; [lia|done].
  - intros (i & Hi & ->). eexists. split; [|apply list_elem_of_fmap; exists i; split; [done|apply elem_of_seq; lia]]. done.
Qed.

Lemma block_keys_NoDup h b ps s :
  in_int64 h → in_int64 (h - 1)%Z → (partset.total ps < MaxInt64)%Z → NoDup (block_kvs h b ps s).*1.
Proof using oc_law str_law.
  intros Hh Hh' Ht. assert (∀ i, (Z.of_nat i < partset.total ps)%Z → in_int64 (Z.of_nat i)) as Hi.
  { intros i Hi. unfold in_int64. unfold_ints. lia. }
  unfold block_kvs. rewrite fmap_app. apply NoDup_app. split_and!.
  - unfold part_kvs. rewrite <- list_fmap_compose. apply NoDup_fmap_2_strong; [|apply NoDup_seq].
    intros i j Hi'%elem_of_seq Hj'%elem_of_seq E. cbn in E.
    assert (in_int64 (Z.of_nat i) ∧ in_int64 (Z.of_nat j)) as [? ?] by (split; apply Hi; lia). same_key E. lia.
  - intros k Hk Hk'. assert (∃ i, (Z.of_nat i < partset.total ps)%Z ∧ k = blockPartKey h (Z.of_nat i)) as (i & Hi' & ->).
    { apply list_elem_of_fmap in Hk as ([k' v] & -> & Hin). apply list_elem_of_fmap in Hin as (j & [= -> ->] & Hj%elem_of_seq).
      exists j. split; [lia|done]. }
    pose proof (Hi i Hi'). cbn [fmap list_fmap fst] in Hk'. rewrite !elem_of_cons, elem_of_nil in Hk'.
    destruct Hk' as [E|[E|[E|[E|[E|[]]]]]]; first [same_key E | hash_key E].
  - cbn [fmap list_fmap fst]. rewrite !NoDup_cons, !elem_of_cons, !elem_of_nil. split_and!; try apply NoDup_nil_2; try tauto;
      intros Hk; repeat destruct Hk as [E|Hk]; try done; first [same_key E | hash_key E].
Qed.

Definition upd (hist : Z → Entry) (h : Z) (e : Entry) : Z → Entry := λ h', if (h' =? h)%Z then e else hist h'.

Lemma upd_same hist h e : upd hist h e h = e.
Proof using. unfold upd. by rewrite Z.eqb_refl. Qed.

Lemma upd_other hist h e h' : h' ≠ h → upd hist h e h' = hist h'.
Proof using. intros Hne. unfold upd. by rewrite (proj2 (Z.eqb_neq _ _) Hne). Qed.

(** A key of another prefix is none of the range of the meta data. *)
Lemma not_meta p l :
  p ≠ prefixBlockMeta → in_int64 p → Forall in_int64 l →
  in_range (blockMetaKey 0) (blockMetaKey MaxInt64) (orderedcode (p :: l)) → False.
Proof using oc_law.
  intros Hp Ip Il [L1 L2].
  destruct (oc_range prefixBlockMeta [0%Z] [MaxInt64] (p :: l) ltac:(done) ltac:(ints) ltac:(ints)
    ltac:(by constructor) L1 L2) as (l' & [= E _] & _). done.
Qed.

(** The content after a block was saved. *)
Definition saved (h : Z) (b : Block) (ps : PartSet) (s : Commit) (m : gmap bytes bytes) : gmap bytes bytes :=
  foldl apply_op m (sets (block_kvs h b ps s)).

(** What a save leaves alone, and what it sets. *)
Record save_spec (h : Z) (b : Block) (ps : PartSet) (s : Commit) (m m' : gmap bytes bytes) : Prop := {
  ss_meta : m' !! blockMetaKey h = meta_bytes (Full b ps s);
  ss_meta_other h' : in_int64 h' → h' ≠ h → m' !! blockMetaKey h' = m !! blockMetaKey h';
  ss_keys k : in_range (blockMetaKey 0) (blockMetaKey MaxInt64) k → k ≠ blockMetaKey h → m' !! k = m !! k;
  ss_part i p : part_at ps i = Some p → (Z.of_nat i < partset.total ps)%Z →
    m' !! blockPartKey h (Z.of_nat i) = Part_Marshal p;
  ss_part_other h' i : in_int64 h' → in_int64 i → h' ≠ h → m' !! blockPartKey h' i = m !! blockPartKey h' i;
  ss_commit : m' !! blockCommitKey (h - 1) = Commit_Marshal (B_LastCommit b);
  ss_commit_other h' : in_int64 h' → h' ≠ (h - 1)%Z → m' !! blockCommitKey h' = m !! blockCommitKey h';
  ss_seenAt : m' !! seenCommitAtKey h = Commit_Marshal (Some s);
  ss_seenAt_other h' : in_int64 h' → h' ≠ h → m' !! seenCommitAtKey h' = m !! seenCommitAtKey h';
  ss_seen : m' !! seenCommitKey = Commit_Marshal (Some s);
  ss_hash : m' !! blockHashKey (entry_hash (Full b ps s)) = Some (format_int h);
  ss_hash_other hash : hash ≠ entry_hash (Full b ps s) → m' !! blockHashKey hash = m !! blockHashKey hash }.

Lemma saved_spec h b ps s m :
  entry_ok h (Full b ps s) → (1 ≤ h < MaxInt64)%Z → save_spec h b ps s m (saved h b ps s m).
Proof using oc_law str_law.
  intros He Hh. destruct (eo_meta _ _ He) as (mt & Em & [mb Hmb] & _). pose proof (eo_full _ _ He _ _ _ eq_refl) as Hok.
  assert (in_int64 h ∧ in_int64 (h - 1)%Z) as [Ih Ih'] by (unfold in_int64; unfold_ints; lia).
  pose proof (fo_total _ _ _ _ Hok) as [Ht _].
  assert (∀ i, (Z.of_nat i < partset.total ps)%Z → in_int64 (Z.of_nat i)) as Hi.
  { intros i Hi. unfold in_int64. unfold_ints. lia. }
  destruct (fo_last _ _ _ _ Hok) as (lc & Elc & _ & [cb Hcb]). destruct (fo_seen _ _ _ _ Hok) as [[_ [sb Hsb]] _].
  assert (∀ k v, (k, v) ∈ block_kvs h b ps s → saved h b ps s m !! k = Some v) as Hin.
  { intros k v Hk. apply sets_in; [|done]. apply block_keys_NoDup; [done|done|lia]. }
  assert (∀ k, k ∉ (block_kvs h b ps s).*1 → saved h b ps s m !! k = m !! k) as Hout by (intros; by apply sets_out).
  unfold block_kvs in Hin. assert (meta_bytes (Full b ps s) = Some mb) as Emb by (unfold meta_bytes; by rewrite Em).
  rewrite Emb, Elc, Hcb, Hsb in Hin. cbn [default] in Hin. split.
  - rewrite Emb. apply Hin, elem_of_app. right. by left.
  - intros h' Ih2 Hne. apply Hout. rewrite elem_of_block_keys. intros [(i & Hi' & E)|[E|[E|[E|[E|E]]]]];
      try (pose proof (Hi _ Hi')); first [same_key E | hash_key E]; done.
  - intros k [L1 L2] Hne. apply Hout. rewrite elem_of_block_keys. intros [(i & Hi' & ->)|[-> |[-> |[-> |[-> | ->]]]]]; try done.
    all: try pose proof (Hi _ Hi').
    all: try (refine (not_meta _ _ _ _ _ (conj L1 L2)); [done|done|ints]).
    exact (str_range prefixBlockHash prefixBlockMeta _ [0%Z] [MaxInt64] ltac:(done) ltac:(done) ltac:(ints) ltac:(ints) ltac:(done) L1 L2).
  - intros i p Ep Hi'. destruct (fo_parts _ _ _ _ Hok i Hi') as (p' & Ep' & _ & [bz Hbz]).
    assert (p' = p) as -> by congruence. rewrite Hbz. apply Hin, elem_of_app. left. apply list_elem_of_fmap. exists i.
    rewrite Ep. cbn. rewrite Hbz. split; [done|]. apply elem_of_seq. lia.
  - intros h' i Ih2 Ii Hne. apply Hout. rewrite elem_of_block_keys. intros [(j & Hj & E)|[E|[E|[E|[E|E]]]]];
      try (pose proof (Hi _ Hj)); first [same_key E | hash_key E]; done.
  - rewrite Elc, Hcb. apply Hin, elem_of_app. right. do 2 right. by left.
  - intros h' Ih2 Hne. apply Hout. rewrite elem_of_block_keys. intros [(i & Hi' & E)|[E|[E|[E|[E|E]]]]];
      try (pose proof (Hi _ Hi')); first [same_key E | hash_key E]; done.
  - rewrite Hsb. apply Hin, elem_of_app. right. do 4 right. by left.
  - intros h' Ih2 Hne. apply Hout. rewrite elem_of_block_keys. intros [(i & Hi' & E)|[E|[E|[E|[E|E]]]]];
      try (pose proof (Hi _ Hi')); first [same_key E | hash_key E]; done.
  - rewrite Hsb. apply Hin, elem_of_app. right. do 3 right. by left.
  - apply Hin, elem_of_app. right. right. by left.
  - intros hash Hne. apply Hout. rewrite elem_of_block_keys. intros [(i & Hi' & E)|[E|[E|[E|[E|E]]]]];
      try (pose proof (Hi _ Hi')); try hash_key E. by apply (kl_inj str_law) in E.
Qed.

(** The heights after a block was saved under [h]. *)
Definition base_with (base top h : Z) : Z := if decide (base ≤ top)%Z then base else h.

Lemma rep_saved base top hist seen m h b ps s :
  rep base top hist seen m → entry_ok h (Full b ps s) → (1 ≤ h < MaxInt64)%Z →
  ((base ≤ top)%Z → h = (top + 1)%Z) →
  (∀ h', (base ≤ h' ≤ top)%Z → entry_hash (hist h') ≠ entry_hash (Full b ps s)) →
  rep (base_with base top h) h (upd hist h (Full b ps s)) (Some s) (saved h b ps s m).
Proof using oc_law str_law.
  intros Hr He Hh Htop Hfresh. pose proof (saved_spec h b ps s m He Hh) as Hs.
  pose proof (eo_full _ _ He _ _ _ eq_refl) as Hok. pose proof (fo_total _ _ _ _ Hok) as [Ht _].
  set (m' := saved h b ps s m) in *. set (base' := base_with base top h).
  pose proof (rp_range _ _ _ _ _ Hr) as Hb.
  assert (1 ≤ base' ≤ h)%Z as Hb'.
  { unfold base', base_with. destruct (decide _) as [Hle|]; [specialize (Htop Hle)|]; lia. }
  assert (∀ h', (base' ≤ h' ≤ h)%Z ↔ h' = h ∨ (base ≤ h' ≤ top)%Z) as Hdom.
  { intros h'. unfold base', base_with. destruct (decide _) as [Hle|]; [specialize (Htop Hle)|]; lia. }
  assert (∀ h', (base ≤ h' ≤ top)%Z → h' ≠ h) as Hne by (intros h' Hh'; specialize (Htop ltac:(lia)); lia).
  assert (∀ h', (base' ≤ h' ≤ h)%Z → in_int64 h') as Hint by (intros h' Hh'; unfold in_int64; unfold_ints; lia).
  assert (∀ h', (base ≤ h' ≤ top)%Z → upd hist h (Full b ps s) h' = hist h') as Hold by (intros; by apply upd_other, Hne).
  destruct Hr as [_ R1 R2 R3 R4 R5 R6 R7 R8 R9 R10 R11 R12]. split.
  - lia.
  - intros h' [->|Hin]%Hdom; [by rewrite upd_same|]. rewrite Hold by done. by apply R1.
  - intros h1 h2 [->|H1']%Hdom [->|H2']%Hdom; rewrite ?upd_same, ?Hold by done; [done|..].
    + intros E. by destruct (Hfresh h2 H2').
    + intros E. by destruct (Hfresh h1 H1').
    + by apply R2.
  - intros h' Ih. destruct (decide (h' = h)) as [->|Hne'].
    + rewrite decide_True, upd_same by lia. apply Hs.
    + rewrite (ss_meta_other _ _ _ _ _ _ Hs h' Ih Hne'), R3 by done.
      rewrite upd_other by done. apply decide_ext. rewrite Hdom. naive_solver.
  - intros k Hk L1 L2. destruct (decide (k = blockMetaKey h)) as [->|Hk']; [exists h; split; [by apply Hint; lia|done]|].
    rewrite (ss_keys _ _ _ _ _ _ Hs k) in Hk by done. by apply R4.
  - intros h' i b' ps' s' p [->|Hin]%Hdom; [rewrite upd_same; intros [= <- <- <-]; by apply Hs|].
    rewrite Hold by done. intros Eb Ep Hi. rewrite (ss_part_other _ _ _ _ _ _ Hs); [by eapply R5|..|by apply Hne].
    + apply Hint. by apply Hdom; right.
    + pose proof (fo_total _ _ _ _ (eo_full _ _ (R1 h' Hin) _ _ _ Eb)) as [? _]. unfold in_int64. unfold_ints. lia.
  - intros h' b' ps' s' Hh'. destruct (decide (h' + 1 = h)%Z) as [E|Hne'].
    + rewrite E, upd_same. intros [= <- <- <-]. replace h' with (h - 1)%Z by lia. apply Hs.
    + assert (base ≤ h' < top)%Z as Hin by (pose proof (Hdom h'); specialize (Hdom (h' + 1)%Z); lia). rewrite Hold by lia. intros Eb.
      rewrite (ss_commit_other _ _ _ _ _ _ Hs); [by eapply R6|apply Hint; lia|lia].
  - intros h' hd c id hd' c' id' Hh'. destruct (decide (h' + 1 = h)%Z) as [E|Hne'].
    + rewrite E, upd_same. done.
    + assert (base ≤ h' < top)%Z as Hin by (pose proof (Hdom h'); specialize (Hdom (h' + 1)%Z); lia). rewrite !Hold by lia. intros Eb Eb'.
      rewrite (ss_commit_other _ _ _ _ _ _ Hs); [by eapply R7|apply Hint; lia|lia].
  - intros h' b' ps' s' [->|Hin]%Hdom; [rewrite upd_same; intros [= <- <- <-]; by apply Hs|].
    rewrite Hold by done. intros Eb. rewrite (ss_seenAt_other _ _ _ _ _ _ Hs); [by eapply R8|..|by apply Hne].
    apply Hint. by apply Hdom; right.
  - cbn. apply Hs.
  - intros c [= <-]. apply (fo_seen _ _ _ _ Hok).
  - intros h' b' ps' s' [->|Hin]%Hdom; [rewrite upd_same; intros _; apply Hs|].
    rewrite Hold by done. intros Eb. rewrite (ss_hash_other _ _ _ _ _ _ Hs) by by apply Hfresh. by eapply R11.
  - intros hash Hk. destruct (decide (hash = entry_hash (Full b ps s))) as [->|Hne'].
    + exists h, b, ps, s. rewrite upd_same. split_and!; [lia|lia|done|done].
    + rewrite (ss_hash_other _ _ _ _ _ _ Hs) in Hk by done. destruct (R12 hash Hk) as (h' & b' & ps' & s' & Hin & Eb & Eh).
      exists h', b', ps', s'. rewrite Hold by done. split_and!; [apply Hdom; by right..|done|done].
Qed.

Lemma writes_SaveBlock base top hist seen d h b ps s :
  rep base top hist seen (db_data d) → entry_ok h (Full b ps s) → (1 ≤ h < MaxInt64)%Z →
  ((base ≤ top)%Z → h = (top + 1)%Z) →
  writes (bs_SaveBlock (Some b) (Some ps) (Some s)) d tt (saved h b ps s (db_data d)).
Proof using oc_law str_law.
  intros Hr He Hh Htop. unfold bs_SaveBlock. eapply writes_bind; [by apply reads_must; eapply reads_saveBlockToBatch|].
  intros d' Hd. apply writes_must. unfold saved. rewrite <- Hd. apply writes_batch.
Qed.

Lemma meta_total m : BlockMetaFromProto m = Ok m → (PSH_Total (BlockID_PartSetHeader (Meta_BlockID m)) < MaxInt64)%Z.
Proof using.
  unfold BlockMetaFromProto. intros (id & Hid & _)%bind_Ok. apply wrap_err_Ok in Hid.
  unfold BlockIDFromProto in Hid. apply bind_Ok in Hid as (u & Hp & _). apply wrap_err_Ok in Hp.
  unfold PSH_ValidateBasic in Hp. destruct (_ >? _)%Z eqn:E; [done|]. rewrite Z.gtb_ltb in E. apply Z.ltb_ge in E.
  change MaxBlockPartsCount with 1601%Z in E. unfold_ints. lia.
Qed.

(** The commit seen last is replaced. *)
Lemma rep_seen base top hist seen m c bz :
  rep base top hist seen m → commit_ok c → Commit_Marshal (Some c) = Some bz →
  rep base top hist (Some c) (<[seenCommitKey := bz]> m).
Proof using oc_law str_law.
  intros Hr Hc Hbz. assert (∀ h, (base ≤ h ≤ top)%Z → in_int64 h) as Hint by (intros; by eapply rep_int).
  pose proof (rp_range _ _ _ _ _ Hr) as Hb. destruct Hr as [_ R1 R2 R3 R4 R5 R6 R7 R8 R9 R10 R11 R12].
  split; try done.
  - intros h Ih. rewrite lookup_insert_ne; [by apply R3|]. intros E. same_key E.
  - intros k Hk L1 L2. destruct (decide (seenCommitKey = k)) as [<-|Hne].
    + exfalso. refine (not_meta prefixSeenCommit [] _ _ _ (conj L1 L2)); [done|done|ints].
    + rewrite lookup_insert_ne in Hk by done. by apply R4.
  - intros h i b ps s p Hh Eb Ep Hi. pose proof (Hint h Hh).
    pose proof (fo_total _ _ _ _ (eo_full _ _ (R1 h Hh) _ _ _ Eb)) as [? _].
    assert (in_int64 (Z.of_nat i)) by (unfold in_int64; unfold_ints; lia).
    rewrite lookup_insert_ne; [by eapply R5|]. intros E. same_key E.
  - intros h b ps s Hh Eb. pose proof (Hint h ltac:(lia)). rewrite lookup_insert_ne; [by eapply R6|]. intros E. same_key E.
  - intros h hd c' id hd' c'' id' Hh Eb Eb'. pose proof (Hint h ltac:(lia)).
    rewrite lookup_insert_ne; [by eapply R7|]. intros E. same_key E.
  - intros h b ps s Hh Eb. pose proof (Hint h Hh). rewrite lookup_insert_ne; [by eapply R8|]. intros E. same_key E.
  - rewrite lookup_insert_eq. by rewrite <- Hbz.
  - by intros ? [= <-].
  - intros h b ps s Hh Eb. rewrite lookup_insert_ne; [by eapply R11|]. intros E. hash_key E.
  - intros hash Hk. apply R12. rewrite lookup_insert_ne in Hk; [done|]. intros E. hash_key E.
Qed.

Lemma writes_SaveSeenCommit c bz d :
  Commit_Marshal (Some c) = Some bz →
  writes (SaveSeenCommit (Some c)) d tt (<[seenCommitKey := bz]> (db_data d)).
Proof using oc_law.
  intros Hbz. unfold SaveSeenCommit, dbop, Set_. rewrite Hbz. rewrite bool_decide_eq_false_2.
  2: { apply (oc_nonempty oc_law); ints. }
  apply (writes_op ErrBSDB (λ m, <[seenCommitKey := bz]> m)).
Qed.

(** Fewer heights, of which everything is kept. *)
Record keeps (base top : Z) (hist : Z → Entry) (m m' : gmap bytes bytes) : Prop := {
  kp_meta h : in_int64 h → m' !! blockMetaKey h = if decide (base ≤ h ≤ top)%Z then m !! blockMetaKey h else None;
  kp_keys k : is_Some (m' !! k) → is_Some (m !! k);
  kp_part h i : (base ≤ h ≤ top)%Z → (0 ≤ i)%Z → in_int64 i → m' !! blockPartKey h i = m !! blockPartKey h i;
  kp_commit h : (base ≤ h < top)%Z → m' !! blockCommitKey h = m !! blockCommitKey h;
  kp_seenAt h : (base ≤ h ≤ top)%Z → m' !! seenCommitAtKey h = m !! seenCommitAtKey h;
  kp_seen : m' !! seenCommitKey = m !! seenCommitKey;
  kp_hash h : (base ≤ h ≤ top)%Z →
    m' !! blockHashKey (entry_hash (hist h)) = m !! blockHashKey (entry_hash (hist h)) }.

Lemma rep_keeps base top base' top' hist seen m m' :
  rep base top hist seen m → (base ≤ base' ∧ base' ≤ top' + 1 ∧ top' ≤ top)%Z → keeps base' top' hist m m' →
  (∀ h, (base ≤ h ≤ top)%Z → ¬ (base' ≤ h ≤ top')%Z → m' !! blockHashKey (entry_hash (hist h)) = None) →
  rep base' top' hist seen m'.
Proof using.
  intros Hr Hb [K1 K2 K3 K4 K5 K6 K7] Hgone. pose proof (rp_range _ _ _ _ _ Hr) as Hb0.
  destruct Hr as [_ R1 R2 R3 R4 R5 R6 R7 R8 R9 R10 R11 R12].
  assert (∀ h, (base' ≤ h ≤ top')%Z → (base ≤ h ≤ top)%Z) as Hin by lia. split.
  - lia.
  - intros h Hh. by apply R1, Hin.
  - intros h h' Hh Hh'. apply R2; by apply Hin.
  - intros h Ih. rewrite K1 by done. destruct (decide _) as [Hh|]; [|done]. rewrite R3 by done.
    by rewrite decide_True by by apply Hin.
  - intros k Hk. by apply R4, K2.
  - intros h i b ps s p Hh Eb Ep Hi. pose proof (fo_total _ _ _ _ (eo_full _ _ (R1 h (Hin h Hh)) _ _ _ Eb)) as [? _].
    rewrite K3 by (done || lia || (unfold in_int64; unfold_ints; lia)). eapply R5; [by apply Hin|done..].
  - intros h b ps s Hh Eb. rewrite K4 by done. eapply R6; [lia|done].
  - intros h hd c id hd' c' id' Hh Eb Eb'. rewrite K4 by done. eapply R7; [lia|done..].
  - intros h b ps s Hh Eb. rewrite K5 by done. eapply R8; [by apply Hin|done].
  - by rewrite K6.
  - done.
  - intros h b ps s Hh Eb. rewrite K7 by done. eapply R11; [by apply Hin|done].
  - intros hash Hk. destruct (R12 hash (K2 _ Hk)) as (h & b & ps & s & Hh & Eb & Eh). exists h, b, ps, s.
    split_and!; [..|done|done]; (destruct (decide (base' ≤ h ≤ top')%Z); [lia|]);
      rewrite <- Eh, Hgone in Hk by done; by destruct Hk.
Qed.

(** ** Deleting the last block *)

Definition part_keys (h : Z) (i n : nat) : list bytes := map (λ j, blockPartKey h (Z.of_nat j)) (seq i n).

Definition meta_parts (m : BlockMeta) : nat := Z.to_nat (PSH_Total (BlockID_PartSetHeader (Meta_BlockID m))).

(** Everything that is deleted for a height. *)
Definition entry_keys (h : Z) (e : Entry) : list bytes :=
  [blockHashKey (entry_hash e); blockMetaKey h] ++ part_keys h 0 (from_option meta_parts 0 (entry_meta e)) ++
  [blockCommitKey h; seenCommitAtKey h].

Lemma reads_delete_in (ops : list operation) key d :
  key ≠ [] → reads (delete_in (Some ops) key) d (Some (ops ++ [opDelete key]) : Batch).
Proof using.
  clear. intros Hk. unfold delete_in, lift_err, batch_Delete. rewrite bool_decide_eq_false_2 by done. apply reads_ret.
Qed.

Lemma reads_delete_parts h n i (ops : list operation) d :
  in_int64 h → (Z.of_nat (i + n) ≤ MaxInt64)%Z →
  reads (delete_parts n h (Z.of_nat i) (Some ops)) d (Some (ops ++ map opDelete (part_keys h i n)) : Batch).
Proof using oc_law.
  intros Hh. revert d i ops. induction n as [|n IH]; intros d i ops Hn; [rewrite app_nil_r; apply reads_ret|].
  cbn [delete_parts]. assert (in_int64 (Z.of_nat i)) by (unfold in_int64; unfold_ints; lia).
  eapply reads_bind; [apply reads_delete_in; apply (oc_nonempty oc_law); ints|]. intros d' _.
  replace (Z.of_nat i + 1)%Z with (Z.of_nat (S i)) by lia.
  assert (ops ++ map opDelete (part_keys h i (S n)) =
          (ops ++ [opDelete (blockPartKey h (Z.of_nat i))]) ++ map opDelete (part_keys h (S i) n)) as ->.
  { by rewrite <- app_assoc. }
  apply IH. lia.
Qed.

Lemma writes_DeleteBlock base top hist seen d h :
  rep base top hist seen (db_data d) → (base ≤ h ≤ top)%Z →
  writes (DeleteBlock h) d 1%Z (foldl apply_op (db_data d) (map opDelete (entry_keys h (hist h)))).
Proof using oc_law str_law codec.
  intros Hr Hh. pose proof (rp_range _ _ _ _ _ Hr) as Hb. assert (in_int64 h) as Ih by by eapply rep_int.
  destruct (eo_meta _ _ (rp_ok _ _ _ _ _ Hr h Hh)) as (mt & Em & _ & _ & Hp & _). pose proof (meta_total _ Hp) as Ht.
  unfold DeleteBlock. rewrite (proj2 (Z.leb_gt _ _)) by lia.
  eapply writes_bind; [by eapply reads_LoadBlockMeta|]. intros d1 Hd1. rewrite decide_True, Em by done.
  eapply writes_bind; [apply reads_delete_in, hash_key_nonempty|]. intros d2 Hd2.
  eapply writes_bind; [by apply reads_delete_in, meta_key_nonempty|]. intros d3 Hd3.
  eapply writes_bind; [apply (reads_delete_parts h _ 0); [done|unfold_ints; lia]|]. intros d4 Hd4.
  eapply writes_bind; [apply reads_delete_in; apply (oc_nonempty oc_law); ints|]. intros d5 Hd5.
  eapply writes_bind; [apply reads_delete_in; apply (oc_nonempty oc_law); ints|]. intros d6 Hd6.
  assert (∀ {A} (m : X unit) (a : A) d0 new, writes m d0 tt new → writes (m ≫= λ _, mret a) d0 a new) as Hret.
  { intros A m a d0 new (d' & r & E & Hq & Hc). unfold writes, mbind, M_bind. rewrite E.
    destruct r as [[]|e|]; eexists _, _; (split_and!; [done| |]); try naive_solver;
      destruct Hc as [[? ?]|[? ?]]; (by left) || by right. }
  apply Hret. rewrite <- Hd1, <- Hd2, <- Hd3, <- Hd4, <- Hd5, <- Hd6.
  unfold entry_keys, entry_hash. rewrite Em. cbn [from_option]. unfold meta_parts. rewrite !map_app. cbn [map app].
  rewrite <- !app_assoc. cbn [app]. apply writes_batch.
Qed.

Lemma elem_of_entry_keys h e k :
  k ∈ entry_keys h e ↔ k = blockHashKey (entry_hash e) ∨ k = blockMetaKey h ∨
    (∃ i, i < from_option meta_parts 0 (entry_meta e) ∧ k = blockPartKey h (Z.of_nat i)) ∨
    k = blockCommitKey h ∨ k = seenCommitAtKey h.
Proof using.
  unfold entry_keys. rewrite !elem_of_app, !elem_of_cons, elem_of_nil.
  assert (k ∈ part_keys h 0 (from_option meta_parts 0 (entry_meta e)) ↔
    ∃ i, i < from_option meta_parts 0 (entry_meta e) ∧ k = blockPartKey h (Z.of_nat i)) as ->; [|tauto].
  unfold part_keys. rewrite list_elem_of_fmap. split.
  - intros (j & -> & Hj%elem_of_seq). exists j. split; [lia|done].
  - intros (i & Hi & ->). exists i. split; [done|]. apply elem_of_seq. lia.
Qed.

Lemma rep_deleted base top hist seen m :
  rep base top hist seen m → (base ≤ top)%Z →
  rep base (top - 1) hist seen (foldl apply_op m (map opDelete (entry_keys top (hist top)))).
Proof using oc_law str_law.
  intros Hr Hle. pose proof (rp_range _ _ _ _ _ Hr) as Hb. set (m' := foldl _ _ _).
  assert (∀ h, (base ≤ h ≤ top)%Z → in_int64 h) as Hint by (intros; by eapply rep_int). pose proof (Hint top ltac:(lia)) as It.
  destruct (eo_meta _ _ (rp_ok _ _ _ _ _ Hr top ltac:(lia))) as (mt & Em & _ & _ & Hp & _). pose proof (meta_total _ Hp) as Ht.
  assert (∀ i, i < from_option meta_parts 0 (entry_meta (hist top)) → in_int64 (Z.of_nat i)) as Hi.
  { rewrite Em. cbn. unfold meta_parts. intros i Hi. unfold in_int64. unfold_ints. lia. }
  assert (∀ k, k ∉ entry_keys top (hist top) → m' !! k = m !! k) as Hout.
  { intros k Hk. unfold m'. rewrite deletes_lookup. by rewrite bool_decide_eq_false_2. }
  assert (∀ k, k ∈ entry_keys top (hist top) → m' !! k = None) as Hgone.
  { intros k Hk. unfold m'. rewrite deletes_lookup. by rewrite bool_decide_eq_true_2. }
  apply (rep_keeps base top base (top - 1) hist seen m); [done|lia| |].
  - split.
    + intros h Ih. destruct (decide (h = top)) as [->|Hne].
      * rewrite decide_False by lia. apply Hgone, elem_of_entry_keys. right. by left.
      * rewrite Hout.
        2: { rewrite elem_of_entry_keys. intros [E|[E|[(i & Hi' & E)|[E|E]]]]; try (pose proof (Hi _ Hi'));
               first [same_key E | hash_key E]; done. }
        destruct (decide _); [done|]. rewrite (rp_meta _ _ _ _ _ Hr h Ih). by rewrite decide_False by lia.
    + intros k [v Hv]. destruct (decide (k ∈ entry_keys top (hist top))) as [Hk|Hk]; [by rewrite Hgone in Hv|].
      rewrite Hout in Hv by done. by exists v.
    + intros h i Hh _ Ii. pose proof (Hint h ltac:(lia)). apply Hout. rewrite elem_of_entry_keys.
      intros [E|[E|[(j & Hj & E)|[E|E]]]]; try (pose proof (Hi _ Hj)); first [same_key E | hash_key E]; lia.
    + intros h Hh. pose proof (Hint h ltac:(lia)). apply Hout. rewrite elem_of_entry_keys.
      intros [E|[E|[(j & Hj & E)|[E|E]]]]; try (pose proof (Hi _ Hj)); first [same_key E | hash_key E]; lia.
    + intros h Hh. pose proof (Hint h ltac:(lia)). apply Hout. rewrite elem_of_entry_keys.
      intros [E|[E|[(j & Hj & E)|[E|E]]]]; try (pose proof (Hi _ Hj)); first [same_key E | hash_key E]; lia.
    + apply Hout. rewrite elem_of_entry_keys.
      intros [E|[E|[(j & Hj & E)|[E|E]]]]; try (pose proof (Hi _ Hj)); first [same_key E | hash_key E].
    + intros h Hh. apply Hout. rewrite elem_of_entry_keys. intros [E|[E|[(j & Hj & E)|[E|E]]]]; try (pose proof (Hi _ Hj)).
      2-5: hash_key E. apply (kl_inj str_law), (rp_inj _ _ _ _ _ Hr) in E; lia.
  - intros h Hh Hn. replace h with top by lia. apply Hgone, elem_of_entry_keys. by left.
Qed.

(** ** Headers below the first block *)

Definition header_saved (h : Z) (mb cb : bytes) (m : gmap bytes bytes) : gmap bytes bytes :=
  <[blockCommitKey h := cb]> (<[blockMetaKey h := mb]> m).

Definition is_light (e : Entry) : Prop := match e with Light _ _ _ => True | _ => False end.

Lemma writes_SaveSignedHeader base top hist seen d h hd c id mb cb :
  rep base top hist seen (db_data d) → entry_ok h (Light hd c id) → in_int64 h → ¬ (base ≤ h ≤ top)%Z →
  meta_bytes (Light hd c id) = Some mb → Commit_Marshal (Some c) = Some cb →
  writes (SaveSignedHeader hd (Some c) id) d tt (header_saved h mb cb (db_data d)).
Proof using oc_law.
  intros Hr He Ih Hn Hmb Hcb. destruct (eo_meta _ _ He) as (mt & Em & _ & _ & _ & Eh). injection Em as <-. cbn in Eh.
  unfold SaveSignedHeader. rewrite Eh. eapply writes_bind; [by apply reads_Get, meta_key_nonempty|]. intros d1 Hd1.
  rewrite (rp_meta _ _ _ _ _ Hr h Ih), decide_False by done.
  eapply writes_bind; [apply reads_encode, Hmb|]. intros d2 Hd2.
  eapply writes_bind; [by apply reads_set_in, meta_key_nonempty|]. intros d3 Hd3.
  eapply writes_bind; [apply reads_encode, Hcb|]. intros d4 Hd4.
  eapply writes_bind; [apply reads_set_in; apply (oc_nonempty oc_law); ints|]. intros d5 Hd5.
  rewrite <- Hd1, <- Hd2, <- Hd3, <- Hd4, <- Hd5. apply writes_batch.
Qed.

Lemma rep_header base top hist seen m h hd c id mb cb :
  rep base top hist seen m → entry_ok h (Light hd c id) → (1 ≤ h < MaxInt64)%Z →
  ((base ≤ top)%Z → h = (base - 1)%Z ∧ is_light (hist base)) →
  (∀ h', (base ≤ h' ≤ top)%Z → entry_hash (hist h') ≠ entry_hash (Light hd c id)) →
  meta_bytes (Light hd c id) = Some mb → Commit_Marshal (Some c) = Some cb →
  rep h (if decide (base ≤ top)%Z then top else h) (upd hist h (Light hd c id)) seen (header_saved h mb cb m).
Proof using oc_law str_law.
  intros Hr He Hh Hbase Hfresh Hmb Hcb. set (top' := if decide _ then _ else _). set (m' := header_saved _ _ _ _).
  pose proof (rp_range _ _ _ _ _ Hr) as Hb.
  assert (h ≤ top' < MaxInt64)%Z as Ht by (unfold top'; destruct (decide _) as [Hle|]; [specialize (Hbase Hle)|]; lia).
  assert (∀ h', (h ≤ h' ≤ top')%Z ↔ h' = h ∨ (base ≤ h' ≤ top)%Z) as Hdom.
  { intros h'. unfold top'. destruct (decide _) as [Hle|]; [specialize (Hbase Hle)|]; lia. }
  assert (∀ h', (base ≤ h' ≤ top)%Z → h' ≠ h) as Hne by (intros h' Hh'; destruct (Hbase ltac:(lia)); lia).
  assert (∀ h', (h ≤ h' ≤ top')%Z → in_int64 h') as Hint by (intros h' Hh'; unfold in_int64; unfold_ints; lia).
  pose proof (Hint h ltac:(lia)) as Ih.
  assert (∀ h', (base ≤ h' ≤ top)%Z → upd hist h (Light hd c id) h' = hist h') as Hold by (intros; by apply upd_other, Hne).
  assert (∀ k, k ≠ blockCommitKey h → k ≠ blockMetaKey h → m' !! k = m !! k) as Hout.
  { intros k H1' H2'. unfold m', header_saved. by rewrite !lookup_insert_ne by congruence. }
  assert (m' !! blockCommitKey h = Some cb) as Hck by apply lookup_insert_eq.
  assert (m' !! blockMetaKey h = Some mb) as Hmk.
  { unfold m', header_saved. rewrite lookup_insert_ne; [apply lookup_insert_eq|]. intros E. same_key E. }
  destruct Hr as [_ R1 R2 R3 R4 R5 R6 R7 R8 R9 R10 R11 R12]. split.
  - lia.
  - intros h' [->|Hin]%Hdom; [by rewrite upd_same|]. rewrite Hold by done. by apply R1.
  - intros h1 h2 [->|H1']%Hdom [->|H2']%Hdom; rewrite ?upd_same, ?Hold by done; [done|..].
    + intros E. by destruct (Hfresh h2 H2').
    + intros E. by destruct (Hfresh h1 H1').
    + by apply R2.
  - intros h' Ih'. destruct (decide (h' = h)) as [->|Hne'].
    + by rewrite decide_True, upd_same, Hmk by lia.
    + rewrite Hout, R3, upd_other by (done || intros E; same_key E; done).
      apply decide_ext. rewrite Hdom. naive_solver.
  - intros k Hk L1 L2. destruct (decide (k = blockMetaKey h)) as [->|Hk']; [by exists h|].
    rewrite Hout in Hk; [by apply R4| |done]. intros ->.
    refine (not_meta prefixBlockCommit [h] _ _ _ (conj L1 L2)); [done|done|ints].
  - intros h' i b ps s p [->|Hin]%Hdom; [by rewrite upd_same|]. rewrite Hold by done. intros Eb Ep Hi.
    pose proof (fo_total _ _ _ _ (eo_full _ _ (R1 h' Hin) _ _ _ Eb)) as [? _].
    assert (in_int64 (Z.of_nat i)) by (unfold in_int64; unfold_ints; lia).
    assert (in_int64 h') by (apply Hint; apply Hdom; by right).
    rewrite Hout by (intros E; same_key E). by eapply R5.
  - intros h' b ps s Hh' Eb. assert (base ≤ top)%Z as Hle by (unfold top' in *; destruct (decide _); lia).
    destruct (Hbase Hle) as [-> Hl]. assert (top' = top) as Et by (unfold top'; by rewrite decide_True).
    destruct (decide (h' = base - 1)%Z) as [->|Hne'].
    { replace (base - 1 + 1)%Z with base in Eb by lia. rewrite Hold in Eb by lia. by rewrite Eb in Hl. }
    rewrite Hold in Eb by lia. assert (in_int64 h') by (apply Hint; lia).
    rewrite Hout by (intros E; same_key E; lia). eapply R6; [lia|done].
  - intros h' hd1 c1 id1 hd2 c2 id2 Hh' Eb Eb'.
    assert (base ≤ top)%Z as Hle by (unfold top' in *; destruct (decide _); lia).
    destruct (Hbase Hle) as [-> Hl]. assert (top' = top) as Et by (unfold top'; by rewrite decide_True).
    destruct (decide (h' = base - 1)%Z) as [->|Hne'].
    { rewrite upd_same in Eb. injection Eb as <- <- <-. by rewrite Hck. }
    rewrite Hold in Eb, Eb' by lia. assert (in_int64 h') by (apply Hint; lia).
    rewrite Hout by (intros E; same_key E; lia). eapply R7; [lia|done|done].
  - intros h' b ps s [->|Hin]%Hdom; [by rewrite upd_same|]. rewrite Hold by done. intros Eb.
    assert (in_int64 h') by (apply Hint; apply Hdom; by right). rewrite Hout by (intros E; same_key E). by eapply R8.
  - by rewrite Hout by (intros E; same_key E).
  - done.
  - intros h' b ps s [->|Hin]%Hdom; [by rewrite upd_same|]. rewrite Hold by done. intros Eb.
    rewrite Hout by (intros E; hash_key E). by eapply R11.
  - intros hash Hk. rewrite Hout in Hk by (intros E; hash_key E).
    destruct (R12 hash Hk) as (h' & b & ps & s & Hin & Eb & Eh). exists h', b, ps, s. rewrite Hold by done.
    split_and!; [apply Hdom; by right..|done|done].
Qed.

(** ** Pruning *)

Lemma iter_unique m s e (l : list item) :
  StronglySorted item_le l → NoDup l.*1 →
  (∀ k v, (k, v) ∈ l ↔ m !! k = Some v ∧ in_range s e k) → newMemDBIterator m (Some s) (Some e) false = l.
Proof using.
  clear. intros Hs Hn Hl.
  assert (StronglySorted item_le (newMemDBIterator m (Some s) (Some e) false)) as Hs'.
  { rewrite newMemDBIterator_spec. apply StronglySorted_filter, ascend_sorted. }
  assert (NoDup (newMemDBIterator m (Some s) (Some e) false)) as Hn'.
  { rewrite newMemDBIterator_spec. apply NoDup_filter. eapply NoDup_fmap_1, ascend_NoDup. }
  apply (StronglySorted_unique_strong item_le); [|done|done|].
  - intros [k v] [k' v'] H1' H2' L1 L2. rewrite elem_of_iter in H1'. rewrite Hl in H2'.
    assert (k = k') as -> by by apply (anti_symm bytes_le). f_equal. naive_solver congruence.
  - apply NoDup_Permutation; [done|by eapply NoDup_fmap_1|]. intros [k v]. by rewrite elem_of_iter, Hl.
Qed.

(** What a hook adds to a batch for an item. *)
Definition hook_deletes (hk : hook) (extra : item → list bytes) (P : item → Prop) : Prop :=
  ∀ x (ops : list operation), P x → hk x (Some ops) = Ok (Some (ops ++ map opDelete (extra x)) : Batch).

Definition del_keys (extra : item → list bytes) (l : list item) : list bytes :=
  List.concat (map (λ x, extra x ++ [x.1]) l).

Lemma del_keys_app extra l1 l2 : del_keys extra (l1 ++ l2) = del_keys extra l1 ++ del_keys extra l2.
Proof using. unfold del_keys. by rewrite map_app, List.concat_app. Qed.

Lemma elem_of_del_keys extra l k : k ∈ del_keys extra l ↔ ∃ x, x ∈ l ∧ (k = x.1 ∨ k ∈ extra x).
Proof using.
  clear. unfold del_keys. induction l as [|x l IH]; cbn.
  - rewrite elem_of_nil. split; [done|]. intros (x & Hx%elem_of_nil & _). done.
  - rewrite elem_of_app, IH, elem_of_app, list_elem_of_singleton. setoid_rewrite elem_of_cons. naive_solver.
Qed.

Lemma delete_items_ok hk extra (P : item → Prop) (l : list item) (ops : list operation) :
  hook_deletes hk extra P → Forall P l → Forall (λ x, x.1 ≠ []) l →
  delete_items hk l (Some ops) = Ok (Some (ops ++ map opDelete (del_keys extra l)) : Batch).
Proof using.
  clear. intros Hh HP Hn. revert ops. induction l as [|x l IH]; intros ops; [by rewrite app_nil_r|].
  apply Forall_cons in HP as [Px HP]. apply Forall_cons in Hn as [Hx Hn]. cbn [delete_items].
  rewrite (Hh x ops Px). orun. unfold batch_Delete. rewrite bool_decide_eq_false_2 by done. cbn [wrap_err]. orun.
  rewrite IH by done. f_equal. f_equal. rewrite <- !app_assoc. unfold del_keys. cbn [map List.concat].
  by rewrite <- app_assoc, !map_app.
Qed.

Lemma reads_batchDelete hk extra P start stop d :
  start ≠ [] → stop ≠ [] → hook_deletes hk extra P →
  Forall P (newMemDBIterator (db_data d) (Some start) (Some stop) false) →
  let items := take batch_keys (newMemDBIterator (db_data d) (Some start) (Some stop) false) in
  reads (batchDelete NewBatch start stop hk) d
    (Z.of_nat (length items), from_option fst stop (items !! (batch_keys - 1)),
     Some (map opDelete (del_keys extra items)) : Batch).
Proof using.
  clear. intros Hs He Hh HP items. unfold batchDelete. eapply reads_bind; [by apply reads_iterate|]. intros d1 Hd1.
  assert (Forall (λ x : item, x.1 ≠ []) items) as Hn.
  { apply Forall_take, Forall_forall. intros [k v] [_ [Hle _]]%elem_of_iter. cbn. intros ->. apply Hs.
    apply (anti_symm bytes_le); [done|apply bytes_le_nil]. }
  eapply reads_bind; [apply reads_lift, (delete_items_ok hk extra P); [done|by apply Forall_take|done]|].
  intros d2 _. eapply reads_bind; [apply reads_iter_Error|]. intros d3 _. apply reads_ret.
Qed.

(** The content without the first [n] items of a range. *)
Definition without (extra : item → list bytes) (L : list item) (n : nat) (m : gmap bytes bytes) : gmap bytes bytes :=
  foldl apply_op m (map opDelete (del_keys extra (take n L))).

Lemma without_lookup extra L n m k :
  without extra L n m !! k = if bool_decide (k ∈ del_keys extra (take n L)) then None else m !! k.
Proof using. clear. apply deletes_lookup. Qed.

Lemma without_step extra L n j m :
  without extra L (n + j) m = foldl apply_op (without extra L n m) (map opDelete (del_keys extra (take j (drop n L)))).
Proof using.
  clear. unfold without. rewrite <- foldl_app, <- map_app, <- del_keys_app.
  by rewrite take_take_drop.
Qed.

(** No item of the range is deleted for another. *)
Definition apart (start stop : bytes) (extra : item → list bytes) (L : list item) : Prop :=
  ∀ x k, x ∈ L → k ∈ extra x → ¬ in_range start stop k.

Lemma iter_sorted_fwd m start stop :
  StronglySorted item_le (newMemDBIterator m (Some start) (Some stop) false) ∧
  NoDup (newMemDBIterator m (Some start) (Some stop) false).*1.
Proof using.
  clear. rewrite newMemDBIterator_spec. split; [apply StronglySorted_filter, ascend_sorted|].
  eapply sublist_NoDup; [apply ascend_NoDup|]. apply fmap_sublist, sublist_filter.
Qed.

Lemma sorted_app_r {A} (R : A → A → Prop) (l1 l2 : list A) : StronglySorted R (l1 ++ l2) → StronglySorted R l2.
Proof using. clear. induction l1 as [|x l1 IH]; [done|]. cbn. intros [Hs _]%StronglySorted_inv. by apply IH. Qed.

(** Going on from the last item that was deleted. *)
Lemma iter_drop extra m start stop n start' v :
  let L := newMemDBIterator m (Some start) (Some stop) false in
  apart start stop extra L → L !! n = Some (start', v) →
  newMemDBIterator (without extra L (S n) m) (Some start') (Some stop) false = drop (S n) L.
Proof using.
  clear. intros L Ha Hn. destruct (iter_sorted_fwd m start stop) as [Hs Hd]. fold L in Hs, Hd.
  assert (∀ k v, (k, v) ∈ L ↔ m !! k = Some v ∧ in_range start stop k) as HL by (intros; apply elem_of_iter).
  assert (L = take (S n) L ++ drop (S n) L) as EL by by rewrite take_drop.
  assert (in_range start stop start') as [Hs1 _] by (apply (HL start' v); by eapply list_elem_of_lookup_2).
  apply iter_unique.
  - rewrite EL in Hs. by apply sorted_app_r in Hs.
  - rewrite EL, fmap_app in Hd. by apply NoDup_app in Hd as (_ & _ & ?).
  - intros k w. rewrite without_lookup. split.
    + intros Hin. assert ((k, w) ∈ L) as HinL by (rewrite EL; apply elem_of_app; by right). pose proof (proj1 (HL k w) HinL) as [Hm [R1 R2]].
      rewrite bool_decide_eq_false_2.
      * split; [done|]. split; [|done]. apply list_elem_of_lookup in Hin as [i Hi]. rewrite lookup_drop in Hi.
        apply (sorted_lookup item_le L n (S n + i) (start', v) (k, w)); [done|lia|done|done].
      * rewrite elem_of_del_keys. intros (x & Hx & [->|He]).
        -- rewrite EL, fmap_app in Hd. apply NoDup_app in Hd as (_ & Hd & _).
           apply (Hd x.1); [by apply list_elem_of_fmap_2|]. by apply (list_elem_of_fmap_2 fst _ (x.1, w)).
        -- apply (Ha x k); [rewrite EL; apply elem_of_app; by left|done|done].
    + intros [Hm [R1 R2]]. case_bool_decide as Hk; [done|].
      assert ((k, w) ∈ L) as Hin by (apply HL; split; [done|split; [by trans start'|done]]).
      rewrite EL in Hin. apply elem_of_app in Hin as [Hin|]; [|done]. destruct Hk. apply elem_of_del_keys.
      exists (k, w). split; [done|by left].
Qed.

(** What a prune of a range comes to: the first items are gone, all of them when it succeeds. *)
Definition prune_result (extra : item → list bytes) (L : list item) (m : gmap bytes bytes) (c : X Z) (d : DB) : Prop :=
  ∃ d' r j, c d = (d', r) ∧ db_data d' = without extra L j m ∧ r ≠ Panic ∧
    (∀ n, r = Ok n → n = Z.of_nat (length L) ∧ length L ≤ j) ∧
    (quiet d → quiet d' ∧ r = Ok (Z.of_nat (length L))).

Lemma prune_result_reads {A} extra L m (c : X A) (f : A → X Z) d a n :
  db_data d = without extra L n m → reads c d a → (∀ d0, (c d).2 ≠ Panic ∧ (db_data d0 = db_data d → prune_result extra L m (f a) d0)) →
  prune_result extra L m (c ≫= f) d.
Proof using.
  intros Hd (d1 & r1 & E1 & Hd1 & Hq1 & Hr1) Hf. destruct (Hf d1) as [Hp Hf1]. unfold prune_result, mbind, M_bind.
  rewrite E1 in *. cbn in Hp. destruct r1 as [a'|e|]; [|..|done].
  - rewrite (Hr1 a' eq_refl) in *. destruct (Hf1 Hd1) as (d2 & r2 & j & E2 & Hd2 & Hr2 & Hn2 & Hq2). rewrite E2.
    exists d2, r2, j. split_and!; [done|done|naive_solver..].
  - exists d1, (Err e), n. split_and!; [done|by rewrite Hd1|done|done|naive_solver].
Qed.

Lemma batchDelete_no_panic hk extra P start stop d :
  start ≠ [] → hook_deletes hk extra P → Forall P (newMemDBIterator (db_data d) (Some start) (Some stop) false) →
  (batchDelete NewBatch start stop hk d).2 ≠ Panic.
Proof using.
  clear. intros Hs Hh HP. unfold batchDelete, mbind, M_bind, dbop, Iterator, iterate.
  destruct (_ || _); [done|]. unfold op at 1. destruct (fault _); [done|]. cbn [wrap_err]. unfold lift, NewBatch.
  rewrite (delete_items_ok hk extra P); [|done|by apply Forall_take|].
  - unfold iter_Error, op. by destruct (fault _).
  - apply Forall_take, Forall_forall. intros [k v] [_ [Hle _]]%elem_of_iter. cbn. intros ->. apply Hs.
    apply (anti_symm bytes_le); [done|apply bytes_le_nil].
Qed.

Lemma bprune_loop_spec hk extra P m start stop fuel n d :
  let L := newMemDBIterator m (Some start) (Some stop) false in
  let items := take batch_keys (drop n L) in
  start ≠ [] → stop ≠ [] → hook_deletes hk extra P → Forall P L →
  apart start stop extra L → db_data d = without extra L n m → n ≤ length L → length L - n < fuel →
  prune_result extra L m
    (bprune_loop fuel (from_option fst stop (items !! (batch_keys - 1))) stop hk (Z.of_nat (length items)) (Z.of_nat n)
       (Some (map opDelete (del_keys extra items)))) d.
Proof using.
  intros L items Hs He Hh HP Ha. subst items. revert n d. induction fuel as [|fuel IH]; intros n d Hd Hn Hf; [lia|].
  set (items := take batch_keys (drop n L)). cbn [bprune_loop]. unfold prune_result, mbind, M_bind, dbop at 1, batch_Write.
  destruct (op_data (λ m, (foldl apply_op m (map opDelete (del_keys extra items)), tt)) d) as [[e Eo]|Eo].
  { rewrite Eo. exists (mkDB (db_data d) (S (db_ops d))), (Err (ErrBSDB e)), n. split_and!; [done|done|done|done|].
    intros Hq. destruct (op_quiet (λ m, (foldl apply_op m (map opDelete (del_keys extra items)), tt)) d Hq) as (d' & E' & _). congruence. }
  rewrite Eo. cbn [fst snd wrap_err]. set (d1 := mkDB _ _).
  assert (db_data d1 = without extra L (n + batch_keys) m) as Hd1 by (unfold d1; cbn; rewrite Hd; symmetry; apply without_step).
  assert (quiet d → quiet d1) as Hq1 by (intros Hq k Hk; apply Hq; cbn in Hk; lia).
  assert (length items = min batch_keys (length L - n)) as Hlen by (unfold items; by rewrite length_take, length_drop).
  destruct (items !! (batch_keys - 1)) as [[k v]|] eqn:Ei; cbn [from_option fst].
  - assert (L !! (n + (batch_keys - 1)) = Some (k, v)) as EL.
    { unfold items in Ei. rewrite lookup_take_lt, lookup_drop in Ei by (unfold batch_keys; lia). done. }
    assert (in_range start stop k) as [_ Hlt] by (apply (elem_of_iter m _ _ false k v); by eapply list_elem_of_lookup_2).
    apply bytes_ltb_lt in Hlt as [_ Hne]. rewrite bool_decide_eq_false_2 by done.
    assert (n + (batch_keys - 1) < length L) as HlL by exact (lookup_lt_Some _ _ _ EL).
    assert (newMemDBIterator (db_data d1) (Some k) (Some stop) false = drop (n + batch_keys) L) as Eit.
    { rewrite Hd1. pose proof (iter_drop extra m start stop _ k v Ha EL) as Hit.
      by replace (S (n + (batch_keys - 1))) with (n + batch_keys) in Hit by (unfold batch_keys; lia). }
    assert (k ≠ []) as Hk.
    { intros ->. apply Hs. apply (anti_symm bytes_le); [|apply bytes_le_nil].
      by apply (elem_of_iter m start stop false [] v), list_elem_of_lookup_2 with (n + (batch_keys - 1)). }
    pose proof (reads_batchDelete hk extra P k stop d1 Hk He Hh) as Hb. rewrite Eit in Hb.
    specialize (Hb ltac:(by apply Forall_drop)). rewrite Hlen.
    assert (Z.of_nat n + Z.of_nat (min batch_keys (length L - n)) = Z.of_nat (n + batch_keys))%Z as ->.
    { unfold batch_keys in *. lia. }
    assert (prune_result extra L m (batchDelete NewBatch k stop hk ≫= λ '(pruned, start, batch),
      bprune_loop fuel start stop hk pruned (Z.of_nat (n + batch_keys)) batch) d1) as (d2 & r2 & j & E2 & Hd2 & Hr2 & Hn2 & Hq2).
    { eapply prune_result_reads; [exact Hd1|exact Hb|]. intros d0. split.
      { apply (batchDelete_no_panic hk extra P); [done|done|]. rewrite Eit. by apply Forall_drop. }
      intros Hd0. apply IH; [by rewrite Hd0|unfold batch_keys in *; lia..]. }
    exists d2, r2, j. split_and!; [exact E2|done|done|done|naive_solver].
  - rewrite bool_decide_eq_true_2 by done. assert (length items ≤ batch_keys - 1) as Hle by exact (proj1 (lookup_ge_None _ _) Ei).
    eexists d1, (Ok _), (n + batch_keys). split_and!; [done|done|done| |].
    + intros c [= <-]. split; unfold batch_keys in *; lia.
    + intros Hq. split; [by apply Hq1|]. f_equal. unfold batch_keys in *. lia.
Qed.

Lemma iter_length m start stop backward : length (newMemDBIterator m (Some start) (Some stop) backward) ≤ size m.
Proof using.
  clear. rewrite newMemDBIterator_spec. set (P := in_domain _ _).
  assert (length (direct backward (filter (λ x, P x) (ascend m))) = length (filter (λ x, P x) (ascend m))) as ->.
  { destruct backward; [apply length_reverse|done]. }
  etrans; [apply length_filter|]. rewrite (Permutation_length (ascend_perm m)). exact (Nat.eq_le_incl _ _ (length_map_to_list m)).
Qed.

Lemma bs_pruneRange_spec hk extra P start stop d :
  let L := newMemDBIterator (db_data d) (Some start) (Some stop) false in
  start ≠ [] → stop ≠ [] → hook_deletes hk extra P → Forall P L → apart start stop extra L →
  prune_result extra L (db_data d) (bs_pruneRange start stop hk) d.
Proof using.
  intros L Hs He Hh HP Ha.
  enough (prune_result extra L (db_data d) (batchDelete NewBatch start stop hk ≫= λ '(pruned, start, batch),
    bprune_loop (S (size (db_data d))) start stop hk pruned 0 batch) d) as Hp by exact Hp.
  eapply (prune_result_reads extra L (db_data d) _ _ _ _ 0); [done|by apply (reads_batchDelete hk extra P)|].
  intros d0. split; [by apply (batchDelete_no_panic hk extra P)|]. intros Hd0.
  apply (bprune_loop_spec hk extra P (db_data d) start stop _ 0); try done; [lia|].
  assert (length L ≤ size (db_data d)) by exact (iter_length (db_data d) start stop false). fold L. lia.
Qed.

Lemma without_out extra L n m k :
  k ∉ L.*1 → (∀ x, x ∈ L → k ∉ extra x) → without extra L n m !! k = m !! k.
Proof using.
  intros Hk He. rewrite without_lookup, bool_decide_eq_false_2; [done|]. rewrite elem_of_del_keys.
  assert (∀ x, x ∈ take n L → x ∈ L) as Ht.
  { intros x Hx. rewrite <- (take_drop n L). apply elem_of_app. by left. }
  intros (x & Hx%Ht & [->|Hx']); [|by apply (He x)]. apply Hk. by apply list_elem_of_fmap_2.
Qed.

Lemma not_listed m start stop k : ¬ in_range start stop k → k ∉ (newMemDBIterator m (Some start) (Some stop) false).*1.
Proof using. clear. intros Hn ([k' v] & -> & Hin)%list_elem_of_fmap. apply elem_of_iter in Hin as [_ Hin]. done. Qed.

Definition no_extra : item → list bytes := λ _, [].

Lemma no_hook_deletes P : hook_deletes no_hook no_extra P.
Proof using. intros x ops _. unfold no_hook, no_extra. cbn. by rewrite app_nil_r. Qed.

(** A range of keys is pruned that the heights from [base] on have no part in. *)
Lemma range_pruned base top hist seen start stop d :
  rep base top hist seen (db_data d) → start ≠ [] → stop ≠ [] →
  (∀ k, in_range start stop k → (∀ h, in_int64 h → k ≠ blockMetaKey h) ∧
     (∀ h i, (base ≤ h ≤ top)%Z → (0 ≤ i)%Z → in_int64 i → k ≠ blockPartKey h i) ∧
     (∀ h, (base ≤ h < top)%Z → k ≠ blockCommitKey h) ∧ (∀ h, (base ≤ h ≤ top)%Z → k ≠ seenCommitAtKey h) ∧
     k ≠ seenCommitKey ∧ ∀ hash, k ≠ blockHashKey hash) →
  ∃ d' r, bs_pruneRange start stop no_hook d = (d', r) ∧ rep base top hist seen (db_data d') ∧
    (∀ k, ¬ in_range start stop k → db_data d' !! k = db_data d !! k) ∧ r ≠ Panic ∧
    (∀ n, r = Ok n → ∀ k, in_range start stop k → db_data d' !! k = None) ∧ (quiet d → quiet d' ∧ ∃ n, r = Ok n).
Proof using.
  intros Hr Hs He Hk. pose proof (rp_range _ _ _ _ _ Hr) as Hb.
  set (L := newMemDBIterator (db_data d) (Some start) (Some stop) false).
  destruct (bs_pruneRange_spec no_hook no_extra (λ _, True) start stop d) as (d' & r & j & E & Hd & Hp & Hn & Hq);
    [done|done|apply no_hook_deletes|by apply Forall_forall|by intros x k _ ?%elem_of_nil|]. fold L in Hd, Hn, Hq.
  assert (∀ k, ¬ in_range start stop k → db_data d' !! k = db_data d !! k) as Hout.
  { intros k Hn'. rewrite Hd. apply without_out; [by apply not_listed|]. intros x _. apply not_elem_of_nil. }
  exists d', r. split_and!; [done| |done|done| |].
  - apply (rep_keeps base top base top hist seen (db_data d)); [done|lia| |lia]. split.
    + intros h Ih. rewrite Hout by (intros Hin; by apply (proj1 (Hk _ Hin) h)).
      destruct (decide _); [done|]. rewrite (rp_meta _ _ _ _ _ Hr h Ih). by rewrite decide_False.
    + intros k [v Hv]. rewrite Hd, without_lookup in Hv. case_bool_decide; [done|by exists v].
    + intros h i Hh Hi Ii. apply Hout. intros Hin. by apply (proj1 (proj2 (Hk _ Hin)) h i).
    + intros h Hh. apply Hout. intros Hin. by apply (proj1 (proj2 (proj2 (Hk _ Hin))) h).
    + intros h Hh. apply Hout. intros Hin. by apply (proj1 (proj2 (proj2 (proj2 (Hk _ Hin)))) h).
    + apply Hout. intros Hin. by apply (Hk _ Hin).
    + intros h Hh. apply Hout. intros Hin. by apply (proj2 (proj2 (proj2 (proj2 (proj2 (Hk _ Hin))))) (entry_hash (hist h))).
  - intros n Er k Hin. destruct (Hn n Er) as [_ Hj]. rewrite Hd, without_lookup. case_bool_decide as Hd'; [done|].
    destruct (db_data d !! k) as [v|] eqn:Ek; [|done]. destruct Hd'. apply elem_of_del_keys. exists (k, v).
    split; [|by left]. rewrite take_ge by exact Hj. by apply elem_of_iter.
  - intros Hq'. destruct (Hq Hq') as [? ->]. split; [done|by eexists].
Qed.

(** The meta data below a height. *)
Definition meta_item (hist : Z → Entry) (h : Z) : item := (blockMetaKey h, default [] (meta_bytes (hist h))).

Lemma metas_sorted hist a n :
  in_int64 a → in_int64 (a + Z.of_nat n)%Z →
  StronglySorted item_le (map (meta_item hist) (seqZ a (Z.of_nat n))) ∧ NoDup (map (meta_item hist) (seqZ a (Z.of_nat n))).*1.
Proof using oc_law.
  intros Ia In. assert (∀ h, h ∈ seqZ a (Z.of_nat n) → in_int64 h) as Hint.
  { intros h Hh%elem_of_seqZ. unfold in_int64 in *. lia. }
  split.
  - revert a Ia In Hint. induction n as [|n IH]; intros a Ia In Hint; [constructor|].
    rewrite seqZ_cons by lia. replace (Z.pred (Z.of_nat (S n))) with (Z.of_nat n) by lia. cbn. constructor.
    + apply IH; [unfold in_int64 in *; lia|unfold in_int64 in *; lia|]. intros h Hh. apply Hint.
      rewrite seqZ_cons by lia. replace (Z.pred (Z.of_nat (S n))) with (Z.of_nat n) by lia. by right.
    + apply Forall_map, Forall_forall. intros h Hh%elem_of_seqZ. apply meta_le; [done|unfold in_int64 in *; lia|lia].
  - rewrite <- list_fmap_compose. apply NoDup_fmap_2_strong; [|apply NoDup_seqZ]. intros h h' Hh Hh' E. cbn in E.
    pose proof (Hint h Hh). pose proof (Hint h' Hh'). by same_key E.
Qed.

Lemma metas_iter base top hist seen m r :
  rep base top hist seen m → (0 < r ≤ top)%Z →
  newMemDBIterator m (Some (blockMetaKey 0)) (Some (blockMetaKey r)) false = map (meta_item hist) (seqZ base (r - base)).
Proof using oc_law.
  intros Hr Hb. pose proof (rp_range _ _ _ _ _ Hr). assert (in_int64 r) as Ir by (unfold in_int64; unfold_ints; lia).
  assert (in_int64 0 ∧ in_int64 MaxInt64) as [I0 IM] by done.
  assert (seqZ base (r - base) = seqZ base (Z.of_nat (Z.to_nat (r - base)))) as -> by (unfold seqZ; by rewrite Nat2Z.id).
  destruct (metas_sorted hist base (Z.to_nat (r - base))) as [Hs Hn]; [unfold in_int64; unfold_ints; lia..|].
  apply iter_unique; [done|done|]. intros k v. rewrite list_elem_of_fmap. split.
  - intros (h & [= -> ->] & Hh%elem_of_seqZ). assert (base ≤ h ≤ top)%Z as Hin by lia.
    pose proof (rep_int _ _ _ _ _ h Hr Hin) as Ih. destruct (proj2 (meta_some _ _ _ _ _ h Hr Ih) Hin) as [v Hv]. split.
    + rewrite Hv. f_equal. rewrite (rp_meta _ _ _ _ _ Hr h Ih), decide_True in Hv by done. by rewrite Hv.
    + apply meta_range; [done..|lia].
  - intros [Hv [L1 L2]]. destruct (rp_keys _ _ _ _ _ Hr k) as (h & Ih & ->); [by exists v|done| |].
    { apply bytes_ltb_lt in L2 as [L2 Hne]. eapply ltb_le_trans; [exact L2|]. apply meta_lt; [done|done|lia]. }
    assert (base ≤ h ≤ top)%Z as Hin by (apply (meta_some base top hist seen m); [done..|by exists v]).
    assert (h < r)%Z as Hlt by by apply meta_lt. exists h. split; [|apply elem_of_seqZ; lia].
    unfold meta_item. rewrite (rp_meta _ _ _ _ _ Hr h Ih), decide_True in Hv by done. by rewrite Hv.
Qed.

Definition meta_extra (x : item) : list bytes :=
  from_option (λ m, [blockHashKey (BlockID_Hash (Meta_BlockID m))]) [] (Meta_Unmarshal x.2).

Lemma meta_item_ok base top hist seen m h :
  rep base top hist seen m → (base ≤ h ≤ top)%Z →
  ∃ mt, Meta_Unmarshal (meta_item hist h).2 = Some mt ∧ BlockMetaFromProto mt = Ok mt ∧
    BlockID_Hash (Meta_BlockID mt) = entry_hash (hist h).
Proof using codec.
  intros Hr Hh. destruct (eo_meta _ _ (rp_ok _ _ _ _ _ Hr h Hh)) as (mt & Em & [bz Hbz] & Hf & Hp & _).
  destruct (bcl_meta codec _ _ Hf Hbz) as [_ Hu]. exists mt. unfold meta_item, meta_bytes, entry_hash. rewrite Em. cbn.
  by rewrite Hbz.
Qed.

Lemma meta_extra_item base top hist seen m h :
  rep base top hist seen m → (base ≤ h ≤ top)%Z → meta_extra (meta_item hist h) = [blockHashKey (entry_hash (hist h))].
Proof using codec.
  intros Hr Hh. destruct (meta_item_ok _ _ _ _ _ h Hr Hh) as (mt & Hu & _ & E). unfold meta_extra. by rewrite Hu, <- E.
Qed.

Lemma removeBlockHash_deletes base top hist seen m :
  rep base top hist seen m →
  hook_deletes removeBlockHash meta_extra (λ x, ∃ h, (base ≤ h ≤ top)%Z ∧ x = meta_item hist h).
Proof using str_law codec.
  intros Hr x ops (h & Hh & ->). rewrite (meta_extra_item _ _ _ _ _ h Hr Hh).
  destruct (meta_item_ok _ _ _ _ _ h Hr Hh) as (mt & Hu & Hp & E). unfold removeBlockHash. rewrite Hu, Hp. orun.
  unfold batch_Delete. rewrite bool_decide_eq_false_2 by apply hash_key_nonempty. by rewrite E.
Qed.

(** The keys that are gone with the first [j] metas. *)
Lemma metas_gone base top hist seen m r j k :
  rep base top hist seen m → (0 < r ≤ top)%Z →
  k ∈ del_keys meta_extra (take j (map (meta_item hist) (seqZ base (r - base)))) ↔
    ∃ h, (base ≤ h < Z.min r (base + Z.of_nat j))%Z ∧ (k = blockMetaKey h ∨ k = blockHashKey (entry_hash (hist h))).
Proof using codec.
  intros Hr Hb. rewrite elem_of_del_keys. split.
  - intros (x & Hx & Hk). apply elem_of_take in Hx as (i & Hi & Hlt). rewrite list_lookup_fmap in Hi.
    destruct (seqZ base (r - base) !! i) as [h|] eqn:Eh; [|done]. apply lookup_seqZ in Eh as [-> Hi']. injection Hi as <-.
    rewrite (meta_extra_item base top hist seen m) in Hk by (done || lia). rewrite list_elem_of_singleton in Hk.
    exists (base + Z.of_nat i)%Z. split; [lia|done].
  - intros (h & Hh & Hk). exists (meta_item hist h). split.
    + apply elem_of_take. exists (Z.to_nat (h - base)). split; [|lia]. rewrite list_lookup_fmap.
      rewrite (proj2 (lookup_seqZ base (r - base) (Z.to_nat (h - base)) h)) by lia. done.
    + rewrite (meta_extra_item base top hist seen m) by (done || lia). by rewrite list_elem_of_singleton.
Qed.

Lemma metas_keep base top hist seen m r j :
  rep base top hist seen m → (0 < r ≤ top)%Z →
  let m' := without meta_extra (map (meta_item hist) (seqZ base (r - base))) j m in
  let base' := Z.max base (Z.min r (base + Z.of_nat j)) in
  keeps base' top hist m m' ∧
  (∀ h, (base ≤ h ≤ top)%Z → ¬ (base' ≤ h ≤ top)%Z → m' !! blockHashKey (entry_hash (hist h)) = None) ∧
  ∀ h, in_int64 h → m' !! seenCommitAtKey h = m !! seenCommitAtKey h.
Proof using oc_law str_law codec.
  intros Hr Hb m' base'. assert (∀ h, (base ≤ h ≤ top)%Z → in_int64 h) as Hint by (intros; by eapply rep_int).
  set (G := λ k, ∃ h, (base ≤ h < Z.min r (base + Z.of_nat j))%Z ∧ (k = blockMetaKey h ∨ k = blockHashKey (entry_hash (hist h)))).
  assert (∀ k, ¬ G k → m' !! k = m !! k) as Hout.
  { intros k Hk. unfold m'. rewrite without_lookup, bool_decide_eq_false_2; [done|].
    by rewrite (metas_gone base top hist seen m r j k Hr Hb). }
  assert (∀ k, G k → m' !! k = None) as Hgone.
  { intros k Hk. unfold m'. rewrite without_lookup, bool_decide_eq_true_2; [done|].
    by apply (metas_gone base top hist seen m r j k Hr Hb). }
  assert (∀ h h', (base ≤ h < Z.min r (base + Z.of_nat j))%Z → (base' ≤ h' ≤ top)%Z → h ≠ h') as Hne by (unfold base'; lia).
  split_and!.
  - split.
    + intros h Ih. destruct (decide (base ≤ h < Z.min r (base + Z.of_nat j)))%Z as [Hh|Hh].
      * rewrite decide_False by (unfold base'; lia). apply Hgone. exists h. split; [done|by left].
      * rewrite Hout.
        2: { intros (h' & Hh' & [E|E]); [|hash_key E]. pose proof (Hint h' ltac:(lia)). same_key E. congruence. }
        destruct (decide _) as [|Hn]; [done|]. rewrite (rp_meta _ _ _ _ _ Hr h Ih), decide_False; [done|]. unfold base' in Hn. lia.
    + intros k [v Hv]. unfold m' in Hv. rewrite without_lookup in Hv. case_bool_decide; [done|by exists v].
    + intros h i Hh Hi Ii. pose proof (Hint h ltac:(unfold base' in Hh; lia)). apply Hout.
      intros (h' & Hh' & [E|E]); [|hash_key E]. pose proof (Hint h' ltac:(lia)). same_key E.
    + intros h Hh. pose proof (Hint h ltac:(unfold base' in Hh; lia)). apply Hout.
      intros (h' & Hh' & [E|E]); [|hash_key E]. pose proof (Hint h' ltac:(lia)). same_key E.
    + intros h Hh. pose proof (Hint h ltac:(unfold base' in Hh; lia)). apply Hout.
      intros (h' & Hh' & [E|E]); [|hash_key E]. pose proof (Hint h' ltac:(lia)). same_key E.
    + apply Hout. intros (h' & Hh' & [E|E]); [|hash_key E]. pose proof (Hint h' ltac:(lia)). same_key E.
    + intros h Hh. apply Hout. intros (h' & Hh' & [E|E]); [pose proof (Hint h' ltac:(lia)); hash_key E|].
      apply (kl_inj str_law), (rp_inj _ _ _ _ _ Hr) in E; [by destruct (Hne h' h)|unfold base' in Hh; lia|lia].
  - intros h Hh Hn. apply Hgone. exists h. split; [unfold base' in Hn; lia|by right].
  - intros h Ih. apply Hout. intros (h' & Hh' & [E|E]); [|hash_key E]. pose proof (Hint h' ltac:(lia)). same_key E.
Qed.

Lemma metas_pruned base top hist seen r d :
  rep base top hist seen (db_data d) → (0 < r ≤ top)%Z →
  ∃ d' rr base', bs_pruneRange (blockMetaKey 0) (blockMetaKey r) removeBlockHash d = (d', rr) ∧
    (base ≤ base' ≤ Z.max base r)%Z ∧ rep base' top hist seen (db_data d') ∧ rr ≠ Panic ∧
    (∀ h, in_int64 h → db_data d' !! seenCommitAtKey h = db_data d !! seenCommitAtKey h) ∧
    (∀ n, rr = Ok n → base' = Z.max base r ∧ n = Z.max 0 (r - base)) ∧
    (quiet d → quiet d' ∧ rr = Ok (Z.max 0 (r - base))).
Proof using oc_law str_law codec.
  intros Hr Hb. pose proof (rp_range _ _ _ _ _ Hr) as Hb0. assert (in_int64 r) as Ir by (unfold in_int64; unfold_ints; lia).
  assert (∀ h, (base ≤ h ≤ top)%Z → in_int64 h) as Hint by (intros; by eapply rep_int).
  pose proof (metas_iter base top hist seen (db_data d) r Hr Hb) as HL.
  destruct (bs_pruneRange_spec removeBlockHash meta_extra (λ x, ∃ h, (base ≤ h ≤ top)%Z ∧ x = meta_item hist h)
    (blockMetaKey 0) (blockMetaKey r) d) as (d' & rr & j & E & Hd & Hp & Hn & Hq).
  { by apply meta_key_nonempty. }
  { by apply meta_key_nonempty. }
  { by eapply removeBlockHash_deletes. }
  { rewrite HL. apply Forall_forall. intros x (h & -> & Hh%elem_of_seqZ)%list_elem_of_fmap. exists h. split; [lia|done]. }
  { rewrite HL. intros x k (h & -> & Hh%elem_of_seqZ)%list_elem_of_fmap.
    rewrite (meta_extra_item base top hist seen (db_data d)) by (done || lia). intros ->%list_elem_of_singleton [L1 L2].
    exact (str_range prefixBlockHash prefixBlockMeta _ [0%Z] [r] ltac:(done) ltac:(done) ltac:(ints) ltac:(ints) ltac:(done) L1 L2). }
  rewrite HL in Hd, Hn, Hq. rewrite length_map, length_seqZ in Hn, Hq.
  set (base' := Z.max base (Z.min r (base + Z.of_nat j))).
  exists d', rr, base'. split_and!; [done|unfold base'; lia..| |done| | |].
  - apply (rep_keeps base top base' top hist seen (db_data d)); [done|unfold base'; lia| |].
    + rewrite Hd. by eapply metas_keep.
    + rewrite Hd. by eapply metas_keep.
  - rewrite Hd. by eapply metas_keep.
  - intros n ->. destruct (Hn n eq_refl) as [-> Hj]. unfold base'. lia.
  - intros Hq'. destruct (Hq Hq') as [? ->]. split; [done|]. f_equal. lia.
Qed.

(** Nothing is stored for the heights below [r], except the commits seen for them. *)
Definition nothing_below (r : Z) (m : gmap bytes bytes) : Prop :=
  ∀ h, (0 ≤ h < r)%Z → m !! blockMetaKey h = None ∧ m !! blockCommitKey h = None ∧
    ∀ i, in_int64 i → (0 ≤ i)%Z → m !! blockPartKey h i = None.

Lemma oc_in_range p a b l :
  in_int64 p → Forall in_int64 a → Forall in_int64 b → Forall in_int64 l →
  lex a l ≠ Gt → lex l b = Lt → in_range (orderedcode (p :: a)) (orderedcode (p :: b)) (orderedcode (p :: l)).
Proof using oc_law.
  intros Hp Ha Hb Hl L1 L2. unfold in_range, bytes_le, bytes_ltb. rewrite !oc_law by by constructor. cbn [lex].
  rewrite Z.compare_refl. by rewrite L2.
Qed.

(** The ranges of the parts and of the commits below [r] hold nothing of the other heights. *)
Lemma range_free p a b base top (k : bytes) :
  (p = prefixBlockPart ∨ p = prefixBlockCommit) → Forall in_int64 a → Forall in_int64 b →
  (1 ≤ base ∧ top < MaxInt64)%Z →
  (∀ h i, p = prefixBlockPart → (base ≤ h)%Z → (0 ≤ i)%Z → lex [h; i] b ≠ Lt) →
  (∀ h, p = prefixBlockCommit → (base ≤ h)%Z → lex [h] b ≠ Lt) →
  in_range (orderedcode (p :: a)) (orderedcode (p :: b)) k →
  (∀ h, in_int64 h → k ≠ blockMetaKey h) ∧
  (∀ h i, (base ≤ h ≤ top)%Z → (0 ≤ i)%Z → in_int64 i → k ≠ blockPartKey h i) ∧
  (∀ h, (base ≤ h < top)%Z → k ≠ blockCommitKey h) ∧ (∀ h, (base ≤ h ≤ top)%Z → k ≠ seenCommitAtKey h) ∧
  k ≠ seenCommitKey ∧ ∀ hash, k ≠ blockHashKey hash.
Proof using oc_law str_law.
  intros Hp Ia Ib Hb H3' H4' [L1 L2]. assert (in_int64 p) as Ip by by destruct Hp as [->| ->].
  assert (∀ l, Forall in_int64 l → k = orderedcode l → ∃ l', l = p :: l' ∧ lex l' b = Lt) as Hl.
  { intros l Il ->. destruct (oc_range p a b l Ip Ia Ib Il L1 L2) as (l' & -> & _ & E). by exists l'. }
  assert (∀ h, (base ≤ h ≤ top)%Z → in_int64 h) as Hint by (intros; unfold in_int64; unfold_ints; lia).
  split_and!.
  - intros h Ih ->. destruct (Hl [prefixBlockMeta; h] ltac:(ints) eq_refl) as (l' & [= E _] & _). by destruct Hp; subst.
  - intros h i Hh Hi Ii ->. pose proof (Hint h Hh). destruct (Hl [prefixBlockPart; h; i] ltac:(ints) eq_refl) as (l' & [= Ep <-] & E).
    by apply (H3' h i) in E; [|done|lia|].
  - intros h Hh ->. pose proof (Hint h ltac:(lia)). destruct (Hl [prefixBlockCommit; h] ltac:(ints) eq_refl) as (l' & [= Ep <-] & E).
    by apply (H4' h) in E; [|done|lia].
  - intros h Hh ->. pose proof (Hint h Hh). destruct (Hl [prefixSeenCommitAt; h] ltac:(ints) eq_refl) as (l' & [= E _] & _).
    by destruct Hp; subst.
  - intros ->. destruct (Hl [prefixSeenCommit] ltac:(ints) eq_refl) as (l' & [= E _] & _). by destruct Hp; subst.
  - intros hash ->. apply (str_range prefixBlockHash p hash a b); try done. by destruct Hp as [->| ->].
Qed.

Lemma lex_ge (h i r : Z) : (r ≤ h)%Z → (0 ≤ i)%Z → lex [h; i] [r; 0%Z] ≠ Lt.
Proof using. clear. intros Hh Hi. cbn. destruct (Z.compare_spec h r); [|lia|done]. destruct (Z.compare_spec i 0); (done || lia). Qed.

Lemma lex_ge1 (h r : Z) : (r ≤ h)%Z → lex [h] [r] ≠ Lt.
Proof using. clear. intros Hh. cbn. destruct (Z.compare_spec h r); (done || lia). Qed.

(** No range of parts or commits has a commit that was seen. *)
Lemma seenAt_not_in p a b h :
  Forall in_int64 a → Forall in_int64 b → (p = prefixBlockPart ∨ p = prefixBlockCommit) → in_int64 h →
  ¬ in_range (orderedcode (p :: a)) (orderedcode (p :: b)) (seenCommitAtKey h).
Proof using oc_law.
  intros Ia Ib Hp Ih [L1 L2]. assert (in_int64 p) as Ip by by destruct Hp as [->| ->].
  destruct (oc_range p a b [prefixSeenCommitAt; h] Ip Ia Ib ltac:(ints) L1 L2) as (l' & [= E _] & _). by destruct Hp; subst.
Qed.

Lemma parts_pruned base top hist seen r d :
  rep base top hist seen (db_data d) → (0 < r ≤ base)%Z → in_int64 r →
  ∃ d' rr, bs_pruneRange (blockPartKey 0 0) (blockPartKey r 0) no_hook d = (d', rr) ∧
    rep base top hist seen (db_data d') ∧ rr ≠ Panic ∧
    (∀ h, in_int64 h → db_data d' !! seenCommitAtKey h = db_data d !! seenCommitAtKey h) ∧
    (∀ n, rr = Ok n → ∀ h i, in_int64 i → (0 ≤ h < r)%Z → (0 ≤ i)%Z → db_data d' !! blockPartKey h i = None) ∧
    (quiet d → quiet d' ∧ ∃ n, rr = Ok n).
Proof using oc_law str_law.
  intros Hr Hb Ir. pose proof (rp_range _ _ _ _ _ Hr). assert (in_int64 0) as I0 by done.
  destruct (range_pruned base top hist seen (blockPartKey 0 0) (blockPartKey r 0) d)
    as (d' & rr & E & Hr' & Ho & Hp & Hn & Hq); [done|apply (oc_nonempty oc_law); ints..| |].
  { intros k Hk. apply (range_free prefixBlockPart [0%Z; 0%Z] [r; 0%Z] base top k); try done; [by left|ints|ints|lia|].
    intros h i _ Hh Hi. apply lex_ge; lia. }
  exists d', rr. split_and!; [done|done|done| | |done].
  - intros h Ih. apply Ho, (seenAt_not_in prefixBlockPart); [ints|ints|by left|done].
  - intros n En h i Ii Hh Hi. apply (Hn n En). assert (in_int64 h) by (unfold in_int64 in *; unfold_ints; lia).
    apply (oc_in_range prefixBlockPart [0%Z; 0%Z] [r; 0%Z] [h; i]); [done|ints|ints|ints|..]; cbn [lex].
    + destruct (Z.compare_spec 0 h), (Z.compare_spec 0 i); (done || lia).
    + destruct (Z.compare_spec h r); (done || lia).
Qed.

Lemma commits_pruned base top hist seen r d :
  rep base top hist seen (db_data d) → (0 < r ≤ base)%Z → in_int64 r →
  ∃ d' rr, bs_pruneRange (blockCommitKey 0) (blockCommitKey r) no_hook d = (d', rr) ∧
    rep base top hist seen (db_data d') ∧ rr ≠ Panic ∧
    (∀ h, in_int64 h → db_data d' !! seenCommitAtKey h = db_data d !! seenCommitAtKey h) ∧
    (∀ h i, in_int64 h → in_int64 i → db_data d' !! blockPartKey h i = db_data d !! blockPartKey h i) ∧
    (∀ n, rr = Ok n → ∀ h, (0 ≤ h < r)%Z → db_data d' !! blockCommitKey h = None) ∧
    (quiet d → quiet d' ∧ ∃ n, rr = Ok n).
Proof using oc_law str_law.
  intros Hr Hb Ir. pose proof (rp_range _ _ _ _ _ Hr). assert (in_int64 0) as I0 by done.
  destruct (range_pruned base top hist seen (blockCommitKey 0) (blockCommitKey r) d)
    as (d' & rr & E & Hr' & Ho & Hp & Hn & Hq); [done|apply (oc_nonempty oc_law); ints..| |].
  { intros k Hk. apply (range_free prefixBlockCommit [0%Z] [r] base top k); try done; [by right|ints|ints|lia|].
    intros h _ Hh. apply lex_ge1. lia. }
  exists d', rr. split_and!; [done|done|done| | | |done].
  - intros h Ih. apply Ho, (seenAt_not_in prefixBlockCommit); [ints|ints|by right|done].
  - intros h i Ih Ii. apply Ho. intros [L1 L2]. destruct (oc_range prefixBlockCommit [0%Z] [r] [prefixBlockPart; h; i]
      ltac:(done) ltac:(ints) ltac:(ints) ltac:(ints) L1 L2) as (l' & E' & _). discriminate E'.
  - intros n En h Hh. apply (Hn n En). assert (in_int64 h) by (unfold in_int64 in *; unfold_ints; lia).
    apply (oc_in_range prefixBlockCommit [0%Z] [r] [h]); [done|ints|ints|ints|..]; cbn [lex];
      [destruct (Z.compare_spec 0 h)|destruct (Z.compare_spec h r)]; (done || lia).
Qed.

Lemma PruneBlocks_spec base top hist seen r d :
  rep base top hist seen (db_data d) → (0 < r ≤ top)%Z → (base ≤ top)%Z →
  ∃ d' rr base', bs_PruneBlocks r d = (d', rr) ∧ (base ≤ base' ≤ Z.max base r)%Z ∧
    rep base' top hist seen (db_data d') ∧
    (∀ h, in_int64 h → db_data d' !! seenCommitAtKey h = db_data d !! seenCommitAtKey h) ∧
    (∀ n, rr = Ok n → base' = Z.max base r ∧ n = Z.max 0 (r - base) ∧ nothing_below r (db_data d')) ∧
    (quiet d → quiet d' ∧ rr = Ok (Z.max 0 (r - base))).
Proof using oc_law str_law codec.
  intros Hr Hb Hle. pose proof (rp_range _ _ _ _ _ Hr) as Hb0.
  assert (in_int64 r) as Ir by (unfold in_int64; unfold_ints; lia).
  unfold bs_PruneBlocks. rewrite (proj2 (Z.leb_gt _ _)) by lia. unfold mbind at 1, M_bind at 1.
  destruct (reads_first base top hist seen d true Hr) as (d1 & r1 & E1 & Hd1 & Hq1 & Hr1).
  unfold bs_Height, ReverseIterator. rewrite E1. rewrite decide_True in Hq1, Hr1 by done. destruct r1 as [t|e|].
  2,3: eexists _, _, base; split_and!; [done|lia|lia|by rewrite Hd1|by rewrite Hd1|done|naive_solver].
  rewrite (Hr1 t eq_refl) in *. rewrite (proj2 (Z.ltb_ge _ _)) by lia.
  destruct (metas_pruned base top hist seen r d1) as (d2 & r2 & base' & E2 & Hb' & Hr' & Hp2 & Hs2 & Hn2 & Hq2); [by rewrite Hd1|done|].
  rewrite Hd1 in Hs2. unfold mbind at 1, M_bind at 1. rewrite E2. destruct r2 as [n|e|]; [|..|done].
  2: { eexists _, _, base'. split_and!; [done|lia|lia|done|done|done|naive_solver]. }
  destruct (Hn2 n eq_refl) as [-> En]. set (base' := Z.max base r) in *. assert (0 < r ≤ base')%Z as Hrb by (unfold base'; lia).
  destruct (parts_pruned base' top hist seen r d2 Hr' Hrb Ir) as (d3 & r3 & E3 & Hr3 & Hp3 & Hs3 & Hn3 & Hq3).
  unfold mbind at 1, M_bind at 1. rewrite E3. destruct r3 as [n3|e|]; [|..|done].
  2: { eexists _, _, base'. split_and!; [done|lia|lia|done|intros; by rewrite Hs3, Hs2|done|].
       intros Hq. destruct Hq3 as [_ [? ?]]; [naive_solver|done]. }
  destruct (commits_pruned base' top hist seen r d3 Hr3 Hrb Ir) as (d4 & r4 & E4 & Hr4 & Hp4 & Hs4 & Ho4 & Hn4 & Hq4).
  unfold mbind at 1, M_bind at 1. rewrite E4. destruct r4 as [n4|e|]; [|..|done].
  2: { eexists _, _, base'. split_and!; [done|lia|lia|done|intros; by rewrite Hs4, Hs3, Hs2|done|].
       intros Hq. destruct Hq4 as [_ [? ?]]; [apply Hq3; naive_solver|done]. }
  exists d4, (Ok n), base'. split_and!; [done|lia|lia|done|intros; by rewrite Hs4, Hs3, Hs2| |].
  - intros n' [= <-]. split_and!; [done|done|]. intros h Hh. assert (in_int64 h) as Ih by (unfold in_int64; unfold_ints; lia).
    split_and!; [|by apply (Hn4 n4)|intros i Ii Hi; rewrite Ho4 by done; by apply (Hn3 n3)].
    rewrite (rp_meta _ _ _ _ _ Hr4 h Ih), decide_False; [done|unfold base'; lia].
  - intros Hq. destruct (Hq1 Hq) as [Hqa _]. destruct (Hq2 Hqa) as [Hqb _]. destruct (Hq3 Hqb) as [Hqc _].
    destruct (Hq4 Hqc) as [Hqd _]. split; [done|]. by rewrite En.
Qed.

(** ** Runs of the store *)

(** Calls of the store, starting from an empty database, with the heights, what was saved for
    them and the commit seen last.  A call that does not succeed, and a read, leaves them
    alone, except that a prune that fails may have moved the first height: it is the first one
    whose meta data is left. *)
Inductive bruns : Z → Z → (Z → Entry) → option Commit → DB → Prop :=
  | br_new d hist : db_data d = ∅ → bruns 1 0 hist None d
  | br_save base top hist seen d h b ps s d' r :
      bruns base top hist seen d → entry_ok h (Full b ps s) → (1 ≤ h < MaxInt64)%Z →
      ((base ≤ top)%Z → h = (top + 1)%Z) →
      (∀ h', (base ≤ h' ≤ top)%Z → entry_hash (hist h') ≠ entry_hash (Full b ps s)) →
      bs_SaveBlock (Some b) (Some ps) (Some s) d = (d', r) → r = Ok tt →
      bruns (base_with base top h) h (upd hist h (Full b ps s)) (Some s) d'
  | br_header base top hist seen d h hd c id d' r :
      bruns base top hist seen d → entry_ok h (Light hd c id) → (1 ≤ h < MaxInt64)%Z →
      ((base ≤ top)%Z → h = (base - 1)%Z ∧ is_light (hist base)) →
      (∀ h', (base ≤ h' ≤ top)%Z → entry_hash (hist h') ≠ entry_hash (Light hd c id)) →
      SaveSignedHeader hd (Some c) id d = (d', r) → r = Ok tt →
      bruns h (if decide (base ≤ top)%Z then top else h) (upd hist h (Light hd c id)) seen d'
  | br_seen base top hist seen d c d' r :
      bruns base top hist seen d → commit_ok c → SaveSeenCommit (Some c) d = (d', r) → r = Ok tt →
      bruns base top hist (Some c) d'
  | br_delete base top hist seen d d' r :
      bruns base top hist seen d → (base ≤ top)%Z → DeleteBlock top d = (d', r) → r = Ok 1%Z →
      bruns base (top - 1) hist seen d'
  | br_delete_failed base top hist seen d h d' r :
      bruns base top hist seen d → in_int64 h → DeleteBlock h d = (d', r) → (∀ n, r ≠ Ok n) →
      bruns base top hist seen d'
  | br_prune base top hist seen d n d' r base' :
      bruns base top hist seen d → (0 < n ≤ top)%Z → (base ≤ top)%Z → bs_PruneBlocks n d = (d', r) →
      (∀ h, in_int64 h → is_Some (db_data d' !! blockMetaKey h) ↔ (base' ≤ h ≤ top)%Z) → (base' ≤ top)%Z →
      bruns base' top hist seen d'
  | br_failed base top hist seen d b ps s hd c id d' r :
      bruns base top hist seen d →
      (∃ h, bs_SaveBlock (Some b) (Some ps) (Some s) d = (d', r) ∧ entry_ok h (Full b ps s) ∧ (1 ≤ h < MaxInt64)%Z ∧
         ((base ≤ top)%Z → h = (top + 1)%Z)) ∨
      (∃ h, SaveSignedHeader hd (Some c) id d = (d', r) ∧ entry_ok h (Light hd c id) ∧ in_int64 h ∧ ¬ (base ≤ h ≤ top)%Z) ∨
      (SaveSeenCommit (Some c) d = (d', r) ∧ commit_ok c) → r ≠ Ok tt →
      bruns base top hist seen d'
  | br_read {A} base top hist seen d d' (m : X A) a :
      bruns base top hist seen d → reads m d a → (m d).1 = d' → bruns base top hist seen d'.

Lemma writes_ok {A} (m : X A) d a new d' r :
  writes m d a new → m d = (d', r) → (r = Ok a → db_data d' = new) ∧ (r ≠ Ok a → db_data d' = db_data d).
Proof using.
  clear. intros (d1 & r1 & E & _ & Hc) E'. rewrite E in E'. injection E' as <- <-.
  destruct Hc as [[-> ?]|[Hn ?]]; split; try done. intros ->. by destruct (Hn a).
Qed.

(** A deletion that does not succeed, of any height, leaves the content alone. *)
Lemma DeleteBlock_failed base top hist seen d h d' r :
  rep base top hist seen (db_data d) → in_int64 h → DeleteBlock h d = (d', r) → (∀ n, r ≠ Ok n) →
  db_data d' = db_data d.
Proof using oc_law str_law codec.
  intros Hr Ih E Er. destruct (decide (base ≤ h ≤ top)%Z) as [Hh|Hn].
  - eapply (writes_ok _ _ _ _ _ _ (writes_DeleteBlock _ _ _ _ _ h Hr Hh) E). apply Er.
  - unfold DeleteBlock in E. destruct (h <=? 0)%Z; [by injection E as <- <-|].
    destruct (reads_LoadBlockMeta _ _ _ _ _ h Hr Ih) as (d1 & r1 & E1 & Hd1 & _ & Ha).
    rewrite decide_False in Ha by done. unfold mbind, M_bind in E. rewrite E1 in E.
    destruct r1 as [a|e|]; [rewrite (Ha a eq_refl) in E|..]; by injection E as <- <-.
Qed.

Lemma bruns_rep base top hist seen d : bruns base top hist seen d → rep base top hist seen (db_data d).
Proof using oc_law str_law codec.
  induction 1 as [d hist E|base top hist seen d h b ps s d' r _ IH He Hh Ht Hf E Er
    |base top hist seen d h hd c id d' r _ IH He Hh Ht Hf E Er|base top hist seen d c d' r _ IH Hc E Er
    |base top hist seen d d' r _ IH Hle E Er|base top hist seen d h d' r _ IH Ih E Er
    |base top hist seen d n d' r base' _ IH Hn Hle E Hm Hb'
    |base top hist seen d b ps s hd c id d' r _ IH Hc Er|A base top hist seen d d' m a _ IH Hr Er].
  - rewrite E. split; try (intros; lia); try done.
    + intros h _. by rewrite lookup_empty, decide_False by lia.
    + intros k [v Hv]. by rewrite lookup_empty in Hv.
    + intros hash [v Hv]. by rewrite lookup_empty in Hv.
  - destruct (writes_ok _ _ _ _ _ _ (writes_SaveBlock _ _ _ _ _ _ _ _ _ IH He Hh Ht) E) as [-> _]; [|done]. by apply (rep_saved _ _ _ seen).
  - destruct (eo_meta _ _ He) as (mt & Em & [mb Hmb] & _). destruct (eo_light _ _ He _ _ _ eq_refl) as [_ [cb Hcb]].
    assert (meta_bytes (Light hd c id) = Some mb) as Emb by (unfold meta_bytes; by rewrite Em).
    assert (in_int64 h ∧ ¬ (base ≤ h ≤ top)%Z) as [Ih Hn].
    { split; [unfold in_int64; unfold_ints; lia|]. intros Hin. destruct (Ht ltac:(lia)). lia. }
    destruct (writes_ok _ _ _ _ _ _ (writes_SaveSignedHeader _ _ _ _ _ _ _ _ _ _ _ IH He Ih Hn Emb Hcb) E) as [-> _]; [|done].
    by apply (rep_header base top hist seen).
  - destruct Hc as [Hc [bz Hbz]]. destruct (writes_ok _ _ _ _ _ _ (writes_SaveSeenCommit c bz d Hbz) E) as [-> _]; [|done].
    by eapply rep_seen; [|split; [|exists bz]|].
  - destruct (writes_ok _ _ _ _ _ _ (writes_DeleteBlock _ _ _ _ _ top IH ltac:(lia)) E) as [-> _]; [|done]. by apply rep_deleted.
  - by rewrite (DeleteBlock_failed _ _ _ _ _ _ _ _ IH Ih E Er).
  - destruct (PruneBlocks_spec _ _ _ _ n d IH Hn Hle) as (d1 & r1 & b1 & E1 & Hb1 & Hr1 & _).
    rewrite E in E1. injection E1 as <- <-. enough (b1 = base') by by subst.
    pose proof (rp_range _ _ _ _ _ Hr1) as Hr. pose proof (rp_range _ _ _ _ _ IH) as Hr0.
    assert (∀ h, in_int64 h → (b1 ≤ h ≤ top)%Z ↔ (base' ≤ h ≤ top)%Z) as Hiff.
    { intros h Ih. by rewrite <- Hm, (meta_some _ _ _ _ _ h Hr1 Ih). }
    assert (in_int64 b1 ∧ in_int64 top ∧ (b1 ≤ top)%Z) as (I1 & I2 & Hle1) by (unfold in_int64; unfold_ints; lia).
    pose proof (Hiff b1 I1). destruct (decide (base' = b1)) as [|Hne]; [done|].
    pose proof (Hiff (b1 - 1)%Z ltac:(unfold in_int64 in *; unfold_ints; lia)). lia.
  - enough (db_data d' = db_data d) as -> by done. destruct Hc as [(h & E & He & Hh & Ht)|[(h & E & He & Ih & Hn)|[E [_ [bz Hbz]]]]].
    + by apply (writes_ok _ _ _ _ _ _ (writes_SaveBlock _ _ _ _ _ _ _ _ _ IH He Hh Ht) E).
    + destruct (eo_meta _ _ He) as (mt & Em & [mb Hmb] & _). destruct (eo_light _ _ He _ _ _ eq_refl) as [_ [cb Hcb]].
      assert (meta_bytes (Light hd c id) = Some mb) as Emb by (unfold meta_bytes; by rewrite Em).
      by apply (writes_ok _ _ _ _ _ _ (writes_SaveSignedHeader _ _ _ _ _ _ _ _ _ _ _ IH He Ih Hn Emb Hcb) E).
    + by apply (writes_ok _ _ _ _ _ _ (writes_SaveSeenCommit c bz d Hbz) E).
  - destruct Hr as (d1 & r1 & E1 & Hd & _). rewrite E1 in Er. cbn in Er. subst d'. by rewrite Hd.
Qed.


(** C14: pruning to a stored height ends without the loop running out, whatever fails; the
    heights from it on are kept, and when it succeeds, as it does when nothing fails, it reports
    the number of heights that left and no meta data, part or commit of a lower height remains;
    but the commits that were seen for the pruned heights are never removed. *)
Theorem prune_blocks_exact base top hist seen d n :
  bruns base top hist seen d → (0 < n ≤ top)%Z → (base ≤ top)%Z →
  ∃ d' r base', bs_PruneBlocks n d = (d', r) ∧ (base ≤ base' ≤ Z.max base n)%Z ∧ bruns base' top hist seen d' ∧
    (quiet d → r = Ok (Z.max 0 (n - base))) ∧
    (∀ c, r = Ok c → base' = Z.max base n ∧ c = Z.max 0 (n - base) ∧ nothing_below n (db_data d')) ∧
    (∀ h b ps s, (base ≤ h ≤ top)%Z → hist h = Full b ps s → reads (LoadSeenCommitAt h) d' (Some s)).
Proof using oc_law str_law codec.
  intros Hr Hn Hle. pose proof (bruns_rep _ _ _ _ _ Hr) as Hrep. pose proof (rp_range _ _ _ _ _ Hrep) as Hb.
  destruct (PruneBlocks_spec base top hist seen n d Hrep Hn Hle) as (d' & r & base' & E & Hb' & Hr' & Hs & Hok & Hq).
  exists d', r, base'. split_and!; [done|lia|lia| |naive_solver|done|].
  - eapply br_prune; [done|done|done|done| |lia]. intros h Ih. by eapply meta_some.
  - intros h b ps s Hh Eb. pose proof (rep_int _ _ _ _ _ h Hrep Hh).
    destruct (fo_seen _ _ _ _ (eo_full _ _ (rp_ok _ _ _ _ _ Hrep h Hh) _ _ _ Eb)) as [Hc _].
    apply reads_commit; [apply (oc_nonempty oc_law); ints|done|]. rewrite Hs by done. by eapply rp_seenAt.
Qed.

(** Computations that do not succeed and leave the content alone. *)
Definition refuses {E A} (m : M DB E A) (d : DB) : Prop :=
  ∃ d' r, m d = (d', r) ∧ db_data d' = db_data d ∧ ∀ a, r ≠ Ok a.

Lemma refuses_bind {E A B} (m : M DB E A) (f : A → M DB E B) d a :
  reads m d a → (∀ d', db_data d' = db_data d → refuses (f a) d') → refuses (m ≫= f) d.
Proof using.
  clear. intros (d1 & r1 & E1 & Hd1 & _ & Hr1) Hf. unfold refuses, mbind, M_bind. rewrite E1.
  destruct r1 as [a'|e|]; [|by exists d1, (Err e)|by exists d1, Panic].
  rewrite (Hr1 a' eq_refl). destruct (Hf d1 Hd1) as (d2 & r2 & E2 & Hd2 & Hr2). exists d2, r2. by rewrite Hd2.
Qed.

Lemma save_refused base top hist seen d h b ps s :
  rep base top hist seen (db_data d) → entry_ok h (Full b ps s) → (base ≤ top)%Z → h ≠ (top + 1)%Z →
  refuses (saveBlockToBatch NewBatch (Some b) (Some ps) (Some s)) d.
Proof using oc_law str_law.
  intros Hrep He Hle Hne. pose proof (rp_range _ _ _ _ _ Hrep) as Hb.
  assert (H_Height (B_Header b) = h) as Ehb.
  { destruct (eo_meta _ _ He) as (mt & Em & _ & _ & _ & Eh). cbn in Em.
    destruct (Block_BlockID (Some b) (Some ps)); [|done|done]. by injection Em as <-. }
  unfold saveBlockToBatch. rewrite (fo_hash _ _ _ _ (eo_full _ _ He _ _ _ eq_refl)).
  eapply refuses_bind; [by apply reads_lift|]. intros d1 Hd1. cbv beta iota zeta. rewrite Ehb.
  eapply refuses_bind; [apply (reads_first base top hist seen _ true); by rewrite Hd1|]. intros d2 Hd2.
  eapply refuses_bind; [apply (reads_first base top hist seen _ false); by rewrite Hd2, Hd1|]. intros d3 Hd3.
  rewrite !decide_True, int64_id by (done || unfold in_int64; unfold_ints; lia).
  rewrite (proj2 (Z.ltb_lt _ _)), (proj2 (Z.eqb_neq _ _)) by (done || lia). by exists d3, (Err ErrBSNotContiguous).
Qed.

(** A complete block for the next height is saved when nothing fails; a block for any other
    height is refused with a panic before anything is written. *)
Theorem save_block_next base top hist seen d h b ps s :
  bruns base top hist seen d → entry_ok h (Full b ps s) → (1 ≤ h < MaxInt64)%Z →
  (∀ h', (base ≤ h' ≤ top)%Z → entry_hash (hist h') ≠ entry_hash (Full b ps s)) →
  ∃ d' r, bs_SaveBlock (Some b) (Some ps) (Some s) d = (d', r) ∧
    if decide ((base ≤ top)%Z ∧ h ≠ (top + 1)%Z) then r = Panic ∧ db_data d' = db_data d
    else (quiet d → r = Ok tt) ∧
      (r = Ok tt ∧ bruns (base_with base top h) h (upd hist h (Full b ps s)) (Some s) d' ∨
       r ≠ Ok tt ∧ bruns base top hist seen d').
Proof using oc_law str_law codec.
  intros Hr He Hh Hf. pose proof (bruns_rep _ _ _ _ _ Hr) as Hrep. pose proof (rp_range _ _ _ _ _ Hrep) as Hb.
  destruct (decide _) as [[Hle Hne]|Hn].
  - destruct (save_refused _ _ _ _ _ _ _ _ _ Hrep He Hle Hne) as (d' & r & E & Hd & Hr'). exists d', Panic. split; [|done].
    unfold bs_SaveBlock, mbind, M_bind, must at 1. rewrite E. destruct r as [a|e|]; [by destruct (Hr' a)|done..].
  - assert ((base ≤ top)%Z → h = (top + 1)%Z) as Ht by (intros Hle; destruct (decide (h = top + 1)%Z); [done|by destruct Hn]).
    destruct (writes_SaveBlock _ _ _ _ _ _ _ _ _ Hrep He Hh Ht) as (d' & r & E & Hq & Hc). exists d', r.
    split_and!; [done|naive_solver|]. destruct Hc as [[-> Hd]|[Hno Hd]].
    + left. split; [done|]. by eapply br_save.
    + right. assert (r ≠ Ok tt) as Hr' by (intros ->; by apply (Hno tt)). split; [done|].
      eapply (br_failed base top hist seen d b ps s (B_Header b) s nilBlockID); [done| |done]. left. by exists h.
Qed.

End thms.

End bsthms.
