(* ===== verification/BlockStoreDemo.v ===== *)
(** * internal/store: a block store that is run

    Encodings that satisfy the laws of the block store, and a run of the store in which two
    blocks are saved and one is pruned. *)
From Stdlib Require Import ZArith Lia Init.Byte.
From stdpp Require Import base numbers list sets gmap fin_maps countable.
From S2P Require Import Prelude.
From S2P Require Import StateM.
From S2P Require Import DB.
From S2P Require Import Merkle.
From S2P Require Import PartSet.
From S2P Require Import Wire.
From S2P Require Import Types.
From S2P Require Import Crypto.
From S2P Require Import Proposal.
From S2P Require Import Block.
From S2P Require Import ExecutionDemo.
From S2P Require Import SelectProposer.
From S2P Require Import StateStore.
From S2P Require Import StateStoreThms.
From S2P Require Import StateStoreDemo.
From S2P Require Import BlockStore.
From S2P Require Import BlockStoreThms.

Import statem db partset types crypto proposal block execdemo selectproposer storethms storedemo.
Import blockstore bsthms.

Module bsdemo.

#[local] Existing Instance toy_orderedcode.

(** ** Keys *)

Definition from_big_endian (b : bytes) (acc : Z) : Z := fold_left (λ z x, z * 256 + wire.b2z x)%Z b acc.

Lemma from_to_big_endian n x acc :
  (0 ≤ x < 256 ^ Z.of_nat n)%Z → from_big_endian (big_endian n x) acc = (acc * 256 ^ Z.of_nat n + x)%Z.
Proof.
  revert x acc. induction n as [|n IH]; intros x acc Hx; [cbn in *; lia|].
  cbn [big_endian]. unfold from_big_endian in *. cbn [fold_left].
  assert (0 < 256 ^ Z.of_nat n)%Z as Hw by (apply Z.pow_pos_nonneg; lia).
  assert (256 ^ Z.of_nat (S n) = 256 * 256 ^ Z.of_nat n)%Z as Ew by (rewrite Nat2Z.inj_succ, Z.pow_succ_r; lia).
  rewrite IH by (by apply Z.mod_pos_bound). rewrite wire.b2z_z2b, Ew in *.
  rewrite (Z.mod_small (x / _)) by (split; [apply Z.div_pos; lia|apply Z.div_lt_upper_bound; lia]).
  pose proof (Z.div_mod x (256 ^ Z.of_nat n) ltac:(lia)). lia.
Qed.

Definition number (b : bytes) : Z := (from_big_endian b 0 - 2 ^ 63)%Z.

#[local] Instance toy_keys : BlockKeys := {|
  orderedcode_str := λ p s, big_endian 8 (p + 2 ^ 63) ++ s;
  orderedcode_parse := λ k,
    if length k <? 16 then None else Some (number (take 8 k), number (take 8 (drop 8 k)), drop 16 k) |}.

Lemma number_big_endian x : in_int64 x → number (big_endian 8 (x + 2 ^ 63)) = x.
Proof. unfold number, in_int64. unfold_ints. intros Hx. rewrite from_to_big_endian; [lia|change (256 ^ Z.of_nat 8)%Z with (2 ^ 64)%Z; lia]. Qed.

Lemma toy_keys_law : keys_law.
Proof.
  split.
  - intros p q s l Hp Hq _ Hne. unfold orderedcode_str, toy_keys, orderedcode, toy_orderedcode, code_items. cbn [map concat].
    unfold in_int64 in *. unfold_ints. rewrite big_endian_compare by (change (256 ^ Z.of_nat 8)%Z with (2 ^ 64)%Z; lia).
    destruct (Z.compare_spec p q), (Z.compare_spec (p + 2 ^ 63) (q + 2 ^ 63)); done || lia.
  - intros p s s'. apply app_inv_head.
  - intros p s. done.
  - intros p h Hp Hh. unfold orderedcode_parse, toy_keys, orderedcode, toy_orderedcode, code_items. cbn [map concat].
    rewrite app_nil_r. change (16) with (8 + 8). rewrite <- drop_drop.
    rewrite (drop_app_length' (big_endian 8 (p + 2 ^ 63))), take_app_length' by done.
    rewrite (take_ge (big_endian 8 (h + 2 ^ 63))), (drop_ge (big_endian 8 (h + 2 ^ 63))) by done.
    by rewrite !number_big_endian.
Qed.

(** ** Messages *)

#[local] Existing Instances Consensus_eq_dec PartSetHeader_countable BlockID_countable.
#[local] Instance Header_eq_dec : EqDecision block.Header. Proof. solve_decision. Defined.
#[local] Instance BlockMeta_eq_dec : EqDecision BlockMeta. Proof. solve_decision. Defined.
#[local] Instance Proof_eq_dec : EqDecision merkle.Proof. Proof. solve_decision. Defined.
#[local] Instance Part_eq_dec : EqDecision Part. Proof. solve_decision. Defined.
#[local] Instance Commit_eq_dec : EqDecision Commit. Proof. solve_decision. Defined.

#[local] Instance Consensus_countable : Countable Consensus.
Proof. apply (inj_countable' (λ v, (Ver_Block v, Ver_App v)) (λ '(a, b), mkVersion a b)). records. Defined.
#[local] Instance Header_countable : Countable block.Header.
Proof.
  apply (inj_countable' (λ h, (H_Version h, H_ChainID h, H_Height h, H_CoreChainLockedHeight h, H_Time h,
             H_LastBlockID h, H_LastCommitHash h, H_DataHash h, H_ValidatorsHash h, H_NextValidatorsHash h,
             H_ConsensusHash h, H_NextConsensusHash h, H_AppHash h, H_ResultsHash h, H_EvidenceHash h,
             H_ProposerProTxHash h, H_ProposedAppVersion h))
           (λ '(a, b, c, d, e, f, g, h, i, j, k, l, m, n, o, p, q), mkHeader a b c d e f g h i j k l m n o p q)).
  records.
Defined.
#[local] Instance BlockMeta_countable : Countable BlockMeta.
Proof.
  apply (inj_countable' (λ m, (Meta_BlockID m, Meta_BlockSize m, Meta_Header m, Meta_NumTxs m, Meta_Round m,
             Meta_HasCoreChainLock m)) (λ '(a, b, c, d, e, f), mkBlockMeta a b c d e f)). records.
Defined.
#[local] Instance Proof_countable : Countable merkle.Proof.
Proof.
  apply (inj_countable' (λ p, (merkle.Total p, merkle.Index p, merkle.LeafHash p, merkle.Aunts p))
           (λ '(a, b, c, d), merkle.mkProof a b c d)). records.
Defined.
#[local] Instance Part_countable : Countable Part.
Proof.
  apply (inj_countable' (λ p, (Part_Index p, Part_Bytes p, Part_Proof p)) (λ '(a, b, c), mkPart a b c)). records.
Defined.
#[local] Instance VoteExtension_countable : Countable VoteExtension.
Proof.
  apply (inj_countable' (λ v, (VE_Type v, VE_Extension v, VE_Signature v, VE_SignRequestId v))
           (λ '(a, b, c, d), mkVE a b c d)). records.
Defined.
#[local] Instance Commit_countable : Countable Commit.
Proof.
  apply (inj_countable' (λ c, (Commit_Height c, Commit_Round c, Commit_BlockID c, Commit_QuorumHash c,
             Commit_ThresholdBlockSignature c, Commit_ThresholdVoteExtensions c))
           (λ '(a, b, c, d, e, f), mkCommit a b c d e f)). records.
Defined.

#[local] Existing Instance toy_crypto.
#[local] Existing Instance toy_time.

Definition parts_of (b : Block) : PartSet :=
  match MakePartSet (Some b) BlockPartSizeBytes with Ok ps => ps | _ => mkPS 0 [] [] None 0 0 end.

Definition parts1 : PartSet := Eval vm_compute in parts_of block1.
Definition parts2 : PartSet := Eval vm_compute in parts_of block2.

(** The bytes of all parts. *)
Definition parts_bytes (ps : PartSet) : bytes :=
  List.concat (map (λ i, from_option Part_Bytes [] (part_at ps i)) (seq 0 (Z.to_nat (partset.total ps)))).

(** Blocks are decoded if they are one of the two. *)
#[local] Instance toy_block_codec : BlockStoreCodec := {|
  Meta_Marshal := λ m, Some (marshal m); Meta_Unmarshal := unmarshal;
  Part_Marshal := λ p, Some (marshal p); Part_Unmarshal := unmarshal;
  Commit_Marshal := fmap marshal; Commit_Unmarshal := unmarshal;
  Block_Unmarshal := λ bz,
    if bool_decide (bz = parts_bytes parts1) then Some (Block_ToProto block1)
    else if bool_decide (bz = parts_bytes parts2) then Some (Block_ToProto block2) else None |}.

Lemma toy_block_codec_law : block_codec_law.
Proof. split; [intros m bz _|intros m bz|intros c bz _]; intros [= <-]; (split; [done|apply marshal_roundtrip]). Qed.

(** ** Two blocks *)

Definition entry1 : Entry := Full block1 parts1 commit1.
Definition entry2 : Entry := Full block2 parts2 commit2.

Definition meta_of (e : Entry) : BlockMeta :=
  match entry_meta e with Some m => m | None => mkBlockMeta nilBlockID 0 header1 0 0 false end.
Definition meta1 : BlockMeta := Eval vm_compute in meta_of entry1.
Definition meta2 : BlockMeta := Eval vm_compute in meta_of entry2.

Lemma commits_ok : commit_ok commit1 ∧ commit_ok commit2 ∧ commit_ok empty_commit.
Proof. split_and!; (split; [vm_compute; reflexivity|by eexists]). Qed.

Lemma metas_eq : entry_meta entry1 = Some meta1 ∧ entry_meta entry2 = Some meta2.
Proof. split; vm_compute; reflexivity. Qed.

(** Both parts are the only one of their set. *)
Lemma only_part ps p :
  partset.total ps = 1%Z → part_at ps 0 = Some p → PartFromProto p = Ok p →
  ∀ i, (Z.of_nat i < partset.total ps)%Z →
    ∃ p', part_at ps i = Some p' ∧ PartFromProto p' = Ok p' ∧ is_Some (Part_Marshal p').
Proof.
  intros Et Ep Hp i Hi. rewrite Et in Hi. assert (i = 0) as -> by lia. exists p. split_and!; [done|done|by eexists].
Qed.

Lemma demo_full_ok h b ps s p m c :
  Block_Hash (Some b) = Ok (Some b, BlockID_Hash (Meta_BlockID m)) → partset.IsComplete ps = true →
  entry_meta (Full b ps s) = Some m → PSH_Total (BlockID_PartSetHeader (Meta_BlockID m)) = 1%Z →
  partset.total ps = 1%Z → part_at ps 0 = Some p → PartFromProto p = Ok p →
  Block_Unmarshal (parts_bytes ps) = Some (Block_ToProto b) → BlockFromProto (Some (Block_ToProto b)) = Ok b →
  B_LastCommit b = Some c → commit_ok c → commit_ok s → Commit_Height s = h → full_ok h b ps s.
Proof.
  intros Eh Ec Em Eps Et Ep Hp Eb Hb El Hl Hs Ht. split.
  - unfold entry_hash. by rewrite Em.
  - done.
  - rewrite Et, Em. done.
  - rewrite Em, Et. intros m' [= <-]. done.
  - by apply (only_part ps p).
  - done.
  - by exists c.
  - done.
Qed.

Lemma demo_entry_ok h b ps s m :
  entry_meta (Full b ps s) = Some m → filled (Meta_Header m) → BlockMetaFromProto m = Ok m →
  H_Height (Meta_Header m) = h → full_ok h b ps s → entry_ok h (Full b ps s).
Proof.
  intros Em Hf Hm Hh Hok. split; [|by intros ??? [= <- <- <-]|done].
  exists m. split_and!; [done|by eexists|done..].
Qed.

Lemma entry1_ok : entry_ok 1 entry1.
Proof.
  destruct metas_eq as [Em _]. destruct commits_ok as (Hc1 & _ & Hc0).
  apply (demo_entry_ok 1 block1 parts1 commit1 meta1 Em).
  - vm_compute. split_and!; discriminate.
  - vm_compute. reflexivity.
  - reflexivity.
  - eapply (demo_full_ok 1 block1 parts1 commit1 _ meta1 empty_commit); try exact Em; try exact Hc0; try exact Hc1;
      try reflexivity; vm_compute; reflexivity.
Qed.

Lemma entry2_ok : entry_ok 2 entry2.
Proof.
  destruct metas_eq as [_ Em]. destruct commits_ok as (Hc1 & Hc2 & _).
  apply (demo_entry_ok 2 block2 parts2 commit2 meta2 Em).
  - vm_compute. split_and!; discriminate.
  - vm_compute. reflexivity.
  - reflexivity.
  - eapply (demo_full_ok 2 block2 parts2 commit2 _ meta2 commit1); try exact Em; try exact Hc2; try exact Hc1;
      try reflexivity; vm_compute; reflexivity.
Qed.

(** ** A run *)

#[local] Existing Instance toy_faults.

Lemma hashes_differ : entry_hash entry1 ≠ entry_hash entry2.
Proof. vm_compute. discriminate. Qed.

Lemma save_one base top hist seen d h b ps s :
  bruns base top hist seen d → quiet d → entry_ok h (Full b ps s) → (1 ≤ h < MaxInt64)%Z →
  ((base ≤ top)%Z → h = (top + 1)%Z) →
  (∀ h', (base ≤ h' ≤ top)%Z → entry_hash (hist h') ≠ entry_hash (Full b ps s)) →
  ∃ d', bruns (base_with base top h) h (upd hist h (Full b ps s)) (Some s) d' ∧ quiet d'.
Proof.
  intros Hb Hq He Hh Ht Hf.
  destruct (writes_SaveBlock toy_orderedcode_law toy_keys_law base top hist seen d h b ps s) as (d' & r & E & Hq' & _);
    [by apply (bruns_rep toy_orderedcode_law toy_keys_law toy_block_codec_law)|done..|].
  destruct (Hq' Hq) as [Hq2 ->]. exists d'. split; [|done]. by eapply br_save.
Qed.

(** The first block was saved. *)
Lemma demo_first : ∃ d, bruns 1 1 (upd (λ _, entry1) 1 entry1) (Some commit1) d ∧ quiet d.
Proof.
  apply (save_one 1 0 (λ _, entry1) None db0 1 block1 parts1 commit1).
  - by apply br_new.
  - apply db0_quiet.
  - exact entry1_ok.
  - done.
  - lia.
  - lia.
Qed.

Definition hist12 : Z → Entry := upd (upd (λ _, entry1) 1 entry1) 2 entry2.

Lemma fresh2 h : (1 ≤ h ≤ 1)%Z → entry_hash (upd (λ _, entry1) 1 entry1 h) ≠ entry_hash entry2.
Proof. intros Hh. assert (h = 1%Z) as -> by lia. rewrite upd_same. exact hashes_differ. Qed.

(** And the second. *)
Lemma demo_both : ∃ d, bruns 1 2 hist12 (Some commit2) d ∧ quiet d.
Proof.
  destruct demo_first as (d & Hb & Hq).
  apply (save_one 1 1 (upd (λ _, entry1) 1 entry1) (Some commit1) d 2 block2 parts2 commit2 Hb Hq entry2_ok).
  - done.
  - lia.
  - exact fresh2.
Qed.

(** ** Witnesses *)



Lemma prune_blocks_exact_witness :
  ∃ d d', bs_PruneBlocks 2 d = (d', Ok 1%Z) ∧ reads (LoadSeenCommitAt 1) d' (Some commit1).
Proof.
  destruct demo_both as (d & Hb & Hq). exists d.
  destruct (prune_blocks_exact toy_orderedcode_law toy_keys_law toy_block_codec_law 1 2 hist12 (Some commit2) d 2 Hb)
    as (d' & r & base' & E & _ & _ & Hr & _ & Hs); [split; [reflexivity|discriminate]|discriminate|].
  exists d'. rewrite E, (Hr Hq). split; [reflexivity|].
  refine (Hs 1%Z block1 parts1 commit1 _ eq_refl). split; discriminate.
Defined.

Lemma save_block_next_witness :
  ∃ d d', bs_SaveBlock (Some block2) (Some parts2) (Some commit2) d = (d', Ok tt).
Proof.
  destruct demo_first as (d & Hb & Hq). exists d.
  destruct (save_block_next toy_orderedcode_law toy_keys_law toy_block_codec_law 1 1 _ _ d 2 block2 parts2 commit2 Hb entry2_ok)
    as (d' & r & E & Hs); [split; [discriminate|reflexivity]|exact fresh2|].
  rewrite decide_False in Hs by lia. destruct Hs as [Hs _]. exists d'. by rewrite E, (Hs Hq).
Defined.

End bsdemo.
