(* ===== verification/Rollback.v ===== *)
(** * Rolling back the last state

    Models [src/internal/state/rollback.go] and [RollbackState] of
    [src/cmd/tenderdash/commands/rollback.go], over the block store of [BlockStore] and the
    state store of [StateStore], each with its database.  The theorems say which state a node
    has afterwards: the one before the last block, but for the round, the application's hash
    and the hash of the results, which stay those of the state that was rolled back. *)
From Stdlib Require Import ZArith Lia Init.Byte.
From stdpp Require Import base numbers list sets gmap fin_maps.
From S2P Require Import Prelude.
From S2P Require Import SafeMath.
From S2P Require Import StateM.
From S2P Require Import DB.
From S2P Require Import Merkle.
From S2P Require Import PartSet.
From S2P Require Import Types.
From S2P Require Import Crypto.
From S2P Require Import QuorumSign.
From S2P Require Import Proposal.
From S2P Require Import ValidatorSet.
From S2P Require Import Evidence.
From S2P Require Import Block.
From S2P Require Import Params.
From S2P Require Import SmState.
From S2P Require Import SmStateThms.
From S2P Require Import SmProto.
From S2P Require Import Execution.
From S2P Require Import ExecutionThms.
From S2P Require Import SelectProposer.
From S2P Require Import StateStore.
From S2P Require Import StateStoreThms.
From S2P Require Import BlockStore.
From S2P Require Import BlockStoreThms.

Import statem db partset types crypto quorum proposal valset evidence block params sm smthms smproto.
Import selectproposer.

Module rollback.

Inductive rollback_error :=
  | ErrRollbackStore (e : statestore.store_error)
  | ErrRollbackBlocks (e : blockstore.bs_error)
  | ErrRollbackNoState
  | ErrRollbackHeight (stateHeight blockHeight : Z)
  | ErrRollbackNoBlock (height : Z)
  | ErrRollbackSave (e : statestore.store_error)
  | ErrRollbackDelete (height : Z) (e : blockstore.bs_error).

(** The databases of the two stores. *)
Record NodeStores := mkStores { blocks : DB; states : DB }.

Section rollback.
Context `{Crypto} `{Dashd} `{StdTime} `{NetURL} `{Faults} `{OrderedCode} `{StoreCodec}.
Context `{BlockKeys} `{BlockStoreCodec}.

Notation X := (M NodeStores rollback_error).

Definition on_states {A} (f : statestore.store_error → rollback_error)
    (m : M DB statestore.store_error A) : X A := λ st,
  let '(d, r) := m (states st) in (mkStores (blocks st) d, wrap_err f r).

Definition on_blocks {A} (f : blockstore.bs_error → rollback_error)
    (m : M DB blockstore.bs_error A) : X A := λ st,
  let '(d, r) := m (blocks st) in (mkStores d (states st), wrap_err f r).

(** The block store as [LoadValidators] uses it, while its database works. *)
Definition view (d : DB) : BlockStore :=
  mkBlockStore
    (match (blockstore.bs_Base d).2 with Ok base => base | _ => 0%Z end)
    (λ height, match (blockstore.bs_LoadBlockMeta height d).2 with Ok meta => meta | _ => None end).

(** The height at which something changed last, when the last block is taken back. *)
Definition change_height (changed rollbackHeight : Z) : Z :=
  if (rollbackHeight <? changed)%Z then int64 (rollbackHeight + 1) else changed.

Definition Rollback : X (Z * bytes) :=
  invalidState ← on_states ErrRollbackStore statestore.Load;
  if State_IsEmpty invalidState then fail ErrRollbackNoState
  else
    height ← on_blocks ErrRollbackBlocks blockstore.bs_Height;
    if (height =? int64 (LastBlockHeight invalidState + 1))%Z
    then mret (LastBlockHeight invalidState, LastAppHash invalidState)
    else if negb (height =? LastBlockHeight invalidState)%Z
    then fail (ErrRollbackHeight (LastBlockHeight invalidState) height)
    else
      let rollbackHeight := int64 (LastBlockHeight invalidState - 1) in
      rollbackBlock ← on_blocks ErrRollbackBlocks (blockstore.bs_LoadBlockMeta rollbackHeight);
      match rollbackBlock with
      | None => fail (ErrRollbackNoBlock rollbackHeight)
      | Some rollbackBlock =>
          latestBlock ← on_blocks ErrRollbackBlocks
            (blockstore.bs_LoadBlockMeta (LastBlockHeight invalidState));
          match latestBlock with
          | None => fail (ErrRollbackNoBlock (LastBlockHeight invalidState))
          | Some latestBlock =>
              bs ← gets (view ∘ blocks);
              previousLastValidatorSet ← on_states ErrRollbackStore
                (statestore.LoadValidators rollbackHeight bs);
              previousParams ← on_states ErrRollbackStore
                (statestore.LoadConsensusParams (int64 (rollbackHeight + 1)));
              let valChangeHeight :=
                change_height (LastHeightValidatorsChanged invalidState) rollbackHeight in
              let paramsChangeHeight :=
                change_height (LastHeightConsensusParamsChanged invalidState) rollbackHeight in
              let rolledBackState := mkState
                (mkStateVersion (mkVersion BlockProtocol (AppVersion (Params_Version previousParams)))
                   TMCoreSemVer)
                (ChainID invalidState) (InitialHeight invalidState)
                (H_Height (Meta_Header rollbackBlock)) (LastBlockRound invalidState)
                (Meta_BlockID rollbackBlock) (H_Time (Meta_Header rollbackBlock))
                (H_CoreChainLockedHeight (Meta_Header rollbackBlock))
                (State_LastValidators invalidState) (Some previousLastValidatorSet) valChangeHeight
                previousParams paramsChangeHeight (H_ResultsHash (Meta_Header latestBlock))
                (H_AppHash (Meta_Header latestBlock)) in
              _ ← on_states ErrRollbackSave (statestore.Save rolledBackState);
              mret (LastBlockHeight rolledBackState, LastAppHash rolledBackState)
          end
      end.

(** The loop of [RollbackState], [n] heights down from [currentHeight]. *)
Fixpoint delete_blocks (n : nat) (currentHeight : Z) : X unit :=
  match n with
  | O => mret tt
  | S n =>
      _ ← on_blocks (ErrRollbackDelete currentHeight) (blockstore.DeleteBlock currentHeight);
      delete_blocks n (currentHeight - 1)
  end.

(** Once both stores are open. *)
Definition RollbackState (rollbackStore : bool) : X (Z * bytes) :=
  '(height, hash) ← Rollback;
  _ ← when rollbackStore
        (currentHeight ← on_blocks ErrRollbackBlocks blockstore.bs_Height;
         delete_blocks (Z.to_nat (currentHeight - height)) currentHeight);
  mret (height, hash).

End rollback.

End rollback.

Module rollbackthms.

Import storethms bsthms rollback.

(** ** Sets with another proposer *)

Section sets.
Context `{Crypto} `{Dashd} `{NetURL}.

Lemma storable_index v k : set_storable v → (0 ≤ k < Size v)%Z → set_storable (set_proposerIndex v k).
Proof.
  intros [Hv Hn [_ Hs] Hk Ht Hb] Hr. split; [exact Hv|exact Hn|done|exact Hk|exact Ht|]. revert Hb. unfold valset_ValidateBasic. cbn [Validators set_proposerIndex].
  destruct (length (Validators v) =? 0) eqn:El; [done|]. intros Hb.
  apply bind_Ok in Hb as (n & En & Hb). apply guard_Ok in Hb as [_ Hb].
  assert (n = Size v) as ->.
  { rewrite SafeConvertInt32_int64 in En by (unfold_ints; unfold Size in *; lia).
    rewrite bool_decide_eq_true_2 in En by (unfold in_int32; unfold_ints; unfold Size in *; lia). by injection En. }
  change (Size (set_proposerIndex v k)) with (Size v). rewrite En. orun. cbn [proposerIndex set_proposerIndex].
  rewrite (proj2 (Z.leb_gt _ _)) by lia. apply bind_Ok in Hb as ([] & Ea & Hb).
  cbn [HasPublicKeys set_proposerIndex]. rewrite Ea. orun.
  apply bind_Ok in Hb as ([] & Eb & Hb). change (thresholdPublicKeyValid (set_proposerIndex v k)) with (thresholdPublicKeyValid v).
  rewrite Eb. orun. apply bind_Ok in Hb as ([] & Ec & Hb). change (QuorumHashValid (set_proposerIndex v k)) with (QuorumHashValid v).
  rewrite Ec. orun. apply guard_Ok in Hb as [Eq Hb]. cbn [QuorumType set_proposerIndex]. rewrite Eq.
  apply bind_Ok in Hb as (p & _ & Hb). apply bind_Ok in Hb as ([] & _ & Hb).
  unfold Proposer. cbn [Validators proposerIndex set_proposerIndex]. rewrite El. orun.
  unfold GetByIndex. change (Size (set_proposerIndex v k)) with (Size v).
  destruct (Z.ltb_spec k 0), (Z.leb_spec (Size v) k); try lia. cbn [orb Validators set_proposerIndex].
  assert (Z.to_nat k < length (Validators v)) as Hlt by (unfold Size in *; lia).
  destruct (lookup_lt_is_Some_2 _ _ Hlt) as [w Ew]. rewrite Ew.
  rewrite (validate_all_In _ _ w Ea) by by eapply list_elem_of_lookup_2. orun. exact Hb.
Qed.
End sets.

(** ** Runs over both stores *)

Section thms.
Context `{Crypto} `{Dashd} `{StdTime} `{NetURL} `{Faults} `{OrderedCode} `{StoreCodec}.
Context `{BlockKeys} `{BlockStoreCodec}.
Hypothesis oc_law : orderedcode_law.
Hypothesis store_law : storethms.codec_law.
Hypothesis str_law : keys_law.
Hypothesis block_law : block_codec_law.

Lemma on_states_Ok {A} f (m : M DB statestore.store_error A) st d a :
  m (states st) = (d, Ok a) → on_states f m st = (mkStores (blocks st) d, Ok a).
Proof using. clear. intros E. unfold on_states. by rewrite E. Qed.

Lemma on_blocks_Ok {A} f (m : M DB blockstore.bs_error A) st d a :
  m (blocks st) = (d, Ok a) → on_blocks f m st = (mkStores d (states st), Ok a).
Proof using. clear. intros E. unfold on_blocks. by rewrite E. Qed.

Lemma reads_quiet {A} (m : M DB blockstore.bs_error A) d a :
  reads m d a → quiet d → ∃ d', m d = (d', Ok a) ∧ db_data d' = db_data d ∧ quiet d'.
Proof using. clear. intros (d' & r & E & Hd & Hq & _) Hquiet. destruct (Hq Hquiet) as [Hq' ->]. by exists d'. Qed.

(** The state after a block whose meta data is [m]. *)
Record after_block (s s' : State) (m : BlockMeta) : Prop := {
  ab_height : LastBlockHeight s' = H_Height (Meta_Header m);
  ab_round : LastBlockRound s' = Meta_Round m;
  ab_id : LastBlockID s' = Meta_BlockID m;
  ab_time : LastBlockTime s' = H_Time (Meta_Header m);
  ab_lock : LastCoreChainLockedBlockHeight s' = H_CoreChainLockedHeight (Meta_Header m);
  ab_last : State_LastValidators s' = State_Validators s;
  ab_chain : ChainID s' = ChainID s;
  ab_initial : InitialHeight s' = InitialHeight s;
  ab_version : State_Version s' =
    mkStateVersion (mkVersion BlockProtocol (AppVersion (Params_Version (State_Params s')))) TMCoreSemVer;
  ab_results : LastResultsHash s' = H_ResultsHash (Meta_Header m);
  ab_app : LastAppHash s' = H_AppHash (Meta_Header m) }.

(** A block that was checked against what its round made of the state leads to such a state. *)
Lemma checked_after s c id b lc m :
  checkRoundState s c b lc = Ok tt → CRS_AppHash c ≠ None → CRS_ResultsHash c ≠ None →
  CRS_CoreChainLock c = B_CoreChainLock b → Ver_Block (State_Consensus (State_Version s)) = BlockProtocol →
  Software (State_Version s) = TMCoreSemVer → Meta_BlockID m = id → Meta_Header m = B_Header b →
  Meta_Round m = CRS_Round c → after_block s (State_Update s id (B_Header b) c) m.
Proof using.
  intros Hc Ha Hr Hl Hv Hs Ei Eh Er. destruct (execthms.checkRoundState_Ok _ _ _ _ Hc) as (Ea & Eres & _ & _ & _ & Hlock).
  split; rewrite ?Eh, ?Ei, ?Er; try done; cbn [State_Update UpdateState LastCoreChainLockedBlockHeight State_Version LastResultsHash LastAppHash State_Params].
  - rewrite Hl. unfold validateCoreChainLock in Hlock. destruct (B_CoreChainLock b); ok_inv; bools; done.
  - by rewrite Hv, Hs.
  - by rewrite Eres.
  - by rewrite Ea.
Qed.

(** The state that is saved, made of the state [s] of height [n - 1] and the state [s'] after
    the next block. *)
Definition rolled (s s' : State) (n : Z) (last : ValidatorSet) : State :=
  mkState (State_Version s) (ChainID s) (InitialHeight s) (n - 1) (LastBlockRound s') (LastBlockID s)
    (LastBlockTime s) (LastCoreChainLockedBlockHeight s) (State_Validators s) (Some last)
    (change_height (LastHeightValidatorsChanged s') (n - 1)) (State_Params s)
    (change_height (LastHeightConsensusParamsChanged s') (n - 1)) (LastResultsHash s') (LastAppHash s').

Section rolled.
Variables (base n : Z) (hist : Z → State) (m : gmap bytes bytes) (v : ValidatorSet) (k : Z) (mb mt : BlockMeta).
Hypothesis Hst : stored base (n + 1) hist m.
Hypothesis Hbase : (base < n)%Z.
Hypothesis Hv : State_Validators (hist (n - 1)%Z) = Some v.
Hypothesis Hk : (0 ≤ k < Size v)%Z.
Hypothesis Hab : after_block (hist (n - 1)%Z) (hist n) mb.
Hypothesis Hat : after_block (hist n) (hist (n + 1)%Z) mt.
Hypothesis Hmb : H_Height (Meta_Header mb) = (n - 1)%Z.
Hypothesis Hmt : H_Height (Meta_Header mt) = n.

Notation s' := (rolled (hist n) (hist (n + 1)%Z) n (set_proposerIndex v k)).

Lemma bounds : (2 ≤ n)%Z ∧ (n + 1 < MaxInt64)%Z.
Proof using Hst Hbase.
  clear Hv Hk Hab Hat Hmb Hmt. pose proof (sd_range _ _ _ _ Hst). pose proof (sv_int _ _ (sd_hist _ _ _ _ Hst (n + 1)%Z ltac:(lia))). lia.
Qed.

Lemma not_first s h : LastBlockHeight s = h → (1 ≤ h < MaxInt64)%Z → is_first s = false.
Proof using. clear. intros E Hh. unfold is_first. rewrite E, int64_id by (unfold_ints; lia). apply Z.eqb_neq. lia. Qed.

Lemma rolled_height : save_height s' = n ∧ changed_at s' = change_height (LastHeightValidatorsChanged (hist (n + 1)%Z)) (n - 1).
Proof using Hst Hbase.
  pose proof bounds. assert (is_first s' = false) as Hf by (apply (not_first _ (n - 1)); [done|lia]).
  unfold save_height, changed_at. rewrite Hf. split; [|done]. cbn. rewrite int64_id by (unfold_ints; lia). lia.
Qed.

Lemma change_height_eq c : (1 ≤ c ≤ n + 1)%Z →
  change_height c (n - 1) = n ∨ (change_height c (n - 1) = c ∧ (c < n)%Z).
Proof using Hst Hbase.
  pose proof bounds. unfold change_height. intros Hc. destruct (Z.ltb_spec (n - 1) c); [left|right; lia].
  rewrite int64_id by (unfold_ints; lia). lia.
Qed.

Lemma rolled_evolves : evolves (hist (n - 1)%Z) s'.
Proof using Hst Hbase Hab Hat Hmb Hmt.
  pose proof bounds. destruct rolled_height as [Es Ec].
  pose proof (sd_hist _ _ _ _ Hst (n + 1)%Z ltac:(lia)) as S1. pose proof (sd_hist _ _ _ _ Hst n ltac:(lia)) as S0.
  pose proof (sd_steps _ _ _ _ Hst n ltac:(lia)) as [V1 P1].
  pose proof (sd_steps _ _ _ _ Hst (n - 1)%Z ltac:(lia)) as [V0 P0]. replace (n - 1 + 1)%Z with n in * by lia.
  assert (changed_at (hist (n + 1)%Z) = LastHeightValidatorsChanged (hist (n + 1)%Z)) as E1.
  { unfold changed_at. rewrite (not_first _ n); [done|by rewrite (ab_height _ _ _ Hat)|lia]. }
  rewrite (sv_height _ _ S1) in *. rewrite (sv_height _ _ S0) in *. split; rewrite Es, ?Ec.
  - destruct (change_height_eq (LastHeightValidatorsChanged (hist (n + 1)%Z))) as [->|[-> Hlt]]; [|by left|].
    { rewrite <- E1. apply S1. }
    right. destruct V1 as [V1|[V1 W1]]; [lia|]. destruct V0 as [V0|[V0 W0]]; [lia|]. split; [congruence|done].
  - cbn [LastHeightConsensusParamsChanged State_Params rolled].
    destruct (change_height_eq (LastHeightConsensusParamsChanged (hist (n + 1)%Z))) as [->|[-> Hlt]]; [apply S1|by left|].
    right. destruct P1 as [P1|[P1 W1]]; [lia|]. destruct P0 as [P0|[P0 W0]]; [lia|]. split; congruence.
Qed.

Lemma rolled_savable : savable s' n.
Proof using Hst Hbase Hv Hk Hab Hat Hmb Hmt.
  pose proof bounds. destruct rolled_height as [Es Ec].
  pose proof (sd_hist _ _ _ _ Hst (n + 1)%Z ltac:(lia)) as S1. pose proof (sd_hist _ _ _ _ Hst n ltac:(lia)) as S0.
  pose proof (sd_hist _ _ _ _ Hst (n - 1)%Z ltac:(lia)) as S2.
  assert (changed_at (hist (n + 1)%Z) = LastHeightValidatorsChanged (hist (n + 1)%Z)) as E1.
  { unfold changed_at. rewrite (not_first _ n); [done|by rewrite (ab_height _ _ _ Hat)|lia]. }
  split; [done|lia| | |].
  - destruct (sv_storable _ _ S0) as [Hid Hvals Hini Hpar]. split; [done|done| |done]. right.
    cbn [InitialHeight LastBlockHeight State_LastValidators rolled]. split.
    + destruct Hini as [(Hz & _)|[Hi _]]; rewrite (ab_height _ _ _ Hab), Hmb in *; lia.
    + eexists. split; [done|]. apply storable_index; [|done].
      destruct (ss_vals _ (sv_storable _ _ S2)) as (w & Ew & Hw). congruence.
  - rewrite Ec. destruct (change_height_eq (LastHeightValidatorsChanged (hist (n + 1)%Z))) as [->|[-> ?]];
      rewrite <- ?E1; pose proof (sv_changed _ _ S1); lia.
  - cbn [LastHeightConsensusParamsChanged rolled]. pose proof (sv_params _ _ S1).
    destruct (change_height_eq (LastHeightConsensusParamsChanged (hist (n + 1)%Z))) as [->|[-> ?]]; lia.
Qed.
End rolled.

(** What the block store is to [LoadValidators]. *)
Definition represents (bs : BlockStore) (base top : Z) (hist : Z → Entry) : Prop :=
  Base bs = base ∧
  ∀ h, in_int64 h → LoadBlockMeta bs h = if decide (base ≤ h ≤ top)%Z then entry_meta (hist h) else None.

Lemma view_represents base top hist seen d :
  rep base top hist seen (db_data d) → (base ≤ top)%Z → quiet d → represents (view d) base top hist.
Proof using oc_law str_law block_law.
  intros Hr Hle Hq. split.
  - destruct (reads_quiet _ _ _ (reads_first oc_law str_law base top hist seen d false Hr) Hq) as (d' & E & _).
    cbn. unfold blockstore.bs_Base, Iterator. rewrite E. by rewrite decide_True by done.
  - intros h Hh. destruct (reads_quiet _ _ _ (reads_LoadBlockMeta oc_law block_law base top hist seen d h Hr Hh) Hq) as (d' & E & _).
    cbn. by rewrite E.
Qed.

(** Computations that return. *)
Definition returns {A} (m : M NodeStores rollback_error A) (st : NodeStores) (Q : A → NodeStores → Prop) : Prop :=
  ∃ st' a, m st = (st', Ok a) ∧ Q a st'.

Lemma returns_blocks {A B} f (m : M DB blockstore.bs_error A) (g : A → M NodeStores rollback_error B) bd sd a Q :
  reads m bd a → quiet bd →
  (∀ bd', db_data bd' = db_data bd → quiet bd' → returns (g a) (mkStores bd' sd) Q) →
  returns (on_blocks f m ≫= g) (mkStores bd sd) Q.
Proof using.
  clear. intros Hm Hq Hg. destruct (reads_quiet _ _ _ Hm Hq) as (bd' & E & Hd & Hq').
  unfold returns. rewrite (bind_step _ _ _ _ _ (on_blocks_Ok f m (mkStores bd sd) bd' a E)). by apply Hg.
Qed.

Lemma returns_states {A B} f (m : M DB statestore.store_error A) (g : A → M NodeStores rollback_error B) bd sd a Q :
  answers m sd a → quiet sd →
  (∀ sd', db_data sd' = db_data sd → quiet sd' → returns (g a) (mkStores bd sd') Q) →
  returns (on_states f m ≫= g) (mkStores bd sd) Q.
Proof using.
  clear. intros Hm Hq Hg. destruct (Hm Hq) as (sd' & E & Hd & Hq').
  unfold returns. rewrite (bind_step _ _ _ _ _ (on_states_Ok f m (mkStores bd sd) sd' a E)). by apply Hg.
Qed.

Section both.
Variables (bbase sbase n : Z) (bhist : Z → Entry) (hist : Z → State) (seen : option Commit).
Variables (v : ValidatorSet) (k : Z) (mb mt : BlockMeta).
Hypothesis Hbbase : (bbase < n)%Z.
Hypothesis Hsbase : (sbase < n)%Z.
Hypothesis Emb : entry_meta (bhist (n - 1)%Z) = Some mb.
Hypothesis Emt : entry_meta (bhist n) = Some mt.
Hypothesis Hv : State_Validators (hist (n - 1)%Z) = Some v.
Hypothesis Hk : (0 ≤ k < Size v)%Z.
Hypothesis Hab : after_block (hist (n - 1)%Z) (hist n) mb.
Hypothesis Hat : after_block (hist n) (hist (n + 1)%Z) mt.

Notation s' := (rolled (hist n) (hist (n + 1)%Z) n (set_proposerIndex v k)).

Lemma meta_heights bd :
  rep bbase n bhist seen (db_data bd) → H_Height (Meta_Header mt) = n ∧ H_Height (Meta_Header mb) = (n - 1)%Z.
Proof using Hbbase Emb Emt.
  intros Hr. destruct (eo_meta _ _ (rp_ok _ _ _ _ _ Hr n ltac:(lia))) as (m1 & E1 & _ & _ & _ & ?).
  destruct (eo_meta _ _ (rp_ok _ _ _ _ _ Hr (n - 1)%Z ltac:(lia))) as (m2 & E2 & _ & _ & _ & ?). split; congruence.
Qed.

Lemma Rollback_ok bd sd :
  rep bbase n bhist seen (db_data bd) → quiet bd → runs sbase (n + 1) hist sd → quiet sd →
  (∀ bs sd', represents bs bbase n bhist → db_data sd' = db_data sd →
     answers (statestore.LoadValidators (n - 1) bs) sd' (set_proposerIndex v k)) →
  returns Rollback (mkStores bd sd) (λ r st,
    r = (n - 1, LastAppHash (hist (n + 1)))%Z ∧ db_data (blocks st) = db_data bd ∧ quiet (blocks st) ∧
    runs sbase n (push hist n s') (states st) ∧ quiet (states st)).
Proof using oc_law store_law str_law block_law Hbbase Hsbase Emb Emt Hv Hk Hab Hat.
  intros Hr Hbq Hrun Hsq Hload. pose proof (runs_stored oc_law store_law _ _ _ _ Hrun) as Hst.
  pose proof (sd_range _ _ _ _ Hst) as Hrange. pose proof (bounds sbase n hist _ Hst Hsbase) as Hn.
  assert (∀ h, (0 ≤ h ≤ n + 1)%Z → in_int64 h) as Hint by (intros; unfold in_int64; unfold_ints; lia).
  destruct (meta_heights bd Hr) as [Hmt Hmb].
  assert (LastBlockHeight (hist (n + 1)%Z) = n) as Eh by by rewrite (ab_height _ _ _ Hat).
  unfold Rollback. eapply returns_states; [by eapply gives_answers, gives_state|done|]. intros sd1 D1 Q1.
  assert (State_IsEmpty (hist (n + 1)%Z) = false) as ->.
  { apply bool_decide_eq_false_2. by destruct (ss_vals _ (sv_storable _ _ (sd_hist _ _ _ _ Hst (n + 1)%Z ltac:(lia)))) as (w & -> & _). }
  eapply returns_blocks; [by apply (reads_first oc_law str_law bbase n bhist seen bd true)|done|]. intros bd1 B1 R1.
  rewrite decide_True, Eh, !int64_id by (lia || apply Hint; lia).
  rewrite (proj2 (Z.eqb_neq _ _)), Z.eqb_refl by lia. cbn [negb].
  eapply returns_blocks; [eapply (reads_LoadBlockMeta oc_law block_law bbase n bhist seen); [by rewrite B1|apply Hint; lia]|done|].
  intros bd2 B2 R2. rewrite decide_True, Emb by lia.
  eapply returns_blocks; [eapply (reads_LoadBlockMeta oc_law block_law bbase n bhist seen); [by rewrite B2, B1|apply Hint; lia]|done|].
  intros bd3 B3 R3. rewrite decide_True, Emt by lia. unfold returns. erewrite bind_step by done. cbn [compose blocks].
  eapply returns_states; [apply Hload; [|done]|done|].
  { apply (view_represents bbase n bhist seen); [by rewrite B3, B2, B1|lia|done]. }
  intros sd2 D2 Q2. replace (n - 1 + 1)%Z with n by lia.
  eapply returns_states; [eapply gives_answers, (gives_params oc_law n (hist n)); [apply Hst; lia|rewrite D2, D1; apply Hst; lia]|done|].
  intros sd3 D3 Q3. cbv zeta. match goal with |- context [statestore.Save ?s] => replace s with s' end.
  2: { clear -Hab Hat Hmb. destruct Hab, Hat. unfold rolled. f_equal; congruence. }
  destruct (Save_spec oc_law s' n sd3) as (w & p & pb & set & _ & _ & _ & _ & _ & sd4 & r & E4 & L & _).
  { by eapply (rolled_savable sbase n hist _ v k mb mt). }
  destruct (L Q3) as [Q4 ->]. unfold returns. erewrite bind_step by (apply on_states_Ok; exact E4).
  eexists _, _. split; [done|]. split_and!; [done|cbn; congruence|done| |done].
  apply (runs_save sbase (n + 1) hist sd3 s' n sd4 (Ok tt)); [|lia| | |done].
  - apply (runs_read _ _ _ sd); [done|congruence].
  - by eapply (rolled_savable sbase n hist _ v k mb mt).
  - by eapply (rolled_evolves sbase n hist _ v k mb mt).
Qed.

End both.

Lemma bruns_data base top hist seen d d' :
  bruns base top hist seen d → db_data d' = db_data d → quiet d' → bruns base top hist seen d'.
Proof using.
  intros Hb Hd Hq. eapply (br_read base top hist seen d d' (λ _, (d', Ok tt)) tt Hb); [|done].
  exists d', (Ok tt). split_and!; [done|done|done|by intros []].
Qed.

(** The block above the state is deleted. *)
Lemma delete_last base n hist seen bd sd :
  bruns base n hist seen bd → quiet bd → (base ≤ n)%Z →
  returns (currentHeight ← on_blocks ErrRollbackBlocks blockstore.bs_Height;
           delete_blocks (Z.to_nat (currentHeight - (n - 1))) currentHeight) (mkStores bd sd)
    (λ _ st, states st = sd ∧ bruns base (n - 1) hist seen (blocks st)).
Proof using oc_law str_law block_law.
  intros Hb Hq Hle. pose proof (bruns_rep oc_law str_law block_law _ _ _ _ _ Hb) as Hr.
  eapply returns_blocks; [by apply (reads_first oc_law str_law base n hist seen bd true)|done|]. intros bd1 D1 Q1.
  rewrite decide_True by done. replace (Z.to_nat (n - (n - 1))) with 1 by lia. cbn [delete_blocks].
  pose proof (bruns_data _ _ _ _ _ _ Hb D1 Q1) as Hb1. rewrite <- D1 in Hr.
  destruct (writes_DeleteBlock oc_law str_law block_law base n hist seen bd1 n Hr ltac:(lia)) as (bd2 & r & E & L & _).
  destruct (L Q1) as [_ ->]. unfold returns. erewrite bind_step by (apply on_blocks_Ok; exact E).
  eexists _, tt. split; [done|]. split; [done|]. by eapply br_delete.
Qed.

(** The state [s] of height [n] that is made of the state [old] that was saved for the height
    and the state [top] after the block of the height; [last] are the validators of the block
    before.  A change that the block made counts as one of the height. *)
Record rolled_back (n : Z) (old top : State) (last : ValidatorSet) (s : State) : Prop := {
  rb_chain : ChainID s = ChainID old ∧ InitialHeight s = InitialHeight old ∧ State_Version s = State_Version old;
  rb_block : LastBlockHeight s = LastBlockHeight old ∧ LastBlockID s = LastBlockID old ∧
    LastBlockTime s = LastBlockTime old;
  rb_lock : LastCoreChainLockedBlockHeight s = LastCoreChainLockedBlockHeight old;
  rb_vals : State_Validators s = State_Validators old ∧ State_LastValidators s = Some last;
  rb_vals_changed : LastHeightValidatorsChanged s =
    if decide (LastHeightValidatorsChanged top = n + 1)%Z then n else LastHeightValidatorsChanged old;
  rb_params : State_Params s = State_Params old;
  rb_params_changed : LastHeightConsensusParamsChanged s =
    if decide (LastHeightConsensusParamsChanged top = n + 1)%Z then n else LastHeightConsensusParamsChanged old;
  rb_round : LastBlockRound s = LastBlockRound top;
  rb_hashes : LastAppHash s = LastAppHash top ∧ LastResultsHash s = LastResultsHash top }.

Lemma change_height_cases n c c' :
  (1 ≤ n < MaxInt64)%Z → (c = n + 1 ∨ c = c')%Z → (c' ≤ n)%Z →
  change_height c (n - 1) = if decide (c = n + 1)%Z then n else c'.
Proof using.
  clear. intros Hn Hc Hle. unfold change_height. replace (n - 1 + 1)%Z with n by lia.
  rewrite int64_id by (unfold_ints; lia). destruct (decide _), (Z.ltb_spec (n - 1) c); lia.
Qed.

Lemma rolled_is_back base n hist m last mb mt :
  stored base (n + 1) hist m → (base < n)%Z →
  after_block (hist (n - 1)%Z) (hist n) mb → after_block (hist n) (hist (n + 1)%Z) mt →
  H_Height (Meta_Header mb) = (n - 1)%Z → H_Height (Meta_Header mt) = n →
  rolled_back n (hist n) (hist (n + 1)%Z) last (rolled (hist n) (hist (n + 1)%Z) n last).
Proof using.
  intros Hst Hbase Hab Hat Hmb Hmt. destruct (bounds base n hist m Hst Hbase) as [B1 B2].
  pose proof (sd_hist _ _ _ _ Hst (n + 1)%Z ltac:(lia)) as S1. pose proof (sd_hist _ _ _ _ Hst n ltac:(lia)) as S0.
  pose proof (sd_steps _ _ _ _ Hst n ltac:(lia)) as [V P]. pose proof (ab_height _ _ _ Hab) as E0.
  pose proof (ab_height _ _ _ Hat) as E1. rewrite (sv_height _ _ S1) in V, P.
  pose proof (sv_changed _ _ S0) as C0. unfold changed_at in V, C0.
  rewrite (not_first (hist n) (n - 1)%Z) in V, C0 by (congruence || lia).
  rewrite (not_first (hist (n + 1)%Z) n) in V by (congruence || lia).
  split; cbn; try done; [by rewrite E0, Hmb|apply change_height_cases; [lia| |lia]|apply change_height_cases; [lia| |]].
  - destruct V as [V|[V _]]; auto.
  - destruct P as [P|[P _]]; auto.
  - apply (sv_params _ _ S0).
Qed.

(** C15: rolling back a node that has the state after the last block [n] makes the state before
    that block the last one again: it is saved, and the state store gives it back and all
    earlier heights as before.  The block stays in the block store, which ends at its height,
    unless the flag for removing it was given: then the block store ends at the height of the
    state.  The saved state has the chain, the version, the last block, the core chain lock
    height, the validators and the parameters of the state that was saved before the block, and
    the last validators as they are loaded; the heights of the last changes are those of that
    state too, or [n] for what the block changed.  But its round, the hash of the application
    and the hash of the results are those of the state that was rolled back, as a block has the
    hashes of its own execution. *)
Theorem rollback_restores bbase sbase n bhist hist seen bd sd v k mb mt (store : bool) :
  bruns bbase n bhist seen bd → quiet bd → runs sbase (n + 1) hist sd → quiet sd →
  (bbase < n)%Z → (sbase < n)%Z →
  entry_meta (bhist (n - 1)%Z) = Some mb → entry_meta (bhist n) = Some mt →
  after_block (hist (n - 1)%Z) (hist n) mb → after_block (hist n) (hist (n + 1)%Z) mt →
  State_Validators (hist (n - 1)%Z) = Some v → (0 ≤ k < Size v)%Z →
  (∀ bs sd', represents bs bbase n bhist → db_data sd' = db_data sd →
     answers (statestore.LoadValidators (n - 1) bs) sd' (set_proposerIndex v k)) →
  ∃ st s, RollbackState store (mkStores bd sd) = (st, Ok (n - 1, LastAppHash (hist (n + 1))))%Z ∧
    bruns bbase (if store then n - 1 else n)%Z bhist seen (blocks st) ∧
    runs sbase n (push hist n s) (states st) ∧ (∃ d, statestore.Load (states st) = (d, Ok s)) ∧
    rolled_back n (hist n) (hist (n + 1)%Z) (set_proposerIndex v k) s.
Proof using oc_law store_law str_law block_law.
  intros Hb Hbq Hrun Hsq Hbb Hsb Emb Emt Hab Hat Hv Hk Hload.
  pose proof (bruns_rep oc_law str_law block_law _ _ _ _ _ Hb) as Hr.
  pose proof (runs_stored oc_law store_law _ _ _ _ Hrun) as Hst.
  destruct (Rollback_ok bbase sbase n bhist hist seen v k mb mt Hbb Hsb Emb Emt Hv Hk Hab Hat bd sd Hr Hbq Hrun Hsq Hload)
    as ([bd1 sd1] & ? & E & -> & Hbd1 & Hbq1 & Hrun1 & Hsq1). cbn [blocks states] in *.
  pose proof (bruns_data _ _ _ _ _ _ Hb Hbd1 Hbq1) as Hb1. rewrite <- Hbd1 in Hr.
  destruct (meta_heights bbase n bhist seen mb mt Hbb Emb Emt bd1 Hr) as [Hmt Hmb].
  pose proof (rolled_is_back sbase n hist _ (set_proposerIndex v k) mb mt Hst Hsb Hab Hat Hmb Hmt) as Hback.
  set (s := rolled _ _ _ _) in *.
  assert (∃ d, statestore.Load sd1 = (d, Ok s)) as Hl.
  { destruct (gives_answers _ _ _ (gives_state oc_law store_law _ _ _ _ (runs_stored oc_law store_law _ _ _ _ Hrun1)) Hsq1) as (d & El & _).
    exists d. by rewrite El, push_same. }
  unfold RollbackState. erewrite bind_step by exact E. destruct store; cbn [when].
  2: { by exists (mkStores bd1 sd1), s. }
  destruct (delete_last bbase n bhist seen bd1 sd1 Hb1 Hbq1 ltac:(lia)) as ([bd2 sd2] & [] & E2 & Hs2 & Hb2).
  cbn [states] in Hs2. subst sd2.
  erewrite bind_step by exact E2. by exists (mkStores bd2 sd1), s.
Qed.

(** A node that stopped between saving a block and the state after it keeps its state; with the
    flag, the block is removed. *)
Theorem rollback_half_saved bbase sbase n bhist hist seen bd sd (store : bool) :
  bruns bbase (n + 1) bhist seen bd → quiet bd → runs sbase (n + 1) hist sd → quiet sd →
  (bbase ≤ n + 1)%Z → LastBlockHeight (hist (n + 1)%Z) = n →
  ∃ st, RollbackState store (mkStores bd sd) = (st, Ok (n, LastAppHash (hist (n + 1)%Z))) ∧
    bruns bbase (if store then n else n + 1)%Z bhist seen (blocks st) ∧ runs sbase (n + 1) hist (states st).
Proof using oc_law store_law str_law block_law.
  intros Hb Hbq Hrun Hsq Hbb El. pose proof (bruns_rep oc_law str_law block_law _ _ _ _ _ Hb) as Hr.
  pose proof (runs_stored oc_law store_law _ _ _ _ Hrun) as Hst. pose proof (sd_range _ _ _ _ Hst) as Hrange.
  pose proof (sd_hist _ _ _ _ Hst (n + 1)%Z ltac:(lia)) as S1. pose proof (sv_int _ _ S1).
  assert (returns Rollback (mkStores bd sd) (λ r st, r = (n, LastAppHash (hist (n + 1)%Z)) ∧ db_data (blocks st) = db_data bd ∧
    quiet (blocks st) ∧ db_data (states st) = db_data sd)) as ([bd1 sd1] & ? & E & -> & D1 & Q1 & D2).
  { unfold Rollback. eapply returns_states; [by eapply gives_answers, gives_state|done|]. intros sd1 D1 Q1.
    assert (State_IsEmpty (hist (n + 1)%Z) = false) as ->.
    { apply bool_decide_eq_false_2. by destruct (ss_vals _ (sv_storable _ _ S1)) as (w & -> & _). }
    eapply returns_blocks; [by apply (reads_first oc_law str_law bbase (n + 1) bhist seen bd true)|done|]. intros bd1 B1 R1.
    rewrite decide_True, El, int64_id, Z.eqb_refl by (unfold_ints; lia). by eexists _, _. }
  cbn [blocks states] in *. pose proof (bruns_data _ _ _ _ _ _ Hb D1 Q1) as Hb1.
  assert (runs sbase (n + 1) hist sd1) as Hrun1 by by eapply runs_read.
  unfold RollbackState. erewrite bind_step by exact E. destruct store; cbn [when]; [|by exists (mkStores bd1 sd1)].
  destruct (delete_last bbase (n + 1) bhist seen bd1 sd1 Hb1 Q1 Hbb) as ([bd2 sd2] & [] & E2 & Hs2 & Hb2).
  cbn [states blocks] in *. subst sd2. replace (n + 1 - 1)%Z with n in * by lia.
  erewrite bind_step by exact E2. by exists (mkStores bd2 sd1).
Qed.

End thms.

End rollbackthms.
