(* ===== verification/RollbackDemo.v ===== *)
(** * A node that is rolled back

    A node with the states of three heights and the headers of two blocks, in which the
    application's hash changed with the last block. *)
From Stdlib Require Import ZArith Lia Init.Byte.
From stdpp Require Import base numbers list sets gmap fin_maps.
From S2P Require Import Prelude.
From S2P Require Import StateM.
From S2P Require Import DB.
From S2P Require Import Merkle.
From S2P Require Import PartSet.
From S2P Require Import Types.
From S2P Require Import Crypto.
From S2P Require Import QuorumSign.
From S2P Require Import Proposal.
From S2P Require Import ValidatorSet.
From S2P Require Import Evidence.
From S2P Require Import Block.
From S2P Require Import Params.
From S2P Require Import SmState.
From S2P Require Import SmProto.
From S2P Require Import Execution.
From S2P Require Import ExecutionDemo.
From S2P Require Import SelectProposer.
From S2P Require Import StateStore.
From S2P Require Import StateStoreThms.
From S2P Require Import StateStoreDemo.
From S2P Require Import BlockStore.
From S2P Require Import BlockStoreThms.
From S2P Require Import BlockStoreDemo.
From S2P Require Import Rollback.

Import statem db partset types crypto quorum proposal valset evidence block params sm smproto.
Import execdemo selectproposer storethms storedemo bsthms bsdemo rollback rollbackthms.

Module rollbackdemo.

#[local] Existing Instances toy_crypto toy_dashd toy_time toy_url toy_faults toy_orderedcode toy_codec.
#[local] Existing Instances toy_keys toy_block_codec BlockMeta_eq_dec BlockMeta_countable Commit_eq_dec Commit_countable.

(** ** The blocks *)

(** The header of the first block, at another height and with another hash of the
    application. *)
Definition header_at (height : Z) (last : BlockID) (app : byte) : block.Header :=
  mkHeader (H_Version header1) (H_ChainID header1) height 3 (H_Time header1 + height) last
    (H_LastCommitHash header1) (H_DataHash header1) (H_ValidatorsHash header1)
    (H_NextValidatorsHash header1) (H_ConsensusHash header1) (H_NextConsensusHash header1)
    (demo_hash app) (H_ResultsHash header1) (H_EvidenceHash header1) (H_ProposerProTxHash header1) 1.

Definition id_for (h : block.Header) : BlockID :=
  mkBlockID (match Header_Hash (Some h) with Ok hash => hash | _ => [] end)
    (BlockID_PartSetHeader id1) (BlockID_StateID id1).

Definition h1 : block.Header := header_at 1 nilBlockID x06.
Definition i1 : BlockID := id_for h1.
Definition h2 : block.Header := header_at 2 i1 x09.
Definition i2 : BlockID := id_for h2.

Definition light (h : block.Header) : Entry := Light h commit1 (id_for h).
Definition meta_for (h : block.Header) : BlockMeta := mkBlockMeta (id_for h) (-1) h (-1) 0 false.

Lemma light_ok h n :
  filled h → blockstore.BlockMetaFromProto (meta_for h) = Ok (meta_for h) → H_Height h = n → entry_ok n (light h).
Proof.
  intros Hf Hm Hh. split; [|done|by intros ??? [= <- <- <-]; apply commits_ok].
  exists (meta_for h). split_and!; [done|by eexists|done..].
Qed.

Lemma lights_ok : entry_ok 1 (light h1) ∧ entry_ok 2 (light h2).
Proof.
  split; (apply light_ok; [vm_compute; split_and!; discriminate|vm_compute; reflexivity|reflexivity]).
Qed.

Lemma hashes_ne : entry_hash (light h2) ≠ entry_hash (light h1).
Proof. vm_compute. discriminate. Qed.

Definition bhist : Z → Entry := upd (upd (λ _, light h1) 2 (light h2)) 1 (light h1).

Lemma header_one base top hist seen d h hd :
  bruns base top hist seen d → quiet d → entry_ok h (light hd) → (1 ≤ h < MaxInt64)%Z →
  ((base ≤ top)%Z → h = (base - 1)%Z ∧ is_light (hist base)) →
  (∀ h', (base ≤ h' ≤ top)%Z → entry_hash (hist h') ≠ entry_hash (light hd)) →
  ∃ d', bruns h (if decide (base ≤ top)%Z then top else h) (upd hist h (light hd)) seen d' ∧ quiet d'.
Proof.
  intros Hb Hq He Hh Ht Hf.
  destruct (writes_SaveSignedHeader toy_orderedcode_law base top hist seen d h hd commit1 (id_for hd)
              (marshal (meta_for hd)) (marshal commit1)) as (d' & r & E & Hq' & _).
  - by apply (bruns_rep toy_orderedcode_law toy_keys_law toy_block_codec_law).
  - done.
  - unfold in_int64. unfold_ints. lia.
  - intros Hc. assert (base ≤ top)%Z as Hle by lia. destruct (Ht Hle). lia.
  - done.
  - done.
  - destruct (Hq' Hq) as [Hq2 ->]. exists d'. split; [|done]. by eapply br_header.
Qed.

(** Both headers were saved, the last one first. *)
Lemma demo_blocks : ∃ d, bruns 1 2 bhist None d ∧ quiet d.
Proof.
  destruct lights_ok as [L1 L2].
  destruct (header_one 1 0 (λ _, light h1) None db0 2 h2) as (d & Hb & Hq);
    [by apply br_new|apply db0_quiet|done|done|lia|lia|].
  apply (header_one 2 2 (upd (λ _, light h1) 2 (light h2)) None d 1 h1 Hb Hq L1); [done|done|].
  intros h' Hh'. assert (h' = 2)%Z as -> by lia. rewrite upd_same. exact hashes_ne.
Qed.

(** ** The states *)

Definition state_at (height round : Z) (id : BlockID) (time : Z) (app : byte) : State :=
  mkState (mkStateVersion (mkVersion BlockProtocol (AppVersion (Params_Version DefaultConsensusParams))) TMCoreSemVer)
    (ChainID genesis) 1 height round id time 3 (Some solo)
    (Some (if (height =? 0)%Z then NewEmptyValidatorSet else solo)) 1 DefaultConsensusParams 1
    (H_ResultsHash header1) (demo_hash app).

(** After the genesis and the two blocks. *)
Definition states3 (h : Z) : State :=
  if (h =? 1)%Z then state_at 0 0 nilBlockID (LastBlockTime genesis) x05
  else if (h =? 2)%Z then state_at 1 0 i1 (H_Time h1) x06
  else state_at 2 0 i2 (H_Time h2) x09.

Lemma states3_savable h : h = 1%Z ∨ h = 2%Z ∨ h = 3%Z → savable (states3 h) h.
Proof.
  assert (set_storable solo) as Hs by (apply (solo_storable (QuorumHash solo)); by left).
  intros Hh. split.
  - by destruct Hh as [->|[->| ->]].
  - destruct Hh as [->|[->| ->]]; done.
  - split.
    + destruct Hh as [->|[->| ->]]; vm_compute; reflexivity.
    + exists solo. split; [by destruct Hh as [->|[->| ->]]|done].
    + destruct Hh as [->|[->| ->]]; [by left|right; split; [done|by exists solo]..].
    + by destruct Hh as [->|[->| ->]].
  - by destruct Hh as [->|[->| ->]].
  - by destruct Hh as [->|[->| ->]].
Qed.

Lemma states3_evolve h : h = 1%Z ∨ h = 2%Z → evolves (states3 h) (states3 (h + 1)).
Proof.
  intros Hh. split; right.
  - split; [by destruct Hh as [->| ->]|]. exists solo, solo. split_and!; [by destruct Hh as [->| ->]..|]. by exists 0%Z.
  - by destruct Hh as [->| ->].
Qed.

Definition hist3 : Z → State := push (push (λ _, states3 1) 2 (states3 2)) 3 (states3 3).

Lemma demo_states : ∃ d, runs 1 3 hist3 d ∧ quiet d.
Proof.
  destruct (save_quiet (states3 1) 1 db0) as (d1 & E1 & Q1); [apply states3_savable; auto|apply db0_quiet|].
  destruct (save_quiet (states3 2) 2 d1) as (d2 & E2 & Q2); [apply states3_savable; auto|done|].
  destruct (save_quiet (states3 3) 3 d2) as (d3 & E3 & Q3); [apply states3_savable; auto|done|].
  exists d3. split; [|done].
  apply (runs_save 1 2 (push (λ _, states3 1) 2 (states3 2)) d2 (states3 3) 3 d3 (Ok tt));
    [|done|apply states3_savable; auto|apply (states3_evolve 2); auto|done].
  apply (runs_save 1 1 (λ _, states3 1) d1 (states3 2) 2 d2 (Ok tt));
    [|done|apply states3_savable; auto|apply (states3_evolve 1); auto|done].
  apply (runs_genesis (states3 1) 1 db0 d1); [|done]. split; [apply states3_savable; auto|done].
Qed.

Lemma demo_after :
  after_block (hist3 1) (hist3 2) (meta_for h1) ∧ after_block (hist3 2) (hist3 3) (meta_for h2).
Proof. split; split; reflexivity. Qed.

(** The first validator proposed at the first height. *)
Lemma demo_load bs sd sd' :
  runs 1 3 hist3 sd → db_data sd' = db_data sd →
  answers (statestore.LoadValidators 1 bs) sd' (set_proposerIndex solo 0).
Proof.
  intros Hr Hd. pose proof (runs_stored toy_orderedcode_law toy_codec_law _ _ _ _ Hr) as Hst. rewrite <- Hd in Hst.
  destruct (gives_set toy_orderedcode_law 1 (hist3 1) sd') as (v & i & v' & Ev & G & E & k & ->); [by apply Hst..|].
  assert (v = solo) as -> by (injection Ev; done).
  unfold statestore.LoadValidators. eapply answers_bind; [by apply gives_answers, gives_or_err|]. intros d1 _.
  eapply answers_bind; [by apply answers_lift_err|]. intros d2 _. cbn [Z.eqb Pos.eqb].
  destruct (Validators solo !! 0) as [w|] eqn:Ew; [|done]. apply (set_first_ok _ solo k d2 w); [done| |done].
  apply (sst_nodup _ (solo_storable (QuorumHash solo) (or_introl eq_refl))).
Qed.

(** ** Witnesses *)

(** The node is back at height 1, with the hash that the application had after height 2. *)
Lemma rollback_restores_witness :
  ∃ bd sd st s, RollbackState true (mkStores bd sd) = (st, Ok (1%Z, demo_hash x09)) ∧
    (∃ d, statestore.Load (states st) = (d, Ok s)) ∧ LastAppHash s = demo_hash x09 ∧
    LastAppHash (hist3 2) = demo_hash x06 ∧ bruns 1 1 bhist None (blocks st).
Proof.
  destruct demo_blocks as (bd & Hb & Hbq). destruct demo_states as (sd & Hr & Hsq). destruct demo_after as [A1 A2].
  destruct (rollback_restores toy_orderedcode_law toy_codec_law toy_keys_law toy_block_codec_law
              1 1 2 bhist hist3 None bd sd solo 0 (meta_for h1) (meta_for h2) true Hb Hbq Hr Hsq)
    as (st & s & E & Hb' & _ & Hl & Hback);
    [reflexivity|reflexivity|reflexivity|reflexivity|exact A1|exact A2|reflexivity|split; [discriminate|reflexivity]| |].
  { intros bs sd' _ Hd. exact (demo_load bs sd sd' Hr Hd). }
  exists bd, sd, st, s. split; [exact E|]. split; [exact Hl|]. split; [rewrite (proj1 (rb_hashes _ _ _ _ _ Hback)); reflexivity|]. split; [reflexivity|exact Hb'].
Defined.

End rollbackdemo.
