(* ===== verification/Mempool.v ===== *)
(** * internal/mempool: pending transactions

    Models [src/internal/mempool]: the cache of seen transactions (cache.go), the pool with
    its list, its indexes by key and by sender and its limits (mempool.go, tx.go).
    The identifiers of peers (ids.go) are in [MempoolIDs].  [CheckTx] is split where it holds no lock: before and
    after the call of the application, and where it trades its read lock for a write lock;
    these sections are the steps that calls of different goroutines interleave in.  The
    elements of the linked list are numbered in the order of their creation and their values
    are in a heap, since a recheck changes the priority of an element in place.  The answers
    of the application and the clock are arguments.  Metrics and logging are left out. *)
From Stdlib Require Import ZArith Lia Init.Byte Sorted.
From stdpp Require Import base numbers list sets gmap fin_maps sorting.
From S2P Require Import Prelude.
From S2P Require Import StateM.
From S2P Require Import Merkle.
From S2P Require Import Types.
From S2P Require Import Crypto.
From S2P Require Import Proposal.
From S2P Require Import Block.
From S2P Require Import SmState.
From S2P Require Import Execution.

Import statem types crypto proposal block sm abci.

(** An order of the elements of a map, or of elements that a sort does not order. *)
Class AnyOrder := { any_order : ∀ {A : Type}, list A → list A }.

Module mempool.

(** ** Messages and configuration *)

Record ResponseCheckTx := mkRespCheck {
  RC_Code : Z; RC_Data : bytes; RC_Info : bytes; RC_GasWanted : Z; RC_Codespace : bytes;
  RC_Sender : bytes; RC_Priority : Z }.

Definition CodeTypeOK : Z := 0.

Record MempoolConfig := mkMempoolConfig {
  cfg_Size : Z; MaxTxsBytes : Z; CacheSize : Z; KeepInvalidTxsInCache : bool; MaxTxBytes : Z;
  TTLDuration : Z; TTLNumBlocks : Z }.

Inductive mempool_error :=
  | ErrTxTooLarge | ErrPreCheck | ErrConn | ErrTxInCache | ErrPostCheck | ErrTxNotFound.

Definition tx_size (tx : bytes) : Z := Z.of_nat (length tx).

(** ** The cache *)

Definition maxCachedRejectionBytes : Z := 2048.

(** The keys from the oldest to the newest; [cacheMap] has the keys of the list. *)
Record LRUTxCache := mkLRU {
  lru_size : Z; cacheMap : gset bytes; lru_list : list bytes;
  rejections : gmap bytes ResponseCheckTx; committed : gset bytes }.

(** [NopTxCache] has no state. *)
Definition TxCache : Type := option LRUTxCache.

Definition NewLRUTxCache (cacheSize : Z) : LRUTxCache := mkLRU cacheSize ∅ [] ∅ ∅.

Definition drop_key (key : bytes) (l : list bytes) : list bytes := filter (λ k, k ≠ key) l.

Definition forget (key : bytes) (c : LRUTxCache) : LRUTxCache :=
  mkLRU (lru_size c) (cacheMap c ∖ {[key]}) (drop_key key (lru_list c)) (delete key (rejections c))
    (committed c ∖ {[key]}).

Section cache.
Context `{Crypto}.

Definition lru_Push (c : LRUTxCache) (tx : bytes) : LRUTxCache * bool :=
  let key := Tx_Hash tx in
  if bool_decide (key ∈ cacheMap c) then
    (mkLRU (lru_size c) (cacheMap c) (drop_key key (lru_list c) ++ [key]) (rejections c) (committed c),
     false)
  else
    let c := if (lru_size c <=? Z.of_nat (length (lru_list c)))%Z
             then match lru_list c with front :: _ => forget front c | [] => c end
             else c in
    (mkLRU (lru_size c) (cacheMap c ∪ {[key]}) (lru_list c ++ [key]) (rejections c) (committed c), true).

Definition lru_SetRejection (c : LRUTxCache) (tx : bytes) (res : ResponseCheckTx) : LRUTxCache :=
  let key := Tx_Hash tx in
  if negb (bool_decide (key ∈ cacheMap c)) then c
  else if bool_decide (key ∈ committed c) then c
  else if (maxCachedRejectionBytes <?
           tx_size (RC_Codespace res) + tx_size (RC_Info res) + tx_size (RC_Data res))%Z
  then mkLRU (lru_size c) (cacheMap c) (lru_list c) (delete key (rejections c)) (committed c)
  else mkLRU (lru_size c) (cacheMap c) (lru_list c)
         (<[key := mkRespCheck (RC_Code res) (RC_Data res) (RC_Info res) 0 (RC_Codespace res) [] 0]>
            (rejections c)) (committed c).

Definition lru_MarkCommitted (c : LRUTxCache) (tx : bytes) : LRUTxCache :=
  let key := Tx_Hash tx in
  if negb (bool_decide (key ∈ cacheMap c)) then c
  else mkLRU (lru_size c) (cacheMap c) (lru_list c) (delete key (rejections c)) (committed c ∪ {[key]}).

Definition Push (c : TxCache) (tx : bytes) : TxCache * bool :=
  match c with None => (None, true) | Some c => let '(c, b) := lru_Push c tx in (Some c, b) end.

Definition Remove (c : TxCache) (tx : bytes) : TxCache := forget (Tx_Hash tx) <$> c.
Definition Cache_Has (c : TxCache) (tx : bytes) : bool :=
  match c with None => false | Some c => bool_decide (Tx_Hash tx ∈ cacheMap c) end.
Definition SetRejection (c : TxCache) (tx : bytes) (res : ResponseCheckTx) : TxCache :=
  (λ c, lru_SetRejection c tx res) <$> c.
Definition MarkCommitted (c : TxCache) (tx : bytes) : TxCache := (λ c, lru_MarkCommitted c tx) <$> c.
Definition Rejection (c : TxCache) (tx : bytes) : option ResponseCheckTx :=
  c ≫= λ c, rejections c !! Tx_Hash tx.
Definition Cache_Reset (c : TxCache) : TxCache := (λ c, NewLRUTxCache (lru_size c)) <$> c.

End cache.

(** ** The pool *)

Record WrappedTx := mkWtx {
  w_tx : bytes; w_hash : bytes; w_height : Z; w_timestamp : Z; w_gasWanted : Z; w_priority : Z;
  w_sender : bytes; w_peers : gset Z }.

Definition w_Size (w : WrappedTx) : Z := tx_size (w_tx w).

Definition SetPeer (id : Z) (w : WrappedTx) : WrappedTx :=
  mkWtx (w_tx w) (w_hash w) (w_height w) (w_timestamp w) (w_gasWanted w) (w_priority w) (w_sender w)
    (w_peers w ∪ {[id]}).

Definition SetPriority (p : Z) (w : WrappedTx) : WrappedTx :=
  mkWtx (w_tx w) (w_hash w) (w_height w) (w_timestamp w) (w_gasWanted w) p (w_sender w) (w_peers w).

(** An element of the list with its value. *)
Definition elt : Type := nat * WrappedTx.

(** [mp_elts] holds the values of all elements that were ever made, [mp_txs] the list; the
    waker is signalled or not. *)
Record TxMempool := mkPool {
  mp_cache : TxCache;
  mp_txsBytes : Z;
  mp_notified : bool;
  mp_waker : option bool;
  mp_preCheck : option (bytes → bool);
  mp_postCheck : option (bytes → ResponseCheckTx → bool);
  mp_height : Z;
  mp_elts : gmap nat WrappedTx;
  mp_txs : list nat;
  mp_txByKey : gmap bytes nat;
  mp_txBySender : gmap bytes nat;
  mp_fresh : nat }.

Definition set_cache (c : TxCache) (p : TxMempool) : TxMempool :=
  mkPool c (mp_txsBytes p) (mp_notified p) (mp_waker p) (mp_preCheck p) (mp_postCheck p) (mp_height p)
    (mp_elts p) (mp_txs p) (mp_txByKey p) (mp_txBySender p) (mp_fresh p).

Definition set_elts (m : gmap nat WrappedTx) (p : TxMempool) : TxMempool :=
  mkPool (mp_cache p) (mp_txsBytes p) (mp_notified p) (mp_waker p) (mp_preCheck p) (mp_postCheck p)
    (mp_height p) m (mp_txs p) (mp_txByKey p) (mp_txBySender p) (mp_fresh p).

Definition set_notified (b : bool) (w : option bool) (p : TxMempool) : TxMempool :=
  mkPool (mp_cache p) (mp_txsBytes p) b w (mp_preCheck p) (mp_postCheck p) (mp_height p) (mp_elts p)
    (mp_txs p) (mp_txByKey p) (mp_txBySender p) (mp_fresh p).

Definition set_index (total : Z) (txs : list nat) (byKey bySender : gmap bytes nat) (p : TxMempool) :
    TxMempool :=
  mkPool (mp_cache p) total (mp_notified p) (mp_waker p) (mp_preCheck p) (mp_postCheck p) (mp_height p)
    (mp_elts p) txs byKey bySender (mp_fresh p).

Record TxInfo := mkTxInfo { SenderID : Z; SenderNodeID : bytes }.

Definition UnknownPeerID : Z := 0.

Definition NewTxMempool (cfg : MempoolConfig) : TxMempool :=
  mkPool (if (0 <? CacheSize cfg)%Z then Some (NewLRUTxCache (CacheSize cfg)) else None)
    0 false None None None 0 ∅ [] ∅ ∅ 0.

Section pool.
Context `{Crypto} `{StdTime} `{AnyOrder}.
Variable cfg : MempoolConfig.

Notation X := (M TxMempool mempool_error).

Definition mp_Size (p : TxMempool) : Z := Z.of_nat (length (mp_txs p)).
Definition SizeBytes (p : TxMempool) : Z := mp_txsBytes p.

Definition cache_op (f : TxCache → TxCache) : X unit := modify (λ p, set_cache (f (mp_cache p)) p).

(** The value of an element. *)
Definition value (id : nat) : X WrappedTx := w ← gets (λ p, mp_elts p !! id); lift (deref w).

(** A method of the value that changes it. *)
Definition on_value (id : nat) (f : WrappedTx → WrappedTx) : X unit :=
  modify (λ p, set_elts (alter f id (mp_elts p)) p).

(** [txs.Remove(elt)] and the two [Detach] calls: an element that is not in the list, whose
    links were cut when it was removed, is a false head. *)
Definition list_Remove (id : nat) : X unit := λ p,
  if bool_decide (id ∈ mp_txs p)
  then (set_index (mp_txsBytes p) (filter (λ i, i ≠ id) (mp_txs p)) (mp_txByKey p) (mp_txBySender p) p,
        Ok tt)
  else (p, Panic).

(** The indexes and the size without the element [w] stored under [key]. *)
Definition unindex (key : bytes) (w : WrappedTx) : X unit :=
  modify (λ p, set_index (mp_txsBytes p) (mp_txs p) (delete key (mp_txByKey p))
                 (delete (w_sender w) (mp_txBySender p)) p).

Definition add_bytes (n : Z) : X unit :=
  modify (λ p, set_index (int64 (mp_txsBytes p + n)) (mp_txs p) (mp_txByKey p) (mp_txBySender p) p).

Definition removeTxByKey (key : bytes) : X unit :=
  elt ← gets (λ p, mp_txByKey p !! key);
  match elt with
  | Some id =>
      w ← value id;
      _ ← unindex key w;
      _ ← list_Remove id;
      add_bytes (- w_Size w)
  | None => fail ErrTxNotFound
  end.

Definition removeTxByElement (id : nat) : X unit :=
  w ← value id;
  _ ← unindex (Tx_Hash (w_tx w)) w;
  _ ← list_Remove id;
  add_bytes (- w_Size w).

(** The elements of the list with their values, from the front. *)
Definition entries (p : TxMempool) : list elt := omap (λ id, pair id <$> mp_elts p !! id) (mp_txs p).

Fixpoint each {A} (f : A → X unit) (l : list A) : X unit :=
  match l with [] => mret tt | a :: l => _ ← f a; each f l end.

Definition Flush : X unit :=
  all ← gets mp_txs;
  _ ← each removeTxByElement all;
  cache_op Cache_Reset.

Definition notifyTxsAvailable : X unit :=
  modify (λ p, if (mp_Size p =? 0)%Z then p
               else match mp_waker p with
                    | Some _ => if mp_notified p then p else set_notified true (Some true) p
                    | None => p
                    end).

Definition EnableTxsAvailable : X unit := modify (λ p, set_notified (mp_notified p) (Some false) p).

(** *** Adding *)

(** The first section of [CheckTx], up to the call of the application: the height, or the
    recorded rejection that is reported.  [connErr] is the error of the connection. *)
Definition check_start (tx : bytes) (txInfo : TxInfo) (connErr : bool) : X (Z + ResponseCheckTx) :=
  if (MaxTxBytes cfg <? tx_size tx)%Z then fail ErrTxTooLarge
  else
    pre ← gets mp_preCheck;
    if match pre with Some f => negb (f tx) | None => false end then fail ErrPreCheck
    else if connErr then fail ErrConn
    else
      fresh ← (λ p, let '(c, b) := Push (mp_cache p) tx in (set_cache c p, Ok b));
      if fresh : bool then h ← gets mp_height; mret (inl h)
      else
        elt ← gets (λ p, mp_txByKey p !! Tx_Hash tx);
        match elt with
        | Some id => _ ← on_value id (SetPeer (SenderID txInfo)); fail ErrTxInCache
        | None =>
            if (SenderID txInfo =? UnknownPeerID)%Z && bool_decide (SenderNodeID txInfo = []) then
              rej ← gets (λ p, Rejection (mp_cache p) tx);
              match rej with Some rsp => mret (inr rsp) | None => fail ErrTxInCache end
            else fail ErrTxInCache
        end.

(** The transaction after the call. *)
Definition wrap_tx (tx : bytes) (txInfo : TxInfo) (height now : Z) : WrappedTx :=
  mkWtx tx (Tx_Hash tx) height now 0 0 [] {[SenderID txInfo]}.

Definition assign (w : WrappedTx) (rsp : ResponseCheckTx) : WrappedTx :=
  mkWtx (w_tx w) (w_hash w) (w_height w) (w_timestamp w) (RC_GasWanted rsp) (RC_Priority rsp)
    (RC_Sender rsp) (w_peers w).

Definition canAddTx (w : WrappedTx) (p : TxMempool) : bool :=
  negb ((cfg_Size cfg <=? mp_Size p)%Z || (MaxTxsBytes cfg <? int64 (w_Size w + SizeBytes p))%Z).

(** Lowest priority first, newer elements first. *)
Definition evict_first (a b : elt) : Prop :=
  (w_priority a.2 < w_priority b.2)%Z ∨
  (w_priority a.2 = w_priority b.2 ∧ w_timestamp b.2 ≤ w_timestamp a.2)%Z.

#[export] Instance evict_first_dec a b : Decision (evict_first a b).
Proof. unfold evict_first. apply _. Defined.

Definition sum_sizes (l : list elt) : Z := foldl (λ n e, int64 (n + w_Size e.2)) 0%Z l.

(** What the section under the read lock decides. *)
Inductive admission :=
  | Insert (w : WrappedTx)
  | EvictFor (w : WrappedTx) (victims : list elt).

(** The section of [addNewTransaction] under the read lock. *)
Definition add_read (wtx : WrappedTx) (rsp : ResponseCheckTx) : X (option admission) :=
  post ← gets mp_postCheck;
  let failed := match post with Some f => negb (f (w_tx wtx) rsp) | None => false end in
  if failed || negb (RC_Code rsp =? CodeTypeOK)%Z then
    _ ← (if negb (KeepInvalidTxsInCache cfg) then cache_op (λ c, Remove c (w_tx wtx))
         else when (negb (RC_Code rsp =? CodeTypeOK)%Z) (cache_op (λ c, SetRejection c (w_tx wtx) rsp)));
    if failed then fail ErrPostCheck else mret None
  else
    sameSender ← gets (λ p, mp_txBySender p !! RC_Sender rsp);
    if negb (bool_decide (RC_Sender rsp = [])) && bool_decide (is_Some sameSender) then mret None
    else
      room ← gets (canAddTx wtx);
      if room : bool then mret (Some (Insert (assign wtx rsp)))
      else
        all ← gets entries;
        let victims := filter (λ e, w_priority e.2 < RC_Priority rsp)%Z all in
        if (w_Size wtx <=? sum_sizes victims)%Z
        then mret (Some (EvictFor (assign wtx rsp) (merge_sort evict_first (any_order victims))))
        else _ ← cache_op (λ c, Remove c (w_tx wtx)); mret None.

(** The loop of [evict]. *)
Fixpoint evict (size evictedBytes : Z) (victims : list elt) : X bool :=
  match victims with
  | [] => mret false
  | (id, w) :: victims =>
      inList ← gets (λ p, bool_decide (id ∈ mp_txs p));
      if negb inList then evict size evictedBytes victims
      else
        _ ← removeTxByElement id;
        _ ← cache_op (λ c, Remove c (w_tx w));
        let evictedBytes := int64 (evictedBytes + w_Size w) in
        if (size <=? evictedBytes)%Z then mret true else evict size evictedBytes victims
  end.

Definition insertTx (w : WrappedTx) : X unit :=
  modify (λ p,
    let id := mp_fresh p in
    mkPool (mp_cache p) (int64 (mp_txsBytes p + w_Size w)) (mp_notified p) (mp_waker p) (mp_preCheck p)
      (mp_postCheck p) (mp_height p) (<[id := w]> (mp_elts p)) (mp_txs p ++ [id])
      (<[Tx_Hash (w_tx w) := id]> (mp_txByKey p))
      (if bool_decide (w_sender w = []) then mp_txBySender p else <[w_sender w := id]> (mp_txBySender p))
      (S id)).

(** The section of [addNewTransaction] under the write lock. *)
Definition add_write (a : admission) : X unit :=
  let '(w, evicting) := match a with Insert w => (w, None) | EvictFor w vs => (w, Some vs) end in
  ok ← match evicting with
       | None => mret true
       | Some victims => evict (w_Size w) 0 victims
       end;
  if ok : bool then _ ← insertTx w; notifyTxsAvailable
  else cache_op (λ c, Remove c (w_tx w)).

(** A call of [CheckTx] that no other call interleaves with. *)
Definition CheckTx (tx : bytes) (txInfo : TxInfo) (connErr : bool) (now : Z)
    (answer : ResponseCheckTx + unit) : X unit :=
  r ← check_start tx txInfo connErr;
  match r with
  | inr _ => mret tt
  | inl height =>
      match answer with
      | inr _ => _ ← cache_op (λ c, Remove c tx); fail ErrConn
      | inl rsp =>
          a ← add_read (wrap_tx tx txInfo height now) rsp;
          match a with Some a => add_write a | None => mret tt end
      end
  end.

(** *** Reading *)

Definition GetTxByHash (key : bytes) (p : TxMempool) : option bytes :=
  id ← mp_txByKey p !! key; w_tx <$> mp_elts p !! id.

(** Highest priority first, older elements first. *)
Definition reap_first (a b : elt) : Prop :=
  (w_priority b.2 < w_priority a.2)%Z ∨
  (w_priority a.2 = w_priority b.2 ∧ w_timestamp a.2 ≤ w_timestamp b.2)%Z.

#[export] Instance reap_first_dec a b : Decision (reap_first a b).
Proof. unfold reap_first. apply _. Defined.

Definition allEntriesSorted (p : TxMempool) : list elt :=
  merge_sort reap_first
    (any_order (omap (λ x, pair x.2 <$> mp_elts p !! x.2) (map_to_list (mp_txByKey p)))).

(** The loop of [ReapMaxBytesMaxGas]. *)
Fixpoint reap_loop (maxBytes maxGas totalGas totalBytes : Z) (l : list elt) : list bytes :=
  match l with
  | [] => []
  | (_, w) :: l =>
      let totalGas := int64 (totalGas + w_gasWanted w) in
      let totalBytes := int64 (totalBytes + ComputeProtoSizeForTxs [w_tx w]) in
      if ((0 <=? maxGas) && (maxGas <? totalGas) || (0 <=? maxBytes) && (maxBytes <? totalBytes))%Z
      then [] else w_tx w :: reap_loop maxBytes maxGas totalGas totalBytes l
  end.

Definition mp_ReapMaxBytesMaxGas (maxBytes maxGas : Z) (p : TxMempool) : list bytes :=
  reap_loop maxBytes maxGas 0 0 (allEntriesSorted p).

Definition ReapMaxTxs (max : Z) (p : TxMempool) : list bytes :=
  map (λ e, w_tx e.2)
    (if (0 <=? max)%Z then take (Z.to_nat max) (allEntriesSorted p) else allEntriesSorted p).

(** *** Blocks *)

(** [now.Sub(t)] is at most the largest duration. *)
Definition expired (blockHeight now : Z) (w : WrappedTx) : bool :=
  ((0 <? TTLNumBlocks cfg) && (TTLNumBlocks cfg <? int64 (blockHeight - w_height w)) ||
   (0 <? TTLDuration cfg) && (TTLDuration cfg <? Z.min (now - w_timestamp w) MaxInt64))%Z.

Definition purgeExpiredTxs (blockHeight now : Z) : X unit :=
  if ((TTLNumBlocks cfg =? 0) && (TTLDuration cfg =? 0))%Z then mret tt
  else
    all ← gets entries;
    each (λ e, when (expired blockHeight now e.2)
                 (_ ← removeTxByElement e.1; cache_op (λ c, Remove c (w_tx e.2)))) all.

(** The body of the loop over the transactions of a block. *)
Definition update_tx (x : bytes * ExecTxResult) : X unit :=
  let '(tx, res) := x in
  _ ← (if (Res_Code res =? CodeTypeOK)%Z
       then cache_op (λ c, MarkCommitted (Push c tx).1 tx)
       else when (negb (KeepInvalidTxsInCache cfg)) (cache_op (λ c, Remove c tx)));
  ignore (removeTxByKey (Tx_Hash tx)).

Definition set_checks (h : Z) (pre : option (bytes → bool))
    (post : option (bytes → ResponseCheckTx → bool)) (p : TxMempool) : TxMempool :=
  mkPool (mp_cache p) (mp_txsBytes p)
    (if (mp_height p =? h)%Z then mp_notified p else false) (mp_waker p)
    (match pre with Some _ => pre | None => mp_preCheck p end)
    (match post with Some _ => post | None => mp_postCheck p end)
    h (mp_elts p) (mp_txs p) (mp_txByKey p) (mp_txBySender p) (mp_fresh p).

(** The transactions a recheck is started for are returned; their answers arrive later, by
    [handleRecheckResult]. *)
Definition Update (blockHeight : Z) (blockTxs : list bytes) (results : list ExecTxResult)
    (newPreFn : option (bytes → bool)) (newPostFn : option (bytes → ResponseCheckTx → bool))
    (recheck : bool) (now : Z) : X (list bytes) :=
  if negb (length blockTxs =? length results) then panic
  else
    _ ← modify (set_checks blockHeight newPreFn newPostFn);
    _ ← each update_tx (zip blockTxs results);
    _ ← purgeExpiredTxs blockHeight now;
    size ← gets mp_Size;
    if (0 <? size)%Z then
      if recheck then gets (λ p, map (λ e, w_tx e.2) (entries p))
      else _ ← notifyTxsAvailable; mret []
    else mret [].

Definition handleRecheckResult (tx : bytes) (rsp : ResponseCheckTx) : X unit :=
  elt ← gets (λ p, mp_txByKey p !! Tx_Hash tx);
  match elt with
  | None => mret tt
  | Some id =>
      wtx ← value id;
      post ← gets mp_postCheck;
      let ok := match post with Some f => f tx rsp | None => true end in
      if (RC_Code rsp =? CodeTypeOK)%Z && ok then on_value id (SetPriority (RC_Priority rsp))
      else
        _ ← removeTxByElement id;
        if negb (KeepInvalidTxsInCache cfg) then cache_op (λ c, Remove c (w_tx wtx))
        else when (negb (RC_Code rsp =? CodeTypeOK)%Z)
               (cache_op (λ c, SetRejection c (w_tx wtx) rsp))
  end.

(** *** Calls that interleave *)

(** A call of [CheckTx] between its sections: waiting for the application, or for the write
    lock. *)
Inductive flight :=
  | Asking (tx : bytes) (txInfo : TxInfo) (height : Z)
  | Adding (a : admission).

(** One step of the pool and of the calls in flight, of which there are at most [k]. *)
Inductive step (k : nat) : TxMempool * list flight → TxMempool * list flight → Prop :=
  | step_start tx info connErr p p' r fs :
      check_start tx info connErr p = (p', r) → length fs < k →
      step k (p, fs)
        (p', match r with Ok (inl h) => Asking tx info h :: fs | _ => fs end)
  | step_no_answer tx info h p fs1 fs2 :
      step k (p, fs1 ++ Asking tx info h :: fs2) (set_cache (Remove (mp_cache p) tx) p, fs1 ++ fs2)
  | step_answer tx info h now rsp p p' r fs1 fs2 :
      add_read (wrap_tx tx info h now) rsp p = (p', r) →
      step k (p, fs1 ++ Asking tx info h :: fs2)
        (p', fs1 ++ (match r with Ok (Some a) => [Adding a] | _ => [] end) ++ fs2)
  | step_add a p p' r fs1 fs2 :
      add_write a p = (p', r) → step k (p, fs1 ++ Adding a :: fs2) (p', fs1 ++ fs2)
  | step_update h txs results pre post recheck now p p' r fs :
      length txs = length results → Update h txs results pre post recheck now p = (p', r) →
      step k (p, fs) (p', fs)
  | step_recheck tx rsp p p' r fs : handleRecheckResult tx rsp p = (p', r) → step k (p, fs) (p', fs)
  | step_remove key p p' r fs : removeTxByKey key p = (p', r) → step k (p, fs) (p', fs)
  | step_flush p p' r fs : Flush p = (p', r) → step k (p, fs) (p', fs)
  | step_notify p p' r fs :
      notifyTxsAvailable p = (p', r) ∨ EnableTxsAvailable p = (p', r) → step k (p, fs) (p', fs).

(** The pools that a node can reach with at most [k] calls of [CheckTx] at a time, with any
    filters at the start. *)
Definition reachable (k : nat) (p : TxMempool) (fs : list flight) : Prop :=
  ∃ pre post, rtc (step k) (set_checks 0 pre post (NewTxMempool cfg), []) (p, fs).


End pool.


End mempool.
