(* ===== verification/MempoolThms.v ===== *)
(** * internal/mempool: invariants of the pool

    What holds of the pool of [Mempool] in every state that calls of any number of goroutines
    reach, in any interleaving of the sections of [CheckTx]: the size is that of the listed
    transactions, the indexes point into the list, no call panics, and the limits are exceeded
    by less than one transaction per call in flight. *)
From Stdlib Require Import ZArith Lia Init.Byte Sorted.
From stdpp Require Import base numbers list sets gmap fin_maps sorting.
From S2P Require Import Prelude.
From S2P Require Import StateM.
From S2P Require Import Merkle.
From S2P Require Import Types.
From S2P Require Import Crypto.
From S2P Require Import Proposal.
From S2P Require Import Block.
From S2P Require Import SmState.
From S2P Require Import Execution.
From S2P Require Import Mempool.

Import statem types crypto proposal block sm abci mempool.

Module mpthms.

Section thms.
Context `{Crypto} `{StdTime} `{AnyOrder}.
Variable cfg : MempoolConfig.

Notation X := (M TxMempool mempool_error).

(** ** The size *)

Definition size_of (p : TxMempool) (id : nat) : Z := from_option w_Size 0%Z (mp_elts p !! id).
Definition sum_of (p : TxMempool) (l : list nat) : Z := foldr (λ id n, (size_of p id + n)%Z) 0%Z l.
Definition total (p : TxMempool) : Z := sum_of p (mp_txs p).

Lemma size_of_nonneg p id : (0 ≤ size_of p id)%Z.
Proof. unfold size_of. destruct (_ !! id); cbn [from_option]; unfold w_Size, tx_size; lia. Qed.

Lemma sum_of_cons p id l : sum_of p (id :: l) = (size_of p id + sum_of p l)%Z.
Proof. done. Qed.

Lemma sum_of_nonneg p l : (0 ≤ sum_of p l)%Z.
Proof. induction l as [|id l IH]; [done|]. rewrite sum_of_cons. pose proof (size_of_nonneg p id). lia. Qed.

Lemma sum_of_app p l1 l2 : sum_of p (l1 ++ l2) = (sum_of p l1 + sum_of p l2)%Z.
Proof. induction l1 as [|id l IH]; [done|]. cbn [app]. rewrite !sum_of_cons, IH. lia. Qed.

Lemma sum_of_drop p id l :
  NoDup l → id ∈ l → (sum_of p (filter (λ i, i ≠ id) l) + size_of p id)%Z = sum_of p l.
Proof.
  induction 1 as [|x l Hx Hn IH]; [by intros ?%elem_of_nil|]. intros Hin.
  destruct (decide (x = id)) as [->|Hne].
  - rewrite filter_cons_False by naive_solver. rewrite sum_of_cons, filter_all; [lia|].
    intros i Hi. by intros ->.
  - rewrite filter_cons_True by done. apply elem_of_cons in Hin as [->|Hin]; [done|].
    rewrite !sum_of_cons. specialize (IH Hin). lia.
Qed.

Lemma length_drop (id : nat) (l : list nat) :
  NoDup l → id ∈ l → S (length (filter (λ i, i ≠ id) l)) = length l.
Proof.
  induction 1 as [|x l Hx Hn IH]; [by intros ?%elem_of_nil|]. intros Hin.
  destruct (decide (x = id)) as [->|Hne].
  - rewrite filter_cons_False by naive_solver. cbn. rewrite filter_all; [done|]. intros i Hi. by intros ->.
  - rewrite filter_cons_True by done. apply elem_of_cons in Hin as [->|Hin]; [done|]. cbn. by rewrite IH.
Qed.

(** ** The invariant *)

Record inv (p : TxMempool) : Prop := {
  iv_nodup : NoDup (mp_txs p);
  iv_txs id : id ∈ mp_txs p → is_Some (mp_elts p !! id);
  iv_elts id w : mp_elts p !! id = Some w →
    id < mp_fresh p ∧ w_hash w = Tx_Hash (w_tx w) ∧ (w_Size w ≤ MaxTxBytes cfg)%Z;
  iv_key k id : mp_txByKey p !! k = Some id →
    id ∈ mp_txs p ∧ ∃ w, mp_elts p !! id = Some w ∧ Tx_Hash (w_tx w) = k;
  iv_sender s id : mp_txBySender p !! s = Some id →
    id ∈ mp_txs p ∧ s ≠ [] ∧ ∃ w, mp_elts p !! id = Some w ∧ w_sender w = s;
  iv_bytes : mp_txsBytes p = int64 (total p) }.

(** What every operation but an insertion does: nothing is added, and the transactions of the
    elements stay. *)
Record shrinks (p p' : TxMempool) : Prop := {
  sh_inv : inv p';
  sh_len : length (mp_txs p') ≤ length (mp_txs p);
  sh_total : (total p' ≤ total p)%Z;
  sh_elts id w : mp_elts p !! id = Some w → ∃ w', mp_elts p' !! id = Some w' ∧ w_tx w' = w_tx w;
  sh_sub : mp_txs p' ⊆ mp_txs p }.

Lemma shrinks_refl p : inv p → shrinks p p.
Proof. intros Hi. split; [done|done|done|naive_solver|done]. Qed.

Lemma shrinks_trans p1 p2 p3 : shrinks p1 p2 → shrinks p2 p3 → shrinks p1 p3.
Proof.
  intros [I1 L1 T1 E1 S1] [I2 L2 T2 E2 S2]. split; [done|lia|lia| |set_solver].
  intros id w Hw. destruct (E1 id w Hw) as (w' & Hw' & Ew). destruct (E2 id w' Hw') as (w'' & ? & ?).
  exists w''. split; [done|congruence].
Qed.

(** The cache, the waker and the filters are not in the invariant. *)
Definition same_pool (p p' : TxMempool) : Prop :=
  mp_txsBytes p' = mp_txsBytes p ∧ mp_elts p' = mp_elts p ∧ mp_txs p' = mp_txs p ∧
  mp_txByKey p' = mp_txByKey p ∧ mp_txBySender p' = mp_txBySender p ∧ mp_fresh p' = mp_fresh p.

Lemma same_shrinks p p' : inv p → same_pool p p' → shrinks p p'.
Proof.
  intros Hi (E1 & E2 & E3 & E4 & E5 & E6).
  assert (total p' = total p) as Et by (unfold total, sum_of, size_of; by rewrite E2, E3).
  split; [|by rewrite E3|lia|rewrite E2; naive_solver|by rewrite E3].
  destruct Hi. split; rewrite ?E1, ?E2, ?E3, ?E4, ?E5, ?E6, ?Et; done.
Qed.

(** ** Removing an element *)

(** The pool without the element [id] of value [w], indexed under [key]. *)
Definition removed (key : bytes) (id : nat) (w : WrappedTx) (p : TxMempool) : TxMempool :=
  set_index (int64 (mp_txsBytes p - w_Size w)) (filter (λ i, i ≠ id) (mp_txs p))
    (delete key (mp_txByKey p)) (delete (w_sender w) (mp_txBySender p)) p.

Lemma removed_shrinks id w p :
  inv p → id ∈ mp_txs p → mp_elts p !! id = Some w →
  shrinks p (removed (Tx_Hash (w_tx w)) id w p) ∧
  (total (removed (Tx_Hash (w_tx w)) id w p) + w_Size w)%Z = total p ∧
  S (length (mp_txs (removed (Tx_Hash (w_tx w)) id w p))) = length (mp_txs p).
Proof using.
  intros Hi Hin Hw. set (p' := removed _ id w p).
  assert (total p' + w_Size w = total p)%Z as Ht.
  { unfold total. rewrite <- (sum_of_drop p id (mp_txs p)) by (done || apply Hi).
    f_equal. unfold size_of. by rewrite Hw. }
  assert (S (length (mp_txs p')) = length (mp_txs p)) as Hl by (apply length_drop; [apply Hi|done]).
  split; [|done]. pose proof (size_of_nonneg p id) as Hs. unfold size_of in Hs. rewrite Hw in Hs.
  cbn [from_option] in Hs.
  split; [|lia|lia|naive_solver|].
  - destruct Hi as [I1 I2 I3 I4 I5 I6]. split.
    + by apply NoDup_filter.
    + intros i [_ Hi]%list_elem_of_filter. by apply I2.
    + done.
    + intros k i Hk. unfold p' in Hk. cbn in Hk. apply lookup_delete_Some in Hk as [Hne Hk].
      destruct (I4 k i Hk) as [Hi' (w' & Hw' & E')]. split; [|by exists w'].
      apply list_elem_of_filter. split; [|done]. intros ->. congruence.
    + intros s i Hk. unfold p' in Hk. cbn in Hk. apply lookup_delete_Some in Hk as [Hne Hk].
      destruct (I5 s i Hk) as (Hi' & Hs' & w' & Hw' & E'). split; [|by split; [|exists w']].
      apply list_elem_of_filter. split; [|done]. intros ->. congruence.
    + change (mp_txsBytes p') with (int64 (mp_txsBytes p - w_Size w)). rewrite I6.
      replace (total p') with (total p - w_Size w)%Z by lia. apply int64_add_l.
  - intros i Hi'%list_elem_of_filter. apply Hi'.
Qed.

Lemma removeTxByElement_run id w p :
  id ∈ mp_txs p → mp_elts p !! id = Some w →
  removeTxByElement id p = (removed (Tx_Hash (w_tx w)) id w p, Ok tt).
Proof using.
  intros Hin Hw. unfold removeTxByElement, value, mbind, M_bind, gets, lift. rewrite Hw. cbn [deref].
  unfold unindex, modify, list_Remove. cbn [mp_txs set_index]. rewrite bool_decide_eq_true_2 by done.
  done.
Qed.

Lemma removeTxByKey_run key p :
  inv p →
  (mp_txByKey p !! key = None ∧ removeTxByKey key p = (p, Err ErrTxNotFound)) ∨
  ∃ id w, mp_txByKey p !! key = Some id ∧ id ∈ mp_txs p ∧ mp_elts p !! id = Some w ∧
    Tx_Hash (w_tx w) = key ∧ removeTxByKey key p = (removed key id w p, Ok tt).
Proof using.
  intros Hi. unfold removeTxByKey, mbind, M_bind, gets. destruct (mp_txByKey p !! key) as [id|] eqn:E; [right|by left].
  destruct (iv_key _ Hi _ _ E) as (Hin & w & Hw & Ek). exists id, w. split_and!; try done.
  unfold value, mbind, M_bind, gets, lift. rewrite Hw. cbn [deref].
  unfold unindex, modify, list_Remove. cbn [mp_txs set_index]. by rewrite bool_decide_eq_true_2.
Qed.


(** ** Operations that add nothing *)

Definition shrink_at {A} (m : X A) (p : TxMempool) : Prop :=
  inv p → ∃ p' r, m p = (p', r) ∧ r ≠ Panic ∧ shrinks p p'.

Lemma shrink_bind {A B} (m : X A) (f : A → X B) p :
  shrink_at m p → (∀ p' a, m p = (p', Ok a) → inv p' → shrink_at (f a) p') → shrink_at (m ≫= f) p.
Proof using.
  intros Hm Hf Hi. destruct (Hm Hi) as (p1 & r1 & E1 & N1 & S1). unfold mbind, M_bind. rewrite E1.
  destruct r1 as [a|e|]; [|by exists p1, (Err e)|done].
  destruct (Hf p1 a E1 (sh_inv _ _ S1) (sh_inv _ _ S1)) as (p2 & r2 & E2 & N2 & S2). exists p2, r2.
  split_and!; [done|done|by eapply shrinks_trans].
Qed.

Lemma shrink_gets {A B} (g : TxMempool → A) (f : A → X B) p :
  shrink_at (f (g p)) p → shrink_at (gets g ≫= f) p.
Proof using. done. Qed.

Lemma shrink_same {A} (m : X A) p p' r :
  m p = (p', r) → r ≠ Panic → same_pool p p' → shrink_at m p.
Proof using. intros E N S Hi. exists p', r. split_and!; [done|done|by apply same_shrinks]. Qed.

Lemma shrink_ret {A} (a : A) p : shrink_at (mret a) p.
Proof using. by eapply (shrink_same _ p p (Ok a)). Qed.

Lemma shrink_fail {A} e p : shrink_at (fail e : X A) p.
Proof using. by eapply (shrink_same _ p p (Err e)). Qed.

Lemma shrink_cache f p : shrink_at (cache_op f) p.
Proof using. by eapply shrink_same. Qed.

Lemma shrink_when b m p : (b = true → shrink_at m p) → shrink_at (when b m) p.
Proof using. destruct b; [auto|intros _; apply shrink_ret]. Qed.

Lemma shrink_ignore {A} (m : X A) p : shrink_at m p → shrink_at (ignore m) p.
Proof using.
  intros Hm Hi. destruct (Hm Hi) as (p1 & r1 & E1 & N1 & S1). unfold ignore, try, mbind, M_bind. rewrite E1.
  destruct r1 as [a|e|]; [..|done]; exists p1, (Ok tt); by split_and!.
Qed.

Lemma shrink_notify p : shrink_at notifyTxsAvailable p.
Proof using.
  eapply shrink_same; [done|done|]. destruct (_ =? 0)%Z; [done|]. destruct (mp_waker p); [|done].
  by destruct (mp_notified p).
Qed.

(** Changes of the value of an element that keep its transaction and sender. *)
Lemma shrink_value id f p :
  (∀ w, w_tx (f w) = w_tx w ∧ w_hash (f w) = w_hash w ∧ w_sender (f w) = w_sender w) →
  shrink_at (on_value id f) p.
Proof using.
  intros Hf Hi. eexists _, (Ok tt). split_and!; [done|done|]. set (p' := set_elts _ p).
  assert (∀ i, mp_elts p' !! i = if decide (i = id) then f <$> mp_elts p !! i else mp_elts p !! i) as He.
  { intros i. unfold p'. cbn. destruct (decide (i = id)) as [->|]; [by rewrite lookup_alter_eq|].
    by rewrite lookup_alter_ne. }
  assert (∀ i w, mp_elts p !! i = Some w → ∃ w', mp_elts p' !! i = Some w' ∧ w_tx w' = w_tx w ∧
            w_hash w' = w_hash w ∧ w_sender w' = w_sender w) as Hfw.
  { intros i w Hw. rewrite He, Hw. destruct (decide (i = id)); [|by exists w].
    exists (f w). split; [done|apply Hf]. }
  assert (∀ i w', mp_elts p' !! i = Some w' → ∃ w, mp_elts p !! i = Some w ∧ w_tx w' = w_tx w ∧
            w_hash w' = w_hash w) as Hbw.
  { intros i w'. rewrite He. destruct (decide (i = id)); [|intros; by exists w'].
    destruct (mp_elts p !! i) as [w|] eqn:Ew; [|done]. intros [= <-]. exists w. split; [done|]. by split; apply Hf. }
  assert (total p' = total p) as Et.
  { unfold total. change (mp_txs p') with (mp_txs p). induction (mp_txs p) as [|i l IH]; [done|].
    rewrite !sum_of_cons, IH. f_equal. unfold size_of. rewrite He. destruct (decide (i = id)); [|done].
    destruct (mp_elts p !! i) as [w|]; [|done]. cbn. unfold w_Size. by rewrite (proj1 (Hf w)). }
  split; [|done|lia| |done].
  - destruct Hi as [I1 I2 I3 I4 I5 I6]. split; [done| | | | |].
    + intros i Hi. destruct (I2 i Hi) as [w Hw]. destruct (Hfw i w Hw) as (w' & -> & _). done.
    + intros i w' Hw'. destruct (Hbw i w' Hw') as (w & Hw & E1 & E2). unfold w_Size. rewrite E1, E2. by apply I3.
    + intros k i Hk. destruct (I4 k i Hk) as (Hi & w & Hw & E). split; [done|].
      destruct (Hfw i w Hw) as (w' & Hw' & E1 & _). exists w'. by rewrite E1.
    + intros s i Hk. destruct (I5 s i Hk) as (Hi & Hs & w & Hw & E). split_and!; [done|done|].
      destruct (Hfw i w Hw) as (w' & Hw' & _ & _ & E3). exists w'. by rewrite E3.
    + by rewrite Et.
  - intros i w Hw. destruct (Hfw i w Hw) as (w' & ? & ? & _). by exists w'.
Qed.

Lemma shrink_remove id p : id ∈ mp_txs p → shrink_at (removeTxByElement id) p.
Proof using.
  intros Hin Hi. destruct (iv_txs _ Hi id Hin) as [w Hw]. rewrite (removeTxByElement_run id w p) by done.
  eexists _, (Ok tt). split_and!; [done|done|]. by apply removed_shrinks.
Qed.

Lemma shrink_remove_key key p : shrink_at (removeTxByKey key) p.
Proof using.
  intros Hi. destruct (removeTxByKey_run key p Hi) as [[_ ->]|(id & w & _ & Hin & Hw & <- & ->)].
  - eexists _, _. split_and!; [done|done|by apply shrinks_refl].
  - eexists _, _. split_and!; [done|done|by apply removed_shrinks].
Qed.

(** A loop whose body needs something of the elements that are left. *)
Lemma shrink_each {A} (P : list A → TxMempool → Prop) (f : A → X unit) :
  (∀ a l p, P (a :: l) p → shrink_at (f a) p) →
  (∀ a l p p', P (a :: l) p → inv p → f a p = (p', Ok tt) → P l p') →
  ∀ l p, P l p → shrink_at (each f l) p.
Proof using.
  intros Hf HP. induction l as [|a l IH]; intros p Hp; [apply shrink_ret|]. cbn [each]. intros Hi.
  eapply shrink_bind; [by eapply Hf| |done]. intros p' [] E _. apply IH. by eapply HP.
Qed.


Lemma shrink_run {A B} (m : X A) (f : A → X B) p a :
  m p = (p, Ok a) → shrink_at (f a) p → shrink_at (m ≫= f) p.
Proof using. intros E Hf Hi. unfold mbind, M_bind. rewrite E. by apply Hf. Qed.

Lemma value_run id w p : mp_elts p !! id = Some w → value id p = (p, Ok w).
Proof using. clear. intros Hw. unfold value, mbind, M_bind, gets, lift. by rewrite Hw. Qed.

Lemma shrink_flush p : shrink_at Flush p.
Proof using.
  unfold Flush. apply shrink_gets. intros Hi. eapply shrink_bind; [|intros; apply shrink_cache|done].
  eapply (shrink_each (λ l p, NoDup l ∧ l ⊆ mp_txs p)).
  - intros a l q [_ Hs]. apply shrink_remove. set_solver.
  - intros a l q q' [Hn Hs] Hq E. apply NoDup_cons in Hn as [Ha Hn]. split; [done|].
    destruct (iv_txs _ Hq a ltac:(set_solver)) as [w Hw].
    rewrite (removeTxByElement_run a w q) in E by (done || set_solver). injection E as <-.
    intros i Hi'. cbn. apply list_elem_of_filter. split; [by intros ->|set_solver].
  - split; [apply Hi|done].
Qed.

(** The listed elements with their values. *)
Lemma elem_of_entries p id w : (id, w) ∈ entries p ↔ id ∈ mp_txs p ∧ mp_elts p !! id = Some w.
Proof using.
  clear. unfold entries. rewrite list_elem_of_omap. split.
  - intros (i & Hi & E). destruct (mp_elts p !! i) eqn:Ei; [|done]. by injection E as -> ->.
  - intros [Hi E]. exists id. by rewrite E.
Qed.

Lemma entries_nodup p : NoDup (mp_txs p) → NoDup (map fst (entries p)).
Proof using.
  clear. unfold entries. induction (mp_txs p) as [|i l IH]; intros Hn; [constructor|].
  apply NoDup_cons in Hn as [Hi Hn]. cbn. destruct (mp_elts p !! i); cbn; [|auto].
  apply NoDup_cons. split; [|auto]. intros ((i', w') & E & Hin)%list_elem_of_fmap. cbn in E. subst i'.
  apply list_elem_of_omap in Hin as (j & Hj & E). destruct (mp_elts p !! j); [|done].
  injection E as -> _. done.
Qed.

Lemma shrink_purge h now p : shrink_at (purgeExpiredTxs cfg h now) p.
Proof using.
  unfold purgeExpiredTxs. destruct (_ && _)%Z; [apply shrink_ret|]. apply shrink_gets. intros Hi.
  eapply (shrink_each (λ l q, NoDup (map fst l) ∧ ∀ e, e ∈ l → e.1 ∈ mp_txs q)); [..|done].
  - intros a l q [_ Hs]. apply shrink_when. intros _.
    apply shrink_bind; [apply shrink_remove, Hs; by left|]. intros. apply shrink_cache.
  - intros a l q q' [Hn Hs] Hq E. cbn in Hn. apply NoDup_cons in Hn as [Ha Hn]. split; [done|].
    intros e He. assert (e.1 ∈ mp_txs q) as Hin by (apply Hs; by right).
    unfold when in E. destruct (expired cfg h now a.2); [|by injection E as <-].
    destruct (iv_txs _ Hq a.1 ltac:(apply Hs; by left)) as [w Hw].
    unfold mbind, M_bind in E. rewrite (removeTxByElement_run a.1 w q) in E by (done || apply Hs; by left).
    injection E as <-. cbn. apply list_elem_of_filter. split; [|done]. intros Ee. apply Ha. rewrite <- Ee.
    by apply (list_elem_of_fmap_2 fst).
  - split; [by apply entries_nodup, Hi|]. intros [i w] [? _]%elem_of_entries. done.
Qed.

Lemma shrink_update_tx x p : shrink_at (update_tx cfg x) p.
Proof using.
  destruct x as [tx res]. unfold update_tx. apply shrink_bind.
  - destruct (_ =? _)%Z; [apply shrink_cache|]. apply shrink_when. intros _. apply shrink_cache.
  - intros. apply shrink_ignore, shrink_remove_key.
Qed.

Lemma shrink_Update h txs results pre post recheck now p :
  length txs = length results → shrink_at (Update cfg h txs results pre post recheck now) p.
Proof using.
  intros Hl. unfold Update. rewrite Hl, Nat.eqb_refl. cbn [negb].
  apply shrink_bind; [by eapply shrink_same|]. intros p1 [] _ _.
  apply shrink_bind; [|intros p2 [] _ _].
  { by apply (shrink_each (λ _ _, True)); [intros; apply shrink_update_tx|..]. }
  apply shrink_bind; [apply shrink_purge|]. intros p3 [] _ _. apply shrink_gets.
  destruct (_ <? _)%Z; [|apply shrink_ret]. destruct recheck; [by eapply shrink_same|].
  apply shrink_bind; [apply shrink_notify|]. intros. apply shrink_ret.
Qed.

Lemma shrink_recheck tx rsp p : shrink_at (handleRecheckResult cfg tx rsp) p.
Proof using.
  unfold handleRecheckResult. apply shrink_gets. intros Hi. revert Hi.
  destruct (mp_txByKey p !! Tx_Hash tx) as [id|] eqn:E; [|apply shrink_ret]. intros Hi.
  destruct (iv_key _ Hi _ _ E) as (Hin & w & Hw & _). revert Hi.
  eapply shrink_run; [by apply value_run|].
  apply shrink_gets. destruct (_ && _); [by apply shrink_value|].
  apply shrink_bind; [by apply shrink_remove|]. intros p' [] _ _.
  destruct (negb _); [apply shrink_cache|]. apply shrink_when. intros _. apply shrink_cache.
Qed.


(** ** Adding a transaction *)

Lemma check_start_spec tx info connErr p :
  inv p →
  ∃ p' r, check_start cfg tx info connErr p = (p', r) ∧ r ≠ Panic ∧ shrinks p p' ∧
    (∀ h, r = Ok (inl h) → (tx_size tx ≤ MaxTxBytes cfg)%Z).
Proof using.
  intros Hi. destruct (Z.ltb_spec (MaxTxBytes cfg) (tx_size tx)) as [Hlt|Hle].
  { exists p, (Err ErrTxTooLarge). unfold check_start.
    destruct (Z.ltb_spec (MaxTxBytes cfg) (tx_size tx)); [|lia].
    split_and!; [done|done|by apply shrinks_refl|done]. }
  assert (shrink_at (check_start cfg tx info connErr) p) as Hs.
  { unfold check_start. destruct (_ <? _)%Z; [apply shrink_fail|]. apply shrink_gets.
    destruct (match mp_preCheck p with Some f => negb (f tx) | None => false end); [apply shrink_fail|].
    destruct connErr; [apply shrink_fail|].
    apply shrink_bind.
    { destruct (Push (mp_cache p) tx) as [c b] eqn:E.
      apply (shrink_same _ p (set_cache c p) (Ok b)); [by rewrite E|done|done]. }
    intros p1 b _ _. destruct b; [by apply shrink_gets, shrink_ret|]. apply shrink_gets.
    destruct (mp_txByKey p1 !! Tx_Hash tx).
    - apply shrink_bind; [by apply shrink_value|]. intros. apply shrink_fail.
    - destruct (_ && _); [|apply shrink_fail]. apply shrink_gets.
      destruct (Rejection _ _); [apply shrink_ret|apply shrink_fail]. }
  destruct (Hs Hi) as (p' & r & E & N & S). exists p', r. by split_and!.
Qed.

(** The transaction of a call that waits, and what its victims are. *)
Definition admitted (p : TxMempool) (w : WrappedTx) : Prop :=
  w_hash w = Tx_Hash (w_tx w) ∧ (w_Size w ≤ MaxTxBytes cfg)%Z.

Definition known (p : TxMempool) (victims : list elt) : Prop :=
  ∀ id w, (id, w) ∈ victims → ∃ w', mp_elts p !! id = Some w' ∧ w_tx w' = w_tx w.

Definition admission_ok (p : TxMempool) (a : admission) : Prop :=
  match a with
  | Insert w => admitted p w
  | EvictFor w vs => admitted p w ∧ known p vs
  end.

Hypothesis any_order_law : ∀ A (l : list A), any_order l ≡ₚ l.

Lemma add_read_spec wtx rsp p :
  inv p → admitted p wtx →
  ∃ p' r, add_read cfg wtx rsp p = (p', r) ∧ r ≠ Panic ∧ shrinks p p' ∧
    ∀ a, r = Ok (Some a) → same_pool p p' ∧ admission_ok p' a ∧
      (∀ w, a = Insert w → canAddTx cfg w p = true).
Proof using any_order_law.
  intros Hi Hw. assert (admitted p (assign wtx rsp)) as Hw' by done. unfold add_read.
  unfold mbind at 1, M_bind at 1, gets at 1. set (failed := match mp_postCheck p with Some f => _ | None => _ end).
  cbv zeta. destruct (failed || negb (RC_Code rsp =? CodeTypeOK)%Z).
  { match goal with |- context [?m p] => assert (shrink_at m p) as Hs end.
    { apply shrink_bind.
      - destruct (negb (KeepInvalidTxsInCache cfg)); [apply shrink_cache|].
        apply shrink_when. intros _. apply shrink_cache.
      - intros. destruct failed; [apply shrink_fail|apply shrink_ret]. }
    destruct (Hs Hi) as (p' & r & E & N & S). exists p', r. split_and!; [done..|].
    intros a ->. exfalso. unfold mbind, M_bind in E.
    destruct (negb (KeepInvalidTxsInCache cfg)), (negb (RC_Code rsp =? CodeTypeOK)%Z), failed; done. }
  unfold mbind at 1, M_bind at 1, gets at 1.
  destruct (_ && _).
  { exists p, (Ok None). split_and!; [done|done|by apply shrinks_refl|done]. }
  unfold mbind at 1, M_bind at 1, gets at 1. destruct (canAddTx cfg wtx p) eqn:Ec.
  { eexists p, _. split_and!; [done|done|by apply shrinks_refl|]. intros a [= <-].
    split_and!; [done|done|]. by intros w [= <-]. }
  unfold mbind at 1, M_bind at 1, gets at 1. set (vs := filter _ (entries p)).
  destruct (_ <=? _)%Z.
  - eexists p, _. split_and!; [done|done|by apply shrinks_refl|]. intros a [= <-].
    split_and!; [done| |done]. split; [done|]. intros id w Hin.
    rewrite merge_sort_Permutation, any_order_law in Hin.
    apply list_elem_of_filter in Hin as [_ [_ Hin]%elem_of_entries]. by exists w.
  - eexists _, (Ok None). split_and!; [done|done|by apply same_shrinks|done].
Qed.

Lemma evict_spec size acc vs p :
  inv p → known p vs →
  ∃ p' b, evict size acc vs p = (p', Ok b) ∧ shrinks p p' ∧
    (b = true → S (length (mp_txs p')) ≤ length (mp_txs p) ∧
       ((0 ≤ acc)%Z → (acc + total p ≤ MaxInt64)%Z → (total p' + size ≤ total p + acc)%Z)).
Proof using.
  revert acc p. induction vs as [|[id w] vs IH]; intros acc p Hi Hk.
  { exists p, false. split_and!; [done|by apply shrinks_refl|done]. }
  cbn [evict]. unfold mbind at 1, M_bind at 1, gets at 1. case_bool_decide as Hin; cbn [negb].
  2:{ apply IH; [done|]. intros i w' Hi'. apply Hk. by right. }
  destruct (Hk id w ltac:(by left)) as (w1 & Hw1 & Etx).
  unfold mbind at 1, M_bind at 1. rewrite (removeTxByElement_run id w1 p) by done.
  unfold mbind at 1, M_bind at 1. unfold cache_op at 1, modify at 1.
  destruct (removed_shrinks id w1 p Hi Hin Hw1) as (S1 & Ht & Hl).
  set (p1 := removed _ id w1 p) in *. set (p2 := set_cache _ p1).
  assert (shrinks p1 p2) as S2 by (by apply same_shrinks; [apply S1|]).
  assert (w_Size w = w_Size w1) as Ew by (unfold w_Size; by rewrite Etx).
  assert (0 ≤ w_Size w1)%Z as Hw0 by (unfold w_Size, tx_size; lia).
  assert (total p2 = total p1) as Et2 by done. pose proof (sum_of_nonneg p1 (mp_txs p1)) as Hp1. fold (total p1) in Hp1.
  destruct (Z.leb_spec size (int64 (acc + w_Size w))) as [Hle|Hgt].
  - exists p2, true. split_and!; [done|by eapply shrinks_trans|]. intros _. split; [cbn in *; lia|].
    intros Ha Hb. rewrite int64_id in Hle by (unfold_ints; lia). lia.
  - destruct (IH (int64 (acc + w_Size w)) p2) as (p' & b & E & S3 & Hb); [apply S2| |].
    { intros i w' Hi'. destruct (Hk i w' ltac:(by right)) as (w2 & Hw2 & E2). by exists w2. }
    exists p', b. split_and!; [done|by eapply shrinks_trans; [|eapply shrinks_trans]|]. intros Eb.
    destruct (Hb Eb) as [H1' H2']. split; [change (mp_txs p2) with (mp_txs p1) in H1'; lia|].
    intros Ha Hm. rewrite int64_id in H2' by (unfold_ints; lia). specialize (H2' ltac:(lia) ltac:(lia)). lia.
Qed.

(** The pool with a new element. *)
Lemma insertTx_spec w p :
  inv p → admitted p w →
  ∃ p', insertTx w p = (p', Ok tt) ∧ inv p' ∧ length (mp_txs p') = S (length (mp_txs p)) ∧
    total p' = (total p + w_Size w)%Z ∧
    (∀ id v, mp_elts p !! id = Some v → mp_elts p' !! id = Some v).
Proof using.
  intros Hi [Hh Hs]. eexists. split; [done|]. set (p' := mkPool _ _ _ _ _ _ _ _ _ _ _ _).
  destruct Hi as [I1 I2 I3 I4 I5 I6].
  assert (mp_elts p !! mp_fresh p = None) as Hf.
  { destruct (mp_elts p !! mp_fresh p) as [v|] eqn:E; [|done]. destruct (I3 _ _ E). lia. }
  assert (∀ id v, mp_elts p !! id = Some v → mp_elts p' !! id = Some v) as He.
  { intros id v E. unfold p'. cbn. rewrite lookup_insert_ne; [done|]. intros E'. rewrite <- E' in E. congruence. }
  assert (mp_elts p' !! mp_fresh p = Some w) as Hw by apply lookup_insert_eq.
  assert (∀ l, (∀ i, i ∈ l → is_Some (mp_elts p !! i)) → sum_of p' l = sum_of p l) as Hsum.
  { induction l as [|i l IH]; intros Hl; [done|]. rewrite !sum_of_cons, IH by (intros; apply Hl; by right).
    f_equal. unfold size_of. destruct (Hl i ltac:(by left)) as [v Hv]. by rewrite (He i v Hv), Hv. }
  assert (total p' = total p + w_Size w)%Z as Ht.
  { unfold total. change (mp_txs p') with (mp_txs p ++ [mp_fresh p]). rewrite sum_of_app, (Hsum _ I2).
    rewrite sum_of_cons. unfold size_of. rewrite Hw. cbn. lia. }
  split_and!; [|unfold p'; cbn; rewrite length_app; cbn; lia|done|done]. split.
  - unfold p'. cbn. apply NoDup_app. split_and!; [done| |apply NoDup_singleton].
    intros i Hi Ei%list_elem_of_singleton. subst i. destruct (I2 _ Hi). congruence.
  - intros i [Hi|Ei%list_elem_of_singleton]%elem_of_app; [|subst i; by rewrite Hw].
    destruct (I2 i Hi) as [v Hv]. by rewrite (He i v Hv).
  - intros i v Hv. unfold p' in Hv. cbn in Hv. apply lookup_insert_Some in Hv as [[<- <-]|[_ Hv]].
    + by split; [cbn; lia|].
    + destruct (I3 i v Hv) as (? & ? & ?). split_and!; [cbn; lia|done|done].
  - intros k i Hk. unfold p' in Hk. cbn in Hk. apply lookup_insert_Some in Hk as [[<- <-]|[_ Hk]].
    + split; [apply elem_of_app; right; by apply list_elem_of_singleton|]. by exists w.
    + destruct (I4 k i Hk) as (Hin & v & Hv & Ev). split; [by apply elem_of_app; left|]. exists v. auto.
  - intros s i Hk. unfold p' in Hk. cbn in Hk.
    assert (i = mp_fresh p ∧ s = w_sender w ∧ s ≠ [] ∨ mp_txBySender p !! s = Some i) as [(-> & -> & Hne)|Hk'].
    { case_bool_decide; [by right|]. apply lookup_insert_Some in Hk as [[<- <-]|[_ Hk]]; [by left|by right]. }
    + split_and!; [apply elem_of_app; right; by apply list_elem_of_singleton|done|by exists w].
    + destruct (I5 s i Hk') as (Hin & ? & v & Hv & Ev). split_and!; [by apply elem_of_app; left|done|].
      exists v. auto.
  - change (mp_txsBytes p') with (int64 (mp_txsBytes p + w_Size w)). rewrite I6, Ht. apply int64_add_l.
Qed.


Lemma notify_same p : ∃ p', notifyTxsAvailable p = (p', Ok tt) ∧ same_pool p p'.
Proof using.
  unfold notifyTxsAvailable, modify. eexists. split; [done|].
  destruct (_ =? 0)%Z; [done|]. destruct (mp_waker p); [|done]. by destruct (mp_notified p).
Qed.

Lemma add_write_spec a p :
  inv p → admission_ok p a →
  ∃ p' r, add_write a p = (p', r) ∧ r ≠ Panic ∧ inv p' ∧
    (∀ id v, mp_elts p !! id = Some v → ∃ v', mp_elts p' !! id = Some v' ∧ w_tx v' = w_tx v) ∧
    match a with
    | Insert w => length (mp_txs p') ≤ S (length (mp_txs p)) ∧ (total p' ≤ total p + w_Size w)%Z
    | EvictFor w _ => length (mp_txs p') ≤ length (mp_txs p) ∧
        ((total p ≤ MaxInt64)%Z → (total p' ≤ total p)%Z)
    end.
Proof using.
  intros Hi Ha.
  assert (∀ w q, inv q → admitted q w → ∃ q', ((_ ← insertTx w; notifyTxsAvailable) : X unit) q = (q', Ok tt) ∧ inv q' ∧
    length (mp_txs q') = S (length (mp_txs q)) ∧ total q' = (total q + w_Size w)%Z ∧
    ∀ id v, mp_elts q !! id = Some v → mp_elts q' !! id = Some v) as Hins.
  { intros w q Hq Hw. destruct (insertTx_spec w q Hq Hw) as (q1 & E1 & I1 & L1 & T1 & M1).
    destruct (notify_same q1) as (q2 & En & Hsame).
    unfold mbind, M_bind. rewrite E1. exists q2. split; [done|].
    destruct (same_shrinks q1 q2 I1 Hsame) as [I2 _ _ _ _]. destruct Hsame as (_ & E2 & E3 & _).
    split_and!; [done|by rewrite E3| |by rewrite E2].
    rewrite <- T1. unfold total, sum_of, size_of. by rewrite E2, E3. }
  unfold add_write. destruct a as [w|w vs].
  - destruct (Hins w p Hi Ha) as (q & E & I & L & T & Mo). unfold mbind at 1, M_bind at 1.
    cbn [mret M_ret]. exists q, (Ok tt). split_and!; [done|done|done|naive_solver|lia|lia].
  - destruct Ha as [Hw Hk]. destruct (evict_spec (w_Size w) 0 vs p Hi Hk) as (p1 & b & E & S1 & Hb).
    unfold mbind at 1, M_bind at 1. rewrite E. destruct b.
    + destruct (Hins w p1 (sh_inv _ _ S1) Hw) as (q & E2 & I & L & T & Mo). exists q, (Ok tt).
      destruct (Hb eq_refl) as [Hlen Htot]. split_and!; [done|done|done| |lia|].
      * intros id v Hv. destruct (sh_elts _ _ S1 id v Hv) as (v' & Hv' & Ev). exists v'. auto.
      * intros Hmax. specialize (Htot ltac:(lia) ltac:(lia)). lia.
    + eexists _, (Ok tt). split_and!; [done|done| | | |].
      * assert (inv p1) as Hp1 by apply S1. by apply (same_shrinks p1).
      * apply S1.
      * cbn. apply S1.
      * intros _. apply S1.
Qed.

(** ** All calls *)

Definition sumZ {A} (f : A → Z) (l : list A) : Z := foldr (λ x n, (f x + n)%Z) 0%Z l.

Lemma sumZ_cons {A} (f : A → Z) x l : sumZ f (x :: l) = (f x + sumZ f l)%Z.
Proof using. done. Qed.

Lemma sumZ_app {A} (f : A → Z) l1 l2 : sumZ f (l1 ++ l2) = (sumZ f l1 + sumZ f l2)%Z.
Proof using. clear. induction l1 as [|x l IH]; [done|]. cbn [app]. rewrite !sumZ_cons, IH. lia. Qed.

Lemma sumZ_le {A} (f : A → Z) c l :
  (∀ x, x ∈ l → (f x ≤ c)%Z) → (sumZ f l ≤ Z.of_nat (length l) * c)%Z.
Proof using.
  clear. induction l as [|x l IH]; intros Hl; [done|]. rewrite sumZ_cons. cbn [length].
  specialize (IH (λ y Hy, Hl y (list_elem_of_further _ _ _ Hy))). pose proof (Hl x ltac:(by left)). lia.
Qed.

Definition flight_ok (p : TxMempool) (f : flight) : Prop :=
  match f with
  | Asking tx _ _ => (tx_size tx ≤ MaxTxBytes cfg)%Z
  | Adding a => admission_ok p a
  end.

Lemma flight_ok_mono p p' f :
  (∀ id v, mp_elts p !! id = Some v → ∃ v', mp_elts p' !! id = Some v' ∧ w_tx v' = w_tx v) →
  flight_ok p f → flight_ok p' f.
Proof using.
  intros Hm. destruct f as [tx i h|[w|w vs]]; cbn; [done|done|]. intros [Hw Hk]. split; [done|].
  intros id v Hv. destruct (Hk id v Hv) as (v1 & Hv1 & E1). destruct (Hm id v1 Hv1) as (v2 & ? & ?).
  exists v2. split; [done|congruence].
Qed.

(** The calls that will insert without evicting. *)
Definition inserts (f : flight) : Z := match f with Adding (Insert _) => 1 | _ => 0 end.
Definition insert_bytes (f : flight) : Z := match f with Adding (Insert w) => w_Size w | _ => 0 end.

Record limits (k : nat) : Prop := {
  lm_calls : 1 ≤ k;
  lm_size : (0 ≤ cfg_Size cfg)%Z;
  lm_bytes : (0 ≤ MaxTxsBytes cfg)%Z;
  lm_tx : (0 ≤ MaxTxBytes cfg)%Z;
  lm_int : (MaxTxsBytes cfg + Z.of_nat k * MaxTxBytes cfg ≤ MaxInt64)%Z }.

Record world_ok (k : nat) (p : TxMempool) (fs : list flight) : Prop := {
  wo_inv : inv p;
  wo_flights f : f ∈ fs → flight_ok p f;
  wo_calls : length fs ≤ k;
  wo_len : limits k →
    (Z.of_nat (length (mp_txs p)) + sumZ inserts fs ≤ cfg_Size cfg + Z.of_nat k - 1)%Z;
  wo_total : limits k →
    (total p + sumZ insert_bytes fs ≤ MaxTxsBytes cfg + (Z.of_nat k - 1) * MaxTxBytes cfg)%Z }.

Lemma inserts_range f : (0 ≤ inserts f ≤ 1)%Z.
Proof using. clear. destruct f as [|[]]; cbn; lia. Qed.

Lemma insert_bytes_range p f : flight_ok p f → (0 ≤ MaxTxBytes cfg)%Z → (0 ≤ insert_bytes f ≤ MaxTxBytes cfg)%Z.
Proof using.
  destruct f as [|[w|w vs]]; cbn; try lia. intros [_ Hs] _. unfold w_Size, tx_size in *. lia.
Qed.

Lemma sumZ_nonneg {A} (f : A → Z) l : (∀ x, x ∈ l → (0 ≤ f x)%Z) → (0 ≤ sumZ f l)%Z.
Proof using.
  clear. induction l as [|x l IH]; intros Hl; [done|]. rewrite sumZ_cons.
  specialize (IH (λ y Hy, Hl y (list_elem_of_further _ _ _ Hy))). pose proof (Hl x ltac:(by left)). lia.
Qed.


(** A step that adds nothing to the pool and no call that will insert. *)
Lemma world_shrinks k p p' fs fs' :
  world_ok k p fs → shrinks p p' → (∀ f, f ∈ fs' → flight_ok p' f) → length fs' ≤ k →
  (sumZ inserts fs' ≤ sumZ inserts fs)%Z → (sumZ insert_bytes fs' ≤ sumZ insert_bytes fs)%Z →
  world_ok k p' fs'.
Proof using.
  intros [W1 W2 W3 W4 W5] [S1 S2 S3 S4 S5] Hf Hl Hi Hb. split; [done|done|done| |]; intros Hlim.
  - specialize (W4 Hlim). lia.
  - specialize (W5 Hlim). lia.
Qed.

Lemma canAddTx_spec k w p fs :
  limits k → world_ok k p fs → (w_Size w ≤ MaxTxBytes cfg)%Z → canAddTx cfg w p = true →
  (Z.of_nat (length (mp_txs p)) < cfg_Size cfg)%Z ∧ (total p + w_Size w ≤ MaxTxsBytes cfg)%Z.
Proof using.
  intros Hlim Hw Hs Hc. pose proof (wo_total _ _ _ Hw Hlim) as Ht. destruct Hlim as [L1 L2 L3 L4 L5].
  assert (0 ≤ sumZ insert_bytes fs)%Z as Hn.
  { apply sumZ_nonneg. intros f Hf. by apply (insert_bytes_range p), L4; apply Hw. }
  pose proof (sum_of_nonneg p (mp_txs p)) as Hp. fold (total p) in Hp.
  assert (0 ≤ w_Size w)%Z by (unfold w_Size, tx_size; lia).
  unfold canAddTx, mp_Size, SizeBytes in Hc. rewrite (iv_bytes _ (wo_inv _ _ _ Hw)) in Hc.
  apply negb_true_iff, orb_false_iff in Hc as [C1%Z.leb_gt C2%Z.ltb_ge].
  rewrite (int64_id (total p)) in C2 by (unfold_ints; lia). rewrite int64_id in C2 by (unfold_ints; lia).
  lia.
Qed.

(** The flights besides one. *)
Lemma other_flights k p p' fs1 f0 fs2 :
  world_ok k p (fs1 ++ f0 :: fs2) →
  (∀ id v, mp_elts p !! id = Some v → ∃ v', mp_elts p' !! id = Some v' ∧ w_tx v' = w_tx v) →
  (∀ f, f ∈ fs1 ++ fs2 → flight_ok p' f) ∧ S (length (fs1 ++ fs2)) ≤ k.
Proof using.
  intros Hw Hm. split.
  - intros f Hf. eapply flight_ok_mono; [exact Hm|]. apply Hw. rewrite !elem_of_app, elem_of_cons in *. naive_solver.
  - pose proof (wo_calls _ _ _ Hw). rewrite length_app in *. cbn in *. lia.
Qed.

Lemma answer_ok k tx info h now rsp p p' r fs1 fs2 :
  world_ok k p (fs1 ++ Asking tx info h :: fs2) →
  add_read cfg (wrap_tx tx info h now) rsp p = (p', r) →
  world_ok k p' (fs1 ++ (match r with Ok (Some a) => [Adding a] | _ => [] end) ++ fs2).
Proof using any_order_law.
  intros Hw E. assert (tx_size tx ≤ MaxTxBytes cfg)%Z as Hsz.
  { apply (wo_flights _ _ _ Hw (Asking tx info h)). apply elem_of_app. right. by left. }
  assert (admitted p (wrap_tx tx info h now)) as Ha by done.
  destruct (add_read_spec _ rsp p (wo_inv _ _ _ Hw) Ha) as (q & r' & E' & _ & S & Hr). rewrite E in E'.
  injection E' as <- <-. destruct (other_flights k p p' fs1 _ fs2 Hw (sh_elts _ _ S)) as [Hfs Hlen].
  assert (world_ok k p' (fs1 ++ fs2)) as Hw'.
  { eapply world_shrinks; [done|done|done|lia|..]; rewrite !sumZ_app, sumZ_cons; cbn; lia. }
  destruct r as [[a|]|e|]; [|done..]. destruct (Hr a eq_refl) as (Hsame & Hok & Hcan). cbn [app].
  destruct Hw' as [W1 W2 W3 W4 W5]. split; [done| |rewrite length_app in *; cbn; lia|..].
  - intros f Hf. rewrite elem_of_app, elem_of_cons in Hf.
    destruct Hf as [Hf|[->|Hf]]; [apply W2; set_solver|done|apply W2; set_solver].
  - intros Hlim. specialize (W4 Hlim). rewrite sumZ_app in *. rewrite sumZ_cons.
    destruct a as [w|w vs]; cbn [inserts]; [|lia].
    destruct (canAddTx_spec k w p _ Hlim Hw (proj2 Hok) (Hcan w eq_refl)) as [Hc _].
    pose proof (sumZ_le inserts 1 (fs1 ++ fs2) (λ f _, proj2 (inserts_range f))) as Hle.
    rewrite sumZ_app in Hle. destruct Hsame as (_ & _ & Ht & _). rewrite Ht. lia.
  - intros Hlim. specialize (W5 Hlim). rewrite sumZ_app in *. rewrite sumZ_cons.
    destruct a as [w|w vs]; cbn [insert_bytes]; [|lia].
    destruct (canAddTx_spec k w p _ Hlim Hw (proj2 Hok) (Hcan w eq_refl)) as [_ Hc].
    pose proof (lm_tx _ Hlim) as Htx.
    pose proof (sumZ_le insert_bytes (MaxTxBytes cfg) (fs1 ++ fs2)
      (λ f Hf, proj2 (insert_bytes_range p' f (Hfs f Hf) Htx))) as Hle.
    rewrite sumZ_app in Hle. pose proof (sh_total _ _ S). nia.
Qed.

Lemma add_ok k a p p' r fs1 fs2 :
  world_ok k p (fs1 ++ Adding a :: fs2) → add_write a p = (p', r) → world_ok k p' (fs1 ++ fs2).
Proof using.
  intros Hw E. assert (admission_ok p a) as Ha.
  { apply (wo_flights _ _ _ Hw (Adding a)). apply elem_of_app. right. by left. }
  destruct (add_write_spec a p (wo_inv _ _ _ Hw) Ha) as (q & r' & E' & _ & Hi & Hm & Hlt). rewrite E in E'.
  injection E' as <- <-. destruct (other_flights k p p' fs1 _ fs2 Hw Hm) as [Hfs Hlen].
  split; [done|done|lia|..]; intros Hlim.
  - pose proof (wo_len _ _ _ Hw Hlim) as Hl. rewrite sumZ_app, sumZ_cons in Hl. rewrite sumZ_app.
    destruct a as [w|w vs]; cbn [inserts] in Hl; lia.
  - pose proof (wo_total _ _ _ Hw Hlim) as Ht. rewrite sumZ_app, sumZ_cons in Ht. rewrite sumZ_app.
    destruct a as [w|w vs]; cbn [insert_bytes] in Ht; [lia|]. destruct Hlt as [_ Hlt].
    enough (total p ≤ MaxInt64)%Z by (specialize (Hlt ltac:(done)); lia).
    assert (0 ≤ sumZ insert_bytes fs1 + sumZ insert_bytes fs2)%Z.
    { rewrite <- sumZ_app. apply sumZ_nonneg. intros f Hf. apply (insert_bytes_range p'); [by apply Hfs|apply Hlim]. }
    destruct Hlim. nia.
Qed.

Lemma step_ok k p fs p' fs' : world_ok k p fs → step cfg k (p, fs) (p', fs') → world_ok k p' fs'.
Proof using any_order_law.
  intros Hw Hst. pose proof (wo_inv _ _ _ Hw) as W1.
  assert (∀ A (m : X A) q r, m p = (q, r) → shrink_at m p → world_ok k q fs) as Hsame.
  { intros A m q r E Hm. destruct (Hm W1) as (q' & r' & E' & _ & S). rewrite E in E'. injection E' as <- <-.
    eapply world_shrinks; [done|done| |apply Hw|done..]. intros f Hf.
    eapply flight_ok_mono; [apply S|]. by apply Hw. }
  inversion Hst as [tx info ce p0 p1 r fs0 E Hlt|tx info h p0 fs1 fs2|tx info h now rsp p0 p1 r fs1 fs2 E
    |a p0 p1 r fs1 fs2 E|h txs res pre post rc now p0 p1 r fs0 Hlen E|tx rsp p0 p1 r fs0 E|key p0 p1 r fs0 E
    |p0 p1 r fs0 E|p0 p1 r fs0 E]; subst.
  - destruct (check_start_spec tx info ce p W1) as (q & r' & E' & _ & S & Hr). rewrite E in E'.
    injection E' as <- <-. eapply world_shrinks; [done|done| |destruct r as [[h|?]|?|]; cbn; lia|destruct r as [[h|?]|?|]; rewrite ?sumZ_cons; cbn [inserts insert_bytes]; lia..].
    assert (∀ f, f ∈ fs → flight_ok p' f) as Hfs.
    { intros f Hf. eapply flight_ok_mono; [apply S|]. by apply Hw. }
    intros f Hf. destruct r as [[h|?]|?|]; [apply elem_of_cons in Hf as [->|Hf]; [by eapply Hr|]|..]; auto.
  - destruct (other_flights k p (set_cache (Remove (mp_cache p) tx) p) fs1 _ fs2 Hw) as [Hfs Hlen]; [naive_solver|].
    eapply world_shrinks; [done|by apply (same_shrinks p)|done|lia|..]; rewrite !sumZ_app, sumZ_cons; cbn; lia.
  - by eapply answer_ok.
  - by eapply add_ok.
  - eapply Hsame; [done|by apply shrink_Update].
  - eapply Hsame; [done|apply shrink_recheck].
  - eapply Hsame; [done|apply shrink_remove_key].
  - eapply Hsame; [done|apply shrink_flush].
  - destruct E as [E|E]; (eapply Hsame; [done|]); [apply shrink_notify|].
    by apply (shrink_same _ p (set_notified (mp_notified p) (Some false) p) (Ok tt)).
Qed.

Lemma pool_reachable_ok k p fs : reachable cfg k p fs → world_ok k p fs.
Proof using any_order_law.
  intros (pre & post & Hr). remember (set_checks 0 pre post (NewTxMempool cfg), []) as x eqn:Ex.
  assert (world_ok k x.1 x.2) as Hx.
  { subst x. split; cbn.
    - split; cbn; [constructor|by intros ? ?%elem_of_nil|by intros ? ? ?%lookup_empty_Some..|done].
    - by intros f ?%elem_of_nil.
    - lia.
    - intros []. lia.
    - intros []. unfold total. cbn. nia. }
  clear Ex. remember (p, fs) as y eqn:Ey. revert p fs Ey. 
  induction Hr as [x|x y z Hst _ IH]; intros p fs ->; [done|].
  destruct x, y. apply (IH ltac:(by eapply step_ok) p fs eq_refl).
Qed.


(** ** The order of reaping *)

Definition indexed (p : TxMempool) : list elt :=
  omap (λ x, pair x.2 <$> mp_elts p !! x.2) (map_to_list (mp_txByKey p)).

Definition gas_of (l : list elt) : Z := sumZ (λ e, w_gasWanted e.2) l.
Definition proto_of (l : list elt) : Z := sumZ (λ e, ComputeProtoSizeForTxs [w_tx e.2]) l.

Definition fits (maxBytes maxGas : Z) (l : list elt) : Prop :=
  ((0 ≤ maxGas)%Z → (gas_of l ≤ maxGas)%Z) ∧ ((0 ≤ maxBytes)%Z → (proto_of l ≤ maxBytes)%Z).

(** The sums of all prefixes are machine integers. *)
Definition no_overflow (l : list elt) : Prop :=
  ∀ n, in_int64 (gas_of (take n l)) ∧ in_int64 (proto_of (take n l)).

#[local] Instance reap_first_total : Total reap_first.
Proof using. intros x y. unfold reap_first. lia. Qed.

#[local] Instance reap_first_trans : Transitive reap_first.
Proof using. intros x y z. unfold reap_first. lia. Qed.

Lemma allEntriesSorted_spec p :
  StronglySorted reap_first (allEntriesSorted p) ∧ allEntriesSorted p ≡ₚ indexed p.
Proof using any_order_law.
  unfold allEntriesSorted. split; [apply StronglySorted_merge_sort; apply _|].
  by rewrite merge_sort_Permutation, any_order_law.
Qed.

Lemma reap_loop_spec maxBytes maxGas pre l :
  no_overflow (pre ++ l) →
  ∃ keep rest, l = keep ++ rest ∧
    reap_loop maxBytes maxGas (gas_of pre) (proto_of pre) l = map (λ e, w_tx e.2) keep ∧
    (fits maxBytes maxGas pre → fits maxBytes maxGas (pre ++ keep)) ∧
    (∀ e rest', rest = e :: rest' → ¬ fits maxBytes maxGas (pre ++ keep ++ [e])).
Proof using.
  revert pre. induction l as [|[id w] l IH]; intros pre Ho.
  { exists [], []. split_and!; [done|done|by rewrite app_nil_r|done]. }
  cbn [reap_loop].
  assert (gas_of (pre ++ [(id, w)]) = gas_of pre + w_gasWanted w ∧
          proto_of (pre ++ [(id, w)]) = proto_of pre + ComputeProtoSizeForTxs [w_tx w])%Z as [Eg Ep].
  { unfold gas_of, proto_of. rewrite !sumZ_app, !sumZ_cons. cbn. lia. }
  destruct (Ho (S (length pre))) as [Hg Hb].
  assert (take (S (length pre)) (pre ++ ((id, w) : elt) :: l) = pre ++ [(id, w) : elt]) as Et.
  { rewrite take_app_ge by lia. by replace (S (length pre) - length pre) with 1 by lia. }
  rewrite Et in Hg, Hb. rewrite <- Eg, <- Ep, !int64_id by done.
  destruct (_ || _) eqn:Eb.
  - exists [], ((id, w) :: l). split_and!; [done|done|by rewrite app_nil_r|]. intros e rest' [= <- <-] [F1 F2].
    apply orb_true_iff in Eb as [[B1%Z.leb_le B2%Z.ltb_lt]%andb_true_iff|[B1%Z.leb_le B2%Z.ltb_lt]%andb_true_iff].
    + exact (proj1 (Z.lt_nge _ _) B2 (F1 B1)).
    + exact (proj1 (Z.lt_nge _ _) B2 (F2 B1)).
  - destruct (IH (pre ++ [(id, w)])) as (keep & rest & -> & El & Hf & Hm); [by rewrite <- app_assoc|].
    exists ((id, w) :: keep), rest. split_and!; [done|cbn [map]; by rewrite El| |].
    + intros _. rewrite <- app_assoc in Hf. apply Hf. apply orb_false_iff in Eb as [B1 B2]. split; intros Hz.
      * apply andb_false_iff in B1 as [B1%Z.leb_gt|B1%Z.ltb_ge]; [lia|exact B1].
      * apply andb_false_iff in B2 as [B2%Z.leb_gt|B2%Z.ltb_ge]; [lia|exact B2].
    + intros e rest' ->. specialize (Hm e rest' eq_refl). by rewrite <- app_assoc in Hm.
Qed.

(** ** One call of [CheckTx] *)

Lemma check_start_frame tx info ce p p' r :
  check_start cfg tx info ce p = (p', r) →
  mp_txs p' = mp_txs p ∧ mp_txByKey p' = mp_txByKey p ∧ (∀ h, r = Ok (inl h) → same_pool p p').
Proof.
  unfold check_start. destruct (_ <? _)%Z; [by intros [= <- <-]|].
  unfold mbind at 1, M_bind at 1, gets at 1.
  destruct (match mp_preCheck p with Some f => negb (f tx) | None => false end); [by intros [= <- <-]|].
  destruct ce; [by intros [= <- <-]|]. unfold mbind at 1, M_bind at 1.
  destruct (Push (mp_cache p) tx) as [c []]; [by intros [= <- <-]|].
  unfold mbind at 1, M_bind at 1, gets at 1. cbn [mp_txByKey set_cache].
  destruct (mp_txByKey p !! Tx_Hash tx); [by intros [= <- <-]|].
  destruct (_ && _); [|by intros [= <- <-]]. unfold mbind, M_bind, gets.
  by destruct (Rejection _ _); intros [= <- <-].
Qed.

Lemma add_read_same w rsp p p' r : add_read cfg w rsp p = (p', r) → same_pool p p'.
Proof.
  unfold add_read. unfold mbind at 1, M_bind at 1, gets at 1. cbv zeta.
  set (failed := match mp_postCheck p with Some f => _ | None => _ end).
  destruct (failed || _).
  { unfold mbind, M_bind. destruct (negb (KeepInvalidTxsInCache cfg)), (negb (RC_Code rsp =? CodeTypeOK)%Z), failed;
      by intros [= <- <-]. }
  unfold mbind at 1, M_bind at 1, gets at 1. destruct (_ && _); [by intros [= <- <-]|].
  unfold mbind at 1, M_bind at 1, gets at 1. destruct (canAddTx cfg w p); [by intros [= <- <-]|].
  unfold mbind at 1, M_bind at 1, gets at 1. destruct (_ <=? _)%Z; by intros [= <- <-].
Qed.

Definition sizes (l : list elt) : Z := sumZ (λ e, w_Size e.2) l.

Lemma sizes_nonneg l : (0 ≤ sizes l)%Z.
Proof using. clear. apply sumZ_nonneg. intros e _. unfold w_Size, tx_size. lia. Qed.

(** Evicting elements that are all listed. *)
Lemma evict_run size acc vs p :
  (∀ id w, (id, w) ∈ vs → id ∈ mp_txs p ∧ mp_elts p !! id = Some w) → NoDup (map fst vs) →
  (0 ≤ acc)%Z → (acc + sizes vs ≤ MaxInt64)%Z →
  ∃ p' b gone, evict size acc vs p = (p', Ok b) ∧ gone ⊆ map fst vs ∧
    mp_txs p' = filter (λ i, i ∉ gone) (mp_txs p) ∧ mp_elts p' = mp_elts p ∧ mp_fresh p' = mp_fresh p ∧
    ((size ≤ acc + sizes vs)%Z → vs ≠ [] → b = true).
Proof.
  revert acc p. induction vs as [|[id w] vs IH]; intros acc p Hvs Hn Ha Hm.
  { exists p, false, []. split_and!; try done. rewrite filter_all; [done|]. intros ? _. apply not_elem_of_nil. }
  destruct (Hvs id w ltac:(by left)) as [Hin Hw]. cbn in Hn. apply NoDup_cons in Hn as [Hid Hn].
  unfold sizes in Hm. rewrite sumZ_cons in Hm. fold (sizes vs) in Hm. cbn [snd] in Hm.
  pose proof (sizes_nonneg vs). assert (0 ≤ w_Size w)%Z by (unfold w_Size, tx_size; lia).
  cbn [evict]. unfold mbind at 1, M_bind at 1, gets at 1. rewrite bool_decide_eq_true_2 by done. cbn [negb].
  unfold mbind at 1, M_bind at 1. rewrite (removeTxByElement_run id w p) by done.
  unfold mbind at 1, M_bind at 1. unfold cache_op at 1, modify at 1. set (p2 := set_cache _ _).
  rewrite int64_id by (unfold_ints; lia).
  assert (mp_txs p2 = filter (λ i, i ≠ id) (mp_txs p)) as E2 by done.
  destruct (Z.leb_spec size (acc + w_Size w)).
  - exists p2, true, [id]. split_and!; try done; [set_solver|]. rewrite E2.
    apply filter_in_iff. intros i _. by rewrite list_elem_of_singleton.
  - destruct (IH (acc + w_Size w)%Z p2) as (p' & b & gone & E & Hg & Ht & He & Hf & Hb); [|done|lia|lia|].
    { intros i v Hi. destruct (Hvs i v ltac:(by right)) as [Hi1 Hi2]. split; [|done]. rewrite E2.
      apply list_elem_of_filter. split; [|done]. intros ->. apply Hid. by apply (list_elem_of_fmap_2 fst _ (id, v)). }
    exists p', b, (id :: gone). split_and!; try done; [cbn; set_solver| |].
    + rewrite Ht, E2, list_filter_filter. apply filter_in_iff. intros i _. rewrite elem_of_cons. tauto.
    + intros Hs _. unfold sizes in Hs. rewrite sumZ_cons in Hs. fold (sizes vs) in Hs. cbn [snd] in Hs.
      apply Hb; [lia|]. intros ->. cbn in Hs. lia.
Qed.

Lemma sum_sizes_eq l acc :
  (0 ≤ acc)%Z → (acc + sizes l ≤ MaxInt64)%Z → foldl (λ n (e : elt), int64 (n + w_Size e.2)) acc l = (acc + sizes l)%Z.
Proof.
  clear. revert acc. induction l as [|e l IH]; intros acc Ha Hm; [cbn; lia|]. unfold sizes in *.
  rewrite sumZ_cons in *. fold (sizes l) in *. cbn [foldl]. pose proof (sizes_nonneg l).
  assert (0 ≤ w_Size e.2)%Z by (unfold w_Size, tx_size; lia).
  rewrite int64_id by (unfold_ints; lia). rewrite IH by lia. lia.
Qed.

Lemma sizes_perm l l' : l ≡ₚ l' → sizes l = sizes l'.
Proof.
  clear. unfold sizes. induction 1 as [|x l l' _ IH|x y l|l1 l2 l3 _ IH1 _ IH2]; [done|..];
    rewrite ?sumZ_cons; [by rewrite IH|lia|by rewrite IH1].
Qed.

Lemma sizes_sublist l l' : sublist l l' → (sizes l ≤ sizes l')%Z.
Proof.
  clear. unfold sizes. induction 1 as [|x l l' _ IH|x l l' _ IH]; [done|rewrite !sumZ_cons; lia|].
  rewrite sumZ_cons. assert (0 ≤ w_Size x.2)%Z by (unfold w_Size, tx_size; lia). lia.
Qed.

Lemma entries_total p : inv p → sizes (entries p) = total p.
Proof.
  intros Hi. unfold entries, total, sizes. pose proof (iv_txs _ Hi) as Ht.
  induction (mp_txs p) as [|i l IH]; [done|]. rewrite sum_of_cons, <- IH by (intros; apply Ht; by right).
  cbn -[sumZ size_of]. unfold size_of. destruct (Ht i ltac:(by left)) as [w Hw]. rewrite Hw. cbn -[sumZ]. by rewrite sumZ_cons.
Qed.


(** What a call makes of the list: it stays, or the transaction is added at its end and only
    transactions of lower priority leave. *)
Definition all_or_nothing (tx : bytes) (answer : ResponseCheckTx + unit) (p p' : TxMempool) : Prop :=
  (mp_txs p' = mp_txs p ∧ mp_txByKey p' = mp_txByKey p) ∨
  ∃ rsp (gone : list nat) w, answer = inl rsp ∧ RC_Code rsp = CodeTypeOK ∧
    mp_txs p' = filter (λ i, i ∉ gone) (mp_txs p) ++ [mp_fresh p] ∧
    mp_elts p' !! mp_fresh p = Some w ∧ w_tx w = tx ∧ w_priority w = RC_Priority rsp ∧
    mp_txByKey p' !! Tx_Hash tx = Some (mp_fresh p) ∧
    ∀ id, id ∈ gone → ∃ v, mp_elts p !! id = Some v ∧ (w_priority v < RC_Priority rsp)%Z.

Lemma insert_result w p p' r :
  ((_ ← insertTx w; notifyTxsAvailable) : X unit) p = (p', r) →
  mp_txs p' = mp_txs p ++ [mp_fresh p] ∧ mp_elts p' !! mp_fresh p = Some w ∧
  mp_txByKey p' !! Tx_Hash (w_tx w) = Some (mp_fresh p).
Proof using.
  unfold mbind, M_bind, insertTx, modify at 1. set (q := mkPool _ _ _ _ _ _ _ _ _ _ _ _).
  destruct (notify_same q) as (q' & -> & _ & E2 & E3 & E4 & _). intros [= <- <-].
  rewrite E3, E2. split_and!; [done|apply lookup_insert_eq|]. rewrite E4. apply lookup_insert_eq.
Qed.

(** What the section under the read lock hands over. *)
Lemma add_read_victims wtx rsp p p1 r1 :
  add_read cfg wtx rsp p = (p1, r1) →
  match r1 with
  | Ok (Some (Insert w)) => w = assign wtx rsp ∧ RC_Code rsp = CodeTypeOK
  | Ok (Some (EvictFor w vs)) => w = assign wtx rsp ∧ RC_Code rsp = CodeTypeOK ∧
      vs ≡ₚ filter (λ e, w_priority e.2 < RC_Priority rsp)%Z (entries p) ∧
      (w_Size wtx ≤ sum_sizes (filter (λ e, w_priority e.2 < RC_Priority rsp)%Z (entries p)))%Z
  | _ => True
  end.
Proof using any_order_law.
  unfold add_read. unfold mbind at 1, M_bind at 1, gets at 1. cbv zeta.
  set (failed := match mp_postCheck p with Some f => _ | None => _ end).
  destruct (failed || negb (RC_Code rsp =? CodeTypeOK)%Z) eqn:Ec.
  { unfold mbind, M_bind. destruct (negb (KeepInvalidTxsInCache cfg)), (negb (RC_Code rsp =? CodeTypeOK)%Z), failed;
      by intros [= <- <-]. }
  apply orb_false_iff in Ec as [_ Ec%negb_false_iff%Z.eqb_eq].
  unfold mbind at 1, M_bind at 1, gets at 1. destruct (_ && _); [by intros [= <- <-]|].
  unfold mbind at 1, M_bind at 1, gets at 1. destruct (canAddTx cfg wtx p); [by intros [= <- <-]|].
  unfold mbind at 1, M_bind at 1, gets at 1. destruct (_ <=? _)%Z eqn:El; [|by intros [= <- <-]].
  apply Z.leb_le in El. intros [= <- <-].
  split_and!; [done|done| |done]. by rewrite merge_sort_Permutation, any_order_law.
Qed.

(** The answer of the application to a call that nothing interleaves with. *)
Lemma answer_all_or_nothing wtx rsp p p1 r1 :
  inv p → (total p ≤ MaxInt64)%Z → add_read cfg wtx rsp p = (p1, r1) →
  ∀ p' r, match r1 with Ok (Some a) => add_write a p1 = (p', r) | _ => p' = p1 end →
  all_or_nothing (w_tx wtx) (inl rsp) p p'.
Proof using any_order_law.
  intros Hi Ht E p' r Er. pose proof (add_read_same _ _ _ _ _ E) as (_ & Ee & Etx & Ek & _ & Ef').
  pose proof (add_read_victims _ _ _ _ _ E) as Hv.
  destruct r1 as [[[w|w vs]|]| |]; [| |subst p'; by left..].
  - destruct Hv as [-> Hc]. right. exists rsp, [], (assign wtx rsp).
    destruct (insert_result (assign wtx rsp) p1 p' r Er) as (R1 & R2 & R3).
    rewrite Etx, Ef' in R1. rewrite Ef' in R2, R3. split_and!; try done; [|set_solver].
    rewrite R1, filter_all; [done|]. intros ? _. apply not_elem_of_nil.
  - destruct Hv as (-> & Hc & Hp & Hs). set (vic := filter _ (entries p)) in *.
    assert (sizes vs ≤ MaxInt64)%Z as Hmax.
    { rewrite (sizes_perm _ _ Hp). etrans; [apply sizes_sublist, sublist_filter|]. by rewrite entries_total. }
    destruct (evict_run (w_Size wtx) 0 vs p1) as (p2 & b & gone & Ev & Hg & E1 & E2 & E3 & Hb); [| |lia|lia|].
    { intros id v Hin. rewrite Etx, Ee. apply elem_of_entries. rewrite Hp in Hin.
      by apply list_elem_of_filter in Hin as [_ Hin]. }
    { change (NoDup (fst <$> vs)). rewrite Hp. eapply sublist_NoDup; [apply (entries_nodup p), Hi|].
      apply fmap_sublist, sublist_filter. }
    unfold sum_sizes in Hs. rewrite sum_sizes_eq in Hs; [|lia|rewrite <- (sizes_perm _ _ Hp); lia].
    unfold add_write in Er. unfold mbind at 1, M_bind at 1 in Er. change (w_Size (assign wtx rsp)) with (w_Size wtx) in Er.
    rewrite Ev in Er. destruct b.
    + right. exists rsp, gone, (assign wtx rsp).
      destruct (insert_result (assign wtx rsp) p2 p' r Er) as (R1 & R2 & R3).
      rewrite E3, Ef', E1, Etx in R1. rewrite E3, Ef' in R2, R3. split_and!; try done.
      intros id Hin%Hg. apply list_elem_of_fmap in Hin as ([i v] & -> & Hin). rewrite Hp in Hin.
      apply list_elem_of_filter in Hin as [Hlt Hin%elem_of_entries]. exists v. split; [apply Hin|done].
    + left. destruct vs as [|v vs]; [|rewrite (sizes_perm _ _ Hp) in Hb; by discriminate Hb; [lia|]].
      injection Ev as <- . injection Er as <- _. done.
Qed.

Lemma all_or_nothing_same tx answer p p1 p' :
  same_pool p p1 → all_or_nothing tx answer p1 p' → all_or_nothing tx answer p p'.
Proof using. intros (_ & E2 & E3 & E4 & _ & E6). unfold all_or_nothing. by rewrite E2, E3, E4, E6. Qed.

(** C19: a call of [CheckTx] that no other call interleaves with does not panic, keeps the
    invariant, and is all or nothing: the list and the index stay as they are, or the
    application accepted the transaction, the transaction is at the end of the list, found by its
    hash and ranked by the application's priority, and only transactions of strictly lower
    priority have left. *)
Theorem CheckTx_all_or_nothing tx info ce now answer p fs :
  limits 1 → reachable cfg 1 p fs →
  ∃ p' r, CheckTx cfg tx info ce now answer p = (p', r) ∧ r ≠ Panic ∧ inv p' ∧
    all_or_nothing tx answer p p'.
Proof using any_order_law.
  intros Hl Hr. destruct (pool_reachable_ok 1 p fs Hr) as [Hi Hfl Hn _ Ht]. specialize (Ht Hl).
  assert (total p ≤ MaxInt64)%Z as Hmax.
  { assert (0 ≤ sumZ insert_bytes fs)%Z; [|destruct Hl; lia].
    apply sumZ_nonneg. intros f Hf. apply (insert_bytes_range p); [by apply Hfl|apply Hl]. }
  destruct (check_start_spec tx info ce p Hi) as (p1 & r1 & E1 & N1 & S1 & Hsz).
  unfold CheckTx. unfold mbind at 1, M_bind at 1. rewrite E1.
  destruct (check_start_frame tx info ce p p1 r1 E1) as (F1 & F2 & F3).
  destruct r1 as [[h|x]|e|]; [|by eexists _, _; split_and!; [done|done|apply S1|left]..|done].
  specialize (F3 h eq_refl). assert (total p1 ≤ MaxInt64)%Z as Hmax1 by (pose proof (sh_total _ _ S1); lia).
  destruct answer as [rsp|[]]; [|by eexists _, _; split_and!; [done|done|apply (same_shrinks p1 _ (sh_inv _ _ S1))|left]].
  set (wtx := wrap_tx tx info h now).
  assert (admitted p1 wtx) as Hw by (split; [done|by apply (Hsz h)]).
  destruct (add_read_spec wtx rsp p1 (sh_inv _ _ S1) Hw) as (p2 & r2 & E2 & N2 & S2 & Ha).
  pose proof (answer_all_or_nothing wtx rsp p1 p2 r2 (sh_inv _ _ S1) Hmax1 E2) as Hall.
  unfold mbind at 1, M_bind at 1. rewrite E2. destruct r2 as [[a|]|e|]; [| | |done].
  - destruct (Ha a eq_refl) as (_ & Ho & _).
    destruct (add_write_spec a p2 (sh_inv _ _ S2) Ho) as (p3 & r3 & E3 & N3 & I3 & _).
    exists p3, r3. split_and!; [done|done|done|]. by apply (all_or_nothing_same _ _ _ p1), (Hall p3 r3).
  - eexists p2, _. split_and!; [done|done|apply S2|]. by apply (all_or_nothing_same _ _ _ p1), (Hall p2 Panic).
  - eexists p2, _. split_and!; [done|done|apply S2|]. by apply (all_or_nothing_same _ _ _ p1), (Hall p2 Panic).
Qed.

(** ** The properties *)

Definition no_panic (p : TxMempool) (fs : list flight) : Prop :=
  (∀ tx info ce, (check_start cfg tx info ce p).2 ≠ Panic) ∧
  (∀ tx info h now rsp, Asking tx info h ∈ fs → (add_read cfg (wrap_tx tx info h now) rsp p).2 ≠ Panic) ∧
  (∀ a, Adding a ∈ fs → (add_write a p).2 ≠ Panic) ∧
  (∀ h txs results pre post recheck now, length txs = length results →
     (Update cfg h txs results pre post recheck now p).2 ≠ Panic) ∧
  (∀ tx rsp, (handleRecheckResult cfg tx rsp p).2 ≠ Panic) ∧
  (∀ key, (removeTxByKey key p).2 ≠ Panic) ∧
  (Flush p).2 ≠ Panic.

Lemma shrink_no_panic {A} (m : X A) p : inv p → shrink_at m p → (m p).2 ≠ Panic.
Proof using. intros Hi Hs. destruct (Hs Hi) as (p' & r & -> & Hr & _). exact Hr. Qed.

(** C17: in every state that calls of [CheckTx], at most [k] of them at a time and interleaved in
    any way with one another and with updates, rechecks, removals and flushes, can bring the
    pool to: the listed elements are distinct and exist, the recorded size is the sum of their
    sizes, every entry of the index by hash is a listed element with that hash and every entry of
    the index by sender a listed element of that sender; and no operation panics, whichever call
    goes on next. *)
Theorem pool_invariant k p fs : reachable cfg k p fs → inv p ∧ no_panic p fs.
Proof using any_order_law.
  intros Hr. destruct (pool_reachable_ok k p fs Hr) as [Hi Hf _ _ _]. split; [done|]. split_and!.
  - intros tx info ce. by destruct (check_start_spec tx info ce p Hi) as (p' & r & -> & N & _).
  - intros tx info h now rsp Hin. pose proof (Hf _ Hin) as Hs.
    by destruct (add_read_spec (wrap_tx tx info h now) rsp p Hi) as (p' & r & -> & N & _).
  - intros a Hin. by destruct (add_write_spec a p Hi (Hf _ Hin)) as (p' & r & -> & N & _).
  - intros. by apply shrink_no_panic, shrink_Update.
  - intros. by apply shrink_no_panic, shrink_recheck.
  - intros. by apply shrink_no_panic, shrink_remove_key.
  - by apply shrink_no_panic, shrink_flush.
Qed.

(** C18: with at most [k] calls of [CheckTx] at a time, the pool never holds more than
    [Size + k - 1] transactions nor, as it reports its size, more than
    [MaxTxsBytes + (k - 1) * MaxTxBytes] bytes: the room is found under the read lock and taken
    under the write lock, so each call but one can be over; calls that do not overlap keep the
    configured limits. *)
Theorem pool_limits k p fs :
  limits k → reachable cfg k p fs →
  (mp_Size p ≤ cfg_Size cfg + Z.of_nat k - 1)%Z ∧
  (0 ≤ SizeBytes p ≤ MaxTxsBytes cfg + (Z.of_nat k - 1) * MaxTxBytes cfg)%Z.
Proof using any_order_law.
  intros Hl Hr. destruct (pool_reachable_ok k p fs Hr) as [Hi Hf _ H3 H4]. specialize (H3 Hl). specialize (H4 Hl).
  assert (0 ≤ sumZ inserts fs)%Z by (apply sumZ_nonneg; intros; apply inserts_range).
  assert (0 ≤ sumZ insert_bytes fs)%Z.
  { apply sumZ_nonneg. intros f Hin. apply (insert_bytes_range p); [by apply Hf|apply Hl]. }
  pose proof (sum_of_nonneg p (mp_txs p)) as Hn. fold (total p) in Hn.
  unfold mp_Size, SizeBytes. rewrite (iv_bytes _ Hi).
  destruct Hl as [L1 L2 L3 L4 L5]. rewrite int64_id by (unfold_ints; lia). lia.
Qed.

(** C20: the transactions reaped for a block are a prefix of the indexed transactions sorted by
    falling priority, and by age among equals: the longest prefix whose gas and whose encoded
    size keep the limits given (a negative limit is none), as long as the sums are machine
    integers. *)
Theorem reap_longest_prefix maxBytes maxGas p :
  no_overflow (allEntriesSorted p) →
  ∃ keep rest, StronglySorted reap_first (keep ++ rest) ∧ keep ++ rest ≡ₚ indexed p ∧
    mp_ReapMaxBytesMaxGas maxBytes maxGas p = map (λ e, w_tx e.2) keep ∧
    fits maxBytes maxGas keep ∧
    ∀ e rest', rest = e :: rest' → ¬ fits maxBytes maxGas (keep ++ [e]).
Proof using any_order_law.
  intros Ho. destruct (allEntriesSorted_spec p) as [Hs Hp].
  destruct (reap_loop_spec maxBytes maxGas [] (allEntriesSorted p) Ho) as (keep & rest & E & El & Hf & Hm).
  rewrite E in Hs, Hp. exists keep, rest. split_and!; try done. apply Hf. unfold fits, gas_of, proto_of. cbn. lia.
Qed.

(** ** A transaction that the cache has forgotten *)

(** An element of the list that no entry of the index by hash names. *)
Definition orphan (p : TxMempool) (id : nat) : Prop :=
  id ∈ mp_txs p ∧ ∀ k, mp_txByKey p !! k ≠ Some id.

Definition keeps {A} (id : nat) (m : X A) : Prop :=
  ∀ p, inv p ∧ orphan p id → inv (m p).1 ∧ orphan (m p).1 id.

Lemma orphan_bind {A B} id (m : X A) (f : A → X B) :
  keeps id m → (∀ a, keeps id (f a)) → keeps id (m ≫= f).
Proof using.
  intros Hm Hf p Ho. specialize (Hm p Ho). unfold mbind, M_bind.
  destruct (m p) as [p' [a|e|]]; [by apply Hf|done..].
Qed.

Lemma keeps_same {A} id (m : X A) : (∀ p, same_pool p (m p).1) → keeps id m.
Proof using.
  intros Hm p [Hi Ho]. specialize (Hm p). split; [by apply (same_shrinks p)|].
  destruct Hm as (_ & _ & E3 & E4 & _). unfold orphan. by rewrite E3, E4.
Qed.

Lemma keeps_remove_key id key : keeps id (removeTxByKey key).
Proof using.
  intros p [Hi [Hin Hk]]. destruct (removeTxByKey_run key p Hi) as [[_ ->]|(i & w & E & Hi' & Hw & <- & ->)]; [done|].
  split; [by apply removed_shrinks|]. split.
  - apply list_elem_of_filter. split; [|done]. intros ->. by apply (Hk _ E).
  - intros k Ek. cbn in Ek. apply lookup_delete_Some in Ek as [_ Ek]. by apply (Hk k).
Qed.

Lemma keeps_recheck id tx rsp : keeps id (handleRecheckResult cfg tx rsp).
Proof using.
  intros p [Hi Ho]. destruct (handleRecheckResult cfg tx rsp p) as [p' r] eqn:Er. revert Er. cbn [fst].
  unfold handleRecheckResult. unfold mbind at 1, M_bind at 1, gets at 1.
  destruct (mp_txByKey p !! Tx_Hash tx) as [i|] eqn:E; [|by intros [= <- <-]].
  destruct (iv_key _ Hi _ _ E) as (Hin & w & Hw & Ek).
  unfold mbind at 1, M_bind at 1. rewrite (value_run i w) by done. unfold mbind at 1, M_bind at 1, gets at 1.
  destruct (_ && _).
  { intros Er. destruct (shrink_value i (SetPriority (RC_Priority rsp)) p) as (p1 & r1 & E' & _ & S); [done..|].
    split; [|by injection Er as <- _]. rewrite E' in Er. injection Er as <- _. apply S. }
  assert (inv (removed (Tx_Hash tx) i w p) ∧ orphan (removed (Tx_Hash tx) i w p) id) as Hr.
  { pose proof (keeps_remove_key id (Tx_Hash tx) p (conj Hi Ho)) as Hr.
    destruct (removeTxByKey_run (Tx_Hash tx) p Hi) as [[? _]|(i' & w' & E' & _ & Hw' & Ek' & Er)]; [congruence|].
    rewrite Er in Hr. by assert (i' = i ∧ w' = w) as [-> ->] by (split; congruence). }
  unfold mbind at 1, M_bind at 1. rewrite (removeTxByElement_run i w) by done. rewrite Ek.
  assert (∀ f, (cache_op f (removed (Tx_Hash tx) i w p)) = (p', r) → inv p' ∧ orphan p' id) as Hf.
  { intros f Ef. pose proof (keeps_same id (cache_op f) (λ _, ltac:(done)) _ Hr) as Hk. by rewrite Ef in Hk. }
  destruct (negb _); [apply Hf|]. unfold when. destruct (negb _); [apply Hf|by intros [= <- <-]].
Qed.

Lemma keeps_update_tx id x : keeps id (update_tx cfg x).
Proof using.
  destruct x as [tx res]. unfold update_tx. apply orphan_bind.
  - destruct (_ =? _)%Z; [by apply keeps_same|]. unfold when. by destruct (negb _); apply keeps_same.
  - intros _ p Hp. pose proof (keeps_remove_key id (Tx_Hash tx) p Hp) as Hr.
    unfold ignore, try, mbind, M_bind. destruct (removeTxByKey (Tx_Hash tx) p) as [p' []]; exact Hr.
Qed.

Lemma keeps_each {A} id (f : A → X unit) l : (∀ a, keeps id (f a)) → keeps id (each f l).
Proof using. intros Hf. induction l as [|a l IH]; [by apply keeps_same|]. by apply orphan_bind. Qed.

Lemma keeps_notify id : keeps id notifyTxsAvailable.
Proof using. apply keeps_same. intros p. by destruct (notify_same p) as (p' & -> & ?). Qed.

Lemma keeps_Update id h txs results pre post recheck now :
  TTLNumBlocks cfg = 0%Z → TTLDuration cfg = 0%Z → keeps id (Update cfg h txs results pre post recheck now).
Proof using.
  intros T1 T2. unfold Update. destruct (negb _); [by apply keeps_same|].
  apply orphan_bind; [by apply keeps_same|intros _].
  apply orphan_bind; [apply keeps_each, keeps_update_tx|intros _].
  unfold purgeExpiredTxs. rewrite T1, T2. cbn [Z.eqb andb].
  apply orphan_bind; [by apply keeps_same|intros _]. apply orphan_bind; [by apply keeps_same|intros size].
  destruct (_ <? _)%Z; [|by apply keeps_same]. destruct recheck; [by apply keeps_same|].
  apply orphan_bind; [apply keeps_notify|intros _]. by apply keeps_same.
Qed.

(** What removes transactions when blocks are decided. *)
Inductive block_step (p : TxMempool) : TxMempool → Prop :=
  | bs_update h txs results pre post recheck now :
      block_step p (Update cfg h txs results pre post recheck now p).1
  | bs_recheck tx rsp : block_step p (handleRecheckResult cfg tx rsp p).1
  | bs_remove key : block_step p (removeTxByKey key p).1.

Lemma orphan_unreaped p id : orphan p id → id ∉ map fst (allEntriesSorted p).
Proof using any_order_law.
  intros [_ Hk]. destruct (allEntriesSorted_spec p) as [_ Hp]. change (id ∉ fst <$> allEntriesSorted p).
  rewrite Hp. intros ([i w] & -> & Hin)%list_elem_of_fmap. cbn in Hk.
  apply list_elem_of_omap in Hin as ([k j] & Hkj%elem_of_map_to_list & E). cbn in E.
  destruct (mp_elts p !! j); [|done]. injection E as -> _. by apply (Hk k).
Qed.

(** A valid transaction that the cache does not have, with room in the pool. *)
Lemma CheckTx_accepts tx info now rsp p :
  Cache_Has (mp_cache p) tx = false → (tx_size tx ≤ MaxTxBytes cfg)%Z → mp_preCheck p = None →
  mp_postCheck p = None → RC_Code rsp = CodeTypeOK → RC_Sender rsp = [] →
  canAddTx cfg (wrap_tx tx info (mp_height p) now) p = true →
  ∃ c, CheckTx cfg tx info false now (inl rsp) p =
    ((_ ← insertTx (assign (wrap_tx tx info (mp_height p) now) rsp); notifyTxsAvailable) : X unit) (set_cache c p).
Proof using.
  intros Hc Hs Hpre Hpost Hcode Hsend Hroom.
  assert (∃ c, Push (mp_cache p) tx = (c, true)) as [c Hpush].
  { unfold Cache_Has in Hc. destruct (mp_cache p) as [c|]; [|by eexists]. cbn. unfold lru_Push. rewrite Hc.
    by eexists. }
  set (w := assign (wrap_tx tx info (mp_height p) now) rsp). set (p1 := set_cache c p).
  assert (check_start cfg tx info false p = (p1, Ok (inl (mp_height p)))) as E1.
  { unfold check_start. rewrite (proj2 (Z.ltb_ge _ _) Hs). unfold mbind, M_bind, gets. by rewrite Hpre, Hpush. }
  assert (add_read cfg (wrap_tx tx info (mp_height p) now) rsp p1 = (p1, Ok (Some (Insert w)))) as E2.
  { unfold add_read. unfold mbind at 1, M_bind at 1, gets at 1. change (mp_postCheck p1) with (mp_postCheck p).
    rewrite Hpost, Hcode. cbn [Z.eqb CodeTypeOK negb orb]. unfold mbind, M_bind, gets. rewrite Hsend.
    rewrite bool_decide_eq_true_2 by done. cbn [negb andb].
    change (canAddTx cfg ?x p1) with (canAddTx cfg x p). by rewrite Hroom. }
  exists c. unfold CheckTx. unfold mbind at 1, M_bind at 1. rewrite E1. unfold mbind at 1, M_bind at 1. by rewrite E2.
Qed.

(** C21: the insertion does not ask whether the transaction is already in the pool, only the
    cache is asked.  A valid transaction that is in the pool but no longer in the cache (no cache
    is configured, or newer transactions pushed it out) is inserted again; the older element
    then is in no index, so that without expiry no block, recheck or removal by key takes it out
    again, whether or not the transaction is committed, and it is never reaped. *)
Theorem duplicate_stays k tx info now rsp p fs id :
  reachable cfg k p fs → mp_txByKey p !! Tx_Hash tx = Some id → Cache_Has (mp_cache p) tx = false →
  (tx_size tx ≤ MaxTxBytes cfg)%Z → mp_preCheck p = None → mp_postCheck p = None →
  RC_Code rsp = CodeTypeOK → RC_Sender rsp = [] →
  canAddTx cfg (wrap_tx tx info (mp_height p) now) p = true →
  TTLNumBlocks cfg = 0%Z → TTLDuration cfg = 0%Z →
  ∃ p', CheckTx cfg tx info false now (inl rsp) p = (p', Ok tt) ∧
    mp_txs p' = mp_txs p ++ [mp_fresh p] ∧
    ∀ p'', rtc block_step p' p'' → orphan p'' id ∧ id ∉ map fst (allEntriesSorted p'').
Proof using any_order_law.
  intros Hr Hid Hc Hs Hpre Hpost Hcode Hsend Hroom T1 T2.
  pose proof (wo_inv _ _ _ (pool_reachable_ok k p fs Hr)) as Hi.
  destruct (CheckTx_accepts tx info now rsp p) as [c ->]; [done..|].
  set (w := assign (wrap_tx tx info (mp_height p) now) rsp). set (p1 := set_cache c p).
  assert (inv p1) as Hi1 by by apply (same_shrinks p).
  destruct (insertTx_spec w p1 Hi1) as (p2 & E3 & Hi2 & _); [done|].
  destruct (notify_same p2) as (p3 & E4 & Hsame).
  assert (((_ ← insertTx w; notifyTxsAvailable) : X unit) p1 = (p3, Ok tt)) as E5.
  { unfold mbind, M_bind. by rewrite E3. }
  exists p3. split; [done|]. destruct (insert_result w p1 p3 _ E5) as (R1 & _ & R3). split; [done|].
  assert (inv p3 ∧ orphan p3 id) as Ho.
  { split; [by apply (same_shrinks p2)|]. split; [rewrite R1; by apply elem_of_app; left; eapply iv_key|].
    intros k' Hk'. destruct Hsame as (_ & _ & _ & E6 & _). rewrite E6 in Hk'. injection E3 as <-.
    cbn in Hk'. apply lookup_insert_Some in Hk' as [[_ Ef]|[Hne Hk']].
    - destruct (iv_key _ Hi _ _ Hid) as (_ & v & Hv & _). destruct (iv_elts _ Hi _ _ Hv). lia.
    - destruct (iv_key _ Hi _ _ Hid) as (_ & v & Hv & Ev). destruct (iv_key _ Hi _ _ Hk') as (_ & v' & Hv' & Ev').
      congruence. }
  intros p'' Hst. enough (inv p'' ∧ orphan p'' id) as [_ Ho'] by (split; [done|by apply orphan_unreaped]).
  clear -Hst Ho T1 T2. induction Hst as [|x y z Hxy _ IH]; [done|]. apply IH.
  destruct Hxy; [by apply keeps_Update|by apply keeps_recheck|by apply keeps_remove_key].
Qed.

(** A call that nothing interleaves with is a sequence of steps. *)
Lemma CheckTx_steps k tx info ce now answer p :
  1 ≤ k → rtc (step cfg k) (p, []) ((CheckTx cfg tx info ce now answer p).1, []).
Proof using.
  intros Hk. unfold CheckTx. unfold mbind at 1, M_bind at 1.
  destruct (check_start cfg tx info ce p) as [p1 r1] eqn:E1.
  pose proof (step_start cfg k tx info ce p p1 r1 [] E1 ltac:(cbn; lia)) as S1.
  destruct r1 as [[h|x]|e|]; [|by apply rtc_once..]. eapply rtc_l; [exact S1|].
  destruct answer as [rsp|[]]; [|apply rtc_once, (step_no_answer cfg k tx info h p1 [] [])].
  unfold mbind at 1, M_bind at 1. destruct (add_read cfg (wrap_tx tx info h now) rsp p1) as [p2 r2] eqn:E2.
  pose proof (step_answer cfg k tx info h now rsp p1 p2 r2 [] [] E2) as S2.
  destruct r2 as [[a|]|e|]; [|by apply rtc_once..]. eapply rtc_l; [exact S2|].
  destruct (add_write a p2) as [p3 r3] eqn:E3. apply rtc_once, (step_add cfg k a p2 p3 r3 [] [] E3).
Qed.

Lemma reachable_CheckTx k tx info ce now answer p :
  1 ≤ k → reachable cfg k p [] → reachable cfg k (CheckTx cfg tx info ce now answer p).1 [].
Proof using.
  intros Hk (pre & post & Hr). exists pre, post. etrans; [exact Hr|]. by apply CheckTx_steps.
Qed.

End thms.

End mpthms.
