(* ===== verification/MempoolDemo.v ===== *)
(** * internal/mempool: a pool

    A pool with room for two transactions of four bytes, and what the theorems of
    [MempoolThms] say of it. *)
From Stdlib Require Import ZArith Lia Init.Byte.
From stdpp Require Import base numbers list sets gmap fin_maps.
From S2P Require Import Prelude.
From S2P Require Import StateM.
From S2P Require Import Merkle.
From S2P Require Import Types.
From S2P Require Import Crypto.
From S2P Require Import Proposal.
From S2P Require Import Block.
From S2P Require Import SmState.
From S2P Require Import Execution.
From S2P Require Import Mempool.
From S2P Require Import MempoolThms.

Import statem types crypto proposal block sm abci mempool mpthms.

Module mpdemo.

#[local] Existing Instance toy_crypto.

Definition in_order : AnyOrder := {| any_order := λ A l, l |}.
#[local] Existing Instance in_order.

Definition small : MempoolConfig := mkMempoolConfig 2 8 0 false 4 0 0.

Definition tx_of (b : byte) : bytes := [b; b; b; b].

Definition accept (priority : Z) : ResponseCheckTx := mkRespCheck 0 [] [] 1 [] [] priority.

Definition rpc : TxInfo := mkTxInfo 0 [].

Definition check (b : byte) (now priority : Z) (p : TxMempool) : TxMempool :=
  (CheckTx small (tx_of b) rpc false now (inl (accept priority)) p).1.

Definition empty_pool : TxMempool := set_checks 0 None None (NewTxMempool small).

(** The pool after two transactions, and after a third of higher priority than the second. *)
Definition full : TxMempool := check x02 2 5 (check x01 1 7 empty_pool).
Definition refilled : TxMempool := check x03 3 6 full.

Lemma empty_reachable : reachable small 1 empty_pool [].
Proof. exists None, None. constructor. Qed.

Lemma full_reachable : reachable small 1 full [].
Proof. unfold full, check. do 2 (apply reachable_CheckTx; [lia|]). apply empty_reachable. Qed.

Lemma small_limits : limits small 1.
Proof. split; cbn; unfold_ints; lia. Qed.

Lemma in_order_law A (l : list A) : any_order l ≡ₚ l.
Proof. done. Qed.

(** The second transaction makes room for the third; a fourth of low priority is refused. *)
Lemma refilled_txs :
  map (λ e, w_tx e.2) (entries refilled) = [tx_of x01; tx_of x03] ∧
  mp_txs (check x04 4 1 refilled) = mp_txs refilled.
Proof. vm_compute. auto. Qed.

Lemma CheckTx_all_or_nothing_witness :
  limits small 1 ∧ reachable small 1 full [] ∧ all_or_nothing (tx_of x03) (inl (accept 6)) full refilled.
Proof.
  split; [exact small_limits|]. split; [exact full_reachable|].
  destruct (CheckTx_all_or_nothing small in_order_law (tx_of x03) rpc false 3 (inl (accept 6)) full []
    small_limits full_reachable) as (p' & r & E & _ & _ & Ha).
  unfold refilled, check. rewrite E. exact Ha.
Defined.

Lemma pool_invariant_witness : reachable small 1 full [] ∧ inv small full ∧ no_panic small full [].
Proof. split; [exact full_reachable|]. exact (pool_invariant small in_order_law 1 full [] full_reachable). Defined.

Lemma pool_limits_witness : limits small 1 ∧ reachable small 1 full [] ∧ (mp_Size full ≤ 2)%Z ∧ (0 ≤ SizeBytes full ≤ 8)%Z.
Proof.
  split; [exact small_limits|]. split; [exact full_reachable|].
  exact (pool_limits small in_order_law 1 full [] small_limits full_reachable).
Defined.

(** The sums over the pool of two transactions. *)
Lemma full_sums : no_overflow (allEntriesSorted full).
Proof.
  assert (∀ n, n < 3 → in_int64 (gas_of (take n (allEntriesSorted full))) ∧
                        in_int64 (proto_of (take n (allEntriesSorted full)))) as Hsmall.
  { intros [|[|[|n]]] Hn; [..|lia]; vm_compute; split; split; discriminate. }
  assert (length (allEntriesSorted full) = 2) as Hl by (vm_compute; reflexivity).
  intros n. destruct (decide (n < 3)); [by apply Hsmall|].
  rewrite take_ge by lia. rewrite <- (firstn_all (allEntriesSorted full)), Hl. apply Hsmall. lia.
Qed.

Lemma full_reaped : mp_ReapMaxBytesMaxGas 8 (-1) full = [tx_of x01].
Proof. vm_compute. reflexivity. Qed.

Lemma reap_longest_prefix_witness :
  no_overflow (allEntriesSorted full) ∧
  ∃ keep rest, keep ++ rest ≡ₚ indexed full ∧ [tx_of x01] = map (λ e : elt, w_tx e.2) keep ∧
    fits 8 (-1) keep ∧ ∀ e rest', rest = e :: rest' → ¬ fits 8 (-1) (keep ++ [e]).
Proof.
  split; [exact full_sums|].
  destruct (reap_longest_prefix in_order_law 8 (-1) full full_sums) as (keep & rest & _ & Hp & E & Hf & Hm).
  exists keep, rest. split; [exact Hp|]. split; [exact (eq_trans (eq_sym full_reaped) E)|]. split; assumption.
Defined.

Definition ok_result : ExecTxResult := mkTxResult 0 [] [] [] 0 [].

(** A pool without a cache that holds one transaction. *)
Definition one : TxMempool := check x01 1 7 empty_pool.

Lemma one_reachable : reachable small 1 one [].
Proof. unfold one, check. apply reachable_CheckTx; [lia|]. apply empty_reachable. Qed.

Lemma one_state :
  mp_txByKey one !! Tx_Hash (tx_of x01) = Some 0 ∧ Cache_Has (mp_cache one) (tx_of x01) = false ∧
  mp_preCheck one = None ∧ mp_postCheck one = None ∧
  canAddTx small (wrap_tx (tx_of x01) rpc (mp_height one) 2) one = true.
Proof. vm_compute. auto. Qed.

Lemma duplicate_stays_witness :
  mp_txByKey one !! Tx_Hash (tx_of x01) = Some 0 ∧
  ∃ p', CheckTx small (tx_of x01) rpc false 2 (inl (accept 7)) one = (p', Ok tt) ∧
    orphan (Update small 1 [tx_of x01] [ok_result] None None false 3 p').1 0.
Proof.
  destruct one_state as (S1 & S2 & S3 & S4 & S5). split; [exact S1|].
  destruct (duplicate_stays small in_order_law 1 (tx_of x01) rpc 2 (accept 7) one [] 0 one_reachable S1 S2
    ltac:(vm_compute; discriminate) S3 S4 eq_refl eq_refl S5 eq_refl eq_refl) as (p' & E & _ & Ho).
  exists p'. split; [exact E|].
  exact (proj1 (Ho _ (rtc_once _ _ (bs_update small p' 1 [tx_of x01] [ok_result] None None false 3)))).
Defined.

End mpdemo.
