(* ===== verification/MempoolIDs.v ===== *)
(** * internal/mempool/ids.go: short ids of the peers

    The numbers by which the pool remembers which peers sent a transaction.  A peer's number is
    found by counting up from the last one given, at the width of the field. *)
From Stdlib Require Import ZArith Lia.
From stdpp Require Import base numbers list sets gmap fin_maps fin_map_dom.
From S2P Require Import Prelude.
From S2P Require Import Mempool.

Import mempool.

Module mpids.

Definition MaxActiveIDs : Z := 65535.

Record IDs := mkIDs { peerMap : gmap bytes Z; nextID : Z; activeIDs : gset Z }.

Definition NewMempoolIDs : IDs := mkIDs ∅ 1 {[UnknownPeerID]}.

(** The loop that skips the numbers in use; it is over when the fuel is out. *)
Fixpoint skip_active (fuel : nat) (active : gset Z) (id : Z) : option Z :=
  if negb (bool_decide (id ∈ active)) then Some id
  else match fuel with
       | O => None
       | S fuel => skip_active fuel active (uint16 (id + 1))
       end.

(** As many turns as there are numbers. *)
Definition turns : nat := Z.to_nat 65536.

(** [None] is a loop that has not ended. *)
Definition nextPeerID (ids : IDs) : option (outcome unit (Z * IDs)) :=
  if (Z.of_nat (size (activeIDs ids)) =? MaxActiveIDs)%Z then Some Panic
  else curID ← skip_active turns (activeIDs ids) (nextID ids);
       Some (Ok (curID, mkIDs (peerMap ids) (uint16 (curID + 1)) (activeIDs ids))).

Definition ReserveForPeer (peerID : bytes) (ids : IDs) : option (outcome unit IDs) :=
  match peerMap ids !! peerID with
  | Some _ => Some (Ok ids)
  | None =>
      r ← nextPeerID ids;
      Some (match r with
            | Ok (curID, ids) =>
                Ok (mkIDs (<[peerID := curID]> (peerMap ids)) (nextID ids) (activeIDs ids ∪ {[curID]}))
            | Err e => Err e
            | Panic => Panic
            end)
  end.

Definition Reclaim (peerID : bytes) (ids : IDs) : IDs :=
  match peerMap ids !! peerID with
  | Some removedID =>
      mkIDs (delete peerID (peerMap ids))
        (if (removedID <? nextID ids)%Z then removedID else nextID ids) (activeIDs ids ∖ {[removedID]})
  | None => ids
  end.

Definition GetForPeer (peerID : bytes) (ids : IDs) : Z := default 0%Z (peerMap ids !! peerID).

(** The states that calls reach. *)
Inductive assigned : IDs → Prop :=
  | as_new : assigned NewMempoolIDs
  | as_reserve ids ids' p : assigned ids → ReserveForPeer p ids = Some (Ok ids') → assigned ids'
  | as_reclaim ids p : assigned ids → assigned (Reclaim p ids).

(** ** Invariant *)

Record ids_ok (ids : IDs) : Prop := {
  io_next : (0 ≤ nextID ids < 65536)%Z;
  io_peer p id : peerMap ids !! p = Some id → (0 < id < 65536)%Z;
  io_active id : id ∈ activeIDs ids ↔ id = UnknownPeerID ∨ ∃ p, peerMap ids !! p = Some id;
  io_inj p q id : peerMap ids !! p = Some id → peerMap ids !! q = Some id → p = q;
  io_size : size (activeIDs ids) = S (size (peerMap ids));
  io_max : (Z.of_nat (size (peerMap ids)) ≤ 65534)%Z }.

Lemma uint16_range z : (0 ≤ uint16 z < 65536)%Z.
Proof. unfold uwrap. apply Z.mod_pos_bound. lia. Qed.

(** The numbers that the loop looks at. *)
Lemma skip_active_spec fuel active id :
  (0 ≤ id < 65536)%Z →
  match skip_active fuel active id with
  | Some i => (0 ≤ i < 65536)%Z ∧ i ∉ active
  | None => ∀ n, n ≤ fuel → uint16 (id + Z.of_nat n) ∈ active
  end.
Proof.
  revert id. induction fuel as [|fuel IH]; intros id Hid; cbn [skip_active].
  - case_bool_decide; cbn [negb]; [|done]. intros n Hn. replace n with 0 by lia. unfold uwrap.
    by rewrite Z.add_0_r, Z.mod_small.
  - case_bool_decide as Hin; cbn [negb]; [|done]. specialize (IH (uint16 (id + 1)) (uint16_range _)).
    destruct (skip_active fuel active _); [done|]. intros [|n] Hn.
    + unfold uwrap. by rewrite Z.add_0_r, Z.mod_small.
    + specialize (IH n ltac:(lia)). unfold uwrap in *. rewrite Zplus_mod_idemp_l in IH.
      by replace (id + Z.of_nat (S n))%Z with (id + 1 + Z.of_nat n)%Z by lia.
Qed.

(** With a number free the loop ends. *)
Lemma skip_active_ends t active id :
  Z.of_nat t = 65536%Z → (0 ≤ id < 65536)%Z → size active < t →
  ∃ i, skip_active t active id = Some i ∧ (0 ≤ i < 65536)%Z ∧ i ∉ active.
Proof.
  intros Ht Hid Hs. pose proof (skip_active_spec t active id Hid) as Hsp.
  destruct (skip_active t active id) as [i|]; [by exists i|]. exfalso.
  set (all := list_to_set (C := gset Z) (map (λ n, uint16 (id + Z.of_nat n)) (seq 0 t))).
  assert (all ⊆ active) as Hsub.
  { intros z Hz. apply elem_of_list_to_set, list_elem_of_fmap in Hz as (n & -> & Hn%elem_of_seq). apply Hsp. lia. }
  assert (size all = t) as Hall.
  { unfold all. rewrite size_list_to_set; [by rewrite length_map, length_seq|].
    apply NoDup_fmap_2_strong; [|apply NoDup_seq]. intros a b Ha%elem_of_seq Hb%elem_of_seq E.
    unfold uwrap in E. change (2 ^ 16)%Z with 65536%Z in E. Z.div_mod_to_equations. lia. }
  apply subseteq_size in Hsub. lia.
Qed.

Lemma turns_eq : Z.of_nat turns = 65536%Z.
Proof. unfold turns. by rewrite Z2Nat.id. Qed.

Lemma ids_ok_new : ids_ok NewMempoolIDs.
Proof.
  split; [cbn; lia|..].
  - intros p id E. by apply (lookup_empty_Some p id) in E.
  - intros id. cbn. rewrite elem_of_singleton. split; [by left|]. intros [?|[p E]]; [done|]. by apply (lookup_empty_Some p id) in E.
  - intros p q id E. by apply (lookup_empty_Some p id) in E.
  - cbn. by rewrite size_singleton, map_size_empty.
  - cbn. rewrite map_size_empty. lia.
Qed.

(** What reserving a number for a new peer does. *)
Definition reserved (p : bytes) (id : Z) (ids : IDs) : IDs :=
  mkIDs (<[p := id]> (peerMap ids)) (uint16 (id + 1)) (activeIDs ids ∪ {[id]}).

Lemma reserve_new ids p :
  ids_ok ids → peerMap ids !! p = None →
  if decide (Z.of_nat (size (peerMap ids)) = 65534)%Z then ReserveForPeer p ids = Some Panic
  else ∃ id, ReserveForPeer p ids = Some (Ok (reserved p id ids)) ∧ (0 < id < 65536)%Z ∧ id ∉ activeIDs ids.
Proof.
  intros [I1 I2 I3 I4 I5 I6] Hp. unfold ReserveForPeer, nextPeerID. rewrite Hp, I5. unfold MaxActiveIDs.
  destruct (decide _) as [E|E]; [by rewrite (proj2 (Z.eqb_eq _ _)) by lia|].
  rewrite (proj2 (Z.eqb_neq _ _)) by lia.
  destruct (skip_active_ends turns (activeIDs ids) (nextID ids) turns_eq I1) as (id & Es & Hr & Hn).
  { pose proof turns_eq. lia. }
  rewrite Es. exists id. split; [done|]. split; [|done].
  enough (id ≠ 0)%Z by lia. intros ->. apply Hn, I3. by left.
Qed.

Lemma reserved_ok ids p id :
  ids_ok ids → peerMap ids !! p = None → (Z.of_nat (size (peerMap ids)) ≠ 65534)%Z →
  (0 < id < 65536)%Z → id ∉ activeIDs ids → ids_ok (reserved p id ids).
Proof.
  intros [I1 I2 I3 I4 I5 I6] Hp Hs Hr Hn. assert (∀ q, peerMap ids !! q ≠ Some id) as Hq.
  { intros q E. apply Hn, I3. right. by exists q. }
  split; cbn [nextID peerMap activeIDs reserved].
  - apply uint16_range.
  - intros q i [[<- <-]|[_ E]]%lookup_insert_Some; [done|by apply (I2 q)].
  - intros i. rewrite elem_of_union, elem_of_singleton, I3. split.
    + intros [[-> |[q E]]| ->]; [by left| |right; exists p; apply lookup_insert_eq].
      right. exists q. rewrite lookup_insert_ne; [done|]. intros ->. congruence.
    + intros [-> |[q [[_ <-]|[_ E]]%lookup_insert_Some]]; [by left; left|by right|left; right; by exists q].
  - intros q q' i [[<- <-]|[Hne E]]%lookup_insert_Some [[<- Ei]|[Hne' E']]%lookup_insert_Some; try done.
    + by destruct (Hq q').
    + subst i. by destruct (Hq q).
    + by apply (I4 q q' i).
  - rewrite size_union, size_singleton, map_size_insert_None, I5 by (done || set_solver). lia.
  - rewrite map_size_insert_None by done. lia.
Qed.

Lemma Reclaim_ok ids p : ids_ok ids → ids_ok (Reclaim p ids).
Proof.
  intros Ho. unfold Reclaim. destruct (peerMap ids !! p) as [r|] eqn:Er; [|done].
  destruct Ho as [I1 I2 I3 I4 I5 I6]. pose proof (I2 _ _ Er) as Hr.
  assert (size (delete p (peerMap ids)) = pred (size (peerMap ids)) ∧ size (peerMap ids) ≠ 0) as [Hd H0].
  { split; [apply map_size_delete_Some; by exists r|]. intros E%map_size_empty_iff. rewrite E in Er.
    by apply (lookup_empty_Some p r) in Er. }
  split; cbn [nextID peerMap activeIDs].
  - destruct (_ <? _)%Z; lia.
  - intros q i [_ E]%lookup_delete_Some. by apply (I2 q).
  - intros i. rewrite elem_of_difference, elem_of_singleton, I3. split.
    + intros [[-> |[q E]] Hne]; [by left|]. right. exists q. rewrite lookup_delete_ne; [done|]. intros ->. congruence.
    + intros [-> |[q [Hne E]%lookup_delete_Some]].
      * split; [by left|]. unfold UnknownPeerID. lia.
      * split; [right; by exists q|]. intros ->. by apply Hne, (I4 p q r).
  - intros q q' i [_ E]%lookup_delete_Some [_ E']%lookup_delete_Some. by apply (I4 q q' i).
  - rewrite size_difference, size_singleton, I5, Hd; [lia|]. intros i ->%elem_of_singleton. apply I3. right. by exists p.
  - lia.
Qed.

Lemma assigned_ok ids : assigned ids → ids_ok ids.
Proof.
  induction 1 as [|ids ids' p _ IH E|ids p _ IH]; [apply ids_ok_new| |by apply Reclaim_ok].
  destruct (peerMap ids !! p) as [i|] eqn:Ep.
  - unfold ReserveForPeer in E. rewrite Ep in E. by injection E as <-.
  - pose proof (reserve_new ids p IH Ep) as Hn. destruct (decide _) as [Hd|Hd]; [congruence|].
    destruct Hn as (id & Er & Hr & Hin). rewrite Er in E. injection E as <-. by apply reserved_ok.
Qed.

(** In every state that reservations and reclaims reach, the search for a free number ends
    within one turn through the 16-bit numbers, also when the counter wraps around; a peer
    without a number gets one that no other peer has and that is not the number of unknown
    peers, and the numbers of the others stay; only with 65534 peers does the call panic. *)
Theorem peer_ids_unique ids p :
  assigned ids → peerMap ids !! p = None →
  (∀ q q', GetForPeer q ids = GetForPeer q' ids → GetForPeer q ids ≠ UnknownPeerID → q = q') ∧
  if decide (Z.of_nat (size (peerMap ids)) = 65534)%Z then ReserveForPeer p ids = Some Panic
  else ∃ ids', ReserveForPeer p ids = Some (Ok ids') ∧ assigned ids' ∧
    GetForPeer p ids' ≠ UnknownPeerID ∧
    ∀ q, q ≠ p → GetForPeer q ids' = GetForPeer q ids ∧ GetForPeer q ids' ≠ GetForPeer p ids'.
Proof.
  intros Ha Hp. pose proof (assigned_ok ids Ha) as Ho. split.
  - unfold GetForPeer. intros q q' E Hne. destruct (peerMap ids !! q) as [i|] eqn:Eq; [|done].
    destruct (peerMap ids !! q') as [i'|] eqn:Eq'; cbn in E; subst; [by apply (io_inj _ Ho q q' i')|done].
  - pose proof (reserve_new ids p Ho Hp) as Hn. destruct (decide _); [done|].
    destruct Hn as (id & Er & Hr & Hin). exists (reserved p id ids). split_and!; [done|by eapply as_reserve|..].
    + unfold GetForPeer. cbn. rewrite lookup_insert_eq. cbn. unfold UnknownPeerID. lia.
    + intros q Hq. unfold GetForPeer. cbn. rewrite lookup_insert_eq, lookup_insert_ne by done. split; [done|]. cbn.
      destruct (peerMap ids !! q) as [i|] eqn:Eq; cbn; [|lia]. intros ->. apply Hin, (io_active _ Ho). right. by exists q.
Qed.

Lemma peer_ids_unique_witness :
  assigned NewMempoolIDs ∧ ∃ ids', ReserveForPeer [] NewMempoolIDs = Some (Ok ids') ∧ GetForPeer [] ids' ≠ UnknownPeerID.
Proof.
  split; [constructor|]. destruct (peer_ids_unique NewMempoolIDs [] as_new eq_refl) as [_ Hr].
  destruct (decide _) as [E|_]; [exfalso; discriminate E|]. destruct Hr as (ids' & E & _ & Hn & _). by exists ids'.
Defined.

End mpids.
