(* ===== verification/EvPool.v ===== *)
(** * internal/evidence: the evidence pool

    Models [src/internal/evidence/pool.go], [identity.go], [Pool.verify] of [verify.go] and the
    free admission checks of [admission.go]: evidence of validators that voted twice is
    verified, kept in a database until a block commits it or it is too old, offered to
    proposers and checked in proposed blocks.  It runs over the database of [DB], whose
    operations may fail, which the pool mostly only logs.  The block store, the state store
    and the event bus are services that each call gets as they are at its time; operations
    hold one mutex, so that they are steps.  Keys are made by [orderedcode], which is external,
    as are the bytes of the stored messages, which generated code makes: both are classes, with
    the laws that the theorems name.  The concurrent list of evidence to gossip is the list of
    its elements. *)
From Stdlib Require Import ZArith Lia Init.Byte.
From stdpp Require Import base numbers list sets gmap fin_maps sorting.
From S2P Require Import Prelude.
From S2P Require Import StateM.
From S2P Require Import DB.
From S2P Require Import Merkle.
From S2P Require Import PartSet.
From S2P Require Import Wire.
From S2P Require Import Types.
From S2P Require Import Crypto.
From S2P Require Import QuorumSign.
From S2P Require Import Proposal.
From S2P Require Import ValidatorSet.
From S2P Require Import Evidence.
From S2P Require Import Block.
From S2P Require Import Params.
From S2P Require Import SmState.
From S2P Require Import Execution.
From S2P Require Import SelectProposer.
From S2P Require Import StateStore.
From S2P Require Import BlockStore.
From S2P Require Import Mempool.

Import statem db partset types crypto quorum proposal valset evidence block params sm selectproposer.

(** [orderedcode.Append(nil, prefix, height, string)]. *)
Class EvidenceKeys := { orderedcode_hash : Z → Z → bytes → bytes }.

(** The encoding of a message; [Marshal] may fail. *)
Class EvidenceCodec := {
  Evidence_Marshal : ProtoEvidence → option bytes;
  Evidence_Unmarshal : bytes → option ProtoEvidence }.

Module evpool.

Definition prefixCommitted : Z := 9.
Definition prefixPending : Z := 10.

(** Why evidence is invalid, which is an [ErrInvalidEvidence]. *)
Inductive invalid_reason :=
  | TooOld
  | NotVerified (e : evidence_error)
  | AlreadyCommitted
  | DuplicateInList.

Inductive pool_error :=
  | ErrPoolClosed
  | ErrPoolRunning
  | ErrEvidenceDisabled
  | ErrInvalidEvidence (r : invalid_reason)
  | ErrMissingBlock
  | ErrPoolValidators
  | ErrPoolABCI (e : evidence_error)
  | ErrPoolMarshal
  | ErrPoolUnmarshal
  | ErrPoolFromProto (e : evidence_error)
  | ErrPoolDB (e : db_error)
  | ErrPublish.

(** What the pool asks of the rest of the node; without an event bus nothing is published. *)
Record Services := mkServices {
  svc_Base : Z;
  svc_Height : Z;
  svc_LoadBlockMeta : Z → option BlockMeta;
  svc_LoadValidators : Z → outcome unit ValidatorSet;
  svc_Publish : option (DuplicateVoteEvidence → bool) }.

Record Pool := mkPool {
  evidenceStore : DB;
  evidenceList : list DuplicateVoteEvidence;
  evidenceSize : Z;
  identities : gmap bytes Z;
  blockBase : Z;
  blockTop : Z;
  closed : bool;
  pendingLoaded : bool;
  isStarted : bool;
  pool_state : State;
  consensusBuffer : list (option Vote * option Vote);
  pruningHeight : Z;
  pruningTime : Z }.

Definition NewPool (evidenceDB : DB) : Pool :=
  mkPool evidenceDB [] 0 ∅ 0 0 false false false zeroState [] 0 zero_time.

Definition set_store (d : DB) (p : Pool) : Pool :=
  mkPool d (evidenceList p) (evidenceSize p) (identities p) (blockBase p) (blockTop p) (closed p)
    (pendingLoaded p) (isStarted p) (pool_state p) (consensusBuffer p) (pruningHeight p) (pruningTime p).
Definition set_list (l : list DuplicateVoteEvidence) (p : Pool) : Pool :=
  mkPool (evidenceStore p) l (evidenceSize p) (identities p) (blockBase p) (blockTop p) (closed p)
    (pendingLoaded p) (isStarted p) (pool_state p) (consensusBuffer p) (pruningHeight p) (pruningTime p).
Definition set_size (n : Z) (p : Pool) : Pool :=
  mkPool (evidenceStore p) (evidenceList p) n (identities p) (blockBase p) (blockTop p) (closed p)
    (pendingLoaded p) (isStarted p) (pool_state p) (consensusBuffer p) (pruningHeight p) (pruningTime p).
Definition set_identities (s : gmap bytes Z) (p : Pool) : Pool :=
  mkPool (evidenceStore p) (evidenceList p) (evidenceSize p) s (blockBase p) (blockTop p) (closed p)
    (pendingLoaded p) (isStarted p) (pool_state p) (consensusBuffer p) (pruningHeight p) (pruningTime p).
Definition set_range (base top : Z) (p : Pool) : Pool :=
  mkPool (evidenceStore p) (evidenceList p) (evidenceSize p) (identities p) base top (closed p)
    (pendingLoaded p) (isStarted p) (pool_state p) (consensusBuffer p) (pruningHeight p) (pruningTime p).
Definition set_flags (c l s : bool) (p : Pool) : Pool :=
  mkPool (evidenceStore p) (evidenceList p) (evidenceSize p) (identities p) (blockBase p) (blockTop p)
    c l s (pool_state p) (consensusBuffer p) (pruningHeight p) (pruningTime p).
Definition updateState (s : State) (p : Pool) : Pool :=
  mkPool (evidenceStore p) (evidenceList p) (evidenceSize p) (identities p) (blockBase p) (blockTop p)
    (closed p) (pendingLoaded p) (isStarted p) s (consensusBuffer p) (pruningHeight p) (pruningTime p).
Definition set_buffer (b : list (option Vote * option Vote)) (p : Pool) : Pool :=
  mkPool (evidenceStore p) (evidenceList p) (evidenceSize p) (identities p) (blockBase p) (blockTop p)
    (closed p) (pendingLoaded p) (isStarted p) (pool_state p) b (pruningHeight p) (pruningTime p).
Definition set_pruning (height time : Z) (p : Pool) : Pool :=
  mkPool (evidenceStore p) (evidenceList p) (evidenceSize p) (identities p) (blockBase p) (blockTop p)
    (closed p) (pendingLoaded p) (isStarted p) (pool_state p) (consensusBuffer p) height time.

(** [time.Time.Sub], which saturates. *)
Definition time_Sub (t u : Z) : Z := Z.max MinInt64 (Z.min MaxInt64 (t - u)).

(** ** identity.go *)

Definition maxTrackedIdentities : nat := 1024.
Definition identityEvictionDivisor : nat := 8.

Definition hex_digit (n : N) : byte :=
  default x00 (Byte.of_N (if (n <? 10)%N then 48 + n else 55 + n)%N).

(** [%X]. *)
Definition hex_upper (b : bytes) : bytes :=
  concat (map (λ x, [hex_digit (Byte.to_N x / 16); hex_digit (Byte.to_N x mod 16)]) b).

(** Heights first, as the sort of [evictOldest] has it. *)
Definition lower (x y : bytes * Z) : Prop := (x.2 ≤ y.2)%Z.

#[local] Instance lower_dec : RelDecision lower.
Proof. intros x y. unfold lower. apply _. Defined.

Section pool.
Context `{Crypto} `{StdTime} `{Dashd} `{Faults} `{OrderedCode} `{EvidenceKeys} `{EvidenceCodec} `{AnyOrder}.

Notation X := (M Pool pool_error).

(** What is hashed for the identity of two votes. *)
Definition allegation (a b : Vote) : bytes :=
  let first := Key (Vote_BlockID a) in
  let second := Key (Vote_BlockID b) in
  let '(first, second) := if bytes_ltb second first then (second, first) else (first, second) in
  blockstore.format_int (Vote_Height a) ++ x2f :: blockstore.format_int (Vote_Round a) ++
  x2f :: blockstore.format_int (Vote_Type a) ++ x2f :: hex_upper (Vote_ValidatorProTxHash a) ++
  x2f :: hex_upper first ++ x2f :: hex_upper second.

Definition evidenceIdentity (ev : DuplicateVoteEvidence) : option bytes :=
  match VoteA ev, VoteB ev with
  | Some a, Some b => Some (Checksum (allegation a b))
  | _, _ => None
  end.

(** Maps are listed in any order, and so are entries of the same height. *)
Definition evictOldest (heights : gmap bytes Z) : gmap bytes Z :=
  let entries := merge_sort lower (any_order (map_to_list heights)) in
  let drop := Nat.max 1 (length entries / identityEvictionDivisor) in
  foldl (λ m e, delete e.1 m) heights (take drop entries).

Definition identity_add (ev : DuplicateVoteEvidence) (heights : gmap bytes Z) :
    outcome pool_error (gmap bytes Z) :=
  match evidenceIdentity ev with
  | None => Ok heights
  | Some key =>
      match heights !! key with
      | Some _ => Ok heights
      | None =>
          let heights := if maxTrackedIdentities <=? size heights then evictOldest heights else heights in
          height ← wrap_err ErrPoolABCI (DVE_Height ev);
          Ok (<[key := height]> heights)
      end
  end.

Definition identity_has (ev : DuplicateVoteEvidence) (heights : gmap bytes Z) : bool :=
  match evidenceIdentity ev with
  | None => false
  | Some key => bool_decide (is_Some (heights !! key))
  end.

(** ** Keys *)

Definition prefixToBytes (prefix : Z) : bytes := orderedcode [prefix].
Definition keyCommittedFor (height : Z) (hash : bytes) : bytes := orderedcode_hash prefixCommitted height hash.
Definition keyPendingFor (height : Z) (hash : bytes) : bytes := orderedcode_hash prefixPending height hash.

Definition keyCommitted (ev : DuplicateVoteEvidence) : outcome evidence_error bytes :=
  height ← DVE_Height ev; hash ← DVE_Hash ev; Ok (keyCommittedFor height hash).

Definition keyPending (ev : DuplicateVoteEvidence) : outcome evidence_error bytes :=
  height ← DVE_Height ev; hash ← DVE_Hash ev; Ok (keyPendingFor height hash).

(** ** Access *)

Definition dbop {A} (m : M DB db_error A) : X A := λ p,
  let '(d, r) := m (evidenceStore p) in (set_store d p, wrap_err ErrPoolDB r).

Definition Enabled (p : Pool) : bool := (0 <? EP_MaxBytes (Params_Evidence (State_Params (pool_state p))))%Z.

(** A nil pointer panics, and so does a time that cannot be encoded. *)
Definition height_of (ev : DuplicateVoteEvidence) : X Z := lift_panic (DVE_Height ev).
Definition hash_of (ev : DuplicateVoteEvidence) : X bytes := lift (DVE_Hash ev).

(** Errors of the database are logged, and the answer is no. *)
Definition has_key (key : bytes) : X bool :=
  r ← try (dbop (Has key)); mret (match r with inl b => b | inr _ => false end).

Definition isCommittedHash (height : Z) (hash : bytes) : X bool := has_key (keyCommittedFor height hash).
Definition isPendingHash (height : Z) (hash : bytes) : X bool := has_key (keyPendingFor height hash).

Definition isCommitted (ev : DuplicateVoteEvidence) : X bool :=
  height ← height_of ev; hash ← hash_of ev; isCommittedHash height hash.

Definition isPending (ev : DuplicateVoteEvidence) : X bool :=
  height ← height_of ev; hash ← hash_of ev; isPendingHash height hash.

Definition alreadyHave (ev : DuplicateVoteEvidence) : X bool :=
  p ← gets id;
  if closed p || negb (Enabled p) then mret true
  else
    height ← height_of ev; hash ← hash_of ev;
    pending ← isPendingHash height hash;
    if (pending : bool) then mret true else isCommittedHash height hash.

Definition isExpired (p : Pool) (height time : Z) : bool :=
  let params := Params_Evidence (State_Params (pool_state p)) in
  let ageDuration := time_Sub (LastBlockTime (pool_state p)) time in
  let ageNumBlocks := int64 (LastBlockHeight (pool_state p) - height) in
  (MaxAgeNumBlocks params <? ageNumBlocks)%Z && (MaxAgeDuration params <? ageDuration)%Z.

Definition hasBlockFor (p : Pool) (height : Z) : bool :=
  (0 <? height)%Z && (blockBase p <=? height)%Z && (height <=? blockTop p)%Z.

Definition refreshBlockRange (svc : Services) : Pool → Pool := set_range (svc_Base svc) (svc_Height svc).

Definition hasIdentity (p : Pool) (ev : DuplicateVoteEvidence) : bool := identity_has ev (identities p).

Definition rememberIdentity (ev : DuplicateVoteEvidence) (verified : bool) : X unit :=
  if negb verified then mret tt
  else
    heights ← gets identities;
    heights ← lift (identity_add ev heights);
    modify (set_identities heights).

(** A nil validator set cannot be asked. *)
Definition hasPublicKeys (p : Pool) : option bool := HasPublicKeys <$> State_Validators (pool_state p).

(** ** Pending evidence *)

Definition addPendingEvidence (svc : Services) (ev : DuplicateVoteEvidence) : X unit :=
  match Evidence_Marshal (EvidenceToProto ev) with
  | None => fail ErrPoolMarshal
  | Some evBytes =>
      key ← lift_panic (keyPending ev);
      _ ← dbop (Set_ key (Some evBytes));
      _ ← modify (λ p, set_size (uint32 (evidenceSize p + 1)) p);
      match svc_Publish svc with
      | None => mret tt
      | Some publish => if publish ev then mret tt else fail ErrPublish
      end
  end.

(** The message whose size [listEvidence] looks at; a time that cannot be encoded panics. *)
Definition EvidenceList_Size (l : list ProtoEvidence) : option Z :=
  ms ← mapM (λ ev, match ev with None => Some [] | Some pb => message_field x0a <$> marshal_DVE pb end) l;
  Some (Z.of_nat (length (concat (map (message_field x0a) ms)))).

(** The loop of [listEvidence]: the evidence, its size and an error. *)
Fixpoint list_loop (maxBytes : Z) (items : list item) (evList : list ProtoEvidence)
    (evidence : list DuplicateVoteEvidence) (totalSize : Z) :
    X (list DuplicateVoteEvidence * Z * option pool_error) :=
  match items with
  | [] =>
      r ← try (dbop blockstore.iter_Error);
      mret (evidence, totalSize, match r with inl _ => None | inr e => Some e end)
  | x :: items =>
      match Evidence_Unmarshal x.2 with
      | None => mret (evidence, totalSize, Some ErrPoolUnmarshal)
      | Some evpb =>
          let evList := evList ++ [evpb] in
          evSize ← lift (deref (EvidenceList_Size evList));
          if negb (maxBytes =? -1)%Z && (maxBytes <? evSize)%Z then
            r ← try (dbop blockstore.iter_Error);
            mret (evidence, totalSize, match r with inl _ => None | inr e => Some e end)
          else
            match EvidenceFromProto evpb with
            | Err e => mret ([], totalSize, Some (ErrPoolFromProto e))
            | Panic => panic
            | Ok ev => list_loop maxBytes items evList (evidence ++ [ev]) evSize
            end
      end
  end.

Definition listEvidence (prefixKey maxBytes : Z) :
    X (list DuplicateVoteEvidence * Z * option pool_error) :=
  r ← try (dbop (IteratePrefix (prefixToBytes prefixKey)));
  match r with
  | inl items => list_loop maxBytes items [] [] 0
  | inr e => mret ([], 0%Z, Some e)
  end.

(** Errors are logged. *)
Definition PendingEvidence (maxBytes : Z) : X (list DuplicateVoteEvidence * Z) :=
  p ← gets id;
  if closed p || negb (Enabled p) || (maxBytes =? 0)%Z then mret ([], 0%Z)
  else if (evidenceSize p =? 0)%Z then mret ([], 0%Z)
  else
    '(evidence, size, _) ← listEvidence prefixPending maxBytes;
    mret (evidence, size).

(** The elements whose hash is not in the map. *)
Fixpoint filter_hashes (blockEvidenceMap : gset bytes) (l : list DuplicateVoteEvidence) :
    outcome pool_error (list DuplicateVoteEvidence) :=
  match l with
  | [] => Ok []
  | ev :: l =>
      hash ← DVE_Hash ev;
      rest ← filter_hashes blockEvidenceMap l;
      Ok (if bool_decide (hash ∈ blockEvidenceMap) then rest else ev :: rest)
  end.

Definition removeEvidenceFromList (blockEvidenceMap : gset bytes) : X unit :=
  l ← gets evidenceList;
  l ← lift (filter_hashes blockEvidenceMap l);
  modify (set_list l).

(** ** Committing *)

(** [proto.Marshal] of an [Int64Value]. *)
Definition marshal_Int64Value (v : Z) : bytes := wire.varint_field x08 v.

(** The loop of [markEvidenceAsCommitted]; errors are logged. *)
Fixpoint mark_loop (height : Z) (evidence : list DuplicateVoteEvidence) (batch : Batch)
    (blockEvidenceMap : gset bytes) : X (Batch * gset bytes) :=
  match evidence with
  | [] => mret (batch, blockEvidenceMap)
  | ev :: evidence =>
      pending ← isPending ev;
      '(batch, blockEvidenceMap) ←
        (if pending : bool then
           key ← lift_panic (keyPending ev);
           hash ← hash_of ev;
           mret (match batch_Delete batch key with Ok b => b | _ => batch end, {[hash]} ∪ blockEvidenceMap)
         else mret (batch, blockEvidenceMap));
      key ← lift_panic (keyCommitted ev);
      _ ← ignore (dbop (Set_ key (Some (marshal_Int64Value height))));
      mark_loop height evidence batch blockEvidenceMap
  end.

Definition markEvidenceAsCommitted (evidence : list DuplicateVoteEvidence) (height : Z) : X unit :=
  '(batch, blockEvidenceMap) ← mark_loop height evidence NewBatch ∅;
  if size blockEvidenceMap =? 0 then mret tt
  else
    r ← try (dbop (batch_Write batch));
    match r with
    | inr _ => mret tt
    | inl _ =>
        _ ← removeEvidenceFromList blockEvidenceMap;
        modify (λ p, set_size (uint32 (evidenceSize p - Z.of_nat (size blockEvidenceMap))) p)
    end.

(** ** Expiring *)

Definition bytesToEv (evBytes : bytes) : outcome pool_error DuplicateVoteEvidence :=
  match Evidence_Unmarshal evBytes with
  | None => Err ErrPoolUnmarshal
  | Some evpb => wrap_err ErrPoolFromProto (EvidenceFromProto evpb)
  end.

(** The loop of [batchExpiredPendingEvidence]: the next height and time to prune at, the batch
    and the hashes in it.  Errors are logged and the item is skipped. *)
Fixpoint expired_loop (p : Pool) (items : list item) (batch : Batch) (blockEvidenceMap : gset bytes) :
    outcome pool_error (Z * Z * Batch * gset bytes) :=
  match items with
  | [] => Ok (LastBlockHeight (pool_state p), LastBlockTime (pool_state p), batch, blockEvidenceMap)
  | x :: items =>
      match bytesToEv x.2 with
      | Panic => Panic
      | Err _ => expired_loop p items batch blockEvidenceMap
      | Ok ev =>
          height ← wrap_err ErrPoolABCI (DVE_Height ev);
          if negb (isExpired p height (DVE_Timestamp ev)) then
            let params := Params_Evidence (State_Params (pool_state p)) in
            Ok (int64 (height + MaxAgeNumBlocks params + 1),
                (DVE_Timestamp ev + MaxAgeDuration params + 1000000000)%Z, batch, blockEvidenceMap)
          else
            match batch_Delete batch x.1 with
            | Ok batch => hash ← DVE_Hash ev; expired_loop p items batch ({[hash]} ∪ blockEvidenceMap)
            | _ => expired_loop p items batch blockEvidenceMap
            end
      end
  end.

Definition batchExpiredPendingEvidence (batch : Batch) : X (Z * Z * Batch * gset bytes) :=
  r ← try (dbop (IteratePrefix (prefixToBytes prefixPending)));
  p ← gets id;
  match r with
  | inr _ => mret (LastBlockHeight (pool_state p), LastBlockTime (pool_state p), batch, ∅)
  | inl items => lift (expired_loop p items batch ∅)
  end.

Definition removeExpiredPendingEvidence : X (Z * Z) :=
  '(height, time, batch, blockEvidenceMap) ← batchExpiredPendingEvidence NewBatch;
  if size blockEvidenceMap =? 0 then mret (height, time)
  else
    r ← try (dbop (batch_Write batch));
    match r with
    | inr _ => gets (λ p, (LastBlockHeight (pool_state p), LastBlockTime (pool_state p)))
    | inl _ =>
        _ ← removeEvidenceFromList blockEvidenceMap;
        _ ← modify (λ p, set_size (uint32 (evidenceSize p - Z.of_nat (size blockEvidenceMap))) p);
        mret (height, time)
    end.

(** [evpool.pruningHeight, evpool.pruningTime = evpool.removeExpiredPendingEvidence()]. *)
Definition prune : X unit :=
  '(height, time) ← removeExpiredPendingEvidence;
  modify (set_pruning height time).

Definition loadPendingEvidence : X unit :=
  _ ← prune;
  '(evList, _, err) ← listEvidence prefixPending (-1);
  match err with
  | Some e => fail e
  | None =>
      modify (λ p, set_flags (closed p) true (isStarted p)
        (set_list (evidenceList p ++ evList) (set_size (uint32 (Z.of_nat (length evList))) p)))
  end.

(** ** Votes reported by consensus *)

(** The evidence made of two votes, [None] where the loop continues with the next ones. *)
Definition make_evidence (svc : Services) (state : State) (voteA voteB : option Vote) :
    X (option DuplicateVoteEvidence) :=
  a ← lift (deref voteA);
  if (Vote_Height a =? LastBlockHeight state)%Z then
    match NewDuplicateVoteEvidence voteA voteB (LastBlockTime state) (State_LastValidators state) with
    | Ok dve => mret (Some dve) | Err _ => mret None | Panic => panic
    end
  else if (Vote_Height a <? LastBlockHeight state)%Z then
    match svc_LoadValidators svc (Vote_Height a) with
    | Err _ => mret None
    | Panic => panic
    | Ok valSet =>
        match svc_LoadBlockMeta svc (Vote_Height a) with
        | None => mret None
        | Some blockMeta =>
            match NewDuplicateVoteEvidence voteA voteB (H_Time (Meta_Header blockMeta)) (Some valSet) with
            | Ok dve => mret (Some dve) | Err _ => mret None | Panic => panic
            end
        end
    end
  else mret None.

Fixpoint buffer_loop (svc : Services) (state : State) (buffer : list (option Vote * option Vote)) : X unit :=
  match buffer with
  | [] => mret tt
  | (voteA, voteB) :: buffer =>
      dve ← make_evidence svc state voteA voteB;
      _ ← match dve with
          | None => mret tt
          | Some dve =>
              pending ← isPending dve;
              if pending : bool then mret tt
              else
                committed ← isCommitted dve;
                if committed : bool then mret tt
                else
                  r ← try (addPendingEvidence svc dve);
                  match r with
                  | inr _ => mret tt
                  | inl _ =>
                      _ ← rememberIdentity dve true;
                      modify (λ p, set_list (evidenceList p ++ [dve]) p)
                  end
          end;
      buffer_loop svc state buffer
  end.

Definition processConsensusBuffer (svc : Services) (state : State) : X unit :=
  buffer ← gets consensusBuffer;
  _ ← buffer_loop svc state buffer;
  modify (set_buffer []).

Definition ReportConflictingVotes (voteA voteB : option Vote) (p : Pool) : Pool :=
  if closed p || negb (Enabled p) then p else set_buffer (consensusBuffer p ++ [(voteA, voteB)]) p.

(** ** Verifying *)

(** The evidence, whose fields for the application may have been corrected, and whether its
    signatures were checked or an error. *)
Definition verify (svc : Services) (ev : DuplicateVoteEvidence) :
    X (DuplicateVoteEvidence * (bool + pool_error)) :=
  p ← gets id;
  let state := pool_state p in
  let evidenceParams := Params_Evidence (State_Params state) in
  height ← height_of ev;
  let ageNumBlocks := int64 (LastBlockHeight state - height) in
  match svc_LoadBlockMeta svc height with
  | None => mret (ev, inr ErrMissingBlock)
  | Some blockMeta =>
      let evTime := H_Time (Meta_Header blockMeta) in
      let ageDuration := time_Sub (LastBlockTime state) evTime in
      if (MaxAgeDuration evidenceParams <? ageDuration)%Z && (MaxAgeNumBlocks evidenceParams <? ageNumBlocks)%Z
      then mret (ev, inr (ErrInvalidEvidence TooOld))
      else
        match svc_LoadValidators svc height with
        | Err _ => mret (ev, inr ErrPoolValidators)
        | Panic => panic
        | Ok valSet =>
            match VerifyDuplicateVote ev (ChainID state) valSet with
            | Err e => mret (ev, inr (ErrInvalidEvidence (NotVerified e)))
            | Panic => panic
            | Ok _ =>
                a ← lift (deref (VoteA ev));
                '(_, val) ← lift (GetByProTxHash valSet (Vote_ValidatorProTxHash a));
                let verified := signaturesCheckable val in
                match ValidateABCI ev val valSet evTime with
                | Ok _ => mret (ev, inl verified)
                | Panic => panic
                | Err e =>
                    ev ← lift_panic (GenerateABCI ev val valSet evTime);
                    _ ← when (Enabled p)
                          (r ← try (addPendingEvidence svc ev);
                           match r with inr _ => mret tt | inl _ => rememberIdentity ev verified end);
                    mret (ev, inr (ErrPoolABCI e))
                end
            end
        end
  end.

Definition AddEvidence (svc : Services) (ev : DuplicateVoteEvidence) : X unit :=
  p ← gets id;
  if closed p then fail ErrPoolClosed
  else if negb (Enabled p) then fail ErrEvidenceDisabled
  else
    height ← height_of ev; hash ← hash_of ev;
    pending ← isPendingHash height hash;
    if pending : bool then mret tt
    else
      committed ← isCommittedHash height hash;
      if committed : bool then mret tt
      else
        '(ev, r) ← verify svc ev;
        match r with
        | inr e => fail e
        | inl verified =>
            _ ← addPendingEvidence svc ev;
            _ ← rememberIdentity ev verified;
            modify (λ p, set_list (evidenceList p ++ [ev]) p)
        end.

(** Evidence of a block that is not pending is verified and stored; the evidence as it is left,
    and an error. *)
Definition check_one (svc : Services) (ev : DuplicateVoteEvidence) :
    X (DuplicateVoteEvidence * option pool_error) :=
  pending ← isPending ev;
  if pending : bool then mret (ev, None)
  else
    committed ← isCommitted ev;
    if committed : bool then mret (ev, Some (ErrInvalidEvidence AlreadyCommitted))
    else
      '(ev, r) ← verify svc ev;
      match r with
      | inr e => mret (ev, Some e)
      | inl verified =>
          p ← gets id;
          _ ← when (Enabled p)
                (r ← try (addPendingEvidence svc ev);
                 match r with inr _ => mret tt | inl _ => rememberIdentity ev verified end);
          mret (ev, None)
      end.

(** The loop of [CheckEvidence]: the evidence of the block as it is left, and an error. *)
Fixpoint check_loop (svc : Services) (done : list DuplicateVoteEvidence) (hashes : list bytes)
    (evList : list DuplicateVoteEvidence) : X (list DuplicateVoteEvidence * option pool_error) :=
  match evList with
  | [] => mret (done, None)
  | ev :: evList =>
      '(ev, err) ← check_one svc ev;
      match err with
      | Some e => mret (done ++ ev :: evList, Some e)
      | None =>
          hash ← hash_of ev;
          if bool_decide (hash ∈ hashes)
          then mret (done ++ ev :: evList, Some (ErrInvalidEvidence DuplicateInList))
          else check_loop svc (done ++ [ev]) (hashes ++ [hash]) evList
      end
  end.

Definition CheckEvidence (svc : Services) (evList : list DuplicateVoteEvidence) :
    X (list DuplicateVoteEvidence * option pool_error) :=
  if length evList =? 0 then mret (evList, None)
  else
    p ← gets id;
    if closed p then mret (evList, Some ErrPoolClosed)
    else check_loop svc [] [] evList.

(** ** Life cycle *)

Definition Update (svc : Services) (state : State) (ev : list DuplicateVoteEvidence) : X unit :=
  p ← gets id;
  if closed p then mret tt
  else
    let previous := pool_state p in
    let enabled_before := (0 <? EP_MaxBytes (Params_Evidence (State_Params previous)))%Z in
    if (LastBlockHeight state <=? LastBlockHeight previous)%Z then panic
    else
      _ ← when (0 <? length ev) (markEvidenceAsCommitted ev (LastBlockHeight state));
      if (EP_MaxBytes (Params_Evidence (State_Params state)) =? 0)%Z then
        _ ← when enabled_before (processConsensusBuffer svc state);
        modify (set_buffer [] ∘ updateState state)
      else
        _ ← processConsensusBuffer svc state;
        _ ← modify (refreshBlockRange svc ∘ updateState state);
        loaded ← gets pendingLoaded;
        _ ← (if negb loaded then must loadPendingEvidence
             else when (EP_MaxBytes (Params_Evidence (State_Params previous)) =? 0)%Z prune);
        p ← gets id;
        when ((0 <? evidenceSize p) && (pruningHeight p <? LastBlockHeight state) &&
              (pruningTime p <? LastBlockTime state))%Z prune.

Definition Start (svc : Services) (state : State) : X unit :=
  p ← gets id;
  if closed p then fail ErrPoolClosed
  else if isStarted p then fail ErrPoolRunning
  else
    _ ← modify (updateState state);
    p ← gets id;
    _ ← when (Enabled p) (_ ← modify (refreshBlockRange svc); loadPendingEvidence);
    modify (λ p, set_flags (closed p) (pendingLoaded p) true p).

(** The database is closed too. *)
Definition Close (p : Pool) : Pool := set_flags true (pendingLoaded p) (isStarted p) p.

(** ** admission.go *)

Definition allegesOneEquivocation (ev : DuplicateVoteEvidence) : bool :=
  match VoteA ev, VoteB ev with
  | Some a, Some b =>
      (Vote_Height a =? Vote_Height b)%Z && (Vote_Round a =? Vote_Round b)%Z &&
      (Vote_Type a =? Vote_Type b)%Z &&
      bool_decide (Vote_ValidatorProTxHash a = Vote_ValidatorProTxHash b) &&
      negb (BlockID_Equals (Vote_BlockID a) (Vote_BlockID b))
  | _, _ => false
  end.

Definition withinExtensionLimit (ev : DuplicateVoteEvidence) : bool :=
  match VoteA ev, VoteB ev with
  | Some a, Some b =>
      (length (Vote_VoteExtensions a) <=? MaxVoteExtensions) &&
      (length (Vote_VoteExtensions b) <=? MaxVoteExtensions)
  | _, _ => true
  end.

Definition admitFree (ev : DuplicateVoteEvidence) : X bool :=
  p ← gets id;
  if negb (allegesOneEquivocation ev) then mret false
  else if negb (withinExtensionLimit ev) then mret false
  else if hasIdentity p ev then mret false
  else height ← height_of ev; mret (hasBlockFor p height).

(** [handleEvidenceMessage] for one message, with the answer of the work budget: whether the
    message is broadcast, or an error for which the peer is removed. *)
Definition handleEvidenceMessage (svc : Services) (admitWork : bool) (msg : ProtoEvidence) : X bool :=
  p ← gets id;
  if negb (Enabled p) then mret false
  else
    keys ← lift (deref (hasPublicKeys p));
    if negb keys then mret false
    else
      ev ← lift_err ErrPoolFromProto (EvidenceFromProto msg);
      _ ← height_of ev;
      admitted ← admitFree ev;
      if negb admitted then mret false
      else
        have ← alreadyHave ev;
        if have : bool then mret false
        else if negb admitWork then mret false
        else
          r ← try (AddEvidence svc ev);
          match r with
          | inl _ => mret true
          | inr (ErrInvalidEvidence r) => fail (ErrInvalidEvidence r)
          | inr _ => mret false
          end.

End pool.

End evpool.
