(* ===== verification/EvPoolThms.v ===== *)
(** * internal/evidence: what the evidence pool holds

    Over any run of the operations of [EvPool], also after restarts and on a database that may
    fail at any time, the pool holds and offers only evidence that proves a double vote.  While
    the database works, the answers of [CheckEvidence] and the records of commits are exact. *)
From Stdlib Require Import ZArith Lia Init.Byte Sorted.
From stdpp Require Import base numbers list sets gmap fin_maps sorting.
From S2P Require Import Prelude.
From S2P Require Import StateM.
From S2P Require Import DB.
From S2P Require Import Merkle.
From S2P Require Import PartSet.
From S2P Require Import Wire.
From S2P Require Import Types.
From S2P Require Import Crypto.
From S2P Require Import QuorumSign.
From S2P Require Import Proposal.
From S2P Require Import ValidatorSet.
From S2P Require Import Evidence.
From S2P Require Import Block.
From S2P Require Import Params.
From S2P Require Import SmState.
From S2P Require Import Execution.
From S2P Require Import SelectProposer.
From S2P Require Import StateStore.
From S2P Require Import StateStoreThms.
From S2P Require Import BlockStore.
From S2P Require Import Mempool.
From S2P Require Import EvPool.

Import statem db partset types crypto quorum proposal valset evidence block params sm selectproposer.
Import storethms evpool.

Module epthms.

(** Keys differ with the prefix, the height and the string, begin with the key of their prefix,
    whose last byte is not 255, and are ordered by the height. *)
Record evkeys_law `{OrderedCode} `{EvidenceKeys} : Prop := {
  ek_inj p h s p' h' s' : (0 ≤ p < 64)%Z → (0 ≤ p' < 64)%Z → in_int64 h → in_int64 h' →
    orderedcode_hash p h s = orderedcode_hash p' h' s' → p = p' ∧ h = h' ∧ s = s';
  ek_prefix p h s : has_prefix (orderedcode_hash p h s) (orderedcode [p]) = true;
  ek_apart p q h s : (0 ≤ p < 64)%Z → (0 ≤ q < 64)%Z → has_prefix (orderedcode_hash p h s) (orderedcode [q]) = true → p = q;
  ek_last p : (0 ≤ p < 64)%Z → ∃ a b, orderedcode [p] = a ++ [b] ∧ b ≠ xff;
  ek_order p h s h' s' : (0 ≤ p < 64)%Z → in_int64 h → in_int64 h' → (h < h')%Z →
    bytes_compare (orderedcode_hash p h s) (orderedcode_hash p h' s') = Lt }.

(** Messages are decoded to what was encoded. *)
Definition evidence_codec_law `{EvidenceCodec} : Prop :=
  ∀ m bz, Evidence_Marshal m = Some bz → Evidence_Unmarshal bz = Some m.

(** All items with a prefix, in order. *)
Lemma IteratePrefix_items `{Faults} p d :
  (∃ a b, p = a ++ [b] ∧ b ≠ xff) →
  IteratePrefix p d = op (λ m, (m, filter (λ x, has_prefix x.1 p = true) (ascend m))) d.
Proof.
  intros (a & b & -> & Hb). unfold IteratePrefix. rewrite bool_decide_eq_false_2 by by destruct a.
  unfold mbind, M_bind, lift. rewrite cpIncr_snoc by done. unfold Iterator, iterate, empty_bound.
  rewrite !bool_decide_eq_false_2 by (destruct a; done). cbn [orb]. unfold op.
  destruct (fault (db_ops d)); [done|]. rewrite newMemDBIterator_spec. cbn [direct]. do 3 f_equal.
  apply list_filter_iff. intros x. rewrite <- (incr_range a b x.1 Hb). unfold in_domain, IsKeyInDomain. cbn [from_option id].
  rewrite Is_true_true, andb_true_iff, negb_true_iff, bytes_ltb_le. done.
Qed.

Section thms.
Context `{Crypto} `{StdTime} `{Dashd} `{Faults} `{OrderedCode} `{EvidenceKeys} `{EvidenceCodec} `{AnyOrder}.
Hypothesis key_law : evkeys_law.
Hypothesis codec : evidence_codec_law.
Hypothesis any_law : ∀ A (l : list A), any_order l ≡ₚ l.

Notation X := (M Pool pool_error).

(** ** The chain *)

(** The chain that the node follows: its identifier, the validators of every height and the
    time of every block. *)
Variables (chain : bytes) (vals_at : Z → ValidatorSet) (time_at : Z → Z).

Record chain_ok : Prop := {
  co_nodup h : NoDup (map ProTxHash (Validators (vals_at h)));
  co_size h : (Size (vals_at h) ≤ MaxInt32)%Z }.
Hypothesis Hchain : chain_ok.

(** Evidence that convicts a validator of its height and has the powers and the time of the
    chain. *)
Record proven (ev : DuplicateVoteEvidence) : Prop := {
  pv_height : ∃ h, DVE_Height ev = Ok h ∧ in_int64 h ∧
    VerifyDuplicateVote ev chain (vals_at h) = Ok tt ∧ DVE_Timestamp ev = time_at h ∧
    DVE_TotalVotingPower ev = TotalVotingPower (vals_at h);
  pv_back : EvidenceFromProto (EvidenceToProto ev) = Ok ev }.

(** What the services answer is of the chain. *)
Record svc_ok (svc : Services) : Prop := {
  so_time h m : svc_LoadBlockMeta svc h = Some m → H_Time (Meta_Header m) = time_at h;
  so_vals h v : svc_LoadValidators svc h = Ok v → same_set (vals_at h) v }.

(** A state of the chain. *)
Record st_ok (s : State) : Prop := {
  st_chain : ChainID s = chain;
  st_time : LastBlockTime s = time_at (LastBlockHeight s);
  st_vals v : State_LastValidators s = Some v → same_set (vals_at (LastBlockHeight s)) v }.

(** Evidence as it is read from a message. *)
Definition received (ev : DuplicateVoteEvidence) : Prop :=
  EvidenceFromProto (EvidenceToProto ev) = Ok ev ∧ ∀ h, DVE_Height ev = Ok h → in_int64 h.

(** Two votes that consensus found to conflict. *)
Definition genuine (votes : option Vote * option Vote) : Prop :=
  ∃ a b i val pk, votes = (Some a, Some b) ∧ in_int64 (Vote_Height a) ∧
    Validators (vals_at (Vote_Height a)) !! i = Some val ∧
    Vote_ValidateBasic a = Ok tt ∧ Vote_ValidateBasic b = Ok tt ∧
    forallb class_ok (Vote_VoteExtensions a) = true ∧ forallb class_ok (Vote_VoteExtensions b) = true ∧
    equivocation (vals_at (Vote_Height a)) val a b ∧ Val_PubKey val = Some pk ∧
    block_signed chain (vals_at (Vote_Height a)) pk a ∧ block_signed chain (vals_at (Vote_Height a)) pk b.

(** Evidence whose signatures were checked. *)
Definition checked (ev : DuplicateVoteEvidence) : Prop :=
  proven ev ∧ ∃ h a i val, DVE_Height ev = Ok h ∧ VoteA ev = Some a ∧
    GetByProTxHash (E := evidence_error) (vals_at h) (Vote_ValidatorProTxHash a) = Ok (i, Some val) ∧
    Val_PubKey val ≠ None.

(** ** The invariant *)

(** Every record is of evidence that is proven, or marks a height and a hash as committed. *)
Definition db_ok (m : gmap bytes bytes) : Prop :=
  ∀ k v, m !! k = Some v →
    (∃ ev, keyPending ev = Ok k ∧ Evidence_Marshal (EvidenceToProto ev) = Some v ∧ proven ev) ∨
    (∃ h hash, k = keyCommittedFor h hash).

Record inv (p : Pool) : Prop := {
  iv_db : db_ok (db_data (evidenceStore p));
  iv_list : Forall proven (evidenceList p);
  iv_ids k h : identities p !! k = Some h → ∃ ev, checked ev ∧ evidenceIdentity ev = Some k;
  iv_bound : size (identities p) ≤ maxTrackedIdentities;
  iv_buffer : Forall genuine (consensusBuffer p);
  iv_state : pool_state p = zeroState ∨ st_ok (pool_state p) }.

(** The invariant is kept, the state is not changed, and what is returned satisfies [Q]. *)
Definition holds {A} (s : State) (m : X A) (Q : A → Prop) : Prop :=
  ∀ p, inv p → pool_state p = s →
    inv (m p).1 ∧ pool_state (m p).1 = s ∧ ∀ a, (m p).2 = Ok a → Q a.

Lemma holds_ret {A} s (a : A) (Q : A → Prop) : Q a → holds s (mret a) Q.
Proof using. intros Ha p Hp Hs. split_and!; [done|done|]. by intros b [= <-]. Qed.

Lemma holds_bind {A B} s (m : X A) (f : A → X B) (R : A → Prop) (Q : B → Prop) :
  holds s m R → (∀ a, R a → holds s (f a) Q) → holds s (m ≫= f) Q.
Proof using.
  intros Hm Hf p Hp Hs. unfold mbind, M_bind. destruct (Hm p Hp Hs) as (Hi & Hs' & Ha).
  destruct (m p) as [p' [a|e|]]; [by apply Hf; [apply Ha|..]|done..].
Qed.

Lemma holds_weaken {A} s (m : X A) (R Q : A → Prop) : holds s m R → (∀ a, R a → Q a) → holds s m Q.
Proof using. intros Hm Hq p Hp Hs. destruct (Hm p Hp Hs) as (? & ? & Ha). split_and!; [done|done|]. auto. Qed.

Lemma holds_lift {A} s (o : outcome pool_error A) (Q : A → Prop) : (∀ a, o = Ok a → Q a) → holds s (lift o) Q.
Proof using. intros Ho p Hp Hs. split_and!; [done|done|]. done. Qed.

Lemma holds_lift_panic {E A} s (o : outcome E A) (Q : A → Prop) : (∀ a, o = Ok a → Q a) → holds s (lift_panic o) Q.
Proof using. intros Ho p Hp Hs. split_and!; [done|done|]. unfold lift_panic. destruct o; cbn; intros b; [intros [= <-]; auto|done..]. Qed.

Lemma holds_gets {A} s (f : Pool → A) (Q : A → Prop) :
  (∀ p, inv p → pool_state p = s → Q (f p)) → holds s (gets f) Q.
Proof using. intros Hf p Hp Hs. split_and!; [done|done|]. intros a [= <-]. auto. Qed.

Lemma holds_modify s (f : Pool → Pool) (Q : unit → Prop) :
  (∀ p, inv p → pool_state p = s → inv (f p) ∧ pool_state (f p) = s) → Q tt → holds s (modify f) Q.
Proof using. intros Hf Hq p Hp Hs. destruct (Hf p Hp Hs). split_and!; [done|done|]. by intros [] _. Qed.

Lemma holds_fail {A} s e (Q : A → Prop) : holds s (fail e) Q.
Proof using. by intros p Hp Hs. Qed.

Lemma holds_panic {A} s (Q : A → Prop) : holds s panic Q.
Proof using. by intros p Hp Hs. Qed.

Lemma holds_try {A} s (m : X A) (Q : A → Prop) (R : A + pool_error → Prop) :
  holds s m Q → (∀ a, Q a → R (inl a)) → (∀ e, R (inr e)) → holds s (try m) R.
Proof using.
  intros Hm Ha He p Hp Hs. unfold try. destruct (Hm p Hp Hs) as (Hi & Hs' & Hq).
  destruct (m p) as [p' [a|e|]]; split_and!; try done; intros b [= <-]; auto.
Qed.

Lemma holds_when s (b : bool) (m : X unit) : (b = true → holds s m (λ _, True)) → holds s (when b m) (λ _, True).
Proof using. intros Hm. destruct b; [by apply Hm|by apply holds_ret]. Qed.

(** ** The database *)

Lemma holds_db {A} s (m : M DB db_error A) (Q : A → Prop) :
  (∀ d, db_ok (db_data d) → db_ok (db_data (m d).1) ∧ ∀ a, (m d).2 = Ok a → Q a) → holds s (dbop m) Q.
Proof using.
  intros Hm p [Hd ? ? ? ? ?] Hs. unfold dbop. destruct (Hm _ Hd) as [Hd1 Ha].
  destruct (m (evidenceStore p)) as [d r]. cbn [fst snd] in *. split_and!; [by split|done|].
  intros a. cbn. destruct r; cbn; [intros [= <-]; auto|done..].
Qed.

Lemma op_read {A} (f : gmap bytes bytes → A) d :
  db_data (op (λ m, (m, f m)) d).1 = db_data d ∧ ∀ a, (op (λ m, (m, f m)) d).2 = Ok a → a = f (db_data d).
Proof using. unfold op. destruct (fault (db_ops d)); split; try done. by intros a [= <-]. Qed.

Lemma op_write (f : gmap bytes bytes → gmap bytes bytes) d :
  db_data (op (λ m, (f m, tt)) d).1 = db_data d ∨ db_data (op (λ m, (f m, tt)) d).1 = f (db_data d).
Proof using. unfold op. destruct (fault (db_ops d)); [by left|by right]. Qed.

Lemma holds_has s key : holds s (has_key key) (λ _, True).
Proof using.
  unfold has_key. apply (holds_bind s _ _ (λ _, True)); [|intros; by apply holds_ret].
  apply (holds_try s _ (λ _, True)); [|done..]. apply holds_db. intros d Hd. split; [|done].
  unfold Has. destruct (bool_decide _); [done|]. by rewrite (proj1 (op_read _ d)).
Qed.

Lemma db_ok_insert m k v :
  db_ok m → (∃ ev, keyPending ev = Ok k ∧ Evidence_Marshal (EvidenceToProto ev) = Some v ∧ proven ev) ∨
    (∃ h hash, k = keyCommittedFor h hash) → db_ok (<[k := v]> m).
Proof using. intros Hm Hk k' v'. rewrite lookup_insert_Some. intros [[<- <-]|[_ Hl]]; [done|by eapply Hm]. Qed.

Lemma db_ok_subseteq m m' : db_ok m → m' ⊆ m → db_ok m'.
Proof using. intros Hm Hs k v Hk. by eapply Hm, lookup_weaken. Qed.

Lemma holds_set s key v :
  (∃ ev, keyPending ev = Ok key ∧ Evidence_Marshal (EvidenceToProto ev) = Some v ∧ proven ev) ∨
    (∃ h hash, key = keyCommittedFor h hash) →
  holds s (dbop (Set_ key (Some v))) (λ _, True).
Proof using.
  intros Hk. apply holds_db. intros d Hd. split; [|done]. unfold Set_. destruct (bool_decide _); [done|].
  destruct (op_write (λ m, <[key := v]> m) d) as [->| ->]; [done|]. by apply db_ok_insert.
Qed.

(** A batch that only deletes. *)
Definition deletes_only (b : Batch) : Prop := ∀ ops, b = Some ops → Forall (λ o, ∃ k, o = opDelete k) ops.

Lemma deletes_subseteq (ops : list operation) m :
  Forall (λ o, ∃ k, o = opDelete k) ops → foldl apply_op m ops ⊆ m.
Proof using.
  clear. revert m. induction ops as [|o ops IH]; intros m Ho; [done|].
  apply Forall_cons in Ho as [[k ->] Ho]. cbn [foldl apply_op]. etrans; [by apply IH|]. apply delete_subseteq.
Qed.

Lemma holds_write_deletes s b : deletes_only b → holds s (dbop (batch_Write b)) (λ _, True).
Proof using.
  intros Hb. apply holds_db. intros d Hd. split; [|done]. unfold batch_Write. destruct b as [ops|]; [|done].
  destruct (op_write (λ m, foldl apply_op m ops) d) as [->| ->]; [done|].
  eapply db_ok_subseteq; [done|]. apply deletes_subseteq, Hb. done.
Qed.

Lemma deletes_only_delete b k b' : deletes_only b → batch_Delete b k = Ok b' → deletes_only b'.
Proof using.
  clear. unfold batch_Delete. intros Hb. destruct (bool_decide _); [done|]. destruct b as [ops|]; [|done].
  intros [= <-] ops' [= <-]. apply Forall_app. split; [by apply Hb|]. apply Forall_singleton. by exists k.
Qed.

(** What is read back under the prefix of pending evidence. *)
Lemma pending_value m k v :
  db_ok m → m !! k = Some v → has_prefix k (prefixToBytes prefixPending) = true →
  ∃ ev, keyPending ev = Ok k ∧ proven ev ∧ Evidence_Unmarshal v = Some (EvidenceToProto ev).
Proof using key_law codec.
  intros Hm Hk Hp. destruct (Hm k v Hk) as [(ev & Ek & Ev & Hev)|(h & hash & ->)].
  - exists ev. split_and!; [done|done|]. by apply codec.
  - apply (ek_apart key_law) in Hp; [done|unfold prefixCommitted; lia|unfold prefixPending; lia].
Qed.

Definition pending_item (x : item) : Prop :=
  ∃ ev, keyPending ev = Ok x.1 ∧ proven ev ∧ Evidence_Unmarshal x.2 = Some (EvidenceToProto ev).

Lemma holds_iterate s :
  holds s (dbop (IteratePrefix (prefixToBytes prefixPending))) (Forall pending_item).
Proof using key_law codec.
  apply holds_db. intros d Hd. rewrite IteratePrefix_items by (apply (ek_last key_law); unfold prefixPending; lia).
  match goal with |- context [op (λ m, (m, @?f m)) d] => destruct (op_read f d) as [E Ha] end.
  rewrite E. split; [done|]. intros a ->%Ha. apply Forall_forall. intros x [Hp Hx]%list_elem_of_filter.
  unfold ascend in Hx. rewrite merge_sort_Permutation in Hx. destruct x as [k v]. apply elem_of_map_to_list in Hx.
  by eapply pending_value.
Qed.

Lemma holds_iter_Error s : holds s (dbop blockstore.iter_Error) (λ _, True).
Proof using. apply holds_db. intros d Hd. split; [|done]. unfold blockstore.iter_Error. by rewrite (proj1 (op_read (λ _, tt) d)). Qed.

(** ** Identities *)

Lemma evict_subseteq heights : evictOldest heights ⊆ heights.
Proof using.
  clear. unfold evictOldest. set (es := take _ _). clearbody es. revert heights.
  induction es as [|e es IH]; intros m; [done|]. cbn [foldl]. etrans; [apply IH|]. apply delete_subseteq.
Qed.

Lemma evict_shrinks heights : heights ≠ ∅ → size (evictOldest heights) < size heights.
Proof using any_law.
  clear -any_law. intros Hne. unfold evictOldest. set (entries := merge_sort _ _).
  assert (entries ≡ₚ map_to_list heights) as Hp by (unfold entries; rewrite merge_sort_Permutation; apply any_law).
  destruct entries as [|[k h] es].
  { apply Permutation_nil_l in Hp. symmetry in Hp. by apply map_to_list_empty_iff in Hp. }
  assert (∃ n, Nat.max 1 (length ((k, h) :: es) / identityEvictionDivisor) = S n) as [n ->].
  { destruct (Nat.max _ _) as [|n] eqn:E; [lia|by exists n]. }
  cbn [take foldl fst]. assert (heights !! k = Some h) as Hk.
  { apply elem_of_map_to_list. rewrite <- Hp. by left. }
  apply Nat.le_lt_trans with (size (delete k heights)).
  - generalize (take n es). generalize (delete k heights). intros m l. revert m.
    induction l as [|e l IH]; intros m; [done|]. cbn [foldl]. etrans; [apply IH|].
    apply map_subseteq_size, delete_subseteq.
  - rewrite map_size_delete_Some by done. pose proof (map_size_ne_0_lookup_2 heights). destruct (size heights) eqn:E; [|lia].
    apply map_size_empty_inv in E. done.
Qed.

Lemma identity_add_ok ev heights heights' :
  identity_add ev heights = Ok heights' → size heights ≤ maxTrackedIdentities →
  size heights' ≤ maxTrackedIdentities ∧
  ∀ k h, heights' !! k = Some h → heights !! k = Some h ∨ evidenceIdentity ev = Some k.
Proof using any_law.
  unfold identity_add. destruct (evidenceIdentity ev) as [key|]; [|intros [= <-]; auto].
  destruct (heights !! key) as [h0|] eqn:Ek; [intros [= <-]; auto|].
  intros E Hs. apply bind_Ok in E as (h0 & _ & E). injection E as <-. set (m := if maxTrackedIdentities <=? size heights then evictOldest heights else heights).
  assert (m ⊆ heights) as Hm by (unfold m; destruct (maxTrackedIdentities <=? size heights); [apply evict_subseteq|done]).
  split.
  - assert (size m < maxTrackedIdentities) as Hlt.
    { unfold m. destruct (maxTrackedIdentities <=? size heights) eqn:El.
      - apply Nat.leb_le in El. pose proof (evict_shrinks heights) as Hv.
        assert (heights ≠ ∅) as Hne by (intros ->; rewrite map_size_empty in El; unfold maxTrackedIdentities in El; lia).
        specialize (Hv Hne). lia.
      - by apply Nat.leb_gt in El. }
    rewrite map_size_insert_None; [exact Hlt|]. by eapply lookup_weaken_None.
  - intros k h. rewrite lookup_insert_Some. intros [[<- _]|[_ Hk]]; [by right|]. left. by eapply lookup_weaken.
Qed.

Lemma holds_remember s ev verified :
  (verified = true → checked ev) → holds s (rememberIdentity ev verified) (λ _, True).
Proof using any_law.
  intros Hc. unfold rememberIdentity. destruct verified; cbn [negb]; [|by apply holds_ret].
  intros p Hp Hs. unfold gets, mbind, M_bind, lift, modify. cbn [fst snd].
  destruct (identity_add ev (identities p)) as [ids|e|] eqn:E; [|done..]. cbn [fst snd].
  destruct (identity_add_ok _ _ _ E (iv_bound _ Hp)) as [Hb Hk]. destruct Hp as [Hd Hl Hi Hbd Hbuf Hst]. split_and!; [|done|done].
  split; try done. cbn [identities set_identities]. intros k h [Hk'|Hk']%Hk; [by eapply Hi|]. exists ev. auto.
Qed.

(** ** Pending evidence *)

Lemma inv_size p n : inv p → inv (set_size n p).
Proof using. by intros [? ? ? ? ? ?]; split. Qed.

Lemma inv_push p ev : inv p → proven ev → inv (set_list (evidenceList p ++ [ev]) p).
Proof using. intros [? Hl ? ? ? ?] He; split; try done. cbn. apply Forall_app. split; [done|by apply Forall_singleton]. Qed.

Lemma holds_add_pending s svc ev : proven ev → holds s (addPendingEvidence svc ev) (λ _, True).
Proof using.
  intros He. unfold addPendingEvidence. destruct (Evidence_Marshal _) as [bz|] eqn:Em; [|apply holds_fail].
  apply (holds_bind s _ _ (λ k, keyPending ev = Ok k)); [by apply holds_lift_panic|]. intros k Hk.
  apply (holds_bind s _ _ (λ _, True)); [apply holds_set; left; by exists ev|]. intros _ _.
  apply (holds_bind s _ _ (λ _, True)); [apply holds_modify; [intros p Hp Hs; split; [by apply inv_size|done]|done]|]. intros _ _.
  destruct (svc_Publish svc) as [pub|]; [destruct (pub ev)|]; [by apply holds_ret|apply holds_fail|by apply holds_ret].
Qed.

Lemma holds_list_loop s maxBytes items : ∀ evList evidence total,
  Forall pending_item items → Forall proven evidence →
  holds s (list_loop maxBytes items evList evidence total) (λ r, Forall proven r.1.1).
Proof using.
  induction items as [|x items IH]; intros evList evidence total Hi He; cbn [list_loop].
  - apply (holds_bind s _ _ (λ _, True)); [apply (holds_try s _ (λ _, True)); [apply holds_iter_Error|done..]|].
    intros r _. by apply holds_ret.
  - apply Forall_cons in Hi as [(ev & Hk & Hev & Hu) Hi]. rewrite Hu.
    apply (holds_bind s _ _ (λ _, True)); [by apply holds_lift|]. intros n _. destruct (_ && _).
    + apply (holds_bind s _ _ (λ _, True)); [apply (holds_try s _ (λ _, True)); [apply holds_iter_Error|done..]|].
      intros r _. by apply holds_ret.
    + rewrite (pv_back _ Hev). apply IH; [done|]. apply Forall_app. split; [done|by apply Forall_singleton].
Qed.

Lemma holds_listEvidence s maxBytes : holds s (listEvidence prefixPending maxBytes) (λ r, Forall proven r.1.1).
Proof using key_law codec.
  unfold listEvidence. apply (holds_bind s _ _ (λ r, match r with inl l => Forall pending_item l | _ => True end)).
  - apply (holds_try s _ (Forall pending_item)); [apply holds_iterate|done..].
  - intros [l|e] Hr; [by apply holds_list_loop|by apply holds_ret, Forall_nil_2].
Qed.

Lemma holds_PendingEvidence s maxBytes : holds s (PendingEvidence maxBytes) (λ r, Forall proven r.1).
Proof using key_law codec.
  unfold PendingEvidence. apply (holds_bind s _ _ (λ _, True)); [by apply holds_gets|]. intros p _.
  destruct (_ || _); [by apply holds_ret, Forall_nil_2|]. destruct (_ =? _)%Z; [by apply holds_ret, Forall_nil_2|].
  apply (holds_bind s _ _ (λ r, Forall proven r.1.1)); [apply holds_listEvidence|].
  intros [[l n] e] Hl. by apply holds_ret.
Qed.

Lemma filter_hashes_sublist set l l' : filter_hashes set l = Ok l' → l' `sublist_of` l.
Proof using.
  clear. revert l'. induction l as [|ev l IH]; intros l'; cbn [filter_hashes]; [by intros [= <-]|].
  intros E. apply bind_Ok in E as (h & _ & E). apply bind_Ok in E as (rest & Er & E). injection E as <-.
  apply IH in Er. destruct (bool_decide _); [by apply sublist_cons|by apply sublist_skip].
Qed.

Lemma holds_remove_list s set : holds s (removeEvidenceFromList set) (λ _, True).
Proof using.
  intros p Hp Hs. unfold removeEvidenceFromList, gets, mbind, M_bind, lift, modify. cbn [fst snd].
  destruct (filter_hashes set (evidenceList p)) as [l|e|] eqn:E; [|done..]. cbn [fst snd].
  split_and!; [|done|done]. destruct Hp as [? Hl ? ? ? ?]. split; try done. cbn.
  eapply Forall_impl; [|intros x Hx; exact Hx]. apply Forall_forall. intros x Hx. rewrite Forall_forall in Hl. apply Hl.
  eapply elem_of_sublist; [done|by apply filter_hashes_sublist in E].
Qed.

(** ** Committing and expiring *)

Lemma holds_isPending s ev : holds s (isPending ev) (λ _, True).
Proof using.
  unfold isPending, height_of, hash_of. apply (holds_bind s _ _ (λ _, True)); [by apply holds_lift_panic|]. intros h _.
  apply (holds_bind s _ _ (λ _, True)); [by apply holds_lift|]. intros hash _. apply holds_has.
Qed.

Lemma holds_isCommitted s ev : holds s (isCommitted ev) (λ _, True).
Proof using.
  unfold isCommitted, height_of, hash_of. apply (holds_bind s _ _ (λ _, True)); [by apply holds_lift_panic|]. intros h _.
  apply (holds_bind s _ _ (λ _, True)); [by apply holds_lift|]. intros hash _. apply holds_has.
Qed.

Lemma keyCommitted_shape ev k : keyCommitted ev = Ok k → ∃ h hash, k = keyCommittedFor h hash.
Proof using.
  clear. unfold keyCommitted. intros E. apply bind_Ok in E as (h & _ & E). apply bind_Ok in E as (hash & _ & E).
  injection E as <-. by exists h, hash.
Qed.

Lemma holds_mark_loop s height evs : ∀ batch set,
  deletes_only batch → holds s (mark_loop height evs batch set) (λ r, deletes_only r.1).
Proof using.
  induction evs as [|ev evs IH]; intros batch set Hb; cbn [mark_loop]; [by apply holds_ret|].
  apply (holds_bind s _ _ (λ _, True)); [apply holds_isPending|]. intros pending _.
  apply (holds_bind s _ _ (λ r, deletes_only r.1)).
  { destruct pending; [|by apply holds_ret]. unfold hash_of.
    apply (holds_bind s _ _ (λ _, True)); [by apply holds_lift_panic|]. intros k _.
    apply (holds_bind s _ _ (λ _, True)); [by apply holds_lift|]. intros hash _. apply holds_ret. cbn.
    destruct (batch_Delete batch k) as [b|e|] eqn:E; [by eapply deletes_only_delete|done..]. }
  intros [batch' set'] Hb'. apply (holds_bind s _ _ (λ k, ∃ h hash, k = keyCommittedFor h hash)).
  { apply holds_lift_panic. intros k. apply keyCommitted_shape. }
  intros k Hk. apply (holds_bind s _ _ (λ _, True)); [|intros _ _; by apply IH].
  unfold ignore. apply (holds_bind s _ _ (λ _, True)); [|intros; by apply holds_ret].
  apply (holds_try s _ (λ _, True)); [|done..]. apply holds_set. by right.
Qed.

Lemma no_deletes : deletes_only NewBatch.
Proof using. clear. intros ops [= <-]. constructor. Qed.

(** Removing what was deleted from the list. *)
Lemma holds_removed {A} s set (a : A) (Q : A → Prop) : Q a →
  holds s (_ ← removeEvidenceFromList set;
           _ ← modify (λ p, set_size (uint32 (evidenceSize p - Z.of_nat (size set))) p); mret a) Q.
Proof using.
  intros Ha. apply (holds_bind s _ _ (λ _, True)); [apply holds_remove_list|]. intros _ _.
  apply (holds_bind s _ _ (λ _, True)); [|intros; by apply holds_ret].
  apply holds_modify; [|done]. intros p Hp Hs. split; [by apply inv_size|done].
Qed.

Lemma holds_mark s evs height : holds s (markEvidenceAsCommitted evs height) (λ _, True).
Proof using.
  unfold markEvidenceAsCommitted. apply (holds_bind s _ _ (λ r, deletes_only r.1)); [by apply holds_mark_loop, no_deletes|].
  intros [batch set] Hb. destruct (_ =? _); [by apply holds_ret|].
  apply (holds_bind s _ _ (λ _, True)); [apply (holds_try s _ (λ _, True)); [by apply holds_write_deletes|done..]|].
  intros [_|e] _; [|by apply holds_ret]. apply (holds_bind s _ _ (λ _, True)); [apply holds_remove_list|]. intros _ _.
  apply holds_modify; [|done]. intros p Hp Hs. split; [by apply inv_size|done].
Qed.

Lemma expired_loop_deletes p items : ∀ batch set r,
  deletes_only batch → expired_loop p items batch set = Ok r → deletes_only r.1.2.
Proof using.
  clear. induction items as [|x items IH]; intros batch set r Hb; cbn [expired_loop]; [by intros [= <-]|].
  destruct (bytesToEv x.2) as [ev|e|]; [|by apply IH|done]. intros E. apply bind_Ok in E as (h & _ & E).
  destruct (negb _); [by injection E as <-|]. destruct (batch_Delete batch x.1) as [b|e|] eqn:Eb; [|by eapply IH..].
  apply bind_Ok in E as (hash & _ & E). eapply IH, E. by eapply deletes_only_delete.
Qed.

Lemma holds_prune s : holds s prune (λ _, True).
Proof using key_law codec.
  unfold prune. apply (holds_bind s _ _ (λ _, True)).
  2: { intros [h t] _. apply holds_modify; [|done]. intros p [? ? ? ? ? ?] Hs. by split; [split|]. }
  unfold removeExpiredPendingEvidence. apply (holds_bind s _ _ (λ r : Z * Z * Batch * gset bytes, deletes_only r.1.2)).
  { unfold batchExpiredPendingEvidence. apply (holds_bind s _ _ (λ _, True)).
    { apply (holds_try s _ (Forall pending_item)); [apply holds_iterate|done..]. }
    intros r _. apply (holds_bind s _ _ (λ _, True)); [by apply holds_gets|]. intros p _.
    destruct r as [items|e]; [|by apply holds_ret, no_deletes]. apply holds_lift. intros r. by apply expired_loop_deletes, no_deletes. }
  intros [[[h t] batch] set] Hb. destruct (_ =? _); [by apply holds_ret|].
  apply (holds_bind s _ _ (λ _, True)); [apply (holds_try s _ (λ _, True)); [by apply holds_write_deletes|done..]|].
  intros [_|e] _; [by apply holds_removed|by apply holds_gets].
Qed.

Lemma holds_load s : holds s loadPendingEvidence (λ _, True).
Proof using key_law codec.
  unfold loadPendingEvidence. apply (holds_bind s _ _ (λ _, True)); [apply holds_prune|]. intros _ _.
  apply (holds_bind s _ _ (λ r, Forall proven r.1.1)); [apply holds_listEvidence|]. intros [[l n] [e|]] Hl; [apply holds_fail|].
  apply holds_modify; [|done]. intros p [? Hp ? ? ? ?] Hs. split; [|done]. split; try done. cbn. by apply Forall_app.
Qed.

(** ** Votes reported by consensus *)

Lemma new_fields a b t vs e :
  NewDuplicateVoteEvidence a b t (Some vs) = Ok e →
  DVE_Timestamp e = t ∧ DVE_TotalVotingPower e = TotalVotingPower vs.
Proof using.
  clear. unfold NewDuplicateVoteEvidence. destruct a as [a|], b as [b|]; try done.
  intros E. apply bind_Ok in E as ([i w] & _ & E). destruct (_ =? _)%Z; [done|].
  destruct (match compare_ids a b with Lt => (a, b) | _ => (b, a) end) as [x y].
  apply bind_Ok in E as (u & _ & E). by injection E as <-.
Qed.

(** Evidence made of genuine votes, with the validators and the time of their height. *)
Lemma genuine_checked a b v t :
  genuine (Some a, Some b) → same_set (vals_at (Vote_Height a)) v → t = time_at (Vote_Height a) →
  ∃ ev, NewDuplicateVoteEvidence (Some a) (Some b) t (Some v) = Ok ev ∧ checked ev.
Proof using Hchain.
  intros (a' & b' & i & val & pk & [= <- <-] & Hi & Hval & Va & Vb & Ca & Cb & Heq & Hpk & Sa & Sb) [k ->] ->.
  destruct (conflicting_evidence chain (set_proposerIndex (vals_at (Vote_Height a)) k) i val a b (time_at (Vote_Height a)))
    as (ev & E & _ & Hab & Hv & Hver & _ & Hback); [apply (co_nodup Hchain)|apply (co_size Hchain)|done..| |].
  { by exists pk. }
  destruct (new_fields _ _ _ _ _ E) as [Ht Hp]. exists ev. split; [done|].
  destruct Heq as (_ & Pa & Pb & Hh & _ & _ & _).
  assert (∃ w, VoteA ev = Some w ∧ Vote_Height w = Vote_Height a ∧ Vote_ValidatorProTxHash w = ProTxHash val) as (w & Ew & Hw & Pw).
  { destruct Hab as [[-> _]|[-> _]]; eexists; split_and!; try done; congruence. }
  assert (DVE_Height ev = Ok (Vote_Height a)) as Eh by (unfold DVE_Height, the_vote; rewrite Ew; cbn; by rewrite Hw).
  split; [split; [|done]|].
  - exists (Vote_Height a). split_and!; try done.
  - exists (Vote_Height a), w, (Z.of_nat i), val. split_and!; try done; [|by rewrite Hpk].
    rewrite Pw. apply GetByProTxHash_lookup; [apply (co_nodup Hchain)|apply (co_size Hchain)|done].
Qed.

Lemma holds_make s svc state va vb :
  genuine (va, vb) → svc_ok svc → st_ok state →
  holds s (make_evidence svc state va vb) (λ r, ∀ ev, r = Some ev → checked ev).
Proof using Hchain.
  intros Hg Hsvc Hst. pose proof Hg as (a & b & _ & _ & _ & [= -> ->] & _). unfold make_evidence.
  apply (holds_bind s _ _ (λ x, x = a)); [apply holds_lift; by intros x [= <-]|]. intros ? ->.
  destruct (Z.eqb_spec (Vote_Height a) (LastBlockHeight state)) as [Eh|Hne].
  - destruct (State_LastValidators state) as [v|] eqn:Ev; [|by apply holds_ret].
    destruct (genuine_checked a b v (LastBlockTime state) Hg) as (ev & -> & Hev).
    { rewrite Eh. by apply (st_vals _ Hst). } { rewrite Eh. apply (st_time _ Hst). }
    apply holds_ret. by intros ? [= <-].
  - destruct (_ <? _)%Z; [|by apply holds_ret].
    destruct (svc_LoadValidators svc (Vote_Height a)) as [v|e|] eqn:Ev; [|by apply holds_ret|apply holds_panic].
    destruct (svc_LoadBlockMeta svc (Vote_Height a)) as [m|] eqn:Em; [|by apply holds_ret].
    destruct (genuine_checked a b v (H_Time (Meta_Header m)) Hg) as (ev & -> & Hev).
    { by apply (so_vals _ Hsvc). } { by apply (so_time _ Hsvc). }
    apply holds_ret. by intros ? [= <-].
Qed.

Lemma holds_store s svc ev verified :
  proven ev → (verified = true → checked ev) →
  holds s (r ← try (addPendingEvidence svc ev);
           match r with inr _ => mret tt | inl _ => rememberIdentity ev verified end) (λ _, True).
Proof using any_law.
  intros Hp Hc. apply (holds_bind s _ _ (λ _, True)); [apply (holds_try s _ (λ _, True)); [by apply holds_add_pending|done..]|].
  intros [_|e] _; [by apply holds_remember|by apply holds_ret].
Qed.

Lemma holds_buffer_loop s svc state buffer :
  Forall genuine buffer → svc_ok svc → st_ok state → holds s (buffer_loop svc state buffer) (λ _, True).
Proof using Hchain any_law.
  intros Hb Hsvc Hst. induction buffer as [|[va vb] buffer IH]; cbn [buffer_loop]; [by apply holds_ret|].
  apply Forall_cons in Hb as [Hg Hb].
  apply (holds_bind s _ _ (λ r, ∀ ev, r = Some ev → checked ev)); [by apply holds_make|]. intros dve Hdve.
  apply (holds_bind s _ _ (λ _, True)); [|intros _ _; by apply IH]. destruct dve as [dve|]; [|by apply holds_ret].
  specialize (Hdve dve eq_refl).
  apply (holds_bind s _ _ (λ _, True)); [apply holds_isPending|]. intros [] _; [by apply holds_ret|].
  apply (holds_bind s _ _ (λ _, True)); [apply holds_isCommitted|]. intros [] _; [by apply holds_ret|].
  apply (holds_bind s _ _ (λ _, True)).
  { apply (holds_try s _ (λ _, True)); [apply holds_add_pending, Hdve|done..]. }
  intros [_|e] _; [|by apply holds_ret]. apply (holds_bind s _ _ (λ _, True)); [by apply holds_remember|]. intros _ _.
  apply holds_modify; [|done]. intros p Hp Hs. split; [|done]. apply inv_push; [done|apply Hdve].
Qed.

Lemma holds_buffer s svc state : svc_ok svc → st_ok state → holds s (processConsensusBuffer svc state) (λ _, True).
Proof using Hchain any_law.
  intros Hsvc Hst. unfold processConsensusBuffer. apply (holds_bind s _ _ (Forall genuine)).
  { apply holds_gets. intros p Hp _. apply Hp. }
  intros buffer Hb. apply (holds_bind s _ _ (λ _, True)); [by apply holds_buffer_loop|]. intros _ _.
  apply holds_modify; [|done]. intros p [? ? ? ? ? ?] Hs. split; [|done]. by split.
Qed.

(** ** Verifying *)

Lemma zero_disabled p : pool_state p = zeroState → Enabled p = false.
Proof using. clear. intros E. unfold Enabled. by rewrite E. Qed.

(** Other powers and another time survive the message as well. *)
Lemma received_regenerated ev total power t :
  received ev → received (mkDVE (VoteA ev) (VoteB ev) total power t).
Proof using.
  clear. unfold received, EvidenceFromProto, EvidenceToProto, DuplicateVoteEvidenceFromProto, DVE_ToProto.
  cbn [VoteA VoteB PDVE_VoteA PDVE_VoteB PDVE_TotalVotingPower PDVE_ValidatorPower PDVE_Timestamp DVE_TotalVotingPower DVE_ValidatorPower DVE_Timestamp].
  intros [E Hh]. split; [|done]. apply bind_Ok in E as (va & Ea & E). apply bind_Ok in E as (vb & Eb & E).
  rewrite Ea. orun. rewrite Eb. orun. apply bind_Ok in E as ([] & Ev & E).
  assert (va = VoteA ev ∧ vb = VoteB ev) as [-> ->] by (injection E as E; rewrite <- E; done).
  unfold DVE_ValidateBasic in *. cbn [VoteA VoteB] in *. destruct (VoteA ev), (VoteB ev); try done.
  apply bind_Ok in Ev as ([] & E1 & Ev). apply bind_Ok in Ev as ([] & E2 & Ev). rewrite E1. orun. rewrite E2. orun. by rewrite Ev.
Qed.

(** What [verify] has checked of evidence against the validators and the time of its height. *)
Lemma verified_proven s ev h v m a i val total power :
  st_ok s → received ev → DVE_Height ev = Ok h → same_set (vals_at h) v → H_Time (Meta_Header m) = time_at h →
  VerifyDuplicateVote ev (ChainID s) v = Ok tt → VoteA ev = Some a →
  GetByProTxHash (E := pool_error) v (Vote_ValidatorProTxHash a) = Ok (i, val) → total = TotalVotingPower v →
  let ev' := mkDVE (VoteA ev) (VoteB ev) total power (H_Time (Meta_Header m)) in
  proven ev' ∧ (signaturesCheckable val = true → checked ev').
Proof using.
  intros Hst Hr Eh [k ->] Et Hv Ea Hg Hp ev'. rewrite (st_chain _ Hst) in Hv.
  assert (proven ev') as Hpr.
  { split; [|by apply received_regenerated]. exists h. split_and!; try done. by apply Hr. }
  split; [done|]. intros Hs. split; [done|]. unfold signaturesCheckable in Hs. destruct val as [val|]; [|done].
  exists h, a, i, val. split_and!; try done.
  - revert Hg. unfold GetByProTxHash. cbn [Validators set_proposerIndex]. destruct (find_from _ _ _) as [[j w]|]; [|done].
    destruct (SafeMath.SafeConvertInt32 j); cbn; [|done..]. by intros [= <- <-].
  - by destruct (Val_PubKey val).
Qed.

Lemma holds_verify s svc ev :
  s = zeroState ∨ st_ok s → svc_ok svc → received ev →
  holds s (verify svc ev) (λ r, ∀ verified, r.2 = inl verified →
    r.1 = ev ∧ (st_ok s → proven ev ∧ (verified = true → checked ev))).
Proof using any_law.
  intros Hst Hsvc Hr. unfold verify. apply (holds_bind s _ _ (λ p, pool_state p = s)); [by apply holds_gets|]. intros p Hp.
  apply (holds_bind s _ _ (λ h, DVE_Height ev = Ok h)); [by apply holds_lift_panic|]. intros h Eh. rewrite Hp.
  destruct (svc_LoadBlockMeta svc h) as [m|] eqn:Em; [|by apply holds_ret].
  pose proof (so_time _ Hsvc _ _ Em) as Ht. destruct (_ && _); [by apply holds_ret|].
  destruct (svc_LoadValidators svc h) as [v|e|] eqn:Ev; [|by apply holds_ret|apply holds_panic].
  pose proof (so_vals _ Hsvc _ _ Ev) as Hsame.
  destruct (VerifyDuplicateVote ev (ChainID s) v) as [[]|e|] eqn:Hver; [|by apply holds_ret|apply holds_panic].
  apply (holds_bind s _ _ (λ a, VoteA ev = Some a)).
  { apply holds_lift. intros a. by destruct (VoteA ev); [intros [= <-]|]. }
  intros a Ea. apply (holds_bind s _ _ (λ r, GetByProTxHash (E := pool_error) v (Vote_ValidatorProTxHash a) = Ok r)); [by apply holds_lift|].
  intros [i val] Hg. destruct (ValidateABCI ev val v (H_Time (Meta_Header m))) as [[]|e|] eqn:Hab; [| |apply holds_panic].
  - apply holds_ret. cbn. intros verified [= <-]. split; [done|]. intros Hs.
    unfold ValidateABCI in Hab. apply guard_Ok in Hab as [Ets Hab]. apply bind_Ok in Hab as (w & Hw & Hab).
    apply guard_Ok in Hab as [Epw Hab]. apply guard_Ok in Hab as [Etp _]. bools.
    pose proof (verified_proven s ev h v m a i val (DVE_TotalVotingPower ev) (DVE_ValidatorPower ev) Hs Hr Eh Hsame Ht Hver Ea Hg ltac:(lia)) as Hpr.
    cbn zeta in Hpr. replace (mkDVE _ _ _ _ _) with ev in Hpr by (destruct ev; cbn in *; by f_equal). done.
  - apply (holds_bind s _ _ (λ ev', ∃ w, val = Some w ∧
      ev' = mkDVE (VoteA ev) (VoteB ev) (TotalVotingPower v) (VotingPower w) (H_Time (Meta_Header m)))).
    { apply holds_lift_panic. intros ev'. unfold GenerateABCI. destruct val as [w|]; [|done]. intros [= <-]. by exists w. }
    intros ev' (w & -> & ->). apply (holds_bind s _ _ (λ _, True)); [|intros _ _; by apply holds_ret].
    apply holds_when. intros Hen. destruct Hst as [->|Hs]; [by rewrite zero_disabled in Hen|].
    destruct (verified_proven s ev h v m a i (Some w) (TotalVotingPower v) (VotingPower w) Hs Hr Eh Hsame Ht Hver Ea Hg eq_refl).
    by apply holds_store.
Qed.

Lemma holds_height s ev : holds s (height_of ev) (λ h, DVE_Height ev = Ok h).
Proof using. by apply holds_lift_panic. Qed.

Lemma holds_hash s ev : holds s (hash_of ev) (λ _, True).
Proof using. by apply holds_lift. Qed.

Lemma holds_AddEvidence s svc ev :
  s = zeroState ∨ st_ok s → svc_ok svc → received ev → holds s (AddEvidence svc ev) (λ _, True).
Proof using any_law.
  intros Hst Hsvc Hr. unfold AddEvidence. apply (holds_bind s _ _ (λ p, pool_state p = s)); [by apply holds_gets|]. intros p Hp.
  destruct (closed p); [apply holds_fail|]. destruct (Enabled p) eqn:Hen; cbn [negb]; [|apply holds_fail].
  apply (holds_bind s _ _ _ _ (holds_height s ev)). intros h Eh. apply (holds_bind s _ _ _ _ (holds_hash s ev)). intros hash _.
  apply (holds_bind s _ _ _ _ (holds_has s _)). intros [] _; [by apply holds_ret|].
  apply (holds_bind s _ _ _ _ (holds_has s _)). intros [] _; [by apply holds_ret|].
  apply (holds_bind s _ _ _ _ (holds_verify s svc ev Hst Hsvc Hr)). intros [ev' r] Hv. destruct r as [verified|e]; [|apply holds_fail].
  destruct (Hv verified eq_refl) as [Eev Hpr]. cbn in Eev. subst ev'.
  destruct Hst as [->|Hs]; [by rewrite zero_disabled in Hen|]. destruct (Hpr Hs) as [Hp1 Hp2].
  apply (holds_bind s _ _ _ _ (holds_add_pending s svc ev Hp1)). intros _ _.
  apply (holds_bind s _ _ _ _ (holds_remember s ev verified Hp2)). intros _ _.
  apply holds_modify; [|done]. intros q Hq Hqs. split; [by apply inv_push|done].
Qed.

Lemma holds_check_loop s svc evs : ∀ acc hashes,
  s = zeroState ∨ st_ok s → svc_ok svc → Forall received evs →
  holds s (check_loop svc acc hashes evs) (λ _, True).
Proof using any_law.
  induction evs as [|ev evs IH]; intros acc hashes Hst Hsvc Hr; cbn [check_loop]; [by apply holds_ret|].
  apply Forall_cons in Hr as [He Hr]. apply (holds_bind s _ _ (λ _, True)).
  - unfold check_one. apply (holds_bind s _ _ _ _ (holds_isPending s ev)). intros [] _; [by apply holds_ret|]. apply (holds_bind s _ _ _ _ (holds_isCommitted s ev)). intros [] _; [by apply holds_ret|].
    apply (holds_bind s _ _ _ _ (holds_verify s svc ev Hst Hsvc He)). intros [ev' [verified|e]] Hv; [|by apply holds_ret].
    destruct (Hv verified eq_refl) as [Eev Hpr]. cbn in Eev. subst ev'.
    apply (holds_bind s _ _ (λ p, pool_state p = s)); [by apply holds_gets|]. intros p Hp.
    apply (holds_bind s _ _ (λ _, True)); [|intros; by apply holds_ret]. apply holds_when. intros Hen.
    destruct Hst as [->|Hs]; [by rewrite zero_disabled in Hen|]. destruct (Hpr Hs). by apply holds_store.
  - intros [ev' [e|]] _; [by apply holds_ret|]. apply (holds_bind s _ _ _ _ (holds_hash s ev')). intros hash _.
    destruct (bool_decide _); [by apply holds_ret|by apply IH].
Qed.

Lemma holds_CheckEvidence s svc evs :
  s = zeroState ∨ st_ok s → svc_ok svc → Forall received evs → holds s (CheckEvidence svc evs) (λ _, True).
Proof using any_law.
  intros Hst Hsvc Hr. unfold CheckEvidence. destruct (_ =? _); [by apply holds_ret|].
  apply (holds_bind s _ _ (λ _, True)); [by apply holds_gets|]. intros p _.
  destruct (closed p); [by apply holds_ret|by apply holds_check_loop].
Qed.

(** ** Operations that change the state *)

Definition stays {A} (m : X A) : Prop := ∀ p, inv p → inv (m p).1.

Lemma stays_bind {A B} (m : X A) (f : A → X B) : stays m → (∀ a, stays (f a)) → stays (m ≫= f).
Proof using. intros Hm Hf p Hp. specialize (Hm p Hp). unfold mbind, M_bind. destruct (m p) as [p' [a|e|]]; [by apply Hf|done..]. Qed.

Lemma holds_stays {A} (m : X A) (Q : A → Prop) : (∀ s, s = zeroState ∨ st_ok s → holds s m Q) → stays m.
Proof using. intros Hm p Hp. by apply (Hm (pool_state p) (iv_state _ Hp) p). Qed.

Lemma stays_gets {A} (f : Pool → A) : stays (gets f).
Proof using. by intros p Hp. Qed.

Lemma stays_modify (f : Pool → Pool) : (∀ p, inv p → inv (f p)) → stays (modify f).
Proof using. intros Hf p Hp. by apply Hf. Qed.

Lemma stays_when (b : bool) (m : X unit) : stays m → stays (when b m).
Proof using. intros Hm. destruct b; [done|]. by intros p Hp. Qed.

Lemma stays_must {A} (m : X A) : stays m → stays (must m).
Proof using. intros Hm p Hp. specialize (Hm p Hp). unfold must. by destruct (m p) as [p' [a|e|]]. Qed.

Lemma inv_state p s : inv p → st_ok s → inv (updateState s p).
Proof using. intros [? ? ? ? ? ?] Hs. split; try done. by right. Qed.

Lemma inv_range p a b : inv p → inv (set_range a b p).
Proof using. by intros [? ? ? ? ? ?]; split. Qed.

Lemma inv_flags p a b c : inv p → inv (set_flags a b c p).
Proof using. by intros [? ? ? ? ? ?]; split. Qed.

Lemma inv_clear p : inv p → inv (set_buffer [] p).
Proof using. by intros [? ? ? ? ? ?]; split. Qed.

Lemma stays_prune : stays prune.
Proof using key_law codec. eapply holds_stays. intros s _. apply holds_prune. Qed.

Lemma stays_Update svc state evs : svc_ok svc → st_ok state → stays (Update svc state evs).
Proof using key_law codec any_law Hchain.
  intros Hsvc Hst. unfold Update. apply stays_bind; [apply stays_gets|]. intros p0. destruct (closed p0); [by intros p|].
  destruct (_ <=? _)%Z; [by intros p|].
  apply stays_bind; [apply stays_when; eapply holds_stays; intros; apply holds_mark|]. intros _. destruct (_ =? _)%Z.
  - apply stays_bind; [apply stays_when; eapply holds_stays; intros; by apply holds_buffer|]. intros _.
    apply stays_modify. intros p Hp. by apply inv_clear, inv_state.
  - apply stays_bind; [eapply holds_stays; intros; by apply holds_buffer|]. intros _.
    apply stays_bind; [apply stays_modify; intros p Hp; by apply inv_range, inv_state|]. intros _.
    apply stays_bind; [apply stays_gets|]. intros loaded. apply stays_bind.
    { destruct loaded; cbn [negb]; [apply stays_when, stays_prune|]. apply stays_must. eapply holds_stays. intros s _. apply holds_load. }
    intros _. apply stays_bind; [apply stays_gets|]. intros p. apply stays_when, stays_prune.
Qed.

Lemma stays_Start svc state : svc_ok svc → st_ok state → stays (Start svc state).
Proof using key_law codec any_law Hchain.
  intros Hsvc Hst. unfold Start. apply stays_bind; [apply stays_gets|]. intros p0. destruct (closed p0); [by intros p|].
  destruct (isStarted p0); [by intros p|]. apply stays_bind; [apply stays_modify; intros p Hp; by apply inv_state|]. intros _.
  apply stays_bind; [apply stays_gets|]. intros p1. apply stays_bind.
  - apply stays_when, stays_bind; [apply stays_modify; intros p Hp; by apply inv_range|]. intros _.
    eapply holds_stays. intros s _. apply holds_load.
  - intros _. apply stays_modify. intros p Hp. by apply inv_flags.
Qed.

Lemma stays_handle svc work msg :
  svc_ok svc → (∀ ev, EvidenceFromProto msg = Ok ev → received ev) → stays (handleEvidenceMessage svc work msg).
Proof using any_law.
  intros Hsvc Hr. apply (holds_stays _ (λ _, True)). intros s Hst. unfold handleEvidenceMessage.
  apply (holds_bind s _ _ (λ _, True)); [by apply holds_gets|]. intros p _. destruct (negb _); [by apply holds_ret|].
  apply (holds_bind s _ _ (λ _, True)); [by apply holds_lift|]. intros keys _. destruct (negb _); [by apply holds_ret|].
  apply (holds_bind s _ _ received).
  { intros q Hq Hqs. split_and!; [done|done|]. intros ev. cbn. intros E%wrap_err_Ok. by apply Hr. }
  intros ev He. apply (holds_bind s _ _ _ _ (holds_height s ev)). intros h0 _. apply (holds_bind s _ _ (λ _, True)).
  { unfold admitFree. apply (holds_bind s _ _ (λ _, True)); [by apply holds_gets|]. intros q _.
    destruct (negb _); [by apply holds_ret|]. destruct (negb _); [by apply holds_ret|]. destruct (hasIdentity _ _); [by apply holds_ret|].
    apply (holds_bind s _ _ _ _ (holds_height s ev)). intros h _. by apply holds_ret. }
  intros admitted _. destruct (negb _); [by apply holds_ret|]. apply (holds_bind s _ _ (λ _, True)).
  { unfold alreadyHave. apply (holds_bind s _ _ (λ _, True)); [by apply holds_gets|]. intros q _.
    destruct (_ || _); [by apply holds_ret|]. apply (holds_bind s _ _ _ _ (holds_height s ev)). intros h _.
    apply (holds_bind s _ _ _ _ (holds_hash s ev)). intros hash _. apply (holds_bind s _ _ _ _ (holds_has s _)).
    intros [] _; [by apply holds_ret|apply holds_has]. }
  intros [] _; [by apply holds_ret|]. destruct (negb _); [by apply holds_ret|].
  apply (holds_bind s _ _ (λ _, True)); [apply (holds_try s _ (λ _, True)); [by apply holds_AddEvidence|done..]|].
  intros [_|[]] _; first [by apply holds_ret|apply holds_fail].
Qed.

(** ** Runs of the pool *)

(** The operations of a node on its pool, each with any outcome, and restarts with the database
    that is left. *)
Inductive pruns : Pool → Prop :=
  | pr_new d : db_data d = ∅ → pruns (NewPool d)
  | pr_restart p : pruns p → pruns (NewPool (evidenceStore p))
  | pr_start svc state p p' r :
      pruns p → svc_ok svc → st_ok state → Start svc state p = (p', r) → pruns p'
  | pr_message svc work msg p p' r :
      pruns p → svc_ok svc → (∀ ev, EvidenceFromProto msg = Ok ev → received ev) →
      handleEvidenceMessage svc work msg p = (p', r) → pruns p'
  | pr_add svc ev p p' r : pruns p → svc_ok svc → received ev → AddEvidence svc ev p = (p', r) → pruns p'
  | pr_report voteA voteB p : pruns p → genuine (voteA, voteB) → pruns (ReportConflictingVotes voteA voteB p)
  | pr_check svc evs p p' r :
      pruns p → svc_ok svc → Forall received evs → CheckEvidence svc evs p = (p', r) → pruns p'
  | pr_update svc state evs p p' r :
      pruns p → svc_ok svc → st_ok state → Update svc state evs p = (p', r) → pruns p'
  | pr_pending maxBytes p p' r : pruns p → PendingEvidence maxBytes p = (p', r) → pruns p'
  | pr_close p : pruns p → pruns (Close p).

Lemma inv_new d : db_ok (db_data d) → inv (NewPool d).
Proof using. clear. intros Hd. split; cbn; try done; [by rewrite map_size_empty; lia|by left]. Qed.

Lemma pruns_inv p : pruns p → inv p.
Proof using key_law codec any_law Hchain.
  induction 1 as [d E|p _ IH|svc st p p' r _ IH Hs Hst E|svc w msg p p' r _ IH Hs Hr E|svc ev p p' r _ IH Hs Hr E
    |a b p _ IH Hg|svc evs p p' r _ IH Hs Hr E|svc st evs p p' r _ IH Hs Hst E|mb p p' r _ IH E|p _ IH].
  - apply inv_new. by rewrite E.
  - apply inv_new. apply IH.
  - pose proof (stays_Start svc st Hs Hst p IH) as Hp. by rewrite E in Hp.
  - pose proof (stays_handle svc w msg Hs Hr p IH) as Hp. by rewrite E in Hp.
  - pose proof (holds_AddEvidence _ svc ev (iv_state _ IH) Hs Hr p IH eq_refl) as [Hp _]. by rewrite E in Hp.
  - unfold ReportConflictingVotes. destruct (_ || _); [done|]. destruct IH as [? ? ? ? Hb ?]. split; try done.
    cbn. apply Forall_app. split; [done|by apply Forall_singleton].
  - pose proof (holds_CheckEvidence _ svc evs (iv_state _ IH) Hs Hr p IH eq_refl) as [Hp _]. by rewrite E in Hp.
  - pose proof (stays_Update svc st evs Hs Hst p IH) as Hp. by rewrite E in Hp.
  - pose proof (holds_PendingEvidence _ mb p IH eq_refl) as [Hp _]. by rewrite E in Hp.
  - by apply inv_flags.
Qed.

(** C22: whatever is offered to the pool, by peers, in proposed blocks or by consensus, and whatever
    fails in its database, also over restarts, the evidence it gossips and the evidence it offers
    to a proposer verifies against the validators of its height and carries their power and the
    time of that block; and evidence is refused as known only if some evidence with the same
    identity verified with the key of the accused validator, of which at most 1024 are kept. *)
Theorem pool_sound p :
  pruns p →
  Forall proven (evidenceList p) ∧
  (∀ maxBytes evs n, (PendingEvidence maxBytes p).2 = Ok (evs, n) → Forall proven evs) ∧
  (∀ ev, hasIdentity p ev = true → ∃ ev', checked ev' ∧ evidenceIdentity ev' = evidenceIdentity ev) ∧
  size (identities p) ≤ maxTrackedIdentities.
Proof using key_law codec any_law Hchain.
  intros Hp%pruns_inv. split_and!; [apply Hp| | |apply Hp].
  - intros mb evs n E. destruct (holds_PendingEvidence _ mb p Hp eq_refl) as (_ & _ & Hq). exact (Hq _ E).
  - intros ev. unfold hasIdentity, identity_has. destruct (evidenceIdentity ev) as [k|]; [|done].
    intros [h Hk]%bool_decide_eq_true. destruct (iv_ids _ Hp _ _ Hk) as (ev' & Hc & E). by exists ev'.
Qed.

(** ** While the database works *)

Definition works (p : Pool) : Prop := quiet (evidenceStore p).

(** The pool but for the number of operations of its database. *)
Definition norm (p : Pool) : Pool := set_store (mkDB (db_data (evidenceStore p)) 0) p.

(** The computation returns [a] and leaves the pool [q]. *)
Definition gets_to {A} (m : X A) (p : Pool) (a : A) (q : Pool) : Prop :=
  works p → ∃ p', m p = (p', Ok a) ∧ works p' ∧ norm p' = norm q.

Lemma gt_ret {A} (a : A) p : gets_to (mret a) p a p.
Proof using. intros Hw. by exists p. Qed.

Lemma gt_bind {A B} (m : X A) (f : A → X B) p a q b r :
  gets_to m p a q → (∀ p', norm p' = norm q → gets_to (f a) p' b r) → gets_to (m ≫= f) p b r.
Proof using.
  intros Hm Hf Hw. destruct (Hm Hw) as (p1 & E1 & Hw1 & N1). destruct (Hf p1 N1 Hw1) as (p2 & E2 & Hw2 & N2).
  exists p2. split_and!; [|done|done]. unfold mbind, M_bind. by rewrite E1.
Qed.

Lemma gt_norm {A} (m : X A) p a q q' : gets_to m p a q → norm q = norm q' → gets_to m p a q'.
Proof using. intros Hm Hq Hw. destruct (Hm Hw) as (p' & E & Hw' & N). exists p'. split_and!; [done|done|congruence]. Qed.

Lemma gt_lift {A} (o : outcome pool_error A) p a : o = Ok a → gets_to (lift o) p a p.
Proof using. intros -> Hw. by exists p. Qed.

Lemma gt_lift_panic {E A} (o : outcome E A) p a : o = Ok a → gets_to (lift_panic o) p a p.
Proof using. intros -> Hw. by exists p. Qed.

Lemma gt_try {A} (m : X A) p a q : gets_to m p a q → gets_to (try m) p (inl a) q.
Proof using. intros Hm Hw. destruct (Hm Hw) as (p' & E & ? & ?). exists p'. unfold try. by rewrite E. Qed.

Lemma gt_gets {A} (f : Pool → A) p : gets_to (gets f) p (f p) p.
Proof using. intros Hw. by exists p. Qed.

Lemma gt_modify (f : Pool → Pool) p : (∀ p, evidenceStore (f p) = evidenceStore p) → gets_to (modify f) p tt (f p).
Proof using. intros Hf Hw. exists (f p). split_and!; [done| |done]. unfold works. by rewrite Hf. Qed.

(** Pools with the same content. *)
Lemma norm_data p q : norm p = norm q → db_data (evidenceStore p) = db_data (evidenceStore q).
Proof using. intros E. by apply (f_equal (λ p, db_data (evidenceStore p))) in E. Qed.

Lemma norm_set p q d d' :
  norm p = norm q → db_data d = db_data d' → norm (set_store d p) = norm (set_store d' q).
Proof using. intros E Ed. unfold norm in *. destruct p, q. cbn in *. rewrite Ed. injection E. intros. unfold set_store. cbn. congruence. Qed.

Lemma norm_self p d : db_data d = db_data (evidenceStore p) → norm (set_store d p) = norm p.
Proof using. intros E. unfold norm. destruct p. cbn in *. by rewrite E. Qed.

(** An operation on a working database. *)
Lemma gt_op {A} (f : gmap bytes bytes → gmap bytes bytes * A) p :
  gets_to (dbop (op f)) p (f (db_data (evidenceStore p))).2
    (set_store (mkDB (f (db_data (evidenceStore p))).1 0) p).
Proof using.
  intros Hw. unfold dbop, op. pose proof (Hw (db_ops (evidenceStore p)) ltac:(lia)) as ->.
  destruct (f (db_data (evidenceStore p))) as [m a]. cbn [fst snd wrap_err]. eexists. split_and!; [done| |done].
  intros n Hn. apply Hw. cbn in Hn. lia.
Qed.

Lemma gt_has key p :
  key ≠ [] → gets_to (has_key key) p (bool_decide (is_Some (db_data (evidenceStore p) !! key))) p.
Proof using.
  intros Hk. unfold has_key. eapply gt_bind.
  - apply gt_try. unfold Has. rewrite bool_decide_eq_false_2 by done. apply gt_op.
  - intros p' Hp. cbn. eapply gt_norm; [apply gt_ret|]. rewrite Hp. by apply norm_self.
Qed.

Lemma gt_set key v p :
  key ≠ [] →
  gets_to (dbop (Set_ key (Some v))) p tt (set_store (mkDB (<[key := v]> (db_data (evidenceStore p))) 0) p).
Proof using. intros Hk. unfold Set_. rewrite bool_decide_eq_false_2 by done. apply gt_op. Qed.

Lemma hash_key_ne p h s : (0 ≤ p < 64)%Z → orderedcode_hash p h s ≠ [].
Proof using key_law.
  intros Hp E. pose proof (ek_prefix key_law p h s) as Hpre. rewrite E in Hpre.
  destruct (ek_last key_law p Hp) as (a & b & Ek & _). rewrite Ek in Hpre. apply has_prefix_spec in Hpre as [k' Hk]. by destruct a.
Qed.

(** Whether evidence is recorded as pending or as committed. *)
Definition recorded_as (key : outcome evidence_error bytes) (m : gmap bytes bytes) : bool :=
  match key with Ok k => bool_decide (is_Some (m !! k)) | _ => false end.
Definition pend (m : gmap bytes bytes) (ev : DuplicateVoteEvidence) : bool := recorded_as (keyPending ev) m.
Definition comm (m : gmap bytes bytes) (ev : DuplicateVoteEvidence) : bool := recorded_as (keyCommitted ev) m.

Notation data p := (db_data (evidenceStore p)).

(** The keys of evidence of a height and with a hash. *)
Lemma keys_of ev h hash :
  DVE_Height ev = Ok h → DVE_Hash (E := evidence_error) ev = Ok hash →
  keyPending ev = Ok (keyPendingFor h hash) ∧ keyCommitted ev = Ok (keyCommittedFor h hash).
Proof using. clear. intros Eh Es. unfold keyPending, keyCommitted. by rewrite Eh, Es. Qed.

Lemma hash_any {E F} ev hash : DVE_Hash (E := E) ev = Ok hash → DVE_Hash (E := F) ev = Ok hash.
Proof using.
  clear. unfold DVE_Hash, DVE_Bytes. destruct (marshal_DVE _) as [bz|]; cbn; [|done]. by intros [= <-].
Qed.

Lemma gt_isPending ev h hash p :
  DVE_Height ev = Ok h → DVE_Hash (E := evidence_error) ev = Ok hash → gets_to (isPending ev) p (pend (data p) ev) p.
Proof using key_law.
  intros Eh Es. destruct (keys_of ev h hash Eh Es) as [Ek _]. unfold isPending, pend. rewrite Ek.
  eapply gt_bind; [by apply gt_lift_panic|]. intros p1 N1. eapply gt_bind; [by eapply gt_lift, hash_any|]. intros p2 N2.
  cbn [recorded_as]. rewrite <- (norm_data p2 p) by congruence. eapply gt_norm; [apply gt_has, hash_key_ne; unfold prefixPending; lia|congruence].
Qed.

Lemma gt_isCommitted ev h hash p :
  DVE_Height ev = Ok h → DVE_Hash (E := evidence_error) ev = Ok hash → gets_to (isCommitted ev) p (comm (data p) ev) p.
Proof using key_law.
  intros Eh Es. destruct (keys_of ev h hash Eh Es) as [_ Ek]. unfold isCommitted, comm. rewrite Ek.
  eapply gt_bind; [by apply gt_lift_panic|]. intros p1 N1. eapply gt_bind; [by eapply gt_lift, hash_any|]. intros p2 N2.
  cbn [recorded_as]. rewrite <- (norm_data p2 p) by congruence. eapply gt_norm; [apply gt_has, hash_key_ne; unfold prefixCommitted; lia|congruence].
Qed.

(** ** Verifying *)

(** The evidence passes every check of [verify]. *)
Record verifies (svc : Services) (s : State) (ev : DuplicateVoteEvidence) (verified : bool) : Prop := {
  vf_ok : ∃ h m v a i val, DVE_Height ev = Ok h ∧ svc_LoadBlockMeta svc h = Some m ∧
    ((MaxAgeDuration (Params_Evidence (State_Params s)) <? time_Sub (LastBlockTime s) (H_Time (Meta_Header m)))%Z &&
     (MaxAgeNumBlocks (Params_Evidence (State_Params s)) <? int64 (LastBlockHeight s - h))%Z) = false ∧
    svc_LoadValidators svc h = Ok v ∧ VerifyDuplicateVote ev (ChainID s) v = Ok tt ∧ VoteA ev = Some a ∧
    GetByProTxHash (E := pool_error) v (Vote_ValidatorProTxHash a) = Ok (i, val) ∧
    ValidateABCI ev val v (H_Time (Meta_Header m)) = Ok tt ∧ verified = signaturesCheckable val }.

Lemma gt_verify svc ev p verified :
  verifies svc (pool_state p) ev verified → gets_to (verify svc ev) p (ev, inl verified) p.
Proof using.
  intros [(h & m & v & a & i & val & Eh & Em & Eo & Ev & Hv & Ea & Eg & Hab & ->)].
  unfold verify. eapply gt_bind; [apply gt_gets|]. intros p1 N1. cbn [id]. eapply gt_bind; [by apply gt_lift_panic|]. intros p2 N2.
  rewrite Em, Eo, Ev, Hv. eapply gt_bind; [by apply gt_lift; rewrite Ea|]. intros p3 N3.
  eapply gt_bind; [by apply gt_lift|]. intros p4 N4. cbn beta iota. rewrite Hab. eapply gt_norm; [apply gt_ret|congruence].
Qed.

(** It passes only these, and changes nothing then. *)
Lemma verify_inl svc ev p p' ev' verified :
  verify svc ev p = (p', Ok (ev', inl verified)) → p' = p ∧ ev' = ev ∧ verifies svc (pool_state p) ev verified.
Proof using.
  unfold verify. intros E. apply run_bind in E as (p1 & q & E1 & E). apply run_gets in E1 as [-> ->]. cbn [id] in E.
  apply run_bind in E as (p1 & h & E1 & E). apply run_lift_panic in E1 as [-> Eh].
  destruct (svc_LoadBlockMeta svc h) as [m|] eqn:Em; [|by apply run_ret in E as [_ [=]]].
  destruct (_ && _) eqn:Eo; [by apply run_ret in E as [_ [=]]|].
  destruct (svc_LoadValidators svc h) as [v|e|] eqn:Ev; [|by apply run_ret in E as [_ [=]]|done].
  destruct (VerifyDuplicateVote _ _ _) as [[]|e|] eqn:Hv; [|by apply run_ret in E as [_ [=]]|done].
  apply run_bind in E as (p1 & a & E1 & E). apply run_lift in E1 as [-> Ea].
  apply run_bind in E as (p1 & [i val] & E1 & E). apply run_lift in E1 as [-> Eg].
  destruct (ValidateABCI _ _ _ _) as [[]|e|] eqn:Hab; [| |done].
  - apply run_ret in E as [-> [= -> ->]]. split_and!; [done|done|]. split.
    exists h, m, v, a, i, val. split_and!; try done. by destruct (VoteA ev); [injection Ea as ->|].
  - apply run_bind in E as (p1 & ev1 & E1 & E). apply run_bind in E as (p2 & [] & E2 & E). by apply run_ret in E as [_ [=]].
Qed.

(** ** Storing *)

(** Whether the event of new evidence is published. *)
Definition publishes (svc : Services) (ev : DuplicateVoteEvidence) : bool :=
  match svc_Publish svc with None => true | Some publish => publish ev end.

Lemma add_pending_run svc ev k v p :
  keyPending ev = Ok k → k ≠ [] → Evidence_Marshal (EvidenceToProto ev) = Some v → works p →
  ∃ p', addPendingEvidence svc ev p = (p', if publishes svc ev then Ok tt else Err ErrPublish) ∧ works p' ∧
    norm p' = norm (set_size (uint32 (evidenceSize p + 1)) (set_store (mkDB (<[k := v]> (data p)) 0) p)).
Proof using.
  intros Ek Hk Em Hw. unfold addPendingEvidence. rewrite Em, Ek. unfold lift_panic, mbind at 1, M_bind at 1.
  destruct (gt_set k v p Hk Hw) as (p1 & E1 & Hw1 & N1). unfold mbind at 1, M_bind at 1. rewrite E1.
  unfold mbind at 1, M_bind at 1, modify.
  assert (norm (set_size (uint32 (evidenceSize p1 + 1)) p1) =
          norm (set_size (uint32 (evidenceSize p + 1)) (set_store (mkDB (<[k := v]> (data p)) 0) p))) as N2.
  { assert (evidenceSize p1 = evidenceSize p) as -> by by apply (f_equal evidenceSize) in N1.
    apply (f_equal (set_size (uint32 (evidenceSize p + 1)))) in N1. exact N1. }
  unfold publishes. destruct (svc_Publish svc) as [pub|]; [destruct (pub ev)|]; (eexists; split_and!; [done| |exact N2]); done.
Qed.

Lemma add_pending_error svc ev p :
  Evidence_Marshal (EvidenceToProto ev) = None → addPendingEvidence svc ev p = (p, Err ErrPoolMarshal).
Proof using. intros Em. unfold addPendingEvidence. by rewrite Em. Qed.

Lemma remember_run ev verified h p :
  DVE_Height ev = Ok h → ∃ ids, rememberIdentity ev verified p = (set_identities ids p, Ok tt).
Proof using.
  intros Eh. unfold rememberIdentity. destruct verified; cbn [negb].
  - unfold gets, mbind, M_bind, lift, modify. cbn. unfold identity_add. rewrite Eh. cbn.
    destruct (evidenceIdentity ev) as [key|]; [|by eexists]. destruct (identities p !! key); by eexists.
  - exists (identities p). by destruct p.
Qed.

(** Storing verified evidence returns, and adds at most its own record. *)
Lemma store_run svc ev verified h k p :
  DVE_Height ev = Ok h → keyPending ev = Ok k → k ≠ [] → works p →
  ∃ p', (r ← try (addPendingEvidence svc ev);
         match r with inr _ => mret tt | inl _ => rememberIdentity ev verified end) p = (p', Ok tt) ∧
    works p' ∧ pool_state p' = pool_state p ∧ closed p' = closed p ∧
    (data p' = data p ∧ Evidence_Marshal (EvidenceToProto ev) = None ∨ ∃ v, data p' = <[k := v]> (data p)).
Proof using.
  intros Eh Ek Hk Hw. unfold mbind at 1, M_bind at 1, try.
  destruct (Evidence_Marshal (EvidenceToProto ev)) as [v|] eqn:Em.
  - destruct (add_pending_run svc ev k v p Ek Hk Em Hw) as (p1 & E1 & Hw1 & N1). rewrite E1.
    pose proof (norm_data _ _ N1) as Hd. apply (f_equal (λ p, (pool_state p, closed p))) in N1. injection N1 as Hs Hc.
    destruct (publishes svc ev).
    + destruct (remember_run ev verified h p1 Eh) as [ids ->]. eexists. split_and!; [done..|]. right. by exists v.
    + eexists. split_and!; [done..|]. right. by exists v.
  - rewrite add_pending_error by done. exists p. split_and!; try done. by left.
Qed.

(** Records of other evidence. *)
Lemma pend_insert m ev ev' h hash h' hash' v :
  DVE_Height ev = Ok h → DVE_Hash (E := evidence_error) ev = Ok hash → in_int64 h →
  DVE_Height ev' = Ok h' → DVE_Hash (E := evidence_error) ev' = Ok hash' → in_int64 h' →
  (pend (<[keyPendingFor h hash := v]> m) ev' = true → pend m ev' = true ∨ hash' = hash) ∧
  (pend m ev' = true → pend (<[keyPendingFor h hash := v]> m) ev' = true) ∧
  comm (<[keyPendingFor h hash := v]> m) ev' = comm m ev'.
Proof using key_law.
  intros Eh Es Ih Eh' Es' Ih'. destruct (keys_of ev' h' hash' Eh' Es') as [Kp Kc]. unfold pend, comm. rewrite Kp, Kc.
  cbn [recorded_as]. split_and!.
  - intros Hp%bool_decide_eq_true. destruct (decide (keyPendingFor h hash = keyPendingFor h' hash')) as [E|Hne].
    + right. apply (ek_inj key_law) in E as (_ & _ & ->); try done; unfold prefixPending; lia.
    + rewrite lookup_insert_ne in Hp by done. left. by apply bool_decide_eq_true.
  - intros Hp%bool_decide_eq_true. apply bool_decide_eq_true.
    destruct (decide (keyPendingFor h hash = keyPendingFor h' hash')) as [<-|Hne]; [by rewrite lookup_insert_eq|by rewrite lookup_insert_ne].
  - rewrite lookup_insert_ne; [done|]. intros E. apply (ek_inj key_law) in E as (E & _); try done; unfold prefixPending, prefixCommitted; lia.
Qed.

(** ** Evidence in blocks *)

(** Evidence that has a height and a hash. *)
Definition hashed (ev : DuplicateVoteEvidence) (h : Z) (hash : bytes) : Prop :=
  DVE_Height ev = Ok h ∧ in_int64 h ∧ DVE_Hash (E := evidence_error) ev = Ok hash.

(** A block may carry it: it is pending, or not committed and passes the checks. *)
Definition admissible (svc : Services) (s : State) (m : gmap bytes bytes) (ev : DuplicateVoteEvidence) : Prop :=
  pend m ev = true ∨ (comm m ev = false ∧ ∃ verified, verifies svc s ev verified).

Lemma check_one_run svc ev h hash p :
  hashed ev h hash → works p →
  (admissible svc (pool_state p) (data p) ev ∧
   ∃ p', check_one svc ev p = (p', Ok (ev, None)) ∧ works p' ∧ pool_state p' = pool_state p ∧
     (data p' = data p ∨ ∃ v, data p' = <[keyPendingFor h hash := v]> (data p))) ∨
  (¬ admissible svc (pool_state p) (data p) ev ∧ ∀ p' ev', check_one svc ev p ≠ (p', Ok (ev', None))).
Proof using key_law.
  clear codec any_law Hchain. clear time_at vals_at chain. intros (Eh & Ih & Es) Hw. unfold check_one, admissible.
  destruct (gt_isPending ev h hash p Eh Es Hw) as (p1 & E1 & W1 & N1). rewrite (bind_step _ _ _ _ _ E1).
  destruct (pend (data p) ev) eqn:Ep.
  { left. split; [by left|]. exists p1. split_and!; [done|done|by apply (f_equal pool_state) in N1|left; by apply norm_data]. }
  destruct (gt_isCommitted ev h hash p1 Eh Es W1) as (p2 & E2 & W2 & N2). rewrite (bind_step _ _ _ _ _ E2).
  rewrite (norm_data p1 p) by done. destruct (comm (data p) ev) eqn:Ec; [right; split; [naive_solver|by intros p' ev' [=]]|].
  assert (norm p2 = norm p) as N by congruence. pose proof (norm_data _ _ N) as Ed. apply (f_equal pool_state) in N as Est. cbn in Est.
  destruct (verify svc ev p2) as [p3 [[ev3 [verified|e]]|e|]] eqn:Ev.
  2-4: right; split; [intros [[=]|[_ [b Hb]]]; rewrite <- Est in Hb; destruct (gt_verify svc ev p2 b Hb W2) as (? & Ev' & _); congruence|].
  2-4: intros p' ev' E; unfold mbind at 1, M_bind at 1 in E; rewrite Ev in E; discriminate E.
  rewrite (bind_step _ _ _ _ _ Ev). destruct (verify_inl _ _ _ _ _ _ Ev) as (-> & -> & Hv). rewrite Est in Hv.
  left. split; [right; split; [done|by exists verified]|]. erewrite bind_step by done. cbn [id].
  destruct (keys_of ev h hash Eh Es) as [Ek _]. destruct (Enabled p2); cbn [when].
  - destruct (store_run svc ev verified h _ p2 Eh Ek) as (p4 & E4 & W4 & S4 & _ & D4); [apply hash_key_ne; unfold prefixPending; lia|done|].
    rewrite (bind_step _ _ _ _ _ E4). exists p4. split_and!; [done|done|congruence|]. rewrite <- Ed. naive_solver.
  - exists p2. split_and!; [done|done|done|by left].
Qed.

(** The records while a block is checked: those from before, and pending ones with the given
    hashes. *)
Definition extends (m0 : gmap bytes bytes) (hashes : list bytes) (m : gmap bytes bytes) : Prop :=
  ∀ ev h hash, hashed ev h hash →
    (pend m ev = true → pend m0 ev = true ∨ hash ∈ hashes) ∧ (pend m0 ev = true → pend m ev = true) ∧
    comm m ev = comm m0 ev.

Lemma extends_admissible svc s m0 hashes m ev h hash :
  extends m0 hashes m → hashed ev h hash →
  (admissible svc s m0 ev → admissible svc s m ev) ∧
  (admissible svc s m ev → hash ∉ hashes → admissible svc s m0 ev).
Proof using. clear key_law. clear codec any_law Hchain. clear time_at vals_at chain. intros He Hh. destruct (He ev h hash Hh) as (H1' & H2' & H3'). unfold admissible. rewrite H3'. naive_solver. Qed.

Lemma extends_insert m0 hashes m ev h hash v :
  extends m0 hashes m → hashed ev h hash →
  extends m0 (hashes ++ [hash]) m ∧ extends m0 (hashes ++ [hash]) (<[keyPendingFor h hash := v]> m).
Proof using key_law.
  clear codec any_law Hchain. clear time_at vals_at chain. intros He (Eh & Ih & Es). split; intros ev' h' hash' Hh'; destruct (He ev' h' hash' Hh') as (H1' & H2' & H3').
  - split_and!; [|done|done]. intros Hp. destruct (H1' Hp); [by left|right; apply elem_of_app; by left].
  - destruct Hh' as (Eh' & Ih' & Es'). destruct (pend_insert m ev ev' h hash h' hash' v Eh Es Ih Eh' Es' Ih') as (P1 & P2 & P3).
    rewrite P3. split_and!; [|auto|done]. intros [Hp|Hp]%P1; [destruct (H1' Hp); [by left|right; apply elem_of_app; by left]|].
    right. apply elem_of_app. right. subst. by left.
Qed.

Lemma check_loop_run svc m0 evs : ∀ acc hashes p hs,
  works p → Forall2 (λ ev hash, ∃ h, hashed ev h hash) evs hs → extends m0 hashes (data p) →
  let ok := NoDup hs ∧ Forall (λ x, x ∉ hashes) hs ∧ Forall (admissible svc (pool_state p) m0) evs in
  (ok → ∃ p', check_loop svc acc hashes evs p = (p', Ok (acc ++ evs, None)) ∧ works p') ∧
  (∀ p' evs', check_loop svc acc hashes evs p = (p', Ok (evs', None)) → ok).
Proof using key_law.
  clear codec any_law Hchain. clear time_at vals_at chain. induction evs as [|ev evs IH]; intros acc hashes p hs Hw Hhs Hext ok.
  { apply Forall2_nil_inv_l in Hhs as ->. split; [intros _; exists p; by rewrite app_nil_r|]. intros. split_and!; constructor. }
  apply Forall2_cons_inv_l in Hhs as (hash & hs' & [h Hh] & Hhs & ->). cbn [check_loop].
  destruct (extends_admissible svc (pool_state p) m0 hashes (data p) ev h hash Hext Hh) as [A1 A2].
  destruct (check_one_run svc ev h hash p Hh Hw) as [[Ha (p1 & E1 & W1 & S1 & D1)]|[Hna Hne]].
  2: { split; [intros (_ & _ & [Ha _]%Forall_cons); by destruct Hna; apply A1|]. intros p' evs' E.
       apply run_bind in E as (p1 & [ev1 [e|]] & E1 & E); [by apply run_ret in E as [_ [=]]|by destruct (Hne p1 ev1)]. }
  rewrite (bind_step _ _ _ _ _ E1). cbn beta iota. unfold hash_of. rewrite (bind_step _ _ p1 p1 hash) by (unfold lift; by rewrite (hash_any ev hash) by apply Hh).
  destruct (bool_decide (hash ∈ hashes)) eqn:Eb.
  { apply bool_decide_eq_true in Eb. split; [by intros (_ & [? _]%Forall_cons & _)|by intros p' evs' [=]]. }
  apply bool_decide_eq_false in Eb. rewrite <- S1 in *.
  assert (extends m0 (hashes ++ [hash]) (data p1)) as Hext1.
  { destruct D1 as [->|[v ->]]; [exact (proj1 (extends_insert m0 hashes (data p) ev h hash [] Hext Hh))|exact (proj2 (extends_insert m0 hashes (data p) ev h hash v Hext Hh))]. }
  destruct (IH (acc ++ [ev]) (hashes ++ [hash]) p1 hs' W1 Hhs Hext1) as [IH1 IH2].
  assert ((NoDup hs' ∧ Forall (λ x, x ∉ hashes ++ [hash]) hs' ∧ Forall (admissible svc (pool_state p1) m0) evs) ↔ ok) as Hiff.
  { unfold ok. rewrite <- S1, NoDup_cons, !Forall_cons, !Forall_forall. split.
    - intros (Hn & Hf & Ha'). split_and!; try done.
      + intros Hin. by apply (Hf hash Hin), elem_of_app; right; left.
      + intros x Hx Hin. apply (Hf x Hx), elem_of_app. by left.
      + by apply A2.
    - intros ([Hni Hn] & [_ Hf] & [_ Ha']). split_and!; try done.
      intros x Hx [Hin|Hin%list_elem_of_singleton]%elem_of_app; [by apply (Hf x)|by subst]. }
  split; [|by intros p' evs' E; apply Hiff, (IH2 p' evs' E)]. intros Hok. destruct (IH1 (proj2 Hiff Hok)) as (p' & E' & W'). exists p'. split; [|done]. by rewrite E', <- app_assoc.
Qed.

(** C23: while the database works, [CheckEvidence] accepts exactly the lists without duplicates in
    which all evidence is pending, or is not committed and passes every check of [verify] for the
    state of the pool; it then leaves the block as it is. *)
Theorem check_exact svc evs hs p :
  works p → closed p = false → Forall2 (λ ev hash, ∃ h, hashed ev h hash) evs hs →
  NoDup hs ∧ Forall (admissible svc (pool_state p) (data p)) evs ↔
  ∃ p' evs', CheckEvidence svc evs p = (p', Ok (evs', None)).
Proof using key_law.
  clear codec any_law Hchain. clear time_at vals_at chain. intros Hw Hc Hhs. unfold CheckEvidence.
  destruct evs as [|ev evs]; cbn [length Nat.eqb].
  { apply Forall2_nil_inv_l in Hhs as ->. split; [intros _; by exists p, []|]. intros _. split; constructor. }
  rewrite (bind_step _ _ p p p) by done. rewrite Hc.
  destruct (check_loop_run svc (data p) (ev :: evs) [] [] p hs Hw Hhs) as [H1' H2']; [by intros ? ? ? _; split_and!; [left| |]|].
  split.
  - intros [Hn Ha]. destruct H1' as (p' & E & _); [|by eexists _, _]. split_and!; [done| |done]. apply Forall_forall. by intros x _ ?%elem_of_nil.
  - intros (p' & evs' & E). by destruct (H2' p' evs' E) as (? & _ & ?).
Qed.

(** ** Evidence with another power or time *)

Lemma ABCI_wrong ev bad val v t :
  ValidateABCI ev val v t = Ok tt → VoteA bad = VoteA ev → VoteB bad = VoteB ev → bad ≠ ev →
  (∃ e, ValidateABCI bad val v t = Err e) ∧ GenerateABCI bad val v t = Ok ev.
Proof using.
  clear. destruct ev as [a b tp vp ts], bad as [a' b' tp' vp' ts']. unfold ValidateABCI, GenerateABCI. cbn [VoteA VoteB DVE_Timestamp DVE_ValidatorPower DVE_TotalVotingPower].
  intros Hv -> -> Hne. destruct (Z.eqb_spec ts t) as [->|]; [|done]. cbn [negb] in Hv. destruct val as [val|]; [|done].
  unfold mbind, outcome_bind in *. cbn [deref] in *. destruct (Z.eqb_spec (VotingPower val) vp) as [<-|]; [|done]. cbn [negb] in Hv.
  destruct (Z.eqb_spec (TotalVotingPower v) tp) as [<-|]; [|done]. split; [|done].
  destruct (Z.eqb_spec ts' t) as [->|]; [|by eexists]. cbn [negb].
  destruct (Z.eqb_spec (VotingPower val) vp') as [<-|]; [|by eexists]. cbn [negb].
  destruct (Z.eqb_spec (TotalVotingPower v) tp') as [<-|]; [done|by eexists].
Qed.

(** [verify] refuses such evidence, and stores what it should have been. *)
Lemma verify_wrong svc ev bad b h hash v p :
  verifies svc (pool_state p) ev b → VoteA bad = VoteA ev → VoteB bad = VoteB ev → bad ≠ ev →
  hashed ev h hash → Evidence_Marshal (EvidenceToProto ev) = Some v → Enabled p = true → works p →
  ∃ p' e, verify svc bad p = (p', Ok (ev, inr (ErrPoolABCI e))) ∧ works p' ∧ closed p' = closed p ∧
    ∃ v, data p' = <[keyPendingFor h hash := v]> (data p).
Proof using key_law.
  clear codec any_law Hchain. clear time_at vals_at chain.
  intros [(h' & m & vs & a & i & val & Eh & Em & Eo & Ev & Hv & Ea & Eg & Hab & ->)] HA HB Hne (Eh' & Ih & Es) Hm He Hw.
  assert (h' = h) as -> by congruence. destruct (ABCI_wrong ev bad val vs _ Hab HA HB Hne) as [[e Habb] Hgen].
  assert (DVE_Height bad = Ok h) as Ehb by (unfold DVE_Height in *; by rewrite HA).
  assert (VerifyDuplicateVote bad (ChainID (pool_state p)) vs = Ok tt) as Hvb by (rewrite <- Hv; unfold VerifyDuplicateVote; by rewrite HA, HB).
  unfold verify. rewrite (bind_step _ _ p p p) by done. unfold height_of. rewrite (bind_step _ _ p p h) by (unfold lift_panic; by rewrite Ehb).
  rewrite Em, Eo, Ev, Hvb, HA, Ea. rewrite (bind_step _ _ p p a) by done. rewrite (bind_step _ _ p p (i, val)) by (unfold lift; by rewrite Eg).
  cbn beta iota. rewrite Habb. rewrite (bind_step _ _ p p ev) by (unfold lift_panic; by rewrite Hgen). rewrite He. cbn [when].
  destruct (keys_of ev h hash Eh' Es) as [Ek _].
  destruct (store_run svc ev (signaturesCheckable val) h _ p Eh' Ek) as (p4 & E4 & W4 & S4 & C4 & D4); [apply hash_key_ne; unfold prefixPending; lia|done|].
  rewrite (bind_step _ _ _ _ _ E4). exists p4, e. split_and!; [done|done|done|]. destruct D4 as [[_ Hn]|D4]; [congruence|done].
Qed.

(** C25: evidence that was committed can get into a block again: a block with a copy of it that has
    another power or time is refused, but [verify] stores the right evidence as pending without
    asking whether it is committed, and pending evidence passes [CheckEvidence], which refused it
    before. *)
Theorem recommitted svc ev bad b h hash h' hash' v p :
  works p → closed p = false → Enabled p = true → hashed ev h hash → Evidence_Marshal (EvidenceToProto ev) = Some v →
  comm (data p) ev = true → pend (data p) ev = false → verifies svc (pool_state p) ev b →
  VoteA bad = VoteA ev → VoteB bad = VoteB ev → bad ≠ ev → hashed bad h' hash' →
  comm (data p) bad = false → pend (data p) bad = false →
  (∃ p', CheckEvidence svc [ev] p = (p', Ok ([ev], Some (ErrInvalidEvidence AlreadyCommitted)))) ∧
  ∃ p1 p2 e, CheckEvidence svc [bad] p = (p1, Ok ([ev], Some (ErrPoolABCI e))) ∧
             comm (data p1) ev = true ∧ CheckEvidence svc [ev] p1 = (p2, Ok ([ev], None)).
Proof using key_law.
  clear codec any_law Hchain. clear time_at vals_at chain.
  intros Hw Hcl He Hh Hm Hc Hp Hv HA HB Hne (Ehb & Ihb & Esb) Hcb Hpb. pose proof Hh as (Eh & Ih & Es).
  unfold CheckEvidence. cbn [length Nat.eqb check_loop]. unfold check_one. split.
  - rewrite (bind_step _ _ p p p) by done. rewrite Hcl.
    destruct (gt_isPending ev h hash p Eh Es Hw) as (p1 & E1 & W1 & N1). rewrite Hp in E1.
    destruct (gt_isCommitted ev h hash p1 Eh Es W1) as (p2 & E2 & W2 & N2). rewrite (norm_data p1 p), Hc in E2 by done.
    exists p2. erewrite bind_step; [|rewrite (bind_step _ _ _ _ _ E1), (bind_step _ _ _ _ _ E2); done]. done.
  - destruct (gt_isPending bad h' hash' p Ehb Esb Hw) as (p1 & E1 & W1 & N1). rewrite Hpb in E1.
    destruct (gt_isCommitted bad h' hash' p1 Ehb Esb W1) as (p2 & E2 & W2 & N2). rewrite (norm_data p1 p), Hcb in E2 by done.
    assert (norm p2 = norm p) as N by congruence. pose proof (norm_data _ _ N) as Ed.
    assert (pool_state p2 = pool_state p) as Est by by apply (f_equal pool_state) in N.
    assert (closed p2 = closed p) as Ecl by by apply (f_equal closed) in N.
    destruct (verify_wrong svc ev bad b h hash v p2) as (p3 & e & E3 & W3 & C3 & v' & D3); try done; [by rewrite Est|by unfold Enabled; rewrite Est|].
    destruct (pend_insert (data p2) ev ev h hash h hash v' Eh Es Ih Eh Es Ih) as (_ & _ & Pc). rewrite Ed in D3, Pc.
    destruct (keys_of ev h hash Eh Es) as [Ek _].
    assert (pend (data p3) ev = true) as Hp3 by (unfold pend; rewrite Ek, D3; cbn [recorded_as]; rewrite lookup_insert_eq; by apply bool_decide_eq_true).
    destruct (gt_isPending ev h hash p3 Eh Es W3) as (p4 & E4 & W4 & N4). rewrite Hp3 in E4.
    exists p3, p4, e. split_and!.
    + rewrite (bind_step _ _ p p p) by done. rewrite Hcl.
      erewrite bind_step; [|rewrite (bind_step _ _ _ _ _ E1), (bind_step _ _ _ _ _ E2), (bind_step _ _ _ _ _ E3); done]. done.
    + rewrite D3. congruence.
    + rewrite (bind_step _ _ p3 p3 p3) by done. rewrite C3, Ecl, Hcl.
      erewrite bind_step; [|rewrite (bind_step _ _ _ _ _ E4); done]. cbn beta iota. unfold hash_of.
      rewrite (bind_step _ _ p4 p4 hash) by (unfold lift; by rewrite (hash_any (E := evidence_error) ev hash)). done.
Qed.

(** ** Committing *)

(** The height and hash of evidence name its records. *)
Definition named (ev : DuplicateVoteEvidence) (k : Z * bytes) : Prop := hashed ev k.1 k.2.
Definition pending_at (m : gmap bytes bytes) (k : Z * bytes) : bool := bool_decide (is_Some (m !! keyPendingFor k.1 k.2)).
Definition commit_all (v : bytes) (m : gmap bytes bytes) (ks : list (Z * bytes)) : gmap bytes bytes :=
  foldl (λ m k, <[keyCommittedFor k.1 k.2 := v]> m) m ks.

Lemma named_recorded m ev k :
  named ev k → pend m ev = pending_at m k ∧ comm m ev = bool_decide (is_Some (m !! keyCommittedFor k.1 k.2)).
Proof using. clear. intros (Eh & _ & Es). destruct (keys_of ev k.1 k.2 Eh Es) as [Kp Kc]. unfold pend, comm. by rewrite Kp, Kc. Qed.

Lemma key_eq k k' :
  in_int64 k.1 → in_int64 k'.1 →
  (keyPendingFor k.1 k.2 = keyPendingFor k'.1 k'.2 ↔ k = k') ∧ (keyCommittedFor k.1 k.2 = keyCommittedFor k'.1 k'.2 ↔ k = k') ∧
  keyPendingFor k.1 k.2 ≠ keyCommittedFor k'.1 k'.2.
Proof using key_law.
  clear codec any_law Hchain. clear time_at vals_at chain. destruct k as [h s], k' as [h' s']. cbn [fst snd]. intros Ih Ih'.
  pose proof (ek_inj key_law prefixPending h s prefixPending h' s') as Hp. pose proof (ek_inj key_law prefixCommitted h s prefixCommitted h' s') as Hc.
  pose proof (ek_inj key_law prefixPending h s prefixCommitted h' s') as Hpc. unfold prefixPending, prefixCommitted, keyPendingFor, keyCommittedFor in *.
  split_and!; [split; [|by intros [= -> ->]]|split; [|by intros [= -> ->]]|].
  - intros E. apply Hp in E as (_ & -> & ->); [done|lia|lia|done|done].
  - intros E. apply Hc in E as (_ & -> & ->); [done|lia|lia|done|done].
  - intros E. apply Hpc in E as (E & _); [lia|lia|lia|done|done].
Qed.

Lemma commit_all_lookup v ks : ∀ m k,
  in_int64 k.1 → Forall (λ k, in_int64 k.1) ks →
  pending_at (commit_all v m ks) k = pending_at m k ∧
  (is_Some (commit_all v m ks !! keyCommittedFor k.1 k.2) ↔ is_Some (m !! keyCommittedFor k.1 k.2) ∨ k ∈ ks).
Proof using key_law.
  clear codec any_law Hchain. clear time_at vals_at chain. induction ks as [|k0 ks IH]; intros m k Ik Iks; cbn [commit_all foldl].
  { split; [done|]. rewrite elem_of_nil. tauto. }
  apply Forall_cons in Iks as [Ik0 Iks]. destruct (IH (<[keyCommittedFor k0.1 k0.2:=v]> m) k Ik Iks) as [E1 E2]. unfold commit_all in E1, E2. rewrite E1, E2.
  destruct (key_eq k k0 Ik Ik0) as (_ & Kc & Kpc). unfold pending_at. rewrite lookup_insert_ne by done. split; [done|].
  rewrite elem_of_cons. destruct (decide (k = k0)) as [->|Hne]; [rewrite lookup_insert_eq; naive_solver|].
  rewrite lookup_insert_ne by (intros E; by apply Hne, Kc). tauto.
Qed.

(** Deleting pending records. *)
Definition delete_ops (ks : list (Z * bytes)) : list operation := map (λ k, opDelete (keyPendingFor k.1 k.2)) ks.

Lemma delete_all_lookup ks : ∀ m k,
  in_int64 k.1 → Forall (λ k, in_int64 k.1) ks →
  (is_Some (foldl apply_op m (delete_ops ks) !! keyPendingFor k.1 k.2) ↔ is_Some (m !! keyPendingFor k.1 k.2) ∧ k ∉ ks) ∧
  foldl apply_op m (delete_ops ks) !! keyCommittedFor k.1 k.2 = m !! keyCommittedFor k.1 k.2.
Proof using key_law.
  clear codec any_law Hchain. clear time_at vals_at chain. induction ks as [|k0 ks IH]; intros m k Ik Iks; cbn [delete_ops map foldl apply_op].
  { split; [|done]. rewrite elem_of_nil. tauto. }
  apply Forall_cons in Iks as [Ik0 Iks]. destruct (IH (delete (keyPendingFor k0.1 k0.2) m) k Ik Iks) as [E1 E2]. unfold delete_ops in E1, E2. rewrite E1, E2.
  destruct (key_eq k k0 Ik Ik0) as (Kp & _ & _). destruct (key_eq k0 k Ik0 Ik) as (_ & _ & Kpc).
  rewrite (lookup_delete_ne m _ _ Kpc). split; [|done].
  rewrite not_elem_of_cons. destruct (decide (k = k0)) as [->|Hne]; [rewrite lookup_delete_eq; split; [by intros [[? [=]] _]|tauto]|].
  rewrite lookup_delete_ne by (intros E; apply Hne; symmetry; apply (proj1 (key_eq k0 k Ik0 Ik)); done). tauto.
Qed.

(** Pools that differ in the database alone. *)
Lemma norm_drop p q d : norm p = norm (set_store d q) → ∀ d', norm (set_store d' p) = norm (set_store d' q).
Proof using. clear. intros E d'. unfold norm in *. destruct p, q. cbn in *. injection E. intros. unfold set_store. cbn. congruence. Qed.

Lemma gt_ignore {A} (m : X A) p a q : gets_to m p a q → gets_to (ignore m) p tt q.
Proof using. intros Hm. unfold ignore. eapply gt_bind; [by apply gt_try|]. intros p' N. eapply gt_norm; [apply gt_ret|done]. Qed.

Lemma named_int64 evs ks : Forall2 named evs ks → Forall (λ k, in_int64 k.1) ks.
Proof using. clear. induction 1 as [|ev k evs ks Hk _ IH]; constructor; [apply Hk|done]. Qed.

(** Records of commits do not change which evidence is pending. *)
Lemma filter_pending m m' ks :
  Forall (λ k, pending_at m' k = pending_at m k) ks →
  filter (λ k, pending_at m' k = true) ks = filter (λ k, pending_at m k = true) ks.
Proof using.
  clear. induction 1 as [|k ks Hk _ IH]; [done|]. rewrite !filter_cons, Hk, IH. done.
Qed.

Lemma filter_one m k ks :
  filter (λ k, pending_at m k = true) (k :: ks) =
  (if pending_at m k then [k] else []) ++ filter (λ k, pending_at m k = true) ks.
Proof using. clear. rewrite filter_cons. destruct (pending_at m k); done. Qed.

Lemma mark_loop_run height evs : ∀ ks ops set p,
  Forall2 named evs ks →
  let v := marshal_Int64Value height in
  let pks := filter (λ k, pending_at (data p) k = true) ks in
  gets_to (mark_loop height evs (Some ops) set) p (Some (ops ++ delete_ops pks), list_to_set (pks.*2) ∪ set)
    (set_store (mkDB (commit_all v (data p) ks) 0) p).
Proof using key_law.
  clear codec any_law Hchain. clear time_at vals_at chain.
  induction evs as [|ev evs IH]; intros ks ops set p Hks v pks.
  { apply Forall2_nil_inv_l in Hks as ->. cbn. rewrite app_nil_r, union_empty_l_L. eapply gt_norm; [apply gt_ret|]. symmetry. by apply norm_self. }
  apply Forall2_cons_inv_l in Hks as (k & ks' & Hk & Hks & ->). pose proof Hk as (Eh & Ih & Es). destruct (keys_of ev k.1 k.2 Eh Es) as [Kp Kc].
  cbn [mark_loop]. eapply gt_bind; [by apply (gt_isPending ev k.1 k.2)|]. intros p1 N1. rewrite (proj1 (named_recorded (data p) ev k Hk)).
  eapply (gt_bind _ _ _ (Some (ops ++ delete_ops (if pending_at (data p) k then [k] else [])), list_to_set ((if pending_at (data p) k then [k] else []).*2) ∪ set) p).
  { destruct (pending_at (data p) k) eqn:Ep.
    - eapply gt_bind; [by apply gt_lift_panic|]. intros p2 N2. eapply gt_bind; [by eapply gt_lift, hash_any|]. intros p3 N3.
      unfold batch_Delete. rewrite bool_decide_eq_false_2 by (apply hash_key_ne; unfold prefixPending; lia). cbn.
      rewrite union_empty_r_L. eapply gt_norm; [apply gt_ret|congruence].
    - cbn. rewrite app_nil_r, union_empty_l_L. eapply gt_norm; [apply gt_ret|congruence]. }
  intros p2 N2. cbn beta iota. eapply gt_bind; [by apply gt_lift_panic|]. intros p3 N3.
  eapply gt_bind; [eapply gt_ignore, gt_set, hash_key_ne; unfold prefixCommitted; lia|]. intros p4 N4.
  assert (norm p3 = norm p) as N by congruence. pose proof (norm_data _ _ N) as Ed. pose proof (norm_data _ _ N4) as Ed4. cbn [evidenceStore set_store db_data] in Ed4.
  rewrite Ed in Ed4. pose proof (IH ks' (ops ++ delete_ops (if pending_at (data p) k then [k] else [])) (list_to_set ((if pending_at (data p) k then [k] else []).*2) ∪ set) p4 Hks) as IHp.
  cbv zeta in IHp. rewrite Ed4, (filter_pending (data p)) in IHp.
  2: { apply Forall_forall. intros k' Hk'. pose proof (named_int64 _ _ Hks) as Hi. rewrite Forall_forall in Hi.
       apply (commit_all_lookup v [k] (data p) k'); [by apply Hi|by apply Forall_singleton]. }
  unfold pks. rewrite filter_one. unfold delete_ops in *. rewrite map_app, app_assoc, fmap_app, list_to_set_app_L.
  rewrite (union_comm_L (list_to_set _) (list_to_set _)), <- union_assoc_L. eapply gt_norm; [exact IHp|].
  rewrite (norm_drop p4 p3 _ N4). by apply norm_set.
Qed.

Lemma filter_hashes_run set l :
  Forall (λ ev, ∃ hash, DVE_Hash (E := pool_error) ev = Ok hash) l →
  ∃ l', filter_hashes set l = Ok l' ∧
    ∀ ev hash, DVE_Hash (E := pool_error) ev = Ok hash → ev ∈ l' ↔ ev ∈ l ∧ hash ∉ set.
Proof using.
  clear. induction 1 as [|ev0 l [h0 E0] _ (l' & IHl & IH)]; cbn [filter_hashes].
  { exists []. split; [done|]. intros ev hash _. rewrite elem_of_nil. tauto. }
  rewrite E0, IHl. cbn. eexists. split; [done|]. intros ev hash E. rewrite (elem_of_cons l), bool_decide_decide.
  destruct (decide (h0 ∈ set)) as [Hin|Hni].
  - rewrite (IH ev hash E). split; [tauto|]. intros [[->|?] Hn]; [|tauto]. congruence.
  - rewrite elem_of_cons, (IH ev hash E). split; [|tauto]. intros [->|?]; [|tauto]. split; [by left|]. congruence.
Qed.

(** The records that are left. *)
Lemma commit_records v m ks ev k :
  named ev k → Forall (λ k, in_int64 k.1) ks →
  let m' := foldl apply_op (commit_all v m ks) (delete_ops (filter (λ k, pending_at m k = true) ks)) in
  (comm m' ev = true ↔ comm m ev = true ∨ k ∈ ks) ∧ (pend m' ev = true ↔ pend m ev = true ∧ k ∉ ks).
Proof using key_law.
  clear codec any_law Hchain. clear time_at vals_at chain. intros Hk Hi m'. pose proof Hk as (_ & Ik & _).
  set (pks := filter (λ k, pending_at m k = true) ks) in *.
  assert (∀ k, k ∈ pks ↔ pending_at m k = true ∧ k ∈ ks) as Hpks by (intros k'; unfold pks; by rewrite list_elem_of_filter).
  assert (Forall (λ k, in_int64 k.1) pks) as Hip.
  { apply Forall_forall. intros k' [_ Hk']%Hpks. by apply (proj1 (Forall_forall _ _) Hi). }
  destruct (commit_all_lookup v ks m k Ik Hi) as [C1 C2]. destruct (delete_all_lookup pks (commit_all v m ks) k Ik Hip) as [D1 D2].
  destruct (named_recorded m' ev k Hk) as [-> ->], (named_recorded m ev k Hk) as [-> ->].
  unfold m'. rewrite D2, !bool_decide_eq_true, C2. split; [done|]. unfold pending_at at 1. rewrite bool_decide_eq_true, D1, Hpks.
  unfold pending_at in *. rewrite bool_decide_eq_true in *. rewrite <- (bool_decide_eq_true (is_Some (m !! _))), <- C1, bool_decide_eq_true. tauto.
Qed.

(** C24: while the database works, marking the evidence of a block as committed turns exactly
    the records of that evidence from pending into committed, also of evidence that was not
    pending here, keeps the records of all other evidence, and takes what was pending out of
    the list that is gossiped. *)
Theorem commit_exact evs ks height p :
  works p → Forall2 named evs ks → Forall (λ ev, ∃ hash, DVE_Hash (E := pool_error) ev = Ok hash) (evidenceList p) →
  ∃ p', markEvidenceAsCommitted evs height p = (p', Ok tt) ∧ works p' ∧
    ∀ ev k, named ev k →
      (comm (data p') ev = true ↔ comm (data p) ev = true ∨ k ∈ ks) ∧
      (pend (data p') ev = true ↔ pend (data p) ev = true ∧ k ∉ ks) ∧
      (ev ∈ evidenceList p' ↔ ev ∈ evidenceList p ∧ ¬ ∃ k', k' ∈ ks ∧ k'.2 = k.2 ∧ pending_at (data p) k' = true).
Proof using key_law.
  clear codec any_law Hchain. clear time_at vals_at chain. intros Hw Hks Hl. pose proof (named_int64 _ _ Hks) as Hi.
  destruct (mark_loop_run height evs ks [] ∅ p Hks Hw) as (p1 & E1 & W1 & N1). unfold markEvidenceAsCommitted, NewBatch.
  pose proof (commit_records (marshal_Int64Value height) (data p) ks) as Hrec. set (pks := filter _ ks) in *.
  assert (∀ k, k ∈ pks ↔ pending_at (data p) k = true ∧ k ∈ ks) as Hpks by (intros k; unfold pks; by rewrite list_elem_of_filter).
  rewrite app_nil_l, union_empty_r_L in E1. rewrite (bind_step _ _ _ _ _ E1). cbn beta iota.
  pose proof (norm_data _ _ N1) as D1. cbn [evidenceStore set_store db_data] in D1.
  assert (evidenceList p1 = evidenceList p) as L1 by (by apply (f_equal evidenceList) in N1).
  assert (∀ k : Z * bytes, k.2 ∈@{gset bytes} list_to_set (pks.*2) ↔ ∃ k', k' ∈ ks ∧ k'.2 = k.2 ∧ pending_at (data p) k' = true) as Hset.
  { intros k. rewrite elem_of_list_to_set, list_elem_of_fmap. split.
    - intros (k' & E & [? ?]%Hpks). by exists k'.
    - intros (k' & ? & E & ?). exists k'. split; [done|]. by apply Hpks. }
  destruct (size _ =? 0) eqn:Ez.
  - apply Nat.eqb_eq, size_empty_inv in Ez. exists p1. split_and!; [done|done|]. intros ev k Hk.
    assert (pks = []) as Ep.
    { destruct pks as [|k' pks']; [done|]. exfalso. assert (k'.2 ∈@{gset bytes} list_to_set ((k' :: pks').*2)) by (cbn; set_solver). set_solver. }
    destruct (Hrec ev k Hk Hi) as [Hc Hp]. rewrite Ep in Hc, Hp. rewrite D1, L1. split_and!; [done|done|]. rewrite <- Hset, Ep. cbn. set_solver.
  - destruct (gt_op (λ m, (foldl apply_op m (delete_ops pks), tt)) p1 W1) as (p2 & E2 & W2 & N2). cbn [fst snd] in *.
    rewrite (bind_step _ _ p1 p2 (inl tt)) by (unfold try, batch_Write; by rewrite E2).
    pose proof (norm_data _ _ N2) as D2. cbn [evidenceStore set_store db_data] in D2. rewrite D1 in D2.
    assert (evidenceList p2 = evidenceList p) as L2 by (apply (f_equal evidenceList) in N2; cbn in N2; congruence).
    destruct (filter_hashes_run (list_to_set (pks.*2)) (evidenceList p) Hl) as (l' & El & Hl').
    unfold removeEvidenceFromList. rewrite (bind_step _ _ p2 (set_list l' p2) tt).
    2: { rewrite (bind_step _ _ p2 p2 (evidenceList p2)) by done. rewrite L2, (bind_step _ _ p2 p2 l'); [done|]. unfold lift. by rewrite El. }
    eexists. split_and!; [done|done|]. intros ev k Hk. cbn. destruct (Hrec ev k Hk Hi) as [Hc Hp]. rewrite D2. split_and!; [done|done|].
    rewrite <- Hset. apply Hl'. apply (hash_any (E := evidence_error)), Hk.
Qed.

End thms.

End epthms.
