(* ===== verification/EvPoolDemo.v ===== *)
(** * internal/evidence: a pool that is run

    Keys and messages that satisfy the laws of the evidence pool, and a run in which evidence of
    a double vote is received, committed, and committed again. *)
From Stdlib Require Import ZArith Lia Init.Byte.
From stdpp Require Import base numbers list sets gmap fin_maps countable.
From S2P Require Import Prelude.
From S2P Require Import StateM.
From S2P Require Import DB.
From S2P Require Import Merkle.
From S2P Require Import PartSet.
From S2P Require Import Wire.
From S2P Require Import Types.
From S2P Require Import Crypto.
From S2P Require Import QuorumSign.
From S2P Require Import Proposal.
From S2P Require Import ValidatorSet.
From S2P Require Import Evidence.
From S2P Require Import Block.
From S2P Require Import Params.
From S2P Require Import SmState.
From S2P Require Import Execution.
From S2P Require Import ExecutionDemo.
From S2P Require Import SelectProposer.
From S2P Require Import StateStore.
From S2P Require Import StateStoreThms.
From S2P Require Import StateStoreDemo.
From S2P Require Import BlockStore.
From S2P Require Import BlockStoreDemo.
From S2P Require Import Mempool.
From S2P Require Import MempoolDemo.
From S2P Require Import EvPool.
From S2P Require Import EvPoolThms.

Import statem db partset types crypto quorum proposal valset evidence block params sm selectproposer.
Import execdemo storethms storedemo evpool epthms.

Module epdemo.

(** ** Keys *)

#[local] Existing Instance toy_orderedcode.
#[local] Instance toy_evkeys : EvidenceKeys := {| orderedcode_hash := λ p h s, code_items [p; h] ++ s |}.

Definition code (x : Z) : bytes := big_endian 8 (x + 2 ^ 63).

Lemma code_compare x y a b :
  in_int64 x → in_int64 y →
  bytes_compare (code x ++ a) (code y ++ b) = match (x ?= y)%Z with Eq => bytes_compare a b | c => c end.
Proof.
  intros Hx Hy. unfold code. unfold_ints. rewrite big_endian_compare by (change (256 ^ Z.of_nat 8)%Z with (2 ^ 64)%Z; lia).
  destruct (Z.compare_spec x y), (Z.compare_spec (x + 2 ^ 63) (y + 2 ^ 63)); done || lia.
Qed.

Lemma hash_code p h s : orderedcode_hash p h s = code p ++ code h ++ s.
Proof.
  change (orderedcode_hash p h s) with ((code p ++ code h ++ []) ++ s). by rewrite app_nil_r, <- app_assoc.
Qed.

Lemma prefix_code p : orderedcode [p] = code p.
Proof. change (orderedcode [p]) with (code p ++ []). apply app_nil_r. Qed.

Lemma code_eq x y a b : in_int64 x → in_int64 y → code x ++ a = code y ++ b → x = y ∧ a = b.
Proof.
  intros Hx Hy E. pose proof (code_compare x y a b Hx Hy) as Hc. rewrite E, (proj2 (bytes_compare_eq _ _) eq_refl) in Hc.
  destruct (Z.compare_spec x y) as [->| |]; [|done|done]. split; [done|]. by apply app_inv_head in E.
Qed.

(** No prefix below 64 has a last byte of 255. *)
Definition last_fits (n : nat) : bool :=
  match list.last (orderedcode [Z.of_nat n]) with Some b => negb (bool_decide (b = xff)) | None => false end.

Lemma all_fit : forallb last_fits (seq 0 64) = true.
Proof. vm_compute. reflexivity. Qed.

Lemma toy_evkeys_law : evkeys_law.
Proof.
  assert (∀ p, (0 ≤ p < 64)%Z → in_int64 p) as Hsmall by (intros p Hp; unfold_ints; lia).
  split.
  - intros p h s p' h' s' Hp Hp' Hh Hh'. rewrite !hash_code. intros E. apply code_eq in E as [-> E]; [|auto..].
    apply code_eq in E as [-> ->]; done.
  - intros p h s. rewrite hash_code, prefix_code. apply has_prefix_app.
  - intros p q h s Hp Hq. rewrite hash_code, prefix_code. intros [k E]%has_prefix_spec. apply code_eq in E as [-> _]; auto.
  - intros p Hp. pose proof (proj1 (forallb_forall _ _) all_fit (Z.to_nat p) ltac:(apply in_seq; lia)) as Hl. unfold last_fits in Hl.
    rewrite Z2Nat.id in Hl by lia. destruct (list.last _) as [b|] eqn:El; [|done]. apply last_Some in El as [a Ea].
    exists a, b. split; [done|]. by destruct (bool_decide_reflect (b = xff)).
  - intros p h s h' s' Hp Hh Hh' Hlt. rewrite !hash_code, code_compare, Z.compare_refl, code_compare by auto.
    by rewrite (proj2 (Z.compare_lt_iff _ _) Hlt).
Qed.

(** ** Messages *)

#[local] Existing Instances PartSetHeader_countable BlockID_countable bsdemo.VoteExtension_countable.
#[local] Instance ProtoVote_eq_dec : EqDecision ProtoVote. Proof. solve_decision. Defined.
#[local] Instance ProtoDVE_eq_dec : EqDecision ProtoDVE. Proof. solve_decision. Defined.
#[local] Instance ProtoVote_countable : Countable ProtoVote.
Proof.
  apply (inj_countable' (λ v, (PV_Type v, PV_Height v, PV_Round v, PV_BlockID v, PV_ValidatorProTxHash v,
             PV_ValidatorIndex v, PV_BlockSignature v, PV_VoteExtensions v))
           (λ '(a, b, c, d, e, f, g, h), mkPV a b c d e f g h)). records.
Defined.
#[local] Instance ProtoDVE_countable : Countable ProtoDVE.
Proof.
  apply (inj_countable' (λ e, (PDVE_VoteA e, PDVE_VoteB e, PDVE_TotalVotingPower e, PDVE_ValidatorPower e,
             PDVE_Timestamp e)) (λ '(a, b, c, d, e), mkPDVE a b c d e)). records.
Defined.

#[local] Instance toy_evcodec : EvidenceCodec := {|
  Evidence_Marshal := λ m, Some (@marshal (option ProtoDVE) _ _ m);
  Evidence_Unmarshal := @unmarshal (option ProtoDVE) _ _ |}.

Lemma toy_evcodec_law : evidence_codec_law.
Proof. intros m bz [= <-]. apply marshal_roundtrip. Qed.

(** ** A chain with a double vote at height 5 *)

#[local] Existing Instance toy_crypto.
#[local] Existing Instance toy_dashd.
#[local] Existing Instance toy_time.
#[local] Existing Instance toy_faults.
#[local] Existing Instance mpdemo.in_order.

Definition vals : ValidatorSet := demo_valset [x07; x08; x09].
Definition vals_at (h : Z) : ValidatorSet := vals.
Definition time_at (h : Z) : Z := (72 + h)%Z.

Definition header_at (h : Z) : block.Header :=
  mkHeader (mkVersion 0 0) [x61] h 0 (time_at h) nilBlockID None None [] [] [] [] [] [] None [] 0.

Definition services (top : Z) : Services :=
  mkServices 1 top
    (λ h, if (1 <=? h)%Z && (h <=? top)%Z then Some (mkBlockMeta nilBlockID 0 (header_at h) 0 0 false) else None)
    (λ h, if (1 <=? h)%Z && (h <=? top)%Z then Ok vals else Err tt) None.

Definition state_at (h : Z) : State :=
  mkState (State_Version zeroState) [x61] 1 h 0 nilBlockID (time_at h) 0 (Some vals) (Some vals) 1
    DefaultConsensusParams 1 [] [].

Lemma evidence_chain : chain_ok vals_at.
Proof. split; intros h; [apply (bool_decide_unpack _); vm_compute; exact I|vm_compute; discriminate]. Qed.

Lemma services_ok top : svc_ok vals_at time_at (services top).
Proof.
  split; intros h x; cbn; destruct (_ && _); intros E; try discriminate E; injection E as <-; [reflexivity|].
  exists (valset.proposerIndex vals). reflexivity.
Qed.

Lemma state_at_ok h : st_ok [x61] vals_at time_at (state_at h).
Proof.
  split; [reflexivity|reflexivity|]. intros v [= <-]. exists (valset.proposerIndex vals). reflexivity.
Qed.

(** ** The run *)

Definition started : Pool := (Start (services 6) (state_at 6) (NewPool db0)).1.
Definition added : Pool := (AddEvidence (services 6) demo_evidence started).1.
Definition updated : Pool := (Update (services 7) (state_at 7) [demo_evidence] added).1.

(** A copy with another time. *)
Definition bad_time : DuplicateVoteEvidence := mkDVE (VoteA demo_evidence) (VoteB demo_evidence) 300 100 78.

Definition hash_or_nil (ev : DuplicateVoteEvidence) : bytes :=
  match DVE_Hash (E := evidence_error) ev with Ok hash => hash | _ => [] end.

Lemma demo_hashed ev : ev ∈ [demo_evidence; bad_time] → hashed ev 5 (hash_or_nil ev).
Proof.
  intros Hev. split_and!; [|by unfold_ints; lia|].
  - repeat (apply elem_of_cons in Hev as [->|Hev]; [vm_compute; reflexivity|]). by apply elem_of_nil in Hev.
  - repeat (apply elem_of_cons in Hev as [->|Hev]; [vm_compute; reflexivity|]). by apply elem_of_nil in Hev.
Qed.

Lemma demo_received : received demo_evidence.
Proof. split; [vm_compute; reflexivity|]. intros h E. vm_compute in E. injection E as <-. unfold_ints. lia. Qed.

Lemma works_after p : (3 <=? db_ops (evidenceStore p)) = true → works p.
Proof. intros Hp%Nat.leb_le n Hn. apply Nat.ltb_ge. lia. Qed.

Lemma demo_works : works started ∧ works added ∧ works updated.
Proof. split_and!; apply works_after; vm_compute; reflexivity. Qed.

Lemma added_runs : pruns [x61] vals_at time_at added.
Proof.
  eapply (pr_add _ _ _ (services 6) demo_evidence started); [|apply services_ok|apply demo_received|apply surjective_pairing].
  eapply (pr_start _ _ _ (services 6) (state_at 6) (NewPool db0)); [|apply services_ok|apply state_at_ok|apply surjective_pairing].
  apply pr_new. reflexivity.
Qed.

Lemma added_list : evidenceList added = [demo_evidence].
Proof. vm_compute. reflexivity. Qed.

(** The evidence that was received is gossiped, and proven. *)
Lemma pool_sound_witness : evidenceList added = [demo_evidence] ∧ proven [x61] vals_at time_at demo_evidence.
Proof.
  split; [exact added_list|].
  destruct (pool_sound toy_evkeys_law toy_evcodec_law mpdemo.in_order_law [x61] vals_at time_at evidence_chain added added_runs)
    as (Hp & _).
  rewrite added_list in Hp. exact (proj1 (Forall_singleton _ _) Hp).
Defined.

Lemma demo_verifies h : (h = 6 ∨ h = 7)%Z → ∃ b, verifies (services h) (state_at h) demo_evidence b.
Proof.
  intros Hh. exists true. split. exists 5%Z, (mkBlockMeta nilBlockID 0 (header_at 5) 0 0 false), vals, (demo_signed x01 0 x07), 0%Z,
    (Some (demo_validator x07 100)).
  destruct Hh as [-> | ->]; split_and!; vm_compute; reflexivity.
Qed.

(** A block with the evidence is accepted before it was received. *)
Lemma check_exact_witness : ∃ p' evs', CheckEvidence (services 6) [demo_evidence] started = (p', Ok (evs', None)).
Proof.
  apply (check_exact toy_evkeys_law (services 6) [demo_evidence] [hash_or_nil demo_evidence] started).
  - exact (proj1 demo_works).
  - vm_compute. reflexivity.
  - constructor; [|constructor]. exists 5%Z. apply demo_hashed. left.
  - split; [apply NoDup_singleton|]. constructor; [|constructor]. right. split; [vm_compute; reflexivity|].
    destruct (demo_verifies 6) as [b Hb]; [left; reflexivity|]. exists b.
    replace (pool_state started) with (state_at 6) by (vm_compute; reflexivity). exact Hb.
Defined.

(** The evidence of a block is no longer pending but committed. *)
Lemma commit_exact_witness :
  ∃ p', markEvidenceAsCommitted [demo_evidence] 7 added = (p', Ok tt) ∧
    pend (db_data (evidenceStore added)) demo_evidence = true ∧
    pend (db_data (evidenceStore p')) demo_evidence ≠ true ∧ comm (db_data (evidenceStore p')) demo_evidence = true ∧
    demo_evidence ∉ evidenceList p'.
Proof.
  destruct (commit_exact toy_evkeys_law [demo_evidence] [(5%Z, hash_or_nil demo_evidence)] 7 added) as (p' & E & _ & Hp).
  - exact (proj1 (proj2 demo_works)).
  - constructor; [|constructor]. apply demo_hashed. left.
  - rewrite added_list. constructor; [|constructor]. exists (hash_or_nil demo_evidence). vm_compute. reflexivity.
  - assert (pend (db_data (evidenceStore added)) demo_evidence = true) as Hpend by (vm_compute; reflexivity).
    destruct (Hp demo_evidence (5%Z, hash_or_nil demo_evidence)) as (Hc & Hn & Hl); [apply demo_hashed; left|].
    exists p'. split; [exact E|]. split; [exact Hpend|]. split; [|split].
    + intros Ht. apply Hn in Ht as [_ Ht]. apply Ht. left.
    + apply Hc. right. left.
    + intros Hin. apply Hl in Hin as [_ Hin]. apply Hin. exists (5%Z, hash_or_nil demo_evidence).
      split; [left|]. split; [reflexivity|]. vm_compute. reflexivity.
Defined.

(** Evidence that was committed with block 7 is accepted in another block. *)
Lemma recommitted_witness :
  ∃ p1 p2 e, CheckEvidence (services 7) [bad_time] updated = (p1, Ok ([demo_evidence], Some (ErrPoolABCI e))) ∧
    comm (db_data (evidenceStore p1)) demo_evidence = true ∧
    CheckEvidence (services 7) [demo_evidence] p1 = (p2, Ok ([demo_evidence], None)).
Proof.
  destruct (demo_verifies 7) as [b Hb]; [right; reflexivity|].
  apply (recommitted toy_evkeys_law (services 7) demo_evidence bad_time b 5 (hash_or_nil demo_evidence) 5 (hash_or_nil bad_time)
    (@marshal (option ProtoDVE) _ _ (EvidenceToProto demo_evidence)) updated).
  - exact (proj2 (proj2 demo_works)).
  - vm_compute. reflexivity.
  - vm_compute. reflexivity.
  - apply demo_hashed. left.
  - reflexivity.
  - vm_compute. reflexivity.
  - vm_compute. reflexivity.
  - replace (pool_state updated) with (state_at 7) by (vm_compute; reflexivity). exact Hb.
  - reflexivity.
  - reflexivity.
  - intros E. apply (f_equal DVE_Timestamp) in E. discriminate E.
  - apply demo_hashed. right. left.
  - vm_compute. reflexivity.
  - vm_compute. reflexivity.
Defined.

End epdemo.
