(* ===== verification/VotesSound.v ===== *)
(** * Where the votes of a height come from

    For consensus the votes a height vote set holds matter together with their
    origin.  If every vote handed to it satisfies a predicate, so does every vote it
    counts, and a majority is a quorum of verified votes that satisfy it.  Unlike the
    invariant of [HeightVoteSetThms], this one also covers validator sets without
    public keys, whose rounds have no vote sets. *)
From Stdlib Require Import ZArith Lia Init.Byte.
From stdpp Require Import base numbers list sets gmap.
From S2P Require Import Prelude.
From S2P Require Import SafeMath.
From S2P Require Import PartSet.
From S2P Require Import Types.
From S2P Require Import Crypto.
From S2P Require Import QuorumSign.
From S2P Require Import ValidatorSet.
From S2P Require Import Recoverer.
From S2P Require Import VoteSet.
From S2P Require Import VoteSetInv.
From S2P Require Import VoteSetSeal.
From S2P Require Import VoteSetSafe.
From S2P Require Import VoteSetThms.
From S2P Require Import HeightVoteSet.
From S2P Require Import HeightVoteSetThms.

Import types crypto quorum valset recoverer voteset vsinv vssafe vsthms heightvs hvsthms.

Module votes.

Section votes.
Context `{Crypto} `{Dashd} `{MapOrder}.
Context (sha_len : ∀ x, length (sha256 x) = 32) (bt : byte_types) (cid : bytes).

(** The sets consensus is run with: validated if they have keys. *)
Definition ok_vals (vals : ValidatorSet) : Prop := HasPublicKeys vals = true → validated vals.

(** The vote is verified for slot [i] of the validator set. *)
Definition vgood (vals : ValidatorSet) (h r t : Z) (i : nat) (v : Vote) : Prop :=
  wf_vote v ∧
  Vote_ValidatorIndex v = Z.of_nat i ∧ Vote_Height v = h ∧ Vote_Round v = r ∧ Vote_Type v = t ∧
  ∃ val, Validators vals !! i = Some val ∧ Vote_ValidatorProTxHash v = ProTxHash val ∧
    vote_verify v cid (QuorumType vals) (QuorumHash vals) (Val_PubKey val) (ProTxHash val) None
      = Ok tt.

(** A quorum of verified votes for [b], all of which satisfy [P]. *)
Definition quorum_for (P : Vote → Prop) (vals : ValidatorSet) (h r t : Z) (b : BlockID) : Prop :=
  validated vals ∧ ∃ l : list nat, NoDup l ∧ (quorum_power vals ≤ 100 * Z.of_nat (length l))%Z ∧
    ∀ i, i ∈ l → ∃ v, P v ∧ vgood vals h r t i v ∧ Vote_BlockID v = b.

Definition vs_from (P : Vote → Prop) (vs : VoteSet) : Prop :=
  ∀ key bv i v, votesByBlock vs !! key = Some bv → bv_votes bv !! i = Some (Some v) → P v.

Definition vs_ok (P : Vote → Prop) (vals : ValidatorSet) (h r t : Z) (vs : VoteSet) : Prop :=
  HasPublicKeys vals = true ∧ reachable cid h r t vals vs ∧ vs_from P vs.

Record hvs_sound (P : Vote → Prop) (vals : ValidatorSet) (h : Z) (hvs : HeightVoteSet) : Prop := {
  hs_chain : hvs_chainID hvs = cid;
  hs_height : hvs_height hvs = h;
  hs_vals : hvs_valSet hvs = vals;
  hs_prevotes : ∀ r rvs vs, roundVoteSets hvs !! r = Some rvs → rvs_Prevotes rvs = Some vs →
    vs_ok P vals h r PrevoteType vs;
  hs_precommits : ∀ r rvs vs, roundVoteSets hvs !! r = Some rvs → rvs_Precommits rvs = Some vs →
    vs_ok P vals h r PrecommitType vs }.

Lemma quorum_mono (P P' : Vote → Prop) vals h r t b :
  (∀ v, P v → P' v) → quorum_for P vals h r t b → quorum_for P' vals h r t b.
Proof.
  intros HP (Hv & l & Hn & Hq & Hl). split; [done|]. exists l. split_and!; [done..|].
  intros i (v & Hpv & Hg)%Hl. eauto.
Qed.

Lemma hvs_sound_mono (P P' : Vote → Prop) vals h hvs :
  (∀ v, P v → P' v) → hvs_sound P vals h hvs → hvs_sound P' vals h hvs.
Proof.
  intros HP [? ? ? Hp Hc]. assert (∀ vs, vs_from P vs → vs_from P' vs) as Hvs.
  { intros vs Hvs key bv i v Hk Hi. eauto. }
  constructor; try done.
  - intros r rvs vs Hr Hvs'. destruct (Hp r rvs vs Hr Hvs') as (? & ? & ?). split_and!; auto.
  - intros r rvs vs Hr Hvs'. destruct (Hc r rvs vs Hr Hvs') as (? & ? & ?). split_and!; auto.
Qed.

Section fixed.
Context (P : Vote → Prop) (vals : ValidatorSet) (h : Z) (Hvals : ok_vals vals).

Lemma getVoteSet_sound hvs r t vs :
  hvs_sound P vals h hvs → getVoteSet hvs r t = Ok (Some vs) →
  IsVoteTypeValid t = true ∧ vs_ok P vals h r t vs.
Proof.
  intros HS Hg. unfold getVoteSet in Hg. destruct (roundVoteSets hvs !! r) as [rvs|] eqn:Er; [|done].
  destruct (Z.eqb_spec t PrevoteType) as [->|].
  { injection Hg as Hg. split; [done|]. by eapply hs_prevotes. }
  destruct (Z.eqb_spec t PrecommitType) as [->|]; [|done].
  injection Hg as Hg. split; [done|]. by eapply hs_precommits.
Qed.

Lemma vs_ok_inv r t vs : vs_ok P vals h r t vs → vs_inv vs ∧ valSet vs = vals ∧
  chainID vs = cid ∧ height vs = h ∧ round vs = r ∧ signedMsgType vs = t ∧ bounded vs.
Proof using sha_len bt Hvals.
  intros (Hk & Hr & _). destruct (reachable_ok sha_len bt vals (Hvals Hk) _ _ _ _ _ Hr) as
    (? & ? & ? & ? & ? & ? & ?). done.
Qed.

(** ** Writing rounds *)

Lemma new_round_sound hvs r rvs :
  hvs_sound P vals h hvs →
  (∀ vs, rvs_Prevotes rvs = Some vs → vs_ok P vals h r PrevoteType vs) →
  (∀ vs, rvs_Precommits rvs = Some vs → vs_ok P vals h r PrecommitType vs) →
  hvs_sound P vals h (set_rounds hvs (<[r := rvs]> (roundVoteSets hvs))).
Proof.
  intros [? ? ? Hp Hc] Hp' Hc'. constructor; try done; cbn; intros r' rvs' vs.
  - destruct (decide (r = r')) as [<-|]; [rewrite lookup_insert_eq; intros [= <-]; auto|].
    rewrite lookup_insert_ne by done. eauto.
  - destruct (decide (r = r')) as [<-|]; [rewrite lookup_insert_eq; intros [= <-]; auto|].
    rewrite lookup_insert_ne by done. eauto.
Qed.

Lemma new_vs_ok r t vs :
  HasPublicKeys vals = true → NewVoteSet cid h r t vals = Ok vs → vs_ok P vals h r t vs.
Proof.
  intros Hk Hn. split_and!; [done|exists vs; by split; [|apply rtc_refl]|].
  unfold NewVoteSet in Hn. ok_inv. intros key bv i v. cbn. by rewrite lookup_empty.
Qed.

Lemma addRound_sound hvs r hvs' :
  hvs_sound P vals h hvs → addRound hvs r = Ok hvs' → hvs_sound P vals h hvs'.
Proof.
  intros HS Ha. unfold addRound in Ha. destruct (roundVoteSets hvs !! r); [done|].
  rewrite (hs_chain _ _ _ _ HS), (hs_height _ _ _ _ HS), (hs_vals _ _ _ _ HS) in Ha.
  destruct (HasPublicKeys vals) eqn:Ek.
  - apply bind_Ok in Ha as (rvs & Hr & [= <-]). ok_inv.
    apply new_round_sound; [done|..]; cbn; intros vs [= <-]; by apply new_vs_ok.
  - cbn in Ha. injection Ha as <-. by apply new_round_sound.
Qed.

Lemma set_round_sound hvs r : hvs_sound P vals h hvs → hvs_sound P vals h (set_round hvs r).
Proof. by intros []. Qed.

Lemma SetRound_sound fuel hvs round hvs' :
  hvs_sound P vals h hvs → SetRound fuel hvs round = Ok hvs' → hvs_sound P vals h hvs'.
Proof.
  intros HS Hs. unfold SetRound in Hs. destruct (SafeSubInt32 _ _) as [r|e|]; [|done..].
  destruct (negb _ && _); [done|]. apply bind_Ok in Hs as (hvs1 & Ha & [= <-]).
  apply set_round_sound. revert hvs r HS Ha. induction fuel as [|fuel IH]; [done|].
  intros hvs r HS Ha. cbn [add_rounds] in Ha. destruct (r <=? round)%Z; [|by injection Ha as <-].
  destruct (roundVoteSets hvs !! r); [by eapply IH|].
  apply bind_Ok in Ha as (hvs2 & Hr & Ha). by eapply IH; [eapply addRound_sound|].
Qed.

Lemma NewHeightVoteSet_sound hvs : NewHeightVoteSet cid h vals = Ok hvs → hvs_sound P vals h hvs.
Proof.
  unfold NewHeightVoteSet, Reset. intros Hn. apply bind_Ok in Hn as (hvs1 & Ha & [= <-]).
  apply set_round_sound. eapply addRound_sound; [|exact Ha].
  constructor; try done; cbn; intros r rvs vs; by rewrite lookup_empty.
Qed.

Lemma write_sound hvs r t vs :
  hvs_sound P vals h hvs → IsVoteTypeValid t = true → vs_ok P vals h r t vs →
  hvs_sound P vals h (write_voteset hvs r t vs).
Proof.
  intros HS Ht Hok. destruct (type_cases t Ht) as [-> | ->];
    destruct HS as [? ? ? Hp Hc]; constructor; try done; cbn; intros r' rvs' vs';
    (destruct (decide (r = r')) as [<-|];
      [rewrite lookup_alter_eq; destruct (roundVoteSets hvs !! r) as [rvs|] eqn:Er; [|done];
       intros [= <-]; cbn; try (intros [= <-]; done); by eapply Hp || eapply Hc
      |rewrite lookup_alter_ne by done; eauto]).
Qed.

(** ** Adding votes *)

Lemma no_votes vs key bv i v :
  vs_inv vs → votesByBlock vs !! key = Some bv → bv_sum bv = 0%Z →
  bv_votes bv !! i = Some (Some v) → False.
Proof.
  intros HI Hk Hs Hi. pose proof (vi_bvs _ HI _ _ Hk) as Hb. rewrite (bi_sum _ _ _ Hb) in Hs.
  assert (count (bv_votes bv) = 0) as Hc by lia. unfold count in Hc.
  apply nil_length_inv in Hc. assert (Some v ∈ filter is_Some (bv_votes bv)) as Hin.
  { apply list_elem_of_filter. split; [by eexists|]. by eapply list_elem_of_lookup_2. }
  rewrite Hc in Hin. by apply elem_of_nil in Hin.
Qed.

Lemma addVote_from vs r t v b verified vs' added c :
  vs_ok P vals h r t vs → wf_vote (ref_vote v) → minted verified → P (ref_vote v) →
  voteset.addVote vs (Some v) b verified = Ok (vs', added, c) → vs_ok P vals h r t vs'.
Proof using sha_len bt Hvals.
  intros Hok Hwf Hm HP Ha. destruct (vs_ok_inv _ _ _ Hok) as (HI & _).
  destruct Hok as (Hk & Hr & Hf). pose proof (addVote_spec sha_len vs v b verified HI Hwf Hm) as Hs.
  rewrite Ha in Hs. destruct Hs as (_ & _ & _ & (i & _ & Hadd & Hno & _) & _).
  split_and!; [done|by eapply reachable_step; [|eapply step_vote]|].
  destruct added; [|by destruct (Hno eq_refl) as [E _]; intros ????; rewrite E; eauto].
  destruct (Hadd eq_refl) as (_ & _ & id & _ & vs1 & bv & ba & HI1 & _ & _ & Hb & Hfree & Hold & E & _).
  clear Hadd Hno. assert (∀ k bvk j w, votesByBlock vs1 !! k = Some bvk →
    bv_votes bvk !! j = Some (Some w) → P w) as Hf1.
  { intros k bvk j w Hbk Hj. destruct (Hold k bvk Hbk) as [Ho|Ho]; [by eapply Hf|].
    by destruct (no_votes vs1 k bvk j w). }
  intros k bvk j w. rewrite E. destruct (decide (Key (Vote_BlockID (ref_vote v)) = k)) as [<-|].
  - rewrite lookup_insert_eq. intros [= <-]. cbn. destruct (decide (i = j)) as [<-|].
    + rewrite list_lookup_insert_eq by (by apply lookup_lt_Some in Hfree). by intros [= <-].
    + rewrite list_lookup_insert_ne by done. by eapply Hf1.
  - rewrite lookup_insert_ne by done. by eapply Hf1.
Qed.

Lemma SetPeerMaj23_from vs r t peer blk hh rr vs' :
  vs_ok P vals h r t vs → voteset.SetPeerMaj23 vs peer blk hh rr = Ok vs' → vs_ok P vals h r t vs'.
Proof.
  intros (Hk & Hr & Hf) Hs. split_and!; [done|by eapply reachable_step; [|eapply step_peer]|].
  clear Hr. unfold SetPeerMaj23 in Hs. destruct (negb _); [done|].
  destruct (peerMaj23s vs !! peer) as [e|]; [destruct (BlockID_Equals _ _); by simplify_eq|].
  destruct (_ <=? _); [by injection Hs as <-|]. cbn in Hs.
  destruct (votesByBlock vs !! Key blk) as [bv|] eqn:Eb.
  - destruct (peerMaj23 bv); injection Hs as <-; [done|]. intros k bvk j w. cbn.
    destruct (decide (Key blk = k)) as [<-|]; [|rewrite lookup_insert_ne by done; apply Hf].
    rewrite lookup_insert_eq. intros [= <-]. cbn. by eapply Hf.
  - apply bind_Ok in Hs as (bv & Hb & [= <-]). intros k bvk j w. cbn.
    destruct (decide (Key blk = k)) as [<-|]; [|rewrite lookup_insert_ne by done; apply Hf].
    rewrite lookup_insert_eq. intros [= <-] Hj. unfold newBlockVotes in Hb. ok_inv. cbn in Hj.
    by apply lookup_replicate in Hj as [? _].
Qed.

Lemma add_to_voteset_sound hvs vs v b verified hvs' added err :
  hvs_sound P vals h hvs → wf_vote (ref_vote v) → minted verified → P (ref_vote v) →
  getVoteSet hvs (Vote_Round (ref_vote v)) (Vote_Type (ref_vote v)) = Ok (Some vs) →
  add_to_voteset hvs vs v b verified = Ok (hvs', added, err) → hvs_sound P vals h hvs'.
Proof using sha_len bt Hvals.
  intros HS Hwf Hm HP Hg Ha. destruct (getVoteSet_sound _ _ _ _ HS Hg) as [Ht Hok].
  unfold add_to_voteset in Ha.
  destruct (voteset.addVote vs (Some v) b verified) as [[[vs' a] c]|e|] eqn:Ev; [|by simplify_eq|done].
  injection Ha as <- <- <-. apply write_sound; [done..|]. by eapply addVote_from.
Qed.

Lemma set_catchup_sound hvs m : hvs_sound P vals h hvs → hvs_sound P vals h (set_catchup hvs m).
Proof. by intros []. Qed.

Lemma delete_sound hvs r :
  hvs_sound P vals h hvs → hvs_sound P vals h (set_rounds hvs (delete r (roundVoteSets hvs))).
Proof.
  intros [? ? ? Hp Hc]. constructor; try done; cbn; intros r' rvs vs [_ Hl]%lookup_delete_Some; eauto.
Qed.

Lemma hvs_addVote_sound hvs v b verified hvs' added err :
  hvs_sound P vals h hvs → wf_vote (ref_vote v) → minted verified → P (ref_vote v) →
  hvs_addVote hvs v b verified = Ok (hvs', added, err) → hvs_sound P vals h hvs'.
Proof using sha_len bt Hvals.
  intros HS Hwf Hm HP Ha. unfold hvs_addVote in Ha.
  destruct (negb (HasPublicKeys _)); [by simplify_eq|]. destruct (negb (IsVoteTypeValid _)); [by simplify_eq|].
  apply bind_Ok in Ha as (ovs & Hg & Ha). destruct ovs as [vs|].
  { by eapply add_to_voteset_sound. }
  destruct (checkVoteClaim hvs (ref_vote v)) as [[]|e|]; [|by simplify_eq|done].
  destruct (_ <=? _); [by simplify_eq|].
  apply bind_Ok in Ha as (hvs1 & Hr & Ha). apply (addRound_sound _ _ _ HS) in Hr.
  apply bind_Ok in Ha as (ovs & Hg1 & Ha). apply bind_Ok in Ha as (vs & Hd & Ha).
  apply deref_Ok in Hd as ->. apply bind_Ok in Ha as ([[hvs2 a] er] & Hadd & Ha).
  apply (add_to_voteset_sound _ _ _ _ _ _ _ _ Hr Hwf Hm HP Hg1) in Hadd.
  destruct a; injection Ha as <- <- <-; [by apply set_catchup_sound|by apply delete_sound].
Qed.

Lemma hvs_SetPeerMaj23_sound hvs hh r t peer blk hvs' :
  hvs_sound P vals h hvs → hvs_SetPeerMaj23 hvs hh r t peer blk = Ok hvs' → hvs_sound P vals h hvs'.
Proof.
  intros HS Hs. unfold hvs_SetPeerMaj23 in Hs. destruct (negb _); [done|].
  apply bind_Ok in Hs as (ovs & Hg & Hs). destruct ovs as [vs|]; [|by injection Hs as <-].
  apply bind_Ok in Hs as (vs' & Hv & [= <-]). destruct (getVoteSet_sound _ _ _ _ HS Hg) as [Ht Hok].
  apply write_sound; [done..|]. eapply SetPeerMaj23_from; [done|].
  apply wrap_err_Ok in Hv. exact Hv.
Qed.

(** ** Majorities *)

Lemma majority_quorum hvs r t ovs b :
  hvs_sound P vals h hvs → getVoteSet hvs r t = Ok ovs → majority ovs = (b, true) →
  quorum_for P vals h r t b ∧ (0 ≤ r)%Z.
Proof using sha_len bt Hvals.
  intros HS Hg Hm. destruct ovs as [vs|]; [|done].
  destruct (getVoteSet_sound _ _ _ _ HS Hg) as [_ Hok].
  destruct (vs_ok_inv _ _ _ Hok) as (HI & Ev & Ec & Eh & Er & Et & _). destruct Hok as (Hk & _ & Hf).
  cbn in Hm. unfold TwoThirdsMajority in Hm. destruct (maj23 vs) as [b'|] eqn:Em; [|done].
  injection Hm as ->. destruct (vi_maj _ HI b Em) as (bv & k & w & Hkey & Hq & Hw & Eb & _).
  pose proof (vi_bvs _ HI _ _ Hkey) as Hb.
  assert (∀ i v, bv_votes bv !! i = Some (Some v) → vgood vals h r t i v ∧ Vote_BlockID v = b) as Hall.
  { intros i v Hi. destruct (bi_votes _ _ _ Hb i v Hi) as (Hg' & Hkv & _). split.
    - unfold vgood, good_vote in *. by rewrite Ev, Ec, Eh, Er, Et in Hg'.
    - eapply seal.bv_vote_block; eauto. subst b.
      destruct (bi_votes _ _ _ Hb k w Hw) as (((Hvb & _) & _) & _). by apply Vote_ValidateBasic_wf. }
  split.
  - split; [by apply Hvals|]. exists (filter (λ i, filled (bv_votes bv) i = true) (seq 0 (length (bv_votes bv)))).
    split_and!; [apply NoDup_filter, NoDup_seq| |].
    + rewrite <- count_filled, <- (bi_sum _ _ _ Hb), <- Ev. done.
    + intros i [Hi _]%list_elem_of_filter. unfold filled in Hi.
      destruct (bv_votes bv !! i) as [[v|]|] eqn:Ei; [|done..]. exists v.
      destruct (Hall i v Ei). split_and!; try done. by eapply Hf.
  - destruct (Hall k w Hw) as [((Hvb & _) & _ & _ & <- & _) _]. unfold Vote_ValidateBasic in Hvb.
    destruct (negb _); [done|]. destruct (_ <? 0)%Z; [done|].
    destruct (Z.ltb_spec (Vote_Round w) 0); [done|lia].
Qed.

End fixed.
End votes.
End votes.
