(* ===== verification/ConsensusTypes.v ===== *)
(** * Consensus: the state of a node

    The data of internal/consensus: [sm.State] and [CurrentRoundState]
    (internal/state), [RoundState] (internal/consensus/types/round_state.go) with
    the fields [StateData] adds, messages, timeouts, and [Node], which gathers what
    the actions of the state machine read and write.  The components consensus
    calls through interfaces are type classes: [Executor] (internal/state), the
    signer [PrivValidator] (types), and the protobuf decoder of blocks.

    Times and durations are nanoseconds.  A loop iteration of [receiveRoutine]
    starts from the saved [StateData] and saves it at its end, so one copy of it
    stands for the store; [n_stored] is the part of the store that [Save] compares
    with, [n_committed] the copy of the state the block executor and the proposaler
    keep.  What the process cannot influence (readings of the clock, failures of
    the log and the queues, the rate limiters) is an [Oracle], consulted in order.
    Metrics, logging and events other than the one that asks for a proposer have no
    effect on the state and are left out. *)
From Stdlib Require Import ZArith Lia Init.Byte.
From stdpp Require Import base numbers list sets gmap.
From S2P Require Import Prelude.
From S2P Require Import StateM.
From S2P Require Import Merkle.
From S2P Require Import PartSet.
From S2P Require Import Types.
From S2P Require Import Crypto.
From S2P Require Import QuorumSign.
From S2P Require Import Proposal.
From S2P Require Import ValidatorSet.
From S2P Require Import Recoverer.
From S2P Require Import VoteSet.
From S2P Require Import HeightVoteSet.
From S2P Require Import Evidence.
From S2P Require Import Block.
From S2P Require Import Params.
From S2P Require Import SmState.
From S2P Require Import Execution.
From S2P Require Import SelectProposer.

Import statem partset types crypto quorum valset recoverer voteset heightvs.
Import proposal evidence block params sm abci selectproposer.

(** Rewrites a field of a record written with all its projections. *)
Ltac update eta s field x :=
  let t := eval cbv beta delta [eta] in (eta s) in
  match eval pattern (field s) in t with
  | ?f _ => let r := eval cbv beta in (f x) in exact r
  end.

Module cstypes.

(** ** Steps of a round *)

Definition RoundStepNewHeight : Z := 1.
Definition RoundStepNewRound : Z := 2.
Definition RoundStepPropose : Z := 3.
Definition RoundStepPrevote : Z := 4.
Definition RoundStepPrevoteWait : Z := 5.
Definition RoundStepPrecommit : Z := 6.
Definition RoundStepPrecommitWait : Z := 7.
Definition RoundStepApplyCommit : Z := 8.

(** ** The state of a round *)

(** [RoundState], with the fields [state] and [replayMode] of [StateData]. *)
Record StateData := mkSD {
  Height : Z;
  Round : Z;
  Step : Z;
  StartTime : Z;
  CommitTime : Z;
  SD_Validators : option ValidatorSet;
  SD_ProposerSelector : option ProposerSelector;
  SD_Proposal : option Proposal;
  ProposalReceiveTime : Z;
  ProposalBlock : option Block;
  ProposalBlockParts : option PartSet;
  LockedRound : Z;
  LockedBlock : option Block;
  LockedBlockParts : option PartSet;
  SD_Commit : option Commit;
  ValidRound : Z;
  ValidBlock : option Block;
  ValidBlockRecvTime : Z;
  ValidBlockParts : option PartSet;
  Votes : option HeightVoteSet;
  CommitRound : Z;
  LastCommit : option Commit;
  SD_LastValidators : option ValidatorSet;
  TriggeredTimeoutPrecommit : bool;
  ProposeNextBlockImmediately : bool;
  ProcessedBlockID : BlockID;
  RoundCRS : CurrentRoundState;
  SD_state : State;
  SD_replayMode : bool }.

Definition eta_sd (s : StateData) : StateData :=
  mkSD (Height s) (Round s) (Step s) (StartTime s) (CommitTime s) (SD_Validators s)
    (SD_ProposerSelector s) (SD_Proposal s) (ProposalReceiveTime s) (ProposalBlock s)
    (ProposalBlockParts s) (LockedRound s) (LockedBlock s) (LockedBlockParts s) (SD_Commit s)
    (ValidRound s) (ValidBlock s) (ValidBlockRecvTime s) (ValidBlockParts s) (Votes s)
    (CommitRound s) (LastCommit s) (SD_LastValidators s) (TriggeredTimeoutPrecommit s)
    (ProposeNextBlockImmediately s) (ProcessedBlockID s) (RoundCRS s) (SD_state s)
    (SD_replayMode s).

(** Assignments to the fields. *)
Definition set_Height (x : Z) (s : StateData) : StateData := ltac:(update eta_sd s Height x).
Definition set_Round (x : Z) (s : StateData) : StateData := ltac:(update eta_sd s Round x).
Definition set_Step (x : Z) (s : StateData) : StateData := ltac:(update eta_sd s Step x).
Definition set_StartTime (x : Z) (s : StateData) : StateData := ltac:(update eta_sd s StartTime x).
Definition set_CommitTime (x : Z) (s : StateData) : StateData :=
  ltac:(update eta_sd s CommitTime x).
Definition set_Validators (x : option ValidatorSet) (s : StateData) : StateData :=
  ltac:(update eta_sd s SD_Validators x).
Definition set_ProposerSelector (x : option ProposerSelector) (s : StateData) : StateData :=
  ltac:(update eta_sd s SD_ProposerSelector x).
Definition set_Proposal (x : option Proposal) (s : StateData) : StateData :=
  ltac:(update eta_sd s SD_Proposal x).
Definition set_ProposalReceiveTime (x : Z) (s : StateData) : StateData :=
  ltac:(update eta_sd s ProposalReceiveTime x).
Definition set_ProposalBlock (x : option Block) (s : StateData) : StateData :=
  ltac:(update eta_sd s ProposalBlock x).
Definition set_ProposalBlockParts (x : option PartSet) (s : StateData) : StateData :=
  ltac:(update eta_sd s ProposalBlockParts x).
Definition set_LockedRound (x : Z) (s : StateData) : StateData :=
  ltac:(update eta_sd s LockedRound x).
Definition set_LockedBlock (x : option Block) (s : StateData) : StateData :=
  ltac:(update eta_sd s LockedBlock x).
Definition set_LockedBlockParts (x : option PartSet) (s : StateData) : StateData :=
  ltac:(update eta_sd s LockedBlockParts x).
Definition set_Commit (x : option Commit) (s : StateData) : StateData :=
  ltac:(update eta_sd s SD_Commit x).
Definition set_ValidRound (x : Z) (s : StateData) : StateData :=
  ltac:(update eta_sd s ValidRound x).
Definition set_ValidBlock (x : option Block) (s : StateData) : StateData :=
  ltac:(update eta_sd s ValidBlock x).
Definition set_ValidBlockRecvTime (x : Z) (s : StateData) : StateData :=
  ltac:(update eta_sd s ValidBlockRecvTime x).
Definition set_ValidBlockParts (x : option PartSet) (s : StateData) : StateData :=
  ltac:(update eta_sd s ValidBlockParts x).
Definition set_Votes (x : option HeightVoteSet) (s : StateData) : StateData :=
  ltac:(update eta_sd s Votes x).
Definition set_CommitRound (x : Z) (s : StateData) : StateData :=
  ltac:(update eta_sd s CommitRound x).
Definition set_LastCommit (x : option Commit) (s : StateData) : StateData :=
  ltac:(update eta_sd s LastCommit x).
Definition set_LastValidators (x : option ValidatorSet) (s : StateData) : StateData :=
  ltac:(update eta_sd s SD_LastValidators x).
Definition set_TriggeredTimeoutPrecommit (x : bool) (s : StateData) : StateData :=
  ltac:(update eta_sd s TriggeredTimeoutPrecommit x).
Definition set_ProposeNextBlockImmediately (x : bool) (s : StateData) : StateData :=
  ltac:(update eta_sd s ProposeNextBlockImmediately x).
Definition set_ProcessedBlockID (x : BlockID) (s : StateData) : StateData :=
  ltac:(update eta_sd s ProcessedBlockID x).
Definition set_RoundCRS (x : CurrentRoundState) (s : StateData) : StateData :=
  ltac:(update eta_sd s RoundCRS x).
Definition set_state (x : State) (s : StateData) : StateData := ltac:(update eta_sd s SD_state x).
Definition set_replayMode (x : bool) (s : StateData) : StateData :=
  ltac:(update eta_sd s SD_replayMode x).

(** ** Messages and timeouts *)

Inductive Message :=
  | ProposalMessage (p : Proposal)
  | BlockPartMessage (height round : Z) (part : Part)
  | VoteMessage (v : vote_ref)
  | CommitMessage (c : Commit).

Record timeoutInfo := mkTI { ti_Duration : Z; ti_Height : Z; ti_Round : Z; ti_Step : Z }.

(** ** Commits waiting for a block *)

Record commitKey := mkCommitKey {
  key_height : Z; key_round : Z; key_blockID : bytes; key_extensions : bytes }.

Record commitCandidate := mkCandidate {
  cand_commit : Commit; cand_key : commitKey; cand_peerID : bytes; cand_fromReplay : bool }.

Record commitCandidates := mkCandidates { cc_height : Z; cc_candidates : list commitCandidate }.

Record commitExpectation := mkExpectation {
  exp_extensions : list (option VoteExtension); exp_rejected : bool }.

(** [byRound] is keyed by round and block; a map not yet made is empty. *)
Record commitExpectations := mkExpectations {
  ce_height : Z; ce_byRound : gmap (Z * bytes) commitExpectation }.

Record catchupTracker := mkCatchup { targetHeight : Z; expiresAt : Z }.

(** A block as [SaveBlock] stores it. *)
Record savedBlock := mkSaved {
  saved_block : Block; saved_parts : PartSet; saved_meta : BlockMeta; saved_commit : Commit }.

(** ** Configuration *)

(** [cfg_proTxHash] is the hash the context carries, [cfg_privValidator] the hash of
    the signer, if there is one. *)
Record Config := mkConfig {
  cfg_proTxHash : bytes;
  cfg_privValidator : option bytes;
  cfg_proposedAppVersion : Z;
  cfg_budget : bool;
  cfg_replayMode : bool;
  CreateEmptyBlocks : bool;
  CreateEmptyBlocksInterval : Z;
  DontAutoPropose : bool;
  UnsafeProposeTimeoutOverride : Z;
  UnsafeProposeTimeoutDeltaOverride : Z;
  UnsafeVoteTimeoutOverride : Z;
  UnsafeVoteTimeoutDeltaOverride : Z }.

Definition WaitForTxs (c : Config) : bool :=
  negb (CreateEmptyBlocks c) || (0 <? CreateEmptyBlocksInterval c)%Z.

Record Oracle := mkOracle {
  o_now : nat → Z;
  o_flag : nat → bool;
  o_budget : nat → budget;
  o_connected : nat → bytes → bool }.

(** ** Errors *)

Inductive cs_error :=
  | ErrHeightVotes (e : hvs_error)
  | ErrVerifyVote (e : sign_error)
  | ErrSelector
  | ErrProposalTime
  | ErrPrivValidatorNotSet
  | ErrFlush
  | ErrSign
  | ErrCopySigns
  | ErrInvalidProposalPOLRound
  | ErrInvalidProposalCoreHeight
  | ErrInvalidProposalBlockID
  | ErrInvalidProposalForCommit
  | ErrInvalidProposalForPartSet
  | ErrInvalidProposalSignature
  | ErrUnableToVerifyProposal
  | ErrProposalRound
  | ErrBudgetExhausted
  | ErrProposalBlockNotSet
  | ErrNonValidator
  | ErrPrevoteInvalid
  | ErrExecutor (e : exec_error)
  | ErrCommitExtensionsInvalid (e : ext_error)
  | ErrCommitExtensionsRejected
  | ErrCommitBasic (e : commit_error)
  | ErrCommitVerify (e : commit_verify_error)
  | ErrCommitBlock
  | ErrPart (e : partset_error)
  | ErrPartsTooLarge
  | ErrDecodeBlock
  | ErrBlockInvalid (e : block_error)
  | ErrValidatorIndex
  | ErrPublish.

End cstypes.

Import cstypes.

(** ** Interfaces *)

(** [types.PrivValidator]: signs in place, or fails. *)
Class PrivValidator := {
  Signing : Type;
  SignVote : Signing → bytes → Z → bytes → ProtoVote → Signing * option ProtoVote;
  SignProposal : Signing → bytes → Z → bytes → Proposal → Signing * option Proposal }.

(** [proto.Unmarshal] of a block. *)
Class BlockCodec := { Unmarshal_Block : bytes → option ProtoBlock }.

Module node.

Section node.
Context `{Executor} `{PrivValidator}.

Record Node := mkNode {
  n_sd : StateData;
  n_stored : State;
  n_committed : State;
  n_candidates : commitCandidates;
  n_expectations : commitExpectations;
  n_catchup : catchupTracker;
  n_app : App;
  n_signing : Signing;
  n_store : list savedBlock;
  n_timeouts : list timeoutInfo;
  n_queue : list Message;
  n_signed : list Vote;
  n_evidence : list (Vote * Vote);
  n_punished : list bytes;
  n_ticks : nat;
  n_refs : nat }.

Definition eta_node (n : Node) : Node :=
  mkNode (n_sd n) (n_stored n) (n_committed n) (n_candidates n) (n_expectations n) (n_catchup n)
    (n_app n) (n_signing n) (n_store n) (n_timeouts n) (n_queue n) (n_signed n) (n_evidence n)
    (n_punished n) (n_ticks n) (n_refs n).

Definition set_sd (x : StateData) (n : Node) : Node := ltac:(update eta_node n n_sd x).
Definition set_stored (x : State) (n : Node) : Node := ltac:(update eta_node n n_stored x).
Definition set_committed (x : State) (n : Node) : Node := ltac:(update eta_node n n_committed x).
Definition set_candidates (x : commitCandidates) (n : Node) : Node :=
  ltac:(update eta_node n n_candidates x).
Definition set_expectations (x : commitExpectations) (n : Node) : Node :=
  ltac:(update eta_node n n_expectations x).
Definition set_catchup (x : catchupTracker) (n : Node) : Node :=
  ltac:(update eta_node n n_catchup x).
Definition set_app (x : App) (n : Node) : Node := ltac:(update eta_node n n_app x).
Definition set_signing (x : Signing) (n : Node) : Node := ltac:(update eta_node n n_signing x).
Definition set_store (x : list savedBlock) (n : Node) : Node := ltac:(update eta_node n n_store x).
Definition set_timeouts (x : list timeoutInfo) (n : Node) : Node :=
  ltac:(update eta_node n n_timeouts x).
Definition set_queue (x : list Message) (n : Node) : Node := ltac:(update eta_node n n_queue x).
Definition set_signed (x : list Vote) (n : Node) : Node := ltac:(update eta_node n n_signed x).
Definition set_evidence (x : list (Vote * Vote)) (n : Node) : Node :=
  ltac:(update eta_node n n_evidence x).
Definition set_punished (x : list bytes) (n : Node) : Node :=
  ltac:(update eta_node n n_punished x).
Definition set_ticks (x : nat) (n : Node) : Node := ltac:(update eta_node n n_ticks x).
Definition set_refs (x : nat) (n : Node) : Node := ltac:(update eta_node n n_refs x).

End node.

(** ** The monad of the actions *)

Notation C := (M Node cs_error).

Section access.
Context `{Executor} `{PrivValidator}.
Context (o : Oracle).

Definition sd {A} (f : StateData → A) : C A := gets (λ n, f (n_sd n)).
Definition put (f : StateData → StateData) : C unit := modify (λ n, set_sd (f (n_sd n)) n).

(** The dereference of a field that is a pointer. *)
Definition deref_sd {A} (f : StateData → option A) : C A := p ← sd f; lift (deref p).

Definition tick : C nat := k ← gets n_ticks; _ ← modify (set_ticks (S k)); mret k.

(** [tmtime.Now()], with the precision of a millisecond. *)
Definition Now : C Z := k ← tick; mret (o_now o k / millisecond * millisecond)%Z.
Definition flag : C bool := k ← tick; mret (o_flag o k).

(** A call of the executor. *)
Definition app_call {A} (f : App → App * outcome exec_error A) : C A := λ n,
  let '(app, r) := f (n_app n) in (set_app app n, wrap_err ErrExecutor r).

(** [queueSender.send] to the node itself; its error is only logged. *)
Definition send (m : Message) : C unit :=
  ok ← flag;
  when ok (modify (λ n, set_queue (n_queue n ++ [m]) n)).

Definition ScheduleTimeout (duration height round step : Z) : C unit :=
  modify (λ n, set_timeouts (mkTI duration height round step :: n_timeouts n) n).

(** [StateData.Save]: the copies of the committed state follow the store. *)
Definition Save : C unit :=
  modify (λ n,
    let st := SD_state (n_sd n) in
    let n' := if (LastBlockHeight (n_stored n) =? 0)%Z ||
                 (LastBlockHeight (n_stored n) <? LastBlockHeight st)%Z
              then set_committed st n else n in
    set_stored st n').

End access.

End node.
