(* ===== verification/ConsensusData.v ===== *)
(** * Consensus: the methods of the state

    The methods of [StateData] (internal/consensus/state_data.go), the stores of
    commits (commit_candidates.go, commit_expectations.go), the catch-up tracker, the
    block store, and the block executor of consensus (block_executor.go).

    The proposer selector advances the index of the proposer in the validator set it
    shares with the state and the votes; nothing here reads the index from the
    others, so the selector's own set carries it.  The selector also keeps the block
    store, which grows only when a block is applied, just before the next selector is
    made. *)
From Stdlib Require Import ZArith Lia Init.Byte.
From stdpp Require Import base numbers list sets gmap.
From S2P Require Import Prelude.
From S2P Require Import StateM.
From S2P Require Import Merkle.
From S2P Require Import Wire.
From S2P Require Import PartSet.
From S2P Require Import Types.
From S2P Require Import Crypto.
From S2P Require Import QuorumSign.
From S2P Require Import Proposal.
From S2P Require Import ValidatorSet.
From S2P Require Import Recoverer.
From S2P Require Import VoteSet.
From S2P Require Import HeightVoteSet.
From S2P Require Import Evidence.
From S2P Require Import Block.
From S2P Require Import Params.
From S2P Require Import SmState.
From S2P Require Import Execution.
From S2P Require Import SelectProposer.
From S2P Require Import ConsensusTypes.

Import statem partset types crypto quorum valset recoverer voteset heightvs.
Import proposal evidence block params sm abci selectproposer cstypes node.

Module csdata.

(** ** The block store *)

Definition store_Base (l : list savedBlock) : Z :=
  match l with [] => 0 | b :: _ => H_Height (B_Header (saved_block b)) end.

Definition store_Height (l : list savedBlock) : Z :=
  match last l with None => 0 | Some b => H_Height (B_Header (saved_block b)) end.

(** The interface the proposer selector uses. *)
Definition store_view (l : list savedBlock) : BlockStore :=
  mkBlockStore (store_Base l) (λ h,
    saved_meta <$> List.find (λ b, (H_Height (B_Header (saved_block b)) =? h)%Z) l).

(** ** Commits waiting for a block *)

Section keys.
Context `{Crypto}.

Definition newCommitKey (commit : Commit) : commitKey :=
  mkCommitKey (Commit_Height commit) (Commit_Round commit) (Key (Commit_BlockID commit))
    (sha256 (concat (map (λ ext,
       let bz := from_option marshal_VoteExtension [] ext in
       wire.uvarint (Z.of_nat (length bz)) ++ bz) (Commit_ThresholdVoteExtensions commit)))).

Global Instance commitKey_eq_dec : EqDecision commitKey.
Proof. solve_decision. Defined.

Definition resetUnless (c : commitCandidates) (height : Z) : commitCandidates :=
  if (cc_height c =? height)%Z then c else mkCandidates height [].

Definition retainable (connected : bytes → bool) (c : commitCandidate) : bool :=
  cand_fromReplay c || bool_decide (cand_peerID c = []) || connected (cand_peerID c).

(** Overwrites the candidate of the same peer, or appends. *)
Fixpoint replace_candidate (l : list commitCandidate) (c : commitCandidate) :
    list commitCandidate :=
  match l with
  | [] => [c]
  | d :: l => if bool_decide (cand_peerID d = cand_peerID c) then c :: l
              else d :: replace_candidate l c
  end.

Definition candidates_add (connected : bytes → bool) (c : commitCandidates) (height : Z)
    (commit : Commit) (peerID : bytes) (fromReplay : bool) : commitCandidates :=
  let c := resetUnless c height in
  let candidate := mkCandidate commit (newCommitKey commit) peerID fromReplay in
  let kept := filter (λ d, bool_decide (cand_peerID d = peerID) || retainable connected d = true)
                (cc_candidates c) in
  mkCandidates (cc_height c) (replace_candidate kept candidate).

Definition candidates_holds (c : commitCandidates) (height : Z) (peerID : bytes) (key : commitKey) :
    bool :=
  (cc_height c =? height)%Z &&
  existsb (λ d, bool_decide (cand_peerID d = peerID) && bool_decide (cand_key d = key))
    (cc_candidates c).

Definition candidates_take (c : commitCandidates) (height : Z) :
    commitCandidates * list commitCandidate :=
  let c := resetUnless c height in (mkCandidates (cc_height c) [], cc_candidates c).

(** ** Extensions the application expects *)

Definition same_extension (x y : option VoteExtension) : bool :=
  match x, y with
  | None, None => true
  | Some x, Some y =>
      (VE_Type x =? VE_Type y)%Z && bool_decide (VE_Extension x = VE_Extension y) &&
      bool_decide (default [] (VE_SignRequestId x) = default [] (VE_SignRequestId y))
  | _, _ => false
  end.

Fixpoint SameVoteExtensionShape (a b : list (option VoteExtension)) : bool :=
  match a, b with
  | [], [] => true
  | x :: a, y :: b => same_extension x y && SameVoteExtensionShape a b
  | _, _ => false
  end.

Definition exp_matches (exp : commitExpectation) (commit : Commit) : bool :=
  SameVoteExtensionShape (Commit_ThresholdVoteExtensions commit) (exp_extensions exp).

Definition commitRoundBlock (commit : Commit) : Z * bytes :=
  (Commit_Round commit, Key (Commit_BlockID commit)).

Definition exp_lookup (e : commitExpectations) (commit : Commit) : option commitExpectation :=
  if (Commit_Height commit =? ce_height e)%Z then ce_byRound e !! commitRoundBlock commit else None.

(** Writes the expectation of the commit's block and round; [learn] does so with a
    new one, and drops those of another height. *)
Definition exp_put (e : commitExpectations) (commit : Commit) (exp : commitExpectation) :
    commitExpectations :=
  mkExpectations (ce_height e) (<[commitRoundBlock commit := exp]> (ce_byRound e)).

Definition exp_learn (e : commitExpectations) (commit : Commit)
    (extensions : list (option VoteExtension)) : commitExpectations :=
  let e := if (Commit_Height commit =? ce_height e)%Z then e
           else mkExpectations (Commit_Height commit) ∅ in
  exp_put e commit (mkExpectation extensions false).

End keys.

Section data.
Context `{Crypto} `{Dashd} `{MapOrder} `{StdTime} `{Executor} `{PrivValidator}.
Context (cfg : Config) (o : Oracle).

(** ** Blocks and votes of the round state *)

Definition BlockID_of (b : option Block) (ps : option PartSet) : C BlockID :=
  lift_panic (Block_BlockID b ps).

Definition hashes_to (b : option Block) (hash : bytes) : C bool := lift_panic (HashesTo b hash).

Definition block_hash (b : option Block) : C bytes :=
  '(_, h) ← lift_panic (Block_Hash b); mret h.

Definition proposalBlockID : C BlockID :=
  b ← sd ProposalBlock; ps ← sd ProposalBlockParts; BlockID_of b ps.

Definition lockedBlockID : C BlockID :=
  b ← sd LockedBlock; ps ← sd LockedBlockParts; BlockID_of b ps.

(** [RoundState.BlockID]. *)
Definition rs_BlockID : C BlockID :=
  b ← sd ProposalBlock; ps ← sd ProposalBlockParts;
  match b, ps with
  | Some _, Some _ => BlockID_of b ps
  | _, _ =>
      p ← sd SD_Proposal; h ← sd Height; r ← sd Round;
      match p with
      | Some p => if (h =? Prop_Height p)%Z && (r =? Prop_Round p)%Z then mret (Prop_BlockID p)
                  else BlockID_of b ps
      | None => BlockID_of b ps
      end
  end.

Definition prevotes (round : Z) : C (option VoteSet) :=
  v ← deref_sd Votes; lift_err ErrHeightVotes (Prevotes v round).

Definition precommits (round : Z) : C (option VoteSet) :=
  v ← deref_sd Votes; lift_err ErrHeightVotes (Precommits v round).

(** Methods of a vote set that may be nil. *)
Definition has_majority (vs : option VoteSet) : bool := (majority vs).2.

Definition has_any (vs : option VoteSet) : C bool :=
  match vs with None => mret false | Some vs => lift_panic (HasTwoThirdsAny vs) end.

(** ** The proposer *)

Definition selector_GetProposer : C (option Validator) :=
  s ← deref_sd SD_ProposerSelector; h ← sd Height; r ← sd Round;
  '(s, v) ← lift_err (λ _, ErrSelector) (GetProposer s h r);
  _ ← put (set_ProposerSelector (Some s)); mret v.

(** A node without a hash, which is nil, is no proposer. *)
Definition isProposer (proTxHash : bytes) : C bool :=
  p ← try selector_GetProposer;
  match p with
  | inr _ => mret false
  | inl prop =>
      if bool_decide (proTxHash = []) then mret false
      else v ← lift (deref prop); mret (bool_decide (ProTxHash v = proTxHash))
  end.

(** [NewRoundEvent] asks for the proposer and its index. *)
Definition NewRoundEvent : C unit :=
  prop ← must selector_GetProposer; v ← lift (deref prop);
  vals ← deref_sd SD_Validators;
  _ ← lift_panic (E := cs_error) (F := cs_error) (GetByProTxHash vals (ProTxHash v)); mret tt.

Definition updateRoundStep (round step : Z) : C unit :=
  _ ← put (set_Round round); _ ← put (set_Step step);
  s ← deref_sd SD_ProposerSelector; h ← sd Height;
  ignore (s ← lift_err (λ _, ErrSelector) (UpdateHeightRound s h round);
          put (set_ProposerSelector (Some s))).

Definition isProposalComplete : C bool :=
  p ← sd SD_Proposal; b ← sd ProposalBlock;
  match p, b with
  | Some p, Some _ =>
      if (Prop_POLRound p <? 0)%Z then mret true
      else vs ← prevotes (Prop_POLRound p); mret (has_majority vs)
  | _, _ => mret false
  end.

(** ** The next height *)

Definition next_height (state : State) : Z :=
  let height := int64 (LastBlockHeight state + 1) in
  if (height =? 1)%Z then InitialHeight state else height.

(** The checks of [updateToState]: whether to go on. *)
Definition checkNewState (state : State) : C bool :=
  s ← sd id;
  let old := SD_state s in
  if (-1 <? CommitRound s)%Z && (0 <? Height s)%Z && negb (Height s =? LastBlockHeight state)%Z
  then panic
  else if State_IsEmpty old then mret true
  else if (0 <? LastBlockHeight old)%Z && negb (int64 (LastBlockHeight old + 1) =? Height s)%Z
  then panic
  else if (0 <? LastBlockHeight old)%Z && (Height s =? InitialHeight old)%Z then panic
  else mret (negb (LastBlockHeight state <? LastBlockHeight old)%Z).

Definition newLastCommit (state : State) (commit : option Commit) : C unit :=
  s ← sd id;
  if (LastBlockHeight state =? 0)%Z then put (set_LastCommit None)
  else match commit with
  | None =>
      if (-1 <? CommitRound s)%Z && bool_decide (is_Some (Votes s)) then
        vs ← precommits (CommitRound s);
        if has_majority vs then
          vs ← lift (deref vs);
          c ← lift_panic (MakeCommit vs);
          put (set_LastCommit (Some c))
        else panic
      else match LastCommit s with None => panic | Some _ => mret tt end
  | Some c => put (set_LastCommit (Some c))
  end.

(** The fields a new height starts with. *)
Definition resetFields (state : State) (height : Z) (votes : HeightVoteSet) (s : StateData) :
    StateData :=
  mkSD height (Round s) (Step s) (StartTime s) (CommitTime s) (SD_Validators s)
    (SD_ProposerSelector s) None zero_time None None (-1) None None None (-1) None
    (ValidBlockRecvTime s) None (Some votes) (-1) (LastCommit s) (State_LastValidators state) false
    false (ProcessedBlockID s) (RoundCRS s) state (SD_replayMode s).

(** The part of [updateToState] that starts the next height. *)
Definition startHeight (state : State) : C unit :=
  let height := next_height state in
  validators ← lift (deref (State_Validators state));
  _ ← put (set_Validators (Some validators));
  store ← gets n_store;
  selector ← lift_panic (NewProposerSelector (Params_ConsensusVersion (State_Params state))
               (Some validators) height 0 (Some (store_view store)));
  _ ← put (set_ProposerSelector (Some selector));
  commitTime ← sd CommitTime;
  start ← (if (commitTime =? zero_time)%Z then Now o else mret commitTime);
  _ ← put (set_StartTime start);
  votes ← lift_panic (NewHeightVoteSet (ChainID state) height validators);
  _ ← put (resetFields state height votes);
  updateRoundStep 0 RoundStepNewHeight.

Definition updateToState (state : State) (commit : option Commit) : C unit :=
  go ← checkNewState state;
  when go (_ ← newLastCommit state commit; startHeight state).

(** ** Proposals *)

Definition proposalIsTimely : C unit :=
  s ← sd id;
  p ← lift (deref (SD_Proposal s));
  if (Height s =? InitialHeight (SD_state s))%Z then
    if (Prop_Timestamp p =? LastBlockTime (SD_state s))%Z then mret tt else fail ErrProposalTime
  else
    let sp := SynchronyParamsOrDefaults (Synchrony (State_Params (SD_state s))) in
    t ← lift (CheckTimely p (ProposalReceiveTime s) sp (Round s));
    if (t =? 0)%Z then mret tt
    else if (t =? -1)%Z || (t =? 1)%Z then fail ErrProposalTime else panic.

Definition updateValidBlock : C bool :=
  r ← sd Round;
  _ ← put (set_ValidRound r);
  blockID ← proposalBlockID;
  vb ← sd ValidBlock; vps ← sd ValidBlockParts;
  validID ← BlockID_of vb vps;
  if BlockID_Equals validID blockID then mret false
  else
    b ← sd ProposalBlock; _ ← put (set_ValidBlock b);
    now ← Now o; _ ← put (set_ValidBlockRecvTime now);
    p ← sd SD_Proposal; recv ← sd ProposalReceiveTime;
    _ ← when (match p with
              | Some p => BlockID_Equals (Prop_BlockID p) blockID && negb (recv =? zero_time)%Z
              | None => false
              end) (put (set_ValidBlockRecvTime recv));
    ps ← sd ProposalBlockParts; _ ← put (set_ValidBlockParts ps);
    mret true.

Definition updateLockedBlock : C unit :=
  put (λ s, set_LockedBlockParts (ProposalBlockParts s)
              (set_LockedBlock (ProposalBlock s) (set_LockedRound (Round s) s))).

Definition dropProposal (s : StateData) : StateData :=
  set_ProposalReceiveTime zero_time (set_Proposal None s).

Definition dropStaleProposal (blockID : BlockID) : C unit :=
  p ← sd SD_Proposal;
  match p with
  | Some p => when (negb (BlockID_Equals (Prop_BlockID p) blockID)) (put dropProposal)
  | None => mret tt
  end.

Definition retargetTo (blockID : BlockID) : C unit :=
  _ ← dropStaleProposal blockID;
  ps ← sd ProposalBlockParts;
  if negb (HasHeader ps (BlockID_PartSetHeader blockID)) then
    _ ← put (set_ProposalBlock None);
    ps ← lift_panic (NewPartSetFromHeader (BlockID_PartSetHeader blockID));
    put (set_ProposalBlockParts (Some ps))
  else
    b ← sd ProposalBlock;
    same ← hashes_to b (BlockID_Hash blockID);
    when (negb same) (put (set_ProposalBlock None)).

Definition holdsProposalBlock (blockID : BlockID) : C bool :=
  b ← sd ProposalBlock; ps ← sd ProposalBlockParts;
  same ← hashes_to b (BlockID_Hash blockID);
  mret (same && HasHeader ps (BlockID_PartSetHeader blockID)).

Definition replaceProposalBlockOnLockedBlock (blockID : BlockID) : C unit :=
  b ← sd LockedBlock;
  same ← hashes_to b (BlockID_Hash blockID);
  when same (
    _ ← dropStaleProposal blockID;
    put (λ s, set_ProposalBlockParts (LockedBlockParts s) (set_ProposalBlock (LockedBlock s) s))).

Definition or_override (override v : Z) : Z := if negb (override =? 0)%Z then override else v.

Definition proposeTimeout (round : Z) : C Z :=
  st ← sd SD_state;
  let tp := TimeoutParamsOrDefaults (Timeout (State_Params st)) in
  let p := or_override (UnsafeProposeTimeoutOverride cfg) (Propose tp) in
  let pd := or_override (UnsafeProposeTimeoutDeltaOverride cfg) (ProposeDelta tp) in
  mret (int64 (p + int64 (pd * round))).

Definition voteTimeout (round : Z) : C Z :=
  st ← sd SD_state;
  let tp := TimeoutParamsOrDefaults (Timeout (State_Params st)) in
  let v := or_override (UnsafeVoteTimeoutOverride cfg) (TP_Vote tp) in
  let vd := or_override (UnsafeVoteTimeoutDeltaOverride cfg) (VoteDelta tp) in
  mret (int64 (v + int64 (vd * round))).

(** The last check of [isValidForPrevote]. *)
Definition checkProposer (p : Proposal) (b : Block) : C unit :=
  when (Prop_POLRound p =? -1)%Z (
    proposer ← selector_GetProposer; v ← lift (deref proposer);
    if bool_decide (H_ProposerProTxHash (B_Header b) = ProTxHash v) then mret tt
    else fail ErrPrevoteInvalid).

Definition isValidForPrevote : C unit :=
  s ← sd id;
  match ProposalBlock s, SD_Proposal s with
  | Some b, Some p =>
      if negb (Prop_Timestamp p =? H_Time (B_Header b))%Z then fail ErrPrevoteInvalid
      else
        valid ← (if SD_replayMode s then mret true
                 else validHash ← block_hash (ValidBlock s); hashes_to (Some b) validHash);
        _ ← when (negb valid) proposalIsTimely;
        if negb (ValidateBlockChainLock (SD_state s) b) then fail ErrPrevoteInvalid
        else checkProposer p b
  | _, _ => fail ErrPrevoteInvalid
  end.

(** ** Commits *)

Definition adoptCommit (commit : Commit) : C unit :=
  _ ← retargetTo (Commit_BlockID commit); put (set_Commit (Some commit)).

Definition verifyCommitSignatures (blockID : BlockID) (commit : Commit) (b : option budget) :
    C unit :=
  vals ← deref_sd SD_Validators; st ← sd SD_state; h ← sd Height;
  lift_err ErrCommitVerify (verifyCommit vals (ChainID st) blockID h commit b).

(** The retained block is complete, has the commit's parts, and another hash. *)
Definition retainedConflict (commit : Commit) : C bool :=
  b ← sd ProposalBlock;
  match b with
  | None => mret false
  | Some _ =>
      ps ← deref_sd ProposalBlockParts;
      if partset.IsComplete ps &&
         HasHeader (Some ps) (BlockID_PartSetHeader (Commit_BlockID commit)) then
        same ← hashes_to b (BlockID_Hash (Commit_BlockID commit)); mret (negb same)
      else mret false
  end.

Definition readyToApplyCommit (commit : Commit) (ignoreProposalBlock : bool) (b : option budget) :
    C bool :=
  _ ← lift_err ErrCommitBasic (Commit_ValidateBasic commit);
  stateHeight ← sd Height;
  if (int64 (Commit_Height commit + 1) =? stateHeight)%Z then mret false
  else if negb (Commit_Height commit =? stateHeight)%Z then mret false
  else
    _ ← verifyCommitSignatures (Commit_BlockID commit) commit b;
    conflict ← retainedConflict commit;
    if (conflict : bool) then fail ErrCommitBlock
    else if ignoreProposalBlock then _ ← adoptCommit commit; mret true
    else
      held ← holdsProposalBlock (Commit_BlockID commit);
      if (held : bool) then mret true else _ ← adoptCommit commit; mret false.

(** ** The block executor *)

Definition executor_create (round : Z) : C (option Block) :=
  match cfg_privValidator cfg with
  | None => fail ErrNonValidator
  | Some proposerProTxHash =>
      committed ← gets n_committed;
      h ← sd Height; lastCommit ← sd LastCommit;
      let propose commit :=
        '(block, crs) ← must (app_call (λ app, CreateProposalBlock app h round committed commit
           proposerProTxHash (cfg_proposedAppVersion cfg)));
        _ ← put (set_RoundCRS crs); _ ← put (set_ProcessedBlockID nilBlockID);
        mret block in
      if (h =? InitialHeight committed)%Z then propose (mkCommit 0 0 nilBlockID [] [] [])
      else match lastCommit with
           | Some commit => propose commit
           | None => mret None
           end
  end.

Definition processedFor (round : Z) : C bool :=
  s ← sd id;
  match ProposalBlock s, CRS_Source (RoundCRS s) with
  | Some b, ProcessProposalSource =>
      if MatchesBlock (RoundCRS s) (B_Header b) round && negb (IsNil (ProcessedBlockID s)) then
        id ← proposalBlockID; mret (BlockID_Equals (ProcessedBlockID s) id)
      else mret false
  | _, _ => mret false
  end.

Definition ensureProcess (round : Z) : C unit :=
  b ← sd ProposalBlock;
  match b with
  | None => fail ErrProposalBlockNotSet
  | Some block =>
      done ← processedFor round;
      when (negb done) (
        committed ← gets n_committed;
        r ← try (app_call (λ app, ProcessProposal app block round committed));
        match r with
        | inr e =>
            _ ← put (set_RoundCRS zeroCRS); _ ← put (set_ProcessedBlockID nilBlockID); fail e
        | inl crs =>
            _ ← put (set_RoundCRS crs);
            id ← proposalBlockID; put (set_ProcessedBlockID id)
        end)
  end.

Definition ensureOwnRound : C unit :=
  s ← sd id;
  let processed := CRS_Round (RoundCRS s) in
  match SD_Proposal s with
  | None => mret tt
  | Some p =>
      if (processed =? Round s)%Z then mret tt
      else
        done ← processedFor processed;
        when done (
          id ← proposalBlockID;
          when (BlockID_Equals id (Prop_BlockID p)) (ensureProcess (Round s)))
  end.

Definition executor_validate : C unit :=
  s ← sd id;
  app_call (λ app, ValidateBlockWithRoundState app (SD_state s) (RoundCRS s) (ProposalBlock s)).

Definition refuseUnprocessedCommit (commit : Commit) : C unit :=
  done ← processedFor (Commit_Round commit);
  exps ← gets n_expectations;
  if (done : bool) then mret tt
  else match exp_lookup exps commit with
  | None => mret tt
  | Some exp => if negb (exp_matches exp commit) || exp_rejected exp
                then fail ErrCommitExtensionsRejected else mret tt
  end.

(** [sm.VerifyCommitExtensions]: whether the application accepts. *)
Definition askCommitExtensions (commit : Commit) : C bool :=
  vote ← lift_err ErrCommitExtensionsInvalid (GetCanonicalVote commit);
  r ← try (app_call (λ app, VerifyVoteExtension app vote));
  mret (match r with inl _ => true | inr _ => false end).

Definition expectedExtensions (commit : Commit) : C (list (option VoteExtension)) :=
  let vote := mkVote PrecommitType (Commit_Height commit) (Commit_Round commit)
                (Commit_BlockID commit) [] 0 [] [] in
  exts ← must (app_call (λ app, ExtendVote app vote));
  mret (VoteExtensions_ToProto (recoverable exts)).

Definition verifyCommitExtensions (commit : Commit) : C unit :=
  exps ← gets n_expectations;
  let exp := exp_lookup exps commit in
  if match exp with Some exp => exp_rejected exp && exp_matches exp commit | None => false end
  then fail ErrCommitExtensionsRejected
  else
    accepted ← askCommitExtensions commit;
    if (accepted : bool) then mret tt
    else
      match exp with
      | None =>
          done ← processedFor (Commit_Round commit);
          if (done : bool) then
            exts ← expectedExtensions commit;
            let exp := mkExpectation exts false in
            _ ← modify (λ n, set_expectations (exp_learn (n_expectations n) commit exts) n);
            _ ← when (exp_matches exp commit) (modify (λ n, set_expectations
                  (exp_put (n_expectations n) commit (mkExpectation exts true)) n));
            fail ErrCommitExtensionsRejected
          else fail ErrCommitExtensionsRejected
      | Some exp =>
          _ ← when (exp_matches exp commit) (modify (λ n, set_expectations
                (exp_put (n_expectations n) commit (mkExpectation (exp_extensions exp) true)) n));
          fail ErrCommitExtensionsRejected
      end.

Definition executor_finalize (commit : Commit) : C (State * bool) :=
  s ← sd id;
  block ← lift (deref (ProposalBlock s));
  hash ← block_hash (ProposalBlock s);
  let blockID := mkBlockID hash (partset.Header (ProposalBlockParts s))
                   (StateID_Hash (Header_StateID (B_Header block))) in
  app_call (λ app, FinalizeBlock app (SD_state s) (RoundCRS s) blockID block commit).

(** ** Proposals after block sync *)

Definition mayPropose (height : Z) : C bool :=
  t ← gets n_catchup;
  if (targetHeight t =? 0)%Z then mret true
  else
    wait ← (if (height <=? targetHeight t)%Z then k ← tick; mret (o_now o k <? expiresAt t)%Z
            else mret false);
    if (wait : bool) then mret false
    else _ ← modify (node.set_catchup (mkCatchup 0 (expiresAt t))); mret true.

(** ** The block store *)

Definition SaveBlock (block : option Block) (parts : option PartSet) (commit : Commit) : C unit :=
  b ← lift (deref block);
  l ← gets n_store;
  let height := H_Height (B_Header b) in
  ps ← (if (0 <? store_Base l)%Z && negb (height =? int64 (store_Height l + 1))%Z then panic
        else lift (deref parts));
  if negb (partset.IsComplete ps) then panic
  else if negb (height =? Commit_Height commit)%Z then panic
  else
    id ← BlockID_of block parts;
    let meta := mkBlockMeta id (byteSize ps) (B_Header b) (Z.of_nat (length (Txs (B_Data b))))
                  (Commit_Round commit) (bool_decide (is_Some (B_CoreChainLock b))) in
    modify (set_store (l ++ [mkSaved b ps meta commit])).

End data.

End csdata.
