(* ===== verification/ConsensusVote.v ===== *)
(** * Consensus: proposing and voting

    The vote signer (vote_signer.go), the prevoter with the voting rules of the
    protocol (state_prevoter.go) and the proposaler, which makes this node's
    proposals and admits those of others (state_proposaler.go). *)
From Stdlib Require Import ZArith Lia Init.Byte.
From stdpp Require Import base numbers list sets gmap.
From S2P Require Import Prelude.
From S2P Require Import StateM.
From S2P Require Import Merkle.
From S2P Require Import PartSet.
From S2P Require Import Types.
From S2P Require Import Crypto.
From S2P Require Import QuorumSign.
From S2P Require Import Proposal.
From S2P Require Import ValidatorSet.
From S2P Require Import Recoverer.
From S2P Require Import VoteSet.
From S2P Require Import HeightVoteSet.
From S2P Require Import Evidence.
From S2P Require Import Block.
From S2P Require Import Params.
From S2P Require Import SmState.
From S2P Require Import Execution.
From S2P Require Import SelectProposer.
From S2P Require Import ConsensusTypes.
From S2P Require Import ConsensusData.

Import statem partset types crypto quorum valset recoverer voteset heightvs.
Import proposal evidence block params sm abci selectproposer cstypes node csdata.

Module csvote.

Section vote.
Context `{Crypto} `{Dashd} `{MapOrder} `{StdTime} `{Executor} `{PrivValidator}.
Context (cfg : Config) (o : Oracle).

(** ** Signing votes *)

(** A call of the signer; the votes it signs are recorded. *)
Definition sign_vote (chainID : bytes) (quorumType : Z) (quorumHash : bytes) (v : Vote) :
    C ProtoVote := λ n,
  match SignVote (n_signing n) chainID quorumType quorumHash (Vote_ToProto v) with
  | (s, Some pv) => (set_signed (n_signed n ++ [v]) (set_signing s n), Ok pv)
  | (s, None) => (set_signing s n, Err ErrSign)
  end.

Fixpoint CopySignsFromProto (es : list VoteExtensionIf) (src : list (option VoteExtension)) :
    outcome cs_error (list VoteExtensionIf) :=
  match es, src with
  | [], [] => Ok []
  | e :: es, s :: src =>
      s ← deref s; rest ← CopySignsFromProto es src;
      let pb := vei_pb e in
      Ok (mkVEI (vei_class e)
            (mkVE (VE_Type pb) (VE_Extension pb) (VE_Signature s) (VE_SignRequestId pb)) :: rest)
  | _, _ => Err ErrCopySigns
  end.

Definition PopulateSignsFromProto (v : Vote) (pv : ProtoVote) : outcome cs_error Vote :=
  if negb (length (Vote_VoteExtensions v) =? length (PV_VoteExtensions pv)) then Err ErrCopySigns
  else
    exts ← CopySignsFromProto (Vote_VoteExtensions v) (PV_VoteExtensions pv);
    Ok (mkVote (Vote_Type v) (Vote_Height v) (Vote_Round v) (Vote_BlockID v)
          (Vote_ValidatorProTxHash v) (Vote_ValidatorIndex v) (PV_BlockSignature pv) exts).

Definition signVote (msgType : Z) (blockID : BlockID) : C Vote :=
  flushed ← flag o;
  if negb flushed then fail ErrFlush
  else match cfg_privValidator cfg with
  | None => fail ErrPrivValidatorNotSet
  | Some proTxHash =>
      vals ← deref_sd SD_Validators;
      '(valIdx, _) ← lift_panic (E := cs_error) (F := cs_error) (GetByProTxHash vals proTxHash);
      h ← sd Height; r ← sd Round;
      let unextended := mkVote msgType h r blockID proTxHash valIdx [] [] in
      vote ← (if (msgType =? PrecommitType)%Z && negb (IsNil blockID) then
                exts ← must (app_call (λ app, ExtendVote app unextended));
                mret (mkVote msgType h r blockID proTxHash valIdx [] exts)
              else mret unextended);
      st ← sd SD_state;
      stVals ← lift (deref (State_Validators st));
      pv ← sign_vote (ChainID st) (QuorumType stVals) (QuorumHash stVals) vote;
      lift (PopulateSignsFromProto vote pv)
  end.

Definition signAddVote (msgType : Z) (blockID : BlockID) : C unit :=
  match cfg_privValidator cfg with
  | None => mret tt
  | Some proTxHash =>
      vals ← deref_sd SD_Validators;
      when (HasProTxHash vals proTxHash) (
        vote ← try (signVote msgType blockID);
        match vote with
        | inr _ => mret tt
        | inl vote =>
            k ← gets n_refs; _ ← modify (set_refs (S k));
            send o (VoteMessage (mkRef k vote))
        end)
  end.

(** ** Prevotes *)

Definition signAndAddNilVote : C unit := signAddVote PrevoteType nilBlockID.

Definition checkProposalBlock : C bool :=
  p ← deref_sd SD_Proposal;
  lockedRound ← sd LockedRound;
  if negb (Prop_POLRound p =? -1)%Z then mret false
  else if (lockedRound =? -1)%Z then mret true
  else id ← proposalBlockID; locked ← lockedBlockID; mret (BlockID_Equals id locked).

Definition checkPrevoteMaj23 : C bool :=
  p ← deref_sd SD_Proposal;
  vs ← prevotes (Prop_POLRound p);
  let '(blockID, ok) := majority vs in
  if negb ok then mret false
  else
    id ← proposalBlockID;
    round ← sd Round; lockedRound ← sd LockedRound;
    if negb (BlockID_Equals id blockID) then mret false
    else if (Prop_POLRound p <? 0)%Z then mret false
    else if (round <=? Prop_POLRound p)%Z then mret false
    else if (lockedRound <=? Prop_POLRound p)%Z then mret true
    else locked ← lockedBlockID; mret (BlockID_Equals id locked).

Definition shouldVoteBeSent : C bool :=
  ok ← checkProposalBlock; if (ok : bool) then mret true else checkPrevoteMaj23.

Definition prevoter_signVote : C unit :=
  send ← shouldVoteBeSent;
  if (send : bool) then blockID ← rs_BlockID; signAddVote PrevoteType blockID
  else signAndAddNilVote.

(** An error of [ProcessProposal] that is not about the block ends the node. *)
Definition handleError (e : cs_error) : C unit :=
  match e with
  | ErrExecutor ErrBlockRejected | ErrExecutor (ErrInvalidBlock _) => mret tt
  | _ => panic
  end.

Definition prevoter_Do : C unit :=
  valid ← try isValidForPrevote;
  match valid with
  | inr _ => signAndAddNilVote
  | inl _ =>
      round ← sd Round;
      processed ← try (ensureProcess round);
      match processed with
      | inr e => _ ← handleError e; _ ← signAndAddNilVote; fail e
      | inl _ => _ ← must executor_validate; prevoter_signVote
      end
  end.

(** ** Proposals of others *)

Definition roundStateRefusal (p : Proposal) : C unit :=
  commit ← sd SD_Commit; parts ← sd ProposalBlockParts;
  if match commit with
     | Some c => (Commit_Height c =? Prop_Height p)%Z && (Commit_Round c =? Prop_Round p)%Z &&
                 negb (BlockID_Equals (Prop_BlockID p) (Commit_BlockID c))
     | None => false
     end then fail ErrInvalidProposalForCommit
  else if bool_decide (is_Some parts) &&
          negb (HasHeader parts (BlockID_PartSetHeader (Prop_BlockID p)))
  then fail ErrInvalidProposalForPartSet
  else mret tt.

Definition verifyProposalForNonValidatorSet (p : Proposal) : C unit :=
  commit ← sd SD_Commit;
  match commit with
  | Some c =>
      if negb (Commit_Height c =? Prop_Height p)%Z || negb (Commit_Round c =? Prop_Round p)%Z
      then fail ErrUnableToVerifyProposal
      else if negb (BlockID_Equals (Prop_BlockID p) (Commit_BlockID c))
      then fail ErrInvalidProposalForCommit
      else mret tt
  | None => fail ErrUnableToVerifyProposal
  end.

(** The cost of a message with one signature. *)
Definition baseMessageCost : Z := 1.

Definition verifyProposal (p : Proposal) (b : option budget) : C unit :=
  h ← sd Height; r ← sd Round;
  if negb (Prop_Height p =? h)%Z || negb (Prop_Round p =? r)%Z then fail ErrProposalRound
  else
    proposer ← selector_GetProposer;
    v ← lift (deref proposer);
    _ ← roundStateRefusal p;
    match Val_PubKey v with
    | None => verifyProposalForNonValidatorSet p
    | Some pk =>
        if match b with Some b => negb (b [] baseMessageCost) | None => false end
        then fail ErrBudgetExhausted
        else
          committed ← gets n_committed;
          vals ← lift (deref (State_Validators committed));
          signID ← lift (ProposalBlockSignID (ChainID committed) (Prop_ToProto p)
                          (QuorumType vals) (QuorumHash vals));
          if VerifySignatureDigest pk signID (Prop_Signature p) then mret tt
          else fail ErrInvalidProposalSignature
    end.

(** The checks of [Set] against a proposal block already held. *)
Definition checkHeldBlock (p : Proposal) : C unit :=
  b ← sd ProposalBlock; ps ← sd ProposalBlockParts;
  match b, ps with
  | Some b, Some _ =>
      id ← proposalBlockID;
      if negb (BlockID_Equals id (Prop_BlockID p)) then fail ErrInvalidProposalBlockID
      else if negb (H_CoreChainLockedHeight (B_Header b) =? Prop_CoreChainLockedHeight p)%Z
      then fail ErrInvalidProposalCoreHeight
      else mret tt
  | _, _ => mret tt
  end.

(** [Proposaler.Set]. *)
Definition Proposaler_Set (p : Proposal) (receivedAt : Z) (b : option budget) : C unit :=
  s ← sd id; committed ← gets n_committed;
  if bool_decide (is_Some (SD_Proposal s)) then mret tt
  else if negb (Prop_Height p =? Height s)%Z || negb (Prop_Round p =? Round s)%Z then mret tt
  else if match SD_Commit s with
          | Some c => HasHeader (ProposalBlockParts s) (BlockID_PartSetHeader (Commit_BlockID c)) &&
                      negb (BlockID_Equals (Prop_BlockID p) (Commit_BlockID c))
          | None => false
          end then mret tt
  else if (Prop_POLRound p <? -1)%Z ||
          ((0 <=? Prop_POLRound p)%Z && (Prop_Round p <=? Prop_POLRound p)%Z)
  then fail ErrInvalidProposalPOLRound
  else if (Prop_CoreChainLockedHeight p <? LastCoreChainLockedBlockHeight committed)%Z
  then fail ErrInvalidProposalCoreHeight
  else
    _ ← checkHeldBlock p;
    _ ← verifyProposal p b;
    _ ← put (set_Proposal (Some p));
    _ ← put (set_ProposalReceiveTime receivedAt);
    parts ← sd ProposalBlockParts;
    match parts with
    | Some _ => mret tt
    | None =>
        ps ← lift_panic (NewPartSetFromHeader (BlockID_PartSetHeader (Prop_BlockID p)));
        put (set_ProposalBlockParts (Some ps))
    end.

(** ** Proposals of this node *)

Definition checkValidBlock : C bool :=
  s ← sd id; committed ← gets n_committed;
  match ValidBlock s with
  | None => mret false
  | Some b =>
      let sp := SynchronyParamsOrDefaults (Synchrony (State_Params committed)) in
      if (Height s =? InitialHeight committed)%Z
      then mret (H_Time (B_Header b) =? LastBlockTime committed)%Z
      else
        t ← lift (checkTimely (H_Time (B_Header b)) (ValidBlockRecvTime s) sp (ValidRound s));
        mret (t =? 0)%Z
  end.

Definition createProposalBlock (round : Z) : C (option Block * option PartSet) :=
  block ← executor_create cfg round;
  match block with
  | None => mret (None, None)
  | Some _ =>
      parts ← lift_err ErrBlockInvalid (MakePartSet block BlockPartSizeBytes);
      mret (block, Some parts)
  end.

Definition makeProposal (height round polRound : Z) (block : option Block)
    (blockParts : option PartSet) : C Proposal :=
  id ← BlockID_of block blockParts;
  b ← lift (deref block);
  let p := NewProposal height (H_CoreChainLockedHeight (B_Header b)) round polRound id
             (H_Time (B_Header b)) in
  mret (mkProposal (Prop_Type p) (Prop_Height p) (Prop_Round p) (Prop_POLRound p)
          (Prop_BlockID p) (Prop_Timestamp p) (Prop_Signature p) (Prop_CoreChainLockedHeight p)
          (B_CoreChainLock b)).

Definition set_signature (p : Proposal) (sig : bytes) : Proposal :=
  mkProposal (Prop_Type p) (Prop_Height p) (Prop_Round p) (Prop_POLRound p) (Prop_BlockID p)
    (Prop_Timestamp p) sig (Prop_CoreChainLockedHeight p) (Prop_CoreChainLockUpdate p).

Definition signProposal (height : Z) (p : Proposal) : C Proposal :=
  committed ← gets n_committed;
  vals ← lift (deref (ValidatorsAtHeight committed height));
  signing ← gets n_signing;
  match SignProposal signing (ChainID committed) (QuorumType vals) (QuorumHash vals)
          (Prop_ToProto p) with
  | (s, Some pp) => _ ← modify (set_signing s); mret (set_signature p (Prop_Signature pp))
  | (s, None) => _ ← modify (set_signing s); fail ErrSign
  end.

Fixpoint send_parts (height round : Z) (parts : list (option Part)) : C unit :=
  match parts with
  | [] => mret tt
  | part :: parts =>
      p ← lift (deref part);
      _ ← send o (BlockPartMessage height round p); send_parts height round parts
  end.

(** [Proposaler.Create]. *)
Definition Proposaler_Create (height round : Z) : C unit :=
  valid ← checkValidBlock;
  '(block, blockParts, polRound) ←
    (if (valid : bool) then
       s ← sd id; mret (ValidBlock s, ValidBlockParts s, ValidRound s)
     else '(b, ps) ← createProposalBlock round; mret (b, ps, (-1)%Z));
  p ← makeProposal height round polRound block blockParts;
  p ← signProposal height p;
  _ ← send o (ProposalMessage p);
  h ← sd Height; r ← sd Round; ps ← lift (deref blockParts);
  send_parts h r (parts ps).

End vote.

End csvote.
