(* ===== verification/ConsensusSteps.v ===== *)
(** * Consensus: the actions

    One definition per action of the controller (internal/consensus/state_enter_*.go,
    state_apply_commit.go, state_add_commit.go, state_try_add_commit.go,
    state_try_finalize_commit.go, state_add_prop_block.go, state_add_vote.go), and the
    events that drive them: messages of peers and of the node itself (msg_handlers.go),
    timeouts and the notice that there are transactions (state.go).

    An action that dispatches another one calls it; [_ = Dispatch(...)] drops the error
    ([ignore]) and a deferred function runs also after an error ([finally]).

    The part sets of the proposal, locked and valid blocks can be one object.  A block
    is set only with all its parts, and [AddPart] does not change a complete set, so
    the copies here stay equal to it. *)
From Stdlib Require Import ZArith Lia Init.Byte.
From stdpp Require Import base numbers list sets gmap sorting.
From S2P Require Import Prelude.
From S2P Require Import StateM.
From S2P Require Import Merkle.
From S2P Require Import PartSet.
From S2P Require Import Types.
From S2P Require Import Crypto.
From S2P Require Import QuorumSign.
From S2P Require Import Proposal.
From S2P Require Import ValidatorSet.
From S2P Require Import Recoverer.
From S2P Require Import VoteSet.
From S2P Require Import HeightVoteSet.
From S2P Require Import Evidence.
From S2P Require Import Block.
From S2P Require Import Params.
From S2P Require Import SmState.
From S2P Require Import Execution.
From S2P Require Import SelectProposer.
From S2P Require Import ConsensusTypes.
From S2P Require Import ConsensusData.
From S2P Require Import ConsensusVote.

Import statem partset types crypto quorum valset recoverer voteset heightvs.
Import proposal evidence block params sm abci selectproposer cstypes node csdata csvote.

Module cs.

(** Fingerprint of the extensions of a vote: 6 bytes. *)
Definition big_Bytes (v : Z) : bytes :=
  let fix strip (l : bytes) : bytes :=
    match l with x00 :: l => strip l | _ => l end in
  strip (be32 (Z.abs v)).

Definition fingerprint (b : bytes) : bytes := take 6 (b ++ replicate 6 x00).

Definition Fingerprint `{Crypto} (es : list VoteExtensionIf) : bytes :=
  match es with
  | [] => fingerprint []
  | _ => fingerprint (sha256 (concat (map (λ e,
           big_Bytes (VE_Type (vei_pb e)) ++ VE_Extension (vei_pb e)) es)))
  end.

Section steps.
Context `{Crypto} `{Dashd} `{MapOrder} `{StdTime} `{Executor} `{PrivValidator} `{BlockCodec}.
Context (cfg : Config) (o : Oracle).

(** ** Prevote *)

Definition EnterPrevote (height round : Z) : C unit :=
  s ← sd id;
  if negb (Height s =? height)%Z || (round <? Round s)%Z ||
     ((Round s =? round)%Z && (RoundStepPrevote <=? Step s)%Z) then mret tt
  else finally (prevoter_Do cfg o) (updateRoundStep round RoundStepPrevote).

(** ** Propose *)

Definition proposerWaitTime (t bt : Z) : Z := if (t <? bt)%Z then (bt - t)%Z else 0%Z.

(** The part of the action after the wait of the proposer. *)
Definition propose (height round : Z) (isProposer applyingCommit : bool) : C unit :=
  d ← proposeTimeout cfg round;
  _ ← ScheduleTimeout d height round RoundStepPropose;
  if negb isProposer then
    prop ← try selector_GetProposer;
    match prop with
    | inl prop => _ ← lift (deref prop); mret tt
    | inr _ => mret tt
    end
  else if applyingCommit then mret tt
  else if cfg_replayMode cfg then mret tt
  else
    may ← mayPropose o height;
    when may (Proposaler_Create cfg o height round).

Definition EnterPropose (height round : Z) : C unit :=
  s ← sd id;
  if negb (Height s =? height)%Z || (round <? Round s)%Z ||
     ((Round s =? round)%Z && (RoundStepPropose <=? Step s)%Z) then mret tt
  else
    isProposer ← isProposer (cfg_proTxHash cfg);
    commit ← sd SD_Commit;
    applyingCommit ← match commit with
                     | Some c => holdsProposalBlock (Commit_BlockID c)
                     | None => mret false
                     end;
    pwt ← (if isProposer && negb applyingCommit then
             now ← Now o; mret (proposerWaitTime now (LastBlockTime (SD_state s)))
           else mret 0%Z);
    if (0 <? pwt)%Z then ScheduleTimeout pwt height round RoundStepNewRound
    else
      finally (propose height round isProposer applyingCommit)
        (_ ← updateRoundStep round RoundStepPropose;
         complete ← isProposalComplete;
         when complete (ignore (EnterPrevote height round))).

(** ** New round *)

Definition EnterNewRound (height round : Z) : C unit :=
  s ← sd id;
  if negb (Height s =? height)%Z || (round <? Round s)%Z ||
     ((Round s =? round)%Z && negb (Step s =? RoundStepNewHeight)%Z) then mret tt
  else
    _ ← Now o;
    _ ← updateRoundStep round RoundStepNewRound;
    _ ← when (negb (round =? 0)%Z) (
          _ ← put dropProposal;
          commit ← sd SD_Commit;
          match commit with
          | Some c => retargetTo (Commit_BlockID c)
          | None => put (λ s, set_ProposalBlockParts None (set_ProposalBlock None s))
          end);
    votes ← deref_sd Votes;
    let next := int32 (round + 1) in
    votes ← lift_panic (SetRound (Z.to_nat (next - hvs_round votes + 3)) votes next);
    _ ← put (set_Votes (Some votes));
    _ ← put (set_TriggeredTimeoutPrecommit false);
    _ ← Save;
    _ ← NewRoundEvent;
    s ← sd id;
    let waitForTxs := WaitForTxs cfg && (round =? 0)%Z &&
                      negb (InitialHeight (SD_state s) =? Height s)%Z &&
                      negb (ProposeNextBlockImmediately s) in
    if (waitForTxs : bool) then
      when (0 <? CreateEmptyBlocksInterval cfg)%Z
        (ScheduleTimeout (CreateEmptyBlocksInterval cfg) height round RoundStepNewRound)
    else when (negb (DontAutoPropose cfg)) (EnterPropose height round).

(** ** Waiting for votes *)

Definition EnterPrevoteWait (height round : Z) : C unit :=
  s ← sd id;
  if negb (Height s =? height)%Z || (round <? Round s)%Z ||
     ((Round s =? round)%Z && (RoundStepPrevoteWait <=? Step s)%Z) then mret tt
  else
    vs ← prevotes round; any ← has_any vs;
    if negb any then panic
    else
      d ← voteTimeout cfg round;
      _ ← ScheduleTimeout d height round RoundStepPrevoteWait;
      updateRoundStep round RoundStepPrevoteWait.

Definition EnterPrecommitWait (height round : Z) : C unit :=
  s ← sd id;
  if negb (Height s =? height)%Z || (round <? Round s)%Z ||
     ((Round s =? round)%Z && TriggeredTimeoutPrecommit s) then mret tt
  else
    vs ← precommits round; any ← has_any vs;
    if negb any then panic
    else
      d ← voteTimeout cfg round;
      _ ← ScheduleTimeout d height round RoundStepPrecommitWait;
      put (set_TriggeredTimeoutPrecommit true).

(** ** Precommit *)

Definition precommitNil : C unit := signAddVote cfg o PrecommitType nilBlockID.

(** The proposal block has the polka: lock it, or lock it again. *)
Definition lockAndPrecommit (round : Z) (blockID : BlockID) (lockedMatches : bool) : C unit :=
  _ ← must (ensureProcess round);
  _ ← must executor_validate;
  if lockedMatches then
    _ ← put (set_LockedRound round);
    signAddVote cfg o PrecommitType blockID
  else
    _ ← updateLockedBlock;
    _ ← signAddVote cfg o PrecommitType blockID;
    _ ← updateValidBlock o; mret tt.

(** The body of the action, with a majority for [blockID]. *)
Definition precommitPolka (round : Z) (blockID : BlockID) : C unit :=
  votes ← deref_sd Votes;
  '(polRound, _) ← lift_panic (POLInfo votes);
  if (polRound <? round)%Z then panic
  else if IsNil blockID then precommitNil
  else
    s ← sd id;
    match SD_Proposal s, ProposalBlock s with
    | Some p, Some b =>
        if negb (Prop_Timestamp p =? H_Time (B_Header b))%Z then precommitNil
        else
          locked ← lockedBlockID; proposed ← proposalBlockID;
          let lockedMatches := BlockID_Equals locked blockID in
          let proposalMatches := BlockID_Equals proposed blockID in
          if negb proposalMatches && lockedMatches then precommitNil
          else if proposalMatches then lockAndPrecommit round blockID lockedMatches
          else _ ← retargetTo blockID; precommitNil
    | _, _ => precommitNil
    end.

Definition EnterPrecommit (height round : Z) : C unit :=
  s ← sd id;
  if negb (Height s =? height)%Z || (round <? Round s)%Z ||
     ((Round s =? round)%Z && (RoundStepPrecommit <=? Step s)%Z) then mret tt
  else finally
    (vs ← prevotes round;
     let '(blockID, ok) := majority vs in
     if negb ok then precommitNil else precommitPolka round blockID)
    (updateRoundStep round RoundStepPrecommit).

(** ** Applying a commit *)

(** Whether the commit's block is held; an error if what is held is not its block. *)
Definition verifyCommitBlock (commit : Commit) : C bool :=
  s ← sd id;
  match ProposalBlock s with
  | None => mret false
  | Some b =>
      if negb (HasHeader (ProposalBlockParts s) (BlockID_PartSetHeader (Commit_BlockID commit)))
      then fail ErrCommitBlock
      else
        same ← hashes_to (Some b) (BlockID_Hash (Commit_BlockID commit));
        if negb same then _ ← isProposalComplete; fail ErrCommitBlock
        else if negb (bool_decide (StateID_Hash (Header_StateID (B_Header b)) =
                                   BlockID_StateID (Commit_BlockID commit)))
        then fail ErrCommitBlock
        else mret true
  end.

Definition ApplyCommit (commit : Commit) : C unit :=
  s ← sd id;
  ready ← verifyCommitBlock commit;
  if negb ready then fail ErrCommitBlock
  else
    _ ← must (ensureProcess (Commit_Round commit));
    _ ← must executor_validate;
    _ ← SaveBlock (ProposalBlock s) (ProposalBlockParts s) commit;
    written ← flag o;
    if negb written then panic
    else
      '(state, immediately) ← must (executor_finalize commit);
      _ ← updateToState o state (Some commit);
      _ ← when immediately (put (set_ProposeNextBlockImmediately true));
      _ ← Save;
      start ← sd StartTime; h ← sd Height; now ← Now o;
      ScheduleTimeout (start - now) h 0 RoundStepNewHeight.

(** [proposalUpdater.updateStateData]. *)
Definition updateStateData (blockID : BlockID) : C unit :=
  _ ← replaceProposalBlockOnLockedBlock blockID;
  held ← holdsProposalBlock blockID;
  when (negb held) (_ ← retargetTo blockID; Save).

Definition finalizeCommit (height : Z) : C unit :=
  s ← sd id;
  if negb (Height s =? height)%Z || negb (Step s =? RoundStepApplyCommit)%Z then mret tt
  else
    vs ← precommits (CommitRound s);
    let '(blockID, ok) := majority vs in
    if negb ok then panic
    else if negb (HasHeader (ProposalBlockParts s) (BlockID_PartSetHeader blockID)) then panic
    else
      same ← hashes_to (ProposalBlock s) (BlockID_Hash blockID);
      if negb same then panic
      else
        vs ← lift (deref vs);
        seenCommit ← lift_panic (MakeCommit vs);
        r ← try (_ ← refuseUnprocessedCommit seenCommit;
                 _ ← must (ensureProcess (Commit_Round seenCommit));
                 verifyCommitExtensions seenCommit);
        match r with
        | inr _ => mret tt
        | inl _ => ignore (ApplyCommit seenCommit)
        end.

Definition TryFinalizeCommit (height : Z) : C unit :=
  s ← sd id;
  if negb (Height s =? height)%Z then panic
  else
    vs ← precommits (CommitRound s);
    let '(blockID, ok) := majority vs in
    if negb ok || IsNil blockID then mret tt
    else
      same ← hashes_to (ProposalBlock s) (BlockID_Hash blockID);
      when same (finalizeCommit height).

Definition EnterCommit (height commitRound : Z) : C unit :=
  s ← sd id;
  if negb (Height s =? height)%Z || (RoundStepApplyCommit <=? Step s)%Z then mret tt
  else finally
    (vs ← precommits commitRound;
     let '(blockID, ok) := majority vs in
     if negb ok then panic else updateStateData blockID)
    (round ← sd Round;
     _ ← updateRoundStep round RoundStepApplyCommit;
     _ ← put (set_CommitRound commitRound);
     now ← Now o; _ ← put (set_CommitTime now);
     ignore (TryFinalizeCommit height)).

Definition AddCommit (commit : Commit) : C unit :=
  _ ← updateStateData (Commit_BlockID commit);
  b ← sd ProposalBlock;
  match b with
  | None => mret tt
  | Some _ =>
      round ← sd Round;
      _ ← updateRoundStep round RoundStepApplyCommit;
      _ ← put (set_CommitRound (Commit_Round commit));
      now ← Now o; _ ← put (set_CommitTime now);
      _ ← ApplyCommit commit;
      published ← flag o;
      if negb published then fail ErrPublish
      else h ← sd Height; ignore (EnterNewRound h 0)
  end.

(** ** Commits of peers *)

Definition verifyProcessedCommit (commit : Commit) : C unit :=
  _ ← refuseUnprocessedCommit commit;
  r ← try (ensureProcess (Commit_Round commit));
  match r with
  | inr (ErrExecutor (ErrClient ErrClientStopped)) => panic
  | inr e => fail e
  | inl _ => _ ← executor_validate; verifyCommitExtensions commit
  end.

Definition verifyHeldCommit (commit : Commit) : C unit :=
  verified ← verifyCommitBlock commit;
  if negb verified then fail ErrCommitBlock else verifyProcessedCommit commit.

Definition prepareCommitForApply (commit : Commit) (ignoreProposalBlock : bool)
    (b : option budget) : C bool :=
  verified ← readyToApplyCommit commit ignoreProposalBlock b;
  if negb verified then mret false
  else if ignoreProposalBlock then mret true
  else
    verified ← verifyCommitBlock commit;
    if negb verified then mret false
    else _ ← verifyProcessedCommit commit; mret true.

Definition queueCandidate (commit : Commit) (peerID : bytes) (fromReplay : bool)
    (b : option budget) : C unit :=
  _ ← lift_err ErrCommitBasic (Commit_ValidateBasic commit);
  let key := newCommitKey commit in
  parked ← deref_sd SD_Commit; h ← sd Height; cands ← gets n_candidates;
  if bool_decide (key = newCommitKey parked) || candidates_holds cands h peerID key then mret tt
  else
    _ ← verifyCommitSignatures (Commit_BlockID commit) commit b;
    k ← tick;
    modify (λ n, set_candidates
      (candidates_add (o_connected o k) (n_candidates n) h commit peerID fromReplay) n).

(** A forged signature reports the sender; the queue drops reports when full. *)
Definition handleCommitVerifyError (e : cs_error) (peerID : bytes) (fromReplay : bool) : C unit :=
  match e with
  | ErrCommitVerify (ErrInvalidCommitSignature _) =>
      if fromReplay then mret tt
      else
        room ← flag o;
        when room (modify (λ n, set_punished (peerID :: n_punished n) n))
  | _ => mret tt
  end.

(** Runs a check of a peer's commit, reporting the peer when it fails. *)
Definition reporting {A} (peerID : bytes) (fromReplay : bool) (m : C A) : C A :=
  r ← try m;
  match r with
  | inl a => mret a
  | inr e => _ ← handleCommitVerifyError e peerID fromReplay; fail e
  end.

(** A verified commit of a later round: go to the round, and apply it if its block
    is held. *)
Definition jumpToCommit (commit : Commit) (peerID : bytes) (fromReplay : bool) : C unit :=
  held ← holdsProposalBlock (Commit_BlockID commit);
  _ ← when held (
        r ← try (verifyHeldCommit commit);
        match r with
        | inl _ => mret tt
        | inr e => _ ← put (set_Commit None);
                   _ ← handleCommitVerifyError e peerID fromReplay; fail e
        end);
  h ← sd Height;
  _ ← EnterNewRound h (Commit_Round commit);
  still ← (if (held : bool) then holdsProposalBlock (Commit_BlockID commit) else mret false);
  when still (AddCommit commit).

Definition TryAddCommit (commit : Commit) (peerID : bytes) (fromReplay : bool)
    (b : option budget) : C unit :=
  s ← sd id;
  if bool_decide (is_Some (SD_Commit s)) then
    when (Commit_Height commit =? Height s)%Z
      (reporting peerID fromReplay (queueCandidate commit peerID fromReplay b))
  else
    jumped ← (if (Commit_Height commit =? Height s)%Z && (Round s <? Commit_Round commit)%Z
              then reporting peerID fromReplay (prepareCommitForApply commit true b)
              else mret false);
    if (jumped : bool) then jumpToCommit commit peerID fromReplay
    else
      verified ← reporting peerID fromReplay (prepareCommitForApply commit false b);
      held ← (if (verified : bool) then holdsProposalBlock (Commit_BlockID commit)
              else mret false);
      when held (
        _ ← put (set_Commit (Some commit));
        AddCommit commit).

(** ** Block parts *)

Definition ProposalCompleted (height : Z) : C unit :=
  s ← sd id;
  vs ← prevotes (Round s);
  let '(blockID, hasTwoThirds) := majority vs in
  _ ← when (hasTwoThirds && negb (IsNil blockID) && (ValidRound s <? Round s)%Z) (
        id ← proposalBlockID;
        when (BlockID_Equals id blockID) (_ ← updateValidBlock o; Save));
  complete ← (if (Step s <=? RoundStepPropose)%Z then isProposalComplete else mret false);
  if (complete : bool) then
    _ ← EnterPrevote height (Round s);
    when hasTwoThirds (r ← sd Round; EnterPrecommit height r)
  else when (Step s =? RoundStepApplyCommit)%Z (TryFinalizeCommit height).

(** The order in which parked commits are tried: the round processed last, then the
    order of arrival. *)
Definition commit_rank (processed : option Z) (cs : list Commit) (c : Commit) : Z :=
  if bool_decide (processed = Some (Commit_Round c)) then -1
  else match list_find (λ d, Commit_Round d = Commit_Round c) cs with
       | Some (i, _) => Z.of_nat i
       | None => 0
       end.

Fixpoint insert_ranked (rank : Commit → Z) (c : Commit) (l : list Commit) : list Commit :=
  match l with
  | [] => [c]
  | d :: l' => if (rank c <=? rank d)%Z then c :: l else d :: insert_ranked rank c l'
  end.

Definition sort_ranked (rank : Commit → Z) (l : list Commit) : list Commit :=
  foldr (insert_ranked rank) [] l.

Fixpoint first_verified (l : list Commit) : C (option Commit) :=
  match l with
  | [] => mret None
  | c :: l =>
      r ← try (verifyHeldCommit c);
      match r with inl _ => mret (Some c) | inr _ => first_verified l end
  end.

Definition selectParkedCommit : C (option Commit) :=
  parked ← deref_sd SD_Commit;
  _ ← put (set_Commit None);
  h ← sd Height; cands ← gets n_candidates;
  let '(rest, queued) := candidates_take cands h in
  _ ← modify (set_candidates rest);
  let candidates := parked :: map cand_commit queued in
  crs ← sd RoundCRS;
  isProcessed ← processedFor (CRS_Round crs);
  let processed := if (isProcessed : bool) then Some (CRS_Round crs) else None in
  chosen ← first_verified (sort_ranked (commit_rank processed candidates) candidates);
  match chosen with
  | Some c => _ ← put (set_Commit (Some c)); mret chosen
  | None => _ ← Save; mret None
  end.

(** A proposal whose block arrived takes its block ID and chain lock height from the
    block, or is dropped if it is for another block. *)
Definition correctProposal (b : Block) : C unit :=
  p ← sd SD_Proposal; ps ← sd ProposalBlockParts;
  match p with
  | None => mret tt
  | Some p =>
      derived ← BlockID_of (Some b) ps;
      if negb (bool_decide (BlockID_Hash derived = BlockID_Hash (Prop_BlockID p))) ||
         negb (PSH_Equals (BlockID_PartSetHeader derived) (BlockID_PartSetHeader (Prop_BlockID p)))
      then put dropProposal
      else put (set_Proposal (Some (mkProposal (Prop_Type p) (Prop_Height p) (Prop_Round p)
                  (Prop_POLRound p) derived (Prop_Timestamp p) (Prop_Signature p)
                  (H_CoreChainLockedHeight (B_Header b)) (Prop_CoreChainLockUpdate p))))
  end.

(** The block of a complete part set; the sizes of the reads do not matter. *)
Definition decodeBlock (ps : PartSet) : C Block :=
  reader ← lift_err ErrPart (GetReader ps);
  '(bz, _) ← lift_err ErrPart (ReadAll reader (replicate (S (Z.to_nat (byteSize ps))) 512));
  match Unmarshal_Block bz with
  | None => fail ErrDecodeBlock
  | Some pbb => lift_err ErrBlockInvalid (BlockFromProto (Some pbb))
  end.

(** The part set is complete: take its block, and apply a commit that waited for it. *)
Definition completeBlock (ps : PartSet) : C unit :=
  b ← decodeBlock ps;
  _ ← correctProposal b;
  _ ← put (set_ProposalBlock (Some b));
  _ ← Save;
  parked ← sd SD_Commit;
  match parked with
  | None => mret tt
  | Some _ =>
      commit ← selectParkedCommit;
      match commit with Some c => AddCommit c | None => mret tt end
  end.

Definition addProposalBlockPart (height : Z) (part : Part) : C bool :=
  s ← sd id;
  if negb (Height s =? height)%Z then mret false
  else match ProposalBlockParts s with
  | None => mret false
  | Some _ =>
      allowed ← flag o;
      if negb allowed then mret false
      else
        '(parts, added) ← lift_err ErrPart (AddPart sha256 (ProposalBlockParts s) part);
        _ ← put (set_ProposalBlockParts parts);
        ps ← lift (deref parts);
        if (Params_MaxBytes (State_Params (SD_state s)) <? byteSize ps)%Z then fail ErrPartsTooLarge
        else
          _ ← when (added && partset.IsComplete ps) (completeBlock ps);
          mret added
  end.

Definition AddProposalBlockPart (height : Z) (part : Part) : C unit :=
  s ← sd id;
  added ← addProposalBlockPart height part;
  s' ← sd id;
  let commitNotExist := bool_decide (SD_Commit s = None) in
  let commitRejected := negb commitNotExist && bool_decide (SD_Commit s' = None) &&
                        (Height s' =? height)%Z in
  when (added && (commitNotExist || commitRejected)) (
    ps ← deref_sd ProposalBlockParts;
    when (partset.IsComplete ps) (ProposalCompleted height)).

(** ** Votes *)

Definition addToVoteSet (r : vote_ref) (b : option budget) (verified : option VoteVerification) :
    C bool :=
  votes ← deref_sd Votes;
  '(votes, added, err) ← lift_err ErrHeightVotes (hvs_addVote votes r b verified);
  _ ← put (set_Votes (Some votes));
  match err with Some e => fail (ErrHeightVotes e) | None => mret added end.

(** A polka of this round for a block makes it the valid block, or the block to
    collect. *)
Definition updateValidBlockMw (v : Vote) (added : bool) : C unit :=
  when added (
    vs ← prevotes (Vote_Round v);
    let '(blockID, ok) := majority vs in
    s ← sd id;
    if negb ok || IsNil blockID || (Vote_Round v <=? ValidRound s)%Z ||
       negb (Vote_Round v =? Round s)%Z then mret tt
    else
      id ← proposalBlockID;
      _ ← when (BlockID_Equals id blockID) (_ ← updateValidBlock o; mret tt);
      _ ← retargetTo blockID;
      Save).

Definition dispatchPrevoteMw (v : Vote) (added : bool) : C unit :=
  when (added && (Vote_Type v =? PrevoteType)%Z) (
    vs ← prevotes (Vote_Round v);
    s ← sd id;
    let height := Height s in
    ahead ← (if (Round s <? Vote_Round v)%Z then has_any vs else mret false);
    if (ahead : bool) then ignore (EnterNewRound height (Vote_Round v))
    else if (Round s =? Vote_Round v)%Z && (RoundStepPrevote <=? Step s)%Z then
      let '(blockID, ok) := majority vs in
      complete ← (if (ok : bool) then isProposalComplete else mret false);
      if ok && (complete || IsNil blockID) then ignore (EnterPrecommit height (Vote_Round v))
      else
        any ← has_any vs;
        when any (ignore (EnterPrevoteWait height (Vote_Round v)))
    else match SD_Proposal s with
    | Some p =>
        if (0 <=? Prop_POLRound p)%Z && (Prop_POLRound p =? Vote_Round v)%Z then
          complete ← isProposalComplete;
          when complete (ignore (EnterPrevote height (Round s)))
        else mret tt
    | None => mret tt
    end).

Definition dispatchPrecommitMw (v : Vote) (added : bool) : C unit :=
  when (added && (Vote_Type v =? PrecommitType)%Z) (
    vs ← precommits (Vote_Round v);
    s ← sd id;
    let height := Height s in
    let round := Vote_Round v in
    let '(blockID, ok) := majority vs in
    if negb ok then
      any ← (if (Round s <=? round)%Z then has_any vs else mret false);
      when any (
        _ ← ignore (EnterNewRound height round);
        ignore (EnterPrecommitWait height round))
    else
      _ ← ignore (EnterNewRound height round);
      _ ← ignore (EnterPrecommit height round);
      if IsNil blockID then ignore (EnterPrecommitWait height round)
      else
        _ ← ignore (EnterCommit height round);
        when (has_majority vs) (h ← sd Height; ignore (EnterNewRound h 0))).

(** The vote stored in the slot of a vote is the same vote. *)
Definition alreadyStored (v : Vote) : C bool :=
  votes ← deref_sd Votes;
  vs ← lift_err ErrHeightVotes (getVoteSet votes (Vote_Round v) (Vote_Type v));
  existing ← match vs with
             | Some vs => lift_panic (vs_GetByIndex vs (Vote_ValidatorIndex v))
             | None => mret None
             end;
  mret (match existing with
        | Some e => bool_decide (Vote_BlockSignature e = Vote_BlockSignature v) &&
                    bool_decide (Fingerprint (Vote_VoteExtensions e) =
                                 Fingerprint (Vote_VoteExtensions v))
        | None => false
        end).

Definition is_own (proTxHash : bytes) : bool :=
  bool_decide (default [] (cfg_privValidator cfg) = proTxHash).

(** Precommits of others are verified, then shown to the application. *)
Definition verifyVoteExtensionMw (r : vote_ref) (b : option budget)
    (next : option VoteVerification → C unit) : C unit :=
  let v := ref_vote r in
  if negb (Vote_Type v =? PrecommitType)%Z || IsNil (Vote_BlockID v) ||
     is_own (Vote_ValidatorProTxHash v) then next None
  else
    stored ← alreadyStored v;
    if (stored : bool) then mret tt
    else
      st ← sd SD_state;
      vals ← lift (deref (State_Validators st));
      match GetByIndex vals (Vote_ValidatorIndex v) with
      | None => fail ErrValidatorIndex
      | Some val =>
          verified ← lift_err ErrVerifyVote (VerifyVoteSignatures (Some r) (ChainID st)
            (QuorumType vals) (QuorumHash vals) (Val_PubKey val) (ProTxHash val) b);
          _ ← ensureOwnRound;
          _ ← app_call (λ app, VerifyVoteExtension app v);
          next (Some verified)
      end.

Definition validateVoteMw (v : Vote) (next : C unit) : C unit :=
  h ← sd Height;
  if negb (Vote_Height v =? h)%Z then mret tt
  else
    vals ← deref_sd SD_Validators;
    if negb (HasPublicKeys vals) then mret tt
    else if (Vote_ValidatorIndex v <? 0)%Z || (Size vals <=? Vote_ValidatorIndex v)%Z
    then fail ErrValidatorIndex
    else next.

(** Conflicting votes of another validator go to the evidence pool. *)
Definition errorMw (v : Vote) (next : C unit) : C unit :=
  r ← try next;
  match r with
  | inl _ => mret tt
  | inr (ErrHeightVotes (ErrVoteConflicting e)) =>
      if bool_decide (cfg_privValidator cfg = None) then fail ErrPrivValidatorNotSet
      else
        _ ← when (negb (is_own (Vote_ValidatorProTxHash v)))
              (modify (λ n, set_evidence ((e, v) :: n_evidence n) n));
        fail (ErrHeightVotes (ErrVoteConflicting e))
  | inr e => fail e
  end.

Definition addPrevote (r : vote_ref) (b : option budget) : C unit :=
  let v := ref_vote r in
  errorMw v (validateVoteMw v (
    added ← addToVoteSet r b None;
    _ ← updateValidBlockMw v added;
    dispatchPrevoteMw v added)).

Definition addPrecommit (r : vote_ref) (b : option budget) : C unit :=
  let v := ref_vote r in
  errorMw v (validateVoteMw v (verifyVoteExtensionMw r b (λ verified,
    added ← addToVoteSet r b verified;
    dispatchPrecommitMw v added))).

Definition AddVote (r : vote_ref) (b : option budget) : C unit :=
  if (Vote_Type (ref_vote r) =? PrevoteType)%Z then addPrevote r b
  else if (Vote_Type (ref_vote r) =? PrecommitType)%Z then addPrecommit r b
  else mret tt.

(** ** Messages *)

(** [ctxWithPeerVerificationBudget]: what the node sends itself is not limited. *)
Definition peerBudget (peerID : bytes) (fromReplay : bool) : C (option budget) :=
  k ← tick;
  mret (if bool_decide (peerID = []) || fromReplay || negb (cfg_budget cfg) then None
        else Some (o_budget o k)).

Definition handleMessage (m : Message) (peerID : bytes) (receivedAt : Z) (fromReplay : bool) :
    C unit :=
  b ← peerBudget peerID fromReplay;
  match m with
  | ProposalMessage p => Proposaler_Set p receivedAt b
  | BlockPartMessage height _ part => AddProposalBlockPart height part
  | VoteMessage r => AddVote r b
  | CommitMessage c => TryAddCommit c peerID fromReplay b
  end.

(** The middlewares around a handler: a message of a peer may wait for the budget in
    vain, one of the node itself is in the log before it is handled. *)
Definition dispatch (m : Message) (peerID : bytes) (receivedAt : Z) (fromReplay : bool) : C unit :=
  admitted ← (if bool_decide (peerID = []) || fromReplay || negb (cfg_budget cfg)
              then mret true else flag o);
  written ← (if bool_decide (peerID = []) && negb fromReplay then flag o else mret true);
  if negb written then panic
  else when admitted (ignore (handleMessage m peerID receivedAt fromReplay)).

(** ** Timeouts and transactions *)

Definition handleTimeout (ti : timeoutInfo) : C unit :=
  s ← sd id;
  let h := ti_Height ti in
  let r := ti_Round ti in
  if negb (h =? Height s)%Z || (r <? Round s)%Z || ((r =? Round s)%Z && (ti_Step ti <? Step s)%Z)
  then mret tt
  else if (ti_Step ti =? RoundStepNewHeight)%Z then ignore (EnterNewRound h 0)
  else if (ti_Step ti =? RoundStepNewRound)%Z then ignore (EnterPropose h r)
  else if (ti_Step ti =? RoundStepPropose)%Z then ignore (EnterPrevote h r)
  else if (ti_Step ti =? RoundStepPrevoteWait)%Z then ignore (EnterPrecommit h r)
  else if (ti_Step ti =? RoundStepPrecommitWait)%Z then
    _ ← ignore (EnterPrecommit h r); ignore (EnterNewRound h (int32 (r + 1)))
  else panic.

Definition handleTxsAvailable : C unit :=
  s ← sd id;
  if negb (Round s =? 0)%Z then mret tt
  else if (Step s =? RoundStepNewHeight)%Z then
    if (InitialHeight (SD_state s) =? Height s)%Z then mret tt
    else
      now ← Now o;
      ScheduleTimeout (StartTime s - now + millisecond) (Height s) 0 RoundStepNewRound
  else when (Step s =? RoundStepNewRound)%Z (ignore (EnterPropose (Height s) (Round s))).

(** ** What can happen to a node *)

Inductive event :=
  | PeerMessage (m : Message) (peerID : bytes) (receivedAt : Z)
  | OwnMessage (receivedAt : Z)
  | TimeoutFires (ti : timeoutInfo)
  | TxsAvailable
  | PeerMaj23 (height round voteType : Z) (peerID : bytes) (blockID : BlockID).

Global Instance timeoutInfo_eq_dec : EqDecision timeoutInfo.
Proof. solve_decision. Defined.

(** The first message of the node to itself. *)
Definition nextOwn : C (option Message) :=
  q ← gets n_queue;
  match q with
  | [] => mret None
  | m :: q => _ ← modify (set_queue q); mret (Some m)
  end.

(** One iteration of [receiveRoutine], or a claim handled by the reactor.  Peers have
    an ID, and only timeouts that were scheduled fire. *)
Definition handle (e : event) : C unit :=
  match e with
  | PeerMessage m peerID t =>
      when (negb (bool_decide (peerID = []))) (_ ← dispatch m peerID t false; Save)
  | OwnMessage t =>
      m ← nextOwn;
      match m with Some m => _ ← dispatch m [] t false; Save | None => mret tt end
  | TimeoutFires ti =>
      l ← gets n_timeouts;
      when (bool_decide (ti ∈ l)) (_ ← handleTimeout ti; Save)
  | TxsAvailable => _ ← handleTxsAvailable; Save
  | PeerMaj23 height round voteType peerID blockID =>
      s ← sd id;
      when (Height s =? height)%Z (
        votes ← deref_sd Votes;
        ignore (votes ← lift_err ErrHeightVotes
                  (hvs_SetPeerMaj23 votes height round voteType peerID blockID);
                put (set_Votes (Some votes))))
  end.

(** A node that panics stops. *)
Fixpoint run (n : Node) (es : list event) : option Node :=
  match es with
  | [] => Some n
  | e :: es => match handle e n with (n, Ok _) => run n es | _ => None end
  end.

End steps.

End cs.
