(* ===== verification/ConsensusInv.v ===== *)
(** * Consensus: what the helpers leave alone

    The safety of consensus depends on few fields of a node: its position, its lock,
    the votes it holds and has signed, its commits, blocks and timeouts.  [core]
    projects them.  Most of the code keeps the projection, which [keeps] states and
    the tactic [kp] proves by following the code. *)
From Stdlib Require Import ZArith Lia Init.Byte.
From stdpp Require Import base numbers list sets gmap.
From S2P Require Import Prelude.
From S2P Require Import StateM.
From S2P Require Import Merkle.
From S2P Require Import PartSet.
From S2P Require Import Types.
From S2P Require Import Crypto.
From S2P Require Import QuorumSign.
From S2P Require Import Proposal.
From S2P Require Import ValidatorSet.
From S2P Require Import Recoverer.
From S2P Require Import VoteSet.
From S2P Require Import HeightVoteSet.
From S2P Require Import Evidence.
From S2P Require Import Block.
From S2P Require Import Params.
From S2P Require Import SmState.
From S2P Require Import Execution.
From S2P Require Import SelectProposer.
From S2P Require Import ConsensusTypes.
From S2P Require Import ConsensusData.
From S2P Require Import ConsensusVote.
From S2P Require Import ConsensusSteps.

Import statem partset types crypto quorum valset recoverer voteset heightvs.
Import proposal evidence block params sm abci selectproposer cstypes node csdata csvote cs.

Module csinv.

(** The votes a node has sent itself and not yet handled. *)
Definition vote_of (m : Message) : option Vote :=
  match m with VoteMessage r => Some (ref_vote r) | _ => None end.

Record Core := mkCore {
  c_height : Z;
  c_round : Z;
  c_step : Z;
  c_lround : Z;
  c_lblock : option Block;
  c_lparts : option PartSet;
  c_vals : option ValidatorSet;
  c_state : State;
  c_votes : option HeightVoteSet;
  c_commit : option Commit;
  c_cround : Z;
  c_signed : list Vote;
  c_own : list Vote;
  c_store : list savedBlock;
  c_timeouts : list timeoutInfo;
  c_cands : commitCandidates }.

Section core.
Context `{Executor} `{PrivValidator}.

Definition core (n : Node) : Core :=
  let s := n_sd n in
  mkCore (Height s) (Round s) (Step s) (LockedRound s) (LockedBlock s) (LockedBlockParts s)
    (SD_Validators s) (SD_state s) (Votes s) (SD_Commit s) (CommitRound s) (n_signed n)
    (omap vote_of (n_queue n)) (n_store n) (n_timeouts n) (n_candidates n).

(** The core with the proposal block. *)
Definition core2 (n : Node) : Core * option Block * option PartSet :=
  (core n, ProposalBlock (n_sd n), ProposalBlockParts (n_sd n)).

(** A block is there only with its parts. *)
Definition with_parts (n : Node) : Prop :=
  let s := n_sd n in
  (is_Some (ProposalBlock s) → is_Some (ProposalBlockParts s)) ∧
  (is_Some (LockedBlock s) → is_Some (LockedBlockParts s)).

(** Code that changes neither, and code that may change the proposal block. *)
Definition same (n n' : Node) : Prop := core2 n' = core2 n.
Definition kept (n n' : Node) : Prop := core n' = core n ∧ (with_parts n → with_parts n').

Global Instance same_preorder : PreOrder same.
Proof. split; unfold same; [done|congruence]. Qed.

Global Instance kept_preorder : PreOrder kept.
Proof. split; unfold kept; [done|intros ??? [??] [??]; split; [congruence|auto]]. Qed.

Lemma same_kept n n' : same n n' → kept n n'.
Proof.
  intros E. assert (core n' = core n) as Ec by exact (f_equal (λ x, x.1.1) E).
  split; [done|]. unfold with_parts.
  rewrite (f_equal (λ x, x.1.2) E : ProposalBlock (n_sd n') = _).
  rewrite (f_equal snd E : ProposalBlockParts (n_sd n') = _).
  rewrite (f_equal c_lblock Ec : LockedBlock (n_sd n') = _).
  by rewrite (f_equal c_lparts Ec : LockedBlockParts (n_sd n') = _).
Qed.

(** ** Code that keeps a projection *)

Definition keeps {A} (R : Node → Node → Prop) (m : C A) : Prop :=
  ∀ n, match m n with (n', Ok _) => R n n' | (n', Err _) => R n n' | _ => True end.

Section rules.
Context (R : Node → Node → Prop) `{!PreOrder R}.

Lemma keeps_pure {A} (r : Node → outcome cs_error A) : keeps R (λ n, (n, r n)).
Proof. intros n. by destruct (r n). Qed.

Lemma keeps_ret {A} (a : A) : keeps R (mret a).
Proof. intros n. unfold mret, M_ret. done. Qed.

Lemma keeps_bind {A B} (m : C A) (k : A → C B) :
  keeps R m → (∀ a, keeps R (k a)) → keeps R (m ≫= k).
Proof.
  intros Hm Hk n. unfold mbind, M_bind. specialize (Hm n).
  destruct (m n) as [n' [a|e|]]; [|done|done]. specialize (Hk a n').
  destruct (k a n') as [n'' [b|e|]]; [by etrans|by etrans|done].
Qed.

Lemma keeps_modify g : (∀ n, R n (g n)) → keeps R (modify g).
Proof. intros Hg n. apply Hg. Qed.

Lemma keeps_put g : (∀ n, R n (set_sd (g (n_sd n)) n)) → keeps R (put g).
Proof. apply keeps_modify. Qed.

Lemma keeps_try {A} (m : C A) : keeps R m → keeps R (try m).
Proof. intros Hm n. unfold try. specialize (Hm n). by destruct (m n) as [n' [a|e|]]. Qed.

Lemma keeps_ignore {A} (m : C A) : keeps R m → keeps R (ignore m).
Proof.
  intros Hm. apply keeps_bind; [by apply keeps_try|]. intros a. apply keeps_ret.
Qed.

Lemma keeps_must {A} (m : C A) : keeps R m → keeps R (must m).
Proof. intros Hm n. unfold must. specialize (Hm n). by destruct (m n) as [n' [a|e|]]. Qed.

Lemma keeps_when b m : keeps R m → keeps R (when b m).
Proof. intros Hm. destruct b; [done|apply keeps_ret]. Qed.

Lemma keeps_app_call {A} (g : App → App * outcome exec_error A) :
  (∀ x n, R n (set_app x n)) → keeps R (app_call g).
Proof.
  intros Hf n. unfold app_call. destruct (g (n_app n)) as [app [a|e|]]; cbn; auto.
Qed.
End rules.

Lemma keeps_kept {A} (m : C A) : keeps same m → keeps kept m.
Proof.
  intros Hm n. specialize (Hm n). destruct (m n) as [n' [a|e|]]; auto using same_kept.
Qed.

(** What is kept can be used in triples. *)
Lemma hoare_same {A} (m : C A) (P : Core * option Block * option PartSet → Prop) :
  keeps same m → hoare (λ n, P (core2 n)) m (λ _ n, P (core2 n)) (λ n, P (core2 n)).
Proof.
  intros Hm n Hn. specialize (Hm n). unfold same in Hm.
  by destruct (m n) as [n' [a|e|]]; try rewrite Hm.
Qed.

Lemma hoare_kept {A} (m : C A) (P : Core → Prop) :
  keeps kept m →
  hoare (λ n, P (core n) ∧ with_parts n) m (λ _ n, P (core n) ∧ with_parts n)
    (λ n, P (core n) ∧ with_parts n).
Proof.
  intros Hm n [Hn Hp]. specialize (Hm n). unfold kept in Hm.
  destruct (m n) as [n' [a|e|]]; [| |done]; destruct Hm as [-> Hw]; auto.
Qed.

(** Triples from a fixed view of the node. *)
Definition at_view (x : Core * option Block * option PartSet) (n : Node) : Prop := core2 n = x.

Lemma hoare_at {A} (m : C A) (P : Node → Prop) Q QE :
  (∀ n, P n → hoare (at_view (core2 n)) m Q QE) → hoare P m Q QE.
Proof. intros Hm n Hn. by apply (Hm n Hn n). Qed.

Lemma at_bind {A B} (m : C A) (k : A → C B) x Q (QE : Node → Prop) :
  keeps same m → (∀ a, hoare (at_view x) (k a) Q QE) → (∀ n, at_view x n → QE n) →
  hoare (at_view x) (m ≫= k) Q QE.
Proof.
  intros Hm Hk He. eapply hoare_bind; [|exact Hk].
  eapply hoare_weaken; [by apply (hoare_same m (λ y, y = x))|done|done|exact He].
Qed.

Lemma at_sd {A B} (f : StateData → A) (k : A → C B) x Q (QE : Node → Prop) :
  (∀ n, core2 n = x → hoare (at_view x) (k (f (n_sd n))) Q QE) →
  hoare (at_view x) (sd f ≫= k) Q QE.
Proof. intros Hk n Hn. exact (Hk n Hn n Hn). Qed.

Lemma at_keeps {A} (m : C A) x (Q : A → Node → Prop) (QE : Node → Prop) :
  keeps same m → (∀ a n, at_view x n → Q a n) → (∀ n, at_view x n → QE n) →
  hoare (at_view x) m Q QE.
Proof.
  intros Hm HQ HE. eapply hoare_weaken; [by apply (hoare_same m (λ y, y = x))|done|exact HQ|exact HE].
Qed.
End core.

Create HintDb keeps.

Ltac kp_same :=
  first [red; reflexivity
        |split; [reflexivity|unfold with_parts; cbn; destruct 1; split; intros; eauto; by eauto]].

Ltac kp_step :=
  match goal with
  | |- keeps _ (mbind _ _) => apply keeps_bind; [apply _| |intros ?]
  | |- keeps _ (mret _) => apply keeps_ret; apply _
  | |- keeps _ (sd _) => apply keeps_pure; apply _
  | |- keeps _ (gets _) => apply keeps_pure; apply _
  | |- keeps _ (lift _) => apply keeps_pure; apply _
  | |- keeps _ (lift_err _ _) => apply keeps_pure; apply _
  | |- keeps _ (lift_panic _) => apply keeps_pure; apply _
  | |- keeps _ (fail _) => apply keeps_pure; apply _
  | |- keeps _ panic => apply keeps_pure; apply _
  | |- keeps _ (put _) => apply keeps_put; intros ?; kp_same
  | |- keeps _ (modify _) => apply keeps_modify; intros ?; kp_same
  | |- keeps _ (app_call _) => apply keeps_app_call; intros ??; kp_same
  | |- keeps _ (try _) => apply keeps_try
  | |- keeps _ (ignore _) => apply keeps_ignore; [apply _|]
  | |- keeps _ (must _) => apply keeps_must
  | |- keeps _ (when _ _) => apply keeps_when; [apply _|]
  | |- keeps _ (match ?x with _ => _ end) => destruct x
  | |- keeps _ ((match ?x with _ => _ end) _) => destruct x
  | |- keeps _ (let _ := _ in _) => cbv zeta
  end.

Ltac kp :=
  repeat (kp_step || (solve [eauto 3 with keeps]) || (apply keeps_kept; solve [eauto 3 with keeps])).

Section helpers.
Context `{Crypto} `{Dashd} `{MapOrder} `{StdTime} `{Executor} `{PrivValidator} `{BlockCodec}.
Context (cfg : Config) (o : Oracle).

Lemma k_deref {A} (f : StateData → option A) : keeps same (deref_sd f).
Proof. unfold deref_sd. kp. Qed.

Lemma k_tick : keeps same tick.
Proof. unfold tick. kp. Qed.
#[local] Hint Resolve k_deref k_tick : keeps.

Lemma k_Now : keeps same (Now o).
Proof. unfold Now. kp. Qed.

Lemma k_flag : keeps same (flag o).
Proof. unfold flag. kp. Qed.
#[local] Hint Resolve k_Now k_flag : keeps.

Lemma k_Save : keeps same Save.
Proof. unfold Save. apply keeps_modify. intros n. cbn zeta. red. by destruct (_ || _). Qed.

(** Sending anything but a vote. *)
Lemma k_send m : vote_of m = None → keeps same (send o m).
Proof.
  intros Hm. unfold send. kp. apply keeps_modify. intros n. unfold same, core2, core. cbn.
  by rewrite omap_app; cbn; rewrite Hm, app_nil_r.
Qed.

Lemma k_BlockID_of b ps : keeps same (BlockID_of b ps).
Proof. unfold BlockID_of. kp. Qed.

Lemma k_hashes_to b h : keeps same (hashes_to b h).
Proof. unfold hashes_to. kp. Qed.

Lemma k_block_hash b : keeps same (block_hash b).
Proof. unfold block_hash. kp. Qed.
#[local] Hint Resolve k_Save k_BlockID_of k_hashes_to k_block_hash : keeps.

Lemma k_proposalBlockID : keeps same proposalBlockID.
Proof. unfold proposalBlockID. kp. Qed.

Lemma k_lockedBlockID : keeps same lockedBlockID.
Proof. unfold lockedBlockID. kp. Qed.

Lemma k_rs_BlockID : keeps same rs_BlockID.
Proof. unfold rs_BlockID. kp. Qed.

Lemma k_prevotes r : keeps same (prevotes r).
Proof. unfold prevotes. kp. Qed.

Lemma k_precommits r : keeps same (precommits r).
Proof. unfold precommits. kp. Qed.

Lemma k_has_any vs : keeps same (has_any vs).
Proof. unfold has_any. kp. Qed.

Lemma k_GetProposer : keeps same selector_GetProposer.
Proof. unfold selector_GetProposer. kp. Qed.
#[local] Hint Resolve k_proposalBlockID k_lockedBlockID k_rs_BlockID k_prevotes k_precommits
  k_has_any k_GetProposer : keeps.

Lemma k_isProposer p : keeps same (isProposer p).
Proof. unfold isProposer. kp. Qed.

Lemma k_NewRoundEvent : keeps same NewRoundEvent.
Proof. unfold NewRoundEvent. kp. Qed.

Lemma k_isProposalComplete : keeps same isProposalComplete.
Proof. unfold isProposalComplete. kp. Qed.

Lemma k_proposalIsTimely : keeps same proposalIsTimely.
Proof. unfold proposalIsTimely. kp. Qed.

Lemma k_updateValidBlock : keeps same (updateValidBlock o).
Proof. unfold updateValidBlock. kp. Qed.

Lemma k_dropStaleProposal b : keeps same (dropStaleProposal b).
Proof. unfold dropStaleProposal. kp. Qed.

Lemma k_holds b : keeps same (holdsProposalBlock b).
Proof. unfold holdsProposalBlock. kp. Qed.
#[local] Hint Resolve k_isProposer k_NewRoundEvent k_isProposalComplete k_proposalIsTimely
  k_updateValidBlock k_dropStaleProposal k_holds : keeps.

Lemma k_retargetTo b : keeps kept (retargetTo b).
Proof. unfold retargetTo. kp. Qed.

Lemma k_replaceProposalBlock b : keeps kept (replaceProposalBlockOnLockedBlock b).
Proof. unfold replaceProposalBlockOnLockedBlock. kp. Qed.

Lemma k_proposeTimeout r : keeps same (proposeTimeout cfg r).
Proof. unfold proposeTimeout. kp. Qed.

Lemma k_voteTimeout r : keeps same (voteTimeout cfg r).
Proof. unfold voteTimeout. kp. Qed.

Lemma k_checkProposer p b : keeps same (checkProposer p b).
Proof. unfold checkProposer. kp. Qed.
#[local] Hint Resolve k_retargetTo k_replaceProposalBlock k_proposeTimeout k_voteTimeout
  k_checkProposer : keeps.

Lemma k_isValidForPrevote : keeps same isValidForPrevote.
Proof. unfold isValidForPrevote. kp. Qed.

Lemma k_verifyCommitSignatures id c b : keeps same (verifyCommitSignatures id c b).
Proof. unfold verifyCommitSignatures. kp. Qed.

Lemma k_retainedConflict c : keeps same (retainedConflict c).
Proof. unfold retainedConflict. kp. Qed.

Lemma k_create r : keeps same (executor_create cfg r).
Proof. unfold executor_create. kp. Qed.

Lemma k_processedFor r : keeps same (processedFor r).
Proof. unfold processedFor. kp. Qed.
#[local] Hint Resolve k_isValidForPrevote k_verifyCommitSignatures k_retainedConflict k_create
  k_processedFor : keeps.

Lemma k_ensureProcess r : keeps same (ensureProcess r).
Proof. unfold ensureProcess. kp. Qed.
#[local] Hint Resolve k_ensureProcess : keeps.

Lemma k_ensureOwnRound : keeps same ensureOwnRound.
Proof. unfold ensureOwnRound. kp. Qed.

Lemma k_validate : keeps same executor_validate.
Proof. unfold executor_validate. kp. Qed.

Lemma k_refuse c : keeps same (refuseUnprocessedCommit c).
Proof. unfold refuseUnprocessedCommit. kp. Qed.

Lemma k_ask c : keeps same (askCommitExtensions c).
Proof. unfold askCommitExtensions. kp. Qed.

Lemma k_expected c : keeps same (expectedExtensions c).
Proof. unfold expectedExtensions. kp. Qed.
#[local] Hint Resolve k_ensureOwnRound k_validate k_refuse k_ask k_expected : keeps.

Lemma k_verifyCommitExtensions c : keeps same (verifyCommitExtensions c).
Proof. unfold verifyCommitExtensions. kp. Qed.

Lemma k_finalize c : keeps same (executor_finalize c).
Proof. unfold executor_finalize. kp. Qed.

Lemma k_mayPropose h : keeps same (mayPropose o h).
Proof. unfold mayPropose. kp. Qed.
#[local] Hint Resolve k_verifyCommitExtensions k_finalize k_mayPropose : keeps.

Lemma k_checks : keeps same checkProposalBlock ∧ keeps same checkPrevoteMaj23.
Proof. unfold checkProposalBlock, checkPrevoteMaj23. split; kp. Qed.

Lemma k_shouldVoteBeSent : keeps same shouldVoteBeSent.
Proof. destruct k_checks. unfold shouldVoteBeSent. kp. Qed.

Lemma k_Proposaler_Set p t b : keeps kept (Proposaler_Set p t b).
Proof.
  unfold Proposaler_Set, checkHeldBlock, verifyProposal, roundStateRefusal,
    verifyProposalForNonValidatorSet. kp.
Qed.

Lemma k_checkValidBlock : keeps same checkValidBlock.
Proof. unfold checkValidBlock. kp. Qed.

Lemma k_makeProposal h r pr b ps : keeps same (makeProposal h r pr b ps).
Proof. unfold makeProposal. kp. Qed.

Lemma k_signProposal h p : keeps same (signProposal h p).
Proof. unfold signProposal. kp. Qed.

Lemma k_send_parts h r ps : keeps same (send_parts o h r ps).
Proof.
  induction ps as [|p ps IH]; cbn [send_parts]; kp. by apply k_send.
Qed.
#[local] Hint Resolve k_checkValidBlock k_makeProposal k_signProposal k_send_parts : keeps.

Lemma k_Proposaler_Create h r : keeps same (Proposaler_Create cfg o h r).
Proof. unfold Proposaler_Create, createProposalBlock. kp. by apply k_send. Qed.
#[local] Hint Resolve k_Proposaler_Create : keeps.

Lemma k_verifyCommitBlock c : keeps same (verifyCommitBlock c).
Proof. unfold verifyCommitBlock. kp. Qed.
#[local] Hint Resolve k_verifyCommitBlock : keeps.

Lemma k_updateStateData id : keeps kept (updateStateData id).
Proof. unfold updateStateData. kp. Qed.

Lemma k_verifyProcessedCommit c : keeps same (verifyProcessedCommit c).
Proof. unfold verifyProcessedCommit. kp. Qed.
#[local] Hint Resolve k_updateStateData k_verifyProcessedCommit : keeps.

Lemma k_verifyHeldCommit c : keeps same (verifyHeldCommit c).
Proof. unfold verifyHeldCommit. kp. Qed.

Lemma k_handleCommitVerifyError e p fr : keeps same (handleCommitVerifyError o e p fr).
Proof. unfold handleCommitVerifyError. kp. Qed.
#[local] Hint Resolve k_verifyHeldCommit k_handleCommitVerifyError : keeps.

Lemma k_first_verified l : keeps same (first_verified l).
Proof. induction l as [|c l IH]; cbn [first_verified]; kp. Qed.

Lemma k_correctProposal b : keeps same (correctProposal b).
Proof. unfold correctProposal. kp. Qed.

Lemma k_decodeBlock ps : keeps same (decodeBlock ps).
Proof. unfold decodeBlock. kp. Qed.

Lemma k_updateValidBlockMw v added : keeps kept (updateValidBlockMw o v added).
Proof. unfold updateValidBlockMw. kp. Qed.

Lemma k_alreadyStored v : keeps same (alreadyStored v).
Proof. unfold alreadyStored. kp. Qed.

Lemma k_peerBudget p fr : keeps same (peerBudget cfg o p fr).
Proof. unfold peerBudget. kp. Qed.

End helpers.

#[export] Hint Resolve k_deref k_tick k_Now k_flag k_Save k_BlockID_of k_hashes_to k_block_hash
  k_proposalBlockID k_lockedBlockID k_rs_BlockID k_prevotes k_precommits k_has_any k_GetProposer
  k_isProposer k_NewRoundEvent k_isProposalComplete k_updateValidBlock k_holds k_retargetTo
  k_proposeTimeout k_voteTimeout k_isValidForPrevote k_verifyCommitSignatures k_retainedConflict
  k_processedFor k_ensureProcess k_ensureOwnRound k_validate k_refuse k_verifyCommitExtensions
  k_finalize k_mayPropose k_shouldVoteBeSent k_Proposaler_Set k_Proposaler_Create
  k_verifyCommitBlock k_updateStateData k_verifyProcessedCommit k_verifyHeldCommit
  k_handleCommitVerifyError k_first_verified k_correctProposal k_decodeBlock k_updateValidBlockMw
  k_alreadyStored k_peerBudget : keeps.

End csinv.
