(* ===== verification/ConsensusSafe.v ===== *)
(** * Consensus: the voting rules

    The invariant that every event of a node preserves, from which the voting rules of
    the protocol follow: one vote per height, round and type; a precommit for a block
    only with a polka (a quorum of prevotes) of its round; after a precommit for a
    block, a prevote for another block only with a later polka; a block is saved only
    with a quorum of precommits or a verified commit. *)
From Stdlib Require Import ZArith Lia Init.Byte.
From stdpp Require Import base numbers list sets gmap.
From S2P Require Import Prelude.
From S2P Require Import StateM.
From S2P Require Import Merkle.
From S2P Require Import PartSet.
From S2P Require Import Types.
From S2P Require Import Crypto.
From S2P Require Import QuorumSign.
From S2P Require Import Proposal.
From S2P Require Import ValidatorSet.
From S2P Require Import Recoverer.
From S2P Require Import VoteSet.
From S2P Require Import VoteSetInv.
From S2P Require Import VoteSetSafe.
From S2P Require Import VoteSetThms.
From S2P Require Import HeightVoteSet.
From S2P Require Import HeightVoteSetThms.
From S2P Require Import Evidence.
From S2P Require Import Block.
From S2P Require Import Params.
From S2P Require Import SmState.
From S2P Require Import Execution.
From S2P Require Import SelectProposer.
From S2P Require Import VotesSound.
From S2P Require Import ConsensusTypes.
From S2P Require Import ConsensusData.
From S2P Require Import ConsensusVote.
From S2P Require Import ConsensusSteps.
From S2P Require Import ConsensusInv.

Import statem partset types crypto quorum valset recoverer voteset vsinv vssafe vsthms.
Import heightvs hvsthms proposal evidence block params sm abci selectproposer votes.
Import cstypes node csdata csvote cs csinv.

Module cssafe.

(** The step of a round in which a vote is cast. *)
Definition step_of (t : Z) : Z :=
  if (t =? PrevoteType)%Z then RoundStepPrevote else RoundStepPrecommit.

(** Votes of one validator with the same content. *)
Definition same_vote (w v : Vote) : Prop :=
  Vote_Type w = Vote_Type v ∧ Vote_Height w = Vote_Height v ∧ Vote_Round w = Vote_Round v ∧
  Vote_BlockID w = Vote_BlockID v ∧ Vote_ValidatorProTxHash w = Vote_ValidatorProTxHash v.

(** A vote for a block. *)
Definition for_block (t : Z) (v : Vote) : Prop :=
  Vote_Type v = t ∧ IsNil (Vote_BlockID v) = false.

(** The node's configuration.  The chain from height [h0] on: its ID, the validators of the first height, and
    those that follow a block; the blocks stored before; the votes and commits that
    peers deliver. *)
Class Setting := mkSetting {
  cfg : Config;
  cid : bytes;
  h0 : Z;
  vals0 : ValidatorSet;
  next_vals : Z → BlockID → ValidatorSet;
  store0 : list savedBlock;
  D : Vote → Prop;
  DC : Commit → Prop }.

(** What the rules rely on: the validator sets are validated, and the application
    returns the validators that follow the block it finalizes. *)
Class Assumptions `{Crypto} `{Dashd} `{MapOrder} `{Executor} (S : Setting) : Prop := {
  asm_sha : ∀ x, length (sha256 x) = 32;
  asm_bytes : byte_types;
  asm_h0 : (0 < h0)%Z;
  asm_vals0 : ok_vals vals0;
  asm_next : ∀ h b, ok_vals (next_vals h b);
  asm_finalize : ∀ app st crs id block commit app' st' im,
    FinalizeBlock app st crs id block commit = (app', Ok (st', im)) →
    State_Validators st' = Some (next_vals (LastBlockHeight st') id) ∧
    ChainID st' = ChainID st ∧ (LastBlockHeight st' < MaxInt64)%Z }.

Section safe.
Context `{Crypto} `{Dashd} `{MapOrder} `{StdTime} `{Executor} `{PrivValidator} `{BlockCodec}.
Context {S : Setting}.
Context (o : Oracle).

(** ** The rules *)

Definition known (signed : list Vote) (v : Vote) : Prop :=
  D v ∨ ∃ w, w ∈ signed ∧ same_vote w v.

(** The blocks decided since the start, and the validators of a height. *)
Definition decisions (store : list savedBlock) : list BlockID :=
  Commit_BlockID ∘ saved_commit <$> drop (length store0) store.

Definition vals_at (ds : list BlockID) (k : nat) : ValidatorSet :=
  match k with
  | O => vals0
  | Datatypes.S j => match ds !! j with Some b => next_vals (h0 + Z.of_nat j) b | None => vals0 end
  end.

Definition height_vals (ds : list BlockID) (h : Z) : ValidatorSet :=
  vals_at ds (Z.to_nat (h - h0)).

Definition polka (signed : list Vote) (vals : ValidatorSet) (h r : Z) (b : BlockID) : Prop :=
  quorum_for cid (known signed) vals h r PrevoteType b.

(** A commit a peer delivered, with a verified signature. *)
Definition vcommit (vals : ValidatorSet) (h : Z) (c : Commit) : Prop :=
  DC c ∧ Commit_Height c = h ∧ (0 ≤ Commit_Round c)%Z ∧
  ∃ b, verifyCommit vals cid (Commit_BlockID c) h c b = Ok tt.

Definition decided (signed : list Vote) (vals : ValidatorSet) (h : Z) (b : BlockID) : Prop :=
  (∃ r, quorum_for cid (known signed) vals h r PrecommitType b) ∨
  ∃ c, vcommit vals h c ∧ Commit_BlockID c = b.

(** Why a node that precommitted [p] may prevote [w] later: it was then locked on a
    block with a polka not older than [p], and [w] is for that block or for one with a
    polka since. *)
Definition justified (signed : list Vote) (vals : ValidatorSet) (p w : Vote) : Prop :=
  ∃ lr x, (Vote_Round p ≤ lr < Vote_Round w)%Z ∧ (lr = Vote_Round p → x = Vote_BlockID p) ∧
    IsNil x = false ∧ polka signed vals (Vote_Height w) lr x ∧
    (Vote_BlockID w = x ∨
     ∃ vr, (lr ≤ vr < Vote_Round w)%Z ∧ polka signed vals (Vote_Height w) vr (Vote_BlockID w)).

(** The rules a list of signed votes follows. *)
Record rules (signed : list Vote) (ds : list BlockID) : Prop := {
  ru_signer : ∀ v, v ∈ signed → cfg_privValidator cfg = Some (Vote_ValidatorProTxHash v);
  ru_type : ∀ v, v ∈ signed → IsVoteTypeValid (Vote_Type v) = true;
  ru_height : ∀ v, v ∈ signed → (h0 ≤ Vote_Height v ≤ h0 + Z.of_nat (length ds))%Z;
  ru_once : ∀ v w, v ∈ signed → w ∈ signed → Vote_Type v = Vote_Type w →
    Vote_Height v = Vote_Height w → Vote_Round v = Vote_Round w → Vote_BlockID v = Vote_BlockID w;
  ru_precommit : ∀ v, v ∈ signed → for_block PrecommitType v →
    polka signed (height_vals ds (Vote_Height v)) (Vote_Height v) (Vote_Round v) (Vote_BlockID v);
  ru_prevote : ∀ p w, p ∈ signed → w ∈ signed → for_block PrecommitType p →
    for_block PrevoteType w → Vote_Height p = Vote_Height w → (Vote_Round p < Vote_Round w)%Z →
    justified signed (height_vals ds (Vote_Height w)) p w }.

(** ** The invariant *)

Definition vals_now (c : Core) : ValidatorSet :=
  vals_at (decisions (c_store c)) (length (decisions (c_store c))).

(** The lock: none, and no precommit for a block at this height; or a block with a
    polka, no older than any block precommitted. *)
Definition lock_ok (c : Core) : Prop :=
  (c_lround c = (-1)%Z ∧
   ∀ v, v ∈ c_signed c → Vote_Height v = c_height c → ¬ for_block PrecommitType v) ∨
  ∃ x, Block_BlockID (c_lblock c) (c_lparts c) = Ok x ∧ IsNil x = false ∧
    (0 ≤ c_lround c ≤ c_round c)%Z ∧
    polka (c_signed c) (vals_now c) (c_height c) (c_lround c) x ∧
    ∀ v, v ∈ c_signed c → Vote_Height v = c_height c → for_block PrecommitType v →
      (Vote_Round v ≤ c_lround c)%Z ∧ (Vote_Round v = c_lround c → Vote_BlockID v = x).

(** No vote beyond the current round and step. *)
Definition timing (step : Z) (c : Core) : Prop :=
  ∀ v, v ∈ c_signed c → Vote_Height v = c_height c → (Vote_Round v ≤ c_round c)%Z ∧
    (Vote_Round v = c_round c → step_of (Vote_Type v) ≤ step)%Z.

(** No lock in the current round before its precommit. *)
Definition lock_timing (step : Z) (c : Core) : Prop :=
  c_lround c = c_round c → (RoundStepPrecommit ≤ step)%Z.

(** Everything but the timing. *)
Record base (c : Core) : Prop := {
  b_store : take (length store0) (c_store c) = store0;
  b_height : c_height c = (h0 + Z.of_nat (length (decisions (c_store c))))%Z;
  b_state : (LastBlockHeight (c_state c) < MaxInt64)%Z;
  b_vals : c_vals c = Some (vals_now c);
  b_svals : State_Validators (c_state c) = Some (vals_now c);
  b_chain : ChainID (c_state c) = cid;
  b_votes : ∃ hvs, c_votes c = Some hvs ∧
    hvs_sound cid (known (c_signed c)) (vals_now c) (c_height c) hvs;
  b_round : (0 ≤ c_round c)%Z;
  b_rules : rules (c_signed c) (decisions (c_store c));
  b_lock : lock_ok c;
  b_own : ∀ v, v ∈ c_own c → ∃ w, w ∈ c_signed c ∧ same_vote w v;
  b_timeouts : ∀ ti, ti ∈ c_timeouts c → (ti_Height ti ≤ c_height c)%Z ∧
    (ti_Height ti = c_height c → ti_Round ti ≤ c_round c)%Z;
  b_commit : ∀ x, c_commit c = Some x → vcommit (vals_now c) (c_height c) x;
  b_cands : (cc_height (c_cands c) ≤ c_height c)%Z ∧ (cc_height (c_cands c) = c_height c →
    ∀ x, x ∈ cc_candidates (c_cands c) → vcommit (vals_now c) (c_height c) (cand_commit x));
  b_decided : ∀ k s, drop (length store0) (c_store c) !! k = Some s →
    let b := Commit_BlockID (saved_commit s) in
    IsNil b = false ∧ Meta_BlockID (saved_meta s) = b ∧
    decided (c_signed c) (vals_at (decisions (c_store c)) k) (h0 + Z.of_nat k) b }.

Definition inv (c : Core) : Prop :=
  base c ∧ timing (c_step c) c ∧ lock_timing (c_step c) c.

(** ** Growing the list of signed votes *)

Lemma known_mono s v w : known s v → known (s ++ [w]) v.
Proof.
  unfold known. intros [?|(u & Hu & ?)]; [by left|]. right. exists u. split; [|done]. apply elem_of_app. by left.
Qed.

Lemma polka_mono s w vals h r b : polka s vals h r b → polka (s ++ [w]) vals h r b.
Proof. apply quorum_mono. intros v. apply known_mono. Qed.

Lemma decided_mono s w vals h b : decided s vals h b → decided (s ++ [w]) vals h b.
Proof.
  unfold decided. intros [[r Hr]|?]; [|by right]. left. exists r.
  eapply quorum_mono; [|done]. intros v.
  apply known_mono.
Qed.

Lemma justified_mono s u vals p w : justified s vals p w → justified (s ++ [u]) vals p w.
Proof.
  intros (lr & x & ? & ? & ? & ? & Hor). exists lr, x.
  split_and!; [lia|lia|done|done|by apply polka_mono|].
  destruct Hor as [?|(vr & ? & ?)]; [by left|]. right. exists vr. split; [done|by apply polka_mono].
Qed.

Lemma elem_of_snoc {A} (l : list A) x y : x ∈ l ++ [y] ↔ x ∈ l ∨ x = y.
Proof. rewrite elem_of_app, list_elem_of_singleton. done. Qed.

(** A new vote keeps the rules if it is the first of its height, round and type and
    has its justification. *)
Lemma rules_snoc s ds v :
  rules s ds → cfg_privValidator cfg = Some (Vote_ValidatorProTxHash v) →
  IsVoteTypeValid (Vote_Type v) = true →
  (h0 ≤ Vote_Height v ≤ h0 + Z.of_nat (length ds))%Z →
  (∀ w, w ∈ s → Vote_Type w = Vote_Type v → Vote_Height w = Vote_Height v →
     Vote_Round w ≠ Vote_Round v) →
  (for_block PrecommitType v →
     polka s (height_vals ds (Vote_Height v)) (Vote_Height v) (Vote_Round v) (Vote_BlockID v)) →
  (for_block PrevoteType v → ∀ p, p ∈ s → for_block PrecommitType p →
     Vote_Height p = Vote_Height v → (Vote_Round p < Vote_Round v)%Z →
     justified s (height_vals ds (Vote_Height v)) p v) →
  (for_block PrecommitType v → ∀ w, w ∈ s → for_block PrevoteType w →
     Vote_Height v = Vote_Height w → (Vote_Round w ≤ Vote_Round v)%Z) →
  rules (s ++ [v]) ds.
Proof.
  intros [R0 R1 R2 R3 R4 R5] Hsg Ht Hh Hnew Hpol Hjus Hord. constructor.
  - intros w [?| ->]%elem_of_snoc; auto.
  - intros w [?| ->]%elem_of_snoc; auto.
  - intros w [?| ->]%elem_of_snoc; auto.
  - intros a b [Ha| ->]%elem_of_snoc [Hb| ->]%elem_of_snoc Et Eh Er; eauto.
    + by destruct (Hnew a Ha Et Eh Er).
    + by destruct (Hnew b Hb (eq_sym Et) (eq_sym Eh) (eq_sym Er)).
  - intros w [Hw| ->]%elem_of_snoc Hf; apply polka_mono; auto.
  - intros p w [Hp| ->]%elem_of_snoc [Hw| ->]%elem_of_snoc Hfp Hfw Eh Hr;
      [by apply justified_mono; auto|by apply justified_mono; auto|..].
    + pose proof (Hord Hfp w Hw Hfw Eh). lia.
    + lia.
Qed.

(** ** Signing a vote *)

Definition sign_core (v : Vote) (c : Core) : Core :=
  mkCore (c_height c) (c_round c) (c_step c) (c_lround c) (c_lblock c) (c_lparts c) (c_vals c)
    (c_state c) (c_votes c) (c_commit c) (c_cround c) (c_signed c ++ [v]) (c_own c) (c_store c)
    (c_timeouts c) (c_cands c).

Definition own_core (v : Vote) (c : Core) : Core :=
  mkCore (c_height c) (c_round c) (c_step c) (c_lround c) (c_lblock c) (c_lparts c) (c_vals c)
    (c_state c) (c_votes c) (c_commit c) (c_cround c) (c_signed c) (c_own c ++ [v]) (c_store c)
    (c_timeouts c) (c_cands c).

(** What allows a prevote for [b]. *)
Definition may_prevote (c : Core) (b : BlockID) : Prop :=
  c_lround c = (-1)%Z ∨ Block_BlockID (c_lblock c) (c_lparts c) = Ok b ∨
  ∃ vr, (c_lround c ≤ vr < c_round c)%Z ∧ polka (c_signed c) (vals_now c) (c_height c) vr b.

(** What allows a vote in the current round. *)
Definition may_vote (c : Core) (t : Z) (b : BlockID) : Prop :=
  (t = PrevoteType ∧ (IsNil b = false → c_lround c ≠ c_round c ∧ may_prevote c b)) ∨
  (t = PrecommitType ∧ (IsNil b = false →
     c_lround c = c_round c ∧ Block_BlockID (c_lblock c) (c_lparts c) = Ok b)).

Lemma height_vals_now c : base c → height_vals (decisions (c_store c)) (c_height c) = vals_now c.
Proof.
  intros Hb. unfold height_vals, vals_now. rewrite (b_height _ Hb). f_equal. lia.
Qed.

Lemma lock_sign c v :
  lock_ok c → Vote_Round v = c_round c → Vote_Height v = c_height c →
  (for_block PrecommitType v →
     c_lround c = c_round c ∧ Block_BlockID (c_lblock c) (c_lparts c) = Ok (Vote_BlockID v)) →
  (0 ≤ c_round c)%Z → lock_ok (sign_core v c).
Proof.
  intros Hl Er Eh Hv Hr. destruct Hl as [[El Hn]|(x & Ex & Hx & Hlr & Hp & Hall)].
  - left. split; [done|]. intros w [Hw| ->]%elem_of_snoc Ew Hf; [by eapply Hn|].
    destruct (Hv Hf) as [El' _]. lia.
  - right. exists x. cbn. split_and!; [done|done|lia|lia|by apply polka_mono|].
    intros w [Hw| ->]%elem_of_snoc Ew Hf; [by apply Hall|].
    destruct (Hv Hf) as [El' Ex']. split; [lia|]. intros _. congruence.
Qed.

Lemma precommit_polka c b :
  lock_ok c → (0 ≤ c_round c)%Z → c_lround c = c_round c →
  Block_BlockID (c_lblock c) (c_lparts c) = Ok b →
  polka (c_signed c) (vals_now c) (c_height c) (c_round c) b.
Proof.
  intros [[El _]|(x & Ex & _ & _ & Hp & _)] Hr El' Eb; [lia|].
  rewrite El' in Hp. congruence.
Qed.

Lemma prevote_justified c v p :
  lock_ok c → (0 ≤ c_round c)%Z → Vote_Round v = c_round c → Vote_Height v = c_height c →
  c_lround c ≠ c_round c → may_prevote c (Vote_BlockID v) →
  p ∈ c_signed c → for_block PrecommitType p → Vote_Height p = Vote_Height v →
  justified (c_signed c) (vals_now c) p v.
Proof.
  intros Hl Hr Er Eh Hne Hm Hp Hf Ep. rewrite Eh in Ep.
  destruct Hl as [[_ Hn]|(x & Ex & Hx & Hlr & Hpol & Hall)]; [by destruct (Hn p)|].
  destruct (Hall p Hp Ep Hf) as [Hle Heq]. exists (c_lround c), x. rewrite Er, Eh.
  split_and!; [lia|lia|intros E; symmetry; by apply Heq|done|done|].
  destruct Hm as [?|[Eb|(vr & Hvr & Hvp)]]; [lia|left; congruence|]. right. exists vr.
  split; [lia|done].
Qed.

Lemma base_sign c v step :
  base c → timing step c → (step < step_of (Vote_Type v))%Z →
  cfg_privValidator cfg = Some (Vote_ValidatorProTxHash v) →
  Vote_Height v = c_height c → Vote_Round v = c_round c →
  may_vote c (Vote_Type v) (Vote_BlockID v) → base (sign_core v c).
Proof.
  intros Hb Ht Hs Hsg Eh Er Hm. pose proof (height_vals_now c Hb) as Ev.
  assert (∀ w, w ∈ c_signed c → Vote_Type w = Vote_Type v → Vote_Height w = Vote_Height v →
    Vote_Round w ≠ Vote_Round v) as Hnew.
  { intros w Hw Et Eh' Er'. destruct (Ht w Hw) as [_ Hle]; [congruence|].
    rewrite Et in Hle. rewrite Er', Er in Hle. specialize (Hle eq_refl). lia. }
  assert (IsVoteTypeValid (Vote_Type v) = true) as Hty by (destruct Hm as [[-> _]|[-> _]]; done).
  assert (for_block PrecommitType v → c_lround c = c_round c ∧
    Block_BlockID (c_lblock c) (c_lparts c) = Ok (Vote_BlockID v)) as Hpre.
  { intros [Et Hn]. destruct Hm as [[E _]|[_ Hm]]; [rewrite Et in E; done|by apply Hm]. }
  assert (for_block PrevoteType v → c_lround c ≠ c_round c ∧ may_prevote c (Vote_BlockID v)) as Hprev.
  { intros [Et Hn]. destruct Hm as [[_ Hm]|[E _]]; [by apply Hm|rewrite Et in E; done]. }
  pose proof (b_round _ Hb) as Hr. pose proof (b_lock _ Hb) as Hl. pose proof (b_height _ Hb) as Hh.
  destruct Hb as [B1 B2 B3 B4 B5 B6 (hvs & Eh' & Hhvs) B8 B9 B10 B11 B12 B13 B14 B15].
  constructor; try done; cbn.
  - exists hvs. split; [done|]. eapply hvs_sound_mono; [|done]. intros w. apply known_mono.
  - apply rules_snoc; rewrite ?Eh, ?Er; try done; [lia|rewrite <- Eh, <- Er; exact Hnew|..].
    + intros [El Ex]%Hpre. rewrite Ev. by apply precommit_polka.
    + intros [Hne Hmp]%Hprev p Hp Hf Ep _. rewrite Ev. apply prevote_justified; try done. congruence.
    + intros _ w Hw _ Ew. by destruct (Ht w Hw).
  - by apply lock_sign.
  - intros w (u & Hu & Hsame)%B11. exists u. split; [apply elem_of_snoc; by left|done].
  - intros k sv Hk. destruct (B15 k sv Hk) as (? & ? & ?). split_and!; try done.
    by apply decided_mono.
Qed.

Lemma timing_sign c v step :
  timing step c → (step ≤ step_of (Vote_Type v))%Z → Vote_Round v = c_round c →
  timing (step_of (Vote_Type v)) (sign_core v c).
Proof.
  intros Ht Hs Er w [Hw| ->]%elem_of_snoc Eh; cbn in *; [|split; [lia|done]].
  destruct (Ht w Hw Eh) as [? Hle]. split; [done|]. intros E. etrans; [by apply Hle|done].
Qed.

Lemma base_own c v w : base c → w ∈ c_signed c → same_vote w v → base (own_core v c).
Proof.
  intros Hb Hw Hs. destruct Hb. constructor; try done. cbn.
  intros u [Hu| ->]%elem_of_snoc; eauto.
Qed.

Definition view : Type := Core * option Block * option PartSet.

Definition signed_view (w : Vote) (x : view) : view := (sign_core w x.1.1, x.1.2, x.2).
Definition own_view (v : Vote) (x : view) : view := (own_core v x.1.1, x.1.2, x.2).

(** A vote with the given content, at the position of the node. *)
Definition vote_at (x : view) (t : Z) (b : BlockID) (w : Vote) : Prop :=
  Vote_Type w = t ∧ Vote_Height w = c_height x.1.1 ∧ Vote_Round w = c_round x.1.1 ∧
  Vote_BlockID w = b ∧ cfg_privValidator cfg = Some (Vote_ValidatorProTxHash w).

Lemma Populate_same v pv v' : PopulateSignsFromProto v pv = Ok v' → same_vote v v'.
Proof.
  unfold PopulateSignsFromProto. destruct (negb _); [done|]. intros Hp.
  apply bind_Ok in Hp as (exts & _ & [= <-]). done.
Qed.

Lemma sign_vote_at x c qt qh w t b :
  vote_at x t b w →
  hoare (at_view x) (sign_vote c qt qh w) (λ _ n, at_view (signed_view w x) n)
    (λ n, at_view x n).
Proof.
  intros Hw n Hn. unfold sign_vote. destruct (SignVote _ _ _ _ _) as [s [pv|]].
  - unfold at_view in *. subst x. done.
  - done.
Qed.

Lemma signVote_at x t b :
  hoare (at_view x) (signVote cfg o t b)
    (λ v n, ∃ w, vote_at x t b w ∧ same_vote w v ∧ at_view (signed_view w x) n)
    (λ n, at_view x n ∨ ∃ w, vote_at x t b w ∧ at_view (signed_view w x) n).
Proof.
  unfold signVote. apply at_bind; [kp| |auto]. intros flushed. destruct (negb flushed).
  { intros n Hn. by left. }
  destruct (cfg_privValidator cfg) as [p|] eqn:Epv; [|intros n Hn; by left].
  apply at_bind; [kp| |auto]. intros vals. apply at_bind; [kp| |auto]. intros [idx val].
  apply at_sd. intros n1 E1. apply at_sd. intros n2 E2.
  assert (Height (n_sd n1) = c_height x.1.1 ∧ Round (n_sd n2) = c_round x.1.1) as [-> ->]
    by (subst x; split; [done|exact (f_equal (λ y, c_round y.1.1) E2)]).
  eapply (hoare_bind _ _ _ (λ w n, vote_at x t b w ∧ at_view x n)).
  { destruct (_ && _).
    - apply at_bind; [kp| |auto]. intros exts. by apply hoare_ret.
    - by apply hoare_ret. }
  intros w. apply hoare_fact. intros Hw. apply at_bind; [kp| |auto]. intros st.
  apply at_bind; [kp| |auto]. intros vals'.
  eapply hoare_bind; [eapply hoare_post; [by eapply sign_vote_at|done|by left]|].
  intros pv. apply hoare_lift.
  - intros n v' Hn Hp. exists w. eauto using Populate_same.
  - intros n Hn. right. eauto.
Qed.

(** What a call of [signAddVote] may leave behind. *)
Definition voted_view (x : view) (t : Z) (b : BlockID) (y : view) : Prop :=
  y = x ∨ ∃ w, vote_at x t b w ∧
    (y = signed_view w x ∨ ∃ v, same_vote w v ∧ y = own_view v (signed_view w x)).

Lemma send_vote_at x r :
  hoare (at_view x) (send o (VoteMessage r))
    (λ _ n, core2 n = x ∨ core2 n = own_view (ref_vote r) x) (at_view x).
Proof.
  unfold send. apply at_bind; [kp| |done]. intros ok. apply hoare_when; [|by left].
  intros n [Hn _]. right. unfold at_view, core2, core in *. subst x. cbn. by rewrite omap_app.
Qed.

Lemma signAddVote_at x t b :
  hoare (at_view x) (signAddVote cfg o t b) (λ _ n, voted_view x t b (core2 n))
    (λ n, voted_view x t b (core2 n)).
Proof.
  unfold signAddVote. destruct (cfg_privValidator cfg) as [p|]; [|by apply hoare_ret; left].
  apply at_bind; [kp| |by left]. intros vals. apply hoare_when; [|by left].
  eapply (hoare_pre _ _ (at_view x)); [|by intros n [Hn _]].
  eapply (hoare_bind _ _ _ (λ r n, match r with
    | inl v => ∃ w, vote_at x t b w ∧ same_vote w v ∧ at_view (signed_view w x) n
    | inr _ => at_view x n ∨ ∃ w, vote_at x t b w ∧ at_view (signed_view w x) n
    end)).
  { apply hoare_try. eapply hoare_post; [apply signVote_at|done|by intros n Hn]. }
  intros [v|e].
  - apply hoare_exists. intros w. apply hoare_fact. intros Hw. apply hoare_fact. intros Hs.
    apply at_bind; [kp| |]. 2: { intros n Hn. right. exists w. split; [done|]. by left. }
    intros k. apply at_bind; [kp| |]. 2: { intros n Hn. right. exists w. split; [done|]. by left. }
    intros _. eapply hoare_post; [apply send_vote_at| |].
    + intros _ n [Hn|Hn]; right; exists w; split; [done|by left|done|right; eauto].
    + intros n Hn. right. exists w. split; [done|by left].
  - apply hoare_ret. intros n [Hn|(w & Hw & Hn)]; [by left|right]. exists w. split; [done|by left].
Qed.

(** The position and the lock. *)
Definition same_place (c c' : Core) : Prop :=
  c_height c' = c_height c ∧ c_round c' = c_round c ∧ c_step c' = c_step c ∧
  c_lround c' = c_lround c ∧ c_cround c' = c_cround c ∧ c_store c' = c_store c.

Lemma voted_ok x t b y step :
  voted_view x t b y → base x.1.1 → timing step x.1.1 → (step < step_of t)%Z →
  may_vote x.1.1 t b → base y.1.1 ∧ timing (step_of t) y.1.1 ∧ same_place x.1.1 y.1.1 ∧
    y.1.2 = x.1.2 ∧ y.2 = x.2 ∧ c_lblock y.1.1 = c_lblock x.1.1 ∧ c_lparts y.1.1 = c_lparts x.1.1.
Proof.
  intros Hy Hb Ht Hs Hm. destruct Hy as [->|(w & (Et & Eh & Er & Eb & Eg) & Hy)].
  { split_and!; try done. intros v Hv Ev. destruct (Ht v Hv Ev) as [? Hle]. split; [done|].
    intros E. specialize (Hle E). lia. }
  subst t b. assert (base (sign_core w x.1.1)) as Hb' by (by eapply base_sign).
  assert (timing (step_of (Vote_Type w)) (sign_core w x.1.1)) as Ht'
    by (eapply timing_sign; [done|lia|done]).
  destruct Hy as [->|(v & Hsame & ->)]; [done|]. split_and!; try done.
  eapply base_own; [done| |exact Hsame]. apply elem_of_snoc. by right.
Qed.

Definition vparts (x : view) : Prop :=
  (is_Some x.1.2 → is_Some x.2) ∧ (is_Some (c_lblock x.1.1) → is_Some (c_lparts x.1.1)).

Lemma view_parts n x : core2 n = x → vparts x → with_parts n.
Proof. by intros <-. Qed.

(** After a vote, the step may still be the one before. *)
Definition voted (x : view) (step : Z) (n : Node) : Prop :=
  base (core n) ∧ timing step (core n) ∧ same_place x.1.1 (core n) ∧ with_parts n.

Lemma vote_voted x t b step :
  base x.1.1 → timing step x.1.1 → (step < step_of t)%Z → may_vote x.1.1 t b → vparts x →
  hoare (at_view x) (signAddVote cfg o t b) (λ _, voted x (step_of t)) (voted x (step_of t)).
Proof.
  intros Hb Ht Hs Hm Hp. assert (∀ n, voted_view x t b (core2 n) → voted x (step_of t) n) as Hv.
  { intros n Hn. eapply voted_ok in Hn as (? & ? & ? & Eb & Eps & El & Elps); eauto.
    split_and!; try done. cbn in Eb, Eps, El, Elps. unfold with_parts.
    rewrite Eb, Eps, El, Elps. exact Hp. }
  eapply hoare_post; [apply signAddVote_at|..]; auto.
Qed.

(** ** Steps of a round *)

Definition step_view (round step : Z) (x : view) : view :=
  let c := x.1.1 in
  (mkCore (c_height c) round step (c_lround c) (c_lblock c) (c_lparts c) (c_vals c) (c_state c)
     (c_votes c) (c_commit c) (c_cround c) (c_signed c) (c_own c) (c_store c) (c_timeouts c)
     (c_cands c), x.1.2, x.2).

Lemma updateRoundStep_at x round step :
  hoare (at_view x) (updateRoundStep round step) (λ _, at_view (step_view round step x))
    (at_view (step_view round step x)).
Proof.
  unfold updateRoundStep.
  eapply (hoare_bind _ _ _ (λ _ n, ∃ n0, core2 n0 = x ∧ n = set_sd (set_Round round (n_sd n0)) n0)).
  { apply hoare_modify. eauto. }
  intros _. eapply (hoare_bind _ _ _ (λ _, at_view (step_view round step x))).
  { apply hoare_modify. intros n (n0 & <- & ->). reflexivity. }
  intros _. apply at_keeps; [kp|done|done].
Qed.

Lemma step_base x round step :
  base x.1.1 → (c_round x.1.1 ≤ round)%Z → base (step_view round step x).1.1.
Proof.
  intros [B1 B2 B3 B4 B5 B6 B7 B8 B9 B10 B11 B12 B13 B14 B15] Hr.
  constructor; try done; cbn; [lia| |].
  - destruct B10 as [B10|(b & Eb & Hb & Hl & Hp & Hall)]; [by left|right]. exists b.
    split_and!; try done; cbn; lia.
  - intros ti Hti. destruct (B12 ti Hti) as [? Hle]. split; [done|]. intros E. specialize (Hle E). lia.
Qed.

Lemma step_timing x round step s :
  timing s x.1.1 → lock_timing s x.1.1 → base x.1.1 → (c_round x.1.1 ≤ round)%Z →
  (round = c_round x.1.1 → s ≤ step)%Z →
  timing step (step_view round step x).1.1 ∧ lock_timing step (step_view round step x).1.1.
Proof.
  intros Ht Hl Hb Hr Hs. split.
  - intros v Hv Eh. cbn in *. destruct (Ht v Hv Eh) as [Hle Heq]. split; [lia|].
    intros E. assert (round = c_round x.1.1) as E' by lia. specialize (Hs E'). specialize (Heq ltac:(lia)). lia.
  - intros E. cbn in *. destruct (decide (round = c_round x.1.1)) as [E'|Hne].
    { specialize (Hs E'). rewrite E' in E. specialize (Hl E). lia. }
    exfalso. destruct (b_lock _ Hb) as [[El _]|(b & _ & _ & Hlr & _)]; [|lia].
    pose proof (b_round _ Hb). lia.
Qed.

(** ** Good states *)

Context {ASM : Assumptions S}.

Definition good (n : Node) : Prop := inv (core n) ∧ with_parts n.

(** Within a height the round only grows, and no block is saved. *)
Definition within (c c' : Core) : Prop :=
  c_height c' = c_height c ∧ (c_round c ≤ c_round c')%Z ∧ c_store c' = c_store c.

Global Instance within_preorder : PreOrder within.
Proof.
  split; unfold within; [done|]. intros a b c (? & ? & ?) (? & ? & ?). split_and!; [lia|lia|congruence].
Qed.

(** The invariant of what a node does at a height once it has been in [c]. *)
Definition since (c : Core) (n : Node) : Prop := good n ∧ within c (core n).

(** The round has been reached, or the height is over. *)
Definition reached (h r : Z) (c : Core) : Prop :=
  (h < c_height c)%Z ∨ (c_height c = h ∧ r ≤ c_round c)%Z.

Lemma reached_within h r c c' : reached h r c → within c c' → reached h r c'.
Proof. unfold reached, within. lia. Qed.

Lemma since_kept {A} c (m : C A) : keeps kept m → stable (since c) m.
Proof.
  intros Hm n [[Hi Hw] Hl]. specialize (Hm n). destruct (m n) as [n' [a|e|]]; [| |done];
    destruct Hm as [E Hw']; unfold since, good; rewrite E; auto.
Qed.

Lemma vals_at_ok ds k : ok_vals (vals_at ds k).
Proof using ASM.
  unfold vals_at. destruct k; [apply asm_vals0|].
  destruct (ds !! k); [apply asm_next|apply asm_vals0].
Qed.

(** ** Prevote *)

Lemma voteset_at x r t :
  base x.1.1 → hoare (at_view x) (v ← deref_sd Votes; lift_err ErrHeightVotes (getVoteSet v r t))
    (λ vs n, (∀ b, majority vs = (b, true) →
       quorum_for cid (known (c_signed x.1.1)) (vals_now x.1.1) (c_height x.1.1) r t b ∧ (0 ≤ r)%Z) ∧
       at_view x n) (at_view x).
Proof using ASM.
  intros Hb n Hn. unfold deref_sd, mbind, M_bind, sd, gets, lift, lift_err.
  destruct (b_votes _ Hb) as (hvs & Ev & Hs). unfold at_view in Hn.
  assert (Votes (n_sd n) = Some hvs) as -> by (rewrite <- Ev, <- Hn; done). cbn.
  destruct (getVoteSet hvs r t) as [vs|e|] eqn:Eg; [|done|done]. cbn.
  split; [|done]. intros b Hm.
  eapply majority_quorum; [..|exact Hm]; eauto using vals_at_ok, asm_sha, asm_bytes.
Qed.

Lemma prevotes_at x r :
  base x.1.1 → hoare (at_view x) (prevotes r)
    (λ vs n, (∀ b, majority vs = (b, true) →
       polka (c_signed x.1.1) (vals_now x.1.1) (c_height x.1.1) r b ∧ (0 ≤ r)%Z) ∧
       at_view x n) (at_view x).
Proof using ASM. apply voteset_at. Qed.

Definition proposal_id (x : view) (b : BlockID) : Prop := Block_BlockID x.1.2 x.2 = Ok b.

Lemma id_at (f : StateData → option Block) (g : StateData → option PartSet) x b ps :
  (∀ n, core2 n = x → f (n_sd n) = b ∧ g (n_sd n) = ps) →
  hoare (at_view x) (b ← sd f; ps ← sd g; BlockID_of b ps)
    (λ id n, Block_BlockID b ps = Ok id ∧ at_view x n) (at_view x).
Proof.
  intros Hf. apply at_sd. intros n1 E1. apply at_sd. intros n2 E2.
  destruct (Hf n1 E1) as [-> _], (Hf n2 E2) as [_ ->].
  apply hoare_lift_panic. eauto.
Qed.

Lemma proposalBlockID_at x :
  hoare (at_view x) proposalBlockID (λ id n, proposal_id x id ∧ at_view x n) (at_view x).
Proof. apply id_at. intros n <-. done. Qed.

Lemma lockedBlockID_at x :
  hoare (at_view x) lockedBlockID
    (λ id n, Block_BlockID (c_lblock x.1.1) (c_lparts x.1.1) = Ok id ∧ at_view x n) (at_view x).
Proof. apply id_at. intros n <-. done. Qed.

(** The rules of a prevote: no lock, the block locked, or a polka since the lock. *)
Lemma checkProposalBlock_at x :
  hoare (at_view x) checkProposalBlock
    (λ ok n, (ok = true → ∀ b, proposal_id x b → may_prevote x.1.1 b) ∧ at_view x n) (at_view x).
Proof.
  unfold checkProposalBlock. apply at_bind; [kp| |done]. intros p.
  apply at_sd. intros n En. assert (LockedRound (n_sd n) = c_lround x.1.1) as -> by (by rewrite <- En).
  destruct (negb _); [by apply hoare_ret|].
  destruct (c_lround x.1.1 =? -1)%Z eqn:El; bools; [apply hoare_ret; split; [by left|done]|].
  eapply hoare_bind; [apply proposalBlockID_at|]. intros id. apply hoare_fact. intros Hid.
  eapply hoare_bind; [apply lockedBlockID_at|]. intros locked. apply hoare_fact. intros Hl.
  apply hoare_ret. split; [|done]. intros E%BlockID_Equals_spec b Hb. subst id.
  unfold proposal_id in *. right. left. congruence.
Qed.

Lemma checkPrevoteMaj23_at x :
  base x.1.1 →
  hoare (at_view x) checkPrevoteMaj23
    (λ ok n, (ok = true → ∀ b, proposal_id x b → may_prevote x.1.1 b) ∧ at_view x n) (at_view x).
Proof using ASM.
  intros Hbase. unfold checkPrevoteMaj23. apply at_bind; [kp| |done]. intros p.
  eapply hoare_bind; [by apply prevotes_at|]. intros vs.
  apply hoare_fact. intros Hmaj.
  destruct (majority vs) as [pol ok]. destruct ok; [|by apply hoare_ret].
  eapply hoare_bind; [apply proposalBlockID_at|]. intros id. apply hoare_fact. intros Hid.
  apply at_sd. intros n1 E1. assert (Round (n_sd n1) = c_round x.1.1) as -> by (by rewrite <- E1).
  apply at_sd. intros n2 E2. assert (LockedRound (n_sd n2) = c_lround x.1.1) as -> by (by rewrite <- E2).
  destruct (BlockID_Equals id pol) eqn:Eb; [|by apply hoare_ret].
  apply BlockID_Equals_spec in Eb as <-. destruct (Hmaj id eq_refl) as [Hpol _].
  destruct (_ <? 0)%Z; [by apply hoare_ret|]. destruct (_ <=? Prop_POLRound p)%Z eqn:Er; [by apply hoare_ret|].
  destruct (_ <=? Prop_POLRound p)%Z eqn:El in |- *; bools.
  { apply hoare_ret. split; [|done]. intros _ b Hb.
    assert (b = id) as -> by (unfold proposal_id in *; congruence).
    right. right. eexists. split; [|exact Hpol]. lia. }
  eapply hoare_bind; [apply lockedBlockID_at|]. intros locked. apply hoare_fact. intros Hl.
  apply hoare_ret. split; [|done]. intros E%BlockID_Equals_spec b Hb.
  unfold proposal_id in *. right. left. congruence.
Qed.

Lemma shouldVoteBeSent_at x :
  base x.1.1 →
  hoare (at_view x) shouldVoteBeSent
    (λ ok n, (ok = true → ∀ b, proposal_id x b → may_prevote x.1.1 b) ∧ at_view x n) (at_view x).
Proof using ASM.
  intros Hbase. eapply hoare_bind; [by apply (checkProposalBlock_at x)|]. intros [|].
  - by apply hoare_ret.
  - apply hoare_fact. intros _. by apply checkPrevoteMaj23_at.
Qed.

Lemma isValid_at x :
  hoare (at_view x) isValidForPrevote (λ _ n, is_Some x.1.2 ∧ at_view x n) (at_view x).
Proof.
  unfold isValidForPrevote. apply at_sd. intros n En. unfold id.
  assert (ProposalBlock (n_sd n) = x.1.2) as -> by (by rewrite <- En). cbn.
  destruct x.1.2 as [b|] eqn:Eb; [|by apply hoare_fail].
  apply at_keeps; [kp; unfold checkProposer; kp|eauto|done].
  apply k_proposalIsTimely.
Qed.

Lemma rs_BlockID_at x :
  is_Some x.1.2 → is_Some x.2 →
  hoare (at_view x) rs_BlockID (λ b n, proposal_id x b ∧ at_view x n) (at_view x).
Proof.
  intros [b Hb] [ps Hps]. unfold rs_BlockID. apply at_sd. intros n1 E1. apply at_sd. intros n2 E2.
  assert (ProposalBlock (n_sd n1) = Some b) as -> by (by rewrite <- Hb, <- E1).
  assert (ProposalBlockParts (n_sd n2) = Some ps) as -> by (by rewrite <- Hps, <- E2). cbn.
  apply hoare_lift_panic. intros n id Hn Hid. unfold proposal_id. by rewrite Hb, Hps.
Qed.

(** A state ready for the prevote of its round. *)
Definition unvoted (x : view) : Prop :=
  base x.1.1 ∧ timing (c_step x.1.1) x.1.1 ∧ (c_step x.1.1 < RoundStepPrevote)%Z ∧
  c_lround x.1.1 ≠ c_round x.1.1 ∧ vparts x.

Lemma nilVote_at x :
  unvoted x → hoare (at_view x) (signAndAddNilVote cfg o) (λ _, voted x RoundStepPrevote)
    (voted x RoundStepPrevote).
Proof.
  intros (Hb & Ht & Hs & Hl & Hp). eapply (vote_voted _ PrevoteType); eauto. left. by split.
Qed.

Lemma unvoted_voted x n : unvoted x → at_view x n → voted x RoundStepPrevote n.
Proof.
  intros (Hb & Ht & Hs & Hl & Hp) En. unfold voted.
  rewrite (f_equal (λ y, y.1.1) En : core n = x.1.1).
  refine (conj Hb (conj _ (conj _ _))); [|done|by rewrite <- En in Hp].
  intros v Hv Ev. destruct (Ht v Hv Ev) as [? Hle]. split; [done|]. intros E. specialize (Hle E). lia.
Qed.

Lemma prevoter_signVote_at x :
  unvoted x → is_Some x.1.2 →
  hoare (at_view x) (prevoter_signVote cfg o) (λ _, voted x RoundStepPrevote)
    (voted x RoundStepPrevote).
Proof using ASM.
  intros Hx Hpb. pose proof Hx as (Hb & Ht & Hs & Hl & Hp).
  eapply hoare_bind; [eapply hoare_post; [by apply shouldVoteBeSent_at|done|]|].
  { intros n. by apply unvoted_voted. }
  intros [|]; apply hoare_fact; intros Hok; [|by apply nilVote_at].
  eapply hoare_bind; [eapply hoare_post; [apply rs_BlockID_at; [done|by apply Hp]|done|]|].
  { intros n. by apply unvoted_voted. }
  intros b. apply hoare_fact. intros Hid.
  eapply (vote_voted _ PrevoteType); eauto. left. auto.
Qed.

Lemma prevoter_Do_at x :
  unvoted x → hoare (at_view x) (prevoter_Do cfg o) (λ _, voted x RoundStepPrevote)
    (voted x RoundStepPrevote).
Proof using ASM.
  intros Hx. eapply (hoare_bind _ _ _ (λ r n, (∀ u, r = inl u → is_Some x.1.2) ∧ at_view x n)).
  { apply hoare_try. eapply hoare_post; [apply isValid_at|naive_solver..]. }
  intros r. apply hoare_fact. intros Hr. destruct r as [u|e]; [|by apply nilVote_at].
  specialize (Hr u eq_refl). apply at_sd. intros n En.
  apply at_bind; [kp| |by intros; apply unvoted_voted].
  intros [u'|e].
  - apply at_bind; [kp| |by intros; apply unvoted_voted]. intros _. by apply prevoter_signVote_at.
  - eapply (hoare_bind _ _ _ (λ _, at_view x)).
    { unfold handleError. repeat case_match; try apply hoare_panic; by apply hoare_ret. }
    intros _. eapply hoare_bind; [by apply nilVote_at|]. intros ?. by apply hoare_fail.
Qed.

(** The step that ends an action. *)
Lemma step_since x s round step c :
  within c x.1.1 → (c_round x.1.1 ≤ round)%Z → (round = c_round x.1.1 → s ≤ step)%Z →
  (c_lround x.1.1 = c_round x.1.1 → RoundStepPrecommit ≤ s)%Z →
  hoare (voted x s) (updateRoundStep round step)
    (λ _ n, since c n ∧ c_height (core n) = c_height x.1.1 ∧ c_round (core n) = round ∧
       c_step (core n) = step)
    (λ n, since c n ∧ c_height (core n) = c_height x.1.1 ∧ c_round (core n) = round ∧
       c_step (core n) = step).
Proof.
  intros Hl Hr Hs Hlt. apply hoare_at. intros n (Hb & Ht & (E1 & E2 & E3 & E4 & E5 & E6) & Hp).
  assert (∀ n', at_view (step_view round step (core2 n)) n' → since c n' ∧
    c_height (core n') = c_height x.1.1 ∧ c_round (core n') = round ∧
    c_step (core n') = step) as Hn.
  { intros n' En. rewrite <- E2 in Hr, Hs, Hlt. rewrite <- E4 in Hlt.
    pose proof (f_equal (λ y, y.1.1) En : core n' = _) as Ec.
    destruct (step_timing (core2 n) round step s) as [Ht' Hl']; [done|exact Hlt|done|done|done|].
    pose proof (step_base (core2 n) round step Hb Hr) as Hb'.
    unfold since, good, inv. rewrite Ec. split; [|done]. split.
    - split; [done|]. by eapply view_parts.
    - etrans; [exact Hl|]. split_and!; cbn -[core]; [done|lia|done]. }
  eapply hoare_post; [apply updateRoundStep_at|..]; auto.
Qed.

Lemma good_unvoted n :
  good n → (c_step (core n) < RoundStepPrevote)%Z → unvoted (core2 n).
Proof.
  intros [(Hb & Ht & Hl) Hp] Hs. unfold unvoted. cbn -[core].
  refine (conj Hb (conj Ht (conj Hs (conj _ Hp)))).
  intros E. apply Hl in E. unfold RoundStepPrecommit, RoundStepPrevote in *. lia.
Qed.

Lemma since_view c n n' : since c n → at_view (core2 n) n' → since c n'.
Proof.
  intros [[Hi Hp] Hl] En. assert (kept n n') as [Ec Hp'] by (by apply same_kept).
  unfold since, good. rewrite Ec. auto.
Qed.

(** The fields of a node seen through its view. *)
Lemma view_fields x n :
  core2 n = x →
  Height (n_sd n) = c_height x.1.1 ∧ Round (n_sd n) = c_round x.1.1 ∧
  Step (n_sd n) = c_step x.1.1 ∧ CommitRound (n_sd n) = c_cround x.1.1 ∧
  ProposalBlock (n_sd n) = x.1.2 ∧ ProposalBlockParts (n_sd n) = x.2.
Proof. by intros <-. Qed.

(** Actions start with a guard on the round state. *)
Lemma guarded c (g : StateData → bool) (body : StateData → C unit) :
  (∀ n n1, since c n → core2 n1 = core2 n → g (n_sd n1) = false →
     hoare (at_view (core2 n)) (body (n_sd n1)) (λ _, since c) (since c)) →
  stable (since c) (s ← sd id; if g s then mret tt else body s).
Proof.
  intros Hb. apply hoare_at. intros n Hn. apply at_sd. intros n1 E1. unfold id.
  destruct (g (n_sd n1)) eqn:Eg; [|by apply Hb].
  apply hoare_ret. intros n' En. by eapply since_view.
Qed.

(** Where an action for a round that was reached passes its guard. *)
Lemma here c n n1 h r (g : bool) :
  since c n → core2 n1 = core2 n → reached h r c →
  negb (Height (n_sd n1) =? h)%Z || (r <? Round (n_sd n1))%Z || ((Round (n_sd n1) =? r)%Z && g)
    = false →
  c_height (core n) = h ∧ c_round (core n) = r ∧ reached h r (core n) ∧ g = false.
Proof.
  intros [_ Hl] E1 Hre Eg. destruct (view_fields _ _ E1) as (E2 & E3 & _).
  rewrite E2, E3 in Eg. cbn -[core] in Eg. pose proof (reached_within _ _ _ _ Hre Hl) as Hr.
  split_and!; [..|done|]; unfold reached in Hr; bools; try done; lia.
Qed.

Lemma EnterPrevote_safe c h r : reached h r c → stable (since c) (EnterPrevote cfg o h r).
Proof using ASM.
  intros Hre. apply guarded. intros n n1 Hn E1 Eg. pose proof Hn as [Hg Hl].
  destruct (here _ _ _ _ _ _ Hn E1 Hre Eg) as (<- & <- & _ & Hs). clear Eg. bools.
  destruct (view_fields _ _ E1) as (_ & _ & E4 & _). rewrite E4 in Hs.
  assert (unvoted (core2 n)) as Hu by (by apply good_unvoted).
  eapply hoare_finally; [by apply prevoter_Do_at|intros u|]; (eapply hoare_post;
    [apply step_since; [exact Hl|cbn -[core]; lia|done|]|by intros ? ? [? _]|by intros ? [? _]]);
    (intros E; by destruct Hu as (_ & _ & _ & Hu & _)).
Qed.

(** ** Propose and new round *)

Lemma voted_kept {A} x s (m : C A) : keeps kept m → stable (voted x s) m.
Proof.
  intros Hm n (Hb & Ht & Hs & Hp). specialize (Hm n). unfold voted.
  destruct (m n) as [n' [a|e|]]; [| |done]; destruct Hm as [Ec Hp']; rewrite Ec; auto.
Qed.

Lemma base_timeout c ti :
  base c → reached (ti_Height ti) (ti_Round ti) c →
  base (mkCore (c_height c) (c_round c) (c_step c) (c_lround c) (c_lblock c) (c_lparts c) (c_vals c)
    (c_state c) (c_votes c) (c_commit c) (c_cround c) (c_signed c) (c_own c) (c_store c)
    (ti :: c_timeouts c) (c_cands c)).
Proof.
  intros [] Hr. constructor; try done. cbn. intros t [->|Ht]%elem_of_cons; [|auto].
  unfold reached in Hr. lia.
Qed.

Lemma Schedule_voted x s d h r step QE :
  reached h r x.1.1 → hoare (voted x s) (ScheduleTimeout d h r step) (λ _, voted x s) QE.
Proof.
  intros Hr. apply hoare_modify. intros n (Hb & Ht & Hs & Hp).
  refine (conj _ (conj Ht (conj Hs Hp))). apply (base_timeout (core n)); [done|].
  destruct Hs as (E1 & E2 & _). unfold reached in *. cbn -[core]. lia.
Qed.

Lemma Schedule_safe c d h r step :
  reached h r c → stable (since c) (ScheduleTimeout d h r step).
Proof.
  intros Hr. apply stable_modify. intros n [[(Hb & Ht & Hlt) Hp] Hl].
  refine (conj (conj (conj _ (conj Ht Hlt)) Hp) Hl). apply (base_timeout (core n)); [done|].
  by eapply reached_within.
Qed.

Lemma propose_voted x s h r b b' :
  reached h r x.1.1 → stable (voted x s) (propose cfg o h r b b').
Proof.
  intros Hr. unfold propose. apply stable_bind; [apply voted_kept; kp|]. intros d.
  apply stable_bind; [by apply Schedule_voted|]. intros _. apply voted_kept. kp.
Qed.

(** A state has not voted beyond its step. *)
Lemma good_voted n n' : good n → at_view (core2 n) n' → voted (core2 n) (c_step (core n)) n'.
Proof.
  intros [(Hb & Ht & Hl) Hp] En. assert (kept n n') as [Ec Hp'] by (by apply same_kept).
  unfold voted. rewrite Ec. refine (conj Hb (conj Ht (conj _ (Hp' Hp)))). done.
Qed.

Lemma EnterPropose_safe c h r : reached h r c → stable (since c) (EnterPropose cfg o h r).
Proof using ASM.
  intros Hre. apply guarded. intros n n1 Hn E1 Eg. pose proof Hn as [Hg Hl].
  destruct (here _ _ _ _ _ _ Hn E1 Hre Eg) as (Hh & Hro & Hr & Hs). clear Eg. bools.
  destruct (view_fields _ _ E1) as (_ & _ & E4 & _). rewrite E4 in Hs. cbn -[core] in Hs.
  do 3 (apply at_bind; [kp| |by intros; eapply since_view]; intros ?).
  apply at_bind; [kp| |by intros; eapply since_view]. intros pwt. destruct (0 <? pwt)%Z.
  { eapply hoare_pre; [by apply Schedule_safe|]. intros n' En. by eapply since_view. }
  assert (stable (since c) (complete ← isProposalComplete;
    when complete (ignore (EnterPrevote cfg o h r)))) as Hrest.
  { apply stable_bind; [apply since_kept; kp|]. intros b.
    apply stable_when, stable_ignore. by apply EnterPrevote_safe. }
  assert (hoare (voted (core2 n) (c_step (core n))) (_ ← updateRoundStep r RoundStepPropose;
    complete ← isProposalComplete; when complete (ignore (EnterPrevote cfg o h r)))
    (λ _, since c) (since c)) as Hend.
  { eapply hoare_bind; [|intros u; exact Hrest].
    eapply hoare_post; [apply step_since; [exact Hl|cbn -[core]; lia|cbn -[core]; lia|apply Hg]
      |by intros ? ? [? _]|by intros ? [? _]]. }
  eapply hoare_finally; [|intros u; exact Hend|exact Hend].
  eapply hoare_pre; [apply propose_voted; exact Hr|]. intros n' En. by apply good_voted.
Qed.

(** *** Writing the votes *)

Definition votes_ok (c : Core) (hvs : HeightVoteSet) : Prop :=
  hvs_sound cid (known (c_signed c)) (vals_now c) (c_height c) hvs.

Lemma with_votes {A} c (k : HeightVoteSet → C A) :
  (∀ n hvs, since c n → votes_ok (core n) hvs →
     hoare (at_view (core2 n)) (k hvs) (λ _, since c) (since c)) →
  stable (since c) (deref_sd Votes ≫= k).
Proof.
  intros Hk n Hn. unfold deref_sd, mbind, M_bind, sd, gets, lift.
  destruct (Votes (n_sd n)) as [hvs|] eqn:Ev; [|done]. cbn. apply (Hk n hvs Hn); [|done].
  destruct Hn as [[[Hb _] _] _]. destruct (b_votes _ Hb) as (hvs' & Ev' & Hs). cbn in Ev'.
  by simplify_eq.
Qed.

Definition votes_core (hvs : HeightVoteSet) (c : Core) : Core :=
  mkCore (c_height c) (c_round c) (c_step c) (c_lround c) (c_lblock c) (c_lparts c) (c_vals c)
    (c_state c) (Some hvs) (c_commit c) (c_cround c) (c_signed c) (c_own c) (c_store c)
    (c_timeouts c) (c_cands c).

Lemma base_votes c hvs : base c → votes_ok c hvs → base (votes_core hvs c).
Proof. intros [] Hv. constructor; try done. by exists hvs. Qed.

Lemma put_votes c n hvs :
  since c n → votes_ok (core n) hvs →
  hoare (at_view (core2 n)) (put (set_Votes (Some hvs))) (λ _, since c) (since c).
Proof.
  intros [[(Hb & Ht & Hl) Hp] Hla] Hv. apply hoare_modify. intros n' En.
  assert (core (set_sd (set_Votes (Some hvs) (n_sd n')) n') = votes_core hvs (core n)) as Ec.
  { rewrite <- (f_equal (λ y, y.1.1) En : core n' = core n). reflexivity. }
  unfold since, good. rewrite Ec. split; [split|done].
  - refine (conj _ (conj Ht Hl)). by apply base_votes.
  - apply (same_kept n n') in En as [_ Hp']. apply (Hp' Hp).
Qed.

Lemma since_trans c c' n : within c c' → since c' n → since c n.
Proof. intros Hl [Hg Hl']. split; [done|]. by etrans. Qed.

Lemma setRound_safe c r (rest : C unit) :
  stable (since c) rest →
  stable (since c) (votes ← deref_sd Votes;
    let next := int32 (r + 1) in
    votes ← lift_panic (SetRound (Z.to_nat (next - hvs_round votes + 3)) votes next);
    _ ← put (set_Votes (Some votes)); rest).
Proof.
  intros Hrest. apply with_votes. intros n hvs Hn Hv.
  eapply (hoare_bind _ _ _ (λ v n', votes_ok (core n) v ∧ at_view (core2 n) n')).
  { apply hoare_lift_panic. intros n' v En Hs. split; [|done]. by eapply SetRound_sound. }
  intros v. apply hoare_fact. intros Hv'. eapply hoare_bind; [by apply put_votes|done].
Qed.

(** Running from the state reached by now. *)
Lemma rebase {A} c (φ : Core → Prop) (m : C A) (ψ : Core → Prop) :
  (∀ c', within c c' → φ c' → stable (since c') m) →
  (∀ c' c'', φ c' → within c' c'' → ψ c'') →
  hoare (λ n, since c n ∧ φ (core n)) m (λ _ n, since c n ∧ ψ (core n))
    (λ n, since c n ∧ ψ (core n)).
Proof.
  intros Hm Hψ n [[Hg Hl] Hφ]. specialize (Hm (core n) Hl Hφ n).
  assert (since (core n) n) as Hs by (by split).
  assert (∀ n', since (core n) n' → since c n' ∧ ψ (core n')) as Hn.
  { intros n' Hn'. split; [by eapply since_trans|]. eapply Hψ; [done|by apply Hn']. }
  specialize (Hm Hs). destruct (m n) as [n' [a|e|]]; auto.
Qed.

Lemma EnterNewRound_rest c h r :
  reached h r c →
  stable (since c) (_ ← when (negb (r =? 0)%Z) (
          _ ← put dropProposal;
          commit ← sd SD_Commit;
          match commit with
          | Some c => retargetTo (Commit_BlockID c)
          | None => put (λ s, set_ProposalBlockParts None (set_ProposalBlock None s))
          end);
    votes ← deref_sd Votes;
    let next := int32 (r + 1) in
    votes ← lift_panic (SetRound (Z.to_nat (next - hvs_round votes + 3)) votes next);
    _ ← put (set_Votes (Some votes));
    _ ← put (set_TriggeredTimeoutPrecommit false);
    _ ← Save;
    _ ← NewRoundEvent;
    s ← sd id;
    let waitForTxs := WaitForTxs cfg && (r =? 0)%Z &&
                      negb (InitialHeight (SD_state s) =? Height s)%Z &&
                      negb (ProposeNextBlockImmediately s) in
    if (waitForTxs : bool) then
      when (0 <? CreateEmptyBlocksInterval cfg)%Z
        (ScheduleTimeout (CreateEmptyBlocksInterval cfg) h r RoundStepNewRound)
    else when (negb (DontAutoPropose cfg)) (EnterPropose cfg o h r)).
Proof using ASM.
  intros Hr. apply stable_bind; [apply since_kept; kp|]. intros _. apply setRound_safe.
  do 4 (apply stable_bind; [apply since_kept; kp|]; intros ?). cbv zeta. destruct (_ && _).
  - by apply stable_when, Schedule_safe.
  - by apply stable_when, EnterPropose_safe.
Qed.

Lemma Now_at x QE : hoare (at_view x) (Now o) (λ _, at_view x) QE.
Proof. intros n <-. reflexivity. Qed.

Lemma EnterNewRound_safe c h r :
  hoare (since c) (EnterNewRound cfg o h r)
    (λ _ n, since c n ∧ (h ≤ c_height c → reached h r (core n))%Z)
    (λ n, since c n ∧ (h ≤ c_height c → reached h r (core n))%Z).
Proof using ASM.
  apply hoare_at. intros n [Hg Hl]. apply at_sd. intros n1 E1. unfold id.
  destruct (view_fields _ _ E1) as (E2 & E3 & E4 & _). rewrite E2, E3, E4. cbn -[core].
  destruct (_ || _) eqn:Eg.
  { apply hoare_ret. intros n' En. split; [by eapply since_view|]. intros Hh.
    rewrite (f_equal (λ y, y.1.1) En : core n' = core n). unfold reached, within in *.
    clear - Eg Hh Hl. bools; lia. }
  assert (c_height (core n) = h ∧ (c_round (core n) ≤ r)%Z ∧
    (r = c_round (core n) → c_step (core n) ≤ RoundStepNewRound)%Z) as (Hh & Hr & Hs).
  { unfold RoundStepNewHeight, RoundStepNewRound in *. clear - Eg. bools; lia. }
  eapply (hoare_bind _ _ _ (λ _, at_view (core2 n))); [apply Now_at|]. intros t.
  eapply (hoare_bind _ _ _ (λ _ n', since c n' ∧ reached h r (core n'))).
  { eapply hoare_weaken; [apply (step_since (core2 n) (c_step (core n)) r RoundStepNewRound c)| | |];
      [done|done|done|apply Hg|by intros n'; apply good_voted| |].
    - intros _ n' (Hs' & Eh & Er & _). split; [done|]. right. cbn -[core] in Eh. lia.
    - intros n' (Hs' & Eh & Er & _). split; [done|]. intros _. right. cbn -[core] in Eh. lia. }
  intros u. eapply hoare_post; [apply (rebase c (reached h r) _ (reached h r))| |].
  - intros c' _. apply EnterNewRound_rest.
  - intros c' c''. apply reached_within.
  - naive_solver.
  - naive_solver.
Qed.

(** ** Waiting *)

Lemma EnterPrevoteWait_safe c h r :
  reached h r c → stable (since c) (EnterPrevoteWait cfg h r).
Proof.
  intros Hre. apply guarded. intros n n1 Hn E1 Eg. pose proof Hn as [Hg Hl].
  destruct (here _ _ _ _ _ _ Hn E1 Hre Eg) as (Hh & Hro & Hr & Hs). clear Eg. bools.
  destruct (view_fields _ _ E1) as (_ & _ & E4 & _). rewrite E4 in Hs. cbn -[core] in Hs.
  do 2 (apply at_bind; [kp| |by intros; eapply since_view]; intros ?).
  destruct (negb _); [apply hoare_panic|].
  apply at_bind; [kp| |by intros; eapply since_view]. intros d.
  eapply hoare_bind; [eapply hoare_pre;
    [by apply (Schedule_voted (core2 n) (c_step (core n)))|by intros n'; apply good_voted]|].
  intros u. eapply hoare_post; [apply step_since; [exact Hl|cbn -[core]; lia|cbn -[core]; lia|apply Hg]
    |by intros ? ? [? _]|by intros ? [? _]].
Qed.

Lemma EnterPrecommitWait_safe c h r :
  reached h r c → stable (since c) (EnterPrecommitWait cfg h r).
Proof.
  intros Hre. apply stable_bind; [apply since_kept; kp|]. intros s. destruct (_ || _).
  { apply since_kept. kp. }
  do 2 (apply stable_bind; [apply since_kept; kp|]; intros ?).
  destruct (negb _); [apply since_kept; kp|].
  apply stable_bind; [apply since_kept; kp|]. intros d.
  apply stable_bind; [by apply Schedule_safe|]. intros u. apply since_kept. kp.
Qed.

(** ** Precommit *)

Definition lock_core (b : option Block) (ps : option PartSet) (c : Core) : Core :=
  mkCore (c_height c) (c_round c) (c_step c) (c_round c) b ps (c_vals c) (c_state c) (c_votes c)
    (c_commit c) (c_cround c) (c_signed c) (c_own c) (c_store c) (c_timeouts c) (c_cands c).

Lemma base_lock c b ps id step :
  base c → timing step c → (step < RoundStepPrecommit)%Z → Block_BlockID b ps = Ok id →
  IsNil id = false → polka (c_signed c) (vals_now c) (c_height c) (c_round c) id →
  base (lock_core b ps c).
Proof.
  intros Hb Ht Hs Hid Hn Hp. pose proof (b_round _ Hb) as Hr. destruct Hb. constructor; try done.
  right. exists id. cbn. split_and!; [done|done|lia|lia|done|].
  intros v Hv Ev [Et _]. destruct (Ht v Hv Ev) as [? Hle]. split; [done|]. intros E.
  specialize (Hle E). rewrite Et in Hle. cbn in Hle. lia.
Qed.

(** The precommit is cast, or will not be; the step may still be the one before. *)
Definition precommitted (c : Core) (n : Node) : Prop :=
  base (core n) ∧ timing RoundStepPrecommit (core n) ∧ (c_height (core n) = c_height c ∧
  c_round (core n) = c_round c ∧ c_store (core n) = c_store c) ∧ with_parts n.

Definition may_precommit (x : view) : Prop :=
  base x.1.1 ∧ timing (c_step x.1.1) x.1.1 ∧ (c_step x.1.1 < RoundStepPrecommit)%Z ∧ vparts x.

Lemma precommitted_kept {A} c (m : C A) : keeps kept m → stable (precommitted c) m.
Proof.
  intros Hm n (Hb & Ht & Hs & Hp). specialize (Hm n). unfold precommitted.
  destruct (m n) as [n' [a|e|]]; [| |done]; destruct Hm as [Ec Hp']; rewrite Ec; auto 6.
Qed.

Lemma may_precommitted x n : may_precommit x → at_view x n → precommitted x.1.1 n.
Proof.
  intros (Hb & Ht & Hs & Hp) En. unfold precommitted.
  rewrite (f_equal (λ y, y.1.1) En : core n = x.1.1).
  refine (conj Hb (conj _ (conj _ _))); [|done|by eapply view_parts].
  intros v Hv Ev. destruct (Ht v Hv Ev) as [? Hle]. split; [done|]. intros E. specialize (Hle E). lia.
Qed.

Lemma voted_precommitted (x y : view) n :
  c_height y.1.1 = c_height x.1.1 → c_round y.1.1 = c_round x.1.1 →
  c_store y.1.1 = c_store x.1.1 →
  voted y RoundStepPrecommit n → precommitted x.1.1 n.
Proof.
  intros Eh Er Es (Hb & Ht & (E1 & E2 & _ & _ & _ & E3) & Hp). unfold precommitted.
  rewrite E1, E2, E3. auto 6.
Qed.

Lemma precommitNil_at x :
  may_precommit x →
  hoare (at_view x) (precommitNil cfg o) (λ _, precommitted x.1.1) (precommitted x.1.1).
Proof.
  intros (Hb & Ht & Hs & Hp). eapply hoare_post; [eapply (vote_voted x PrecommitType)|..]; eauto.
  - right. by split.
  - intros u n. by apply voted_precommitted.
  - intros n. by apply voted_precommitted.
Qed.

Lemma lock_precommit_at (x : view) b ps id :
  may_precommit x → Block_BlockID b ps = Ok id → IsNil id = false → (is_Some b → is_Some ps) →
  polka (c_signed x.1.1) (vals_now x.1.1) (c_height x.1.1) (c_round x.1.1) id →
  hoare (at_view (lock_core b ps x.1.1, x.1.2, x.2)) (signAddVote cfg o PrecommitType id)
    (λ _, precommitted x.1.1) (precommitted x.1.1).
Proof.
  intros (Hb & Ht & Hs & Hp) Hid Hn Hps Hpol.
  eapply hoare_post; [eapply (vote_voted _ PrecommitType id (c_step x.1.1))|..].
  - by eapply base_lock.
  - exact Ht.
  - done.
  - right. done.
  - split; [apply Hp|done].
  - intros u n. by apply voted_precommitted.
  - intros n. by apply voted_precommitted.
Qed.

Lemma lockAndPrecommit_at (x : view) r id (lockedMatches : bool) :
  may_precommit x → proposal_id x id → IsNil id = false → r = c_round x.1.1 →
  (lockedMatches = true → Block_BlockID (c_lblock x.1.1) (c_lparts x.1.1) = Ok id) →
  polka (c_signed x.1.1) (vals_now x.1.1) (c_height x.1.1) (c_round x.1.1) id →
  hoare (at_view x) (lockAndPrecommit cfg o r id lockedMatches) (λ _, precommitted x.1.1)
    (precommitted x.1.1).
Proof.
  intros Hx Hid Hn -> Hlock Hpol. pose proof Hx as (_ & _ & _ & Hp). unfold lockAndPrecommit.
  do 2 (apply at_bind; [kp| |by intros; apply may_precommitted]; intros _).
  destruct lockedMatches.
  - eapply hoare_bind; [|intros u; apply lock_precommit_at; [done|by apply Hlock|done|apply Hp|done]].
    apply hoare_modify. intros n En. rewrite <- En. reflexivity.
  - eapply hoare_bind.
    { apply (hoare_modify _ _ (λ _, at_view (lock_core x.1.2 x.2 x.1.1, x.1.2, x.2))).
      intros n En. rewrite <- En. reflexivity. }
    intros u. eapply hoare_bind; [apply lock_precommit_at; [done|done|done|apply Hp|done]|].
    intros u'. apply (precommitted_kept x.1.1). kp.
Qed.

Lemma retarget_precommitNil_at (x : view) id :
  may_precommit x →
  hoare (at_view x) (_ ← retargetTo id; precommitNil cfg o) (λ _, precommitted x.1.1)
    (precommitted x.1.1).
Proof.
  intros Hx. pose proof Hx as (Hb & Ht & Hs & Hp).
  eapply (hoare_bind _ _ _ (λ _ n, core n = x.1.1 ∧ with_parts n)).
  - eapply hoare_weaken; [apply (hoare_kept _ (λ y, y = x.1.1)); apply k_retargetTo|..].
    + intros n En. split; [exact (f_equal (λ y, y.1.1) En)|by eapply view_parts].
    + done.
    + intros n [Ec Hw]. unfold precommitted. rewrite Ec. 
      refine (conj Hb (conj _ (conj _ Hw))); [|done].
      intros v Hv Ev. destruct (Ht v Hv Ev) as [? Hle]. split; [done|]. intros E. specialize (Hle E). lia.
  - intros u. apply hoare_at. intros n [Ec Hw].
    assert (may_precommit (core2 n)) as Hn by (unfold may_precommit; cbn -[core]; rewrite Ec; done).
    eapply hoare_post; [by apply precommitNil_at|..]; cbn -[core]; by rewrite Ec.
Qed.

Lemma precommitPolka_at (x : view) r id :
  may_precommit x → r = c_round x.1.1 →
  polka (c_signed x.1.1) (vals_now x.1.1) (c_height x.1.1) (c_round x.1.1) id →
  hoare (at_view x) (precommitPolka cfg o r id) (λ _, precommitted x.1.1) (precommitted x.1.1).
Proof.
  intros Hx Hr Hpol. unfold precommitPolka.
  assert (∀ n, at_view x n → precommitted x.1.1 n) as Hv by (by intros; apply may_precommitted).
  apply at_bind; [kp| |done]. intros votes. apply at_bind; [kp| |done]. intros [polRound polID].
  destruct (polRound <? r)%Z; [apply hoare_panic|].
  destruct (IsNil id) eqn:Hnil; [by apply precommitNil_at|].
  apply at_sd. intros n En.
  destruct (SD_Proposal _) as [p|]; [|by apply precommitNil_at].
  destruct (ProposalBlock _) as [b|]; [|by apply precommitNil_at].
  destruct (negb _); [by apply precommitNil_at|].
  eapply hoare_bind; [eapply hoare_post; [apply lockedBlockID_at|done|done]|].
  intros locked. apply hoare_fact. intros Hl.
  eapply hoare_bind; [eapply hoare_post; [apply proposalBlockID_at|done|done]|].
  intros proposed. apply hoare_fact. intros Hp.
  destruct (negb _ && _); [by apply precommitNil_at|].
  destruct (BlockID_Equals proposed id) eqn:Ep.
  - apply BlockID_Equals_spec in Ep as ->. apply lockAndPrecommit_at; try done.
    intros E%BlockID_Equals_spec. by subst.
  - by apply retarget_precommitNil_at.
Qed.

Lemma EnterPrecommit_safe c h r : reached h r c → stable (since c) (EnterPrecommit cfg o h r).
Proof using ASM.
  intros Hre. apply guarded. intros n n1 Hn E1 Eg. pose proof Hn as [Hg Hl].
  destruct (here _ _ _ _ _ _ Hn E1 Hre Eg) as (Hh & Hro & Hr & Hs). clear Eg. bools.
  destruct (view_fields _ _ E1) as (_ & _ & E4 & _). rewrite E4 in Hs. cbn -[core] in Hs.
  assert (may_precommit (core2 n)) as Hx by (destruct Hg as [(? & ? & ?) ?]; done).
  assert (hoare (precommitted (core n)) (updateRoundStep r RoundStepPrecommit) (λ _, since c)
    (since c)) as Hend.
  { apply hoare_at. intros n2 (Hb & Ht & (Eh & Er & Es) & Hp).
    eapply hoare_weaken; [apply (step_since (core2 n2) RoundStepPrecommit r RoundStepPrecommit c)
      | |by intros ? ? [? _]|by intros ? [? _]]; cbn -[core]; [|lia|done|done|].
    - etrans; [done|]. split_and!; [done|lia|done].
    - intros n3 E3. unfold voted. assert (kept n2 n3) as [Ec Hp'] by (by apply same_kept).
      rewrite Ec. by refine (conj Hb (conj Ht (conj _ (Hp' Hp)))). }
  eapply hoare_finally; [|intros u; exact Hend|exact Hend].
  eapply hoare_bind; [eapply hoare_post; [apply prevotes_at; apply Hg|done|]|].
  { intros n2. by apply may_precommitted. }
  intros vs. apply hoare_fact. intros Hpol. destruct (majority vs) as [id ok].
  destruct ok; [|by apply precommitNil_at].
  apply precommitPolka_at; [done|done|]. cbn -[core]. rewrite Hro. by apply Hpol.
Qed.

End safe.

End cssafe.
