(* ===== verification/ConsensusCommit.v ===== *)
(** * Consensus: commits and events keep the voting rules

    The rest of the proof that every event of a node preserves the invariant of
    ConsensusSafe: applying a commit starts the next height, and the messages,
    timeouts and claims of peers are handled. *)
From Stdlib Require Import ZArith Lia Init.Byte.
From stdpp Require Import base numbers list sets gmap.
From S2P Require Import Prelude.
From S2P Require Import StateM.
From S2P Require Import Merkle.
From S2P Require Import PartSet.
From S2P Require Import Types.
From S2P Require Import Crypto.
From S2P Require Import QuorumSign.
From S2P Require Import Proposal.
From S2P Require Import ValidatorSet.
From S2P Require Import Recoverer.
From S2P Require Import VoteSet.
From S2P Require Import VoteSetInv.
From S2P Require Import VoteSetSafe.
From S2P Require Import VoteSetThms.
From S2P Require Import HeightVoteSet.
From S2P Require Import HeightVoteSetThms.
From S2P Require Import Evidence.
From S2P Require Import Block.
From S2P Require Import Params.
From S2P Require Import SmState.
From S2P Require Import Execution.
From S2P Require Import SelectProposer.
From S2P Require Import VotesSound.
From S2P Require Import ConsensusTypes.
From S2P Require Import ConsensusData.
From S2P Require Import ConsensusVote.
From S2P Require Import ConsensusSteps.
From S2P Require Import ConsensusInv.
From S2P Require Import ConsensusSafe.

Import statem partset types crypto quorum valset recoverer voteset vsinv vssafe vsthms.
Import heightvs hvsthms proposal evidence block params sm abci selectproposer votes.
Import cstypes node csdata csvote cs csinv cssafe.

Module cscommit.

Section commit.
Context `{Crypto} `{Dashd} `{MapOrder} `{StdTime} `{Executor} `{PrivValidator} `{BlockCodec}.
Context {S : Setting} {ASM : Assumptions S}.
Context (o : Oracle).

(** ** The next height *)

Lemma store_length c : base c → length store0 ≤ length (c_store c).
Proof. intros Hb. rewrite <- (b_store _ Hb), length_take. lia. Qed.

Lemma decisions_snoc c s :
  base c → decisions (c_store c ++ [s]) = decisions (c_store c) ++ [Commit_BlockID (saved_commit s)].
Proof.
  intros Hb. unfold decisions. rewrite drop_app_le by (by apply store_length). by rewrite fmap_app.
Qed.

Lemma vals_at_snoc ds b k : k ≤ length ds → vals_at (ds ++ [b]) k = vals_at ds k.
Proof. destruct k as [|k]; [done|]. cbn. intros Hk. by rewrite lookup_app_l by lia. Qed.

Lemma height_vals_snoc ds b h :
  (h0 ≤ h ≤ h0 + Z.of_nat (length ds))%Z → height_vals (ds ++ [b]) h = height_vals ds h.
Proof. intros Hh. apply vals_at_snoc. lia. Qed.

Lemma rules_decide s ds b : rules s ds → rules s (ds ++ [b]).
Proof.
  intros [R0 R1 R2 R3 R4 R5]. constructor; try done.
  - intros v Hv. specialize (R2 v Hv). rewrite length_app. cbn. lia.
  - intros v Hv Hf. rewrite height_vals_snoc by auto. auto.
  - intros p w Hp Hw Hfp Hfw Eh Hr. rewrite height_vals_snoc by auto. auto.
Qed.

(** The core a new height starts with. *)
Definition next_core (c : Core) (saved : savedBlock) (state : State) (hvs : HeightVoteSet) : Core :=
  mkCore (c_height c + 1) 0 RoundStepNewHeight (-1) None None
    (Some (next_vals (c_height c) (Commit_BlockID (saved_commit saved)))) state (Some hvs) None (-1)
    (c_signed c) (c_own c) (c_store c ++ [saved]) (c_timeouts c) (c_cands c).

Lemma vals_now_next c saved state hvs :
  base c → vals_now (next_core c saved state hvs) =
    next_vals (c_height c) (Commit_BlockID (saved_commit saved)).
Proof.
  intros Hb. unfold vals_now. cbn. rewrite (decisions_snoc _ _ Hb), length_app, Nat.add_1_r. cbn.
  rewrite list_lookup_middle by done. by rewrite (b_height _ Hb).
Qed.

Lemma next_inv c saved state hvs :
  base c →
  let b := Commit_BlockID (saved_commit saved) in
  IsNil b = false → Meta_BlockID (saved_meta saved) = b →
  decided (c_signed c) (vals_now c) (c_height c) b →
  State_Validators state = Some (next_vals (c_height c) b) → ChainID state = cid →
  (LastBlockHeight state < MaxInt64)%Z →
  hvs_sound cid (known (c_signed c)) (next_vals (c_height c) b) (c_height c + 1) hvs →
  inv (next_core c saved state hvs).
Proof.
  intros Hb b Hn Hm Hd Hsv Hch Hlt Hv. pose proof (vals_now_next c saved state hvs Hb) as Evn.
  fold b in Evn. pose proof (decisions_snoc c saved Hb) as Eds. fold b in Eds.
  pose proof (b_height _ Hb) as Hh. pose proof (ru_height _ _ (b_rules _ Hb)) as Hle.
  split; [constructor|split]; rewrite ?Evn; cbn; try done.
  - rewrite take_app_le by (by apply store_length). apply (b_store _ Hb).
  - rewrite Eds, length_app. cbn. lia.
  - eauto.
  - rewrite Eds. apply rules_decide, (b_rules _ Hb).
  - left. split; [done|]. cbn. intros v Hin Ev. specialize (Hle v Hin). lia.
  - apply (b_own _ Hb).
  - intros ti Hti. pose proof (b_timeouts _ Hb ti Hti). lia.
  - pose proof (b_cands _ Hb) as [? _]. split; [lia|]. intros E. lia.
  - intros k sv Hk. rewrite Eds. rewrite drop_app_le in Hk by (by apply store_length).
    assert (length (drop (length store0) (c_store c)) = length (decisions (c_store c))) as El
      by (unfold decisions; by rewrite length_fmap).
    apply lookup_app_Some in Hk as [Hk|[Hk1 Hk2]].
    + pose proof (lookup_lt_Some _ _ _ Hk). rewrite vals_at_snoc by lia. by apply (b_decided _ Hb).
    + apply list_lookup_singleton_Some in Hk2 as [Hk2 <-]. fold b.
      replace k with (length (decisions (c_store c))) by lia. rewrite vals_at_snoc by lia.
      rewrite <- Hh. done.
  - intros v Hin Ev. cbn in *. specialize (Hle v Hin). lia.
Qed.

(** ** Good states of any height *)

(** Heights grow; within a height the round grows. *)
Definition later (c c' : Core) : Prop := (c_height c < c_height c')%Z ∨ within c c'.

Global Instance later_preorder : PreOrder later.
Proof.
  split; [by right|]. unfold later. intros a b c [?|Hab] [?|Hbc]; [left; lia| | |right; by etrans];
    left; unfold within in *; lia.
Qed.

Definition after (c : Core) (n : Node) : Prop := good n ∧ later c (core n).

Lemma since_after c n : since c n → after c n.
Proof. intros [Hg Hl]. split; [done|by right]. Qed.

Lemma after_trans c c' n : later c c' → after c' n → after c n.
Proof. intros Hl [Hg Hl']. split; [done|]. by etrans. Qed.

Lemma after_view c n n' : after c n → at_view (core2 n) n' → after c n'.
Proof.
  intros [Hg Hl] En. assert (since (core n) n') as [Hg' Hl'] by (by eapply since_view).
  split; [done|]. etrans; [done|by right].
Qed.

Lemma after_kept {A} c (m : C A) : keeps kept m → stable (after c) m.
Proof.
  intros Hm n [Hg Hl]. pose proof (since_kept (core n) m Hm n (conj Hg (reflexivity _))) as Hs.
  destruct (m n) as [n' [a|e|]]; [| |done]; (eapply after_trans; [done|by apply since_after]).
Qed.

(** What is safe within a height is safe. *)
Lemma lift_at {A} c n (m : C A) (Q : A → Node → Prop) (QE : Node → Prop) :
  after c n → hoare (since (core n)) m Q QE →
  hoare (at_view (core2 n)) m (λ a n', Q a n') QE.
Proof.
  intros [Hg Hl] Hm. eapply hoare_pre; [exact Hm|]. intros n' En.
  eapply since_view; [|exact En]. by split.
Qed.

Lemma since_later c n n' : after c n → since (core n) n' → after c n'.
Proof. intros [Hg Hl] Hs. eapply after_trans; [exact Hl|by apply since_after]. Qed.

Lemma reached_later h r c c' : reached h r c → later c c' → reached h r c'.
Proof. unfold reached, later, within. lia. Qed.

Lemma reached_after c h r (m : C unit) :
  (∀ c', reached h r c' → stable (since c') m) → reached h r c → stable (after c) m.
Proof.
  intros Hm Hr. apply hoare_at. intros n Hn.
  eapply hoare_post; [eapply (lift_at c n); [done|apply Hm]|..].
  - eapply reached_later; [done|apply Hn].
  - intros u n'. by apply since_later.
  - intros n'. by apply since_later.
Qed.

(** ** Updating the state *)

Definition saved_view (saved : savedBlock) (x : view) : view :=
  let c := x.1.1 in
  (mkCore (c_height c) (c_round c) (c_step c) (c_lround c) (c_lblock c) (c_lparts c) (c_vals c)
     (c_state c) (c_votes c) (c_commit c) (c_cround c) (c_signed c) (c_own c)
     (c_store c ++ [saved]) (c_timeouts c) (c_cands c), x.1.2, x.2).

(** What [updateToState] leaves alone until it resets the round state. *)
Definition log (c : Core) :=
  (c_vals c, c_signed c, c_own c, c_store c, c_timeouts c, c_cands c).

Definition logged (n n' : Node) : Prop := log (core n') = log (core n).

Global Instance logged_preorder : PreOrder logged.
Proof. split; unfold logged; [done|congruence]. Qed.

Lemma hoare_logged {A} (m : C A) l QE :
  keeps logged m → (∀ n, log (core n) = l → QE n) →
  hoare (λ n, log (core n) = l) m (λ _ n, log (core n) = l) QE.
Proof.
  intros Hm HE n Hn. specialize (Hm n). unfold logged in Hm.
  destruct (m n) as [n' [a|e|]]; [congruence|apply HE; congruence|done].
Qed.

Lemma checkNewState_at (x : view) state :
  (LastBlockHeight (c_state x.1.1) < MaxInt64)%Z → (0 < c_height x.1.1)%Z →
  (-1 < c_cround x.1.1)%Z → hoare (at_view x) (checkNewState state)
    (λ go n, (go = true ∧ LastBlockHeight state = c_height x.1.1) ∧ at_view x n) (λ _, True).
Proof.
  intros Hs Hh Hc. apply at_sd. intros n En. unfold id. pose proof (view_fields _ _ En) as (-> & _ & _ & -> & _).
  assert (SD_state (n_sd n) = c_state x.1.1) as -> by (by rewrite <- En).
  rewrite (proj2 (Z.ltb_lt (-1) (c_cround x.1.1)) Hc), (proj2 (Z.ltb_lt 0 (c_height x.1.1))) by lia.
  cbn [andb]. destruct (c_height x.1.1 =? LastBlockHeight state)%Z eqn:E; [|apply hoare_panic]. bools.
  cbn [negb]. destruct (State_IsEmpty _); [by apply hoare_ret|].
  destruct (_ && _) eqn:E1; [apply hoare_panic|]. destruct (_ && (_ =? InitialHeight _)%Z); [apply hoare_panic|].
  apply hoare_ret. intros n' En'. split; [|done]. split; [|done].
  apply negb_true_iff, Z.ltb_ge. destruct (Z.le_gt_cases (LastBlockHeight (c_state x.1.1)) 0); [lia|].
  bools; [lia|]. rewrite int64_id in * by (unfold_ints; lia). lia.
Qed.

Lemma next_height_succ state :
  (0 < LastBlockHeight state < MaxInt64)%Z → next_height state = (LastBlockHeight state + 1)%Z.
Proof.
  intros Hh. unfold next_height. rewrite int64_id by (unfold_ints; lia).
  destruct (_ =? 1)%Z eqn:E; bools; [lia|done].
Qed.

(** What a state decided for [b] at the current height has. *)
Definition next_state (b : BlockID) (state : State) : Prop :=
  State_Validators state = Some (next_vals (LastBlockHeight state) b) ∧ ChainID state = cid ∧
  (LastBlockHeight state < MaxInt64)%Z.

Definition saved_ok (c : Core) (saved : savedBlock) : Prop :=
  let b := Commit_BlockID (saved_commit saved) in
  IsNil b = false ∧ Meta_BlockID (saved_meta saved) = b ∧
  decided (c_signed c) (vals_now c) (c_height c) b.

Definition start_core (state : State) (height : Z) (vals : ValidatorSet) (hvs : HeightVoteSet)
    (signed own : list Vote) (store : list savedBlock) (timeouts : list timeoutInfo)
    (cands : commitCandidates) : Core :=
  mkCore height 0 RoundStepNewHeight (-1) None None (Some vals) state (Some hvs) None (-1) signed own
    store timeouts cands.

Lemma startHeight_at state vals sg ow st ti ca :
  State_Validators state = Some vals →
  hoare (λ n, ∃ vs, log (core n) = (vs, sg, ow, st, ti, ca)) (startHeight o state)
    (λ _ n, ∃ hvs, NewHeightVoteSet (ChainID state) (next_height state) vals = Ok hvs ∧
       core2 n = (start_core state (next_height state) vals hvs sg ow st ti ca, None, None))
    (λ _, True).
Proof.
  intros Hsv. apply hoare_exists. intros vs. unfold startHeight. rewrite Hsv. cbn [deref].
  eapply (hoare_bind _ _ _ (λ v n, v = vals ∧ log (core n) = (vs, sg, ow, st, ti, ca))).
  { apply hoare_lift; [|done]. by intros n v Hn [= <-]. }
  intros v. apply hoare_fact. intros ->.
  eapply (hoare_bind _ _ _ (λ _ n, log (core n) = (Some vals, sg, ow, st, ti, ca))).
  { apply hoare_modify. intros n Hlog. injection Hlog as _ E2 E3 E4 E5 E6. unfold log. cbn in *.
    by rewrite E2, E3, E4, E5, E6. }
  intros u. do 6 (eapply hoare_bind; [apply hoare_logged; [kp; unfold Now, tick; kp|done]|intros ?]).
  eapply (hoare_bind _ _ _ (λ hvs n, NewHeightVoteSet (ChainID state) (next_height state) vals = Ok hvs ∧
    log (core n) = (Some vals, sg, ow, st, ti, ca))).
  { apply hoare_lift_panic. eauto. }
  intros hvs. apply hoare_fact. intros Hhvs.
  eapply (hoare_bind _ _ _ (λ _ n, step_view 0 RoundStepNewHeight (core2 n) =
    (start_core state (next_height state) vals hvs sg ow st ti ca, None, None))).
  { apply hoare_modify. intros n Hlog. injection Hlog as E1 E2 E3 E4 E5 E6.
    unfold start_core. rewrite <- E1, <- E2, <- E3, <- E4, <- E5, <- E6. reflexivity. }
  intros u2. apply hoare_at. intros n En. eapply hoare_post; [apply updateRoundStep_at| |done].
  intros u3 n' En'. exists hvs. split; [done|]. unfold at_view in En'. congruence.
Qed.

Lemma updateToState_at (x : view) saved state commit c :
  within c x.1.1 → base x.1.1 → (-1 < c_cround x.1.1)%Z → saved_ok x.1.1 saved →
  next_state (Commit_BlockID (saved_commit saved)) state →
  hoare (at_view (saved_view saved x)) (updateToState o state (Some commit)) (λ _, after c)
    (λ _, True).
Proof using ASM.
  intros Hl Hb Hc (Hn & Hm & Hd) (Hsv & Hch & Hlt). pose proof (b_height _ Hb) as Hh.
  pose proof asm_h0 as Hh0.
  eapply hoare_bind; [apply checkNewState_at; [apply (b_state _ Hb)|cbn; lia|done]|].
  intros go. apply hoare_fact. intros [-> Eh]. cbn [when]. cbn in Eh.
  eapply (hoare_bind _ _ _ (λ _ n, log (core n) = log (saved_view saved x).1.1)).
  { eapply hoare_pre; [apply hoare_logged; [unfold newLastCommit; kp|done]|]. intros n En.
    exact (f_equal (λ y, log y.1.1) En). }
  intros u. eapply hoare_weaken; [by apply (startHeight_at state)|intros n Hlog; eexists; exact Hlog| |done].
  intros u' n (hvs & Hhvs & En). rewrite next_height_succ, Eh, Hch in * by lia.
  apply (NewHeightVoteSet_sound cid (known (c_signed x.1.1))) in Hhvs.
  split; [split|].
  - rewrite (f_equal (λ y, y.1.1) En : core n = _).
    apply (next_inv x.1.1 saved state hvs); try done. by rewrite Eh.
  - eapply view_parts; [exact En|by split; cbn; intros [? ?]].
  - rewrite (f_equal (λ y, y.1.1) En : core n = _). left. unfold within in Hl. cbn. lia.
Qed.

Ltac ne_step :=
  match goal with
  | |- noerr (mbind _ _) => apply noerr_bind; [|intros ?]
  | |- noerr (must _) => apply noerr_must
  | |- noerr (ignore _) => apply noerr_ignore
  | |- noerr (when _ _) => apply noerr_when
  | |- noerr (modify _) => apply noerr_modify
  | |- noerr (put _) => apply noerr_modify
  | |- noerr (lift (deref ?x)) => apply noerr_pure; intros ??; by destruct x
  | |- noerr (lift_panic ?x) => apply noerr_pure; intros ??; by destruct x
  | |- noerr (match ?x with _ => _ end) => destruct x
  | |- noerr (let _ := _ in _) => cbv zeta
  | |- noerr _ => by apply noerr_pure
  end.

Lemma updateToState_noerr state commit : noerr (updateToState o state (Some commit)).
Proof.
  unfold updateToState, startHeight, checkNewState, newLastCommit, updateRoundStep, deref_sd, Now, tick.
  repeat ne_step.
Qed.

(** ** Applying a commit *)

(** The proposal block is the block of the ID. *)
Definition held (x : view) (id : BlockID) : Prop :=
  ∃ b, x.1.2 = Some b ∧ HasHeader x.2 (BlockID_PartSetHeader id) = true ∧
    HashesTo (Some b) (BlockID_Hash id) = Ok true ∧
    StateID_Hash (Header_StateID (B_Header b)) = BlockID_StateID id.

Lemma HasHeader_eq ps psh : HasHeader ps psh = true → is_Some ps ∧ partset.Header ps = psh.
Proof.
  destruct ps as [ps|]; [|done]. cbn. unfold PSH_Equals. cbn. intros E. bools. split; [done|].
  destruct psh; cbn in *. by subst.
Qed.

Lemma HashesTo_hash b h :
  HashesTo (Some b) h = Ok true → ∃ b', Block_Hash (Some b) = Ok (Some b', h) ∧ h ≠ [] ∧
    Header_StateID (B_Header b') = Header_StateID (B_Header b).
Proof.
  unfold HashesTo. destruct (length h =? 0) eqn:El; [done|]. intros Hh.
  apply bind_Ok in Hh as ([ob h'] & Hb & [= Hh]). apply bool_decide_eq_true in Hh as ->.
  assert (h ≠ []) as Hne by (intros ->; done).
  unfold Block_Hash in Hb |- *. destruct (B_LastCommit b) as [lc|]; [|by injection Hb as _ <-].
  apply bind_Ok in Hb as (b' & Hf & Hb). rewrite Hf. cbn -[Header_Hash] in Hb |- *.
  apply bind_Ok in Hb as (h' & Hh' & [= <- <-]). exists b'. rewrite Hh'.
  split_and!; [done|done|]. unfold fillHeader in Hf. ok_inv. done.
Qed.

Lemma held_BlockID x id : held x id → proposal_id x id ∧ IsNil id = false.
Proof.
  intros (b & Eb & Hh & Hb & Hs). apply HasHeader_eq in Hh as [[ps Eps] Hh].
  apply HashesTo_hash in Hb as (b' & Hb & Hne & Hs'). unfold proposal_id, Block_BlockID.
  rewrite Eb, Hb, Eps in *. cbn -[Header_StateID]. destruct id as [h psh sid]. cbn -[Header_StateID] in *.
  destruct h as [|y h]; [done|]. cbn -[Header_StateID]. subst psh sid. by rewrite Hs'.
Qed.

Lemma verifyCommitBlock_at x commit :
  hoare (at_view x) (verifyCommitBlock commit)
    (λ ok n, (ok = true → held x (Commit_BlockID commit)) ∧ at_view x n) (at_view x).
Proof.
  unfold verifyCommitBlock. apply at_sd. intros n En. unfold id.
  destruct (view_fields _ _ En) as (_ & _ & _ & _ & -> & ->).
  destruct x.1.2 as [b|] eqn:Eb; [|by apply hoare_ret].
  destruct (HasHeader _ _) eqn:Eh; [|by apply hoare_fail]. cbn [negb].
  eapply (hoare_bind _ _ _ (λ same n', HashesTo (Some b) (BlockID_Hash (Commit_BlockID commit)) = Ok same
    ∧ at_view x n')); [by apply hoare_lift_panic|].
  intros same. apply hoare_fact. intros Hs. destruct same; cbn [negb].
  - destruct (bool_decide _) eqn:Ed; [|by apply hoare_fail]. cbn [negb]. apply hoare_ret. bools.
    split; [|done]. intros _. by exists b.
  - apply at_bind; [kp| |done]. intros ?. by apply hoare_fail.
Qed.

Lemma SaveBlock_at x commit :
  hoare (at_view x) (SaveBlock x.1.2 x.2 commit)
    (λ _ n, ∃ saved, (saved_commit saved = commit ∧ proposal_id x (Meta_BlockID (saved_meta saved))) ∧
       at_view (saved_view saved x) n) (at_view x).
Proof.
  unfold SaveBlock. apply at_bind; [kp| |done]. intros b.
  eapply (hoare_bind _ _ _ (λ l n, l = c_store x.1.1 ∧ at_view x n)).
  { apply hoare_gets. intros n En. by rewrite <- En. }
  intros l. apply hoare_fact. intros ->. cbv zeta.
  apply at_bind; [kp| |done]. intros ps. destruct (negb _); [apply hoare_panic|].
  destruct (negb _); [apply hoare_panic|].
  eapply (hoare_bind _ _ _ (λ id n, proposal_id x id ∧ at_view x n)); [by apply hoare_lift_panic|].
  intros id. apply hoare_fact. intros Hid. apply hoare_modify. intros n En.
  eexists. split; [split; [|]|]; [..|rewrite <- En; reflexivity]; done.
Qed.

Lemma executor_finalize_at (x y : view) id commit :
  held x id → y.1.2 = x.1.2 → y.2 = x.2 → ChainID (c_state y.1.1) = cid →
  hoare (at_view y) (executor_finalize commit) (λ r n, next_state id r.1 ∧ at_view y n) (at_view y).
Proof using ASM.
  intros (b & Eb & Hh & Hb & Hs) E1 E2 Hc. unfold executor_finalize. apply at_sd. intros n En.
  apply HasHeader_eq in Hh as [_ Hh]. apply HashesTo_hash in Hb as (b' & Hb & _ & _).
  destruct (view_fields _ _ En) as (_ & _ & _ & _ & Epb & Eps).
  unfold csdata.block_hash, Datatypes.id. rewrite Epb, Eps, E1, E2, Eb, Hh.
  assert (SD_state (n_sd n) = c_state y.1.1) as -> by (by rewrite <- En).
  intros n' En'. unfold mbind, M_bind, lift, lift_panic, deref. rewrite Hb. cbn -[Header_StateID].
  unfold app_call. rewrite Hs. destruct id as [h psh sid]. cbn in *.
  destruct (FinalizeBlock _ _ _ _ _ _) as [app' [[st im]|e|]] eqn:Ef; [|done|done]. cbn.
  apply asm_finalize in Ef as (? & Ec & ?). split; [|done]. split_and!; [done|congruence|done].
Qed.

Lemma flag_at x QE : hoare (at_view x) (flag o) (λ _, at_view x) QE.
Proof. intros n <-. reflexivity. Qed.

(** A state from which the commit can be applied. *)
Definition applicable (commit : Commit) (c : Core) : Prop :=
  (-1 < c_cround c)%Z ∧ decided (c_signed c) (vals_now c) (c_height c) (Commit_BlockID commit).

(** The timeout for the first round of the height. *)
Lemma Schedule_here c start :
  stable (after c) (h ← sd Height; now ← Now o; ScheduleTimeout (start - now) h 0 RoundStepNewHeight).
Proof.
  apply hoare_at. intros n Hn. apply at_sd. intros n1 E1.
  destruct (view_fields _ _ E1) as (-> & _). apply at_bind; [kp| |by intros; eapply after_view].
  intros now. assert (since (core n) n) as Hn' by (split; [apply Hn|done]).
  eapply hoare_weaken; [apply (Schedule_safe (core n)) | | |].
  - right. split; [done|]. apply b_round, Hn.
  - intros n' En. by eapply since_view.
  - intros u n'. by apply since_later.
  - intros n'. by apply since_later.
Qed.

Lemma ApplyCommit_safe c commit :
  hoare (λ n, since c n ∧ applicable commit (core n)) (ApplyCommit o commit) (λ _, after c) (after c).
Proof using ASM.
  apply hoare_at. intros n [Hn [Hc Hd]]. pose proof Hn as [[(Hb & _) _] Hl].
  assert (∀ n', at_view (core2 n) n' → after c n') as Hv
    by (by intros; eapply since_after, since_view).
  apply at_sd. intros n1 E1. destruct (view_fields _ _ E1) as (_ & _ & _ & _ & E2 & E3). unfold id.
  rewrite E2, E3. eapply hoare_bind; [eapply hoare_post; [apply verifyCommitBlock_at|done|done]|].
  intros ready. apply hoare_fact. intros Hheld. destruct ready; [|by apply hoare_fail].
  specialize (Hheld eq_refl). destruct (held_BlockID _ _ Hheld) as [Hid Hnil]. cbn [negb].
  do 2 (apply at_bind; [kp| |done]; intros ?).
  eapply hoare_bind; [eapply hoare_post; [apply SaveBlock_at|done|done]|].
  intros u. apply hoare_exists. intros saved. apply hoare_fact. intros [<- Hmeta].
  eapply hoare_bind; [apply flag_at|]. intros written. destruct (negb written); [apply hoare_panic|].
  eapply hoare_bind; [eapply hoare_must, (executor_finalize_at _ _ _ _ Hheld); [done|done|apply (b_chain _ Hb)]|].
  intros [state im]. apply hoare_fact. intros Hst.
  eapply hoare_bind; [eapply hoare_noerr; [apply updateToState_noerr|]|].
  { apply updateToState_at; [done|done|done|split_and!; [done| |done]|done].
    unfold proposal_id in *. congruence. }
  intros u'. do 2 (eapply stable_bind; [apply after_kept; kp|]; intros ?).
  apply stable_bind; [apply after_kept; kp|]. intros start. apply Schedule_here.
Qed.

(** ** Finalizing *)

Lemma precommits_at x r :
  base x.1.1 → hoare (at_view x) (precommits r)
    (λ vs n, (∀ b, majority vs = (b, true) →
       quorum_for cid (known (c_signed x.1.1)) (vals_now x.1.1) (c_height x.1.1) r PrecommitType b ∧
       (0 ≤ r)%Z) ∧ at_view x n) (at_view x).
Proof using ASM. apply voteset_at. Qed.

Lemma MakeCommit_id vs b c :
  majority (Some vs) = (b, true) → MakeCommit vs = Ok c → Commit_BlockID c = b.
Proof.
  cbn. unfold TwoThirdsMajority, MakeCommit. destruct (maj23 vs) as [b'|]; [|done]. intros [= ->] Hm.
  destruct (negb _); [done|]. destruct (_ =? _); [done|]. unfold NewCommit, CopyToCommit in Hm.
  destruct (negb _); [done|]. destruct (mapM _ _); [|done]. by injection Hm as <-.
Qed.

Lemma ApplyCommit_from c commit n :
  after c n → applicable commit (core n) →
  hoare (at_view (core2 n)) (ApplyCommit o commit) (λ _, after c) (after c).
Proof using ASM.
  intros [Hg Hl] Ha. eapply hoare_weaken; [apply (ApplyCommit_safe (core n))|..].
  - intros n' En. split; [|by rewrite (f_equal (λ y, y.1.1) En : core n' = core n)].
    eapply since_view; [|done]. by split.
  - intros u n'. by apply after_trans.
  - intros n'. by apply after_trans.
Qed.

Lemma finalizeCommit_safe c h : stable (after c) (finalizeCommit o h).
Proof using ASM.
  apply hoare_at. intros n Hn. pose proof Hn as [[[Hb _] _] _].
  assert (∀ n', at_view (core2 n) n' → after c n') as Hv by (by intros; eapply after_view).
  apply at_sd. intros n1 E1. unfold id. destruct (_ || _); [by apply hoare_ret|].
  destruct (view_fields _ _ E1) as (_ & _ & _ & -> & -> & ->).
  eapply hoare_bind; [eapply hoare_post; [apply precommits_at, Hb|done|done]|].
  intros vs. apply hoare_fact. intros Hq. destruct (majority vs) as [b ok] eqn:Em.
  destruct ok; [|apply hoare_panic]. destruct (Hq b eq_refl) as [Hquo Hr]. cbn [negb].
  destruct (negb _); [apply hoare_panic|].
  apply at_bind; [kp| |done]. intros same. destruct (negb same); [apply hoare_panic|].
  destruct vs as [vs|]; [|done].
  eapply (hoare_bind _ _ _ (λ v n', v = vs ∧ at_view (core2 n) n')).
  { apply hoare_lift; [|done]. by intros n' v En [= <-]. }
  intros vs'. apply hoare_fact. intros ->.
  eapply (hoare_bind _ _ _ (λ sc n', Commit_BlockID sc = b ∧ at_view (core2 n) n')).
  { apply hoare_lift_panic. intros n' sc En Hsc. split; [|done]. by eapply MakeCommit_id. }
  intros sc. apply hoare_fact. intros <-. apply at_bind; [kp| |done].
  intros [u|e]; [|by apply hoare_ret]. apply hoare_ignore.
  eapply hoare_post; [by apply (ApplyCommit_from c sc n); [|split; [cbn -[core] in *; lia|left; eexists]]|done|done].
Qed.

Lemma TryFinalizeCommit_safe c h : stable (after c) (TryFinalizeCommit o h).
Proof using ASM.
  apply stable_bind; [apply after_kept; kp|]. intros s. destruct (negb _); [apply after_kept; kp|].
  apply stable_bind; [apply after_kept; kp|]. intros vs. destruct (majority vs) as [b ok].
  destruct (_ || _); [apply after_kept; kp|]. apply stable_bind; [apply after_kept; kp|].
  intros same. apply stable_when, finalizeCommit_safe.
Qed.

Lemma timing_any s c : timing s c → timing RoundStepPrecommit c.
Proof.
  intros Ht v Hv Ev. destruct (Ht v Hv Ev) as [? _]. split; [done|]. intros _.
  unfold step_of. by destruct (_ =? _)%Z.
Qed.

(** The step of a commit keeps the round. *)
Lemma applyStep_at n :
  good n → hoare (at_view (core2 n)) (updateRoundStep (c_round (core n)) RoundStepApplyCommit)
    (λ _, since (core n)) (since (core n)).
Proof.
  intros [(Hb & Ht & Hl) Hp].
  eapply hoare_weaken; [apply (step_since (core2 n) RoundStepPrecommit (c_round (core n))
    RoundStepApplyCommit (core n)); done| |by intros ? ? [? _]|by intros ? [? _]].
  intros n' En. assert (kept n n') as [Ec Hp'] by (by apply same_kept). unfold voted. rewrite Ec.
  refine (conj Hb (conj _ (conj _ (Hp' Hp)))); [by eapply timing_any|done].
Qed.

Lemma base_cround c r : base c → base (mkCore (c_height c) (c_round c) (c_step c) (c_lround c)
  (c_lblock c) (c_lparts c) (c_vals c) (c_state c) (c_votes c) (c_commit c) r (c_signed c) (c_own c)
  (c_store c) (c_timeouts c) (c_cands c)).
Proof. by intros []. Qed.

Lemma CommitRound_safe c r QE :
  hoare (since c) (put (set_CommitRound r)) (λ _ n, since c n ∧ c_cround (core n) = r) QE.
Proof.
  apply hoare_modify. intros n [[(Hb & Ht & Hl) Hp] Hw]. split; [|done].
  refine (conj (conj (conj _ (conj Ht Hl)) Hp) Hw). exact (base_cround (core n) r Hb).
Qed.

Lemma EnterCommit_safe c h r : stable (after c) (EnterCommit o h r).
Proof using ASM.
  apply stable_bind; [apply after_kept; kp|]. intros s. destruct (_ || _); [apply after_kept; kp|].
  apply stable_finally.
  { apply stable_bind; [apply after_kept; kp|]. intros vs. destruct (majority vs) as [b ok].
    destruct (negb ok); apply after_kept; kp. }
  apply hoare_at. intros n Hn. apply at_sd. intros n1 E1. destruct (view_fields _ _ E1) as (_ & -> & _).
  assert (∀ n', since (core n) n' → after c n') as Hs by (intros n'; by apply since_later).
  eapply hoare_bind; [eapply hoare_post; [apply applyStep_at, Hn|done|done]|]. intros u.
  eapply hoare_bind; [eapply hoare_post; [apply CommitRound_safe|intros ? n' [Hs' _]; exact (Hs n' Hs')|done]|].
  intros u'. do 2 (apply stable_bind; [apply after_kept; kp|]; intros ?).
  apply stable_ignore, TryFinalizeCommit_safe.
Qed.

(** A verified commit for the current height. *)
Definition vnow (commit : Commit) (c : Core) : Prop := vcommit (vals_now c) (c_height c) commit.

Lemma vnow_within commit c c' : vnow commit c → within c c' → vnow commit c'.
Proof. intros Hv (Eh & _ & Es). unfold vnow, vals_now. by rewrite Eh, Es. Qed.

Lemma vnow_kept {A} c commit (m : C A) :
  keeps kept m → stable (λ n, after c n ∧ vnow commit (core n)) m.
Proof.
  intros Hm n [Hn Hv]. pose proof (after_kept c m Hm n Hn) as Ha. specialize (Hm n).
  destruct (m n) as [n' [a|e|]]; [| |done]; destruct Hm as [Ec _]; by rewrite Ec.
Qed.

Lemma EnterNewRound_after c h r : stable (after c) (EnterNewRound cfg o h r).
Proof using ASM.
  apply hoare_at. intros n Hn.
  eapply hoare_post; [eapply (lift_at c n); [done|by apply EnterNewRound_safe]|..].
  - intros u n' [Hs _]. by eapply since_later.
  - intros n' [Hs _]. by eapply since_later.
Qed.

Lemma AddCommit_rest c :
  stable (after c) (published ← flag o;
    if negb published then fail ErrPublish
    else h ← sd Height; ignore (EnterNewRound cfg o h 0)).
Proof using ASM.
  apply stable_bind; [apply after_kept; kp|]. intros p. destruct (negb p); [apply after_kept; kp|].
  apply stable_bind; [apply after_kept; kp|]. intros h. apply stable_ignore, EnterNewRound_after.
Qed.

Lemma AddCommit_safe c commit :
  hoare (λ n, after c n ∧ vnow commit (core n)) (AddCommit cfg o commit) (λ _, after c) (after c).
Proof using ASM.
  assert (∀ n, after c n ∧ vnow commit (core n) → after c n) as Hw by tauto.
  eapply hoare_bind; [eapply hoare_post; [apply vnow_kept; kp|done|done]|]. intros u.
  eapply hoare_bind; [eapply hoare_post; [apply vnow_kept; kp|done|done]|]. intros b.
  destruct b; [|by apply hoare_ret].
  apply hoare_at. intros n [Hn Hv]. apply at_sd. intros n1 E1. destruct (view_fields _ _ E1) as (_ & -> & _).
  assert (∀ n', since (core n) n' → after c n') as Hs by (intros n'; by apply since_later).
  eapply hoare_bind; [eapply hoare_post; [apply applyStep_at, Hn|done|done]|]. intros u'.
  eapply hoare_bind; [apply CommitRound_safe|]. intros u2.
  assert (∀ A (m : C A), keeps kept m → hoare
    (λ n', since (core n) n' ∧ c_cround (core n') = Commit_Round commit) m
    (λ _ n', since (core n) n' ∧ c_cround (core n') = Commit_Round commit) (after c)) as Hk.
  { intros A m Hm n' [Hs' Ec]. pose proof (since_kept _ m Hm n' Hs') as Hs2. specialize (Hm n').
    destruct (m n') as [n2 [a|e|]]; [| |done]; destruct Hm as [Ec' _]; [by rewrite Ec'|by apply Hs]. }
  do 2 (eapply hoare_bind; [apply Hk; kp|intros ?]).
  eapply hoare_bind; [eapply hoare_weaken; [apply (ApplyCommit_safe (core n) commit)|..]|].
  - intros n' [Hs' Ec]. split; [done|].
    pose proof (vnow_within _ _ _ Hv (proj2 Hs')) as Hv'. split.
    + destruct Hv' as (_ & _ & ? & _). lia.
    + right. exists commit. by split.
  - intros ? n' Ha. eapply after_trans; [apply Hn|exact Ha].
  - intros n' Ha. eapply after_trans; [apply Hn|exact Ha].
  - intros u3. by apply AddCommit_rest.
Qed.

(** ** Commits of peers *)

Lemma base_commit c commit : base c → vnow commit c → base (mkCore (c_height c) (c_round c)
  (c_step c) (c_lround c) (c_lblock c) (c_lparts c) (c_vals c) (c_state c) (c_votes c) (Some commit)
  (c_cround c) (c_signed c) (c_own c) (c_store c) (c_timeouts c) (c_cands c)).
Proof. intros [] Hv. constructor; try done. cbn. by intros x [= <-]. Qed.

Lemma base_uncommit c : base c → base (mkCore (c_height c) (c_round c)
  (c_step c) (c_lround c) (c_lblock c) (c_lparts c) (c_vals c) (c_state c) (c_votes c) None
  (c_cround c) (c_signed c) (c_own c) (c_store c) (c_timeouts c) (c_cands c)).
Proof. by intros []. Qed.

(** Keeping a verified commit, and forgetting it. *)
Lemma setCommit_vnow c commit QE :
  hoare (λ n, after c n ∧ vnow commit (core n)) (put (set_Commit (Some commit)))
    (λ _ n, after c n ∧ vnow commit (core n)) QE.
Proof.
  apply hoare_modify. intros n [[[(Hb & Ht & Hl) Hp] Hw] Hv]. split; [|done].
  refine (conj (conj (conj _ (conj Ht Hl)) Hp) Hw). exact (base_commit (core n) commit Hb Hv).
Qed.

Lemma unsetCommit_vnow c (φ : Core → Prop) :
  (∀ n, φ (core n) → φ (core (set_sd (set_Commit None (n_sd n)) n))) →
  stable (λ n, after c n ∧ φ (core n)) (put (set_Commit None)).
Proof.
  intros Hφ. apply stable_modify. intros n [[[(Hb & Ht & Hl) Hp] Hw] Hv]. split; [|auto].
  refine (conj (conj (conj _ (conj Ht Hl)) Hp) Hw). exact (base_uncommit (core n) Hb).
Qed.

Lemma verifyCommitSignatures_at (x : view) commit b :
  base x.1.1 → hoare (at_view x) (verifyCommitSignatures (Commit_BlockID commit) commit b)
    (λ _ n, verifyCommit (vals_now x.1.1) cid (Commit_BlockID commit) (c_height x.1.1) commit b = Ok tt ∧
       at_view x n) (at_view x).
Proof.
  intros Hb n En. unfold verifyCommitSignatures, deref_sd, mbind, M_bind, sd, gets, lift, lift_err.
  assert (SD_Validators (n_sd n) = Some (vals_now x.1.1)) as ->
    by (rewrite <- (b_vals _ Hb), <- En; done).
  assert (ChainID (SD_state (n_sd n)) = cid) as -> by (rewrite <- (b_chain _ Hb), <- En; done).
  destruct (view_fields _ _ En) as (-> & _). cbn.
  by destruct (verifyCommit _ _ _ _ _ _) as [[]|e|].
Qed.

Lemma ValidateBasic_round commit : Commit_ValidateBasic commit = Ok tt → (0 ≤ Commit_Round commit)%Z.
Proof.
  unfold Commit_ValidateBasic. destruct (_ <? 0)%Z; [done|].
  destruct (Commit_Round commit <? 0)%Z eqn:E; [done|]. by bools.
Qed.

(** Code that ends in a state with the verified commit. *)
Lemma adoptCommit_vnow c commit :
  hoare (λ n, after c n ∧ vnow commit (core n)) (adoptCommit commit)
    (λ _ n, after c n ∧ vnow commit (core n)) (after c).
Proof.
  eapply hoare_bind; [eapply hoare_post; [apply vnow_kept; kp|done|by intros ? [? _]]|]. intros u.
  apply setCommit_vnow.
Qed.

Lemma readyToApplyCommit_safe c commit ignore b :
  DC commit →
  hoare (after c) (readyToApplyCommit commit ignore b)
    (λ ok n, after c n ∧ (ok = true → vnow commit (core n))) (after c).
Proof.
  intros HD. apply hoare_at. intros n Hn. pose proof Hn as [[[Hb _] _] _].
  assert (∀ n', at_view (core2 n) n' → after c n') as Hv by (by intros; eapply after_view).
  eapply (hoare_bind _ _ _ (λ _ n', (0 ≤ Commit_Round commit)%Z ∧ at_view (core2 n) n')).
  { apply hoare_lift_err; [|done]. intros n' [] En Hok. split; [|done]. by apply ValidateBasic_round. }
  intros u. apply hoare_fact. intros Hr. apply at_sd. intros n1 E1.
  destruct (view_fields _ _ E1) as (-> & _). cbn -[core].
  destruct (_ =? _)%Z; [apply hoare_ret; intros n' En; split; [by apply Hv|done]|].
  destruct (Commit_Height commit =? c_height (core n))%Z eqn:Eh; cbn [negb];
    [|apply hoare_ret; intros n' En; split; [by apply Hv|done]]. bools.
  eapply hoare_bind; [eapply hoare_post; [apply verifyCommitSignatures_at; apply Hb|done|done]|].
  intros u'. apply hoare_fact. intros Hver. cbn -[core] in Hver.
  assert (vnow commit (core n)) as Hvn by (split_and!; eauto).
  assert (∀ n', at_view (core2 n) n' → after c n' ∧ vnow commit (core n')) as Hvv.
  { intros n' En. split; [auto|]. by rewrite (f_equal (λ y, y.1.1) En : core n' = core n). }
  apply at_bind; [kp| |done]. intros conflict. destruct conflict; [by apply hoare_fail|].
  destruct ignore.
  - eapply hoare_bind; [eapply hoare_pre; [apply adoptCommit_vnow|exact Hvv]|]. intros ?.
    apply hoare_ret. intros n' [? ?]. by split.
  - apply at_bind; [kp| |done]. intros [|]; [apply hoare_ret; intros n' En; split; [by apply Hv|intros _; by apply Hvv]|].
    eapply hoare_bind; [eapply hoare_pre; [apply adoptCommit_vnow|exact Hvv]|]. intros ?.
    apply hoare_ret. intros n' [? ?]. by split.
Qed.

Lemma prepareCommitForApply_safe c commit ignore b :
  DC commit →
  hoare (after c) (prepareCommitForApply commit ignore b)
    (λ ok n, after c n ∧ (ok = true → vnow commit (core n))) (after c).
Proof.
  intros HD. eapply hoare_bind; [by apply readyToApplyCommit_safe|]. intros [|]; cbn [negb].
  - eapply hoare_pre; [|intros n [Hn Hv]; exact (conj Hn (Hv eq_refl))].
    destruct ignore; [apply hoare_ret; intros n [? ?]; by split|].
    eapply hoare_bind; [eapply hoare_post; [apply vnow_kept; kp|done|by intros ? [? _]]|]. intros [|]; cbn [negb].
    + eapply hoare_bind; [eapply hoare_post; [apply vnow_kept; kp|done|by intros ? [? _]]|]. intros u.
      apply hoare_ret. intros n [? ?]. by split.
    + by apply hoare_ret; intros n [? _].
  - by apply hoare_ret; intros n [? _].
Qed.

Lemma reporting_safe {A} c peerID fromReplay (m : C A) P Q :
  hoare P m Q (after c) → hoare P (reporting o peerID fromReplay m) Q (after c).
Proof.
  intros Hm. eapply (hoare_bind _ _ _ (λ r n, match r with inl a => Q a n | inr _ => after c n end)).
  { apply hoare_try. by eapply hoare_post. }
  intros [a|e]; [by apply hoare_ret|].
  eapply hoare_bind; [apply (after_kept c); kp|]. intros u. by apply hoare_fail.
Qed.

Lemma replace_candidate_elem l d x : x ∈ replace_candidate l d → x = d ∨ x ∈ l.
Proof.
  induction l as [|e l IH]; cbn; [rewrite list_elem_of_singleton; auto|].
  destruct (bool_decide _); rewrite !elem_of_cons; tauto.
Qed.

Lemma candidates_add_elem conn cs h commit p fr x :
  x ∈ cc_candidates (candidates_add conn cs h commit p fr) →
  cand_commit x = commit ∨ (cc_height cs = h ∧ x ∈ cc_candidates cs).
Proof.
  unfold candidates_add. cbn. intros [->|Hx]%replace_candidate_elem; [by left|right].
  apply list_elem_of_filter in Hx as [_ Hx]. unfold resetUnless in Hx.
  destruct (_ =? h)%Z eqn:E; [|by apply elem_of_nil in Hx]. by bools.
Qed.

Lemma base_cands c cs :
  base c → (cc_height cs ≤ c_height c)%Z →
  (cc_height cs = c_height c → ∀ x, x ∈ cc_candidates cs → vnow (cand_commit x) c) →
  base (mkCore (c_height c) (c_round c) (c_step c) (c_lround c) (c_lblock c) (c_lparts c) (c_vals c)
    (c_state c) (c_votes c) (c_commit c) (c_cround c) (c_signed c) (c_own c) (c_store c)
    (c_timeouts c) cs).
Proof. intros []. by constructor. Qed.

Lemma add_height conn cs h commit p fr : cc_height (candidates_add conn cs h commit p fr) = h.
Proof. unfold candidates_add, resetUnless. cbn. destruct (_ =? h)%Z eqn:E; [by bools|done]. Qed.

Lemma queueCandidate_from c commit p fr b n :
  DC commit → after c n → Commit_Height commit = c_height (core n) →
  hoare (at_view (core2 n)) (queueCandidate o commit p fr b) (λ _, after c) (after c).
Proof.
  intros HD Hn Hh. pose proof Hn as [[[Hb _] _] _].
  assert (∀ n', at_view (core2 n) n' → after c n') as Hv by (by intros; eapply after_view).
  eapply (hoare_bind _ _ _ (λ _ n', (0 ≤ Commit_Round commit)%Z ∧ at_view (core2 n) n')).
  { apply hoare_lift_err; [|done]. intros n' [] En Hok. split; [|done]. by apply ValidateBasic_round. }
  intros u. apply hoare_fact. intros Hr. cbv zeta. apply at_bind; [kp| |done]. intros parked.
  apply at_sd. intros n1 E1. destruct (view_fields _ _ E1) as (-> & _).
  apply at_bind; [kp| |done]. intros cands. destruct (_ || _); [by apply hoare_ret|].
  eapply hoare_bind; [eapply hoare_post; [apply verifyCommitSignatures_at; apply Hb|done|done]|].
  intros u'. apply hoare_fact. intros Hver. apply at_bind; [kp| |done]. intros k.
  assert (vnow commit (core n)) as Hvn by (split_and!; eauto).
  apply hoare_modify. intros n' En. apply Hv in En as Hn'.
  assert (core n' = core n) as Ec by exact (f_equal (λ y, y.1.1) En).
  destruct Hn' as [[(Hb' & Ht & Hl) Hp] Hw].
  refine (conj (conj (conj _ (conj Ht Hl)) Hp) Hw). apply (base_cands (core n')
    (candidates_add (o_connected o k) (n_candidates n') (c_height (core n)) commit p fr)); [done|..].
  - rewrite add_height, Ec. done.
  - intros _ x Hx. apply candidates_add_elem in Hx as [->|[Ex Hx]]; [by rewrite Ec|].
    cbn -[core] in Ex. rewrite <- Ec in Ex. by apply (b_cands _ Hb').
Qed.

Lemma unsetCommit_after c : stable (after c) (put (set_Commit None)).
Proof.
  eapply hoare_weaken; [by apply (unsetCommit_vnow c (λ _, True))|..]; [done|by intros ? ? [? _]|by intros ? [? _]].
Qed.

Lemma EnterNewRound_vnow c commit h r :
  hoare (λ n, after c n ∧ vnow commit (core n)) (EnterNewRound cfg o h r)
    (λ _ n, after c n ∧ vnow commit (core n)) (after c).
Proof using ASM.
  apply hoare_at. intros n [Hn Hv].
  eapply hoare_post; [eapply (lift_at c n); [done|by apply EnterNewRound_safe]|..].
  - intros u n' [Hs _]. split; [by eapply since_later|]. eapply vnow_within; [done|apply Hs].
  - intros n' [Hs _]. by eapply since_later.
Qed.

Lemma jumpToCommit_safe c commit p fr :
  hoare (λ n, after c n ∧ vnow commit (core n)) (jumpToCommit cfg o commit p fr) (λ _, after c) (after c).
Proof using ASM.
  eapply hoare_bind; [eapply hoare_post; [apply vnow_kept; kp|done|by intros ? [? _]]|]. intros held.
  eapply (hoare_bind _ _ _ (λ _ n, after c n ∧ vnow commit (core n))).
  { apply hoare_when; [|by intros n Hn _]. eapply hoare_pre; [|by intros n [Hn _]; exact Hn].
    eapply hoare_bind; [eapply hoare_post; [apply vnow_kept; kp|done|by intros ? [? _]]|].
    intros [u|e]; [by apply hoare_ret|]. eapply hoare_pre; [|by intros n [Hn _]; exact Hn].
    eapply hoare_bind; [apply unsetCommit_after|]. intros u.
    eapply hoare_bind; [apply (after_kept c); kp|]. intros u'. by apply hoare_fail. }
  intros u. eapply hoare_bind; [eapply hoare_post; [apply vnow_kept; kp|done|by intros ? [? _]]|]. intros h.
  eapply hoare_bind; [apply EnterNewRound_vnow|]. intros u'.
  eapply hoare_bind; [eapply hoare_post; [apply vnow_kept; kp|done|by intros ? [? _]]|]. intros still.
  apply hoare_when; [|by intros n [Hn _] _].
  eapply hoare_pre; [apply AddCommit_safe|by intros n [Hn _]].
Qed.

Lemma TryAddCommit_safe c commit p fr b :
  DC commit → stable (after c) (TryAddCommit cfg o commit p fr b).
Proof using ASM.
  intros HD. apply hoare_at. intros n Hn. apply at_sd. intros n1 E1. unfold id.
  destruct (view_fields _ _ E1) as (-> & -> & _). cbn -[core].
  assert (∀ n', at_view (core2 n) n' → after c n') as Hv by (by intros; eapply after_view).
  destruct (bool_decide _).
  { destruct (_ =? _)%Z eqn:Eh; [|by apply hoare_ret]. bools.
    by apply reporting_safe, queueCandidate_from. }
  eapply (hoare_bind _ _ _ (λ ok n', after c n' ∧ (ok = true → vnow commit (core n')))).
  { destruct (_ && _).
    - eapply hoare_pre; [by apply reporting_safe, prepareCommitForApply_safe|exact Hv].
    - apply hoare_ret. intros n' En. split; [by apply Hv|done]. }
  intros [|].
  { eapply hoare_pre; [apply jumpToCommit_safe|]. intros n' [Ha Hvn]. split; auto. }
  eapply hoare_pre; [|by intros n' [Ha _]; exact Ha].
  eapply hoare_bind; [by apply reporting_safe, prepareCommitForApply_safe|]. intros [|].
  - eapply hoare_pre; [|intros n' [Ha Hvn]; exact (conj Ha (Hvn eq_refl))].
    eapply hoare_bind; [eapply hoare_post; [apply vnow_kept; kp|done|by intros ? [? _]]|]. intros held.
    apply hoare_when; [|by intros n' [Ha _] _]. eapply hoare_pre; [|by intros n' [Ha _]; exact Ha].
    eapply hoare_bind; [apply setCommit_vnow|]. intros u. apply AddCommit_safe.
  - intros n' [Ha _]. exact Ha.
Qed.

(** ** Block parts *)

Lemma EnterPrevote_after c h r : reached h r c → stable (after c) (EnterPrevote cfg o h r).
Proof using ASM. apply (reached_after c h r). intros c' Hr. by apply EnterPrevote_safe. Qed.

Lemma EnterPrecommit_after c h r : reached h r c → stable (after c) (EnterPrecommit cfg o h r).
Proof using ASM. apply (reached_after c h r). intros c' Hr. by apply EnterPrecommit_safe. Qed.

(** Actions for the round the node is in. *)
Lemma at_round c h (m : Z → C unit) :
  (∀ c' r, reached h r c' → stable (since c') (m r)) → (h ≤ c_height c)%Z →
  stable (after c) (r ← sd Round; m r).
Proof.
  intros Hm Hh. apply hoare_at. intros n Hn. apply at_sd. intros n1 E1.
  destruct (view_fields _ _ E1) as (_ & -> & _).
  eapply hoare_post; [eapply (lift_at c n); [done|apply Hm]|..].
  - destruct Hn as [_ Hl]. unfold reached, later, within in *. cbn -[core]. lia.
  - intros u n'. by apply since_later.
  - intros n'. by apply since_later.
Qed.

Lemma ProposalCompleted_safe c h :
  (h ≤ c_height c)%Z → stable (after c) (ProposalCompleted cfg o h).
Proof using ASM.
  intros Hh. apply hoare_at. intros n Hn. apply at_sd. intros n1 E1. unfold id.
  assert (∀ n', at_view (core2 n) n' → after c n') as Hv by (by intros; eapply after_view).
  destruct (view_fields _ _ E1) as (_ & E2 & _). cbn -[core] in E2. rewrite E2.
  assert (reached h (c_round (core n)) (core n)) as Hre.
  { destruct Hn as [_ Hl]. unfold reached, later, within in *. lia. }
  eapply hoare_weaken; [apply (hoare_pre _ _ (after (core n))) | | |].
  2: { intros n' En. exact En. }
  - apply stable_bind; [apply after_kept; kp|]. intros vs. destruct (majority vs) as [b ok].
    apply stable_bind; [apply after_kept; kp|]. intros u.
    apply stable_bind; [apply after_kept; kp|]. intros [|].
    + apply stable_bind; [by apply EnterPrevote_after|]. intros u'. apply stable_when.
      apply (at_round _ h); [by intros c' r Hr; apply EnterPrecommit_safe|].
      destruct Hn as [_ Hl]. unfold later, within in *. lia.
    + apply stable_when, TryFinalizeCommit_safe.
  - intros n' En. eapply after_view; [|done]. split; [apply Hn|done].
  - intros u n'. apply after_trans, Hn.
  - intros n'. apply after_trans, Hn.
Qed.

Lemma insert_ranked_elem rank c l x : x ∈ insert_ranked rank c l → x = c ∨ x ∈ l.
Proof.
  induction l as [|d l IH]; cbn; [rewrite list_elem_of_singleton; auto|].
  destruct (_ <=? _)%Z; rewrite !elem_of_cons; tauto.
Qed.

Lemma sort_ranked_elem rank l x : x ∈ sort_ranked rank l → x ∈ l.
Proof.
  induction l as [|d l IH]; cbn; [done|]. intros [->|Hx]%insert_ranked_elem; rewrite elem_of_cons; auto.
Qed.

Lemma first_verified_elem (P : Node → Prop) l :
  (∀ c, stable P (verifyHeldCommit c)) →
  hoare P (first_verified l) (λ r n, P n ∧ ∀ c, r = Some c → c ∈ l) P.
Proof.
  intros Hv. induction l as [|d l IH]; cbn [first_verified].
  - apply hoare_ret. by intros n Hn.
  - eapply hoare_bind; [apply stable_try, Hv|]. intros [u|e].
    + apply hoare_ret. intros n Hn. split; [done|]. intros c [= <-]. apply elem_of_cons. by left.
    + eapply hoare_post; [exact IH| |done]. intros r n [Hn Hr]. split; [done|].
      intros c Hc. apply elem_of_cons. right. auto.
Qed.

(** The commits a node keeps for the current height are verified. *)
Definition all_vnow (l : list Commit) (c : Core) : Prop := ∀ x, x ∈ l → vnow x c.

Lemma after_core c (φ : Core → Prop) {A} (m : C A) :
  keeps kept m → stable (λ n, after c n ∧ φ (core n)) m.
Proof.
  intros Hm n [Hn Hv]. pose proof (after_kept c m Hm n Hn) as Ha. specialize (Hm n).
  destruct (m n) as [n' [a|e|]]; [| |done]; destruct Hm as [Ec _]; by rewrite Ec.
Qed.

Lemma parked_vnow n commit cs :
  good n → SD_Commit (n_sd n) = Some commit → cs = n_candidates n →
  all_vnow (commit :: map cand_commit (candidates_take cs (Height (n_sd n))).2) (core n).
Proof.
  intros [[Hb _] _] Ec -> x Hx. apply elem_of_cons in Hx as [->|Hx]; [by apply (b_commit _ Hb)|].
  cbn in Hx. apply (list_elem_of_fmap cand_commit) in Hx as (d & -> & Hd). unfold resetUnless in Hd.
  destruct (_ =? _)%Z eqn:E; [|by apply elem_of_nil in Hd]. bools.
  by apply (b_cands _ Hb).
Qed.

Lemma take_candidates_safe c (φ : Core → Prop) h cs :
  (∀ n, φ (core n) → φ (core (set_candidates (candidates_take cs h).1 n))) →
  hoare (λ n, (after c n ∧ φ (core n)) ∧ (h ≤ c_height (core n))%Z)
    (modify (set_candidates (candidates_take cs h).1) : C unit) (λ _ n, after c n ∧ φ (core n)) (after c).
Proof.
  intros Hφ. apply hoare_modify. intros n [[[[(Hb & Ht & Hl) Hp] Hw] Hf] Hh]. split; [|auto].
  refine (conj (conj (conj _ (conj Ht Hl)) Hp) Hw).
  apply (base_cands (core n) (candidates_take cs h).1); [done|..]; cbn -[core].
  - unfold resetUnless. destruct (_ =? h)%Z eqn:E; cbn -[core]; bools; lia.
  - intros _ x Hx. by apply elem_of_nil in Hx.
Qed.

Lemma selectParkedCommit_safe c :
  hoare (after c) selectParkedCommit
    (λ r n, after c n ∧ ∀ x, r = Some x → vnow x (core n)) (after c).
Proof.
  apply hoare_start. intros n Hn.
  eapply (hoare_bind _ _ _ (λ p n', SD_Commit (n_sd n) = Some p ∧ n' = n)).
  { intros n' ->. unfold deref_sd, mbind, M_bind, sd, gets, lift. cbn.
    by destruct (SD_Commit (n_sd n)). }
  intros parked. apply hoare_fact. intros Hpk.
  pose proof (parked_vnow n parked _ (proj1 Hn) Hpk eq_refl) as Hall.
  set (l := parked :: map cand_commit (candidates_take (n_candidates n) (Height (n_sd n))).2) in Hall.
  eapply (hoare_bind _ _ _ (λ _ n', n' = set_sd (set_Commit None (n_sd n)) n)).
  { apply hoare_modify. by intros n' ->. }
  intros u. eapply (hoare_bind _ _ _ (λ h n', h = Height (n_sd n) ∧ n' = set_sd (set_Commit None (n_sd n)) n)).
  { apply hoare_gets. by intros n' ->. }
  intros h. apply hoare_fact. intros ->.
  eapply (hoare_bind _ _ _ (λ cs n', cs = n_candidates n ∧ n' = set_sd (set_Commit None (n_sd n)) n)).
  { apply hoare_gets. by intros n' ->. }
  intros cs. apply hoare_fact. intros ->.
  destruct (candidates_take (n_candidates n) (Height (n_sd n))) as [rest queued] eqn:Et.
  assert (rest = (candidates_take (n_candidates n) (Height (n_sd n))).1) as -> by (by rewrite Et).
  eapply hoare_bind; [eapply hoare_pre; [apply (take_candidates_safe c (all_vnow l)); done|]|].
  { intros n' ->. split; [split|done]; [|done]. pose proof (unsetCommit_after c n Hn) as Hu. exact Hu. }
  intros u'. subst l. rewrite Et. cbn [snd].
  do 2 (eapply hoare_bind; [eapply hoare_post; [apply after_core; kp|done|by intros ? [? _]]|]; intros ?).
  eapply hoare_bind; [eapply hoare_post; [apply first_verified_elem; intros x; apply after_core; kp|done|
    by intros ? [? _]]|].
  intros [x|].
  - apply (hoare_pre _ _ (λ n', after c n' ∧ vnow x (core n'))).
    + eapply hoare_bind; [apply setCommit_vnow|]. intros u2. apply hoare_ret. intros n' [? ?].
      split; [done|]. by intros y [= <-].
    + intros n' [[Ha Hl] Hx]. split; [done|]. apply Hl, (sort_ranked_elem _ _ _ (Hx x eq_refl)).
  - eapply hoare_bind; [eapply hoare_pre; [apply (after_kept c); kp|by intros n' [[? _] _]]|].
    intros u2. apply hoare_ret. intros n' Ha. by split.
Qed.

Lemma completeBlock_safe c ps :
  hoare (λ n, after c n ∧ is_Some (ProposalBlockParts (n_sd n))) (completeBlock cfg o ps)
    (λ _, after c) (after c).
Proof using ASM.
  apply hoare_at. intros n [Hn Hps].
  assert (∀ n', at_view (core2 n) n' → after c n') as Hv by (by intros; eapply after_view).
  apply at_bind; [kp| |done]. intros b. apply at_bind; [kp| |done]. intros u.
  eapply (hoare_bind _ _ _ (λ _, after c)).
  { apply hoare_modify. intros n' En. pose proof (Hv n' En) as [[Hi Hp] Hl].
    refine (conj (conj Hi (conj _ (proj2 Hp))) Hl). intros _. cbn.
    by rewrite (f_equal snd En : ProposalBlockParts (n_sd n') = _). }
  intros u'. do 2 (apply stable_bind; [apply after_kept; kp|]; intros ?).
  destruct a0; [|apply after_kept; kp].
  eapply hoare_bind; [apply selectParkedCommit_safe|]. intros [x|].
  - eapply hoare_pre; [apply AddCommit_safe|]. intros n' [Ha Hx]. auto.
  - apply hoare_ret. by intros n' [Ha _].
Qed.

Lemma AddPart_some ps part r added : AddPart sha256 (Some ps) part = Ok (r, added) → is_Some r.
Proof.
  cbn. destruct (_ >=? _)%Z; [done|]. destruct (negb _); [done|]. intros Ha.
  apply bind_Ok in Ha as ([p|] & _ & Ha); [by injection Ha as <- _|].
  destruct (merkle.Verify _ _ _ _); [|done|done].
  apply bind_Ok in Ha as (parts' & _ & Ha). apply bind_Ok in Ha as ([ba u] & _ & Ha).
  injection Ha as <- _. eauto.
Qed.

Lemma addProposalBlockPart_from c h part n :
  after c n →
  hoare (at_view (core2 n)) (addProposalBlockPart cfg o h part)
    (λ added n', after c n' ∧ (added = true → c_height (core n) = h)) (after c).
Proof using ASM.
  intros Hn. assert (∀ n', at_view (core2 n) n' → after c n') as Hv by (by intros; eapply after_view).
  assert (hoare (at_view (core2 n)) (mret false : C bool)
    (λ added n', after c n' ∧ (added = true → c_height (core n) = h)) (after c)) as Hf.
  { apply hoare_ret. intros n' En. split; [auto|done]. }
  apply at_sd. intros n1 E1. unfold id. destruct (view_fields _ _ E1) as (-> & _ & _ & _ & _ & ->).
  cbn -[core]. destruct (_ =? h)%Z eqn:Eh; cbn [negb]; [|exact Hf]. bools.
  destruct (ProposalBlockParts (n_sd n)) as [ps|] eqn:Eps; [|exact Hf].
  apply at_bind; [kp| |done]. intros [|]; cbn [negb]; [|exact Hf].
  eapply (hoare_bind _ _ _ (λ r n', is_Some r.1 ∧ at_view (core2 n) n')).
  { apply hoare_lift_err; [|done]. intros n' [r a] En Hr. split; [|done]. by eapply AddPart_some. }
  intros [parts' added]. apply hoare_fact. intros [ps' [= ->]].
  eapply (hoare_bind _ _ _ (λ _ n', after c n' ∧ is_Some (ProposalBlockParts (n_sd n')))).
  { apply hoare_modify. intros n' En. split; [|done]. pose proof (Hv n' En) as [[Hi Hp] Hl].
    refine (conj (conj Hi (conj _ (proj2 Hp))) Hl). done. }
  intros u. eapply (hoare_bind _ _ _ (λ _ n', after c n' ∧ is_Some (ProposalBlockParts (n_sd n')))).
  { by apply hoare_lift; [|intros n' [? _]]. }
  intros ps2. destruct (_ <? _)%Z; [by apply hoare_fail; intros n' [? _]|].
  eapply (hoare_bind _ _ _ (λ _, after c)); [|intros u'; apply hoare_ret; auto].
  apply hoare_when; [|by intros n' [? _] _].
  eapply hoare_pre; [apply completeBlock_safe|by intros n' [? _]].
Qed.

Lemma AddProposalBlockPart_safe c h part : stable (after c) (AddProposalBlockPart cfg o h part).
Proof using ASM.
  apply hoare_at. intros n Hn. apply at_sd. intros n1 E1.
  assert (after (core n) n) as Hn' by (split; [apply Hn|done]).
  eapply hoare_weaken; [|intros n' En; exact En|intros u n'; apply after_trans, Hn|
    intros n'; apply after_trans, Hn].
  eapply hoare_bind; [by apply addProposalBlockPart_from|]. intros [|].
  - cbn [andb]. eapply hoare_start. intros n2 [Ha Hh]. specialize (Hh eq_refl).
    eapply (hoare_pre _ _ (after (core n))); [|by intros ? ->].
    apply stable_bind; [apply after_kept; kp|]. intros s'. apply stable_when.
    apply stable_bind; [apply after_kept; kp|]. intros ps. apply stable_when.
    apply ProposalCompleted_safe. lia.
  - intros n2 [Ha _]. exact Ha.
Qed.

(** ** Votes *)

Definition known_now (v : Vote) (c : Core) : Prop := known (c_signed c) v.

Lemma votes_from {A} c n (k : HeightVoteSet → C A) :
  after c n →
  (∀ hvs, votes_ok (core n) hvs → hoare (at_view (core2 n)) (k hvs) (λ _, after c) (after c)) →
  hoare (at_view (core2 n)) (deref_sd Votes ≫= k) (λ _, after c) (after c).
Proof.
  intros [[[Hb _] _] _] Hk n' En. destruct (b_votes _ Hb) as (hvs & Ev & Hs).
  unfold deref_sd, mbind, M_bind, sd, gets, lift. unfold at_view in En.
  assert (Votes (n_sd n') = Some hvs) as ->
    by (rewrite <- Ev, <- (f_equal (λ y, y.1.1) En : core n' = core n); done).
  exact (Hk hvs Hs n' En).
Qed.

Lemma put_votes_from c n hvs :
  after c n → votes_ok (core n) hvs →
  hoare (at_view (core2 n)) (put (set_Votes (Some hvs))) (λ _, after c) (after c).
Proof.
  intros Hn Hv. eapply hoare_post; [apply (put_votes (core n) n); [split; [apply Hn|done]|done]|..].
  - intros u n'. by apply since_later.
  - intros n'. by apply since_later.
Qed.

Lemma addToVoteSet_safe c r b verified :
  wf_vote (ref_vote r) → minted verified →
  hoare (λ n, after c n ∧ known_now (ref_vote r) (core n)) (addToVoteSet r b verified)
    (λ _, after c) (after c).
Proof using ASM.
  intros Hwf Hm. apply hoare_at. intros n [Hn Hk]. apply votes_from; [done|]. intros hvs Hv.
  eapply (hoare_bind _ _ _ (λ x n', votes_ok (core n) x.1.1 ∧ at_view (core2 n) n')).
  { apply hoare_lift_err.
    - intros n' [[hvs' added] err] En Ha. split; [|done].
      eapply hvs_addVote_sound; eauto using vals_at_ok, asm_sha, asm_bytes.
    - intros n'. by apply after_view. }
  intros [[hvs' added] err]. apply hoare_fact. intros Hv'.
  eapply hoare_bind; [by apply put_votes_from|]. intros u. destruct err; [by apply hoare_fail|by apply hoare_ret].
Qed.

(** Actions at the height and round that the node has seen. *)
Lemma reached_keep {A} c h r (m : C A) :
  (∀ c', reached h r c' → stable (after c') m) →
  stable (λ n, after c n ∧ reached h r (core n)) m.
Proof.
  intros Hm. apply hoare_start. intros n [Hn Hr].
  eapply hoare_weaken; [apply (Hm (core n) Hr)|intros n' ->; split; [apply Hn|done]|..].
  - intros a n' Ha. split; [by eapply after_trans; [apply Hn|]|]. eapply reached_later; [done|apply Ha].
  - intros n' Ha. split; [by eapply after_trans; [apply Hn|]|]. eapply reached_later; [done|apply Ha].
Qed.

Lemma EnterNewRound_reached c h r n :
  after c n → h = c_height (core n) →
  hoare (at_view (core2 n)) (ignore (EnterNewRound cfg o h r))
    (λ _ n', after c n' ∧ reached h r (core n')) (after c).
Proof using ASM.
  intros Hn ->. apply hoare_ignore. eapply hoare_post; [by apply (lift_at c n), EnterNewRound_safe|..].
  - intros u n' [Hs Hr]. split; [by eapply since_later|]. by apply Hr.
  - intros n' [Hs Hr]. split; [by eapply since_later|]. by apply Hr.
Qed.

Lemma dispatchPrecommitMw_safe c v added : stable (after c) (dispatchPrecommitMw cfg o v added).
Proof using ASM.
  apply stable_when, hoare_at. intros n Hn.
  assert (∀ n', at_view (core2 n) n' → after c n') as Hv by (by intros; eapply after_view).
  apply at_bind; [kp| |done]. intros vs. apply at_sd. intros n1 E1. unfold id. cbv zeta.
  destruct (view_fields _ _ E1) as (-> & -> & _). destruct (majority vs) as [b ok].
  assert (∀ c', reached (c_height (core n)) (Vote_Round v) c' →
    stable (after c') (ignore (EnterPrecommitWait cfg (c_height (core n)) (Vote_Round v)))) as Hw.
  { intros c' Hr. apply stable_ignore. eapply reached_after; [|exact Hr].
    intros c''. apply EnterPrecommitWait_safe. }
  destruct ok; cbn [negb].
  - eapply hoare_bind; [by apply EnterNewRound_reached|]. intros u.
    eapply (hoare_post _ _ _ (λ _ n', after c n' ∧
      reached (c_height (core n)) (Vote_Round v) (core n')) _ (after c)); [|by intros ? ? [? _]|done].
    eapply hoare_bind; [eapply hoare_post; [apply reached_keep|done|by intros ? [? _]]|].
    { intros c' Hr. by apply stable_ignore, EnterPrecommit_after. }
    intros u'. destruct (IsNil b).
    { eapply hoare_post; [by apply reached_keep|done|by intros ? [? _]]. }
    eapply hoare_post; [apply (reached_keep c (c_height (core n)) (Vote_Round v))|done|by intros ? [? _]].
    intros c' _. apply stable_bind; [apply stable_ignore, EnterCommit_safe|]. intros u2.
    apply stable_when, stable_bind; [apply after_kept; kp|]. intros h.
    apply stable_ignore, EnterNewRound_after.
  - apply at_bind; [kp| |done]. intros any. apply hoare_when; [|by intros n' En _; apply Hv].
    eapply hoare_pre; [|by intros n' [En _]; exact En].
    eapply hoare_bind; [by apply EnterNewRound_reached|]. intros u.
    eapply hoare_post; [by apply reached_keep|by intros ? ? [? _]|by intros ? [? _]].
Qed.

Lemma here_after {A} c n (m : C A) :
  after c n →
  (∀ c', reached (c_height (core n)) (c_round (core n)) c' → stable (after c') m) →
  hoare (at_view (core2 n)) m (λ _, after c) (after c).
Proof.
  intros Hn Hm. eapply hoare_weaken; [apply (Hm (core n)); by right|..].
  - intros n' En. eapply after_view; [|exact En]. split; [apply Hn|done].
  - intros a n'. apply after_trans, Hn.
  - intros n'. apply after_trans, Hn.
Qed.

Lemma dispatchPrevoteMw_safe c v added : stable (after c) (dispatchPrevoteMw cfg o v added).
Proof using ASM.
  apply stable_when, hoare_at. intros n Hn.
  assert (∀ n', at_view (core2 n) n' → after c n') as Hv by (by intros; eapply after_view).
  apply at_bind; [kp| |done]. intros vs. apply at_sd. intros n1 E1. unfold id. cbv zeta.
  destruct (view_fields _ _ E1) as (-> & -> & -> & _). cbn -[core].
  apply here_after; [done|]. intros c' Hr.
  apply stable_bind; [apply after_kept; kp|]. intros [|]; [apply stable_ignore, EnterNewRound_after|].
  destruct (_ && _) eqn:Er.
  - bools. match goal with E : c_round (core n) = Vote_Round v |- _ => rewrite <- E end.
    destruct (majority vs) as [b ok].
    apply stable_bind; [apply after_kept; kp|]. intros complete. destruct (ok && _).
    + by apply stable_ignore, EnterPrecommit_after.
    + apply stable_bind; [apply after_kept; kp|]. intros any. apply stable_when, stable_ignore.
      eapply reached_after; [|exact Hr]. intros c''. apply EnterPrevoteWait_safe.
  - clear Er. destruct (SD_Proposal _) as [p|]; [|apply after_kept; kp]. destruct (_ && _); [|apply after_kept; kp].
    apply stable_bind; [apply after_kept; kp|]. intros complete. by apply stable_when, stable_ignore, EnterPrevote_after.
Qed.

Lemma errorMw_safe c v P (next : C unit) :
  hoare P next (λ _, after c) (after c) → hoare P (errorMw cfg v next) (λ _, after c) (after c).
Proof.
  intros Hn. eapply (hoare_bind _ _ _ (λ _, after c)).
  { apply hoare_try. by eapply hoare_post. }
  intros [u|e]; [by apply hoare_ret|].
  repeat case_match; try (by apply hoare_fail). apply (after_kept c). kp.
Qed.

Lemma validateVoteMw_safe c v (φ : Core → Prop) (next : C unit) :
  hoare (λ n, after c n ∧ φ (core n)) next (λ _, after c) (after c) →
  hoare (λ n, after c n ∧ φ (core n)) (validateVoteMw v next) (λ _, after c) (after c).
Proof.
  intros Hn. assert (∀ n, after c n ∧ φ (core n) → after c n) as Hw by (by intros n [? _]).
  eapply hoare_bind; [eapply hoare_post; [apply after_core; kp|done|done]|]. intros h.
  destruct (negb _); [by apply hoare_ret|].
  eapply hoare_bind; [eapply hoare_post; [apply after_core; kp|done|done]|]. intros vals.
  destruct (negb _); [by apply hoare_ret|]. destruct (_ || _); [by apply hoare_fail|done].
Qed.

Lemma verifyVoteExtensionMw_safe c r b (φ : Core → Prop) next :
  (∀ verified, minted verified →
     hoare (λ n, after c n ∧ φ (core n)) (next verified) (λ _, after c) (after c)) →
  hoare (λ n, after c n ∧ φ (core n)) (verifyVoteExtensionMw cfg r b next) (λ _, after c) (after c).
Proof.
  intros Hn. assert (∀ n, after c n ∧ φ (core n) → after c n) as Hw by (by intros n [? _]).
  unfold verifyVoteExtensionMw. cbv zeta. destruct (_ || _); [by apply Hn|].
  do 1 (eapply hoare_bind; [eapply hoare_post; [apply after_core; kp|done|done]|]; intros stored).
  destruct stored; [by apply hoare_ret|].
  eapply hoare_bind; [eapply hoare_post; [apply after_core; kp|done|done]|]. intros st.
  eapply hoare_bind; [eapply hoare_post; [apply after_core; kp|done|done]|]. intros vals.
  destruct (GetByIndex _ _) as [val|]; [|by apply hoare_fail].
  eapply (hoare_bind _ _ _ (λ e n, minted (Some e) ∧ (after c n ∧ φ (core n)))).
  { apply hoare_lift_err; [|done]. intros n e Hne He. split; [|done]. intros e' [= <-]. eauto 10. }
  intros e. apply hoare_fact. intros Hm.
  do 2 (eapply hoare_bind; [eapply hoare_post; [apply after_core; kp|done|done]|]; intros ?).
  by apply Hn.
Qed.

Lemma AddVote_safe c r b :
  wf_vote (ref_vote r) →
  hoare (λ n, after c n ∧ known_now (ref_vote r) (core n)) (AddVote cfg o r b) (λ _, after c) (after c).
Proof using ASM.
  intros Hwf. unfold AddVote. destruct (_ =? PrevoteType)%Z.
  { apply errorMw_safe, validateVoteMw_safe.
    eapply hoare_bind; [by apply addToVoteSet_safe|]. intros added.
    apply stable_bind; [apply after_kept; kp|]. intros u. apply dispatchPrevoteMw_safe. }
  destruct (_ =? PrecommitType)%Z; [|by apply hoare_ret; intros n [? _]].
  apply errorMw_safe, validateVoteMw_safe, verifyVoteExtensionMw_safe. intros verified Hm.
  eapply hoare_bind; [by apply addToVoteSet_safe|]. intros added. apply dispatchPrecommitMw_safe.
Qed.

(** ** Events *)

(** Messages that can be handled: votes are well formed, commits are delivered. *)
Definition msg_ok (m : Message) : Prop :=
  match m with
  | VoteMessage r => wf_vote (ref_vote r)
  | CommitMessage c => DC c
  | _ => True
  end.

Definition msg_known (m : Message) (c : Core) : Prop :=
  match m with VoteMessage r => known_now (ref_vote r) c | _ => True end.

Lemma handleMessage_safe c m p t fr :
  msg_ok m →
  hoare (λ n, after c n ∧ msg_known m (core n)) (handleMessage cfg o m p t fr) (λ _, after c) (after c).
Proof using ASM.
  intros Hm. eapply hoare_bind; [eapply hoare_post; [apply after_core; kp|done|by intros ? [? _]]|].
  intros b. destruct m as [pr|h r part|r|cm]; cbn [msg_known].
  - eapply hoare_pre; [apply (after_kept c); kp|by intros ? [? _]].
  - eapply hoare_pre; [apply AddProposalBlockPart_safe|by intros ? [? _]].
  - by apply AddVote_safe.
  - eapply hoare_pre; [by apply TryAddCommit_safe|by intros ? [? _]].
Qed.

Lemma dispatch_safe c m p t fr :
  msg_ok m →
  hoare (λ n, after c n ∧ msg_known m (core n)) (dispatch cfg o m p t fr) (λ _, after c) (after c).
Proof using ASM.
  intros Hm.
  do 2 (eapply hoare_bind; [eapply hoare_post; [apply after_core; kp|done|by intros ? [? _]]|]; intros ?).
  destruct (negb _); [apply hoare_panic|]. destruct a; [|by apply hoare_ret; intros n [? _]].
  by apply hoare_ignore, handleMessage_safe.
Qed.

Lemma EnterPropose_after c h r : reached h r c → stable (after c) (EnterPropose cfg o h r).
Proof using ASM. apply (reached_after c h r). intros c' Hr. by apply EnterPropose_safe. Qed.

Lemma handleTimeout_safe c ti :
  reached (ti_Height ti) (ti_Round ti) c → stable (after c) (handleTimeout cfg o ti).
Proof using ASM.
  intros Hr. apply stable_bind; [apply after_kept; kp|]. intros s. cbv zeta.
  destruct (_ || _); [apply after_kept; kp|].
  destruct (_ =? _)%Z; [apply stable_ignore, EnterNewRound_after|].
  destruct (_ =? _)%Z; [by apply stable_ignore, EnterPropose_after|].
  destruct (_ =? _)%Z; [by apply stable_ignore, EnterPrevote_after|].
  destruct (_ =? _)%Z; [by apply stable_ignore, EnterPrecommit_after|].
  destruct (_ =? _)%Z; [|apply after_kept; kp].
  apply stable_bind; [by apply stable_ignore, EnterPrecommit_after|]. intros u.
  apply stable_ignore, EnterNewRound_after.
Qed.

Lemma handleTxsAvailable_safe c : stable (after c) (handleTxsAvailable cfg o).
Proof using ASM.
  apply hoare_at. intros n Hn. apply at_sd. intros n1 E1. unfold id.
  assert (∀ n', at_view (core2 n) n' → after c n') as Hv by (by intros; eapply after_view).
  destruct (view_fields _ _ E1) as (-> & -> & _). cbn -[core].
  destruct (negb _); [by apply hoare_ret|]. apply here_after; [done|]. intros c' Hr.
  destruct (_ =? _)%Z.
  - destruct (_ =? _)%Z; [apply after_kept; kp|]. apply stable_bind; [apply after_kept; kp|]. intros now.
    apply (reached_after c' (c_height (core n)) 0); [intros c''; apply Schedule_safe|].
    pose proof (b_round _ (proj1 (proj1 (proj1 Hn)))). unfold reached in *. lia.
  - by apply stable_when, stable_ignore, EnterPropose_after.
Qed.

Lemma base_queue c own :
  base c → (∀ v, v ∈ own → v ∈ c_own c) → base (mkCore (c_height c) (c_round c) (c_step c) (c_lround c)
    (c_lblock c) (c_lparts c) (c_vals c) (c_state c) (c_votes c) (c_commit c) (c_cround c) (c_signed c)
    own (c_store c) (c_timeouts c) (c_cands c)).
Proof. intros [] Ho. constructor; auto. Qed.

Lemma nextOwn_from c n :
  after c n →
  hoare (λ n', n' = n) nextOwn (λ m n', m = head (n_queue n) ∧
    (after c n' ∧ ∀ x, m = Some x → msg_known x (core n'))) (after c).
Proof.
  intros Hn. eapply (hoare_bind _ _ _ (λ q n', q = n_queue n ∧ n' = n)).
  { apply hoare_gets. by intros n' ->. }
  intros q. apply hoare_fact. intros ->. destruct (n_queue n) as [|m q] eqn:Eq.
  { apply hoare_ret. intros n' ->. by split_and!. }
  pose proof Hn as [[(Hb & Ht & Hl) Hp] Hla].
  assert (c_own (core n) = omap vote_of (m :: q)) as Eo by (by rewrite <- Eq).
  eapply (hoare_bind _ _ _ (λ _ n', after c n' ∧ msg_known m (core n'))).
  2: { intros u. apply hoare_ret. intros n' [? ?]. split; [done|]. split; [done|]. by intros x [= <-]. }
  apply hoare_modify. intros n' ->. split.
  - refine (conj (conj (conj _ (conj Ht Hl)) Hp) Hla). apply (base_queue (core n)); [done|].
    intros v Hv. rewrite Eo. cbn. destruct (vote_of m); [apply elem_of_cons; by right|done].
  - destruct m as [pr|h r part|r|cm]; try done. right. apply (b_own _ Hb). rewrite Eo. cbn.
    apply elem_of_cons. by left.
Qed.

(** What may happen to a node. *)
Definition admissible (e : event) (n : Node) : Prop :=
  match e with
  | PeerMessage m _ _ => msg_ok m ∧ (∀ r, m = VoteMessage r → D (ref_vote r))
  | OwnMessage _ => ∀ m, head (n_queue n) = Some m → msg_ok m
  | _ => True
  end.

Lemma PeerMaj23_safe c height round t peerID b :
  stable (after c) (handle cfg o (PeerMaj23 height round t peerID b)).
Proof using ASM.
  cbn [handle]. apply stable_bind; [apply after_kept; kp|]. intros s. apply stable_when, hoare_at.
  intros n Hn. apply votes_from; [done|]. intros hvs Hv. apply hoare_ignore.
  eapply (hoare_bind _ _ _ (λ v n', votes_ok (core n) v ∧ at_view (core2 n) n')).
  { apply hoare_lift_err; [|by intros n'; apply after_view].
    intros n' v En Hs. split; [|done]. by eapply hvs_SetPeerMaj23_sound. }
  intros v. apply hoare_fact. intros Hv'. by apply put_votes_from.
Qed.

Lemma timeout_reached n ti :
  good n → ti ∈ n_timeouts n → reached (ti_Height ti) (ti_Round ti) (core n).
Proof.
  intros [[Hb _] _] Hti. pose proof (b_timeouts _ Hb ti Hti) as [? ?]. unfold reached. cbn -[core]. lia.
Qed.

Lemma handle_safe c e n :
  after c n → admissible e n → hoare (λ n', n' = n) (handle cfg o e) (λ _, after c) (after c).
Proof using ASM.
  intros Hn He. destruct e as [m p t|t|ti| |h r t p b]; cbn [handle admissible] in *.
  - destruct He as [Hok HD]. apply hoare_when; [|by intros n' -> _].
    eapply hoare_bind; [eapply hoare_pre; [by apply (dispatch_safe c)|]|intros u; apply (after_kept c); kp].
    intros n' [-> _]. split; [done|]. destruct m; try done. left. by apply HD.
  - eapply hoare_bind; [by apply nextOwn_from|]. intros m. apply hoare_fact. intros Hm.
    destruct m as [m|]; [|by apply hoare_ret; intros n' [? _]].
    eapply hoare_bind; [eapply hoare_pre; [apply (dispatch_safe c); by apply He|]
      |intros u; apply (after_kept c); kp].
    intros n' [Ha Hk]. auto.
  - eapply (hoare_bind _ _ _ (λ l n', l = n_timeouts n ∧ n' = n)); [by apply hoare_gets; intros n' ->|].
    intros l. apply hoare_fact. intros ->. apply hoare_when; [|by intros n' -> _].
    apply (hoare_pre _ _ (λ n', ti ∈ n_timeouts n ∧ n' = n)); [|intros n' [-> E]; by bools].
    apply hoare_fact. intros Hti.
    eapply hoare_weaken; [apply (stable_bind (after (core n)))|..].
    + apply handleTimeout_safe, timeout_reached; [apply Hn|done].
    + intros u. apply after_kept. kp.
    + intros n' ->. split; [apply Hn|done].
    + intros u n'. apply after_trans, Hn.
    + intros n'. apply after_trans, Hn.
  - eapply hoare_bind; [eapply hoare_pre; [apply handleTxsAvailable_safe|by intros n' ->]|].
    intros u. apply (after_kept c). kp.
  - eapply hoare_pre; [apply PeerMaj23_safe|by intros n' ->].
Qed.

End commit.

End cscommit.
