(* ===== verification/ConsensusRuns.v ===== *)
(** * Consensus: runs of a node

    A node that starts a height with no votes and handles any sequence of events
    follows the voting rules, and saves only blocks that are decided. *)
From Stdlib Require Import ZArith Lia Init.Byte.
From stdpp Require Import base numbers list sets gmap.
From S2P Require Import Prelude.
From S2P Require Import StateM.
From S2P Require Import Merkle.
From S2P Require Import PartSet.
From S2P Require Import Types.
From S2P Require Import Crypto.
From S2P Require Import QuorumSign.
From S2P Require Import Proposal.
From S2P Require Import ValidatorSet.
From S2P Require Import Recoverer.
From S2P Require Import VoteSet.
From S2P Require Import VoteSetInv.
From S2P Require Import VoteSetSafe.
From S2P Require Import VoteSetThms.
From S2P Require Import HeightVoteSet.
From S2P Require Import HeightVoteSetThms.
From S2P Require Import Evidence.
From S2P Require Import Block.
From S2P Require Import Params.
From S2P Require Import SmState.
From S2P Require Import Execution.
From S2P Require Import SelectProposer.
From S2P Require Import VotesSound.
From S2P Require Import ConsensusTypes.
From S2P Require Import ConsensusData.
From S2P Require Import ConsensusVote.
From S2P Require Import ConsensusSteps.
From S2P Require Import ConsensusInv.
From S2P Require Import ConsensusSafe.
From S2P Require Import ConsensusCommit.

Import statem partset types crypto quorum valset recoverer voteset vsinv vssafe vsthms.
Import heightvs hvsthms proposal evidence block params sm abci selectproposer votes.
Import cstypes node csdata csvote cs csinv cssafe cscommit.

Module csruns.

Section runs.
Context `{Crypto} `{Dashd} `{MapOrder} `{StdTime} `{Executor} `{PrivValidator} `{BlockCodec}.
Context {S : Setting} {ASM : Assumptions S}.
Context (o : Oracle).

(** ** The start *)

(** A node before its first height: nothing of the round state is set, and it has
    neither voted nor kept commits. *)
Record fresh (n : Node) : Prop := {
  fr_commit_round : CommitRound (n_sd n) = (-1)%Z;
  fr_state : State_IsEmpty (SD_state (n_sd n)) = true;
  fr_signed : n_signed n = [];
  fr_queue : omap vote_of (n_queue n) = [];
  fr_store : n_store n = store0;
  fr_candidates : n_candidates n = mkCandidates 0 [];
  fr_timeouts : ∀ ti, ti ∈ n_timeouts n → (ti_Height ti ≤ h0)%Z ∧ (ti_Height ti = h0 → ti_Round ti ≤ 0)%Z }.

(** The committed state the node starts from. *)
Record starts (state : State) : Prop := {
  st_height : next_height state = h0;
  st_last : (LastBlockHeight state < MaxInt64)%Z;
  st_vals : State_Validators state = Some vals0;
  st_chain : ChainID state = cid }.

Lemma start_inv n state hvs :
  fresh n → starts state → hvs_sound cid (known []) vals0 h0 hvs → 
  inv (start_core state h0 vals0 hvs [] [] store0 (n_timeouts n) (mkCandidates 0 [])).
Proof using ASM.
  intros [F1 F2 F3 F4 F5 F6 F7] [T1 T2 T3 T4] Hv. pose proof asm_h0 as Hh0.
  assert (decisions store0 = []) as Ed by (unfold decisions; by rewrite drop_all).
  assert (∀ v : Vote, v ∈ [] → False) as Hnil by (intros v; apply not_elem_of_nil).
  split; [constructor|split]; unfold vals_now; cbn; rewrite ?Ed; cbn; try done.
  - apply firstn_all.
  - lia.
  - eauto.
  - constructor; try (by intros v ?%Hnil); by intros v w ?%Hnil.
  - left. split; [done|]. by intros v ?%Hnil.
  - by intros v ?%Hnil.
  - split; [lia|]. intros _ x ?%not_elem_of_nil. done.
  - intros k sv. by rewrite drop_all.
  - by intros v ?%Hnil.
Qed.

Lemma updateToState_start n state :
  fresh n → starts state →
  match updateToState o state None n with (n', Ok _) => good n' | _ => True end.
Proof using ASM.
  intros Hf Hs. pose proof Hf as [F1 F2 F3 F4 F5 F6 F7]. pose proof Hs as [T1 T2 T3 T4].
  assert (hoare (λ n', n' = n) (updateToState o state None) (λ _, good) (λ _, True)) as Ht.
  2: { specialize (Ht n eq_refl). by destruct (updateToState o state None n) as [n' [a|e|]]. }
  eapply (hoare_bind _ _ _ (λ go n', go = true ∧ n' = n)).
  { intros n' ->. unfold checkNewState, mbind, M_bind, sd, gets. cbn. by rewrite F1, F2. }
  intros go. apply hoare_fact. intros ->. cbn [when].
  eapply (hoare_bind _ _ _ (λ _ n', log (core n') = log (core n))).
  { eapply hoare_pre; [apply hoare_logged; [unfold newLastCommit, precommits, deref_sd; kp|done]|by intros n' ->]. }
  intros u. eapply hoare_weaken; [by apply (startHeight_at o state)|intros n' Hlog; eexists; exact Hlog| |done].
  intros u' n' (hvs & Hhvs & En). rewrite T1, T4 in *. cbn in En. rewrite F3, F4, F5, F6 in En.
  apply (NewHeightVoteSet_sound cid (known [])) in Hhvs. split.
  - rewrite (f_equal (λ y, y.1.1) En : core n' = _). by apply start_inv.
  - eapply view_parts; [exact En|by split; cbn; intros [? ?]].
Qed.

(** ** Runs *)

(** Every event of the run may happen where it does. *)
Fixpoint admissible_run (n : Node) (es : list event) : Prop :=
  match es with
  | [] => True
  | e :: es => admissible e n ∧
      match handle cfg o e n with (n', Ok _) => admissible_run n' es | _ => True end
  end.

Lemma run_good n es n' :
  good n → admissible_run n es → run cfg o n es = Some n' → good n'.
Proof using ASM.
  revert n. induction es as [|e es IH]; intros n Hg Ha Hr; [by injection Hr as <-|].
  destruct Ha as [He Ha]. pose proof (handle_safe o (core n) e n (conj Hg (reflexivity _)) He n eq_refl) as Hs.
  cbn [run] in Hr. destruct (handle cfg o e n) as [n1 [a|x|]]; [|done|done].
  eapply IH; [apply Hs|done|done].
Qed.

(** The node [n] is reached from a fresh start by events that may happen. *)
Definition reaches (n : Node) : Prop :=
  ∃ n0 state n1 es, fresh n0 ∧ starts state ∧ updateToState o state None n0 = (n1, Ok tt) ∧
    admissible_run n1 es ∧ run cfg o n1 es = Some n.

Lemma reaches_good n : reaches n → good n.
Proof using ASM.
  intros (n0 & state & n1 & es & Hf & Hs & Hu & Ha & Hr).
  pose proof (updateToState_start n0 state Hf Hs) as Hg. rewrite Hu in Hg. by eapply run_good.
Qed.

(** ** What a run guarantees *)

(** C3: A node never equivocates.  In any run, all the votes it signs for one height,
    round and type are for the same block, and carry its own validator hash. *)
Theorem one_vote_per_round n :
  reaches n →
  (∀ v, v ∈ n_signed n → cfg_privValidator cfg = Some (Vote_ValidatorProTxHash v)) ∧
  (∀ v w, v ∈ n_signed n → w ∈ n_signed n → Vote_Type v = Vote_Type w →
     Vote_Height v = Vote_Height w → Vote_Round v = Vote_Round w → Vote_BlockID v = Vote_BlockID w).
Proof using ASM.
  intros [[Hb _] _]%reaches_good. split; [exact (ru_signer _ _ (b_rules _ Hb))|exact (ru_once _ _ (b_rules _ Hb))].
Qed.

(** C2: A node votes by the rules of the protocol.  It precommits a block only with a
    quorum of verified prevotes for it in that round; and after a precommit for a
    block it prevotes in a later round only for the block it is locked on, which has
    a polka not older than the precommit, or for a block with a later polka. *)
Theorem voting_rules n :
  reaches n →
  (∀ v, v ∈ n_signed n → for_block PrecommitType v →
     polka (n_signed n) (height_vals (decisions (n_store n)) (Vote_Height v)) (Vote_Height v)
       (Vote_Round v) (Vote_BlockID v)) ∧
  (∀ p w, p ∈ n_signed n → w ∈ n_signed n → for_block PrecommitType p → for_block PrevoteType w →
     Vote_Height p = Vote_Height w → (Vote_Round p < Vote_Round w)%Z →
     justified (n_signed n) (height_vals (decisions (n_store n)) (Vote_Height w)) p w).
Proof using ASM.
  intros [[Hb _] _]%reaches_good.
  split; [exact (ru_precommit _ _ (b_rules _ Hb))|exact (ru_prevote _ _ (b_rules _ Hb))].
Qed.

(** C4: A node saves only decided blocks.  Every block it adds to the store is the
    block of the commit saved with it, is not nil, and is decided: there is a quorum
    of verified precommits for it, or a delivered commit whose signature verifies for
    the validators of its height.  The height is that of the next block. *)
Theorem saved_blocks_decided n :
  reaches n →
  take (length store0) (n_store n) = store0 ∧
  Height (n_sd n) = (h0 + Z.of_nat (length (drop (length store0) (n_store n))))%Z ∧
  ∀ k s, drop (length store0) (n_store n) !! k = Some s →
    let b := Commit_BlockID (saved_commit s) in
    IsNil b = false ∧ Meta_BlockID (saved_meta s) = b ∧
    decided (n_signed n) (vals_at (decisions (n_store n)) k) (h0 + Z.of_nat k) b.
Proof using ASM.
  intros [[Hb _] _]%reaches_good. split; [apply (b_store _ Hb)|]. split; [|apply (b_decided _ Hb)].
  pose proof (b_height _ Hb) as Hh. unfold decisions in Hh. by rewrite length_fmap in Hh.
Qed.

End runs.

End csruns.
