(* ===== verification/Agreement.v ===== *)
(** * Agreement

    Nodes that run the consensus code never save different blocks for a height, as
    long as the validators that do not run it are too few for two quorums to meet in
    them alone, signatures cannot be forged, and a threshold signature takes a quorum
    of signers. *)
From Stdlib Require Import ZArith Lia Init.Byte.
From stdpp Require Import base numbers list sets gmap.
From S2P Require Import Prelude.
From S2P Require Import StateM.
From S2P Require Import Merkle.
From S2P Require Import PartSet.
From S2P Require Import Types.
From S2P Require Import Crypto.
From S2P Require Import QuorumSign.
From S2P Require Import Proposal.
From S2P Require Import ValidatorSet.
From S2P Require Import Recoverer.
From S2P Require Import VoteSet.
From S2P Require Import VoteSetInv.
From S2P Require Import VoteSetSafe.
From S2P Require Import VoteSetThms.
From S2P Require Import HeightVoteSet.
From S2P Require Import HeightVoteSetThms.
From S2P Require Import Evidence.
From S2P Require Import Block.
From S2P Require Import Params.
From S2P Require Import SmState.
From S2P Require Import Execution.
From S2P Require Import SelectProposer.
From S2P Require Import VotesSound.
From S2P Require Import ConsensusTypes.
From S2P Require Import ConsensusData.
From S2P Require Import ConsensusVote.
From S2P Require Import ConsensusSteps.
From S2P Require Import ConsensusInv.
From S2P Require Import ConsensusSafe.
From S2P Require Import ConsensusCommit.
From S2P Require Import ConsensusRuns.

Import statem partset types crypto quorum valset recoverer voteset vsinv vssafe vsthms.
Import heightvs hvsthms proposal evidence block params sm abci selectproposer votes.
Import cstypes node csdata csvote cs csinv cssafe cscommit csruns.

Module agreement.

(** ** Quorums intersect *)

Section quorums.
Context `{Dashd}.

(** The validators that do not run the code. *)
Definition faulty (vals : ValidatorSet) (honest : bytes → bool) : list nat :=
  filter (λ k, from_option (λ v, honest (ProTxHash v)) false (Validators vals !! k) = false)
    (seq 0 (n_vals vals)).

(** Two quorums have more power in common than the faulty validators. *)
Definition resilient (vals : ValidatorSet) (honest : bytes → bool) : Prop :=
  (100 * Z.of_nat (length (faulty vals honest)) + 100 * Z.of_nat (n_vals vals) <
   2 * quorum_power vals)%Z.

(** Enough indexes of validators. *)
Definition quorum_list (vals : ValidatorSet) (l : list nat) : Prop :=
  NoDup l ∧ (quorum_power vals ≤ 100 * Z.of_nat (length l))%Z ∧ ∀ k, k ∈ l → k < n_vals vals.

Lemma intersection_size (l1 l2 : list nat) N :
  NoDup l1 → NoDup l2 → (∀ k, k ∈ l1 → k < N) → (∀ k, k ∈ l2 → k < N) →
  length l1 + length l2 ≤ N + size (list_to_set l1 ∩ list_to_set l2 : gset nat).
Proof.
  intros H1 H2 B1 B2. set (X := list_to_set l1 : gset nat). set (Y := list_to_set l2 : gset nat).
  rewrite <- (size_list_to_set (C := gset nat) l1 H1), <- (size_list_to_set (C := gset nat) l2 H2).
  fold X Y. assert (size (X ∪ Y) ≤ N) as Hu.
  { rewrite <- (size_set_seq (C := gset nat) 0 N). apply subseteq_size. intros k.
    rewrite elem_of_union, elem_of_set_seq. unfold X, Y. rewrite !elem_of_list_to_set.
    intros [?%B1|?%B2]; lia. }
  rewrite size_union_alt in Hu. pose proof (size_difference_alt Y X) as Hd.
  rewrite (intersection_comm_L X Y). lia.
Qed.

(** Two quorums of a resilient set have an honest validator in common. *)
Lemma quorums_meet vals honest l1 l2 :
  resilient vals honest → quorum_list vals l1 → quorum_list vals l2 →
  ∃ k val, k ∈ l1 ∧ k ∈ l2 ∧ Validators vals !! k = Some val ∧ honest (ProTxHash val) = true.
Proof.
  intros Hr (N1 & Q1 & B1) (N2 & Q2 & B2). unfold resilient in Hr.
  pose proof (intersection_size l1 l2 (n_vals vals) N1 N2 B1 B2) as Hsz.
  set (I := list_to_set l1 ∩ list_to_set l2 : gset nat) in Hsz.
  assert (size (list_to_set (faulty vals honest) : gset nat) = length (faulty vals honest)) as Hf.
  { apply size_list_to_set, NoDup_filter, NoDup_seq. }
  destruct (set_choose_or_empty (I ∖ list_to_set (faulty vals honest))) as [[k Hk]|He].
  - unfold I in Hk. rewrite elem_of_difference, elem_of_intersection, !elem_of_list_to_set in Hk.
    destruct Hk as [[Hk1 Hk2] Hk3]. unfold faulty in Hk3. rewrite list_elem_of_filter, elem_of_seq in Hk3.
    pose proof (B1 k Hk1) as Hlt. destruct (lookup_lt_is_Some_2 _ _ Hlt) as [val Ev]. exists k, val.
    rewrite Ev in Hk3. cbn in Hk3. destruct (honest (ProTxHash val)); [done|].
    exfalso. apply Hk3. split; [done|lia].
  - assert (I ⊆ list_to_set (faulty vals honest)) as Hs%subseteq_size by set_solver. lia.
Qed.

End quorums.

(** ** Rounds of one height *)

Section height.
Context `{Dashd} {I : Type} (owner : bytes → option I) (signed : I → list Vote).
Context (vals : ValidatorSet) (h : Z).

Definition honest (p : bytes) : bool := match owner p with Some _ => true | None => false end.

(** The honest validators of some quorum all signed such a vote. *)
Definition signed_quorum (r t : Z) (b : BlockID) : Prop :=
  ∃ l, quorum_list vals l ∧ ∀ k val i, k ∈ l → Validators vals !! k = Some val →
    owner (ProTxHash val) = Some i → ∃ w, w ∈ signed i ∧ Vote_Type w = t ∧ Vote_Height w = h ∧
      Vote_Round w = r ∧ Vote_BlockID w = b.

Context (Hres : resilient vals honest).
Context (Honce : ∀ i v w, v ∈ signed i → w ∈ signed i → Vote_Type v = Vote_Type w →
  Vote_Height v = Vote_Height w → Vote_Round v = Vote_Round w → Vote_BlockID v = Vote_BlockID w).
Context (Hprecommit : ∀ i v, v ∈ signed i → for_block PrecommitType v → Vote_Height v = h →
  signed_quorum (Vote_Round v) PrevoteType (Vote_BlockID v)).
Context (Hprevote : ∀ i p w, p ∈ signed i → w ∈ signed i → for_block PrecommitType p →
  for_block PrevoteType w → Vote_Height p = h → Vote_Height w = h →
  (Vote_Round p < Vote_Round w)%Z →
  ∃ lr x, (Vote_Round p ≤ lr < Vote_Round w)%Z ∧ IsNil x = false ∧ signed_quorum lr PrevoteType x ∧
    (Vote_BlockID w = x ∨
     ∃ vr, (lr ≤ vr < Vote_Round w)%Z ∧ signed_quorum vr PrevoteType (Vote_BlockID w))).

(** Two quorums have an honest node that signed in both. *)
Lemma common_signer r1 t1 b1 r2 t2 b2 :
  signed_quorum r1 t1 b1 → signed_quorum r2 t2 b2 →
  ∃ i v w, v ∈ signed i ∧ w ∈ signed i ∧
    (Vote_Type v = t1 ∧ Vote_Height v = h ∧ Vote_Round v = r1 ∧ Vote_BlockID v = b1) ∧
    (Vote_Type w = t2 ∧ Vote_Height w = h ∧ Vote_Round w = r2 ∧ Vote_BlockID w = b2).
Proof using Hres.
  intros (l1 & Q1 & S1) (l2 & Q2 & S2).
  destruct (quorums_meet vals honest l1 l2 Hres Q1 Q2) as (k & val & Hk1 & Hk2 & Ev & Hh).
  unfold honest in Hh. destruct (owner (ProTxHash val)) as [i|] eqn:Eo; [|done].
  destruct (S1 k val i Hk1 Ev Eo) as (v & ? & ?), (S2 k val i Hk2 Ev Eo) as (w & ? & ?).
  exists i, v, w. done.
Qed.

Lemma one_polka r b b' :
  signed_quorum r PrevoteType b → signed_quorum r PrevoteType b' → b = b'.
Proof using Hres Honce.
  intros Hb Hb'. destruct (common_signer _ _ _ _ _ _ Hb Hb') as (i & v & w & Hv & Hw & (? & ? & ? & <-) & ? & ? & ? & <-).
  eapply Honce; eauto; congruence.
Qed.

(** After a quorum of precommits for a block, polkas are only for that block. *)
Lemma later_polkas r1 b1 :
  IsNil b1 = false → signed_quorum r1 PrecommitType b1 →
  ∀ k r b, (r = r1 + Z.of_nat k)%Z → IsNil b = false → signed_quorum r PrevoteType b → b = b1.
Proof using Hres Honce Hprecommit Hprevote.
  intros Hn1 Hq1 k. induction k as [k IH] using lt_wf_ind. intros r b Er Hn Hq.
  destruct (common_signer _ _ _ _ _ _ Hq1 Hq)
    as (i & p & w & Hp & Hw & (Tp & Hh & Rp & Bp) & Tw & Hh' & Rw & Bw).
  assert (for_block PrecommitType p) as Hfp by (split; [done|by rewrite Bp]).
  destruct (decide (r = r1)) as [->|Hne].
  { apply (one_polka r1); [done|]. rewrite <- Bp, <- Rp. by eapply Hprecommit. }
  assert (for_block PrevoteType w) as Hfw by (split; [done|by rewrite Bw]).
  destruct (Hprevote i p w Hp Hw Hfp Hfw Hh Hh' ltac:(lia)) as (lr & x & Hlr & Hx & Hqx & Hor).
  assert (x = b1) as ->.
  { apply (IH (Z.to_nat (lr - r1)) ltac:(lia) lr); [lia|done|done]. }
  destruct Hor as [E|(vr & Hvr & Hqv)]; [congruence|].
  rewrite Bw in Hqv. apply (IH (Z.to_nat (vr - r1)) ltac:(lia) vr); [lia|done|done].
Qed.

Lemma one_decision r1 b1 r2 b2 :
  IsNil b1 = false → IsNil b2 = false → signed_quorum r1 PrecommitType b1 →
  signed_quorum r2 PrecommitType b2 → b1 = b2.
Proof using Hres Honce Hprecommit Hprevote.
  assert (∀ r1 b1 r2 b2, (r1 ≤ r2)%Z → IsNil b1 = false → IsNil b2 = false →
    signed_quorum r1 PrecommitType b1 → signed_quorum r2 PrecommitType b2 → b2 = b1) as Hle.
  { clear r1 b1 r2 b2. intros r1 b1 r2 b2 Hr Hn1 Hn2 Hq1 Hq2.
    destruct (common_signer _ _ _ _ _ _ Hq2 Hq2) as (i & v & _ & Hv & _ & (Tv & Hh & Rv & Bv) & _).
    apply (later_polkas r1 b1 Hn1 Hq1 (Z.to_nat (r2 - r1)) r2); [lia|done|].
    rewrite <- Bv, <- Rv. eapply Hprecommit; [done|split; [done|by rewrite Bv]|done]. }
  intros Hn1 Hn2 Hq1 Hq2. destruct (Z.le_ge_cases r1 r2); [symmetry|]; by eapply Hle.
Qed.
End height.

(** ** A network of nodes *)

(** The chain that all nodes run: its ID, the first height and its validators, and
    the validators that follow a block. *)
Record Chain := mkChain {
  ch_id : bytes;
  ch_height : Z;
  ch_vals : ValidatorSet;
  ch_next : Z → BlockID → ValidatorSet }.

(** The validator sets of the chain. *)
Definition chain_vals (ch : Chain) (vals : ValidatorSet) : Prop :=
  vals = ch_vals ch ∨ ∃ h b, vals = ch_next ch h b.

Section network.
Context `{Crypto} `{Dashd} `{MapOrder} `{StdTime} `{Executor} `{PrivValidator} `{BlockCodec}.

(** A node: its configuration, its store at the start, the votes and commits that
    peers deliver to it, its clock and choices, and the state it has reached. *)
Record Member := mkMember {
  m_config : Config;
  m_store : list savedBlock;
  m_votes : Vote → Prop;
  m_commits : Commit → Prop;
  m_oracle : Oracle;
  m_node : Node }.

Definition setting (ch : Chain) (m : Member) : Setting :=
  mkSetting (m_config m) (ch_id ch) (ch_height ch) (ch_vals ch) (ch_next ch) (m_store m) (m_votes m)
    (m_commits m).

Definition m_signed (m : Member) : list Vote := n_signed (m_node m).

(** The blocks a node has saved since it started. *)
Definition m_blocks (m : Member) : list savedBlock :=
  drop (length (m_store m)) (n_store (m_node m)).

(** The blocks the node has decided. *)
Definition m_decisions (ch : Chain) (m : Member) : list BlockID :=
  decisions (S := setting ch m) (n_store (m_node m)).

Context (ch : Chain) {I : Type} (members : I → Member) (owner : bytes → option I).

(** What agreement relies on, besides the code: every node started and ran as
    modelled, and signs with its own key; the sets of the chain are validated; a vote
    that verifies with the key of a node was signed by it; a commit verifies only
    with the threshold signature of a quorum; and the validators that are not nodes
    of the network are too few to connect two quorums. *)
Record network : Prop := {
  net_assumptions : ∀ i, Assumptions (setting ch (members i));
  net_reaches : ∀ i, reaches (S := setting ch (members i)) (m_oracle (members i))
    (m_node (members i));
  net_owner : ∀ i p, cfg_privValidator (m_config (members i)) = Some p → owner p = Some i;
  net_validated : ∀ vals, chain_vals ch vals → validated vals;
  net_signatures : ∀ i v vals h r t k j, m_votes (members i) v → chain_vals ch vals →
    vgood (ch_id ch) vals h r t k v → owner (Vote_ValidatorProTxHash v) = Some j →
    ∃ w, w ∈ m_signed (members j) ∧ same_vote w v;
  net_threshold : ∀ i c vals b, m_commits (members i) c → chain_vals ch vals →
    verifyCommit vals (ch_id ch) (Commit_BlockID c) (Commit_Height c) c b = Ok tt →
    signed_quorum owner (λ j, m_signed (members j)) vals (Commit_Height c) (Commit_Round c)
      PrecommitType (Commit_BlockID c);
  net_resilient : ∀ vals, chain_vals ch vals → resilient vals (honest owner) }.

Context (Hnet : network).

Definition signed_by (j : I) : list Vote := m_signed (members j).

Lemma member_good i : good (S := setting ch (members i)) (m_node (members i)).
Proof using Hnet.
  pose proof (net_assumptions Hnet i) as Ha. apply (reaches_good (m_oracle (members i))).
  apply (net_reaches Hnet i).
Qed.

Lemma member_rules i :
  rules (S := setting ch (members i)) (signed_by i) (m_decisions ch (members i)).
Proof using Hnet. destruct (member_good i) as [[Hb _] _]. exact (b_rules _ Hb). Qed.

Lemma chain_vals_at i ds k : chain_vals ch (vals_at (S := setting ch (members i)) ds k).
Proof. unfold vals_at. destruct k; [by left|]. destruct (ds !! k); [right; eauto|by left]. Qed.

(** The quorums a node has seen were signed by their honest members. *)
Lemma quorum_signed i vals h r t b :
  chain_vals ch vals →
  quorum_for (ch_id ch) (known (S := setting ch (members i)) (signed_by i)) vals h r t b →
  signed_quorum owner signed_by vals h r t b.
Proof using Hnet.
  intros Hc (_ & l & Hn & Hq & Hl). exists l. split; [split_and!; [done|done|]|].
  - intros k (v & _ & (_ & _ & _ & _ & _ & val & Ev & _) & _)%Hl. by apply lookup_lt_Some in Ev.
  - intros k val j Hk Ev Ho. destruct (Hl k Hk) as (v & Hkn & Hg & Eb).
    pose proof Hg as (_ & _ & Eh & Er & Et & val' & Ev' & Ep & _).
    assert (val' = val) as -> by congruence.
    assert (∃ w, w ∈ signed_by j ∧ same_vote w v) as (w & Hw & S1 & S2 & S3 & S4 & _).
    { destruct Hkn as [HD|(w & Hw & Hs)].
      - apply (net_signatures Hnet i v vals h r t k); [done|done|done|by rewrite Ep].
      - exists w. split; [|done]. pose proof Hs as (_ & _ & _ & _ & Ew).
        pose proof (ru_signer _ _ (member_rules i) w Hw) as Hsg. cbn in Hsg.
        apply (net_owner Hnet) in Hsg. rewrite Ew, Ep, Ho in Hsg. injection Hsg as ->. done. }
    exists w. split_and!; [done|congruence..].
Qed.

Lemma decided_signed i vals h b :
  chain_vals ch vals →
  decided (S := setting ch (members i)) (signed_by i) vals h b →
  ∃ r, signed_quorum owner signed_by vals h r PrecommitType b.
Proof using Hnet.
  intros Hc [[r Hr]|(c & (HD & Eh & _ & bud & Hv) & <-)].
  - exists r. by eapply quorum_signed.
  - exists (Commit_Round c). subst h. exact (net_threshold Hnet i c vals bud HD Hc Hv).
Qed.

(** ** Agreement on a height *)

(** The validators of a height, from the decisions of a node. *)
Definition vals_of (i : I) (k : nat) : ValidatorSet :=
  vals_at (S := setting ch (members i)) (m_decisions ch (members i)) k.

Definition agree (k : nat) : Prop :=
  ∀ i j b b', m_decisions ch (members i) !! k = Some b → m_decisions ch (members j) !! k = Some b' →
    b = b'.

Lemma same_vals i j k :
  (∀ k', k' < k → agree k') → k ≤ length (m_decisions ch (members i)) →
  k ≤ length (m_decisions ch (members j)) → vals_of i k = vals_of j k.
Proof.
  intros Ha Hi Hj. unfold vals_of. destruct k as [|k]; [done|]. cbn [vals_at].
  destruct (lookup_lt_is_Some_2 (m_decisions ch (members i)) k) as [b Eb]; [lia|].
  destruct (lookup_lt_is_Some_2 (m_decisions ch (members j)) k) as [b' Eb']; [lia|].
  rewrite Eb, Eb'. by rewrite (Ha k ltac:(lia) i j b b' Eb Eb').
Qed.

(** The rules of a node at height [k], with the validators that node [i] knows. *)
Lemma vals_for j i k v :
  (∀ k', k' < k → agree k') → k ≤ length (m_decisions ch (members i)) →
  v ∈ signed_by j → Vote_Height v = (ch_height ch + Z.of_nat k)%Z →
  height_vals (S := setting ch (members j)) (m_decisions ch (members j)) (Vote_Height v) = vals_of i k.
Proof using Hnet.
  intros Ha Hi Hv Eh. pose proof (ru_height _ _ (member_rules j) v Hv) as Hle. cbn [h0 setting] in Hle.
  rewrite Eh in *. unfold height_vals. cbn [h0 setting].
  replace (Z.to_nat (ch_height ch + Z.of_nat k - ch_height ch)) with k by lia.
  apply same_vals; [done|lia|done].
Qed.

Lemma agree_step k : (∀ k', k' < k → agree k') → agree k.
Proof using Hnet.
  intros Ha i j b b' Eb Eb'.
  pose proof (lookup_lt_Some _ _ _ Eb) as Hi. pose proof (lookup_lt_Some _ _ _ Eb') as Hj.
  set (vals := vals_of i k). set (h := (ch_height ch + Z.of_nat k)%Z).
  assert (chain_vals ch vals) as Hc by apply chain_vals_at.
  assert (∀ m c, m_decisions ch (members m) !! k = Some c → vals_of m k = vals → IsNil c = false ∧
    ∃ r, signed_quorum owner signed_by vals h r PrecommitType c) as Hdec.
  { intros m c Em Ev. destruct (member_good m) as [[Hb _] _].
    unfold m_decisions, decisions in Em. apply list_lookup_fmap_Some in Em as (sv & -> & Esv).
    destruct (b_decided _ Hb k sv Esv) as (Hn & _ & Hd). split; [done|].
    apply (decided_signed m); [done|]. rewrite <- Ev. exact Hd. }
  destruct (Hdec i b Eb eq_refl) as [Hn [r Hq]].
  destruct (Hdec j b' Eb') as [Hn' [r' Hq']]; [by apply same_vals; [|lia..]|].
  assert (∀ m v, v ∈ signed_by m → Vote_Height v = h →
    height_vals (S := setting ch (members m)) (m_decisions ch (members m)) (Vote_Height v) = vals) as Hv.
  { intros m v Hv Eh. apply vals_for; [done|lia|done|done]. }
  eapply (one_decision owner signed_by vals h); [by apply (net_resilient Hnet)|..|exact Hn|exact Hn'|exact Hq|exact Hq'].
  - intros m v w. apply (ru_once _ _ (member_rules m)).
  - intros m v Hv' Hf Eh. apply (quorum_signed m); [done|]. rewrite <- (Hv m v Hv' Eh), <- Eh.
    by apply (ru_precommit _ _ (member_rules m)).
  - intros m p w Hp Hw Hfp Hfw Ep Ew Hlt.
    destruct (ru_prevote _ _ (member_rules m) p w Hp Hw Hfp Hfw ltac:(congruence) Hlt)
      as (lr & x & Hlr & _ & Hx & Hpol & Hor).
    rewrite (Hv m w Hw Ew), Ew in *. exists lr, x. split_and!; [lia|lia|done|by apply (quorum_signed m)|].
    destruct Hor as [?|(vr & ? & ?)]; [by left|]. right. exists vr. split; [done|by apply (quorum_signed m)].
Qed.

Lemma agree_all k : agree k.
Proof using Hnet. induction k as [k IH] using lt_wf_ind. by apply agree_step. Qed.

(** C1: Agreement.  No two nodes of the network save different blocks for a height:
    the blocks that any two nodes have saved at the same position, from the first
    height on, have the same block ID, and so do their commits. *)
Theorem agreement_safe i j k s s' :
  m_blocks (members i) !! k = Some s → m_blocks (members j) !! k = Some s' →
  Meta_BlockID (saved_meta s) = Meta_BlockID (saved_meta s') ∧
  Commit_BlockID (saved_commit s) = Commit_BlockID (saved_commit s').
Proof using Hnet.
  unfold m_blocks. intros Ei Ej. destruct (member_good i) as [[Bi _] _], (member_good j) as [[Bj _] _].
  destruct (b_decided _ Bi k s Ei) as (_ & -> & _), (b_decided _ Bj k s' Ej) as (_ & -> & _).
  assert (Commit_BlockID (saved_commit s) = Commit_BlockID (saved_commit s')) as ->; [|done].
  apply (agree_all k i j); unfold m_decisions, decisions; cbn [store0 setting];
    rewrite list_lookup_fmap;
    [by rewrite Ei|by rewrite Ej].
Qed.

End network.

End agreement.
