(* ===== verification/ConsensusDemo.v ===== *)
(** * Consensus: a node that runs

    Toy instances of the interfaces and a chain with one validator, on which the
    state machine is executed. *)
From Stdlib Require Import ZArith Lia Init.Byte.
From stdpp Require Import base numbers list sets gmap.
From S2P Require Import Prelude.
From S2P Require Import StateM.
From S2P Require Import Merkle.
From S2P Require Import PartSet.
From S2P Require Import Types.
From S2P Require Import Crypto.
From S2P Require Import QuorumSign.
From S2P Require Import Proposal.
From S2P Require Import ValidatorSet.
From S2P Require Import Recoverer.
From S2P Require Import VoteSet.
From S2P Require Import VoteSetThms.
From S2P Require Import HeightVoteSet.
From S2P Require Import Evidence.
From S2P Require Import Block.
From S2P Require Import Params.
From S2P Require Import SmState.
From S2P Require Import Execution.
From S2P Require Import SelectProposer.
From S2P Require Import ConsensusTypes.
From S2P Require Import ConsensusData.
From S2P Require Import ConsensusVote.
From S2P Require Import ConsensusSteps.
From S2P Require Import VoteSetInv.
From S2P Require Import VotesSound.
From S2P Require Import ConsensusInv.
From S2P Require Import ConsensusSafe.
From S2P Require Import ConsensusCommit.
From S2P Require Import ConsensusRuns.
From S2P Require Import Agreement.

Import statem partset types crypto quorum valset recoverer voteset heightvs vsthms.
Import proposal evidence block params sm abci selectproposer cstypes node csdata csvote cs.
Import vsinv votes csinv cssafe cscommit csruns agreement.

Module csdemo.

#[local] Existing Instance toy_crypto.
#[local] Existing Instance toy_dashd.
#[local] Existing Instance toy_order.
#[local] Existing Instance toy_time.

Definition chain : bytes := [x61].
Definition solo : ValidatorSet := demo_valset [x07].

Definition solo_hash : bytes := match vals_hash solo with Ok h => h | _ => [] end.

Definition genesis : State :=
  mkState (mkStateVersion (mkVersion BlockProtocol 1) []) chain 1 0 0 nilBlockID (77 * millisecond) 3
    (Some solo) None 1
    (mkParams (mkBP 100000 (-1)) DefaultEvidenceParams DefaultValidatorParams (mkVersionParams 1 0)
       (mkSP 0 0) (mkTP 0 0 0 0) DefaultABCIParams) 1 [] [].

(** The block the toy application proposes at a height. *)
Definition toy_block (height : Z) (lastCommit : Commit) : Block :=
  let h := mkHeader (mkVersion BlockProtocol 1) chain height 3 (77 * millisecond) (Commit_BlockID lastCommit)
             None None solo_hash solo_hash (demo_hash x04) (demo_hash x05)
             (demo_hash x06) (demo_hash x07) None (demo_hash x07) 1 in
  let b := mkBlock h (mkData [[x01]; [x02; x03]]) None [] (Some lastCommit) in
  match fillHeader b with Ok b => b | _ => b end.

Definition toy_crs (st : State) (b : Block) (round : Z) (src : Source) : CurrentRoundState :=
  mkCRS st round (demo_hash x07) (Some (H_AppHash (B_Header b))) []
    (Some (H_ResultsHash (B_Header b))) None (State_Params st) 1 (Some solo) 1
    (mkRP (Some (H_AppHash (B_Header b))) [] None None None src round).

Definition toy_executor : Executor := {|
  App := unit;
  CreateProposalBlock := λ app height round st commit proTxHash version,
    let b := toy_block height commit in (app, Ok (Some b, toy_crs st b round PrepareProposalSource));
  ProcessProposal := λ app b round st, (app, Ok (toy_crs st b round ProcessProposalSource));
  ValidateBlockWithRoundState := λ app st crs b, (app, Ok tt);
  FinalizeBlock := λ app st crs id b commit,
    (app, if (H_Height (B_Header b) <? MaxInt64)%Z
          then Ok (State_Update st id (B_Header b) (toy_crs st b 0 NoSource), false) else Panic);
  ExtendVote := λ app v, (app, Ok []);
  VerifyVoteExtension := λ app v, (app, Ok tt) |}.

(** Signs everything. *)
Definition toy_pv : PrivValidator := {|
  Signing := unit;
  SignVote := λ s chainID qt qh v,
    (s, match MakeQuorumSigns chainID qt qh v with
        | Ok q => Some (mkPV (PV_Type v) (PV_Height v) (PV_Round v) (PV_BlockID v)
                    (PV_ValidatorProTxHash v) (PV_ValidatorIndex v)
                    (toy_sign (SI_SignHash (QSD_Block q))) (PV_VoteExtensions v))
        | _ => None
        end);
  SignProposal := λ s chainID qt qh p,
    (s, match ProposalBlockSignID (E := unit) chainID p qt qh with
        | Ok h => Some (csvote.set_signature p (toy_sign h))
        | _ => None
        end) |}.

(** Knows one block. *)
Definition toy_codec : BlockCodec := {|
  Unmarshal_Block := λ _, Some (Block_ToProto (toy_block 1 (mkCommit 0 0 nilBlockID [] [] []))) |}.

Definition toy_config : Config :=
  mkConfig (demo_hash x07) (Some (demo_hash x07)) 1 true false true 0 false 0 0 0 0.

Definition toy_oracle : Oracle :=
  mkOracle (λ k, (100 + Z.of_nat k) * millisecond)%Z (λ _, true) (λ _ _ _, true) (λ _ _, true).

#[local] Existing Instance toy_executor.
#[local] Existing Instance toy_pv.
#[local] Existing Instance toy_codec.

Definition blank : StateData :=
  mkSD 0 0 0 zero_time zero_time None None None zero_time None None (-1) None None None (-1) None
    zero_time None None (-1) None None false false nilBlockID zeroCRS
    zeroState false.

Definition node0 : Node :=
  mkNode blank genesis genesis (mkCandidates 0 []) (mkExpectations 0 ∅) (mkCatchup 0 0)
    (tt : @App toy_executor) (tt : @Signing toy_pv) [] [mkTI 0 1 0 RoundStepNewHeight] [] [] [] [] 0 0.

Definition started : Node := (updateToState toy_oracle genesis None node0).1.

(** The timeout of the first height, then the messages the node sends itself: its
    proposal, the block, its prevote and its precommit. *)
Definition demo_events : list event :=
  TimeoutFires (mkTI 0 1 0 RoundStepNewHeight) :: replicate 4 (OwnMessage 78).

(** Whether a message can be handled, as a test. *)
Definition msg_okb (m : Message) : bool :=
  match m with VoteMessage r => wf_voteb (ref_vote r) | CommitMessage _ => false | _ => true end.

(** A run on the node's own messages and timeouts that never fails. *)
Fixpoint own_run (n : Node) (es : list event) : option Node :=
  match es with
  | [] => Some n
  | e :: es =>
      if match e with
         | OwnMessage _ => from_option msg_okb true (head (n_queue n))
         | PeerMessage _ _ _ => false
         | _ => true
         end
      then match handle toy_config toy_oracle e n with (n', Ok _) => own_run n' es | _ => None end
      else None
  end.

(** What is looked at of a node. *)
Definition observe (n : Node) : list savedBlock * list Vote * Z * Z :=
  (n_store n, n_signed n, Height (n_sd n), Step (n_sd n)).

Definition demo_final : Node := default started (own_run started demo_events).

(** The run, evaluated. *)
Definition demo_data : list savedBlock * list Vote * Z * Z := Eval vm_compute in observe demo_final.

Lemma validator_run : observe <$> own_run started demo_events = Some demo_data.
Proof. vm_compute. reflexivity. Qed.

(** The node proposes, votes, commits its block and goes on with the next height. *)
Lemma demo_commits :
  (demo_data.2, demo_data.1.2, length demo_data.1.1.1, Vote_Type <$> demo_data.1.1.2) =
  (RoundStepPropose, 2%Z, 1, [PrevoteType; PrecommitType]).
Proof. vm_compute. reflexivity. Qed.

Lemma observed {r : option Node} {d} :
  observe <$> r = Some d → r = Some (default started r) ∧ observe (default started r) = d.
Proof. destruct r; cbn; [|discriminate]. intros E. injection E as E. by split. Qed.

(** ** A node that follows *)

(** The messages the validator sends, which it also handles itself. *)
Fixpoint own_messages (n : Node) (k : nat) : list Message :=
  match k, head (n_queue n) with
  | S k, Some m =>
      match handle toy_config toy_oracle (OwnMessage 78) n with
      | (n', Ok _) => m :: own_messages n' k
      | _ => [m]
      end
  | _, _ => []
  end.

Definition sent : list Message := Eval vm_compute in
  match run toy_config toy_oracle started [TimeoutFires (mkTI 0 1 0 RoundStepNewHeight)] with
  | Some n => own_messages n 4
  | None => []
  end.

(** A node that is no validator. *)
Definition observer_config : Config :=
  mkConfig (demo_hash x08) None 1 true false true 0 false 0 0 0 0.

Definition observer_events : list event :=
  TimeoutFires (mkTI 0 1 0 RoundStepNewHeight) :: map (λ m, PeerMessage m [x01] 78) sent.

Definition observer_final : Node :=
  default started (run observer_config toy_oracle started observer_events).

Definition observer_data : list savedBlock * list Vote * Z * Z := Eval vm_compute in observe observer_final.

Lemma observer_run :
  observe <$> run observer_config toy_oracle started observer_events = Some observer_data.
Proof. vm_compute. reflexivity. Qed.

Lemma observer_commits :
  (observer_data.1.2, length observer_data.1.1.1, length observer_data.1.1.2) = (2%Z, 1, 0).
Proof. vm_compute. reflexivity. Qed.

(** ** The network of the two *)

Definition toy_chain : Chain := mkChain chain 1 solo (λ _ _, solo).

Definition validator : Member :=
  mkMember toy_config [] (λ _, False) (λ _, False) toy_oracle demo_final.

Definition observer : Member :=
  mkMember observer_config [] (λ v, v ∈ omap vote_of sent) (λ _, False) toy_oracle
    observer_final.

Definition toy_members (b : bool) : Member := if b then validator else observer.

Definition toy_owner (p : bytes) : option bool :=
  if bool_decide (p = demo_hash x07) then Some true else None.

Lemma solo_validated : validated solo.
Proof.
  constructor.
  - vm_compute; split; discriminate.
  - vm_compute; discriminate.
  - vm_compute; reflexivity.
  - reflexivity.
  - intros v Hv. apply list_elem_of_fmap in Hv as (c & -> & _). reflexivity.
  - apply (bool_decide_eq_true_1 (NoDup _)); vm_compute; reflexivity.
Qed.

Lemma toy_assumptions m : Assumptions (setting toy_chain m).
Proof.
  constructor.
  - exact merkle.toy_hash_len.
  - exact demo_byte_types.
  - done.
  - intros _. apply solo_validated.
  - intros h b _. apply solo_validated.
  - intros app st crs id b commit app' st' im Hf. cbn in Hf.
    destruct (H_Height (B_Header b) <? MaxInt64)%Z eqn:E; [|done]. apply Z.ltb_lt in E.
    injection Hf as _ <- _. done.
Qed.

Lemma toy_fresh m : m_store m = [] → fresh (S := setting toy_chain m) node0.
Proof.
  intros Hs. constructor; try done. intros ti Hti. apply list_elem_of_singleton in Hti as ->. done.
Qed.

Lemma toy_starts m : starts (S := setting toy_chain m) genesis.
Proof. by constructor. Qed.

Lemma started_ok : updateToState toy_oracle genesis None node0 = (started, Ok tt).
Proof.
  assert ((updateToState toy_oracle genesis None node0).2 = Ok tt) as E by (vm_compute; reflexivity).
  unfold started. by destruct (updateToState toy_oracle genesis None node0) as [n r]; cbn in E; subst r.
Qed.

Lemma msg_okb_ok (S : Setting) m : msg_okb m = true → msg_ok m.
Proof.
  destruct m as [p|h r part|r|c]; [done|done| |done]. cbn. unfold wf_voteb, wf_vote. intros Hw.
  apply andb_true_iff in Hw as [Hw ?]. split; [|done].
  by destruct (Vote_ValidateBasic _) as [[]| |].
Qed.

Lemma own_run_spec n es n' :
  own_run n es = Some n' →
  admissible_run (S := setting toy_chain validator) toy_oracle n es ∧
  run toy_config toy_oracle n es = Some n'.
Proof.
  revert n. induction es as [|e es IH]; intros n Hr; [done|]. cbn [own_run admissible_run run] in *.
  change (@cfg (setting toy_chain validator)) with toy_config.
  destruct (match e with OwnMessage _ => _ | PeerMessage _ _ _ => _ | _ => _ end) eqn:He; [|done].
  destruct (handle toy_config toy_oracle e n) as [n1 [a|x|]]; [|done|done].
  destruct (IH n1 Hr) as [Ha Hrun]. split; [split; [|exact Ha]|exact Hrun].
  destruct e; cbn in *; try done. intros m Hm. rewrite Hm in He. by apply msg_okb_ok.
Qed.

Lemma any_admissible (S : Setting) o n es :
  (∀ e n, e ∈ es → admissible e n) → admissible_run o n es.
Proof.
  revert n. induction es as [|e es IH]; intros n Ha; [done|]. split; [apply Ha, elem_of_cons; by left|].
  destruct (handle _ _ _ _) as [n' [a|x|]]; [|done|done]. apply IH. intros. apply Ha, elem_of_cons. by right.
Qed.

#[local] Opaque run own_run started.
#[local] Opaque demo_final observer_final.

(** The stores and the votes of the two nodes, as evaluated. *)
Lemma validator_data : observe (m_node validator) = demo_data.
Proof. exact (proj2 (observed validator_run)). Qed.

Lemma observer_store : observe (m_node observer) = observer_data.
Proof. exact (proj2 (observed observer_run)). Qed.

Lemma validator_signed : m_signed validator = demo_data.1.1.2.
Proof. exact (f_equal (λ d, d.1.1.2) validator_data). Qed.

Lemma validator_reaches :
  reaches (S := setting toy_chain validator) toy_oracle (m_node validator).
Proof.
  exists node0, genesis, started, demo_events. split; [by apply toy_fresh|]. split; [apply toy_starts|].
  split; [apply started_ok|]. exact (own_run_spec _ _ _ (proj1 (observed validator_run))).
Qed.

Lemma observer_reaches :
  reaches (S := setting toy_chain observer) toy_oracle (m_node observer).
Proof.
  exists node0, genesis, started, observer_events. split; [by apply toy_fresh|]. split; [apply toy_starts|].
  split; [apply started_ok|]. split.
  - assert (forallb msg_okb sent = true) as Hok by (vm_compute; reflexivity).
    apply any_admissible. intros e n He. unfold observer_events in He.
    apply elem_of_cons in He as [->|He]; [done|]. apply (list_elem_of_fmap _ sent) in He as (m & -> & Hm).
    split.
    + apply msg_okb_ok. rewrite forallb_forall in Hok. exact (Hok m (proj1 (list_elem_of_In _ _) Hm)).
    + intros r ->. apply list_elem_of_omap. exists (VoteMessage r).
      split; [exact Hm|reflexivity].
  - exact (proj1 (observed observer_run)).
Qed.

(** Every vote sent was signed by the validator. *)
Definition same_voteb (w v : Vote) : bool :=
  (Vote_Type w =? Vote_Type v)%Z && (Vote_Height w =? Vote_Height v)%Z &&
  (Vote_Round w =? Vote_Round v)%Z && bool_decide (Vote_BlockID w = Vote_BlockID v) &&
  bool_decide (Vote_ValidatorProTxHash w = Vote_ValidatorProTxHash v).

Lemma same_voteb_ok w v : same_voteb w v = true → same_vote w v.
Proof. unfold same_voteb. intros Hs. bools. done. Qed.

Lemma sent_signed v : v ∈ omap vote_of sent → ∃ w, w ∈ m_signed validator ∧ same_vote w v.
Proof.
  intros Hv. rewrite validator_signed.
  assert (forallb (λ v, existsb (λ w, same_voteb w v) demo_data.1.1.2) (omap vote_of sent) = true) as Hok by (vm_compute; reflexivity).
  rewrite forallb_forall in Hok. specialize (Hok v (proj1 (list_elem_of_In _ _) Hv)). apply existsb_exists in Hok as (w & Hw & Hs).
  exists w. split; [exact (proj2 (list_elem_of_In _ _) Hw)|]. by apply same_voteb_ok.
Qed.

Lemma toy_network : network toy_chain toy_members toy_owner.
Proof.
  assert (∀ vals, chain_vals toy_chain vals → vals = solo) as Hsolo by (intros vals [->|(h & b & ->)]; done).
  constructor.
  - intros i. apply toy_assumptions.
  - intros [|]; [exact validator_reaches|exact observer_reaches].
  - intros [|] p; cbn; [|done]. intros [= <-]. reflexivity.
  - intros vals ->%Hsolo. apply solo_validated.
  - intros [|] v vals h r t k j Hv _ _ Ho; cbn in Hv; [done|]. unfold toy_owner in Ho.
    destruct (bool_decide _); [|done]. injection Ho as <-. by apply sent_signed.
  - intros [|] c vals b Hc; done.
  - intros vals ->%Hsolo. vm_compute. reflexivity.
Qed.

(** ** The theorems on these runs *)

Lemma solo_always m ds h : height_vals (S := setting toy_chain m) ds h = solo.
Proof. unfold height_vals, vals_at. destruct (Z.to_nat _); [reflexivity|]. by destruct (ds !! n). Qed.

Lemma one_vote_per_round_witness :
  length (m_signed validator) = 2 ∧
  Forall (λ v, toy_config.(cfg_privValidator) = Some (Vote_ValidatorProTxHash v)) (m_signed validator).
Proof.
  split; [rewrite validator_signed; vm_compute; reflexivity|]. apply Forall_forall.
  exact (proj1 (one_vote_per_round (S := setting toy_chain validator)
    (ASM := toy_assumptions validator) toy_oracle (m_node validator) validator_reaches)).
Defined.

Lemma voting_rules_witness :
  Exists (for_block PrecommitType) (m_signed validator) ∧
  Forall (λ v, for_block PrecommitType v →
    polka (S := setting toy_chain validator) (m_signed validator) solo (Vote_Height v) (Vote_Round v)
      (Vote_BlockID v)) (m_signed validator).
Proof.
  split.
  - rewrite validator_signed. apply Exists_cons_tl, Exists_cons_hd. split; vm_compute; reflexivity.
  - apply Forall_forall. intros v Hv Hf.
    pose proof (proj1 (voting_rules (S := setting toy_chain validator)
      (ASM := toy_assumptions validator) toy_oracle (m_node validator) validator_reaches) v Hv Hf) as Hp.
    rewrite solo_always in Hp. exact Hp.
Defined.

Lemma saved_blocks_decided_witness :
  Height (n_sd (m_node observer)) = 2%Z ∧
  Forall (λ s, Meta_BlockID (saved_meta s) = Commit_BlockID (saved_commit s))
    (n_store (m_node observer)).
Proof.
  destruct (saved_blocks_decided (S := setting toy_chain observer)
    (ASM := toy_assumptions observer) toy_oracle (m_node observer) observer_reaches) as (_ & Hh & Hd).
  split; [exact (f_equal (λ d, d.1.2) observer_store)|].
  apply Forall_lookup. intros k s Hk. exact (proj1 (proj2 (Hd k s Hk))).
Defined.

Lemma agreement_safe_witness :
  (Meta_BlockID ∘ saved_meta) <$> (n_store (m_node validator) !! 0) =
  (Meta_BlockID ∘ saved_meta) <$> (n_store (m_node observer) !! 0) ∧
  length (n_store (m_node validator)) = 1 ∧ length (n_store (m_node observer)) = 1.
Proof.
  pose proof (f_equal (λ d, length d.1.1.1) validator_data : length (n_store (m_node validator)) = 1) as L1.
  pose proof (f_equal (λ d, length d.1.1.1) observer_store : length (n_store (m_node observer)) = 1) as L2.
  split; [|split; assumption].
  destruct (n_store (m_node validator) !! 0) as [s|] eqn:E1.
  2: { apply lookup_ge_None in E1. rewrite L1 in E1. lia. }
  destruct (n_store (m_node observer) !! 0) as [s'|] eqn:E2.
  2: { apply lookup_ge_None in E2. rewrite L2 in E2. lia. }
  exact (f_equal Some (proj1 (agreement_safe toy_chain toy_members toy_owner toy_network
    true false 0 s s' E1 E2))).
Defined.

End csdemo.
